(* ===== verification/_CoqProject ===== *)
-Q . S2P
Prelude.v
MachineInt.v
IndexMap.v
Str.v
Float64.v
Value.v
Cmp.v
ListOps.v
DictOps.v
Arith.v
UnionOps.v
TypeStr.v
Units.v
SemaTypes.v
Iter.v
Display.v
Builtin.v
Lexer.v
Token.v
TokenStream.v
TokenProps.v
IntLit.v
Ast.v
Parser.v
ParseType.v
ParseExpr.v
ParseStmt.v
ParserProps.v
Grammar.v
GrammarProps.v
ParserSpec.v
ModuleSpec.v
TyCalc.v
TypeSound.v
Eval.v
TyExpr.v
OpSound.v
ExprSound.v
Lazy.v
Addr.v
Scopes.v
EvalStmt.v
LazySound.v
Builtins.v
Args.v
StrMethods.v
StrProps.v
Plan.v
PlanSpec.v
Context.v
Format.v
FormatProps.v
Json.v
JsonProps.v
BuiltinApi.v
Linking.v
Net.v
NetProps.v
Desugar.v
DesugarProps.v
Preprocess.v
PreprocessProps.v
Override.v
OverrideProps.v
Fix.v
FixProps.v
Vet.v
VetProps.v
Packages.v
Load.v
LoadGraph.v
LoadProps.v
