(* ===== verification/Prelude.v ===== *)
(** * The KCL compiler and runtime: a verified model

    KCL is a configuration language.  A program of it goes through the lexer
    ([crates/lexer], [crates/parser/src/lexer]), the parser ([crates/parser]),
    the resolver with its static types ([crates/sema]) and the evaluator
    ([crates/evaluator]), which runs the program over the values of the runtime
    ([crates/runtime]): the evaluator calls the operators, the union of
    configurations, the type checks and the built-in functions of the runtime,
    and the result is planned and printed as YAML or JSON.

    ** Files: the runtime

    - [Prelude]: panics and the result monad [Res] in which every fallible
      operation of the source is written, shared tactics and list lemmas.
    - [MachineInt]: integers of a width with wrapping and checked operations
      under a build [Profile] (overflow checks on or off), and the integer half
      of [value/val_overflow.rs]; [Float64]: doubles as the executable floats of
      the Standard Library, and the other half of that file.
    - [IndexMap]: the insertion-ordered map of the [indexmap] crate as an
      association list, with [insert], [get], [extend] and [swap_remove].
    - [Str]: strings as UTF-8 bytes with the methods of [str] that are used.
    - [Value]: [api/kcl.rs] (the value type), [val.rs], [val_kind.rs],
      [val_is_in.rs] (the predicates), [val_as_val.rs], [val_logic.rs],
      [val_len.rs].  [wf_value] is the invariant of values: unique keys in
      every dictionary and 64-bit integers.
    - [Cmp]: [val_cmp.rs], membership of [val_is_in.rs], list search of
      [val_list.rs], [unification/subsume.rs].
    - [ListOps]: [val_list.rs], slices and subscripts of [val_bin.rs].
    - [DictOps]: [val_dict.rs], [val_schema.rs], [walker.rs], [val_clone.rs],
      [val_get_set.rs].
    - [Arith]: [val_bin.rs], [val_bin_aug.rs], [val_unary.rs] under a
      [ContextConfig].
    - [UnionOps]: [val_union.rs] and its callers in [val_bin.rs],
      [val_bin_aug.rs], [val_dict.rs], [val_type.rs] and [collection/mod.rs].
    - [TypeStr]: the run-time types of [val_type.rs], which are strings that
      [check_type] takes apart each time.
    - [Units]: [units/mod.rs].
    - [Iter], [Display], [Builtin]: [value/iter.rs], the end of
      [value/val_fmt.rs], [stdlib/builtin.rs].
    - [Args]: [val_args.rs], positional and keyword arguments.
    - [StrMethods]: [val_str.rs] and the [kcl_builtin_str_*] functions of
      [value/api.rs] that call it; [StrProps]: their theorems.
    - [Plan]: [val_plan.rs], the part of a result that is printed; [PlanSpec]:
      the plan as a recursive definition.
    - [Context]: the record of [api/kcl.rs] that a run shares, with the setters
      of [context/mod.rs], in a state monad [Effect] whose state outlives a
      panic; [val_decorator.rs], [assert] and [print] of [stdlib], and
      [panic/mod.rs] ([runtime.catch]).
    - [Format]: the rest of [val_fmt.rs], format specifiers and templates;
      [FormatProps]: what they print and read.
    - [BuiltinApi]: [stdlib/builtin_api.rs], the builtin functions as the
      evaluator calls them, with [float], [round] and [option];
      [collection/mod.rs]; [Addr]: the names of [addr.rs].
    - [Net]: [net/mod.rs], addresses, networks, hosts and ports; [NetProps]: the
      allotment of subnets and the round trips of the texts.
    - [Json]: [val_json.rs], [val_yaml.rs] and the packages [json/mod.rs],
      [yaml/mod.rs] and [manifests]; [JsonProps]: the forms and texts of values
      and the merge patches of RFC 7396.

    ** Files: the front end

    - [Lexer]: [crates/lexer], the raw tokens of a text; [Token]:
      [crates/ast/src/token.rs], interned names and kinds of tokens;
      [TokenStream]: [crates/parser/src/lexer], with the stacks of indentation
      and of delimiters; [IntLit]: integer literals; [TokenProps]: the theorems
      on the token stream.
    - [Ast]: [crates/ast/src/ast.rs], the syntax tree, its operators and their
      precedence, without the positions and the identities of nodes.
    - [Parser] (the parser monad, its recovery from errors), [ParseType],
      [ParseExpr], [ParseStmt]: [crates/parser/src/parser]; [ParserProps]: what
      every parse keeps; [Grammar]: the documented grammar of expressions as an
      inductive relation between trees and tokens; [GrammarProps],
      [ParserSpec]: the parser reads it; [ModuleSpec]: the grammar of modules of simple
      and conditional statements, and that the parser reads these.

    ** Files: the static types

    - [SemaTypes]: [crates/sema/src/ty], types in a heap with their order
      [subsume] and their supremum [sup].
    - [TyCalc]: [resolver/calculation.rs], the types of operators, in the
      monad of the heap and the diagnostics; [TyExpr]: [resolver/node.rs] for
      the expressions without names and scopes of their own.
    - [Builtins]: [crates/sema/src/builtin], the tables of the functions that the
      resolver knows; [Linking] compares them with what the runtime offers.
    - [TypeSound] gives the meaning of a type as a set of values, and shows that
      the order of types respects it; [OpSound] and [ExprSound] compare the
      types of operators and expressions with what the evaluator computes.

    ** Files: the evaluator

    - [Eval]: [calculation.rs], [union.rs] and the expressions of [node.rs] that
      need no frames, in a monad [Ev] over any state that implements the class
      [Scopes] (scopes to enter and leave, and loop variables).
    - [Lazy]: [lazy.rs], the setters of each global variable.
    - [Scopes]: the state of [lib.rs] with the operations of [scope.rs] and
      [context.rs]: scopes and lazy scopes of each package, the stacks of
      packages, lambdas, schemas and backtracking, and the frames.
    - [EvalStmt]: identifiers, calls, lambdas and statements of [node.rs],
      [func.rs], [module.rs], and the instance of [Scopes] that ties the two
      halves of the evaluator together.  [walkers depth] is the evaluator whose
      calls nest at most [depth] deep.
    - [LazySound]: the order of the statements of a module.

    ** Files: rewriting of programs

    - [Desugar]: the traversal of [ast/walker.rs] that rewrites a tree, and the passes of
      [sema/pre_process] over single modules: dotted keys, raw identifiers, defaults of
      literal types, assignments with several targets; [DesugarProps].
    - [Preprocess]: [pre_process/config.rs], the merge of the configurations of one name
      over the files of a package; [PreprocessProps].
    - [Override]: [query/override.rs] and [query/path.rs], the overrides of the command
      line: their specifications, the edits of configurations, the search for the
      configuration in a module; [OverrideProps].
    - [Fix]: [crates/tools/src/fix], a text whose ranges are replaced and the suggestions
      of diagnostics applied to files; [FixProps].
    - [Vet]: [crates/tools/src/vet], the expression of JSON or YAML data and the program
      that validates it; [VetProps].

    ** Files: loading

    - [Packages]: [config/src/vfs.rs], [utils/src/pkgpath.rs] and the search for packages
      of [parser/src/lib.rs]: the files that an import names.
    - [Load]: [parser/src/file_graph.rs] and the rest of [parser/src/lib.rs] as a state
      monad over the caches of modules: the files of the entries and of all imports, their
      order, cyclic imports and the rewritten import paths.
    - [LoadGraph]: the graph of files, the laws of petgraph, orders and cycles;
      [LoadProps]: the invariant of the loop over the queue and the program that it gives.

    ** What the theorems show

    Every component of the runtime has its functional behaviour on every
    branch, the panics included, and the preservation of [wf_value]
    ([bin_ops_wf], [union_ops_wf], [deep_copy_faithful]).  The union is described key by
    key for all operators and insert indexes ([union_dict_pointwise]) and is idempotent
    on plain data; [check_type] refines the meaning of the types that its strings denote;
    sorting, slicing and zipping are equal to their list specifications; integer
    operations are exact within the configured range and panic outside it.
    Splitting and joining strings are inverse, and searches find the first and
    the last occurrence ([split_join], [find_spec]).  Formats of integers print
    sign, prefix, grouped digits and fill ([int_formatted]); templates are read
    back as they are printed and read to an end ([template_roundtrip],
    [template_total]).

    What leaves the runtime: planning is its recursive definition, and without type
    attributes and with empty lists kept it changes nothing the second time
    ([filter_results_planned], [plan_stable]); a JSON form is decoded and encoded to itself, its text is in the grammar of JSON,
    and merge patches are those of RFC 7396 ([json_roundtrip], [encoded_text],
    [json_merge_rfc7396]).  [runtime.catch] returns whatever its function does
    ([catch_contains]).  Subnets are allotted first fit without a common address,
    hosts lie in their network and addresses are read back from their texts
    ([subnets_first_fit], [host_in_network], [address_roundtrip]).

    Every text has a token stream whose spans are in order and whose delimiters
    and indents nest ([token_stream_total], [token_spans], [delims_nested],
    [indents_balanced]).  The parser has one result whatever its fuel, consumes
    the whole module and reads each expression of the grammar, and each module of
    simple and conditional statements, to its tree ([parse_result_unique], [module_parsed_whole],
    [expression_src_parsed], [module_src_parsed]).

    On regular types the static order is total, reflexive and transitive and has suprema;
    the type of an expression of the fragment of [ExprSound], its literal types read as
    the types of the literals, holds of its values ([expr_sound]); and a module whose
    definitions can be ordered is evaluated to the values of that order
    ([lazy_order_independent]).  The members of system packages that the
    resolver accepts are those that the evaluator finds, but one, and the names
    of parameters are those that the runtime reads ([system_members_linked],
    [keywords_as_positions]).

    Between the parser and the resolver: dotted keys are unfolded by one pass
    ([dotted_keys_unfolded]); merging the files of a package keeps the last
    declaration of each name with the entries of all of them, and touches nothing else
    ([merge_program_spec], [unify_config_entries_spec]); assignments are split in place
    ([multi_assign_split]).  An override edits the values at its path and no others, in
    the one configuration of its variable, and is read back from its text
    ([override_at_path], [override_edits_target], [spec_roundtrip]).  Fixes that do not
    meet are all applied, in any order, and nothing else changes ([fixes_applied],
    [fixes_any_order]); the range of a diagnostic behind characters of one byte is
    the text between its positions ([text_range_spec]).  The expression of data evaluates to the value that the runtime
    decodes from them ([validated_value]).

    Loading ends with exactly the files that the entries reach by imports
    ([program_loaded]); each comes behind those that it imports ([import_order]), and
    cyclic imports are reported if and only if the paths have a cycle ([cycles_reported]).

    ** Fuel and bounds

    [check_type] recurses on strings it computes: its fuel is the length of the
    type string plus one, and [check_type_fuel_enough] shows that more changes
    nothing.  [subsume] takes the sum of the sizes of the two types
    ([subsume_total]).  The parser takes twice the number of tokens plus two,
    which is enough for every expression and module of the grammar.  The depth of the
    evaluator stands for the stack of the machine: running out of it is the panic
    [StackOverflow], and the number of definitions of a module is enough for
    [lazy_order_independent].  Planning and merge patches recurse as deep as the
    value is nested ([height]), the search for a subnet makes no more passes than
    there are subnets, and a template has at most as many parts as it has
    bytes.  The queue of files takes one round for each import of an entry and for each
    file ([fuel_for]).  A loop of the source that may not end is a function
    with fuel that answers [None] when the fuel is used up, and a theorem gives
    the number of rounds that is enough, or shows that no number is
    ([range_never_ends], [zip_nothing_never_ends], [unclosed_if_item_endless]).

    ** What is not modelled, and why

    A [ValueRef] is a counted cell; here it is the tree that it denotes when an
    operation runs, so that an in-place operation returns the new value, the
    shortcut of the union for two references to one cell is not taken, and a
    change of a value through another variable that shares it is not seen.
    Regular expressions ([fancy_regex]), [powf], the decimal form of floats and its
    reader, the
    Unicode tables, the JSON text of scalars in messages and the iteration order
    of hash sets are parameters, and so are the addresses of functions and the
    table of packages.  The evaluator takes what it needs of schemas and rules
    from a record [Externals].  The case tests of Unicode ([CharTables]), the
    texts of floats in format specifiers ([FloatText]), the readers and the
    escapes of serde_json and serde_yaml ([SerdeJson]) and the printers that a
    plan calls are parameters.  The context is kept without its tables of objects,
    compiled schemas and plugins.  The messages of panics are kept except where they
    print a location.  The extern C wrappers only unpack pointers.  The
    [cidr] crate is a class with the laws that it documents ([CidrCrate]).  The
    function [isunique], which puts values into a hash set, and [fqdn], which asks the
    name service, are left out.  The package path of a qualified identifier is not part
    of the tree, and so is the pass that writes it; the position and the [Debug] text that
    two passes read, and the match of a regular expression in an override
    ([Override.Library]), are parameters, and so are the readers of data and the debug
    form of strings in [Vet].  In [Load] the file system is a record of its answers,
    [petgraph] and [pathdiff] are parameters, locks are not taken, and the choice of the
    entries from the arguments and the loading of files that are not imported are left
    out.  Nothing is modelled of the language server, the services and the functions that
    write files, which are glue around the file system, protocols and other libraries. *)

From stdpp Require Import base tactics list strings numbers pretty.
From Stdlib Require Import ZArith Lia.

Create HintDb kcl.
Create Rewrite HintDb kcl_str.

Declare Scope rust_scope.
Delimit Scope rust_scope with rust.

(** ** Panics and fallible computations

    A Rust function of the runtime either returns or unwinds.  [panic] lists
    the ways in which the modelled code unwinds: an explicit [panic!] with its
    message, the overflow macros of [value/val_panic.rs] (which also record the
    runtime error type in the context before they unwind), and the panics that
    the language and its standard library raise by themselves.  [StackOverflow] is
    the end of an evaluation that calls itself deeper than the depth it is given. *)
Inductive panic :=
  | PanicMsg (msg : string)
  | I32Overflow (v : Z)
  | I64Overflow (v : Z)
  | F32Overflow
  | ArithOverflow
  | DivisionByZero
  | IndexOutOfBounds
  | UnwrapNone
  | ExpectFailed
  | CapacityOverflow
  | AssertionFailed
  | BorrowError
  | StackOverflow
  | CharBoundary.

#[export] Instance panic_eq_dec : EqDecision panic.
Proof. solve_decision. Defined.

Inductive Res (A : Type) :=
  | Ok (a : A)
  | Panic (p : panic).
Arguments Ok {A} a.
Arguments Panic {A} p.

#[export] Instance Res_eq_dec {A} `{EqDecision A} : EqDecision (Res A).
Proof. solve_decision. Defined.

#[export] Instance Res_ret : MRet Res := @Ok.
#[export] Instance Res_bind : MBind Res := fun A B f m =>
  match m with Ok a => f a | Panic p => Panic p end.
#[export] Instance Res_fmap : FMap Res := fun A B f m =>
  match m with Ok a => Ok (f a) | Panic p => Panic p end.

(** [is_Ok r]: the computation returns. *)
Definition is_Ok {A} (r : Res A) : bool :=
  match r with Ok _ => true | Panic _ => false end.

(** [assert!(b)]. *)
Definition assert_rust (b : bool) : Res unit :=
  if b then Ok tt else Panic AssertionFailed.

(** [o.unwrap()]. *)
Definition unwrap {A} (o : option A) : Res A :=
  match o with Some a => Ok a | None => Panic UnwrapNone end.

(** [v[i]] on a slice. *)
Definition index {A} (l : list A) (i : nat) : Res A :=
  match l !! i with Some a => Ok a | None => Panic IndexOutOfBounds end.

Section Monad.
Context {A B C : Type}.

Lemma Res_bind_ret_r (m : Res A) : m ≫= mret = m.
Proof. by destruct m. Qed.
Lemma Res_bind_assoc (m : Res A) (f : A → Res B) (g : B → Res C) :
  (m ≫= f) ≫= g = m ≫= (λ x, f x ≫= g).
Proof. by destruct m. Qed.
Lemma Res_bind_Ok_inv (m : Res A) (f : A → Res B) b :
  m ≫= f = Ok b → ∃ a, m = Ok a ∧ f a = Ok b.
Proof. destruct m; naive_solver. Qed.
Lemma index_Ok (l : list A) i : i < length l → ∃ a, index l i = Ok a ∧ l !! i = Some a.
Proof.
  intros Hi. unfold index.
  destruct (lookup_lt_is_Some_2 l i Hi) as [a ->]. eauto.
Qed.
End Monad.

(** Case analysis on the scrutinee of the outermost [if]/[match] of the goal,
    with the equation kept. *)
Ltac case_goal :=
  match goal with
  | |- context [if ?b then _ else _] =>
      lazymatch b with context [if _ then _ else _] => fail | _ => destruct b eqn:? end
  | |- context [match ?x with _ => _ end] =>
      lazymatch x with context [match _ with _ => _ end] => fail | _ => destruct x eqn:? end
  end.

(** Boolean comparisons in the context, turned into propositions for [lia]. *)
Ltac bool_lia :=
  repeat match goal with
  | H : (_ && _)%bool = true |- _ => apply andb_true_iff in H as [? ?]
  | H : (_ || _)%bool = false |- _ => apply orb_false_iff in H as [? ?]
  end; lia.

(** Filters that agree on the elements of a list. *)
Lemma filter_iff_in {A} (P Q : A → Prop) `{!∀ x, Decision (P x), !∀ x, Decision (Q x)}
    (l : list A) :
  (∀ x, x ∈ l → P x ↔ Q x) → filter P l = filter Q l.
Proof.
  induction l as [|x l IH]; intros Hl; [done|]. rewrite !filter_cons.
  rewrite IH by (intros; apply Hl; by right). specialize (Hl x ltac:(by left)).
  destruct (decide (P x)), (decide (Q x)); tauto.
Qed.

(** Equality of booleans. *)
Lemma Bool_eqb_sym a b : Bool.eqb a b = Bool.eqb b a.
Proof. by destruct a, b. Qed.

(** The elements of a prefix or a suffix are elements of the list. *)
Lemma elem_take_in {A} (x : A) n l : x ∈ take n l → x ∈ l.
Proof. rewrite <- (take_drop n l) at 2. rewrite elem_of_app. by left. Qed.
Lemma elem_drop_in {A} (x : A) n l : x ∈ drop n l → x ∈ l.
Proof. rewrite <- (take_drop n l) at 2. rewrite elem_of_app. by right. Qed.

(** ** [Iterator::any] and [Iterator::all]

    The predicate may panic; the loops stop at the first witness. *)
Section Loops.
Context {A : Type} (f : A → Res bool).
Fixpoint any (l : list A) : Res bool :=
  match l with [] => Ok false | x :: l => b ← f x; if (b : bool) then Ok true else any l end.
Fixpoint all (l : list A) : Res bool :=
  match l with [] => Ok true | x :: l => b ← f x; if (b : bool) then all l else Ok false end.
End Loops.

Lemma any_Ok {A} (f : A → Res bool) (g : A → bool) l :
  (∀ x, x ∈ l → f x = Ok (g x)) → any f l = Ok (existsb g l).
Proof.
  induction l as [|x l IH]; intros H; simpl; [done|]. rewrite H by by left. simpl.
  destruct (g x); simpl; [done|]. apply IH. intros y Hy. apply H. by right.
Qed.
Lemma all_Ok {A} (f : A → Res bool) (g : A → bool) l :
  (∀ x, x ∈ l → f x = Ok (g x)) → all f l = Ok (forallb g l).
Proof.
  induction l as [|x l IH]; intros H; simpl; [done|]. rewrite H by by left. simpl.
  destruct (g x); simpl; [|done]. apply IH. intros y Hy. apply H. by right.
Qed.
Lemma any_ext {A} (f g : A → Res bool) l : (∀ x, x ∈ l → f x = g x) → any f l = any g l.
Proof.
  induction l as [|x l IH]; intros H; simpl; [done|]. rewrite (H x) by by left.
  destruct (g x) as [[]|]; simpl; try done. apply IH. intros y Hy. apply H. by right.
Qed.
Lemma all_ext {A} (f g : A → Res bool) l : (∀ x, x ∈ l → f x = g x) → all f l = all g l.
Proof.
  induction l as [|x l IH]; intros H; simpl; [done|]. rewrite (H x) by by left.
  destruct (g x) as [[]|]; simpl; try done. apply IH. intros y Hy. apply H. by right.
Qed.

