(* ===== verification/MachineInt.v ===== *)
(** * Machine integers

    Two's-complement integers of a width [w], kept as [Z] with their ranges
    and wrap-around written out: the Rust types [i32], [i64], [i128], [u32] and
    [usize] (64 bits) the runtime computes with, the [checked_*] operations of
    the standard library, the arithmetic operators in both build profiles, and
    the [is_i32_overflow*] and [is_i64_overflow*] predicates of
    [value/val_overflow.rs]. *)

From stdpp Require Import base tactics numbers list.
From Stdlib Require Import ZArith Lia.
From S2P Require Import Prelude.
Local Open Scope Z_scope.

(** The build profile: whether integer arithmetic that overflows panics
    ([overflow-checks], on in debug builds) or wraps (release builds). *)
Class Profile := { overflow_checks : bool }.

(** ** Two's complement of width [w] *)
Section Width.
Variable w : Z.

Definition int_min : Z := - 2 ^ (w - 1).
Definition int_max : Z := 2 ^ (w - 1) - 1.
Definition in_int (z : Z) : bool := (int_min <=? z) && (z <=? int_max).
(** [z as i<w>] *)
Definition wrap_int (z : Z) : Z := (z + 2 ^ (w - 1)) mod 2 ^ w - 2 ^ (w - 1).
(** [z as u<w>] *)
Definition wrap_uint (z : Z) : Z := z mod 2 ^ w.

(** The [checked_*] methods: [None] on overflow, on a zero divisor and on a
    shift by [w] or more. *)
Definition checked (z : Z) : option Z := if in_int z then Some z else None.
Definition checked_add (a b : Z) : option Z := checked (a + b).
Definition checked_sub (a b : Z) : option Z := checked (a - b).
Definition checked_mul (a b : Z) : option Z := checked (a * b).
Definition checked_div (a b : Z) : option Z :=
  if b =? 0 then None else checked (Z.quot a b).
Definition checked_pow (a e : Z) : option Z := checked (a ^ e).
Definition checked_shl (a s : Z) : option Z :=
  if s <? w then Some (wrap_int (Z.shiftl a s)) else None.
Definition checked_shr (a s : Z) : option Z :=
  if s <? w then Some (Z.shiftr a s) else None.

Context {HP : Profile}.

(** The operators [+ - *] and [pow]: an exact result out of range panics
    under overflow checks and wraps otherwise. *)
Definition arith (z : Z) : Res Z :=
  if in_int z then Ok z
  else if overflow_checks then Panic ArithOverflow else Ok (wrap_int z).
(** [a / b] and [a % b]: a zero divisor and [MIN / -1] panic in every profile. *)
Definition int_div (a b : Z) : Res Z :=
  if b =? 0 then Panic DivisionByZero
  else if in_int (Z.quot a b) then Ok (Z.quot a b) else Panic ArithOverflow.
Definition int_rem (a b : Z) : Res Z :=
  if b =? 0 then Panic DivisionByZero
  else if in_int (Z.quot a b) then Ok (Z.rem a b) else Panic ArithOverflow.
(** [a << s] and [a >> s]: a shift amount outside [0, w) panics under
    overflow checks and is masked otherwise. *)
Definition shift_amount (s : Z) : Res Z :=
  if (0 <=? s) && (s <? w) then Ok s
  else if overflow_checks then Panic ArithOverflow else Ok (s mod w).
Definition int_shl (a s : Z) : Res Z := n ← shift_amount s; Ok (wrap_int (Z.shiftl a n)).
Definition int_shr (a s : Z) : Res Z := n ← shift_amount s; Ok (Z.shiftr a n).
End Width.

Abbreviation in_i32 := (in_int 32).
Abbreviation in_i64 := (in_int 64).
Abbreviation as_i32 := (wrap_int 32).
Abbreviation as_i64 := (wrap_int 64).
Abbreviation as_u32 := (wrap_uint 32).
Abbreviation as_usize := (wrap_uint 64).

(** ** [value/val_overflow.rs], the integer half *)

Definition i32_MAX : Z := 2147483647.
Definition i32_MIN : Z := -2147483648.
Definition i64_MAX : Z := 9223372036854775807.
Definition i64_MIN : Z := -9223372036854775808.

Definition is_none {A} (o : option A) : bool :=
  match o with Some _ => false | None => true end.

Definition is_i32_overflow (v : Z) : bool := (v >? i32_MAX) || (v <? i32_MIN).
Definition is_i32_overflow2 (v1 v2 : Z) : bool := is_i32_overflow v1 || is_i32_overflow v2.

Definition is_i32_overflow_add (v1 v2 : Z) : bool :=
  is_i32_overflow2 v1 v2 || is_none (checked_add 32 (as_i32 v1) (as_i32 v2)).
Definition is_i32_overflow_sub (v1 v2 : Z) : bool :=
  is_i32_overflow2 v1 v2 || is_none (checked_sub 32 (as_i32 v1) (as_i32 v2)).
Definition is_i32_overflow_mul (v1 v2 : Z) : bool :=
  is_i32_overflow2 v1 v2 || is_none (checked_mul 32 (as_i32 v1) (as_i32 v2)).
Definition is_i32_overflow_div (v1 v2 : Z) : bool :=
  is_i32_overflow2 v1 v2 || is_none (checked_div 32 (as_i32 v1) (as_i32 v2)).
Definition is_i32_overflow_pow (v1 v2 : Z) : bool :=
  is_i32_overflow2 v1 v2 || is_none (checked_pow 32 (as_i32 v1) (as_u32 v2)).
Definition is_i32_overflow_shl (v1 v2 : Z) : bool :=
  is_i32_overflow2 v1 v2 || is_none (checked_shl 32 (as_i32 v1) (as_u32 v2)).
Definition is_i32_overflow_shr (v1 v2 : Z) : bool :=
  is_i32_overflow2 v1 v2 || is_none (checked_shr 32 (as_i32 v1) (as_u32 v2)).

Definition is_i64_overflow_add (v1 v2 : Z) : bool := is_none (checked_add 64 v1 v2).
Definition is_i64_overflow_sub (v1 v2 : Z) : bool := is_none (checked_sub 64 v1 v2).
Definition is_i64_overflow_mul (v1 v2 : Z) : bool := is_none (checked_mul 64 v1 v2).
Definition is_i64_overflow_div (v1 v2 : Z) : bool := is_none (checked_div 64 v1 v2).
Definition is_i64_overflow_pow (v1 v2 : Z) : bool :=
  is_i32_overflow v2 || is_none (checked_pow 64 v1 (as_u32 v2)).
Definition is_i64_overflow_shl (v1 v2 : Z) : bool :=
  is_i32_overflow v2 || is_none (checked_shl 64 v1 (as_u32 v2)).
Definition is_i64_overflow_shr (v1 v2 : Z) : bool :=
  is_i32_overflow v2 || is_none (checked_shr 64 v1 (as_u32 v2)).

(** ** Lemmas *)

Section WidthLemmas.
Variable w : Z.
Hypothesis Hw : 0 < w.

Lemma pow2_half : 2 ^ w = 2 * 2 ^ (w - 1).
Proof using Hw. rewrite <- Z.pow_succ_r by lia. f_equal. lia. Qed.

Lemma pow2_pos : 0 < 2 ^ (w - 1).
Proof using Hw. apply Z.pow_pos_nonneg; lia. Qed.

Lemma in_int_spec z : in_int w z = true ↔ int_min w ≤ z ≤ int_max w.
Proof using. unfold in_int. lia. Qed.

Lemma wrap_int_range z : in_int w (wrap_int w z) = true.
Proof using Hw.
  apply in_int_spec. unfold wrap_int, int_min, int_max.
  pose proof pow2_half. pose proof pow2_pos.
  pose proof (Z.mod_pos_bound (z + 2 ^ (w - 1)) (2 ^ w)). lia.
Qed.

Lemma wrap_int_id z : in_int w z = true → wrap_int w z = z.
Proof using Hw.
  intros H%in_int_spec. unfold wrap_int, int_min, int_max in *.
  pose proof pow2_half. rewrite Z.mod_small; lia.
Qed.

Lemma wrap_int_cong z : (wrap_int w z) mod 2 ^ w = z mod 2 ^ w.
Proof using Hw.
  unfold wrap_int. rewrite Zminus_mod_idemp_l. f_equal. lia.
Qed.

Lemma is_none_checked z : is_none (checked w z) = negb (in_int w z).
Proof using. unfold checked. by destruct (in_int w z). Qed.

Context {HP : Profile}.
Lemma arith_Ok z : in_int w z = true → arith w z = Ok z.
Proof using. unfold arith. by intros ->. Qed.
Lemma arith_in_range z r : arith w z = Ok r → in_int w r = true.
Proof using Hw.
  unfold arith. destruct (in_int w z) eqn:E; [congruence|].
  destruct overflow_checks; [done|]. intros [= <-]. apply wrap_int_range.
Qed.
End WidthLemmas.

Lemma is_i32_overflow_spec v : is_i32_overflow v = negb (in_i32 v).
Proof.
  unfold is_i32_overflow, in_int, int_min, int_max, i32_MAX, i32_MIN.
  change (2 ^ (32 - 1)) with 2147483648. lia.
Qed.

Lemma in_i32_in_i64 z : in_i32 z = true → in_i64 z = true.
Proof.
  unfold in_int, int_min, int_max.
  change (2 ^ (32 - 1)) with 2147483648. change (2 ^ (64 - 1)) with 9223372036854775808. lia.
Qed.
