(* ===== verification/IndexMap.v ===== *)
(** * Insertion-ordered maps

    The runtime and the type checker keep their dictionaries in
    [indexmap::IndexMap]s ([kcl_primitives::IndexMap] of
    [primitives/src/map.rs]): finite maps whose iteration order is the order of
    first insertion, whose equality ignores that order, and whose
    [swap_remove] moves the last entry into the hole.  They are modelled as
    association lists with the invariant [wf_map] that no key occurs twice. *)

From stdpp Require Import base tactics list.
From Stdlib Require Import Lia.
From S2P Require Import Prelude.

Abbreviation IndexMap K A := (list (K * A)).

Section Ops.
Context {K A : Type} `{HeqK : EqDecision K}.
Implicit Types (m : IndexMap K A) (k : K) (v : A).

Fixpoint map_get (k : K) (m : IndexMap K A) : option A :=
  match m with
  | [] => None
  | (k', v) :: m => if decide (k = k') then Some v else map_get k m
  end.

Definition contains_key (k : K) (m : IndexMap K A) : bool :=
  match map_get k m with Some _ => true | None => false end.

(** [insert]: replaces the value in place when the key is there, appends the
    entry otherwise. *)
Fixpoint map_insert (k : K) (v : A) (m : IndexMap K A) : IndexMap K A :=
  match m with
  | [] => [(k, v)]
  | (k', v') :: m =>
      if decide (k = k') then (k', v) :: m else (k', v') :: map_insert k v m
  end.

(** [extend]/a loop of inserts, in the order of the entries. *)
Definition map_extend (m : IndexMap K A) (d : list (K * A)) : IndexMap K A :=
  foldl (λ acc e, map_insert e.1 e.2 acc) m d.

Fixpoint map_index_of (k : K) (m : IndexMap K A) : option nat :=
  match m with
  | [] => None
  | (k', _) :: m => if decide (k = k') then Some 0 else S <$> map_index_of k m
  end.

Definition swap_remove (k : K) (m : IndexMap K A) : IndexMap K A :=
  match map_index_of k m, last m with
  | Some i, Some e => removelast (<[i := e]> m)
  | _, _ => m
  end.

Definition wf_map (m : IndexMap K A) : Prop := NoDup m.*1.

Lemma map_get_in m k v : map_get k m = Some v → (k, v) ∈ m.
Proof.
  induction m as [|[k' v'] m IH]; simpl; [done|]. case_decide; subst.
  - intros [= ->]. apply list_elem_of_here.
  - intros Hin. by apply list_elem_of_further, IH.
Qed.

Lemma in_map_get m k v : wf_map m → (k, v) ∈ m → map_get k m = Some v.
Proof.
  unfold wf_map. induction m as [|[k' v'] m IH]; simpl; [by intros _ ?%elem_of_nil|].
  intros [Hk Hm]%NoDup_cons [[= -> ->]|Hin]%elem_of_cons.
  - by rewrite decide_True.
  - rewrite decide_False; [by apply IH|]. intros ->. apply Hk.
    by apply (list_elem_of_fmap_2 fst) in Hin.
Qed.

Lemma map_get_None m k : map_get k m = None ↔ k ∉ m.*1.
Proof.
  induction m as [|[k' v'] m IH]; simpl; [split; [by intros _ ?%elem_of_nil|done]|].
  rewrite not_elem_of_cons. case_decide; [|tauto]. split; [done|]. by intros [].
Qed.

Lemma contains_key_spec m k : contains_key k m = true ↔ k ∈ m.*1.
Proof.
  unfold contains_key. pose proof (map_get_None m k) as H.
  destruct (map_get k m) eqn:E.
  - split; [|done]. intros _. apply map_get_in in E.
    by apply (list_elem_of_fmap_2 fst) in E.
  - split; [done|]. intros Hin. by destruct (proj1 H eq_refl).
Qed.

Lemma map_get_insert_eq m k v : map_get k (map_insert k v m) = Some v.
Proof.
  induction m as [|[k' v'] m IH]; simpl; repeat (case_decide; simpl); congruence.
Qed.

Lemma map_get_insert_ne m k k' v : k ≠ k' → map_get k (map_insert k' v m) = map_get k m.
Proof.
  intros Hne. induction m as [|[k'' v''] m IH]; simpl; repeat (case_decide; simpl); congruence.
Qed.

Lemma map_insert_keys m k v :
  (map_insert k v m).*1 = if decide (k ∈ m.*1) then m.*1 else m.*1 ++ [k].
Proof.
  induction m as [|[k' v'] m IH]; [done|].
  cbn [map_insert fmap list_fmap fst]. destruct (decide (k = k')) as [->|Hne].
  { rewrite decide_True; [done|]. apply list_elem_of_here. }
  cbn [fmap list_fmap fst]. rewrite IH. destruct (decide (k ∈ m.*1)) as [Hin|Hnin].
  - rewrite decide_True; [done|]. by apply list_elem_of_further.
  - rewrite decide_False; [done|]. rewrite not_elem_of_cons. done.
Qed.

Lemma map_insert_wf m k v : wf_map m → wf_map (map_insert k v m).
Proof.
  unfold wf_map. intros H. rewrite map_insert_keys. case_decide; [done|].
  apply NoDup_app. split_and!; [done| |apply NoDup_singleton].
  intros x Hx ->%list_elem_of_singleton. done.
Qed.

Lemma map_insert_length m k v :
  length (map_insert k v m) = if decide (k ∈ m.*1) then length m else S (length m).
Proof.
  rewrite <- !(length_fmap fst), map_insert_keys, length_fmap. case_decide; [by rewrite length_fmap|].
  rewrite length_app, length_fmap. simpl. lia.
Qed.

Lemma map_insert_fresh m k v : k ∉ m.*1 → map_insert k v m = m ++ [(k, v)].
Proof.
  induction m as [|[k' v'] m IH]; simpl; [done|]. rewrite not_elem_of_cons.
  intros [Hne Hnin]. rewrite decide_False by done. by rewrite IH.
Qed.

Lemma map_extend_wf d m : wf_map m → wf_map (map_extend m d).
Proof.
  revert m. induction d as [|[k v] d IH]; intros m Hm; [done|].
  simpl. apply IH. by apply map_insert_wf.
Qed.

(** A well-formed delta overrides the map at its own keys, and only there. *)
Lemma map_get_extend d m k :
  wf_map d → map_get k (map_extend m d) =
    match map_get k d with Some v => Some v | None => map_get k m end.
Proof.
  revert m. unfold wf_map. induction d as [|[k' v'] d IH]; intros m Hd; simpl; [done|].
  apply NoDup_cons in Hd as [Hk' Hd]. rewrite IH by done. case_decide as Hk; subst.
  - rewrite (proj2 (map_get_None d k')) by done. apply map_get_insert_eq.
  - destruct (map_get k d); [done|]. by apply map_get_insert_ne.
Qed.

Lemma map_get_perm m m' k : wf_map m → m ≡ₚ m' → map_get k m = map_get k m'.
Proof.
  intros Hm Hp. assert (wf_map m') as Hm' by (unfold wf_map; by rewrite <- Hp).
  destruct (map_get k m) eqn:E1, (map_get k m') eqn:E2; [| | |done].
  - apply map_get_in in E2. rewrite <- Hp in E2. apply in_map_get in E2; congruence.
  - apply map_get_in in E1. rewrite Hp in E1. apply in_map_get in E1; congruence.
  - apply map_get_in in E2. rewrite <- Hp in E2. apply in_map_get in E2; congruence.
Qed.

Lemma map_index_of_split m k i :
  map_index_of k m = Some i →
  ∃ l1 v l2, m = l1 ++ (k, v) :: l2 ∧ length l1 = i ∧ k ∉ l1.*1.
Proof.
  revert i. induction m as [|[k' v'] m IH]; intros i; simpl; [done|].
  case_decide as Hk; subst.
  - intros [= <-]. exists [], v', m. split_and!; [done..|]. apply not_elem_of_nil.
  - intros (j & Hj & ->)%fmap_Some. destruct (IH _ Hj) as (l1 & v & l2 & -> & <- & Hn).
    exists ((k', v') :: l1), v, l2. split_and!; [done..|]. simpl. by rewrite not_elem_of_cons.
Qed.

Lemma map_index_of_None m k : map_index_of k m = None ↔ k ∉ m.*1.
Proof.
  induction m as [|[k' v'] m IH]; simpl; [split; [by intros _ ?%elem_of_nil|done]|].
  rewrite not_elem_of_cons. case_decide; [split; [done|by intros []]|]. rewrite fmap_None. tauto.
Qed.

Lemma map_index_of_middle l1 k v l2 :
  k ∉ l1.*1 → map_index_of k (l1 ++ (k, v) :: l2) = Some (length l1).
Proof.
  induction l1 as [|[k1 v1] l1 IH]; simpl; [by rewrite decide_True|].
  rewrite not_elem_of_cons. intros [Hne Hn]. rewrite decide_False, IH by done. done.
Qed.

Lemma map_get_middle l1 k v l2 : k ∉ l1.*1 → map_get k (l1 ++ (k, v) :: l2) = Some v.
Proof.
  induction l1 as [|[k1 v1] l1 IH]; simpl; [by rewrite decide_True|].
  rewrite not_elem_of_cons. intros [Hne Hn]. rewrite decide_False by done. auto.
Qed.

(** The hole is filled with the last entry, if it was not the last itself. *)
Lemma swap_remove_middle l1 k v l2 :
  k ∉ l1.*1 →
  swap_remove k (l1 ++ (k, v) :: l2) =
    match last l2 with None => l1 | Some e => l1 ++ e :: removelast l2 end.
Proof.
  intros Hn. unfold swap_remove. rewrite map_index_of_middle by done.
  destruct l2 as [|e l2 _] using rev_ind.
  - rewrite last_snoc. rewrite insert_app_r_alt, Nat.sub_diag by lia. simpl.
    by rewrite removelast_last.
  - rewrite app_comm_cons, app_assoc, !last_snoc, <- app_assoc, <- app_comm_cons.
    rewrite insert_app_r_alt, Nat.sub_diag by lia. simpl.
    by rewrite app_comm_cons, app_assoc, !removelast_last.
Qed.

Lemma swap_remove_perm m k v :
  map_get k m = Some v → (k, v) :: swap_remove k m ≡ₚ m.
Proof.
  intros Hget. destruct (map_index_of k m) as [i|] eqn:Hi.
  2: { apply map_index_of_None, map_get_None in Hi. congruence. }
  destruct (map_index_of_split _ _ _ Hi) as (l1 & v' & l2 & -> & <- & Hn).
  rewrite map_get_middle in Hget by done. simplify_eq.
  rewrite swap_remove_middle by done.
  destruct l2 as [|e l2 _] using rev_ind; simpl; [apply Permutation_cons_append|].
  rewrite last_snoc, removelast_last, Permutation_middle. apply Permutation_app; [done|].
  constructor. apply Permutation_cons_append.
Qed.

Lemma swap_remove_None m k : map_get k m = None → swap_remove k m = m.
Proof.
  intros H. unfold swap_remove.
  by rewrite (proj2 (map_index_of_None m k)) by by apply map_get_None.
Qed.

Lemma swap_remove_wf m k : wf_map m → wf_map (swap_remove k m).
Proof.
  intros Hm. destruct (map_get k m) eqn:E; [|by rewrite swap_remove_None].
  pose proof (swap_remove_perm _ _ _ E) as Hp. unfold wf_map in *. rewrite <- Hp in Hm.
  by apply NoDup_cons in Hm as [_ ?].
Qed.

Lemma map_get_swap_remove m k k' :
  wf_map m → map_get k' (swap_remove k m) = if decide (k' = k) then None else map_get k' m.
Proof.
  intros Hm. destruct (map_get k m) as [v|] eqn:E.
  - pose proof (swap_remove_perm _ _ _ E) as Hp.
    rewrite (map_get_perm _ _ k' Hm (symmetry Hp)).
    assert (wf_map ((k, v) :: swap_remove k m)) as Hw by (unfold wf_map in *; by rewrite Hp).
    simpl. case_decide as Hd; [subst|done].
    apply map_get_None. by apply NoDup_cons in Hw as [? _].
  - rewrite swap_remove_None by done. case_decide; congruence.
Qed.
End Ops.

#[export] Hint Resolve map_insert_wf map_extend_wf swap_remove_wf : kcl.
