(* ===== verification/Str.v ===== *)
(** * Strings

    A Rust [String] is its sequence of UTF-8 bytes, kept as a Rocq [string].
    The byte-level methods of [str] that the runtime calls, with the
    specifications the component proofs use: [starts_with], [find], [rfind],
    [contains], slicing by byte offsets, the byte-wise order, and the split of a
    string into characters by their leading bytes. *)

From stdpp Require Import base tactics list strings numbers.
From Stdlib Require Import Ascii String Lia.
From S2P Require Import Prelude.
Local Close Scope string_scope.
Local Open Scope nat_scope.

#[global] Arguments String.append : simpl nomatch.

Abbreviation slen := String.length.

(** [s.starts_with(p)] *)
Fixpoint starts_with (p s : string) : bool :=
  match p, s with
  | EmptyString, _ => true
  | String a p, String b s => Ascii.eqb a b && starts_with p s
  | String _ _, EmptyString => false
  end.

(** [s.find(p)]: the least byte offset of an occurrence. *)
Fixpoint str_find (p s : string) : option nat :=
  if starts_with p s then Some 0
  else match s with EmptyString => None | String _ s => S <$> str_find p s end.

(** [s.rfind(p)]: the greatest byte offset of an occurrence. *)
Fixpoint str_rfind (p s : string) : option nat :=
  match s with
  | EmptyString => if starts_with p s then Some 0 else None
  | String _ s' =>
      match str_rfind p s' with
      | Some i => Some (S i)
      | None => if starts_with p s then Some 0 else None
      end
  end.

(** [s.contains(p)] *)
Definition str_contains (p s : string) : bool :=
  match str_find p s with Some _ => true | None => false end.

(** [&s[i..]], [&s[..i]] and [&s[i..j]] for offsets in range. *)
Fixpoint str_drop (i : nat) (s : string) : string :=
  match i, s with
  | 0, _ => s
  | S i, String _ s => str_drop i s
  | S _, EmptyString => EmptyString
  end.
Fixpoint str_take (i : nat) (s : string) : string :=
  match i, s with
  | S i, String a s => String a (str_take i s)
  | _, _ => EmptyString
  end.
Definition str_slice (i j : nat) (s : string) : string := str_take (j - i) (str_drop i s).

(** [s.repeat(n)] *)
Fixpoint str_repeat (n : nat) (s : string) : string :=
  match n with 0 => EmptyString | S n => s +:+ str_repeat n s end.

(** A UTF-8 continuation byte. *)
Definition is_cont (a : ascii) : bool :=
  (128 <=? N_of_ascii a)%N && (N_of_ascii a <? 192)%N.

(** [s.chars()], each character kept as its own bytes: a character starts at
    every byte that does not continue one. *)
Fixpoint chars (s : string) : list string :=
  match s with
  | EmptyString => []
  | String a s' =>
      match chars s' with
      | [] => [String a ""]
      | c :: cs =>
          match s' with
          | String b _ => if is_cont b then String a c :: cs else String a "" :: c :: cs
          | EmptyString => String a "" :: c :: cs
          end
      end
  end.

(** [v.concat()] *)
Definition str_concat (l : list string) : string := foldr String.append "" l.

(** The byte-wise lexicographic order of [str]. *)
Definition str_lt (a b : string) : bool :=
  match String.compare a b with Lt => true | _ => false end.
Definition str_le (a b : string) : bool :=
  match String.compare a b with Gt => false | _ => true end.

(** ** Lemmas *)

Lemma slen_app s t : slen (s +:+ t) = slen s + slen t.
Proof. induction s; simpl; [done|]. by rewrite IHs. Qed.
Lemma str_app_nil_r s : s +:+ EmptyString = s.
Proof. induction s; simpl; congruence. Qed.
Lemma str_app_assoc s t u : (s +:+ t) +:+ u = s +:+ (t +:+ u).
Proof. induction s; simpl; congruence. Qed.

Lemma starts_with_spec p s : starts_with p s = true ↔ ∃ t, s = p +:+ t.
Proof.
  revert s. induction p as [|a p IH]; intros s; simpl.
  { split; [by exists s|done]. }
  destruct s as [|b s]; simpl; [split; [done|by intros []]|].
  rewrite andb_true_iff, IH, Ascii.eqb_eq. split.
  - intros [-> [t ->]]. by exists t.
  - intros [t [= -> ->]]. split; [done|by exists t].
Qed.

Lemma str_drop_app_slen p t : str_drop (slen p) (p +:+ t) = t.
Proof. induction p; simpl; [by destruct t|done]. Qed.
Lemma str_take_app_slen p t : str_take (slen p) (p +:+ t) = p.
Proof. induction p; simpl; [by destruct t|congruence]. Qed.
Lemma str_take_drop i s : str_take i s +:+ str_drop i s = s.
Proof. revert s. induction i; intros [|a s]; simpl; [done..|congruence]. Qed.
Lemma slen_drop i s : slen (str_drop i s) = slen s - i.
Proof. revert s. induction i; intros [|a s]; simpl; auto. Qed.
Lemma slen_take i s : slen (str_take i s) = min i (slen s).
Proof. revert s. induction i; intros [|a s]; simpl; auto. Qed.

(** A found offset is an occurrence, and no smaller offset is. *)
Lemma str_find_Some p s i :
  str_find p s = Some i ↔
    starts_with p (str_drop i s) = true ∧ i ≤ slen s ∧
    ∀ j, j < i → starts_with p (str_drop j s) = false.
Proof.
  revert i. induction s as [|a s IH]; intros i; cbn [str_find].
  - destruct (starts_with p EmptyString) eqn:E; simpl.
    + split.
      * intros [= <-]. split_and!; [done..|lia].
      * intros (_ & Hi & _). f_equal. lia.
    + split; [done|]. intros (H & Hi & _). destruct i; simpl in *; [congruence|lia].
  - destruct (starts_with p (String a s)) eqn:E.
    + split.
      * intros [= <-]. split_and!; [done|lia|lia].
      * intros (_ & _ & Hmin). destruct i; [done|]. specialize (Hmin 0). simpl in Hmin.
        rewrite E in Hmin. discriminate Hmin. lia.
    + rewrite fmap_Some. split.
      * intros (j & Hj & ->). apply IH in Hj as (? & ? & Hmin). simpl.
        split_and!; [done|lia|]. intros [|k] Hk; simpl; [done|]. apply Hmin. lia.
      * intros (H & Hi & Hmin). destruct i as [|i]; simpl in *; [congruence|].
        exists i. split; [|done]. apply IH. split_and!; [done|lia|].
        intros j Hj. apply (Hmin (S j)). lia.
Qed.

Lemma str_find_None p s :
  str_find p s = None ↔ ∀ i, i ≤ slen s → starts_with p (str_drop i s) = false.
Proof.
  induction s as [|a s IH]; cbn [str_find].
  - destruct (starts_with p EmptyString) eqn:E; simpl.
    + split; [done|]. intros H. specialize (H 0). simpl in H. rewrite E in H.
      discriminate H. lia.
    + split; [|done]. intros _ i Hi. by replace i with 0 by lia.
  - destruct (starts_with p (String a s)) eqn:E.
    + split; [done|]. intros H. specialize (H 0). simpl in H. rewrite E in H.
      discriminate H. lia.
    + rewrite fmap_None, IH. split.
      * intros H [|i] Hi; simpl in *; [done|]. apply H. lia.
      * intros H i Hi. apply (H (S i)). simpl. lia.
Qed.

Lemma str_contains_spec p s : str_contains p s = true ↔ ∃ u v, s = u +:+ p +:+ v.
Proof.
  unfold str_contains. destruct (str_find p s) as [i|] eqn:E; split; try done.
  - intros _. apply str_find_Some in E as ([v Hv]%starts_with_spec & _ & _).
    exists (str_take i s), v. by rewrite <- Hv, str_take_drop.
  - intros (u & v & ->). rewrite str_find_None in E.
    specialize (E (slen u)). rewrite str_drop_app_slen in E.
    assert (starts_with p (p +:+ v) = true) as Hp by (apply starts_with_spec; eauto).
    rewrite Hp in E. discriminate E. rewrite slen_app. lia.
Qed.

(** A string is the concatenation of its characters, none of which is empty. *)
Lemma chars_concat s : str_concat (chars s) = s.
Proof.
  induction s as [|a s IH]; [done|]. cbn [chars].
  destruct (chars s) as [|c cs]; simpl in *; [by rewrite <- IH|].
  destruct s as [|b s]; simpl; [by rewrite IH|]. destruct (is_cont b); simpl; by rewrite IH.
Qed.
Lemma chars_nonempty s c : c ∈ chars s → 0 < slen c.
Proof.
  revert c. induction s as [|a s IH]; intros c; [by intros ?%elem_of_nil|]. cbn [chars].
  destruct (chars s) as [|d ds]; [intros ->%list_elem_of_singleton; simpl; lia|].
  assert (c ∈ String a "" :: d :: ds → 0 < slen c) as Hplain.
  { intros [->|Hc]%elem_of_cons; [simpl; lia|]. by apply IH. }
  destruct s as [|b s]; [done|]. destruct (is_cont b); [|done].
  intros [->|Hc]%elem_of_cons; [simpl; lia|]. apply IH. by right.
Qed.
Lemma chars_length_le s : List.length (chars s) ≤ slen s.
Proof.
  rewrite <- (chars_concat s) at 2. pose proof (chars_nonempty s) as H.
  induction (chars s) as [|c cs IH]; simpl; [lia|]. rewrite slen_app.
  specialize (H c ltac:(by left)) as Hc. assert (List.length cs ≤ slen (str_concat cs)).
  { apply IH. intros d Hd. apply H. by right. }
  unfold str_concat in *. lia.
Qed.

(** The order on strings is total and linear. *)
Lemma str_lt_irrefl a : str_lt a a = false.
Proof.
  unfold str_lt. destruct (String.compare a a) eqn:E; [done| |done].
  pose proof (String.compare_antisym a a) as H. rewrite E in H. done.
Qed.
Lemma str_trichotomy a b :
  match String.compare a b with
  | Eq => a = b
  | Lt => str_lt a b = true ∧ str_lt b a = false ∧ a ≠ b
  | Gt => str_lt a b = false ∧ str_lt b a = true ∧ a ≠ b
  end.
Proof.
  pose proof (String.compare_antisym b a) as H. unfold str_lt.
  destruct (String.compare a b) eqn:E; try rewrite H; simpl in *.
  - by apply String.compare_eq_iff.
  - split_and!; [done..|]. intros ->. pose proof (str_lt_irrefl b) as Hi.
    unfold str_lt in Hi. by rewrite E in Hi.
  - split_and!; [done..|]. intros ->. pose proof (str_lt_irrefl b) as Hi.
    unfold str_lt in Hi. rewrite String.compare_antisym, E in Hi. done.
Qed.
Lemma str_le_lt_eq a b : str_le a b = str_lt a b || bool_decide (a = b).
Proof.
  pose proof (str_trichotomy a b) as H. unfold str_le, str_lt in *.
  destruct (String.compare a b) eqn:E; simpl.
  - by rewrite bool_decide_true.
  - done.
  - destruct H as (_ & _ & H). by rewrite bool_decide_false.
Qed.

#[export] Hint Rewrite slen_app slen_drop slen_take : kcl_str.
