(* ===== verification/Float64.v ===== *)
(** * IEEE-754 double precision

    [f64] values as [spec_float]s at precision 53 and exponent bound 1024, the
    executable specification of binary64 of the Standard Library (round to
    nearest, ties to even; one NaN).  The conversions and the operations that
    the runtime uses beyond [+ - * /] and the comparisons are defined from their
    documented Rust behaviour: [as] casts, [floor], [%].  [f64::powf] is the
    platform's [pow] and stays a parameter of the definitions that call it. *)

From stdpp Require Import base tactics numbers.
From Stdlib Require Import ZArith Lia.
From Stdlib Require Export SpecFloat.
From S2P Require Import Prelude MachineInt.
Local Open Scope Z_scope.

Abbreviation f64 := spec_float.

Definition f_add : f64 → f64 → f64 := SFadd 53 1024.
Definition f_sub : f64 → f64 → f64 := SFsub 53 1024.
Definition f_mul : f64 → f64 → f64 := SFmul 53 1024.
Definition f_div : f64 → f64 → f64 := SFdiv 53 1024.
Definition f_eq : f64 → f64 → bool := SFeqb.
Definition f_lt : f64 → f64 → bool := SFltb.
Definition f_le : f64 → f64 → bool := SFleb.

(** The double nearest to [m * 2^e]. *)
Definition f_of_mant (m e : Z) : f64 := binary_normalize 53 1024 m e false.

(** [z as f64] *)
Definition f_of_int (z : Z) : f64 := f_of_mant z 0.

Definition f_zero : f64 := S754_zero false.
Definition f_is_nan (f : f64) : bool := match f with S754_nan => true | _ => false end.

Definition signed (s : bool) (z : Z) : Z := if s then - z else z.

(** [f as i64]: truncation towards zero, saturating; NaN gives 0. *)
Definition f_to_i64 (f : f64) : Z :=
  match f with
  | S754_nan => 0
  | S754_zero _ => 0
  | S754_infinity s => if s then i64_MIN else i64_MAX
  | S754_finite s m e =>
      let mag := if 0 <=? e then Zpos m * 2 ^ e else Zpos m / 2 ^ (- e) in
      Z.max i64_MIN (Z.min i64_MAX (signed s mag))
  end.

(** [f.floor()] *)
Definition f_floor (f : f64) : f64 :=
  match f with
  | S754_finite s m e =>
      if 0 <=? e then f
      else binary_normalize 53 1024 (signed s (Zpos m) / 2 ^ (- e)) 0 s
  | _ => f
  end.

(** [x % y]: the exact remainder of the truncated quotient, with the sign of
    the dividend. *)
Definition f_rem (x y : f64) : f64 :=
  match x, y with
  | S754_nan, _ | _, S754_nan | S754_infinity _, _ | _, S754_zero _ => S754_nan
  | S754_zero _, _ => x
  | _, S754_infinity _ => x
  | S754_finite s mx ex, S754_finite _ my ey =>
      let e := Z.min ex ey in
      let r := (Zpos mx * 2 ^ (ex - e)) mod (Zpos my * 2 ^ (ey - e)) in
      binary_normalize 53 1024 (signed s r) e s
  end.

(** ** [value/val_overflow.rs], the floating-point half *)

(** [f32::MAX as f64] and [f32::MIN as f64]. *)
Definition f32_MAX : f64 := f_of_mant (2 ^ 24 - 1) 104.
Definition f32_MIN : f64 := f_of_mant (- (2 ^ 24 - 1)) 104.

Definition is_f32_overflow (v : f64) : bool := f_lt f32_MAX v || f_lt v f32_MIN.
Definition is_f32_overflow2 (v1 v2 : f64) : bool := is_f32_overflow v1 || is_f32_overflow v2.
Definition is_f32_overflow_add (v1 v2 : f64) : bool :=
  is_f32_overflow2 v1 v2 || is_f32_overflow (f_add v1 v2).
Definition is_f32_overflow_sub (v1 v2 : f64) : bool :=
  is_f32_overflow2 v1 v2 || is_f32_overflow (f_sub v1 v2).
Definition is_f32_overflow_mul (v1 v2 : f64) : bool :=
  is_f32_overflow2 v1 v2 || is_f32_overflow (f_mul v1 v2).
Definition is_f32_overflow_div (v1 v2 : f64) : bool :=
  is_f32_overflow2 v1 v2 || is_f32_overflow (f_div v1 v2).
Definition is_f32_overflow_pow (powf : f64 → f64 → f64) (v1 v2 : f64) : bool :=
  is_f32_overflow2 v1 v2 || is_i32_overflow (f_to_i64 v2) || is_f32_overflow (powf v1 v2).

(** ** Comparison lemmas *)

Definition flip_cmp (o : option comparison) : option comparison := CompOpp <$> o.

Lemma SFcompare_sym a b : SFcompare b a = flip_cmp (SFcompare a b).
Proof.
  destruct a as [[]|[]| |[] ma ea], b as [[]|[]| |[] mb eb]; try done; simpl;
    rewrite (Z.compare_antisym ea eb); destruct (Z.compare ea eb) eqn:E; try done; simpl;
    change (Pos.compare_cont Eq) with Pos.compare;
    rewrite (Pos.compare_antisym ma mb); destruct (Pos.compare ma mb); done.
Qed.

Lemma SFcompare_refl a : SFcompare a a = if f_is_nan a then None else Some Eq.
Proof.
  destruct a as [[]|[]| |[] m e]; try done; simpl; rewrite Z.compare_refl;
    change (Pos.compare_cont Eq) with Pos.compare; by rewrite Pos.compare_refl.
Qed.

Lemma f_eq_sym a b : f_eq a b = f_eq b a.
Proof.
  unfold f_eq, SFeqb. rewrite (SFcompare_sym a b). by destruct (SFcompare a b) as [[]|].
Qed.
Lemma f_eq_refl a : f_eq a a = negb (f_is_nan a).
Proof. unfold f_eq, SFeqb. rewrite SFcompare_refl. by destruct (f_is_nan a). Qed.
Lemma f_le_lt_eq a b : f_le a b = f_lt a b || f_eq a b.
Proof. unfold f_le, f_lt, f_eq, SFleb, SFltb, SFeqb. by destruct (SFcompare a b) as [[]|]. Qed.
Lemma f_lt_excl a b : f_lt a b = true → f_lt b a = false ∧ f_eq a b = false.
Proof.
  unfold f_lt, f_eq, SFltb, SFeqb. rewrite (SFcompare_sym a b).
  by destruct (SFcompare a b) as [[]|].
Qed.

(** ** Conversions never give NaN *)

Lemma shr_1_nonneg mrs : 0 ≤ shr_m mrs → 0 ≤ shr_m (shr_1 mrs).
Proof. destruct mrs as [[|[p|p|]|p] r s]; simpl; lia. Qed.

Lemma iter_pos_nonneg p mrs : 0 ≤ shr_m mrs → 0 ≤ shr_m (iter_pos shr_1 p mrs).
Proof.
  revert mrs. induction p as [p IH|p IH|]; intros mrs H; simpl; auto using shr_1_nonneg.
Qed.

Lemma shr_fexp_nonneg m e l : 0 ≤ m → 0 ≤ shr_m (shr_fexp 53 1024 m e l).1.
Proof.
  intros H. unfold shr_fexp, shr.
  assert (0 ≤ shr_m (shr_record_of_loc m l)) by (by destruct l as [|[]]).
  destruct (_ - e); simpl; auto using iter_pos_nonneg.
Qed.

Lemma binary_round_aux_not_nan s m e l : 0 ≤ m → f_is_nan (binary_round_aux 53 1024 s m e l) = false.
Proof.
  intros H. unfold binary_round_aux. pose proof (shr_fexp_nonneg m e l H) as H1.
  destruct (shr_fexp 53 1024 m e l) as [mrs1 e1]. simpl in H1.
  assert (0 ≤ round_nearest_even (shr_m mrs1) (loc_of_shr_record mrs1)) as H2.
  { unfold round_nearest_even. destruct (loc_of_shr_record mrs1) as [|[]]; try lia.
    destruct (Z.even _); lia. }
  pose proof (shr_fexp_nonneg _ e1 loc_Exact H2) as H3.
  destruct (shr_fexp 53 1024 _ e1 loc_Exact) as [mrs2 e2]. simpl in H3.
  destruct (shr_m mrs2); [done| |lia]. by destruct (_ <=? _).
Qed.

Lemma f_of_mant_not_nan m e : f_is_nan (f_of_mant m e) = false.
Proof.
  unfold f_of_mant, binary_normalize, binary_round. destruct m; [done| |];
    destruct (shl_align _ _ _); by apply binary_round_aux_not_nan.
Qed.

Lemma SFcompare_not_nan a b :
  f_is_nan a = false → f_is_nan b = false → ∃ c, SFcompare a b = Some c.
Proof.
  destruct a as [[]|[]| |[] ma ea], b as [[]|[]| |[] mb eb]; try done; simpl; eauto;
    intros _ _; destruct (Z.compare ea eb); eauto.
Qed.

(** Exactly one of three booleans holds. *)
Definition exactly_one (a b c : bool) : bool :=
  match a, b, c with
  | true, false, false | false, true, false | false, false, true => true
  | _, _, _ => false
  end.

Lemma f_trichotomy a b :
  f_is_nan a = false → f_is_nan b = false → exactly_one (f_lt a b) (f_eq a b) (f_lt b a) = true.
Proof.
  intros Ha Hb. unfold f_lt, f_eq, SFltb, SFeqb. rewrite (SFcompare_sym a b).
  by destruct (SFcompare_not_nan a b Ha Hb) as [[] ->].
Qed.

#[export] Hint Resolve f_of_mant_not_nan f_trichotomy : kcl.
