(* ===== verification/Value.v ===== *)
(** * Runtime values

    The data model of the runtime ([api/kcl.rs]) and the operations that look
    at one value at a time: kinds and type names, the [is_*] and [as_*]
    families, truthiness, length and the unary logic of [val_kind.rs],
    [val_type.rs], [val_is_in.rs], [val_as_val.rs], [val_logic.rs],
    [val_len.rs] and [val.rs].

    In the source a [ValueRef] is an [Rc<RefCell<Value>>].  [Value R] is one
    cell, whose children are references of type [R]; [ValueRef] ties the knot
    and reads a reference as the tree it denotes when the operation runs. *)

From stdpp Require Import base tactics list strings numbers pretty.
From Stdlib Require Import ZArith Lia.
From S2P Require Import Prelude MachineInt Float64 IndexMap.
Local Open Scope Z_scope.

Inductive ConfigEntryOperationKind := Union | Override | Insert.

#[export] Instance ConfigEntryOperationKind_eq_dec : EqDecision ConfigEntryOperationKind.
Proof. solve_decision. Defined.

(** [ConfigEntryOperationKind::from_i32]. *)
Definition from_i32 (v : Z) : Res ConfigEntryOperationKind :=
  if v =? 0 then Ok Union
  else if v =? 1 then Ok Override
  else if v =? 2 then Ok Insert
  else Panic (PanicMsg ("Invalid AttrOpKind integer " +:+ pretty v +:+ ", expected 0, 1 or 2")).

Record ListValue (R : Type) := MkList { list_values : list R }.

Record DictValue (R : Type) := MkDict {
  values : IndexMap string R;
  ops : IndexMap string ConfigEntryOperationKind;
  insert_indexs : IndexMap string Z;
  attr_map : IndexMap string string;
  potential_schema : option string;
  schema_args : option (R * R) }.

Record SchemaValue (R : Type) := MkSchema {
  schema_name : string;
  schema_pkgpath : string;
  config : DictValue R;
  config_keys : list string;
  config_meta : R;
  optional_mapping : R;
  args : R;
  kwargs : R }.

Record FuncValue (R : Type) := MkFunc {
  fn_ptr : Z;
  check_fn_ptr : Z;
  closure : R;
  func_name : string;
  runtime_type : string;
  is_external : bool;
  proxy : option (Z * Z) }.

Arguments MkList {R}. Arguments list_values {R}.
Arguments MkDict {R}. Arguments values {R}. Arguments ops {R}.
Arguments insert_indexs {R}. Arguments attr_map {R}.
Arguments potential_schema {R}. Arguments schema_args {R}.
Arguments MkSchema {R}. Arguments schema_name {R}. Arguments schema_pkgpath {R}.
Arguments config {R}. Arguments config_keys {R}. Arguments config_meta {R}.
Arguments optional_mapping {R}. Arguments args {R}. Arguments kwargs {R}.
Arguments MkFunc {R}. Arguments fn_ptr {R}. Arguments check_fn_ptr {R}.
Arguments closure {R}. Arguments func_name {R}. Arguments runtime_type {R}.
Arguments is_external {R}. Arguments proxy {R}.

Inductive Value (R : Type) :=
  | undefined
  | none
  | bool_value (b : bool)
  | int_value (z : Z)
  | float_value (f : f64)
  | str_value (s : string)
  | list_value (l : ListValue R)
  | dict_value (d : DictValue R)
  | schema_value (s : SchemaValue R)
  | func_value (f : FuncValue R)
  | unit_value (real : f64) (raw : Z) (unit : string).
Arguments undefined {R}. Arguments none {R}. Arguments bool_value {R}.
Arguments int_value {R}. Arguments float_value {R}. Arguments str_value {R}.
Arguments list_value {R}. Arguments dict_value {R}. Arguments schema_value {R}.
Arguments func_value {R}. Arguments unit_value {R}.

Unset Elimination Schemes.
Inductive ValueRef := Ref (rc : Value ValueRef).
Set Elimination Schemes.

(** [&*self.rc.borrow()] *)
Definition rc (v : ValueRef) : Value ValueRef := let '(Ref c) := v in c.

Definition dict_default {R} : DictValue R := MkDict [] [] [] [] None None.

(** ** Constructors of [val.rs] *)
Definition ref_undefined : ValueRef := Ref undefined.
Definition ref_none : ValueRef := Ref none.
Definition ref_bool (v : bool) : ValueRef := Ref (bool_value v).
Definition ref_int (v : Z) : ValueRef := Ref (int_value v).
Definition ref_float (v : f64) : ValueRef := Ref (float_value v).
Definition ref_str (v : string) : ValueRef := Ref (str_value v).
Definition ref_unit (v : f64) (raw : Z) (unit : string) : ValueRef := Ref (unit_value v raw unit).
Definition ref_list (vs : list ValueRef) : ValueRef := Ref (list_value (MkList vs)).
Definition ref_dict (kvs : list (string * ValueRef)) : ValueRef :=
  Ref (dict_value (MkDict (map_extend [] kvs) [] [] [] None None)).

(** ** Kinds and type names *)

Inductive Kind :=
  | KInvalid | KUndefined | KNone | KBool | KInt | KFloat | KStr | KList | KDict | KSchema
  | KError | KAny | KUnion | KBoolLit | KIntLit | KFloatLit | KStrLit | KUnit | KFunc.

#[export] Instance Kind_eq_dec : EqDecision Kind.
Proof. solve_decision. Defined.

Definition kind (self : ValueRef) : Kind :=
  match rc self with
  | undefined => KUndefined
  | none => KNone
  | bool_value _ => KBool
  | int_value _ => KInt
  | float_value _ => KFloat
  | str_value _ => KStr
  | list_value _ => KList
  | dict_value _ => KDict
  | schema_value _ => KSchema
  | func_value _ => KFunc
  | unit_value _ _ _ => KUnit
  end.

Definition type_str (self : ValueRef) : string :=
  match rc self with
  | undefined => "UndefinedType"
  | none => "NoneType"
  | bool_value _ => "bool"
  | int_value _ => "int"
  | float_value _ => "float"
  | unit_value _ raw suffix => "number_multiplier(" +:+ pretty raw +:+ suffix +:+ ")"
  | str_value _ => "str"
  | list_value _ => "list"
  | dict_value _ => "dict"
  | schema_value v => schema_name v
  | func_value f => if decide (runtime_type f = "") then "function" else "type"
  end.

(** ** [val_is_in.rs]: the [is_*] family *)

Definition is_undefined (self : ValueRef) : bool :=
  match rc self with undefined => true | _ => false end.
Definition is_none (self : ValueRef) : bool :=
  match rc self with none => true | _ => false end.
Definition is_bool (self : ValueRef) : bool := bool_decide (kind self = KBool).
Definition is_int (self : ValueRef) : bool := bool_decide (kind self = KInt).
Definition is_float (self : ValueRef) : bool := bool_decide (kind self = KFloat).
Definition is_str (self : ValueRef) : bool := bool_decide (kind self = KStr).
Definition is_list (self : ValueRef) : bool := bool_decide (kind self = KList).
Definition is_dict (self : ValueRef) : bool := bool_decide (kind self = KDict).
Definition is_schema (self : ValueRef) : bool := bool_decide (kind self = KSchema).
Definition is_func (self : ValueRef) : bool := bool_decide (kind self = KFunc).
Definition is_number (self : ValueRef) : bool :=
  match rc self with int_value _ | float_value _ => true | _ => false end.
Definition is_builtin (self : ValueRef) : bool :=
  match rc self with
  | int_value _ | float_value _ | bool_value _ | str_value _ => true
  | _ => false
  end.
Definition is_config (self : ValueRef) : bool :=
  match rc self with schema_value _ | dict_value _ => true | _ => false end.
Definition is_list_or_config (self : ValueRef) : bool :=
  match rc self with list_value _ | schema_value _ | dict_value _ => true | _ => false end.
Definition is_none_or_undefined (self : ValueRef) : bool :=
  match rc self with none | undefined => true | _ => false end.
Definition is_unit (self : ValueRef) : bool :=
  match rc self with unit_value _ _ _ => true | _ => false end.
Definition is_scalar (self : ValueRef) : bool :=
  match rc self with
  | none | bool_value _ | int_value _ | float_value _ | str_value _ | unit_value _ _ _ => true
  | _ => false
  end.

(** ** [val_logic.rs] *)

Definition str_is_empty (s : string) : bool := bool_decide (s = "").
Definition vec_is_empty {A} (l : list A) : bool := match l with [] => true | _ => false end.

Definition is_truthy (self : ValueRef) : bool :=
  match rc self with
  | undefined => false
  | none => false
  | bool_value v => v
  | int_value v => negb (v =? 0)
  | float_value v => negb (f_eq v f_zero)
  | str_value v => negb (str_is_empty v)
  | list_value v => negb (vec_is_empty (list_values v))
  | dict_value v => negb (vec_is_empty (values v))
  | schema_value v => negb (vec_is_empty (values (config v)))
  | func_value _ => true
  | unit_value v _ _ => negb (f_eq v f_zero)
  end.

Definition logic_and (self x : ValueRef) : bool := is_truthy self && is_truthy x.
Definition logic_or (self x : ValueRef) : bool := is_truthy self || is_truthy x.

(** [unary_l_not] of [val_unary.rs]: [not x]. *)
Definition unary_l_not (self : ValueRef) : ValueRef := ref_bool (negb (is_truthy self)).

(** ** [val_as_val.rs] *)

Definition as_bool (self : ValueRef) : bool := is_truthy self.

Definition as_int (self : ValueRef) : Z :=
  match rc self with
  | int_value v => v
  | float_value v => f_to_i64 v
  | unit_value v _ _ => f_to_i64 v
  | _ => 0
  end.

Definition must_as_strict_int (self : ValueRef) : Res Z :=
  match rc self with int_value v => Ok v | _ => Panic (PanicMsg "invalid int value") end.

Definition as_float (self : ValueRef) : f64 :=
  match rc self with
  | int_value v => f_of_int v
  | float_value v => v
  | unit_value v _ _ => v
  | _ => f_zero
  end.

Definition as_num (self : ValueRef) : f64 :=
  match rc self with
  | float_value v => v
  | int_value v => f_of_int v
  | _ => f_zero
  end.

Definition as_str (self : ValueRef) : string :=
  match rc self with str_value v => v | _ => "" end.

Definition as_list_ref (self : ValueRef) : Res (ListValue ValueRef) :=
  match rc self with list_value v => Ok v | _ => Panic (PanicMsg "invalid list value") end.

Definition as_dict_ref (self : ValueRef) : Res (DictValue ValueRef) :=
  match rc self with
  | dict_value v => Ok v
  | schema_value v => Ok (config v)
  | _ => Panic (PanicMsg "invalid dict value")
  end.

Definition as_schema (self : ValueRef) : Res (SchemaValue ValueRef) :=
  match rc self with schema_value v => Ok v | _ => Panic (PanicMsg "invalid schema value") end.

Definition as_function (self : ValueRef) : Res (FuncValue ValueRef) :=
  match rc self with func_value v => Ok v | _ => Panic (PanicMsg "invalid func value") end.

Definition as_unit (self : ValueRef) : Res (f64 * Z * string) :=
  match rc self with
  | unit_value v raw unit => Ok (v, raw, unit)
  | _ => Panic (PanicMsg "invalid unit value")
  end.

(** ** [val_len.rs] *)

Definition len (self : ValueRef) : Res Z :=
  match rc self with
  | str_value s => Ok (Z.of_nat (String.length s))
  | list_value v => Ok (Z.of_nat (length (list_values v)))
  | dict_value v => Ok (Z.of_nat (length (values v)))
  | schema_value v => Ok (Z.of_nat (length (values (config v))))
  | _ => Panic (PanicMsg ("object of type '" +:+ type_str self +:+ "' has no len()"))
  end.

Definition is_empty (self : ValueRef) : Res bool := n ← len self; Ok (n =? 0).

(** ** Induction and well-formedness *)

(** The values stored in a container value. *)
Definition children (v : ValueRef) : list ValueRef :=
  match rc v with
  | list_value l => list_values l
  | dict_value d => (values d).*2
  | schema_value s => (values (config s)).*2
  | _ => []
  end.

Lemma ValueRef_ind (P : ValueRef → Prop) :
  (∀ v, (∀ c, c ∈ children v → P c) → P v) → ∀ v, P v.
Proof.
  intros H. fix IH 1. intros [c]. apply H. apply Forall_forall.
  destruct c as [| | | | | |[l]|[vs ? ? ? ? ?]|[? ? [vs ? ? ? ? ?] ? ? ? ? ?]| |];
    unfold children; simpl; try apply Forall_nil_2.
  - induction l as [|x l IHl]; constructor; [apply IH|apply IHl].
  - induction vs as [|[k x] vs IHl]; simpl; constructor; [apply IH|apply IHl].
  - induction vs as [|[k x] vs IHl]; simpl; constructor; [apply IH|apply IHl].
Qed.

(** How deep the containers of a value are nested. *)
Fixpoint height (v : ValueRef) : nat :=
  match v with
  | Ref c =>
      match c with
      | list_value l => S (foldr (λ x n, Nat.max (height x) n) 0%nat (list_values l))
      | dict_value d => S (foldr (λ e n, Nat.max (height e.2) n) 0%nat (values d))
      | schema_value s => S (foldr (λ e n, Nat.max (height e.2) n) 0%nat (values (config s)))
      | _ => 0%nat
      end
  end.

(** The maps of a dictionary are maps: no key occurs twice. *)
Definition wf_dict {R} (d : DictValue R) : Prop :=
  wf_map (values d) ∧ wf_map (ops d) ∧ wf_map (insert_indexs d) ∧ wf_map (attr_map d).

Definition wf_cell {R} (c : Value R) : Prop :=
  match c with
  | dict_value d => wf_dict d
  | schema_value s => wf_dict (config s)
  | int_value z => in_i64 z = true
  | _ => True
  end.

(** A well-formed value: every integer is a 64-bit integer and every
    dictionary, at any depth, has unique keys. *)
Inductive wf_value : ValueRef → Prop :=
  | wf_value_intro v :
      wf_cell (rc v) → (∀ c, c ∈ children v → wf_value c) → wf_value v.

Lemma wf_value_cell v : wf_value v → wf_cell (rc v).
Proof. by destruct 1. Qed.
Lemma wf_value_child v c : wf_value v → c ∈ children v → wf_value c.
Proof. destruct 1 as [v Hc Hch]. apply Hch. Qed.

#[export] Hint Resolve wf_value_cell wf_value_child : kcl.

(** The dictionary behind a config value ([dict_value] or [schema_value]). *)
Definition config_of (v : ValueRef) : option (DictValue ValueRef) :=
  match rc v with
  | dict_value d => Some d
  | schema_value s => Some (config s)
  | _ => None
  end.

Lemma as_dict_ref_config v : as_dict_ref v =
  match config_of v with Some d => Ok d | None => Panic (PanicMsg "invalid dict value") end.
Proof. unfold as_dict_ref, config_of. by destruct (rc v). Qed.
Lemma is_config_of v : is_config v = match config_of v with Some _ => true | None => false end.
Proof. unfold is_config, config_of. by destruct (rc v). Qed.
Lemma wf_config_of v d : wf_value v → config_of v = Some d → wf_dict d.
Proof.
  intros Hv%wf_value_cell. unfold config_of. destruct (rc v); naive_solver.
Qed.

Lemma foldr_max {A} (f : A → nat) x l : x ∈ l → (f x ≤ foldr (λ x n, Nat.max (f x) n) 0 l)%nat.
Proof. induction l as [|y l IH]; [by intros ?%elem_of_nil|]. intros [->|Hx%IH]%elem_of_cons; simpl; lia. Qed.
Lemma height_element x l : x ∈ list_values l → (height x < height (Ref (list_value l)))%nat.
Proof. intros Hx. apply (foldr_max height) in Hx. cbn [height]. lia. Qed.
Lemma height_entry v d e : config_of v = Some d → e ∈ values d → (height e.2 < height v)%nat.
Proof.
  intros Hd He. apply (foldr_max (λ e, height e.2)) in He. destruct v as [[]]; try discriminate Hd;
    injection Hd as <-; cbn [height]; lia.
Qed.

(** Exactly one of the [is_*] kind tests answers, and a value without a length
    is exactly one that is neither a string, nor a list, nor a config. *)
Lemma len_Ok v : is_Ok (len v) = (is_str v || is_list_or_config v).
Proof. unfold len, is_str, kind, is_list_or_config. by destruct (rc v). Qed.

(** ** Checking well-formedness *)

Definition nodup_keys {A} (m : IndexMap string A) : bool := bool_decide (NoDup m.*1).

Definition check_dict {R} (d : DictValue R) : bool :=
  nodup_keys (values d) && nodup_keys (ops d) && nodup_keys (insert_indexs d) &&
  nodup_keys (attr_map d).

Definition check_cell {R} (c : Value R) : bool :=
  match c with
  | dict_value d => check_dict d
  | schema_value s => check_dict (config s)
  | int_value z => in_i64 z
  | _ => true
  end.

Fixpoint check_wf (v : ValueRef) : bool :=
  match v with
  | Ref c =>
      check_cell c &&
      match c with
      | list_value l => forallb check_wf (list_values l)
      | dict_value d => forallb (λ e, check_wf e.2) (values d)
      | schema_value s => forallb (λ e, check_wf e.2) (values (config s))
      | _ => true
      end
  end.

Lemma check_dict_sound {R} (d : DictValue R) : check_dict d = true → wf_dict d.
Proof.
  unfold check_dict, nodup_keys, wf_dict, wf_map. rewrite !andb_true_iff, !bool_decide_eq_true.
  tauto.
Qed.

Lemma forallb_elem {A} (f : A → bool) l x : forallb f l = true → x ∈ l → f x = true.
Proof. rewrite forallb_forall. intros H Hx. apply H. by apply list_elem_of_In. Qed.

Lemma check_wf_sound v : check_wf v = true → wf_value v.
Proof.
  induction v as [v IH] using ValueRef_ind. intros Hv. constructor.
  - destruct v as [c]. cbn [check_wf rc] in *. apply andb_true_iff in Hv as [Hc _].
    destruct c; simpl in *; auto using check_dict_sound.
  - intros c Hc. apply IH; [done|]. destruct v as [cell]. cbn [check_wf] in Hv.
    apply andb_true_iff in Hv as [_ Hv]. unfold children in Hc. cbn [rc] in Hc.
    destruct cell as [| | | | | |l|d|s| |]; try by apply elem_of_nil in Hc.
    + eapply forallb_elem; [exact Hv|done].
    + apply list_elem_of_fmap_1 in Hc as (e & -> & He).
      apply (forallb_elem _ _ _ Hv He).
    + apply list_elem_of_fmap_1 in Hc as (e & -> & He).
      apply (forallb_elem _ _ _ Hv He).
Qed.

(** Discharges the side conditions of a theorem at a concrete input. *)
Ltac concrete :=
  first [ apply check_wf_sound; vm_compute; reflexivity | vm_compute; reflexivity ].
