(* ===== verification/Cmp.v ===== *)
(** * Comparison of runtime values

    [value/val_cmp.rs]: the equality [cmp_equal] and the four orderings;
    [value/val_is_in.rs]: the membership operators; the equality-based lookups of
    [value/val_list.rs]; and the value compatibility check [value_subsume] of
    [unification/subsume.rs] that the configuration merge relies on. *)

From stdpp Require Import base tactics list strings numbers.
From Stdlib Require Import ZArith Lia.
From S2P Require Import Prelude MachineInt IndexMap Str Float64 Value.
Local Open Scope Z_scope.

(** [for i in 0..min(len a, len b)]: whether [f] holds of every pair of
    elements at equal positions. *)
Section Zip.
Context {A B : Type} (f : A → B → bool).
Fixpoint zip_all (la : list A) (lb : list B) : bool :=
  match la, lb with
  | a :: la, b :: lb => f a b && zip_all la lb
  | _, _ => true
  end.
End Zip.

(** Every entry of [da] is in [db], with values related by [f]. *)
Section Entries.
Context {A B : Type} (f : A → B → bool).
Fixpoint entries_in (da : IndexMap string A) (db : IndexMap string B) : bool :=
  match da with
  | [] => true
  | (k, v) :: da =>
      match map_get k db with
      | None => false
      | Some v' => f v v' && entries_in da db
      end
  end.
End Entries.

Fixpoint cmp_equal (self x : ValueRef) {struct self} : bool :=
  match self, x with
  | Ref (int_value a), Ref (int_value b) => a =? b
  | Ref (int_value a), Ref (float_value b) => f_eq (f_of_int a) b
  | Ref (int_value _), _ => false
  | Ref (float_value a), Ref (int_value b) => f_eq a (f_of_int b)
  | Ref (float_value a), Ref (float_value b) => f_eq a b
  | Ref (float_value _), _ => false
  | Ref undefined, Ref undefined => true
  | Ref none, Ref none => true
  | Ref (bool_value a), Ref (bool_value b) => Bool.eqb a b
  | Ref (str_value a), Ref (str_value b) => bool_decide (a = b)
  | Ref (list_value a), Ref (list_value b) =>
      if Nat.eqb (length (list_values a)) (length (list_values b))
      then zip_all cmp_equal (list_values a) (list_values b)
      else false
  | Ref (dict_value a), Ref (dict_value b) =>
      if Nat.eqb (length (values a)) (length (values b))
      then entries_in cmp_equal (values a) (values b)
      else false
  | Ref (schema_value a), Ref (schema_value b) =>
      if Nat.eqb (length (values (config a))) (length (values (config b)))
      then entries_in cmp_equal (values (config a)) (values (config b))
      else false
  | Ref (func_value a), Ref (func_value b) => fn_ptr a =? fn_ptr b
  | _, _ => false
  end.

Definition cmp_not_equal (self x : ValueRef) : bool := negb (cmp_equal self x).

Definition Z_of_bool (b : bool) : Z := if b then 1 else 0.

(** ** The orderings

    The four functions of the source differ in the operator they apply to the
    base types, to booleans and to the lengths of lists; [cmp_ops] holds those
    and [cmp_ord] is their common body. *)
Record cmp_ops := {
  op_symbol : string;
  op_int : Z → Z → bool;
  op_float : f64 → f64 → bool;
  op_bool : bool → bool → bool;
  op_str : string → string → bool;
  op_len : nat → nat → bool }.

Definition not_supported (op : cmp_ops) (a b : ValueRef) : Res bool :=
  Panic (PanicMsg ("'" +:+ op_symbol op +:+ "' not supported between instances of '"
    +:+ type_str a +:+ "' and '" +:+ type_str b +:+ "'")).

(** The list loop: the first position whose elements are not [cmp_equal]
    decides; otherwise the lengths do. *)
Section FirstDiff.
Context {A : Type} (eq : A → A → bool) (ord : A → A → Res bool).
Fixpoint first_diff (la lb : list A) (otherwise : bool) : Res bool :=
  match la, lb with
  | a :: la, b :: lb => if eq a b then first_diff la lb otherwise else ord a b
  | _, _ => Ok otherwise
  end.
End FirstDiff.

Fixpoint cmp_ord (op : cmp_ops) (self x : ValueRef) {struct self} : Res bool :=
  match self, x with
  | Ref (int_value a), Ref (int_value b) => Ok (op_int op a b)
  | Ref (int_value a), Ref (float_value b) => Ok (op_float op (f_of_int a) b)
  | Ref (int_value a), Ref (bool_value b) => Ok (op_int op a (Z_of_bool b))
  | Ref (float_value a), Ref (int_value b) => Ok (op_float op a (f_of_int b))
  | Ref (float_value a), Ref (float_value b) => Ok (op_float op a b)
  | Ref (float_value a), Ref (bool_value b) => Ok (op_float op a (f_of_int (Z_of_bool b)))
  | Ref (bool_value a), Ref (int_value b) => Ok (op_int op (Z_of_bool a) b)
  | Ref (bool_value a), Ref (float_value b) => Ok (op_float op (f_of_int (Z_of_bool a)) b)
  | Ref (bool_value a), Ref (bool_value b) => Ok (op_bool op a b)
  | Ref (str_value a), Ref (str_value b) => Ok (op_str op a b)
  | Ref (list_value a), Ref (list_value b) =>
      first_diff cmp_equal (cmp_ord op) (list_values a) (list_values b)
        (op_len op (length (list_values a)) (length (list_values b)))
  | _, _ => not_supported op self x
  end.

Definition lt_ops : cmp_ops := {|
  op_symbol := "<"; op_int := Z.ltb; op_float := f_lt;
  op_bool := λ a b, negb a && b; op_str := str_lt; op_len := Nat.ltb |}.
Definition le_ops : cmp_ops := {|
  op_symbol := "<="; op_int := Z.leb; op_float := f_le;
  op_bool := λ a b, implb a b; op_str := str_le; op_len := Nat.leb |}.
Definition gt_ops : cmp_ops := {|
  op_symbol := ">"; op_int := λ a b, b <? a; op_float := λ a b, f_lt b a;
  op_bool := λ a b, a && negb b; op_str := λ a b, str_lt b a; op_len := λ a b, Nat.ltb b a |}.
Definition ge_ops : cmp_ops := {|
  op_symbol := ">="; op_int := λ a b, b <=? a; op_float := λ a b, f_le b a;
  op_bool := λ a b, implb b a; op_str := λ a b, str_le b a; op_len := λ a b, Nat.leb b a |}.

Definition cmp_less_than : ValueRef → ValueRef → Res bool := cmp_ord lt_ops.
Definition cmp_less_than_or_equal : ValueRef → ValueRef → Res bool := cmp_ord le_ops.
Definition cmp_greater_than : ValueRef → ValueRef → Res bool := cmp_ord gt_ops.
Definition cmp_greater_than_or_equal : ValueRef → ValueRef → Res bool := cmp_ord ge_ops.

(** ** Membership: [x in y], [has_key], [has_value], [list_count], [list_find] *)

Definition value_in (self x : ValueRef) : Res bool :=
  match rc x with
  | str_value b =>
      Ok (match rc self with str_value a => str_contains a b | _ => false end)
  | list_value l => Ok (existsb (λ v, cmp_equal self v) (list_values l))
  | dict_value d => Ok (contains_key (as_str self) (values d))
  | schema_value s => Ok (contains_key (as_str self) (values (config s)))
  | _ => Panic (PanicMsg ("TypeError: argument of type '" +:+ type_str x +:+ "' is not iterable"))
  end.

Definition not_in (self x : ValueRef) : Res bool := negb <$> value_in self x.

Definition has_key (self : ValueRef) (key : string) : bool :=
  match rc self with
  | dict_value d => contains_key key (values d)
  | schema_value s => contains_key key (values (config s))
  | _ => false
  end.

Definition has_value (self x : ValueRef) : Res bool := value_in x self.

Definition list_count (self item : ValueRef) : Res Z :=
  match rc self with
  | list_value l =>
      Ok (foldl (λ count v, if cmp_equal v item then count + 1 else count) 0 (list_values l))
  | _ => Panic (PanicMsg "Invalid list object in list_find")
  end.

Definition list_find (self item : ValueRef) : Res Z :=
  match rc self with
  | list_value l =>
      Ok ((fix go (i : Z) (vs : list ValueRef) : Z :=
             match vs with
             | [] => -1
             | v :: vs => if cmp_equal v item then i else go (i + 1) vs
             end) 0 (list_values l))
  | _ => Panic (PanicMsg "Invalid list object in list_find")
  end.

(** ** [value_subsume] *)

Section Overlap.
Context {A B : Type} (f : A → B → bool).
(** The loop over the keys that both dictionaries have. *)
Fixpoint common_all (d1 : IndexMap string A) (d2 : IndexMap string B) : bool :=
  match d1 with
  | [] => true
  | (k, v) :: d1 =>
      match map_get k d2 with
      | None => common_all d1 d2
      | Some v' => if f v v' then common_all d1 d2 else false
      end
  end.
End Overlap.

Fixpoint value_subsume (value1 value2 : ValueRef) (should_recursive_check : bool) {struct value1}
    : bool :=
  if is_none_or_undefined value1 || is_none_or_undefined value2 then true
  else if cmp_equal value1 value2 then true
  else if is_int value1 && is_int value2 then as_int value1 =? as_int value2
  else if is_float value1 && is_float value2 then f_eq (as_float value1) (as_float value2)
  else if is_bool value1 && is_bool value2 then Bool.eqb (as_bool value1) (as_bool value2)
  else if is_str value1 && is_str value2 then bool_decide (as_str value1 = as_str value2)
  else
    let configs (d1 d2 : IndexMap string ValueRef) : bool :=
      if vec_is_empty d1 then true
      else if forallb (λ k, negb (contains_key k d2)) d1.*1 then true
      else if should_recursive_check
      then common_all (λ v1 v2, value_subsume v1 v2 should_recursive_check) d1 d2
      else true in
    match value1, value2 with
    | Ref (list_value l1), Ref (list_value l2) =>
        Nat.eqb (length (list_values l1)) (length (list_values l2)) &&
        zip_all (λ v1 v2, value_subsume v1 v2 should_recursive_check)
          (list_values l1) (list_values l2)
    | Ref (dict_value d1), Ref (dict_value d2) => configs (values d1) (values d2)
    | Ref (dict_value d1), Ref (schema_value d2) => configs (values d1) (values (config d2))
    | Ref (schema_value d1), Ref (dict_value d2) => configs (values (config d1)) (values d2)
    | Ref (schema_value d1), Ref (schema_value d2) =>
        configs (values (config d1)) (values (config d2))
    | _, _ => false
    end.

(** ** Lemmas *)

Lemma zip_all_flip {A B} (f : A → B → bool) (g : B → A → bool) la lb :
  (∀ a b, a ∈ la → b ∈ lb → f a b = g b a) → zip_all f la lb = zip_all g lb la.
Proof.
  revert lb. induction la as [|a la IH]; intros [|b lb] Hfg; simpl; [done..|].
  rewrite Hfg by left. f_equal. apply IH. intros; apply Hfg; by right.
Qed.

Lemma zip_all_refl {A} (f : A → A → bool) l : zip_all f l l = forallb (λ a, f a a) l.
Proof. induction l as [|a l IH]; simpl; [done|]. by rewrite IH. Qed.

Lemma entries_in_spec {A B} (f : A → B → bool) da db :
  wf_map da →
  entries_in f da db = true ↔
    ∀ k v, map_get k da = Some v → ∃ v', map_get k db = Some v' ∧ f v v' = true.
Proof.
  intros Hwf. transitivity (∀ k v, (k, v) ∈ da → ∃ v', map_get k db = Some v' ∧ f v v' = true).
  - clear Hwf. induction da as [|[k v] da IH]; simpl.
    { split; [|done]. by intros _ k v ?%elem_of_nil. }
    destruct (map_get k db) as [v'|] eqn:E.
    + rewrite andb_true_iff, IH. split.
      * intros [Hf Hall] k0 v0 [[= -> ->]|Hin]%elem_of_cons; [eauto|by apply Hall].
      * intros Hall. split; [|intros; apply Hall; by right].
        destruct (Hall k v) as (w & Hw & ?); [left|]. rewrite E in Hw. congruence.
    + split; [done|]. intros Hall. destruct (Hall k v) as (w & Hw & _); [left|congruence].
  - split; intros H k v Hkv; apply H.
    + by apply map_get_in.
    + by apply in_map_get.
Qed.

(** Two maps of the same size, one contained in the other, have the same keys. *)
Lemma same_size_keys {A B} (da : IndexMap string A) (db : IndexMap string B) :
  wf_map da → wf_map db → length da = length db →
  (∀ k, k ∈ da.*1 → k ∈ db.*1) → ∀ k, k ∈ db.*1 → k ∈ da.*1.
Proof.
  intros Ha Hb Hlen Hsub k Hk.
  assert (da.*1 ≡ₚ db.*1) as Hp; [|by rewrite Hp].
  apply submseteq_length_Permutation; [by apply NoDup_submseteq|].
  by rewrite !length_fmap, Hlen.
Qed.

Lemma map_get_key {A} k (m : IndexMap string A) v : map_get k m = Some v → k ∈ m.*1.
Proof. intros ?%map_get_in%(list_elem_of_fmap_2 fst). done. Qed.

Lemma map_get_val {A} k (m : IndexMap string A) v : map_get k m = Some v → v ∈ m.*2.
Proof. intros ?%map_get_in%(list_elem_of_fmap_2 snd). done. Qed.

Lemma key_map_get {A} k (m : IndexMap string A) : k ∈ m.*1 → ∃ v, map_get k m = Some v.
Proof.
  intros Hk. destruct (map_get k m) eqn:E; [eauto|]. by apply map_get_None in E.
Qed.

Lemma entries_in_flip {A B} (f : A → B → bool) (g : B → A → bool) da db :
  wf_map da → wf_map db → length da = length db →
  (∀ a b, a ∈ da.*2 → b ∈ db.*2 → f a b = g b a) → entries_in f da db = entries_in g db da.
Proof.
  intros Ha Hb Hlen Hfg. apply eq_true_iff_eq.
  rewrite !entries_in_spec by done. split.
  - intros H k v Hv.
    destruct (key_map_get k da) as [w Hw].
    { eapply (same_size_keys da db); try done; [|by eapply map_get_key].
      intros k' [w Hw]%key_map_get. destruct (H _ _ Hw) as (? & ? & _). by eapply map_get_key. }
    destruct (H _ _ Hw) as (v' & Hv' & Hf). exists w. split; [done|].
    rewrite <- Hfg by by eapply map_get_val. congruence.
  - intros H k v Hv.
    destruct (key_map_get k db) as [w Hw].
    { eapply (same_size_keys db da); try done; [|by eapply map_get_key].
      intros k' [w Hw]%key_map_get. destruct (H _ _ Hw) as (? & ? & _). by eapply map_get_key. }
    destruct (H _ _ Hw) as (v' & Hv' & Hf). exists w. split; [done|].
    assert (v' = v) as -> by congruence. by rewrite Hfg by by eapply map_get_val.
Qed.

Lemma bool_decide_sym {A} `{EqDecision A} (a b : A) : bool_decide (a = b) = bool_decide (b = a).
Proof. apply bool_decide_ext. split; congruence. Qed.


(** The values of the dictionary of a well-formed config are its children. *)
Lemma wf_value_dict d : wf_value (Ref (dict_value d)) → wf_map (values d).
Proof. intros Hv%wf_value_cell. apply Hv. Qed.
Lemma wf_value_schema s : wf_value (Ref (schema_value s)) → wf_map (values (config s)).
Proof. intros Hv%wf_value_cell. apply Hv. Qed.

Lemma children_list l : children (Ref (list_value l)) = list_values l.
Proof. done. Qed.

(** The common shape of the three container cases of the symmetry proof. *)
Lemma sized_flip (n m : nat) (p q : bool) :
  (n = m → p = q) → (if Nat.eqb n m then p else false) = (if Nat.eqb m n then q else false).
Proof.
  intros H. rewrite (Nat.eqb_sym m n). destruct (Nat.eqb_spec n m); auto.
Qed.

(** The dictionary comparison, which looks only one way and at the sizes, agrees
    with its mirror image. *)
Lemma cmp_equal_flip a b : wf_value a → wf_value b → cmp_equal a b = cmp_equal b a.
Proof.
  revert b. induction a as [a IH] using ValueRef_ind. intros b Ha Hb.
  assert (∀ c d, c ∈ children a → d ∈ children b → cmp_equal c d = cmp_equal d c) as IH'
    by eauto with kcl.
  clear IH.
  destruct a as [[| |x|x|x|x|[x]|x|x|x|x rx ux]], b as [[| |y|y|y|y|[y]|y|y|y|y ry uy]];
    cbn [cmp_equal list_values]; try done;
    auto using Z.eqb_sym, f_eq_sym, bool_decide_sym, Bool_eqb_sym;
    apply sized_flip; intros Hlen.
  - by apply zip_all_flip.
  - apply entries_in_flip; auto using wf_value_dict.
  - apply entries_in_flip; auto using wf_value_schema.
Qed.

(** *** Reflexivity *)

(** The values that are equal to themselves: no NaN and no number multiplier
    at any depth. *)
Fixpoint self_equal (v : ValueRef) : bool :=
  match v with
  | Ref (float_value f) => negb (f_is_nan f)
  | Ref (unit_value _ _ _) => false
  | Ref (list_value l) => forallb self_equal (list_values l)
  | Ref (dict_value d) => forallb (λ e, self_equal e.2) (values d)
  | Ref (schema_value s) => forallb (λ e, self_equal e.2) (values (config s))
  | _ => true
  end.

Lemma entries_in_self {A} (f : A → A → bool) (l m : IndexMap string A) :
  (∀ k v, (k, v) ∈ l → map_get k m = Some v) →
  entries_in f l m = forallb (λ e, f e.2 e.2) l.
Proof.
  induction l as [|[k v] l IH]; intros H; simpl; [done|].
  rewrite (H k v) by left. f_equal. apply IH. intros. apply H. by right.
Qed.

Lemma forallb_ext_in {A} (f g : A → bool) l :
  (∀ x, x ∈ l → f x = g x) → forallb f l = forallb g l.
Proof.
  induction l as [|x l IH]; intros H; simpl; [done|].
  rewrite H by left. f_equal. apply IH. intros. apply H. by right.
Qed.

Lemma entries_in_wf_self {A} (f : A → A → bool) (g : A → bool) (m : IndexMap string A) :
  wf_map m → (∀ v, v ∈ m.*2 → f v v = g v) →
  entries_in f m m = forallb (λ e, g e.2) m.
Proof.
  intros Hm Hfg. rewrite entries_in_self by (intros; by apply in_map_get).
  apply forallb_ext_in. intros e He. apply Hfg. by apply list_elem_of_fmap_2.
Qed.

Lemma cmp_equal_self v : wf_value v → cmp_equal v v = self_equal v.
Proof.
  induction v as [v IH] using ValueRef_ind. intros Hv.
  assert (∀ c, c ∈ children v → cmp_equal c c = self_equal c) as IH' by eauto with kcl.
  clear IH. destruct v as [[| |x|x|x|x|[x]|x|x|x|x rx ux]];
    cbn [cmp_equal self_equal list_values]; try done;
    rewrite ?Nat.eqb_refl; auto using Z.eqb_refl, f_eq_refl, bool_decide_true.
  - by destruct x.
  - rewrite zip_all_refl. by apply forallb_ext_in.
  - apply entries_in_wf_self; [by apply wf_value_dict|done].
  - apply entries_in_wf_self; [by apply wf_value_schema|done].
Qed.

(** Equality of runtime values is symmetric on well-formed values, although
    the comparison of two dictionaries looks up only the keys of the first; and
    a value is equal to itself exactly when it holds no NaN and no number
    multiplier at any depth ([unit_value] has no case in [cmp_equal]). *)
Theorem cmp_equal_sym_refl a b :
  wf_value a → wf_value b →
  cmp_equal a b = cmp_equal b a ∧ cmp_equal a a = self_equal a.
Proof. auto using cmp_equal_flip, cmp_equal_self. Qed.

(** *** The orderings *)

Definition same_result {A} (r1 r2 : Res A) : Prop :=
  match r1, r2 with
  | Ok x, Ok y => x = y
  | Panic _, Panic _ => True
  | _, _ => False
  end.

(** [op'] is [op] with its arguments exchanged. *)
Record mirror (op op' : cmp_ops) : Prop := {
  mirror_int a b : op_int op a b = op_int op' b a;
  mirror_float a b : op_float op a b = op_float op' b a;
  mirror_bool a b : op_bool op a b = op_bool op' b a;
  mirror_str a b : op_str op a b = op_str op' b a;
  mirror_len a b : op_len op a b = op_len op' b a }.

Lemma mirror_lt_gt : mirror lt_ops gt_ops.
Proof. split; try done. intros [] []; done. Qed.
Lemma mirror_le_ge : mirror le_ops ge_ops.
Proof. split; done. Qed.

Lemma first_diff_mirror {A} eq (ord ord' : A → A → Res bool) la lb o o' :
  o = o' →
  (∀ a b, a ∈ la → b ∈ lb → eq a b = eq b a ∧ same_result (ord a b) (ord' b a)) →
  same_result (first_diff eq ord la lb o) (first_diff eq ord' lb la o').
Proof.
  revert lb. induction la as [|a la IH]; intros [|b lb] Ho H; simpl; [done..|].
  destruct (H a b) as [-> ?]; [left..|]. destruct (eq b a); [|done].
  apply IH; [done|]. intros. apply H; by right.
Qed.

Lemma cmp_ord_mirror op op' a b :
  mirror op op' → wf_value a → wf_value b →
  same_result (cmp_ord op a b) (cmp_ord op' b a).
Proof.
  intros Hop. revert b. induction a as [a IH] using ValueRef_ind. intros b Ha Hb.
  assert (∀ c d, c ∈ children a → d ∈ children b →
    cmp_equal c d = cmp_equal d c ∧ same_result (cmp_ord op c d) (cmp_ord op' d c)) as IH'.
  { intros c d Hc Hd. split; [apply cmp_equal_flip|apply IH]; eauto with kcl. }
  clear IH.
  destruct a as [[| |x|x|x|x|[x]|x|x|x|x rx ux]], b as [[| |y|y|y|y|[y]|y|y|y|y ry uy]];
    cbn [cmp_ord not_supported same_result list_values]; try done;
    auto using mirror_int, mirror_float, mirror_bool, mirror_str.
  apply first_diff_mirror; [by apply mirror_len|done].
Qed.

(** [a < b] and [b > a], and [a <= b] and [b >= a], panic together and
    otherwise give the same answer. *)
Theorem cmp_mirror a b :
  wf_value a → wf_value b →
  same_result (cmp_less_than a b) (cmp_greater_than b a) ∧
  same_result (cmp_less_than_or_equal a b) (cmp_greater_than_or_equal b a).
Proof.
  intros Ha Hb. split; apply cmp_ord_mirror; auto using mirror_lt_gt, mirror_le_ge.
Qed.

(** No boolean, at any depth of nested lists. *)
Fixpoint bool_free (v : ValueRef) : bool :=
  match v with
  | Ref (bool_value _) => false
  | Ref (list_value l) => forallb bool_free (list_values l)
  | _ => true
  end.

Lemma first_diff_or {A} (eq : A → A → bool) lt le la lb o e r :
  (∀ a b r, a ∈ la → b ∈ lb → eq a b = false → lt a b = Ok r → le a b = Ok r) →
  first_diff eq lt la lb o = Ok r →
  first_diff eq le la lb (o || e) = Ok (r || (e && zip_all eq la lb)).
Proof.
  revert lb. induction la as [|a la IH]; intros [|b lb] H; simpl;
    try (intros [= ->]; by rewrite andb_true_r).
  destruct (eq a b) eqn:E; simpl.
  - apply IH. intros; eapply H; eauto; by right.
  - intros Hr. rewrite andb_false_r, orb_false_r. eapply H; eauto; by left.
Qed.

Lemma leb_ltb_eqb n m : Nat.leb n m = Nat.ltb n m || Nat.eqb n m.
Proof.
  destruct (Nat.leb_spec n m), (Nat.ltb_spec n m), (Nat.eqb_spec n m); simpl; done || lia.
Qed.

(** away from booleans, [a <= b] is [a < b or a == b] whenever the
    comparison is supported. *)
Theorem cmp_le_lt_or_eq a b r :
  bool_free a = true → bool_free b = true →
  cmp_less_than a b = Ok r → cmp_less_than_or_equal a b = Ok (r || cmp_equal a b).
Proof.
  unfold cmp_less_than, cmp_less_than_or_equal.
  revert b r. induction a as [a IH] using ValueRef_ind. intros b r Ha Hb.
  destruct a as [[| |x|x|x|x|[x]|x|x|x|x rx ux]], b as [[| |y|y|y|y|[y]|y|y|y|y ry uy]];
    try done; cbn [cmp_ord cmp_equal list_values lt_ops le_ops op_int op_float op_str op_len].
  - intros [= <-]. f_equal. lia.
  - intros [= <-]. f_equal. apply f_le_lt_eq.
  - intros [= <-]. f_equal. apply f_le_lt_eq.
  - intros [= <-]. f_equal. apply f_le_lt_eq.
  - intros [= <-]. f_equal. apply str_le_lt_eq.
  - intros Hr. cbn [bool_free list_values] in Ha, Hb.
    replace (if Nat.eqb (length x) (length y) then zip_all cmp_equal x y else false)
      with (Nat.eqb (length x) (length y) && zip_all cmp_equal x y) by done.
    rewrite leb_ltb_eqb.
    eapply first_diff_or; [|done]. intros c d r' Hc Hd Hcd Hlt.
    rewrite (IH c Hc d r'); eauto using forallb_elem. by rewrite Hcd, orb_false_r.
Qed.

Lemma first_diff_trichotomy {A} (eq : A → A → bool) lt la lb o o' e l :
  (∀ a b, a ∈ la → b ∈ lb → eq a b = eq b a) →
  (∀ a b l, a ∈ la → b ∈ lb → lt a b = Ok l →
     ∃ g, lt b a = Ok g ∧ exactly_one l (eq a b) g = true) →
  exactly_one o e o' = true →
  first_diff eq lt la lb o = Ok l →
  ∃ g, first_diff eq lt lb la o' = Ok g ∧ exactly_one l (e && zip_all eq la lb) g = true.
Proof.
  revert lb. induction la as [|a la IH]; intros [|b lb] Hs H Ho; simpl;
    try (intros [= ->]; rewrite andb_true_r; eauto).
  rewrite <- (Hs a b) by left. destruct (eq a b) eqn:E; simpl.
  - apply IH; [..|done]; intros; [apply Hs|eapply H; eauto]; by right.
  - intros Hl. destruct (H a b l) as [g [Hg Hx]]; [left|left|done|].
    exists g. by rewrite andb_false_r, <- E.
Qed.

Lemma Z_trichotomy a b : exactly_one (a <? b) (a =? b) (b <? a) = true.
Proof. destruct (Z.ltb_spec a b), (Z.eqb_spec a b), (Z.ltb_spec b a); simpl; done || lia. Qed.
Lemma nat_trichotomy a b : exactly_one (Nat.ltb a b) (Nat.eqb a b) (Nat.ltb b a) = true.
Proof.
  destruct (Nat.ltb_spec a b), (Nat.eqb_spec a b), (Nat.ltb_spec b a); simpl; done || lia.
Qed.
Lemma str_trichotomy_bool a b :
  exactly_one (str_lt a b) (bool_decide (a = b)) (str_lt b a) = true.
Proof.
  pose proof (str_trichotomy a b) as H. destruct (String.compare a b).
  - subst. by rewrite bool_decide_true, !str_lt_irrefl.
  - destruct H as (-> & -> & ?). by rewrite bool_decide_false.
  - destruct H as (-> & -> & ?). by rewrite bool_decide_false.
Qed.

(** away from booleans, NaN and number multipliers, two values that can be
    compared at all can be compared both ways, and exactly one of [a < b],
    [a == b] and [b < a] holds. *)
Theorem cmp_trichotomy a b l :
  wf_value a → wf_value b → bool_free a = true → bool_free b = true →
  self_equal a = true → self_equal b = true →
  cmp_less_than a b = Ok l →
  ∃ g, cmp_less_than b a = Ok g ∧ exactly_one l (cmp_equal a b) g = true.
Proof.
  unfold cmp_less_than. revert b l. induction a as [a IH] using ValueRef_ind.
  intros b l Hwa Hwb Hfa Hfb Ha Hb.
  destruct a as [[| |x|x|x|x|[x]|x|x|x|x rx ux]], b as [[| |y|y|y|y|[y]|y|y|y|y ry uy]];
    try done; cbn [cmp_ord cmp_equal list_values lt_ops op_int op_float op_str op_len];
    try (intros [= <-]; eexists; split; [done|]);
    auto using Z_trichotomy, str_trichotomy_bool;
    cbn [self_equal] in Ha, Hb;
    try (apply f_trichotomy; first [by apply negb_true_iff|apply f_of_mant_not_nan]).
  intros Hl. cbn [bool_free self_equal list_values] in Hfa, Hfb, Ha, Hb.
  eapply (first_diff_trichotomy _ _ _ _ _ _ (Nat.eqb (length x) (length y)));
    [..|apply nat_trichotomy|exact Hl].
  - intros c d Hc Hd. apply cmp_equal_flip; eauto with kcl.
  - intros c d l' Hc Hd. apply (IH c Hc d l'); eauto using forallb_elem with kcl.
Qed.

(** *** Membership *)

(** The position of the first element that satisfies [f]. *)
Fixpoint first_index (f : ValueRef → bool) (vs : list ValueRef) : option nat :=
  match vs with
  | [] => None
  | v :: vs => if f v then Some 0%nat else S <$> first_index f vs
  end.

Lemma list_find_first_index l item :
  list_find (Ref (list_value l)) item =
  Ok (match first_index (λ v, cmp_equal v item) (list_values l) with
      | Some n => Z.of_nat n
      | None => -1
      end).
Proof.
  unfold list_find. cbn [rc]. f_equal. generalize (list_values l) as vs. intros vs.
  enough (∀ i, (fix go (i : Z) (vs : list ValueRef) : Z :=
     match vs with
     | [] => -1
     | v :: vs => if cmp_equal v item then i else go (i + 1) vs
     end) i vs = match first_index (λ v, cmp_equal v item) vs with
                 | Some n => i + Z.of_nat n | None => -1 end) as H.
  { rewrite H. by destruct (first_index _ _). }
  induction vs as [|v vs IH]; intros i; cbn [first_index]; [done|].
  destruct (cmp_equal v item); [simpl; lia|].
  rewrite IH. destruct (first_index _ vs); simpl; [lia|done].
Qed.

Lemma first_index_Some f vs n :
  first_index f vs = Some n →
  ∃ v, vs !! n = Some v ∧ f v = true ∧ ∀ j w, (j < n)%nat → vs !! j = Some w → f w = false.
Proof.
  revert n. induction vs as [|v vs IH]; intros n; simpl; [done|].
  destruct (f v) eqn:E.
  - intros [= <-]. exists v. split_and!; [done..|]. intros j w Hj. lia.
  - intros (m & Hm & ->)%fmap_Some. destruct (IH m Hm) as (w & Hw & Hf & Hmin).
    exists w. split_and!; [done..|]. intros [|j] u Hj Hu; simplify_eq/=; [done|].
    eapply Hmin; [|done]. lia.
Qed.

Lemma first_index_existsb f vs :
  existsb f vs = match first_index f vs with Some _ => true | None => false end.
Proof.
  induction vs as [|v vs IH]; simpl; [done|]. destruct (f v); simpl; [done|].
  rewrite IH. by destruct (first_index f vs).
Qed.

Lemma list_count_filter l item :
  list_count (Ref (list_value l)) item =
  Ok (Z.of_nat (length (List.filter (λ v, cmp_equal v item) (list_values l)))).
Proof.
  unfold list_count. cbn [rc]. f_equal. generalize (list_values l) as vs. intros vs.
  enough (∀ n, foldl (λ count v, if cmp_equal v item then count + 1 else count) n vs =
    n + Z.of_nat (length (List.filter (λ v, cmp_equal v item) vs))) as ->; [lia|].
  induction vs as [|v vs IH]; intros n; simpl; [lia|].
  rewrite IH. destruct (cmp_equal v item); simpl; lia.
Qed.

Lemma existsb_ext_in {A} (f g : A → bool) l :
  (∀ x, x ∈ l → f x = g x) → existsb f l = existsb g l.
Proof.
  induction l as [|x l IH]; intros H; simpl; [done|].
  rewrite H by left. f_equal. apply IH. intros. apply H. by right.
Qed.

(** on a well-formed list, [list_find] gives the index of the first element
    equal to the item or -1, and the three lookups agree: [item in list] holds
    exactly when [list_find] is not -1, and then [list_count] is positive. *)
Theorem list_lookup_agree l item :
  wf_value (Ref (list_value l)) → wf_value item →
  ∃ i n b,
    list_find (Ref (list_value l)) item = Ok i ∧
    list_count (Ref (list_value l)) item = Ok n ∧
    value_in item (Ref (list_value l)) = Ok b ∧
    (b = true ↔ 0 ≤ i) ∧ (b = true ↔ 0 < n) ∧
    (i = -1 ∨ ∃ v, list_values l !! Z.to_nat i = Some v ∧ cmp_equal v item = true ∧
       ∀ j w, (j < Z.to_nat i)%nat → list_values l !! j = Some w → cmp_equal w item = false).
Proof.
  intros Hl Hi. rewrite list_find_first_index, list_count_filter. unfold value_in. cbn [rc].
  do 3 eexists. do 3 (split; [done|]).
  rewrite (existsb_ext_in (λ v, cmp_equal item v) (λ v, cmp_equal v item)).
  2: { intros v Hv. apply cmp_equal_flip; eauto with kcl. }
  rewrite first_index_existsb. destruct (first_index _ _) as [n|] eqn:E.
  - pose proof (first_index_Some _ _ _ E) as (v & Hv & Hf & Hmin).
    split; [lia|]. split.
    + split; [|done]. intros _. destruct (List.filter _ _) eqn:F; [|simpl; lia].
      apply list_elem_of_lookup_2, list_elem_of_In in Hv.
      assert (In v []) as []. rewrite <- F. by apply filter_In.
    + right. rewrite Nat2Z.id. eauto.
  - split; [lia|]. split; [|by left].
    replace (List.filter _ _) with (@nil ValueRef); [done|].
    clear -E. generalize dependent (list_values l). intros vs.
    induction vs as [|v vs IH]; simpl; [done|]. destruct (cmp_equal v item); [done|].
    intros E%fmap_None. auto.
Qed.

(** *** Compatibility *)

Lemma common_all_spec {A B} (f : A → B → bool) d1 d2 :
  wf_map d1 →
  common_all f d1 d2 = true ↔
    ∀ k v v', map_get k d1 = Some v → map_get k d2 = Some v' → f v v' = true.
Proof.
  intros Hwf. transitivity (∀ k v v', (k, v) ∈ d1 → map_get k d2 = Some v' → f v v' = true).
  - clear Hwf. induction d1 as [|[k v] d1 IH]; simpl.
    { split; [|done]. by intros _ k v v' ?%elem_of_nil. }
    destruct (map_get k d2) as [v'|] eqn:E.
    + destruct (f v v') eqn:F.
      * rewrite IH. split; [|intros H ? ? ? ?; apply H; by right].
        intros H k0 v0 w [[= -> ->]|Hin]%elem_of_cons ?; [congruence|eauto].
      * split; [done|]. intros H. rewrite <- F. eapply H; [left|done].
    + rewrite IH. split; [|intros H ? ? ? ?; apply H; by right].
      intros H k0 v0 w [[= -> ->]|Hin]%elem_of_cons ?; [congruence|eauto].
  - split; intros H k v v' Hk; eapply H; eauto using map_get_in, in_map_get.
Qed.

Lemma common_all_disjoint {A B} (f : A → B → bool) d1 (d2 : IndexMap string B) :
  forallb (λ k, negb (contains_key k d2)) d1.*1 = true → common_all f d1 d2 = true.
Proof.
  induction d1 as [|[k v] d1 IH]; simpl; [done|]. unfold contains_key at 1.
  intros [H ?]%andb_true_iff. destruct (map_get k d2); [done|auto].
Qed.

(** The three shortcuts of the dictionary case are subsumed by the loop. *)
Lemma configs_loop f (d1 d2 : IndexMap string ValueRef) (rec : bool) :
  (if vec_is_empty d1 then true
   else if forallb (λ k, negb (contains_key k d2)) d1.*1 then true
   else if rec then common_all f d1 d2 else true) =
  (if rec then common_all f d1 d2 else true).
Proof.
  destruct rec; [|by repeat case_match].
  destruct (vec_is_empty d1) eqn:E1; [by destruct d1|].
  destruct (forallb _ _) eqn:E2; [|done]. by rewrite common_all_disjoint.
Qed.

Lemma common_all_flip {A B} (f : A → B → bool) (g : B → A → bool) d1 d2 :
  wf_map d1 → wf_map d2 →
  (∀ a b, a ∈ d1.*2 → b ∈ d2.*2 → f a b = g b a) → common_all f d1 d2 = common_all g d2 d1.
Proof.
  intros H1 H2 H. apply eq_true_iff_eq. rewrite !common_all_spec by done.
  split; intros Hall k v v' Hv Hv'; [rewrite <- H|rewrite H]; eauto using map_get_val.
Qed.

(** The comparison of two configs, shortcuts removed. *)
Definition subsume_configs (r : bool) (d1 d2 : IndexMap string ValueRef) : bool :=
  if r then common_all (λ v1 v2, value_subsume v1 v2 r) d1 d2 else true.

(** [value_subsume] on two values that are not [None]/[Undefined], case by case. *)
Lemma value_subsume_unfold a b r :
  value_subsume a b r =
  (is_none_or_undefined a || is_none_or_undefined b || cmp_equal a b ||
   match rc a, rc b with
   | list_value l1, list_value l2 =>
       Nat.eqb (length (list_values l1)) (length (list_values l2)) &&
       zip_all (λ v1 v2, value_subsume v1 v2 r) (list_values l1) (list_values l2)
   | (dict_value _ | schema_value _), (dict_value _ | schema_value _) =>
       match config_of a, config_of b with
       | Some d1, Some d2 => subsume_configs r (values d1) (values d2)
       | _, _ => false
       end
   | _, _ => false
   end).
Proof.
  destruct a as [[| |x|x|x|x|x|x|x|x|x rx ux]], b as [[| |y|y|y|y|y|y|y|y|y ry uy]];
    try done; cbn [value_subsume]; unfold is_none_or_undefined, config_of; cbn [rc orb];
    try (destruct (cmp_equal _ _) eqn:E; [done|]; cbn [orb]; try done;
         unfold subsume_configs; apply configs_loop).
  all: cbn [cmp_equal]; by destruct (_ : bool) eqn:?.
Qed.

(** compatibility of values is symmetric on well-formed values, in both
    modes: [value_subsume] is a consistency relation, not the partial order
    its comment announces. *)
Theorem value_subsume_sym a b r :
  wf_value a → wf_value b → value_subsume a b r = value_subsume b a r.
Proof.
  revert b. induction a as [a IH] using ValueRef_ind. intros b Ha Hb.
  assert (∀ c d, c ∈ children a → d ∈ children b → value_subsume c d r = value_subsume d c r)
    as IH' by eauto with kcl.
  clear IH. rewrite !value_subsume_unfold.
  rewrite (cmp_equal_flip a b), (orb_comm (is_none_or_undefined a)) by done.
  f_equal. unfold config_of, subsume_configs.
  destruct a as [[| |x|x|x|x|[x]|x|x|x|x rx ux]], b as [[| |y|y|y|y|[y]|y|y|y|y ry uy]];
    try done; cbn [rc list_values].
  - rewrite Nat.eqb_sym. f_equal. by apply zip_all_flip.
  - destruct r; [|done]. apply common_all_flip; auto using wf_value_dict.
  - destruct r; [|done]. apply common_all_flip; auto using wf_value_dict, wf_value_schema.
  - destruct r; [|done]. apply common_all_flip; auto using wf_value_dict, wf_value_schema.
  - destruct r; [|done]. apply common_all_flip; auto using wf_value_schema.
Qed.

(** on scalars compatibility is equality; on two configs the check the
    merge performs (not recursive) always succeeds, whatever they hold. *)
Theorem value_subsume_shallow a b r :
  is_none_or_undefined a = false → is_none_or_undefined b = false →
  (is_scalar a = true → value_subsume a b r = cmp_equal a b) ∧
  (is_config a = true → is_config b = true → value_subsume a b false = true).
Proof.
  intros Ha Hb. rewrite !value_subsume_unfold, Ha, Hb. cbn [orb].
  destruct a as [[| |x|x|x|x|x|x|x|x|x rx ux]]; unfold config_of, subsume_configs;
    (split; [intros Hs|intros Hc Hc']); try done; cbn [rc] in *.
  all: try (destruct (cmp_equal _ b); done).
  all: destruct b as [[| |y|y|y|y|y|y|y|y|y ry uy]]; try done; cbn [rc];
    by rewrite orb_true_r.
Qed.

(** *** Concrete checks and witnesses *)

Definition pair_dict (k1 k2 : string) : ValueRef :=
  ref_dict [(k1, ref_int 1); (k2, ref_list [ref_str "x"; ref_float f_zero])].

Lemma cmp_equal_sym_refl_witness :
  cmp_equal (pair_dict "a" "b") (pair_dict "b" "a") =
    cmp_equal (pair_dict "b" "a") (pair_dict "a" "b") ∧
  cmp_equal (pair_dict "a" "b") (pair_dict "a" "b") = self_equal (pair_dict "a" "b").
Proof. apply cmp_equal_sym_refl; concrete. Defined.

Lemma cmp_mirror_witness :
  same_result (cmp_less_than (ref_list [ref_int 1]) (ref_list [ref_int 1; ref_int 2]))
    (cmp_greater_than (ref_list [ref_int 1; ref_int 2]) (ref_list [ref_int 1])) ∧
  same_result (cmp_less_than_or_equal (ref_list [ref_int 1]) (ref_list [ref_int 1; ref_int 2]))
    (cmp_greater_than_or_equal (ref_list [ref_int 1; ref_int 2]) (ref_list [ref_int 1])).
Proof. apply cmp_mirror; concrete. Defined.

Lemma cmp_le_lt_or_eq_witness :
  cmp_less_than_or_equal (ref_list [ref_int 1; ref_str "a"]) (ref_list [ref_int 1; ref_str "b"])
  = Ok (true || cmp_equal (ref_list [ref_int 1; ref_str "a"]) (ref_list [ref_int 1; ref_str "b"])).
Proof. apply cmp_le_lt_or_eq; concrete. Defined.

Lemma cmp_trichotomy_witness :
  ∃ g, cmp_less_than (ref_list [ref_int 2]) (ref_list [ref_float (f_of_int 1)]) = Ok g ∧
    exactly_one true
      (cmp_equal (ref_list [ref_float (f_of_int 1)]) (ref_list [ref_int 2])) g = true.
Proof. apply cmp_trichotomy; concrete. Defined.

Lemma list_lookup_agree_witness :
  ∃ i n b,
    list_find (ref_list [ref_int 4; ref_int 7; ref_int 7]) (ref_int 7) = Ok i ∧
    list_count (ref_list [ref_int 4; ref_int 7; ref_int 7]) (ref_int 7) = Ok n ∧
    value_in (ref_int 7) (ref_list [ref_int 4; ref_int 7; ref_int 7]) = Ok b ∧
    (b = true ↔ 0 ≤ i) ∧ (b = true ↔ 0 < n) ∧
    (i = -1 ∨ ∃ v, [ref_int 4; ref_int 7; ref_int 7] !! Z.to_nat i = Some v ∧
       cmp_equal v (ref_int 7) = true ∧
       ∀ j w, (j < Z.to_nat i)%nat → [ref_int 4; ref_int 7; ref_int 7] !! j = Some w →
         cmp_equal w (ref_int 7) = false).
Proof.
  apply (list_lookup_agree (MkList [ref_int 4; ref_int 7; ref_int 7]) (ref_int 7)); concrete.
Defined.

Lemma value_subsume_sym_witness :
  value_subsume (pair_dict "a" "b") (pair_dict "b" "c") true =
  value_subsume (pair_dict "b" "c") (pair_dict "a" "b") true.
Proof. apply value_subsume_sym; concrete. Defined.

Lemma value_subsume_shallow_witness :
  (is_scalar (pair_dict "a" "b") = true →
     value_subsume (pair_dict "a" "b") (pair_dict "b" "c") true =
     cmp_equal (pair_dict "a" "b") (pair_dict "b" "c")) ∧
  (is_config (pair_dict "a" "b") = true → is_config (pair_dict "b" "c") = true →
     value_subsume (pair_dict "a" "b") (pair_dict "b" "c") false = true).
Proof. apply value_subsume_shallow; concrete. Defined.

(** Equality is not transitive across [int] and [float]: the conversion of an
    [int] beyond 2^53 to [float] rounds. *)
Example cmp_equal_not_transitive :
  cmp_equal (ref_int (2 ^ 53 + 1)) (ref_float (f_of_int (2 ^ 53))) = true ∧
  cmp_equal (ref_float (f_of_int (2 ^ 53))) (ref_int (2 ^ 53)) = true ∧
  cmp_equal (ref_int (2 ^ 53 + 1)) (ref_int (2 ^ 53)) = false.
Proof. by vm_compute. Qed.

(** Booleans are ordered as the numbers 0 and 1 but equal to no number. *)
Example bool_int_order :
  cmp_less_than_or_equal (ref_int 1) (ref_bool true) = Ok true ∧
  cmp_greater_than_or_equal (ref_int 1) (ref_bool true) = Ok true ∧
  cmp_equal (ref_int 1) (ref_bool true) = false.
Proof. by vm_compute. Qed.

(** A key that is not a string is looked up as the empty string. *)
Example int_in_dict : value_in (ref_int 5) (ref_dict [("", ref_int 0)]) = Ok true.
Proof. by vm_compute. Qed.
