(* ===== verification/ListOps.v ===== *)
(** * Lists and slices

    [value/val_list.rs]: the list constructors, the element operations, the
    unpack operators, and slicing; [must_normalize_index] of
    [value/val_union.rs]; the subscripts of [value/val_bin.rs].  An operation
    that takes [&mut self] returns the new value of [self]. *)

From stdpp Require Import base tactics list strings numbers pretty.
From Stdlib Require Import ZArith Lia.
From S2P Require Import Prelude MachineInt IndexMap Str Float64 Value Cmp.
Local Open Scope Z_scope.

(** [Vec::insert] and [Vec::remove]: an index past the end panics. *)
Definition vec_insert {A} (i : nat) (x : A) (l : list A) : Res (list A) :=
  if Nat.leb i (length l) then Ok (take i l ++ x :: drop i l) else Panic IndexOutOfBounds.
Definition vec_remove {A} (i : nat) (l : list A) : Res (list A) :=
  if Nat.ltb i (length l) then Ok (take i l ++ drop (S i) l) else Panic IndexOutOfBounds.

Section ListOps.
Context {HP : Profile}.

(** [must_normalize_index(index: i32, len: usize)] *)
Definition must_normalize_index (index : Z) (len : Z) : Res Z :=
  if index <? 0 then
    pos_index ← arith 32 (index + as_i32 len);
    if 0 <=? pos_index then Ok (as_usize pos_index)
    else Panic (PanicMsg ("index out of bounds: the len is " +:+ pretty len +:+
                          " but the index is " +:+ pretty index))
  else Ok (as_usize index).

(** ** Constructors *)

Definition list_n (size : nat) (val : ValueRef) : ValueRef := ref_list (replicate size val).
Definition list_bool (x : list bool) : ValueRef := ref_list (ref_bool <$> x).
Definition list_int (x : list Z) : ValueRef := ref_list (ref_int <$> x).
Definition list_float (x : list f64) : ValueRef := ref_list (ref_float <$> x).
Definition list_str (x : list string) : ValueRef := ref_list (ref_str <$> x).

(** ** Element operations *)

Definition list_resize (self : ValueRef) (newsize : nat) : Res ValueRef :=
  match rc self with
  | list_value l =>
      let vs := list_values l in
      Ok (ref_list (if Nat.ltb newsize (length vs) then take newsize vs
                    else vs ++ replicate (newsize - length vs) ref_undefined))
  | _ => Panic (PanicMsg "Invalid list object in list_resize")
  end.

Definition list_clear (self : ValueRef) : Res ValueRef :=
  match rc self with
  | list_value _ => Ok (ref_list [])
  | _ => Panic (PanicMsg "Invalid list object in list_clear")
  end.

(** The index computation of [list_get] and [list_get_option]. *)
Definition isize_index (i : Z) (len : nat) : Res Z :=
  if i <? 0 then j ← arith 64 (i + Z.of_nat len); Ok (as_usize j) else Ok (as_usize i).

Definition list_get (self : ValueRef) (i : Z) : Res (option ValueRef) :=
  match rc self with
  | list_value l =>
      j ← isize_index i (length (list_values l));
      if negb (vec_is_empty (list_values l))
      then Some <$> index (list_values l) (Z.to_nat j)
      else Ok None
  | _ => Panic (PanicMsg "Invalid list object in list_get")
  end.

Definition list_get_option (self : ValueRef) (i : Z) : Res (option ValueRef) :=
  match rc self with
  | list_value l =>
      j ← isize_index i (length (list_values l));
      if negb (vec_is_empty (list_values l)) && (j <? Z.of_nat (length (list_values l)))
      then Some <$> index (list_values l) (Z.to_nat j)
      else Ok None
  | _ => Panic (PanicMsg "Invalid list object in list_get_option")
  end.

Definition list_set (self : ValueRef) (i : nat) (v : ValueRef) : Res ValueRef :=
  match rc self with
  | list_value l =>
      Ok (if Nat.ltb i (length (list_values l))
          then ref_list (<[i := v]> (list_values l)) else self)
  | _ => Panic (PanicMsg "Invalid list object in list_set")
  end.

Definition list_must_set (self : ValueRef) (i : nat) (v : ValueRef) : Res ValueRef :=
  match rc self with
  | list_value l =>
      if Nat.ltb i (length (list_values l))
      then Ok (ref_list (<[i := v]> (list_values l))) else Panic IndexOutOfBounds
  | _ => Panic (PanicMsg "Invalid list object in list_set")
  end.

Definition list_set_value (self i v : ValueRef) : Res ValueRef :=
  idx ← must_as_strict_int i;
  n ← len self;
  j ← must_normalize_index (as_i32 idx) n;
  list_must_set self (Z.to_nat j) v.

Definition list_pop (self : ValueRef) : Res (ValueRef * option ValueRef) :=
  match rc self with
  | list_value l => Ok (ref_list (removelast (list_values l)), last (list_values l))
  | _ => Panic (PanicMsg "Invalid list object in list_pop")
  end.

Definition list_pop_first (self : ValueRef) : Res (ValueRef * option ValueRef) :=
  match rc self with
  | list_value l =>
      match list_values l with
      | [] => Ok (self, None)
      | v :: vs => Ok (ref_list vs, Some v)
      end
  | _ => Panic (PanicMsg "Invalid list object in list_pop")
  end.

Definition list_append (self v : ValueRef) : Res ValueRef :=
  match rc self with
  | list_value l => Ok (ref_list (list_values l ++ [v]))
  | _ => Panic (PanicMsg "Invalid list object in list_append")
  end.

(** The elements an unpacked value contributes: the elements of a list, the
    keys of a config, nothing for [None] and [Undefined]. *)
Definition unpack_elements (x : ValueRef) : option (list ValueRef) :=
  match rc x with
  | list_value l => Some (list_values l)
  | dict_value d => Some (ref_str <$> (values d).*1)
  | schema_value s => Some (ref_str <$> (values (config s)).*1)
  | none | undefined => Some []
  | _ => None
  end.

Definition list_append_unpack (self x_or_list : ValueRef) : Res ValueRef :=
  match rc self with
  | list_value l =>
      match unpack_elements x_or_list with
      | Some xs => Ok (ref_list (foldl (λ acc x, acc ++ [x]) (list_values l) xs))
      | None => Panic (PanicMsg
          "only list, dict and schema object can be used with unpack operators * and **")
      end
  | _ => Panic (PanicMsg "Invalid list object in list_append_unpack")
  end.

(** [for (i, x) in xs.enumerate() { list.insert(i, x) }] *)
Fixpoint insert_from (i : nat) (xs l : list ValueRef) : Res (list ValueRef) :=
  match xs with
  | [] => Ok l
  | x :: xs => l' ← vec_insert i x l; insert_from (S i) xs l'
  end.

Definition list_append_unpack_first (self x_or_list : ValueRef) : Res ValueRef :=
  match rc self with
  | list_value l =>
      match unpack_elements x_or_list with
      | Some xs => (λ vs, ref_list vs) <$> insert_from 0 xs (list_values l)
      | None => (λ vs, ref_list vs) <$> vec_insert 0 x_or_list (list_values l)
      end
  | _ => Panic (PanicMsg "Invalid list object in list_append_unpack_first")
  end.

Definition list_insert_at (self : ValueRef) (i : nat) (v : ValueRef) : Res ValueRef :=
  match rc self with
  | list_value l => (λ vs, ref_list vs) <$> vec_insert i v (list_values l)
  | _ => Panic (PanicMsg "Invalid list object in list_insert_at")
  end.

Definition list_remove_at (self : ValueRef) (i : nat) : Res ValueRef :=
  match rc self with
  | list_value l => (λ vs, ref_list vs) <$> vec_remove i (list_values l)
  | _ => Panic (PanicMsg "Invalid list object in list_remove_at")
  end.

(** The loop of [list_remove] keeps the index of every match it meets, so the
    last one wins. *)
Fixpoint last_match (item : ValueRef) (i : nat) (vs : list ValueRef) (idx : option nat)
    : option nat :=
  match vs with
  | [] => idx
  | v :: vs => last_match item (S i) vs (if cmp_equal v item then Some i else idx)
  end.

Definition list_remove (self item : ValueRef) : Res ValueRef :=
  match rc self with
  | list_value l =>
      match last_match item 0 (list_values l) None with
      | Some i => (λ vs, ref_list vs) <$> vec_remove i (list_values l)
      | None => Ok self
      end
  | _ => Panic (PanicMsg "Invalid list object in list_remove_at")
  end.

(** ** Slices *)

Definition slice_unpack (start stop step : ValueRef) : Res (Z * Z * Z) :=
  step_val ← match rc step with
             | int_value step =>
                 if step =? 0 then Panic (PanicMsg "slice step cannot be zero") else Ok step
             | _ => Ok 1
             end;
  let start_val := match rc start with
                   | int_value start => start
                   | _ => if step_val <? 0 then i64_MAX else 0
                   end in
  let stop_val := match rc stop with
                  | int_value stop => stop
                  | _ => if step_val <? 0 then i64_MIN else i64_MAX
                  end in
  Ok (start_val, stop_val, step_val).

(** The normalisation that [slice_adjust_indices] applies to [start] and to
    [stop] alike. *)
Definition adjust_bound (len b step : Z) : Res Z :=
  if b <? 0 then
    b ← arith 64 (b + len);
    Ok (if b <? 0 then (if step <? 0 then -1 else 0) else b)
  else if len <=? b then
    (if step <? 0 then arith 64 (len - 1) else Ok len)
  else Ok b.

Definition slice_adjust_indices (len start stop step : Z) : Res (Z * Z * Z) :=
  assert_rust (negb (step =? 0));;
  start ← adjust_bound len start step;
  stop ← adjust_bound len stop step;
  slice_len ←
    (if step <? 0 then
       if stop <? start then
         d ← arith 64 (start - stop - 1);
         m ← arith 64 (- step);
         q ← int_div 64 d m;
         arith 64 (q + 1)
       else Ok 0
     else if start <? stop then
       d ← arith 64 (stop - start - 1);
       q ← int_div 64 d step;
       arith 64 (q + 1)
     else Ok 0);
  Ok (start, stop, slice_len).

(** [for _ in 1..(slice_len + 1) { push(get(cur)); cur += step }] *)
Section Loop.
Context {A : Type} (get : Z → Res A) (step : Z).
Fixpoint slice_loop (n : nat) (cur : Z) : Res (list A) :=
  match n with
  | O => Ok []
  | S n =>
      x ← get cur;
      cur' ← arith 64 (cur + step);
      xs ← slice_loop n cur';
      Ok (x :: xs)
  end.
End Loop.

Definition list_slice (self start stop step : ValueRef) : Res ValueRef :=
  match rc self with
  | list_value l =>
      '(start, stop, step) ← slice_unpack start stop step;
      '(start, _, slice_len) ←
        slice_adjust_indices (Z.of_nat (length (list_values l))) start stop step;
      vs ← slice_loop (λ cur, index (list_values l) (Z.to_nat (as_usize cur))) step
             (Z.to_nat slice_len) start;
      Ok (ref_list vs)
  | str_value s =>
      '(start, stop, step) ← slice_unpack start stop step;
      '(start, _, slice_len) ←
        slice_adjust_indices (Z.of_nat (length (chars s))) start stop step;
      cs ← slice_loop (λ cur, unwrap (chars s !! Z.to_nat (as_usize cur))) step
             (Z.to_nat slice_len) start;
      Ok (ref_str (str_concat cs))
  | _ => Panic (PanicMsg ("invalid slice object " +:+ type_str self))
  end.

(** ** Subscripts ([val_bin.rs]) *)

Definition bin_subscr (self x : ValueRef) : Res ValueRef :=
  match rc self, rc x with
  | str_value a, int_value b =>
      i ← must_normalize_index (as_i32 b) (Z.of_nat (length (chars a)));
      if i <? Z.of_nat (slen a) then c ← unwrap (chars a !! Z.to_nat i); Ok (ref_str c)
      else Panic (PanicMsg ("string index out of range: " +:+ pretty b))
  | list_value a, int_value b =>
      i ← must_normalize_index (as_i32 b) (Z.of_nat (length (list_values a)));
      if i <? Z.of_nat (length (list_values a)) then index (list_values a) (Z.to_nat i)
      else Panic (PanicMsg ("list index out of range: " +:+ pretty b))
  | dict_value a, str_value b =>
      Ok (match map_get b (values a) with Some v => v | None => ref_undefined end)
  | dict_value _, _ => Ok ref_undefined
  | schema_value a, str_value b =>
      Ok (match map_get b (values (config a)) with Some v => v | None => ref_undefined end)
  | _, _ => Panic (PanicMsg ("'" +:+ type_str self +:+ "' object is not subscriptable with '"
                             +:+ type_str x +:+ "'"))
  end.

Definition bin_subscr_option (self x : ValueRef) : Res ValueRef :=
  if is_truthy self then bin_subscr self x else Ok ref_none.

End ListOps.

(** ** Slicing picks exactly the positions between the bounds *)

Lemma i64_bounds z : in_i64 z = true ↔ i64_MIN ≤ z ≤ i64_MAX.
Proof.
  unfold in_int, int_min, int_max, i64_MIN, i64_MAX.
  change (2 ^ (64 - 1)) with 9223372036854775808. lia.
Qed.

(** The bound a slice uses: counted from the end when negative, then clamped to
    the positions a walk in the direction of [step] can start or stop at. *)
Definition clamp_bound (len b step : Z) : Z :=
  let b := if b <? 0 then b + len else b in
  if step <? 0 then Z.max (-1) (Z.min b (len - 1)) else Z.max 0 (Z.min b len).

(** [i] comes before the bound [e] on a walk in the direction of [step]. *)
Definition before (step i e : Z) : bool := if step <? 0 then e <? i else i <? e.

Lemma clamp_bound_range len b step :
  0 ≤ len → (if step <? 0 then -1 else 0) ≤ clamp_bound len b step
            ≤ (if step <? 0 then len - 1 else len).
Proof. unfold clamp_bound. destruct (step <? 0), (b <? 0); lia. Qed.

Section SliceLemmas.
Context {HP : Profile}.

Lemma arith_i64 z : i64_MIN ≤ z ≤ i64_MAX → arith 64 z = Ok z.
Proof. intros H. apply arith_Ok. by apply i64_bounds. Qed.

Lemma adjust_bound_clamp len b step :
  0 ≤ len ≤ i64_MAX → in_i64 b = true →
  adjust_bound len b step = Ok (clamp_bound len b step).
Proof.
  rewrite i64_bounds. unfold adjust_bound, clamp_bound, i64_MIN, i64_MAX. intros Hl Hb.
  destruct (Z.ltb_spec b 0).
  - rewrite arith_i64 by (unfold i64_MIN, i64_MAX; lia). simpl. f_equal.
    destruct (Z.ltb_spec (b + len) 0), (Z.ltb_spec step 0); lia.
  - destruct (Z.leb_spec len b), (Z.ltb_spec step 0);
      try rewrite arith_i64 by (unfold i64_MIN, i64_MAX; lia); f_equal; lia.
Qed.

Lemma div_count d m :
  0 ≤ d < i64_MAX → 0 < m →
  (q ← int_div 64 d m; arith 64 (q + 1)) = Ok (d / m + 1) ∧ 0 ≤ d / m ∧
  ∀ k, k < d / m + 1 ↔ k * m ≤ d.
Proof.
  intros Hd Hm. assert (0 ≤ d / m ≤ d) as Hq.
  { split; [apply Z.div_pos; lia|apply Z.div_le_upper_bound; nia]. }
  split_and!; [|lia|].
  - unfold int_div. rewrite (proj2 (Z.eqb_neq m 0)), Z.quot_div_nonneg by lia.
    rewrite (proj2 (i64_bounds (d / m))) by (unfold i64_MIN, i64_MAX in *; lia).
    simpl. apply arith_i64. unfold i64_MIN, i64_MAX in *; lia.
  - intros k. pose proof (Z.div_mod d m ltac:(lia)).
    pose proof (Z.mod_pos_bound d m Hm). split; intros; nia.
Qed.

(** The number of elements of a slice: position [s + k * step] is before the
    bound for exactly the first [n] values of [k]. *)
Lemma slice_adjust_spec len start stop step :
  0 ≤ len ≤ i64_MAX → in_i64 start = true → in_i64 stop = true →
  i64_MIN < step ≤ i64_MAX → step ≠ 0 →
  ∃ n, slice_adjust_indices len start stop step =
         Ok (clamp_bound len start step, clamp_bound len stop step, n) ∧
       0 ≤ n ∧
       ∀ k, 0 ≤ k → (k <? n) = before step (clamp_bound len start step + k * step)
                                       (clamp_bound len stop step).
Proof.
  intros Hl Hs He Hstep H0. unfold slice_adjust_indices.
  rewrite (proj2 (Z.eqb_neq step 0) H0), !adjust_bound_clamp by done.
  cbn [negb assert_rust mbind Res_bind]. unfold before.
  pose proof (clamp_bound_range len start step (proj1 Hl)) as Hs'.
  pose proof (clamp_bound_range len stop step (proj1 Hl)) as He'.
  set (s := clamp_bound len start step) in *. set (e := clamp_bound len stop step) in *.
  clearbody s e. clear Hs He.
  destruct (Z.ltb_spec step 0) as [Hneg|Hpos].
  - destruct (Z.ltb_spec e s) as [Hlt|Hge].
    + rewrite !arith_i64 by (unfold i64_MIN, i64_MAX in *; lia). cbn [mbind Res_bind].
      destruct (div_count (s - e - 1) (- step)) as (-> & ? & Hc); [lia..|].
      cbn [mbind Res_bind]. eexists. split; [done|]. split; [lia|].
      intros k Hk. apply eq_bool_prop_intro. rewrite !Is_true_true, !Z.ltb_lt, Hc. lia.
    + exists 0. cbn. split_and!; [done..|]. intros k Hk. nia.
  - destruct (Z.ltb_spec s e) as [Hlt|Hge].
    + rewrite !arith_i64 by (unfold i64_MIN, i64_MAX in *; lia). cbn [mbind Res_bind].
      destruct (div_count (e - s - 1) step) as (-> & ? & Hc); [lia..|].
      cbn [mbind Res_bind]. eexists. split; [done|]. split; [lia|].
      intros k Hk. apply eq_bool_prop_intro. rewrite !Is_true_true, !Z.ltb_lt, Hc. lia.
    + exists 0. cbn. split_and!; [done..|]. intros k Hk. nia.
Qed.

(** The loop of a slice returns what its [get] returns at each position, as long
    as the positions are in range. *)
Lemma slice_loop_spec {A} (get : Z → Res A) (l : list A) step n cur len :
  0 ≤ len ≤ i64_MAX → (overflow_checks = false ∨ Z.abs step + len ≤ i64_MAX) →
  i64_MIN < step ≤ i64_MAX →
  (∀ k, 0 ≤ k < Z.of_nat n → 0 ≤ cur + k * step < len) →
  (∀ i, 0 ≤ i < len → ∃ x, get i = Ok x ∧ l !! Z.to_nat i = Some x) →
  ∃ ws, slice_loop get step n cur = Ok ws ∧ length ws = n ∧
    ∀ k, (k < n)%nat → ws !! k = l !! Z.to_nat (cur + Z.of_nat k * step).
Proof.
  intros Hl Hov Hstep Hr Hget. revert cur Hr. induction n as [|n IH]; intros cur Hr.
  { exists []. split_and!; [done..|]. intros k ?; lia. }
  cbn [slice_loop]. destruct (Hget cur) as (x & -> & Hx).
  { specialize (Hr 0). lia. }
  cbn [mbind Res_bind].
  assert (n = 0%nat ∨ arith 64 (cur + step) = Ok (cur + step)) as Hn.
  { destruct n as [|n]; [by left|right]. apply arith_i64. specialize (Hr 1).
    unfold i64_MIN, i64_MAX in *. lia. }
  assert (∃ c, arith 64 (cur + step) = Ok c) as [c Hc].
  { destruct Hov as [Hov|Hov].
    - unfold arith. rewrite Hov. destruct (in_i64 (cur + step)); eauto.
    - eexists. apply arith_i64. specialize (Hr 0). unfold i64_MIN, i64_MAX in *. lia. }
  rewrite Hc. cbn [mbind Res_bind].
  destruct Hn as [->|Hn].
  { exists [x]. split_and!; [done..|]. intros k Hk. assert (k = 0%nat) as -> by lia.
    simpl. rewrite <- Hx. f_equal. lia. }
  rewrite Hn in Hc. injection Hc as <-.
  destruct (IH (cur + step)) as (ws & -> & Hlen & Hws).
  { intros k Hk. specialize (Hr (k + 1)). lia. }
  exists (x :: ws). cbn [mbind Res_bind]. split_and!; [done|simpl; lia|].
  intros [|k] Hk; simpl.
  - rewrite <- Hx. f_equal. lia.
  - rewrite Hws by lia. f_equal. lia.
Qed.
End SliceLemmas.

(** [ws] is what a slice of [l] from [s] to [e] by [step] means: its [k]-th
    element is the element at position [s + k * step], for as long as that
    position comes before [e]. *)
Definition slice_of {A} (l ws : list A) (s e step : Z) : Prop :=
  ∀ k, ws !! k = (if before step (s + Z.of_nat k * step) e
                  then l !! Z.to_nat (s + Z.of_nat k * step) else None).

(** The bounds and the step a slice can be taken with: the step is not
    [i64::MIN] and, in a build with overflow checks, the walk stays in [i64]. *)
Definition slice_ok `{Profile} (len start stop step : Z) : Prop :=
  0 ≤ len ≤ i64_MAX ∧ in_i64 start = true ∧ in_i64 stop = true ∧
  i64_MIN < step ≤ i64_MAX ∧ step ≠ 0 ∧
  (overflow_checks = false ∨ Z.abs step + len ≤ i64_MAX).

Section SliceTheorems.
Context {HP : Profile}.

Lemma slice_core {A} (get : Z → Res A) (l : list A) start stop step :
  slice_ok (Z.of_nat (length l)) start stop step →
  (∀ i, 0 ≤ i < Z.of_nat (length l) → ∃ x, get i = Ok x ∧ l !! Z.to_nat i = Some x) →
  let len := Z.of_nat (length l) in
  ∃ n ws,
    slice_adjust_indices len start stop step =
      Ok (clamp_bound len start step, clamp_bound len stop step, n) ∧
    slice_loop get step (Z.to_nat n) (clamp_bound len start step) = Ok ws ∧
    slice_of l ws (clamp_bound len start step) (clamp_bound len stop step) step.
Proof.
  intros (Hl & Hs & He & Hstep & H0 & Hov) Hget len.
  destruct (slice_adjust_spec len start stop step) as (n & Hadj & Hn & Hc); [done..|].
  pose proof (clamp_bound_range len start step (proj1 Hl)) as Hs'.
  pose proof (clamp_bound_range len stop step (proj1 Hl)) as He'.
  destruct (slice_loop_spec get l step (Z.to_nat n) (clamp_bound len start step) len)
    as (ws & Hws & Hlen & Hlk); [done..| |done|].
  { intros k Hk. specialize (Hc k). unfold before in Hc.
    assert ((k <? n) = true) as Hk' by lia. rewrite Hk' in Hc.
    destruct (Z.ltb_spec step 0); specialize (Hc ltac:(lia)); nia. }
  exists n, ws. split_and!; [done..|]. intros k.
  rewrite <- Hc by lia. destruct (Z.ltb_spec (Z.of_nat k) n).
  - apply Hlk. lia.
  - apply lookup_ge_None_2. lia.
Qed.

Lemma as_usize_index i len : 0 ≤ i < len → len ≤ i64_MAX → as_usize i = i.
Proof.
  unfold wrap_uint, i64_MAX. intros. apply Z.mod_small. change (2 ^ 64) with 18446744073709551616. lia.
Qed.

Lemma list_slice_run vs start stop step s e st :
  slice_unpack start stop step = Ok (s, e, st) →
  let len := Z.of_nat (length vs) in
  slice_ok len s e st →
  ∃ ws, list_slice (ref_list vs) start stop step = Ok (ref_list ws) ∧
    slice_of vs ws (clamp_bound len s st) (clamp_bound len e st) st.
Proof.
  intros Hu len Hok.
  destruct (slice_core (λ cur, index vs (Z.to_nat (as_usize cur))) vs s e st Hok)
    as (n & ws & Hadj & Hloop & Hws).
  { intros i Hi. rewrite (as_usize_index i _ Hi) by (destruct Hok as [[_ ?] _]; done).
    apply index_Ok. lia. }
  exists ws. split; [|done]. unfold list_slice. cbn [rc ref_list list_values].
  rewrite Hu. cbn [mbind Res_bind]. rewrite Hadj. cbn [mbind Res_bind].
  by rewrite Hloop.
Qed.

Lemma str_slice_run str start stop step s e st :
  slice_unpack start stop step = Ok (s, e, st) →
  let len := Z.of_nat (length (chars str)) in
  slice_ok len s e st →
  ∃ cs, list_slice (ref_str str) start stop step = Ok (ref_str (str_concat cs)) ∧
    slice_of (chars str) cs (clamp_bound len s st) (clamp_bound len e st) st.
Proof.
  intros Hu len Hok.
  destruct (slice_core (λ cur, unwrap (chars str !! Z.to_nat (as_usize cur))) (chars str) s e st Hok)
    as (n & ws & Hadj & Hloop & Hws).
  { intros i Hi. rewrite (as_usize_index i _ Hi) by (destruct Hok as [[_ ?] _]; done).
    destruct (lookup_lt_is_Some_2 (chars str) (Z.to_nat i)) as [x Hx]; [lia|].
    rewrite Hx. eauto. }
  exists ws. split; [|done]. unfold list_slice. cbn [rc ref_str].
  rewrite Hu. cbn [mbind Res_bind]. rewrite Hadj. cbn [mbind Res_bind].
  by rewrite Hloop.
Qed.

(** A list that picks a contiguous ascending range of positions, or all
    positions backwards. *)
Lemma slice_of_all {A} (l ws : list A) :
  slice_of l ws 0 (Z.of_nat (length l)) 1 → ws = l.
Proof.
  intros H. apply list_eq. intros k. rewrite H. unfold before.
  destruct (Z.ltb_spec (0 + Z.of_nat k * 1) (Z.of_nat (length l))); cbn [Z.ltb Z.compare].
  - f_equal. lia.
  - symmetry. apply lookup_ge_None_2. lia.
Qed.
Lemma slice_of_rev {A} (l ws : list A) :
  slice_of l ws (Z.of_nat (length l) - 1) (-1) (-1) → ws = reverse l.
Proof.
  intros H. apply list_eq. intros k. rewrite H. unfold before.
  change (-1 <? 0) with true. cbv iota.
  destruct (Z.ltb_spec (-1) (Z.of_nat (length l) - 1 + Z.of_nat k * -1)) as [Hk|Hk].
  - rewrite reverse_lookup by lia. f_equal. lia.
  - symmetry. apply lookup_ge_None_2. rewrite length_reverse. lia.
Qed.
End SliceTheorems.

(** Slicing a list or a string with a nonzero step never indexes out of
    bounds and returns exactly the elements (for a string: the characters) at
    the positions [s], [s + step], [s + 2 * step], ... that come before [e],
    where [s] and [e] are the given bounds, counted from the end when negative
    and clamped. *)
Theorem list_slice_elements {HP : Profile} start stop step s e st :
  slice_unpack start stop step = Ok (s, e, st) →
  (∀ vs, let len := Z.of_nat (length vs) in
     slice_ok len s e st →
     ∃ ws, list_slice (ref_list vs) start stop step = Ok (ref_list ws) ∧
       slice_of vs ws (clamp_bound len s st) (clamp_bound len e st) st) ∧
  (∀ str, let len := Z.of_nat (length (chars str)) in
     slice_ok len s e st →
     ∃ cs, list_slice (ref_str str) start stop step = Ok (ref_str (str_concat cs)) ∧
       slice_of (chars str) cs (clamp_bound len s st) (clamp_bound len e st) st).
Proof.
  intros Hu. split; intros x; [by apply list_slice_run|by apply str_slice_run].
Qed.

Lemma list_slice_elements_witness :
  let p := {| overflow_checks := true |} in
  (∃ ws, list_slice (ref_list [ref_int 1; ref_int 2; ref_int 3]) (ref_int (-1)) ref_undefined
           (ref_int (-2)) = Ok (ref_list ws) ∧
     slice_of [ref_int 1; ref_int 2; ref_int 3] ws 2 (-1) (-2)) ∧
  (∃ cs, list_slice (ref_str "kcl") (ref_int (-1)) ref_undefined
           (ref_int (-2)) = Ok (ref_str (str_concat cs)) ∧
     slice_of ["k"; "c"; "l"] cs 2 (-1) (-2)).
Proof.
  intros p.
  destruct (list_slice_elements (ref_int (-1)) ref_undefined (ref_int (-2)) (-1) i64_MIN (-2)
              eq_refl) as [Hl Hs].
  split; [apply (Hl [ref_int 1; ref_int 2; ref_int 3])|apply (Hs "kcl")];
    unfold slice_ok; cbv; split_and!; try congruence; right; congruence.
Defined.

(** [x[::-1]] is the reversal of a list (of a string: by characters), and
    [x[:]] is [x]; both succeed for every list and string in memory. *)
Theorem list_slice_reverse {HP : Profile} vs str :
  Z.of_nat (length vs) < i64_MAX → Z.of_nat (length (chars str)) < i64_MAX →
  list_slice (ref_list vs) ref_undefined ref_undefined (ref_int (-1)) = Ok (ref_list (reverse vs)) ∧
  list_slice (ref_list vs) ref_undefined ref_undefined ref_undefined = Ok (ref_list vs) ∧
  list_slice (ref_str str) ref_undefined ref_undefined (ref_int (-1)) =
    Ok (ref_str (str_concat (reverse (chars str)))) ∧
  list_slice (ref_str str) ref_undefined ref_undefined ref_undefined = Ok (ref_str str).
Proof.
  intros Hv Hs.
  assert (∀ len, 0 ≤ len < i64_MAX → slice_ok len i64_MAX i64_MIN (-1)) as Hok1.
  { intros len Hlen. unfold slice_ok, i64_MAX, i64_MIN in *. split_and!; try done; lia. }
  assert (∀ len, 0 ≤ len < i64_MAX → slice_ok len 0 i64_MAX 1) as Hok2.
  { intros len Hlen. unfold slice_ok, i64_MAX, i64_MIN in *. split_and!; try done; lia. }
  assert (∀ len, 0 ≤ len < i64_MAX →
    clamp_bound len i64_MAX (-1) = len - 1 ∧ clamp_bound len i64_MIN (-1) = -1 ∧
    clamp_bound len 0 1 = 0 ∧ clamp_bound len i64_MAX 1 = len) as Hcl.
  { intros len Hlen. unfold clamp_bound, i64_MAX, i64_MIN in *. cbn [Z.ltb Z.compare]. lia. }
  split_and!.
  - destruct (list_slice_run vs ref_undefined ref_undefined (ref_int (-1)) i64_MAX i64_MIN (-1)) as (ws & -> & Hws);
      [done|apply Hok1; lia|].
    destruct (Hcl (Z.of_nat (length vs))) as (E1 & E2 & _); [lia|]. rewrite E1, E2 in Hws.
    by rewrite (slice_of_rev _ _ Hws).
  - destruct (list_slice_run vs ref_undefined ref_undefined ref_undefined 0 i64_MAX 1) as (ws & -> & Hws);
      [done|apply Hok2; lia|].
    destruct (Hcl (Z.of_nat (length vs))) as (_ & _ & E1 & E2); [lia|]. rewrite E1, E2 in Hws.
    by rewrite (slice_of_all _ _ Hws).
  - destruct (str_slice_run str ref_undefined ref_undefined (ref_int (-1)) i64_MAX i64_MIN (-1)) as (ws & -> & Hws);
      [done|apply Hok1; lia|].
    destruct (Hcl (Z.of_nat (length (chars str)))) as (E1 & E2 & _); [lia|]. rewrite E1, E2 in Hws.
    by rewrite (slice_of_rev _ _ Hws).
  - destruct (str_slice_run str ref_undefined ref_undefined ref_undefined 0 i64_MAX 1) as (ws & -> & Hws);
      [done|apply Hok2; lia|].
    destruct (Hcl (Z.of_nat (length (chars str)))) as (_ & _ & E1 & E2); [lia|].
    rewrite E1, E2 in Hws. by rewrite (slice_of_all _ _ Hws), chars_concat.
Qed.

Lemma list_slice_reverse_witness :
  let p := {| overflow_checks := true |} in
  list_slice (ref_list [ref_int 1; ref_int 2]) ref_undefined ref_undefined (ref_int (-1)) =
    Ok (ref_list [ref_int 2; ref_int 1]) ∧
  list_slice (ref_list [ref_int 1; ref_int 2]) ref_undefined ref_undefined ref_undefined =
    Ok (ref_list [ref_int 1; ref_int 2]) ∧
  list_slice (ref_str "ab") ref_undefined ref_undefined (ref_int (-1)) = Ok (ref_str "ba") ∧
  list_slice (ref_str "ab") ref_undefined ref_undefined ref_undefined = Ok (ref_str "ab").
Proof.
  intros p. apply (list_slice_reverse [ref_int 1; ref_int 2] "ab"); reflexivity.
Defined.

(** ** Element operations *)

(** The elements that the unpack operators read out of a value; [None] for a
    value that cannot be unpacked. *)
Lemma fold_append {A} (xs l : list A) : foldl (λ acc x, acc ++ [x]) l xs = l ++ xs.
Proof.
  revert l. induction xs as [|x xs IH]; intros l; simpl; [by rewrite app_nil_r|].
  by rewrite IH, <- app_assoc.
Qed.

Lemma insert_from_spec xs pre l :
  insert_from (length pre) xs (pre ++ l) = Ok (pre ++ xs ++ l).
Proof.
  revert pre. induction xs as [|x xs IH]; intros pre; [done|].
  cbn [insert_from]. unfold vec_insert.
  rewrite (proj2 (Nat.leb_le _ _)) by (rewrite length_app; lia).
  cbn [mbind Res_bind]. rewrite take_app_length, drop_app_length.
  specialize (IH (pre ++ [x])). rewrite length_app in IH. cbn [length] in IH.
  rewrite Nat.add_1_r, <- !app_assoc in IH. simpl in *. exact IH.
Qed.

(** [[*x, l...]] and [[l..., *x]]: unpacking in front and behind, which the
    code does by repeated single-element inserts and pushes, is concatenation
    with the unpacked elements; a value that is not a list, a config, [None] or
    [Undefined] is rejected behind and inserted as one element in front. *)
Theorem unpack_concat l x :
  list_append_unpack (ref_list l) x =
    match unpack_elements x with
    | Some xs => Ok (ref_list (l ++ xs))
    | None => Panic (PanicMsg
        "only list, dict and schema object can be used with unpack operators * and **")
    end ∧
  list_append_unpack_first (ref_list l) x =
    Ok (ref_list (default [x] (unpack_elements x) ++ l)).
Proof.
  unfold list_append_unpack, list_append_unpack_first. cbn [rc ref_list list_values].
  destruct (unpack_elements x) as [xs|] eqn:E; split; simpl.
  - by rewrite fold_append.
  - pose proof (insert_from_spec xs [] l) as Hi. simpl in Hi. by rewrite Hi.
  - done.
  - done.
Qed.

Lemma last_match_app item vs1 vs2 i idx :
  last_match item i (vs1 ++ vs2) idx =
  last_match item (i + length vs1) vs2 (last_match item i vs1 idx).
Proof.
  revert i idx. induction vs1 as [|v vs1 IH]; intros i idx; simpl; [by rewrite Nat.add_0_r|].
  rewrite IH. f_equal. lia.
Qed.
Lemma last_match_none item vs i idx :
  (∀ v, v ∈ vs → cmp_equal v item = false) → last_match item i vs idx = idx.
Proof.
  revert i idx. induction vs as [|v vs IH]; intros i idx Hv; simpl; [done|].
  rewrite (Hv v) by apply list_elem_of_here. apply IH. intros w Hw. apply Hv. by right.
Qed.

(** [list_remove] removes the last element equal to the item, and nothing
    when no element is equal to it. *)
Theorem list_remove_last l item :
  (∃ l1 v l2, l = l1 ++ v :: l2 ∧ cmp_equal v item = true ∧
     (∀ w, w ∈ l2 → cmp_equal w item = false) ∧
     list_remove (ref_list l) item = Ok (ref_list (l1 ++ l2))) ∨
  ((∀ w, w ∈ l → cmp_equal w item = false) ∧
   list_remove (ref_list l) item = Ok (ref_list l)).
Proof.
  assert ((∀ w, w ∈ l → cmp_equal w item = false) ∨
          ∃ l1 v l2, l = l1 ++ v :: l2 ∧ cmp_equal v item = true ∧
            ∀ w, w ∈ l2 → cmp_equal w item = false) as [H|(l1 & v & l2 & -> & Hv & H)].
  { induction l as [|v l [IH|(l1 & w & l2 & -> & IH)]].
    - left. by intros w ?%elem_of_nil.
    - destruct (cmp_equal v item) eqn:E.
      + right. by exists [], v, l.
      + left. by intros w [->|Hw]%elem_of_cons; auto.
    - right. by exists (v :: l1), w, l2. }
  - right. split; [done|]. unfold list_remove. cbn [rc ref_list list_values].
    by rewrite last_match_none.
  - left. exists l1, v, l2. split_and!; [done..|].
    unfold list_remove. cbn [rc ref_list list_values].
    rewrite last_match_app. simpl. rewrite Hv, last_match_none by done.
    unfold vec_remove. rewrite length_app. cbn [length].
    rewrite (proj2 (Nat.ltb_lt _ _)) by lia. simpl.
    rewrite take_app_length, <- Nat.add_1_r, drop_app_add. done.
Qed.

(** Inserting at a position and removing there gives the list back, the
    element inserted can be read there, and both operations reject exactly the
    positions past the end. *)
Theorem insert_at_remove_at l i v :
  (insert ← list_insert_at (ref_list l) i v; list_remove_at insert i) =
    (if Nat.leb i (length l) then Ok (ref_list l) else Panic IndexOutOfBounds) ∧
  is_Ok (list_remove_at (ref_list l) i) = Nat.ltb i (length l).
Proof.
  unfold list_insert_at, list_remove_at, vec_insert, vec_remove. cbn [rc ref_list list_values].
  split; [|by destruct (Nat.ltb_spec i (length l))].
  destruct (Nat.leb_spec i (length l)); [|done]. simpl.
  rewrite length_app, length_take_le by done. cbn [length].
  rewrite (proj2 (Nat.ltb_lt _ _)) by lia. simpl.
  rewrite take_app_le, take_take, Nat.min_id by (rewrite length_take; lia).
  rewrite drop_app_ge by (rewrite length_take; lia).
  rewrite length_take_le, Nat.sub_succ_l, Nat.sub_diag by lia. simpl.
  by rewrite drop_0, take_drop.
Qed.

(** ** Subscripts *)

Section Subscript.
Context {HP : Profile}.

Lemma i32_bounds z : in_i32 z = true ↔ -2147483648 ≤ z ≤ 2147483647.
Proof.
  unfold in_int, int_min, int_max. change (2 ^ (32 - 1)) with 2147483648. lia.
Qed.

Lemma must_normalize_index_spec b len :
  in_i32 b = true → 0 ≤ len ≤ 2147483647 →
  must_normalize_index b len =
    if b <? 0 then
      (if 0 <=? b + len then Ok (b + len)
       else Panic (PanicMsg ("index out of bounds: the len is " +:+ pretty len +:+
                             " but the index is " +:+ pretty b)))
    else Ok b.
Proof.
  intros Hb%i32_bounds Hl. unfold must_normalize_index.
  rewrite (wrap_int_id 32 ltac:(lia) len) by (apply i32_bounds; lia).
  assert (∀ z, 0 ≤ z ≤ 2147483647 → as_usize z = z) as Hu.
  { intros z Hz. unfold wrap_uint. apply Z.mod_small.
    change (2 ^ 64) with 18446744073709551616. lia. }
  destruct (Z.ltb_spec b 0).
  - rewrite arith_Ok by (apply i32_bounds; lia). cbn [mbind Res_bind].
    destruct (Z.leb_spec 0 (b + len)); [|done]. rewrite Hu by lia. done.
  - rewrite Hu by lia. done.
Qed.
End Subscript.

(** For an index in the 32-bit range, a list subscript reads the element at
    the index, counted from the end when negative, and panics exactly when
    there is none. *)
Theorem list_subscript {HP : Profile} vs b :
  in_i32 b = true → Z.of_nat (length vs) ≤ 2147483647 →
  let pos := if b <? 0 then b + Z.of_nat (length vs) else b in
  (∀ v, bin_subscr (ref_list vs) (ref_int b) = Ok v ↔ 0 ≤ pos ∧ vs !! Z.to_nat pos = Some v) ∧
  is_Ok (bin_subscr (ref_list vs) (ref_int b)) =
    (0 <=? pos) && (pos <? Z.of_nat (length vs)).
Proof.
  intros Hb Hl. cbv zeta. unfold bin_subscr. cbn [rc ref_list ref_int list_values].
  rewrite (wrap_int_id 32) by done. rewrite must_normalize_index_spec by lia || done.
  set (pos := if b <? 0 then b + Z.of_nat (length vs) else b).
  assert (∀ p, 0 ≤ p → ∀ v,
    (if p <? Z.of_nat (length vs) then index vs (Z.to_nat p)
     else Panic (PanicMsg ("list index out of range: " +:+ pretty b))) = Ok v ↔
    vs !! Z.to_nat p = Some v) as Hidx.
  { intros p Hp v. destruct (Z.ltb_spec p (Z.of_nat (length vs))).
    - unfold index. destruct (vs !! Z.to_nat p); split; congruence.
    - rewrite lookup_ge_None_2 by lia. split; done. }
  assert (∀ p, 0 ≤ p →
    is_Ok (if p <? Z.of_nat (length vs) then index vs (Z.to_nat p)
     else Panic (PanicMsg ("list index out of range: " +:+ pretty b))) =
    (p <? Z.of_nat (length vs))) as Hok.
  { intros p Hp. destruct (Z.ltb_spec p (Z.of_nat (length vs))); [|done].
    destruct (index_Ok vs (Z.to_nat p)) as (x & -> & _); [lia|done]. }
  unfold pos. destruct (Z.ltb_spec b 0) as [Hn|Hn].
  - destruct (Z.leb_spec 0 (b + Z.of_nat (length vs))); cbn [mbind Res_bind].
    + rewrite Hok by done. split; [|done]. intros v. rewrite Hidx by done. tauto.
    + split; [|done]. intros v. split; [done|lia].
  - cbn [mbind Res_bind]. rewrite Hok by done. split.
    + intros v. rewrite Hidx by done. tauto.
    + rewrite (proj2 (Z.leb_le _ _)) by lia. done.
Qed.

Lemma list_subscript_witness :
  let p := {| overflow_checks := true |} in
  let vs := [ref_int 7; ref_int 8] in
  (∀ v, bin_subscr (ref_list vs) (ref_int (-1)) = Ok v ↔ 0 ≤ 1 ∧ vs !! 1%nat = Some v) ∧
  is_Ok (bin_subscr (ref_list vs) (ref_int (-1))) = true.
Proof.
  intros p vs. exact (list_subscript vs (-1) eq_refl ltac:(by vm_compute)).
Defined.

(** The index is truncated to 32 bits before it is checked: an index of [2^32]
    reads the first element. *)
Example subscript_truncates :
  let p := {| overflow_checks := true |} in
  bin_subscr (ref_list [ref_int 7]) (ref_int (2 ^ 32)) = Ok (ref_int 7).
Proof. vm_compute. reflexivity. Qed.
