(* ===== verification/DictOps.v ===== *)
(** * Dictionaries, schema instances and copies

    [value/val_dict.rs] (all but the merging inserts, which are unions, see
    [Union]), [value/val_schema.rs], [value/val_clone.rs] and
    [value/val_get_set.rs].  A config is a [dict_value] or a [schema_value];
    both keep their entries in a [DictValue], and most operations act on it
    through [map_config]. *)

From stdpp Require Import base tactics list strings numbers pretty.
From Stdlib Require Import ZArith Ascii Lia.
From S2P Require Import Prelude MachineInt IndexMap Str Float64 Value Cmp.
Local Open Scope Z_scope.
Local Set Warnings "-clear-no-such-hyp".


(** ** Updates of one field of a record *)

Section Setters.
Context {R : Type}.
Definition set_values (f : IndexMap string R → IndexMap string R) (d : DictValue R) : DictValue R :=
  MkDict (f (values d)) (ops d) (insert_indexs d) (attr_map d) (potential_schema d) (schema_args d).
Definition set_attr_map (f : IndexMap string string → IndexMap string string) (d : DictValue R)
    : DictValue R :=
  MkDict (values d) (ops d) (insert_indexs d) (f (attr_map d)) (potential_schema d) (schema_args d).
Definition set_potential (p : option string) (d : DictValue R) : DictValue R :=
  MkDict (values d) (ops d) (insert_indexs d) (attr_map d) p (schema_args d).
Definition set_config (c : DictValue R) (s : SchemaValue R) : SchemaValue R :=
  MkSchema (schema_name s) (schema_pkgpath s) c (config_keys s) (config_meta s)
    (optional_mapping s) (args s) (kwargs s).
End Setters.

(** [match &mut *self.rc.borrow_mut() { dict_value(d) => .., schema_value(s) =>
    .. s.config .. }] *)
Definition map_config (f : DictValue ValueRef → DictValue ValueRef) (v : ValueRef)
    : option ValueRef :=
  match rc v with
  | dict_value d => Some (Ref (dict_value (f d)))
  | schema_value s => Some (Ref (schema_value (set_config (f (config s)) s)))
  | _ => None
  end.

(** ** [impl DictValue] *)

Definition DictValue_new (kvs : list (string * ValueRef)) : DictValue ValueRef :=
  set_values (λ m, map_extend m kvs) dict_default.

Definition DictValue_get (self : DictValue ValueRef) (key : ValueRef) : option ValueRef :=
  match rc key with str_value s => map_get s (values self) | _ => None end.

Definition DictValue_insert (self : DictValue ValueRef) (key value : ValueRef)
    : DictValue ValueRef :=
  match rc key with str_value s => set_values (map_insert s value) self | _ => self end.

Definition DictValue_insert_unpack (self : DictValue ValueRef) (v : ValueRef)
    : DictValue ValueRef :=
  match rc v with
  | dict_value b => set_values (λ m, map_extend m (values b)) self
  | _ => self
  end.

(** ** [impl ValueRef] of [val_dict.rs] *)

Definition dict_config (self : ValueRef) : Res (DictValue ValueRef) :=
  match config_of self with
  | Some d => Ok d
  | None => Panic (PanicMsg ("invalid dict config value type " +:+ type_str self))
  end.

Definition dict_int (kvs : list (string * Z)) : ValueRef :=
  ref_dict ((λ e, (e.1, ref_int e.2)) <$> kvs).
Definition dict_float (kvs : list (string * f64)) : ValueRef :=
  ref_dict ((λ e, (e.1, ref_float e.2)) <$> kvs).
Definition dict_bool (kvs : list (string * bool)) : ValueRef :=
  ref_dict ((λ e, (e.1, ref_bool e.2)) <$> kvs).
Definition dict_str (kvs : list (string * string)) : ValueRef :=
  ref_dict ((λ e, (e.1, ref_str e.2)) <$> kvs).

Definition dict_clear (self : ValueRef) : Res ValueRef :=
  match map_config (set_values (λ _, [])) self with
  | Some v => Ok v
  | None => Panic (PanicMsg "invalid config value in dict_clear")
  end.

Definition dict_keys (self : ValueRef) : Res ValueRef :=
  d ← dict_config self; Ok (ref_list (ref_str <$> (values d).*1)).

Definition dict_values (self : ValueRef) : Res ValueRef :=
  d ← dict_config self; Ok (ref_list (values d).*2).

Definition dict_get (self key : ValueRef) : Res (option ValueRef) :=
  match config_of self with
  | Some d => Ok (DictValue_get d key)
  | None => Panic (PanicMsg "invalid config value in dict_get")
  end.

Definition dict_get_value (self : ValueRef) (key : string) : option ValueRef :=
  d ← config_of self; map_get key (values d).

Definition dict_get_attr_operator (self : ValueRef) (key : string)
    : option ConfigEntryOperationKind :=
  d ← config_of self; map_get key (ops d).

Definition dict_get_insert_index (self : ValueRef) (key : string) : option Z :=
  d ← config_of self; map_get key (insert_indexs d).

(** The update [dict_update_entry] makes to the [DictValue]. *)
Definition put_entry (key : string) (val : ValueRef) (op : ConfigEntryOperationKind)
    (index : option Z) (d : DictValue ValueRef) : DictValue ValueRef :=
  MkDict (map_insert key val (values d)) (map_insert key op (ops d))
    (match index with Some i => map_insert key i (insert_indexs d) | None => insert_indexs d end)
    (attr_map d) (potential_schema d) (schema_args d).

Definition dict_update_entry (self : ValueRef) (key : string) (val : ValueRef)
    (op : ConfigEntryOperationKind) (index : option Z) : Res ValueRef :=
  match map_config (put_entry key val op index) self with
  | Some v => Ok v
  | None => Panic BorrowError
  end.

(** [set_potential_schema_type] of [val_schema.rs] *)
Definition set_potential_schema_type (self : ValueRef) (runtime_type : string) : ValueRef :=
  if str_is_empty runtime_type then self
  else default self (map_config (set_potential (Some runtime_type)) self).

Definition entry_op (d : DictValue ValueRef) (key : string) : ConfigEntryOperationKind :=
  default Union (map_get key (ops d)).

(** The dictionary built by [dict_get_entries] and [dict_get_entries_with_op]:
    the selected entries in the order of the keys asked for. *)
Definition pick_entries (opf : string → ConfigEntryOperationKind) (keys : list string)
    (dict : DictValue ValueRef) : Res ValueRef :=
  d ← foldl (λ acc key,
        d ← acc;
        match map_get key (values dict) with
        | Some value => dict_update_entry d key value (opf key) (map_get key (insert_indexs dict))
        | None => Ok d
        end) (Ok (ref_dict [])) keys;
  Ok (set_potential_schema_type d (default "" (potential_schema dict))).

Definition dict_get_entry (self : ValueRef) (key : string) : Res (option ValueRef) :=
  match config_of self with
  | Some dict =>
      match map_get key (values dict) with
      | Some value =>
          d ← dict_update_entry (ref_dict []) key value (entry_op dict key)
                (map_get key (insert_indexs dict));
          Ok (Some (set_potential_schema_type d (default "" (potential_schema dict))))
      | None => Ok None
      end
  | None => Panic (PanicMsg "invalid config value in dict_get_entry")
  end.

Definition dict_get_entries (self : ValueRef) (keys : list string) : Res ValueRef :=
  match config_of self with
  | Some dict => pick_entries (entry_op dict) keys dict
  | None => Panic (PanicMsg "invalid config value in dict_get_entries")
  end.

Definition dict_get_entries_with_op (self : ValueRef) (keys : list string)
    (op : ConfigEntryOperationKind) : Res ValueRef :=
  match config_of self with
  | Some dict => pick_entries (λ _, op) keys dict
  | None => Panic (PanicMsg "invalid config value in dict_get_entries")
  end.

(** A value that is no config leaves the dictionary as it is. *)
Definition dict_update (self v : ValueRef) : Res ValueRef :=
  match map_config (λ dict,
          match config_of v with
          | Some d => set_potential (potential_schema d)
                        (set_values (λ m, map_extend m (values d)) dict)
          | None => dict
          end) self with
  | Some r => Ok r
  | None => Panic BorrowError
  end.

Definition dict_update_key_value (self : ValueRef) (key : string) (val : ValueRef)
    : Res ValueRef :=
  match map_config (set_values (map_insert key val)) self with
  | Some r => Ok r
  | None => Panic BorrowError
  end.

Definition dict_remove (self : ValueRef) (key : string) : Res ValueRef :=
  match map_config (set_values (swap_remove key)) self with
  | Some r => Ok r
  | None => Panic BorrowError
  end.

(** ** [val_schema.rs] *)

Definition schema_runtime_type (name pkgpath : string) : string := pkgpath +:+ "." +:+ name.

Definition CONFIG_META_FILENAME : string := "$filename".
Definition CONFIG_META_LINE : string := "$lineno".
Definition CONFIG_META_COLUMN : string := "$columnno".
Definition CAL_MAP_INDEX_SIGNATURE : string := "$cal_map_index_signature".

Definition mk_schema_config_meta (filename : string) (line column : Z) : ValueRef :=
  ref_dict [(CONFIG_META_FILENAME, ref_str filename); (CONFIG_META_LINE, ref_int (as_i64 line));
            (CONFIG_META_COLUMN, ref_int (as_i64 column))].

(** [schema_assert] *)
Definition schema_assert (value : ValueRef) (msg : string) : Res unit :=
  if is_truthy value then Ok tt else Panic (PanicMsg msg).

Definition dict_to_schema (self : ValueRef) (name pkgpath : string) (config_keys : list string)
    (config_meta optional_mapping : ValueRef) (args kwargs : option ValueRef) : Res ValueRef :=
  match rc self with
  | dict_value d =>
      Ok (Ref (schema_value (MkSchema name pkgpath d config_keys config_meta optional_mapping
                (default (ref_list []) args) (default (ref_dict []) kwargs))))
  | schema_value _ => Ok self
  | _ => Panic (PanicMsg "invalid dict object to schema")
  end.

Definition schema_to_dict (self : ValueRef) : Res ValueRef :=
  match rc self with
  | schema_value s => Ok (Ref (dict_value (config s)))
  | dict_value _ => Ok self
  | _ => Panic (PanicMsg "invalid schema object to dict")
  end.

Definition get_schema_name (self : ValueRef) : string :=
  match rc self with schema_value s => schema_name s | _ => "" end.
Definition schema_optional_mapping (self : ValueRef) : ValueRef :=
  match rc self with schema_value s => optional_mapping s | _ => ref_dict [] end.
Definition schema_config_meta (self : ValueRef) : ValueRef :=
  match rc self with schema_value s => config_meta s | _ => ref_dict [] end.

(** The attributes and the index-signature flag of a [SchemaType]. *)
Record SchemaAttrs (T : Type) := MkSchemaAttrs {
  attrs : IndexMap string T;
  has_index_signature : bool }.
Arguments attrs {T}. Arguments has_index_signature {T}.

Definition set_insert (k : string) (s : list string) : list string :=
  if decide (k ∈ s) then s else s ++ [k].

Definition is_some {A} (o : option A) : bool := match o with Some _ => true | None => false end.

Definition keys_not_in_schema {T} (self : ValueRef) (ty : SchemaAttrs T) (cal_order : ValueRef)
    : list string :=
  match config_of self with
  | Some config =>
      foldl (λ keys key,
        let no_such_attr :=
          negb (contains_key key (attrs ty)) && negb (is_some (dict_get_value cal_order key)) &&
          negb (starts_with "_" key) in
        let has_index_signature :=
          has_index_signature ty || is_some (dict_get_value cal_order CAL_MAP_INDEX_SIGNATURE) in
        if negb has_index_signature && no_such_attr then set_insert key keys else keys)
        [] (values config).*1
  | None => []
  end.

Definition is_fit_schema {T} (self : ValueRef) (ty : SchemaAttrs T) (cal_order : ValueRef) : bool :=
  vec_is_empty (keys_not_in_schema self ty cal_order).

(** [for x in l { f(x) }] with panics. *)
Section ForEach.
Context {A : Type} (f : A → Res unit).
Fixpoint for_each (l : list A) : Res unit :=
  match l with [] => Ok tt | x :: l => f x;; for_each l end.
End ForEach.

(** The attributes of one config value against its own optional mapping. *)
Definition check_required (self : ValueRef) : Res unit :=
  attr_map ← match config_of self with
             | Some d => Ok (values d)
             | None => Panic (PanicMsg ("invalid schema or dict value, got " +:+ type_str self))
             end;
  match rc (schema_optional_mapping self) with
  | dict_value mapping =>
      for_each (λ e : string * ValueRef,
        let is_required := negb (as_bool e.2) in
        let value := default ref_undefined (map_get e.1 attr_map) in
        if is_required && is_none_or_undefined value then
          Panic (PanicMsg ("attribute '" +:+ e.1 +:+ "' of " +:+ get_schema_name self +:+
                           " is required and can't be None or Undefined"))
        else Ok tt) (values mapping)
  | _ => Panic (PanicMsg ("Invalid optional mapping, got " +:+
                          type_str (schema_optional_mapping self)))
  end.

(** [schema_check_attr_optional(ctx, true)] when [own], and otherwise
    [walk_value_mut(v, |w| if w.is_schema() { w.schema_check_attr_optional(ctx,
    true) })]. *)
Fixpoint check_walk (own : bool) (v : ValueRef) : Res unit :=
  match v with
  | Ref c =>
      let loop :=
        match c with
        | list_value l => for_each (check_walk false) (list_values l)
        | dict_value d => for_each (λ e, check_walk false e.2) (values d)
        | schema_value s => for_each (λ e, check_walk false e.2) (values (config s))
        | _ => Ok tt
        end in
      if own then check_required v;; loop
      else (if is_schema v then check_required v;; loop else Ok tt);; loop
  end.

Definition schema_check_attr_optional (self : ValueRef) (recursive : bool) : Res unit :=
  if recursive then check_walk true self else check_required self.

Definition set_schema_args (self new_args new_kwargs : ValueRef) : ValueRef :=
  match rc self with
  | schema_value s =>
      Ref (schema_value (MkSchema (schema_name s) (schema_pkgpath s) (config s) (config_keys s)
             (config_meta s) (optional_mapping s) new_args new_kwargs))
  | _ => self
  end.

Definition get_potential_schema_type (self : ValueRef) : option string :=
  d ← config_of self; potential_schema d.
Definition has_potential_schema_type (self : ValueRef) : bool :=
  is_some (get_potential_schema_type self).

Definition update_attr_map (self : ValueRef) (name ty : string) : Res ValueRef :=
  match map_config (set_attr_map (map_insert name ty)) self with
  | Some v => Ok v
  | None => Panic BorrowError
  end.

Definition attr_map_get (self : ValueRef) (name : string) : Res (option string) :=
  match config_of self with
  | Some d => Ok (map_get name (attr_map d))
  | None => Panic (PanicMsg ("invalid object '" +:+ type_str self +:+ "' in attr_map_get"))
  end.

Definition schema_update_with_schema (self value : ValueRef) : ValueRef :=
  match rc self, rc value with
  | schema_value s, schema_value w =>
      let c := foldl (λ c e, put_entry e.1 e.2 (entry_op (config w) e.1)
                               (map_get e.1 (insert_indexs (config w))) c)
                 (set_potential (potential_schema (config w)) (config s)) (values (config w)) in
      Ref (schema_value (MkSchema (schema_name s) (schema_pkgpath s) c (config_keys w)
             (config_meta s) (optional_mapping s) (args s) (kwargs s)))
  | _, _ => self
  end.

(** ** [val_clone.rs] *)

(** The entries are copied one by one with [dict_update_entry]; only the
    entries of a schema take their attribute types along. *)
Section CopyEntries.
Context (copy : ValueRef → ValueRef) (keep_types : bool) (v : DictValue ValueRef).
Fixpoint copy_entries (vs : IndexMap string ValueRef) (dict : DictValue ValueRef)
    : DictValue ValueRef :=
  match vs with
  | [] => dict
  | (key, val) :: vs =>
      let dict := put_entry key (copy val) (entry_op v key) (map_get key (insert_indexs v)) dict in
      let dict := match keep_types, map_get key (attr_map v) with
                  | true, Some ty => set_attr_map (map_insert key ty) dict
                  | _, _ => dict
                  end in
      copy_entries vs dict
  end.
End CopyEntries.

Definition potential_of (v : DictValue ValueRef) : option string :=
  match potential_schema v with
  | Some p => if str_is_empty p then None else Some p
  | None => None
  end.

Fixpoint deep_copy (self : ValueRef) : ValueRef :=
  match self with
  | Ref c =>
      match c with
      | list_value v => Ref (list_value (MkList (map deep_copy (list_values v))))
      | dict_value v =>
          Ref (dict_value (set_potential (potential_of v)
                 (copy_entries deep_copy false v (values v) dict_default)))
      | schema_value v =>
          Ref (schema_value (set_config
                 (copy_entries deep_copy true (config v) (values (config v))
                    (set_potential (potential_of (config v)) dict_default)) v))
      | c => Ref c
      end
  end.

(** ** [val_get_set.rs] *)

(** [key.parse::<usize>()]: an optional sign [+], then decimal digits whose
    value fits in 64 bits. *)
Definition digit_of (a : ascii) : option Z :=
  let n := Z.of_N (N_of_ascii a) in
  if (48 <=? n) && (n <=? 57) then Some (n - 48) else None.
Fixpoint parse_digits (s : string) (acc : Z) : option Z :=
  match s with
  | EmptyString => Some acc
  | String a s =>
      d ← digit_of a;
      let acc := acc * 10 + d in
      if acc <? 2 ^ 64 then parse_digits s acc else None
  end.
Definition parse_usize (s : string) : option Z :=
  match s with
  | EmptyString => None
  | String "+" EmptyString => None
  | String "+" s => parse_digits s 0
  | s => parse_digits s 0
  end.

Definition get_by_key (self : ValueRef) (key : string) : option ValueRef :=
  match rc self with
  | list_value l => i ← parse_usize key; list_values l !! Z.to_nat i
  | dict_value d => map_get key (values d)
  | schema_value s => map_get key (values (config s))
  | _ => None
  end.

(** [path.split('.')] *)
Fixpoint split_char (c : ascii) (s : string) : list string :=
  match s with
  | EmptyString => [""]
  | String a s =>
      match split_char c s with
      | [] => []
      | w :: ws => if Ascii.eqb a c then "" :: w :: ws else String a w :: ws
      end
  end.

Definition get_by_keys (keys : list string) (v : ValueRef) : option ValueRef :=
  foldl (λ acc key, v ← acc; get_by_key v key) (Some v) keys.

Definition get_by_path (self : ValueRef) (path : string) : option ValueRef :=
  get_by_keys (split_char "." path) self.

(** ** Copies *)

(** The entries of [m] at the keys [ks] that [m] has, in the order of [ks]. *)
Fixpoint select {A} (m : IndexMap string A) (ks : list string) : IndexMap string A :=
  match ks with
  | [] => []
  | k :: ks => match map_get k m with
               | Some a => (k, a) :: select m ks
               | None => select m ks
               end
  end.

(** What a copy of a dictionary is: the entries copied in order, each with its
    operator ([Union] where there was none), the insert indexes of the keys that
    are present, for a schema their attribute types, and nothing else. *)
Definition copied (copy : ValueRef → ValueRef) (keep_types : bool) (d : DictValue ValueRef)
    : DictValue ValueRef :=
  MkDict ((λ e, (e.1, copy e.2)) <$> values d)
    ((λ k, (k, entry_op d k)) <$> (values d).*1)
    (select (insert_indexs d) (values d).*1)
    (if keep_types then select (attr_map d) (values d).*1 else [])
    (potential_of d) None.

Lemma select_app {A} (m : IndexMap string A) ks1 ks2 :
  select m (ks1 ++ ks2) = select m ks1 ++ select m ks2.
Proof. induction ks1 as [|k ks1 IH]; simpl; [done|]. rewrite IH. by destruct (map_get k m). Qed.

Lemma select_keys {A} (m : IndexMap string A) ks k : k ∈ (select m ks).*1 → k ∈ ks.
Proof.
  induction ks as [|k' ks IH]; simpl; [done|]. destruct (map_get k' m); simpl.
  - rewrite !elem_of_cons. intros [->|Hin]; [by left|right; by apply IH].
  - rewrite elem_of_cons. intros Hin. right. by apply IH.
Qed.

Lemma select_wf {A} (m : IndexMap string A) ks : NoDup ks → wf_map (select m ks).
Proof.
  unfold wf_map. induction 1 as [|k ks Hk _ IH]; simpl; [constructor|].
  destruct (map_get k m); [|done]. simpl. constructor; [|done].
  intros Hin. by apply Hk, (select_keys m).
Qed.

Lemma select_get {A} (m : IndexMap string A) ks k :
  map_get k (select m ks) = if decide (k ∈ ks) then map_get k m else None.
Proof.
  induction ks as [|k' ks IH]; simpl; [done|].
  destruct (decide (k = k')) as [->|Hne].
  - rewrite decide_True by left. destruct (map_get k' m) eqn:E; simpl.
    + by rewrite decide_True.
    + rewrite IH. by case_decide.
  - destruct (map_get k' m) eqn:E; simpl; [rewrite decide_False by done|]; rewrite IH;
      (case_decide; [rewrite decide_True by by right|rewrite decide_False]; [done..|];
       rewrite not_elem_of_cons; done).
Qed.

Lemma select_snoc {A} (m : IndexMap string A) ks k :
  k ∉ ks →
  match map_get k m with
  | Some a => map_insert k a (select m ks)
  | None => select m ks
  end = select m (ks ++ [k]).
Proof.
  intros Hk. rewrite select_app. simpl. destruct (map_get k m) as [a|]; [|by rewrite app_nil_r].
  apply map_insert_fresh. intros Hin. by apply Hk, (select_keys m).
Qed.

Lemma copy_entries_spec copy keep v vs pre ws :
  NoDup (pre ++ vs.*1) → ws.*1 = pre →
  copy_entries copy keep v vs
    (MkDict ws ((λ k, (k, entry_op v k)) <$> pre) (select (insert_indexs v) pre)
       (if keep then select (attr_map v) pre else []) (potential_of v) None) =
    MkDict (ws ++ ((λ e, (e.1, copy e.2)) <$> vs))
      ((λ k, (k, entry_op v k)) <$> (pre ++ vs.*1))
      (select (insert_indexs v) (pre ++ vs.*1))
      (if keep then select (attr_map v) (pre ++ vs.*1) else [])
      (potential_of v) None.
Proof.
  revert pre ws. induction vs as [|[k x] vs IH]; intros pre ws Hnd Hpre; simpl.
  { by rewrite !app_nil_r. }
  assert (k ∉ pre) as Hk.
  { apply NoDup_app in Hnd as (_ & Hdis & _). intros Hin. apply (Hdis k Hin). simpl. by left. }
  change (((k, x) :: vs).*1) with ([k] ++ vs.*1) in Hnd. rewrite app_assoc in Hnd.
  specialize (IH (pre ++ [k]) (ws ++ [(k, copy x)]) Hnd).
  rewrite <- !app_assoc in IH. cbn [app] in IH. rewrite fmap_app, Hpre in IH. refine (eq_trans _ (IH eq_refl)). clear IH.
  assert (k ∉ ((λ k, (k, entry_op v k)) <$> pre).*1) as Hk'.
  { rewrite <- list_fmap_compose. unfold compose. simpl. by rewrite list_fmap_id. }
  unfold put_entry, set_attr_map. cbn [values ops insert_indexs attr_map potential_schema schema_args].
  rewrite (map_insert_fresh ws), (map_insert_fresh (_ <$> pre)), select_snoc, fmap_app by
    (done || by rewrite Hpre).
  f_equal. destruct keep; [|done]. pose proof (select_snoc (attr_map v) pre k Hk) as Hs.
  destruct (map_get k (attr_map v)); simpl; by rewrite <- Hs.
Qed.

Lemma copy_entries_copied copy keep v :
  wf_map (values v) →
  copy_entries copy keep v (values v) (set_potential (potential_of v) dict_default) =
  copied copy keep v.
Proof.
  intros Hv. pose proof (copy_entries_spec copy keep v (values v) [] [] Hv eq_refl) as H.
  unfold copied. cbn [app] in H. rewrite <- H. f_equal. unfold set_potential. simpl.
  by destruct keep.
Qed.

Lemma copy_entries_set_potential copy keep v vs p d :
  set_potential p (copy_entries copy keep v vs d) =
  copy_entries copy keep v vs (set_potential p d).
Proof.
  revert d. induction vs as [|[k x] vs IH]; intros d; simpl; [done|].
  rewrite IH. f_equal. by destruct keep, (map_get k (attr_map v)).
Qed.

(** A copy copies the dictionaries at every depth; the copy of a well-formed
    value is the value with every dictionary replaced by its [copied]. *)
Lemma deep_copy_unfold v :
  wf_value v →
  deep_copy v = match rc v with
                | list_value l => Ref (list_value (MkList (deep_copy <$> list_values l)))
                | dict_value d => Ref (dict_value (copied deep_copy false d))
                | schema_value s =>
                    Ref (schema_value (set_config (copied deep_copy true (config s)) s))
                | c => Ref c
                end.
Proof.
  intros Hv. destruct v as [[| |x|x|x|x|x|x|x|x|x rx ux]]; cbn [deep_copy rc]; try done.
  - rewrite copy_entries_set_potential, copy_entries_copied; [done|]. by apply wf_value_dict.
  - rewrite copy_entries_copied; [done|]. by apply wf_value_schema.
Qed.

Lemma copied_keys copy keep d : (values (copied copy keep d)).*1 = (values d).*1.
Proof. unfold copied. simpl. rewrite <- list_fmap_compose. done. Qed.

Lemma copied_wf copy keep d : wf_map (values d) → wf_dict (copied copy keep d).
Proof.
  intros Hd. unfold wf_dict, wf_map. rewrite copied_keys. unfold copied. simpl. split_and!.
  - done.
  - rewrite <- list_fmap_compose. unfold compose. simpl. by rewrite list_fmap_id.
  - by apply select_wf.
  - destruct keep; [by apply select_wf|constructor].
Qed.

Lemma deep_copy_wf v : wf_value v → wf_value (deep_copy v).
Proof.
  induction v as [v IH] using ValueRef_ind. intros Hv.
  assert (∀ c, c ∈ children v → wf_value (deep_copy c)) as Hch by eauto with kcl.
  assert (∀ keep d c, (∀ c, c ∈ (values d).*2 → wf_value (deep_copy c)) →
    c ∈ (values (copied deep_copy keep d)).*2 → wf_value c) as Hcopied.
  { intros keep d c Hd. unfold copied. simpl. rewrite <- list_fmap_compose.
    intros (e & -> & He)%list_elem_of_fmap_1. apply Hd. by apply list_elem_of_fmap_2. }
  rewrite deep_copy_unfold by done. pose proof (wf_value_cell _ Hv) as Hc.
  destruct v as [[| |x|x|x|x|x|x|x|x|x rx ux]]; cbn [rc] in *; try exact Hv; constructor;
    cbn [rc wf_cell config set_config]; try exact I; try apply copied_wf, Hc.
  - intros c (w & -> & Hw)%list_elem_of_fmap_1. by apply Hch.
  - intros c. by apply Hcopied.
  - intros c. by apply Hcopied.
Qed.

Lemma map_get_fmap {A B} (f : A → B) (m : IndexMap string A) k :
  map_get k ((λ e, (e.1, f e.2)) <$> m) = f <$> map_get k m.
Proof. induction m as [|[k' v] m IH]; simpl; [done|]. by case_decide. Qed.

Lemma zip_all_fmap {A} (f : A → A → bool) (g : A → A) l :
  zip_all f l (g <$> l) = forallb (λ a, f a (g a)) l.
Proof. induction l as [|a l IH]; simpl; [done|]. by rewrite <- IH. Qed.

Lemma entries_in_copied (f : ValueRef → ValueRef → bool) (g : ValueRef → ValueRef) (h : ValueRef → bool)
    (m : IndexMap string ValueRef) :
  wf_map m → (∀ v, v ∈ m.*2 → f v (g v) = h v) →
  entries_in f m ((λ e, (e.1, g e.2)) <$> m) = forallb (λ e, h e.2) m.
Proof.
  intros Hm Hf.
  assert (∀ l, (∀ e, e ∈ l → e ∈ m) →
    entries_in f l ((λ e, (e.1, g e.2)) <$> m) = forallb (λ e, h e.2) l) as H; [|by apply H].
  induction l as [|[k v] l IH]; intros Hl; simpl; [done|].
  assert ((k, v) ∈ m) as Hin by (apply Hl; by left).
  rewrite map_get_fmap, (in_map_get m k v) by done. simpl.
  rewrite Hf by (by apply (list_elem_of_fmap_2 snd) in Hin). f_equal. apply IH.
  intros e He. apply Hl. by right.
Qed.

Lemma deep_copy_equal_l v : wf_value v → cmp_equal v (deep_copy v) = self_equal v.
Proof.
  induction v as [v IH] using ValueRef_ind. intros Hv.
  assert (∀ c, c ∈ children v → cmp_equal c (deep_copy c) = self_equal c) as IH' by eauto with kcl.
  clear IH. rewrite deep_copy_unfold by done.
  destruct v as [[| |x|x|x|x|[x]|x|x|x|x rx ux]];
    cbn [rc cmp_equal self_equal list_values]; try done;
    auto using Z.eqb_refl, f_eq_refl, bool_decide_true.
  - by destruct x.
  - rewrite length_fmap, Nat.eqb_refl, zip_all_fmap. by apply forallb_ext_in.
  - cbn [copied values]. rewrite length_fmap, Nat.eqb_refl.
    apply entries_in_copied; [by apply wf_value_dict|done].
  - cbn [copied values config set_config]. rewrite length_fmap, Nat.eqb_refl.
    apply entries_in_copied; [by apply wf_value_schema|done].
Qed.

Lemma select_ext {A} (m m' : IndexMap string A) ks :
  (∀ k, k ∈ ks → map_get k m = map_get k m') → select m ks = select m' ks.
Proof.
  induction ks as [|k ks IH]; intros H; simpl; [done|].
  rewrite (H k), IH; [done| |by left]. intros k' Hk'. apply H. by right.
Qed.

Lemma select_select {A} (m : IndexMap string A) ks : select (select m ks) ks = select m ks.
Proof. apply select_ext. intros k Hk. rewrite select_get. by rewrite decide_True. Qed.

Lemma map_get_pairs {A} (f : string → A) ks k :
  k ∈ ks → map_get k ((λ k, (k, f k)) <$> ks) = Some (f k).
Proof.
  induction ks as [|k' ks IH]; simpl; [by intros ?%elem_of_nil|].
  rewrite elem_of_cons. case_decide; [by subst|]. intros [?|?]; [done|by apply IH].
Qed.

Lemma copied_copied copy keep d :
  (∀ c, c ∈ (values d).*2 → copy (copy c) = copy c) →
  copied copy keep (copied copy keep d) = copied copy keep d.
Proof.
  intros Hcopy. pose proof (copied_keys copy keep d) as Hk.
  unfold copied at 1. rewrite Hk. unfold copied at 6. f_equal.
  - unfold copied. cbn [values]. rewrite <- list_fmap_compose. apply list_fmap_ext.
    intros i [k v] Hi. unfold compose. simpl. f_equal. apply Hcopy.
    apply list_elem_of_lookup_2 in Hi. by apply (list_elem_of_fmap_2 snd) in Hi.
  - apply list_fmap_ext. intros i k Hi%list_elem_of_lookup_2. f_equal.
    unfold entry_op at 1, copied. cbn [ops]. by rewrite map_get_pairs.
  - unfold copied. cbn [insert_indexs]. apply select_select.
  - destruct keep; [|done]. unfold copied. cbn [attr_map]. apply select_select.
  - unfold copied, potential_of. cbn [potential_schema].
    destruct (potential_schema d) as [s|]; [|done]. unfold potential_of.
    destruct (str_is_empty s) eqn:E; [done|]. by rewrite E.
Qed.

(** A deep copy of a well-formed value is well-formed, it is equal to the
    value whenever the value is equal to itself, and copying again changes
    nothing. *)
Theorem deep_copy_faithful v :
  wf_value v →
  wf_value (deep_copy v) ∧ cmp_equal v (deep_copy v) = self_equal v ∧
  deep_copy (deep_copy v) = deep_copy v.
Proof.
  intros Hv. split_and!; [by apply deep_copy_wf|by apply deep_copy_equal_l|].
  induction v as [v IH] using ValueRef_ind.
  assert (∀ c, c ∈ children v → deep_copy (deep_copy c) = deep_copy c) as IH' by eauto with kcl.
  clear IH. rewrite (deep_copy_unfold (deep_copy v)) by by apply deep_copy_wf.
  rewrite (deep_copy_unfold v) by done.
  destruct v as [[| |x|x|x|x|x|x|x|x|x rx ux]]; cbn [rc list_values config set_config];
    try reflexivity.
  - do 3 f_equal. rewrite <- list_fmap_compose. apply list_fmap_ext.
    intros i c Hc%list_elem_of_lookup_2. by apply IH'.
  - rewrite copied_copied by done. reflexivity.
  - rewrite copied_copied by done. reflexivity.
Qed.

Lemma deep_copy_faithful_witness :
  let v := pair_dict "a" "b" in
  wf_value (deep_copy v) ∧ cmp_equal v (deep_copy v) = self_equal v ∧
  deep_copy (deep_copy v) = deep_copy v.
Proof. intros v. apply deep_copy_faithful. concrete. Defined.

(** The copy of a dictionary loses its attribute types; the copy of a schema
    instance keeps them. *)
Example deep_copy_drops_attr_map :
  let d := MkDict [("a", ref_int 1)] [] [] [("a", "int")] None None in
  let s := MkSchema "S" "__main__" d [] ref_undefined (ref_dict []) (ref_list []) (ref_dict []) in
  attr_map_get (deep_copy (Ref (dict_value d))) "a" = Ok None ∧
  attr_map_get (deep_copy (Ref (schema_value s))) "a" = Ok (Some "int").
Proof. split; vm_compute; reflexivity. Qed.

(** ** Updates *)

Lemma map_config_config f v :
  map_config f v = match rc v with
                   | dict_value d => Some (Ref (dict_value (f d)))
                   | schema_value s => Some (Ref (schema_value (set_config (f (config s)) s)))
                   | _ => None
                   end.
Proof. done. Qed.

(** Updating a config updates the dictionary behind it, and it fails exactly on
    values that are no config. *)
Lemma map_config_Some f v v' :
  map_config f v = Some v' → config_of v' = f <$> config_of v.
Proof. unfold map_config, config_of. by destruct (rc v); intros [= <-]. Qed.
Lemma map_config_is f v : is_some (map_config f v) = is_config v.
Proof. unfold map_config, is_config. by destruct (rc v). Qed.

Lemma map_config_wf f v v' :
  wf_value v → map_config f v = Some v' →
  (∀ d, wf_dict d → wf_dict (f d)) →
  (∀ d c, config_of v = Some d → c ∈ (values (f d)).*2 → c ∈ (values d).*2 ∨ wf_value c) →
  wf_value v'.
Proof.
  intros Hv Hm Hd Hch. pose proof (wf_value_cell _ Hv) as Hc.
  assert (∀ c, c ∈ children v → wf_value c) as Hkids by eauto with kcl.
  unfold map_config in Hm. unfold config_of in Hch. destruct v as [c]. unfold children in Hkids.
  cbn [rc] in *. destruct c; try discriminate Hm; injection Hm as <-; constructor;
    cbn [rc wf_cell config set_config] in *; try (by apply Hd); unfold children; cbn [rc config set_config];
    intros x Hx; (destruct (Hch _ x eq_refl Hx); [by apply Hkids|done]).
Qed.

Lemma map_insert_vals {A} (k : string) (a : A) m x : x ∈ (map_insert k a m).*2 → x ∈ m.*2 ∨ x = a.
Proof.
  induction m as [|[k' a'] m IH]; simpl.
  - intros ->%list_elem_of_singleton. by right.
  - case_decide; simpl; rewrite !elem_of_cons; [tauto|]. intros [?|?%IH]; tauto.
Qed.

(** The single-entry updates of a config.  Both succeed exactly on a config,
    keep it well-formed, and change what is stored at the key and nowhere else;
    removing an entry removes it although the last entry is moved into its
    place. *)
Theorem dict_point_updates self key val :
  wf_value self → wf_value val →
  (∀ self', dict_update_key_value self key val = Ok self' →
     wf_value self' ∧
     ∀ k, dict_get_value self' k = if decide (k = key) then Some val else dict_get_value self k) ∧
  (∀ self', dict_remove self key = Ok self' →
     wf_value self' ∧
     ∀ k, dict_get_value self' k = if decide (k = key) then None else dict_get_value self k) ∧
  is_Ok (dict_update_key_value self key val) = is_config self ∧
  is_Ok (dict_remove self key) = is_config self.
Proof.
  intros Hs Hv. unfold dict_update_key_value, dict_remove, dict_get_value. split_and!.
  - intros self'. destruct (map_config _ self) as [r|] eqn:E; [intros [= <-]|done]. split.
    + apply (map_config_wf _ _ _ Hs E).
      * intros d (? & ? & ? & ?). unfold wf_dict. simpl. auto with kcl.
      * intros d c _. simpl. intros [Hc|Hc]%map_insert_vals; subst; auto.
    + intros k. rewrite (map_config_Some _ _ _ E). destruct (config_of self) as [d|] eqn:Ec.
      * simpl. case_decide as Hk; [subst; apply map_get_insert_eq|by apply map_get_insert_ne].
      * rewrite map_config_config in E. unfold config_of in Ec. by destruct (rc self).
  - intros self'. destruct (map_config _ self) as [r|] eqn:E; [intros [= <-]|done]. split.
    + apply (map_config_wf _ _ _ Hs E).
      * intros d (? & ? & ? & ?). unfold wf_dict. simpl. auto with kcl.
      * intros d c Hd. simpl. intros ([k x] & -> & Hx)%list_elem_of_fmap_1. left.
        apply (wf_config_of _ _ Hs) in Hd as [Hd _].
        apply in_map_get in Hx; [|by apply swap_remove_wf].
        rewrite map_get_swap_remove in Hx by done. case_decide; [done|].
        by apply map_get_val in Hx.
    + intros k. rewrite (map_config_Some _ _ _ E). destruct (config_of self) as [d|] eqn:Ec.
      * simpl. apply map_get_swap_remove. by apply (wf_config_of _ _ Hs).
      * by case_decide.
  - rewrite <- (map_config_is (set_values (map_insert key val))). by destruct (map_config _ self).
  - rewrite <- (map_config_is (set_values (swap_remove key))). by destruct (map_config _ self).
Qed.

Lemma dict_point_updates_witness :
  let v := pair_dict "a" "b" in
  wf_value v ∧
  is_Ok (dict_update_key_value v "a" ref_none) = is_config v ∧
  is_Ok (dict_remove v "a") = is_config v.
Proof.
  intros v. assert (wf_value v) as Hv by concrete.
  destruct (dict_point_updates v "a" ref_none Hv ltac:(concrete)) as (_ & _ & H1 & H2).
  exact (conj Hv (conj H1 H2)).
Defined.

(** ** Selecting entries *)

(** The dictionary [pick_entries] has built after the keys [ks]. *)
Definition picked (opf : string → ConfigEntryOperationKind) (dict d : DictValue ValueRef)
    (ks : list string) : Prop :=
  potential_schema d = None ∧
  ∀ k, map_get k (values d) = (if decide (k ∈ ks) then map_get k (values dict) else None) ∧
       map_get k (ops d) = (if decide (k ∈ ks) then (λ _, opf k) <$> map_get k (values dict) else None) ∧
       map_get k (insert_indexs d) =
         (if decide (k ∈ ks)
          then _ ← map_get k (values dict); map_get k (insert_indexs dict) else None).

Lemma picked_step opf dict d ks key :
  picked opf dict d ks →
  ∃ d', (match map_get key (values dict) with
         | Some value => dict_update_entry (Ref (dict_value d)) key value (opf key)
                           (map_get key (insert_indexs dict))
         | None => Ok (Ref (dict_value d))
         end) = Ok (Ref (dict_value d')) ∧ picked opf dict d' (ks ++ [key]).
Proof.
  intros [Hp Hd].
  assert (∀ k, k ∈ ks ++ [key] ↔ k ∈ ks ∨ k = key) as Hin.
  { intros k. by rewrite elem_of_app, list_elem_of_singleton. }
  destruct (map_get key (values dict)) as [x|] eqn:E.
  - eexists. split; [done|]. split; [done|]. intros k.
    destruct (Hd k) as (H1 & H2 & H3). unfold put_entry. simpl.
    destruct (decide (k = key)) as [->|Hne].
    + rewrite !decide_True by (apply Hin; auto). rewrite !map_get_insert_eq, E. simpl.
      split_and!; [done..|]. destruct (map_get key (insert_indexs dict)) eqn:Ei.
      * apply map_get_insert_eq.
      * rewrite H3, E. by case_decide.
    + rewrite !map_get_insert_ne by done.
      assert (map_get k (match map_get key (insert_indexs dict) with
                         | Some i => map_insert key i (insert_indexs d)
                         | None => insert_indexs d end) = map_get k (insert_indexs d)) as ->.
      { destruct (map_get key (insert_indexs dict)); [by apply map_get_insert_ne|done]. }
      rewrite H1, H2, H3.
      rewrite !(decide_ext (k ∈ ks ++ [key]) (k ∈ ks)) by (rewrite Hin; tauto). done.
  - exists d. split; [done|]. split; [done|]. intros k. destruct (Hd k) as (H1 & H2 & H3).
    destruct (decide (k = key)) as [->|Hne].
    + rewrite H1, H2, H3, E. simpl. by repeat case_decide.
    + rewrite H1, H2, H3.
      rewrite !(decide_ext (k ∈ ks ++ [key]) (k ∈ ks)) by (rewrite Hin; tauto). done.
Qed.

Lemma pick_entries_spec opf keys dict :
  ∃ d, pick_entries opf keys dict =
         Ok (set_potential_schema_type (Ref (dict_value d)) (default "" (potential_schema dict))) ∧
       picked opf dict d keys.
Proof.
  unfold pick_entries.
  assert (∀ rest ks d, picked opf dict d ks →
    ∃ d', foldl (λ acc key, d ← acc;
            match map_get key (values dict) with
            | Some value => dict_update_entry d key value (opf key) (map_get key (insert_indexs dict))
            | None => Ok d
            end) (Ok (Ref (dict_value d))) rest = Ok (Ref (dict_value d')) ∧
          picked opf dict d' (ks ++ rest)) as Hloop.
  { induction rest as [|key rest IH]; intros ks d Hd.
    - exists d. by rewrite app_nil_r.
    - cbn [foldl mbind Res_bind]. destruct (picked_step opf dict d ks key Hd) as (d1 & -> & Hd1).
      destruct (IH _ _ Hd1) as (d2 & Hd2 & Hp). exists d2. by rewrite <- app_assoc in Hp. }
  destruct (Hloop keys [] (MkDict [] [] [] [] None None)) as (d & Hd & Hp).
  { split; [done|]. intros k. rewrite !decide_False by apply not_elem_of_nil. done. }
  exists d. split; [|done]. unfold ref_dict. cbn [map_extend foldl] in *. by rewrite Hd.
Qed.

Lemma set_potential_of v d :
  set_potential_schema_type (Ref (dict_value d)) v =
  Ref (dict_value (if str_is_empty v then d else set_potential (Some v) d)).
Proof. unfold set_potential_schema_type. by destruct (str_is_empty v). Qed.

(** The entries selected from a config by a list of keys are those of the
    config at the keys asked for, each with its operator ([Union] when none was
    recorded) and its insert index, under the config's schema type; asking for
    one key with [dict_get_entry] gives the same, or nothing for an absent
    key. *)
Theorem dict_get_entries_spec self dict keys :
  config_of self = Some dict →
  ∃ d, dict_get_entries self keys = Ok (Ref (dict_value d)) ∧
    potential_schema d = potential_of dict ∧
    (∀ k, map_get k (values d) = (if decide (k ∈ keys) then map_get k (values dict) else None) ∧
          map_get k (ops d) =
            (if decide (k ∈ keys) then (λ _, entry_op dict k) <$> map_get k (values dict) else None) ∧
          map_get k (insert_indexs d) =
            (if decide (k ∈ keys)
             then _ ← map_get k (values dict); map_get k (insert_indexs dict) else None)) ∧
    ∀ k, (if contains_key k (values dict) then Some <$> dict_get_entries self [k] else Ok None) =
         dict_get_entry self k.
Proof.
  intros Hs. unfold dict_get_entries, dict_get_entry. rewrite Hs.
  destruct (pick_entries_spec (entry_op dict) keys dict) as (d & -> & Hp & Hd).
  rewrite set_potential_of. eexists. split; [done|]. split_and!.
  - unfold potential_of. destruct (potential_schema dict) as [s|]; simpl; [|done].
    by destruct (str_is_empty s).
  - intros k. destruct (Hd k) as (H1 & H2 & H3).
    by destruct (str_is_empty (default "" (potential_schema dict))).
  - intros k. unfold contains_key, pick_entries. cbn [foldl mbind Res_bind].
    destruct (map_get k (values dict)) as [x|]; [|done].
    unfold dict_update_entry. by destruct (map_config _ (ref_dict [])).
Qed.

Lemma dict_get_entries_spec_witness :
  let self := pair_dict "a" "b" in
  ∃ d, dict_get_entries self ["b"; "c"] = Ok (Ref (dict_value d)) ∧
       map_get "b" (values d) = Some (ref_list [ref_str "x"; ref_float f_zero]) ∧
       map_get "a" (values d) = None.
Proof.
  intros self. destruct (dict_get_entries_spec self _ ["b"; "c"] eq_refl) as (d & Hd & _ & Hk & _).
  exists d. split; [exact Hd|]. split.
  - refine (eq_trans (proj1 (Hk "b")) _). reflexivity.
  - refine (eq_trans (proj1 (Hk "a")) _). reflexivity.
Defined.

(** ** Paths *)

Lemma split_char_cons c s : ∃ w ws, split_char c s = w :: ws.
Proof.
  induction s as [|a s (w & ws & IH)]; simpl; [eauto|]. rewrite IH.
  destruct (Ascii.eqb a c); eauto.
Qed.

Lemma split_char_app c p q :
  split_char c (p +:+ String c q) = split_char c p ++ split_char c q.
Proof.
  induction p as [|a p IH]; simpl.
  - destruct (split_char_cons c q) as (w & ws & ->). by rewrite Ascii.eqb_refl.
  - rewrite IH. destruct (split_char_cons c p) as (w & ws & ->). simpl.
    by destruct (Ascii.eqb a c).
Qed.

Lemma foldl_None keys :
  foldl (λ (acc : option ValueRef) key, v ← acc; get_by_key v key) None keys = None.
Proof. by induction keys. Qed.

Lemma get_by_keys_app ks1 ks2 v :
  get_by_keys (ks1 ++ ks2) v = w ← get_by_keys ks1 v; get_by_keys ks2 w.
Proof.
  unfold get_by_keys. rewrite foldl_app. destruct (foldl _ (Some v) ks1); [done|].
  apply foldl_None.
Qed.

(** Looking a dotted path up is looking its first part up and then, in what
    was found, the rest; a path without a dot is a single key. *)
Theorem get_by_path_compose self p q :
  get_by_path self (p +:+ "." +:+ q) = (v ← get_by_path self p; get_by_path v q) ∧
  (split_char "." p = [p] → get_by_path self p = get_by_key self p).
Proof.
  split.
  - unfold get_by_path. change ("." +:+ q) with (String "." q).
    rewrite split_char_app. apply get_by_keys_app.
  - intros Hp. unfold get_by_path. rewrite Hp. done.
Qed.

Lemma get_by_path_compose_witness :
  get_by_path (pair_dict "a" "b") ("b" +:+ "." +:+ "0") =
    (v ← get_by_path (pair_dict "a" "b") "b"; get_by_path v "0") ∧
  get_by_path (pair_dict "a" "b") "b" = get_by_key (pair_dict "a" "b") "b".
Proof.
  destruct (get_by_path_compose (pair_dict "a" "b") "b" "0") as [H1 H2].
  exact (conj H1 (H2 eq_refl)).
Defined.

(** ** Fitting a schema *)

Lemma set_insert_elem k s x : x ∈ set_insert k s ↔ x ∈ s ∨ x = k.
Proof.
  unfold set_insert. case_decide as Hk.
  - split; [auto|]. by intros [?| ->].
  - by rewrite elem_of_app, list_elem_of_singleton.
Qed.

Lemma foldl_filter_set (p : string → bool) l acc x :
  x ∈ foldl (λ keys k, if p k then set_insert k keys else keys) acc l ↔
  x ∈ acc ∨ (x ∈ l ∧ p x = true).
Proof.
  revert acc. induction l as [|k l IH]; intros acc; simpl.
  - split; [by left|]. by intros [?|[?%elem_of_nil _]].
  - rewrite IH, elem_of_cons. destruct (p k) eqn:E.
    + rewrite set_insert_elem. naive_solver.
    + naive_solver congruence.
Qed.

Lemma is_some_None {A} (o : option A) : is_some o = false ↔ o = None.
Proof. by destruct o. Qed.

(** The keys reported as not in a schema are the keys of the config that the
    schema does not declare, that the calculation order does not know and that
    do not start with an underscore; none is reported when the schema or the
    calculation order has an index signature, and a value that is no config
    always fits. *)
Theorem keys_not_in_schema_spec {T} self (ty : SchemaAttrs T) cal_order :
  (∀ key, key ∈ keys_not_in_schema self ty cal_order ↔
     has_index_signature ty = false ∧ dict_get_value cal_order CAL_MAP_INDEX_SIGNATURE = None ∧
     (∃ d, config_of self = Some d ∧ key ∈ (values d).*1) ∧
     ¬ (key ∈ (attrs ty).*1) ∧ dict_get_value cal_order key = None ∧ starts_with "_" key = false) ∧
  (is_fit_schema self ty cal_order = true ↔ keys_not_in_schema self ty cal_order = []).
Proof.
  split.
  2: { unfold is_fit_schema. by destruct (keys_not_in_schema self ty cal_order). }
  intros key. unfold keys_not_in_schema. destruct (config_of self) as [d|].
  2: { split; [by intros ?%elem_of_nil|]. intros (_ & _ & (d & ? & _) & _). done. }
  cbv zeta. rewrite (foldl_filter_set (λ key,
    negb (has_index_signature ty || is_some (dict_get_value cal_order CAL_MAP_INDEX_SIGNATURE)) &&
    (negb (contains_key key (attrs ty)) && negb (is_some (dict_get_value cal_order key)) &&
     negb (starts_with "_" key)))).
  rewrite !andb_true_iff, !negb_true_iff, orb_false_iff, !is_some_None.
  assert (contains_key key (attrs ty) = false ↔ key ∉ (attrs ty).*1) as ->.
  { rewrite <- contains_key_spec. by destruct (contains_key key (attrs ty)). }
  split.
  - intros [?%elem_of_nil|?]; [done|]. naive_solver.
  - intros (? & ? & (d' & [= <-] & ?) & ? & ? & ?). right. naive_solver.
Qed.

(** ** Required attributes *)

(** The values below a value, itself included. *)
Inductive inside : ValueRef → ValueRef → Prop :=
  | inside_here v : inside v v
  | inside_child v c w : c ∈ children v → inside c w → inside v w.

Lemma for_each_Ok {A} (f : A → Res unit) l :
  for_each f l = Ok tt ↔ ∀ x, x ∈ l → f x = Ok tt.
Proof.
  induction l as [|x l IH]; simpl.
  - split; [|done]. by intros _ x ?%elem_of_nil.
  - destruct (f x) as [[]|p] eqn:E; simpl.
    + rewrite IH. split.
      * intros H y [->|Hy]%elem_of_cons; auto.
      * intros H y Hy. apply H. by right.
    + split; [done|]. intros H. specialize (H x ltac:(by left)). congruence.
Qed.

Lemma for_each_fmap {A B} (f : B → Res unit) (g : A → B) l :
  for_each (λ x, f (g x)) l = for_each f (g <$> l).
Proof. induction l as [|x l IH]; simpl; [done|]. by rewrite IH. Qed.

Lemma seq_Ok (m n : Res unit) : (m;; n) = Ok tt ↔ m = Ok tt ∧ n = Ok tt.
Proof. destruct m as [[]|]; simpl; naive_solver. Qed.

Lemma check_walk_unfold own v :
  check_walk own v =
  let loop := for_each (check_walk false) (children v) in
  if own then check_required v;; loop
  else (if is_schema v then check_required v;; loop else Ok tt);; loop.
Proof.
  destruct v as [c]. destruct c; cbn [check_walk]; try reflexivity;
    pose proof (for_each_fmap (check_walk false) (@snd string ValueRef)) as H; cbv beta in H;
    rewrite H; reflexivity.
Qed.

Lemma check_walk_false v :
  check_walk false v = Ok tt ↔ ∀ w, inside v w → is_schema w = true → check_required w = Ok tt.
Proof.
  induction v as [v IH] using ValueRef_ind. rewrite check_walk_unfold. cbv zeta iota.
  rewrite seq_Ok, for_each_Ok. split.
  - intros [Hv Hc] w Hiw Hs. inversion Hiw as [|? c ? Hin Hw]; subst.
    + rewrite Hs in Hv. by apply seq_Ok in Hv as [? _].
    + by apply (proj1 (IH c Hin) (Hc c Hin)).
  - intros H. assert (∀ c, c ∈ children v → check_walk false c = Ok tt) as Hc.
    { intros c Hin. apply IH; [done|]. intros w Hw. apply H. by apply (inside_child v c). }
    split; [|done]. destruct (is_schema v) eqn:E; [|done].
    rewrite seq_Ok, for_each_Ok. split; [|done]. apply H; [constructor|done].
Qed.

Lemma check_walk_true v :
  check_walk true v = Ok tt ↔
  check_required v = Ok tt ∧
  ∀ w, inside v w → is_schema w = true → check_required w = Ok tt.
Proof.
  rewrite check_walk_unfold. cbv zeta iota. rewrite seq_Ok, for_each_Ok. split.
  - intros [Hv Hc]. split; [done|]. intros w Hiw Hs.
    inversion Hiw as [|? c ? Hin Hw]; subst; [done|].
    by apply (proj1 (check_walk_false c) (Hc c Hin)).
  - intros [Hv Hw]. split; [done|]. intros c Hin. apply check_walk_false.
    intros w Hiw. apply Hw. by apply (inside_child v c).
Qed.

(** Every attribute of the mapping that is not optional has a value that is
    neither [None] nor [Undefined]. *)
Definition required_present (v : ValueRef) : Prop :=
  ∃ d m, config_of v = Some d ∧ rc (schema_optional_mapping v) = dict_value m ∧
    ∀ attr opt, (attr, opt) ∈ values m → is_truthy opt = false →
      ∃ x, map_get attr (values d) = Some x ∧ is_none_or_undefined x = false.

Lemma check_required_spec v : check_required v = Ok tt ↔ required_present v.
Proof.
  unfold check_required, required_present. destruct (config_of v) as [d|]; cbn [mbind Res_bind].
  2: { split; [done|]. by intros (d & m & ? & _). }
  destruct (rc (schema_optional_mapping v)) as [| | | | | | |m| | |];
    try (split; [done|]; by intros (? & ? & _ & ? & _)).
  rewrite for_each_Ok. split.
  - intros H. exists d, m. split_and!; [done..|]. intros attr opt Hin Ho.
    specialize (H _ Hin). cbn [fst snd] in H. unfold as_bool in H. rewrite Ho in H.
    destruct (map_get attr (values d)) as [x|]; simpl in H; [|done].
    destruct (is_none_or_undefined x) eqn:E; [done|]. eauto.
  - intros (d' & m' & [= <-] & [= <-] & H) [attr opt] Hin. cbn [fst snd]. unfold as_bool.
    destruct (is_truthy opt) eqn:Ho; [done|].
    destruct (H _ _ Hin Ho) as (x & -> & Hx). simpl. by rewrite Hx.
Qed.

(** The recursive check of a schema instance passes exactly when the value
    and every schema instance at any depth below it, through lists and
    dictionaries too, have all their required attributes, none of them [None] or
    [Undefined]. *)
Theorem schema_check_attr_optional_spec v :
  (schema_check_attr_optional v true = Ok tt ↔
     required_present v ∧ ∀ w, inside v w → is_schema w = true → required_present w) ∧
  (schema_check_attr_optional v false = Ok tt ↔ required_present v).
Proof.
  unfold schema_check_attr_optional. rewrite check_walk_true, check_required_spec.
  split; [|done]. split; intros [Hv Hw]; (split; [done|]); intros w Hi Hs;
    apply check_required_spec; by apply Hw.
Qed.

Example missing_attribute_found :
  let d := MkDict [("a", ref_none)] [] [] [] None None in
  let s := MkSchema "S" "__main__" d [] ref_undefined (ref_dict [("a", ref_bool false)])
             (ref_list []) (ref_dict []) in
  schema_check_attr_optional (ref_dict [("x", ref_list [Ref (schema_value s)])]) true =
    Panic (PanicMsg "attribute 'a' of S is required and can't be None or Undefined").
Proof. vm_compute. reflexivity. Qed.

(** ** Dictionaries and schema instances *)

(** Making a schema instance out of a dictionary and going back gives the
    dictionary; the conversions reject exactly the values that are no config. *)
Lemma schema_dict_roundtrip self name pkgpath keys meta om args kwargs :
  (dict_to_schema self name pkgpath keys meta om args kwargs ≫= schema_to_dict) =
    (if is_config self then schema_to_dict self else Panic (PanicMsg "invalid dict object to schema")) ∧
  is_Ok (schema_to_dict self) = is_config self ∧
  (∀ d, config_of self = Some d → schema_to_dict self = Ok (Ref (dict_value d))).
Proof.
  unfold dict_to_schema, schema_to_dict, is_config, config_of.
  destruct self as [[| |x|x|x|x|x|x|x|x|x rx ux]]; cbn; split_and!; try done; by intros d [= <-].
Qed.
