(* ===== verification/Arith.v ===== *)
(** * Operators

    The unary operators of [value/val_unary.rs], the binary operators of
    [value/val_bin.rs] (all but [|], see [Union], and the subscripts, see
    [ListOps]) and their in-place forms of [value/val_bin_aug.rs], under the
    range-check configuration of the context and the build profile.  An
    in-place operator returns the new value of its left operand. *)

From stdpp Require Import base tactics list strings numbers pretty.
From Stdlib Require Import ZArith Lia.
From S2P Require Import Prelude MachineInt IndexMap Str Float64 Value Cmp ListOps DictOps.
Local Open Scope Z_scope.
Local Set Warnings "-clear-no-such-hyp".


(** [ContextConfig] of [api/kcl.rs]. *)
Class ContextConfig := {
  debug_mode : bool;
  strict_range_check : bool;
  disable_schema_check : bool }.

(** The double-quote character. *)
Definition DQUOTE : string := String (Ascii.ascii_of_nat 34) EmptyString.

(** [panic_unsupported_bin_op!] of [val_panic.rs] *)
Definition unsupported_bin_op {A} (op : string) (self x : ValueRef) : Res A :=
  Panic (PanicMsg ("unsupported operand type(s) for " +:+ op +:+ ": '" +:+ type_str self +:+
                   "' and '" +:+ type_str x +:+ "'")).

Section Arith.
Context {HP : Profile} {HC : ContextConfig}.
(** [f64::powf] is the platform's [pow]. *)
Variable powf : f64 → f64 → f64.

Definition strict_range_check_32 : bool := strict_range_check.
Definition strict_range_check_64 : bool := debug_mode || negb strict_range_check.

(** ** Unary operators *)

Definition unary_plus (self : ValueRef) : Res ValueRef :=
  match rc self with
  | int_value a => Ok (ref_int a)
  | float_value a => Ok (ref_float a)
  | _ => Panic (PanicMsg ("bad operand type for unary +: '" +:+ type_str self +:+ "'"))
  end.

Definition unary_minus (self : ValueRef) : Res ValueRef :=
  match rc self with
  | int_value a => v ← arith 64 (0 - a); Ok (ref_int v)
  | float_value a => Ok (ref_float (f_sub f_zero a))
  | _ => Panic (PanicMsg ("bad operand type for unary -: '" +:+ type_str self +:+ "'"))
  end.

Definition unary_not (self : ValueRef) : ValueRef := ref_int (Z.lnot (as_int self)).

(** ** Integers: what the two families of operators share *)

(** The range checks in front of an integer operation [r]: [ov32] and [ov64]
    are the overflow predicates of [val_overflow.rs], [v] the exact result the
    message shows (computed in [i128]) and [k64] the panic of the 64-bit check. *)
Definition guard_int (ov32 ov64 : bool) (v : Res Z) (k64 : Z → panic) (r : Res Z) : Res Z :=
  if strict_range_check_32 && ov32 then v ← v; Panic (I32Overflow v)
  else if strict_range_check_64 && ov64 then v ← v; Panic (k64 v)
  else r.

Definition int_add (a b : Z) : Res Z :=
  guard_int (is_i32_overflow_add a b) (is_i64_overflow_add a b) (arith 128 (a + b)) I64Overflow
    (arith 64 (a + b)).
(** The 64-bit check of [-] reports a 32-bit overflow. *)
Definition int_sub (a b : Z) : Res Z :=
  guard_int (is_i32_overflow_sub a b) (is_i64_overflow_sub a b) (arith 128 (a - b)) I32Overflow
    (arith 64 (a - b)).
Definition int_mul (a b : Z) : Res Z :=
  guard_int (is_i32_overflow_mul a b) (is_i64_overflow_mul a b) (arith 128 (a * b)) I64Overflow
    (arith 64 (a * b)).
Definition int_pow (a b : Z) : Res Z :=
  guard_int (is_i32_overflow_pow a b) (is_i64_overflow_pow a b) (arith 128 (a ^ as_u32 b))
    I64Overflow (arith 64 (a ^ as_u32 b)).
Definition int_lshift (a b : Z) : Res Z :=
  guard_int (is_i32_overflow_shl a b) (is_i64_overflow_shl a b) (int_shl 128 a (as_u32 b))
    I64Overflow (int_shl 64 a b).
Definition int_rshift (a b : Z) : Res Z :=
  guard_int (is_i32_overflow_shr a b) (is_i64_overflow_shr a b) (int_shr 128 a (as_u32 b))
    I64Overflow (int_shr 64 a b).

(** [if (x < 0) != (y < 0) && x % y != 0 { x % y + y } else { x % y }] *)
Definition int_mod (x y : Z) : Res Z :=
  if negb (Bool.eqb (x <? 0) (y <? 0)) then
    r ← int_rem 64 x y;
    if negb (r =? 0) then arith 64 (r + y) else int_rem 64 x y
  else int_rem 64 x y.
(** [if (x < 0) != (y < 0) && x % y != 0 { x / y - 1 } else { x / y }] *)
Definition int_floor_div (x y : Z) : Res Z :=
  if negb (Bool.eqb (x <? 0) (y <? 0)) then
    r ← int_rem 64 x y;
    if negb (r =? 0) then q ← int_div 64 x y; arith 64 (q - 1) else int_div 64 x y
  else int_div 64 x y.

(** The range check in front of a float operation with result [v]. *)
Definition guard_float (check ov : bool) (v : f64) : Res f64 :=
  if check && ov then Panic F32Overflow else Ok v.

(** ** Repetition *)

(** [a.repeat(n)]: the length of the result is limited to [isize::MAX]. *)
Definition isize_MAX : Z := 9223372036854775807.
Definition repeat_str (a : string) (n : Z) : Res string :=
  if Nat.eqb (slen a) 0 then Ok ""
  else if Z.of_nat (slen a) * n <=? isize_MAX then Ok (str_repeat (Z.to_nat n) a)
  else Panic CapacityOverflow.

(** Pushing [n] copies of the elements of [l] behind [acc]: a vector holds at
    most [isize::MAX] bytes, that is [isize::MAX / 8] references. *)
Definition push_repeated (acc l : list ValueRef) (n : Z) : Res (list ValueRef) :=
  if vec_is_empty l then Ok acc
  else if (Z.of_nat (length acc) + Z.of_nat (length l) * n) * 8 <=? isize_MAX
  then Ok (acc ++ concat (replicate (Z.to_nat n) l))
  else Panic CapacityOverflow.

(** ** Binary operators *)

Definition bin_add (self x : ValueRef) : Res ValueRef :=
  match rc self, rc x with
  | int_value a, int_value b => v ← int_add a b; Ok (ref_int v)
  | float_value a, float_value b =>
      v ← guard_float strict_range_check_32 (is_f32_overflow_add a b) (f_add a b); Ok (ref_float v)
  | int_value a, float_value b =>
      v ← guard_float true (is_f32_overflow_add (f_of_int a) b) (f_add (f_of_int a) b);
      Ok (ref_float v)
  | float_value a, int_value b =>
      v ← guard_float true (is_f32_overflow_add a (f_of_int b)) (f_add a (f_of_int b));
      Ok (ref_float v)
  | str_value a, str_value b => Ok (ref_str (a +:+ b))
  | list_value a, list_value b => Ok (ref_list (list_values a ++ list_values b))
  | list_value a, _ =>
      Panic (PanicMsg ("can only concatenate list (not " +:+ DQUOTE +:+ type_str x +:+ DQUOTE +:+ ") to list"))
  | _, _ => unsupported_bin_op "+" self x
  end.

Definition bin_sub (self x : ValueRef) : Res ValueRef :=
  match rc self, rc x with
  | int_value a, int_value b => v ← int_sub a b; Ok (ref_int v)
  | float_value a, float_value b =>
      v ← guard_float strict_range_check_32 (is_f32_overflow_sub a b) (f_sub a b); Ok (ref_float v)
  | int_value a, float_value b =>
      v ← guard_float strict_range_check_32 (is_f32_overflow_sub (f_of_int a) b)
            (f_sub (f_of_int a) b);
      Ok (ref_float v)
  | float_value a, int_value b =>
      v ← guard_float strict_range_check_32 (is_f32_overflow_sub a (f_of_int b))
            (f_sub a (f_of_int b));
      Ok (ref_float v)
  | _, _ => unsupported_bin_op "-" self x
  end.

Definition bin_mul (self x : ValueRef) : Res ValueRef :=
  match rc self, rc x with
  | int_value a, int_value b => v ← int_mul a b; Ok (ref_int v)
  | float_value a, float_value b =>
      v ← guard_float strict_range_check_32 (is_f32_overflow_mul a b) (f_mul a b); Ok (ref_float v)
  | int_value a, float_value b =>
      v ← guard_float strict_range_check_32 (is_f32_overflow_mul (f_of_int a) b)
            (f_mul (f_of_int a) b);
      Ok (ref_float v)
  | float_value a, int_value b =>
      v ← guard_float strict_range_check_32 (is_f32_overflow_mul a (f_of_int b))
            (f_mul a (f_of_int b));
      Ok (ref_float v)
  | str_value a, int_value b | int_value b, str_value a =>
      s ← repeat_str a (as_usize b); Ok (ref_str s)
  | list_value a, int_value b | int_value b, list_value a =>
      vs ← push_repeated [] (deep_copy <$> list_values a) (as_usize b); Ok (ref_list vs)
  | _, _ => unsupported_bin_op "*" self x
  end.

Definition bin_div (self x : ValueRef) : Res ValueRef :=
  match rc self, rc x with
  | int_value a, int_value b => Ok (ref_float (f_div (f_of_int a) (f_of_int b)))
  | float_value a, float_value b => Ok (ref_float (f_div a b))
  | int_value a, float_value b => Ok (ref_float (f_div (f_of_int a) b))
  | float_value a, int_value b => Ok (ref_float (f_div a (f_of_int b)))
  | _, _ => unsupported_bin_op "/" self x
  end.

Definition bin_mod (self x : ValueRef) : Res ValueRef :=
  match rc self, rc x with
  | int_value a, int_value b => v ← int_mod a b; Ok (ref_int v)
  | float_value a, float_value b => Ok (ref_float (f_rem a b))
  | int_value a, float_value b => Ok (ref_float (f_rem (f_of_int a) b))
  | float_value a, int_value b => Ok (ref_float (f_rem a (f_of_int b)))
  | _, _ => unsupported_bin_op "%" self x
  end.

Definition bin_pow (self x : ValueRef) : Res ValueRef :=
  match rc self, rc x with
  | int_value a, int_value b => v ← int_pow a b; Ok (ref_int v)
  | float_value a, float_value b =>
      v ← guard_float strict_range_check_32 (is_f32_overflow_pow powf a b) (powf a b);
      Ok (ref_float v)
  | int_value a, float_value b =>
      v ← guard_float strict_range_check_32 (is_f32_overflow_pow powf (f_of_int a) b)
            (powf (f_of_int a) b);
      Ok (ref_float v)
  | float_value a, int_value b =>
      v ← guard_float strict_range_check_32 (is_f32_overflow_pow powf a (f_of_int b))
            (powf a (f_of_int b));
      Ok (ref_float v)
  | _, _ => unsupported_bin_op "**" self x
  end.

Definition bin_floor_div (self x : ValueRef) : Res ValueRef :=
  match rc self, rc x with
  | int_value a, int_value b => v ← int_floor_div a b; Ok (ref_int v)
  | float_value a, float_value b => Ok (ref_float (f_floor (f_div a b)))
  | int_value a, float_value b => Ok (ref_float (f_floor (f_div (f_of_int a) b)))
  | float_value a, int_value b => Ok (ref_float (f_floor (f_div a (f_of_int b))))
  | _, _ => unsupported_bin_op "//" self x
  end.

Definition bin_bit_lshift (self x : ValueRef) : Res ValueRef :=
  match rc self, rc x with
  | int_value a, int_value b => v ← int_lshift a b; Ok (ref_int v)
  | _, _ => unsupported_bin_op "<<" self x
  end.

Definition bin_bit_rshift (self x : ValueRef) : Res ValueRef :=
  match rc self, rc x with
  | int_value a, int_value b => v ← int_rshift a b; Ok (ref_int v)
  | _, _ => unsupported_bin_op ">>" self x
  end.

Definition bin_bit_and (self x : ValueRef) : Res ValueRef :=
  match rc self, rc x with
  | int_value a, int_value b => Ok (ref_int (Z.land a b))
  | _, _ => unsupported_bin_op "&" self x
  end.

Definition bin_bit_xor (self x : ValueRef) : Res ValueRef :=
  match rc self, rc x with
  | int_value a, int_value b => Ok (ref_int (Z.lxor a b))
  | _, _ => unsupported_bin_op "^" self x
  end.

(** ** In-place operators *)

(** [*b as u32] on a float *)
Definition f_to_u32 (b : f64) : Z := Z.max 0 (Z.min (2 ^ 32 - 1) (f_to_i64 b)).

Definition bin_aug_add (self x : ValueRef) : Res ValueRef :=
  match rc self, rc x with
  | int_value a, int_value b => v ← int_add a b; Ok (ref_int v)
  | float_value a, float_value b =>
      v ← guard_float strict_range_check_32 (is_f32_overflow_add a b) (f_add a b); Ok (ref_float v)
  | int_value a, float_value b =>
      guard_float true (is_f32_overflow_add (f_of_int a) b) f_zero;;
      v ← arith 64 (a + f_to_i64 b);
      Ok (ref_int v)
  | float_value a, int_value b =>
      v ← guard_float true (is_f32_overflow_add a (f_of_int b)) (f_add a (f_of_int b));
      Ok (ref_float v)
  | str_value a, str_value b => Ok (ref_str (a +:+ b))
  | list_value a, list_value b => Ok (ref_list (list_values a ++ list_values b))
  | _, _ => unsupported_bin_op "+" self x
  end.

Definition bin_aug_sub (self x : ValueRef) : Res ValueRef :=
  match rc self, rc x with
  | int_value a, int_value b => v ← int_sub a b; Ok (ref_int v)
  | float_value a, float_value b =>
      v ← guard_float strict_range_check_32 (is_f32_overflow_sub a b) (f_sub a b); Ok (ref_float v)
  | int_value a, float_value b =>
      guard_float strict_range_check_32 (is_f32_overflow_sub (f_of_int a) b) f_zero;;
      v ← arith 64 (a - f_to_i64 b);
      Ok (ref_int v)
  | float_value a, int_value b =>
      v ← guard_float strict_range_check_32 (is_f32_overflow_sub a (f_of_int b))
            (f_sub a (f_of_int b));
      Ok (ref_float v)
  | _, _ => unsupported_bin_op "-" self x
  end.

(** [for _ in 1..n] repeats one time less than [n], and not at all for
    [n = 0]. *)
Definition bin_aug_mul (self x : ValueRef) : Res ValueRef :=
  match rc self, rc x with
  | int_value a, int_value b => v ← int_mul a b; Ok (ref_int v)
  | float_value a, float_value b =>
      v ← guard_float strict_range_check_32 (is_f32_overflow_mul a b) (f_mul a b); Ok (ref_float v)
  | int_value a, float_value b =>
      guard_float strict_range_check_32 (is_f32_overflow_mul (f_of_int a) b) f_zero;;
      v ← arith 64 (a * f_to_i64 b);
      Ok (ref_int v)
  | float_value a, int_value b =>
      v ← guard_float strict_range_check_32 (is_f32_overflow_mul a (f_of_int b))
            (f_mul a (f_of_int b));
      Ok (ref_float v)
  | str_value a, int_value b => s ← repeat_str a (as_usize b); Ok (ref_str s)
  | list_value l, int_value b =>
      vs ← push_repeated (list_values l) (list_values l) (Z.max 0 (as_usize b - 1));
      Ok (ref_list vs)
  | _, _ => unsupported_bin_op "*" self x
  end.

Definition bin_aug_div (self x : ValueRef) : Res ValueRef :=
  match rc self, rc x with
  | int_value a, int_value b => v ← int_div 64 a b; Ok (ref_int v)
  | int_value a, float_value b => v ← int_div 64 a (f_to_i64 b); Ok (ref_int v)
  | float_value a, int_value b => Ok (ref_float (f_div a (f_of_int b)))
  | float_value a, float_value b => Ok (ref_float (f_div a b))
  | _, _ => unsupported_bin_op "/" self x
  end.

Definition bin_aug_mod (self x : ValueRef) : Res ValueRef :=
  match rc self, rc x with
  | int_value a, int_value b => v ← int_mod a b; Ok (ref_int v)
  | int_value a, float_value b => v ← int_rem 64 a (f_to_i64 b); Ok (ref_int v)
  | float_value a, int_value b => Ok (ref_float (f_rem a (f_of_int b)))
  | float_value a, float_value b => Ok (ref_float (f_rem a b))
  | _, _ => unsupported_bin_op "%" self x
  end.

Definition bin_aug_pow (self x : ValueRef) : Res ValueRef :=
  match rc self, rc x with
  | int_value a, int_value b => v ← int_pow a b; Ok (ref_int v)
  | float_value a, float_value b =>
      v ← guard_float strict_range_check_32 (is_f32_overflow_pow powf a b) (powf a b);
      Ok (ref_float v)
  | int_value a, float_value b =>
      guard_float strict_range_check_32 (is_f32_overflow_pow powf (f_of_int a) b) f_zero;;
      v ← arith 64 (a ^ f_to_u32 b);
      Ok (ref_int v)
  | float_value a, int_value b =>
      v ← guard_float strict_range_check_32 (is_f32_overflow_pow powf a (f_of_int b))
            (powf a (f_of_int b));
      Ok (ref_float v)
  | _, _ => unsupported_bin_op "**" self x
  end.

(** Only the integer case rounds down. *)
Definition bin_aug_floor_div (self x : ValueRef) : Res ValueRef :=
  match rc self, rc x with
  | int_value a, int_value b => v ← int_floor_div a b; Ok (ref_int v)
  | int_value a, float_value b => Ok (ref_int (f_to_i64 (f_div (f_of_int a) b)))
  | float_value a, int_value b => Ok (ref_float (f_div a (f_of_int b)))
  | float_value a, float_value b => Ok (ref_float (f_div a b))
  | _, _ => unsupported_bin_op "//" self x
  end.

Definition bin_aug_bit_lshift (self x : ValueRef) : Res ValueRef :=
  match rc self, rc x with
  | int_value a, int_value b =>
      v ← guard_int (is_i32_overflow_shl a b) (is_i64_overflow_shl a b)
            (int_shl 128 a (as_u32 b)) I64Overflow (int_shl 64 a (as_usize b));
      Ok (ref_int v)
  | _, _ => unsupported_bin_op "<<" self x
  end.

Definition bin_aug_bit_rshift (self x : ValueRef) : Res ValueRef :=
  match rc self, rc x with
  | int_value a, int_value b =>
      v ← guard_int (is_i32_overflow_shr a b) (is_i64_overflow_shr a b)
            (int_shr 128 a (as_u32 b)) I64Overflow (int_shr 64 a (as_usize b));
      Ok (ref_int v)
  | _, _ => unsupported_bin_op ">>" self x
  end.

(** The message of [&=] names the operator [^]. *)
Definition bin_aug_bit_and (self x : ValueRef) : Res ValueRef :=
  match rc self, rc x with
  | int_value a, int_value b => Ok (ref_int (Z.land a b))
  | _, _ => unsupported_bin_op "^" self x
  end.

Definition bin_aug_bit_xor (self x : ValueRef) : Res ValueRef :=
  match rc self, rc x with
  | int_value a, int_value b => Ok (ref_int (Z.lxor a b))
  | _, _ => unsupported_bin_op "^" self x
  end.

End Arith.

(** ** The overflow predicates are exact *)

Lemma in_i128_of_bound z : - 2 ^ 127 ≤ z < 2 ^ 127 → in_int 128 z = true.
Proof. intros H. apply in_int_spec. unfold int_min, int_max. change (128 - 1) with 127. lia. Qed.

(** The operands and the exact result [z] of an operation fit the configured
    range: 32 bits under [strict_range_check], and 64 bits always. *)
Definition fits {HC : ContextConfig} (a b z : Z) : bool :=
  (if strict_range_check then in_i32 a && in_i32 b && in_i32 z else true) && in_i64 z.

Lemma i32_overflow2_spec a b : is_i32_overflow2 a b = negb (in_i32 a && in_i32 b).
Proof. unfold is_i32_overflow2. rewrite !is_i32_overflow_spec. by destruct (in_i32 a), (in_i32 b). Qed.

Lemma i32_check a b (f : Z → Z → Z) :
  (is_i32_overflow2 a b || MachineInt.is_none (checked 32 (f (as_i32 a) (as_i32 b)))) =
  negb (in_i32 a && in_i32 b && in_i32 (f a b)).
Proof.
  rewrite i32_overflow2_spec, is_none_checked.
  destruct (in_i32 a) eqn:Ha; [|done]. destruct (in_i32 b) eqn:Hb; [|done]. simpl.
  by rewrite !wrap_int_id.
Qed.

Section ArithLemmas.
Context {HP : Profile} {HC : ContextConfig}.

(** A guarded operation whose predicates are exact returns the exact result when
    it fits, and panics otherwise: no result ever wraps. *)
Lemma guard_int_exact ov32 ov64 v k64 a b z r :
  ov32 = negb (in_i32 a && in_i32 b && in_i32 z) → ov64 = negb (in_i64 z) →
  guard_int ov32 ov64 v k64 (arith 64 z) = Ok r ↔ r = z ∧ fits a b z = true.
Proof.
  intros -> ->. unfold guard_int, fits, strict_range_check_32, strict_range_check_64.
  assert (in_i32 z = true → in_i64 z = true) as Hz by apply in_i32_in_i64.
  assert (∀ k, (w ← v; Panic (k w)) = Ok r → False) as Hpanic by by destruct v.
  destruct strict_range_check; cbn [andb orb negb].
  - destruct (in_i32 a && in_i32 b && in_i32 z) eqn:E; cbn [negb].
    + apply andb_true_iff in E as [_ E%Hz]. rewrite E. cbn [negb]. rewrite andb_false_r.
      rewrite arith_Ok by done. naive_solver.
    + split; [by intros ?%Hpanic|]. by intros [_ ?].
  - rewrite orb_true_r. destruct (in_i64 z) eqn:E; cbn [negb andb].
    + rewrite arith_Ok by done. naive_solver.
    + split; [by intros ?%Hpanic|]. by intros [_ ?].
Qed.

(** C35: Addition, subtraction and multiplication of integers, in every configuration
    and every build profile: a result is returned exactly when it fits the configured
    range (with its operands, under the strict check of 32 bits), and then it is the
    exact mathematical result; otherwise the operation panics.  A power does the same
    with its exponent read as [u32], when this is a 32-bit integer, and panics when it is
    none: [1 ** 2 ** 31] panics, and [0 ** -1] is a power with exponent [2 ^ 32 - 1]. *)
Theorem int_arith_exact a b :
  in_i64 a = true → in_i64 b = true →
  (∀ r, int_add a b = Ok r ↔ r = a + b ∧ fits a b (a + b) = true) ∧
  (∀ r, int_sub a b = Ok r ↔ r = a - b ∧ fits a b (a - b) = true) ∧
  (∀ r, int_mul a b = Ok r ↔ r = a * b ∧ fits a b (a * b) = true) ∧
  (∀ r, int_pow a b = Ok r ↔
     r = a ^ as_u32 b ∧ in_i32 b = true ∧ fits a b (a ^ as_u32 b) = true).
Proof.
  intros Ha Hb. split_and!; intros r.
  1-3: apply guard_int_exact; [by apply i32_check|apply is_none_checked].
  unfold int_pow. destruct (in_i32 b) eqn:E.
  - rewrite (guard_int_exact _ _ _ _ a b (a ^ as_u32 b)).
    + naive_solver.
    + unfold is_i32_overflow_pow, checked_pow. rewrite i32_overflow2_spec, is_none_checked, E.
      rewrite andb_true_r. destruct (in_i32 a) eqn:E'; [|done]. by rewrite wrap_int_id.
    + unfold is_i64_overflow_pow, checked_pow. by rewrite is_i32_overflow_spec, E, is_none_checked.
  - split; [|by intros (_ & ? & _)]. unfold guard_int, strict_range_check_32, strict_range_check_64.
    unfold is_i32_overflow_pow, is_i64_overflow_pow.
    rewrite i32_overflow2_spec, is_i32_overflow_spec, E, andb_false_r. simpl.
    destruct strict_range_check; simpl.
    + by destruct (arith 128 (a ^ as_u32 b)).
    + rewrite orb_true_r. by destruct (arith 128 (a ^ as_u32 b)).
Qed.
End ArithLemmas.

Lemma int_arith_exact_witness :
  let p := {| overflow_checks := false |} in
  let c := {| debug_mode := false; strict_range_check := false; disable_schema_check := false |} in
  (∀ r, int_add i64_MAX 1 = Ok r ↔ r = i64_MAX + 1 ∧ fits i64_MAX 1 (i64_MAX + 1) = true) ∧
  (∀ r, int_mul 3 4 = Ok r ↔ r = 12 ∧ fits 3 4 12 = true).
Proof.
  intros p c. split.
  - exact (proj1 (int_arith_exact i64_MAX 1 eq_refl eq_refl)).
  - exact (proj1 (proj2 (proj2 (int_arith_exact 3 4 eq_refl eq_refl)))).
Defined.

(** ** Floor division and modulo *)

Section DivMod.
Context {HP : Profile}.

Lemma quot_in_i64 x y :
  in_i64 x = true → in_i64 y = true → y ≠ 0 → (x ≠ i64_MIN ∨ y ≠ -1) → in_i64 (Z.quot x y) = true.
Proof.
  rewrite !i64_bounds. unfold i64_MIN, i64_MAX. intros Hx Hy H0 Hne.
  pose proof (Z.quot_rem' x y). pose proof (Z.rem_bound_abs x y H0).
  pose proof (Z.rem_sign_mul x y H0). nia.
Qed.

(** Truncated and floored division. *)
Lemma floor_of_quot x y :
  y ≠ 0 →
  if negb (Bool.eqb (x <? 0) (y <? 0)) && negb (Z.rem x y =? 0)
  then x / y = Z.quot x y - 1 ∧ x mod y = Z.rem x y + y
  else x / y = Z.quot x y ∧ x mod y = Z.rem x y.
Proof.
  intros H0. pose proof (Z.quot_rem' x y) as Hqr. pose proof (Z.rem_bound_abs x y H0) as Hb.
  pose proof (Z.rem_nonneg x y H0) as Hs1. pose proof (Z.rem_nonpos x y H0) as Hs2.
  set (q := Z.quot x y) in *. set (r := Z.rem x y) in *. clearbody q r.
  destruct (Z.ltb_spec x 0), (Z.ltb_spec y 0), (Z.eqb_spec r 0); simpl;
    (split; symmetry;
      [first [apply (Z.div_unique x y _ r); [lia|lia] | apply (Z.div_unique x y _ (r + y)); [lia|lia]]
      |first [apply (Z.mod_unique x y q); [lia|lia] | apply (Z.mod_unique x y (q - 1)); [lia|lia]]]).
Qed.

(** [//] on integers is division rounded towards minus infinity and [%] is
    its remainder, which has the sign of the divisor, although the code computes
    both from the truncating operators of Rust; a zero divisor panics, and so
    does [i64::MIN // -1], whose quotient does not fit, in every build
    profile. *)
Theorem floor_div_mod_spec x y :
  in_i64 x = true → in_i64 y = true →
  (y ≠ 0 → x ≠ i64_MIN ∨ y ≠ -1 →
     bin_floor_div (ref_int x) (ref_int y) = Ok (ref_int (x / y)) ∧
     bin_mod (ref_int x) (ref_int y) = Ok (ref_int (x mod y))) ∧
  (y = 0 →
     bin_floor_div (ref_int x) (ref_int y) = Panic DivisionByZero ∧
     bin_mod (ref_int x) (ref_int y) = Panic DivisionByZero) ∧
  (x = i64_MIN → y = -1 →
     bin_floor_div (ref_int x) (ref_int y) = Panic ArithOverflow ∧
     bin_mod (ref_int x) (ref_int y) = Panic ArithOverflow).
Proof.
  intros Hx Hy. unfold bin_floor_div, bin_mod. cbn [rc ref_int].
  split_and!.
  - intros H0 Hne. pose proof (quot_in_i64 x y Hx Hy H0 Hne) as Hq.
    pose proof (floor_of_quot x y H0) as Hf. unfold int_floor_div, int_mod, int_div, int_rem.
    rewrite (proj2 (Z.eqb_neq y 0) H0), Hq. cbn [mbind Res_bind].
    destruct (negb (Bool.eqb (x <? 0) (y <? 0))) eqn:Es; cbn [andb] in Hf.
    + destruct (negb (Z.rem x y =? 0)) eqn:Er; destruct Hf as [-> ->]; [|done].
      apply i64_bounds in Hx. apply i64_bounds in Hy. apply i64_bounds in Hq.
      unfold i64_MIN, i64_MAX in *.
      pose proof (Z.quot_rem' x y). pose proof (Z.rem_bound_abs x y H0).
      pose proof (Z.rem_nonneg x y H0). pose proof (Z.rem_nonpos x y H0).
      assert (Z.quot x y ≠ -9223372036854775808).
      { intros E. rewrite E in *. assert (y = 1 ∨ y = -1 ∨ y ≤ -2 ∨ 2 ≤ y) as [-> |[-> |[?|?]]] by lia; try nia.
      }
      rewrite !arith_i64 by (unfold i64_MIN, i64_MAX; lia). done.
    + by destruct Hf as [-> ->].
  - intros ->. unfold int_floor_div, int_mod, int_div, int_rem. rewrite Z.eqb_refl.
    by destruct (negb (Bool.eqb (x <? 0) (0 <? 0))).
  - intros -> ->. split; reflexivity.
Qed.
End DivMod.

Lemma floor_div_mod_spec_witness :
  let p := {| overflow_checks := true |} in
  bin_floor_div (ref_int (-7)) (ref_int 2) = Ok (ref_int (-4)) ∧
  bin_mod (ref_int (-7)) (ref_int 2) = Ok (ref_int 1).
Proof.
  intros p. apply (proj1 (floor_div_mod_spec (-7) 2 eq_refl eq_refl)); [lia|right; lia].
Defined.

(** ** Shifts *)

Section Shifts.
Context {HP : Profile} {HC : ContextConfig}.

Lemma as_u32_small b : 0 ≤ b < 2 ^ 32 → as_u32 b = b.
Proof. intros. by apply Z.mod_small. Qed.

Lemma as_u32_neg b : in_i32 b = true → b < 0 → 2 ^ 31 ≤ as_u32 b.
Proof.
  intros Hb%i32_bounds Hn. unfold wrap_uint. change (2 ^ 32) with 4294967296.
  rewrite <- (Z.mod_add b 1) by lia. rewrite Z.mod_small; lia.
Qed.

(** The shift amounts the checks let through, with a 32-bit left operand under
    [strict_range_check]. *)
Definition shift_fits (a b : Z) : bool :=
  (0 <=? b) && (b <? 64) && (if strict_range_check then in_i32 a && (b <? 32) else true).

Lemma guard_shift {B} (sh32 sh64 : Z → Z → option B) v k64 a b (r r' : Z) :
  (∀ a s, MachineInt.is_none (sh32 a s) = negb (s <? 32)) →
  (∀ a s, MachineInt.is_none (sh64 a s) = negb (s <? 64)) →
  guard_int (is_i32_overflow2 a b || MachineInt.is_none (sh32 (as_i32 a) (as_u32 b)))
    (is_i32_overflow b || MachineInt.is_none (sh64 a (as_u32 b))) v k64 (Ok r') = Ok r ↔
  r = r' ∧ shift_fits a b = true.
Proof.
  intros H32 H64. unfold guard_int, shift_fits, strict_range_check_32, strict_range_check_64.
  rewrite H32, H64, i32_overflow2_spec, is_i32_overflow_spec.
  assert (∀ k, (w ← v; Panic (k w)) = Ok r → False) as Hpanic by by destruct v.
  assert (∀ n, 0 < n ≤ 64 → in_i32 b && (as_u32 b <? n) = ((0 <=? b) && (b <? n))) as Hb.
  { intros n Hn. destruct (in_i32 b) eqn:E; simpl.
    - destruct (Z.leb_spec 0 b).
      + rewrite as_u32_small; [done|]. apply i32_bounds in E. lia.
      + pose proof (as_u32_neg b E). lia.
    - destruct (Z.leb_spec 0 b), (Z.ltb_spec b n); try done.
      rewrite (proj2 (i32_bounds b)) in E by lia. done. }
  pose proof (Hb 32 ltac:(lia)) as Hb32. pose proof (Hb 64 ltac:(lia)) as Hb64.
  rewrite <- (negb_andb (in_i32 b)), Hb64.
  assert (negb (in_i32 a && in_i32 b) || negb (as_u32 b <? 32) =
          negb (in_i32 a && ((0 <=? b) && (b <? 32)))) as ->.
  { rewrite <- Hb32. by destruct (in_i32 a), (in_i32 b), (as_u32 b <? 32). }
  destruct strict_range_check; cbn [andb orb negb].
  - destruct (in_i32 a); cbn [andb negb].
    2: { split; [by intros ?%Hpanic|]. intros [_ ?]. by rewrite andb_false_r in *. }
    destruct (Z.leb_spec 0 b), (Z.ltb_spec b 32), (Z.ltb_spec b 64); cbn [andb negb]; try lia;
      rewrite ?andb_false_r;
      (split; [first [intros [= <-]; done|by intros ?%Hpanic]|]; intros [-> ?]; done) ||
      (destruct debug_mode; cbn [andb];
       (split; [first [intros [= <-]; done|by intros ?%Hpanic]|]; intros [-> ?]; done)).
  - rewrite orb_true_r, andb_true_r. destruct ((0 <=? b) && (b <? 64)); cbn [negb andb].
    + naive_solver.
    + split; [by intros ?%Hpanic|]. by intros [_ ?].
Qed.

Lemma shift_amount_in w b : 0 ≤ b < w → shift_amount w b = Ok b.
Proof. intros H. unfold shift_amount. rewrite (proj2 (andb_true_iff _ _)); [done|lia]. Qed.

Lemma guard_int_bad ov32 ov64 v k64 r0 r :
  guard_int ov32 ov64 v k64 r0 = Ok r → r0 = Ok r ∧
  (strict_range_check = true → ov32 = false) ∧
  (debug_mode || negb strict_range_check = true → ov64 = false).
Proof.
  unfold guard_int, strict_range_check_32, strict_range_check_64.
  destruct strict_range_check, ov32, debug_mode, ov64; simpl; try (by destruct v); auto.
Qed.

Lemma guard_int_irrel ov32 ov64 v k64 r0 r1 :
  ((strict_range_check = true → ov32 = false) →
   (debug_mode || negb strict_range_check = true → ov64 = false) → r0 = r1) →
  guard_int ov32 ov64 v k64 r0 = guard_int ov32 ov64 v k64 r1.
Proof.
  unfold guard_int, strict_range_check_32, strict_range_check_64. intros H.
  destruct strict_range_check, ov32, debug_mode, ov64; simpl in *; auto.
Qed.

(** Every shift amount that passes the checks is in [0, 64). *)
Lemma shl_amount_ok a b :
  (strict_range_check = true → is_i32_overflow_shl a b = false) →
  (debug_mode || negb strict_range_check = true → is_i64_overflow_shl a b = false) →
  0 ≤ b < 64.
Proof.
  intros H1 H2.
  destruct (proj1 (guard_shift (checked_shl 32) (checked_shl 64) (Ok 0) I64Overflow a b 0 0
    ltac:(intros; unfold checked_shl; by destruct (_ <? _))
    ltac:(intros; unfold checked_shl; by destruct (_ <? _)))) as [_ H].
  { fold (is_i32_overflow_shl a b) (is_i64_overflow_shl a b).
    unfold guard_int, strict_range_check_32, strict_range_check_64.
    unfold is_i32_overflow_shl, is_i64_overflow_shl in *.
    destruct strict_range_check; simpl in *; [rewrite H1 by done|];
      destruct debug_mode; simpl in *; rewrite ?H2 by done; done. }
  unfold shift_fits in H. lia.
Qed.

Lemma shr_overflow32 a b : is_i32_overflow_shr a b = is_i32_overflow_shl a b.
Proof.
  unfold is_i32_overflow_shr, is_i32_overflow_shl, checked_shr, checked_shl.
  by destruct (as_u32 b <? 32).
Qed.
Lemma shr_overflow64 a b : is_i64_overflow_shr a b = is_i64_overflow_shl a b.
Proof.
  unfold is_i64_overflow_shr, is_i64_overflow_shl, checked_shr, checked_shl.
  by destruct (as_u32 b <? 64).
Qed.

(** [<<] and [>>] on integers succeed exactly for the shift amounts in
    [0, 64) (under [strict_range_check]: in [0, 32), of a 32-bit left operand).
    [>>] is then the floor of the division by the power of two.  [<<] keeps the
    low 64 bits of the product, without a check of the bits shifted out; under
    [strict_range_check] the product is exact, although it may exceed 32
    bits. *)
Theorem shifts_spec a b :
  in_i64 a = true →
  (∀ r, int_rshift a b = Ok r ↔ r = a / 2 ^ b ∧ shift_fits a b = true) ∧
  (∀ r, int_lshift a b = Ok r ↔ r = as_i64 (a * 2 ^ b) ∧ shift_fits a b = true) ∧
  (strict_range_check = true → shift_fits a b = true → int_lshift a b = Ok (a * 2 ^ b)).
Proof.
  intros Ha.
  assert (∀ r, int_rshift a b = Ok r ↔ r = a / 2 ^ b ∧ shift_fits a b = true) as Hr.
  { intros r. unfold int_rshift.
    erewrite guard_int_irrel.
    - apply (guard_shift (checked_shr 32) (checked_shr 64)); intros; unfold checked_shr;
        by destruct (_ <? _).
    - intros H1 H2. rewrite shr_overflow32 in H1. rewrite shr_overflow64 in H2.
      pose proof (shl_amount_ok a b H1 H2) as Hb'.
      unfold int_shr. rewrite shift_amount_in by done. simpl.
      by rewrite Z.shiftr_div_pow2 by lia. }
  assert (∀ r, int_lshift a b = Ok r ↔ r = as_i64 (a * 2 ^ b) ∧ shift_fits a b = true) as Hl.
  { intros r. unfold int_lshift. erewrite guard_int_irrel.
    - apply (guard_shift (checked_shl 32) (checked_shl 64)); intros; unfold checked_shl;
        by destruct (_ <? _).
    - intros H1 H2. pose proof (shl_amount_ok a b H1 H2) as Hb'.
      unfold int_shl. rewrite shift_amount_in by done. simpl.
      by rewrite Z.shiftl_mul_pow2 by lia. }
  split_and!; [done..|]. intros Hs Hf. apply Hl. split; [|done].
  unfold shift_fits in Hf. rewrite Hs in Hf. symmetry. apply wrap_int_id; [lia|].
  apply andb_true_iff in Hf as [Hb [Hi Hb']%andb_true_iff]. apply i32_bounds in Hi.
  apply i64_bounds. unfold i64_MIN, i64_MAX.
  assert (2 ^ b ≤ 2 ^ 31) by (apply Z.pow_le_mono_r; lia).
  assert (0 < 2 ^ b) by (apply Z.pow_pos_nonneg; lia). change (2 ^ 31) with 2147483648 in *. nia.
Qed.
End Shifts.

Lemma shifts_spec_witness :
  let p := {| overflow_checks := true |} in
  let c := {| debug_mode := false; strict_range_check := true; disable_schema_check := false |} in
  int_lshift 1 31 = Ok (1 * 2 ^ 31) ∧
  (∀ r, int_rshift (-5) 1 = Ok r ↔ r = -5 / 2 ^ 1 ∧ shift_fits (-5) 1 = true).
Proof.
  intros p c. split.
  - exact (proj2 (proj2 (shifts_spec 1 31 eq_refl)) eq_refl eq_refl).
  - exact (proj1 (shifts_spec (-5) 1 eq_refl)).
Defined.

(** ** Results are well-formed *)

Lemma in_i64_shiftr z : in_i64 z = true ↔ Z.shiftr z 63 = 0 ∨ Z.shiftr z 63 = -1.
Proof.
  rewrite i64_bounds, Z.shiftr_div_pow2 by lia. unfold i64_MIN, i64_MAX.
  change (2 ^ 63) with 9223372036854775808.
  pose proof (Z.div_mod z 9223372036854775808). pose proof (Z.mod_pos_bound z 9223372036854775808).
  lia.
Qed.

Lemma land_in_i64 a b : in_i64 a = true → in_i64 b = true → in_i64 (Z.land a b) = true.
Proof.
  rewrite !in_i64_shiftr, Z.shiftr_land. intros [->| ->] [->| ->]; vm_compute; auto.
Qed.
Lemma lxor_in_i64 a b : in_i64 a = true → in_i64 b = true → in_i64 (Z.lxor a b) = true.
Proof.
  rewrite !in_i64_shiftr, Z.shiftr_lxor. intros [->| ->] [->| ->]; vm_compute; auto.
Qed.

Lemma f_to_i64_range f : in_i64 (f_to_i64 f) = true.
Proof.
  apply i64_bounds. unfold f_to_i64.
  destruct f as [|[]| |s m e]; unfold i64_MIN, i64_MAX; lia.
Qed.

Section Wf.
Context {HP : Profile} {HC : ContextConfig}.

(** [r] returns 64-bit integers only. *)
Definition returns_i64 (r : Res Z) : Prop := ∀ v, r = Ok v → in_i64 v = true.

Lemma returns_arith z : returns_i64 (arith 64 z).
Proof. intros v. by apply arith_in_range. Qed.
Lemma returns_guard ov32 ov64 w k r : returns_i64 r → returns_i64 (guard_int ov32 ov64 w k r).
Proof. intros H v [Hv _]%guard_int_bad. by apply H. Qed.
Lemma returns_shl a b : returns_i64 (int_shl 64 a b).
Proof.
  intros v. unfold int_shl. destruct (shift_amount 64 b); simpl; [|done].
  intros [= <-]. by apply wrap_int_range.
Qed.
Lemma returns_shr a b : in_i64 a = true → returns_i64 (int_shr 64 a b).
Proof.
  intros Ha v. unfold int_shr. destruct (shift_amount 64 b) as [n|] eqn:E; simpl; [|done].
  intros [= <-]. assert (0 ≤ n) as Hn.
  { unfold shift_amount in E. destruct ((0 <=? b) && (b <? 64)) eqn:Eb; [injection E; lia|].
    destruct overflow_checks; [done|]. injection E as <-. apply Z.mod_pos_bound. lia. }
  rewrite in_i64_shiftr in *. rewrite Z.shiftr_shiftr, Z.add_comm, <- Z.shiftr_shiftr by lia.
  destruct Ha as [->| ->]; [left|right].
  - apply Z.shiftr_0_l.
  - rewrite Z.shiftr_div_pow2 by done. change (-1) with (- (1)).
    assert (0 < 2 ^ n) by (by apply Z.pow_pos_nonneg). symmetry.
    apply (Z.div_unique _ _ _ (2 ^ n - 1)); lia.
Qed.
Lemma returns_div a b : in_i64 a = true → returns_i64 (int_div 64 a b).
Proof.
  intros Ha v. unfold int_div. destruct (b =? 0); [done|].
  destruct (in_i64 (Z.quot a b)) eqn:E; [|done]. by intros [= <-].
Qed.
Lemma returns_rem a b : in_i64 a = true → returns_i64 (int_rem 64 a b).
Proof.
  intros Ha v. unfold int_rem. destruct (Z.eqb_spec b 0); [done|].
  destruct (in_i64 (Z.quot a b)); [|done]. intros [= <-].
  pose proof (Z.rem_bound_abs a b n). pose proof (Z.quot_rem' a b).
  pose proof (Z.rem_nonneg a b n). pose proof (Z.rem_nonpos a b n).
  apply i64_bounds in Ha. apply i64_bounds. unfold i64_MIN, i64_MAX in *.
  assert (Z.abs (Z.rem a b) ≤ Z.abs a); [|lia].
  rewrite <- Z.rem_abs by done. apply Z.rem_le; lia.
Qed.
Lemma returns_mod a b : in_i64 a = true → returns_i64 (int_mod a b).
Proof.
  intros Ha v. unfold int_mod. pose proof (returns_rem a b Ha) as Hr.
  destruct (negb _); [|apply Hr]. destruct (int_rem 64 a b) as [r|]; simpl; [|done].
  destruct (negb (r =? 0)); [apply returns_arith|apply Hr].
Qed.
Lemma returns_floor_div a b : in_i64 a = true → returns_i64 (int_floor_div a b).
Proof.
  intros Ha v. unfold int_floor_div. pose proof (returns_div a b Ha) as Hd.
  destruct (negb _); [|apply Hd]. destruct (int_rem 64 a b) as [r|]; simpl; [|done].
  destruct (negb (r =? 0)); [|apply Hd].
  destruct (int_div 64 a b); simpl; [apply returns_arith|done].
Qed.
End Wf.

#[export] Hint Resolve returns_arith returns_guard returns_shl returns_shr returns_div returns_rem
  returns_mod returns_floor_div land_in_i64 lxor_in_i64 f_to_i64_range : kcl.

Lemma wf_int z : in_i64 z = true → wf_value (ref_int z).
Proof. intros H. constructor; [done|]. by intros c ?%elem_of_nil. Qed.
Lemma wf_float f : wf_value (ref_float f).
Proof. constructor; [done|]. by intros c ?%elem_of_nil. Qed.
Lemma wf_str s : wf_value (ref_str s).
Proof. constructor; [done|]. by intros c ?%elem_of_nil. Qed.
Lemma wf_list l : (∀ v, v ∈ l → wf_value v) → wf_value (ref_list l).
Proof. intros H. by constructor. Qed.
Lemma wf_list_elem l v : wf_value (Ref (list_value l)) → v ∈ list_values l → wf_value v.
Proof. intros Hl Hv. by apply (wf_value_child _ _ Hl). Qed.

(** A result is well-formed when it is an integer the operation keeps in range,
    a float, a string, or a list of well-formed values. *)
Definition wf_result (r : Res ValueRef) : Prop := ∀ v, r = Ok v → wf_value v.

Lemma wf_result_int (m : Res Z) : returns_i64 m → wf_result (v ← m; Ok (ref_int v)).
Proof. intros H v. destruct m; simpl; [|done]. intros [= <-]. by apply wf_int, H. Qed.
Lemma wf_result_float (m : Res f64) : wf_result (v ← m; Ok (ref_float v)).
Proof. intros v. destruct m; simpl; [|done]. intros [= <-]. apply wf_float. Qed.
Lemma wf_result_str (m : Res string) : wf_result (v ← m; Ok (ref_str v)).
Proof. intros v. destruct m; simpl; [|done]. intros [= <-]. apply wf_str. Qed.
Lemma wf_result_seq {A} (m : Res A) r : wf_result r → wf_result (m;; r).
Proof. intros H v. destruct m; simpl; [apply H|done]. Qed.
Lemma wf_result_Ok v : wf_value v → wf_result (Ok v).
Proof. by intros ? w [= <-]. Qed.
Lemma wf_result_Panic p : wf_result (Panic p).
Proof. done. Qed.

Lemma wf_result_repeated acc l n :
  (∀ v, v ∈ acc → wf_value v) → (∀ v, v ∈ l → wf_value v) →
  wf_result (vs ← push_repeated acc l n; Ok (ref_list vs)).
Proof.
  intros Ha Hl v. unfold push_repeated. destruct (vec_is_empty l); simpl.
  { intros [= <-]. by apply wf_list. }
  destruct (_ <=? _); simpl; [|done]. intros [= <-]. apply wf_list.
  intros w [Hw|Hw]%elem_of_app; [by apply Ha|].
  apply list_elem_of_In, in_concat in Hw as (l' & Hl'%list_elem_of_In & Hw%list_elem_of_In).
  apply elem_of_replicate in Hl' as [-> _]. by apply Hl.
Qed.

Lemma wf_copies l v :
  wf_value (Ref (list_value l)) → v ∈ deep_copy <$> list_values l → wf_value v.
Proof.
  intros Hl (w & -> & Hw)%list_elem_of_fmap_1. apply deep_copy_wf. by apply (wf_list_elem l).
Qed.

#[export] Hint Resolve wf_int wf_float wf_str wf_result_int wf_result_float wf_result_str
  wf_result_seq wf_result_Ok wf_result_Panic wf_result_repeated wf_copies wf_list_elem : kcl.

Section Operators.
Context {HP : Profile} {HC : ContextConfig} (powf : f64 → f64 → f64).

(** The binary operators, and their in-place forms. *)
Definition bin_ops : list (ValueRef → ValueRef → Res ValueRef) :=
  [bin_add; bin_sub; bin_mul; bin_div; bin_mod; bin_pow powf; bin_floor_div; bin_bit_lshift;
   bin_bit_rshift; bin_bit_and; bin_bit_xor].
Definition bin_aug_ops : list (ValueRef → ValueRef → Res ValueRef) :=
  [bin_aug_add; bin_aug_sub; bin_aug_mul; bin_aug_div; bin_aug_mod; bin_aug_pow powf;
   bin_aug_floor_div; bin_aug_bit_lshift; bin_aug_bit_rshift; bin_aug_bit_and; bin_aug_bit_xor].

Lemma wf_append a b :
  wf_value (Ref (list_value a)) → wf_value (Ref (list_value b)) →
  wf_value (ref_list (list_values a ++ list_values b)).
Proof. intros Ha Hb. apply wf_list. intros v [?|?]%elem_of_app; eauto with kcl. Qed.

(** Type safety of the operators: on well-formed operands every binary
    operator and every in-place operator that returns, in every configuration
    and build profile, returns a well-formed value; in particular an integer
    result is a 64-bit integer. *)
Theorem bin_ops_wf self x op :
  wf_value self → wf_value x → op ∈ bin_ops ++ bin_aug_ops → wf_result (op self x).
Proof.
  intros Hs Hx Hop. assert (wf_cell (rc self)) as Hcs by auto with kcl.
  assert (wf_cell (rc x)) as Hcx by auto with kcl.
  destruct self as [a], x as [b]. unfold bin_ops, bin_aug_ops in Hop. cbn [app rc] in *.
  repeat (apply elem_of_cons in Hop as [->|Hop]); [..|by apply elem_of_nil in Hop];
    unfold bin_add, bin_sub, bin_mul, bin_div, bin_mod, bin_pow, bin_floor_div, bin_bit_lshift,
      bin_bit_rshift, bin_bit_and, bin_bit_xor, bin_aug_add, bin_aug_sub, bin_aug_mul, bin_aug_div,
      bin_aug_mod, bin_aug_pow, bin_aug_floor_div, bin_aug_bit_lshift, bin_aug_bit_rshift,
      bin_aug_bit_and, bin_aug_bit_xor, unsupported_bin_op, int_add, int_sub, int_mul, int_pow,
      int_lshift, int_rshift;
    cbn [rc]; destruct a, b; cbn [wf_cell] in *; eauto 6 using wf_append, elem_of_nil with kcl.
Qed.
End Operators.

(** ** In-place operators against the binary ones *)

Section InPlace.
Context {HP : Profile} {HC : ContextConfig} (powf : f64 → f64 → f64).

Lemma shift_amount_usize a b w :
  guard_int (is_i32_overflow_shl a b) (is_i64_overflow_shl a b) w I64Overflow (int_shl 64 a b) =
  guard_int (is_i32_overflow_shl a b) (is_i64_overflow_shl a b) w I64Overflow
    (int_shl 64 a (as_usize b)) ∧
  guard_int (is_i32_overflow_shr a b) (is_i64_overflow_shr a b) w I64Overflow (int_shr 64 a b) =
  guard_int (is_i32_overflow_shr a b) (is_i64_overflow_shr a b) w I64Overflow
    (int_shr 64 a (as_usize b)).
Proof.
  rewrite shr_overflow32, shr_overflow64.
  split; apply guard_int_irrel; intros H1 H2; pose proof (shl_amount_ok a b H1 H2);
    (replace (as_usize b) with b; [done|]; symmetry; apply Z.mod_small;
     change (2 ^ 64) with 18446744073709551616; lia).
Qed.

(** The operators whose in-place form does the same on operands of one kind. *)
Definition same_kind_ops : list ((ValueRef → ValueRef → Res ValueRef) *
                                 (ValueRef → ValueRef → Res ValueRef)) :=
  [(bin_add, bin_aug_add); (bin_sub, bin_aug_sub); (bin_mul, bin_aug_mul); (bin_mod, bin_aug_mod);
   (bin_pow powf, bin_aug_pow powf); (bin_bit_lshift, bin_aug_bit_lshift);
   (bin_bit_rshift, bin_aug_bit_rshift); (bin_bit_xor, bin_aug_bit_xor)].

(** On operands of the same kind, the in-place forms of [+ - * % ** << >> ^]
    give the result of the binary operator, panics included; so does [//=] on
    integers and [/=] on floats, and [&=] up to the message of its panic. *)
Theorem aug_same_kind self x :
  kind self = kind x →
  (∀ p, p ∈ same_kind_ops → p.1 self x = p.2 self x) ∧
  (kind x = KInt → bin_floor_div self x = bin_aug_floor_div self x) ∧
  (kind x = KFloat → bin_div self x = bin_aug_div self x) ∧
  same_result (bin_bit_and self x) (bin_aug_bit_and self x).
Proof.
  intros Hk. unfold kind in Hk.
  split_and!.
  - intros p Hp. unfold same_kind_ops in Hp.
    repeat (apply elem_of_cons in Hp as [->|Hp]); [..|by apply elem_of_nil in Hp]; cbn [fst snd].
    6-7: unfold bin_bit_lshift, bin_aug_bit_lshift, bin_bit_rshift, bin_aug_bit_rshift,
           int_lshift, int_rshift; destruct (rc self), (rc x); try done;
         f_equal; apply shift_amount_usize.
    all: unfold bin_add, bin_aug_add, bin_sub, bin_aug_sub, bin_mul, bin_aug_mul, bin_mod,
           bin_aug_mod, bin_pow, bin_aug_pow, bin_bit_xor, bin_aug_bit_xor;
         destruct (rc self), (rc x); done.
  - unfold kind, bin_floor_div, bin_aug_floor_div. by destruct (rc self), (rc x).
  - unfold kind, bin_div, bin_aug_div. by destruct (rc self), (rc x).
  - unfold bin_bit_and, bin_aug_bit_and. by destruct (rc self), (rc x).
Qed.
End InPlace.

Lemma aug_same_kind_witness :
  let p := {| overflow_checks := true |} in
  let c := {| debug_mode := false; strict_range_check := false; disable_schema_check := false |} in
  (∀ p, p ∈ same_kind_ops f_add → p.1 (ref_int 5) (ref_int 3) = p.2 (ref_int 5) (ref_int 3)) ∧
  bin_floor_div (ref_int 5) (ref_int 3) = bin_aug_floor_div (ref_int 5) (ref_int 3).
Proof.
  intros p c. destruct (aug_same_kind f_add (ref_int 5) (ref_int 3) eq_refl) as (H1 & H2 & _).
  exact (conj H1 (H2 eq_refl)).
Defined.

Lemma bin_ops_wf_witness :
  let p := {| overflow_checks := false |} in
  let c := {| debug_mode := false; strict_range_check := false; disable_schema_check := false |} in
  wf_result (bin_add (ref_list [ref_int 1]) (ref_list [ref_str "a"])).
Proof.
  intros p c. apply (bin_ops_wf f_add _ _ bin_add); [concrete|concrete|left].
Defined.

(** Where they differ: an integer stays an integer, truncating the float on the
    right; [//=] on floats does not round; [/=] on integers truncates; [*= 0]
    keeps a list as it is. *)
Example aug_differs :
  let p := {| overflow_checks := true |} in
  let c := {| debug_mode := false; strict_range_check := false; disable_schema_check := false |} in
  let half := f_of_mant 1 (-1) in
  bin_add (ref_int 1) (ref_float half) = Ok (ref_float (f_of_mant 3 (-1))) ∧
  bin_aug_add (ref_int 1) (ref_float half) = Ok (ref_int 1) ∧
  bin_floor_div (ref_float (f_of_int 3)) (ref_int 2) = Ok (ref_float (f_of_int 1)) ∧
  bin_aug_floor_div (ref_float (f_of_int 3)) (ref_int 2) = Ok (ref_float (f_of_mant 3 (-1))) ∧
  bin_div (ref_int 1) (ref_int 2) = Ok (ref_float half) ∧
  bin_aug_div (ref_int 1) (ref_int 2) = Ok (ref_int 0) ∧
  bin_mul (ref_list [ref_int 1]) (ref_int 0) = Ok (ref_list []) ∧
  bin_aug_mul (ref_list [ref_int 1]) (ref_int 0) = Ok (ref_list [ref_int 1]).
Proof. vm_compute. split_and!; reflexivity. Qed.

(** The 64-bit check of [-] names the wrong width; [<<] loses the bits it shifts
    out; [+] checks a float result against the 32-bit range only when exactly
    one operand is an integer. *)
Example range_check_gaps :
  let p := {| overflow_checks := true |} in
  let c := {| debug_mode := false; strict_range_check := false; disable_schema_check := false |} in
  let big := f_of_mant 1 200 in
  int_sub i64_MIN 1 = Panic (I32Overflow (i64_MIN - 1)) ∧
  int_add i64_MAX 1 = Panic (I64Overflow (i64_MAX + 1)) ∧
  int_lshift 3 63 = Ok i64_MIN ∧
  bin_add (ref_float big) (ref_int 1) = Panic F32Overflow ∧
  is_Ok (bin_add (ref_float big) (ref_float big)) = true ∧
  is_Ok (bin_sub (ref_float big) (ref_int 1)) = true.
Proof. vm_compute. split_and!; reflexivity. Qed.
