(* ===== verification/UnionOps.v ===== *)
(** * The union of configurations

    [value/val_union.rs], the [|] operator of [value/val_bin.rs] and
    [value/val_bin_aug.rs], and the operations of [value/val_dict.rs] and
    [value/val_bin.rs] that are unions: [dict_insert], [dict_merge],
    [dict_insert_unpack], [dict_set_value], [bin_subscr_set].

    The union recurses on the delta.  Its operands are read as trees: the left
    one has just been copied by the callers that need it, and the shortcut for
    two references to the same cell is not taken. *)

From stdpp Require Import base tactics list strings numbers pretty.
From Stdlib Require Import ZArith Lia.
From S2P Require Import Prelude MachineInt IndexMap Str Float64 Value Cmp ListOps DictOps.
From S2P Require Import Arith.
Local Open Scope Z_scope.

Record UnionContext := MkUnionContext {
  path_backtrace : list string;
  conflict : bool;
  obj_json : string;
  delta_json : string }.

Definition UnionContext_default : UnionContext := MkUnionContext [] false "" "".

Record UnionOptions := MkUnionOptions {
  list_override : bool;
  idempotent_check : bool;
  config_resolve : bool }.

Definition UnionOptions_default : UnionOptions := MkUnionOptions false true true.

(** [union_context.path_backtrace.push(p)] *)
Definition push_path (p : string) (uc : UnionContext) : UnionContext :=
  MkUnionContext (path_backtrace uc ++ [p]) (conflict uc) (obj_json uc) (delta_json uc).

Definition quoted (s : string) : string := DQUOTE +:+ s +:+ DQUOTE.
Definition NEWLINE : string := String (Ascii.ascii_of_nat 10) EmptyString.

(** A step of the loop over the delta entries: the new dictionary, the new
    context, and whether the closure has returned. *)
Abbreviation Step := (DictValue ValueRef * UnionContext * bool)%type.

Section Union.
Context {HP : Profile} {HC : ContextConfig}.
(** [value.to_json_string()] prints a scalar with [serde_json]. *)
Variable to_json_string : ValueRef → string.
(** The compiled schemas registered in the context by their runtime type: what
    calling the constructor function of a schema returns for a config and the
    instance's positional and keyword arguments. The function is generated code
    (or a closure of the evaluator); [resolve_schema] calls it twice through the
    same argument list, first to compute the attributes and then to build the
    instance, and the parameter is the value of the second call. *)
Variable all_schemas : string → option (ValueRef → ValueRef → ValueRef → Res ValueRef).

(** [resolve_schema] of [val_type.rs]: builds the instance anew from the entries
    at [keys], all of them taken as overrides. *)
Definition resolve_schema (schema : ValueRef) (keys : list string) : Res ValueRef :=
  match rc schema with
  | schema_value s =>
      match all_schemas (schema_runtime_type (schema_name s) (schema_pkgpath s)) with
      | Some schema_fn =>
          config ← dict_get_entries_with_op schema keys Override;
          schema_fn config (args s) (kwargs s)
      | None => Ok schema
      end
  | _ => Ok schema
  end.

Section DoUnion.
Variable opts : UnionOptions.

Definition brief (v : ValueRef) : string :=
  if is_config v then "{...}" else if is_list v then "[...]" else to_json_string v.

(** The conflict recorded for the origin value [value] and the delta value
    [v]. *)
Definition set_conflict (path : string) (value v : ValueRef) (uc : UnionContext) : UnionContext :=
  MkUnionContext (path_backtrace uc ++ [path]) true (brief value) (brief v).

Definition put_value (k : string) (v : ValueRef) (obj : DictValue ValueRef) : DictValue ValueRef :=
  set_values (map_insert k v) obj.

Definition only_list (what : string) {A} (index : Z) : Res A :=
  Panic (PanicMsg ("only list attribute can be " +:+ what +:+ " value with the index " +:+
                   pretty index)).
Definition only_non_empty_list {A} (index : Z) : Res A :=
  Panic (PanicMsg ("only non-empty list attribute can be union value with the index " +:+
                   pretty index)).

(** [for v in vs { l.insert(i, v.clone()); i += 1 }] *)
Fixpoint insert_all (i : nat) (vs l : list ValueRef) : Res (list ValueRef) :=
  match vs with
  | [] => Ok l
  | v :: vs => l ← vec_insert i v l; insert_all (S i) vs l
  end.

Section Entries.
(** The recursive call: [union v value] is [value.union(ctx, v, false, ..)]. *)
Variable union : ValueRef → ValueRef → UnionContext → Res (ValueRef * UnionContext).
Variable delta : DictValue ValueRef.

(** [ConfigEntryOperationKind::Union] with an insert index. *)
Definition union_at (k : string) (v : ValueRef) (index : Z) (obj : DictValue ValueRef)
    (uc : UnionContext) : Res Step :=
  match map_get k (values obj) with
  | Some origin_value =>
      if negb (is_list origin_value) then only_list "union" index
      else
        value ← list_get origin_value index;
        match value with
        | Some value =>
            if idempotent_check opts && negb (value_subsume v value false) then
              Ok (obj, set_conflict (k +:+ "[" +:+ pretty index +:+ "]") value v uc, true)
            else
              '(union_value, uc) ← union v value uc;
              if conflict uc then Ok (obj, push_path k uc, true)
              else
                n ← len origin_value;
                i ← must_normalize_index index n;
                origin_value ← list_set origin_value (Z.to_nat i) union_value;
                Ok (put_value k origin_value obj, uc, false)
        | None => only_non_empty_list index
        end
  | None => only_non_empty_list index
  end.

(** [ConfigEntryOperationKind::Union] without an index. *)
Definition union_key (k : string) (v : ValueRef) (obj : DictValue ValueRef)
    (uc : UnionContext) : Res Step :=
  match map_get k (values obj) with
  | Some obj_value =>
      if idempotent_check opts && negb (value_subsume v obj_value false) then
        Ok (obj, set_conflict k obj_value v uc, true)
      else
        '(obj_value, uc) ← union v obj_value uc;
        if conflict uc then Ok (put_value k obj_value obj, push_path k uc, true)
        else Ok (put_value k obj_value obj, uc, false)
  | None => Ok (put_value k v obj, uc, false)
  end.

(** [ConfigEntryOperationKind::Override] with an index. *)
Definition override_at (k : string) (v : ValueRef) (index : Z) (obj : DictValue ValueRef)
    (uc : UnionContext) : Res Step :=
  match map_get k (values obj) with
  | Some origin_value =>
      if negb (is_list origin_value) then only_list "override" index
      else
        n ← len origin_value;
        i ← must_normalize_index index n;
        origin_value ← (if is_undefined v then list_remove_at origin_value (Z.to_nat i)
                        else list_must_set origin_value (Z.to_nat i) v);
        Ok (put_value k origin_value obj, uc, false)
  | None => only_list "override" index
  end.

(** [ConfigEntryOperationKind::Insert]. *)
Definition insert_key (k : string) (v : ValueRef) (index : option Z) (obj : DictValue ValueRef)
    (uc : UnionContext) : Res Step :=
  let origin_value := match map_get k (values obj) with
                      | Some o => if is_none_or_undefined o then ref_list [] else o
                      | None => ref_list []
                      end in
  match rc origin_value, rc v with
  | list_value origin, list_value value =>
      vs ← match index with
           | Some index =>
               i ← must_normalize_index index (Z.of_nat (length (list_values origin)));
               insert_all (Z.to_nat i) (list_values value) (list_values origin)
           | None => Ok (list_values origin ++ list_values value)
           end;
      Ok (put_value k (ref_list vs) obj, uc, false)
  | _, _ => Panic BorrowError
  end.

Definition union_step (k : string) (v : ValueRef) (obj : DictValue ValueRef) (uc : UnionContext)
    : Res Step :=
  let index := map_get k (insert_indexs delta) in
  if negb (contains_key k (values obj)) && negb (is_some index)
  then Ok (put_value k v obj, uc, false)
  else
    match entry_op delta k, index with
    | Union, Some index => union_at k v index obj uc
    | Union, None => union_key k v obj uc
    | Override, Some index => override_at k v index obj uc
    | Override, None => Ok (put_value k v obj, uc, false)
    | Insert, index => insert_key k v index obj uc
    end.

Fixpoint union_entries (es : IndexMap string ValueRef) (obj : DictValue ValueRef)
    (uc : UnionContext) : Res (DictValue ValueRef * UnionContext) :=
  match es with
  | [] => Ok (obj, uc)
  | (k, v) :: es =>
      step ← union_step k v obj uc;
      let '(obj, uc, stop) := (step : Step) in
      if stop then Ok (obj, uc) else union_entries es obj uc
  end.

(** The closure [union_fn]. *)
Definition union_fn (obj : DictValue ValueRef) (uc : UnionContext)
    : Res (DictValue ValueRef * UnionContext) :=
  union_entries (values delta)
    (MkDict (values obj) (map_extend (ops obj) (ops delta))
       (map_extend (insert_indexs obj) (insert_indexs delta)) (attr_map obj)
       (potential_schema delta) (schema_args obj)) uc.
End Entries.

(** The loop over two lists, from index [idx]. *)
Section Lists.
Variable union : ValueRef → ValueRef → UnionContext → Res (ValueRef * UnionContext).
Fixpoint union_lists (idx : nat) (delta obj : list ValueRef) (uc : UnionContext)
    : Res (list ValueRef * UnionContext) :=
  match obj, delta with
  | [], delta => Ok (delta, uc)
  | obj, [] => Ok (obj, uc)
  | o :: obj, d :: delta =>
      '(o, uc) ← union d o uc;
      let uc := if conflict uc then push_path ("list[" +:+ pretty (Z.of_nat idx) +:+ "]") uc
                else uc in
      '(os, uc) ← union_lists (S idx) delta obj uc;
      Ok (o :: os, uc)
  end.
End Lists.

(** What follows the merge of two configs one of which is a schema instance:
    [result] is the merged left operand, [x] the right one. *)
Definition finish_schema (result x : ValueRef) (name pkgpath : string) (common_keys : list string)
    (new_args new_kwargs : ValueRef) : Res ValueRef :=
  let mapping := if is_schema result then schema_optional_mapping result
                 else schema_optional_mapping x in
  schema ← dict_to_schema (set_schema_args result new_args new_kwargs) name pkgpath common_keys
             (schema_config_meta x) mapping (Some new_args) (Some new_kwargs);
  if config_resolve opts then resolve_schema schema common_keys else Ok schema.

Definition keys_of (d : DictValue ValueRef) : list string := (values d).*1.

(** [do_union(self, x)] *)
Definition do_union_with
    (union : ValueRef → ValueRef → UnionContext → Res (ValueRef * UnionContext))
    (x self : ValueRef) (uc : UnionContext) : Res (ValueRef * UnionContext) :=
  match rc self, rc x with
  | list_value obj, list_value delta =>
      if list_override opts then Ok (self, uc)
      else
        '(vs, uc) ← union_lists union 0 (list_values delta) (list_values obj) uc;
        Ok (ref_list vs, uc)
  | dict_value obj, dict_value delta =>
      '(obj, uc) ← union_fn union delta obj uc;
      Ok (Ref (dict_value obj), uc)
  | schema_value obj, dict_value delta =>
      '(c, uc) ← union_fn union delta (config obj) uc;
      let result := Ref (schema_value (set_config c obj)) in
      if conflict uc then Ok (result, uc)
      else
        r ← finish_schema result x (schema_name obj) (schema_pkgpath obj)
              (config_keys obj ++ keys_of delta) (args obj) (kwargs obj);
        Ok (r, uc)
  | schema_value obj, schema_value delta =>
      '(c, uc) ← union_fn union (config delta) (config obj) uc;
      let result := Ref (schema_value (set_config c obj)) in
      if conflict uc then Ok (result, uc)
      else
        r ← finish_schema result x (schema_name obj) (schema_pkgpath obj)
              (config_keys obj ++ config_keys delta) (args delta) (kwargs delta);
        Ok (r, uc)
  | dict_value obj, schema_value delta =>
      '(c, uc) ← union_fn union (config delta) obj uc;
      let result := Ref (dict_value c) in
      if conflict uc then Ok (result, uc)
      else
        r ← finish_schema result x (schema_name delta) (schema_pkgpath delta)
              (config_keys delta ++ keys_of c) (args delta) (kwargs delta);
        Ok (r, uc)
  | _, _ => Panic (PanicMsg ("union failure, expect " +:+ quoted (type_str self) +:+ ", got " +:+
                             quoted (type_str x)))
  end.

(** [union(self, x, or_mode)].  [or_mode] is set only by the outermost call. *)
Definition union_with
    (union : ValueRef → ValueRef → UnionContext → Res (ValueRef * UnionContext))
    (or_mode : bool) (x self : ValueRef) (uc : UnionContext) : Res (ValueRef * UnionContext) :=
  if is_none_or_undefined self then Ok (x, uc)
  else if is_none_or_undefined x then Ok (self, uc)
  else if is_list_or_config self && is_list_or_config x then do_union_with union x self uc
  else if or_mode then
    match rc self, rc x with
    | int_value a, int_value b => Ok (ref_int (Z.lor a b), uc)
    | _, _ => Panic (PanicMsg ("unsupported operand type(s) for |: '" +:+ quoted (type_str self) +:+
                               "' and '" +:+ quoted (type_str x) +:+ "'"))
    end
  else Ok (x, uc).

(** The recursion is on the delta [x]: every recursive call is on an entry or an
    element of it. *)
Fixpoint union (x self : ValueRef) (uc : UnionContext) {struct x}
    : Res (ValueRef * UnionContext) :=
  union_with union false x self uc.
End DoUnion.

(** The panic of [union_entry] on a conflict.  The path was recorded from the
    inside out; its first element is the attribute in conflict. *)
Definition conflict_message (uc : UnionContext) : Res string :=
  conflict_key ← unwrap (head (path_backtrace uc));
  let path_string := String.concat "." (reverse (path_backtrace uc)) in
  let note :=
    "    {...} | {" +:+ NEWLINE +:+ "            ..." +:+ NEWLINE +:+ "            " +:+
    conflict_key +:+ " = " +:+ delta_json uc +:+ NEWLINE +:+ "            ..." +:+ NEWLINE +:+
    "    }" in
  Ok (if str_is_empty conflict_key
      then "conflicting values between " +:+ delta_json uc +:+ " and " +:+ obj_json uc
      else
        "conflicting values on the attribute '" +:+ conflict_key +:+ "' between :" +:+ NEWLINE +:+
        "    " +:+ obj_json uc +:+ NEWLINE +:+ "and" +:+ NEWLINE +:+ "    " +:+ delta_json uc +:+
        NEWLINE +:+ "with union path :" +:+ NEWLINE +:+ "    " +:+ path_string +:+ NEWLINE +:+
        "try operator '=' to override the attribute, like:" +:+ NEWLINE +:+ note).

Definition union_entry (self x : ValueRef) (or_mode : bool) (opts : UnionOptions)
    : Res ValueRef :=
  '(ret, uc) ← union_with opts (union opts) or_mode x self UnionContext_default;
  if conflict uc then msg ← conflict_message uc; Panic (PanicMsg msg) else Ok ret.

(** ** Callers *)

Definition bin_bit_or (self x : ValueRef) : Res ValueRef :=
  match rc self, rc x with
  | int_value a, int_value b => Ok (ref_int (Z.lor a b))
  | _, _ => union_entry (deep_copy self) x true UnionOptions_default
  end.

Definition bin_aug_bit_or (self x : ValueRef) : Res ValueRef :=
  match rc self, rc x with
  | int_value a, int_value b => Ok (ref_int (Z.lor a b))
  | _, _ =>
      if is_list_or_config self || is_list_or_config x
      then union_entry self x true UnionOptions_default
      else unsupported_bin_op "|" self x
  end.

Definition bin_aug_union_with (self x : ValueRef) : Res ValueRef := bin_aug_bit_or self x.

(** The check of an integer entry in debug mode. *)
Definition check_entry_int (v : ValueRef) : Res unit :=
  match rc v with
  | int_value x =>
      if debug_mode then
        if strict_range_check_32 then
          if negb (x =? as_i32 x) then Panic (I32Overflow x) else Ok tt
        else if strict_range_check_64 && negb (x =? as_i64 x) then Panic (I64Overflow x)
        else Ok tt
      else Ok tt
  | _ => Ok tt
  end.

Definition dict_merge_key_value_pair (self : ValueRef) (key : string) (v : ValueRef)
    (op : ConfigEntryOperationKind) (insert_index : option Z) (idempotent_check : bool)
    : Res ValueRef :=
  check_entry_int v;;
  if is_config self then
    let dict := MkDict [(key, v)] [(key, op)]
                  (match insert_index with Some i => [(key, i)] | None => [] end) [] None None in
    union_entry self (Ref (dict_value dict)) true (MkUnionOptions false idempotent_check false)
  else Panic (PanicMsg ("invalid dict insert value: " +:+ type_str self)).

Definition dict_insert (self : ValueRef) (key : string) (v : ValueRef)
    (op : ConfigEntryOperationKind) (insert_index : option Z) : Res ValueRef :=
  dict_merge_key_value_pair self key v op insert_index true.

Definition dict_merge (self : ValueRef) (key : string) (v : ValueRef)
    (op : ConfigEntryOperationKind) (insert_index : option Z) : Res ValueRef :=
  dict_merge_key_value_pair self key v op insert_index false.

(** [to_string v] stands for the [Display] form of the value in the message. *)
Definition dict_insert_unpack (to_string : ValueRef → string) (self v : ValueRef)
    : Res ValueRef :=
  match is_config self, rc v with
  | true, (dict_value _ | schema_value _) =>
      d ← schema_to_dict v; bin_aug_bit_or self (deep_copy d)
  | true, (none | undefined) => Ok self
  | _, _ => Panic (PanicMsg
      ("only list, dict and schema object can be used with unpack operators * and **, got " +:+
       to_string v))
  end.

Definition dict_set_value (self : ValueRef) (key : string) (val : ValueRef) : Res ValueRef :=
  if is_config self then
    p ← dict_update_key_value self key val;
    match rc p with
    | schema_value s =>
        schema ← resolve_schema p (config_keys s ++ [key]);
        Ok (schema_update_with_schema p schema)
    | _ => Ok p
    end
  else Panic (PanicMsg
    ("failed to update the dict. An iterable of key-value pairs was expected, but got " +:+
     type_str self +:+
     ". Check if the syntax for updating the dictionary with the attribute '" +:+ key +:+
     "' is correct")).

Definition bin_subscr_set (self x v : ValueRef) : Res ValueRef :=
  if is_list self && is_int x then list_set_value self x v
  else if is_config self && is_str x then dict_set_value self (as_str x) v
  else Panic (PanicMsg ("'" +:+ type_str self +:+ "' object is not subscriptable with '" +:+
                        type_str x +:+ "'")).

(** [kcl_value_union_all] of [collection/mod.rs], applied to its first argument. *)
Definition union_all (arg : option ValueRef) : Res ValueRef :=
  match arg with
  | Some arg =>
      if negb (is_truthy arg) || negb (is_list arg) then Ok (ref_dict [])
      else
        value ← as_list_ref arg;
        match list_values value with
        | [] => Ok (ref_dict [])
        | v :: vs => foldl (λ acc v, result ← acc; bin_aug_union_with result v) (Ok (deep_copy v)) vs
        end
  | None => Panic (PanicMsg "union_all() takes at least 1 argument (0 given)")
  end.

End Union.

(** ** Lemmas *)

Section UnionLemmas.
Context {HP : Profile} {HC : ContextConfig}.
Variable to_json_string : ValueRef → string.
Variable all_schemas : string → option (ValueRef → ValueRef → ValueRef → Res ValueRef).
Variable opts : UnionOptions.

Abbreviation uni := (union to_json_string all_schemas opts).
Abbreviation uni_with := (union_with to_json_string all_schemas opts).
Abbreviation do_uni := (do_union_with to_json_string all_schemas opts).
Abbreviation entries := (union_entries to_json_string opts).
Abbreviation entry_step := (union_step to_json_string opts).

Lemma union_unfold x self uc : uni x self uc = uni_with uni false x self uc.
Proof. by destruct x. Qed.

(** *** The context changes only by a conflict *)

(** [uc'] is [uc], or reports a conflict. *)
Definition uc_grows (uc uc' : UnionContext) : Prop := uc' = uc ∨ conflict uc' = true.

Lemma uc_grows_refl uc : uc_grows uc uc.
Proof. by left. Qed.
Lemma uc_grows_trans uc1 uc2 uc3 : uc_grows uc1 uc2 → uc_grows uc2 uc3 → uc_grows uc1 uc3.
Proof. intros [->|H1] [->|H2]; unfold uc_grows; auto. Qed.
Lemma uc_grows_push uc uc' p : uc_grows uc uc' → conflict uc' = true → uc_grows uc (push_path p uc').
Proof. intros _ H. by right. Qed.

Definition union_grows (u : ValueRef → ValueRef → UnionContext → Res (ValueRef * UnionContext))
    (x : ValueRef) : Prop :=
  ∀ self uc r uc', u x self uc = Ok (r, uc') → uc_grows uc uc'.

Lemma union_step_grows u delta k v obj uc obj' uc' stop :
  union_grows u v → entry_step u delta k v obj uc = Ok (obj', uc', stop) → uc_grows uc uc'.
Proof.
  intros Hu. unfold union_step.
  destruct (_ && _); [intros [= <- <- <-]; apply uc_grows_refl|].
  destruct (entry_op delta k), (map_get k (insert_indexs delta)) as [i|].
  - unfold union_at. destruct (map_get k (values obj)) as [o|]; [|done].
    destruct (negb (is_list o)); [done|]. destruct (list_get o i) as [[w|]|]; [|done..]. simpl.
    destruct (_ && _); [intros [= <- <- <-]; by right|].
    destruct (u v w uc) as [[r uc1]|] eqn:E; simpl; [|done]. apply Hu in E.
    destruct (conflict uc1) eqn:Ec; [intros [= <- <- <-]; by right|].
    destruct (len o); simpl; [|done]. destruct (must_normalize_index _ _); simpl; [|done].
    destruct (list_set _ _ _); simpl; [|done]. by intros [= <- <- <-].
  - unfold union_key. destruct (map_get k (values obj)) as [o|].
    2: { intros [= <- <- <-]. apply uc_grows_refl. }
    destruct (_ && _); [intros [= <- <- <-]; by right|].
    destruct (u v o uc) as [[r uc1]|] eqn:E; simpl; [|done]. apply Hu in E.
    destruct (conflict uc1) eqn:Ec; [intros [= <- <- <-]; by right|]. by intros [= <- <- <-].
  - unfold override_at. destruct (map_get k (values obj)) as [o|]; [|done].
    destruct (negb (is_list o)); [done|]. destruct (len o); simpl; [|done].
    destruct (must_normalize_index _ _); simpl; [|done].
    destruct (if is_undefined v then _ else _); simpl; [|done].
    intros [= <- <- <-]. apply uc_grows_refl.
  - intros [= <- <- <-]. apply uc_grows_refl.
  - unfold insert_key. destruct (rc _), (rc v); try done.
    destruct (must_normalize_index _ _); simpl; [|done].
    destruct (insert_all _ _ _); simpl; [|done]. intros [= <- <- <-]. apply uc_grows_refl.
  - unfold insert_key. destruct (rc _), (rc v); try done.
    simpl. intros [= <- <- <-]. apply uc_grows_refl.
Qed.

Lemma union_entries_grows u delta es obj uc obj' uc' :
  (∀ v, v ∈ es.*2 → union_grows u v) →
  entries u delta es obj uc = Ok (obj', uc') → uc_grows uc uc'.
Proof.
  revert obj uc. induction es as [|[k v] es IH]; intros obj uc Hu; cbn [union_entries].
  { intros [= <- <-]. apply uc_grows_refl. }
  destruct (entry_step u delta k v obj uc) as [[[obj1 uc1] stop]|] eqn:E; cbn [mbind Res_bind]; [|done].
  apply union_step_grows in E; [|apply Hu; by left].
  destruct stop; [by intros [= <- <-]|]. intros H. eapply uc_grows_trans; [exact E|].
  apply (IH obj1 uc1); [|done]. intros w Hw. apply Hu. by right.
Qed.

Lemma union_lists_grows u idx delta obj uc vs uc' :
  (∀ v, v ∈ delta → union_grows u v) →
  union_lists u idx delta obj uc = Ok (vs, uc') → uc_grows uc uc'.
Proof.
  revert idx obj uc vs. induction delta as [|d delta IH]; intros idx obj uc vs Hu.
  { destruct obj; intros [= <- <-]; apply uc_grows_refl. }
  destruct obj as [|o obj]; [intros [= <- <-]; apply uc_grows_refl|]. cbn [union_lists].
  destruct (u d o uc) as [[r uc1]|] eqn:E; cbn [mbind Res_bind]; [|done].
  apply Hu in E; [|by left].
  destruct (union_lists u (S idx) delta obj _) as [[os uc2]|] eqn:E2; cbn [mbind Res_bind]; [|done].
  intros [= <- <-]. apply IH in E2; [|intros w Hw; apply Hu; by right].
  eapply uc_grows_trans; [exact E|]. destruct (conflict uc1) eqn:Ec; [|done].
  destruct E2 as [->|E2]; by right.
Qed.

Lemma do_union_grows u x self uc r uc' :
  (∀ v, v ∈ children x → union_grows u v) →
  do_uni u x self uc = Ok (r, uc') → uc_grows uc uc'.
Proof.
  intros Hu. unfold do_union_with, union_fn. unfold children in Hu.
  destruct (rc self) as [| |?|?|?|?|p|p|p|?|? ? ?], (rc x) as [| |?|?|?|?|q|q|q|?|? ? ?]; try done.
  - destruct (list_override opts); [intros [= <- <-]; apply uc_grows_refl|].
    destruct (union_lists _ _ _ _ _) as [[vs uc1]|] eqn:E; cbn [mbind Res_bind]; [|done].
    intros [= <- <-]. by apply union_lists_grows in E.
  - destruct (union_entries _ _ _ _ _) as [[d uc1]|] eqn:E; cbn [mbind Res_bind]; [|done].
    intros [= <- <-]. by apply union_entries_grows in E.
  - destruct (union_entries _ _ _ _ _) as [[d uc1]|] eqn:E; cbn [mbind Res_bind]; [|done].
    apply union_entries_grows in E; [|done].
    destruct (conflict uc1); [by intros [= <- <-]|].
    destruct (finish_schema _ _ _ _ _ _ _ _ _); cbn [mbind Res_bind]; [|done]. by intros [= <- <-].
  - destruct (union_entries _ _ _ _ _) as [[d uc1]|] eqn:E; cbn [mbind Res_bind]; [|done].
    apply union_entries_grows in E; [|done].
    destruct (conflict uc1); [by intros [= <- <-]|].
    destruct (finish_schema _ _ _ _ _ _ _ _ _); cbn [mbind Res_bind]; [|done]. by intros [= <- <-].
  - destruct (union_entries _ _ _ _ _) as [[d uc1]|] eqn:E; cbn [mbind Res_bind]; [|done].
    apply union_entries_grows in E; [|done].
    destruct (conflict uc1); [by intros [= <- <-]|].
    destruct (finish_schema _ _ _ _ _ _ _ _ _); cbn [mbind Res_bind]; [|done]. by intros [= <- <-].
Qed.

Lemma union_with_grows u or_mode x self uc r uc' :
  (∀ v, v ∈ children x → union_grows u v) →
  uni_with u or_mode x self uc = Ok (r, uc') → uc_grows uc uc'.
Proof.
  intros Hu. unfold union_with.
  destruct (is_none_or_undefined self); [intros [= <- <-]; apply uc_grows_refl|].
  destruct (is_none_or_undefined x); [intros [= <- <-]; apply uc_grows_refl|].
  destruct (is_list_or_config self && is_list_or_config x); [by apply do_union_grows|].
  destruct or_mode; [|intros [= <- <-]; apply uc_grows_refl].
  destruct (rc self), (rc x); try done. intros [= <- <-]. apply uc_grows_refl.
Qed.

Lemma union_grows_all x : union_grows uni x.
Proof.
  induction x as [x IH] using ValueRef_ind. intros self uc r uc'. rewrite union_unfold.
  by apply union_with_grows.
Qed.

Lemma union_quiet x self uc r uc' :
  uni x self uc = Ok (r, uc') → conflict uc' = false → uc' = uc.
Proof. intros H Hc. destruct (union_grows_all x self uc r uc' H) as [?|?]; congruence. Qed.
End UnionLemmas.

(** *** Merging entries, key by key *)

Section Pointwise.
Context {HP : Profile} {HC : ContextConfig}.
Variable to_json_string : ValueRef → string.
Variable all_schemas : string → option (ValueRef → ValueRef → ValueRef → Res ValueRef).
Variable opts : UnionOptions.
Abbreviation uni := (union to_json_string all_schemas opts).
Abbreviation entries := (union_entries to_json_string opts).

(** What merging [v] into the present value [o] by a union gives: under the
    idempotent check the values must subsume one another. *)
Definition unites (uc : UnionContext) (o v r : ValueRef) : Prop :=
  (idempotent_check opts = true → value_subsume v o false = true) ∧ uni v o uc = Ok (r, uc).

(** The place of the index [i], counted from the end when negative. *)
Definition place (i : Z) (n p : nat) : Prop :=
  Z.of_nat p = if i <? 0 then i + Z.of_nat n else i.

(** The list that an insertion extends. *)
Definition grown (o : option ValueRef) : option (list ValueRef) :=
  match o with
  | None => Some []
  | Some o => if is_none_or_undefined o then Some []
              else match rc o with list_value l => Some (list_values l) | _ => None end
  end.

(** What merging the entry [v] of the delta at [k] into the value [o] that the
    left operand has there gives, for each operator, without and with an insert
    index. *)
Definition merges (delta : DictValue ValueRef) (uc : UnionContext) (k : string)
    (o : option ValueRef) (v r : ValueRef) : Prop :=
  match map_get k (insert_indexs delta), entry_op delta k, o with
  | None, Override, _ | None, _, None => r = v
  | None, Union, Some o => unites uc o v r
  | None, Insert, Some _ =>
      ∃ xs vs, grown o = Some xs ∧ v = ref_list vs ∧ r = ref_list (xs ++ vs)
  | Some i, Insert, _ =>
      ∃ xs vs p, grown o = Some xs ∧ v = ref_list vs ∧ place i (length xs) p ∧
        (vs = [] ∨ (p <= length xs)%nat) ∧ r = ref_list (take p xs ++ vs ++ drop p xs)
  | Some i, Union, Some o =>
      ∃ xs p x u, o = ref_list xs ∧ place i (length xs) p ∧ xs !! p = Some x ∧
        unites uc x v u ∧ r = ref_list (<[p := u]> xs)
  | Some i, Override, Some o =>
      ∃ xs p, o = ref_list xs ∧ place i (length xs) p ∧ (p < length xs)%nat ∧
        r = ref_list (if is_undefined v then delete p xs else <[p := v]> xs)
  | Some _, _, None => False
  end.

(** The dictionary [d] is [obj] with the entries [es] of [delta] merged in. *)
Definition merged (delta : DictValue ValueRef) (uc : UnionContext)
    (es obj d : IndexMap string ValueRef) : Prop :=
  d.*1 = obj.*1 ++ filter (λ k, k ∉ obj.*1) es.*1 ∧
  ∀ k, match map_get k es with
       | None => map_get k d = map_get k obj
       | Some v => ∃ r, merges delta uc k (map_get k obj) v r ∧ map_get k d = Some r
       end.

(** The indexes are 32-bit integers, and the lists that they index in [obj] are
    short enough for them. *)
Definition indexable (delta : DictValue ValueRef) (ks : list string)
    (obj : IndexMap string ValueRef) : Prop :=
  ∀ k i, k ∈ ks → map_get k (insert_indexs delta) = Some i →
    in_i32 i = true ∧
    ∀ l, map_get k obj = Some (Ref (list_value l)) →
      Z.of_nat (length (list_values l)) ≤ 2147483647.

Lemma insert_all_Ok i vs l r :
  insert_all i vs l = Ok r → (vs = [] ∨ (i <= length l)%nat) ∧ r = take i l ++ vs ++ drop i l.
Proof.
  revert i l. induction vs as [|v vs IH]; intros i l; cbn [insert_all].
  { intros [= <-]. split; [by left|]. by rewrite app_nil_l, take_drop. }
  unfold vec_insert. destruct (Nat.leb_spec i (length l)); cbn [mbind Res_bind]; [|done].
  intros [_ ->]%IH. split; [by right|].
  assert (length (take i l) = i) by (rewrite length_take; lia).
  assert (S i = length (take i l ++ [v])) as Hn by (rewrite length_app; simpl; lia).
  rewrite (cons_middle v (take i l)), (app_assoc (take i l) [v]).
  rewrite (take_app_length' _ _ _ Hn), (drop_app_length' _ _ _ Hn). by rewrite <- app_assoc.
Qed.

Lemma list_get_Ok l i x :
  in_i32 i = true → Z.of_nat (length (list_values l)) ≤ 2147483647 →
  list_get (Ref (list_value l)) i = Ok (Some x) →
  ∃ p, place i (length (list_values l)) p ∧ list_values l !! p = Some x.
Proof.
  intros Hi%i32_bounds Hl. unfold list_get, isize_index, place. cbn [rc].
  assert (∀ z, 0 ≤ z ≤ 2147483647 → as_usize z = z) as Hu.
  { intros z Hz. apply Z.mod_small. change (2 ^ 64) with 18446744073709551616. lia. }
  destruct (Z.ltb_spec i 0).
  - rewrite arith_Ok.
    2: { unfold in_int, int_min, int_max. change (2 ^ (64 - 1)) with 9223372036854775808. lia. }
    cbn [mbind Res_bind]. destruct (vec_is_empty (list_values l)); cbn [negb]; [done|].
    destruct (Z.leb_spec 0 (i + Z.of_nat (length (list_values l)))).
    + rewrite Hu by lia. unfold index. destruct (_ !! _) as [y|] eqn:E; [|done].
      intros [= ->]. eexists. split; [|exact E]. lia.
    + unfold index. rewrite lookup_ge_None_2; [done|]. unfold wrap_uint.
      change (2 ^ 64) with 18446744073709551616.
      rewrite (Z.mod_eq _ 18446744073709551616) by lia.
      replace ((i + Z.of_nat (length (list_values l))) / 18446744073709551616) with (-1); [lia|].
      apply (Z.div_unique_pos _ _ _ (i + Z.of_nat (length (list_values l)) + 18446744073709551616)); lia.
  - cbn [mbind Res_bind]. destruct (vec_is_empty (list_values l)); cbn [negb]; [done|].
    rewrite Hu by lia. unfold index. destruct (_ !! _) as [y|] eqn:E; [|done].
    intros [= ->]. eexists. split; [|exact E]. lia.
Qed.

Lemma normalized_place i n p :
  in_i32 i = true → Z.of_nat n ≤ 2147483647 →
  must_normalize_index i (Z.of_nat n) = Ok p → place i n (Z.to_nat p).
Proof.
  intros Hi Hn. rewrite must_normalize_index_spec by (done || lia). unfold place.
  destruct (Z.ltb_spec i 0).
  - destruct (Z.leb_spec 0 (i + Z.of_nat n)); [intros [= <-]; lia|done].
  - intros [= <-]. lia.
Qed.

Lemma place_det i n p q : place i n p → place i n q → p = q.
Proof. unfold place. lia. Qed.

Lemma is_list_inv o : is_list o = true → ∃ xs, o = ref_list xs.
Proof. destruct o as [[| |?|?|?|?|[l]|?|?|?|? ? ?]]; try done. by exists l. Qed.

Lemma map_insert_present {A} (m : IndexMap string A) k (v : A) :
  k ∈ m.*1 → (map_insert k v m).*1 = m.*1.
Proof. intros H. rewrite map_insert_keys. by rewrite decide_True. Qed.

Lemma union_at_place i k v obj uc obj' uc' stop :
  in_i32 i = true →
  (∀ l, map_get k (values obj) = Some (Ref (list_value l)) →
     Z.of_nat (length (list_values l)) ≤ 2147483647) →
  union_at to_json_string opts uni k v i obj uc = Ok (obj', uc', stop) → conflict uc' = false →
  uc' = uc ∧ stop = false ∧
  ∃ xs p x u, map_get k (values obj) = Some (ref_list xs) ∧ place i (length xs) p ∧
    xs !! p = Some x ∧ unites uc x v u ∧ obj' = put_value k (ref_list (<[p := u]> xs)) obj.
Proof.
  intros Hi Hlen. unfold union_at. destruct (map_get k (values obj)) as [o|]; [|done].
  destruct (is_list o) eqn:Eo; cbn [negb]; [|done]. apply is_list_inv in Eo as [xs ->].
  specialize (Hlen _ eq_refl). cbn [list_values] in Hlen.
  destruct (list_get _ i) as [[x|]|] eqn:Eg; cbn [mbind Res_bind]; [|done..].
  apply list_get_Ok in Eg as (p & Hp & Hx); [|done..].
  destruct (idempotent_check opts && negb (value_subsume v x false)) eqn:Es.
  { by intros [= <- <- <-]. }
  destruct (uni v x uc) as [[u uc1]|] eqn:E; cbn [mbind Res_bind]; [|done].
  destruct (conflict uc1) eqn:Ec; [intros [= <- <- <-]; unfold push_path; simpl; congruence|].
  cbn [len ref_list rc mbind Res_bind].
  destruct (must_normalize_index _ _) as [q|] eqn:En; cbn [mbind Res_bind]; [|done].
  apply normalized_place in En; [|done..]. rewrite (place_det _ _ _ _ En Hp).
  unfold list_set. cbn [ref_list rc]. cbn [list_values] in *.
  apply lookup_lt_Some in Hx as Hlt. rewrite (proj2 (Nat.ltb_lt _ _) Hlt).
  cbn [mbind Res_bind]. intros [= <- <- <-] _.
  pose proof (union_quiet _ _ _ _ _ _ _ _ E Ec) as ->.
  split_and!; [done..|]. exists xs, p, x, u. split_and!; try done. split; [|done].
  intros Hid. rewrite Hid in Es. simpl in Es. by destruct (value_subsume v x false).
Qed.

Lemma override_at_place i k v obj uc obj' uc' stop :
  in_i32 i = true →
  (∀ l, map_get k (values obj) = Some (Ref (list_value l)) →
     Z.of_nat (length (list_values l)) ≤ 2147483647) →
  override_at k v i obj uc = Ok (obj', uc', stop) →
  uc' = uc ∧ stop = false ∧
  ∃ xs p, map_get k (values obj) = Some (ref_list xs) ∧ place i (length xs) p ∧
    (p < length xs)%nat ∧
    obj' = put_value k (ref_list (if is_undefined v then delete p xs else <[p := v]> xs)) obj.
Proof.
  intros Hi Hlen. unfold override_at. destruct (map_get k (values obj)) as [o|]; [|done].
  destruct (is_list o) eqn:Eo; cbn [negb]; [|done]. apply is_list_inv in Eo as [xs ->].
  specialize (Hlen _ eq_refl). cbn [len ref_list rc mbind Res_bind list_values] in *.
  destruct (must_normalize_index _ _) as [q|] eqn:En; cbn [mbind Res_bind]; [|done].
  apply normalized_place in En; [|done..].
  unfold list_remove_at, list_must_set, vec_remove. cbn [ref_list rc list_values].
  destruct (Nat.ltb_spec (Z.to_nat q) (length xs)); [|by destruct (is_undefined v)].
  destruct (is_undefined v); cbn [fmap Res_fmap mbind Res_bind]; intros [= <- <- <-];
    (split_and!; [done..|]); exists xs, (Z.to_nat q); rewrite ?delete_take_drop; by split_and!.
Qed.

Lemma insert_key_grown index k v obj uc obj' uc' stop :
  insert_key k v index obj uc = Ok (obj', uc', stop) →
  uc' = uc ∧ stop = false ∧
  ∃ xs vs rs, grown (map_get k (values obj)) = Some xs ∧ v = ref_list vs ∧
    obj' = put_value k (ref_list rs) obj ∧
    match index with
    | None => rs = xs ++ vs
    | Some i => ∃ q, must_normalize_index i (Z.of_nat (length xs)) = Ok q ∧
        insert_all (Z.to_nat q) vs xs = Ok rs
    end.
Proof.
  unfold insert_key. set (o := match map_get k (values obj) with Some _ => _ | None => _ end).
  assert (∀ l, rc o = list_value l → grown (map_get k (values obj)) = Some (list_values l)) as Hg.
  { subst o. unfold grown. destruct (map_get k (values obj)) as [o|].
    - destruct (is_none_or_undefined o); [by intros l [= <-]|by intros l ->].
    - by intros l [= <-]. }
  destruct (rc o) as [| |?|?|?|?|l|?|?|?|? ? ?] eqn:Eo; try done. specialize (Hg l eq_refl).
  destruct v as [[| |?|?|?|?|[vs]|?|?|?|? ? ?]]; cbn [rc]; try done. cbn [list_values].
  destruct index as [i|]; cbn [mbind Res_bind].
  - destruct (must_normalize_index _ _) as [q|] eqn:En; cbn [mbind Res_bind]; [|done].
    destruct (insert_all _ _ _) as [rs|] eqn:Ei; cbn [mbind Res_bind]; [|done].
    intros [= <- <- <-]. split_and!; [done..|]. exists (list_values l), vs, rs.
    split_and!; [done..|]. by exists q.
  - intros [= <- <- <-]. split_and!; [done..|]. by exists (list_values l), vs, (list_values l ++ vs).
Qed.

Lemma grown_short o xs :
  (∀ l, o = Some (Ref (list_value l)) → Z.of_nat (length (list_values l)) ≤ 2147483647) →
  grown o = Some xs → Z.of_nat (length xs) ≤ 2147483647.
Proof.
  intros Hl. destruct o as [[[| |?|?|?|?|l|?|?|?|? ? ?]]|]; cbn; try done;
    intros [= <-]; try (simpl; lia). by apply Hl.
Qed.

(** One entry: the context is unchanged, and the key gets the merged value. *)
Lemma union_step_merges delta k v obj uc obj' uc' stop :
  indexable delta [k] (values obj) →
  union_step to_json_string opts uni delta k v obj uc = Ok (obj', uc', stop) →
  conflict uc' = false →
  uc' = uc ∧ stop = false ∧
  ∃ r, obj' = put_value k r obj ∧ merges delta uc k (map_get k (values obj)) v r.
Proof.
  intros Hix. specialize (Hix k). unfold union_step, merges, contains_key.
  destruct (map_get k (insert_indexs delta)) as [i|] eqn:Ei; cbn [is_some negb].
  - rewrite andb_false_r. destruct (Hix i) as [Hi Hlen]; [by left|done|].
    destruct (entry_op delta k).
    + intros H Hc. apply union_at_place in H as (-> & -> & xs & p & x & u & -> & ? & ? & ? & ->); try done.
      split_and!; [done..|]. eexists. split; [done|]. by exists xs, p, x, u.
    + intros H Hc. apply override_at_place in H as (-> & -> & xs & p & -> & ? & ? & ->); try done.
      split_and!; [done..|]. eexists. split; [done|]. by exists xs, p.
    + intros H Hc. apply insert_key_grown in H as (-> & -> & xs & vs & rs & Hg & -> & -> & q & Hq & Hr).
      split_and!; [done..|]. eexists. split; [done|]. apply insert_all_Ok in Hr as [Hp ->].
      apply normalized_place in Hq; [|done|by eapply grown_short].
      by exists xs, vs, (Z.to_nat q).
  - destruct (map_get k (values obj)) as [o|] eqn:Eo; cbn [is_some negb andb].
    2: { intros [= <- <- <-] _. split_and!; [done..|]. exists v. by destruct (entry_op delta k). }
    destruct (entry_op delta k).
    + unfold union_key. rewrite Eo.
      destruct (idempotent_check opts && negb (value_subsume v o false)) eqn:Es.
      { by intros [= <- <- <-]. }
      destruct (uni v o uc) as [[r uc1]|] eqn:E; cbn [mbind Res_bind]; [|done].
      destruct (conflict uc1) eqn:Ec; [intros [= <- <- <-]; unfold push_path; simpl; congruence|].
      intros [= <- <- <-] _. pose proof (union_quiet _ _ _ _ _ _ _ _ E Ec) as ->.
      split_and!; [done..|]. exists r. split; [done|]. split; [|done].
      intros Hid. rewrite Hid in Es. simpl in Es. by destruct (value_subsume v o false).
    + intros [= <- <- <-] _. split_and!; [done..|]. by exists v.
    + intros H Hc. apply insert_key_grown in H as (-> & -> & xs & vs & rs & Hg & -> & -> & ->).
      split_and!; [done..|]. eexists. split; [done|]. rewrite Eo in Hg. by exists xs, vs.
Qed.

Lemma union_entries_merged delta es obj uc obj' uc' :
  indexable delta es.*1 (values obj) → NoDup es.*1 →
  entries uni delta es obj uc = Ok (obj', uc') → conflict uc' = false →
  uc' = uc ∧ merged delta uc es (values obj) (values obj') ∧
  obj' = set_values (λ _, values obj') obj.
Proof.
  revert obj uc. induction es as [|[k v] es IH]; intros obj uc Hix Hnd; cbn [union_entries].
  { intros [= <- <-] _. split_and!; [done| |by destruct obj]. split; [|done].
    simpl. by rewrite app_nil_r. }
  destruct (union_step _ _ _ _ _ _ _ _) as [[[obj1 uc1] stop]|] eqn:E; cbn [mbind Res_bind]; [|done].
  intros Hrest Hc. apply NoDup_cons in Hnd as [Hk Hnd].
  assert (conflict uc1 = false) as Hc1.
  { destruct stop; [by injection Hrest as <- <-|].
    destruct (conflict uc1) eqn:Hc1; [|done].
    apply union_entries_grows in Hrest; [|by intros; apply union_grows_all].
    destruct Hrest; congruence. }
  apply union_step_merges in E as (-> & -> & r & -> & Hm); [|intros k' i ->%list_elem_of_singleton; apply Hix; by left|done].
  apply IH in Hrest as (-> & [Hkeys Hget] & Hobj'); [| |done..].
  2: { intros k' i Hin Hi. destruct (Hix k' i) as [Hr Hl]; [by right|done|]. split; [done|].
       intros l. unfold put_value, set_values. simpl. rewrite map_get_insert_ne; [apply Hl|by intros ->]. }
  split_and!; [done| |rewrite Hobj'; done].
  unfold put_value, set_values in Hkeys, Hget. cbn [values] in Hkeys, Hget. split.
  - rewrite Hkeys. cbn [fmap list_fmap fst]. rewrite map_insert_keys, filter_cons.
    destruct (map_get k (values obj)) as [o|] eqn:Eo.
    + apply map_get_key in Eo. rewrite decide_True by done.
      rewrite (decide_False (P := k ∉ _)) by tauto. done.
    + apply map_get_None in Eo. rewrite decide_False by done. rewrite (decide_True (P := k ∉ _)) by done.
      rewrite <- app_assoc. simpl. f_equal. f_equal.
      apply filter_iff_in. intros k' Hk'. rewrite elem_of_app, list_elem_of_singleton.
      assert (k' ≠ k) by (intros ->; done). tauto.
  - intros k'. specialize (Hget k'). cbn [map_get]. destruct (decide (k' = k)) as [->|Hne].
    + rewrite map_get_insert_eq, (proj2 (map_get_None es k) Hk) in Hget. by exists r.
    + rewrite map_get_insert_ne in Hget by done. done.
Qed.
End Pointwise.

(** *** Idempotence *)

Fixpoint plain (v : ValueRef) : bool :=
  match v with
  | Ref (list_value l) => forallb plain (list_values l)
  | Ref (dict_value d) =>
      vec_is_empty (insert_indexs d) &&
      forallb (λ e, negb (bool_decide (entry_op d e.1 = Insert)) && plain e.2) (values d)
  | Ref (schema_value _) => false
  | _ => true
  end.

Lemma map_insert_same {A} (m : IndexMap string A) k v :
  map_get k m = Some v → map_insert k v m = m.
Proof.
  induction m as [|[k' v'] m IH]; simpl; [done|]. case_decide; [by intros [= ->]|].
  intros Hm. by rewrite IH.
Qed.

Lemma map_extend_same {A} (d m : IndexMap string A) :
  (∀ k v, (k, v) ∈ d → map_get k m = Some v) → map_extend m d = m.
Proof.
  induction d as [|[k v] d IH]; intros H; [done|]. unfold map_extend in *. cbn [foldl fst snd].
  rewrite map_insert_same by (apply H; by left). apply IH. intros. apply H. by right.
Qed.

Lemma map_extend_self {A} (m : IndexMap string A) : wf_map m → map_extend m m = m.
Proof. intros Hm. apply map_extend_same. intros k v. by apply in_map_get. Qed.

Lemma value_subsume_self v :
  wf_value v → self_equal v = true → value_subsume v v false = true.
Proof.
  intros Hv Hs. rewrite value_subsume_unfold. rewrite (cmp_equal_self v Hv), Hs.
  by rewrite orb_true_r.
Qed.

Section Idempotent.
Context {HP : Profile} {HC : ContextConfig}.
Variable to_json_string : ValueRef → string.
Variable all_schemas : string → option (ValueRef → ValueRef → ValueRef → Res ValueRef).
Variable opts : UnionOptions.
Abbreviation uni := (union to_json_string all_schemas opts).
Abbreviation entries := (union_entries to_json_string opts).

Lemma union_lists_self u l idx uc :
  conflict uc = false → (∀ v, v ∈ l → u v v uc = Ok (v, uc)) →
  union_lists u idx l l uc = Ok (l, uc).
Proof.
  intros Hc. revert idx. induction l as [|v l IH]; intros idx H; [done|]. cbn [union_lists].
  rewrite H by by left. cbn [mbind Res_bind]. rewrite Hc, IH; [done|].
  intros w Hw. apply H. by right.
Qed.

Lemma union_entries_self u delta es obj uc :
  conflict uc = false → insert_indexs delta = [] →
  (∀ k v, (k, v) ∈ es → map_get k (values obj) = Some v ∧ entry_op delta k ≠ Insert ∧
     value_subsume v v false = true ∧ u v v uc = Ok (v, uc)) →
  entries u delta es obj uc = Ok (obj, uc).
Proof.
  intros Hc Hi. induction es as [|[k v] es IH]; intros H; [done|]. cbn [union_entries].
  destruct (H k v) as (Hget & Hop & Hsub & Hu); [by left|].
  assert (put_value k v obj = obj) as Hput.
  { unfold put_value, set_values. rewrite map_insert_same by done. by destruct obj. }
  unfold union_step, contains_key. rewrite Hi, Hget. cbn [map_get is_some negb andb].
  destruct (entry_op delta k); [| |done].
  - unfold union_key. rewrite Hget, Hsub. cbn [negb]. rewrite andb_false_r, Hu.
    cbn [mbind Res_bind]. rewrite Hc, Hput. cbn [mbind Res_bind]. apply IH.
    intros k' v' Hin. apply H. by right.
  - rewrite Hput. cbn [mbind Res_bind]. apply IH. intros k' v' Hin. apply H. by right.
Qed.

Lemma plain_child v c : plain v = true → c ∈ children v → plain c = true.
Proof.
  destruct v as [[| |?|?|?|?|l|d|s|?|? ? ?]]; unfold children; cbn [plain rc]; try done;
    try (by intros _ ?%elem_of_nil).
  - apply forallb_elem.
  - rewrite andb_true_iff. intros [_ H] (e & -> & He)%list_elem_of_fmap_1.
    apply (forallb_elem _ _ _ H) in He. by apply andb_true_iff in He as [_ ?].
Qed.

Lemma self_equal_child v c : self_equal v = true → c ∈ children v → self_equal c = true.
Proof.
  destruct v as [[| |?|?|?|?|l|d|s|?|? ? ?]]; unfold children; cbn [self_equal rc];
    try (by intros _ ?%elem_of_nil).
  - apply forallb_elem.
  - intros H (e & -> & He)%list_elem_of_fmap_1. by apply (forallb_elem _ _ _ H) in He.
  - intros H (e & -> & He)%list_elem_of_fmap_1. by apply (forallb_elem _ _ _ H) in He.
Qed.

Lemma union_self v uc or_mode :
  wf_value v → plain v = true → self_equal v = true → conflict uc = false →
  is_list_or_config v || negb or_mode = true →
  union_with to_json_string all_schemas opts uni or_mode v v uc = Ok (v, uc).
Proof.
  revert or_mode. induction v as [v IH] using ValueRef_ind. intros or_mode Hv Hp Hs Hc Ho.
  assert (∀ c, c ∈ children v → uni c c uc = Ok (c, uc)) as Hch.
  { intros c Hin. rewrite union_unfold. apply IH; eauto using plain_child, self_equal_child with kcl.
    by rewrite orb_true_r. }
  assert (∀ c, c ∈ children v → value_subsume c c false = true) as Hsub.
  { intros c Hin. apply value_subsume_self; eauto using self_equal_child with kcl. }
  pose proof (wf_value_cell _ Hv) as Hcell. clear IH. unfold union_with.
  destruct v as [[| |?|?|?|?|l|d|s|?|? ? ?]]; cbn in Ho |- *; try (by destruct or_mode).
  - unfold do_union_with. cbn [rc]. destruct (list_override opts); [done|].
    rewrite union_lists_self by done. by destruct l.
  - unfold do_union_with, union_fn. cbn [rc wf_cell] in *. destruct Hcell as (Hvals & Hops & _ & _).
    cbn [plain] in Hp. apply andb_true_iff in Hp as [Hi Hp].
    destruct (insert_indexs d) as [|] eqn:Ei; [|done].
    rewrite (map_extend_self (ops d)) by done. cbn [map_extend foldl].
    rewrite union_entries_self; [cbn [mbind Res_bind]|done|done|].
    + do 3 f_equal. destruct d; simpl in *; congruence.
    + intros k v Hin. split; [by apply in_map_get|].
      pose proof (forallb_elem _ _ _ Hp Hin) as Hk. cbn [fst snd] in Hk.
      apply andb_true_iff in Hk as [Hk _].
      assert (v ∈ children (Ref (dict_value d))) as Hin' by by apply (list_elem_of_fmap_2 snd) in Hin.
      split_and!; [|by apply Hsub|by apply Hch]. by apply negb_true_iff, bool_decide_eq_false in Hk.
Qed.
End Idempotent.

(** *** Well-formedness *)

Section UnionWf.
Context {HP : Profile} {HC : ContextConfig}.
Variable to_json_string : ValueRef → string.
Variable all_schemas : string → option (ValueRef → ValueRef → ValueRef → Res ValueRef).
Variable opts : UnionOptions.
(** The compiled schemas build well-formed instances. *)
Hypothesis schemas_wf : ∀ name schema_fn, all_schemas name = Some schema_fn →
  ∀ c a k r, wf_value c → schema_fn c a k = Ok r → wf_value r.
Abbreviation uni := (union to_json_string all_schemas opts).
Abbreviation entries := (union_entries to_json_string opts).

(** A dictionary with its values: what makes a dictionary value well-formed. *)
Definition wf_entries (d : DictValue ValueRef) : Prop :=
  wf_dict d ∧ ∀ v, v ∈ (values d).*2 → wf_value v.

Definition union_wf_at (u : ValueRef → ValueRef → UnionContext → Res (ValueRef * UnionContext))
    (x : ValueRef) : Prop :=
  ∀ self uc r uc', wf_value x → wf_value self → u x self uc = Ok (r, uc') → wf_value r.

Lemma wf_put_value k v d : wf_entries d → wf_value v → wf_entries (put_value k v d).
Proof.
  intros [(? & ? & ? & ?) Hd] Hv. split.
  - unfold wf_dict. simpl. auto with kcl.
  - intros w. simpl. intros [Hw|Hw]%map_insert_vals; [by apply Hd|by subst].
Qed.

Lemma wf_of_list v l : wf_value v → rc v = list_value l → ∀ w, w ∈ list_values l → wf_value w.
Proof. intros Hv Hl w Hw. apply (wf_value_child v); [done|]. unfold children. by rewrite Hl. Qed.

Lemma wf_list_get o i w : wf_value o → list_get o i = Ok (Some w) → wf_value w.
Proof.
  intros Ho. unfold list_get. destruct (rc o) as [| |?|?|?|?|l|?|?|?|? ? ?] eqn:E; try discriminate.
  destruct (isize_index _ _) as [j|]; cbn [mbind Res_bind]; [|done].
  destruct (negb _); [|done]. unfold index.
  destruct (list_values l !! Z.to_nat j) eqn:El; [|done]. intros [= ->].
  apply (wf_of_list o l Ho E). by apply list_elem_of_lookup_2 in El.
Qed.

Lemma wf_list_set o i w r : wf_value o → wf_value w → list_set o i w = Ok r → wf_value r.
Proof.
  intros Ho Hw. unfold list_set. destruct (rc o) as [| |?|?|?|?|l|?|?|?|? ? ?] eqn:E; try discriminate.
  destruct (Nat.ltb _ _); intros [= <-]; [|done]. apply wf_list.
  intros x [j Hj]%list_elem_of_lookup_1. apply list_lookup_insert_Some in Hj as [(_ & <- & _)|(_ & Hj)];
    [done|]. apply (wf_of_list o l Ho E). by apply list_elem_of_lookup_2 in Hj.
Qed.

Lemma wf_list_must_set o i w r : wf_value o → wf_value w → list_must_set o i w = Ok r → wf_value r.
Proof.
  intros Ho Hw. unfold list_must_set.
  destruct (rc o) as [| |?|?|?|?|l|?|?|?|? ? ?] eqn:E; try discriminate.
  destruct (Nat.ltb i (length (list_values l))) eqn:El; [|done]. intros H.
  apply (wf_list_set o i w); [done..|]. unfold list_set. rewrite E, El. exact H.
Qed.

Lemma wf_list_remove_at o i r : wf_value o → list_remove_at o i = Ok r → wf_value r.
Proof.
  intros Ho. unfold list_remove_at. destruct (rc o) as [| |?|?|?|?|l|?|?|?|? ? ?] eqn:E; try discriminate.
  unfold vec_remove. destruct (Nat.ltb _ _); [|done]. intros [= <-]. apply wf_list.
  intros x [Hx|Hx]%elem_of_app; apply (wf_of_list o l Ho E).
  - by apply elem_take_in in Hx.
  - by apply elem_drop_in in Hx.
Qed.

Lemma insert_all_elem i vs l r x :
  insert_all i vs l = Ok r → x ∈ r → x ∈ vs ∨ x ∈ l.
Proof.
  revert i l. induction vs as [|v vs IH]; intros i l; simpl; [intros [= <-]; auto|].
  unfold vec_insert. destruct (Nat.leb _ _); simpl; [|done].
  intros H Hx. destruct (IH _ _ H Hx) as [Hin|Hin]; [left; by right|].
  apply elem_of_app in Hin as [Hin|Hin].
  - right. by apply elem_take_in in Hin.
  - apply elem_of_cons in Hin as [->|Hin]; [left; by left|].
    right. by apply elem_drop_in in Hin.
Qed.

Lemma wf_entries_get d k o : wf_entries d → map_get k (values d) = Some o → wf_value o.
Proof. intros [_ Hd] H%map_get_val. by apply Hd. Qed.

Lemma wf_insert_key k v index obj uc obj' uc' stop :
  wf_value v → wf_entries obj →
  insert_key k v index obj uc = Ok (obj', uc', stop) → wf_entries obj'.
Proof.
  intros Hv Hobj. unfold insert_key.
  set (o := match map_get k (values obj) with
            | Some o => if is_none_or_undefined o then ref_list [] else o
            | None => ref_list []
            end).
  assert (wf_value o) as Ho.
  { assert (wf_value (ref_list [])) as Hnil by (apply wf_list; by intros ? ?%elem_of_nil).
    unfold o. destruct (map_get k (values obj)) as [w|] eqn:E; [|done].
    destruct (is_none_or_undefined w); [done|]. by apply (wf_entries_get _ _ _ Hobj E). }
  clearbody o. destruct (rc o) as [| |?|?|?|?|lo|?|?|?|? ? ?] eqn:Eo; try discriminate.
  destruct (rc v) as [| |?|?|?|?|lv|?|?|?|? ? ?] eqn:Ev; try discriminate.
  assert (∀ vs, (∀ x, x ∈ vs → x ∈ list_values lv ∨ x ∈ list_values lo) →
    wf_entries (put_value k (ref_list vs) obj)) as Hput.
  { intros vs Hvs. apply wf_put_value; [done|]. apply wf_list. intros x [Hx|Hx]%Hvs.
    - by apply (wf_of_list v lv Hv Ev).
    - by apply (wf_of_list o lo Ho Eo). }
  destruct index as [i|]; cbn [mbind Res_bind].
  - destruct (must_normalize_index _ _) as [j|]; cbn [mbind Res_bind]; [|done].
    destruct (insert_all _ _ _) as [vs|] eqn:E; cbn [mbind Res_bind]; [|done].
    intros [= <- _ _]. apply Hput. intros x Hx. by apply (insert_all_elem _ _ _ _ _ E).
  - intros [= <- _ _]. apply Hput. intros x [?|?]%elem_of_app; auto.
Qed.

Lemma wf_union_step u delta k v obj uc obj' uc' stop :
  union_wf_at u v → wf_value v → wf_entries obj →
  union_step to_json_string opts u delta k v obj uc = Ok (obj', uc', stop) → wf_entries obj'.
Proof.
  intros Hu Hv Hobj. unfold union_step.
  destruct (_ && _); [intros [= <- _ _]; by apply wf_put_value|].
  destruct (entry_op delta k), (map_get k (insert_indexs delta)) as [i|].
  - unfold union_at. destruct (map_get k (values obj)) as [o|] eqn:Eo; [|done].
    pose proof (wf_entries_get _ _ _ Hobj Eo) as Ho.
    destruct (negb (is_list o)); [done|].
    destruct (list_get o i) as [[w|]|] eqn:El; cbn [mbind Res_bind]; [|done..].
    apply wf_list_get in El; [|done]. destruct (_ && _); [by intros [= <- _ _]|].
    destruct (u v w uc) as [[r uc1]|] eqn:E; cbn [mbind Res_bind]; [|done]. apply Hu in E; [|done..].
    destruct (conflict uc1); [by intros [= <- _ _]|].
    destruct (len o); cbn [mbind Res_bind]; [|done].
    destruct (must_normalize_index _ _) as [j|]; cbn [mbind Res_bind]; [|done].
    destruct (list_set _ _ _) eqn:Es; cbn [mbind Res_bind]; [|done]. intros [= <- _ _].
    apply wf_put_value; [done|]. by apply (wf_list_set _ _ _ _ Ho E Es).
  - unfold union_key. destruct (map_get k (values obj)) as [o|] eqn:Eo.
    2: { intros [= <- _ _]. by apply wf_put_value. }
    pose proof (wf_entries_get _ _ _ Hobj Eo) as Ho.
    destruct (_ && _); [by intros [= <- _ _]|].
    destruct (u v o uc) as [[r uc1]|] eqn:E; cbn [mbind Res_bind]; [|done]. apply Hu in E; [|done..].
    destruct (conflict uc1); intros [= <- _ _]; by apply wf_put_value.
  - unfold override_at. destruct (map_get k (values obj)) as [o|] eqn:Eo; [|done].
    pose proof (wf_entries_get _ _ _ Hobj Eo) as Ho.
    destruct (negb (is_list o)); [done|]. destruct (len o); cbn [mbind Res_bind]; [|done].
    destruct (must_normalize_index _ _) as [j|]; cbn [mbind Res_bind]; [|done].
    destruct (is_undefined v).
    + destruct (list_remove_at _ _) eqn:E; cbn [mbind Res_bind]; [|done]. intros [= <- _ _].
      apply wf_put_value; [done|]. by apply (wf_list_remove_at _ _ _ Ho E).
    + destruct (list_must_set _ _ _) eqn:E; cbn [mbind Res_bind]; [|done]. intros [= <- _ _].
      apply wf_put_value; [done|]. by apply (wf_list_must_set _ _ _ _ Ho Hv E).
  - intros [= <- _ _]. by apply wf_put_value.
  - by apply wf_insert_key.
  - by apply wf_insert_key.
Qed.

Lemma wf_union_entries u delta es obj uc obj' uc' :
  (∀ v, v ∈ es.*2 → union_wf_at u v ∧ wf_value v) → wf_entries obj →
  entries u delta es obj uc = Ok (obj', uc') → wf_entries obj'.
Proof.
  revert obj uc. induction es as [|[k v] es IH]; intros obj uc Hes Hobj; cbn [union_entries].
  { by intros [= <- _]. }
  destruct (union_step _ _ _ _ _ _ _ _) as [[[obj1 uc1] stop]|] eqn:E; cbn [mbind Res_bind]; [|done].
  destruct (Hes v) as [Hu Hv]; [by left|]. apply wf_union_step in E; [|done..].
  destruct stop; [by intros [= <- _]|]. apply IH; [|done]. intros w Hw. apply Hes. by right.
Qed.

Lemma wf_union_lists u idx delta obj uc vs uc' :
  (∀ v, v ∈ delta → union_wf_at u v ∧ wf_value v) → (∀ v, v ∈ obj → wf_value v) →
  union_lists u idx delta obj uc = Ok (vs, uc') → ∀ v, v ∈ vs → wf_value v.
Proof.
  revert idx obj uc vs uc'. induction delta as [|d delta IH]; intros idx obj uc vs uc' Hd Ho.
  { destruct obj; intros [= <- _]; auto. }
  destruct obj as [|o obj]; [intros [= <- _] v Hv; by apply Hd|]. cbn [union_lists].
  destruct (u d o uc) as [[r uc1]|] eqn:E; cbn [mbind Res_bind]; [|done].
  destruct (Hd d) as [Hu Hwd]; [by left|]. apply Hu in E; [|done|apply Ho; by left].
  destruct (union_lists u (S idx) delta obj _) as [[os uc2]|] eqn:E2; cbn [mbind Res_bind]; [|done].
  intros [= <- _] v [->|Hv]%elem_of_cons; [done|].
  eapply IH; [| |exact E2|done]; intros; [apply Hd|apply Ho]; by right.
Qed.

Lemma wf_map_extend {A} (m d : IndexMap string A) : wf_map m → wf_map (map_extend m d).
Proof. apply map_extend_wf. Qed.

Lemma wf_union_fn u delta obj uc obj' uc' :
  (∀ v, v ∈ (values delta).*2 → union_wf_at u v ∧ wf_value v) → wf_entries obj →
  union_fn to_json_string opts u delta obj uc = Ok (obj', uc') → wf_entries obj'.
Proof.
  intros Hes [(? & ? & ? & ?) Hobj]. unfold union_fn. apply wf_union_entries; [done|].
  split; [|done]. unfold wf_dict. simpl. auto using wf_map_extend.
Qed.

Lemma wf_dict_value d : wf_value (Ref (dict_value d)) ↔ wf_entries d.
Proof.
  split.
  - intros Hv. split; [by apply (wf_value_cell _ Hv)|]. intros v Hin. by apply (wf_value_child _ _ Hv).
  - intros [Hd Hv]. by constructor.
Qed.
Lemma wf_schema_value s : wf_value (Ref (schema_value s)) ↔ wf_entries (config s).
Proof.
  split.
  - intros Hv. split; [by apply (wf_value_cell _ Hv)|]. intros v Hin. by apply (wf_value_child _ _ Hv).
  - intros [Hd Hv]. by constructor.
Qed.

Lemma wf_pick_entries opf keys dict r :
  wf_entries dict → pick_entries opf keys dict = Ok r → wf_value r.
Proof.
  intros Hdict. unfold pick_entries.
  assert (∀ keys d, wf_entries d → ∃ d',
    foldl (λ acc key, d ← acc;
        match map_get key (values dict) with
        | Some value => dict_update_entry d key value (opf key) (map_get key (insert_indexs dict))
        | None => Ok d
        end) (Ok (Ref (dict_value d))) keys = Ok (Ref (dict_value d')) ∧ wf_entries d') as Hloop.
  { clear r keys. induction keys as [|k keys IH]; intros d Hd; [by exists d|].
    cbn [foldl mbind Res_bind]. destruct (map_get k (values dict)) as [v|] eqn:E; [|by apply IH].
    apply IH. destruct Hd as [(? & ? & ? & ?) Hd]. split.
    - unfold wf_dict, put_entry. simpl. split_and!; auto with kcl.
      destruct (map_get k (insert_indexs dict)); auto with kcl.
    - intros w. unfold put_entry. simpl. intros [Hw|Hw]%map_insert_vals; [by apply Hd|].
      subst. by apply (wf_entries_get dict k). }
  destruct (Hloop keys (MkDict [] [] [] [] None None)) as (d' & Hd' & Hwf).
  { split; [|by intros ? ?%elem_of_nil]. unfold wf_dict, wf_map. simpl. split_and!; constructor. }
  unfold ref_dict. cbn [map_extend foldl] in *. rewrite Hd'. cbn [mbind Res_bind]. intros [= <-].
  rewrite set_potential_of. apply wf_dict_value. destruct (str_is_empty _); [done|].
  by destruct Hwf as [(? & ? & ? & ?) ?].
Qed.

Lemma wf_resolve_schema v keys r :
  wf_value v → resolve_schema all_schemas v keys = Ok r → wf_value r.
Proof.
  intros Hv. unfold resolve_schema. destruct v as [[| |?|?|?|?|?|?|s|?|? ? ?]]; cbn [rc];
    try (by intros [= <-]).
  destruct (all_schemas _) as [schema_fn|] eqn:E; [|by intros [= <-]].
  unfold dict_get_entries_with_op. cbn [config_of rc].
  destruct (pick_entries _ keys (config s)) as [c|] eqn:Ec; cbn [mbind Res_bind]; [|done].
  apply (schemas_wf _ _ E). apply (wf_pick_entries _ _ _ _ (proj1 (wf_schema_value s) Hv) Ec).
Qed.

Lemma wf_finish_schema result x name pkgpath keys a k r :
  wf_value result →
  finish_schema all_schemas opts result x name pkgpath keys a k = Ok r → wf_value r.
Proof.
  intros Hr. unfold finish_schema.
  assert (∀ v, dict_to_schema (set_schema_args result a k) name pkgpath keys (schema_config_meta x)
    (if is_schema result then schema_optional_mapping result else schema_optional_mapping x)
    (Some a) (Some k) = Ok v → wf_value v) as Hs.
  { intros v. destruct result as [[| |?|?|?|?|?|d|s|?|? ? ?]]; cbn; try discriminate; intros [= <-].
    - apply wf_schema_value. by apply wf_dict_value in Hr.
    - by apply wf_schema_value; apply wf_schema_value in Hr. }
  destruct (dict_to_schema _ _ _ _ _ _ _ _) as [v|]; cbn [mbind Res_bind]; [|done].
  specialize (Hs v eq_refl). destruct (config_resolve opts); [by apply wf_resolve_schema|].
  by intros [= <-].
Qed.

Lemma wf_do_union u x self uc r uc' :
  (∀ v, v ∈ children x → union_wf_at u v ∧ wf_value v) → wf_value self →
  do_union_with to_json_string all_schemas opts u x self uc = Ok (r, uc') → wf_value r.
Proof.
  intros Hx Hs. unfold do_union_with. unfold children in Hx. destruct self as [cs], x as [cx].
  cbn [rc] in *.
  destruct cs as [| |?|?|?|?|p|p|p|?|? ? ?], cx as [| |?|?|?|?|q|q|q|?|? ? ?]; try discriminate.
  - destruct (list_override opts); [by intros [= <- _]|].
    destruct (union_lists _ _ _ _ _) as [[vs uc1]|] eqn:E; cbn [mbind Res_bind]; [|done].
    intros [= <- _]. apply wf_list. eapply wf_union_lists; [exact Hx| |exact E].
    intros v Hv. by apply (wf_list_elem p).
  - destruct (union_fn _ _ _ _ _ _) as [[d uc1]|] eqn:E; cbn [mbind Res_bind]; [|done].
    apply wf_union_fn in E; [|done|by apply wf_dict_value]. intros [= <- _]. by apply wf_dict_value.
  - destruct (union_fn _ _ _ _ _ _) as [[d uc1]|] eqn:E; cbn [mbind Res_bind]; [|done].
    apply wf_union_fn in E; [|done|by apply wf_dict_value]. apply wf_dict_value in E.
    destruct (conflict uc1); [by intros [= <- _]|].
    destruct (finish_schema _ _ _ _ _ _ _ _ _) eqn:Ef; cbn [mbind Res_bind]; [|done].
    intros [= <- _]. by apply wf_finish_schema in Ef.
  - destruct (union_fn _ _ _ _ _ _) as [[d uc1]|] eqn:E; cbn [mbind Res_bind]; [|done].
    apply wf_union_fn in E; [|done|by apply wf_schema_value].
    assert (wf_value (Ref (schema_value (set_config d p)))) as Hr by by apply wf_schema_value.
    destruct (conflict uc1); [by intros [= <- _]|].
    destruct (finish_schema _ _ _ _ _ _ _ _ _) eqn:Ef; cbn [mbind Res_bind]; [|done].
    intros [= <- _]. by apply wf_finish_schema in Ef.
  - destruct (union_fn _ _ _ _ _ _) as [[d uc1]|] eqn:E; cbn [mbind Res_bind]; [|done].
    apply wf_union_fn in E; [|done|by apply wf_schema_value].
    assert (wf_value (Ref (schema_value (set_config d p)))) as Hr by by apply wf_schema_value.
    destruct (conflict uc1); [by intros [= <- _]|].
    destruct (finish_schema _ _ _ _ _ _ _ _ _) eqn:Ef; cbn [mbind Res_bind]; [|done].
    intros [= <- _]. by apply wf_finish_schema in Ef.
Qed.

Lemma lor_in_i64 a b : in_i64 a = true → in_i64 b = true → in_i64 (Z.lor a b) = true.
Proof. rewrite !in_i64_shiftr, Z.shiftr_lor. intros [->| ->] [->| ->]; vm_compute; auto. Qed.

Lemma wf_union_with u or_mode x self uc r uc' :
  (∀ v, v ∈ children x → union_wf_at u v) → wf_value x → wf_value self →
  union_with to_json_string all_schemas opts u or_mode x self uc = Ok (r, uc') → wf_value r.
Proof.
  intros Hu Hx Hs. unfold union_with.
  destruct (is_none_or_undefined self); [by intros [= <- _]|].
  destruct (is_none_or_undefined x); [by intros [= <- _]|].
  destruct (is_list_or_config self && is_list_or_config x).
  { apply wf_do_union; [|done]. intros v Hv. split; [by apply Hu|]. by apply (wf_value_child x). }
  destruct or_mode; [|by intros [= <- _]]. apply wf_value_cell in Hx, Hs.
  destruct (rc self), (rc x); try discriminate. intros [= <- _]. apply wf_int.
  by apply lor_in_i64.
Qed.

Lemma wf_union x : union_wf_at uni x.
Proof.
  induction x as [x IH] using ValueRef_ind. intros self uc r uc' Hx Hs. rewrite union_unfold.
  by apply wf_union_with.
Qed.

Lemma wf_union_entry self x or_mode r :
  wf_value self → wf_value x →
  union_entry to_json_string all_schemas self x or_mode opts = Ok r → wf_value r.
Proof.
  intros Hs Hx. unfold union_entry. destruct (union_with _ _ _ _ _ _ _ _) as [[v uc]|] eqn:E;
    cbn [mbind Res_bind]; [|done].
  apply wf_union_with in E; [|intros; apply wf_union|done..].
  destruct (conflict uc); [|by intros [= <-]]. by destruct (conflict_message uc).
Qed.
End UnionWf.

(** ** Properties *)

Section UnionProperties.
Context {HP : Profile} {HC : ContextConfig}.
Variable to_json_string : ValueRef → string.
Variable all_schemas : string → option (ValueRef → ValueRef → ValueRef → Res ValueRef).

Abbreviation entry := (union_entry to_json_string all_schemas).

Lemma union_entry_Ok self x or_mode opts r :
  entry self x or_mode opts = Ok r →
  ∃ uc, union_with to_json_string all_schemas opts (union to_json_string all_schemas opts) or_mode
          x self UnionContext_default = Ok (r, uc) ∧ conflict uc = false.
Proof.
  unfold union_entry. destruct (union_with _ _ _ _ _ _ _ _) as [[v uc]|]; cbn [mbind Res_bind]; [|done].
  destruct (conflict uc) eqn:E; [by destruct (conflict_message uc)|]. intros [= <-]. by exists uc.
Qed.

(** C3: The union of two dictionaries, key by key, for all three operators, with
    and without insert indexes.  The result has the keys of the left operand in
    their order and then the new keys of the delta in theirs, and a key that the
    delta does not have keeps its value.  At a key of the delta, an entry without
    an index gives the delta's value when it is new or an override; a union the
    union of the two values, which under the idempotent check must subsume one
    another, so that no value is silently replaced; an insertion the present list
    with the delta's behind it.  An entry with an index, counted from the end when
    negative, unites, replaces or (by an undefined value) removes the element
    there, or inserts its list in front of it.  The lists that are indexed have
    lengths that fit the 32-bit indexes. *)
Theorem union_dict_pointwise obj delta or_mode opts r :
  indexable delta (values delta).*1 (values obj) → wf_map (values delta) →
  entry (Ref (dict_value obj)) (Ref (dict_value delta)) or_mode opts = Ok r →
  ∃ d, r = Ref (dict_value d) ∧
    merged to_json_string all_schemas opts delta UnionContext_default
      (values delta) (values obj) (values d) ∧
    ops d = map_extend (ops obj) (ops delta) ∧
    insert_indexs d = map_extend (insert_indexs obj) (insert_indexs delta) ∧
    potential_schema d = potential_schema delta ∧ attr_map d = attr_map obj.
Proof.
  intros Hix Hwf (uc & H & Hc)%union_entry_Ok. unfold union_with in H.
  cbn [is_none_or_undefined is_list_or_config rc andb] in H. unfold do_union_with, union_fn in H.
  cbn [rc] in H. destruct (union_entries _ _ _ _ _ _ _) as [[d uc1]|] eqn:E; cbn [mbind Res_bind] in H;
    [|done]. injection H as <- <-.
  apply union_entries_merged in E as (-> & Hm & Hd); [|done..].
  exists d. rewrite Hd. by split_and!.
Qed.

(** Union is idempotent: the union of a dictionary or list with itself is
    itself, down to its operators, when it is plain data: no schema instances, no
    insert indexes or insertions, no NaN and no number multipliers. *)
Theorem union_idempotent v or_mode opts :
  wf_value v → plain v = true → self_equal v = true → is_list_or_config v = true →
  entry v v or_mode opts = Ok v.
Proof.
  intros Hv Hp Hs Hl. unfold union_entry. rewrite union_self; try done.
  by rewrite Hl.
Qed.

(** Every union operation that returns keeps values well-formed, provided
    the compiled schemas build well-formed instances. *)
Theorem union_ops_wf self x :
  (∀ name schema_fn, all_schemas name = Some schema_fn →
     ∀ c a k r, wf_value c → schema_fn c a k = Ok r → wf_value r) →
  wf_value self → wf_value x →
  wf_result (bin_bit_or to_json_string all_schemas self x) ∧
  wf_result (bin_aug_bit_or to_json_string all_schemas self x) ∧
  (∀ key op, wf_result (dict_insert to_json_string all_schemas self key x op None)) ∧
  (∀ key op i, wf_result (dict_merge to_json_string all_schemas self key x op i)) ∧
  (∀ to_string, wf_result (dict_insert_unpack to_json_string all_schemas to_string self x)).
Proof.
  intros Hsch Hs Hx.
  assert (∀ a b m o, wf_value a → wf_value b → wf_result (entry a b m o)) as Hent.
  { intros a b m o Ha Hb r Hr. by apply (wf_union_entry _ _ _ Hsch _ _ _ _ Ha Hb Hr). }
  assert (∀ b, wf_value b → wf_result (bin_aug_bit_or to_json_string all_schemas self b)) as Haug.
  { intros b Hb. unfold bin_aug_bit_or. pose proof (wf_value_cell _ Hs) as Hcs.
    pose proof (wf_value_cell _ Hb) as Hcb.
    assert (wf_result (if is_list_or_config self || is_list_or_config b
      then entry self b true UnionOptions_default else unsupported_bin_op "|" self b)) as Hdef.
    { destruct (_ || _); [by apply Hent|done]. }
    destruct (rc self), (rc b); try exact Hdef. apply wf_result_Ok, wf_int. by apply lor_in_i64. }
  assert (∀ key op i ic, wf_result
    (dict_merge_key_value_pair to_json_string all_schemas self key x op i ic)) as Hmerge.
  { intros key op i ic. unfold dict_merge_key_value_pair. apply wf_result_seq.
    destruct (is_config self); [|done]. apply Hent; [done|]. apply wf_dict_value. split.
    - unfold wf_dict, wf_map. cbn [values ops insert_indexs attr_map].
      split_and!; [..|destruct i|constructor]; repeat constructor; by intros ?%elem_of_nil.
    - intros v. simpl. by intros ->%list_elem_of_singleton. }
  split_and!; [|by apply Haug|intros; apply Hmerge|intros; apply Hmerge|].
  - unfold bin_bit_or. pose proof (wf_value_cell _ Hs) as Hcs. pose proof (wf_value_cell _ Hx) as Hcx.
    assert (wf_result (entry (deep_copy self) x true UnionOptions_default)) as Hdef.
    { apply Hent; [by apply deep_copy_wf|done]. }
    destruct (rc self), (rc x); try exact Hdef. apply wf_result_Ok, wf_int. by apply lor_in_i64.
  - intros to_string. unfold dict_insert_unpack.
    destruct x as [[| |?|?|?|?|?|d|s|?|? ? ?]]; destruct (is_config self); cbn [rc];
      try apply wf_result_Panic; try (by apply wf_result_Ok);
      apply Haug, deep_copy_wf; [done|]. by apply wf_dict_value, wf_schema_value.
Qed.

(** Inserting an entry into a dictionary: a new key is appended; an override
    replaces the value; a union with a value that does not subsume the present
    one is a conflict, which panics, and otherwise it is the union of the two;
    inserting into a value that is no config panics. *)
Theorem dict_insert_spec d key v op :
  check_entry_int v = Ok tt →
  let self := Ref (dict_value d) in
  let put w := Ref (dict_value (MkDict (map_insert key w (values d)) (map_insert key op (ops d))
                 (insert_indexs d) (attr_map d) None (schema_args d))) in
  let insert := dict_insert to_json_string all_schemas self key v op None in
  match map_get key (values d), op with
  | None, _ => insert = Ok (put v)
  | Some _, Override => insert = Ok (put v)
  | Some o, Union =>
      if value_subsume v o false
      then ∀ r, insert = Ok r → ∃ w, r = put w ∧
             union to_json_string all_schemas (MkUnionOptions false true false) v o
               UnionContext_default = Ok (w, UnionContext_default)
      else ∃ msg, insert = Panic (PanicMsg msg)
  | Some _, Insert => True
  end.
Proof.
  intros Hchk. cbv zeta. unfold dict_insert, dict_merge_key_value_pair. rewrite Hchk.
  cbn [mbind Res_bind is_config rc]. unfold union_entry, union_with.
  cbn [is_none_or_undefined is_list_or_config rc andb]. unfold do_union_with, union_fn.
  cbn [rc values ops insert_indexs attr_map potential_schema schema_args union_entries].
  unfold union_step, contains_key, entry_op. cbn [map_get insert_indexs ops is_some negb values].
  rewrite decide_True by done. cbn [from_option id].
  destruct (map_get key (values d)) as [o|] eqn:E; cbn [negb andb]; [|reflexivity].
  destruct op; [|reflexivity|done]. unfold union_key. cbn [values]. rewrite E.
  cbn [idempotent_check andb].
  destruct (value_subsume v o false); cbn [negb].
  - intros r. destruct (union _ _ _ v o _) as [[w uc]|] eqn:Eu; cbn [mbind Res_bind]; [|done].
    destruct (conflict uc) eqn:Ec; cbn [mbind Res_bind].
    { change (conflict (push_path key uc)) with (conflict uc). rewrite Ec.
      by destruct (conflict_message (push_path key uc)). }
    pose proof (union_quiet _ _ _ _ _ _ _ _ Eu Ec) as ->.
    cbn [conflict UnionContext_default]. intros [= <-]. by exists w.
  - cbn [mbind Res_bind conflict set_conflict path_backtrace UnionContext_default].
    unfold conflict_message. cbn [path_backtrace set_conflict UnionContext_default app head unwrap mbind Res_bind].
    eexists. reflexivity.
Qed.
End UnionProperties.

(** ** Concrete runs *)

Module Runs.
#[export] Instance profile : Profile := {| overflow_checks := true |}.
#[export] Instance config : ContextConfig :=
  {| debug_mode := false; strict_range_check := false; disable_schema_check := false |}.
Definition json (v : ValueRef) : string :=
  match rc v with int_value z => pretty z | _ => "?" end.
Definition schemas (name : string) : option (ValueRef → ValueRef → ValueRef → Res ValueRef) :=
  if decide (name = "__main__.S") then Some (λ c _ _, Ok c) else None.
Definition server : ValueRef :=
  ref_dict [("name", ref_str "web"); ("ports", ref_list [ref_int 80]);
            ("limits", ref_dict [("cpu", ref_int 1)])].
Definition patch : ValueRef :=
  ref_dict [("limits", ref_dict [("mem", ref_int 2)]); ("ports", ref_list [ref_int 80]);
            ("image", ref_str "nginx")].
(** Ports inserted in front, the memory limit replaced by its place, counted from
    the end, and one limit more. *)
Definition upgrade : DictValue ValueRef :=
  MkDict [("ports", ref_list [ref_int 443; ref_int 8443]); ("sizes", ref_int 9);
          ("image", ref_str "nginx"); ("tags", ref_list [ref_str "b"])]
    [("ports", Insert); ("sizes", Override); ("tags", Insert)] [("ports", 0); ("sizes", -1)] [] None None.
Definition sized : ValueRef :=
  ref_dict [("name", ref_str "web"); ("sizes", ref_list [ref_int 1; ref_int 2]);
            ("ports", ref_list [ref_int 80]); ("tags", ref_list [ref_str "a"])].
Definition dict_of (v : ValueRef) : DictValue ValueRef := default dict_default (config_of v).
End Runs.
Import Runs.

(** Dictionaries and lists merge in depth, and values in conflict panic. *)
Example union_runs :
  bin_bit_or json schemas server patch =
    Ok (Ref (dict_value (MkDict
      [("name", ref_str "web"); ("ports", ref_list [ref_int 80]);
       ("limits", Ref (dict_value (MkDict [("cpu", ref_int 1); ("mem", ref_int 2)]
                                     [("cpu", Union)] [] [] None None)));
       ("image", ref_str "nginx")]
      [("name", Union); ("ports", Union); ("limits", Union)] [] [] None None))) ∧
  is_Ok (bin_bit_or json schemas (ref_dict [("a", ref_int 1)]) (ref_dict [("a", ref_int 2)])) = false ∧
  bin_bit_or json schemas (ref_list [ref_list []]) (ref_list [ref_dict []]) =
    Panic (PanicMsg ("union failure, expect " +:+ quoted "list" +:+ ", got " +:+ quoted "dict")).
Proof. vm_compute. split_and!; reflexivity. Qed.

Lemma union_dict_pointwise_witness :
  ∃ d, union_entry json schemas sized (Ref (dict_value upgrade)) true UnionOptions_default =
         Ok (Ref (dict_value d)) ∧
    values d =
      [("name", ref_str "web"); ("sizes", ref_list [ref_int 1; ref_int 9]);
       ("ports", ref_list [ref_int 443; ref_int 8443; ref_int 80]);
       ("tags", ref_list [ref_str "a"; ref_str "b"]); ("image", ref_str "nginx")] ∧
    merged json schemas UnionOptions_default upgrade UnionContext_default
      (values upgrade) (values (dict_of sized)) (values d).
Proof.
  destruct (union_entry json schemas sized (Ref (dict_value upgrade)) true UnionOptions_default)
    as [r|] eqn:E.
  2: { vm_compute in E. discriminate E. }
  destruct (union_dict_pointwise json schemas (dict_of sized) upgrade true
              UnionOptions_default r) as (d & -> & Hm & _).
  - intros k i Hk Hi.
    assert (k = "ports" ∧ i = 0 ∨ k = "sizes" ∧ i = -1) as [[-> ->]|[-> ->]].
    { cbn in Hi. repeat case_decide; simplify_eq; auto. }
    all: split; [reflexivity|]; intros l Hl; vm_compute in Hl; injection Hl as <-; cbn; lia.
  - apply (bool_decide_unpack _). vm_compute. exact I.
  - exact E.
  - exists d. split; [reflexivity|]. split; [|exact Hm]. vm_compute in E. injection E as <-. reflexivity.
Defined.

Lemma union_idempotent_witness :
  union_entry json schemas server server true UnionOptions_default = Ok server.
Proof. apply union_idempotent; concrete. Defined.

Lemma union_ops_wf_witness :
  wf_result (bin_bit_or json schemas server patch) ∧
  (∀ key op, wf_result (dict_insert json schemas server key patch op None)).
Proof.
  destruct (union_ops_wf json schemas server patch) as (H1 & _ & H2 & _).
  - intros name schema_fn. unfold schemas. destruct (decide _); [|discriminate].
    intros [= <-] c a k r Hc [= <-]. exact Hc.
  - concrete.
  - concrete.
  - exact (conj H1 H2).
Defined.

Lemma dict_insert_spec_witness :
  ∃ msg, dict_insert json schemas (ref_dict [("a", ref_int 1)]) "a" (ref_int 2) Union None =
         Panic (PanicMsg msg).
Proof.
  exact (dict_insert_spec json schemas (dict_of (ref_dict [("a", ref_int 1)])) "a" (ref_int 2) Union
           eq_refl).
Defined.
