(* ===== verification/TypeStr.v ===== *)
(** * Runtime type checking against type strings

    The compiled program checks values against types written as strings:
    [check_type] and its helpers of [value/val_type.rs], which take the string
    apart while they walk the value.  [matches] is what a type means on its
    syntax tree, and the main theorem says that checking the printed form of a
    type decides it. *)

From stdpp Require Import base tactics list strings numbers pretty.
From Stdlib Require Import ZArith Ascii Lia.
From S2P Require Import Prelude MachineInt IndexMap Str Float64 Value Cmp ListOps DictOps.
From S2P Require Import Arith UnionOps.
Local Open Scope nat_scope.
Local Set Warnings "-clear-no-such-hyp".

(** ** Constants *)

Definition BUILTIN_TYPE_INT : string := "int".
Definition BUILTIN_TYPE_FLOAT : string := "float".
Definition BUILTIN_TYPE_STR : string := "str".
Definition BUILTIN_TYPE_BOOL : string := "bool".
Definition BUILTIN_TYPES : list string :=
  [BUILTIN_TYPE_STR; BUILTIN_TYPE_BOOL; BUILTIN_TYPE_INT; BUILTIN_TYPE_FLOAT].
Definition KCL_TYPE_ANY : string := "any".
Definition KCL_TYPE_FUNCTION : string := "function".
Definition KCL_NAME_CONSTANT_NONE : string := "None".
Definition KCL_NAME_CONSTANT_UNDEFINED : string := "Undefined".
Definition KCL_NAME_CONSTANT_TRUE : string := "True".
Definition KCL_NAME_CONSTANT_FALSE : string := "False".
Definition KCL_NAME_CONSTANTS : list string :=
  [KCL_NAME_CONSTANT_NONE; KCL_NAME_CONSTANT_UNDEFINED; KCL_NAME_CONSTANT_TRUE;
   KCL_NAME_CONSTANT_FALSE].
Definition NUMBER_MULTIPLIER_TYPE : string := "units.NumberMultiplier".
Definition MAIN_PKG_PATH : string := "__main__".

Definition SQUOTE : string := "'".

Definition elem (s : string) (l : list string) : bool := bool_decide (s ∈ l).
Definition seq (a b : string) : bool := bool_decide (a = b).

(** ** Helpers of [str] *)

(** The code point of a character given by its UTF-8 bytes. *)
Definition code_point (c : string) : Z :=
  let byte a := Z.of_N (N_of_ascii a) in
  let cont a := Z.land (byte a) 63 in
  match c with
  | String a EmptyString => byte a
  | String a (String b EmptyString) => (Z.land (byte a) 31 * 64 + cont b)%Z
  | String a (String b (String c EmptyString)) =>
      (Z.land (byte a) 15 * 4096 + cont b * 64 + cont c)%Z
  | String a (String b (String c (String d _))) =>
      (Z.land (byte a) 7 * 262144 + cont b * 4096 + cont c * 64 + cont d)%Z
  | EmptyString => 0%Z
  end.

Definition is_ascii_digit (c : string) : bool :=
  match c with String a EmptyString => is_some (digit_of a) | _ => false end.

(** [str_isdigit] of [val_str.rs] *)
Definition str_isdigit (v : string) : bool :=
  let valid_unicodes := [8304; 185; 178; 179; 8308; 8309; 8310; 8311; 8312; 8313]%Z in
  negb (str_is_empty v) &&
  forallb (λ c, bool_decide ((code_point c mod 65536)%Z ∈ valid_unicodes))
    (filter (λ c, is_ascii_digit c = false) (chars v)).

Fixpoint count_byte (a : ascii) (s : string) : nat :=
  match s with
  | EmptyString => 0
  | String b s => (if Ascii.eqb a b then 1 else 0) + count_byte a s
  end.

(** [s.replacen(a, "", 1)] *)
Fixpoint remove_first (a : ascii) (s : string) : string :=
  match s with
  | EmptyString => EmptyString
  | String b s => if Ascii.eqb a b then s else String b (remove_first a s)
  end.

(** [s.ends_with(a)] *)
Fixpoint ends_with_byte (a : ascii) (s : string) : bool :=
  match s with
  | EmptyString => false
  | String b EmptyString => Ascii.eqb a b
  | String _ s => ends_with_byte a s
  end.
Definition starts_with_byte (a : ascii) (s : string) : bool :=
  match s with String b _ => Ascii.eqb a b | EmptyString => false end.

Definition strip_prefix (p s : string) : string :=
  if starts_with p s then str_drop (slen p) s else s.

(** [s.trim_matches(..)] over spaces and tabs *)
Definition is_blank (a : ascii) : bool := Ascii.eqb a " " || Ascii.eqb a "009".
Fixpoint trim_start (s : string) : string :=
  match s with
  | String a s' => if is_blank a then trim_start s' else s
  | EmptyString => EmptyString
  end.
Fixpoint trim_end (s : string) : string :=
  match s with
  | EmptyString => EmptyString
  | String a s =>
      match trim_end s with
      | EmptyString => if is_blank a then EmptyString else String a EmptyString
      | t => String a t
      end
  end.
Definition ty_str_strip (ty_str : string) : string := trim_end (trim_start ty_str).

(** ** The shape of a type string *)

Definition is_dict_type (tpe : string) : bool :=
  let cs := chars tpe in
  (2 <=? length cs) && bool_decide (head cs = Some "{") && bool_decide (last cs = Some "}").
Definition is_list_type (tpe : string) : bool :=
  let cs := chars tpe in
  (2 <=? length cs) && bool_decide (head cs = Some "[") && bool_decide (last cs = Some "]").
Definition is_builtin_type (tpe : string) : bool := elem tpe BUILTIN_TYPES.

Definition is_literal_type (tpe : string) : bool :=
  if elem tpe KCL_NAME_CONSTANTS then true
  else if starts_with DQUOTE tpe then ends_with_byte "034" tpe
  else if starts_with SQUOTE tpe then ends_with_byte "'" tpe
  else if str_isdigit tpe then true
  else str_isdigit (remove_first "." tpe) && (count_byte "." tpe <? 2).

Definition is_schema_type (expected_type : string) : bool :=
  if str_is_empty expected_type then true
  else negb (is_list_type expected_type) && negb (is_dict_type expected_type) &&
       negb (is_builtin_type expected_type) && negb (is_literal_type expected_type).

Section Strings.
Context {HP : Profile}.

(** [&stack[stack.len() - 1..] != open]: on an empty stack the subtraction
    overflows or the slice is out of range. *)
Definition top_is (stack : list string) (open : string) : Res bool :=
  match stack with
  | [] => Panic (if overflow_checks then ArithOverflow else IndexOutOfBounds)
  | c :: _ => Ok (seq c open)
  end.

(** The loop of [separate_kv]: [pre] has been read. *)
Fixpoint separate_from (expected_type pre s : string) (stack : list string)
    : Res (string * string) :=
  match s with
  | EmptyString => Ok ("", "")
  | String a s' =>
      let c := String a "" in
      let next := separate_from expected_type (pre +:+ c) s' in
      let invalid := Panic (PanicMsg ("invalid type string " +:+ expected_type)) in
      if seq c "[" || seq c "{" then next (c :: stack)
      else if seq c "]" then b ← top_is stack "["; if negb b then invalid else next (tail stack)
      else if seq c "}" then b ← top_is stack "{"; if negb b then invalid else next (tail stack)
      else if seq c ":" then
        match stack with [] => Ok (pre, s') | _ => invalid end
      else next stack
  end.
Definition separate_kv (expected_type : string) : Res (string * string) :=
  separate_from expected_type "" expected_type [].

(** [&tpe[0..1]] and [&tpe[tpe.len() - 1..]]: the offsets must not be inside a
    character. *)
Definition first_byte (tpe : string) : Res string :=
  match head (chars tpe) with
  | Some c => if Nat.eqb (slen c) 1 then Ok c else Panic CharBoundary
  | None => Panic CharBoundary
  end.
Definition last_byte (tpe : string) : Res string :=
  match last (chars tpe) with
  | Some c => if Nat.eqb (slen c) 1 then Ok c else Panic CharBoundary
  | None => Panic CharBoundary
  end.

Definition dereference_type (tpe : string) : Res string :=
  if 1 <? slen tpe then
    a ← first_byte tpe;
    b1 ← (if seq a "[" then z ← last_byte tpe; Ok (seq z "]") else Ok false);
    b2 ← (if b1 : bool then Ok true
          else if seq a "{" then z ← last_byte tpe; Ok (seq z "}") else Ok false);
    Ok (if b2 : bool then str_slice 1 (slen tpe - 1) tpe else tpe)
  else Ok tpe.

(** ** Unions *)

(** [find_quoted q t] is the first match in [t] of the regular expression for a
    string literal between the quotes [q] ([fancy_regex]). *)
Variable find_quoted : string → string → option string.
(** Whether a string matches [NUMBER_MULTIPLIER_REGEX] ([fancy_regex]). *)
Variable is_number_multiplier_literal_type : string → bool.
(** [v.to_string()] of an [f64], and the [Debug] form of a string. *)
Variable f64_to_string : f64 → string.
Variable debug_str : string → string.

(** [i += v.chars().count() - 1] for a literal that starts at the head of
    [cs]. *)
Definition literal_skip (q : string) (cs : list string) : nat :=
  match find_quoted q (str_concat cs) with
  | Some v => length (chars v) - 1
  | None => 0
  end.

(** The loop shared by [is_type_union] and [split_type_union]: where [skip]
    characters are left of a string literal. *)
Definition scan_step {A} (sep : A) (next : nat → list string → A) (skip : nat) (c : string)
    (cs : list string) (stack : list string) : A :=
  match skip with
  | S skip => next skip stack
  | 0 =>
      if seq c "|" && vec_is_empty stack then sep
      else if seq c "[" || seq c "{" then next 0 (c :: stack)
      else if seq c "]" || seq c "}" then next 0 (tail stack)
      else if seq c DQUOTE then next (literal_skip DQUOTE (c :: cs)) stack
      else if seq c SQUOTE then next (literal_skip SQUOTE (c :: cs)) stack
      else next 0 stack
  end.

Fixpoint scan_union (skip : nat) (cs stack : list string) : bool :=
  match cs with
  | [] => false
  | c :: cs => scan_step true (λ skip stack, scan_union skip cs stack) skip c cs stack
  end.
Definition is_type_union (tpe : string) : bool := scan_union 0 (chars tpe) [].

Fixpoint scan_split (skip : nat) (cs stack : list string) (cur : string) : list string :=
  match cs with
  | [] => [cur]
  | c :: cs =>
      scan_step (cur :: scan_split 0 cs [] "")
        (λ skip stack, scan_split skip cs stack (cur +:+ c)) skip c cs stack
  end.
Definition split_type_union (tpe : string) : list string :=
  ty_str_strip <$> scan_split 0 (chars tpe) [] "".

(** ** Checking a value *)

(** [value.to_string()] of an integer or a float *)
Definition number_to_string (value : ValueRef) : string :=
  match rc value with
  | int_value v => pretty v
  | float_value v =>
      let s := f64_to_string v in if str_contains "." s then s else s +:+ ".0"
  | _ => ""
  end.

Definition check_type_literal (value : ValueRef) (tpe : string) : bool :=
  if negb (is_literal_type tpe) then false
  else
    match rc value with
    | none => seq tpe KCL_NAME_CONSTANT_NONE
    | undefined => seq tpe KCL_NAME_CONSTANT_UNDEFINED
    | bool_value b => seq tpe (if b then KCL_NAME_CONSTANT_TRUE else KCL_NAME_CONSTANT_FALSE)
    | int_value _ | float_value _ => seq (number_to_string value) tpe
    | str_value s => seq (debug_str s) tpe
    | _ => false
    end.

Definition check_number_multiplier_type (value : ValueRef) (tpe : string) : bool :=
  match rc value with
  | unit_value _ raw suffix =>
      if is_number_multiplier_literal_type tpe then seq (pretty raw +:+ suffix) tpe
      else seq tpe NUMBER_MULTIPLIER_TYPE
  | _ => false
  end.

Definition match_builtin_type (value : ValueRef) (tpe : string) : bool :=
  (is_builtin value && seq (type_str value) tpe) ||
  (seq (type_str value) BUILTIN_TYPE_INT && seq tpe BUILTIN_TYPE_FLOAT).

Definition match_function_type (value : ValueRef) (tpe : string) : bool :=
  seq (type_str value) KCL_TYPE_FUNCTION &&
  (seq tpe KCL_TYPE_FUNCTION ||
   (str_contains "(" tpe && str_contains ")" tpe && str_contains "->" tpe)).

(** [value_type_path(value, true)] of [val_plan.rs] on a schema instance:
    [type_of] of [stdlib/builtin.rs]. *)
Definition schema_type_path (s : SchemaValue ValueRef) : string :=
  let full_type_str := strip_prefix "@" (schema_pkgpath s) in
  (if seq full_type_str MAIN_PKG_PATH then "" else full_type_str +:+ ".") +:+ schema_name s.

(** The end of [check_type], for a value that is no list and no dictionary. *)
Definition check_scalar (value : ValueRef) (pkgpath tpe : string) (strict : bool) : bool :=
  if match_builtin_type value tpe || match_function_type value tpe then true
  else
    match rc value with
    | schema_value s =>
        if strict then
          let tpe := if negb (str_is_empty pkgpath) && negb (seq pkgpath MAIN_PKG_PATH) &&
                        negb (str_contains "." tpe)
                     then pkgpath +:+ "." +:+ tpe else tpe in
          seq (schema_type_path s) (strip_prefix "@" tpe)
        else is_schema_type tpe
    | _ => false
    end.

(** [check_type_union], [check_type_dict] and [check_type_list] call
    [check_type], here [check], on types that are shorter strings. *)
Section Check.
Variable check : ValueRef → string → Res bool.

Definition check_type_union (value : ValueRef) (tpe : string) : Res bool :=
  let expected_types := split_type_union tpe in
  if length expected_types <=? 1 then Ok false else any (check value) expected_types.

Definition check_type_dict (value : ValueRef) (tpe : string) : Res bool :=
  if str_is_empty tpe then Ok true
  else if negb (is_dict_type tpe) then Ok false
  else
    match rc value with
    | dict_value dict_ref =>
        expected_type ← dereference_type tpe;
        '(_, expected_value_type) ← separate_kv expected_type;
        all (λ v, check v expected_value_type) (values dict_ref).*2
    | _ => Ok false
    end.

Definition check_type_list (value : ValueRef) (tpe : string) : Res bool :=
  if str_is_empty tpe then Ok true
  else if negb (is_list_type tpe) then Ok false
  else
    match rc value with
    | list_value list_ref =>
        expected_type ← dereference_type tpe;
        all (λ v, check v expected_type) (list_values list_ref)
    | _ => Ok false
    end.

Definition check_type_body (value : ValueRef) (pkgpath tpe : string) (strict : bool) : Res bool :=
  if str_is_empty tpe || seq tpe KCL_TYPE_ANY then Ok true
  else if is_none_or_undefined value then Ok true
  else if is_type_union tpe then check_type_union value tpe
  else if check_type_literal value tpe then Ok true
  else if check_number_multiplier_type value tpe then Ok true
  else
    match rc value with
    | dict_value _ => check_type_dict value tpe
    | list_value _ => check_type_list value tpe
    | _ => Ok (check_scalar value pkgpath tpe strict)
    end.
End Check.

(** Every recursive call is on a shorter type: fuel for one more call than the
    length of the type is enough ([check_type_fuel_enough]). *)
Fixpoint check_type_fuel (fuel : nat) (value : ValueRef) (pkgpath tpe : string) (strict : bool)
    : Res bool :=
  match fuel with
  | 0 => Panic AssertionFailed
  | S fuel =>
      check_type_body (λ v t, check_type_fuel fuel v pkgpath t false) value pkgpath tpe strict
  end.

Definition check_type (value : ValueRef) (pkgpath tpe : string) (strict : bool) : Res bool :=
  check_type_fuel (S (slen tpe)) value pkgpath tpe strict.

End Strings.

(** ** What a type means *)

(** Type strings as syntax trees: names (builtin types, literals, schemas),
    lists, dictionaries with their key type, and unions. *)
Inductive rty :=
  | TAny
  | TName (s : string)
  | TList (t : rty)
  | TDict (k : string) (t : rty)
  | TUnion (t1 t2 : rty).

Fixpoint print (t : rty) : string :=
  match t with
  | TAny => "any"
  | TName s => s
  | TList t => "[" +:+ print t +:+ "]"
  | TDict k t => "{" +:+ k +:+ ":" +:+ print t +:+ "}"
  | TUnion t1 t2 => print t1 +:+ " | " +:+ print t2
  end.

Definition is_union (t : rty) : bool := match t with TUnion _ _ => true | _ => false end.

(** A byte with no meaning to the functions that take type strings apart. *)
Definition name_byte (a : ascii) : bool :=
  (N_of_ascii a <? 128)%N &&
  negb (elem (String a "") ["|"; "["; "]"; "{"; "}"; "("; ")"; ":"; SQUOTE; DQUOTE]) &&
  negb (is_blank a).
Fixpoint all_bytes (p : ascii → bool) (s : string) : bool :=
  match s with EmptyString => true | String a s => p a && all_bytes p s end.
Definition is_name (s : string) : bool := negb (str_is_empty s) && all_bytes name_byte s.

(** Well-formed types: unions are nested to the right, and names are names. *)
Fixpoint wf_rty (t : rty) : bool :=
  match t with
  | TAny => true
  | TName s => is_name s && negb (seq s "any")
  | TList t => wf_rty t
  | TDict k t => is_name k && wf_rty t
  | TUnion t1 t2 => negb (is_union t1) && wf_rty t1 && wf_rty t2
  end.

Fixpoint components (t : rty) : list rty :=
  match t with TUnion t1 t2 => t1 :: components t2 | t => [t] end.

(** ** Bytes and characters *)

Fixpoint bytes (s : string) : list string :=
  match s with EmptyString => [] | String a s => String a "" :: bytes s end.

Lemma bytes_app s t : bytes (s +:+ t) = bytes s ++ bytes t.
Proof. induction s as [|a s IH]; [done|]. simpl. by rewrite IH. Qed.
Lemma bytes_concat s : str_concat (bytes s) = s.
Proof. induction s as [|a s IH]; [done|]. simpl. by rewrite IH. Qed.

Definition ascii_only (s : string) : bool := all_bytes (λ a, (N_of_ascii a <? 128)%N) s.

Lemma all_bytes_app p s t : all_bytes p (s +:+ t) = all_bytes p s && all_bytes p t.
Proof. induction s as [|a s IH]; simpl; [done|]. by rewrite IH, andb_assoc. Qed.
Lemma all_bytes_impl (p q : ascii → bool) s :
  (∀ a, p a = true → q a = true) → all_bytes p s = true → all_bytes q s = true.
Proof.
  intros H. induction s as [|a s IH]; simpl; [done|].
  rewrite !andb_true_iff. intros [??]. auto.
Qed.

Lemma chars_ascii s : ascii_only s = true → chars s = bytes s.
Proof.
  induction s as [|a s IH]; [done|]. unfold ascii_only. cbn [all_bytes chars].
  rewrite andb_true_iff. intros [_ Hs]. rewrite IH by done. clear IH.
  destruct s as [|b s]; [done|]. simpl.
  cbn [all_bytes] in Hs. apply andb_true_iff in Hs as [Hb _].
  unfold is_cont. rewrite (proj2 (N.leb_gt 128 _)); [done|]. by apply N.ltb_lt.
Qed.

Lemma name_ascii s : all_bytes name_byte s = true → ascii_only s = true.
Proof.
  apply all_bytes_impl. intros a. unfold name_byte. rewrite !andb_true_iff. tauto.
Qed.

Lemma is_name_bytes s : is_name s = true → all_bytes name_byte s = true ∧ s ≠ "".
Proof.
  unfold is_name, str_is_empty. rewrite andb_true_iff, negb_true_iff, bool_decide_eq_false. tauto.
Qed.

Lemma wf_name s : wf_rty (TName s) = true → all_bytes name_byte s = true ∧ s ≠ "" ∧ s ≠ "any".
Proof.
  cbn [wf_rty]. rewrite andb_true_iff. intros [[Hb Hn]%is_name_bytes Ha].
  split_and!; [done..|]. unfold seq in Ha. by apply negb_true_iff, bool_decide_eq_false in Ha.
Qed.

Lemma print_ascii t : wf_rty t = true → ascii_only (print t) = true.
Proof.
  unfold ascii_only. induction t as [|s|t IH|k t IH|t1 IH1 t2 IH2]; cbn [wf_rty print]; intros H.
  - done.
  - apply wf_name in H as (H & _). by apply name_ascii.
  - rewrite !all_bytes_app, IH by done. done.
  - apply andb_true_iff in H as [[Hk _]%is_name_bytes H].
    rewrite !all_bytes_app, IH by done. simpl. rewrite andb_true_r. by apply name_ascii.
  - apply andb_true_iff in H as [[_ H1]%andb_true_iff H2].
    rewrite !all_bytes_app, IH1, IH2 by done. done.
Qed.

Lemma print_nonempty t : wf_rty t = true → print t ≠ "".
Proof.
  destruct t as [|s|t|k t|t1 t2]; cbn [print]; try done; [by intros (_ & ? & _)%wf_name|].
  intros _ H. apply (f_equal slen) in H. rewrite !slen_app in H. simpl in H. lia.
Qed.

(** ** Scanning a printed type *)

Section Scan.
Variable find_quoted : string → string → option string.

Lemma scan_step_name {A} (sep : A) next a cs stack :
  name_byte a = true →
  scan_step find_quoted sep next 0 (String a "") cs stack = next 0 stack.
Proof.
  unfold name_byte, elem. rewrite !andb_true_iff. intros [[_ H] _].
  apply negb_true_iff, bool_decide_eq_false in H. rewrite !not_elem_of_cons in H.
  destruct H as (? & ? & ? & ? & ? & ? & ? & ? & ? & ? & _).
  unfold scan_step, seq. rewrite !bool_decide_false by done. done.
Qed.

Lemma scan_union_name s rest st :
  all_bytes name_byte s = true →
  scan_union find_quoted 0 (bytes s ++ rest) st = scan_union find_quoted 0 rest st.
Proof.
  induction s as [|a s IH]; [done|]. cbn [all_bytes]. rewrite andb_true_iff. intros [Ha Hs].
  cbn [bytes app scan_union]. rewrite scan_step_name by done. by apply IH.
Qed.
Lemma scan_split_name s rest st cur :
  all_bytes name_byte s = true →
  scan_split find_quoted 0 (bytes s ++ rest) st cur = scan_split find_quoted 0 rest st (cur +:+ s).
Proof.
  revert cur. induction s as [|a s IH]; intros cur; [by rewrite str_app_nil_r|].
  cbn [all_bytes]. rewrite andb_true_iff. intros [Ha Hs].
  cbn [bytes app scan_split]. rewrite scan_step_name by done. rewrite IH by done.
  by rewrite str_app_assoc.
Qed.

Lemma scan_union_print t rest st :
  wf_rty t = true → is_union t = false ∨ st ≠ [] →
  scan_union find_quoted 0 (bytes (print t) ++ rest) st = scan_union find_quoted 0 rest st.
Proof.
  revert rest st. induction t as [|s|t IH|k t IH|t1 IH1 t2 IH2]; intros rest st Hwf Hst;
    cbn [print wf_rty] in *.
  - by apply (scan_union_name "any").
  - apply scan_union_name. by destruct (wf_name s Hwf).
  - rewrite !bytes_app, <- !app_assoc. simpl. rewrite IH by (done || by right). done.
  - apply andb_true_iff in Hwf as [[Hk _]%is_name_bytes Hwf].
    rewrite !bytes_app, <- !app_assoc. simpl. rewrite scan_union_name by done. simpl.
    rewrite IH by (done || by right). done.
  - destruct Hst as [|Hst]; [done|].
    apply andb_true_iff in Hwf as [[Hu H1]%andb_true_iff H2]. apply negb_true_iff in Hu.
    rewrite !bytes_app, <- !app_assoc. rewrite IH1 by auto. destruct st as [|c st]; [done|]. simpl.
    by rewrite IH2 by auto.
Qed.
Lemma scan_split_print t rest st cur :
  wf_rty t = true → is_union t = false ∨ st ≠ [] →
  scan_split find_quoted 0 (bytes (print t) ++ rest) st cur =
  scan_split find_quoted 0 rest st (cur +:+ print t).
Proof.
  revert rest st cur. induction t as [|s|t IH|k t IH|t1 IH1 t2 IH2]; intros rest st cur Hwf Hst;
    cbn [print wf_rty] in *.
  - by apply (scan_split_name "any").
  - apply scan_split_name. by destruct (wf_name s Hwf).
  - rewrite !bytes_app, <- !app_assoc. simpl. rewrite IH by (done || by right). simpl.
    by rewrite !str_app_assoc.
  - apply andb_true_iff in Hwf as [[Hk _]%is_name_bytes Hwf].
    rewrite !bytes_app, <- !app_assoc. simpl. rewrite scan_split_name by done. simpl.
    rewrite IH by (done || by right). simpl. by rewrite !str_app_assoc.
  - destruct Hst as [|Hst]; [done|].
    apply andb_true_iff in Hwf as [[Hu H1]%andb_true_iff H2]. apply negb_true_iff in Hu.
    rewrite !bytes_app, <- !app_assoc. rewrite IH1 by auto. destruct st as [|c st]; [done|]. simpl.
    rewrite IH2 by auto. by rewrite !str_app_assoc.
Qed.

Lemma is_type_union_print t : wf_rty t = true → is_type_union find_quoted (print t) = is_union t.
Proof.
  intros Hwf. unfold is_type_union. rewrite chars_ascii by by apply print_ascii.
  destruct (is_union t) eqn:E.
  - destruct t as [| | | |t1 t2]; try done. cbn [wf_rty print] in *.
    apply andb_true_iff in Hwf as [[Hu H1]%andb_true_iff H2]. apply negb_true_iff in Hu.
    rewrite bytes_app, scan_union_print by auto. done.
  - rewrite <- (app_nil_r (bytes _)), scan_union_print by auto. done.
Qed.
End Scan.

(** ** Splitting a printed union *)

(** [s] neither starts nor ends with a blank, and is not empty. *)
Definition tight (s : string) : Prop :=
  (∃ a t, s = String a t ∧ is_blank a = false) ∧ (∃ t a, s = t +:+ String a "" ∧ is_blank a = false).

Lemma trim_end_app s t : trim_end t ≠ "" → trim_end (s +:+ t) = s +:+ trim_end t.
Proof.
  intros Ht. induction s as [|a s IH]; [done|]. simpl. rewrite IH.
  destruct (s +:+ trim_end t) eqn:E; [|done]. destruct s; simpl in E; [done|discriminate].
Qed.
Lemma trim_end_tight s : tight s → trim_end s = s ∧ trim_end (s +:+ " ") = s.
Proof.
  intros [_ (t & a & -> & Ha)].
  assert (trim_end (String a "") = String a "" ∧ trim_end (String a " ") = String a "") as [E1 E2].
  { simpl. by rewrite Ha. }
  split.
  - by rewrite trim_end_app, E1 by by rewrite E1.
  - rewrite str_app_assoc. simpl. by rewrite trim_end_app, E2 by by rewrite E2.
Qed.
Lemma strip_tight s : tight s → ty_str_strip s = s ∧ ty_str_strip (s +:+ " ") = s ∧
  ty_str_strip (" " +:+ s) = s ∧ ty_str_strip (" " +:+ s +:+ " ") = s.
Proof.
  intros Hs. destruct (trim_end_tight s Hs) as [E1 E2]. unfold ty_str_strip.
  assert (∀ u, trim_start (s +:+ u) = s +:+ u) as Hst.
  { intros u. destruct Hs as [(a & t & -> & Ha) _]. simpl. by rewrite Ha. }
  pose proof (Hst "") as H0. rewrite str_app_nil_r in H0. simpl. by rewrite !Hst, H0, E1, E2.
Qed.

Lemma name_tight s : all_bytes name_byte s = true → s ≠ "" → tight s.
Proof.
  assert (∀ a, name_byte a = true → is_blank a = false) as Hb.
  { intros a. unfold name_byte. rewrite !andb_true_iff, !negb_true_iff. tauto. }
  intros Hs Hne. split.
  - destruct s as [|a s]; [done|]. cbn [all_bytes] in Hs. apply andb_true_iff in Hs as [Ha _].
    exists a, s. auto.
  - induction s as [|a s IH]; [done|]. cbn [all_bytes] in Hs. apply andb_true_iff in Hs as [Ha Hs].
    destruct s as [|b s]; [exists "", a; auto|].
    destruct IH as (t & c & E & Hc); [done..|]. exists (String a t), c. by rewrite E.
Qed.

Lemma print_tight t : wf_rty t = true → is_union t = false → tight (print t).
Proof.
  destruct t as [|s|t|k t|t1 t2]; cbn [print]; try done; intros H _.
  - by apply name_tight.
  - destruct (wf_name s H) as (? & ? & _). by apply name_tight.
  - split; [eexists _, _; by split|]. exists ("[" +:+ print t), "]"%char. by rewrite str_app_assoc.
  - split; [eexists _, _; by split|]. exists ("{" +:+ k +:+ ":" +:+ print t), "}"%char.
    by rewrite !str_app_assoc.
Qed.

Lemma split_type_union_print find_quoted t :
  wf_rty t = true → split_type_union find_quoted (print t) = print <$> components t.
Proof.
  intros Hwf. unfold split_type_union. rewrite chars_ascii by by apply print_ascii.
  assert (∀ pre, pre = "" ∨ pre = " " →
    ty_str_strip <$> scan_split find_quoted 0 (bytes (print t)) [] pre = print <$> components t)
    as H; [|by apply H; left].
  induction t as [|s|t _|k t _|t1 _ t2 IH]; intros pre Hpre.
  1-4: rewrite <- (app_nil_r (bytes _)), scan_split_print by auto; cbn [scan_split components];
    match goal with |- context [print ?t] =>
      destruct (strip_tight (print t) (print_tight t Hwf eq_refl)) as (E1 & _ & E2 & _) end;
    destruct Hpre as [->| ->]; cbn [fmap list_fmap]; [f_equal; exact E1|f_equal; exact E2].
  cbn [wf_rty print components] in *.
  apply andb_true_iff in Hwf as [[Hu H1]%andb_true_iff H2]. apply negb_true_iff in Hu.
  rewrite !bytes_app, scan_split_print by auto.
  destruct (strip_tight (print t1) (print_tight t1 H1 Hu)) as (_ & E1 & _ & E2).
  assert (∀ cur, scan_split find_quoted 0 (bytes " | " ++ bytes (print t2)) [] cur =
    (cur +:+ " ") :: scan_split find_quoted 0 (bytes (print t2)) [] " ") as Hsep by done.
  rewrite Hsep. cbn [fmap list_fmap]. rewrite (IH H2 " ") by auto. f_equal.
  destruct Hpre as [->| ->]; [exact E1|]. rewrite str_app_assoc. exact E2.
Qed.

(** ** Taking a printed list or dictionary type apart *)

Lemma bytes_length s : length (bytes s) = slen s.
Proof. induction s; simpl; congruence. Qed.
Lemma head_bytes a s : head (bytes (String a s)) = Some (String a "").
Proof. done. Qed.
Lemma last_bytes s a : last (bytes (s +:+ String a "")) = Some (String a "").
Proof. rewrite bytes_app. apply last_snoc. Qed.

Section Shapes.
Context {HP : Profile}.

(** A type in brackets. *)
Definition wrapped (a : ascii) (s : string) (b : ascii) : string := String a (s +:+ String b "").

Lemma wrapped_chars a s b :
  ascii_only (wrapped a s b) = true →
  chars (wrapped a s b) = bytes (wrapped a s b) ∧
  length (bytes (wrapped a s b)) = S (S (slen s)) ∧
  head (bytes (wrapped a s b)) = Some (String a "") ∧
  last (bytes (wrapped a s b)) = Some (String b "").
Proof.
  intros H. split_and!; [by apply chars_ascii| |done|].
  - rewrite bytes_length. unfold wrapped. simpl. rewrite slen_app. simpl. lia.
  - apply (last_bytes (String a s) b).
Qed.

Lemma is_list_type_wrapped a s b :
  ascii_only (wrapped a s b) = true →
  is_list_type (wrapped a s b) = Ascii.eqb a "[" && Ascii.eqb b "]" ∧
  is_dict_type (wrapped a s b) = Ascii.eqb a "{" && Ascii.eqb b "}".
Proof.
  intros H. destruct (wrapped_chars a s b H) as (E & El & Eh & Et).
  unfold is_list_type, is_dict_type. rewrite E, El, Eh, Et. cbn [Nat.leb andb].
  assert (∀ c d, bool_decide (Some (String c "") = Some (String d "")) = Ascii.eqb c d) as Hc.
  { intros c d. destruct (Ascii.eqb_spec c d) as [->|Hne].
    - by rewrite bool_decide_true.
    - rewrite bool_decide_false; [done|]. congruence. }
  by rewrite !Hc.
Qed.

Lemma dereference_wrapped a s b :
  ascii_only (wrapped a s b) = true →
  (Ascii.eqb a "[" && Ascii.eqb b "]") || (Ascii.eqb a "{" && Ascii.eqb b "}") = true →
  dereference_type (wrapped a s b) = Ok s.
Proof.
  intros H Hab. destruct (wrapped_chars a s b H) as (E & El & Eh & Et).
  unfold dereference_type, first_byte, last_byte. rewrite E, Eh, Et. rewrite bytes_length in El.
  rewrite El. cbn [Nat.ltb Nat.leb slen Nat.eqb mbind Res_bind].
  assert (str_slice 1 (S (S (slen s)) - 1) (wrapped a s b) = s) as ->.
  { unfold str_slice, wrapped. cbn [str_drop]. replace (S (S (slen s)) - 1 - 1) with (slen s) by lia.
    apply str_take_app_slen. }
  apply orb_true_iff in Hab as [[->%Ascii.eqb_eq ->%Ascii.eqb_eq]%andb_true_iff
                               |[->%Ascii.eqb_eq ->%Ascii.eqb_eq]%andb_true_iff]; reflexivity.
Qed.

Lemma separate_name e pre k s :
  all_bytes name_byte k = true →
  separate_from e pre (k +:+ s) [] = separate_from e (pre +:+ k) s [].
Proof.
  revert pre. induction k as [|a k IH]; intros pre; [by rewrite str_app_nil_r|].
  cbn [all_bytes]. rewrite andb_true_iff. intros [Ha Hk].
  unfold name_byte, elem in Ha. rewrite !andb_true_iff in Ha. destruct Ha as [[_ Ha] _].
  apply negb_true_iff, bool_decide_eq_false in Ha. rewrite !not_elem_of_cons in Ha.
  destruct Ha as (? & ? & ? & ? & ? & ? & ? & ? & ? & ? & _).
  cbn [separate_from String.append]. unfold seq. rewrite !bool_decide_false by done. cbn [orb].
  rewrite IH by done. by rewrite str_app_assoc.
Qed.

Lemma separate_kv_print k s :
  all_bytes name_byte k = true → separate_kv (k +:+ ":" +:+ s) = Ok (k, s).
Proof. intros Hk. unfold separate_kv. rewrite separate_name by done. reflexivity. Qed.
End Shapes.

(** A type in brackets is no literal and no name. *)
Lemma str_contains_byte a s p : all_bytes (λ b, negb (Ascii.eqb b a)) s = true →
  str_contains (String a p) s = false.
Proof.
  intros Hs. destruct (str_contains (String a p) s) eqn:E; [|done].
  apply str_contains_spec in E as (u & v & ->). rewrite all_bytes_app in Hs.
  apply andb_true_iff in Hs as [_ Hs]. simpl in Hs. by rewrite Ascii.eqb_refl in Hs.
Qed.

Lemma digits_first a s : str_isdigit (String a s) = true → ascii_only (String a s) = true →
  is_ascii_digit (String a "") = true.
Proof.
  intros H Ha. destruct (is_ascii_digit (String a "")) eqn:E; [done|]. unfold str_isdigit in H.
  rewrite chars_ascii in H by done. cbn [bytes] in H. rewrite filter_cons_True in H by done.
  simpl in H. apply andb_true_iff in H as [H _]. apply bool_decide_eq_true in H.
  unfold ascii_only in Ha. cbn [all_bytes] in Ha. apply andb_true_iff in Ha as [Ha%N.ltb_lt _].
  rewrite Z.mod_small in H by lia. rewrite !elem_of_cons, elem_of_nil in H. lia.
Qed.

Lemma remove_first_ascii c s : ascii_only s = true → ascii_only (remove_first c s) = true.
Proof.
  unfold ascii_only. induction s as [|a s IH]; [done|]. cbn [remove_first all_bytes].
  destruct (Ascii.eqb c a); rewrite !andb_true_iff; [tauto|]. cbn [all_bytes].
  rewrite andb_true_iff. naive_solver.
Qed.

Lemma wrapped_not_literal a s b :
  ascii_only (wrapped a s b) = true → a = "["%char ∨ a = "{"%char →
  is_literal_type (wrapped a s b) = false ∧
  (∀ v, v = BUILTIN_TYPE_FLOAT ∨ v = KCL_TYPE_FUNCTION ∨ v = KCL_TYPE_ANY ∨
        v = NUMBER_MULTIPLIER_TYPE → seq (wrapped a s b) v = false) ∧
  (∀ v, is_builtin v = true → seq (type_str v) (wrapped a s b) = false).
Proof.
  intros Hasc Ha. unfold wrapped in *. split_and!.
  - unfold is_literal_type.
    assert (elem (String a (s +:+ String b "")) KCL_NAME_CONSTANTS = false) as ->.
    { unfold elem. apply bool_decide_eq_false. unfold KCL_NAME_CONSTANTS.
      rewrite !not_elem_of_cons. destruct Ha as [->| ->]; split_and!; try discriminate;
        apply not_elem_of_nil. }
    assert (str_isdigit (String a (s +:+ String b "")) = false) as ->.
    { destruct (str_isdigit _) eqn:E; [|done]. apply digits_first in E; [|done].
      by destruct Ha as [->| ->]. }
    assert (str_isdigit (remove_first "." (String a (s +:+ String b ""))) = false) as ->.
    { destruct (str_isdigit _) eqn:E; [|done]. pose proof (remove_first_ascii "." _ Hasc) as Hr.
      destruct Ha as [->| ->]; cbn [remove_first] in E, Hr; by apply digits_first in E. }
    by destruct Ha as [->| ->].
  - intros v Hv. unfold seq. apply bool_decide_eq_false.
    destruct Ha as [->| ->]; destruct Hv as [->|[->|[->| ->]]]; discriminate.
  - intros v Hv. unfold seq. apply bool_decide_eq_false. unfold is_builtin, type_str in *.
    destruct Ha as [->| ->]; destruct (rc v); try discriminate Hv; discriminate.
Qed.

(** ** Checking a printed type decides its meaning *)

Lemma print_no_paren t : wf_rty t = true → all_bytes (λ b, negb (Ascii.eqb b "(")) (print t) = true.
Proof.
  assert (∀ s, all_bytes name_byte s = true → all_bytes (λ b, negb (Ascii.eqb b "(")) s = true) as Hn.
  { intros s. apply all_bytes_impl. intros a. unfold name_byte, elem.
    rewrite !andb_true_iff, !negb_true_iff, bool_decide_eq_false, !not_elem_of_cons.
    intros [[_ H] _]. destruct (Ascii.eqb_spec a "("); [|done]. subst. tauto. }
  induction t as [|s|t IH|k t IH|t1 IH1 t2 IH2]; cbn [wf_rty print]; intros H.
  - done.
  - destruct (wf_name s H) as [? _]. by apply Hn.
  - rewrite !all_bytes_app, IH by done. done.
  - apply andb_true_iff in H as [[Hk _]%is_name_bytes H].
    rewrite !all_bytes_app, IH by done. simpl. rewrite andb_true_r. by apply Hn.
  - apply andb_true_iff in H as [[_ H1]%andb_true_iff H2].
    rewrite !all_bytes_app, IH1, IH2 by done. done.
Qed.

Section Refinement.
Context {HP : Profile}.
Variable find_quoted : string → string → option string.
Variable is_number_multiplier_literal_type : string → bool.
Variable f64_to_string : f64 → string.
Variable debug_str : string → string.
Variable pkgpath : string.

Abbreviation literal := (check_type_literal f64_to_string debug_str).
Abbreviation multiplier := (check_number_multiplier_type is_number_multiplier_literal_type).
Abbreviation body := (check_type_body find_quoted is_number_multiplier_literal_type f64_to_string debug_str).
Abbreviation fuelled :=
  (check_type_fuel find_quoted is_number_multiplier_literal_type f64_to_string debug_str).

(** A value matches a name by being that literal, that number multiplier, or a
    scalar, function or schema instance of that type. *)
Definition matches_name (v : ValueRef) (s : string) : bool :=
  literal v s || multiplier v s ||
  match rc v with dict_value _ | list_value _ => false | _ => check_scalar v pkgpath s false end.

Fixpoint matches (t : rty) (v : ValueRef) : bool :=
  is_none_or_undefined v ||
  match t with
  | TAny => true
  | TName s => matches_name v s
  | TList t => match rc v with list_value l => forallb (matches t) (list_values l) | _ => false end
  | TDict _ t =>
      match rc v with dict_value d => forallb (matches t) (values d).*2 | _ => false end
  | TUnion t1 t2 => matches t1 v || matches t2 v
  end.

(** The pattern of number multipliers starts with a digit. *)
Definition multiplier_starts_with_digit : Prop :=
  ∀ s, is_number_multiplier_literal_type s = true →
    ∃ a t, s = String a t ∧ is_some (digit_of a) = true.

Lemma matches_none t v : is_none_or_undefined v = true → matches t v = true.
Proof. intros H. by destruct t; simpl; rewrite H. Qed.

Lemma components_matches t v :
  wf_rty t = true → existsb (λ t, matches t v) (components t) = matches t v.
Proof.
  induction t as [|s|t _|k t _|t1 _ t2 IH]; intros Hwf; cbn [components existsb];
    rewrite ?orb_false_r; try done.
  cbn [wf_rty] in Hwf. apply andb_true_iff in Hwf as [_ H2]. rewrite IH by done.
  destruct (is_none_or_undefined v) eqn:E.
  - rewrite !(matches_none _ v E). by rewrite orb_true_r.
  - cbn [matches]. by rewrite E.
Qed.

Lemma components_matches2 t1 t2 v :
  is_none_or_undefined v = false → wf_rty (TUnion t1 t2) = true →
  existsb (λ t, matches t v) (components (TUnion t1 t2)) = matches t1 v || matches t2 v.
Proof. intros Hv Hwf. rewrite components_matches by done. cbn [matches]. by rewrite Hv. Qed.

Lemma print_dict k t : print (TDict k t) = wrapped "{" (k +:+ ":" +:+ print t) "}".
Proof. unfold wrapped. cbn [print]. rewrite !str_app_assoc. done. Qed.

Lemma components_wf t u :
  wf_rty t = true → u ∈ components t → wf_rty u = true ∧ is_union u = false.
Proof.
  induction t as [|s|t _|k t _|t1 _ t2 IH]; intros Hwf; cbn [components];
    try (by intros ->%list_elem_of_singleton).
  cbn [wf_rty] in Hwf. apply andb_true_iff in Hwf as [[Hu H1]%andb_true_iff H2].
  apply negb_true_iff in Hu. intros [->|Hin]%elem_of_cons; auto.
Qed.

Lemma components_shorter t u :
  u ∈ components t → slen (print u) ≤ slen (print t) ∧ (is_union t = true → slen (print u) < slen (print t)).
Proof.
  induction t as [|s|t _|k t _|t1 _ t2 IH]; cbn [components is_union];
    try (by intros ->%list_elem_of_singleton).
  cbn [print]. rewrite !slen_app. cbn [slen].
  intros [->|Hin]%elem_of_cons; [lia|]. apply IH in Hin as [Hin _]. lia.
Qed.

Lemma components_length t : is_union t = true → 2 ≤ length (components t).
Proof. destruct t as [| | | |t1 [| | | |]]; simpl; lia. Qed.

(** A bracketed type against a value that is not of its container kind. *)
Lemma wrapped_scalar a s b v :
  multiplier_starts_with_digit →
  ascii_only (wrapped a s b) = true →
  (a = "["%char ∧ b = "]"%char) ∨ (a = "{"%char ∧ b = "}"%char) →
  all_bytes (λ b, negb (Ascii.eqb b "(")) (wrapped a s b) = true →
  literal v (wrapped a s b) = false ∧ multiplier v (wrapped a s b) = false ∧
  check_scalar v pkgpath (wrapped a s b) false = false.
Proof.
  intros Hm Hasc Hab Hp.
  assert (a = "["%char ∨ a = "{"%char) as Ha by (destruct Hab as [[? _]|[? _]]; auto).
  destruct (wrapped_not_literal a s b Hasc Ha) as (Hl & Hc & Hb).
  destruct (is_list_type_wrapped a s b Hasc) as [El Ed]. split_and!.
  - unfold check_type_literal. by rewrite Hl.
  - unfold check_number_multiplier_type. destruct (rc v); try done.
    destruct (is_number_multiplier_literal_type (wrapped a s b)) eqn:E; [|apply Hc; auto].
    apply Hm in E as (a' & t & [= <- _] & Hd). by destruct Ha as [->| ->].
  - unfold check_scalar.
    assert (match_builtin_type v (wrapped a s b) = false) as ->.
    { unfold match_builtin_type. rewrite (Hc BUILTIN_TYPE_FLOAT) by auto.
      rewrite andb_false_r, orb_false_r. destruct (is_builtin v) eqn:E; [|done]. by apply Hb. }
    assert (match_function_type v (wrapped a s b) = false) as ->.
    { unfold match_function_type. rewrite (Hc KCL_TYPE_FUNCTION) by auto.
      rewrite (str_contains_byte "(" (wrapped a s b) "") by done. by rewrite andb_false_r. }
    destruct (rc v); try done. unfold is_schema_type. rewrite El, Ed.
    destruct (str_is_empty (wrapped a s b)) eqn:E; [by apply bool_decide_eq_true in E|].
    by destruct Hab as [[-> ->]|[-> ->]].
Qed.

Lemma name_not_container s :
  wf_rty (TName s) = true → is_list_type s = false ∧ is_dict_type s = false ∧ str_is_empty s = false.
Proof.
  intros Hwf. destruct (wf_name s Hwf) as (Hs & Hne & _).
  assert (∀ c, name_byte c = true → String c "" ≠ "[" ∧ String c "" ≠ "{") as Hc.
  { intros c. unfold name_byte, elem. rewrite !andb_true_iff, !negb_true_iff, bool_decide_eq_false,
      !not_elem_of_cons. tauto. }
  unfold is_list_type, is_dict_type. rewrite chars_ascii by by apply name_ascii.
  destruct s as [|a s]; [done|]. cbn [all_bytes] in Hs. apply andb_true_iff in Hs as [Ha _].
  destruct (Hc a Ha) as [H1 H2]. cbn [bytes head].
  rewrite !(bool_decide_eq_false_2 (Some (String a "") = _)) by congruence.
  by rewrite !andb_false_r.
Qed.

Lemma print_fuelled n t v :
  multiplier_starts_with_digit → wf_rty t = true → slen (print t) < n →
  fuelled n v pkgpath (print t) false = Ok (matches t v).
Proof.
  intros Hm. revert t v. induction n as [|n IH]; intros t v Hwf Hn; [lia|].
  cbn [check_type_fuel]. unfold check_type_body.
  assert (str_is_empty (print t) = false) as ->.
  { apply bool_decide_eq_false. by apply print_nonempty. }
  cbn [orb]. rewrite is_type_union_print by done.
  destruct (is_none_or_undefined v) eqn:Ev.
  { rewrite matches_none by done. by destruct (seq _ _). }
  pose proof (print_ascii t Hwf) as Hasc. pose proof (print_no_paren t Hwf) as Hpar.
  destruct t as [|s|t|k t|t1 t2]; cbn [is_union matches]; rewrite Ev; cbn [orb].
  - done.
  - destruct (wf_name s Hwf) as (_ & _ & Hany). cbn [print].
    unfold seq at 1. rewrite bool_decide_false by done. cbn [print].
    destruct (name_not_container s Hwf) as (El & Ed & Ee).
    unfold matches_name. destruct (literal v s); [done|]. destruct (multiplier v s); [done|]. cbn [orb].
    destruct (rc v); try done; unfold check_type_dict, check_type_list; by rewrite Ee, ?El, ?Ed.
  - change (print (TList t)) with (wrapped "[" (print t) "]") in *.
    destruct (wrapped_scalar "[" (print t) "]" v Hm Hasc ltac:(auto) Hpar) as (E1 & E2 & E3).
    destruct (wrapped_not_literal "[" (print t) "]" Hasc ltac:(auto)) as (_ & Hc & _).
    destruct (is_list_type_wrapped "[" (print t) "]" Hasc) as [El Ed].
    rewrite (Hc KCL_TYPE_ANY), E1, E2 by auto.
    destruct (rc v) as [| |?|?|?|?|l|d|sc|?|? ? ?] eqn:Erc; try (by rewrite E3); try done.
    + unfold check_type_list. rewrite El, Erc. cbn [Ascii.eqb Bool.eqb andb negb].
      rewrite dereference_wrapped by done. cbn [str_is_empty wrapped mbind Res_bind].
      rewrite (all_Ok _ (matches t)); [done|]. intros w _. apply IH; [done|].
      unfold wrapped in Hn. cbn [slen] in Hn. rewrite slen_app in Hn. cbn in Hn. lia.
    + unfold check_type_dict. rewrite Ed. done.
  - rewrite print_dict in *. cbn [wf_rty] in Hwf.
    apply andb_true_iff in Hwf as [[Hk _]%is_name_bytes Hwf].
    set (s := k +:+ ":" +:+ print t) in *.
    destruct (wrapped_scalar "{" s "}" v Hm Hasc ltac:(auto) Hpar) as (E1 & E2 & E3).
    destruct (wrapped_not_literal "{" s "}" Hasc ltac:(auto)) as (_ & Hc & _).
    destruct (is_list_type_wrapped "{" s "}" Hasc) as [El Ed].
    rewrite (Hc KCL_TYPE_ANY), E1, E2 by auto.
    destruct (rc v) as [| |?|?|?|?|l|d|sc|?|? ? ?] eqn:Erc; try (by rewrite E3); try done.
    + unfold check_type_list. rewrite El. done.
    + unfold check_type_dict. rewrite Ed, Erc. cbn [Ascii.eqb Bool.eqb andb negb].
      rewrite dereference_wrapped by done. cbn [str_is_empty wrapped mbind Res_bind].
      unfold s. rewrite separate_kv_print by done. cbn [mbind Res_bind].
      rewrite (all_Ok _ (matches t)); [done|]. intros w _. apply IH; [done|].
      unfold wrapped, s in Hn. cbn [slen] in Hn. rewrite !slen_app in Hn. cbn in Hn. lia.
  - assert (seq (print (TUnion t1 t2)) KCL_TYPE_ANY = false) as ->.
    { unfold seq. apply bool_decide_eq_false. intros E.
      pose proof (f_equal (λ s, is_type_union find_quoted s) E) as E'. cbv beta in E'.
      rewrite is_type_union_print in E' by done. discriminate E'. }
    unfold check_type_union. rewrite split_type_union_print, length_fmap by done.
    pose proof (components_length (TUnion t1 t2) eq_refl) as Hlen.
    destruct (Nat.leb_spec (length (components (TUnion t1 t2))) 1); [lia|].
    rewrite <- components_matches2 by done.
    assert (∀ us, (∀ u, u ∈ us → u ∈ components (TUnion t1 t2)) →
      any (λ t, fuelled n v pkgpath t false) (print <$> us) = Ok (existsb (λ t, matches t v) us)) as Hany.
    { induction us as [|u us IHu]; intros Hus; [done|]. cbn [fmap list_fmap any existsb].
      assert (u ∈ components (TUnion t1 t2)) as Hu by (apply Hus; by left).
      destruct (components_wf _ _ Hwf Hu) as [Hwu _]. apply components_shorter in Hu as [_ Hu].
      rewrite IH by (done || (specialize (Hu eq_refl); lia)). cbn [mbind Res_bind].
      destruct (matches u v); [done|]. apply IHu. intros w Hw. apply Hus. by right. }
    by rewrite Hany.
Qed.
End Refinement.

(** ** Termination *)

Lemma strip_length s : slen (ty_str_strip s) ≤ slen s.
Proof.
  assert (∀ t, slen (trim_end t) ≤ slen t) as He.
  { induction t as [|a t IH]; simpl; [done|].
    destruct (trim_end t) eqn:E; simpl in *; [destruct (is_blank a); simpl; lia|lia]. }
  assert (∀ t, slen (trim_start t) ≤ slen t) as Hs.
  { induction t as [|a t IH]; simpl; [done|]. destruct (is_blank a); simpl; lia. }
  unfold ty_str_strip. etrans; [apply He|apply Hs].
Qed.

(** The pieces of a type and the separators between them make up the type. *)
Lemma scan_split_total find_quoted skip cs stack cur :
  (∀ c, c ∈ cs → 0 < slen c) →
  let pieces := scan_split find_quoted skip cs stack cur in
  0 < length pieces ∧
  sum_list (slen <$> pieces) + (length pieces - 1) ≤ slen cur + slen (str_concat cs).
Proof.
  revert skip stack cur. induction cs as [|c cs IH]; intros skip stack cur Hc; [simpl; lia|].
  cbn [scan_split]. assert (0 < slen c) as Hpos by (apply Hc; by left).
  assert (∀ d, d ∈ cs → 0 < slen d) as Hcs by (intros; apply Hc; by right).
  assert (∀ skip stack, let pieces := scan_split find_quoted skip cs stack (cur +:+ c) in
    0 < length pieces ∧ sum_list (slen <$> pieces) + (length pieces - 1) ≤
      slen cur + slen (str_concat (c :: cs))) as Hnext.
  { intros skip' stack'. specialize (IH skip' stack' (cur +:+ c) Hcs). cbv zeta in *.
    unfold str_concat. cbn [foldr]. rewrite slen_app in *. fold (str_concat cs). lia. }
  unfold scan_step. destruct skip; [|apply Hnext].
  destruct (seq c "|" && vec_is_empty stack).
  - specialize (IH 0 [] "" Hcs). cbv zeta in *. cbn [fmap list_fmap sum_list sum_list_with length].
    unfold str_concat. cbn [foldr]. rewrite slen_app. fold (str_concat cs).
    simpl in *. unfold id in *. lia.
  - repeat match goal with |- context [if ?b then _ else _] => destruct b end; apply Hnext.
Qed.

Lemma sum_list_elem n l : n ∈ l → n ≤ sum_list l.
Proof.
  induction l as [|m l IH]; [by intros ?%elem_of_nil|].
  intros [->|H%IH]%elem_of_cons; simpl; unfold id in *; lia.
Qed.

Lemma split_shorter find_quoted tpe t :
  1 < length (split_type_union find_quoted tpe) → t ∈ split_type_union find_quoted tpe →
  slen t < slen tpe.
Proof.
  unfold split_type_union. rewrite length_fmap. intros Hlen (p & -> & Hp)%list_elem_of_fmap_1.
  destruct (scan_split_total find_quoted 0 (chars tpe) [] "" (chars_nonempty tpe)) as [_ Hsum].
  rewrite chars_concat in Hsum. cbn [slen] in Hsum.
  pose proof (sum_list_elem (slen p) (slen <$> scan_split find_quoted 0 (chars tpe) [] ""))
    as Hin. specialize (Hin ltac:(by apply list_elem_of_fmap_2)).
  pose proof (strip_length p). lia.
Qed.

Section Termination.
Context {HP : Profile}.

Lemma slen_slice i j s : slen (str_slice i j s) ≤ j - i.
Proof. unfold str_slice. rewrite slen_take. lia. Qed.

(** Under [is_dict_type] or [is_list_type] the brackets are removed. *)
Lemma dereference_shorter tpe t :
  is_dict_type tpe = true ∨ is_list_type tpe = true →
  dereference_type tpe = Ok t → slen t < slen tpe.
Proof.
  intros Hty. pose proof (chars_length_le tpe) as Hlen.
  assert ((2 <= length (chars tpe)) ∧
          ((head (chars tpe) = Some "{" ∧ last (chars tpe) = Some "}") ∨
           (head (chars tpe) = Some "[" ∧ last (chars tpe) = Some "]"))) as [H2 Hb].
  { unfold is_dict_type, is_list_type in Hty. rewrite !andb_true_iff, !bool_decide_eq_true in Hty.
    destruct Hty as [[[Hn%Nat.leb_le ?] ?]|[[Hn%Nat.leb_le ?] ?]]; auto. }
  unfold dereference_type, first_byte, last_byte.
  destruct (Nat.ltb_spec 1 (slen tpe)) as [H1|]; [|lia].
  pose proof (slen_slice 1 (slen tpe - 1) tpe).
  destruct Hb as [[-> ->]|[-> ->]]; cbn; intros [= <-]; lia.
Qed.

Lemma separate_second e pre s stack k v :
  separate_from e pre s stack = Ok (k, v) → slen v ≤ slen s.
Proof.
  revert pre stack. induction s as [|a s IH]; intros pre stack; cbn [separate_from].
  { intros [= <- <-]. done. }
  assert (∀ pre stack, separate_from e pre s stack = Ok (k, v) → slen v ≤ S (slen s)) as Hs.
  { intros pre' stack' H%IH. lia. }
  cbn [slen]. destruct (_ || _); [apply Hs|].
  destruct (seq _ "]").
  { destruct (top_is stack "[") as [[]|]; simpl; try done. apply Hs. }
  destruct (seq _ "}").
  { destruct (top_is stack "{") as [[]|]; simpl; try done. apply Hs. }
  destruct (seq _ ":"); [|apply Hs]. destruct stack; [|done]. intros [= <- <-]. lia.
Qed.

Variable find_quoted : string → string → option string.
Variable is_number_multiplier_literal_type : string → bool.
Variable f64_to_string : f64 → string.
Variable debug_str : string → string.
Abbreviation fuelled :=
  (check_type_fuel find_quoted is_number_multiplier_literal_type f64_to_string debug_str).

(** The body asks only about shorter types. *)
Lemma check_type_body_ext check1 check2 v pkgpath tpe strict :
  (∀ w t, slen t < slen tpe → check1 w t = check2 w t) →
  check_type_body find_quoted is_number_multiplier_literal_type f64_to_string debug_str
    check1 v pkgpath tpe strict =
  check_type_body find_quoted is_number_multiplier_literal_type f64_to_string debug_str
    check2 v pkgpath tpe strict.
Proof.
  intros H. unfold check_type_body. destruct (_ || _); [done|].
  destruct (is_none_or_undefined v); [done|].
  destruct (is_type_union find_quoted tpe).
  { unfold check_type_union. destruct (Nat.leb_spec (length (split_type_union find_quoted tpe)) 1);
      [done|]. apply any_ext. intros t Ht. apply H. by apply (split_shorter find_quoted). }
  destruct (check_type_literal _ _ _ _); [done|]. destruct (check_number_multiplier_type _ _ _); [done|].
  destruct (rc v) eqn:E; try done.
  - unfold check_type_list. rewrite E. destruct (str_is_empty tpe); [done|].
    destruct (is_list_type tpe) eqn:El; cbn [negb]; [|done].
    destruct (dereference_type tpe) as [t|] eqn:Ed; cbn [mbind Res_bind]; [|done].
    apply dereference_shorter in Ed; [|auto]. apply all_ext. intros w _. by apply H.
  - unfold check_type_dict. rewrite E. destruct (str_is_empty tpe); [done|].
    destruct (is_dict_type tpe) eqn:El; cbn [negb]; [|done].
    destruct (dereference_type tpe) as [t|] eqn:Ed; cbn [mbind Res_bind]; [|done].
    apply dereference_shorter in Ed; [|auto].
    destruct (separate_kv t) as [[k u]|] eqn:Es; cbn [mbind Res_bind]; [|done].
    apply separate_second in Es. apply all_ext. intros w _. apply H. lia.
Qed.

(** Checking a type terminates on every type string, well-formed or not:
    each recursive call is on a strictly shorter string, so that any fuel above
    the length of the type gives the result of [check_type]. *)
Theorem check_type_fuel_enough n v pkgpath tpe strict :
  slen tpe < n →
  fuelled n v pkgpath tpe strict =
  check_type find_quoted is_number_multiplier_literal_type f64_to_string debug_str
    v pkgpath tpe strict.
Proof.
  assert (∀ n m v tpe strict, slen tpe < n → slen tpe < m →
    fuelled n v pkgpath tpe strict = fuelled m v pkgpath tpe strict) as H.
  { clear. induction n as [|n IH]; intros m v tpe strict Hn Hm; [lia|].
    destruct m as [|m]; [lia|]. cbn [check_type_fuel]. apply check_type_body_ext.
    intros w t Ht. apply IH; lia. }
  intros Hn. apply H; [done|]. lia.
Qed.

End Termination.

(** A recogniser that satisfies the hypothesis, for the witnesses. *)
Definition digit_first (s : string) : bool :=
  match s with String a _ => is_some (digit_of a) | EmptyString => false end.

Lemma check_type_fuel_enough_witness :
  let p := {| overflow_checks := true |} in
  check_type_fuel (λ _ _, None) digit_first (λ _, "0") (λ s, s) 10 (ref_list [ref_int 1]) "" "[int]"
    false =
  check_type (λ _ _, None) digit_first (λ _, "0") (λ s, s) (ref_list [ref_int 1]) "" "[int]" false.
Proof. intros p. apply check_type_fuel_enough. vm_compute. lia. Defined.

