(* ===== verification/Units.v ===== *)
(** * Number multipliers

    The quantities of [units/mod.rs]: printing a number in a unit, parsing a
    quantity with an SI or IEC suffix, the value of a unit, and the validation of
    a suffix. *)

From stdpp Require Import base tactics list strings numbers pretty.
From Stdlib Require Import ZArith Ascii Lia.
From S2P Require Import Prelude MachineInt IndexMap Str Float64 Value Cmp ListOps DictOps.
From S2P Require Import Arith TypeStr.
Local Open Scope Z_scope.
Local Set Warnings "-clear-no-such-hyp".

Inductive to_unit_suffix :=
  | Un | Uu | Um | Uk | UK | UM | UG | UT | UP | UKi | UMi | UGi | UTi | UPi.

Definition IEC_SUFFIX : string := "i".
Definition EXPONENTS : IndexMap string Z :=
  [("n", -3); ("u", -2); ("m", -1); ("k", 1); ("K", 1); ("M", 2); ("G", 3); ("T", 4); ("P", 5)].
Definition INVALID_UNITS : list string := ["ni"; "ui"; "mi"; "ki"].

(** The [Debug] form of a suffix, and the factor its arm divides by. *)
Definition suffix_name (suffix : to_unit_suffix) : string :=
  match suffix with
  | Un => "n" | Uu => "u" | Um => "m" | Uk => "k" | UK => "K" | UM => "M" | UG => "G" | UT => "T"
  | UP => "P" | UKi => "Ki" | UMi => "Mi" | UGi => "Gi" | UTi => "Ti" | UPi => "Pi"
  end.
(** [1e-09] and the other fractions are the doubles nearest to them, which is
    what dividing one by the power of ten rounds to. *)
Definition suffix_factor (suffix : to_unit_suffix) : f64 :=
  match suffix with
  | Un => f_div (f_of_int 1) (f_of_int (10 ^ 9))
  | Uu => f_div (f_of_int 1) (f_of_int (10 ^ 6))
  | Um => f_div (f_of_int 1) (f_of_int (10 ^ 3))
  | Uk | UK => f_of_int (10 ^ 3)
  | UM => f_of_int (10 ^ 6)
  | UG => f_of_int (10 ^ 9)
  | UT => f_of_int (10 ^ 12)
  | UP => f_of_int (10 ^ 15)
  | UKi => f_of_int (2 ^ 10)
  | UMi => f_of_int (2 ^ 20)
  | UGi => f_of_int (2 ^ 30)
  | UTi => f_of_int (2 ^ 40)
  | UPi => f_of_int (2 ^ 50)
  end.

Definition to_unit (num : f64) (suffix : to_unit_suffix) : string :=
  pretty (f_to_i64 (f_div num (suffix_factor suffix))) +:+ suffix_name suffix.

(** [number.parse::<i64>()]: an optional sign and decimal digits, in range. *)
Fixpoint digits_value (s : string) (acc : Z) : option Z :=
  match s with
  | EmptyString => Some acc
  | String a s => d ← digit_of a; digits_value s (acc * 10 + d)
  end.
Definition parse_digits1 (s : string) : option Z :=
  if str_is_empty s then None else digits_value s 0.
Definition parse_i64 (s : string) : option Z :=
  v ← match s with
      | String "-" s => Z.opp <$> parse_digits1 s
      | String "+" s => parse_digits1 s
      | s => parse_digits1 s
      end;
  if in_i64 v then Some v else None.

(** [s.ends_with("i")] *)
Definition ends_with_i (s : string) : bool := ends_with_byte "i" s.

Definition validate_unit (suffix : string) : Res unit :=
  let invalid := Panic (PanicMsg ("Invalid suffix " +:+ suffix)) in
  if str_is_empty suffix || Nat.ltb 2 (slen suffix) then invalid
  else if elem suffix INVALID_UNITS then invalid
  else k ← first_byte suffix; if contains_key k EXPONENTS then Ok tt else invalid.

(** [&quantity[i..j]]: both offsets on character boundaries. *)
Definition boundary (i : nat) (s : string) : bool :=
  match str_drop i s with
  | EmptyString => Nat.leb i (slen s)
  | String a _ => negb (is_cont a)
  end.
Definition slice_checked (i j : nat) (s : string) : Res string :=
  if boundary i s && boundary j s then Ok (str_slice i j s) else Panic CharBoundary.

Section Units.
Context {HP : Profile}.
(** [f64::powf] is the platform's [pow]. *)
Variable powf : f64 → f64 → f64.

(** The number and the suffix of a quantity. *)
Definition split_quantity (quantity : string) : Res (string * option string) :=
  let n := slen quantity in
  iec ← (if Nat.leb 2 n then s ← slice_checked (n - 1) n quantity; Ok (seq s IEC_SUFFIX)
         else Ok false);
  if iec : bool then
    k ← slice_checked (n - 2) (n - 1) quantity;
    if contains_key k EXPONENTS then
      number ← slice_checked 0 (n - 2) quantity;
      suffix ← slice_checked (n - 2) n quantity;
      Ok (number, Some suffix)
    else Ok (quantity, None)
  else if Nat.leb 1 n then
    k ← slice_checked (n - 1) n quantity;
    if contains_key k EXPONENTS then
      number ← slice_checked 0 (n - 1) quantity;
      Ok (number, Some k)
    else Ok (quantity, None)
  else Ok (quantity, None).

(** The suffix is validated by its first letter only; the exponent is used as a
    [u32]. *)
Definition to_quantity (quantity : string) : Res Z :=
  '(number, suffix) ← split_quantity quantity;
  if str_is_empty number then Panic (PanicMsg "number can't be empty")
  else
    number ← unwrap (parse_i64 number);
    match suffix with
    | None => Ok number
    | Some suffix =>
        k ← slice_checked 0 1 suffix;
        validate_unit k;;
        let base := if ends_with_i suffix then 1024 else 1000 in
        exponent ← unwrap (map_get k EXPONENTS);
        p ← arith 64 (base ^ as_u32 exponent);
        arith 64 (number * p)
    end.

Definition cal_num (value : Z) (unit : string) : Res f64 :=
  validate_unit unit;;
  iec ← (if Nat.ltb 1 (slen unit) then s ← slice_checked 1 2 unit; Ok (seq s IEC_SUFFIX)
         else Ok false);
  let base := if iec : bool then f_of_int 1024 else f_of_int 1000 in
  unit ← (if iec then slice_checked 0 1 unit else Ok unit);
  match map_get unit EXPONENTS with
  | Some exponent => Ok (f_mul (f_of_int value) (powf base (f_of_int exponent)))
  | None => Panic (PanicMsg ("invalid unit " +:+ unit))
  end.

Definition f64_unit_value (unit : string) : f64 :=
  if seq unit "n" then f_div (f_of_int 1) (f_of_int (10 ^ 9))
  else if seq unit "u" then f_div (f_of_int 1) (f_of_int (10 ^ 6))
  else if seq unit "m" then f_div (f_of_int 1) (f_of_int (10 ^ 3))
  else f_of_int 1.

Definition u64_unit_value (unit : string) : Z :=
  default 1 (map_get unit
    [("k", 1000); ("K", 1000); ("M", 1000000); ("G", 1000000000); ("T", 1000000000000);
     ("P", 1000000000000000); ("Ki", 1024); ("Mi", 1048576); ("Gi", 1073741824);
     ("Ti", 1099511627776); ("Pi", 1125899906842624)]).

(** In [i128]: the product of an [i64] and a [u64] always fits. *)
Definition real_uint_value (raw : Z) (unit : string) : Res Z :=
  arith 128 (raw * u64_unit_value unit).

End Units.

(** ** Decimal numerals *)

Fixpoint all_digits (s : string) : bool :=
  match s with
  | EmptyString => true
  | String a s => is_some (digit_of a) && all_digits s
  end.

Lemma digit_of_pretty x :
  (x < 10)%N → digit_of (pretty_N_char x) = Some (Z.of_N x).
Proof.
  intros Hx. assert (∀ n : nat, (n < 10)%nat → digit_of (pretty_N_char (N.of_nat n)) = Some (Z.of_nat n)) as H.
  { intros n Hn. do 10 (destruct n as [|n]; [reflexivity|]). lia. }
  specialize (H (N.to_nat x) ltac:(lia)). rewrite N2Nat.id in H. rewrite H. f_equal. lia.
Qed.

Lemma pretty_N_go_digits x s :
  digits_value (pretty_N_go x s) 0 = digits_value s (Z.of_N x) ∧
  ∃ p, pretty_N_go x s = p +:+ s ∧ all_digits p = true ∧ (x ≠ 0%N → p ≠ EmptyString).
Proof.
  revert s. induction (N.lt_wf_0 x) as [x _ IH]; intros s.
  destruct (decide (x = 0)%N) as [->|Hx]; [split; [done|by exists ""]|].
  rewrite pretty_N_go_step by lia.
  assert (x mod 10 < 10)%N as Hm by (apply N.mod_lt; lia).
  destruct (IH (x / 10)%N ltac:(apply N.div_lt; lia)
              (String (pretty_N_char (x mod 10)) s)) as [-> (p & -> & Hp & _)].
  split.
  - simpl. rewrite digit_of_pretty by done. simpl. f_equal.
    rewrite (N.div_mod x 10) at 3 by lia. lia.
  - exists (p +:+ String (pretty_N_char (x mod 10)) ""). split_and!.
    + by rewrite str_app_assoc.
    + clear -Hp Hm. induction p as [|a p IHp]; simpl in *.
      * by rewrite digit_of_pretty.
      * apply andb_true_iff in Hp as [-> Hp]. by apply IHp.
    + by destruct p.
Qed.

Lemma pretty_N_digits (x : N) :
  digits_value (pretty x) 0 = Some (Z.of_N x) ∧ all_digits (pretty x) = true ∧
  pretty x ≠ EmptyString.
Proof.
  unfold pretty, pretty_N. destruct (decide (x = 0)%N) as [->|Hx]; [done|].
  destruct (pretty_N_go_digits x "") as [-> (p & -> & Hp & Hne)].
  rewrite str_app_nil_r. auto.
Qed.

Lemma digit_not_sign a : is_some (digit_of a) = true → a ≠ "-"%char ∧ a ≠ "+"%char ∧ is_cont a = false.
Proof.
  intros H. split_and!.
  - by intros ->.
  - by intros ->.
  - unfold digit_of, is_cont in *. cbv zeta in H.
    destruct ((48 <=? Z.of_N (N_of_ascii a)) && (Z.of_N (N_of_ascii a) <=? 57)) eqn:E; [|done].
    apply andb_true_iff in E as [_ E%Z.leb_le]. apply andb_false_iff. left.
    apply N.leb_gt. lia.
Qed.

Lemma parse_unsigned s :
  all_digits s = true → s ≠ EmptyString →
  parse_i64 s = (v ← digits_value s 0; if in_i64 v then Some v else None).
Proof.
  intros Hs Hne. destruct s as [|a s]; [done|].
  apply andb_true_iff in Hs as [(Hm & Hp & _)%digit_not_sign _].
  unfold parse_i64.
  destruct a as [[] [] [] [] [] [] [] []]; try reflexivity; by (destruct Hm + destruct Hp).
Qed.

(** Printing an integer and parsing it back gives the integer. *)
Lemma parse_pretty z : in_i64 z = true → parse_i64 (pretty z) = Some z.
Proof.
  intros Hz. destruct z as [|x|x].
  - reflexivity.
  - change (pretty (Z.pos x)) with (pretty (N.pos x)).
    destruct (pretty_N_digits (N.pos x)) as (Hd & Hs & Hne).
    rewrite parse_unsigned, Hd by done. simpl. by rewrite Hz.
  - change (pretty (Z.neg x)) with ("-" +:+ pretty (N.pos x)).
    destruct (pretty_N_digits (N.pos x)) as (Hd & Hs & Hne).
    unfold parse_i64, parse_digits1. simpl String.append. cbv iota.
    destruct (pretty (N.pos x)) as [|a s]; [done|]. rewrite Hd. change ((if in_i64 (Z.neg x) then Some (Z.neg x) else None) = Some (Z.neg x)). by rewrite Hz.
Qed.

Lemma all_digits_snoc s :
  all_digits s = true → s ≠ EmptyString →
  ∃ p a, s = p +:+ String a "" ∧ is_some (digit_of a) = true.
Proof.
  induction s as [|a s IH]; intros Hs Hne; [done|].
  apply andb_true_iff in Hs as [Ha Hs]. destruct s as [|b s].
  - by exists "", a.
  - destruct (IH Hs) as (p & c & -> & Hc); [done|]. by exists (String a p), c.
Qed.

(** A printed integer: its first byte starts a character, its last is a digit. *)
Lemma pretty_Z_shape (z : Z) :
  boundary 0 (pretty z) = true ∧ ∃ p a, pretty z = p +:+ String a "" ∧ is_some (digit_of a) = true.
Proof.
  assert (∀ x : N, ∃ a s p b, pretty x = String a s ∧ is_cont a = false ∧
    pretty x = p +:+ String b "" ∧ is_some (digit_of b) = true) as HN.
  { intros x. destruct (pretty_N_digits x) as (_ & Hs & Hne).
    destruct (all_digits_snoc _ Hs Hne) as (p & b & Hp & Hb).
    destruct (pretty x) as [|a s]; [done|].
    apply andb_true_iff in Hs as [(_ & _ & Hc)%digit_not_sign _]. by exists a, s, p, b. }
  destruct z as [|x|x].
  - split; [done|]. by exists "", "0"%char.
  - change (pretty (Z.pos x)) with (pretty (N.pos x)).
    destruct (HN (N.pos x)) as (a & s & p & b & E & Hc & Hp & Hb). split; [|eauto].
    rewrite E. unfold boundary. simpl. by rewrite Hc.
  - change (pretty (Z.neg x)) with ("-" +:+ pretty (N.pos x)).
    destruct (HN (N.pos x)) as (a & s & p & b & E & Hc & Hp & Hb). split; [done|].
    exists ("-" +:+ p), b. by rewrite Hp.
Qed.

(** Slicing a concatenation at the end of its first part. *)
Lemma boundary_end s : boundary (slen s) s = true.
Proof. unfold boundary. rewrite <- (str_app_nil_r s) at 2. rewrite str_drop_app_slen. apply Nat.leb_refl. Qed.
Lemma boundary_app p a t : is_cont a = false → boundary (slen p) (p +:+ String a t) = true.
Proof. intros Ha. unfold boundary. rewrite str_drop_app_slen. by rewrite Ha. Qed.
Lemma boundary_0_app p t : p ≠ EmptyString → boundary 0 (p +:+ t) = boundary 0 p.
Proof. by destruct p. Qed.

Lemma slice_prefix p a t :
  p ≠ EmptyString → boundary 0 p = true → is_cont a = false →
  slice_checked 0 (slen p) (p +:+ String a t) = Ok p.
Proof.
  intros Hp H0 Ha. unfold slice_checked.
  rewrite boundary_0_app, H0, boundary_app by done. simpl. unfold str_slice. simpl.
  by rewrite Nat.sub_0_r, str_take_app_slen.
Qed.
Lemma slice_byte p a t :
  is_cont a = false → boundary 0 t = true →
  slice_checked (slen p) (S (slen p)) (p +:+ String a t) = Ok (String a "").
Proof.
  intros Ha Ht. unfold slice_checked. rewrite boundary_app by done.
  replace (boundary (S (slen p)) (p +:+ String a t)) with true.
  - simpl. unfold str_slice. rewrite str_drop_app_slen.
    replace (S (slen p) - slen p)%nat with 1%nat by lia. by destruct t.
  - symmetry. replace (p +:+ String a t) with ((p +:+ String a "") +:+ t) by apply str_app_assoc.
    replace (S (slen p)) with (slen (p +:+ String a "")) by (rewrite slen_app; simpl; lia).
    destruct t as [|b t]; [rewrite str_app_nil_r; apply boundary_end|].
    apply boundary_app. unfold boundary in Ht. simpl in Ht. by destruct (is_cont b).
Qed.
Lemma slice_suffix p a t :
  is_cont a = false →
  slice_checked (slen p) (slen (p +:+ String a t)) (p +:+ String a t) = Ok (String a t).
Proof.
  intros Ha. unfold slice_checked. rewrite boundary_app, boundary_end by done. simpl.
  unfold str_slice. rewrite str_drop_app_slen, slen_app.
  replace (slen p + slen (String a t) - slen p)%nat with (slen (String a t)) by lia.
  rewrite <- (str_app_nil_r (String a t)) at 2. by rewrite str_take_app_slen.
Qed.

(** ** Splitting a quantity *)

Section Split.
Context {HP : Profile}.
Variable s : string.
Hypothesis Hne : s ≠ EmptyString.
Hypothesis H0 : boundary 0 s = true.

(** The last byte of a string of two bytes or more. *)
Lemma last_slice p a :
  is_cont a = false →
  slice_checked (slen (p +:+ String a "") - 1) (slen (p +:+ String a "")) (p +:+ String a "") =
    Ok (String a "").
Proof using.
  intros Ha. rewrite slen_app at 1. simpl slen at 2.
  replace (slen p + 1 - 1)%nat with (slen p) by lia. by apply slice_suffix.
Qed.

Lemma split_si a :
  contains_key (String a "") EXPONENTS = true → a ≠ "i"%char → is_cont a = false →
  split_quantity (s +:+ String a "") = Ok (s, Some (String a "")).
Proof using Hne H0.
  intros Hk Hi Ha. unfold split_quantity. rewrite last_slice by done.
  replace (Nat.leb 2 (slen (s +:+ String a ""))) with true
    by (symmetry; apply Nat.leb_le; rewrite slen_app; destruct s; [done|simpl; lia]).
  cbn [mbind Res_bind].
  replace (seq (String a "") IEC_SUFFIX) with false.
  2:{ symmetry. unfold seq. apply bool_decide_false. unfold IEC_SUFFIX. congruence. }
  replace (Nat.leb 1 (slen (s +:+ String a ""))) with true
    by (symmetry; apply Nat.leb_le; rewrite slen_app; simpl; lia).
  rewrite Hk. rewrite slen_app. simpl slen.
  replace (slen s + 1 - 1)%nat with (slen s) by lia.
  by rewrite slice_prefix.
Qed.

Lemma split_iec a :
  contains_key (String a "") EXPONENTS = true → is_cont a = false →
  split_quantity (s +:+ String a "i") = Ok (s, Some (String a "i")).
Proof using Hne H0.
  intros Hk Ha.
  pose proof (last_slice (s +:+ String a "") "i" eq_refl) as Hi. rewrite str_app_assoc in Hi.
  unfold split_quantity. cbv zeta. simpl String.append in Hi at 2 4 6.
  rewrite Hi. rewrite slen_app. simpl slen.
  replace (Nat.leb 2 (slen s + 2)) with true by (symmetry; apply Nat.leb_le; lia).
  cbn [mbind Res_bind]. change (seq "i" IEC_SUFFIX) with true. cbv iota.
  replace (slen s + 2 - 2)%nat with (slen s) by lia.
  replace (slen s + 2 - 1)%nat with (S (slen s)) by lia.
  rewrite slice_byte by done. cbn [mbind Res_bind]. rewrite Hk.
  rewrite slice_prefix by done. cbn [mbind Res_bind].
  replace (slen s + 2)%nat with (slen (s +:+ String a "i")) by (by rewrite slen_app).
  by rewrite slice_suffix.
Qed.
End Split.

Lemma split_plain {HP : Profile} p a :
  is_some (digit_of a) = true → split_quantity (p +:+ String a "") = Ok (p +:+ String a "", None).
Proof.
  intros Hd. pose proof (digit_not_sign a Hd) as (_ & _ & Hc).
  assert (seq (String a "") IEC_SUFFIX = false) as Hi.
  { unfold seq. apply bool_decide_false. unfold IEC_SUFFIX. intros [= ->]. done. }
  assert (contains_key (String a "") EXPONENTS = false) as Hk.
  { destruct (contains_key (String a "") EXPONENTS) eqn:E; [|done]. exfalso.
    unfold contains_key, EXPONENTS in E. simpl in E.
    repeat (destruct (decide (_ = _)) as [[= ->]|] in E; [by vm_compute in Hd|]). done. }
  unfold split_quantity. rewrite last_slice by done.
  destruct (Nat.leb 2 _); cbn [mbind Res_bind]; rewrite ?Hi.
  - destruct (Nat.leb 1 _); [|done]. by rewrite Hk.
  - destruct (Nat.leb 1 _); [|done]. by rewrite Hk.
Qed.

(** The suffixes of whole quantities, and no suffix. *)
Definition whole_units : list string :=
  [""; "k"; "K"; "M"; "G"; "T"; "P"; "Ki"; "Mi"; "Gi"; "Ti"; "Pi"].

Lemma pow_fraction_big e : -3 ≤ e < 0 → in_i64 (1000 ^ as_u32 e) = false.
Proof.
  intros He. unfold wrap_uint. rewrite <- (Z.mod_unique e (2 ^ 32) (-1) (e + 2 ^ 32)) by lia.
  unfold in_int. apply andb_false_iff. right. apply Z.leb_gt.
  apply Z.lt_le_trans with (1000 ^ 7); [reflexivity|]. apply Z.pow_le_mono_r; lia.
Qed.

Lemma arith_overflow {HP : Profile} w v :
  overflow_checks = true → in_int w v = false → arith w v = Panic ArithOverflow.
Proof. intros Hc Hv. unfold arith. by rewrite Hv, Hc. Qed.

(** A quantity whose suffix is [unit], of first letter [k] and exponent [e]. *)
Lemma to_quantity_suffix {HP : Profile} z q k u e :
  in_i64 z = true →
  split_quantity q = Ok (pretty z, Some u) →
  slice_checked 0 1 u = Ok k → validate_unit k = Ok tt → map_get k EXPONENTS = Some e →
  to_quantity q =
    (p ← arith 64 ((if ends_with_i u then 1024 else 1000) ^ as_u32 e); arith 64 (z * p)).
Proof.
  intros Hz Hs Hk Hv He. destruct (pretty_Z_shape z) as [_ (p & a & Ep & _)].
  assert (str_is_empty (pretty z) = false) as Hne by (rewrite Ep; by destruct p).
  unfold to_quantity. rewrite Hs. cbn [mbind Res_bind].
  rewrite Hne, parse_pretty by done. cbn [mbind Res_bind unwrap].
  rewrite Hk. cbn [mbind Res_bind]. rewrite Hv. cbn [mbind Res_bind].
  rewrite He. reflexivity.
Qed.

(** Evaluates [to_quantity] on a printed number followed by a known suffix. *)
Ltac eval_suffix Hz Hne H0 :=
  match goal with
  | |- to_quantity (pretty ?z +:+ String ?a ?t) = _ =>
      let e := eval vm_compute in (map_get (String a "") EXPONENTS) in
      lazymatch e with
      | Some ?e =>
          rewrite (to_quantity_suffix z _ (String a "") (String a t) e Hz);
          [| first [exact (split_si _ Hne H0 a eq_refl ltac:(discriminate) eq_refl)
                   |exact (split_iec _ Hne H0 a eq_refl eq_refl)]
           | reflexivity.. ]
      end
  end.

(** The number and the suffix of a quantity are read back: for every
    64-bit number [z] and every whole unit, [to_quantity] of the number's
    decimal digits followed by the unit is the product of [z] and the unit's
    value as [u64_unit_value] tabulates it, computed as the build's 64-bit
    multiplication (a product out of range panics under overflow checks and
    wraps otherwise); when the product fits, it is the one [real_uint_value]
    computes. With overflow checks a fractional unit always panics. *)
Theorem to_quantity_print {HP : Profile} (z : Z) (u : string) :
  in_i64 z = true →
  (u ∈ whole_units →
    to_quantity (pretty z +:+ u) = arith 64 (z * u64_unit_value u) ∧
    (in_i64 (z * u64_unit_value u) = true →
      to_quantity (pretty z +:+ u) = Ok (z * u64_unit_value u) ∧
      real_uint_value z u = Ok (z * u64_unit_value u))) ∧
  (u ∈ ["n"; "u"; "m"] → overflow_checks = true →
    to_quantity (pretty z +:+ u) = Panic ArithOverflow).
Proof.
  intros Hz. destruct (pretty_Z_shape z) as [H0 (p & a & Ep & Hd)].
  assert (pretty z ≠ EmptyString) as Hne by (rewrite Ep; by destruct p).
  assert (str_is_empty (pretty z) = false) as He by (by destruct (pretty z)).
  assert (u ∈ whole_units → to_quantity (pretty z +:+ u) = arith 64 (z * u64_unit_value u)) as Hw.
  { intros Hu.
    repeat (apply elem_of_cons in Hu as [->|Hu]); [..|apply elem_of_nil in Hu; destruct Hu].
    { unfold to_quantity. rewrite str_app_nil_r, Ep, split_plain, <- Ep by done. cbn [mbind Res_bind].
      rewrite He, parse_pretty by done. cbn [mbind Res_bind unwrap].
      change (u64_unit_value "") with 1. rewrite Z.mul_1_r. by rewrite arith_Ok. }
    all: eval_suffix Hz Hne H0; rewrite (arith_Ok 64) by reflexivity; reflexivity. }
  split; [intros Hu; split; [auto|]; intros Hr; split|].
  - rewrite Hw, arith_Ok; done.
  - unfold real_uint_value. apply arith_Ok. revert Hr. unfold in_int, int_min, int_max.
    change (2 ^ (64 - 1)) with 9223372036854775808.
    change (2 ^ (128 - 1)) with 170141183460469231731687303715884105728. lia.
  - intros Hu Hc.
    repeat (apply elem_of_cons in Hu as [->|Hu]); [..|apply elem_of_nil in Hu; destruct Hu].
    all: eval_suffix Hz Hne H0.
    all: change (ends_with_i _) with false; cbv iota.
    all: rewrite arith_overflow; [reflexivity|exact Hc|apply pow_fraction_big; lia].
Qed.
Lemma to_quantity_print_witness :
  @to_quantity {| overflow_checks := true |} "-12Mi" = Ok (-12582912).
Proof.
  destruct (@to_quantity_print {| overflow_checks := true |} (-12) "Mi" eq_refl) as [H _].
  destruct H as [_ H]; [by apply (bool_decide_unpack _); vm_compute|].
  destruct (H eq_refl) as [H1 _]. exact H1.
Defined.

(** A second letter is validated only against the four excluded pairs, and
    [to_quantity] validates the first letter alone. *)
Example suffix_checks :
  validate_unit "kx" = Ok tt ∧
  validate_unit "ki" = Panic (PanicMsg "Invalid suffix ki") ∧
  @to_quantity {| overflow_checks := true |} "1ki" = Ok 1024.
Proof. split_and!; reflexivity. Qed.
