(* ===== verification/SemaTypes.v ===== *)
(** * The static types of the checker

    [crates/sema/src/ty]: the types, their flags, constructors, downcasts and
    printed forms ([mod.rs], [constants.rs], [constructor.rs], [into.rs]); the
    assignability relation [subsume], the equality of types, the supremum of a
    list of types ([unify.rs]); the lookup and update of schema attributes.

    A [TypeRef] is an [Arc<Type>]: the address of the cell, by which [typeof]
    de-duplicates, and the fields of the type in it. *)

From stdpp Require Import base tactics list strings numbers pretty sorting.
From Stdlib Require Import ZArith Lia.
From S2P Require Import Prelude IndexMap Str Float64.
Local Open Scope Z_scope.
Local Set Warnings "-clear-no-such-hyp,-register-all".

(** ** Data *)

Record Position := MkPosition { filename : string; line : Z; column : option Z }.
#[export] Instance Position_eq_dec : EqDecision Position.
Proof. solve_decision. Defined.
Definition Range : Type := Position * Position.

Definition dummy_pos : Position := MkPosition "" 1 None.

Record Example_doc := MkExample { summary : string; description : string; ex_value : string }.
#[export] Instance Example_eq_dec : EqDecision Example_doc.
Proof. solve_decision. Defined.

Inductive ModuleKind := User | System | Plugin.
#[export] Instance ModuleKind_eq_dec : EqDecision ModuleKind.
Proof. solve_decision. Defined.
Inductive DecoratorTarget := TargetSchema | TargetAttribute.
#[export] Instance DecoratorTarget_eq_dec : EqDecision DecoratorTarget.
Proof. solve_decision. Defined.
Record ModuleType := MkModuleType {
  module_pkgpath : string; imported : list string; module_kind : ModuleKind }.
Record Decorator := MkDecorator {
  target : DecoratorTarget; decorator_name : string; decorator_key : string;
  arguments : list string; keywords : IndexMap string string }.
Record NumberMultiplierType := MkNumberMultiplierType {
  value : f64; raw_value : Z; binary_suffix : string; nm_is_literal : bool }.
#[export] Instance ModuleType_eq_dec : EqDecision ModuleType.
Proof. solve_decision. Defined.

(** The parts of a type; [R] is the reference to a type. *)
Inductive Param (R : Type) :=
  | MkParam (name : string) (ty : R) (has_default : bool) (default_value : option string)
      (range : Range).
Arguments MkParam {R}.
Inductive FunctionType (R : Type) :=
  | MkFunctionType (doc : string) (params : list (Param R)) (self_ty : option R)
      (return_ty : R) (is_variadic : bool) (kw_only_index : option nat).
Arguments MkFunctionType {R}.
Inductive Attr (R : Type) :=
  | MkAttr (ty : R) (range : Range).
Arguments MkAttr {R}.
Inductive DictType (R : Type) :=
  | MkDictType (key_ty val_ty : R) (attrs : IndexMap string (Attr R)).
Arguments MkDictType {R}.
Inductive SchemaAttr (R : Type) :=
  | MkSchemaAttr (is_optional has_default : bool) (default : option string) (ty : R)
      (range : Range) (doc : option string) (decorators : list Decorator).
Arguments MkSchemaAttr {R}.
Inductive SchemaIndexSignature (R : Type) :=
  | MkSchemaIndexSignature (key_name : option string) (key_ty val_ty : R) (any_other : bool).
Arguments MkSchemaIndexSignature {R}.
Inductive SchemaType (R : Type) :=
  | MkSchemaType (name pkgpath filename doc : string) (examples : IndexMap string Example_doc)
      (is_instance is_mixin is_protocol is_rule : bool)
      (base protocol : option (SchemaType R)) (mixins : list (SchemaType R))
      (attrs : IndexMap string (SchemaAttr R)) (fn : FunctionType R)
      (index_signature : option (SchemaIndexSignature R)) (decorators : list Decorator).
Arguments MkSchemaType {R}.

Inductive TypeKind (R : Type) :=
  | TNone
  | TAny
  | TBool
  | TBoolLit (v : bool)
  | TInt
  | TIntLit (v : Z)
  | TFloat
  | TFloatLit (v : f64)
  | TStr
  | TStrLit (v : string)
  | TList (item_ty : R)
  | TDict (d : DictType R)
  | TUnion (types : list R)
  | TSchema (s : SchemaType R)
  | TNumberMultiplier (n : NumberMultiplierType)
  | TFunction (f : FunctionType R)
  | TVoid
  | TModule (m : ModuleType)
  | TNamed (name : string).
Arguments TNone {R}. Arguments TAny {R}. Arguments TBool {R}. Arguments TBoolLit {R}.
Arguments TInt {R}. Arguments TIntLit {R}. Arguments TFloat {R}. Arguments TFloatLit {R}.
Arguments TStr {R}. Arguments TStrLit {R}. Arguments TList {R}. Arguments TDict {R}.
Arguments TUnion {R}. Arguments TSchema {R}. Arguments TNumberMultiplier {R}.
Arguments TFunction {R}. Arguments TVoid {R}. Arguments TModule {R}. Arguments TNamed {R}.

Unset Elimination Schemes.
Inductive TypeRef :=
  | Arc (addr : positive) (kind : TypeKind TypeRef) (is_type_alias : bool) (flags : Z).
Set Elimination Schemes.

Definition addr (t : TypeRef) : positive := match t with Arc a _ _ _ => a end.
Definition kind (t : TypeRef) : (TypeKind TypeRef) := match t with Arc _ k _ _ => k end.
Definition flags (t : TypeRef) : Z := match t with Arc _ _ _ f => f end.

Definition param_ty (p : (Param TypeRef)) : TypeRef := match p with MkParam _ ty _ _ _ => ty end.
Definition params (f : (FunctionType TypeRef)) : list (Param TypeRef) :=
  match f with MkFunctionType _ ps _ _ _ _ => ps end.
Definition return_ty (f : (FunctionType TypeRef)) : TypeRef :=
  match f with MkFunctionType _ _ _ r _ _ => r end.

Definition schema_name (s : (SchemaType TypeRef)) : string :=
  match s with MkSchemaType n _ _ _ _ _ _ _ _ _ _ _ _ _ _ _ => n end.
Definition schema_pkgpath (s : (SchemaType TypeRef)) : string :=
  match s with MkSchemaType _ p _ _ _ _ _ _ _ _ _ _ _ _ _ _ => p end.
Definition is_instance (s : (SchemaType TypeRef)) : bool :=
  match s with MkSchemaType _ _ _ _ _ b _ _ _ _ _ _ _ _ _ _ => b end.
Definition base (s : (SchemaType TypeRef)) : option (SchemaType TypeRef) :=
  match s with MkSchemaType _ _ _ _ _ _ _ _ _ b _ _ _ _ _ _ => b end.
Definition protocol (s : (SchemaType TypeRef)) : option (SchemaType TypeRef) :=
  match s with MkSchemaType _ _ _ _ _ _ _ _ _ _ p _ _ _ _ _ => p end.
Definition schema_attrs (s : (SchemaType TypeRef)) : IndexMap string (SchemaAttr TypeRef) :=
  match s with MkSchemaType _ _ _ _ _ _ _ _ _ _ _ _ a _ _ _ => a end.
Definition index_signature (s : (SchemaType TypeRef)) : option (SchemaIndexSignature TypeRef) :=
  match s with MkSchemaType _ _ _ _ _ _ _ _ _ _ _ _ _ _ i _ => i end.
Definition set_schema_attrs (a : IndexMap string (SchemaAttr TypeRef)) (s : (SchemaType TypeRef)) : (SchemaType TypeRef) :=
  match s with
  | MkSchemaType n p f d e i m pr r b pt mx _ fn ix ds =>
      MkSchemaType n p f d e i m pr r b pt mx a fn ix ds
  end.
Definition attr_ty (a : (SchemaAttr TypeRef)) : TypeRef := match a with MkSchemaAttr _ _ _ ty _ _ _ => ty end.
Definition set_attr_ty (ty : TypeRef) (a : (SchemaAttr TypeRef)) : (SchemaAttr TypeRef) :=
  match a with MkSchemaAttr o h d _ r dc ds => MkSchemaAttr o h d ty r dc ds end.

(** ** Flags *)

Definition VOID : Z := Z.shiftl 1 0.
Definition INT : Z := Z.shiftl 1 1.
Definition FLOAT : Z := Z.shiftl 1 2.
Definition STR : Z := Z.shiftl 1 3.
Definition BOOL : Z := Z.shiftl 1 4.
Definition ANY : Z := Z.shiftl 1 5.
Definition NONE : Z := Z.shiftl 1 6.
Definition LIST : Z := Z.shiftl 1 7.
Definition DICT : Z := Z.shiftl 1 8.
Definition SCHEMA : Z := Z.shiftl 1 9.
Definition UNION : Z := Z.shiftl 1 10.
Definition LITERAL : Z := Z.shiftl 1 11.
Definition NUMBER_MULTIPLIER : Z := Z.shiftl 1 12.
Definition FUNCTION : Z := Z.shiftl 1 13.
Definition MODULE : Z := Z.shiftl 1 14.
Definition NAMED : Z := Z.shiftl 1 15.

Definition contains_flags (t : TypeRef) (flag : Z) : bool := Z.land (flags t) flag =? flag.

Definition is_any t := contains_flags t ANY.
Definition is_int t := contains_flags t INT.
Definition is_float t := contains_flags t FLOAT.
Definition is_bool t := contains_flags t BOOL.
Definition is_str t := contains_flags t STR.
Definition is_literal t := contains_flags t LITERAL.
Definition is_none t := contains_flags t NONE.
Definition is_none_or_any t := is_none t || is_any t.
Definition is_number t := contains_flags t INT || contains_flags t FLOAT.
Definition is_void t := contains_flags t VOID.
Definition is_list t := contains_flags t LIST.
Definition is_dict t := contains_flags t DICT.
Definition is_schema t := contains_flags t SCHEMA.
Definition is_dict_or_schema t := is_dict t || is_schema t.
Definition is_union t := contains_flags t UNION.
Definition is_iterable t := is_str t || is_list t || is_dict t || is_schema t.
Definition is_func t := contains_flags t FUNCTION.
Definition is_number_multiplier t := contains_flags t NUMBER_MULTIPLIER.
Definition is_module t := contains_flags t MODULE.

Definition is_schema_def (t : TypeRef) : bool :=
  match kind t with TSchema s => negb (is_instance s) | _ => false end.
Definition is_primitive (t : TypeRef) : bool :=
  match kind t with TBool | TInt | TFloat | TStr => true | _ => false end.
Definition is_assignable_type (t : TypeRef) : bool :=
  match kind t with TVoid | TModule _ | TNamed _ => false | _ => true end.
Fixpoint is_key (t : TypeRef) : bool :=
  match t with
  | Arc _ k _ _ =>
      match k with
      | TStr | TStrLit _ => true
      | TUnion types => forallb is_key types
      | _ => false
      end
  end.

(** ** Constructors

    Each is given the address of the cell [Arc::new] allocates. *)

Definition any_ref (a : positive) : TypeRef := Arc a TAny false ANY.
Definition int_ref (a : positive) : TypeRef := Arc a TInt false INT.
Definition float_ref (a : positive) : TypeRef := Arc a TFloat false FLOAT.
Definition bool_ref (a : positive) : TypeRef := Arc a TBool false BOOL.
Definition str_ref (a : positive) : TypeRef := Arc a TStr false STR.
Definition none_ref (a : positive) : TypeRef := Arc a TNone false NONE.
Definition void_ref (a : positive) : TypeRef := Arc a TVoid false VOID.
Definition union (a : positive) (types : list TypeRef) : TypeRef := Arc a (TUnion types) false UNION.
Definition list_of (a : positive) (item_ty : TypeRef) : TypeRef := Arc a (TList item_ty) false LIST.
Definition dict_with_attrs (a : positive) (key_ty val_ty : TypeRef) (attrs : IndexMap string (Attr TypeRef))
    : TypeRef := Arc a (TDict (MkDictType key_ty val_ty attrs)) false DICT.
Definition dict (a : positive) (key_ty val_ty : TypeRef) : TypeRef :=
  dict_with_attrs a key_ty val_ty [].
Definition bool_lit (a : positive) (v : bool) : TypeRef :=
  Arc a (TBoolLit v) false (Z.lor BOOL LITERAL).
Definition int_lit (a : positive) (num : Z) : TypeRef :=
  Arc a (TIntLit num) false (Z.lor INT LITERAL).
Definition float_lit (a : positive) (num : f64) : TypeRef :=
  Arc a (TFloatLit num) false (Z.lor FLOAT LITERAL).
Definition str_lit (a : positive) (v : string) : TypeRef :=
  Arc a (TStrLit v) false (Z.lor STR LITERAL).
Definition named (a : positive) (v : string) : TypeRef := Arc a (TNamed v) false NAMED.
Definition number_multiplier (a : positive) (v : f64) (raw : Z) (suffix : string) : TypeRef :=
  Arc a (TNumberMultiplier (MkNumberMultiplierType v raw suffix true)) false NUMBER_MULTIPLIER.
Definition number_multiplier_non_lit_ty (a : positive) : TypeRef :=
  Arc a (TNumberMultiplier (MkNumberMultiplierType f_zero 0 "" false)) false NUMBER_MULTIPLIER.
Definition function (a : positive) (self_ty : option TypeRef) (return_ty : TypeRef)
    (params : list (Param TypeRef)) (doc : string) (is_variadic : bool) (kw_only_index : option nat)
    : TypeRef :=
  Arc a (TFunction (MkFunctionType doc params self_ty return_ty is_variadic kw_only_index)) false
    FUNCTION.
Definition module (a : positive) (pkgpath : string) (imported : list string) (kind : ModuleKind)
    : TypeRef := Arc a (TModule (MkModuleType pkgpath imported kind)) false MODULE.
Definition schema (a : positive) (schema_ty : (SchemaType TypeRef)) : TypeRef :=
  Arc a (TSchema schema_ty) false SCHEMA.

(** ** Schema types *)

Definition MAIN_PKG : string := "__main__".
Definition SCHEMA_MEMBER_FUNCTIONS : list string := ["instances"].

Definition full_ty_str (pkgpath name : string) : string :=
  if bool_decide (pkgpath = "") || bool_decide (pkgpath = MAIN_PKG) then name
  else pkgpath +:+ "." +:+ name.
Definition schema_full_ty_str (s : (SchemaType TypeRef)) : string :=
  full_ty_str (schema_pkgpath s) (schema_name s).
Definition ty_str_with_at_pkgpath_prefix (s : (SchemaType TypeRef)) : string :=
  if bool_decide (schema_pkgpath s = "") || bool_decide (schema_pkgpath s = MAIN_PKG)
  then schema_name s else "@" +:+ schema_pkgpath s +:+ "." +:+ schema_name s.
Definition is_member_functions (s : (SchemaType TypeRef)) (name : string) : bool :=
  negb (is_instance s) && bool_decide (name ∈ SCHEMA_MEMBER_FUNCTIONS).

Definition set_type_of_attr (attr : string) (ty : TypeRef) (s : (SchemaType TypeRef)) : (SchemaType TypeRef) :=
  set_schema_attrs
    (map_insert attr
       (match map_get attr (schema_attrs s) with
        | Some a => set_attr_ty ty a
        | None => MkSchemaAttr true false None ty (dummy_pos, dummy_pos) None []
        end) (schema_attrs s)) s.

(** The attributes of a schema, then those of its bases, and of the protocol of
    the first schema on that chain without a base. *)
Fixpoint get_obj_of_attr (attr : string) (s : (SchemaType TypeRef)) : option (SchemaAttr TypeRef) :=
  match s with
  | MkSchemaType _ _ _ _ _ _ _ _ _ base protocol _ attrs _ _ _ =>
      match map_get attr attrs with
      | Some a => Some a
      | None =>
          match base with
          | Some b => get_obj_of_attr attr b
          | None => match protocol with Some p => get_obj_of_attr attr p | None => None end
          end
      end
  end.
Definition get_type_of_attr (attr : string) (s : (SchemaType TypeRef)) : option TypeRef :=
  attr_ty <$> get_obj_of_attr attr s.

(** [is_sub_schema_of]: a schema on the base chain has the full name. *)
Fixpoint is_sub_schema_of (schema_ty_lhs schema_ty_rhs : (SchemaType TypeRef)) : bool :=
  match schema_ty_lhs with
  | MkSchemaType name pkgpath _ _ _ _ _ _ _ base _ _ _ _ _ _ =>
      if bool_decide (full_ty_str pkgpath name = schema_full_ty_str schema_ty_rhs) then true
      else match base with
           | Some base => is_sub_schema_of base schema_ty_rhs
           | None => false
           end
  end.

(** ** Equality

    The derived [PartialEq]: structural, not looking at addresses; maps are
    compared without regard to their order, floats as [f64]s. *)
Section Eq.
Context {A : Type} (eq : A → A → bool).
Fixpoint list_eq (l l' : list A) : bool :=
  match l, l' with
  | [], [] => true
  | x :: l, x' :: l' => eq x x' && list_eq l l'
  | _, _ => false
  end.
Definition option_eq (o o' : option A) : bool :=
  match o, o' with
  | None, None => true
  | Some x, Some x' => eq x x'
  | _, _ => false
  end.
Fixpoint entries_eq (m m' : IndexMap string A) : bool :=
  match m with
  | [] => true
  | (k, v) :: m =>
      match map_get k m' with Some v' => eq v v' && entries_eq m m' | None => false end
  end.
Definition map_eq (m m' : IndexMap string A) : bool :=
  Nat.eqb (length m) (length m') && entries_eq m m'.
End Eq.

Definition string_eq (a b : string) : bool := bool_decide (a = b).
Definition number_multiplier_eq (n n' : NumberMultiplierType) : bool :=
  f_eq (value n) (value n') && (raw_value n =? raw_value n') &&
  string_eq (binary_suffix n) (binary_suffix n') &&
  Bool.eqb (nm_is_literal n) (nm_is_literal n').
Definition decorator_eq (d d' : Decorator) : bool :=
  bool_decide (target d = target d') && string_eq (decorator_name d) (decorator_name d') &&
  string_eq (decorator_key d) (decorator_key d') &&
  bool_decide (arguments d = arguments d') && map_eq string_eq (keywords d) (keywords d').

Section Parts.
Context {R : Type} (type_eq : R → R → bool).

Definition param_eq (p p' : Param R) : bool :=
  match p, p' with
  | MkParam n ty h d r, MkParam n' ty' h' d' r' =>
      string_eq n n' && type_eq ty ty' && Bool.eqb h h' && bool_decide (d = d') &&
      bool_decide (r = r')
  end.
Definition function_type_eq (f f' : FunctionType R) : bool :=
  match f, f' with
  | MkFunctionType d ps s r v kw, MkFunctionType d' ps' s' r' v' kw' =>
      string_eq d d' && list_eq param_eq ps ps' && option_eq type_eq s s' && type_eq r r' &&
      Bool.eqb v v' && bool_decide (kw = kw')
  end.
Definition attr_eq (a a' : Attr R) : bool :=
  match a, a' with MkAttr ty r, MkAttr ty' r' => type_eq ty ty' && bool_decide (r = r') end.
Definition dict_type_eq (d d' : DictType R) : bool :=
  match d, d' with
  | MkDictType k v attrs, MkDictType k' v' attrs' =>
      type_eq k k' && type_eq v v' && map_eq attr_eq attrs attrs'
  end.
Definition schema_attr_eq (a a' : SchemaAttr R) : bool :=
  match a, a' with
  | MkSchemaAttr o h d ty r dc ds, MkSchemaAttr o' h' d' ty' r' dc' ds' =>
      Bool.eqb o o' && Bool.eqb h h' && bool_decide (d = d') && type_eq ty ty' &&
      bool_decide (r = r') && bool_decide (dc = dc') && list_eq decorator_eq ds ds'
  end.
Definition index_signature_eq (i i' : SchemaIndexSignature R) : bool :=
  match i, i' with
  | MkSchemaIndexSignature n k v o, MkSchemaIndexSignature n' k' v' o' =>
      bool_decide (n = n') && type_eq k k' && type_eq v v' && Bool.eqb o o'
  end.
Fixpoint schema_type_eq (s s' : SchemaType R) {struct s} : bool :=
  match s, s' with
  | MkSchemaType n p f d e i m pr r b pt mx a fn ix ds,
    MkSchemaType n' p' f' d' e' i' m' pr' r' b' pt' mx' a' fn' ix' ds' =>
      string_eq n n' && string_eq p p' && string_eq f f' && string_eq d d' &&
      map_eq (λ x y, bool_decide (x = y)) e e' && Bool.eqb i i' && Bool.eqb m m' &&
      Bool.eqb pr pr' && Bool.eqb r r' && option_eq schema_type_eq b b' &&
      option_eq schema_type_eq pt pt' && list_eq schema_type_eq mx mx' &&
      map_eq schema_attr_eq a a' && function_type_eq fn fn' &&
      option_eq index_signature_eq ix ix' && list_eq decorator_eq ds ds'
  end.
Definition kind_eq_with (k k' : TypeKind R) : bool :=
  match k, k' with
  | TNone, TNone | TAny, TAny | TBool, TBool | TInt, TInt | TFloat, TFloat | TStr, TStr
  | TVoid, TVoid => true
  | TBoolLit v, TBoolLit v' => Bool.eqb v v'
  | TIntLit v, TIntLit v' => v =? v'
  | TFloatLit v, TFloatLit v' => f_eq v v'
  | TStrLit v, TStrLit v' => string_eq v v'
  | TList t, TList t' => type_eq t t'
  | TDict d, TDict d' => dict_type_eq d d'
  | TUnion ts, TUnion ts' => list_eq type_eq ts ts'
  | TSchema s, TSchema s' => schema_type_eq s s'
  | TNumberMultiplier n, TNumberMultiplier n' => number_multiplier_eq n n'
  | TFunction f, TFunction f' => function_type_eq f f'
  | TModule m, TModule m' => bool_decide (m = m')
  | TNamed n, TNamed n' => string_eq n n'
  | _, _ => false
  end.
End Parts.

Fixpoint type_eq (a b : TypeRef) {struct a} : bool :=
  match a, b with
  | Arc _ k al fl, Arc _ k' al' fl' => kind_eq_with type_eq k k' && Bool.eqb al al' && (fl =? fl')
  end.

Definition kind_eq (k k' : TypeKind TypeRef) : bool := kind_eq_with type_eq k k'.

(** ** Printed forms *)

Definition INT_TYPE_STR : string := "int".
Definition FLOAT_TYPE_STR : string := "float".
Definition STR_TYPE_STR : string := "str".
Definition BOOL_TYPE_STR : string := "bool".
Definition ANY_TYPE_STR : string := "any".
Definition NONE_TYPE_STR : string := "NoneType".
Definition NUMBER_MULTIPLIER_TYPE_STR : string := "number_multiplier".
Definition MODULE_TYPE_STR : string := "module".
Definition VOID_TYPE_STR : string := "void".
Definition NAME_CONSTANT_TRUE : string := "True".
Definition NAME_CONSTANT_FALSE : string := "False".

Definition number_multiplier_ty_str (n : NumberMultiplierType) : string :=
  if nm_is_literal n
  then NUMBER_MULTIPLIER_TYPE_STR +:+ "(" +:+ pretty (raw_value n) +:+ binary_suffix n +:+ ")"
  else NUMBER_MULTIPLIER_TYPE_STR.

Section Types.
(** [v.to_string()] of an [f64]. *)
Variable f64_to_string : f64 → string.

(** [format!("{}({})", tag, v)] *)
Definition tagged (tag v : string) : string := tag +:+ "(" +:+ v +:+ ")".

Fixpoint ty_str (t : TypeRef) : string :=
  match t with
  | Arc _ k _ _ =>
      match k with
      | TNone => NONE_TYPE_STR
      | TAny => ANY_TYPE_STR
      | TBool => BOOL_TYPE_STR
      | TBoolLit v => tagged BOOL_TYPE_STR (if v then NAME_CONSTANT_TRUE else NAME_CONSTANT_FALSE)
      | TInt => INT_TYPE_STR
      | TIntLit v => tagged INT_TYPE_STR (pretty v)
      | TFloat => FLOAT_TYPE_STR
      | TFloatLit v => tagged FLOAT_TYPE_STR (f64_to_string v)
      | TStr => STR_TYPE_STR
      | TStrLit v => tagged STR_TYPE_STR v
      | TList item_ty => "[" +:+ ty_str item_ty +:+ "]"
      | TDict (MkDictType key_ty val_ty _) => "{" +:+ ty_str key_ty +:+ ":" +:+ ty_str val_ty +:+ "}"
      | TUnion types => String.concat " | " (map ty_str types)
      | TSchema s => schema_name s
      | TNumberMultiplier n => number_multiplier_ty_str n
      | TFunction (MkFunctionType _ params _ return_ty _ _) =>
          "(" +:+
          String.concat ", " (map (λ p, match p with MkParam _ ty _ _ _ => ty_str ty end) params) +:+
          ") -> " +:+ ty_str return_ty
      | TVoid => VOID_TYPE_STR
      | TModule m => MODULE_TYPE_STR +:+ " '" +:+ module_pkgpath m +:+ "'"
      | TNamed name => name
      end
  end.

(** ** Downcasts *)

Definition bug {A} (msg : string) : Res A :=
  Panic (PanicMsg ("Internal error, please report a bug to us. The error message is: " +:+ msg)).

Definition list_item_ty (t : TypeRef) : Res TypeRef :=
  match kind t with TList item_ty => Ok item_ty | _ => bug ("invalid list type " +:+ ty_str t) end.
Definition dict_entry_ty (t : TypeRef) : Res (TypeRef * TypeRef) :=
  match kind t with
  | TDict (MkDictType key_ty val_ty _) => Ok (key_ty, val_ty)
  | _ => bug ("invalid dict type " +:+ ty_str t)
  end.
Definition union_types (t : TypeRef) : Res (list TypeRef) :=
  match kind t with
  | TUnion types => Ok types
  | _ => bug ("invalid " +:+ ty_str t +:+ " into union type")
  end.
Definition into_schema_type (t : TypeRef) : Res (SchemaType TypeRef) :=
  match kind t with
  | TSchema s => Ok s
  | _ => bug ("invalid type " +:+ ty_str t +:+ " into schema type")
  end.
Definition into_func_type (t : TypeRef) : Res (FunctionType TypeRef) :=
  match kind t with
  | TFunction f => Ok f
  | _ => bug ("invalid type " +:+ ty_str t +:+ " into function type")
  end.
Definition into_number_multiplier (t : TypeRef) : Res NumberMultiplierType :=
  match kind t with
  | TNumberMultiplier n => Ok n
  | _ => bug ("invalid type " +:+ ty_str t +:+ " into number multiplier type")
  end.

(** ** Assignability *)

(** Are the two types exactly equal. *)
Definition equal (ty_lhs ty_rhs : TypeRef) : bool := kind_eq (kind ty_lhs) (kind ty_rhs).

Definition number_multiplier_subsume (ty_lhs ty_rhs : NumberMultiplierType) : bool :=
  if nm_is_literal ty_lhs && nm_is_literal ty_rhs then
    (raw_value ty_lhs =? raw_value ty_rhs) &&
    string_eq (binary_suffix ty_lhs) (binary_suffix ty_rhs)
  else if nm_is_literal ty_lhs && negb (nm_is_literal ty_rhs) then true
  else nm_is_literal ty_lhs || negb (nm_is_literal ty_rhs).

(** The body of [subsume]; [sub] is the recursive call. *)
Section Subsume.
Variable sub : TypeRef → TypeRef → bool → Res bool.

(** The loop over the parameters of two functions: contravariant. *)
Fixpoint subsume_params (ps ps' : list (Param TypeRef)) (check_left_any : bool) : Res bool :=
  match ps, ps' with
  | p :: ps, p' :: ps' =>
      b ← sub (param_ty p') (param_ty p) check_left_any;
      if (b : bool) then subsume_params ps ps' check_left_any else Ok false
  | _, _ => Ok true
  end.

Definition subsume_body (ty_lhs ty_rhs : TypeRef) (check_left_any : bool) : Res bool :=
  if (check_left_any && is_any ty_lhs) || (is_any ty_rhs || is_none ty_lhs) then Ok true
  else if is_union ty_lhs then
    types ← union_types ty_lhs; all (λ ty, sub ty ty_rhs false) types
  else if is_union ty_rhs then
    types ← union_types ty_rhs; any (λ ty, sub ty_lhs ty false) types
  else if is_schema ty_lhs then
    match kind ty_rhs with
    | TSchema ty_rhs_schema =>
        s ← into_schema_type ty_lhs; Ok (is_sub_schema_of s ty_rhs_schema)
    | _ => Ok false
    end
  else if is_int ty_lhs && is_float ty_rhs then Ok true
  else if is_number_multiplier ty_lhs && is_number_multiplier ty_rhs then
    l ← into_number_multiplier ty_lhs;
    r ← into_number_multiplier ty_rhs;
    Ok (number_multiplier_subsume l r)
  else if is_primitive ty_lhs && is_primitive ty_rhs then Ok (kind_eq (kind ty_lhs) (kind ty_rhs))
  else if is_literal ty_lhs then
    if is_literal ty_rhs then Ok (kind_eq (kind ty_lhs) (kind ty_rhs))
    else if is_primitive ty_rhs then
      if is_float ty_rhs && negb (is_str ty_lhs) then Ok true
      else Ok (str_contains (ty_str ty_rhs) (ty_str ty_lhs))
    else Ok false
  else if is_list ty_lhs && is_list ty_rhs then
    l ← list_item_ty ty_lhs; r ← list_item_ty ty_rhs; sub l r check_left_any
  else if is_dict ty_lhs && is_dict ty_rhs then
    '(lk, lv) ← dict_entry_ty ty_lhs;
    '(rk, rv) ← dict_entry_ty ty_rhs;
    b ← sub lk rk check_left_any;
    if (b : bool) then sub lv rv check_left_any else Ok false
  else if is_str ty_lhs && is_literal ty_rhs && is_str ty_rhs then Ok true
  else if is_func ty_lhs && is_func ty_rhs then
    l ← into_func_type ty_lhs;
    r ← into_func_type ty_rhs;
    if Nat.eqb (length (params l)) (length (params r)) then
      b ← subsume_params (params l) (params r) check_left_any;
      if (b : bool) then sub (return_ty l) (return_ty r) check_left_any else Ok false
    else Ok false
  else Ok (equal ty_lhs ty_rhs).
End Subsume.

(** The number of cells [subsume] can descend through. *)
Fixpoint type_size (t : TypeRef) : nat :=
  match t with
  | Arc _ k _ _ =>
      S (match k with
         | TList item_ty => type_size item_ty
         | TDict (MkDictType key_ty val_ty _) => type_size key_ty + type_size val_ty
         | TUnion types => sum_list_with type_size types
         | TFunction (MkFunctionType _ params _ return_ty _ _) =>
             sum_list_with (λ p, match p with MkParam _ ty _ _ _ => type_size ty end) params +
             type_size return_ty
         | _ => 0
         end)
  end.

(** Every recursive call is on types that are smaller taken together: the sum
    of the sizes is fuel enough ([subsume_fuel_enough]). *)
Fixpoint subsume_fuel (fuel : nat) (ty_lhs ty_rhs : TypeRef) (check_left_any : bool) : Res bool :=
  match fuel with
  | O => Panic AssertionFailed
  | S fuel => subsume_body (subsume_fuel fuel) ty_lhs ty_rhs check_left_any
  end.
Definition subsume (ty_lhs ty_rhs : TypeRef) (check_left_any : bool) : Res bool :=
  subsume_fuel (type_size ty_lhs + type_size ty_rhs) ty_lhs ty_rhs check_left_any.

Definition assignable_to (ty expected_ty : TypeRef) : Res bool :=
  if negb (is_assignable_type ty) then Ok false else subsume ty expected_ty true.
Definition is_upper_bound (lhs_ty rhs_ty : TypeRef) : Res bool := subsume rhs_ty lhs_ty false.
Definition has_any_type (types : list TypeRef) : bool := existsb is_any types.

(** ** The supremum of a list of types *)

(** [add_types_to_type_set]: unions are flattened, [void] is dropped, and a cell
    already there is not added again. *)
Fixpoint add_type_to_type_set (type_set : IndexMap positive TypeRef) (ty : TypeRef)
    : IndexMap positive TypeRef :=
  match ty with
  | Arc a k al fl =>
      match k with
      | TUnion types => fold_left add_type_to_type_set types type_set
      | _ =>
          let ty := Arc a k al fl in
          if negb (is_void ty) && negb (contains_key a type_set) then map_insert a ty type_set
          else type_set
      end
  end.
Definition add_types_to_type_set (type_set : IndexMap positive TypeRef) (types : list TypeRef)
    : IndexMap positive TypeRef := fold_left add_type_to_type_set types type_set.

(** The loop over the types after [source], with the set of addresses marked for
    removal; a [source] that is removed ends it. *)
Fixpoint mark_targets (source_addr : positive) (source : TypeRef)
    (targets : IndexMap positive TypeRef) (removed : list positive) : Res (list positive) :=
  match targets with
  | [] => Ok removed
  | (target_addr, target) :: targets =>
      if bool_decide (target_addr ∈ removed) || bool_decide (source_addr = target_addr) then
        mark_targets source_addr source targets removed
      else if equal source target then
        mark_targets source_addr source targets (target_addr :: removed)
      else
        b ← subsume source target false;
        if (b : bool) then Ok (source_addr :: removed)
        else
          b ← subsume target source false;
          if (b : bool) then mark_targets source_addr source targets (target_addr :: removed)
          else mark_targets source_addr source targets removed
  end.
Fixpoint mark_sub_types (type_set : IndexMap positive TypeRef) (removed : list positive)
    : Res (list positive) :=
  match type_set with
  | [] => Ok removed
  | (source_addr, source) :: rest =>
      removed ← (if bool_decide (source_addr ∈ removed) then Ok removed
                 else mark_targets source_addr source rest removed);
      mark_sub_types rest removed
  end.

(** [HashSet] iterates in an order of its own. *)
Variable set_order : list positive → list positive.
(** The address of the cell that [Arc::new] allocates for the result. *)
Variable fresh : positive.

Definition typeof (types : list TypeRef) (should_remove_sub_types : bool) : Res TypeRef :=
  let type_set := add_types_to_type_set [] types in
  type_set ← (if should_remove_sub_types then
                remove_index_set ← mark_sub_types type_set [];
                Ok (fold_left (λ s i, swap_remove i s) (set_order remove_index_set) type_set)
              else Ok type_set);
  match type_set with
  | [] => Ok (any_ref fresh)
  | [(_, ty)] => Ok ty
  | _ => Ok (union fresh type_set.*2)
  end.
Definition sup (types : list TypeRef) : Res TypeRef := typeof types true.
End Types.

(** ** Well-formed types *)

Definition flags_of (k : (TypeKind TypeRef)) : Z :=
  match k with
  | TNone => NONE | TAny => ANY
  | TBool => BOOL | TBoolLit _ => Z.lor BOOL LITERAL
  | TInt => INT | TIntLit _ => Z.lor INT LITERAL
  | TFloat => FLOAT | TFloatLit _ => Z.lor FLOAT LITERAL
  | TStr => STR | TStrLit _ => Z.lor STR LITERAL
  | TList _ => LIST | TDict _ => DICT | TUnion _ => UNION | TSchema _ => SCHEMA
  | TNumberMultiplier _ => NUMBER_MULTIPLIER | TFunction _ => FUNCTION
  | TVoid => VOID | TModule _ => MODULE | TNamed _ => NAMED
  end.

(** The flags agree with the kind, here and in every type below. *)
Fixpoint wf_type (t : TypeRef) : bool :=
  match t with
  | Arc _ k _ fl =>
      (fl =? flags_of k) &&
      match k with
      | TList item_ty => wf_type item_ty
      | TDict (MkDictType key_ty val_ty _) => wf_type key_ty && wf_type val_ty
      | TUnion types => forallb wf_type types
      | TFunction (MkFunctionType _ params _ return_ty _ _) =>
          forallb (λ p, match p with MkParam _ ty _ _ _ => wf_type ty end) params &&
          wf_type return_ty
      | _ => true
      end
  end.

(** ** Assignability by kinds *)

Section Relation.
Variable f64_to_string : f64 → string.
Abbreviation ty_string := (ty_str f64_to_string).
Abbreviation subs := (subsume f64_to_string).

Section Body.
Variable sub : TypeRef → TypeRef → bool → bool.

Definition is_TAny (k : (TypeKind TypeRef)) : bool := match k with TAny => true | _ => false end.
Definition is_TNone (k : (TypeKind TypeRef)) : bool := match k with TNone => true | _ => false end.

Fixpoint params_body (ps ps' : list (Param TypeRef)) (c : bool) : bool :=
  match ps, ps' with
  | p :: ps, p' :: ps' => sub (param_ty p') (param_ty p) c && params_body ps ps' c
  | _, _ => true
  end.

Definition lit_body (a b : TypeRef) : bool := str_contains (ty_string b) (ty_string a).

Definition rel_body (a b : TypeRef) (c : bool) : bool :=
  if (c && is_TAny (kind a)) || (is_TAny (kind b) || is_TNone (kind a)) then true
  else
    match kind a, kind b with
    | TUnion ts, _ => forallb (λ t, sub t b false) ts
    | _, TUnion ts => existsb (λ t, sub a t false) ts
    | TSchema s, TSchema s' => is_sub_schema_of s s'
    | TSchema _, _ => false
    | (TInt | TIntLit _), (TFloat | TFloatLit _) => true
    | TNumberMultiplier n, TNumberMultiplier n' => number_multiplier_subsume n n'
    | (TBoolLit _ | TFloatLit _), TFloat => true
    | (TBoolLit _ | TIntLit _ | TFloatLit _), (TBool | TInt | TStr) => lit_body a b
    | TStrLit _, (TBool | TInt | TFloat | TStr) => lit_body a b
    | TList t, TList t' => sub t t' c
    | TDict (MkDictType k v _), TDict (MkDictType k' v' _) => sub k k' c && sub v v' c
    | TStr, TStrLit _ => true
    | TFunction f, TFunction f' =>
        Nat.eqb (length (params f)) (length (params f')) && params_body (params f) (params f') c &&
        sub (return_ty f) (return_ty f') c
    | k, k' => kind_eq k k'
    end.
End Body.

Fixpoint rel_fuel (fuel : nat) (a b : TypeRef) (c : bool) : bool :=
  match fuel with
  | O => false
  | S fuel => rel_body (rel_fuel fuel) a b c
  end.
Definition rel (a b : TypeRef) (c : bool) : bool := rel_fuel (type_size a + type_size b) a b c.

Lemma type_size_pos t : (0 < type_size t)%nat.
Proof. destruct t as [? [] ? ?]; simpl; lia. Qed.

Lemma sum_with_elem {A} (f : A → nat) x l : x ∈ l → (f x ≤ sum_list_with f l)%nat.
Proof.
  induction l as [|y l IH]; [by intros ?%elem_of_nil|]. intros [->|H]%elem_of_cons; simpl; [lia|].
  specialize (IH H). lia.
Qed.

(** The children [subsume] descends to: for each, it is smaller and well-formed. *)
Definition fn_param_size (p : (Param TypeRef)) : nat := type_size (param_ty p).

Lemma size_list ad i al fl : type_size (Arc ad (TList i) al fl) = S (type_size i).
Proof. done. Qed.
Lemma size_dict ad k v at_ al fl :
  type_size (Arc ad (TDict (MkDictType k v at_)) al fl) = S (type_size k + type_size v).
Proof. done. Qed.
Lemma size_union ad ts al fl t :
  t ∈ ts → (type_size t < type_size (Arc ad (TUnion ts) al fl))%nat.
Proof. intros H. apply (sum_with_elem type_size) in H. simpl. lia. Qed.
Lemma size_return ad f al fl :
  (type_size (return_ty f) < type_size (Arc ad (TFunction f) al fl))%nat.
Proof. destruct f. simpl. lia. Qed.
Lemma size_param ad f al fl p :
  p ∈ params f → (type_size (param_ty p) < type_size (Arc ad (TFunction f) al fl))%nat.
Proof.
  destruct f as [? ps ? r ? ?]. simpl. intros H.
  apply (sum_with_elem (λ p, match p with MkParam _ ty _ _ _ => type_size ty end)) in H.
  pose proof (type_size_pos r). destruct p. simpl in *. lia.
Qed.

Lemma wft_flags ad k al fl : wf_type (Arc ad k al fl) = true → fl = flags_of k.
Proof. simpl. intros [H%Z.eqb_eq _]%andb_true_iff. done. Qed.
Lemma wft_list ad i al fl : wf_type (Arc ad (TList i) al fl) = true → wf_type i = true.
Proof. simpl. by intros [_ ?]%andb_true_iff. Qed.
Lemma wft_dict ad k v at_ al fl :
  wf_type (Arc ad (TDict (MkDictType k v at_)) al fl) = true → wf_type k = true ∧ wf_type v = true.
Proof. simpl. by intros [_ [? ?]%andb_true_iff]%andb_true_iff. Qed.
Lemma wft_union ad ts al fl t :
  wf_type (Arc ad (TUnion ts) al fl) = true → t ∈ ts → wf_type t = true.
Proof.
  simpl. intros [_ H]%andb_true_iff Ht. rewrite forallb_forall in H. apply H.
  by apply list_elem_of_In.
Qed.
Lemma wft_return ad f al fl : wf_type (Arc ad (TFunction f) al fl) = true → wf_type (return_ty f) = true.
Proof. destruct f. simpl. by intros [_ [_ ?]%andb_true_iff]%andb_true_iff. Qed.
Lemma wft_param ad f al fl p :
  wf_type (Arc ad (TFunction f) al fl) = true → p ∈ params f → wf_type (param_ty p) = true.
Proof.
  destruct f. simpl. intros [_ [H _]%andb_true_iff]%andb_true_iff Hp.
  rewrite forallb_forall in H. apply list_elem_of_In in Hp. specialize (H p Hp). by destruct p.
Qed.

Lemma subsume_params_body sub' sub ps ps' c :
  (∀ p p', p ∈ ps → p' ∈ ps' → sub' (param_ty p') (param_ty p) c = Ok (sub (param_ty p') (param_ty p) c)) →
  subsume_params sub' ps ps' c = Ok (params_body sub ps ps' c).
Proof.
  revert ps'. induction ps as [|p ps IH]; intros [|p' ps'] H; try done. simpl.
  rewrite H by by left. simpl. destruct (sub _ _ c); [|done]. simpl. apply IH.
  intros q q' Hq Hq'. apply H; by right.
Qed.

(** On well-formed types the flags select the case of the kinds, and no downcast
    fails. *)
Lemma subsume_body_rel sub' sub a b c :
  wf_type a = true → wf_type b = true →
  (∀ a' b' c', wf_type a' = true → wf_type b' = true →
     (type_size a' + type_size b' < type_size a + type_size b)%nat → sub' a' b' c' = Ok (sub a' b' c')) →
  subsume_body f64_to_string sub' a b c = Ok (rel_body sub a b c).
Proof.
  intros Ha Hb H. destruct a as [ad k al fl], b as [ad' k' al' fl'].
  pose proof (wft_flags _ _ _ _ Ha) as ->. pose proof (wft_flags _ _ _ _ Hb) as ->.
  assert (∀ k, is_any (Arc ad k al (flags_of k)) = is_TAny k) as E1 by (by intros []).
  assert (∀ k, is_any (Arc ad' k al' (flags_of k)) = is_TAny k) as E2 by (by intros []).
  assert (∀ k, is_none (Arc ad k al (flags_of k)) = is_TNone k) as E3 by (by intros []).
  unfold subsume_body, rel_body. rewrite E1, E2, E3. simpl kind.
  destruct (_ || _); [done|]. clear E1 E2 E3.
  assert (∀ k, is_union (Arc ad k al (flags_of k)) = match k with TUnion _ => true | _ => false end)
    as E1 by (by intros []).
  assert (∀ k, is_union (Arc ad' k al' (flags_of k)) = match k with TUnion _ => true | _ => false end)
    as E2 by (by intros []).
  rewrite E1, E2. clear E1 E2.
  destruct (match k with TUnion _ => true | _ => false end) eqn:Ek.
  { destruct k as [| | | | | | | | | | | |ts| | | | | |]; try discriminate Ek. simpl union_types.
    cbn [mbind Res_bind]. apply all_Ok. intros t Ht. apply H; [by eapply wft_union|done|].
    pose proof (size_union ad ts al (flags_of (TUnion ts)) t Ht). lia. }
  destruct (match k' with TUnion _ => true | _ => false end) eqn:Ek'.
  { destruct k' as [| | | | | | | | | | | |ts| | | | | |]; try discriminate Ek'. simpl union_types.
    cbn [mbind Res_bind].
    transitivity (Ok (existsb (λ t, sub (Arc ad k al (flags_of k)) t false) ts)); [|destruct k; first [reflexivity | discriminate Ek | by destruct d]].
    apply any_Ok. intros t Ht. apply H; [done|by eapply wft_union|].
    pose proof (size_union ad' ts al' (flags_of (TUnion ts)) t Ht). lia. }
  destruct k as [| | | | | | | | | |i|[dk dv dat]|ts|s|n|f| | |]; try discriminate Ek;
  destruct k' as [| | | | | | | | | |i'|[dk' dv' dat']|ts'|s'|n'|f'| | |]; try discriminate Ek';
  clear Ek Ek'; try reflexivity.
  - change (sub' i i' c = Ok (sub i i' c)).
    apply H; [exact (wft_list _ _ _ _ Ha)|exact (wft_list _ _ _ _ Hb)|rewrite !size_list; lia].
  - destruct (wft_dict _ _ _ _ _ _ Ha) as [??], (wft_dict _ _ _ _ _ _ Hb) as [??].
    change ((sub' dk dk' c ≫= λ b : bool, if b then sub' dv dv' c else Ok false) =
            Ok (sub dk dk' c && sub dv dv' c)).
    rewrite !size_dict in H. rewrite (H dk dk' c) by (done || lia). cbn [mbind Res_bind].
    destruct (sub dk dk' c); [|done]. apply H; (done || lia).
  - change ((if Nat.eqb (length (params f)) (length (params f')) then
               subsume_params sub' (params f) (params f') c ≫= λ b : bool,
                 if b then sub' (return_ty f) (return_ty f') c else Ok false
             else Ok false) =
            Ok (Nat.eqb (length (params f)) (length (params f')) &&
                params_body sub (params f) (params f') c && sub (return_ty f) (return_ty f') c)).
    destruct (Nat.eqb _ _); [|done]. rewrite (subsume_params_body _ sub).
    2:{ intros p p' Hp Hp'. apply H; [exact (wft_param _ _ _ _ _ Hb Hp')|exact (wft_param _ _ _ _ _ Ha Hp)|].
        pose proof (size_param ad f al (flags_of (TFunction f)) p Hp).
        pose proof (size_param ad' f' al' (flags_of (TFunction f')) p' Hp'). lia. }
    cbn [mbind Res_bind]. destruct (params_body _ _ _ _); [|done].
    apply H; [exact (wft_return _ _ _ _ Ha)|exact (wft_return _ _ _ _ Hb)|].
    pose proof (size_return ad f al (flags_of (TFunction f))).
    pose proof (size_return ad' f' al' (flags_of (TFunction f'))). lia.
Qed.

(** Bodies agree when their recursive calls on smaller types do. *)
Lemma params_body_ext sub sub' ps ps' c :
  (∀ p p', p ∈ ps → p' ∈ ps' → sub (param_ty p') (param_ty p) c = sub' (param_ty p') (param_ty p) c) →
  params_body sub ps ps' c = params_body sub' ps ps' c.
Proof.
  revert ps'. induction ps as [|p ps IH]; intros [|p' ps'] H; try done. simpl.
  rewrite H by by left. f_equal. apply IH. intros q q' Hq Hq'. apply H; by right.
Qed.

Lemma rel_body_ext sub sub' a b c :
  wf_type a = true → wf_type b = true →
  (∀ a' b' c', wf_type a' = true → wf_type b' = true →
     (type_size a' + type_size b' < type_size a + type_size b)%nat → sub a' b' c' = sub' a' b' c') →
  rel_body sub a b c = rel_body sub' a b c.
Proof.
  intros Ha Hb H.
  assert (Ok (rel_body sub a b c) = Ok (rel_body sub' a b c)) as [= E]; [|done].
  rewrite <- (subsume_body_rel (λ a b c, Ok (sub a b c)) sub) by done.
  apply subsume_body_rel; [done..|]. intros a' b' c' ???. by rewrite H.
Qed.

Lemma rel_fuel_enough n m a b c :
  wf_type a = true → wf_type b = true →
  (type_size a + type_size b ≤ n)%nat → (type_size a + type_size b ≤ m)%nat →
  rel_fuel n a b c = rel_fuel m a b c.
Proof.
  revert m a b c. induction n as [|n IH]; intros [|m] a b c Ha Hb Hn Hm; simpl;
    pose proof (type_size_pos a); try lia.
  apply rel_body_ext; [done..|]. intros a' b' c' ???. apply IH; (done || lia).
Qed.

Lemma rel_unfold a b c :
  wf_type a = true → wf_type b = true → rel a b c = rel_body rel a b c.
Proof.
  intros Ha Hb. unfold rel at 1. pose proof (type_size_pos a).
  destruct (type_size a + type_size b)%nat as [|n] eqn:En; [lia|]. cbn [rel_fuel].
  apply rel_body_ext; [done..|]. intros a' b' c' ???.
  apply rel_fuel_enough; (done || lia).
Qed.

Lemma subsume_fuel_rel n a b c :
  wf_type a = true → wf_type b = true → (type_size a + type_size b ≤ n)%nat →
  subsume_fuel f64_to_string n a b c = Ok (rel a b c).
Proof.
  revert a b c. induction n as [|n IH]; intros a b c Ha Hb Hn; pose proof (type_size_pos a); [lia|].
  cbn [subsume_fuel]. rewrite rel_unfold by done.
  apply subsume_body_rel; [done..|]. intros a' b' c' ???. apply IH; (done || lia).
Qed.
Lemma subsume_rel a b c :
  wf_type a = true → wf_type b = true → subs a b c = Ok (rel a b c).
Proof. intros Ha Hb. by apply subsume_fuel_rel. Qed.
End Relation.

(** ** The base chains of schemas *)

Fixpoint base_names (s : (SchemaType TypeRef)) : list string :=
  match s with
  | MkSchemaType name pkgpath _ _ _ _ _ _ _ base _ _ _ _ _ _ =>
      full_ty_str pkgpath name :: match base with Some b => base_names b | None => [] end
  end.

(** Induction along the base chain. *)
Lemma schema_base_ind (P : (SchemaType TypeRef) → Prop) :
  (∀ s, (∀ b, base s = Some b → P b) → P s) → ∀ s, P s.
Proof.
  intros H. fix IH 1. intros s. apply H. destruct s as [n p f d e i m pr r b pt mx a fn ix ds].
  simpl. destruct b as [b|]; [|discriminate]. intros b' [= <-]. apply IH.
Qed.
Lemma base_names_unfold s :
  base_names s = schema_full_ty_str s :: match base s with Some b => base_names b | None => [] end.
Proof. by destruct s. Qed.
Lemma is_sub_schema_unfold s s' :
  is_sub_schema_of s s' =
  if bool_decide (schema_full_ty_str s = schema_full_ty_str s') then true
  else match base s with Some b => is_sub_schema_of b s' | None => false end.
Proof. by destruct s. Qed.

Lemma is_sub_schema_of_spec s s' :
  is_sub_schema_of s s' = bool_decide (schema_full_ty_str s' ∈ base_names s).
Proof.
  induction s as [s IH] using schema_base_ind. rewrite is_sub_schema_unfold, base_names_unfold.
  case_bool_decide as E.
  - rewrite E, bool_decide_true; [done|]. apply list_elem_of_here.
  - destruct (base s) as [b|] eqn:Eb.
    + rewrite (IH b) by done. apply bool_decide_ext. rewrite elem_of_cons. naive_solver.
    + rewrite bool_decide_false; [done|]. intros [?|?%elem_of_nil]%elem_of_cons; [congruence|done].
Qed.

Section Lineage.
(** The schemas of a program: a full name determines the names on the chain of
    bases. *)
Variable lineage : string → list string.

Fixpoint consistent (s : (SchemaType TypeRef)) : bool :=
  match s with
  | MkSchemaType name pkgpath _ _ _ _ _ _ _ base _ _ _ _ _ _ =>
      bool_decide (base_names s = lineage (full_ty_str pkgpath name)) &&
      match base with Some b => consistent b | None => true end
  end.

Lemma consistent_unfold s :
  consistent s = true ↔
  base_names s = lineage (schema_full_ty_str s) ∧
  match base s with Some b => consistent b = true | None => True end.
Proof.
  destruct s as [n p f d e i m pr r b pt mx a fn ix ds]. cbn [consistent].
  rewrite andb_true_iff, bool_decide_eq_true. cbn [base]. destruct b; naive_solver.
Qed.

Lemma base_names_trans s n n' :
  consistent s = true → n ∈ base_names s → n' ∈ lineage n → n' ∈ base_names s.
Proof.
  induction s as [s IH] using schema_base_ind. rewrite consistent_unfold. intros [Hl Hb] Hn Hn'.
  rewrite base_names_unfold in Hn. apply elem_of_cons in Hn as [->|Hn]; [by rewrite Hl|].
  rewrite base_names_unfold. destruct (base s) as [b|]; [|by apply elem_of_nil in Hn].
  right. by apply IH.
Qed.

Lemma is_sub_schema_trans s s' s'' :
  consistent s = true → consistent s' = true →
  is_sub_schema_of s s' = true → is_sub_schema_of s' s'' = true → is_sub_schema_of s s'' = true.
Proof.
  rewrite !is_sub_schema_of_spec, !bool_decide_eq_true. intros Hs Hs' H H'.
  apply (base_names_trans s _ _ Hs H). apply consistent_unfold in Hs' as [<- _]. done.
Qed.
Lemma is_sub_schema_refl s : is_sub_schema_of s s = true.
Proof.
  rewrite is_sub_schema_of_spec. apply bool_decide_true. rewrite base_names_unfold. apply list_elem_of_here.
Qed.

(** ** Regular types *)

(** The fragment on which assignability is an order: no NaN literal, no [void],
    consistent schemas, and either no [str] or no string literals at any depth
    ([str] and a string literal are assignable to each other); no string literal
    whose printed form contains [int]. *)
Section Regular.
Variable no_str : bool.
Definition tame (v : string) : bool := negb (str_contains INT_TYPE_STR (tagged STR_TYPE_STR v)).
Fixpoint regular (t : TypeRef) : bool :=
  match t with
  | Arc _ k _ _ =>
      match k with
      | TStr => negb no_str
      | TStrLit v => no_str && tame v
      | TFloatLit v => negb (f_is_nan v)
      | TVoid => false
      | TSchema s => consistent s
      | TList item_ty => regular item_ty
      | TDict (MkDictType key_ty val_ty _) => regular key_ty && regular val_ty
      | TUnion types => forallb regular types
      | TFunction (MkFunctionType _ params _ return_ty _ _) =>
          forallb (λ p, match p with MkParam _ ty _ _ _ => regular ty end) params &&
          regular return_ty
      | _ => true
      end
  end.
End Regular.
End Lineage.

(** ** The laws of assignability *)

Lemma type_size_ind (P : TypeRef → Prop) :
  (∀ a, (∀ a', (type_size a' < type_size a)%nat → P a') → P a) → ∀ a, P a.
Proof.
  intros H a. remember (type_size a) as n eqn:En. revert a En.
  induction (lt_wf n) as [n _ IH]. intros a ->. apply H. intros a' Ha. by apply (IH _ Ha).
Qed.

Section Laws.
Variable f64_to_string : f64 → string.
Abbreviation le := (rel f64_to_string).

Lemma le_any a b c : wf_type a = true → wf_type b = true → kind b = TAny → le a b c = true.
Proof.
  intros Ha Hb E. rewrite rel_unfold by done. unfold rel_body. rewrite E. simpl.
  by rewrite orb_true_r.
Qed.
Lemma le_none a b c : wf_type a = true → wf_type b = true → kind a = TNone → le a b c = true.
Proof.
  intros Ha Hb E. rewrite rel_unfold by done. unfold rel_body. rewrite E. simpl.
  by rewrite !orb_true_r.
Qed.
Lemma le_union_l ad ts al fl b c :
  wf_type (Arc ad (TUnion ts) al fl) = true → wf_type b = true →
  le (Arc ad (TUnion ts) al fl) b c = forallb (λ t, le t b false) ts.
Proof.
  intros Ha Hb. rewrite rel_unfold by done. unfold rel_body. simpl kind. simpl.
  rewrite andb_false_r. simpl. destruct (is_TAny (kind b)) eqn:E; [|done]. simpl.
  symmetry. apply forallb_forall. intros t Ht. apply le_any; [|done|by destruct (kind b)].
  eapply wft_union; [done|]. by apply list_elem_of_In.
Qed.
Definition not_union (t : TypeRef) : bool := match kind t with TUnion _ => false | _ => true end.
Lemma le_union_r a ad ts al fl :
  wf_type a = true → wf_type (Arc ad (TUnion ts) al fl) = true → not_union a = true →
  kind a ≠ TNone →
  le a (Arc ad (TUnion ts) al fl) false = existsb (λ t, le a t false) ts.
Proof.
  intros Ha Hb Hu Hn. rewrite rel_unfold by done. unfold rel_body. simpl kind. unfold not_union in Hu.
  destruct (kind a) as [| | | | | | | | | | |[]| | | | | | |]; done.
Qed.

(** A member of a union is below the union, and so is what is below it. *)
Lemma le_into_union a t ad ts al fl :
  wf_type a = true → wf_type (Arc ad (TUnion ts) al fl) = true → t ∈ ts →
  le a t false = true → le a (Arc ad (TUnion ts) al fl) false = true.
Proof.
  revert a. induction a as [a IH] using type_size_ind. intros Ha Hb Ht H.
  pose proof (wft_union _ _ _ _ _ Hb Ht) as Hwt.
  destruct (not_union a) eqn:Hu.
  - destruct (is_TNone (kind a)) eqn:Hn; [apply le_none; [done..|by destruct (kind a)]|].
    rewrite le_union_r; [|done..|by intros E; rewrite E in Hn].
    apply existsb_exists. exists t. split; [by apply list_elem_of_In|done].
  - destruct a as [ad' [| | | | | | | | | | | |ts'| | | | | |] al' fl']; try discriminate Hu.
    rewrite le_union_l in H |- * by done. rewrite forallb_forall in H |- *.
    intros u Hin. pose proof Hin as Hu'. apply list_elem_of_In in Hu'.
    apply IH; [by apply size_union|exact (wft_union _ _ _ _ _ Ha Hu')|done..|by apply H].
Qed.

(** What is above [any] is above everything; what is below [None] is below
    everything. *)
Lemma le_top x d a :
  kind x = TAny → wf_type x = true → wf_type a = true → wf_type d = true →
  le x d false = true → le a d false = true.
Proof.
  intros Ex Hx Ha. revert d. induction d as [d IH] using type_size_ind. intros Hd H.
  destruct d as [ad [| | | | | | | | | | | |ts| | | | | |] al fl];
    try (by apply le_any);
    try (rewrite rel_unfold in H by done; unfold rel_body in H; rewrite Ex in H; discriminate H).
  rewrite le_union_r in H; [|done..|by unfold not_union; rewrite Ex|by rewrite Ex].
  apply existsb_exists in H as (t & Ht%list_elem_of_In & H).
  apply (le_into_union a t); [done..|]. apply IH; [by apply size_union|by eapply wft_union|done].
Qed.
Lemma le_bottom x a d :
  kind x = TNone → wf_type x = true → wf_type a = true → wf_type d = true →
  le a x false = true → le a d false = true.
Proof.
  intros Ex Hx Ha Hd. revert a Ha. induction a as [a IH] using type_size_ind. intros Ha H.
  destruct a as [ad [| | | | | | | | | | |[]|ts| | | | | |] al fl];
    try (by apply le_none);
    try (rewrite rel_unfold in H by done; unfold rel_body in H; rewrite Ex in H; discriminate H).
  rewrite le_union_l in H |- * by done. rewrite forallb_forall in H |- *.
  intros t Ht. pose proof Ht as Ht'. apply list_elem_of_In in Ht'.
  apply IH; [by apply size_union|by eapply wft_union|by apply H].
Qed.
End Laws.

(** ** Order laws *)

Lemma f_eq_cases x y :
  f_eq x y = true → x = y ∨ ∃ s s', x = S754_zero s ∧ y = S754_zero s'.
Proof.
  unfold f_eq, SFeqb. destruct x as [s|[]| |[] m e], y as [s'|[]| |[] m' e']; simpl; try done;
    try (intros _; eauto; fail).
  all: destruct (Z.compare_spec e e') as [->| |]; try done.
  all: change (Pos.compare_cont Eq m m') with (Pos.compare m m').
  all: destruct (Pos.compare_spec m m') as [->| |]; simpl; try done; by left.
Qed.
Lemma f_eq_trans x y z : f_eq x y = true → f_eq y z = true → f_eq x z = true.
Proof.
  intros H1 H2. destruct (f_eq_cases _ _ H1) as [->|(s & s' & -> & ->)]; [done|].
  by destruct (f_eq_cases _ _ H2) as [<-|(t & t' & _ & ->)].
Qed.

Lemma list_eq_elem {A} (eq : A → A → bool) l l' :
  list_eq eq l l' = true →
  (∀ x, x ∈ l → ∃ x', x' ∈ l' ∧ eq x x' = true) ∧ (∀ x', x' ∈ l' → ∃ x, x ∈ l ∧ eq x x' = true).
Proof.
  revert l'. induction l as [|x l IH]; intros [|x' l'] H; try discriminate H.
  { split; by intros ? ?%elem_of_nil. }
  simpl in H. apply andb_true_iff in H as [Hx Hl]. destruct (IH _ Hl) as [H1 H2]. split.
  - intros y [->|Hy]%elem_of_cons; [exists x'; split; [by left|done]|].
    destruct (H1 y Hy) as (z & ? & ?). exists z. split; [by right|done].
  - intros y [->|Hy]%elem_of_cons; [exists x; split; [by left|done]|].
    destruct (H2 y Hy) as (z & ? & ?). exists z. split; [by right|done].
Qed.

Lemma kind_eq_of_type a b : type_eq a b = true → kind_eq (kind a) (kind b) = true.
Proof. destruct a, b. cbn [type_eq kind]. by intros [[? _]%andb_true_iff _]%andb_true_iff. Qed.

Lemma schema_eq_name s s' :
  schema_type_eq type_eq s s' = true → schema_full_ty_str s = schema_full_ty_str s'.
Proof.
  destruct s, s'. cbn [schema_type_eq]. intros H.
  do 14 (apply andb_true_iff in H as [H _]). apply andb_true_iff in H as [Hn Hp].
  apply bool_decide_eq_true in Hn, Hp. unfold schema_full_ty_str. simpl. by rewrite Hn, Hp.
Qed.

Section EqLe.
Variable f64_to_string : f64 → string.
Abbreviation le := (rel f64_to_string).

Lemma params_body_eq ps ps' c :
  list_eq (param_eq type_eq) ps ps' = true →
  (∀ p p', p ∈ ps → p' ∈ ps' → type_eq (param_ty p) (param_ty p') = true →
     le (param_ty p) (param_ty p') c = true ∧ le (param_ty p') (param_ty p) c = true) →
  length ps = length ps' ∧ params_body le ps ps' c = true ∧ params_body le ps' ps c = true.
Proof.
  revert ps'. induction ps as [|p ps IH]; intros [|p' ps'] H Hle; try discriminate H; [done|].
  cbn [list_eq] in H. apply andb_true_iff in H as [Hp H].
  destruct (IH ps' H) as (El & E1 & E2).
  { intros q q' Hq Hq'. apply Hle; by right. }
  destruct (Hle p p') as [L1 L2]; [by left|by left| |].
  { destruct p, p'. cbn [param_eq] in Hp. simpl.
    by apply andb_true_iff in Hp as [[[[_ ?]%andb_true_iff _]%andb_true_iff _]%andb_true_iff _]. }
  simpl. rewrite L1, L2, E1, E2. auto.
Qed.

(** Equal types are below each other. *)
Lemma equal_le a b c :
  wf_type a = true → wf_type b = true → kind_eq (kind a) (kind b) = true →
  le a b c = true ∧ le b a c = true.
Proof.
  revert b c. induction a as [a IH] using type_size_ind. intros b c Ha Hb H.
  destruct a as [ad k al fl], b as [ad' k' al' fl']. simpl in H.
  destruct k as [| | | | | | | | | |i|[dk dv dat]|ts|s|n|f| | |];
  destruct k' as [| | | | | | | | | |i'|[dk' dv' dat']|ts'|s'|n'|f'| | |]; try discriminate H.
  13: { rewrite !le_union_l by done. destruct (list_eq_elem _ _ _ H) as [H1 H2].
        rewrite !forallb_forall. split.
        - intros t Ht%list_elem_of_In. destruct (H1 t Ht) as (t' & Ht' & E%kind_eq_of_type).
          pose proof (wft_union _ _ _ _ _ Ha Ht). pose proof (wft_union _ _ _ _ _ Hb Ht').
          apply (le_into_union _ _ t'); [done..|].
          by apply (IH t (size_union _ _ _ _ _ Ht) t').
        - intros t Ht%list_elem_of_In. destruct (H2 t Ht) as (t' & Ht' & E%kind_eq_of_type).
          pose proof (wft_union _ _ _ _ _ Ha Ht'). pose proof (wft_union _ _ _ _ _ Hb Ht).
          apply (le_into_union _ _ t'); [done..|].
          by apply (IH t' (size_union _ _ _ _ _ Ht') t). }
  all: rewrite !(rel_unfold _ (Arc _ _ _ _)) by done; unfold rel_body; simpl kind; cbn [is_TAny is_TNone];
       rewrite ?andb_false_r; cbn [orb].
  all: try (split; [exact H|]).
  - done.
  - by rewrite !orb_true_r.
  - done.
  - cbn [kind_eq kind_eq_with] in *. by rewrite Bool_eqb_sym.
  - done.
  - cbn [kind_eq kind_eq_with] in *. by rewrite Z.eqb_sym.
  - done.
  - cbn [kind_eq kind_eq_with] in *. by rewrite f_eq_sym.
  - done.
  - cbn [kind_eq kind_eq_with] in *. unfold string_eq in *. by rewrite bool_decide_eq_true in H |- *.
  - apply IH; [rewrite size_list; lia|by eapply wft_list..|by apply kind_eq_of_type].
  - destruct (wft_dict _ _ _ _ _ _ Ha) as [??], (wft_dict _ _ _ _ _ _ Hb) as [??].
    cbn [kind_eq kind_eq_with dict_type_eq] in H. apply andb_true_iff in H as [[E1 E2]%andb_true_iff _].
    destruct (IH dk ltac:(rewrite size_dict; lia) dk' c) as [-> ->]; [done..|by apply kind_eq_of_type|].
    apply IH; [rewrite size_dict; lia|done..|by apply kind_eq_of_type].
  - rewrite !is_sub_schema_of_spec. rewrite (schema_eq_name s s' H).
    rewrite base_names_unfold, <- (schema_eq_name s s' H), base_names_unfold.
    rewrite !bool_decide_true; [done|..]; rewrite (schema_eq_name s s' H); apply list_elem_of_here.
  - cbn [kind_eq kind_eq_with] in H. unfold number_multiplier_eq in H.
    repeat match type of H with (_ && _) = true => let E := fresh "E" in apply andb_true_iff in H as [H E] end.
    unfold number_multiplier_subsume.
    apply Bool.eqb_prop in E as ->. apply bool_decide_eq_true in E0 as ->. apply Z.eqb_eq in E1 as ->.
    unfold string_eq. rewrite !bool_decide_true, !Z.eqb_refl by done. by destruct (nm_is_literal n').
  - destruct f as [d ps sf r va kw], f' as [d' ps' sf' r' va' kw'].
    cbn [kind_eq kind_eq_with function_type_eq] in H.
    repeat match type of H with (_ && _) = true => let E := fresh "E" in apply andb_true_iff in H as [H E] end.
    destruct (params_body_eq ps ps' c) as (El & P1 & P2); [done| |].
    { intros p p' Hp Hp' E'. apply IH; [by apply size_param|by apply (wft_param _ _ _ _ _ Ha)|
        by apply (wft_param _ _ _ _ _ Hb)|by apply kind_eq_of_type]. }
    cbn [params return_ty]. rewrite El, Nat.eqb_refl, P1, P2.
    apply IH; [apply (size_return ad (MkFunctionType d ps sf r va kw))|
      apply (wft_return _ _ _ _ Ha)|apply (wft_return _ _ _ _ Hb)|by apply kind_eq_of_type].
  - done.
  - cbn [kind_eq kind_eq_with] in *. by rewrite bool_decide_eq_true in H |- *.
  - cbn [kind_eq kind_eq_with] in *. unfold string_eq in *. by rewrite bool_decide_eq_true in H |- *.
Qed.
End EqLe.

Section Order.
Variable f64_to_string : f64 → string.
Variable lineage : string → list string.
Variable no_str : bool.
Abbreviation le := (rel f64_to_string).
Abbreviation reg := (regular lineage no_str).

(** A printed float does not contain the name of another primitive type. *)
Hypothesis float_text : ∀ v name, name ∈ [INT_TYPE_STR; BOOL_TYPE_STR; STR_TYPE_STR] →
  str_contains name (tagged FLOAT_TYPE_STR (f64_to_string v)) = false.

Lemma reg_list ad i al fl : reg (Arc ad (TList i) al fl) = true → reg i = true.
Proof using. done. Qed.
Lemma reg_dict ad k v at_ al fl :
  reg (Arc ad (TDict (MkDictType k v at_)) al fl) = true → reg k = true ∧ reg v = true.
Proof using. by intros [? ?]%andb_true_iff. Qed.
Lemma reg_union ad ts al fl t : reg (Arc ad (TUnion ts) al fl) = true → t ∈ ts → reg t = true.
Proof using.
  simpl. intros H Ht. rewrite forallb_forall in H. apply H. by apply list_elem_of_In.
Qed.
Lemma reg_return ad f al fl : reg (Arc ad (TFunction f) al fl) = true → reg (return_ty f) = true.
Proof using. destruct f. simpl. by intros [_ ?]%andb_true_iff. Qed.
Lemma reg_param ad f al fl p :
  reg (Arc ad (TFunction f) al fl) = true → p ∈ params f → reg (param_ty p) = true.
Proof using.
  destruct f. simpl. intros [H _]%andb_true_iff Hp.
  rewrite forallb_forall in H. apply list_elem_of_In in Hp. specialize (H p Hp). by destruct p.
Qed.

Lemma le_refl a c : wf_type a = true → reg a = true → le a a c = true.
Proof using.
  revert c. induction a as [a IH] using type_size_ind. intros c Ha Hr.
  destruct a as [ad k al fl].
  destruct k as [| | | | | | | | | |i|[dk dv dat]|ts|s|n|f| | |].
  13: { rewrite le_union_l by done. apply forallb_forall. intros t Ht%list_elem_of_In.
        pose proof (wft_union _ _ _ _ _ Ha Ht). pose proof (reg_union _ _ _ _ _ Hr Ht).
        apply (le_into_union _ _ t); [done..|]. apply IH; [by apply size_union|done..]. }
  all: rewrite rel_unfold by done; unfold rel_body; simpl kind; cbn [is_TAny is_TNone];
       rewrite ?andb_false_r; cbn [orb]; try done.
  - by rewrite orb_true_r.
  - by destruct v.
  - apply Z.eqb_refl.
  - cbn [kind_eq kind_eq_with]. by rewrite f_eq_refl.
  - by apply bool_decide_true.
  - apply IH; [rewrite size_list; lia|by eapply wft_list|by eapply reg_list].
  - destruct (wft_dict _ _ _ _ _ _ Ha) as [??], (reg_dict _ _ _ _ _ _ Hr) as [??].
    rewrite !IH; try done; rewrite size_dict; lia.
  - apply is_sub_schema_refl.
  - unfold number_multiplier_subsume, string_eq. rewrite Z.eqb_refl, bool_decide_true by done.
    by destruct (nm_is_literal n).
  - rewrite Nat.eqb_refl. rewrite IH; [|apply size_return|by eapply wft_return|by eapply reg_return].
    rewrite andb_true_r. simpl.
    assert (∀ p, p ∈ params f → le (param_ty p) (param_ty p) c = true) as Hp.
    { intros p Hp. apply IH; [by apply size_param|by eapply wft_param|by eapply reg_param]. }
    clear -Hp. induction (params f) as [|p ps IH]; [done|]. simpl.
    rewrite Hp by by left. apply IH. intros q Hq. apply Hp. by right.
  - by apply bool_decide_true.
  - by apply bool_decide_true.
Qed.

Lemma params_body_trans ps ps' ps'' :
  length ps = length ps' → length ps' = length ps'' →
  params_body le ps ps' false = true → params_body le ps' ps'' false = true →
  (∀ p p' p'', p ∈ ps → p' ∈ ps' → p'' ∈ ps'' →
     le (param_ty p') (param_ty p) false = true → le (param_ty p'') (param_ty p') false = true →
     le (param_ty p'') (param_ty p) false = true) →
  params_body le ps ps'' false = true.
Proof using.
  revert ps' ps''. induction ps as [|p ps IH]; intros [|p' ps'] [|p'' ps''] L1 L2 H1 H2 H; try done.
  simpl in *. apply andb_true_iff in H1 as [H1 H1'], H2 as [H2 H2']. apply andb_true_iff. split.
  - apply (H p p' p''); [by left..|done|done].
  - apply (IH ps'); [lia..|done|done|]. intros q q' q'' ???. apply H; by right.
Qed.

Definition leaf (t : TypeRef) : bool :=
  match kind t with TAny | TNone | TUnion _ => false | _ => true end.
Lemma le_leaf a b :
  wf_type a = true → wf_type b = true → leaf a = true → leaf b = true →
  le a b false = rel_body f64_to_string le a b false.
Proof using. intros. by rewrite rel_unfold. Qed.

Lemma le_trans_leaf a b d :
  wf_type a = true → wf_type b = true → wf_type d = true →
  reg a = true → reg b = true → reg d = true →
  leaf a = true → leaf b = true → leaf d = true →
  (∀ a' b' d', wf_type a' = true → wf_type b' = true → wf_type d' = true →
     reg a' = true → reg b' = true → reg d' = true →
     (type_size a' + type_size b' + type_size d' < type_size a + type_size b + type_size d)%nat →
     le a' b' false = true → le b' d' false = true → le a' d' false = true) →
  le a b false = true → le b d false = true → le a d false = true.
Proof using float_text.
  intros Wa Wb Wd Ra Rb Rd La Lb Ld IH. rewrite !le_leaf by done. unfold rel_body.
  destruct a as [ad k al fl], b as [ad' k' al' fl'], d as [ad'' k'' al'' fl''].
  unfold leaf in La, Lb, Ld. simpl kind in *.
  destruct k as [| | | | | | | | | |i|[dk dv dat]|ts|s|n|f| | |]; try discriminate La; clear La;
  destruct k' as [| | | | | | | | | |i'|[dk' dv' dat']|ts'|s'|n'|f'| | |]; try discriminate Lb; clear Lb;
  cbn [is_TAny is_TNone andb orb]; intros H1; try discriminate H1;
  destruct k'' as [| | | | | | | | | |i''|[dk'' dv'' dat'']|ts''|s''|n''|f''| | |]; try discriminate Ld; clear Ld;
  intros H2; try discriminate H2; try reflexivity; try exact H1; try exact H2.
  all: cbn [is_TAny orb].
  (* No type is both [str] and a string literal. *)
  all: try (exfalso; cbn [regular] in Ra, Rb, Rd; destruct no_str;
            (discriminate Ra || discriminate Rb || discriminate Rd)).
  (* The text of a literal. *)
  all: try (exfalso; first
         [ unfold lit_body in H1; cbn [ty_str] in H1; rewrite float_text in H1; [discriminate H1|]
         | unfold lit_body in H2; cbn [ty_str] in H2; rewrite float_text in H2; [discriminate H2|] ];
         (by left) || (by right; left) || (by right; right; left)).
  all: try (exfalso; destruct v; discriminate H1).
  all: try (exfalso; apply andb_true_iff in Ra as [_ Ra]; unfold tame in Ra; unfold lit_body in H1;
            cbn [ty_str] in H1; rewrite H1 in Ra; discriminate Ra).
  (* Equal literals. *)
  all: try (cbn [kind_eq kind_eq_with] in H1; unfold string_eq in H1;
            first [apply Bool.eqb_prop in H1 as -> | apply Z.eqb_eq in H1 as ->
                  | apply bool_decide_eq_true in H1 as ->]; exact H2).
  - exact (f_eq_trans _ _ _ H1 H2).
  - apply (IH i i' i''); [by eapply wft_list..|by eapply reg_list|by eapply reg_list|by eapply reg_list| |done|done].
    rewrite !size_list. lia.
  - destruct (wft_dict _ _ _ _ _ _ Wa), (wft_dict _ _ _ _ _ _ Wb), (wft_dict _ _ _ _ _ _ Wd).
    destruct (reg_dict _ _ _ _ _ _ Ra), (reg_dict _ _ _ _ _ _ Rb), (reg_dict _ _ _ _ _ _ Rd).
    apply andb_true_iff in H1 as [K1 V1], H2 as [K2 V2]. apply andb_true_iff. split.
    + apply (IH dk dk' dk''); try done. rewrite !size_dict. lia.
    + apply (IH dv dv' dv''); try done. rewrite !size_dict. lia.
  - exact (is_sub_schema_trans lineage s s' s'' Ra Rb H1 H2).
  - revert H1 H2. unfold number_multiplier_subsume, string_eq.
    destruct (nm_is_literal n), (nm_is_literal n'), (nm_is_literal n''); cbn [andb orb negb];
      intros Q1 Q2; try done.
    apply andb_true_iff in Q1 as [E1%Z.eqb_eq E2%bool_decide_eq_true].
    by rewrite E1, E2.
  - apply andb_true_iff in H1 as [[L1%Nat.eqb_eq P1]%andb_true_iff R1],
      H2 as [[L2%Nat.eqb_eq P2]%andb_true_iff R2].
    apply andb_true_iff. split; [apply andb_true_iff; split|].
    + apply Nat.eqb_eq. congruence.
    + apply (params_body_trans _ (params f')); [done..|].
      intros p p' p'' Hp Hp' Hp'' Q1 Q2.
      apply (IH (param_ty p'') (param_ty p') (param_ty p));
        [by eapply wft_param|exact (wft_param _ _ _ _ _ Wb Hp')|exact (wft_param _ _ _ _ _ Wa Hp)
        |exact (reg_param _ _ _ _ _ Rd Hp'')|exact (reg_param _ _ _ _ _ Rb Hp')
        |exact (reg_param _ _ _ _ _ Ra Hp)| |done|done].
      pose proof (size_param ad f al fl p Hp). pose proof (size_param ad' f' al' fl' p' Hp').
      pose proof (size_param ad'' f'' al'' fl'' p'' Hp''). lia.
    + apply (IH (return_ty f) (return_ty f') (return_ty f''));
        [exact (wft_return _ _ _ _ Wa)|exact (wft_return _ _ _ _ Wb)|exact (wft_return _ _ _ _ Wd)
        |exact (reg_return _ _ _ _ Ra)|exact (reg_return _ _ _ _ Rb)|exact (reg_return _ _ _ _ Rd)| |done|done].
      pose proof (size_return ad f al fl). pose proof (size_return ad' f' al' fl').
      pose proof (size_return ad'' f'' al'' fl''). lia.
Qed.

Lemma le_trans a b d :
  wf_type a = true → wf_type b = true → wf_type d = true →
  reg a = true → reg b = true → reg d = true →
  le a b false = true → le b d false = true → le a d false = true.
Proof using float_text.
  remember (type_size a + type_size b + type_size d)%nat as n eqn:En.
  revert a b d En. induction (lt_wf n) as [n _ IHn]. intros a b d -> Wa Wb Wd Ra Rb Rd H1 H2.
  assert (∀ a' b' d', wf_type a' = true → wf_type b' = true → wf_type d' = true →
     reg a' = true → reg b' = true → reg d' = true →
     (type_size a' + type_size b' + type_size d' < type_size a + type_size b + type_size d)%nat →
     le a' b' false = true → le b' d' false = true → le a' d' false = true) as IH.
  { intros a' b' d' ??????? . by eapply IHn. }
  clear IHn.
  destruct (decide (is_TNone (kind b) = true)) as [Nb|Nb].
  { apply (le_bottom _ b); [by destruct (kind b)|done..]. }
  destruct (decide (is_TAny (kind b) = true)) as [Ab|Ab].
  { apply (le_top _ b); [by destruct (kind b)|done..]. }
  destruct (decide (is_TNone (kind a) = true)) as [Na|Na].
  { apply le_none; [done..|by destruct (kind a)]. }
  destruct (decide (is_TAny (kind d) = true)) as [Ad|Ad].
  { apply le_any; [done..|by destruct (kind d)]. }
  destruct (not_union a) eqn:Ua.
  2:{ destruct a as [ad [| | | | | | | | | | | |ts| | | | | |] al fl]; try discriminate Ua.
      rewrite le_union_l in H1 |- * by done. rewrite forallb_forall in H1 |- *.
      intros t Ht. pose proof Ht as Ht'. apply list_elem_of_In in Ht'.
      apply (IH t b d); [by eapply wft_union|done|done|by eapply reg_union|done|done| |by apply H1|done].
      pose proof (size_union ad ts al fl t Ht'). lia. }
  destruct (not_union b) eqn:Ub.
  2:{ destruct b as [ad [| | | | | | | | | | | |ts| | | | | |] al fl]; try discriminate Ub.
      rewrite le_union_r in H1; [|done..|by intros E; rewrite E in Na].
      rewrite le_union_l in H2 by done. rewrite forallb_forall in H2.
      apply existsb_exists in H1 as (t & Ht & H1). pose proof (H2 t Ht) as H2'.
      apply list_elem_of_In in Ht.
      apply (IH a t d); [done|by eapply wft_union|done|done|by eapply reg_union|done| |done|done].
      pose proof (size_union ad ts al fl t Ht). lia. }
  destruct (not_union d) eqn:Ud.
  2:{ destruct d as [ad [| | | | | | | | | | | |ts| | | | | |] al fl]; try discriminate Ud.
      rewrite le_union_r in H2; [|done..|by intros E; rewrite E in Nb].
      apply existsb_exists in H2 as (t & Ht & H2). apply list_elem_of_In in Ht.
      apply (le_into_union _ _ t); [done..|].
      apply (IH a b t); [done|done|by eapply wft_union|done|done|by eapply reg_union| |done|done].
      pose proof (size_union ad ts al fl t Ht). lia. }
  assert (leaf b = true) as Lb by (unfold leaf, not_union in *; by destruct (kind b)).
  destruct (leaf a) eqn:La.
  2:{ unfold leaf, not_union in *. rewrite rel_unfold in H1 by done. unfold rel_body in H1.
      destruct (kind a); try done; try by destruct Na.
      destruct (kind b) as [| | | | | | | | | | |[]| | | | | | |]; try done; by destruct Ab. }
  destruct (leaf d) eqn:Ld.
  2:{ unfold leaf, not_union in *. rewrite rel_unfold in H2 by done. unfold rel_body in H2.
      destruct (kind d); try done; try by destruct Ad.
      destruct (kind b) as [| | | | | | | | | | |[]| | | | | | |]; try done; by destruct Nb. }
  by apply (le_trans_leaf a b d).
Qed.
End Order.

(** ** The supremum *)

(** The types of a list of types that are neither unions nor [void]. *)
Fixpoint leaves (t : TypeRef) : list TypeRef :=
  match t with
  | Arc a k al fl =>
      match k with
      | TUnion types => concat (map leaves types)
      | TVoid => []
      | _ => [Arc a k al fl]
      end
  end.
Definition all_leaves (types : list TypeRef) : list TypeRef := concat (map leaves types).

(** The members of a union; any other type is its own member. *)
Definition members (t : TypeRef) : list TypeRef :=
  match kind t with TUnion types => types | _ => [t] end.

Definition add_leaf (type_set : IndexMap positive TypeRef) (t : TypeRef)
    : IndexMap positive TypeRef :=
  if contains_key (addr t) type_set then type_set else map_insert (addr t) t type_set.

Lemma is_void_kind t : wf_type t = true → is_void t = match kind t with TVoid => true | _ => false end.
Proof. destruct t as [ad k al fl]. intros ->%wft_flags. by destruct k. Qed.

Lemma add_type_leaves t s :
  wf_type t = true → add_type_to_type_set s t = fold_left add_leaf (leaves t) s.
Proof.
  revert s. induction t as [t IH] using type_size_ind. intros s Ht.
  pose proof (is_void_kind t Ht) as Hv.
  destruct t as [ad k al fl]. simpl kind in Hv.
  destruct k as [| | | | | | | | | | | |ts| | | | | |];
    try (cbn [add_type_to_type_set leaves fold_left]; rewrite Hv; unfold add_leaf; cbn [addr];
         by destruct (contains_key ad s)).
  cbn [add_type_to_type_set leaves].
  assert (∀ t, t ∈ ts → ∀ s, add_type_to_type_set s t = fold_left add_leaf (leaves t) s) as Hts.
  { intros t Hin s'. apply IH; [by apply size_union|by eapply wft_union]. }
  clear -Hts. revert s. induction ts as [|t ts IH]; intros s; [done|]. simpl.
  rewrite fold_left_app, Hts by by left. apply IH. intros u Hu. apply Hts. by right.
Qed.
Lemma add_types_leaves types s :
  (∀ t, t ∈ types → wf_type t = true) →
  add_types_to_type_set s types = fold_left add_leaf (all_leaves types) s.
Proof.
  unfold add_types_to_type_set, all_leaves. revert s.
  induction types as [|t ts IH]; intros s H; [done|]. simpl.
  rewrite fold_left_app, add_type_leaves by (apply H; by left). apply IH.
  intros u Hu. apply H. by right.
Qed.

(** Every leaf is in the set under its address, and nothing else. *)
Lemma add_leaves_spec l s :
  wf_map s → (∀ t u, t ∈ s.*2 ++ l → u ∈ s.*2 ++ l → addr t = addr u → t = u) →
  (∀ e, e ∈ s → e.1 = addr e.2) →
  let r := fold_left add_leaf l s in
  wf_map r ∧ (∀ e, e ∈ r → e.1 = addr e.2) ∧ ∀ t, t ∈ r.*2 ↔ t ∈ s.*2 ++ l.
Proof.
  revert s. induction l as [|t l IH]; intros s Hs Hc Ha; simpl.
  { split_and!; [done..|]. intros u. by rewrite app_nil_r. }
  unfold add_leaf at 2 4 6. destruct (contains_key (addr t) s) eqn:E.
  - destruct (IH s) as (H1 & H2 & H3); [done| |done|].
    { intros u v Hu Hv. apply Hc; rewrite elem_of_app in *; rewrite elem_of_cons; naive_solver. }
    split_and!; [done..|]. intros u. rewrite H3, !elem_of_app, elem_of_cons.
    split; [naive_solver|]. intros [?|[->|?]]; [by left| |by right]. left.
    apply contains_key_spec in E. apply list_elem_of_fmap in E as ([a v] & Ea & Hin). simpl in Ea.
    pose proof (Ha _ Hin) as Hav. simpl in Hav. apply list_elem_of_fmap. exists (a, v). split; [|done].
    simpl. apply (Hc t v); [rewrite elem_of_app; right; by left| |congruence].
    rewrite elem_of_app. left. apply list_elem_of_fmap. by exists (a, v).
  - assert (map_insert (addr t) t s = s ++ [(addr t, t)]) as Ei.
    { apply map_insert_fresh. intros Hin. apply contains_key_spec in Hin. congruence. }
    destruct (IH (map_insert (addr t) t s)) as (H1 & H2 & H3).
    { by apply map_insert_wf. }
    { rewrite Ei, fmap_app. intros u v Hu Hv. apply Hc; rewrite !elem_of_app in *; simpl in *;
        rewrite ?elem_of_cons, ?elem_of_nil in *; naive_solver. }
    { rewrite Ei. intros e [He|He%list_elem_of_singleton]%elem_of_app; [by apply Ha|by subst]. }
    split_and!; [done..|]. intros u. rewrite H3, Ei, fmap_app, !elem_of_app, elem_of_cons. simpl.
    rewrite list_elem_of_singleton. tauto.
Qed.

Section Marking.
Variable f64_to_string : f64 → string.
Abbreviation le := (rel f64_to_string).

Section Marks.
(** The whole type set. *)
Variable U : IndexMap positive TypeRef.
Hypothesis HU : wf_map U.
Hypothesis Hwf : ∀ e, e ∈ U → wf_type e.2 = true.
(** A preorder that contains assignability on the set. *)
Variable below : TypeRef → TypeRef → Prop.
Hypothesis below_refl : ∀ e, e ∈ U → below e.2 e.2.
Hypothesis below_trans : ∀ e e' e'', e ∈ U → e' ∈ U → e'' ∈ U →
  below e.2 e'.2 → below e'.2 e''.2 → below e.2 e''.2.
Hypothesis below_le : ∀ e e', e ∈ U → e' ∈ U → le e.2 e'.2 false = true → below e.2 e'.2.

(** Every type marked for removal is below one that is not. *)
Definition covered (removed : list positive) : Prop :=
  ∀ a t, (a, t) ∈ U → a ∈ removed →
    ∃ a' t', (a', t') ∈ U ∧ (a' ∉ removed) ∧ below t t'.

Lemma entry_unique a t t' : (a, t) ∈ U → (a, t') ∈ U → t = t'.
Proof using HU. intros H1%in_map_get H2%in_map_get; [|done..]. congruence. Qed.

Lemma covered_add removed x tx y ty :
  covered removed → (x, tx) ∈ U → (y, ty) ∈ U → y ∉ removed → y ≠ x → below tx ty →
  covered (x :: removed).
Proof using HU below_refl below_trans.
  intros Hc Hx Hy Hyr Hyx Hle a t Ha Hr.
  assert (∀ t, (a, t) ∈ U → below t tx → ∃ a' t', (a', t') ∈ U ∧ (a' ∉ (x :: removed)) ∧ below t t')
    as Hvia.
  { intros t0 Ht0 Hl. exists y, ty. split_and!; [done|by rewrite not_elem_of_cons|].
    by apply (below_trans (a, t0) (x, tx) (y, ty)). }
  apply elem_of_cons in Hr as [->|Hr].
  - rewrite (entry_unique _ _ _ Ha Hx) in *. apply (Hvia tx Hx). by apply (below_refl (x, tx)).
  - destruct (Hc a t Ha Hr) as (a' & t' & Ha' & Hn & Hl).
    destruct (decide (a' = x)) as [->|Hne].
    + rewrite (entry_unique _ _ _ Ha' Hx) in Hl. by apply (Hvia t).
    + exists a', t'. split_and!; [done|by rewrite not_elem_of_cons|done].
Qed.

(** Neither is below the other. *)
Definition apart (s t : TypeRef) : Prop := le s t false = false ∧ le t s false = false.

Lemma mark_targets_spec sa s T removed :
  (sa, s) ∈ U → (∀ e, e ∈ T → e ∈ U ∧ e.1 ≠ sa) → NoDup T.*1 → sa ∉ removed → covered removed →
  ∃ r, mark_targets f64_to_string sa s T removed = Ok r ∧ covered r ∧
    (∀ a, a ∈ removed → a ∈ r) ∧
    (sa ∈ r ∨ ∀ ta t, (ta, t) ∈ T → ta ∈ r ∨ apart s t).
Proof using HU Hwf below_refl below_trans below_le.
  intros Hs. revert removed. induction T as [|[ta t] T IH]; intros removed HT Hnd Hsr Hc.
  { exists removed. split_and!; [done..|]. right. by intros ?? ?%elem_of_nil. }
  apply NoDup_cons in Hnd as [Hta Hnd]. destruct (HT (ta, t)) as [Ht Hne]; [by left|]. simpl in Hne.
  assert (∀ e, e ∈ T → e ∈ U ∧ e.1 ≠ sa) as HT' by (intros e He; apply HT; by right).
  pose proof (Hwf _ Hs) as Ws. pose proof (Hwf _ Ht) as Wt. simpl in Ws, Wt.
  pose proof (below_le (sa, s) (ta, t) Hs Ht) as Bs. pose proof (below_le (ta, t) (sa, s) Ht Hs) as Bt.
  simpl in Bs, Bt.
  (* The target is marked, or apart from the source, and the loop goes on. *)
  assert (∀ removed', covered removed' → sa ∉ removed' → (∀ a, a ∈ removed → a ∈ removed') →
    (ta ∈ removed' ∨ apart s t) →
    ∃ r, mark_targets f64_to_string sa s T removed' = Ok r ∧ covered r ∧
      (∀ a, a ∈ removed → a ∈ r) ∧
      (sa ∈ r ∨ ∀ ta' t', (ta', t') ∈ ((ta, t) :: T) → ta' ∈ r ∨ apart s t')) as Hnext.
  { intros removed' Hc' Hsr' Hsub Hor.
    destruct (IH removed' HT' Hnd Hsr' Hc') as (r & E & Hcr & Hsub' & Hd).
    exists r. split_and!; [done..|naive_solver|]. destruct Hd as [?|Hd]; [by left|]. right.
    intros ta' t' [[= -> ->]|Hin]%elem_of_cons; [|by apply Hd]. naive_solver. }
  cbn [mark_targets]. case_bool_decide as Ein; simpl; [apply Hnext; auto|].
  rewrite bool_decide_false by congruence.
  rewrite !(subsume_rel _ s t), !(subsume_rel _ t s) by done.
  destruct (equal s t) eqn:Eq.
  { destruct (equal_le f64_to_string s t false) as [_ Hle]; [done..|].
    apply Hnext; [by apply (covered_add _ _ t sa s); auto| |by right|left; by left].
    by rewrite not_elem_of_cons. }
  cbn [mbind Res_bind]. destruct (le s t false) eqn:L1.
  { exists (sa :: removed). split_and!; [done|by apply (covered_add _ _ s ta t); auto|by right|left; by left]. }
  destruct (le t s false) eqn:L2.
  { apply Hnext; [by apply (covered_add _ _ t sa s); auto| |by right|left; by left].
    by rewrite not_elem_of_cons. }
  apply Hnext; [done..|by right].
Qed.

(** After the marking, the types that are left are pairwise apart. *)
Lemma mark_sub_types_spec T removed :
  (∀ e, e ∈ T → e ∈ U) → NoDup T.*1 → covered removed →
  ∃ r, mark_sub_types f64_to_string T removed = Ok r ∧ covered r ∧
    (∀ a, a ∈ removed → a ∈ r) ∧
    (∀ a t a' t', (a, t) ∈ T → (a', t') ∈ T → a ∉ r → a' ∉ r → a ≠ a' → apart t t').
Proof using HU Hwf below_refl below_trans below_le.
  revert removed. induction T as [|[sa s] T IH]; intros removed HT Hnd Hc.
  { exists removed. split_and!; [done..|]. by intros ???? ?%elem_of_nil. }
  apply NoDup_cons in Hnd as [Hsa Hnd].
  assert (∃ r, (if bool_decide (sa ∈ removed) then Ok removed
                else mark_targets f64_to_string sa s T removed) = Ok r ∧ covered r ∧
            (∀ a, a ∈ removed → a ∈ r) ∧
            (sa ∈ r ∨ ∀ ta t, (ta, t) ∈ T → ta ∈ r ∨ apart s t)) as (r1 & E1 & C1 & S1 & D1).
  { case_bool_decide as Ein; [exists removed; auto|].
    apply mark_targets_spec; [apply HT; by left| |done..].
    intros e He. split; [apply HT; by right|]. intros <-. apply Hsa.
    apply list_elem_of_fmap. by exists e. }
  destruct (IH r1) as (r & E & C & S & D); [intros e He; apply HT; by right|done..|].
  exists r. split_and!; [|done|naive_solver|].
  { cbn [mark_sub_types]. rewrite E1. exact E. }
  intros a t a' t' Ha Ha' Hn Hn' Hne.
  apply elem_of_cons in Ha as [[= -> ->]|Ha], Ha' as [[= -> ->]|Ha']; [done| | |by apply (D a t a' t')].
  - destruct D1 as [?|D1]; [naive_solver|]. destruct (D1 a' t' Ha') as [?|?]; [naive_solver|done].
  - destruct D1 as [?|D1]; [naive_solver|]. destruct (D1 a t Ha) as [?|[? ?]]; [naive_solver|done].
Qed.
End Marks.

(** Removing the marked addresses, in any order. *)
Lemma remove_all_spec (R : list positive) (U : IndexMap positive TypeRef) :
  wf_map U →
  let M := fold_left (λ s i, swap_remove i s) R U in
  wf_map M ∧ ∀ a t, (a, t) ∈ M ↔ (a, t) ∈ U ∧ a ∉ R.
Proof using.
  revert U. induction R as [|x R IH]; intros U HU; simpl.
  { split; [done|]. intros a t. split; [|naive_solver]. intros ?. split; [done|]. apply not_elem_of_nil. }
  destruct (IH (swap_remove x U) (swap_remove_wf _ _ HU)) as [HM HE]. split; [done|].
  intros a t. rewrite HE, not_elem_of_cons.
  assert ((a, t) ∈ swap_remove x U ↔ (a, t) ∈ U ∧ a ≠ x) as ->; [|tauto].
  pose proof (map_get_swap_remove U x a HU) as G.
  pose proof (swap_remove_wf U x HU) as HW. split.
  - intros Hin. rewrite (in_map_get _ _ _ HW Hin) in G. case_decide; [done|].
    split; [|done]. apply map_get_in. by rewrite <- G.
  - intros [Hin Hne]. rewrite decide_False in G by done. rewrite (in_map_get _ _ _ HU Hin) in G.
    by apply map_get_in.
Qed.

Lemma leaves_wf t u : wf_type t = true → u ∈ leaves t → wf_type u = true ∧ not_union u = true.
Proof using.
  revert u. induction t as [t IH] using type_size_ind. intros u Wt Hu.
  destruct t as [ad [| | | | | | | | | | | |ts| | | | | |] al fl]; cbn [leaves] in Hu;
    try (apply list_elem_of_singleton in Hu as ->; done).
  - apply list_elem_of_In, in_concat in Hu as (l & Hl & Hu%list_elem_of_In).
    apply in_map_iff in Hl as (t & <- & Hin%list_elem_of_In).
    apply (IH t); [by apply size_union|by eapply wft_union|done].
  - by apply elem_of_nil in Hu.
Qed.

Lemma all_leaves_elem types u : u ∈ all_leaves types ↔ ∃ t, t ∈ types ∧ u ∈ leaves t.
Proof using.
  unfold all_leaves. rewrite list_elem_of_In, in_concat. split.
  - intros (l & Hl & Hu%list_elem_of_In). apply in_map_iff in Hl as (t & <- & Ht%list_elem_of_In). eauto.
  - intros (t & Ht%list_elem_of_In & Hu%list_elem_of_In). exists (leaves t). split; [|done].
    apply in_map_iff. eauto.
Qed.

(** The result built from the types that are left. *)
Definition join_left (fresh : positive) (M : IndexMap positive TypeRef) : TypeRef :=
  match M with
  | [] => any_ref fresh
  | [(_, ty)] => ty
  | _ => union fresh M.*2
  end.

Lemma join_left_members fresh M :
  (∀ e, e ∈ M → not_union e.2 = true) →
  members (join_left fresh M) = match M with [] => [any_ref fresh] | _ => M.*2 end.
Proof using.
  intros H. destruct M as [|[a t] [|e M]]; [done| |done]. simpl.
  specialize (H (a, t) ltac:(by left)). unfold members, not_union in *. simpl in H.
  by destruct (kind t).
Qed.

Lemma join_left_wf fresh M : (∀ e, e ∈ M → wf_type e.2 = true) → wf_type (join_left fresh M) = true.
Proof using.
  intros H. destruct M as [|[a t] [|e M]]; [done|by apply (H (a, t)); left|].
  change (join_left fresh ((a, t) :: e :: M)) with (union fresh ((a, t) :: e :: M).*2).
  set (L := ((a, t) :: e :: M).*2). change (forallb wf_type L = true). apply forallb_forall.
  intros u Hu%list_elem_of_In. apply list_elem_of_fmap in Hu as (e' & -> & He'). by apply H.
Qed.

Lemma le_join_left fresh M t a u :
  (∀ e, e ∈ M → wf_type e.2 = true) → wf_type t = true → (a, u) ∈ M → le t u false = true →
  le t (join_left fresh M) false = true.
Proof using.
  intros HM Ht Hin Hle. pose proof (join_left_wf fresh M HM) as W.
  destruct M as [|[a' t'] [|e M]]; [by apply elem_of_nil in Hin| |].
  - apply list_elem_of_singleton in Hin as [= -> ->]. done.
  - apply (le_into_union _ _ u); [done..| |done]. apply list_elem_of_fmap. by exists (a, u).
Qed.

(** The types that are left: members of the list, each type of the list below
    one of them, pairwise apart. *)
Lemma sup_left set_order fresh types (below : TypeRef → TypeRef → Prop) :
  (∀ l, set_order l ≡ₚ l) →
  (∀ t, t ∈ types → wf_type t = true) →
  (∀ t u, t ∈ all_leaves types → u ∈ all_leaves types → addr t = addr u → t = u) →
  (∀ u, u ∈ all_leaves types → below u u) →
  (∀ u v w, u ∈ all_leaves types → v ∈ all_leaves types → w ∈ all_leaves types →
     below u v → below v w → below u w) →
  (∀ u v, u ∈ all_leaves types → v ∈ all_leaves types → le u v false = true → below u v) →
  ∃ M, sup f64_to_string set_order fresh types = Ok (join_left fresh M) ∧ wf_map M ∧
    (∀ e, e ∈ M → wf_type e.2 = true ∧ not_union e.2 = true ∧ e.2 ∈ all_leaves types) ∧
    (∀ u, u ∈ all_leaves types → ∃ a v, (a, v) ∈ M ∧ below u v) ∧
    (∀ a t a' t', (a, t) ∈ M → (a', t') ∈ M → a ≠ a' → apart t t').
Proof using.
  intros Hord Hwf Hcoh Hrefl Htrans Hle.
  destruct (add_leaves_spec (all_leaves types) []) as (HU & HA & HE);
    [apply NoDup_nil_2| |by intros ? ?%elem_of_nil|].
  { intros t u. simpl. by apply Hcoh. }
  rewrite <- add_types_leaves in HU, HA, HE by done.
  set (U := add_types_to_type_set [] types) in *.
  assert (∀ e, e ∈ U → e.2 ∈ all_leaves types) as HL.
  { intros e He. apply HE. apply list_elem_of_fmap. by exists e. }
  assert (∀ e, e ∈ U → wf_type e.2 = true ∧ not_union e.2 = true) as HG.
  { intros e He. apply HL, all_leaves_elem in He as (t & Ht & Hu). apply (leaves_wf t); auto. }
  destruct (mark_sub_types_spec U HU (λ e He, proj1 (HG e He)) below
              (λ e He, Hrefl _ (HL e He)) (λ e e' e'' H H' H'', Htrans _ _ _ (HL e H) (HL e' H') (HL e'' H''))
              (λ e e' H H', Hle _ _ (HL e H) (HL e' H')) U []) as (R & ER & CR & _ & DR);
    [done|done|by intros ? ? _ ?%elem_of_nil|].
  destruct (remove_all_spec (set_order R) U HU) as [HM HME].
  assert (∀ a t, (a, t) ∈ fold_left (λ s i, swap_remove i s) (set_order R) U ↔ (a, t) ∈ U ∧ a ∉ R)
    as HMR by (intros a t; by rewrite HME, (Hord R)).
  clear HME. set (M := fold_left (λ s i, swap_remove i s) (set_order R) U) in *.
  exists M. split_and!; [|done|..].
  - unfold sup, typeof. fold U. rewrite ER. cbn [mbind Res_bind]. fold M.
    by destruct M as [|[a t] [|e M']].
  - intros [a t] [He _]%HMR. destruct (HG _ He). auto.
  - intros u Hu. assert (u ∈ U.*2) as Hin by by apply HE.
    apply list_elem_of_fmap in Hin as ([a v] & -> & Hin). simpl.
    destruct (decide (a ∈ R)) as [Hr|Hr].
    + destruct (CR a v Hin Hr) as (a' & v' & Hin' & Hn & Hl). exists a', v'. by rewrite HMR.
    + exists a, v. rewrite HMR. split; [done|]. by apply Hrefl.
  - intros a t a' t' [Ha Hn]%HMR [Ha' Hn']%HMR Hne. by apply (DR a t a' t').
Qed.
End Marking.

Section Sup.
Variable f64_to_string : f64 → string.
Variable lineage : string → list string.
Variable no_str : bool.
Abbreviation le := (rel f64_to_string).
Abbreviation reg := (regular lineage no_str).
Hypothesis float_text : ∀ v name, name ∈ [INT_TYPE_STR; BOOL_TYPE_STR; STR_TYPE_STR] →
  str_contains name (tagged FLOAT_TYPE_STR (f64_to_string v)) = false.

Definition good (t : TypeRef) : bool := wf_type t && reg t.
Lemma good_spec t : good t = true ↔ wf_type t = true ∧ reg t = true.
Proof using. apply andb_true_iff. Qed.

(** ** Theorems *)

Lemma leaves_good t u : good t = true → u ∈ leaves t → good u = true ∧ not_union u = true.
Proof using.
  revert u. induction t as [t IH] using type_size_ind. intros u Ht Hu.
  pose proof Ht as [Wt Rt]%good_spec.
  destruct t as [ad [| | | | | | | | | | | |ts| | | | | |] al fl]; cbn [leaves] in Hu;
    try (apply list_elem_of_singleton in Hu as ->; done).
  - apply list_elem_of_In, in_concat in Hu as (l & Hl & Hu%list_elem_of_In).
    apply in_map_iff in Hl as (t & <- & Hin%list_elem_of_In).
    apply (IH t); [by apply size_union| |done]. apply good_spec.
    split; [by eapply wft_union|by eapply reg_union].
  - by apply elem_of_nil in Hu.
Qed.

Lemma le_leaves t r :
  good t = true → wf_type r = true → (∀ u, u ∈ leaves t → le u r false = true) → le t r false = true.
Proof using.
  revert t. induction t as [t IH] using type_size_ind. intros Ht Wr H.
  pose proof Ht as [Wt Rt]%good_spec.
  destruct t as [ad [| | | | | | | | | | | |ts| | | | | |] al fl]; try discriminate Rt;
    try (apply H; cbn [leaves]; apply list_elem_of_singleton; reflexivity).
  rewrite le_union_l by done. apply forallb_forall. intros t Hin%list_elem_of_In.
  apply IH; [by apply size_union| |done|].
  - apply good_spec. split; [by eapply wft_union|by eapply reg_union].
  - intros u Hu. apply H. cbn [leaves]. apply list_elem_of_In, in_concat. exists (leaves t).
    split; [apply in_map_iff; exists t; split; [done|by apply list_elem_of_In]|by apply list_elem_of_In].
Qed.

End Sup.

(** C23: assignability of well-formed types (their flags agree with their
    kinds, as the constructors build them) always terminates with an answer: no
    downcast fails, and any fuel from the sizes of the types on gives it. *)
Theorem subsume_total f64_to_string a b c n :
  wf_type a = true → wf_type b = true → (type_size a + type_size b ≤ n)%nat →
  ∃ r, subsume f64_to_string a b c = Ok r ∧ subsume_fuel f64_to_string n a b c = Ok r.
Proof.
  intros Ha Hb Hn. exists (rel f64_to_string a b c). split; [by apply subsume_rel|].
  by apply subsume_fuel_rel.
Qed.

(** C22: on regular types (no NaN literal, no [void], one base chain for each
    schema name, and not both [str] and string literals) assignability is a
    preorder: every type is assignable to itself, in both modes, and
    assignability composes through unions, lists, dictionaries, the contravariant
    parameters of functions and the base chains of schemas. *)
Theorem subsume_preorder f64_to_string lineage no_str a b d c :
  (∀ v name, name ∈ [INT_TYPE_STR; BOOL_TYPE_STR; STR_TYPE_STR] →
     str_contains name (tagged FLOAT_TYPE_STR (f64_to_string v)) = false) →
  good lineage no_str a = true → good lineage no_str b = true → good lineage no_str d = true →
  subsume f64_to_string a a c = Ok true ∧
  (subsume f64_to_string a b false = Ok true → subsume f64_to_string b d false = Ok true →
   subsume f64_to_string a d false = Ok true).
Proof.
  intros Hf [Wa Ra]%good_spec [Wb Rb]%good_spec [Wd Rd]%good_spec. split.
  - rewrite subsume_rel by done. f_equal. by apply (le_refl f64_to_string lineage no_str).
  - rewrite !subsume_rel by done. intros [= H1] [= H2]. f_equal.
    by apply (le_trans f64_to_string lineage no_str Hf a b d).
Qed.

(** setting the type of an attribute of a schema changes the type found for
    this attribute, whether the schema declares it, inherits it or has it from a
    protocol or nowhere, and for no other attribute. *)
Theorem set_type_of_attr_spec attr ty s attr' :
  get_type_of_attr attr' (set_type_of_attr attr ty s) =
  if decide (attr' = attr) then Some ty else get_type_of_attr attr' s.
Proof.
  destruct s as [n p f d e i m pr r b pt mx a fn ix ds].
  unfold get_type_of_attr, set_type_of_attr. cbn [schema_attrs set_schema_attrs get_obj_of_attr].
  case_decide as E.
  - subst. rewrite map_get_insert_eq. by destruct (map_get attr a) as [[]|].
  - rewrite map_get_insert_ne by done. done.
Qed.

(** ** Samples *)

Module Samples.
Definition fmt (v : f64) : string := "0.5".
Lemma fmt_text v name : name ∈ [INT_TYPE_STR; BOOL_TYPE_STR; STR_TYPE_STR] →
  str_contains name (tagged FLOAT_TYPE_STR (fmt v)) = false.
Proof. intros H. repeat (apply elem_of_cons in H as [->|H]; [reflexivity|]). by apply elem_of_nil in H. Defined.

Definition no_func : (FunctionType TypeRef) := MkFunctionType "" [] None (any_ref 90) false None.
Definition mk (name : string) (base : option (SchemaType TypeRef)) : (SchemaType TypeRef) :=
  MkSchemaType name "app" "app.k" "" [] true false false false base None [] [] no_func None [].
Definition person : (SchemaType TypeRef) := mk "Person" None.
Definition worker : (SchemaType TypeRef) := mk "Worker" (Some person).
Definition lineage (name : string) : list string :=
  if bool_decide (name = "app.Worker") then ["app.Worker"; "app.Person"] else [name].
Definition param (t : TypeRef) : (Param TypeRef) := MkParam "x" t false None (dummy_pos, dummy_pos).
Definition fn (p r : TypeRef) (a : positive) : TypeRef := function a None r [param p] "" false None.

Definition ints : TypeRef := list_of 1 (union 2 [int_lit 3 1; int_lit 4 2]).
Definition nums : TypeRef := list_of 5 (int_ref 6).
Definition floats : TypeRef := list_of 7 (union 8 [float_ref 9; str_ref 10]).
Definition types : list TypeRef :=
  [schema 11 worker; union 12 [int_lit 13 1; schema 14 person]; int_ref 15; float_lit 16 f_zero;
   fn (schema 17 person) (int_ref 18) 19; fn (schema 20 worker) (float_ref 21) 22; none_ref 23].
End Samples.
Import Samples.

Lemma subsume_total_witness :
  ∃ r, subsume fmt ints floats true = Ok r ∧ subsume_fuel fmt 10 ints floats true = Ok r.
Proof. apply (subsume_total fmt ints floats true 10); [reflexivity|reflexivity|apply Nat.leb_le; reflexivity]. Defined.

Lemma subsume_preorder_witness : subsume fmt ints floats false = Ok true.
Proof.
  apply (subsume_preorder fmt lineage false ints nums floats false fmt_text); reflexivity.
Defined.


(** A string literal whose text contains the name of a type is assignable to that
    type, and [str] is assignable to every string literal: the supremum of [str]
    and two literals is one of the literals, which is not an upper bound. *)
Example str_lit_int : subsume fmt (str_lit 1 "int") (int_ref 2) true = Ok true.
Proof. reflexivity. Qed.
Example sup_str_lit :
  sup fmt id 99 [str_lit 1 "b"; str_ref 2; str_lit 3 "a"] = Ok (str_lit 3 "a") ∧
  subsume fmt (str_lit 1 "b") (str_lit 3 "a") false = Ok false.
Proof. split; reflexivity. Qed.
(** An integer type is assignable to a literal float type. *)
Example int_float_lit : subsume fmt (int_ref 1) (float_lit 2 f_zero) true = Ok true.
Proof. reflexivity. Qed.
