(* ===== verification/Iter.v ===== *)
(** * Iterators

    [value/iter.rs]: the iterator over the characters of a string, the elements
    of a list, or the keys and values of a config; and the loop that the runtime
    drives it with. *)

From stdpp Require Import base tactics list strings numbers.
From Stdlib Require Import ZArith Lia.
From S2P Require Import Prelude MachineInt IndexMap Str Float64 Value.
Local Open Scope Z_scope.
Local Set Warnings "-clear-no-such-hyp".

Record ValueIterator := MkIterator {
  it_len : Z;
  cur_key : ValueRef;
  cur_val : ValueRef;
  keys : list string;
  pos : Z }.

Definition iterator_default : ValueIterator := MkIterator 0 ref_undefined ref_undefined [] 0.

Definition from_value (p : ValueRef) : Res ValueIterator :=
  if negb (is_str p) && negb (is_list p) && negb (is_config p) then
    Panic (PanicMsg ("'" +:+ type_str p +:+ "' object is not iterable"))
  else
    e ← is_empty p;
    if e : bool then Ok iterator_default
    else
      n ← len p;
      match rc p with
      | str_value _ | list_value _ => Ok (MkIterator n ref_undefined ref_undefined [] 0)
      | dict_value d => Ok (MkIterator n ref_undefined ref_undefined (values d).*1 0)
      | schema_value s => Ok (MkIterator n ref_undefined ref_undefined (values (config s)).*1 0)
      | _ => Ok iterator_default
      end.

Definition is_end (it : ValueIterator) : bool := as_i32 (it_len it) <=? pos it.

Definition iter_key (it : ValueIterator) : option ValueRef :=
  if (pos it =? 0) || (as_i32 (it_len it) <? pos it) then None else Some (cur_key it).
Definition iter_value (it : ValueIterator) : option ValueRef :=
  if pos it =? 0 then None else Some (cur_val it).

(** [&m[key]] of an [IndexMap]: panics on an absent key. *)
Definition map_at {A} (key : string) (m : IndexMap string A) : Res A :=
  match map_get key m with Some v => Ok v | None => Panic ExpectFailed end.

Section Iter.
Context {HP : Profile}.

(** The iterator after the step, and what the step returns. *)
Definition step_to (it : ValueIterator) (k v : ValueRef) (ret : ValueRef)
    : Res (ValueIterator * option ValueRef) :=
  p ← arith 32 (pos it + 1); Ok (MkIterator (it_len it) k v (keys it) p, Some ret).

Definition next_entry (it : ValueIterator) (dict : DictValue ValueRef)
    : Res (ValueIterator * option ValueRef) :=
  key ← index (keys it) (Z.to_nat (pos it));
  v ← map_at key (values dict);
  step_to it (ref_str key) v (ref_str key).

Definition next (it : ValueIterator) (host : ValueRef) : Res (ValueIterator * option ValueRef) :=
  e ← is_empty host;
  if e : bool then Ok (it, None)
  else
    n ← len host;
    if as_i32 n <=? pos it then Ok (it, None)
    else
      match rc host with
      | str_value s =>
          if as_i32 (Z.of_nat (length (chars s))) <=? pos it then Ok (it, None)
          else
            ch ← unwrap (chars s !! Z.to_nat (pos it));
            step_to it (ref_int (pos it)) (ref_str ch) (ref_str ch)
      | list_value l =>
          v ← index (list_values l) (Z.to_nat (pos it));
          step_to it (ref_int (pos it)) v v
      | dict_value d => next_entry it d
      | schema_value s => next_entry it (config s)
      | _ => Panic (PanicMsg (type_str host +:+ " object is not iterable"))
      end.

Definition next_with_key_value (it : ValueIterator) (host : ValueRef)
    : Res (ValueIterator * option (ValueRef * ValueRef * ValueRef)) :=
  r ← next it host;
  Ok (r.1, match r.2 with
           | Some next_value => Some (next_value, cur_key r.1, cur_val r.1)
           | None => None
           end).

(** ** The loops over an iterator

    Each gives the values returned, with the key and the value the iterator
    stands at, in the order of the rounds.  A round that goes on advances the
    position, so that one round more than the length is fuel enough
    ([iterations_visit]). *)

(** [while !iter.is_end() { let v = iter.next(host).unwrap(); .. }] *)
Fixpoint drain (fuel : nat) (it : ValueIterator) (host : ValueRef)
    : Res (list (ValueRef * ValueRef * ValueRef)) :=
  match fuel with
  | O => Panic AssertionFailed
  | S fuel =>
      if is_end it then Ok []
      else
        step ← next_with_key_value it host;
        r ← unwrap step.2;
        rs ← drain fuel step.1 host;
        Ok (r :: rs)
  end.

(** [while let Some(r) = iter.next_with_key_value(host) { .. }] *)
Fixpoint drain_some (fuel : nat) (it : ValueIterator) (host : ValueRef)
    : Res (list (ValueRef * ValueRef * ValueRef)) :=
  match fuel with
  | O => Panic AssertionFailed
  | S fuel =>
      step ← next_with_key_value it host;
      match step.2 with
      | None => Ok []
      | Some r => rs ← drain_some fuel step.1 host; Ok (r :: rs)
      end
  end.

Definition iterate (host : ValueRef) : Res (list (ValueRef * ValueRef * ValueRef)) :=
  it ← from_value host; drain (S (Z.to_nat (it_len it))) it host.
Definition iterate_some (host : ValueRef) : Res (list (ValueRef * ValueRef * ValueRef)) :=
  it ← from_value host; drain_some (S (Z.to_nat (it_len it))) it host.
End Iter.

(** ** What an iteration visits *)

Definition indexed {A} (f : Z → A → ValueRef * ValueRef * ValueRef) (l : list A)
    : list (ValueRef * ValueRef * ValueRef) := imap (λ i x, f (Z.of_nat i) x) l.

Definition visit_entry (e : string * ValueRef) : ValueRef * ValueRef * ValueRef :=
  (ref_str e.1, ref_str e.1, e.2).

(** The value returned, the key and the current value of each round. *)
Definition visits (host : ValueRef) : list (ValueRef * ValueRef * ValueRef) :=
  match rc host with
  | str_value s => indexed (λ i c, (ref_str c, ref_int i, ref_str c)) (chars s)
  | list_value l => indexed (λ i v, (v, ref_int i, v)) (list_values l)
  | dict_value d => visit_entry <$> values d
  | schema_value s => visit_entry <$> values (config s)
  | _ => []
  end.

Definition iterable (host : ValueRef) : bool := is_str host || is_list_or_config host.

Section IterSpec.
Context {HP : Profile}.

Lemma i32_le n i : 0 ≤ i ≤ n → in_i32 n = true → as_i32 i = i.
Proof.
  intros Hi Hn. apply wrap_int_id; [lia|]. apply in_int_spec in Hn. apply in_int_spec.
  unfold int_min, int_max in *. lia.
Qed.

(** The iterator over [host] at its [i]-th position. *)
Definition at_pos (host : ValueRef) (i : nat) (it : ValueIterator) : Prop :=
  len host = Ok (it_len it) ∧ in_i32 (it_len it) = true ∧ pos it = Z.of_nat i ∧
  keys it = match config_of host with Some d => (values d).*1 | None => [] end.

Lemma len_visits host n : len host = Ok n → Z.of_nat (length (visits host)) ≤ n.
Proof.
  unfold len, visits, indexed. destruct (rc host); intros [= <-];
    rewrite ?length_imap, ?length_fmap; try lia.
  pose proof (chars_length_le s). lia.
Qed.

(** At the end of a host there is no next value; before it, the step returns
    the next visit and moves on. *)
Lemma next_entry_spec d it i e :
  wf_map (values d) → keys it = (values d).*1 → pos it = Z.of_nat i →
  in_i32 (Z.of_nat i + 1) = true → values d !! i = Some e →
  next_entry it d = Ok (MkIterator (it_len it) (ref_str e.1) e.2 (keys it) (Z.of_nat i + 1),
                        Some (ref_str e.1)).
Proof.
  intros Hwf Hk Hp Hr He. unfold next_entry, index, map_at, step_to. rewrite Hk, Hp, Nat2Z.id.
  rewrite list_lookup_fmap, He. cbn [fmap option_fmap option_map mbind Res_bind].
  destruct e as [k v]. simpl. rewrite (in_map_get _ k v) by
    (done || by eapply list_elem_of_lookup_2). cbn [mbind Res_bind].
  by rewrite arith_Ok.
Qed.

Lemma next_spec host it i :
  wf_value host → at_pos host i it → (i ≤ length (visits host))%nat →
  next_with_key_value it host =
  match visits host !! i with
  | None => Ok (it, None)
  | Some r => Ok (MkIterator (it_len it) r.1.2 r.2 (keys it) (Z.of_nat i + 1), Some r)
  end.
Proof.
  intros Hwf (Hl & Hn & Hp & Hk) Hi. pose proof (len_visits _ _ Hl) as Hle.
  unfold next_with_key_value, next, is_empty. rewrite Hl. cbn [mbind Res_bind].
  rewrite (i32_le (it_len it) (it_len it)) by (done || lia). rewrite Hp.
  destruct (visits host !! i) as [r|] eqn:Er.
  2: { apply lookup_ge_None in Er. destruct (_ =? 0) eqn:E0; [done|].
       destruct (_ <=? _) eqn:E1; [done|]. unfold visits, len in *.
       destruct (rc host) eqn:Ec; try done; unfold indexed in *;
         rewrite ?length_imap, ?length_fmap in *; injection Hl as Hl; try lia.
       rewrite (i32_le (it_len it)) by (done || lia).
       by destruct (Z.leb_spec (Z.of_nat (length (chars s))) (Z.of_nat i)); [|lia]. }
  pose proof (lookup_lt_Some _ _ _ Er) as Hlt.
  destruct (_ =? 0) eqn:E0; [lia|]. destruct (_ <=? _) eqn:E1; [lia|].
  assert (in_i32 (Z.of_nat i + 1) = true) as Hr.
  { apply in_int_spec in Hn. apply in_int_spec. unfold int_min, int_max in *. lia. }
  unfold visits in *. apply wf_value_cell in Hwf. unfold config_of in Hk.
  destruct (rc host) eqn:Ec; try done; unfold indexed in *;
    rewrite ?length_imap, ?length_fmap in *.
  - rewrite (i32_le (it_len it)) by (done || lia).
    destruct (Z.leb_spec (Z.of_nat (length (chars s))) (Z.of_nat i)); [lia|]. rewrite Nat2Z.id.
    unfold unwrap.
    rewrite list_lookup_imap in Er. destruct (chars s !! i); [|done].
    injection Er as <-. unfold step_to. simpl. by rewrite Hp, arith_Ok.
  - rewrite list_lookup_imap in Er. rewrite Nat2Z.id. unfold index.
    destruct (list_values l !! i); [|done].
    injection Er as <-. unfold step_to. simpl. by rewrite Hp, arith_Ok.
  - rewrite list_lookup_fmap in Er. destruct (values d !! i) as [e|] eqn:Ee; [|done].
    injection Er as <-. by rewrite (next_entry_spec d it i e) by (done || apply Hwf).
  - rewrite list_lookup_fmap in Er. destruct (values (config s) !! i) as [e|] eqn:Ee; [|done].
    injection Er as <-. by rewrite (next_entry_spec _ it i e) by (done || apply Hwf).
Qed.

Lemma at_pos_step host i it (r : ValueRef * ValueRef * ValueRef) :
  at_pos host i it →
  at_pos host (S i) (MkIterator (it_len it) r.1.2 r.2 (keys it) (Z.of_nat i + 1)).
Proof. intros (Hl & Hn & Hp & Hk). repeat split; simpl; try done. lia. Qed.

Lemma at_pos_start host it :
  from_value host = Ok it → (∀ n, len host = Ok n → in_i32 n = true) → at_pos host 0 it.
Proof.
  unfold from_value, is_empty, at_pos. intros H Hn. destruct (negb _ && _ && _); [done|].
  destruct (len host) as [n|] eqn:El; [|done]. cbn [mbind Res_bind] in H.
  specialize (Hn n eq_refl). unfold len, config_of in *.
  destruct (n =? 0) eqn:E0.
  - injection H as <-. apply Z.eqb_eq in E0 as ->. simpl. repeat split.
    destruct (rc host); try done; injection El as El.
    + by destruct (values d).
    + by destruct (values (config s)).
  - destruct (rc host); try done; by injection H as <-.
Qed.

Lemma from_value_iterable host : is_Ok (from_value host) = iterable host.
Proof.
  unfold from_value, iterable, is_empty, len, is_str, is_list, kind, is_config, is_list_or_config.
  destruct (rc host); simpl; try done; by destruct (_ =? 0).
Qed.

Lemma drain_some_spec host it i fuel :
  wf_value host → at_pos host i it → (length (visits host) < i + fuel)%nat →
  (i ≤ length (visits host))%nat →
  drain_some fuel it host = Ok (drop i (visits host)).
Proof.
  intros Hwf. revert it i. induction fuel as [|fuel IH]; intros it i Hat Hf Hi; [lia|].
  cbn [drain_some]. rewrite (next_spec host it i) by done.
  destruct (visits host !! i) as [r|] eqn:Er; cbn [mbind Res_bind fst snd].
  - pose proof (lookup_lt_Some _ _ _ Er).
    rewrite (IH _ (S i)) by (done || lia || by apply at_pos_step).
    cbn [mbind Res_bind]. by rewrite (drop_S _ r i).
  - apply lookup_ge_None in Er. by rewrite drop_ge.
Qed.

Lemma drain_spec host it i fuel :
  wf_value host → at_pos host i it → (Z.to_nat (it_len it) < i + fuel)%nat →
  (i ≤ length (visits host))%nat →
  drain fuel it host =
  if decide (it_len it = Z.of_nat (length (visits host)))
  then Ok (drop i (visits host)) else Panic UnwrapNone.
Proof.
  intros Hwf. revert it i. induction fuel as [|fuel IH]; intros it i Hat Hf Hi.
  - pose proof (len_visits host (it_len it) ltac:(apply Hat)). lia.
  - cbn [drain]. pose proof (len_visits host (it_len it) ltac:(apply Hat)) as Hle.
    rewrite (next_spec host it i) by done. destruct Hat as (Hl & Hn & Hp & Hk) eqn:E.
    unfold is_end. rewrite Hp, (i32_le (it_len it) (it_len it)) by (done || lia).
    destruct (visits host !! i) as [r|] eqn:Er; cbn [mbind Res_bind unwrap fst snd].
    + pose proof (lookup_lt_Some _ _ _ Er).
      destruct (Z.leb_spec (it_len it) (Z.of_nat i)); [lia|].
      rewrite (IH _ (S i)) by (simpl; done || lia || by apply at_pos_step). simpl it_len.
      destruct (decide _); cbn [mbind Res_bind]; [|done]. by rewrite (drop_S _ r i).
    + apply lookup_ge_None in Er.
      destruct (Z.leb_spec (it_len it) (Z.of_nat i)), (decide _); try lia; [|done].
      by rewrite drop_ge.
Qed.
End IterSpec.

(** Iterating over a string, a list or a config visits its characters,
    elements or entries exactly once each and in order, with the index or the
    name of the entry as the key.  The [while let] loop does so always; the
    loop guarded by [is_end] does so unless the host is a string with fewer
    characters than bytes, where it unwraps a [None]. *)
Theorem iterations_visit `{Profile} host n :
  wf_value host → iterable host = true → len host = Ok n → in_i32 n = true →
  iterate_some host = Ok (visits host) ∧
  iterate host =
    (if decide (n = Z.of_nat (length (visits host))) then Ok (visits host) else Panic UnwrapNone).
Proof.
  intros Hwf Hit Hl Hn. rewrite <- from_value_iterable in Hit. unfold iterate_some, iterate.
  destruct (from_value host) as [it|] eqn:Ef; [|done]. cbn [mbind Res_bind].
  assert (at_pos host 0 it) as Hat by (apply at_pos_start; [done|congruence]).
  assert (it_len it = n) as Hlen by (destruct Hat; congruence).
  pose proof (len_visits _ _ Hl). split.
  - rewrite (drain_some_spec host it 0) by (done || lia). by rewrite drop_0.
  - rewrite (drain_spec host it 0) by (done || lia). by rewrite Hlen, drop_0.
Qed.

Lemma iterations_visit_witness :
  let _ : Profile := {| overflow_checks := true |} in
  let accented := ref_str (String (Ascii.ascii_of_nat 195) (String (Ascii.ascii_of_nat 169) EmptyString)) in
  let conf := ref_dict [("b", ref_int 1); ("a", ref_int 2)] in
  iterate conf = Ok [(ref_str "b", ref_str "b", ref_int 1); (ref_str "a", ref_str "a", ref_int 2)] ∧
  iterate accented = Panic UnwrapNone ∧
  iterate_some accented = Ok [(accented, ref_int 0, accented)].
Proof.
  intros P u conf.
  destruct (iterations_visit conf 2) as [_ Hc]; [concrete..|].
  destruct (iterations_visit u 2) as [Hs Hu]; [concrete..|].
  split; [rewrite Hc; vm_compute; reflexivity|].
  split; [rewrite Hu|rewrite Hs]; vm_compute; reflexivity.
Defined.
