(* ===== verification/Display.v ===== *)
(** * Printing values

    The [Display] form of a value and its quoted form, at the end of
    [value/val_fmt.rs]: what [str(x)], [join] and the messages of the runtime
    print. *)

From stdpp Require Import base tactics list strings numbers pretty.
From Stdlib Require Import ZArith Lia.
From S2P Require Import Prelude MachineInt IndexMap Str Float64 Value Cmp ListOps DictOps Arith.
From S2P Require Import TypeStr.
Local Open Scope Z_scope.

Definition BACKSLASH : string := String (Ascii.ascii_of_nat 92) EmptyString.

(** [s.replace(c, by)] for a one-byte character [c]. *)
Fixpoint replace_byte (c : Ascii.ascii) (by_ s : string) : string :=
  match s with
  | EmptyString => EmptyString
  | String a s =>
      if Ascii.eqb a c then by_ +:+ replace_byte c by_ s else String a (replace_byte c by_ s)
  end.

(** The two flags are named after each other's quote. *)
Definition quoted_string (value : string) : string :=
  let has_double_quote := str_contains SQUOTE value in
  let has_single_quote := str_contains DQUOTE value in
  if negb has_single_quote then SQUOTE +:+ value +:+ SQUOTE
  else if negb has_double_quote then DQUOTE +:+ value +:+ DQUOTE
  else DQUOTE +:+ replace_byte (Ascii.ascii_of_nat 34) (BACKSLASH +:+ DQUOTE) value +:+ DQUOTE.

Section Display.
(** [v.to_string()] of an [f64]. *)
Variable f64_to_string : f64 → string.

Section Entries.
Variable to_string : ValueRef → string.
Definition quoted_with (value : ValueRef) : string :=
  match rc value with str_value s => quoted_string s | _ => to_string value end.
Definition entries_to_string (m : IndexMap string ValueRef) : string :=
  "{" +:+ String.concat ", "
    (map (λ e, quoted_string e.1 +:+ ": " +:+ quoted_with e.2) m) +:+ "}".
End Entries.

Fixpoint to_string (self : ValueRef) : string :=
  match self with
  | Ref c =>
      match c with
      | undefined => "Undefined"
      | none => "None"
      | bool_value v => if v then "True" else "False"
      | int_value _ | float_value _ => number_to_string f64_to_string (Ref c)
      | unit_value _ raw unit => pretty raw +:+ unit
      | str_value v => v
      | list_value v => "[" +:+ String.concat ", " (map to_string (list_values v)) +:+ "]"
      | dict_value v => entries_to_string to_string (values v)
      | schema_value v => entries_to_string to_string (values (config v))
      | func_value _ => "function"
      end
  end.

Definition value_to_quoted_string (value : ValueRef) : string :=
  if is_str value then quoted_string (as_str value) else to_string value.
End Display.

(** A string with a quote is printed inside the same quotes, unescaped. *)
Example quoted_apostrophe : quoted_string "it's" = "'it's'".
Proof. reflexivity. Qed.
Example display_nested :
  to_string (λ _, "1") (ref_list [ref_dict [("a", ref_str "x")]; ref_str "y"; ref_float f_zero]) =
  "[{'a': 'x'}, y, 1.0]".
Proof. reflexivity. Qed.
