(* ===== verification/Builtin.v ===== *)
(** * Built-in functions

    [stdlib/builtin.rs]: the predicates over the elements of a container, [sorted],
    [int], [max] and [min], the numerals in other bases, [sum], [abs], [ord],
    [zip], [list], [dict], [range], [multiplyof] and [pow]; with the ordering of
    values of [api/kcl.rs] that [sorted] uses. *)

From stdpp Require Import base tactics list sets strings numbers pretty sorting.
From Stdlib Require Import ZArith Lia Ascii.
From S2P Require Import Prelude MachineInt IndexMap Str Float64 Value Cmp ListOps DictOps Arith.
From S2P Require Import UnionOps TypeStr Units Iter Display.
Local Open Scope Z_scope.
Local Set Warnings "-clear-no-such-hyp".

(** ** [any], [all], [isunique] *)

Definition any_true (self : ValueRef) : bool :=
  match rc self with
  | list_value l => existsb is_truthy (list_values l)
  | dict_value d => existsb (λ e, is_truthy e.2) (values d)
  | schema_value s => existsb (λ e, is_truthy e.2) (values (config s))
  | _ => false
  end.

(** The test of a schema instance is the other way round. *)
Definition all_true (self : ValueRef) : bool :=
  match rc self with
  | list_value l => forallb is_truthy (list_values l)
  | dict_value d => forallb (λ e, is_truthy e.2) (values d)
  | schema_value s => forallb (λ e, negb (is_truthy e.2)) (values (config s))
  | _ => false
  end.

(** ** The ordering of values: [Ord for ValueRef] *)

Definition ord_cmp (self other : ValueRef) : Res comparison :=
  let ord :=
    match rc self, rc other with
    | int_value a, int_value b => Some (a ?= b)
    | int_value a, float_value b => SFcompare (f_of_int a) b
    | float_value a, int_value b => SFcompare a (f_of_int b)
    | float_value a, float_value b => SFcompare a b
    | str_value a, str_value b => Some (String.compare a b)
    | _, _ => None
    end in
  match ord with
  | Some ord => Ok ord
  | None => Panic (PanicMsg ("cannot compare " +:+ type_str self +:+ " and " +:+ type_str other))
  end.

(** [<[T]>::sort_by]: a stable sort.  On slices of up to twenty elements the
    standard library sorts by insertion into the sorted prefix, from its end;
    for a total order the result does not depend on the algorithm. *)
Section Sort.
Context {A : Type} (less : A → A → Res bool).

(** The sorted prefix is held in reverse. *)
Fixpoint insert_tail (x : A) (prefix : list A) : Res (list A) :=
  match prefix with
  | [] => Ok [x]
  | y :: prefix' =>
      b ← less x y;
      if b : bool then r ← insert_tail x prefix'; Ok (y :: r) else Ok (x :: prefix)
  end.
Fixpoint insertion (prefix l : list A) : Res (list A) :=
  match l with
  | [] => Ok (reverse prefix)
  | x :: l => prefix ← insert_tail x prefix; insertion prefix l
  end.
Definition sort_stable (l : list A) : Res (list A) := insertion [] l.
End Sort.

Definition sort_less (backwards : bool) (a b : ValueRef) : Res bool :=
  o ← (if backwards then ord_cmp b a else ord_cmp a b); Ok (bool_decide (o = Lt)).

Definition sorted (self : ValueRef) (reverse : option ValueRef) : Res ValueRef :=
  let backwards := match reverse with Some v => as_bool v | None => false end in
  match rc self with
  | str_value s =>
      vs ← sort_stable (sort_less backwards) (ref_str <$> chars s); Ok (ref_list vs)
  | list_value _ =>
      l ← as_list_ref (deep_copy self);
      vs ← sort_stable (sort_less backwards) (list_values l); Ok (ref_list vs)
  | dict_value d =>
      vs ← sort_stable (sort_less backwards) (ref_str <$> (values d).*1); Ok (ref_list vs)
  | _ => Panic (PanicMsg "sorted only for str|list|dict type")
  end.

(** ** [max] and [min] *)

(** [for x in l { if filter(x, result) { result = x } }] *)
Section Pick.
Context {A : Type} (better : A → A → Res bool).
Fixpoint pick (result : A) (l : list A) : Res A :=
  match l with
  | [] => Ok result
  | x :: l => b ← better x result; pick (if b : bool then x else result) l
  end.
End Pick.

Definition filter_value (better : ValueRef → ValueRef → Res bool) (self : ValueRef)
    : Res ValueRef :=
  let pick_str := pick (λ a b, better (ref_str a) (ref_str b)) in
  match rc self with
  | str_value s =>
      match chars s with
      | [] => Panic (PanicMsg "arg is an empty str")
      | c :: cs => r ← pick_str c (c :: cs); Ok (ref_str r)
      end
  | list_value l =>
      match list_values l with
      | [] => Panic (PanicMsg "arg is an empty list")
      | v :: vs => pick better v (v :: vs)
      end
  | dict_value d =>
      match (values d).*1 with
      | [] => Panic (PanicMsg "arg is an empty dict")
      | k :: ks => r ← pick_str k (k :: ks); Ok (ref_str r)
      end
  | schema_value s =>
      match (values (config s)).*1 with
      | [] => Panic (PanicMsg "arg is an empty dict")
      | k :: ks => r ← pick_str k (k :: ks); Ok (ref_str r)
      end
  | _ => Panic (PanicMsg (type_str self +:+ " object is not iterable"))
  end.

Definition max_value (self : ValueRef) : Res ValueRef := filter_value cmp_greater_than self.
Definition min_value (self : ValueRef) : Res ValueRef := filter_value cmp_less_than self.

(** ** Numerals in other bases *)

Definition digit_char (d : Z) : ascii :=
  ascii_of_nat (Z.to_nat (if d <? 10 then 48 + d else 87 + d)).

(** [format!("{:x}", n)] and the like for [n >= 0]; 64 digits are enough for an
    [i64] in any base. *)
Fixpoint digits_onto (fuel : nat) (base n : Z) (acc : string) : string :=
  match fuel with
  | O => acc
  | S fuel =>
      let acc := String (digit_char (n mod base)) acc in
      if n / base =? 0 then acc else digits_onto fuel base (n / base) acc
  end.
Definition digits_in (base n : Z) : string := digits_onto 64 base n "".

(** What [hex], [oct] and [bin] share: the digits of the absolute value after
    the prefix, and a literal for [i64::MIN], whose absolute value overflows. *)
Definition print_in (base : Z) (prefix least : string) (self : ValueRef) : ValueRef :=
  match rc self with
  | int_value val =>
      if val =? i64_MIN then ref_str least
      else if 0 <=? val then ref_str (prefix +:+ digits_in base (Z.abs val))
      else ref_str ("-" +:+ prefix +:+ digits_in base (Z.abs val))
  | _ => ref_undefined
  end.
Definition hex : ValueRef → ValueRef := print_in 16 "0x" "-0x8000000000000000".
Definition oct : ValueRef → ValueRef := print_in 8 "0o" "-01000000000000000000000".
Definition bin : ValueRef → ValueRef :=
  print_in 2 "0b" "-0b1000000000000000000000000000000000000000000000000000000000000000".

(** [i64::from_str_radix]: an optional sign and digits of the base in either
    case, in range. *)
Definition alnum_value (a : ascii) : option Z :=
  let n := Z.of_nat (nat_of_ascii a) in
  if (48 <=? n) && (n <=? 57) then Some (n - 48)
  else if (97 <=? n) && (n <=? 122) then Some (n - 87)
  else if (65 <=? n) && (n <=? 90) then Some (n - 55)
  else None.
Fixpoint radix_value (radix : Z) (s : string) (acc : Z) : option Z :=
  match s with
  | EmptyString => Some acc
  | String a s =>
      d ← alnum_value a;
      if d <? radix then radix_value radix s (acc * radix + d) else None
  end.
Definition radix_digits (radix : Z) (s : string) : option Z :=
  if str_is_empty s then None else radix_value radix s 0.
Definition signed_digits (radix : Z) (s : string) : option Z :=
  match s with
  | String "-" s => Z.opp <$> radix_digits radix s
  | String "+" s => radix_digits radix s
  | s => radix_digits radix s
  end.
Definition i64_from_str_radix (s : string) (radix : Z) : Res (option Z) :=
  if (radix <? 2) || (36 <? radix) then
    Panic (PanicMsg ("from_ascii_radix: radix must lie in the range `[2, 36]` - found " +:+ pretty radix))
  else Ok (v ← signed_digits radix s; if in_i64 v then Some v else None).

Definition strip_prefix (p s : string) : option string :=
  if starts_with p s then Some (str_drop (slen p) s) else None.

(** The first of the prefixes that [s] has, cut off. *)
Fixpoint strip_any (ps : list string) (s : string) : string :=
  match ps with
  | [] => s
  | p :: ps => match strip_prefix p s with Some s => s | None => strip_any ps s end
  end.

(** ** Loops that may go on for ever

    A loop with no bound of its own runs for [fuel] rounds: [None] says that it
    has not ended by then. *)
Abbreviation Run A := (option (Res A)).
Definition run_with {A B} (r : Res A) (f : A → Run B) : Run B :=
  match r with Ok a => f a | Panic p => Some (Panic p) end.
Definition run_map {A B} (f : A → B) (r : Run A) : Run B :=
  match r with Some (Ok a) => Some (Ok (f a)) | Some (Panic p) => Some (Panic p) | None => None end.

Section Builtin.
Context {HP : Profile} {HC : ContextConfig}.
(** [v.to_string()] of an [f64]. *)
Variable f64_to_string : f64 → string.
(** [f64::powf] is the platform's [pow]. *)
Variable powf : f64 → f64 → f64.

(** ** [int] *)

Definition number_text (v : string) (base : Z) : Res string :=
  if base =? 10 then q ← to_quantity v; Ok (pretty q)
  else
    match v with
    | String "-" s => Ok ("-" +:+ strip_any ["0x"; "0X"; "0o"; "0O"; "0b"; "0B"] s)
    | s => Ok (strip_any ["0x"; "0X"; "0o"; "0O"; "0b"; "0B"] s)
    end.

Definition convert_to_int (self : ValueRef) (base : option ValueRef) : Res ValueRef :=
  match rc self with
  | int_value v => Ok (ref_int v)
  | float_value v => Ok (ref_int (f_to_i64 v))
  | unit_value v raw unit =>
      v_i128 ← real_uint_value raw unit;
      let int_32_overflow := strict_range_check_32 && negb (v_i128 =? as_i32 v_i128) in
      let int_64_overflow := strict_range_check_64 && negb (v_i128 =? as_i64 v_i128) in
      if debug_mode && int_32_overflow then Panic (I32Overflow v_i128)
      else if debug_mode && int_64_overflow then Panic (I64Overflow v_i128)
      else Ok (ref_int (f_to_i64 v))
  | bool_value v => Ok (ref_int (Z_of_bool v))
  | str_value v =>
      let base := match base with Some b => as_int b | None => 10 end in
      number_str ← number_text v base;
      n ← i64_from_str_radix number_str (as_u32 base);
      match n with
      | Some v => Ok (ref_int v)
      | None => Panic (PanicMsg ("invalid literal for int() with base " +:+ pretty base +:+ ": '" +:+
                                 to_string f64_to_string self +:+ "'"))
      end
  | _ => Panic (PanicMsg ("int() argument must be a string or a number, not '" +:+
                          type_str self +:+ "'"))
  end.

(** ** [sum], [abs], [ord] *)

Fixpoint sum_from (result : ValueRef) (l : list ValueRef) : Res ValueRef :=
  match l with
  | [] => Ok result
  | v :: l => result ← bin_add result v; sum_from result l
  end.
Definition sum (self init_value : ValueRef) : Res ValueRef :=
  match rc self with
  | list_value l =>
      match rc init_value with
      | str_value _ => Panic (PanicMsg "sum() can't sum strings")
      | _ => sum_from init_value (list_values l)
      end
  | _ => Ok ref_undefined
  end.

Definition abs_value (self : ValueRef) : Res ValueRef :=
  match rc self with
  | int_value v => a ← arith 64 (Z.abs v); Ok (ref_int a)
  | float_value v => Ok (ref_float (SFabs v))
  | _ => Ok ref_undefined
  end.

(** [ch as i64]: the code point of a character from its UTF-8 bytes. *)
Definition lead_bits (a : Z) : Z :=
  if a <? 128 then a else if a <? 224 then a - 192 else if a <? 240 then a - 224 else a - 240.
Fixpoint continue_bits (s : string) (acc : Z) : Z :=
  match s with
  | EmptyString => acc
  | String a s => continue_bits s (acc * 64 + (Z.of_nat (nat_of_ascii a) - 128))
  end.
Definition code_point (ch : string) : Z :=
  match ch with
  | EmptyString => 0
  | String a s => continue_bits s (lead_bits (Z.of_nat (nat_of_ascii a)))
  end.

Definition ord (self : ValueRef) : Res ValueRef :=
  match rc self with
  | str_value s =>
      match chars s with
      | [ch] => Ok (ref_int (code_point ch))
      | _ => Panic (PanicMsg (" ord() expected string of length 1, but string of length " +:+
                              pretty (slen s) +:+ " found"))
      end
  | _ => Ok ref_undefined
  end.

(** ** [zip] *)

(** One round over the iterators.  [inl rows]: an iterator has ended, after [i]
    others have moved on; [inr]: all have moved on. *)
Fixpoint zip_row (i : nat) (iters : list (ValueIterator * ValueRef)) (rows : list (list ValueRef))
    (pre_len : nat)
    : Res (list (list ValueRef) + list (ValueIterator * ValueRef) * list (list ValueRef)) :=
  match iters with
  | [] => Ok (inr ([], rows))
  | (it, host) :: iters =>
      if is_end it then Ok (inl (if Nat.eqb i 0 then rows else removelast rows))
      else
        let rows := if Nat.leb (length rows) pre_len then rows ++ [[]] else rows in
        step ← next it host;
        v ← unwrap step.2;
        row ← index rows pre_len;
        r ← zip_row (S i) iters (<[pre_len := row ++ [v]]> rows) pre_len;
        match r with
        | inl rows => Ok (inl rows)
        | inr (iters, rows) => Ok (inr ((step.1, host) :: iters, rows))
        end
  end.

(** [loop { .. pre_len += 1 }] *)
Fixpoint zip_loop (fuel : nat) (iters : list (ValueIterator * ValueRef))
    (rows : list (list ValueRef)) (pre_len : nat) : Run (list (list ValueRef)) :=
  match fuel with
  | O => None
  | S fuel =>
      run_with (zip_row 0 iters rows pre_len) (λ r,
        match r with
        | inl rows => Some (Ok rows)
        | inr (iters, rows) => zip_loop fuel iters rows (S pre_len)
        end)
  end.

Fixpoint iters_of (hosts : list ValueRef) : Res (list (ValueIterator * ValueRef)) :=
  match hosts with
  | [] => Ok []
  | host :: hosts => it ← from_value host; iters ← iters_of hosts; Ok ((it, host) :: iters)
  end.

Definition zip_run (fuel : nat) (self : ValueRef) : Run ValueRef :=
  match rc self with
  | list_value l =>
      run_with (iters_of (list_values l)) (λ iters,
        run_map (λ rows, ref_list (ref_list <$> rows)) (zip_loop fuel iters [] 0))
  | _ => Some (Ok ref_undefined)
  end.

(** ** [list] and [dict] *)

Definition list_of (iterable : option ValueRef) : Res ValueRef :=
  match iterable with
  | Some val => rs ← iterate val; Ok (ref_list (rs.*1.*1))
  | None => Ok (ref_list [])
  end.

Section Dict.
Variable to_json_string : ValueRef → string.
Variable all_schemas : string → option (ValueRef → ValueRef → ValueRef → Res ValueRef).

(** The key and the value of an element that is no entry of a config.  Its
    iterator is stepped over [val], the sequence of the elements. *)
Definition pair_of (i : Z) (val elem : ValueRef) : Res (string * ValueRef) :=
  elem_iter ← from_value elem;
  if negb (it_len elem_iter =? 2) then
    Panic (PanicMsg ("dictionary update sequence element #" +:+ pretty i +:+ " has length " +:+
                     pretty (it_len elem_iter) +:+ "; 2 is required"))
  else
    k ← next elem_iter val;
    key ← unwrap k.2;
    v ← next k.1 val;
    value ← unwrap v.2;
    Ok (to_string f64_to_string key, value).

(** The value that [next] returns is not looked at. *)
Definition dict_round (it : ValueIterator) (val result : ValueRef)
    : Res (ValueIterator * ValueRef) :=
  step ← next it val;
  e ← match rc (cur_key step.1) with
      | str_value k => Ok (k, cur_val step.1)
      | _ => pair_of (pos step.1 - 1) val (cur_val step.1)
      end;
  result ← dict_insert to_json_string all_schemas result e.1 e.2 Union None;
  Ok (step.1, result).
Fixpoint dict_loop (fuel : nat) (it : ValueIterator) (val result : ValueRef) : Run ValueRef :=
  match fuel with
  | O => None
  | S fuel =>
      if is_end it then Some (Ok result)
      else run_with (dict_round it val result) (λ r, dict_loop fuel r.1 val r.2)
  end.

Definition dict_run (fuel : nat) (iterable : option ValueRef) : Run ValueRef :=
  match iterable with
  | Some val => run_with (from_value val) (λ it, dict_loop fuel it val (ref_dict []))
  | None => Some (Ok (ref_dict []))
  end.
End Dict.

(** ** [range], [multiplyof], [pow] *)

Fixpoint range_loop (fuel : nat) (cur stop step : Z) : Run (list Z) :=
  match fuel with
  | O => None
  | S fuel =>
      if (if 0 <? step then cur <? stop else stop <? cur) then
        run_with (arith 64 (cur + step))
          (λ cur', run_map (cons cur) (range_loop fuel cur' stop step))
      else Some (Ok [])
  end.
Definition range_run (fuel : nat) (start stop step : ValueRef) : Run ValueRef :=
  match rc start, rc stop, rc step with
  | int_value start, int_value stop, int_value step =>
      if step =? 0 then Some (Panic (PanicMsg "range() step argument must not be zero"))
      else run_map (λ l, ref_list (ref_int <$> l)) (range_loop fuel start stop step)
  | _, _, _ => Some (Ok ref_undefined)
  end.

Definition multiplyof (a b : ValueRef) : Res ValueRef :=
  match rc a, rc b with
  | int_value a, int_value b => r ← int_rem 64 a b; Ok (ref_bool (r =? 0))
  | _, _ => Ok ref_undefined
  end.

(** Square and multiply, in [i128]; the exponent of an [i64] is used up after 63
    rounds. *)
Fixpoint pow_loop (fuel : nat) (ans base m exp : Z) : Res Z :=
  match fuel with
  | O => Panic AssertionFailed
  | S fuel =>
      if 0 <? exp then
        ans ← (if Z.rem exp 2 =? 1 then p ← arith 128 (ans * base); int_rem 128 p m else Ok ans);
        p ← arith 128 (base * base);
        base ← int_rem 128 p m;
        pow_loop fuel ans base m (Z.quot exp 2)
      else Ok ans
  end.

Definition pow (x y z : ValueRef) : Res ValueRef :=
  match rc z with
  | int_value z =>
      if z =? 0 then Panic (PanicMsg "pow() 3rd argument cannot be 0")
      else
        match rc x, rc y with
        | int_value x, int_value y =>
            match y ?= 0 with
            | Eq => Ok (ref_int 1)
            | Gt => ans ← pow_loop 64 1 x z y; Ok (ref_int (as_i64 ans))
            | Lt => Panic (PanicMsg
                "pow() 2nd argument cannot be negative when 3rd argument specified")
            end
        | _, _ => Panic (PanicMsg "pow() 3rd argument not allowed unless all arguments are integers")
        end
  | _ =>
      match rc x, rc y with
      | int_value x, int_value y =>
          let r := powf (f_of_int x) (f_of_int y) in
          if 0 <=? y then Ok (ref_int (f_to_i64 r)) else Ok (ref_float r)
      | int_value x, float_value y => Ok (ref_float (powf (f_of_int x) y))
      | float_value x, int_value y => Ok (ref_float (powf x (f_of_int y)))
      | float_value x, float_value y => Ok (ref_float (powf x y))
      | _, _ => Ok ref_undefined
      end
  end.
End Builtin.

(** ** Modular exponentiation *)

Lemma rem_pow_l a n q : n ≠ 0 → 0 ≤ q → Z.rem (Z.rem a n ^ q) n = Z.rem (a ^ q) n.
Proof.
  intros Hn. revert q. apply natlike_ind; [done|]. intros q Hq IH. rewrite !Z.pow_succ_r by lia.
  rewrite Z.mul_rem_idemp_l by done. rewrite <- (Z.mul_rem_idemp_r a) by done.
  rewrite IH. by rewrite Z.mul_rem_idemp_r.
Qed.

Lemma rem_abs_le a m : m ≠ 0 → Z.abs m ≤ 2 ^ 63 → Z.abs (Z.rem a m) ≤ 2 ^ 63.
Proof. intros. pose proof (Z.rem_bound_abs a m). lia. Qed.

Lemma in_i128_abs z : Z.abs z ≤ 2 ^ 126 → in_int 128 z = true.
Proof. intros. apply in_int_spec. unfold int_min, int_max. lia. Qed.

Lemma abs_mul_le a b : Z.abs a ≤ 2 ^ 63 → Z.abs b ≤ 2 ^ 63 → Z.abs (a * b) ≤ 2 ^ 126.
Proof. intros. rewrite Z.abs_mul. change (2 ^ 126) with (2 ^ 63 * 2 ^ 63). nia. Qed.

(** Reducing a product of two operands of at most 64 bits. *)
Lemma mul_rem_128 `{Profile} a b m :
  m ≠ 0 → Z.abs a ≤ 2 ^ 63 → Z.abs b ≤ 2 ^ 63 →
  (p ← arith 128 (a * b); int_rem 128 p m) = Ok (Z.rem (a * b) m).
Proof.
  intros Hm Ha Hb. pose proof (abs_mul_le a b Ha Hb) as Hab.
  rewrite arith_Ok by by apply in_i128_abs. cbn [mbind Res_bind]. unfold int_rem.
  destruct (Z.eqb_spec m 0); [lia|]. rewrite in_i128_abs; [done|].
  pose proof (Z.quot_abs (a * b) m Hm). rewrite <- H0.
  transitivity (Z.abs (a * b)); [|done].
  apply Z.quot_le_upper_bound; nia.
Qed.

Lemma pow_loop_spec `{Profile} fuel ans base m exp :
  m ≠ 0 → Z.abs m ≤ 2 ^ 63 → Z.abs ans ≤ 2 ^ 63 → Z.abs base ≤ 2 ^ 63 →
  0 ≤ exp < 2 ^ Z.of_nat fuel →
  pow_loop (S fuel) ans base m exp = Ok (if exp =? 0 then ans else Z.rem (ans * base ^ exp) m).
Proof.
  intros Hm Hmb. revert ans base exp. induction fuel as [|fuel IH]; intros ans base exp Ha Hb He.
  { change (2 ^ Z.of_nat 0) with 1 in He. destruct (Z.eqb_spec exp 0); [|lia]. cbn [pow_loop]. by destruct (Z.ltb_spec 0 exp); [lia|]. }
  rewrite Nat2Z.inj_succ, Z.pow_succ_r in He by lia.
  set (n := S fuel) in *. cbn [pow_loop]. destruct (Z.ltb_spec 0 exp).
  2: { destruct (Z.eqb_spec exp 0); [done|lia]. }
  destruct (Z.eqb_spec exp 0) as [|_]; [lia|].
  rewrite (Z.rem_mod_nonneg exp 2), (Z.quot_div_nonneg exp 2) by lia.
  pose proof (Z.div_mod exp 2 ltac:(lia)) as Hd. pose proof (Z.mod_pos_bound exp 2 ltac:(lia)).
  set (q := exp / 2) in *. set (b := exp mod 2) in *.
  assert (∃ ans', (if b =? 1 then p ← arith 128 (ans * base); int_rem 128 p m else Ok ans) = Ok ans' ∧
    ans' = (if b =? 1 then Z.rem (ans * base) m else ans) ∧ Z.abs ans' ≤ 2 ^ 63) as (ans' & -> & Hans & Ha').
  { eexists. split; [|split; [reflexivity|]].
    - destruct (b =? 1); [|done]. by apply mul_rem_128.
    - destruct (b =? 1); [by apply rem_abs_le|done]. }
  cbn [mbind Res_bind].
  pose proof (mul_rem_128 base base m Hm Hb Hb) as Hbb.
  destruct (arith 128 (base * base)) as [p|]; [|done]. cbn [mbind Res_bind] in Hbb |- *. rewrite Hbb.
  cbn [mbind Res_bind]. rewrite IH by (done || by apply rem_abs_le || lia). f_equal. subst ans'.
  destruct (Z.eqb_spec q 0) as [Hq|Hq].
  - replace b with 1 in * by lia. simpl. replace exp with 1 by lia. by rewrite Z.pow_1_r.
  - rewrite <- Z.mul_rem_idemp_r, rem_pow_l, Z.mul_rem_idemp_r by (done || lia).
    rewrite <- Z.pow_2_r, <- Z.pow_mul_r by lia.
    destruct (Z.eqb_spec b 1) as [Hb1|Hb1].
    + rewrite Z.mul_rem_idemp_l by done. f_equal.
      replace exp with (1 + 2 * q) by lia. rewrite Z.pow_add_r, Z.pow_1_r by lia. ring.
    + replace (2 * q) with exp by lia. done.
Qed.

(** ** Ranges *)

(** The number of rounds: the ceiling of [(stop - start) / step]. *)
Definition range_count (start stop step : Z) : Z := - ((start - stop) / step).
Definition progression (start step : Z) (n : nat) : list Z :=
  (λ i, start + Z.of_nat i * step) <$> List.seq 0 n.

Lemma progression_S start step n :
  progression start step (S n) = start :: progression (start + step) step n.
Proof.
  unfold progression. cbn [List.seq fmap list_fmap]. f_equal; [lia|].
  rewrite <- fmap_S_seq, <- list_fmap_compose. apply list_fmap_ext. intros i x _. cbn [compose]. lia.
Qed.

Lemma range_more cur stop step :
  step ≠ 0 → (if 0 <? step then cur <? stop else stop <? cur) = (0 <? range_count cur stop step).
Proof.
  intros Hs. unfold range_count. destruct (Z.ltb_spec 0 step).
  - destruct (Z.ltb_spec cur stop).
    + pose proof (Z.div_lt_upper_bound (cur - stop) step 0). lia.
    + pose proof (Z.div_le_lower_bound (cur - stop) step 0). lia.
  - rewrite <- Z.div_opp_opp by done. destruct (Z.ltb_spec stop cur).
    + pose proof (Z.div_lt_upper_bound (- (cur - stop)) (- step) 0). lia.
    + pose proof (Z.div_le_lower_bound (- (cur - stop)) (- step) 0). lia.
Qed.

Lemma range_count_next cur stop step :
  step ≠ 0 → range_count (cur + step) stop step = range_count cur stop step - 1.
Proof.
  intros Hs. unfold range_count. replace (cur + step - stop) with (cur - stop + 1 * step) by ring.
  rewrite Z.div_add by done. lia.
Qed.

Lemma range_next_in cur stop step :
  in_i64 cur = true → in_i64 stop = true → step ≠ 0 → 1 < range_count cur stop step →
  in_i64 (cur + step) = true.
Proof.
  intros Hc Ht Hs Hn. pose proof (range_more cur stop step Hs) as H1.
  pose proof (range_more (cur + step) stop step Hs) as H2. rewrite range_count_next in H2 by done.
  apply in_int_spec in Hc, Ht. apply in_int_spec. unfold int_min, int_max in *.
  destruct (Z.ltb_spec 0 step); lia.
Qed.

Lemma range_loop_spec `{Profile} fuel n cur stop step :
  in_i64 cur = true → in_i64 stop = true → step ≠ 0 →
  Z.max 0 (range_count cur stop step) = Z.of_nat n →
  (in_i64 (cur + Z.of_nat n * step) = true → (n < fuel)%nat →
     range_loop fuel cur stop step = Some (Ok (progression cur step n))) ∧
  (in_i64 (cur + Z.of_nat n * step) = false → overflow_checks = true → (n ≤ fuel)%nat →
     range_loop fuel cur stop step = Some (Panic ArithOverflow)).
Proof.
  intros Hc Ht Hs. revert fuel cur Hc. induction n as [|n IH]; intros fuel cur Hc Hn.
  { replace (cur + Z.of_nat 0 * step) with cur by lia. split; [|congruence].
    intros _ Hf. destruct fuel as [|fuel]; [lia|]. cbn [range_loop].
    rewrite range_more by done. by destruct (Z.ltb_spec 0 (range_count cur stop step)); [lia|]. }
  assert (Z.max 0 (range_count (cur + step) stop step) = Z.of_nat n) as Hn'
    by (rewrite range_count_next by done; lia).
  replace (cur + Z.of_nat (S n) * step) with (cur + step + Z.of_nat n * step) by lia.
  destruct fuel as [|fuel]; [split; lia|]. cbn [range_loop].
  rewrite range_more by done. destruct (Z.ltb_spec 0 (range_count cur stop step)); [|lia].
  destruct (in_i64 (cur + step)) eqn:E.
  - rewrite arith_Ok by done. cbn [run_with]. destruct (IH fuel (cur + step) E Hn') as [H1 H2].
    split; intros.
    + rewrite H1 by (done || lia). by rewrite progression_S.
    + by rewrite H2 by (done || lia).
  - assert (n = 0%nat) as ->.
    { destruct (decide (1 < range_count cur stop step)); [|lia].
      rewrite (range_next_in cur stop step) in E; done. }
    replace (cur + step + Z.of_nat 0 * step) with (cur + step) by lia. split; [congruence|].
    intros _ Hov _. unfold arith. by rewrite E, Hov.
Qed.

Lemma progression_elem start stop step n x :
  step ≠ 0 → Z.max 0 (range_count start stop step) = Z.of_nat n →
  x ∈ progression start step n ↔
  ∃ i, 0 ≤ i ∧ x = start + i * step ∧ (if 0 <? step then x <? stop else stop <? x) = true.
Proof.
  intros Hs Hn. unfold progression. rewrite list_elem_of_fmap.
  assert (∀ i, range_count (start + i * step) stop step = range_count start stop step - i) as Hc.
  { intros i. unfold range_count. replace (start + i * step - stop) with (start - stop + i * step) by ring.
    rewrite Z.div_add by done. lia. }
  split.
  - intros (i & -> & Hi%elem_of_seq). exists (Z.of_nat i). split_and!; [lia|done|].
    rewrite range_more, Hc by done. lia.
  - intros (i & Hi & -> & Hr). rewrite range_more, Hc in Hr by done.
    exists (Z.to_nat i). split; [lia|]. apply elem_of_seq. lia.
Qed.

(** Without overflow checks a range whose last addition overflows starts over
    from below. *)
Lemma range_never_ends fuel :
  let _ : Profile := {| overflow_checks := false |} in
  range_run fuel (ref_int 0) (ref_int i64_MAX) (ref_int (2 ^ 62)) = None.
Proof.
  intros P. change (run_map (λ l, ref_list (ref_int <$> l)) (range_loop fuel 0 i64_MAX (2 ^ 62)) = None).
  assert (range_loop fuel 0 i64_MAX (2 ^ 62) = None ∧
          range_loop fuel (2 ^ 62) i64_MAX (2 ^ 62) = None ∧
          range_loop fuel (- 2 ^ 63) i64_MAX (2 ^ 62) = None ∧
          range_loop fuel (- 2 ^ 62) i64_MAX (2 ^ 62) = None) as [-> _]; [|done].
  induction fuel as [|fuel (H0 & H1 & H2 & H3)]; [done|]. repeat split; cbn [range_loop].
  - change (arith 64 (0 + 2 ^ 62)) with (@Ok Z (2 ^ 62)). cbn [run_with]. by rewrite H1.
  - change (arith 64 (2 ^ 62 + 2 ^ 62)) with (@Ok Z (- 2 ^ 63)). cbn [run_with]. by rewrite H2.
  - change (arith 64 (- 2 ^ 63 + 2 ^ 62)) with (@Ok Z (- 2 ^ 62)). cbn [run_with]. by rewrite H3.
  - change (arith 64 (- 2 ^ 62 + 2 ^ 62)) with (@Ok Z 0). cbn [run_with]. by rewrite H0.
Qed.

(** ** Numerals *)

Lemma alnum_digit d : 0 ≤ d < 36 → alnum_value (digit_char d) = Some d.
Proof.
  intros Hd.
  assert (forallb (λ n, bool_decide (alnum_value (digit_char (Z.of_nat n)) = Some (Z.of_nat n)))
    (List.seq 0 36) = true) as H by reflexivity.
  rewrite forallb_forall in H. rewrite <- (Z2Nat.id d) by lia.
  eapply bool_decide_eq_true_1, H, in_seq. lia.
Qed.

Lemma radix_digits_onto base fuel n acc :
  2 ≤ base ≤ 36 → 0 ≤ n < base ^ Z.of_nat fuel → (0 < fuel)%nat →
  radix_value base (digits_onto fuel base n acc) 0 = radix_value base acc n.
Proof.
  intros Hb. revert n acc. induction fuel as [|fuel IH]; intros n acc Hn Hf; [lia|].
  rewrite Nat2Z.inj_succ, Z.pow_succ_r in Hn by lia. cbn [digits_onto].
  pose proof (Z.mod_pos_bound n base ltac:(lia)). pose proof (Z.div_mod n base ltac:(lia)) as Hd.
  assert (∀ a, radix_value base (String (digit_char (n mod base)) acc) a =
               radix_value base acc (a * base + n mod base)) as Hstep.
  { intros a. cbn [radix_value]. rewrite alnum_digit by lia. cbn [mbind option_bind].
    by destruct (Z.ltb_spec (n mod base) base); [|lia]. }
  pose proof (Z.div_pos n base ltac:(lia) ltac:(lia)).
  destruct (Z.eqb_spec (n / base) 0) as [E|E].
  - rewrite Hstep. f_equal. lia.
  - assert (n / base < base ^ Z.of_nat fuel) by (apply Z.div_lt_upper_bound; lia).
    rewrite IH; [|lia|].
    + rewrite Hstep. f_equal. lia.
    + destruct fuel; [simpl in *; lia|lia].
Qed.

Lemma digits_onto_head base fuel n acc :
  2 ≤ base ≤ 36 → (0 < fuel)%nat →
  ∃ d t, 0 ≤ d < 36 ∧ digits_onto fuel base n acc = String (digit_char d) t.
Proof.
  intros Hb. revert n acc. induction fuel as [|fuel IH]; intros n acc Hf; [lia|].
  cbn [digits_onto]. pose proof (Z.mod_pos_bound n base ltac:(lia)).
  destruct (_ =? 0); [eexists _, _; split; [|done]; lia|].
  destruct fuel; [eexists _, _; split; [|done]; lia|]. apply IH. lia.
Qed.

Lemma signed_digit radix d t :
  0 ≤ d < 36 →
  signed_digits radix (String (digit_char d) t) = radix_digits radix (String (digit_char d) t).
Proof.
  intros Hd. pose proof (alnum_digit d Hd) as H. revert H. generalize (digit_char d). intros a.
  destruct a as [[] [] [] [] [] [] [] []]; done.
Qed.

(** The digits printed for a number read back as the number, with either sign. *)
Lemma from_digits base n :
  2 ≤ base ≤ 36 → 0 ≤ n < 2 ^ 64 →
  i64_from_str_radix (digits_in base n) base = Ok (if in_i64 n then Some n else None) ∧
  i64_from_str_radix ("-" +:+ digits_in base n) base = Ok (if in_i64 (- n) then Some (- n) else None).
Proof.
  intros Hb Hn. unfold i64_from_str_radix, digits_in.
  destruct (Z.ltb_spec base 2); [lia|]. destruct (Z.ltb_spec 36 base); [lia|]. cbn [orb].
  destruct (digits_onto_head base 64 n "" Hb ltac:(lia)) as (d & t & Hd & Ht).
  assert (radix_digits base (digits_onto 64 base n "") = Some n) as Hv.
  { unfold radix_digits. rewrite radix_digits_onto; [by rewrite Ht|done| |lia].
    split; [lia|]. apply (Z.lt_le_trans _ (2 ^ 64)); [lia|]. apply Z.pow_le_mono_l. lia. }
  split.
  - rewrite Ht in *. rewrite signed_digit by done. by rewrite Hv.
  - cbn [String.append signed_digits]. by rewrite Hv.
Qed.

Section IntOf.
Context {HP : Profile} {HC : ContextConfig} (f64_to_string : f64 → string).

Lemma convert_str base s t n :
  number_text s base = Ok t → i64_from_str_radix t (as_u32 base) = Ok (Some n) →
  convert_to_int f64_to_string (ref_str s) (Some (ref_int base)) = Ok (ref_int n).
Proof.
  intros Hs Ht. unfold convert_to_int. cbn [rc ref_str as_int ref_int]. rewrite Hs.
  cbn [mbind Res_bind]. by rewrite Ht.
Qed.

Lemma print_in_read base prefix least z :
  2 ≤ base ≤ 36 → in_i64 z = true →
  (∀ t, number_text (prefix +:+ t) base = Ok t) →
  (∀ t, number_text ("-" +:+ prefix +:+ t) base = Ok ("-" +:+ t)) →
  convert_to_int f64_to_string (ref_str least) (Some (ref_int base)) = Ok (ref_int i64_MIN) →
  convert_to_int f64_to_string (print_in base prefix least (ref_int z)) (Some (ref_int base)) =
  Ok (ref_int z).
Proof.
  intros Hb Hz Hpos Hneg Hleast. unfold print_in. cbn [rc ref_int].
  destruct (Z.eqb_spec z i64_MIN) as [->|Hmin]; [done|].
  assert (as_u32 base = base) as Hu by (apply Z.mod_small; lia).
  pose proof Hz as Hr. apply in_int_spec in Hr. unfold int_min, int_max in Hr.
  destruct (from_digits base (Z.abs z) Hb ltac:(lia)) as [Hp Hn].
  destruct (Z.leb_spec 0 z).
  - eapply convert_str; [apply Hpos|]. rewrite Hu, Hp. by rewrite Z.abs_eq, Hz by lia.
  - eapply convert_str; [apply Hneg|]. rewrite Hu, Hn.
    by replace (- Z.abs z) with z by lia; rewrite Hz.
Qed.

(** [int(hex(z), 16)], [int(oct(z), 8)] and [int(bin(z), 2)] are [z] for
    every 64-bit integer, the least one included. *)
Theorem int_print_roundtrip z :
  in_i64 z = true →
  convert_to_int f64_to_string (hex (ref_int z)) (Some (ref_int 16)) = Ok (ref_int z) ∧
  convert_to_int f64_to_string (oct (ref_int z)) (Some (ref_int 8)) = Ok (ref_int z) ∧
  convert_to_int f64_to_string (bin (ref_int z)) (Some (ref_int 2)) = Ok (ref_int z).
Proof. intros Hz. split_and!; apply print_in_read; (done || lia). Qed.

(** [pow(x, y, z)] on integers is the remainder of [x^y] by [z], with the
    sign of the power, whatever the size of the power: no product overflows and
    the loop ends; a zero modulus and a negative exponent panic. *)
Theorem pow_mod_spec (powf : f64 → f64 → f64) x y z :
  in_i64 x = true → in_i64 y = true → in_i64 z = true →
  pow powf (ref_int x) (ref_int y) (ref_int z) =
  if z =? 0 then Panic (PanicMsg "pow() 3rd argument cannot be 0")
  else if y <? 0 then
    Panic (PanicMsg "pow() 2nd argument cannot be negative when 3rd argument specified")
  else if y =? 0 then Ok (ref_int 1)
  else Ok (ref_int (Z.rem (x ^ y) z)).
Proof.
  intros Hx Hy Hz. unfold pow. cbn [rc ref_int].
  destruct (Z.eqb_spec z 0) as [|Hz0]; [done|].
  destruct (Z.compare_spec y 0), (Z.ltb_spec y 0), (Z.eqb_spec y 0); try lia; try done.
  apply in_int_spec in Hx, Hy, Hz. unfold int_min, int_max in *.
  rewrite pow_loop_spec by (simpl; lia). cbn [mbind Res_bind].
  destruct (Z.eqb_spec y 0); [lia|]. rewrite Z.mul_1_l. do 2 f_equal.
  apply wrap_int_id; [lia|]. apply in_int_spec. unfold int_min, int_max.
  pose proof (Z.rem_bound_abs (x ^ y) z Hz0). lia.
Qed.
End IntOf.

(** [range(start, stop, step)] is the list [start, start + step, ..] of the
    numbers before [stop], rounds enough given; when the addition after the last
    element leaves the 64-bit range it panics under overflow checks. *)
Theorem range_spec `{Profile} fuel n start stop step :
  in_i64 start = true → in_i64 stop = true → step ≠ 0 →
  Z.max 0 (range_count start stop step) = Z.of_nat n → (n < fuel)%nat →
  (∀ x, x ∈ progression start step n ↔
     ∃ i, 0 ≤ i ∧ x = start + i * step ∧ (if 0 <? step then x <? stop else stop <? x) = true) ∧
  (in_i64 (start + Z.of_nat n * step) = true →
     range_run fuel (ref_int start) (ref_int stop) (ref_int step) =
     Some (Ok (ref_list (ref_int <$> progression start step n)))) ∧
  (in_i64 (start + Z.of_nat n * step) = false → overflow_checks = true →
     range_run fuel (ref_int start) (ref_int stop) (ref_int step) = Some (Panic ArithOverflow)).
Proof.
  intros Ha Hb Hs Hn Hf. unfold range_run. cbn [rc ref_int].
  destruct (Z.eqb_spec step 0); [done|].
  destruct (range_loop_spec fuel n start stop step Ha Hb Hs Hn) as [H1 H2].
  split; [intros x; by apply progression_elem|].
  split; intros; [rewrite H1 by done|rewrite H2 by (done || lia)]; done.
Qed.

(** ** Sorting *)

Lemma StronglySorted_snoc {A} (R : A → A → Prop) l x :
  StronglySorted R l → Forall (λ y, R y x) l → StronglySorted R (l ++ [x]).
Proof.
  induction 1 as [|y l Hl IH Hy]; intros H; simpl; [repeat constructor|].
  inversion_clear H. constructor; [auto|]. apply Forall_app; auto.
Qed.

Lemma StronglySorted_reverse {A} (R : A → A → Prop) l :
  StronglySorted (flip R) l → StronglySorted R (reverse l).
Proof.
  induction 1 as [|y l Hl IH Hy]; [constructor|]. rewrite reverse_cons.
  apply StronglySorted_snoc; [done|]. by apply Forall_reverse.
Qed.

(** A comparison that never panics and is a total preorder on the elements at
    hand. *)
Section SortSpec.
Context {A : Type} (P : A → Prop) (less : A → A → Res bool) (cmp : A → A → comparison).
Context (less_cmp : ∀ x y, P x → P y → less x y = Ok (bool_decide (cmp x y = Lt))).
Context (cmp_opp : ∀ x y, P x → P y → cmp y x = CompOpp (cmp x y)).
Context (cmp_trans : ∀ x y z, P x → P y → P z → cmp x y ≠ Gt → cmp y z ≠ Gt → cmp x z ≠ Gt).

Abbreviation le x y := (cmp x y ≠ Gt).

Lemma insert_tail_spec x prefix :
  P x → Forall P prefix → StronglySorted (flip (λ x y, le x y)) prefix →
  ∃ r, insert_tail less x prefix = Ok r ∧ r ≡ₚ x :: prefix ∧
       StronglySorted (flip (λ x y, le x y)) r ∧
       ∀ w, P w → filter (λ y, cmp w y = Eq) r = filter (λ y, cmp w y = Eq) (x :: prefix).
Proof.
  intros Hx. induction prefix as [|y prefix IH]; intros HP Hs; cbn [insert_tail].
  { exists [x]. split_and!; try done. repeat constructor. }
  apply Forall_cons in HP as [Hy HP]. inversion_clear Hs as [|? ? Hs' Hall].
  rewrite less_cmp by done. cbn [mbind Res_bind]. case_bool_decide as Hlt.
  - destruct (IH HP Hs') as (r & -> & Hp & Hsr & Hst). cbn [mbind Res_bind]. exists (y :: r).
    split_and!; [done|by rewrite Hp; constructor| |].
    + constructor; [done|]. rewrite Hp. constructor; [unfold flip; congruence|done].
    + intros w Hw. rewrite !filter_cons, (Hst w Hw), filter_cons.
      destruct (decide (cmp w x = Eq)) as [Ex|], (decide (cmp w y = Eq)) as [Ey|]; try done.
      exfalso. assert (cmp y x ≠ Gt) as Hyx.
      { apply (cmp_trans y w x); try done; [|congruence]. by rewrite cmp_opp, Ey. }
      apply Hyx. by rewrite cmp_opp, Hlt.
  - exists (x :: y :: prefix). split_and!; try done. constructor; [by constructor|].
    assert (le y x) as Hyx.
    { rewrite cmp_opp by done. by destruct (cmp x y). }
    constructor; [done|]. rewrite Forall_forall in Hall, HP |- *. intros z Hz.
    unfold flip in *. apply (cmp_trans z y x); auto.
Qed.

Lemma insertion_spec l prefix :
  Forall P prefix → Forall P l → StronglySorted (flip (λ x y, le x y)) prefix →
  ∃ r, insertion less prefix l = Ok r ∧ r ≡ₚ prefix ++ l ∧ StronglySorted (λ x y, le x y) r ∧
       ∀ w, P w → filter (λ y, cmp w y = Eq) r = filter (λ y, cmp w y = Eq) (reverse prefix ++ l).
Proof.
  revert prefix. induction l as [|x l IH]; intros prefix Hpre Hl Hs; cbn [insertion].
  { exists (reverse prefix). rewrite !app_nil_r. split_and!; [done| | |done].
    - apply reverse_Permutation.
    - by apply StronglySorted_reverse. }
  apply Forall_cons in Hl as [Hx Hl].
  destruct (insert_tail_spec x prefix Hx Hpre Hs) as (p & -> & Hp & Hsp & Hst). cbn [mbind Res_bind].
  destruct (IH p) as (r & -> & Hr & Hsr & Hstr); [rewrite Hp; by constructor|done|done|].
  exists r. split_and!; [done| |done|].
  - rewrite Hr, Hp. simpl. apply Permutation_middle.
  - intros w Hw. rewrite Hstr, !filter_app, !filter_reverse, Hst by done.
    rewrite <- filter_reverse, reverse_cons, filter_app, <- app_assoc. f_equal; [by rewrite filter_reverse|].
    by rewrite <- filter_app.
Qed.

Lemma sort_stable_spec l :
  Forall P l →
  ∃ r, sort_stable less l = Ok r ∧ r ≡ₚ l ∧ StronglySorted (λ x y, le x y) r ∧
       ∀ w, P w → filter (λ y, cmp w y = Eq) r = filter (λ y, cmp w y = Eq) l.
Proof. intros Hl. apply (insertion_spec l []); [constructor|done|constructor]. Qed.
End SortSpec.

(** *** The orders of integers, floats and strings *)

Lemma str_compare_le_trans a b c :
  String.compare a b ≠ Gt → String.compare b c ≠ Gt → String.compare a c ≠ Gt.
Proof.
  revert b c. induction a as [|x a IH]; intros [|y b] [|z c]; simpl; try done.
  unfold Ascii.compare.
  destruct (N.compare_spec (N_of_ascii x) (N_of_ascii y)), (N.compare_spec (N_of_ascii y) (N_of_ascii z)),
    (N.compare_spec (N_of_ascii x) (N_of_ascii z)); try done; try lia. apply IH.
Qed.

(** A double that is a number, as a lexicographic key. *)
Definition f_key (f : f64) : Z * Z * Z :=
  match f with
  | S754_nan => (3, 0, 0)
  | S754_infinity true => (-2, 0, 0)
  | S754_infinity false => (2, 0, 0)
  | S754_zero _ => (0, 0, 0)
  | S754_finite true m e => (-1, - e, - Zpos m)
  | S754_finite false m e => (1, e, Zpos m)
  end.
Definition key_compare (a b : Z * Z * Z) : comparison :=
  match a.1.1 ?= b.1.1 with
  | Eq => match a.1.2 ?= b.1.2 with Eq => a.2 ?= b.2 | c => c end
  | c => c
  end.

Lemma SFcompare_key a b :
  f_is_nan a = false → f_is_nan b = false → SFcompare a b = Some (key_compare (f_key a) (f_key b)).
Proof.
  intros Ha Hb. destruct a as [sa|[]| |[] ma ea], b as [sb|[]| |[] mb eb]; try done;
    unfold key_compare; cbn [f_key fst snd SFcompare]; change (-1 ?= -1) with Eq; change (1 ?= 1) with Eq;
    cbn match.
  rewrite !Z.compare_opp, (Z.compare_antisym ea eb). destruct (ea ?= eb); try done. simpl.
  change (Pos.compare_cont Eq) with Pos.compare. by rewrite (Pos.compare_antisym ma mb).
Qed.

Lemma key_compare_opp a b : key_compare b a = CompOpp (key_compare a b).
Proof.
  unfold key_compare. rewrite (Z.compare_antisym a.1.1), (Z.compare_antisym a.1.2), (Z.compare_antisym a.2).
  by destruct (a.1.1 ?= b.1.1), (a.1.2 ?= b.1.2).
Qed.

Lemma key_compare_trans a b c :
  key_compare a b ≠ Gt → key_compare b c ≠ Gt → key_compare a c ≠ Gt.
Proof.
  unfold key_compare.
  destruct (Z.compare_spec a.1.1 b.1.1), (Z.compare_spec b.1.1 c.1.1), (Z.compare_spec a.1.1 c.1.1);
    try done; try lia.
  destruct (Z.compare_spec a.1.2 b.1.2), (Z.compare_spec b.1.2 c.1.2), (Z.compare_spec a.1.2 c.1.2);
    try done; try lia.
  destruct (Z.compare_spec a.2 b.2), (Z.compare_spec b.2 c.2), (Z.compare_spec a.2 c.2);
    try done; lia.
Qed.

(** *** Sorting values *)

(** The kinds whose values [sorted] can put in order. *)
Definition is_float_number (v : ValueRef) : bool :=
  match rc v with float_value f => negb (f_is_nan f) | _ => false end.
Inductive same_kind (l : list ValueRef) : Prop :=
  | all_ints : forallb is_int l = true → same_kind l
  | all_floats : forallb is_float_number l = true → same_kind l
  | all_strs : forallb is_str l = true → same_kind l.

Definition value_compare (a b : ValueRef) : comparison :=
  match ord_cmp a b with Ok o => o | Panic _ => Eq end.

Lemma is_int_value v : is_int v = true → ∃ z, v = ref_int z.
Proof. destruct v as [[]]; try done. intros _. by eexists. Qed.
Lemma is_str_value v : is_str v = true → ∃ s, v = ref_str s.
Proof. destruct v as [[]]; try done. intros _. by eexists. Qed.
Lemma is_float_number_value v : is_float_number v = true → ∃ f, v = ref_float f ∧ f_is_nan f = false.
Proof.
  destruct v as [[]]; try done. unfold is_float_number. cbn [rc]. intros H%negb_true_iff.
  by eexists.
Qed.

Lemma lt_bool c : match c with Lt => true | _ => false end = bool_decide (c = Lt).
Proof. by destruct c. Qed.

(** On values of one kind the order is a total preorder. *)
Lemma same_kind_order l :
  same_kind l → ∃ P : ValueRef → Prop, Forall P l ∧
    (∀ x y, P x → P y → ord_cmp x y = Ok (value_compare x y)) ∧
    (∀ x y, P x → P y →
       cmp_less_than x y = Ok (bool_decide (value_compare x y = Lt)) ∧
       cmp_greater_than x y = Ok (bool_decide (value_compare y x = Lt))) ∧
    (∀ x y, P x → P y → value_compare y x = CompOpp (value_compare x y)) ∧
    (∀ x y z, P x → P y → P z →
       value_compare x y ≠ Gt → value_compare y z ≠ Gt → value_compare x z ≠ Gt).
Proof.
  intros [H|H|H]; rewrite forallb_forall in H.
  - exists (λ v, ∃ z, v = ref_int z). split_and!.
    + apply Forall_forall. intros v Hv. apply is_int_value, H. by apply list_elem_of_In.
    + by intros ? ? [a ->] [b ->].
    + intros ? ? [a ->] [b ->].
      exact (conj (f_equal Ok (lt_bool (a ?= b))) (f_equal Ok (lt_bool (b ?= a)))).
    + intros ? ? [a ->] [b ->]. apply Z.compare_antisym.
    + intros ? ? ? [a ->] [b ->] [c ->]. exact (Z.le_trans a b c).
  - exists (λ v, ∃ f, v = ref_float f ∧ f_is_nan f = false). split_and!.
    + apply Forall_forall. intros v Hv. apply is_float_number_value, H. by apply list_elem_of_In.
    + intros ? ? (a & -> & Ha) (b & -> & Hb). unfold value_compare, ord_cmp. cbn [rc ref_float].
      by rewrite SFcompare_key.
    + intros ? ? (a & -> & Ha) (b & -> & Hb). unfold value_compare, ord_cmp. cbn [rc ref_float].
      cbn [cmp_less_than cmp_greater_than cmp_ord ref_float op_float lt_ops gt_ops].
      unfold f_lt, SFltb. rewrite !SFcompare_key by done. split; apply f_equal, lt_bool.
    + intros ? ? (a & -> & Ha) (b & -> & Hb). unfold value_compare, ord_cmp. cbn [rc ref_float].
      rewrite !SFcompare_key by done. apply key_compare_opp.
    + intros ? ? ? (a & -> & Ha) (b & -> & Hb) (c & -> & Hc). unfold value_compare, ord_cmp.
      cbn [rc ref_float]. rewrite !SFcompare_key by done. apply key_compare_trans.
  - exists (λ v, ∃ s, v = ref_str s). split_and!.
    + apply Forall_forall. intros v Hv. apply is_str_value, H. by apply list_elem_of_In.
    + by intros ? ? [a ->] [b ->].
    + intros ? ? [a ->] [b ->].
      exact (conj (f_equal Ok (lt_bool (String.compare a b)))
                  (f_equal Ok (lt_bool (String.compare b a)))).
    + intros ? ? [a ->] [b ->]. apply String.compare_antisym.
    + intros ? ? ? [a ->] [b ->] [c ->]. apply str_compare_le_trans.
Qed.

(** The comparison that [sorted] sorts by. *)
Definition sort_compare (backwards : bool) (a b : ValueRef) : comparison :=
  if backwards then value_compare b a else value_compare a b.

Lemma sort_values backwards l :
  same_kind l →
  ∃ r, sort_stable (sort_less backwards) l = Ok r ∧ r ≡ₚ l ∧
       StronglySorted (λ x y, sort_compare backwards x y ≠ Gt) r ∧
       ∀ w, w ∈ l → filter (λ y, sort_compare backwards w y = Eq) r =
                    filter (λ y, sort_compare backwards w y = Eq) l.
Proof.
  intros (P & HP & Hc & _ & Hopp & Htr)%same_kind_order.
  destruct (sort_stable_spec P (sort_less backwards) (sort_compare backwards)) with (l := l)
    as (r & Hr & Hp & Hs & Hst); [..|done|].
  - intros x y Hx Hy. unfold sort_less, sort_compare. by destruct backwards; rewrite Hc.
  - intros x y Hx Hy. unfold sort_compare. destruct backwards; auto.
  - intros x y z Hx Hy Hz. unfold sort_compare. destruct backwards; [|by apply Htr].
    intros H1 H2. by apply (Htr z y x).
  - exists r. split_and!; try done. intros w Hw. apply Hst.
    rewrite Forall_forall in HP. by apply HP.
Qed.

(** What a value is compared as; [None] for a value that cannot be compared. *)
Definition order_class (v : ValueRef) : option nat :=
  match rc v with
  | int_value _ => Some 0%nat
  | float_value f => if f_is_nan f then None else Some 0%nat
  | str_value _ => Some 1%nat
  | _ => None
  end.

Lemma ord_cmp_class a b o :
  ord_cmp a b = Ok o → order_class a = order_class b ∧ order_class a ≠ None.
Proof.
  unfold ord_cmp, order_class. destruct a as [[]], b as [[]]; try done; cbn [rc]; intros H.
  all: repeat match goal with f : spec_float |- _ => destruct f as [[]|[]| |[] ? ?] end; try done.
  all: unfold f_of_int, f_of_mant in H; destruct (binary_normalize 53 1024 _ 0 false); done.
Qed.

Lemma insert_tail_perm {A} (less : A → A → Res bool) x prefix r :
  insert_tail less x prefix = Ok r → r ≡ₚ x :: prefix.
Proof.
  revert r. induction prefix as [|y prefix IH]; intros r; cbn [insert_tail]; [by intros [= <-]|].
  destruct (less x y) as [[]|]; cbn [mbind Res_bind]; try done.
  - destruct (insert_tail less x prefix) as [r'|] eqn:E; [|done]. cbn [mbind Res_bind].
    intros [= <-]. rewrite (IH r' eq_refl). constructor.
  - by intros [= <-].
Qed.

Lemma insertion_class backwards c l prefix r :
  prefix ≠ [] → (∀ y, y ∈ prefix → order_class y = c) →
  insertion (sort_less backwards) prefix l = Ok r →
  ∀ x, x ∈ l → order_class x = c ∧ c ≠ None.
Proof.
  revert prefix r. induction l as [|x l IH]; intros prefix r Hne Hc; cbn [insertion]; [set_solver|].
  destruct (insert_tail _ x prefix) as [p|] eqn:E; [|done]. cbn [mbind Res_bind]. intros Hr.
  assert (order_class x = c ∧ c ≠ None) as Hx.
  { destruct prefix as [|y prefix]; [done|]. rewrite <- (Hc y ltac:(by left)).
    cbn [insert_tail] in E. unfold sort_less in E. destruct backwards.
    - destruct (ord_cmp y x) as [o|] eqn:Ho; [|done]. apply ord_cmp_class in Ho as [Ho1 Ho2]. by rewrite Ho1 in *.
    - destruct (ord_cmp x y) as [o|] eqn:Ho; [|done]. apply ord_cmp_class in Ho as [Ho1 Ho2]. by rewrite Ho1 in *. }
  pose proof (insert_tail_perm _ _ _ _ E) as Hp.
  intros z [->|Hz]%elem_of_cons; [done|]. eapply (IH p r); [|..|done|done].
  - intros ->. by apply Permutation_nil_cons in Hp.
  - intros y Hy. rewrite Hp in Hy. apply elem_of_cons in Hy as [->|Hy]; [apply Hx|by apply Hc].
Qed.

Lemma sort_values_class backwards l r :
  sort_stable (sort_less backwards) l = Ok r → (1 < length l)%nat →
  ∃ c, ∀ x, x ∈ l → order_class x = Some c.
Proof.
  unfold sort_stable. destruct l as [|x [|y l]]; simpl length; [lia..|]. intros H _.
  cbn [insertion insert_tail mbind Res_bind] in H.
  assert (∀ z, z ∈ y :: l → order_class z = order_class x ∧ order_class x ≠ None) as Hall.
  { eapply (insertion_class backwards _ (y :: l) [x]); [done| |exact H].
    intros z ->%list_elem_of_singleton. done. }
  destruct (order_class x) as [c|] eqn:Ex; [|by destruct (Hall y ltac:(by left))].
  exists c. intros z [->|Hz]%elem_of_cons; [done|]. by apply Hall.
Qed.

Lemma deep_copy_scalars l : same_kind l → deep_copy <$> l = l.
Proof.
  intros H. rewrite <- (list_fmap_id l) at 2. apply list_fmap_ext. intros i x Hi.
  apply list_elem_of_lookup_2 in Hi.
  destruct H as [H|H|H]; rewrite forallb_forall in H; apply list_elem_of_In, H in Hi.
  - by apply is_int_value in Hi as [? ->].
  - by apply is_float_number_value in Hi as (? & -> & _).
  - by apply is_str_value in Hi as [? ->].
Qed.

(** C38: Sorting a list of integers, of floats that are numbers or of strings
    returns a list with the same elements in ascending or descending order, in
    which equal elements keep their order; a list of two or more elements is
    only sorted when all of them are numbers or all of them strings. *)
Theorem sorted_spec l backwards :
  wf_value (ref_list l) →
  (same_kind l →
     ∃ r, sorted (ref_list l) (Some (ref_bool backwards)) = Ok (ref_list r) ∧ r ≡ₚ l ∧
          StronglySorted (λ x y, sort_compare backwards x y ≠ Gt) r ∧
          ∀ w, w ∈ l → filter (λ y, sort_compare backwards w y = Eq) r =
                       filter (λ y, sort_compare backwards w y = Eq) l) ∧
  (∀ r, sorted (ref_list l) (Some (ref_bool backwards)) = Ok r → (1 < length l)%nat →
     ∃ c, ∀ x, x ∈ l → order_class x = Some c).
Proof.
  intros Hwf. unfold sorted. cbn [rc ref_list as_bool ref_bool is_truthy].
  rewrite (deep_copy_unfold (ref_list l)) by done. cbn [as_list_ref rc ref_list mbind Res_bind list_values].
  split.
  - intros Hk. rewrite deep_copy_scalars by done.
    destruct (sort_values backwards l Hk) as (r & -> & Hr). by exists r.
  - intros r Hr Hl. destruct (sort_stable _ _) as [r'|] eqn:E; [|done].
    apply sort_values_class in E; [|by rewrite length_fmap]. destruct E as [c Hc]. exists c.
    intros x Hx. rewrite <- (Hc (deep_copy x)) by by apply list_elem_of_fmap_2.
    by destruct x as [[]].
Qed.

(** ** [max] and [min] *)

(** The loop picks the first of the least elements: the head of the list sorted. *)
Section PickSpec.
Context {A : Type} (P : A → Prop) (better : A → A → Res bool) (cmp : A → A → comparison).
Context (better_cmp : ∀ x y, P x → P y → better x y = Ok (bool_decide (cmp x y = Lt))).
Context (cmp_opp : ∀ x y, P x → P y → cmp y x = CompOpp (cmp x y)).
Context (cmp_trans : ∀ x y z, P x → P y → P z → cmp x y ≠ Gt → cmp y z ≠ Gt → cmp x z ≠ Gt).

Lemma cmp_refl x : P x → cmp x x = Eq.
Proof. intros Hx. pose proof (cmp_opp x x Hx Hx). by destruct (cmp x x). Qed.

Lemma le_eq_trans x y z : P x → P y → P z → cmp x y ≠ Gt → cmp x z = Eq → cmp z y ≠ Gt.
Proof.
  intros Hx Hy Hz H1 H2. apply (cmp_trans z x y); try done. rewrite (cmp_opp x z), H2; done.
Qed.

Lemma pick_spec l x :
  P x → Forall P l →
  ∃ r, pick better x l = Ok r ∧ P r ∧ (∀ y, y ∈ x :: l → cmp r y ≠ Gt) ∧
       head (filter (λ y, cmp r y = Eq) (x :: l)) = Some r.
Proof.
  revert x. induction l as [|y l IH]; intros x Hx Hl; cbn [pick].
  { exists x. split_and!; [done..| |].
    - intros y ->%list_elem_of_singleton. by rewrite cmp_refl.
    - by rewrite filter_cons_True by by apply cmp_refl. }
  apply Forall_cons in Hl as [Hy Hl]. rewrite better_cmp by done. cbn [mbind Res_bind].
  case_bool_decide as Hlt.
  - destruct (IH y Hy Hl) as (r & Hr & HPr & Hle & Hh). exists r.
    assert (cmp r y ≠ Gt) as Hry by (apply Hle; by left).
    assert (cmp r x ≠ Gt) as Hrx by (apply (cmp_trans r y x); congruence || done).
    split_and!; [done..| |].
    + intros z [->|Hz]%elem_of_cons; auto.
    + rewrite filter_cons_False; [done|]. intros E.
      apply (le_eq_trans r y x) in E; [|done..]. by rewrite (cmp_opp y x), Hlt in E.
  - destruct (IH x Hx Hl) as (r & Hr & HPr & Hle & Hh). exists r.
    assert (cmp x y ≠ Gt) as Hxy by (rewrite (cmp_opp y x) by done; by destruct (cmp y x)).
    assert (cmp r x ≠ Gt) as Hrx by (apply Hle; by left).
    split_and!; [done..| |].
    + intros z [->|[->|Hz]%elem_of_cons]%elem_of_cons; [done|by apply (cmp_trans r x)|].
      apply Hle. by right.
    + rewrite !filter_cons in *. destruct (decide (cmp r x = Eq)); [done|].
      destruct (decide (cmp r y = Eq)) as [E|]; [|done].
      assert (cmp y r ≠ Gt) as Hyr by (by rewrite (cmp_opp r y), E).
      assert (cmp x r ≠ Gt) as H by (by apply (cmp_trans x y r)).
      rewrite (cmp_opp r x) in H by done. by destruct (cmp r x).
Qed.

Lemma pick_head l x s :
  P x → Forall P l → s ≡ₚ x :: l → StronglySorted (λ x y, cmp x y ≠ Gt) s →
  (∀ w, w ∈ x :: l → filter (λ y, cmp w y = Eq) s = filter (λ y, cmp w y = Eq) (x :: l)) →
  ∃ h t, s = h :: t ∧ pick better x (x :: l) = Ok h.
Proof.
  intros Hx Hl Hp Hs Hst. destruct s as [|h t]; [by apply Permutation_nil_cons in Hp|].
  exists h, t. split; [done|].
  destruct (pick_spec (x :: l) x Hx ltac:(by constructor)) as (r & -> & HPr & Hle & Hh). f_equal.
  assert (∀ z, z ∈ x :: l → P z) as HP by (apply Forall_forall; by constructor).
  assert (h ∈ x :: l) as Hin by (rewrite <- Hp; by left).
  assert (head (filter (λ y, cmp r y = Eq) (x :: l)) = Some r) as Hh'.
  { rewrite !filter_cons in *. by destruct (decide (cmp r x = Eq)). }
  assert (r ∈ x :: l) as Hr.
  { destruct (filter _ (x :: l)) as [|r' l'] eqn:E; [done|]. injection Hh' as ->.
    assert (r ∈ r :: l') as H by by left. rewrite <- E in H. by apply list_elem_of_filter in H as [_ H]. }
  assert (cmp h r ≠ Gt) as Hhr.
  { rewrite <- Hp in Hr. apply elem_of_cons in Hr as [->|Hr]; [by rewrite cmp_refl by auto|].
    apply StronglySorted_inv in Hs as [_ Hall]. rewrite Forall_forall in Hall. auto. }
  assert (cmp r h ≠ Gt) as Hrh by (apply Hle; by right).
  assert (cmp r h = Eq) as E by (rewrite cmp_opp in Hhr by auto; by destruct (cmp r h)).
  pose proof (Hst r Hr) as Hf. rewrite filter_cons_True in Hf by done.
  rewrite <- Hf in Hh'. by injection Hh'.
Qed.
End PickSpec.

Lemma sort_compare_order l :
  same_kind l → ∃ P : ValueRef → Prop, Forall P l ∧ ∀ backwards : bool,
    (∀ x y, P x → P y →
       (if backwards then cmp_greater_than else cmp_less_than) x y =
       Ok (bool_decide (sort_compare backwards x y = Lt))) ∧
    (∀ x y, P x → P y → sort_compare backwards y x = CompOpp (sort_compare backwards x y)) ∧
    (∀ x y z, P x → P y → P z → sort_compare backwards x y ≠ Gt → sort_compare backwards y z ≠ Gt →
       sort_compare backwards x z ≠ Gt).
Proof.
  intros (P & HP & _ & Hlt & Hopp & Htr)%same_kind_order. exists P. split; [done|].
  unfold sort_compare. intros []; split_and!; auto.
  - intros x y Hx Hy. by apply Hlt.
  - intros x y z Hx Hy Hz H1 H2. by apply (Htr z y x).
  - intros x y Hx Hy. by apply Hlt.
Qed.

(** On a list of one kind, [min] returns the first element of the list
    sorted and [max] the first element of the list sorted in reverse. *)
Theorem max_min_sorted x l :
  wf_value (ref_list (x :: l)) → same_kind (x :: l) →
  (∃ h t, sorted (ref_list (x :: l)) None = Ok (ref_list (h :: t)) ∧
          min_value (ref_list (x :: l)) = Ok h) ∧
  (∃ h t, sorted (ref_list (x :: l)) (Some (ref_bool true)) = Ok (ref_list (h :: t)) ∧
          max_value (ref_list (x :: l)) = Ok h).
Proof.
  intros Hwf Hk. unfold sorted, min_value, max_value, filter_value.
  rewrite (deep_copy_unfold (ref_list (x :: l))) by done.
  cbn [rc ref_list list_values as_list_ref mbind Res_bind as_bool ref_bool is_truthy].
  rewrite deep_copy_scalars by done.
  destruct (sort_compare_order _ Hk) as (P & [Hx Hl]%Forall_cons & HP).
  split.
  - destruct (HP false) as (Hb & Ho & Ht). destruct (sort_values false _ Hk) as (s & -> & Hp & Hs & Hst).
    destruct (pick_head P cmp_less_than _ Hb Ho Ht l x s) as (h & t & -> & ->); try done. by exists h, t.
  - destruct (HP true) as (Hb & Ho & Ht). destruct (sort_values true _ Hk) as (s & -> & Hp & Hs & Hst).
    destruct (pick_head P cmp_greater_than _ Hb Ho Ht l x s) as (h & t & -> & ->); try done. by exists h, t.
Qed.

(** ** [zip] *)

(** The values that the iterator of a host returns. *)
Definition nexts (host : ValueRef) : list ValueRef := (visits host).*1.*1.

(** A host whose loops end normally: not a string with characters of several
    bytes. *)
Definition plain_host (host : ValueRef) : Prop :=
  wf_value host ∧ iterable host = true ∧ len host = Ok (Z.of_nat (length (visits host))) ∧
  in_i32 (Z.of_nat (length (visits host))) = true.

Section ZipSpec.
Context {HP : Profile}.

Abbreviation standing j := (λ (e : ValueIterator * ValueRef) (host : ValueRef),
  e.2 = host ∧ at_pos host j e.1).

Lemma is_end_spec host it j :
  plain_host host → at_pos host j it →
  is_end it = match nexts host !! j with Some _ => false | None => true end.
Proof.
  intros (Hwf & Hit & Hl & Hr) (Hl' & Hr' & Hp & Hk). unfold is_end. rewrite Hp.
  rewrite (i32_le (it_len it) (it_len it)) by
    (done || (pose proof (len_visits _ _ Hl'); lia)).
  rewrite Hl in Hl'. injection Hl' as <-. unfold nexts.
  rewrite !list_lookup_fmap. destruct (visits host !! j) eqn:E; simpl.
  - apply lookup_lt_Some in E. destruct (Z.leb_spec (Z.of_nat (length (visits host))) (Z.of_nat j)); lia.
  - apply lookup_ge_None in E. destruct (Z.leb_spec (Z.of_nat (length (visits host))) (Z.of_nat j)); lia.
Qed.

Lemma next_value_spec host it j v :
  plain_host host → at_pos host j it → nexts host !! j = Some v →
  ∃ it', next it host = Ok (it', Some v) ∧ at_pos host (S j) it'.
Proof.
  intros (Hwf & _) Hat Hv. unfold nexts in Hv. rewrite !list_lookup_fmap in Hv.
  destruct (visits host !! j) as [r|] eqn:Er; [|done]. injection Hv as <-.
  pose proof (next_spec host it j Hwf Hat ltac:(apply lookup_lt_Some in Er; lia)) as Hn.
  rewrite Er in Hn. unfold next_with_key_value in Hn.
  destruct (next it host) as [[it' o]|]; [|done]. cbn [mbind Res_bind fst snd] in Hn.
  destruct o as [v|]; [|done]. injection Hn as -> <-. eexists. split; [done|]. by apply at_pos_step.
Qed.

(** The rows while a round is at its [i]-th iterator. *)
Definition rows_at (i : nat) (rows : list (list ValueRef)) (acc : list ValueRef) :=
  match i with O => rows | _ => rows ++ [acc] end.

Lemma zip_row_spec hosts iters i j rows acc :
  Forall plain_host hosts → Forall2 (standing j) iters hosts → length rows = j →
  (i = 0%nat → acc = []) →
  match mapM (λ h, nexts h !! j) hosts with
  | None => zip_row i iters (rows_at i rows acc) j = Ok (inl rows)
  | Some vs => ∃ iters', Forall2 (standing (S j)) iters' hosts ∧
      zip_row i iters (rows_at i rows acc) j =
      Ok (inr (iters', rows_at (i + length hosts) rows (acc ++ vs)))
  end.
Proof.
  intros Hh Hi Hrows. revert i acc. induction Hi as [|[it h'] h iters hosts [Hhost Hat] Hi IH];
    intros i acc Hacc; cbn [mapM zip_row].
  { exists []. split; [constructor|]. by rewrite app_nil_r, Nat.add_0_r. }
  apply Forall_cons in Hh as [Hph Hh]. cbn [fst snd] in *. subst h'.
  rewrite (is_end_spec h it j) by done. cbn [length].
  destruct (nexts h !! j) as [v|] eqn:Ev; cbn [mbind option_bind].
  2: { destruct i; simpl; [done|]. by rewrite removelast_last. }
  assert ((if Nat.leb (length (rows_at i rows acc)) j then rows_at i rows acc ++ [[]]
           else rows_at i rows acc) = rows ++ [acc]) as ->.
  { destruct i; simpl; rewrite ?length_app; simpl.
    - rewrite Hacc by done. by destruct (Nat.leb_spec (length rows) j); [|lia].
    - by destruct (Nat.leb_spec (length rows + 1) j); [lia|]. }
  destruct (next_value_spec h it j v Hph Hat Ev) as (it' & -> & Hat').
  cbn [mbind Res_bind unwrap fst snd]. unfold index.
  rewrite lookup_app_r, Hrows, Nat.sub_diag by lia. cbn [lookup list_lookup mbind Res_bind].
  rewrite insert_app_r_alt, Hrows, Nat.sub_diag by lia. cbn [insert list_insert].
  specialize (IH Hh (S i) (acc ++ [v]) ltac:(done)). cbn [rows_at] in IH.
  destruct (mapM _ hosts) as [vs|]; cbn [mbind option_bind].
  - destruct IH as (iters' & Hi' & ->). cbn [mbind Res_bind]. exists ((it', h) :: iters').
    split; [by constructor|]. rewrite <- app_assoc. cbn [app]. do 4 f_equal. lia.
  - by rewrite IH.
Qed.

(** The rows that [zip] returns: as many as the shortest host has elements. *)
Definition zip_row_at (hosts : list ValueRef) (k : nat) : list ValueRef :=
  omap (λ h, nexts h !! k) hosts.

Lemma mapM_omap hosts k vs : mapM (λ h, nexts h !! k) hosts = Some vs → zip_row_at hosts k = vs.
Proof.
  unfold zip_row_at. revert vs. induction hosts as [|h hosts IH]; intros vs; cbn [mapM]; [by intros [= <-]|].
  destruct (nexts h !! k) as [v|] eqn:E; [|done]. cbn [mbind option_bind].
  destruct (mapM _ hosts) as [vs'|]; [|done]. cbn [mbind option_bind]. intros [= <-].
  cbn [omap list_omap]. by rewrite E, (IH vs').
Qed.

Lemma zip_loop_spec hosts n fuel iters j :
  hosts ≠ [] → Forall plain_host hosts → Forall2 (standing j) iters hosts →
  (∀ h, h ∈ hosts → (n ≤ length (nexts h))%nat) → (∃ h, h ∈ hosts ∧ length (nexts h) = n) →
  (j ≤ n)%nat → (n - j < fuel)%nat →
  zip_loop fuel iters (zip_row_at hosts <$> List.seq 0 j) j =
  Some (Ok (zip_row_at hosts <$> List.seq 0 n)).
Proof.
  intros Hne Hh Hi Hmin Hex. revert iters j Hi. induction fuel as [|fuel IH]; intros iters j Hi Hj Hf; [lia|].
  cbn [zip_loop].
  pose proof (zip_row_spec hosts iters 0 j (zip_row_at hosts <$> List.seq 0 j) [] Hh Hi
    ltac:(by rewrite length_fmap, length_seq) ltac:(done)) as Hrow. cbn [rows_at] in Hrow.
  destruct (mapM _ hosts) as [vs|] eqn:Em.
  - destruct Hrow as (iters' & Hi' & ->). cbn [run_with app Nat.add].
    assert (j < n)%nat.
    { destruct Hex as (h & Hin & <-). apply mapM_Some in Em. 
      apply Forall2_length in Em as Hlen. apply list_elem_of_lookup_1 in Hin as [i Hin].
      destruct (Forall2_lookup_l _ _ _ _ _ Em Hin) as (v & _ & Hv). by apply lookup_lt_Some in Hv. }
    rewrite <- IH with (iters := iters') (j := S j) by (done || lia). f_equal.
    destruct hosts as [|h hosts]; [done|]. cbn [rows_at length].
    rewrite seq_S, fmap_app. cbn [Nat.add fmap list_fmap]. by rewrite (mapM_omap _ _ _ Em).
  - rewrite Hrow. cbn [run_with]. do 3 f_equal.
    assert (¬ (j < n)%nat); [|by replace n with j by lia].
    intros Hlt. apply eq_None_not_Some in Em. apply Em. apply mapM_is_Some_2.
    apply Forall_forall. intros h Hin. apply lookup_lt_is_Some_2. specialize (Hmin h Hin). lia.
Qed.

Lemma iters_of_spec hosts :
  Forall plain_host hosts → ∃ iters, iters_of hosts = Ok iters ∧ Forall2 (standing 0%nat) iters hosts.
Proof.
  induction 1 as [|h hosts (Hwf & Hit & Hl & Hr) Hh (iters & Hi & HF)]; cbn [iters_of].
  { by exists []. }
  rewrite <- from_value_iterable in Hit. destruct (from_value h) as [it|] eqn:E; [|done].
  cbn [mbind Res_bind]. rewrite Hi. eexists. split; [done|]. constructor; [|done].
  split; [done|]. apply at_pos_start; [done|]. intros n Hn. congruence.
Qed.
End ZipSpec.

(** [zip] of one or more iterables returns, given rounds enough, one row
    for each position of the shortest of them, with the elements at that
    position in order. *)
Theorem zip_spec `{Profile} hosts n fuel :
  hosts ≠ [] → Forall plain_host hosts →
  (∀ h, h ∈ hosts → (n ≤ length (nexts h))%nat) → (∃ h, h ∈ hosts ∧ length (nexts h) = n) →
  (n < fuel)%nat →
  zip_run fuel (ref_list hosts) =
  Some (Ok (ref_list ((λ k, ref_list (zip_row_at hosts k)) <$> List.seq 0 n))).
Proof.
  intros Hne Hh Hmin Hex Hf. unfold zip_run. cbn [rc ref_list list_values].
  destruct (iters_of_spec hosts Hh) as (iters & -> & Hi). cbn [run_with].
  rewrite (zip_loop_spec hosts n fuel iters 0) by (done || lia). cbn [run_map].
  by rewrite <- list_fmap_compose.
Qed.

(** [zip()] of nothing does not end: no iterator ever stops the loop. *)
Lemma zip_nothing_never_ends `{Profile} fuel : zip_run fuel (ref_list []) = None.
Proof.
  unfold zip_run. cbn [rc ref_list list_values iters_of run_with].
  assert (∀ rows pre, zip_loop fuel [] rows pre = None) as ->; [|done].
  induction fuel as [|fuel IH]; intros rows pre; [done|]. apply IH.
Qed.

(** ** What the code does against what it means to do *)

(** [all] of a schema instance holds when no attribute is true. *)
Example all_true_schema :
  let instance v := Ref (schema_value (MkSchema "S" "" (MkDict [("a", v)] [] [] [] None None)
    [] (ref_dict []) (ref_dict []) (ref_list []) (ref_dict []))) in
  all_true (instance (ref_int 1)) = false ∧ all_true (instance (ref_int 0)) = true.
Proof. done. Qed.

(** In base 16 the digits after a leading [0b] are read without it. *)
Example int_hex_0b `{Profile, ContextConfig} f :
  convert_to_int f (ref_str "0b1") (Some (ref_int 16)) = Ok (ref_int 1).
Proof. reflexivity. Qed.

(** A sequence of pairs: the keys and values are taken from the sequence. *)
Example dict_of_pairs `{HP : Profile, HC : ContextConfig} f json schemas :
  let pair k v := ref_list [ref_str k; ref_int v] in
  dict_run f json schemas 3 (Some (ref_list [pair "a" 1])) = Some (Panic UnwrapNone) ∧
  dict_run f json schemas 3 (Some (ref_list [pair "a" 1; pair "b" 2])) =
  Some (Ok (Ref (dict_value (MkDict [("[a, 1]", pair "b" 2)] [("[a, 1]", Union)] [] [] None None)))).
Proof. split; destruct HP as [[]], HC as [[] [] []]; vm_compute; reflexivity. Qed.

(** On a string with two-byte characters the loop passes its end and goes on. *)
Lemma dict_of_accents_never_ends `{HP : Profile, HC : ContextConfig} f json schemas fuel :
  let e := String (ascii_of_nat 195) (String (ascii_of_nat 169) EmptyString) in
  dict_run f json schemas fuel (Some (ref_str (e +:+ e))) = None.
Proof.
  intros e. set (val := ref_str (e +:+ e)).
  set (R := Ref (dict_value (MkDict [(e, ref_str e)] [(e, Union)] [] [] None None))).
  set (it0 := MkIterator 4 ref_undefined ref_undefined [] 0).
  set (it1 := MkIterator 4 (ref_int 0) (ref_str e) [] 1).
  set (it2 := MkIterator 4 (ref_int 1) (ref_str e) [] 2).
  assert (dict_round f json schemas it0 val (ref_dict []) = Ok (it1, R)) as H0
    by (destruct HP as [[]], HC as [[] [] []]; vm_compute; reflexivity).
  assert (dict_round f json schemas it1 val R = Ok (it2, R)) as H1
    by (destruct HP as [[]], HC as [[] [] []]; vm_compute; reflexivity).
  assert (dict_round f json schemas it2 val R = Ok (it2, R)) as H2
    by (destruct HP as [[]], HC as [[] [] []]; vm_compute; reflexivity).
  assert (∀ n, dict_loop f json schemas n it2 val R = None) as Hend.
  { induction n as [|n IH]; [done|]. cbn [dict_loop]. change (is_end it2) with false. cbn match.
    rewrite H2. exact IH. }
  change (dict_loop f json schemas fuel it0 val (ref_dict []) = None).
  destruct fuel as [|[|fuel]]; [done|..]; cbn [dict_loop]; change (is_end it0) with false;
    cbn match; rewrite H0; [done|]. cbn [run_with fst snd]. change (is_end it1) with false. cbn match.
  rewrite H1. apply Hend.
Qed.

(** ** Witnesses *)

Lemma pow_mod_spec_witness :
  let _ : Profile := {| overflow_checks := true |} in
  pow (λ x _, x) (ref_int (-7)) (ref_int 3) (ref_int 5) = Ok (ref_int (-3)).
Proof. intros P. exact (pow_mod_spec (λ x _, x) (-7) 3 5 eq_refl eq_refl eq_refl). Defined.

Lemma range_spec_witness :
  let _ : Profile := {| overflow_checks := true |} in
  range_run 4 (ref_int 7) (ref_int 0) (ref_int (-3)) =
  Some (Ok (ref_list [ref_int 7; ref_int 4; ref_int 1])) ∧
  range_run 2 (ref_int (i64_MAX - 1)) (ref_int i64_MAX) (ref_int 2) = Some (Panic ArithOverflow).
Proof.
  intros P. split.
  - destruct (range_spec 4 3 7 0 (-3)) as (_ & H & _); [done..|lia|]. by apply H.
  - destruct (range_spec 2 1 (i64_MAX - 1) i64_MAX 2) as (_ & _ & H); [done..|lia|]. by apply H.
Defined.

Lemma int_print_roundtrip_witness :
  let _ : Profile := {| overflow_checks := true |} in
  let _ : ContextConfig := Build_ContextConfig false false false in
  convert_to_int (λ _, "0") (ref_str "-0x8000000000000000") (Some (ref_int 16)) = Ok (ref_int i64_MIN).
Proof. intros P C. exact (proj1 (int_print_roundtrip (λ _, "0") i64_MIN eq_refl)). Defined.

Lemma sorted_spec_witness :
  let l := [ref_int 3; ref_int 1; ref_int 2] in
  ∃ r, sorted (ref_list l) (Some (ref_bool true)) = Ok (ref_list r) ∧ r ≡ₚ l.
Proof.
  intros l. destruct (sorted_spec l true) as [H _]; [concrete|].
  destruct H as (r & Hr & Hp & _); [by apply all_ints|]. by exists r.
Defined.

Lemma max_min_sorted_witness :
  let l := [ref_str "b"; ref_str "c"; ref_str "a"] in
  ∃ h t, sorted (ref_list l) (Some (ref_bool true)) = Ok (ref_list (h :: t)) ∧
         max_value (ref_list l) = Ok h.
Proof.
  intros l. destruct (max_min_sorted (ref_str "b") [ref_str "c"; ref_str "a"]) as [_ H];
    [concrete|by apply all_strs|exact H].
Defined.

Lemma zip_spec_witness :
  let _ : Profile := {| overflow_checks := true |} in
  zip_run 3 (ref_list [ref_list [ref_int 1; ref_int 2]; ref_str "abc"]) =
  Some (Ok (ref_list [ref_list [ref_int 1; ref_str "a"]; ref_list [ref_int 2; ref_str "b"]])).
Proof.
  intros P. assert (∀ h, check_wf h && iterable h && bool_decide (len h = Ok (Z.of_nat (length (visits h))))
    && in_i32 (Z.of_nat (length (visits h))) = true → plain_host h) as Hplain.
  { intros h H. repeat apply andb_true_iff in H as [H ?]. split_and!; [by apply check_wf_sound|done| |done].
    by eapply bool_decide_eq_true_1. }
  rewrite (zip_spec [ref_list [ref_int 1; ref_int 2]; ref_str "abc"] 2 3); [reflexivity|done|..|lia].
  - constructor; [apply Hplain; vm_compute; reflexivity|].
    constructor; [apply Hplain; vm_compute; reflexivity|constructor].
  - intros h Hin. apply elem_of_cons in Hin as [->|Hin]; [vm_compute; lia|].
    apply list_elem_of_singleton in Hin as ->. vm_compute. lia.
  - exists (ref_list [ref_int 1; ref_int 2]). split; [by left|reflexivity].
Defined.
