(* ===== verification/Lexer.v ===== *)
(** * The low-level lexer

    [crates/lexer]: the cursor over the characters of the source
    ([cursor.rs]), the scanning of comments, strings, identifiers
    ([kcl_cursor.rs]) and numbers ([number.rs]), and [token] with [tokenize]
    ([lib.rs]).  It cuts the source into tokens; nothing is rejected.

    A character is its code point; a cursor is what is left of the input.
    [prev], which only debug assertions read, is left out. *)

From stdpp Require Import base tactics list numbers strings.
From Stdlib Require Import ZArith Ascii Lia.
From S2P Require Import Prelude.
Local Open Scope Z_scope.

Abbreviation char := Z.

(** A character literal. *)
Definition ch (a : ascii) : char := Z.of_N (N_of_ascii a).
Arguments ch _%_char_scope.
(** The characters of an ASCII text. *)
Definition text (s : string) : list char := ch <$> String.list_ascii_of_string s.

Definition len_utf8 (c : char) : Z :=
  if c <? 128 then 1 else if c <? 2048 then 2 else if c <? 65536 then 3 else 4.
(** The length in bytes. *)
Fixpoint text_len (l : list char) : Z :=
  match l with [] => 0 | c :: l => len_utf8 c + text_len l end.

(** ** Tokens *)

Inductive Base := Binary | Octal | Hexadecimal | Decimal.
#[export] Instance Base_eq_dec : EqDecision Base.
Proof. solve_decision. Defined.

Definition describe (b : Base) : string :=
  match b with
  | Binary => "binary" | Octal => "octal" | Hexadecimal => "hexadecimal" | Decimal => "decimal"
  end.

Inductive DocStyle := Outer | Inner.
#[export] Instance DocStyle_eq_dec : EqDecision DocStyle.
Proof. solve_decision. Defined.

Inductive LiteralKind :=
  | LInt (base : Base) (empty_int : bool)
  | LFloat (base : Base) (empty_exponent : bool)
  | LStr (terminated triple_quoted : bool)
  | LBool (terminated : bool).
#[export] Instance LiteralKind_eq_dec : EqDecision LiteralKind.
Proof. solve_decision. Defined.

Inductive TokenKind :=
  | LineComment (doc_style : option DocStyle)
  | BlockComment (doc_style : option DocStyle) (terminated : bool)
  | Tab | Space | CarriageReturn | Newline | Whitespace
  | Ident | InvalidIdent | InvalidLineContinue | LineContinue
  | Literal (kind : LiteralKind) (suffix_start : Z)
  | Semi | Comma | Dot | DotDot | DotDotDot
  | OpenParen | CloseParen | OpenBrace | CloseBrace | OpenBracket | CloseBracket
  | At | Pound | Tilde | Question | Colon | Dollar | Eq | Bang | Lt | Gt
  | EqEq | BangEq | GtEq | LtEq | Minus | And | Or | Plus | Star | Slash | Caret | Percent
  | StarStar | SlashSlash | LtLt | GtGt
  | PlusEq | MinusEq | StarEq | SlashEq | PercentEq | AndEq | OrEq | CaretEq
  | StarStarEq | SlashSlashEq | LtLtEq | GtGtEq
  | Unknown.
#[export] Instance TokenKind_eq_dec : EqDecision TokenKind.
Proof. solve_decision. Defined.

Record Token := MkToken { kind : TokenKind; len : Z }.

(** ** The cursor *)

Definition EOF_CHAR : char := 0.
Definition DOLLAR_CHAR : char := ch "$".

Definition peek (cs : list char) : char := match cs with c :: _ => c | [] => EOF_CHAR end.
Definition peek1th (cs : list char) : char := match cs with _ :: c :: _ => c | _ => EOF_CHAR end.
Definition is_eof (cs : list char) : bool := match cs with [] => true | _ => false end.
(** The cursor after [bump]. *)
Definition bump (cs : list char) : list char := tail cs.

Fixpoint eat_while (p : char → bool) (cs : list char) : list char :=
  match cs with
  | c :: cs' => if p c then eat_while p cs' else cs
  | [] => []
  end.

(** [kcl_lexer::is_whitespace] *)
Definition is_whitespace (c : char) : bool :=
  bool_decide (c ∈ [11; 12; 13; 133; 8206; 8207; 8232; 8233]).

Definition is_ascii (c : char) : bool := c <? 128.
Definition is_ascii_digit (c : char) : bool := (ch "0" <=? c) && (c <=? ch "9").
Definition is_ascii_hexdigit (c : char) : bool :=
  is_ascii_digit c || ((ch "a" <=? c) && (c <=? ch "f")) || ((ch "A" <=? c) && (c <=? ch "F")).

(** ** Numbers *)

(** [eat_decimal_digits] and [eat_hexadecimal_digits]: digits and underscores,
    and whether there was a digit. *)
Fixpoint eat_digits (digit : char → bool) (cs : list char) : bool * list char :=
  match cs with
  | c :: cs' =>
      if c =? ch "_" then eat_digits digit cs'
      else if digit c then (true, (eat_digits digit cs').2)
      else (false, cs)
  | [] => (false, [])
  end.
Definition eat_decimal_digits : list char → bool * list char := eat_digits is_ascii_digit.
Definition eat_hexadecimal_digits : list char → bool * list char := eat_digits is_ascii_hexdigit.

Definition eat_float_exponent (cs : list char) : bool * list char :=
  eat_decimal_digits
    (if (peek cs =? ch "-") || (peek cs =? ch "+") then bump cs else cs).

Section Lexer.
(** The Unicode tables of [rustc_lexer] and [unic_emoji_char]. *)
Variables is_id_start is_id_continue is_emoji : char → bool.

(** The fraction and the exponent behind the digits of a number. *)
Definition number_tail (base : Base) (cs : list char) : LiteralKind * list char :=
  if (peek cs =? ch ".") && negb (peek1th cs =? ch ".") && negb (is_id_start (peek1th cs)) then
    let cs := bump cs in
    if is_ascii_digit (peek cs) then
      let cs := (eat_decimal_digits cs).2 in
      if (peek cs =? ch "e") || (peek cs =? ch "E") then
        let r := eat_float_exponent (bump cs) in (LFloat base (negb r.1), r.2)
      else (LFloat base false, cs)
    else (LFloat base false, cs)
  else if (peek cs =? ch "e") || (peek cs =? ch "E") then
    let r := eat_float_exponent (bump cs) in (LFloat base (negb r.1), r.2)
  else (LInt base false, cs).

(** After a prefix: no digits, or go on. *)
Definition prefixed (base : Base) (r : bool * list char) : LiteralKind * list char :=
  if r.1 then number_tail base r.2 else (LInt base true, r.2).

Definition number (first_digit : char) (cs : list char) : LiteralKind * list char :=
  if first_digit =? ch "0" then
    let p := peek cs in
    if p =? ch "b" then prefixed Binary (eat_decimal_digits (bump cs))
    else if (p =? ch "o") || is_ascii_digit p then prefixed Octal (eat_decimal_digits (bump cs))
    else if p =? ch "x" then prefixed Hexadecimal (eat_hexadecimal_digits (bump cs))
    else if (p =? ch "_") || (p =? ch ".") || (p =? ch "e") || (p =? ch "E") then
      number_tail Decimal (eat_decimal_digits cs).2
    else (LInt Decimal false, cs)
  else number_tail Decimal (eat_decimal_digits cs).2.

Definition eat_lit_suffix (cs : list char) : list char :=
  if is_id_start (peek cs) then eat_while is_id_continue (bump cs) else cs.

(** ** Strings *)

Definition is_quote (c : char) : bool := (c =? ch "'") || (c =? 34).
Definition ends_line (c : char) : bool := (c =? 13) || (c =? 10) || (c =? EOF_CHAR).

(** The loop of [eat_quoted_string]: whether the string was terminated, and
    what is left.  The backslash is 92. *)
Fixpoint string_body (quote : char) (triple : bool) (cs : list char) : bool * list char :=
  match cs with
  | [] => (false, [])
  | c :: cs' =>
      if (c =? 92) && ((peek cs' =? 92) || (peek cs' =? quote)) then
        match cs' with [] => (false, []) | _ :: cs'' => string_body quote triple cs'' end
      else if c =? quote then
        if triple then
          if (quote =? peek cs') && (quote =? peek1th cs') then (true, bump (bump cs'))
          else string_body quote triple cs'
        else (true, cs')
      else if negb triple && ends_line (peek cs') then (false, cs')
      else string_body quote triple cs'
  end.

Section Token.
(** The input of the token, to count what has been consumed of it. *)
Variable input : list char.
Definition len_consumed (cs : list char) : Z := text_len input - text_len cs.

Definition eat_quoted_string (quote : char) (cs : list char) : TokenKind * list char :=
  let triple := (quote =? peek cs) && (quote =? peek1th cs) in
  let cs := if triple then bump (bump cs) else cs in
  let r := string_body quote triple cs in
  (Literal (if r.1 then LStr true triple else LStr false false) (len_consumed r.2), r.2).

Definition is_raw_prefix (c : char) : bool := (c =? ch "r") || (c =? ch "R").
Definition try_string_magic (c : char) (cs : list char) : bool :=
  if is_raw_prefix c then is_quote (peek cs) else is_quote c.
Definition eat_string (c : char) (cs : list char) : TokenKind * list char :=
  if is_raw_prefix c then
    if is_quote (peek cs) then eat_quoted_string (peek cs) (bump cs) else (Unknown, cs)
  else if is_quote c then eat_quoted_string c cs
  else (Unknown, cs).

(** ** Comments and identifiers *)

Definition try_comment_magic (c : char) : bool := c =? ch "#".
Definition eat_comment (cs : list char) : TokenKind * list char :=
  (LineComment (Some Inner), eat_while (λ c, negb (c =? 10)) cs).

Definition fake_ident_or_unknown_prefix (cs : list char) : TokenKind * list char :=
  (InvalidIdent,
   eat_while (λ c, is_id_continue c || (negb (is_ascii c) && is_emoji c) || (c =? 8205)) cs).

Definition try_ident_magic (c : char) (cs : list char) : bool :=
  if c =? DOLLAR_CHAR then is_id_start (peek cs) else is_id_start c.
Definition eat_ident (cs : list char) : TokenKind * list char :=
  let cs := eat_while is_id_continue cs in
  if negb (is_ascii (peek cs)) && is_emoji (peek cs) then fake_ident_or_unknown_prefix cs
  else (Ident, cs).

(** ** Operators *)

(** [yes] when the next character is [c], which is then eaten. *)
Definition if_next (c : char) (yes no : TokenKind) (cs : list char) : TokenKind * list char :=
  if peek cs =? c then (yes, bump cs) else (no, cs).
(** The same for an operator whose first character may be doubled. *)
Definition if_doubled (c : char) (eq2 two eq one : TokenKind) (cs : list char)
    : TokenKind * list char :=
  if peek cs =? c then if_next (ch "=") eq2 two (bump cs)
  else if_next (ch "=") eq one cs.

(** The characters that are a token on their own. *)
Definition single (c : char) : option TokenKind :=
  if c =? 9 then Some Tab else if c =? 32 then Some Space else if c =? 10 then Some Newline
  else if c =? ch ";" then Some Semi else if c =? ch "," then Some Comma
  else if c =? ch "(" then Some OpenParen else if c =? ch ")" then Some CloseParen
  else if c =? ch "{" then Some OpenBrace else if c =? ch "}" then Some CloseBrace
  else if c =? ch "[" then Some OpenBracket else if c =? ch "]" then Some CloseBracket
  else if c =? ch "@" then Some At else if c =? ch "#" then Some Pound
  else if c =? ch "~" then Some Tilde else if c =? ch "?" then Some Question
  else if c =? ch ":" then Some Colon else if c =? ch "$" then Some Dollar
  else None.

Definition operator (c : char) (cs : list char) : TokenKind * list char :=
  match single c with
  | Some k => (k, cs)
  | None =>
      if c =? ch "." then
        if (peek cs =? ch ".") && (peek1th cs =? ch ".") then (DotDotDot, bump (bump cs))
        else (Dot, cs)
      else if c =? ch "=" then if_next (ch "=") EqEq Eq cs
      else if c =? ch "!" then if_next (ch "=") BangEq Bang cs
      else if c =? ch "<" then if_doubled (ch "<") LtLtEq LtLt LtEq Lt cs
      else if c =? ch ">" then if_doubled (ch ">") GtGtEq GtGt GtEq Gt cs
      else if c =? ch "-" then if_next (ch "=") MinusEq Minus cs
      else if c =? ch "&" then if_next (ch "=") AndEq And cs
      else if c =? ch "|" then if_next (ch "=") OrEq Or cs
      else if c =? ch "+" then if_next (ch "=") PlusEq Plus cs
      else if c =? ch "*" then if_doubled (ch "*") StarStarEq StarStar StarEq Star cs
      else if c =? ch "/" then if_doubled (ch "/") SlashSlashEq SlashSlash SlashEq Slash cs
      else if c =? ch "^" then if_next (ch "=") CaretEq Caret cs
      else if c =? ch "%" then if_next (ch "=") PercentEq Percent cs
      else if c =? 92 then
        if peek cs =? 10 then (LineContinue, bump cs)
        else if peek cs =? EOF_CHAR then (LineContinue, cs)
        else (InvalidLineContinue, cs)
      else if negb (is_ascii c) && is_emoji c then fake_ident_or_unknown_prefix cs
      else (Unknown, cs)
  end.

(** ** One token *)

Definition token_kind (c : char) (cs : list char) : TokenKind * list char :=
  if try_comment_magic c then eat_comment cs
  else if is_whitespace c then (Whitespace, cs)
  else if try_string_magic c cs then eat_string c cs
  else if try_ident_magic c cs then eat_ident cs
  else if is_ascii_digit c then
    let r := number c cs in
    (Literal r.1 (len_consumed r.2), eat_lit_suffix r.2)
  else operator c cs.
End Token.

(** [Cursor::token], and what is left. *)
Definition token (cs : list char) : Token * list char :=
  let r := match cs with
           | c :: cs' => token_kind cs c cs'
           | [] => token_kind [] EOF_CHAR []
           end in
  (MkToken r.1 (len_consumed cs r.2), r.2).

Definition first_token (input : list char) : Token := (token input).1.

(** [tokenize]: the tokens up to the end of the input.  Every token takes a
    character: the number of characters is fuel enough. *)
Fixpoint tokenize_fuel (fuel : nat) (cs : list char) : list Token :=
  match fuel with
  | O => []
  | S fuel =>
      if is_eof cs then [] else let r := token cs in r.1 :: tokenize_fuel fuel r.2
  end.
Definition tokenize (input : list char) : list Token := tokenize_fuel (length input) input.
End Lexer.

(** ** Every token takes a piece of the input *)

Lemma text_len_app l l' : text_len (l ++ l') = text_len l + text_len l'.
Proof. induction l; cbn [app text_len]; lia. Qed.
Lemma len_utf8_pos c : 1 ≤ len_utf8 c ≤ 4.
Proof. unfold len_utf8. repeat case_match; lia. Qed.
Lemma text_len_nonneg l : 0 ≤ text_len l.
Proof. induction l as [|c l]; cbn [text_len]; [done|]. pose proof (len_utf8_pos c). lia. Qed.

Create HintDb suffix.

Lemma bump_suffix cs : bump cs `suffix_of` cs.
Proof. destruct cs; [done|]. by apply suffix_cons_r. Qed.
Lemma eat_while_suffix p cs : eat_while p cs `suffix_of` cs.
Proof. induction cs as [|c cs IH]; cbn; [done|]. case_match; [by apply suffix_cons_r|done]. Qed.
Lemma eat_digits_suffix d cs : (eat_digits d cs).2 `suffix_of` cs.
Proof.
  induction cs as [|c cs IH]; cbn; [done|].
  repeat case_match; cbn; try done; by apply suffix_cons_r.
Qed.
Lemma string_body_suffix q t cs : (string_body q t cs).2 `suffix_of` cs.
Proof.
  remember (length cs) as n eqn:Hn. assert (length cs ≤ n)%nat as Hle by lia. clear Hn.
  revert cs Hle. induction n as [|n IH]; intros [|c cs] Hle; cbn in *; try done; try lia.
  repeat case_match; cbn; try (apply suffix_cons_r); try done.
  - subst. apply suffix_cons_r, IH. cbn in *. lia.
  - etrans; apply bump_suffix.
  - apply IH. lia.
  - apply IH. lia.
Qed.

(** What a scanner leaves of a suffix is a suffix. *)
Lemma bump_via cs l : cs `suffix_of` l → bump cs `suffix_of` l.
Proof. intros; etrans; [apply bump_suffix|done]. Qed.
Lemma eat_while_via p cs l : cs `suffix_of` l → eat_while p cs `suffix_of` l.
Proof. intros; etrans; [apply eat_while_suffix|done]. Qed.
Lemma eat_digits_via d cs l : cs `suffix_of` l → (eat_digits d cs).2 `suffix_of` l.
Proof. intros; etrans; [apply eat_digits_suffix|done]. Qed.
Lemma string_body_via q t cs l : cs `suffix_of` l → (string_body q t cs).2 `suffix_of` l.
Proof. intros; etrans; [apply string_body_suffix|done]. Qed.
Lemma suffix_refl {A} (l : list A) : l `suffix_of` l.
Proof. done. Qed.
#[export] Hint Resolve bump_via eat_while_via eat_digits_via string_body_via suffix_refl : suffix.

Ltac suffixes := repeat (case_match; cbn [fst snd]); auto 10 with suffix.

Section LexerFacts.
Variables is_id_start is_id_continue is_emoji : char → bool.
Abbreviation tok := (token is_id_start is_id_continue is_emoji).

Lemma number_tail_via b cs l :
  cs `suffix_of` l → (number_tail is_id_start b cs).2 `suffix_of` l.
Proof.
  intros ?. unfold number_tail, eat_float_exponent, eat_decimal_digits. suffixes.
Qed.
Hint Resolve number_tail_via : suffix.
Lemma number_suffix c cs : (number is_id_start c cs).2 `suffix_of` cs.
Proof.
  unfold number, prefixed, eat_decimal_digits, eat_hexadecimal_digits. suffixes.
Qed.
Lemma eat_lit_suffix_via cs l :
  cs `suffix_of` l → eat_lit_suffix is_id_start is_id_continue cs `suffix_of` l.
Proof. intros ?. unfold eat_lit_suffix. suffixes. Qed.
Hint Resolve number_suffix eat_lit_suffix_via : suffix.

Lemma operator_suffix c cs : (operator is_id_continue is_emoji c cs).2 `suffix_of` cs.
Proof.
  unfold operator, if_doubled, if_next, fake_ident_or_unknown_prefix. suffixes.
Qed.
Lemma eat_string_suffix input c cs : (eat_string input c cs).2 `suffix_of` cs.
Proof. unfold eat_string, eat_quoted_string. suffixes. Qed.
Lemma eat_ident_suffix cs : (eat_ident is_id_continue is_emoji cs).2 `suffix_of` cs.
Proof. unfold eat_ident, fake_ident_or_unknown_prefix. suffixes. Qed.
Hint Resolve operator_suffix eat_string_suffix eat_ident_suffix : suffix.

Lemma token_kind_suffix input c cs :
  (token_kind is_id_start is_id_continue is_emoji input c cs).2 `suffix_of` cs.
Proof. unfold token_kind, eat_comment. suffixes. Qed.

(** A token of a non-empty input takes at least its first character. *)
Lemma token_takes c cs :
  ∃ w, w ≠ [] ∧ c :: cs = w ++ (tok (c :: cs)).2 ∧ len (tok (c :: cs)).1 = text_len w.
Proof.
  unfold token. destruct (token_kind_suffix (c :: cs) c cs) as [k Hk].
  exists (c :: k). split; [done|]. cbn [fst snd len app]. split; [by rewrite <- Hk|].
  unfold len_consumed. rewrite Hk at 1. cbn [text_len]. rewrite text_len_app. lia.
Qed.

(** More fuel than characters changes nothing, and the pieces of the tokens put
    together are the input. *)
Lemma tokenize_pieces fuel cs :
  (length cs ≤ fuel)%nat →
  tokenize_fuel is_id_start is_id_continue is_emoji fuel cs =
    tokenize is_id_start is_id_continue is_emoji cs ∧
  ∃ pieces, concat pieces = cs ∧
    Forall2 (λ t w, w ≠ [] ∧ len t = text_len w)
      (tokenize is_id_start is_id_continue is_emoji cs) pieces.
Proof.
  assert (∀ n m l, (length l ≤ n)%nat → (length l ≤ m)%nat →
    tokenize_fuel is_id_start is_id_continue is_emoji n l =
      tokenize_fuel is_id_start is_id_continue is_emoji m l ∧
    ∃ pieces, concat pieces = l ∧ Forall2 (λ t w, w ≠ [] ∧ len t = text_len w)
      (tokenize_fuel is_id_start is_id_continue is_emoji n l) pieces) as H.
  { induction n as [|n IH]; intros m l Hn Hm.
    { destruct l; [|cbn in Hn; lia]. split; [by destruct m|]. exists []. split; [done|constructor]. }
    destruct l as [|c l].
    { split; [by destruct m|]. exists []. split; [done|constructor]. }
    destruct m as [|m]; [cbn in Hm; lia|]. cbn [tokenize_fuel is_eof].
    destruct (token_takes c l) as (w & Hw & Hl & Hlen).
    assert (length (tok (c :: l)).2 ≤ length l)%nat as Hlt.
    { apply (f_equal length) in Hl. rewrite length_app in Hl. destruct w; [done|]. cbn in *. lia. }
    cbn in Hn, Hm. destruct (IH m (tok (c :: l)).2) as (E & pieces & Hc & HF); [lia..|].
    split; [by rewrite E|]. exists (w :: pieces). split; [by rewrite Hl; cbn; rewrite Hc|].
    by constructor. }
  intros Hf. destruct (H fuel (length cs) cs Hf ltac:(done)) as (E & pieces & Hp).
  split; [exact E|]. exists pieces. unfold tokenize. by rewrite <- E.
Qed.
Lemma tokenize_cons c cs :
  tokenize is_id_start is_id_continue is_emoji (c :: cs) =
    (tok (c :: cs)).1 :: tokenize is_id_start is_id_continue is_emoji (tok (c :: cs)).2.
Proof.
  unfold tokenize at 1. cbn [length tokenize_fuel is_eof]. f_equal.
  destruct (token_takes c cs) as (w & Hw & Hl & _).
  apply tokenize_pieces. apply (f_equal length) in Hl. rewrite length_app in Hl.
  destruct w; [done|]. cbn [length] in Hl. lia.
Qed.
End LexerFacts.

(** C33: The tokens of any input are non-empty pieces of it in order, which make
    up the whole input: scanning ends, whatever the input, and loses nothing;
    the length of each token is that of its piece in bytes. *)
Theorem tokenize_lossless is_id_start is_id_continue is_emoji input fuel :
  (length input ≤ fuel)%nat →
  tokenize_fuel is_id_start is_id_continue is_emoji fuel input =
    tokenize is_id_start is_id_continue is_emoji input ∧
  ∃ pieces, concat pieces = input ∧
    Forall2 (λ t w, w ≠ [] ∧ len t = text_len w)
      (tokenize is_id_start is_id_continue is_emoji input) pieces.
Proof. apply tokenize_pieces. Qed.


(** ** Operators *)

(** The operators and delimiters, the longer ones first. *)
Definition operators : list (string * TokenKind) :=
  [("...", DotDotDot); ("**=", StarStarEq); ("//=", SlashSlashEq); ("<<=", LtLtEq); (">>=", GtGtEq);
   ("==", EqEq); ("!=", BangEq); (">=", GtEq); ("<=", LtEq); ("**", StarStar); ("//", SlashSlash);
   ("<<", LtLt); (">>", GtGt); ("+=", PlusEq); ("-=", MinusEq); ("*=", StarEq); ("/=", SlashEq);
   ("%=", PercentEq); ("&=", AndEq); ("|=", OrEq); ("^=", CaretEq);
   (";", Semi); (",", Comma); (".", Dot); ("(", OpenParen); (")", CloseParen); ("{", OpenBrace);
   ("}", CloseBrace); ("[", OpenBracket); ("]", CloseBracket); ("@", At); ("~", Tilde);
   ("?", Question); (":", Colon); ("=", Eq); ("!", Bang); ("<", Lt); (">", Gt); ("-", Minus);
   ("&", And); ("|", Or); ("+", Plus); ("*", Star); ("/", Slash); ("^", Caret); ("%", Percent)].

Fixpoint starts (p cs : list char) : bool :=
  match p, cs with
  | [], _ => true
  | c :: p, c' :: cs => (c =? c') && starts p cs
  | _ :: _, [] => false
  end.
Definition longest_operator (cs : list char) : option (string * TokenKind) :=
  List.find (λ e, starts (text e.1) cs) operators.

Lemma starts_spec p cs : starts p cs = true → cs = p ++ drop (length p) cs.
Proof.
  revert cs. induction p as [|c p IH]; intros [|c' cs]; cbn; try done.
  intros [->%Z.eqb_eq H]%andb_true_iff. f_equal. by apply IH.
Qed.

Definition is_letter (c : char) : bool :=
  ((ch "a" <=? c) && (c <=? ch "z")) || ((ch "A" <=? c) && (c <=? ch "Z")).

(** Evaluates the character literals. *)
Ltac chars_eval :=
  repeat match goal with
  | H : context [ch ?a] |- _ => let v := eval vm_compute in (ch a) in change (ch a) with v in H
  | |- context [ch ?a] => let v := eval vm_compute in (ch a) in change (ch a) with v
  end.

Section Operators.
Variables is_id_start is_id_continue is_emoji : char → bool.
(** On ASCII an identifier starts with a letter or an underscore and goes on
    with these and digits: [rustc_lexer] asks the Unicode tables only beyond. *)
Hypothesis id_start_ascii : ∀ c, is_ascii c = true → is_id_start c = is_letter c || (c =? ch "_").
Abbreviation tok := (token is_id_start is_id_continue is_emoji).

(** Characters that go straight to [operator]. *)
Definition symbolic (c : char) : bool :=
  negb (try_comment_magic c || is_whitespace c || is_raw_prefix c || is_quote c ||
        (c =? DOLLAR_CHAR) || is_letter c || (c =? ch "_") || is_ascii_digit c) && is_ascii c.

Lemma token_symbolic c cs :
  symbolic c = true →
  tok (c :: cs) =
    (MkToken (operator is_id_continue is_emoji c cs).1
       (text_len (c :: cs) - text_len (operator is_id_continue is_emoji c cs).2),
     (operator is_id_continue is_emoji c cs).2).
Proof.
  unfold symbolic. rewrite andb_true_iff, negb_true_iff, !orb_false_iff.
  intros [(((((((H1 & H2) & H3) & H4) & H5) & H6) & H7) & H8) H9].
  unfold token, token_kind, try_string_magic, try_ident_magic.
  rewrite H1, H2, H3, H4, H5, H8, id_start_ascii, H6, H7 by done. done.
Qed.

Lemma operator_longest t k c w cs :
  text t = c :: w → longest_operator (c :: w ++ cs) = Some (t, k) →
  operator is_id_continue is_emoji c (w ++ cs) = (k, cs) ∧ symbolic c = true.
Proof using.
  intros Ht H. assert ((t, k) ∈ operators) as Hin.
  { apply List.find_some in H as [H _]. by apply list_elem_of_In. }
  unfold longest_operator, operators in H. unfold operator, single, if_doubled, if_next.
  repeat (apply elem_of_cons in Hin as [[= -> ->]|Hin]; [
    injection Ht as <- <-; split; [|reflexivity];
    cbn [text String.list_ascii_of_string fmap list_fmap app List.find starts fst] in *;
    chars_eval; cbn in H |- *|]).
  all: try by apply elem_of_nil in Hin.
  all: destruct cs as [|c1 [|c2 cs]]; unfold peek, peek1th, bump, EOF_CHAR in *; cbn in H |- *; try done;
    repeat match goal with
    | |- context [?x =? ?y] => destruct (Z.eqb_spec x y); subst; cbn in H |- *
    end; try done; try discriminate H.
  all: repeat match type of H with context [?x =? ?y] => destruct (Z.eqb_spec x y); subst; cbn in H end;
    try done; by case_match.
Qed.

Lemma text_len_cons_app c w cs : text_len (c :: w ++ cs) - text_len cs = text_len (c :: w).
Proof using. cbn [text_len]. rewrite text_len_app. lia. Qed.

(** An operator or delimiter is read as the longest one that the input
    starts with, and exactly its characters are taken. *)
Theorem operator_reads t k cs :
  longest_operator cs = Some (t, k) →
  tok cs = (MkToken k (text_len (text t)), drop (length (text t)) cs).
Proof.
  intros H. pose proof H as [Hin Hst]%List.find_some. cbn [fst] in Hst.
  pose proof (starts_spec _ _ Hst) as Hcs. destruct (text t) as [|c w] eqn:Ht.
  { apply list_elem_of_In in Hin. unfold operators in Hin.
    repeat (apply elem_of_cons in Hin as [[= -> ->]|Hin]; [discriminate Ht|]).
    by apply elem_of_nil in Hin. }
  rewrite Hcs in H. destruct (operator_longest t k c w (drop (length (c :: w)) cs) Ht H) as [Ho Hs].
  rewrite Hcs at 1. cbn [app]. rewrite token_symbolic by done. rewrite Ho. cbn [fst snd].
  by rewrite text_len_cons_app.
Qed.
End Operators.

(** ** The text of a literal *)

Lemma peek_eq q cs : q ≠ EOF_CHAR → peek cs = q → ∃ cs', cs = q :: cs'.
Proof. destruct cs as [|c cs]; cbn; [by intros ? <-|intros _ <-; eauto]. Qed.
Lemma peek1th_eq q c cs : q ≠ EOF_CHAR → peek1th (c :: cs) = q → ∃ cs', cs = q :: cs'.
Proof. destruct cs as [|c' cs]; cbn; [by intros ? <-|intros _ <-; eauto]. Qed.
Lemma quote_not_eof q : is_quote q = true → q ≠ EOF_CHAR.
Proof. intros H ->. discriminate H. Qed.

Definition closing (q : char) (triple : bool) : list char := if triple then [q; q; q] else [q].

(** What the loop over a string takes ends with the closing quotes when the
    string is terminated. *)
Lemma string_body_shape q triple cs :
  is_quote q = true →
  ∃ body, cs = body ++ (if (string_body q triple cs).1 then closing q triple else []) ++
               (string_body q triple cs).2.
Proof.
  intros Hq%quote_not_eof. remember (length cs) as n eqn:Hn.
  assert (length cs ≤ n)%nat as Hle by lia. clear Hn.
  revert cs Hle. induction n as [|n IH]; intros [|c cs] Hle; cbn in Hle; try lia; try (by exists []).
  cbn [string_body]. destruct ((c =? 92) && _).
  { destruct cs as [|c' cs]; [by exists [c]|]. destruct (IH cs) as [b Hb]; [cbn in Hle; lia|].
    exists (c :: c' :: b). cbn [app]. do 2 f_equal. exact Hb. }
  destruct (Z.eqb_spec c q) as [->|Hc].
  - destruct triple; [|by exists []].
    destruct ((q =? peek cs) && (q =? peek1th cs)) eqn:E.
    + apply andb_true_iff in E as [E1%Z.eqb_eq E2%Z.eqb_eq].
      destruct (peek_eq q cs Hq) as [cs1 ->]; [done|].
      destruct (peek1th_eq q q cs1 Hq) as [cs2 ->]; [done|]. by exists [].
    + destruct (IH cs) as [b Hb]; [lia|]. exists (q :: b). cbn [app]. f_equal. exact Hb.
  - destruct (negb triple && ends_line (peek cs)) eqn:E; [by exists [c]|].
    destruct (IH cs) as [b Hb]; [lia|]. exists (c :: b). cbn [app]. f_equal. exact Hb.
Qed.

(** The text of a string literal: a prefix, quotes, the contents, quotes. *)
Inductive string_text : list char → bool → bool → Prop :=
  | string_text_intro p q body terminated triple :
      p = [] ∨ (∃ r, is_raw_prefix r = true ∧ p = [r]) → is_quote q = true →
      (terminated = false → triple = false) →
      string_text (p ++ closing q triple ++ body ++ (if terminated then closing q triple else []))
        terminated triple.

Lemma eat_quoted_string_shape input p q cs :
  p = [] ∨ (∃ r, is_raw_prefix r = true ∧ p = [r]) → is_quote q = true →
  input = p ++ q :: cs →
  ∃ w t tr, eat_quoted_string input q cs =
    (Literal (LStr t tr) (text_len w), (eat_quoted_string input q cs).2) ∧
    input = w ++ (eat_quoted_string input q cs).2 ∧ string_text w t tr.
Proof.
  intros Hp Hq ->. unfold eat_quoted_string.
  set (triple := (q =? peek cs) && (q =? peek1th cs)).
  set (cs1 := if triple then bump (bump cs) else cs).
  assert (q :: cs = closing q triple ++ cs1) as ->.
  { subst cs1 triple. destruct ((q =? peek cs) && _) eqn:E; [|done].
    apply andb_true_iff in E as [E1%Z.eqb_eq E2%Z.eqb_eq]. pose proof (quote_not_eof q Hq).
    destruct (peek_eq q cs) as [cs' ->]; [done..|].
    destruct (peek1th_eq q q cs') as [cs'' ->]; done. }
  destruct (string_body_shape q triple cs1 Hq) as [body Hb].
  destruct (string_body q triple cs1) as [[] r]; cbn [fst snd] in *; rewrite Hb.
  - exists (p ++ closing q triple ++ body ++ closing q triple), true, triple.
    rewrite <- !app_assoc. split; [|split; [done|by apply (string_text_intro p q body true)]].
    do 2 f_equal. unfold len_consumed. rewrite !text_len_app. lia.
  - cbn [app]. exists (p ++ q :: (if triple then [q; q] else []) ++ body), false, false.
    assert (closing q triple = q :: (if triple then [q; q] else [])) as -> by by destruct triple.
    cbn [app]. rewrite <- !app_assoc. cbn [app]. rewrite <- !app_assoc. split; [|split].
    + do 2 f_equal. unfold len_consumed. rewrite !text_len_app. cbn [text_len].
      rewrite !text_len_app. lia.
    + done.
    + pose proof (string_text_intro p q ((if triple then [q; q] else []) ++ body) false false Hp Hq
        ltac:(done)) as H. cbn in H. by rewrite app_nil_r in H.
Qed.

(** The text of a literal with its suffix. *)
Inductive literal_text : LiteralKind → Z → list char → Prop :=
  | str_text w t tr : string_text w t tr → literal_text (LStr t tr) (text_len w) w
  | int_text base empty digits suf :
      (empty = false → base ≠ Decimal →
        ∃ p digits', is_ascii p = true ∧ digits = ch "0" :: p :: digits') →
      literal_text (LInt base empty) (text_len digits) (digits ++ suf)
  | float_text base empty digits suf :
      literal_text (LFloat base empty) (text_len digits) (digits ++ suf).

Section LiteralFacts.
Variables is_id_start is_id_continue is_emoji : char → bool.

Lemma number_tail_kind base cs :
  (number_tail is_id_start base cs).1 = LInt base false ∨
  ∃ e, (number_tail is_id_start base cs).1 = LFloat base e.
Proof using. unfold number_tail. repeat (case_match; cbn [fst]); eauto. Qed.

(** A number with a base prefix has an ASCII character behind the zero. *)
Lemma number_kind c cs :
  (∃ base e, (number is_id_start c cs).1 = LInt base e ∧
    (e = false → base ≠ Decimal → c = ch "0" ∧
      ∃ p cs', cs = p :: cs' ∧ is_ascii p = true ∧ (number is_id_start c cs).2 `suffix_of` cs')) ∨
  ∃ base e, (number is_id_start c cs).1 = LFloat base e.
Proof using.
  unfold number. destruct (Z.eqb_spec c (ch "0")) as [Hc|].
  2:{ destruct (number_tail_kind Decimal (eat_decimal_digits cs).2) as [->|[e ->]]; [|by eauto].
      left. exists Decimal, false. by split. }
  destruct cs as [|p cs]; [left; exists Decimal, false; by split|]. cbn [peek bump tail].
  assert (∀ base r, is_ascii p = true → r.2 `suffix_of` cs →
    (∃ base' e, (prefixed is_id_start base r).1 = LInt base' e ∧
      (e = false → base' ≠ Decimal → c = ch "0" ∧ ∃ p' cs', p :: cs = p' :: cs' ∧ is_ascii p' = true ∧
      (prefixed is_id_start base r).2 `suffix_of` cs')) ∨
    ∃ base' e, (prefixed is_id_start base r).1 = LFloat base' e) as Hpre.
  { intros base r Hp Hr. unfold prefixed. destruct r.1; cbn [fst snd]; [|left; exists base, true; by split].
    pose proof (number_tail_via is_id_start base _ _ Hr).
    destruct (number_tail_kind base r.2) as [->|[e ->]]; eauto 10. }
  destruct (Z.eqb_spec p (ch "b")) as [->|_]; [apply Hpre; [reflexivity|apply eat_digits_suffix]|].
  destruct ((p =? ch "o") || is_ascii_digit p) eqn:E.
  { apply Hpre; [|apply eat_digits_suffix].
    unfold is_ascii, is_ascii_digit in *. chars_eval. lia. }
  destruct (Z.eqb_spec p (ch "x")) as [->|_]; [apply Hpre; [reflexivity|apply eat_digits_suffix]|].
  case_match; [|left; exists Decimal, false; by split].
  destruct (number_tail_kind Decimal (eat_decimal_digits (p :: cs)).2) as [->|[e ->]]; [|by eauto].
  left. exists Decimal, false. by split.
Qed.

Lemma suffix_split {A} (l l' : list A) : l `suffix_of` l' → ∃ k, l' = k ++ l.
Proof using. done. Qed.

(** Symbols are no literals. *)
Lemma operator_no_literal c cs k s :
  (operator is_id_continue is_emoji c cs).1 ≠ Literal k s.
Proof using.
  unfold operator. destruct (single c) eqn:E.
  - unfold single in E. repeat case_match; by simplify_eq.
  - unfold if_doubled, if_next, fake_ident_or_unknown_prefix. repeat case_match; done.
Qed.

Lemma literal_shape c cs k s :
  kind (token is_id_start is_id_continue is_emoji (c :: cs)).1 = Literal k s →
  ∃ w, c :: cs = w ++ (token is_id_start is_id_continue is_emoji (c :: cs)).2 ∧
    len (token is_id_start is_id_continue is_emoji (c :: cs)).1 = text_len w ∧ literal_text k s w.
Proof using.
  unfold token. cbn [fst snd kind len]. unfold token_kind.
  case_match; [done|]. case_match; [done|]. destruct (try_string_magic c cs) eqn:Hs.
  { assert (∃ w t tr, eat_string (c :: cs) c cs =
      (Literal (LStr t tr) (text_len w), (eat_string (c :: cs) c cs).2) ∧
      c :: cs = w ++ (eat_string (c :: cs) c cs).2 ∧ string_text w t tr) as (w & t & tr & E & Hw & Ht).
    { unfold try_string_magic in Hs. unfold eat_string. destruct (is_raw_prefix c) eqn:Hr; rewrite Hs.
      - destruct (peek_eq (peek cs) cs) as [cs' Hcs]; [by apply quote_not_eof|done|].
        apply eat_quoted_string_shape with (p := [c]); eauto. cbn [app]. f_equal. by rewrite Hcs.
      - apply eat_quoted_string_shape with (p := []); eauto. }
    rewrite E. cbn [fst]. intros [= <- <-]. exists w. split; [done|]. split; [|by constructor].
    unfold len_consumed. rewrite Hw at 1. rewrite text_len_app. cbn [snd]. lia. }
  case_match; [unfold eat_ident, fake_ident_or_unknown_prefix; by repeat case_match|].
  destruct (is_ascii_digit c) eqn:Hd; [|intros []%operator_no_literal].
  cbn [fst snd]. intros [= <- <-]. pose proof (number_suffix is_id_start c cs) as Hsuf.
  destruct Hsuf as [d Hd'].
  destruct (suffix_split _ _ (eat_lit_suffix_via is_id_start is_id_continue _ _ (suffix_refl
    (number is_id_start c cs).2))) as [suf Hsuf].
  assert (len_consumed (c :: cs) (number is_id_start c cs).2 = text_len (c :: d)) as ->.
  { unfold len_consumed. rewrite Hd' at 1. cbn [text_len]. rewrite text_len_app. lia. }
  exists (c :: d ++ suf). split; [|split].
  - cbn [app]. rewrite <- app_assoc, <- Hsuf. by rewrite <- Hd'.
  - unfold len_consumed. rewrite Hd' at 1. rewrite Hsuf at 1. cbn [text_len].
    rewrite !text_len_app. lia.
  - destruct (number_kind c cs) as [(b & e & -> & Hb)|(b & e & ->)];
      [apply (int_text b e (c :: d))|apply (float_text b e (c :: d))].
    intros He Hdec. destruct (Hb He Hdec) as (-> & p & cs' & -> & Hp & [d' Hd2]).
    exists p, d'. split; [done|]. f_equal. rewrite Hd2 in Hd' at 1.
    rewrite app_comm_cons in Hd'. by apply app_inv_tail in Hd'.
Qed.
End LiteralFacts.

(** ** Concrete inputs *)

(** The ASCII part of the tables. *)
Definition ascii_id_start (c : char) : bool := is_letter c || (c =? ch "_").
Definition ascii_id_continue (c : char) : bool := ascii_id_start c || is_ascii_digit c.
Definition no_emoji (c : char) : bool := false.

Lemma tokenize_lossless_witness :
  (10 ≤ 20)%nat ∧
  tokenize_fuel ascii_id_start ascii_id_continue no_emoji 20 (text "a = -0x1Fi") =
    [MkToken Ident 1; MkToken Space 1; MkToken Eq 1; MkToken Space 1; MkToken Minus 1;
     MkToken (Literal (LInt Hexadecimal false) 4) 5].
Proof.
  assert (length (text "a = -0x1Fi") ≤ 20)%nat as H by (vm_compute; lia).
  split; [lia|]. rewrite (proj1 (tokenize_lossless ascii_id_start ascii_id_continue no_emoji _ 20 H)).
  vm_compute. reflexivity.
Defined.

Lemma operator_reads_witness :
  longest_operator (text "**=2") = Some ("**=", StarStarEq) ∧
  token ascii_id_start ascii_id_continue no_emoji (text "**=2") =
    (MkToken StarStarEq 3, text "2").
Proof.
  assert (longest_operator (text "**=2") = Some ("**=", StarStarEq)) as H by (vm_compute; reflexivity).
  split; [exact H|].
  rewrite (operator_reads ascii_id_start ascii_id_continue no_emoji (λ c _, eq_refl) _ _ _ H).
  vm_compute. reflexivity.
Defined.

(** What the scanner makes of a zero and a digit: the digit counts as the prefix. *)
Example octal_digit_skipped :
  number ascii_id_start (ch "0") (text "7") = (LInt Octal true, []).
Proof. reflexivity. Qed.

(** An opening quote at the end of a line lets the string run on behind the line. *)
Example quote_before_newline :
  token ascii_id_start ascii_id_continue no_emoji (ch "'" :: 10 :: text "x'") =
    (MkToken (Literal (LStr true false) 4) 4, []).
Proof. vm_compute. reflexivity. Qed.
