(* ===== verification/Token.v ===== *)
(** * The tokens of the parser

    [ast/src/token.rs] and [ast/src/token_stream.rs]: the tokens that the lexer
    of the parser makes and the stream the parser reads them from.  The symbols
    of [span/src/symbol.rs] are interned texts: equal symbols are equal texts,
    and a symbol is its text here.  A span is the pair of the positions it was
    made of; [Span::new] puts them in order. *)

From stdpp Require Import base tactics list numbers strings.
From Stdlib Require Import ZArith Lia.
From S2P Require Import Prelude.
From S2P Require Lexer.
Local Open Scope Z_scope.

Abbreviation char := Lexer.char.
Abbreviation Symbol := (list char).
Abbreviation intern := Lexer.text.

Definition VALID_SPACES_LENGTH : nat := 0.

(** ** Tokens *)

Inductive CommentKind := Line (s : Symbol).

Inductive UnaryOpToken := UTilde | UNot.
#[export] Instance UnaryOpToken_eq_dec : EqDecision UnaryOpToken.
Proof. solve_decision. Defined.

Inductive BinOpToken :=
  | Plus | Minus | Star | Slash | Percent | StarStar | SlashSlash | Caret | And | Or | Shl | Shr.
#[export] Instance BinOpToken_eq_dec : EqDecision BinOpToken.
Proof. solve_decision. Defined.

Inductive BinCmpToken := Eq | NotEq | Lt | LtEq | Gt | GtEq.
#[export] Instance BinCmpToken_eq_dec : EqDecision BinCmpToken.
Proof. solve_decision. Defined.

Inductive DelimToken := Paren | Bracket | Brace | NoDelim.
#[export] Instance DelimToken_eq_dec : EqDecision DelimToken.
Proof. solve_decision. Defined.

(** The literals that are not written with digits or quotes have the prefix
    [Lit]. *)
Inductive LitKind :=
  | Bool | Integer | Float
  | Str (is_long_string is_raw : bool)
  | LitNone | LitUndefined | LitErr.

Record Lit := MkLit {
  lit_kind : LitKind;
  symbol : Symbol;
  suffix : option Symbol;
  raw : option Symbol;
}.

Inductive TokenKind :=
  | UnaryOp (op : UnaryOpToken)
  | BinOp (op : BinOpToken)
  | BinOpEq (op : BinOpToken)
  | BinCmp (op : BinCmpToken)
  | At | Dot | DotDotDot | Comma | Colon | RArrow | Dollar | Question | Assign
  | OpenDelim (d : DelimToken)
  | CloseDelim (d : DelimToken)
  | Literal (l : Lit)
  | Ident (s : Symbol)
  | DocComment (c : CommentKind)
  | Indent (n : nat)
  | Dedent (n : nat)
  | Newline | Dummy | Eof.

#[export] Instance CommentKind_eq_dec : EqDecision CommentKind.
Proof. solve_decision. Defined.
#[export] Instance LitKind_eq_dec : EqDecision LitKind.
Proof. solve_decision. Defined.
#[export] Instance Lit_eq_dec : EqDecision Lit.
Proof. solve_decision. Defined.
#[export] Instance TokenKind_eq_dec : EqDecision TokenKind.
Proof. solve_decision. Defined.

Definition Span : Type := Z * Z.
Definition span (lo hi : Z) : Span := if hi <? lo then (hi, lo) else (lo, hi).
Definition DUMMY_SP : Span := (0, 0).

Record Token := MkToken { kind : TokenKind; tok_span : Span }.
#[export] Instance Token_eq_dec : EqDecision Token.
Proof. solve_decision. Defined.

Definition dummy : Token := MkToken Dummy DUMMY_SP.

(** ** Names of the tokens *)

Definition LitKind_to_string (l : LitKind) : string :=
  match l with
  | Bool => "bool" | Integer => "int" | Float => "float" | Str _ _ => "str"
  | LitNone => "None" | LitUndefined => "Undefined" | LitErr => "error"
  end.

Definition UnaryOpToken_to_string (op : UnaryOpToken) : string :=
  match op with UTilde => "~" | UNot => "not" end.
Definition BinOpToken_to_string (op : BinOpToken) : string :=
  match op with
  | Plus => "+" | Minus => "-" | Star => "*" | Slash => "/" | Percent => "%" | StarStar => "**"
  | SlashSlash => "//" | Caret => "^" | And => "&" | Or => "|" | Shl => "<<" | Shr => ">>"
  end.
Definition BinOpEq_to_string (op : BinOpToken) : string :=
  match op with
  | Plus => "+=" | Minus => "-=" | Star => "*=" | Slash => "/=" | Percent => "%="
  | StarStar => "**=" | SlashSlash => "//=" | Caret => "^=" | And => "&=" | Or => "|="
  | Shl => "<<=" | Shr => ">>="
  end.
Definition BinCmpToken_to_string (op : BinCmpToken) : string :=
  match op with
  | Eq => "==" | NotEq => "!=" | Lt => "<" | LtEq => "<=" | Gt => ">" | GtEq => ">="
  end.

Definition TokenKind_to_string (k : TokenKind) : string :=
  match k with
  | UnaryOp op => UnaryOpToken_to_string op
  | BinOp op => BinOpToken_to_string op
  | BinOpEq op => BinOpEq_to_string op
  | BinCmp op => BinCmpToken_to_string op
  | At => "@" | Dot => "." | DotDotDot => "..." | Comma => "," | Colon => ":" | RArrow => "->"
  | Dollar => "$" | Question => "?" | Assign => "="
  | OpenDelim d =>
      match d with Paren => "(" | Bracket => "[" | Brace => "{" | NoDelim => "open_no_delim" end
  | CloseDelim d =>
      match d with Paren => ")" | Bracket => "]" | Brace => "}" | NoDelim => "close_no_delim" end
  | Literal l =>
      match lit_kind l with
      | Bool => "bool" | Integer => "integer" | Float => "float" | Str _ _ => "string"
      | LitNone => "None" | LitUndefined => "Undefined" | LitErr => "err"
      end
  | Ident _ => "identifier"
  | DocComment (Line _) => "inline_comment"
  | Indent _ => "indent" | Dedent _ => "dedent" | Newline => "newline"
  | Dummy => "dummy" | Eof => "eof"
  end.

Definition Token_to_string (t : Token) : Symbol :=
  match kind t with
  | Literal l => match suffix l with Some suf => symbol l ++ suf | None => symbol l end
  | k => intern (TokenKind_to_string k)
  end.

(** ** Queries *)

Definition ident (t : Token) : option (Symbol * Span) :=
  match kind t with Ident name => Some (name, tok_span t) | _ => None end.
Definition run_on_ident (pred : Symbol * Span → bool) (t : Token) : bool :=
  match ident t with Some id => pred id | None => false end.
Definition is_keyword (kw : Symbol) (t : Token) : bool :=
  run_on_ident (λ id, bool_decide (id.1 = kw)) t.
Definition is_string_lit (t : Token) : bool :=
  match kind t with
  | Literal l => match lit_kind l with Str _ _ => true | _ => false end
  | _ => false
  end.
Definition is_in_recovery_set (t : Token) : bool :=
  match kind t with Indent n => (n =? VALID_SPACES_LENGTH)%nat | Dummy => true | _ => false end.

(** The keywords of [span/src/symbol.rs]. *)
Module kw.
Definition Keywords : list string :=
  [""; "as"; "import"; "rule"; "schema"; "mixin"; "protocol"; "check"; "for"; "assert"; "if";
   "elif"; "else"; "or"; "and"; "not"; "in"; "is"; "lambda"; "all"; "any"; "filter"; "map";
   "type"; "True"; "False"; "None"; "Undefined"]%string.
Definition As : Symbol := intern "as".
Definition Import : Symbol := intern "import".
Definition Rule : Symbol := intern "rule".
Definition Schema : Symbol := intern "schema".
Definition Mixin : Symbol := intern "mixin".
Definition Protocol : Symbol := intern "protocol".
Definition Check : Symbol := intern "check".
Definition For : Symbol := intern "for".
Definition Assert : Symbol := intern "assert".
Definition If : Symbol := intern "if".
Definition Elif : Symbol := intern "elif".
Definition Else : Symbol := intern "else".
Definition Or : Symbol := intern "or".
Definition And : Symbol := intern "and".
Definition Not : Symbol := intern "not".
Definition In : Symbol := intern "in".
Definition Is : Symbol := intern "is".
Definition Lambda : Symbol := intern "lambda".
Definition All : Symbol := intern "all".
Definition Any : Symbol := intern "any".
Definition Filter : Symbol := intern "filter".
Definition Map : Symbol := intern "map".
Definition Type_ : Symbol := intern "type".
Definition True : Symbol := intern "True".
Definition False : Symbol := intern "False".
Definition None : Symbol := intern "None".
Definition Undefined : Symbol := intern "Undefined".
End kw.
(** Names that are no keywords. *)
Module sym.
Definition bool : Symbol := intern "bool".
Definition int : Symbol := intern "int".
Definition float : Symbol := intern "float".
Definition str : Symbol := intern "str".
End sym.

Definition is_bool_lit (s : Symbol) : bool :=
  bool_decide (s = kw.True) || bool_decide (s = kw.False).

(** ** The cursor over the stream *)

Definition TokenStream : Type := list Token.
Record Cursor := MkCursor { stream : TokenStream; index : nat }.
Definition cursor (s : TokenStream) : Cursor := MkCursor s 0.

Definition peekn (n : nat) (c : Cursor) : option Token := stream c !! (index c + n - 1)%nat.
Definition peek (c : Cursor) : option Token := peekn 1 c.
Definition peek2 (c : Cursor) : option Token := peekn 2 c.
Definition next (c : Cursor) : option Token * Cursor :=
  if (index c <? length (stream c))%nat
  then (stream c !! index c, MkCursor (stream c) (S (index c)))
  else (None, c).

Lemma span_ordered lo hi : lo ≤ hi → span lo hi = (lo, hi).
Proof. intros. unfold span. by rewrite (proj2 (Z.ltb_ge hi lo)). Qed.

(** [peek] shows the token that [next] returns; [next] moves by one token and
    stays behind the last. *)
Lemma peek_next c : peek c = (next c).1.
Proof.
  unfold peek, peekn, next. rewrite Nat.add_sub.
  destruct (Nat.ltb_spec (index c) (length (stream c))); [done|].
  by apply lookup_ge_None.
Qed.
Lemma next_drop c :
  drop (index (next c).2) (stream c) = tail (drop (index c) (stream c)).
Proof.
  unfold next. destruct (Nat.ltb_spec (index c) (length (stream c))) as [H|H]; cbn [snd index].
  - destruct (lookup_lt_is_Some_2 _ _ H) as [x Hx]. by rewrite (drop_S _ x _ Hx).
  - by rewrite (drop_ge _ _ H).
Qed.
