(* ===== verification/TokenStream.v ===== *)
(** * The lexer of the parser

    [parser/src/lexer]: the raw tokens of [kcl_lexer] become the tokens of the
    parser.  String contents are evaluated ([string.rs]), literals checked,
    closing delimiters matched with the open ones, and line beginnings compared
    with the indentation stack ([indent.rs], [mod.rs]).

    The position is a byte offset; instead of the whole source the state keeps
    the text from the position on, and the text of the token at hand is passed
    along: all slices the code takes lie in it.  Stacks and buffers have their
    last element at the head.  The diagnostics that go to the session are
    collected with the state. *)

From stdpp Require Import base tactics list numbers strings.
From Stdlib Require Import ZArith Ascii Lia.
From S2P Require Import Prelude Token.
From S2P Require Lexer.
Local Open Scope Z_scope.

Abbreviation ch := Lexer.ch.
Abbreviation text := Lexer.text.
Abbreviation text_len := Lexer.text_len.
Abbreviation len_utf8 := Lexer.len_utf8.

(** ** Slices

    [&s[a..b]] panics when the bounds are out of order or inside a character. *)

Fixpoint skip_bytes (n : Z) (l : list char) : Res (list char) :=
  if n =? 0 then Ok l
  else match l with
       | c :: l => if len_utf8 c <=? n then skip_bytes (n - len_utf8 c) l else Panic CharBoundary
       | [] => Panic CharBoundary
       end.
Fixpoint take_bytes (n : Z) (l : list char) : Res (list char) :=
  if n =? 0 then Ok []
  else match l with
       | c :: l =>
           if len_utf8 c <=? n then cons c <$> take_bytes (n - len_utf8 c) l
           else Panic CharBoundary
       | [] => Panic CharBoundary
       end.
Definition str_from_to (w : list char) (start stop : Z) : Res (list char) :=
  if stop <? start then Panic CharBoundary
  else s ← skip_bytes start w; take_bytes (stop - start) s.

(** The bytes of a character. *)
Definition utf8 (c : char) : list Z :=
  if c <? 128 then [c]
  else if c <? 2048 then [192 + c / 64; 128 + c mod 64]
  else if c <? 65536 then [224 + c / 4096; 128 + c / 64 mod 64; 128 + c mod 64]
  else [240 + c / 262144; 128 + c / 4096 mod 64; 128 + c / 64 mod 64; 128 + c mod 64].
(** [char_from]: a byte of the source as a character. *)
Definition char_from (w : list char) (i : nat) : Res char := Prelude.index (concat (utf8 <$> w)) i.

(** [char::to_digit] *)
Definition to_digit (radix : Z) (c : char) : option Z :=
  let d := if (ch "0" <=? c) && (c <=? ch "9") then c - ch "0"
           else if (ch "a" <=? c) && (c <=? ch "z") then c - ch "a" + 10
           else if (ch "A" <=? c) && (c <=? ch "Z") then c - ch "A" + 10
           else radix in
  if d <? radix then Some d else None.
(** [char::from_u32] *)
Definition char_from_u32 (p : Z) : option char :=
  if (p <? 55296) || ((57344 <=? p) && (p <? 1114112)) then Some p else None.

(** ** String contents *)

Section Strings.
(** [unicode_names2::character]: the character of a Unicode name. *)
Variable character : list char → option char.

Definition is_octal (c : char) : bool := (ch "0" <=? c) && (c <=? ch "7").

(** The octal digits of [parse_octet] behind the first: at most [n]. *)
Fixpoint octal_digits (n : nat) (chars : list char) : list char * list char :=
  match n, chars with
  | S n, c :: cs =>
      if is_octal c then let r := octal_digits n cs in (c :: r.1, r.2) else ([], chars)
  | _, _ => ([], chars)
  end.
(** The value is below 512: [from_str_radix] and [from_u32] succeed. *)
Definition parse_octet (first : char) (chars : list char) : char * list char :=
  let r := octal_digits 2 chars in
  (foldl (λ v c, v * 8 + (c - ch "0")) 0 (first :: r.1), r.2).

Fixpoint unicode_digits (n : nat) (p : Z) (chars : list char) : option (Z * list char) :=
  match n with
  | O => Some (p, chars)
  | S n =>
      match chars with
      | c :: cs =>
          match to_digit 16 c with
          | Some d => unicode_digits n (p + Z.shiftl d (Z.of_nat n * 4)) cs
          | None => None
          end
      | [] => None
      end
  end.
Definition REPLACEMENT_CHARACTER : char := 65533.
Definition unicode_literal (literal_number : nat) (chars : list char)
    : option (char * list char) :=
  '(p, cs) ← unicode_digits literal_number 0 chars;
  if (55296 <=? p) && (p <=? 57343) then Some (REPLACEMENT_CHARACTER, cs)
  else c ← char_from_u32 p; Some (c, cs).

(** The name up to the closing brace. *)
Fixpoint unicode_name (chars : list char) : option (list char * list char) :=
  match chars with
  | [] => None
  | c :: cs =>
      if c =? ch "}" then Some ([], cs)
      else '(name, cs) ← unicode_name cs; Some (c :: name, cs)
  end.
Definition parse_unicode_name (chars : list char) : option (char * list char) :=
  match chars with
  | c :: cs =>
      if c =? ch "{" then
        '(name, cs) ← unicode_name cs; x ← character name; Some (x, cs)
      else None
  | [] => None
  end.

(** What follows a backslash: the characters it stands for, and the rest. *)
Definition eval_escape (quote_char : char) (is_bytes is_raw : bool) (chars : list char)
    : option (list char * list char) :=
  let one r := '(c, cs) ← r; Some ([c], cs) in
  match chars with
  | [] => None
  | c :: cs =>
      if (c =? quote_char) && negb is_raw then Some ([quote_char], cs)
      else if is_raw then Some ([92; c], cs)
      else if c =? 92 then Some ([92], cs)
      else if c =? ch "'" then Some ([ch "'"], cs)
      else if c =? 34 then Some ([34], cs)
      else if c =? 10 then Some ([], cs)
      else if c =? ch "a" then Some ([7], cs)
      else if c =? ch "b" then Some ([8], cs)
      else if c =? ch "f" then Some ([12], cs)
      else if c =? ch "n" then Some ([10], cs)
      else if c =? ch "r" then Some ([13], cs)
      else if c =? ch "t" then Some ([9], cs)
      else if c =? ch "v" then Some ([11], cs)
      else if is_octal c then let r := parse_octet c cs in Some ([r.1], r.2)
      else if c =? ch "x" then one (unicode_literal 2 cs)
      else if (c =? ch "u") && negb is_bytes then one (unicode_literal 4 cs)
      else if (c =? ch "U") && negb is_bytes then one (unicode_literal 8 cs)
      else if (c =? ch "N") && negb is_bytes then one (parse_unicode_name cs)
      else Some ([92; c], cs)
  end.

(** Each turn of the loop takes a character: their number is fuel enough. *)
Fixpoint eval_fuel (fuel : nat) (quote_char : char) (triple_quoted is_bytes is_raw : bool)
    (chars : list char) : option (list char) :=
  match fuel, chars with
  | S fuel, c :: cs =>
      let go := eval_fuel fuel quote_char triple_quoted is_bytes is_raw in
      if c =? 92 then
        '(out, cs) ← eval_escape quote_char is_bytes is_raw cs;
        app out <$> go cs
      else if ((c =? 10) && negb triple_quoted) || (is_bytes && negb (Lexer.is_ascii c)) then None
      else cons c <$> go cs
  | _, _ => Some []
  end.
Definition str_content_eval (string_content : list char) (quote_char : char)
    (triple_quoted is_bytes is_raw : bool) : option (list char) :=
  eval_fuel (length string_content) quote_char triple_quoted is_bytes is_raw string_content.
End Strings.

(** ** Diagnostics *)

Inductive Message :=
  | Msg (s : string)
  | InvalidDigit (base : Z) (lo hi : Z)
  | InvalidTokenNot | CharAfterLineContinuationToken | RedundantSemicolon.
#[export] Instance Message_eq_dec : EqDecision Message.
Proof. solve_decision. Defined.
(** The message, its span and the suggestions. *)
Definition Diagnostic : Type := Message * Span * option (list string).

(** ** Indentation levels *)

Record IndentLevel := MkLevel { tabs : nat; spaces : nat }.
#[export] Instance IndentLevel_eq_dec : EqDecision IndentLevel.
Proof. solve_decision. Defined.
Definition default_level : IndentLevel := MkLevel 0 0.

(** [None] is the error "inconsistent use of tabs and spaces in indentation". *)
Definition level_cmp (self other : IndentLevel) : option comparison :=
  match Nat.compare (tabs self) (tabs other) with
  | Datatypes.Lt => if (spaces self <=? spaces other)%nat then Some Datatypes.Lt else None
  | Datatypes.Gt => if (spaces other <=? spaces self)%nat then Some Datatypes.Gt else None
  | Datatypes.Eq => Some (Nat.compare (spaces self) (spaces other))
  end.
Definition inconsistent : string := "inconsistent use of tabs and spaces in indentation".

(** ** The state *)

Record IndentContext := MkContext {
  new_line_beginning : bool;
  delims : list TokenKind;
  cxt_tabs : nat;
  cxt_spaces : nat;
  indents : list IndentLevel;
}.
Record Lexer := MkLexer {
  pos : Z;
  tok_start_pos : Z;
  rest : list char;
  indent_cxt : IndentContext;
  diagnostics : list Diagnostic;
}.

Definition set_context (c : IndentContext) (l : Lexer) : Lexer :=
  MkLexer (pos l) (tok_start_pos l) (rest l) c (diagnostics l).
Definition report (d : Diagnostic) (l : Lexer) : Lexer :=
  MkLexer (pos l) (tok_start_pos l) (rest l) (indent_cxt l) (d :: diagnostics l).
Definition set_tok_start_pos (p : Z) (l : Lexer) : Lexer :=
  MkLexer (pos l) p (rest l) (indent_cxt l) (diagnostics l).
Definition set_new_line (b : bool) (c : IndentContext) : IndentContext :=
  MkContext b (delims c) (cxt_tabs c) (cxt_spaces c) (indents c).
Definition set_delims (d : list TokenKind) (c : IndentContext) : IndentContext :=
  MkContext (new_line_beginning c) d (cxt_tabs c) (cxt_spaces c) (indents c).
Definition set_counters (t s : nat) (c : IndentContext) : IndentContext :=
  MkContext (new_line_beginning c) (delims c) t s (indents c).
Definition set_indents (i : list IndentLevel) (c : IndentContext) : IndentContext :=
  MkContext (new_line_beginning c) (delims c) (cxt_tabs c) (cxt_spaces c) i.

Definition struct_span_error (msg : string) (sp : Span) (l : Lexer) : Lexer :=
  report (Msg msg, sp, None) l.

Inductive IndentOrDedents :=
  | IndentTok (token : Token)
  | Dedents (tokens : list Token).
Inductive TokenWithIndents :=
  | TokenOnly (token : Token)
  | WithIndent (token : Token) (indent : IndentOrDedents).

Definition is_eof (t : TokenWithIndents) : bool :=
  match t with TokenOnly t | WithIndent t _ => bool_decide (kind t = Eof) end.
Definition append_to (t : TokenWithIndents) (buf : list Token) : list Token :=
  match t with
  | TokenOnly t => t :: buf
  | WithIndent t (IndentTok i) => t :: i :: buf
  | WithIndent t (Dedents ds) => t :: rev ds ++ buf
  end.

(** ** Indents and dedents *)

(** [last_indent], with its recovery from an empty stack. *)
Definition last_indent (l : Lexer) : IndentLevel * Lexer :=
  match indents (indent_cxt l) with
  | top :: _ => (top, l)
  | [] =>
      (default_level,
       set_context (set_indents [default_level] (indent_cxt l))
         (struct_span_error "mismatched indent level" (span (pos l) (pos l)) l))
  end.

(** The end of the loop of [lex_indent], with the level [cur_indent] on the top
    of [stack] not above [indent]. *)
Definition dedent_stop (indent cur_indent : IndentLevel) (stack popped : list IndentLevel)
    (dedents : list nat) (errs : list string) : list IndentLevel * list nat * list string :=
  match level_cmp indent cur_indent with
  | None => (stack, dedents, inconsistent :: errs)
  | Some Datatypes.Gt =>
      let spaces_diff := (spaces indent - spaces cur_indent)%nat in
      (match popped with i :: _ => i :: stack | [] => stack end, spaces_diff :: tail dedents, errs)
  | Some _ => (stack, dedents, errs)
  end.
(** The loop: the stack left, the arguments of the dedents (the last first) and
    the errors.  Nothing is below the level that [last_indent] puts on an empty
    stack. *)
Fixpoint dedent_loop (indent : IndentLevel) (stack popped : list IndentLevel) (dedents : list nat)
    : list IndentLevel * list nat * list string :=
  match stack with
  | [] => dedent_stop indent default_level [default_level] popped dedents ["mismatched indent level"]
  | cur_indent :: stack' =>
      match level_cmp indent cur_indent with
      | Some Datatypes.Lt =>
          dedent_loop indent stack' (cur_indent :: popped) (VALID_SPACES_LENGTH :: dedents)
      | _ => dedent_stop indent cur_indent stack popped dedents []
      end
  end.

Definition lex_indent (l : Lexer) : option IndentOrDedents * Lexer :=
  let cxt := indent_cxt l in
  let indent := MkLevel (cxt_tabs cxt) (cxt_spaces cxt) in
  let l := set_context (set_counters 0 0 cxt) l in
  let '(cur_indent, l) := last_indent l in
  let cxt := indent_cxt l in
  let here := span (pos l) (pos l) in
  match level_cmp indent cur_indent with
  | Some Datatypes.Gt =>
      (Some (IndentTok (MkToken (Indent VALID_SPACES_LENGTH) here)),
       set_context (set_indents (indent :: indents cxt) cxt) l)
  | Some Datatypes.Lt =>
      let '(stack, dedents, errs) := dedent_loop indent (indents cxt) [] [] in
      (Some (Dedents ((λ n, MkToken (Dedent n) here) <$> rev dedents)),
       foldr (λ e, struct_span_error e here) (set_context (set_indents stack cxt) l) errs)
  | Some Datatypes.Eq => (None, l)
  | None => (None, struct_span_error inconsistent here l)
  end.

Definition lex_indent_context (token : Lexer.TokenKind) (l : Lexer)
    : option IndentOrDedents * Lexer :=
  let cxt := indent_cxt l in
  if negb (new_line_beginning cxt) then (None, l)
  else match token with
       | Lexer.LineComment _ | Lexer.Newline => (None, set_context (set_counters 0 0 cxt) l)
       | Lexer.Tab => (None, set_context (set_counters (S (cxt_tabs cxt)) (cxt_spaces cxt) cxt) l)
       | Lexer.Space => (None, set_context (set_counters (cxt_tabs cxt) (S (cxt_spaces cxt)) cxt) l)
       | _ => lex_indent (set_context (set_new_line false cxt) l)
       end.

(** ** Literals *)

(** [NumberBinarySuffix::all_names] *)
Definition all_names : list string :=
  ["n"; "u"; "m"; "k"; "K"; "M"; "G"; "T"; "P"; "Ki"; "Mi"; "Gi"; "Ti"; "Pi"; "i"]%string.

(** The first character of [s] that is neither an underscore nor a digit, with
    its offset and its length. *)
Fixpoint invalid_digit (base : Z) (idx : Z) (s : list char) : option (Z * Z) :=
  match s with
  | [] => None
  | c :: s =>
      if negb (c =? ch "_") && negb (bool_decide (is_Some (to_digit base c)))
      then Some (idx, len_utf8 c)
      else invalid_digit base (idx + len_utf8 c) s
  end.

Section Literals.
Variable character : list char → option char.
(** The start of the token and its text. *)
Variables (start : Z) (w : list char).

Definition validate_literal_int (base : Lexer.Base) (content_end : Z) (l : Lexer)
    : Res (bool * Lexer) :=
  let check base :=
    s ← str_from_to w 2 content_end;
    match invalid_digit base 0 s with
    | Some (idx, n) =>
        let lo := start + 2 + idx in
        let hi := start + (2 + idx + n) in
        Ok (false, report (InvalidDigit base lo hi, span lo (pos l), None) l)
    | None => Ok (true, l)
    end in
  match base with
  | Lexer.Binary => check 2
  | Lexer.Octal => check 8
  | Lexer.Hexadecimal => check 16
  | Lexer.Decimal => Ok (true, l)
  end.

Definition validate_literal_float (base : Lexer.Base) (empty_exponent : bool) (l : Lexer)
    : bool * Lexer :=
  let fail msg := (false, struct_span_error msg (span start (pos l)) l) in
  if empty_exponent then fail "expected at least one digit in exponent"%string
  else match base with
       | Lexer.Decimal => (true, l)
       | base => fail (Lexer.describe base ++ " float literal is not supported")%string
       end.

(** The offset of the contents of a string, behind the prefix and the quotes. *)
Definition content_offset (triple_quoted is_raw : bool) : Z :=
  if triple_quoted then (if is_raw then 4 else 3) else if is_raw then 2 else 1.

Definition lex_string (terminated triple_quoted : bool) (suffix_start : Z) (l : Lexer)
    : Res (Lit * Lexer) :=
  start_char ← char_from w 0;
  let is_raw := Lexer.is_raw_prefix start_char in
  quote_char ← (if is_raw then char_from w 1 else Ok start_char);
  let quote_char_pos := if is_raw then start + 1 else start in
  let l := if terminated then l
           else struct_span_error "unterminated string" (span quote_char_pos (pos l)) l in
  let offset := content_offset triple_quoted is_raw in
  let content_start := offset in
  let content_end := suffix_start - offset in
  let content_end := if is_raw then content_end + 1 else content_end in
  let content_end := if terminated then content_end
                     else content_end + (if triple_quoted then 3 else 1) in
  let invalid :=
    struct_span_error "invalid string syntax" (span (start + content_start) (pos l)) l in
  '(value, l) ← (if content_end <? content_start then Ok ([], invalid)
                 else string_content ← str_from_to w content_start content_end;
                      Ok match str_content_eval character string_content quote_char triple_quoted
                                 false is_raw with
                         | Some v => (v, l)
                         | None => ([], invalid)
                         end);
  raw ← str_from_to w 0 suffix_start;
  Ok (MkLit (Str triple_quoted is_raw) value None (Some raw), l).

Definition lex_int (base : Lexer.Base) (empty_int : bool) (suffix_start : Z) (l : Lexer)
    : Res (Lit * Lexer) :=
  if empty_int then
    Ok (MkLit Integer (text "0") None None,
        struct_span_error "no valid digits found for number" (span start (pos l)) l)
  else
    '(valid, l) ← validate_literal_int base suffix_start l;
    symbol ← (if (valid : bool) then str_from_to w 0 suffix_start else Ok (text "0"));
    '(suffix, l) ← (if start + suffix_start <? pos l then
                      suffix_str ← str_from_to w suffix_start (pos l - start);
                      if bool_decide (suffix_str ∈ text <$> all_names)
                      then Ok (Some suffix_str, l)
                      else Ok (None, struct_span_error "invalid int binary suffix"
                                       (span start (pos l)) l)
                    else Ok (None, l));
    Ok (MkLit Integer symbol suffix None, l).

Definition lex_literal (suffix_start : Z) (kind : Lexer.LiteralKind) (l : Lexer)
    : Res (Lit * Lexer) :=
  match kind with
  | Lexer.LStr terminated triple_quoted => lex_string terminated triple_quoted suffix_start l
  | Lexer.LInt base empty_int => lex_int base empty_int suffix_start l
  | Lexer.LFloat base empty_exponent =>
      let '(valid, l) := validate_literal_float base empty_exponent l in
      symbol ← (if (valid : bool) then str_from_to w 0 suffix_start else Ok (text "0"));
      Ok (MkLit Float symbol None None, l)
  | Lexer.LBool _ =>
      symbol ← str_from_to w 0 suffix_start;
      Ok (MkLit Bool symbol None None, l)
  end.
End Literals.

(** ** Tokens *)

(** [TokenStreamBuilder::pop_if_tok_kind] *)
Definition peek_tok_kind (buf : list Token) : TokenKind :=
  match buf with tok :: _ => kind tok | [] => Dummy end.
Definition pop_if_tok_kind (expected : TokenKind) (buf : list Token) : option (list Token) :=
  if bool_decide (peek_tok_kind buf = expected)
  then match buf with _ :: buf => Some buf | [] => None end
  else None.

(** [look_behind] at a [>]: with the minus before it, it is an arrow. *)
Definition look_behind (tok : Lexer.TokenKind) (l : Lexer) (buf : list Token)
    : Res (option TokenKind * Lexer * list Token) :=
  match tok with
  | Lexer.Gt =>
      match pop_if_tok_kind (BinOp Minus) buf with
      | Some buf =>
          if 1 <=? tok_start_pos l
          then Ok (Some RArrow, set_tok_start_pos (tok_start_pos l - 1) l, buf)
          else Panic (PanicMsg "Internal Bugs: Please connect us to fix it, invalid token start pos")
      | None => Ok (None, l, buf)
      end
  | _ => Ok (None, l, buf)
  end.

Definition open_delim (d : DelimToken) (l : Lexer) : TokenKind * Lexer :=
  let cxt := indent_cxt l in
  (OpenDelim d, set_context (set_delims (OpenDelim d :: delims cxt) cxt) l).

(** A closing delimiter closes the innermost open one, whatever it is; [msg] is
    reported when it is another one. *)
Definition close_delim (d : DelimToken) (msg : string) (start : Z) (l : Lexer)
    : Res (TokenKind * Lexer) :=
  let cxt := indent_cxt l in
  let fail := struct_span_error msg (span start (pos l)) in
  match delims cxt with
  | [] => Ok (CloseDelim d, fail l)
  | OpenDelim NoDelim :: _ => Panic (PanicMsg "Impossible!")
  | OpenDelim d' :: ds =>
      let l := set_context (set_delims ds cxt) l in
      Ok (CloseDelim d', if decide (d' = d) then l else fail l)
  | _ :: _ => Panic (PanicMsg "Impossible!")
  end.

(** The operators and structural symbols. *)
Definition plain_token (k : Lexer.TokenKind) : option TokenKind :=
  match k with
  | Lexer.Tilde => Some (UnaryOp UTilde)
  | Lexer.Plus => Some (BinOp Plus) | Lexer.Minus => Some (BinOp Minus)
  | Lexer.Star => Some (BinOp Star) | Lexer.Slash => Some (BinOp Slash)
  | Lexer.Percent => Some (BinOp Percent) | Lexer.StarStar => Some (BinOp StarStar)
  | Lexer.SlashSlash => Some (BinOp SlashSlash) | Lexer.Caret => Some (BinOp Caret)
  | Lexer.And => Some (BinOp And) | Lexer.Or => Some (BinOp Or)
  | Lexer.LtLt => Some (BinOp Shl) | Lexer.GtGt => Some (BinOp Shr)
  | Lexer.PlusEq => Some (BinOpEq Plus) | Lexer.MinusEq => Some (BinOpEq Minus)
  | Lexer.StarEq => Some (BinOpEq Star) | Lexer.SlashEq => Some (BinOpEq Slash)
  | Lexer.PercentEq => Some (BinOpEq Percent) | Lexer.StarStarEq => Some (BinOpEq StarStar)
  | Lexer.SlashSlashEq => Some (BinOpEq SlashSlash) | Lexer.CaretEq => Some (BinOpEq Caret)
  | Lexer.AndEq => Some (BinOpEq And) | Lexer.OrEq => Some (BinOpEq Or)
  | Lexer.LtLtEq => Some (BinOpEq Shl) | Lexer.GtGtEq => Some (BinOpEq Shr)
  | Lexer.EqEq => Some (BinCmp Eq) | Lexer.BangEq => Some (BinCmp NotEq)
  | Lexer.Lt => Some (BinCmp Lt) | Lexer.LtEq => Some (BinCmp LtEq)
  | Lexer.GtEq => Some (BinCmp GtEq)
  | Lexer.At => Some At | Lexer.Dot => Some Dot | Lexer.DotDotDot => Some DotDotDot
  | Lexer.Comma => Some Comma | Lexer.Colon => Some Colon | Lexer.Dollar => Some Dollar
  | Lexer.Question => Some Question | Lexer.Eq => Some Assign
  | _ => None
  end.

Section TokenStream.
Variable character : list char → option char.

(** [lex_token]: [w] is the text of the token, from [start] to [pos]. *)
Definition lex_token (token : Lexer.Token) (start : Z) (w : list char) (l : Lexer)
    (buf : list Token) : Res (option TokenKind * Lexer * list Token) :=
  let here := span start (pos l) in
  let emit k := Ok (Some k, l, buf) in
  let skip l := Ok (None, l, buf) in
  let close d msg := '(k, l) ← close_delim d msg start l; Ok (Some k, l, buf) in
  let opening d := let '(k, l) := open_delim d l in Ok (Some k, l, buf) in
  match Lexer.kind token with
  | Lexer.LineComment _ => emit (DocComment (Line w))
  | Lexer.Newline => Ok (Some Newline, set_context (set_new_line true (indent_cxt l)) l, buf)
  | Lexer.Tab | Lexer.Space | Lexer.CarriageReturn | Lexer.Whitespace => skip l
  | Lexer.Ident => emit (Ident w)
  | Lexer.Literal kind suffix_start =>
      '(lit, l) ← lex_literal character start w suffix_start kind l;
      Ok (Some (Literal lit), l, buf)
  | Lexer.Bang => Ok (Some (UnaryOp UNot), report (InvalidTokenNot, here, Some ["not "%string]) l, buf)
  | Lexer.Gt =>
      '(k, l, buf) ← look_behind (Lexer.kind token) l buf;
      Ok (Some match k with Some k => k | None => BinCmp Gt end, l, buf)
  | Lexer.OpenParen => opening Paren
  | Lexer.CloseParen => close Paren "error nesting on close paren"%string
  | Lexer.OpenBrace => opening Brace
  | Lexer.CloseBrace => close Brace "error nesting on close brace"%string
  | Lexer.OpenBracket => opening Bracket
  | Lexer.CloseBracket => close Bracket "mismatched closing delimiter"%string
  | Lexer.LineContinue => skip l
  | Lexer.InvalidLineContinue => skip (report (CharAfterLineContinuationToken, here, None) l)
  | Lexer.Semi => skip (report (RedundantSemicolon, here, Some [""%string]) l)
  | k => match plain_token k with
         | Some k => emit k
         | None => skip (struct_span_error "unknown start of token" here l)
         end
  end.

(** The Unicode tables. *)
Variables is_id_start is_id_continue is_emoji : char → bool.

(** One turn of the loop of [token], on a text that is not empty. *)
Definition lex_step (l : Lexer) (buf : list Token)
    : Res (option TokenWithIndents * Lexer * list Token) :=
  let '(token, rest') := Lexer.token is_id_start is_id_continue is_emoji (rest l) in
  let w := take (length (rest l) - length rest') (rest l) in
  let '(indent, l) := lex_indent_context (Lexer.kind token) l in
  let start := pos l in
  let l := MkLexer (pos l + Lexer.len token) start rest' (indent_cxt l) (diagnostics l) in
  '(kind, l, buf) ← lex_token token start w l buf;
  Ok (match kind with
      | Some kind =>
          let t := MkToken kind (span (tok_start_pos l) (pos l)) in
          Some match indent with Some iord => WithIndent t iord | None => TokenOnly t end
      | None => None
      end, l, buf).

(** [token] and [into_tokens].  Each turn takes a character: their number is
    fuel enough. *)
Fixpoint next_token (fuel : nat) (l : Lexer) (buf : list Token)
    : Res (TokenWithIndents * Lexer * list Token) :=
  let eof := Ok (TokenOnly (MkToken Eof (span (pos l) (pos l))), l, buf) in
  match fuel with
  | O => eof
  | S fuel =>
      if Lexer.is_eof (rest l) then eof
      else '(t, l, buf) ← lex_step l buf;
           match t with Some t => Ok (t, l, buf) | None => next_token fuel l buf end
  end.

Fixpoint append_tokens (fuel : nat) (l : Lexer) (buf : list Token) : Res (Lexer * list Token) :=
  match fuel with
  | O => Ok (l, buf)
  | S fuel =>
      '(t, l, buf) ← next_token (S fuel) l buf;
      if is_eof t then Ok (l, buf) else append_tokens fuel l (append_to t buf)
  end.

(** The end of the stream: a last newline, the dedents of the levels that are
    still open, and [Eof]. *)
Fixpoint close_levels (n : nat) (here : Span) (levels : list IndentLevel) (buf : list Token)
    : list IndentLevel * list Token :=
  match n, levels with
  | S n, _ :: levels => close_levels n here levels (MkToken (Dedent VALID_SPACES_LENGTH) here :: buf)
  | _, _ => (levels, buf)
  end.
Definition eof (l : Lexer) (buf : list Token) : Lexer * list Token :=
  let here := span (pos l) (pos l) in
  let cxt := indent_cxt l in
  let '(l, buf) := if new_line_beginning cxt then (l, buf)
                   else (set_context (set_new_line true cxt) l, MkToken Newline here :: buf) in
  let cxt := indent_cxt l in
  let '(levels, buf) := close_levels (length (indents cxt) - 1) here (indents cxt) buf in
  (set_context (set_indents levels cxt) l, MkToken Eof here :: buf).

Definition into_tokens (l : Lexer) : Res (TokenStream * list Diagnostic) :=
  '(l, buf) ← append_tokens (S (length (rest l))) l [];
  let '(l, buf) := eof l buf in
  Ok (rev buf, rev (diagnostics l)).

Definition init (src : list char) (start_pos : Z) : Lexer :=
  MkLexer start_pos start_pos src (MkContext false [] 0 0 [default_level]) [].
(** The stream and what went to the session. *)
Definition parse_token_streams (src : list char) (start_pos : Z)
    : Res (TokenStream * list Diagnostic) := into_tokens (init src start_pos).
End TokenStream.

(** ** Slices of a text that is put together *)

Lemma len_utf8_ascii c : Lexer.is_ascii c = true → len_utf8 c = 1.
Proof. unfold Lexer.is_ascii, Lexer.len_utf8. by intros ->. Qed.

Lemma skip_bytes_0 l : skip_bytes 0 l = Ok l.
Proof. by destruct l. Qed.
Lemma take_bytes_0 l : take_bytes 0 l = Ok [].
Proof. by destruct l. Qed.

Lemma skip_bytes_app u v : skip_bytes (text_len u) (u ++ v) = Ok v.
Proof.
  induction u as [|c u IH]; [apply skip_bytes_0|].
  cbn [app Lexer.text_len skip_bytes]. pose proof (Lexer.len_utf8_pos c).
  pose proof (Lexer.text_len_nonneg u).
  destruct (Z.eqb_spec (len_utf8 c + text_len u) 0) as [|_]; [lia|].
  rewrite (proj2 (Z.leb_le _ _)) by lia.
  by replace (len_utf8 c + text_len u - len_utf8 c) with (text_len u) by lia.
Qed.
Lemma take_bytes_app u v : take_bytes (text_len u) (u ++ v) = Ok u.
Proof.
  induction u as [|c u IH]; [apply take_bytes_0|].
  cbn [app Lexer.text_len take_bytes]. pose proof (Lexer.len_utf8_pos c).
  pose proof (Lexer.text_len_nonneg u).
  destruct (Z.eqb_spec (len_utf8 c + text_len u) 0) as [|_]; [lia|].
  rewrite (proj2 (Z.leb_le _ _)) by lia.
  replace (len_utf8 c + text_len u - len_utf8 c) with (text_len u) by lia. by rewrite IH.
Qed.

Lemma str_from_to_mid u v w start stop :
  start = text_len u → stop = text_len u + text_len v →
  str_from_to (u ++ v ++ w) start stop = Ok v.
Proof.
  intros -> ->. unfold str_from_to. pose proof (Lexer.text_len_nonneg v).
  rewrite (proj2 (Z.ltb_ge _ _)) by lia. rewrite skip_bytes_app. cbn [mbind Res_bind].
  replace (text_len u + text_len v - text_len u) with (text_len v) by lia.
  apply take_bytes_app.
Qed.
Lemma str_from_to_prefix v w stop : stop = text_len v → str_from_to (v ++ w) 0 stop = Ok v.
Proof. intros ->. by apply (str_from_to_mid []). Qed.
Lemma str_from_to_suffix u v start stop :
  start = text_len u → stop = text_len u + text_len v → str_from_to (u ++ v) start stop = Ok v.
Proof. intros. rewrite <- (app_nil_r v) at 1. by apply str_from_to_mid. Qed.

(** The bytes of ASCII characters are these. *)
Lemma char_from_0 c w : Lexer.is_ascii c = true → char_from (c :: w) 0 = Ok c.
Proof.
  unfold Lexer.is_ascii, char_from, Prelude.index. intros H. cbn. unfold utf8 at 1. by rewrite H.
Qed.
Lemma char_from_1 b c w :
  Lexer.is_ascii b = true → Lexer.is_ascii c = true → char_from (b :: c :: w) 1 = Ok c.
Proof.
  unfold Lexer.is_ascii, char_from, Prelude.index. intros Hb Hc. cbn. unfold utf8 at 1 2.
  by rewrite Hb, Hc.
Qed.

Lemma quote_ascii q : Lexer.is_quote q = true → Lexer.is_ascii q = true.
Proof. unfold Lexer.is_quote, Lexer.is_ascii. Lexer.chars_eval. lia. Qed.
Lemma raw_prefix_ascii q : Lexer.is_raw_prefix q = true → Lexer.is_ascii q = true.
Proof. unfold Lexer.is_raw_prefix, Lexer.is_ascii. Lexer.chars_eval. lia. Qed.
Lemma quote_no_prefix q : Lexer.is_quote q = true → Lexer.is_raw_prefix q = false.
Proof. unfold Lexer.is_raw_prefix, Lexer.is_quote. Lexer.chars_eval. lia. Qed.

(** ** Literals never panic, and only add diagnostics *)

(** [l'] is [l] with more diagnostics. *)
Definition extends (l l' : Lexer) : Prop :=
  pos l' = pos l ∧ tok_start_pos l' = tok_start_pos l ∧ rest l' = rest l ∧
  indent_cxt l' = indent_cxt l ∧ diagnostics l `suffix_of` diagnostics l'.

Lemma extends_refl l : extends l l.
Proof. by repeat split. Qed.
Lemma extends_report d l l' : extends l l' → extends l (report d l').
Proof. intros (? & ? & ? & ? & ?). repeat split; try done. by apply suffix_cons_r. Qed.
Create HintDb extends.
#[export] Hint Resolve extends_refl extends_report : extends.
#[export] Hint Extern 2 (extends _ (struct_span_error _ _ _)) => apply extends_report : extends.

Lemma text_len_closing q tr :
  Lexer.is_quote q = true → text_len (Lexer.closing q tr) = if tr then 3 else 1.
Proof.
  intros H%quote_ascii%len_utf8_ascii. destruct tr; cbn [Lexer.closing Lexer.text_len]; rewrite !H; lia.
Qed.

Section LiteralFacts.
Variable character : list char → option char.

(** The contents of a string literal are evaluated, and nothing else of it. *)
Lemma lex_string_spec start (p : list char) (q : char) (body : list char) (t tr : bool) l :
  let raw := negb (bool_decide (p = [])) in
  let w := p ++ Lexer.closing q tr ++ body ++ (if t then Lexer.closing q tr else []) in
  p = [] ∨ (∃ r, Lexer.is_raw_prefix r = true ∧ p = [r]) → Lexer.is_quote q = true →
  (t = false → tr = false) →
  ∃ l', extends l l' ∧
    (t = true → is_Some (str_content_eval character body q tr false raw) → l' = l) ∧
    lex_string character start w t tr (text_len w) l =
      Ok (MkLit (Str tr raw) (default [] (str_content_eval character body q tr false raw))
            None (Some w), l').
Proof using.
  intros raw w Hp Hq Ht.
  assert (∃ w', w = p ++ q :: w') as [w' Hw].
  { exists ((if tr then [q; q] else []) ++ body ++ (if t then Lexer.closing q tr else [])).
    subst w. by destruct tr. }
  assert (char_from w 0 = Ok (if raw then List.hd q p else q) ∧
    Lexer.is_raw_prefix (if raw then List.hd q p else q) = raw ∧
    (if raw then char_from w 1 else Ok (if raw then List.hd q p else q)) = Ok q ∧
    text_len p = if raw then 1 else 0) as (E0 & E1 & E2 & E3).
  { rewrite Hw. subst raw. destruct Hp as [->|(r & Hr & ->)]; cbn [bool_decide negb app List.hd].
    - rewrite bool_decide_true by done. cbn. rewrite char_from_0 by by apply quote_ascii.
      by rewrite quote_no_prefix.
    - rewrite bool_decide_false by done. cbn [negb].
      rewrite char_from_0, char_from_1 by auto using quote_ascii, raw_prefix_ascii.
      rewrite Hr. cbn [Lexer.text_len]. by rewrite len_utf8_ascii by by apply raw_prefix_ascii. }
  unfold lex_string. rewrite E0. cbn [mbind Res_bind]. rewrite E1, E2. cbv beta zeta.
  cbn [mbind Res_bind].
  pose proof (Lexer.text_len_nonneg body). pose proof (text_len_closing q tr Hq) as Hc.
  match goal with |- context [if t then l else ?e] => set (lq := if t then l else e) end.
  assert (extends l lq) as Hl. { subst lq. destruct t; auto with extends. }
  match goal with |- context [?e <? content_offset tr raw] => set (content_end := e) end.
  assert (content_offset tr raw = text_len (p ++ Lexer.closing q tr) ∧
    content_end = text_len (p ++ Lexer.closing q tr) + text_len body) as [Ho He].
  { subst content_end w. unfold content_offset. rewrite !Lexer.text_len_app, Hc, E3.
    destruct t; [rewrite Hc; destruct raw, tr; lia|]. rewrite (Ht eq_refl). cbn [Lexer.text_len].
    destruct raw; lia. }
  rewrite (proj2 (Z.ltb_ge _ _)) by lia.
  assert (str_from_to w (content_offset tr raw) content_end = Ok body) as ->.
  { subst w. rewrite app_assoc. by apply str_from_to_mid. }
  cbn [mbind Res_bind].
  assert (str_from_to w 0 (text_len w) = Ok w) as Hww.
  { rewrite <- (app_nil_r w) at 1. by apply str_from_to_prefix. }
  destruct (str_content_eval character body q tr false raw) as [v|]; cbn [default];
    rewrite Hww; cbn [mbind Res_bind]; eexists; (split; [|split; [|done]]); auto with extends.
  - subst lq. by intros ->.
  - by intros _ [].
Qed.

Lemma lex_int_ok start base empty digits suf l :
  (empty = false → base ≠ Lexer.Decimal →
     ∃ p digits', Lexer.is_ascii p = true ∧ digits = ch "0" :: p :: digits') →
  pos l = (start + text_len (digits ++ suf))%Z →
  ∃ lit l', lex_int start (digits ++ suf) base empty (text_len digits) l = Ok (lit, l') ∧
    extends l l' ∧ raw lit = None.
Proof using.
  intros Hd Hpos. unfold lex_int. destruct empty; [by eauto 10 with extends|].
  assert (∃ b l', validate_literal_int start (digits ++ suf) base (text_len digits) l = Ok (b, l') ∧
    extends l l') as (b & l' & -> & Hl).
  { unfold validate_literal_int.
    destruct base; [..|by eauto with extends];
      destruct Hd as (p & d & Hp & ->); try done;
      (assert (str_from_to ((ch "0" :: p :: d) ++ suf) 2 (text_len (ch "0" :: p :: d)) = Ok d) as ->;
       [apply (str_from_to_mid [ch "0"; p]); cbn [Lexer.text_len]; rewrite (len_utf8_ascii p Hp), (len_utf8_ascii (ch "0") eq_refl); lia|]);
      cbn [mbind Res_bind]; destruct (invalid_digit _ _ _) as [[]|]; eauto with extends. }
  cbn [mbind Res_bind].
  assert (∃ sym, (if b then str_from_to (digits ++ suf) 0 (text_len digits) else Ok (text "0")) = Ok sym)
    as [sym ->].
  { destruct b; [|by eauto]. rewrite str_from_to_prefix by done. eauto. }
  cbn [mbind Res_bind]. destruct Hl as (Hpos' & Hl). rewrite Hpos'.
  assert (str_from_to (digits ++ suf) (text_len digits) (pos l - start) = Ok suf) as ->.
  { apply str_from_to_suffix; [done|]. rewrite Hpos, Lexer.text_len_app. lia. }
  repeat (case_match; cbn [mbind Res_bind] in *; simplify_eq); eexists _, _; split; try done;
    split; try done; try apply extends_report; by split.
Qed.

(** The literal tokens of the scanner are lexed without a panic. *)
Lemma lex_literal_ok start w k s l :
  Lexer.literal_text k s w → pos l = start + text_len w →
  ∃ lit l', lex_literal character start w s k l = Ok (lit, l') ∧ extends l l' ∧
    (raw lit = None ∨ raw lit = Some w).
Proof using.
  intros [w' t tr [p q body t' tr' Hp Hq Ht]|base e digits suf Hd|base e digits suf] Hpos;
    cbn [lex_literal].
  - edestruct lex_string_spec as (l' & Hl & _ & E); [done..|]. rewrite E. eauto 10.
  - edestruct lex_int_ok as (lit & l' & -> & ? & ?); eauto 10.
  - unfold validate_literal_float.
    assert (str_from_to (digits ++ suf) 0 (text_len digits) = Ok digits) as E
      by by apply str_from_to_prefix.
    destruct e; [by eauto 10 with extends|].
    destruct base; cbn [mbind Res_bind]; rewrite ?E; eauto 10 with extends.
Qed.
End LiteralFacts.
