(* ===== verification/TokenProps.v ===== *)
(** * Properties of the token stream

    What the lexer of the parser ([TokenStream]) promises for any source: that
    it comes to the end without a panic, where the spans of its tokens lie, that
    its delimiters nest and its indents balance, and that string literals are
    read back.  A turn of the lexer's loop is a step relation; each promise is
    an invariant of its steps. *)

From stdpp Require Import base tactics list numbers strings.
From Stdlib Require Import ZArith Ascii Lia.
From S2P Require Import Prelude Token.
From S2P Require Lexer.
From S2P Require Import TokenStream.
Local Open Scope Z_scope.

(** ** The delimiters and the spans of a stream *)

(** The delimiters open behind the tokens, the innermost first; a closing one
    has to be that of the innermost.  Without an open one it is let pass, unless
    [strict]. *)
Definition nest (strict : bool) (t : Token) (s : list DelimToken) : option (list DelimToken) :=
  match kind t with
  | OpenDelim d => Some (d :: s)
  | CloseDelim d =>
      match s with
      | [] => if strict then None else Some []
      | d' :: s => if decide (d = d') then Some s else None
      end
  | _ => Some s
  end.
Fixpoint nesting (strict : bool) (s : list DelimToken) (ts : list Token)
    : option (list DelimToken) :=
  match ts with [] => Some s | t :: ts => s ← nest strict t s; nesting strict s ts end.

Lemma nesting_app strict s ts ts' :
  nesting strict s (ts ++ ts') = s ← nesting strict s ts; nesting strict s ts'.
Proof.
  revert s. induction ts as [|t ts IH]; intros s; cbn; [done|]. destruct (nest strict t s); cbn; auto.
Qed.

(** The spans lie in order between [lo] and [hi]. *)
Fixpoint spans_within (lo hi : Z) (ts : list Token) : Prop :=
  match ts with
  | [] => lo ≤ hi
  | t :: ts => lo ≤ (tok_span t).1 ≤ (tok_span t).2 ∧ spans_within (tok_span t).2 hi ts
  end.

Lemma spans_within_app lo hi ts ts' :
  spans_within lo hi (ts ++ ts') ↔ ∃ mid, spans_within lo mid ts ∧ spans_within mid hi ts'.
Proof.
  revert lo. induction ts as [|t ts IH]; intros lo; cbn [app spans_within].
  - split; [intros H; exists lo; by split|]. intros (mid & Hm & H). destruct ts' as [|t ts'].
    + cbn in *. lia.
    + destruct H as [? H]. split; [lia|done].
  - rewrite IH. split; [intros [? (m & ? & ?)]; by exists m|intros (m & [? ?] & ?)].
    split; [done|by exists m].
Qed.
Lemma spans_within_weaken lo hi hi' ts : spans_within lo hi ts → hi ≤ hi' → spans_within lo hi' ts.
Proof. revert lo. induction ts as [|t ts IH]; cbn; intros lo H ?; [lia|]. destruct H. auto. Qed.
Lemma spans_within_le lo hi ts : spans_within lo hi ts → lo ≤ hi.
Proof. revert lo. induction ts as [|t ts IH]; cbn; intros lo; [done|]. intros [? ?%IH]. lia. Qed.

(** The text at the span of a name, a comment or a string is the token's. *)
Definition token_text (k : TokenKind) : option Symbol :=
  match k with
  | Ident s | DocComment (Line s) => Some s
  | Literal l => raw l
  | _ => None
  end.

(** Tokens that neither open nor close anything. *)
Definition neutral (k : TokenKind) : bool :=
  match k with
  | OpenDelim _ | CloseDelim _ | Indent _ | Dedent _ | Eof | RArrow => false | _ => true
  end.

(** ** What one token does to the state *)

Definition is_newline (k : Lexer.TokenKind) : bool :=
  match k with Lexer.Newline => true | _ => false end.

Definition delim_stack (s : list DelimToken) (l : Lexer) : Prop :=
  delims (indent_cxt l) = OpenDelim <$> s ∧ NoDelim ∉ s.

(** Whether [lex_token] makes a token of a raw one. *)
Definition emits (k : Lexer.TokenKind) : bool :=
  match k with
  | Lexer.LineComment _ | Lexer.Newline | Lexer.Ident | Lexer.Literal _ _ | Lexer.Bang | Lexer.Gt
  | Lexer.OpenParen | Lexer.CloseParen | Lexer.OpenBrace | Lexer.CloseBrace
  | Lexer.OpenBracket | Lexer.CloseBracket => true
  | k => bool_decide (is_Some (plain_token k))
  end.

(** The state but for the delimiters, the newline flag and the diagnostics. *)
Definition framed (l l' : Lexer) : Prop :=
  pos l' = pos l ∧ rest l' = rest l ∧
  cxt_tabs (indent_cxt l') = cxt_tabs (indent_cxt l) ∧
  cxt_spaces (indent_cxt l') = cxt_spaces (indent_cxt l) ∧
  indents (indent_cxt l') = indents (indent_cxt l) ∧
  diagnostics l `suffix_of` diagnostics l'.

Inductive token_outcome (raw_kind : Lexer.TokenKind) (w : list char) (s : list DelimToken)
    (l : Lexer) (buf : list Token) : option TokenKind → Lexer → list Token → list DelimToken → Prop :=
  | out_neutral k l' :
      framed l l' → delims (indent_cxt l') = delims (indent_cxt l) →
      tok_start_pos l' = tok_start_pos l →
      from_option neutral true k = true →
      (∀ k' s', k = Some k' → token_text k' = Some s' → s' = w) →
      (k = Some Newline ↔ is_newline raw_kind = true) →
      new_line_beginning (indent_cxt l') =
        is_newline raw_kind || new_line_beginning (indent_cxt l) →
      (emits raw_kind = true → k ≠ None) → (k = Some (BinOp Minus) → raw_kind = Lexer.Minus) →
      token_outcome raw_kind w s l buf k l' buf s
  | out_open d :
      d ≠ NoDelim → is_newline raw_kind = false →
      token_outcome raw_kind w s l buf (Some (OpenDelim d)) (open_delim d l).2 buf (d :: s)
  | out_close d l' s' :
      framed l l' → delim_stack s' l' → is_newline raw_kind = false →
      tok_start_pos l' = tok_start_pos l →
      new_line_beginning (indent_cxt l') = new_line_beginning (indent_cxt l) →
      (s = d :: s' ∨ s = [] ∧ s' = [] ∧ diagnostics l' ≠ []) →
      token_outcome raw_kind w s l buf (Some (CloseDelim d)) l' buf s'
  | out_arrow m buf' :
      buf = m :: buf' → kind m = BinOp Minus → raw_kind = Lexer.Gt →
      token_outcome raw_kind w s l buf (Some RArrow) (set_tok_start_pos (tok_start_pos l - 1) l) buf' s.

Lemma framed_refl l : framed l l.
Proof. by repeat split. Qed.
Lemma extends_framed l l' : extends l l' → framed l l'.
Proof. intros (Hp & Ht & Hr & Hc & Hd). unfold framed. by rewrite Hp, Hr, Hc. Qed.

Lemma close_delim_outcome raw_kind w d msg start s l buf :
  delim_stack s l → is_newline raw_kind = false →
  ∃ k l' s', close_delim d msg start l = Ok (k, l') ∧ token_outcome raw_kind w s l buf (Some k) l' buf s'.
Proof.
  intros [Hs Hno] Hraw. unfold close_delim. rewrite Hs. destruct s as [|d' s]; cbn [fmap list_fmap].
  - eexists _, _, []. split; [done|].
    apply out_close; [|by split; [|apply not_elem_of_nil]|done..|by right].
    repeat split; try done. by apply suffix_cons_r.
  - apply not_elem_of_cons in Hno as [Hd' Hno].
    exists (CloseDelim d'), (let l' := set_context (set_delims (OpenDelim <$> s) (indent_cxt l)) l in
      if decide (d' = d) then l' else struct_span_error msg (span start (pos l)) l'), s.
    split; [by destruct d'|].
    apply out_close; [|split; [by case_decide|done]|done|by case_decide|by case_decide|by left].
    case_decide; repeat split; try done. by apply suffix_cons_r.
Qed.

Section Outcome.
Variable character : list char → option char.

Lemma lex_token_outcome token w l buf s :
  delim_stack s l → 1 ≤ tok_start_pos l ∨ peek_tok_kind buf ≠ BinOp Minus →
  pos l = tok_start_pos l + text_len w →
  (∀ k n, Lexer.kind token = Lexer.Literal k n → Lexer.literal_text k n w) →
  ∃ k l' buf' s', lex_token character token (tok_start_pos l) w l buf = Ok (k, l', buf') ∧
    token_outcome (Lexer.kind token) w s l buf k l' buf' s'.
Proof using.
  intros Hs Hstart Hpos Hlit. unfold lex_token.
  destruct (Lexer.kind token) eqn:Hk; cbn [plain_token mbind Res_bind];
    try (eexists _, _, _, s; split; [reflexivity|]; apply out_neutral;
         [by repeat split; try done; apply suffix_cons_r|reflexivity|reflexivity|reflexivity
         |intros k' s' [= <-]; cbn; congruence|by split|reflexivity|done|done]);
    try (by eexists _, _, _, _; split; [done|]; apply out_open);
    try (edestruct (close_delim_outcome (Lexer.kind token) w) as (k & l' & s' & -> & Ho);
         [done|by rewrite Hk|]; rewrite Hk in Ho; cbn [mbind Res_bind]; by eauto 10).
  - destruct (lex_literal_ok character (tok_start_pos l) w kind suffix_start l)
      as (lit & l' & E & Hl & Hraw); [by apply Hlit|done|].
    rewrite E. cbn [mbind Res_bind]. eexists _, _, _, s. split; [reflexivity|].
    destruct (Hl) as (? & ? & ? & Hc & ?).
    apply out_neutral; [by apply extends_framed|by rewrite Hc|done|done| |by split|by rewrite Hc|done..].
    intros k' s' [= <-]. cbn. intros. destruct Hraw; congruence.
  - unfold look_behind, pop_if_tok_kind. case_bool_decide as Hm.
    + destruct buf as [|m buf]; [discriminate Hm|]. destruct Hstart as [Hstart|]; [|done].
      rewrite (proj2 (Z.leb_le _ _) Hstart). cbn [mbind Res_bind].
      eexists _, _, _, _. split; [reflexivity|]. by eapply out_arrow.
    + cbn [mbind Res_bind]. eexists _, _, _, s. split; [reflexivity|].
      apply out_neutral; try done. by intros ? ? [= <-].
Qed.
End Outcome.

(** ** The indentation stack *)

(** Each level is above the next, down to the default level. *)
Fixpoint levels_ok (ls : list IndentLevel) : Prop :=
  match ls with
  | [] => False
  | top :: ls =>
      match ls with
      | [] => top = default_level
      | next :: _ => level_cmp top next = Some Datatypes.Gt ∧ levels_ok ls
      end
  end.

Lemma level_cmp_default l : level_cmp l default_level ≠ Some Datatypes.Lt.
Proof.
  unfold level_cmp, default_level. cbn. destruct (tabs l), (spaces l); cbn; done.
Qed.

(** The levels popped so far could be put back. *)
Lemma dedent_loop_levels indent stack popped dedents st ds errs :
  match popped with i :: _ => levels_ok (i :: stack) | [] => levels_ok stack end → stack ≠ [] →
  dedent_loop indent stack popped dedents = (st, ds, errs) → levels_ok st.
Proof.
  revert popped dedents. induction stack as [|cur stack IH]; intros popped dedents Hok Hne; [done|].
  assert (levels_ok (cur :: stack)) as Hcur by (destruct popped; [done|apply Hok]).
  cbn [dedent_loop]. unfold dedent_stop.
  destruct (level_cmp indent cur) as [[]|] eqn:Hcmp; intros E; simplify_eq; try done.
  - destruct stack as [|next stack]; [|by eapply (IH (cur :: popped)), E].
    cbn in Hcur. subst. by destruct (level_cmp_default indent).
  - by destruct popped.
Qed.

(** The layout tokens at a position. *)
Definition layout_token (p : Z) (t : Token) : Prop :=
  (∃ n, kind t = Indent n ∨ kind t = Dedent n) ∧ tok_span t = (p, p).
Definition layout_tokens (i : option IndentOrDedents) : list Token :=
  match i with Some (IndentTok t) => [t] | Some (Dedents ts) => ts | None => [] end.

(** The state but for the indentation. *)
Definition indent_framed (l l' : Lexer) : Prop :=
  pos l' = pos l ∧ tok_start_pos l' = tok_start_pos l ∧ rest l' = rest l ∧
  delims (indent_cxt l') = delims (indent_cxt l) ∧ diagnostics l `suffix_of` diagnostics l'.

Lemma struct_span_errors_framed errs sp l l' :
  indent_framed l l' → indent_framed l (foldr (λ e, struct_span_error e sp) l' errs).
Proof.
  intros H. induction errs as [|e errs (? & ? & ? & ? & ?)]; cbn; [done|].
  repeat split; try done. by apply suffix_cons_r.
Qed.
Lemma struct_span_errors_cxt errs sp l :
  indent_cxt (foldr (λ e, struct_span_error e sp) l errs) = indent_cxt l.
Proof. by induction errs. Qed.

Lemma lex_indent_spec l i l' :
  levels_ok (indents (indent_cxt l)) → lex_indent l = (i, l') →
  levels_ok (indents (indent_cxt l')) ∧ indent_framed l l' ∧
  Forall (layout_token (pos l)) (layout_tokens i).
Proof.
  intros Hok. unfold lex_indent, last_indent. cbn [indent_cxt set_context set_counters indents].
  destruct (indents (indent_cxt l)) as [|top stack] eqn:Hst; [done|].
  cbn [indent_cxt set_context set_counters indents pos]. rewrite ?Hst, span_ordered by done.
  destruct (level_cmp _ top) as [[]|] eqn:Hcmp.
  - intros [= <- <-]. cbn. by rewrite ?Hst.
  - destruct (dedent_loop _ (top :: stack) [] []) as [[st ds] errs] eqn:E. intros [= <- <-].
    apply dedent_loop_levels in E; [|done..]. rewrite struct_span_errors_cxt.
    split; [done|]. split; [by apply struct_span_errors_framed|]. cbn.
    apply Forall_fmap, Forall_forall. intros n _. split; [by eauto|done].
  - intros [= <- <-]. split; [done|]. split; [done|]. repeat constructor. by eauto.
  - intros [= <- <-]. cbn. rewrite ?Hst. split; [done|]. split; [|done].
    repeat split; try done. by apply suffix_cons_r.
Qed.

Lemma lex_indent_context_spec k l i l' :
  levels_ok (indents (indent_cxt l)) → lex_indent_context k l = (i, l') →
  levels_ok (indents (indent_cxt l')) ∧ indent_framed l l' ∧
  Forall (layout_token (pos l)) (layout_tokens i).
Proof.
  intros Hok. unfold lex_indent_context. destruct (negb _); [by intros [= <- <-]|].
  destruct k; intros E; try (by simplify_eq); by apply lex_indent_spec in E.
Qed.

(** ** One turn of the loop *)

Definition with_indent (tok : Token) (i : option IndentOrDedents) : TokenWithIndents :=
  match i with Some iord => WithIndent tok iord | None => TokenOnly tok end.
Lemma append_with_indent tok i buf :
  append_to (with_indent tok i) buf = tok :: rev (layout_tokens i) ++ buf.
Proof. by destruct i as [[]|]. Qed.
(** The buffer after a turn. *)
Definition emitted (t : option TokenWithIndents) (buf : list Token) : list Token :=
  match t with Some t => append_to t buf | None => buf end.

(** The newline flag is left on only by what does not end the indentation. *)
Lemma lex_indent_flag l : new_line_beginning (indent_cxt (lex_indent l).2) = new_line_beginning (indent_cxt l).
Proof.
  unfold lex_indent, last_indent.
  repeat (case_match; simplify_eq/=; try done); by rewrite struct_span_errors_cxt.
Qed.
Lemma lex_indent_context_flag k l :
  let l' := (lex_indent_context k l).2 in
  (new_line_beginning (indent_cxt l) = false → lex_indent_context k l = (None, l)) ∧
  (new_line_beginning (indent_cxt l') = true →
     new_line_beginning (indent_cxt l) = true ∧
     match k with Lexer.LineComment _ | Lexer.Newline | Lexer.Tab | Lexer.Space => True | _ => False end).
Proof.
  unfold lex_indent_context. split; [by intros ->|].
  destruct (new_line_beginning (indent_cxt l)) eqn:E; cbn; [|by rewrite E].
  destruct k; cbn; try done; by rewrite lex_indent_flag.
Qed.

Section Stream.
Variable character : list char → option char.
Variables is_id_start is_id_continue is_emoji : char → bool.
Abbreviation raw_token := (Lexer.token is_id_start is_id_continue is_emoji).
Abbreviation raw_tokens := (Lexer.tokenize is_id_start is_id_continue is_emoji).

Inductive step (l : Lexer) (buf : list Token) : option TokenWithIndents → Lexer → list Token → Prop :=
  | step_intro raw w rest' i l1 k l' buf' s s' :
      rest l = w ++ rest' → w ≠ [] → raw_token (rest l) = (raw, rest') →
      lex_indent_context (Lexer.kind raw) l = (i, l1) →
      delim_stack s l →
      token_outcome (Lexer.kind raw) w s
        (MkLexer (pos l + text_len w) (pos l) rest' (indent_cxt l1) (diagnostics l1))
        buf k l' buf' s' →
      step l buf
        ((λ k, with_indent (MkToken k (span (tok_start_pos l') (pos l'))) i) <$> k) l' buf'.

Lemma lex_step_step l buf s :
  rest l ≠ [] → levels_ok (indents (indent_cxt l)) → delim_stack s l →
  1 ≤ pos l ∨ peek_tok_kind buf ≠ BinOp Minus →
  ∃ t l' buf', lex_step character is_id_start is_id_continue is_emoji l buf = Ok (t, l', buf') ∧
    step l buf t l' buf'.
Proof using.
  intros Hr Hok Hs Hpos. unfold lex_step.
  destruct (rest l) as [|c cs] eqn:Hrest; [done|].
  destruct (Lexer.token_takes is_id_start is_id_continue is_emoji c cs) as (w & Hw & Htext & Hlen).
  pose proof (Lexer.literal_shape is_id_start is_id_continue is_emoji c cs) as Hlit.
  destruct (raw_token (c :: cs)) as [raw rest'] eqn:Hraw. cbn [fst snd] in *.
  rewrite Htext, length_app, Nat.add_sub, take_app_length.
  destruct (lex_indent_context _ l) as [i l1] eqn:Hi.
  destruct (lex_indent_context_spec _ _ _ _ Hok Hi) as (Hok1 & (Hp1 & _ & _ & Hd1 & _) & _).
  rewrite Hp1, Hlen.
  destruct (lex_token_outcome character raw w
    (MkLexer (pos l + text_len w) (pos l) rest' (indent_cxt l1) (diagnostics l1)) buf s)
    as (k & l' & buf' & s' & E & Ho); [|done|done| |].
  { split; [|by apply Hs]. cbn. rewrite Hd1. apply Hs. }
  { intros k n Hk. destruct (Hlit k n Hk) as (w' & Hw' & _ & Ht).
    rewrite Htext in Hw' at 1. by apply app_inv_tail in Hw' as ->. }
  cbn [tok_start_pos] in E. rewrite E. cbn [mbind Res_bind].
  eexists _, _, _. split; [reflexivity|].
  assert (∀ o : option TokenKind, match o with
     | Some kind => Some match i with
         | Some iord => WithIndent (MkToken kind (span (tok_start_pos l') (pos l'))) iord
         | None => TokenOnly (MkToken kind (span (tok_start_pos l') (pos l'))) end
     | None => None end =
     (λ k, with_indent (MkToken k (span (tok_start_pos l') (pos l'))) i) <$> o) as -> by by intros [].
  apply (step_intro l buf raw w rest' i l1 k l' buf' s s'); rewrite ?Hrest; try done.
Qed.

(** Where the state is after a turn. *)
Lemma token_outcome_frame raw_kind w s l buf k l' buf' s' :
  token_outcome raw_kind w s l buf k l' buf' s' →
  pos l' = pos l ∧ rest l' = rest l ∧ indents (indent_cxt l') = indents (indent_cxt l) ∧
  cxt_tabs (indent_cxt l') = cxt_tabs (indent_cxt l) ∧ diagnostics l `suffix_of` diagnostics l'.
Proof using. intros [? ? (?&?&?&?&?&?)|d ? ?|? ? ? (?&?&?&?&?&?)|]; by subst. Qed.

Lemma step_frame l buf t l' buf' :
  levels_ok (indents (indent_cxt l)) → step l buf t l' buf' →
  levels_ok (indents (indent_cxt l')) ∧ diagnostics l `suffix_of` diagnostics l' ∧
  ∃ w, w ≠ [] ∧ rest l = w ++ rest l' ∧ pos l' = pos l + text_len w.
Proof using.
  intros Hok [raw w rest' i l1 k l2 buf2 s s' Hr Hw Hraw Hi Hs Ho].
  destruct (lex_indent_context_spec _ _ _ _ Hok Hi) as (Hok1 & (_ & _ & _ & _ & Hd) & _).
  apply token_outcome_frame in Ho as (Hp & Hr' & Hin & _ & Hd'). cbn in *.
  rewrite Hin. split; [done|]. split; [by etrans|]. exists w. by rewrite Hr'.
Qed.

Lemma layout_neutral strict p ts s :
  Forall (layout_token p) ts → nesting strict s ts = Some s.
Proof using.
  induction 1 as [|t ts [[n Hn] _] _ IH]; cbn; [done|].
  unfold nest. by destruct Hn as [-> | ->].
Qed.

(** The delimiters. *)
Definition delims_ok (l : Lexer) (buf : list Token) : Prop :=
  ∃ s, delim_stack s l ∧
    ∀ strict, (strict = true → diagnostics l = []) → nesting strict [] (rev buf) = Some s.

#[local] Instance OpenDelim_inj : Inj (=) (=) OpenDelim.
Proof using. by intros ?? [= ->]. Qed.
Lemma delim_stack_inj s s' l : delim_stack s l → delim_stack s' l → s = s'.
Proof using.
  intros [Hs _] [Hs' _]. rewrite Hs in Hs'. by apply (inj (fmap OpenDelim)) in Hs'.
Qed.

Lemma step_delims l buf t l' buf' :
  levels_ok (indents (indent_cxt l)) → delims_ok l buf → step l buf t l' buf' →
  delims_ok l' (emitted t buf').
Proof using.
  intros Hok (s & Hs & Hnest) Hstep.
  destruct (step_frame _ _ _ _ _ Hok Hstep) as (_ & Hdiag & _).
  assert (∀ strict, (strict = true → diagnostics l' = []) → nesting strict [] (rev buf) = Some s) as Hn.
  { intros strict Hst. apply Hnest. intros ->. rewrite Hst in Hdiag by done. by apply suffix_nil_inv in Hdiag. }
  clear Hnest Hdiag. destruct Hstep as [raw w rest' i l1 k l2 buf2 s0 s' Hr Hw Hraw Hi Hs0 Ho].
  rewrite (delim_stack_inj _ _ _ Hs0 Hs) in Ho. clear s0 Hs0.
  destruct (lex_indent_context_spec _ _ _ _ Hok Hi) as (_ & (_ & _ & _ & Hd1 & _) & Hlay).
  assert (∀ strict k sp ts, (strict = true → diagnostics l2 = []) → nesting strict [] ts = Some s →
    nest strict (MkToken k sp) s = Some s' →
    nesting strict [] (ts ++ rev (rev (layout_tokens i)) ++ [MkToken k sp]) = Some s') as Happ.
  { intros strict k0 sp ts Hst Hts Hk. rewrite rev_involutive, !nesting_app, Hts. cbn [mbind option_bind].
    rewrite nesting_app, (layout_neutral strict _ _ _ Hlay). cbn [mbind option_bind nesting].
    by rewrite Hk. }
  exists s'. split.
  - destruct Ho as [k l2 (?&?&?&?&?&?) Hdel|d Hd|d l2 s' ? Hs'|m buf2]; [..|done|].
    + split; [|apply Hs]. rewrite Hdel. cbn. rewrite Hd1. apply Hs.
    + destruct Hs as [Hs Hno]. split; [cbn; by rewrite Hd1, Hs|]. by apply not_elem_of_cons.
    + split; [cbn; rewrite Hd1; apply Hs|apply Hs].
  - intros strict Hst. specialize (Hn strict Hst).
    destruct Ho as [k l2 ? ? ? Hk|d|d l2 s' ? ? ? ? ? Hss|m buf2 -> Hm ?]; cbn [fmap option_fmap option_map emitted].
    + destruct k as [k|]; cbn; [|done]. rewrite append_with_indent. cbn [rev]. rewrite rev_app_distr, <- app_assoc.
      apply Happ; [done..|]. by destruct k.
    + rewrite append_with_indent. cbn [rev]. rewrite rev_app_distr, <- app_assoc. by apply Happ.
    + rewrite append_with_indent. cbn [rev]. rewrite rev_app_distr, <- app_assoc. apply Happ; [done..|].
      destruct Hss as [-> |(-> & -> & Hne)]; cbn; [by rewrite decide_True|].
      destruct strict; [|done]. by rewrite Hst in Hne.
    + rewrite append_with_indent. cbn [rev]. rewrite rev_app_distr, <- app_assoc. apply Happ; [done| |done].
      cbn [rev] in Hn. rewrite nesting_app in Hn. destruct (nesting strict [] (rev buf2)) as [s1|]; [|done].
      cbn in Hn. unfold nest in Hn. by rewrite Hm in Hn.
Qed.

(** The spans and texts.  [look_behind] relies on the width of a minus, and on
    there being none before an indentation. *)
Definition token_ok (src : list char) (start_pos : Z) (t : Token) : Prop :=
  kind t ≠ Eof ∧ (kind t = BinOp Minus → (tok_span t).1 < (tok_span t).2) ∧
  ∀ s, token_text (kind t) = Some s →
    str_from_to src ((tok_span t).1 - start_pos) ((tok_span t).2 - start_pos) = Ok s.
Definition spans_ok (src : list char) (start_pos : Z) (l : Lexer) (buf : list Token) : Prop :=
  (∃ consumed, src = consumed ++ rest l ∧ pos l = start_pos + text_len consumed) ∧
  spans_within start_pos (pos l) (rev buf) ∧ Forall (token_ok src start_pos) buf.

Lemma text_len_pos w : w ≠ [] → 0 < text_len w.
Proof using.
  destruct w as [|c w]; [done|]. intros _. cbn. pose proof (Lexer.len_utf8_pos c).
  pose proof (Lexer.text_len_nonneg w). lia.
Qed.

Lemma layout_spans src start_pos p ts :
  Forall (layout_token p) ts → spans_within p p ts ∧ Forall (token_ok src start_pos) ts.
Proof using.
  induction 1 as [|t ts [[n Hn] Ht] _ [IH1 IH2]]; cbn; [split; [lia|done]|].
  rewrite Ht. cbn. split; [split; [lia|done]|]. constructor; [|done].
  unfold token_ok. by destruct Hn as [-> | ->].
Qed.

Lemma span_text_consumed src consumed w rest start_pos :
  src = consumed ++ w ++ rest →
  str_from_to src (start_pos + text_len consumed - start_pos)
    (start_pos + text_len consumed + text_len w - start_pos) = Ok w.
Proof using. intros ->. apply str_from_to_mid; lia. Qed.

(** The last token of a buffer can be taken away. *)
Lemma spans_within_pop lo hi m buf :
  spans_within lo hi (rev (m :: buf)) →
  spans_within lo (tok_span m).1 (rev buf) ∧ lo ≤ (tok_span m).1 ≤ (tok_span m).2 ∧ (tok_span m).2 ≤ hi.
Proof using.
  cbn [rev]. rewrite spans_within_app. intros (mid & H1 & H2 & H3). cbn in *.
  pose proof (spans_within_le _ _ _ H1). split; [|lia]. eapply spans_within_weaken; [done|lia].
Qed.
Lemma spans_within_push lo hi mid ts k sp buf :
  spans_within lo mid (rev buf) → spans_within mid mid ts → mid ≤ sp.1 → sp.1 ≤ sp.2 → sp.2 ≤ hi →
  spans_within lo hi (rev (MkToken k sp :: rev ts ++ buf)).
Proof using.
  intros. cbn [rev]. rewrite rev_app_distr, rev_involutive, <- app_assoc, !spans_within_app.
  exists mid. split; [done|]. rewrite spans_within_app. exists mid. split; [done|]. cbn. lia.
Qed.

(** No minus comes before an indentation. *)
Definition flag_ok (l : Lexer) (buf : list Token) : Prop :=
  new_line_beginning (indent_cxt l) = true → peek_tok_kind buf ≠ BinOp Minus.

Lemma step_flag l buf t l' buf' :
  flag_ok l buf → step l buf t l' buf' → flag_ok l' (emitted t buf').
Proof using.
  intros Hnl [raw w rest' i l1 k l2 buf2 s s' Hr Hw Hraw Hi Hs Ho].
  destruct (lex_indent_context_flag (Lexer.kind raw) l) as [_ Hf]. rewrite Hi in Hf. cbn in Hf.
  unfold flag_ok.
  destruct Ho as [k l2 ? ? ? ? ? Hk Hflag ? Hm|d ? ?|d l2 s' ? ? ? ? Hflag|m buf2 -> Hm ?];
    cbn [fmap option_fmap option_map emitted]; rewrite ?append_with_indent; try by cbn.
  destruct k as [k|]; cbn [fmap option_fmap option_map emitted]; rewrite ?append_with_indent;
    rewrite Hflag; cbn [indent_cxt].
  - intros Hor Hkm. cbn in Hkm. subst k. rewrite (Hm eq_refl) in Hor, Hf. by destruct (Hf Hor).
  - intros [Hn|?]%orb_true_iff; [by apply Hk in Hn|]. apply Hnl. by apply Hf.
Qed.

Lemma step_spans src start_pos l buf t l' buf' :
  levels_ok (indents (indent_cxt l)) → flag_ok l buf → spans_ok src start_pos l buf → step l buf t l' buf' →
  spans_ok src start_pos l' (emitted t buf').
Proof using.
  intros Hok Hnl ((cs & Hsrc & Hpos) & Hsp & Htok) Hstep.
  pose proof (step_frame _ _ _ _ _ Hok Hstep) as (_ & _ & w' & Hw' & Hrest' & Hpos').
  split; [exists (cs ++ w'); rewrite Lexer.text_len_app, <- app_assoc, <- Hrest'; split; [done|lia]|].
  destruct Hstep as [raw w rest' i l1 k l2 buf2 s s' Hr Hw Hraw Hi Hs Ho].
  destruct (lex_indent_context_spec _ _ _ _ Hok Hi) as (_ & _ & Hlay).
  destruct (layout_spans src start_pos _ _ Hlay) as [Hlay1 Hlay2].
  pose proof (text_len_pos w Hw). rewrite Hr in Hsrc. rewrite Hpos in *.
  pose proof (span_text_consumed src cs w rest' start_pos Hsrc) as Htext.
  (* A token over the text taken. *)
  assert (∀ k, k ≠ Eof → (∀ s, token_text k = Some s → s = w) →
    pos l2 = pos l + text_len w → tok_start_pos l2 = pos l →
    spans_within start_pos (pos l2) (rev (append_to (with_indent
      (MkToken k (span (tok_start_pos l2) (pos l2))) i) buf)) ∧
    Forall (token_ok src start_pos) (append_to (with_indent
      (MkToken k (span (tok_start_pos l2) (pos l2))) i) buf)) as Hpush.
  { intros k0 He Hk -> ->. rewrite append_with_indent, span_ordered by lia. rewrite Hpos. split.
    - eapply spans_within_push; [done..| | |]; cbn; lia.
    - constructor; [|apply Forall_app; split; [by apply Forall_rev|done]].
      split; [done|]. cbn. split; [lia|]. intros s0 ->%Hk. done. }
  destruct Ho as [k l2 (Hp & _) ? Ht Hk Hkt|d ? ?|d l2 s' (Hp & _) ? ? Ht|m buf2 -> Hm ?];
    cbn [fmap option_fmap option_map emitted] in *.
  - destruct k as [k|]; cbn [fmap option_fmap option_map emitted].
    + rewrite <- Hpos in Hp. cbn in Ht. rewrite <- Hpos in Ht. apply Hpush; [by intros ->|by eauto|done|done].
    + cbn in Hp. split; [|done]. eapply spans_within_weaken; [done|lia].
  - apply Hpush; [done..| |]; cbn; lia.
  - cbn in Hp, Ht. apply Hpush; [done..|lia|lia].
  - apply spans_within_pop in Hsp as (Hsp & Hm1 & Hm2). apply Forall_cons in Htok as [(_ & Hlt & _) Htok].
    specialize (Hlt Hm).
    assert (i = None) as ->.
    { destruct (lex_indent_context_flag (Lexer.kind raw) l) as [Hf _]. rewrite Hi in Hf.
      destruct (new_line_beginning (indent_cxt l)) eqn:E; [by destruct (Hnl E)|].
      by injection (Hf eq_refl). }
    cbn [with_indent append_to pos tok_start_pos set_tok_start_pos].
    rewrite span_ordered by lia. split; [|by constructor].
    apply (spans_within_push _ _ (pos l - 1) []); cbn; try lia. eapply spans_within_weaken; [done|lia].
Qed.


(** ** The balance of the indentation *)

(** The indents open behind the tokens; [None] when one is closed that is not
    open.  A dedent with another argument than [VALID_SPACES_LENGTH] only marks
    a line between two levels. *)
Fixpoint depth (n : nat) (ts : list Token) : option nat :=
  match ts with
  | [] => Some n
  | t :: ts =>
      match kind t with
      | Indent _ => depth (S n) ts
      | Dedent k =>
          if (k =? VALID_SPACES_LENGTH)%nat then match n with O => None | S n => depth n ts end
          else depth n ts
      | _ => depth n ts
      end
  end.

(** No line starts with a tab, or with a character that makes no token.  [fresh]:
    nothing but blanks and comments came before on the line. *)
Fixpoint lines_kept (fresh : bool) (toks : list Lexer.Token) : bool :=
  match toks with
  | [] => true
  | t :: toks =>
      match Lexer.kind t with
      | Lexer.Newline => lines_kept true toks
      | Lexer.LineComment _ | Lexer.Space => lines_kept fresh toks
      | Lexer.Tab => negb fresh && lines_kept fresh toks
      | k => (negb fresh || emits k) && lines_kept false toks
      end
  end.

Lemma depth_app n ts ts' : depth n (ts ++ ts') = n ← depth n ts; depth n ts'.
Proof using.
  revert n. induction ts as [|t ts IH]; intros n; cbn; [done|].
  repeat case_match; cbn; auto.
Qed.
Lemma depth_neutral n k sp :
  (∀ m, k ≠ Indent m) → (∀ m, k ≠ Dedent m) → depth n [MkToken k sp] = Some n.
Proof using. intros Hi Hd. cbn. destruct k; try done; [by destruct (Hi n0)|by destruct (Hd n0)]. Qed.

Lemma level_cmp_spaces l l' :
  tabs l = 0%nat → tabs l' = 0%nat → level_cmp l l' = Some (Nat.compare (spaces l) (spaces l')).
Proof using. unfold level_cmp. by intros -> ->. Qed.

Abbreviation no_tabs := (Forall (λ l, tabs l = 0%nat)).
Abbreviation dedents_at here := (fmap (λ n, MkToken (Dedent n) here)).

Lemma depth_dedents here m n :
  (m ≤ n)%nat → depth n (dedents_at here (repeat VALID_SPACES_LENGTH m)) = Some (n - m)%nat.
Proof using.
  revert n. induction m as [|m IH]; intros n Hm; cbn; [by rewrite Nat.sub_0_r|].
  destruct n as [|n]; [lia|]. rewrite IH by lia. done.
Qed.

Lemma rev_repeat {A} (x : A) n : rev (repeat x n) = repeat x n.
Proof using. induction n as [|n IH]; cbn; [done|]. rewrite IH. symmetry. apply repeat_cons. Qed.

(** The dedents of the loop count the levels it pops. *)
Lemma dedent_loop_depth here indent stack popped st ds errs :
  tabs indent = 0%nat → no_tabs (popped ++ stack) → levels_ok stack →
  (popped = [] → ∃ top stack', stack = top :: stack' ∧ level_cmp indent top = Some Datatypes.Lt) →
  dedent_loop indent stack popped (repeat VALID_SPACES_LENGTH (length popped)) = (st, ds, errs) →
  no_tabs st ∧ st ≠ [] ∧
  depth (length popped + length stack - 1) (dedents_at here (rev ds)) = Some (length st - 1)%nat.
Proof using.
  intros Hi. revert popped. induction stack as [|cur stack IH]; intros popped Hnt Hok Hp E; [done|].
  pose proof Hnt as [Hntp Hnts]%Forall_app. pose proof Hnts as [Hc _]%Forall_cons.
  cbn [dedent_loop] in E. unfold dedent_stop in E. rewrite (level_cmp_spaces _ _ Hi Hc) in *.
  destruct (Nat.compare_spec (spaces indent) (spaces cur)) as [Hcmp|Hcmp|Hcmp]; simplify_eq.
  - split; [done|]. split; [done|]. rewrite rev_repeat, depth_dedents; cbn [length]; [f_equal; lia|lia].
  - destruct stack as [|next stack].
    { cbn in Hok. subst. cbn in Hcmp. lia. }
    replace (length popped + length (cur :: next :: stack) - 1)%nat with
      (length (cur :: popped) + length (next :: stack) - 1)%nat by (cbn; lia).
    apply (IH (cur :: popped)); [|by apply Hok|done|done].
    apply Forall_cons in Hnts as [_ Hnts].
    apply (Forall_app_2 _ (cur :: popped)); [by constructor|done].
  - destruct popped as [|i popped].
    { destruct Hp as (? & ? & [= <- <-] & Hlt); [done|].
      rewrite level_cmp_spaces in Hlt by done. injection Hlt as Hlt%Nat.compare_lt_iff. lia. }
    cbn [length repeat tail]. split; [inversion Hntp; by constructor|]. split; [done|].
    cbn [rev]. rewrite rev_repeat, fmap_app, depth_app, depth_dedents by lia.
    cbn [mbind option_bind fmap list_fmap depth kind].
    destruct (Nat.eqb_spec (spaces indent - spaces cur) VALID_SPACES_LENGTH) as [H0|]; [unfold VALID_SPACES_LENGTH in H0; lia|].
    f_equal. lia.
Qed.

Lemma lex_indent_depth l i l' :
  cxt_tabs (indent_cxt l) = 0%nat → no_tabs (indents (indent_cxt l)) →
  levels_ok (indents (indent_cxt l)) → lex_indent l = (i, l') →
  cxt_tabs (indent_cxt l') = 0%nat ∧ no_tabs (indents (indent_cxt l')) ∧
  depth (length (indents (indent_cxt l)) - 1) (layout_tokens i) =
    Some (length (indents (indent_cxt l')) - 1)%nat.
Proof using.
  intros Ht Hnt Hok. unfold lex_indent, last_indent. cbn [indent_cxt set_context set_counters indents].
  destruct (indents (indent_cxt l)) as [|top stack] eqn:Hst; [done|].
  cbn [indent_cxt set_context set_counters indents pos]. rewrite ?Hst.
  destruct (level_cmp _ top) as [[]|] eqn:Hcmp.
  - intros [= <- <-]. cbn. by rewrite ?Hst.
  - destruct (dedent_loop _ (top :: stack) [] []) as [[st ds] errs] eqn:E. intros [= <- <-].
    apply (dedent_loop_depth (span (pos l) (pos l))) in E as (H1 & H2 & H3); [|done..|by eauto].
    rewrite !struct_span_errors_cxt. cbn. done.
  - intros [= <- <-]. cbn. split; [done|]. split; [by constructor|]. f_equal. lia.
  - intros [= <- <-]. cbn. by rewrite ?Hst.
Qed.

Definition depth_ok (l : Lexer) (buf : list Token) : Prop :=
  lines_kept (new_line_beginning (indent_cxt l)) (raw_tokens (rest l)) = true ∧
  cxt_tabs (indent_cxt l) = 0%nat ∧ no_tabs (indents (indent_cxt l)) ∧
  depth 0 (rev buf) = Some (length (indents (indent_cxt l)) - 1)%nat.

Lemma lines_kept_cons fresh t toks :
  lines_kept fresh (t :: toks) = true →
  match Lexer.kind t with
  | Lexer.Newline => lines_kept true toks = true
  | Lexer.LineComment _ | Lexer.Space => lines_kept fresh toks = true
  | Lexer.Tab => fresh = false ∧ lines_kept fresh toks = true
  | k => (fresh = true → emits k = true) ∧ lines_kept false toks = true
  end.
Proof using.
  cbn. destruct (Lexer.kind t); rewrite ?andb_true_iff, ?orb_true_iff, ?negb_true_iff; try done;
    intros [[-> |?] ?]; done.
Qed.

(** The effect of [lex_indent_context] under [depth_ok]. *)
Lemma lex_indent_context_depth raw l i l1 :
  levels_ok (indents (indent_cxt l)) →
  cxt_tabs (indent_cxt l) = 0%nat → no_tabs (indents (indent_cxt l)) →
  (Lexer.kind raw = Lexer.Tab → new_line_beginning (indent_cxt l) = false) →
  lex_indent_context (Lexer.kind raw) l = (i, l1) →
  cxt_tabs (indent_cxt l1) = 0%nat ∧ no_tabs (indents (indent_cxt l1)) ∧
  depth (length (indents (indent_cxt l)) - 1) (layout_tokens i) =
    Some (length (indents (indent_cxt l1)) - 1)%nat ∧
  (i ≠ None → new_line_beginning (indent_cxt l) = true ∧
     match Lexer.kind raw with
     | Lexer.LineComment _ | Lexer.Newline | Lexer.Tab | Lexer.Space => False | _ => True end) ∧
  new_line_beginning (indent_cxt l1) = new_line_beginning (indent_cxt l) &&
    match Lexer.kind raw with
    | Lexer.LineComment _ | Lexer.Newline | Lexer.Tab | Lexer.Space => true | _ => false end.
Proof using.
  intros Hok Ht Hnt Htab. unfold lex_indent_context.
  destruct (new_line_beginning (indent_cxt l)) eqn:Hnl; cbn [negb]; [|by intros [= <- <-]; rewrite Hnl].
  assert (∀ r, lex_indent (set_context (set_new_line false (indent_cxt l)) l) = r → r = (i, l1) →
    cxt_tabs (indent_cxt l1) = 0%nat ∧ no_tabs (indents (indent_cxt l1)) ∧
    depth (length (indents (indent_cxt l)) - 1) (layout_tokens i) =
      Some (length (indents (indent_cxt l1)) - 1)%nat ∧
    new_line_beginning (indent_cxt l1) = false) as Hlex.
  { intros r Hr ->. pose proof (lex_indent_flag (set_context (set_new_line false (indent_cxt l)) l)) as Hf.
    rewrite Hr in Hf. apply lex_indent_depth in Hr as (? & ? & ?); done. }
  destruct (Lexer.kind raw); try (intros [= <- <-]; cbn; by rewrite ?Ht, ?Hnl);
    try (by discriminate Htab); intros E; specialize (Hlex _ eq_refl E) as (? & ? & ? & ?); done.
Qed.

Lemma step_depth l buf t l' buf' :
  levels_ok (indents (indent_cxt l)) → depth_ok l buf → step l buf t l' buf' →
  depth_ok l' (emitted t buf').
Proof using.
  intros Hok (Hkept & Ht & Hnt & Hdepth) [raw w rest' i l1 k l2 buf2 s s' Hr Hw Hraw Hi Hs Ho].
  assert (lines_kept (new_line_beginning (indent_cxt l)) (raw :: raw_tokens rest') = true) as Hk.
  { destruct (rest l) as [|c cs] eqn:E; [by destruct w|].
    by rewrite Lexer.tokenize_cons, Hraw in Hkept. }
  apply lines_kept_cons in Hk. clear Hkept.
  apply lex_indent_context_depth in Hi as (Ht1 & Hnt1 & Hd1 & Hi & Hf1); [|done..|].
  2:{ intros E. rewrite E in Hk. by destruct Hk. }
  pose proof (token_outcome_frame _ _ _ _ _ _ _ _ _ Ho) as (_ & Hrest & Hin & Htabs & _).
  cbn [rest indent_cxt] in Hrest, Hin, Htabs.
  unfold depth_ok. rewrite Hrest, Hin, Htabs.
  assert (new_line_beginning (indent_cxt l2) =
    is_newline (Lexer.kind raw) || new_line_beginning (indent_cxt l1)) as ->.
  { destruct Ho as [k l2 ? ? ? ? ? ? Hflag|d ? Hraw'|d l2 s' ? ? Hraw' ? Hflag|m buf2 -> Hm Hraw'];
      [done|by rewrite Hraw'|by rewrite Hraw', Hflag|by rewrite Hraw']. }
  split; [|split; [done|split; [done|]]].
  { rewrite Hf1. destruct (new_line_beginning (indent_cxt l)), (Lexer.kind raw); cbn in *;
      first [done|apply Hk|by destruct Hk]. }
  assert (∀ ts k sp, depth 0 ts = Some (length (indents (indent_cxt l)) - 1)%nat →
    (∀ m, k ≠ Indent m) → (∀ m, k ≠ Dedent m) →
    depth 0 (ts ++ rev (rev (layout_tokens i)) ++ [MkToken k sp]) =
      Some (length (indents (indent_cxt l1)) - 1)%nat) as Happ.
  { intros ts k0 sp Hts ? ?. rewrite rev_involutive, !depth_app, Hts. cbn [mbind option_bind].
    rewrite depth_app, Hd1. cbn [mbind option_bind]. by apply depth_neutral. }
  destruct Ho as [k l2 ? ? ? Hneu ? ? ? Hemit|d ? ?|d l2 s' ? ?|m buf2 -> Hm ?];
    cbn [fmap option_fmap option_map emitted].
  - destruct k as [k|]; cbn [fmap option_fmap option_map emitted].
    + rewrite append_with_indent. cbn [rev]. rewrite rev_app_distr, <- app_assoc.
      apply Happ; [done|intros ? ->; discriminate Hneu..].
    + destruct i as [i|].
      { destruct Hi as [Hnl Hkind]; [done|]. exfalso. apply Hemit; [|done].
        rewrite Hnl in Hk. destruct (Lexer.kind raw); try done; by apply Hk. }
      rewrite Hdepth. by cbn in Hd1.
  - rewrite append_with_indent. cbn [rev]. rewrite rev_app_distr, <- app_assoc. by apply Happ.
  - rewrite append_with_indent. cbn [rev]. rewrite rev_app_distr, <- app_assoc. by apply Happ.
  - rewrite append_with_indent. cbn [rev]. rewrite rev_app_distr, <- app_assoc. apply Happ; [|done..].
    cbn [rev] in Hdepth. rewrite depth_app in Hdepth. destruct (depth 0 (rev buf2)); [|done].
    cbn in Hdepth. by rewrite Hm in Hdepth.
Qed.

(** ** The whole stream *)

Section Whole.
Variables (src : list char) (start_pos : Z).
Hypothesis start_nonneg : 0 ≤ start_pos.

(** What holds between the turns. *)
Definition invariant (l : Lexer) (buf : list Token) : Prop :=
  levels_ok (indents (indent_cxt l)) ∧ delims_ok l buf ∧ flag_ok l buf ∧
  spans_ok src start_pos l buf ∧ (lines_kept false (raw_tokens src) = true → depth_ok l buf).

Lemma invariant_init : invariant (init src start_pos) [].
Proof using.
  split; [done|]. split; [|split; [done|split; [|]]].
  - exists []. split; [split; [done|apply not_elem_of_nil]|done].
  - split; [exists []; split; [done|cbn; lia]|]. split; [cbn; lia|constructor].
  - intros. split; [done|]. split; [done|]. split; [by repeat constructor|done].
Qed.

Abbreviation lex_step' := (lex_step character is_id_start is_id_continue is_emoji).

Lemma invariant_step l buf :
  invariant l buf → rest l ≠ [] →
  ∃ t l' buf', lex_step' l buf = Ok (t, l', buf') ∧ invariant l' (emitted t buf') ∧
    (length (rest l') < length (rest l))%nat ∧ from_option is_eof false t = false.
Proof using start_nonneg.
  intros (Hok & Hdel & Hfl & Hsp & Hdep) Hne. pose proof Hdel as (s & Hs & _).
  edestruct (lex_step_step l buf s) as (t & l' & buf' & E & Hstep); [done..| |].
  { destruct buf as [|m buf]; [by right|]. destruct (decide (kind m = BinOp Minus)) as [Hm|]; [|by right].
    left. destruct Hsp as (_ & Hsp & [(_ & Hlt & _) _]%Forall_cons). specialize (Hlt Hm).
    apply spans_within_pop in Hsp. lia. }
  exists t, l', buf'. split; [done|].
  pose proof (step_spans _ _ _ _ _ _ _ Hok Hfl Hsp Hstep) as Hsp'.
  destruct (step_frame _ _ _ _ _ Hok Hstep) as (Hok' & _ & w & Hw & Hr & _).
  split; [|split].
  - split; [done|]. split; [exact (step_delims _ _ _ _ _ Hok Hdel Hstep)|].
    split; [exact (step_flag _ _ _ _ _ Hfl Hstep)|].
    split; [done|]. intros H. exact (step_depth _ _ _ _ _ Hok (Hdep H) Hstep).
  - rewrite Hr, length_app. destruct w; [done|]. cbn. lia.
  - destruct t as [t|]; [|done]. destruct Hsp' as (_ & _ & Hall). cbn in *.
    assert (∃ t0, is_eof t = bool_decide (kind t0 = Eof) ∧ t0 ∈ append_to t buf') as (t0 & -> & Hin).
    { destruct t as [t0|t0 [i|ds]]; exists t0; (split; [done|by left]). }
    rewrite Forall_forall in Hall. apply bool_decide_false. by apply Hall.
Qed.

Abbreviation next_token' := (next_token character is_id_start is_id_continue is_emoji).
Abbreviation append_tokens' := (append_tokens character is_id_start is_id_continue is_emoji).

(** With the characters left as fuel, [token] comes to a token or to the end. *)
Lemma next_token_invariant n l buf :
  invariant l buf → (length (rest l) ≤ n)%nat →
  ∃ t l' buf',
    (∀ fuel, (length (rest l) ≤ fuel)%nat → next_token' fuel l buf = Ok (t, l', buf')) ∧
    (is_eof t = true ∧ rest l' = [] ∧ invariant l' buf' ∨
     is_eof t = false ∧ (length (rest l') < length (rest l))%nat ∧ invariant l' (append_to t buf')).
Proof using start_nonneg.
  revert l buf. induction n as [|n IH]; intros l buf Hinv Hn.
  all: destruct (rest l) as [|c cs] eqn:Hr; [
    eexists _, l, buf; split; [intros [|fuel] _; cbn; by rewrite ?Hr|by left]|].
  { cbn in Hn. lia. }
  destruct (invariant_step l buf Hinv) as (t & l1 & buf1 & E & Hinv1 & Hlt & Heof); [by rewrite Hr|].
  rewrite Hr in Hlt. cbn in Hn, Hlt. destruct t as [t|].
  - exists t, l1, buf1. split; [|right; by split; [|split; [cbn; lia|]]].
    intros [|fuel] Hf; [cbn in Hf; lia|]. cbn [next_token]. rewrite Hr, E. done.
  - destruct (IH l1 buf1 Hinv1) as (t & l2 & buf2 & E2 & H2); [lia|].
    exists t, l2, buf2. split.
    + intros [|fuel] Hf; [cbn in Hf; lia|]. cbn [next_token]. rewrite Hr, E. cbn. apply E2. cbn in Hf. lia.
    + destruct H2 as [H2|(? & ? & ?)]; [by left|right]. split; [done|]. split; [cbn; lia|done].
Qed.

Lemma append_tokens_invariant n l buf :
  invariant l buf → (length (rest l) ≤ n)%nat →
  ∃ l' buf', (∀ fuel, (length (rest l) < fuel)%nat → append_tokens' fuel l buf = Ok (l', buf')) ∧
    rest l' = [] ∧ invariant l' buf'.
Proof using start_nonneg.
  revert l buf. induction n as [|n IH]; intros l buf Hinv Hn.
  all: destruct (next_token_invariant (length (rest l)) l buf Hinv ltac:(done))
    as (t & l1 & buf1 & E & [(Heof & Hr & Hinv1)|(Heof & Hlt & Hinv1)]).
  1, 3: exists l1, buf1; split; [|done]; intros [|fuel] Hf; [lia|];
    cbn [append_tokens]; rewrite E by lia; cbn [mbind Res_bind]; by rewrite Heof.
  { lia. }
  destruct (IH l1 _ Hinv1) as (l2 & buf2 & E2 & H2); [lia|]. exists l2, buf2. split; [|done].
  intros [|fuel] Hf; [lia|]. cbn [append_tokens]. rewrite E by lia. cbn [mbind Res_bind].
  rewrite Heof. apply E2. lia.
Qed.

Lemma close_levels_spec here levels buf :
  levels ≠ [] →
  ∃ bottom, close_levels (length levels - 1) here levels buf =
    ([bottom], repeat (MkToken (Dedent VALID_SPACES_LENGTH) here) (length levels - 1) ++ buf).
Proof using.
  destruct levels as [|top levels]; [done|]. intros _. cbn [length]. rewrite Nat.sub_succ, Nat.sub_0_r.
  revert top buf. induction levels as [|next levels IH]; intros top buf; cbn [close_levels length]; [by eexists|].
  destruct (IH next (MkToken (Dedent VALID_SPACES_LENGTH) here :: buf)) as [b ->]. exists b.
  f_equal. change (repeat ?x (S ?n)) with (x :: repeat x n). rewrite repeat_cons, <- app_assoc. done.
Qed.

(** The end of the stream. *)
Definition tail_tokens (l : Lexer) : list Token :=
  let here := (pos l, pos l) in
  (if new_line_beginning (indent_cxt l) then [] else [MkToken Newline here]) ++
  repeat (MkToken (Dedent VALID_SPACES_LENGTH) here) (length (indents (indent_cxt l)) - 1).

Lemma eof_spec l buf :
  levels_ok (indents (indent_cxt l)) →
  rev (eof l buf).2 = rev buf ++ tail_tokens l ++ [MkToken Eof (pos l, pos l)] ∧
  diagnostics (eof l buf).1 = diagnostics l.
Proof using.
  intros Hok. unfold eof, tail_tokens. rewrite span_ordered by done.
  assert (indents (indent_cxt l) ≠ []) as Hne by by destruct (indents _).
  destruct (new_line_beginning (indent_cxt l)); cbn [indent_cxt set_context set_new_line indents];
    edestruct close_levels_spec as [b ->]; try done; cbn [fst snd diagnostics set_context rev];
    split; try done; rewrite rev_app_distr, rev_repeat; cbn [rev app]; by rewrite <- !app_assoc.
Qed.

(** The stream of a source, with the invariant at its end. *)
Lemma parse_token_streams_spec :
  ∃ l buf, parse_token_streams character is_id_start is_id_continue is_emoji src start_pos =
      Ok (rev buf ++ tail_tokens l ++ [MkToken Eof (pos l, pos l)], rev (diagnostics l)) ∧
    (∀ fuel, (length src < fuel)%nat →
       append_tokens' fuel (init src start_pos) [] = Ok (l, buf)) ∧
    rest l = [] ∧ invariant l buf.
Proof using start_nonneg.
  destruct (append_tokens_invariant (length src) (init src start_pos) [] invariant_init)
    as (l & buf & E & Hr & Hinv); [done|]. exists l, buf.
  split; [|done]. unfold parse_token_streams, into_tokens. rewrite E by (cbn; lia).
  cbn [mbind Res_bind]. destruct (eof_spec l buf) as [E1 E2]; [apply Hinv|].
  destruct (eof l buf) as [l' buf']. cbn [fst snd] in *. by rewrite E1, E2.
Qed.
End Whole.

(** C28: Every source has a token stream: the lexer of the parser comes to the end
    of any text, with the number of its characters as fuel, and neither a slice
    nor a stack of it is ever misused; the stream ends with the only [Eof]. *)
Theorem token_stream_total src start_pos :
  0 ≤ start_pos →
  ∃ ts sp diags l buf,
    parse_token_streams character is_id_start is_id_continue is_emoji src start_pos =
      Ok (ts ++ [MkToken Eof sp], diags) ∧
    Forall (λ t, kind t ≠ Eof) ts ∧
    (∀ fuel, (length src < fuel)%nat →
       append_tokens character is_id_start is_id_continue is_emoji fuel (init src start_pos) [] =
         Ok (l, buf)) ∧ rest l = [].
Proof using.
  intros H. destruct (parse_token_streams_spec src start_pos H) as (l & buf & E & Hf & Hr & Hinv).
  exists (rev buf ++ tail_tokens l), (pos l, pos l), (rev (diagnostics l)), l, buf.
  split; [by rewrite E, <- app_assoc|]. split; [|done].
  destruct Hinv as (_ & _ & _ & (_ & _ & Htok) & _).
  apply Forall_app; split; [apply Forall_rev; eapply Forall_impl; [done|]; by intros t (? & _)|].
  unfold tail_tokens. apply Forall_app; split; [by case_match; repeat constructor|].
  apply Forall_forall. by intros t ->%list_elem_of_In%repeat_spec.
Qed.

Lemma tail_tokens_within l p : p ≤ pos l →
  spans_within p (pos l) (tail_tokens l ++ [MkToken Eof (pos l, pos l)]).
Proof using.
  intros Hp. assert (∀ n p, p ≤ pos l → spans_within p (pos l)
    (repeat (MkToken (Dedent VALID_SPACES_LENGTH) (pos l, pos l)) n ++ [MkToken Eof (pos l, pos l)])) as Hrep.
  { induction n as [|n IH]; intros q Hq; cbn; [lia|]. split; [lia|]. by apply IH. }
  unfold tail_tokens. rewrite <- app_assoc. case_match; cbn [app]; [by apply Hrep|].
  cbn. split; [lia|]. by apply Hrep.
Qed.

(** C37: The spans of the stream lie in the source, in order and without overlap,
    and the text at the span of a name, a comment or a string literal is the
    text of the token. *)
Theorem token_spans src start_pos ts diags :
  0 ≤ start_pos →
  parse_token_streams character is_id_start is_id_continue is_emoji src start_pos = Ok (ts, diags) →
  spans_within start_pos (start_pos + text_len src) ts ∧
  ∀ t s, t ∈ ts → token_text (kind t) = Some s →
    str_from_to src ((tok_span t).1 - start_pos) ((tok_span t).2 - start_pos) = Ok s.
Proof using.
  intros H. destruct (parse_token_streams_spec src start_pos H) as (l & buf & -> & _ & Hr & Hinv).
  intros [= <- _]. destruct Hinv as (_ & _ & _ & ((cs & Hsrc & Hpos) & Hsp & Htok) & _).
  rewrite Hr, app_nil_r in Hsrc. subst cs. rewrite <- Hpos. split.
  - apply spans_within_app. exists (pos l). split; [done|]. by apply tail_tokens_within.
  - intros t s Hin Ht. rewrite !elem_of_app in Hin. rewrite Forall_forall in Htok.
    destruct Hin as [Hin|Hin].
    + apply (Htok t); [|done]. apply list_elem_of_In, in_rev, list_elem_of_In in Hin. done.
    + exfalso. unfold tail_tokens in Hin. rewrite elem_of_app in Hin.
      destruct Hin as [[Hin|Hin]|Hin]; [case_match| |].
      * by apply elem_of_nil in Hin.
      * by apply list_elem_of_singleton in Hin as ->.
      * by apply list_elem_of_In, repeat_spec in Hin as ->.
      * by apply list_elem_of_singleton in Hin as ->.
Qed.

Lemma nesting_tail strict s l :
  nesting strict s (tail_tokens l ++ [MkToken Eof (pos l, pos l)]) = Some s.
Proof using.
  rewrite nesting_app.
  assert (nesting strict s (tail_tokens l) = Some s) as ->; [|done].
  unfold tail_tokens. rewrite nesting_app. case_match; cbn; induction (_ - 1)%nat; by cbn.
Qed.

(** C30: The delimiters of the stream nest: a closing one is always that of the
    innermost open one, even where the source has another; when nothing was
    reported, there is one for every closing delimiter. *)
Theorem delims_nested src start_pos ts diags :
  0 ≤ start_pos →
  parse_token_streams character is_id_start is_id_continue is_emoji src start_pos = Ok (ts, diags) →
  ∃ s, nesting false [] ts = Some s ∧ (diags = [] → nesting true [] ts = Some s).
Proof using.
  intros H. destruct (parse_token_streams_spec src start_pos H) as (l & buf & -> & _ & _ & Hinv).
  intros [= <- <-]. destruct Hinv as (_ & (s & _ & Hn) & _). exists s.
  split; [|intros Hd]; rewrite nesting_app, Hn by (done || (intros _; by destruct (diagnostics l) as [|d ds];
    [|apply app_eq_nil in Hd as [_ [=]]])); apply nesting_tail.
Qed.

(** C29: In a source in which no line starts with a tab, or with a character that
    makes no token, the indents and dedents of the stream balance: no dedent
    comes without an indent before it, and all are closed at the end. *)
Theorem indents_balanced src start_pos ts diags :
  0 ≤ start_pos → lines_kept false (raw_tokens src) = true →
  parse_token_streams character is_id_start is_id_continue is_emoji src start_pos = Ok (ts, diags) →
  depth 0 ts = Some 0%nat.
Proof using.
  intros H Hk. destruct (parse_token_streams_spec src start_pos H) as (l & buf & -> & _ & _ & Hinv).
  intros [= <- _]. destruct Hinv as (_ & _ & _ & _ & Hd). destruct (Hd Hk) as (_ & _ & _ & Hdepth).
  rewrite depth_app, Hdepth. cbn [mbind option_bind]. set (n := (_ - 1)%nat).
  unfold tail_tokens. rewrite <- app_assoc, depth_app.
  assert (depth n (if new_line_beginning (indent_cxt l) then []
    else [MkToken Newline (pos l, pos l)]) = Some n) as -> by by case_match.
  cbn [mbind option_bind]. rewrite depth_app.
  pose proof (depth_dedents (pos l, pos l) n n ltac:(done)) as Hdn.
  rewrite map_repeat in Hdn.
  subst n. rewrite Hdn. by rewrite Nat.sub_diag.
Qed.

(** ** String literals read back *)

(** A text as the contents of a literal between the quotes [q]. *)
Definition escape_char (q c : char) : list char :=
  if c =? 92 then [92; 92] else if c =? q then [92; q]
  else if c =? 10 then [92; ch "n"] else if c =? 13 then [92; ch "r"]
  else if c =? 0 then [92; ch "0"; ch "0"; ch "0"] else [c].
Definition escape (q : char) (s : list char) : list char := concat (escape_char q <$> s).

Lemma quote_cases q : Lexer.is_quote q = true → q = 39 ∨ q = 34.
Proof using. unfold Lexer.is_quote. Lexer.chars_eval. lia. Qed.

(** Escaped characters do not end the line. *)
Lemma peek_escape q s cs :
  Lexer.is_quote q = true → Lexer.ends_line (Lexer.peek (escape q s ++ q :: cs)) = false.
Proof using.
  intros Hq%quote_cases. destruct s as [|c s]; cbn.
  - by destruct Hq as [-> | ->].
  - unfold escape_char. repeat case_match; cbn; try done; destruct Hq as [-> | ->]; try done;
      unfold Lexer.ends_line, Lexer.EOF_CHAR; lia.
Qed.

Lemma string_body_plain q c cs :
  c ≠ 92 → c ≠ q → Lexer.ends_line (Lexer.peek cs) = false →
  Lexer.string_body q false (c :: cs) = Lexer.string_body q false cs.
Proof using.
  intros H1 H2 H3. cbn [Lexer.string_body]. rewrite (proj2 (Z.eqb_neq _ _) H1), (proj2 (Z.eqb_neq _ _) H2), H3.
  done.
Qed.
Lemma string_body_backslash q c cs :
  q ≠ 92 → c ≠ 92 → c ≠ q → Lexer.ends_line c = false →
  Lexer.string_body q false (92 :: c :: cs) = Lexer.string_body q false (c :: cs).
Proof using.
  intros H0 H1 H2 H3. cbn [Lexer.string_body Lexer.peek].
  rewrite (proj2 (Z.eqb_neq _ _) H1), (proj2 (Z.eqb_neq _ _) H2), H3.
  rewrite (proj2 (Z.eqb_neq 92 q)) by done. done.
Qed.

Lemma string_body_escape q s cs :
  Lexer.is_quote q = true → Lexer.string_body q false (escape q s ++ q :: cs) = (true, cs).
Proof using.
  intros Hq. pose proof (quote_cases q Hq) as Hq'.
  induction s as [|c s IH].
  { cbn. rewrite Z.eqb_refl. by destruct Hq' as [-> | ->]. }
  cbn [escape fmap list_fmap concat]. fold (escape q s). rewrite <- app_assoc.
  pose proof (peek_escape q s cs Hq) as Hp. unfold escape_char.
  destruct (Z.eqb_spec c 92) as [->|H1]; [by cbn; rewrite IH|].
  destruct (Z.eqb_spec c q) as [->|H2]; [cbn; by rewrite Z.eqb_refl, orb_true_r, IH|].
  destruct (Z.eqb_spec c 10) as [->|H3]; [|destruct (Z.eqb_spec c 13) as [->|H4];
    [|destruct (Z.eqb_spec c 0) as [->|H5]]]; cbn [app]; Lexer.chars_eval.
  4: by rewrite string_body_plain.
  all: rewrite string_body_backslash by (try done; destruct Hq' as [-> | ->]; done).
  all: rewrite !string_body_plain by (try done; destruct Hq' as [-> | ->]; done).
  all: done.
Qed.

(** Evaluates an escape on known characters. *)
Ltac esc :=
  unfold eval_escape, parse_octet; cbn [octal_digits]; unfold is_octal; Lexer.chars_eval; cbn.

Lemma eval_escape_text q s n :
  Lexer.is_quote q = true → (length (escape q s) ≤ n)%nat →
  eval_fuel character n q false false false (escape q s) = Some s.
Proof using.
  intros Hq. pose proof (quote_cases q Hq) as Hq'.
  revert n. induction s as [|c s IH]; intros n Hn; [by destruct n|].
  cbn [escape fmap list_fmap concat] in *. fold (escape q s) in *.
  rewrite length_app in Hn. revert IH Hn. generalize (escape q s). intros r IH Hn.
  unfold escape_char in *.
  destruct (Z.eqb_spec c 92) as [->|H1];
    [|destruct (Z.eqb_spec c q) as [->|H2]; [|destruct (Z.eqb_spec c 10) as [->|H3];
    [|destruct (Z.eqb_spec c 13) as [->|H4]; [|destruct (Z.eqb_spec c 0) as [->|H5]]]]];
    cbn [app length] in *; (destruct n as [|n]; [lia|]); cbn [eval_fuel].
  - destruct Hq' as [-> | ->]; esc; by rewrite IH by lia.
  - destruct Hq' as [-> | ->]; esc; by rewrite IH by lia.
  - destruct Hq' as [-> | ->]; esc; by rewrite IH by lia.
  - destruct Hq' as [-> | ->]; esc; by rewrite IH by lia.
  - destruct Hq' as [-> | ->]; esc; by rewrite IH by lia.
  - rewrite (proj2 (Z.eqb_neq _ _) H1), (proj2 (Z.eqb_neq _ _) H3). esc. by rewrite IH by lia.
Qed.

(** A source that is one string literal. *)
Lemma single_literal src start_pos lit :
  src ≠ [] →
  raw_token src = (Lexer.MkToken (Lexer.Literal (Lexer.LStr true false) (text_len src)) (text_len src), []) →
  (∀ l, lex_string character start_pos src true false (text_len src) l = Ok (lit, l)) →
  let stop := start_pos + text_len src in
  parse_token_streams character is_id_start is_id_continue is_emoji src start_pos =
    Ok ([MkToken (Literal lit) (start_pos, stop); MkToken Newline (stop, stop);
         MkToken Eof (stop, stop)], []).
Proof using.
  intros Hne Hraw Hlex stop.
  assert (lex_step character is_id_start is_id_continue is_emoji (init src start_pos) [] =
    Ok (Some (TokenOnly (MkToken (Literal lit) (start_pos, stop))),
        MkLexer stop start_pos [] (indent_cxt (init src start_pos)) [], [])) as Hstep.
  { unfold lex_step. cbn [init rest]. rewrite Hraw. cbn [Lexer.kind lex_indent_context Lexer.len].
    rewrite Nat.sub_0_r, firstn_all. unfold lex_indent_context. cbn [init indent_cxt new_line_beginning negb pos].
    unfold lex_token. cbn [Lexer.kind lex_literal pos]. rewrite Hlex. cbn [mbind Res_bind].
    cbn [tok_start_pos pos]. rewrite span_ordered; [done|].
    pose proof (Lexer.text_len_nonneg src). lia. }
  unfold parse_token_streams, into_tokens.
  destruct src as [|c cs]; [done|]. set (l := init (c :: cs) start_pos) in *.
  change (length (rest l)) with (S (length cs)). cbn [append_tokens next_token].
  change (Lexer.is_eof (rest l)) with false. rewrite Hstep.
  cbn [mbind Res_bind is_eof kind]. rewrite bool_decide_false by done. cbn [append_tokens append_to].
  cbn [next_token rest Lexer.is_eof mbind Res_bind is_eof kind pos]. rewrite bool_decide_true by done.
  unfold eof. cbn. rewrite span_ordered by done. done.
Qed.

(** C31: A text written as a string literal, between quotes of either kind and
    with the backslash, the quote, the ends of lines and NUL escaped, is read
    back: the stream is the literal with the text as its value, and nothing is
    reported. *)
Theorem string_literal_roundtrip q s start_pos :
  Lexer.is_quote q = true →
  let src := q :: escape q s ++ [q] in
  let stop := start_pos + text_len src in
  parse_token_streams character is_id_start is_id_continue is_emoji src start_pos =
    Ok ([MkToken (Literal (MkLit (Str false false) s None (Some src))) (start_pos, stop);
         MkToken Newline (stop, stop); MkToken Eof (stop, stop)], []).
Proof using.
  intros Hq src stop. pose proof (quote_cases q Hq) as Hq'.
  assert (raw_token src = (Lexer.MkToken (Lexer.Literal (Lexer.LStr true false) (text_len src))
    (text_len src), [])) as Hraw.
  { assert (Lexer.eat_quoted_string src q (escape q s ++ [q]) =
      (Lexer.Literal (Lexer.LStr true false) (text_len src), [])) as E.
    { unfold Lexer.eat_quoted_string.
      assert ((q =? Lexer.peek (escape q s ++ [q])) && (q =? Lexer.peek1th (escape q s ++ [q])) = false) as ->.
      { destruct s as [|c s]; [by destruct Hq' as [-> | ->]|]. cbn. unfold escape_char.
        apply andb_false_iff; left. apply Z.eqb_neq.
        repeat case_match; cbn; destruct Hq' as [-> | ->]; try done; lia. }
      rewrite string_body_escape by done. cbn [fst snd]. unfold Lexer.len_consumed. cbn [Lexer.text_len].
      by rewrite Z.sub_0_r. }
    unfold Lexer.token. cbn [src]. unfold Lexer.token_kind, src at 1. fold src.
    unfold Lexer.try_string_magic, Lexer.eat_string. rewrite quote_no_prefix, Hq by done.
    assert (Lexer.try_comment_magic q = false ∧ Lexer.is_whitespace q = false) as [-> ->]
      by by destruct Hq' as [-> | ->].
    rewrite E. cbn [fst snd]. unfold Lexer.len_consumed. cbn [Lexer.text_len]. by rewrite Z.sub_0_r. }
  assert (∀ l, lex_string character start_pos src true false (text_len src) l =
    Ok (MkLit (Str false false) s None (Some src), l)) as Hlex.
  { intros l. destruct (lex_string_spec character start_pos [] q (escape q s) true false l)
      as (l' & _ & Hl & E); [by left|done..|].
    cbn [app Lexer.closing bool_decide negb] in Hl, E. fold src in E.
    unfold str_content_eval in Hl, E. rewrite eval_escape_text in Hl, E by done.
    rewrite Hl in E by done. exact E. }
  by apply single_literal.
Qed.
End Stream.

(** ** Concrete sources *)

Definition no_name (name : list char) : option char := None.
Abbreviation ascii_stream src :=
  (parse_token_streams no_name Lexer.ascii_id_start Lexer.ascii_id_continue Lexer.no_emoji src 0).
Definition lines (ls : list string) : list char := concat ((λ s, text s ++ [10]) <$> ls).
(** The kinds of the tokens of a source, and the number of diagnostics. *)
Definition kinds (src : list char) : Res (list TokenKind * nat) :=
  match ascii_stream src with
  | Ok (ts, ds) => Ok (kind <$> ts, length ds)
  | Panic p => Panic p
  end.

Definition nested_config : list char := lines ["a = {"; "  b = [1]"; "}"]%string.

Lemma token_stream_total_witness :
  0 ≤ 0 ∧ ∃ ts sp diags, ascii_stream nested_config = Ok (ts ++ [MkToken Eof sp], diags) ∧
    Forall (λ t, kind t ≠ Eof) ts.
Proof.
  split; [lia|].
  destruct (token_stream_total no_name Lexer.ascii_id_start Lexer.ascii_id_continue Lexer.no_emoji
    nested_config 0 ltac:(lia)) as (ts & sp & diags & l & buf & E & H & _).
  exists ts, sp, diags. split; [exact E|exact H].
Defined.

Lemma token_spans_witness :
  ∃ ts diags, ascii_stream nested_config = Ok (ts, diags) ∧
    spans_within 0 (0 + text_len nested_config) ts.
Proof.
  destruct (ascii_stream nested_config) as [[ts diags]|] eqn:E; [|vm_compute in E; discriminate E].
  exists ts, diags. split; [reflexivity|].
  exact (proj1 (token_spans no_name Lexer.ascii_id_start Lexer.ascii_id_continue Lexer.no_emoji
    nested_config 0 ts diags ltac:(lia) E)).
Defined.

(** A bracket where a brace is open. *)
Definition crossed : list char := lines ["a = {b = (1]}"]%string.
Lemma delims_nested_witness :
  ∃ ts diags s, ascii_stream crossed = Ok (ts, diags) ∧ nesting false [] ts = Some s.
Proof.
  destruct (ascii_stream crossed) as [[ts diags]|] eqn:E; [|vm_compute in E; discriminate E].
  destruct (delims_nested no_name Lexer.ascii_id_start Lexer.ascii_id_continue Lexer.no_emoji
    crossed 0 ts diags ltac:(lia) E) as (s & H & _).
  exists ts, diags, s. split; [reflexivity|exact H].
Defined.

Definition nested_block : list char := lines ["if a:"; "    if b:"; "        c = 1"; "  d = 2"; "e = 3"]%string.
Lemma indents_balanced_witness :
  lines_kept false (Lexer.tokenize Lexer.ascii_id_start Lexer.ascii_id_continue Lexer.no_emoji
    nested_block) = true ∧
  ∃ ts diags, ascii_stream nested_block = Ok (ts, diags) ∧ depth 0 ts = Some 0%nat.
Proof.
  assert (lines_kept false (Lexer.tokenize Lexer.ascii_id_start Lexer.ascii_id_continue
    Lexer.no_emoji nested_block) = true) as Hk by (vm_compute; reflexivity).
  split; [exact Hk|].
  destruct (ascii_stream nested_block) as [[ts diags]|] eqn:E; [|vm_compute in E; discriminate E].
  exists ts, diags. split; [reflexivity|].
  exact (indents_balanced no_name Lexer.ascii_id_start Lexer.ascii_id_continue Lexer.no_emoji
    nested_block 0 ts diags ltac:(lia) Hk E).
Defined.

Lemma string_literal_roundtrip_witness :
  Lexer.is_quote 34 = true ∧
  ascii_stream (34 :: escape 34 [104; 10; 34; 92; 0; 55; 233] ++ [34]) =
    Ok ([MkToken (Literal (MkLit (Str false false) [104; 10; 34; 92; 0; 55; 233] None
           (Some (34 :: escape 34 [104; 10; 34; 92; 0; 55; 233] ++ [34])))) (0, 16);
         MkToken Newline (16, 16); MkToken Eof (16, 16)], []).
Proof.
  assert (Lexer.is_quote 34 = true) as Hq by reflexivity. split; [exact Hq|].
  pose proof (string_literal_roundtrip no_name Lexer.ascii_id_start Lexer.ascii_id_continue
    Lexer.no_emoji 34 [104; 10; 34; 92; 0; 55; 233] 0 Hq) as H. vm_compute in H |- *. exact H.
Defined.

(** With tabs, the dedent to a line between two levels has the argument of a
    full one, though the level stays open: one indent, two dedents. *)
Example tab_dedents :
  kinds (text "a" ++ [10; 9; 9] ++ text "b" ++ [10; 9] ++ text "c" ++ [10]) =
    Ok ([Ident (text "a"); Newline; Indent 0; Ident (text "b"); Newline; Dedent 0;
         Ident (text "c"); Newline; Dedent 0; Eof], 0%nat).
Proof. vm_compute. reflexivity. Qed.

(** A form feed that starts a line takes the indent with it; the dedent stays. *)
Example form_feed_indent :
  kinds (text "a" ++ [10; 32; 12] ++ text "b" ++ [10]) =
    Ok ([Ident (text "a"); Newline; Ident (text "b"); Newline; Dedent 0; Eof], 0%nat).
Proof. vm_compute. reflexivity. Qed.

(** An arrow may have blanks inside. *)
Example spaced_arrow :
  kinds (text "a - > b") =
    Ok ([Ident (text "a"); RArrow; Ident (text "b"); Newline; Eof], 0%nat).
Proof. vm_compute. reflexivity. Qed.

(** A decimal digit behind the octal prefix zero is not seen to be invalid. *)
Example octal_second_digit :
  kinds (text "0955") = Ok ([Literal (MkLit Integer (text "0955") None None); Newline; Eof], 0%nat).
Proof. vm_compute. reflexivity. Qed.
