(* ===== verification/IntLit.v ===== *)
(** * Integer literals

    [parser/src/parser/int.rs]: the text of an integer literal, with its base
    prefix and underscores, becomes a 64-bit integer.  A text is the list of
    its bytes.  [trim] and [BigUint::parse_bytes] are functions of [bstr] and
    [num_bigint]: parameters, with what the code relies on as hypotheses. *)

From stdpp Require Import base tactics list numbers strings.
From Stdlib Require Import ZArith Ascii Lia.
From S2P Require Import Prelude.
From S2P Require Import MachineInt.
From S2P Require Lexer TokenStream.
Local Open Scope Z_scope.

Abbreviation byte := Z.
Abbreviation ch := Lexer.ch.
Abbreviation text := Lexer.text.

Inductive Sign := Minus | NoSign | Plus.

Section IntLit.
(** [bstr::ByteSlice::trim] and [num_bigint::BigUint::parse_bytes]. *)
Variable trim : list byte → list byte.
Variable parse_bytes : list byte → Z → option Z.

Definition detect_base (c : byte) : Z * nat :=
  if (c =? ch "x") || (c =? ch "X") then (16, 2%nat)
  else if (c =? ch "b") || (c =? ch "B") then (2, 2%nat)
  else if (c =? ch "o") || (c =? ch "O") then (8, 2%nat)
  else (8, 1%nat).

(** The base, whether there is a prefix, and its length; or the final result. *)
Definition split_radix (lit : list byte) (base : Z) : option Z + (Z * bool * nat) :=
  let prefixed (lower upper : byte) :=
    match lit !! 1%nat with
    | Some b => inr (base, (b =? lower) || (b =? upper), 2%nat)
    | None => inr (base, false, 0%nat)
    end in
  if bool_decide (head lit = Some (ch "0")) then
    if base =? 0 then
      match lit !! 1%nat with
      | Some parsed => let r := detect_base parsed in inr (r.1, true, r.2)
      | None => inl (Some 0)
      end
    else if base =? 16 then prefixed (ch "x") (ch "X")
    else if base =? 2 then prefixed (ch "b") (ch "B")
    else if base =? 8 then prefixed (ch "o") (ch "O")
    else inr (base, false, 0%nat)
  else inr (if base =? 0 then 10 else base, false, 0%nat).

(** The loop over the zeros at the start, from [last]: how many characters it
    takes; [None] at two underscores. *)
Fixpoint zeros (last : byte) (cs : list byte) : option nat :=
  match cs with
  | [] => Some 0%nat
  | cur :: cs =>
      if cur =? ch "_" then
        if last =? ch "_" then None else S <$> zeros cur cs
      else if negb (cur =? ch "0") then Some 0%nat
      else S <$> zeros cur cs
  end.

Definition is_ascii_alphanumeric (c : byte) : bool :=
  Lexer.is_ascii_digit c || Lexer.is_letter c.

(** The check of what is left: its last character, [None] for a bad one. *)
Fixpoint validate (last : byte) (cs : list byte) : option byte :=
  match cs with
  | [] => Some last
  | c :: cs =>
      if negb (is_ascii_alphanumeric c || (c =? ch "_")) then None
      else if (c =? ch "_") && (last =? ch "_") then None
      else validate c cs
  end.

Context {HP : Profile}.

(** The [?] operator on an option, in a function that may panic. *)
#[local] Notation "x '←?' o ; k" :=
  (match o with Some x => k | None => Ok None end)
  (at level 20, o at level 100, k at level 200, right associativity).

(** [to_u64_digits], and the digit as a signed integer. *)
Definition to_i64 (sign : Sign) (uint : Z) : Res (option Z) :=
  if (1 <=? uint) && (uint <? 2 ^ 64) then
    match sign with
    | Minus => Some <$> arith 64 (- as_i64 uint)
    | _ => Ok (Some (as_i64 uint))
    end
  else Ok None.

(** What follows the sign and the prefix. *)
Definition digits_to_int (sign : option Sign) (lit : list byte) (base : Z) : Res (option Z) :=
  let finish last lit :=
    last ←? validate last lit;
    if last =? ch "_" then Ok None
    else if bool_decide (lit = []) then Ok (Some 0)
    else uint ←? parse_bytes lit base; to_i64 (default Plus sign) uint in
  last ←? head lit;
  if last =? ch "0" then
    count ←? zeros last (tail lit);
    prefix_last ← index lit count;
    let lit := drop (S count) lit in
    if bool_decide (lit = []) && (prefix_last =? ch "_") then Ok None
    else finish prefix_last lit
  else finish last lit.

Definition bytes_to_int (lit : list byte) (base : Z) : Res (option Z) :=
  let lit := trim lit in
  c ←? head lit;
  let sign := if c =? ch "+" then Some Plus else if c =? ch "-" then Some Minus else None in
  let lit := match sign with Some _ => tail lit | None => lit end in
  _ ←? head lit;
  match split_radix lit base with
  | inl r => Ok r
  | inr (base, has_radix, radix_len) =>
      if (has_radix : bool) then
        let lit := drop radix_len lit in
        f ←? head lit;
        digits_to_int sign (if f =? ch "_" then tail lit else lit) base
      else digits_to_int sign lit base
  end.
End IntLit.

(** ** The value of the digits *)

(** [char::to_digit], for the characters of a digit text. *)
Abbreviation to_digit := TokenStream.to_digit.
Definition is_underscore (c : byte) : bool := c =? ch "_".

(** The digits, without the underscores. *)
Fixpoint digits (base : Z) (s : list byte) : option (list Z) :=
  match s with
  | [] => Some []
  | c :: s => if is_underscore c then digits base s
              else d ← to_digit base c; cons d <$> digits base s
  end.
Definition value (base : Z) (ds : list Z) : Z := foldl (λ v d, v * base + d) 0 ds.

(** Underscores only single and between digits; [last]: one comes just before. *)
Fixpoint separated (last : bool) (s : list byte) : bool :=
  match s with
  | [] => negb last
  | c :: s => if is_underscore c then negb last && separated true s else separated false s
  end.

Lemma value_acc base ds v : foldl (λ v d, v * base + d) v ds = v * base ^ Z.of_nat (length ds) + value base ds.
Proof.
  unfold value. revert v. induction ds as [|d ds IH]; intros v; cbn [foldl length]; [lia|].
  rewrite IH, (IH (0 * base + d)). rewrite Nat2Z.inj_succ, Z.pow_succ_r by lia. lia.
Qed.
Lemma value_cons base d ds : value base (d :: ds) = d * base ^ Z.of_nat (length ds) + value base ds.
Proof. unfold value at 1. cbn [foldl]. rewrite value_acc. lia. Qed.

Lemma to_digit_range base c d : to_digit base c = Some d → 0 ≤ d < base.
Proof.
  unfold TokenStream.to_digit. Lexer.chars_eval.
  repeat (case_match; simplify_eq); intros; simplify_eq; lia.
Qed.
Lemma digits_range base s ds : digits base s = Some ds → Forall (λ d, 0 ≤ d < base) ds.
Proof.
  revert ds. induction s as [|c s IH]; intros ds; cbn; [by intros [= <-]|].
  destruct (is_underscore c); [apply IH|].
  destruct (to_digit base c) as [d|] eqn:Hd; [|done]. cbn.
  destruct (digits base s) as [ds'|]; [|done]. intros [= <-].
  constructor; [by eapply to_digit_range|by apply IH].
Qed.
Lemma value_nonneg base ds : 0 < base → Forall (λ d, 0 ≤ d < base) ds → 0 ≤ value base ds.
Proof.
  intros Hb. induction 1 as [|d ds Hd _ IH]; [done|]. rewrite value_cons.
  pose proof (Z.pow_pos_nonneg base (Z.of_nat (length ds))). nia.
Qed.

Lemma to_digit_alphanumeric base c d :
  base ≤ 36 → to_digit base c = Some d → is_ascii_alphanumeric c = true ∧ is_underscore c = false.
Proof.
  unfold TokenStream.to_digit, is_ascii_alphanumeric, Lexer.is_ascii_digit, Lexer.is_letter, is_underscore.
  Lexer.chars_eval. intros Hb H. repeat (case_match; simplify_eq); lia.
Qed.
Lemma to_digit_zero base c d :
  1 ≤ base → to_digit base c = Some d → (d = 0 ↔ c = ch "0").
Proof.
  unfold TokenStream.to_digit. Lexer.chars_eval.
  intros Hb H. repeat (case_match; simplify_eq); lia.
Qed.

(** The characters of a digit text. *)
Lemma digits_chars base s ds :
  base ≤ 36 → digits base s = Some ds →
  Forall (λ c, is_ascii_alphanumeric c || is_underscore c = true) s.
Proof.
  intros Hb. revert ds. induction s as [|c s IH]; intros ds; cbn; [constructor|].
  destruct (is_underscore c) eqn:Hc; [intros H; constructor; [by rewrite Hc, orb_true_r|by eapply IH]|].
  destruct (to_digit base c) as [d|] eqn:Hd; [|done]. cbn.
  destruct (digits base s) as [ds'|]; [|done]. intros _.
  constructor; [|by eapply IH]. apply to_digit_alphanumeric in Hd as [-> _]; done.
Qed.

Lemma validate_separated last s :
  Forall (λ c, is_ascii_alphanumeric c || is_underscore c = true) s →
  separated (is_underscore last) s = true →
  ∃ l, validate last s = Some l ∧ is_underscore l = false.
Proof.
  intros H. revert last. induction H as [|c s Hc _ IH]; intros last; cbn.
  - rewrite negb_true_iff. by eauto.
  - change (c =? ch "_") with (is_underscore c). change (last =? ch "_") with (is_underscore last).
    rewrite Hc. cbn. intros Hs. destruct (is_underscore c) eqn:Hu; cbn.
    + apply andb_true_iff in Hs as [Hl Hs]. rewrite negb_true_iff in Hl. rewrite Hl.
      apply IH. by rewrite Hu.
    + apply IH. by rewrite Hu.
Qed.

Lemma last_cons_default {A} (x : list A) c l : List.last (c :: x) l = List.last x c.
Proof.
  revert c l. induction x as [|y x IH]; intros c l; [done|].
  change (List.last (y :: x) l = List.last (y :: x) c). by rewrite !IH.
Qed.

(** The run of zeros and underscores at the start: what is left starts with
    another digit and has the same value. *)
Lemma zeros_separated base last s ds :
  separated (is_underscore last) s = true → digits base s = Some ds → 1 ≤ base ≤ 36 →
  ∃ z rest ds', s = z ++ rest ∧ zeros last s = Some (length z) ∧
    digits base rest = Some ds' ∧ value base ds' = value base ds ∧
    (rest = [] → is_underscore (List.last z last) = false) ∧
    (rest ≠ [] → ∀ b, separated b rest = true ∧
       ∃ d ds'', ds' = d :: ds'' ∧ d ≠ 0 ∧ head rest ≠ Some (ch "_")).
Proof.
  intros Hsep Hd Hb. revert last ds Hsep Hd. induction s as [|c s IH]; intros last ds Hsep Hd.
  { exists [], [], []. cbn in *. simplify_eq. by rewrite negb_true_iff in Hsep. }
  cbn [zeros separated digits] in *.
  change (c =? ch "_") with (is_underscore c). change (last =? ch "_") with (is_underscore last).
  destruct (is_underscore c) eqn:Hc.
  - apply andb_true_iff in Hsep as [Hl Hsep]. rewrite negb_true_iff in Hl. rewrite Hl.
    destruct (IH c ds) as (z & rest & ds' & -> & Hz & H1 & H2 & H3 & H4); [by rewrite Hc|done|].
    exists (c :: z), rest, ds'. rewrite Hz, last_cons_default. done.
  - destruct (to_digit base c) as [d|] eqn:Hdc; [|done]. cbn in Hd.
    destruct (digits base s) as [ds1|] eqn:Hds; [|done]. injection Hd as <-.
    pose proof (to_digit_zero base c d ltac:(lia) Hdc) as Hz0.
    destruct (Z.eqb_spec c (ch "0")) as [Hc0|Hc0]; cbn [negb].
    + destruct (IH c ds1) as (z & rest & ds' & -> & Hz & H1 & H2 & H3 & H4); [by rewrite Hc|done|].
      exists (c :: z), rest, ds'. rewrite Hz, last_cons_default. repeat split; try done; try by apply H4.
      rewrite value_cons, (proj2 Hz0 Hc0), H2. lia.
    + exists [], (c :: s), (d :: ds1). repeat split; try done; cbn.
      * rewrite Hc, Hdc. cbn. by rewrite Hds.
      * by rewrite Hc.
      * exists d, ds1. repeat split; [tauto|]. intros [= ->]. discriminate Hc.
Qed.

(** ** What a literal stands for *)

(** The digits of a base behind its prefix. *)
Definition prefix (base : Z) : list byte :=
  if base =? 2 then text "0b" else if base =? 8 then text "0o"
  else if base =? 16 then text "0x" else [].
(** The 64-bit integer for a value: out of range at [2 ^ 64]. *)
Definition literal_value (v : Z) : option Z := if v <? 2 ^ 64 then Some (as_i64 v) else None.

Section Value.
Variable trim : list byte → list byte.
Variable parse_bytes : list byte → Z → option Z.
Context {HP : Profile}.
(** [trim] takes white space off the ends. *)
Hypothesis trim_word : ∀ s,
  Forall (λ c, is_ascii_alphanumeric c || is_underscore c = true) s → trim s = s.
(** [parse_bytes] reads digits, and skips underscores. *)
Hypothesis parse_bytes_digits : ∀ base s ds,
  2 ≤ base ≤ 36 → separated true s = true → digits base s = Some ds →
  parse_bytes s base = Some (value base ds).

Lemma value_pos base d ds :
  0 < base → Forall (λ d, 0 ≤ d < base) (d :: ds) → d ≠ 0 → 1 ≤ value base (d :: ds).
Proof using.
  intros Hb [Hd Hds]%Forall_cons Hne. rewrite value_cons.
  pose proof (value_nonneg base ds Hb Hds). pose proof (Z.pow_pos_nonneg base (Z.of_nat (length ds))).
  nia.
Qed.

Lemma to_i64_literal v : 1 ≤ v → to_i64 Plus v = Ok (literal_value v).
Proof using.
  intros. unfold to_i64, literal_value. rewrite (proj2 (Z.leb_le _ _)) by done. cbn [andb].
  by case_match.
Qed.

Lemma digits_to_int_value base s ds :
  2 ≤ base ≤ 36 → separated true s = true → digits base s = Some ds →
  digits_to_int parse_bytes None s base = Ok (literal_value (value base ds)).
Proof using parse_bytes_digits.
  intros Hb Hsep Hd. unfold digits_to_int.
  destruct s as [|c s]; [done|]. cbn [head tail].
  cbn [separated] in Hsep. destruct (is_underscore c) eqn:Hc; [done|].
  pose proof (digits_chars base _ _ ltac:(lia) Hd) as Hchars.
  destruct (Z.eqb_spec c (ch "0")) as [Hc0|Hc0].
  - pose proof Hd as Hd0. cbn [digits] in Hd0. rewrite Hc in Hd0.
    destruct (to_digit base c) as [d|] eqn:Hdc; [|done]. cbn in Hd0.
    destruct (digits base s) as [ds1|] eqn:Hds; [|done]. injection Hd0 as <-.
    destruct (zeros_separated base c s ds1) as (z & rest & ds' & -> & Hz & H1 & H2 & H3 & H4);
      [by rewrite Hc|done|lia|].
    rewrite Hz. cbn [length app]. rewrite app_comm_cons.
    assert (index ((c :: z) ++ rest) (length z) = Ok (List.last z c)) as ->.
    { unfold index. rewrite lookup_app_l by (cbn; lia). clear.
      revert c. induction z as [|y z IH]; intros c; [done|].
      rewrite last_cons_default. apply (IH y). }
    cbn [mbind Res_bind]. change (S (length z)) with (length (c :: z)). rewrite drop_app_length.
    rewrite value_cons, (proj2 (to_digit_zero base c d ltac:(lia) Hdc) Hc0), Z.mul_0_l, Z.add_0_l, <- H2.
    change (List.last z c =? ch "_") with (is_underscore (List.last z c)).
    destruct rest as [|r rest].
    + injection H1 as <-. rewrite bool_decide_true, H3 by done. cbn [andb validate].
      change (List.last z c =? ch "_") with (is_underscore (List.last z c)). by rewrite H3.
    + rewrite (bool_decide_false (r :: rest = [])) by done. cbn [andb].
      destruct (H4 ltac:(done) (is_underscore (List.last z c))) as [Hs (d' & ds'' & -> & Hd' & _)].
      destruct (validate_separated (List.last z c) (r :: rest)) as (l & -> & Hl); [|done|].
      { apply Forall_cons in Hchars as [_ Hchars]. by apply Forall_app in Hchars as [_ ?]. }
      change (l =? ch "_") with (is_underscore l). rewrite Hl, (parse_bytes_digits base _ (d' :: ds''));
        [|done|by apply H4|done].
      apply to_i64_literal, value_pos; [lia|by eapply digits_range|done].
  - destruct (validate_separated c (c :: s)) as (l & -> & Hl); [done|cbn; by rewrite Hc|].
    change (l =? ch "_") with (is_underscore l).
    rewrite Hl, bool_decide_false by done.
    rewrite (parse_bytes_digits base _ ds); [|done|cbn; by rewrite Hc|done].
    pose proof (digits_range _ _ _ Hd) as Hr. cbn [digits] in Hd. rewrite Hc in Hd.
    destruct (to_digit base c) as [d|] eqn:Hdc; [|done]. cbn in Hd.
    destruct (digits base s) as [ds1|] eqn:Hds; [|done]. injection Hd as <-.
    apply to_i64_literal, value_pos; [lia|done|].
    intros ->. apply Hc0. by apply (to_digit_zero base c 0 ltac:(lia) Hdc).
Qed.

(** C32: An integer literal of base 2, 8, 10 or 16, its digits possibly separated
    by single underscores, stands for the value of the digits: exactly, while
    this is below [2 ^ 63], as the wrapped negative integer below [2 ^ 64], and
    for none from there on; no slice on the way is out of range. *)
Theorem int_literal_value base s ds :
  base ∈ [2; 8; 10; 16] → separated true s = true → digits base s = Some ds →
  (base = 10 → head s = Some (ch "0") → s = text "0") →
  bytes_to_int trim parse_bytes (prefix base ++ s) 0 = Ok (literal_value (value base ds)) ∧
  (value base ds < 2 ^ 63 → literal_value (value base ds) = Some (value base ds)).
Proof using trim_word parse_bytes_digits.
  intros Hb Hsep Hd H10. assert (2 ≤ base ≤ 36) as Hr.
  { rewrite !elem_of_cons, elem_of_nil in Hb. lia. }
  assert (0 ≤ value base ds) as Hv.
  { apply value_nonneg; [lia|]. by eapply digits_range. }
  split.
  2:{ intros H. unfold literal_value. rewrite (proj2 (Z.ltb_lt _ _)) by lia. f_equal.
      unfold wrap_int. rewrite Z.mod_small; lia. }
  pose proof (digits_chars base s ds ltac:(lia) Hd) as Hchars.
  assert (∃ c s', s = c :: s' ∧ is_underscore c = false ∧ is_ascii_alphanumeric c = true) as (c & s' & Hs & Hc & Ha).
  { destruct s as [|c s']; [done|]. exists c, s'. cbn in Hsep. destruct (is_underscore c) eqn:Hc; [done|].
    apply Forall_cons in Hchars as [Hc' _]. rewrite Hc, orb_false_r in Hc'. done. }
  unfold bytes_to_int.
  rewrite trim_word by (apply Forall_app; split; [|done]; unfold prefix; repeat case_match;
    repeat constructor).
  assert ((c =? ch "+") = false ∧ (c =? ch "-") = false) as [Hp Hm].
  { unfold is_ascii_alphanumeric, Lexer.is_ascii_digit, Lexer.is_letter in Ha. Lexer.chars_eval. lia. }
  rewrite !elem_of_cons, elem_of_nil in Hb. destruct Hb as [-> |[-> |[-> |[-> |[]]]]].
  3: { unfold prefix. cbn [Z.eqb Pos.eqb app]. rewrite Hs. cbn [head]. rewrite Hp, Hm. cbn [head].
    unfold split_radix. cbn [head Z.eqb].
    case_bool_decide as H0; [|rewrite <- Hs; by apply digits_to_int_value].
    assert (s = text "0") as Hs0 by (apply H10; [done|by rewrite Hs]).
    rewrite <- Hs, Hs0. rewrite Hs0 in Hd.
    assert (digits 10 (text "0") = Some [0]) as E by done. rewrite E in Hd. by injection Hd as <-. }
  all: unfold prefix, Lexer.text; cbn -[digits_to_int]; unfold split_radix, detect_base, is_underscore in *;
    Lexer.chars_eval; rewrite bool_decide_true by done; cbn -[digits_to_int]; rewrite Hs;
    rewrite drop_0; cbn [head]; rewrite Hc, <- Hs; by apply digits_to_int_value.
Qed.
End Value.

(** ** Concrete literals *)

(** A [parse_bytes] that does what is relied on. *)
Definition read_digits (s : list byte) (base : Z) : option Z := value base <$> digits base s.
Definition release : Profile := {| overflow_checks := false |}.

Lemma int_literal_value_witness :
  separated true (text "1_000") = true ∧
  bytes_to_int (HP := release) id read_digits (prefix 16 ++ text "1_000") 0 = Ok (Some 4096).
Proof.
  assert (∀ base s ds, 2 ≤ base ≤ 36 → separated true s = true → digits base s = Some ds →
    read_digits s base = Some (value base ds)) as Hparse.
  { unfold read_digits. intros base s ds _ _ ->. reflexivity. }
  assert (16 ∈ [2; 8; 10; 16]) as Hb by (rewrite !elem_of_cons; tauto).
  assert (16 = 10 → head (text "1_000") = Some (ch "0") → text "1_000" = text "0") as H10
    by (intros H; discriminate H).
  split; [reflexivity|].
  destruct (int_literal_value (HP := release) id read_digits (λ s _, eq_refl) Hparse 16 (text "1_000")
    [1; 0; 0; 0] Hb eq_refl eq_refl H10) as [H _].
  rewrite H. reflexivity.
Defined.

(** From [2 ^ 63] on, a literal is a negative integer. *)
Example int_literal_wraps :
  bytes_to_int (HP := release) id read_digits (text "9223372036854775808") 0 = Ok (Some (- 2 ^ 63)) ∧
  bytes_to_int (HP := release) id read_digits (text "18446744073709551615") 0 = Ok (Some (-1)).
Proof. vm_compute. split; reflexivity. Qed.
