(* ===== verification/Ast.v ===== *)
(** * The syntax tree

    The tree of [ast/src/ast.rs].  Positions and node identifiers are left out,
    and so are the fields that the parser fills with a constant ([pkgpath],
    [ctx], [pkg_name], the [doc] of an attribute) or copies from another field
    ([rawpath], the text of the type of a type alias; [is_long_string] of a
    formatted value is always [false]).  A name is its text; a
    dotted identifier is the list of its names. *)

From stdpp Require Import base tactics list numbers strings.
From Stdlib Require Import ZArith Floats.
From S2P Require Import Prelude Token.
Local Open Scope Z_scope.

(** ** Operators *)

Inductive UnaryOp := UAdd | USub | Invert | Not.
#[export] Instance UnaryOp_eq_dec : EqDecision UnaryOp.
Proof. solve_decision. Defined.

Inductive BinOp :=
  | Add | Sub | Mul | Div | Mod | Pow | FloorDiv | LShift | RShift | BitXor | BitAnd | BitOr
  | And | Or | As.
#[export] Instance BinOp_eq_dec : EqDecision BinOp.
Proof. solve_decision. Defined.

(** The comparison operators, with the prefix [C]. *)
Inductive CmpOp := CEq | CNotEq | CLt | CLtE | CGt | CGtE | CIs | CIn | CNotIn | CNot | CIsNot.
#[export] Instance CmpOp_eq_dec : EqDecision CmpOp.
Proof. solve_decision. Defined.

Inductive BinOrCmpOp := Bin (op : BinOp) | Cmp (op : CmpOp).
#[export] Instance BinOrCmpOp_eq_dec : EqDecision BinOrCmpOp.
Proof. solve_decision. Defined.

Definition BinOp_symbol (op : BinOp) : string :=
  match op with
  | Add => "+" | Sub => "-" | Mul => "*" | Div => "/" | Mod => "%" | Pow => "**"
  | FloorDiv => "//" | LShift => "<<" | RShift => ">>" | BitXor => "^" | BitAnd => "&"
  | BitOr => "|" | And => "and" | Or => "or" | As => "as"
  end.
Definition CmpOp_symbol (op : CmpOp) : string :=
  match op with
  | CEq => "==" | CNotEq => "!=" | CLt => "<" | CLtE => "<=" | CGt => ">" | CGtE => ">="
  | CIs => "is" | CIn => "in" | CNotIn => "not in" | CNot => "not" | CIsNot => "is not"
  end.
Definition BinOp_all_symbols : list string :=
  BinOp_symbol <$> [Add; Sub; Mul; Div; Mod; Pow; FloorDiv; LShift; RShift; BitXor; BitAnd; BitOr;
                    And; Or; As].
Definition CmpOp_all_symbols : list string :=
  CmpOp_symbol <$> [CEq; CNotEq; CLt; CLtE; CGt; CGtE; CIs; CIn; CNotIn; CNot; CIsNot].
Definition all_symbols : list string := BinOp_all_symbols ++ CmpOp_all_symbols.

(** [UnaryOp::try_from] and [BinOrCmpOp::try_from] a token. *)
Definition UnaryOp_try_from (t : Token) : option UnaryOp :=
  match kind t with
  | Token.UnaryOp UTilde => Some Invert
  | Token.UnaryOp UNot => Some Not
  | Token.BinOp Plus => Some UAdd
  | Token.BinOp Minus => Some USub
  | _ => if is_keyword kw.Not t then Some Not else None
  end.
Definition BinOrCmpOp_try_from (t : Token) : option BinOrCmpOp :=
  match kind t with
  | Token.BinOp ot =>
      Some (Bin match ot with
                | Plus => Add | Minus => Sub | Star => Mul | Slash => Div | Percent => Mod
                | StarStar => Pow | SlashSlash => FloorDiv | Caret => BitXor | Token.And => BitAnd
                | Token.Or => BitOr | Shl => LShift | Shr => RShift
                end)
  | BinCmp ct =>
      Some (Cmp match ct with
                | Eq => CEq | NotEq => CNotEq | Lt => CLt | LtEq => CLtE | Gt => CGt | GtEq => CGtE
                end)
  | _ =>
      if is_keyword kw.As t then Some (Bin As)
      else if is_keyword kw.Or t then Some (Bin Or)
      else if is_keyword kw.And t then Some (Bin And)
      else if is_keyword kw.In t then Some (Cmp CIn)
      else if is_keyword kw.Is t then Some (Cmp CIs)
      else None
  end.

(** ** Precedence *)

(** [parser/precedence.rs].  [PartialOrd] is derived: the order is that of the
    constructors.  Those with the prefix [P] share their name with an operator. *)
Inductive Precedence :=
  | Lowest | PAs | LogicOr | LogicAnd | Equals | InOrNotIn | IsOrIsNot | LessGreater
  | PBitOr | PBitXor | PBitAnd | Shift | Sum | Product | Power | Prefix.
Definition rank (p : Precedence) : nat :=
  match p with
  | Lowest => 0 | PAs => 1 | LogicOr => 2 | LogicAnd => 3 | Equals => 4 | InOrNotIn => 5
  | IsOrIsNot => 6 | LessGreater => 7 | PBitOr => 8 | PBitXor => 9 | PBitAnd => 10 | Shift => 11
  | Sum => 12 | Product => 13 | Power => 14 | Prefix => 15
  end.

Definition Precedence_from (t : Token) : Precedence :=
  if is_keyword kw.As t then PAs
  else match kind t with
       | Token.UnaryOp _ => Prefix
       | Token.BinOp ot =>
           match ot with
           | Plus | Minus => Sum
           | Star | Slash | Percent | SlashSlash => Product
           | StarStar => Power
           | Caret => PBitXor
           | Token.And => PBitAnd
           | Token.Or => PBitOr
           | Shl | Shr => Shift
           end
       | BinCmp ct => match ct with Eq | NotEq => Equals | _ => LessGreater end
       | _ =>
           if is_keyword kw.Or t then LogicOr
           else if is_keyword kw.And t then LogicAnd
           else if is_keyword kw.In t then InOrNotIn
           else if is_keyword kw.Is t then IsOrIsNot
           else Lowest
       end.

(** ** Expressions *)

(** The names of a dotted identifier. *)
Abbreviation Identifier := (list Symbol).

Inductive QuantOperation := All | Any | Filter | Map.
#[export] Instance QuantOperation_eq_dec : EqDecision QuantOperation.
Proof. solve_decision. Defined.
Inductive ConfigEntryOperation := Union | Override | Insert.
#[export] Instance ConfigEntryOperation_eq_dec : EqDecision ConfigEntryOperation.
Proof. solve_decision. Defined.
Inductive NameConstant := NTrue | NFalse | NNone | NUndefined.
#[export] Instance NameConstant_eq_dec : EqDecision NameConstant.
Proof. solve_decision. Defined.
(** A binary suffix is its name. *)
Abbreviation NumberBinarySuffix := Symbol (only parsing).
(** [NumberBinarySuffix::try_from]: all the names that the lexer takes for
    suffixes but "i". *)
Definition suffix_try_from (s : Symbol) : option NumberBinarySuffix :=
  if bool_decide (s ∈ intern <$>
       ["n"; "u"; "m"; "k"; "K"; "M"; "G"; "T"; "P"; "Ki"; "Mi"; "Gi"; "Ti"; "Pi"]%string)
  then Some s else None.
Inductive NumberLitValue := Int (v : Z) | FloatLit (v : float).
Record StringLit := MkStringLit { is_long_string : bool; value : Symbol; raw_value : Symbol }.

Record Keyword (E : Type) := MkKeyword { kw_arg : Identifier; kw_value : option E }.
Arguments MkKeyword {E}.
Arguments kw_arg {E}.
Arguments kw_value {E}.
Record ConfigEntry (E : Type) := MkEntry {
  key : option E; entry_value : E; operation : ConfigEntryOperation;
}.
Arguments MkEntry {E}.
Arguments key {E}.
Arguments entry_value {E}.
Arguments operation {E}.
Record CompClause (E : Type) := MkClause { targets : list Identifier; iter : E; ifs : list E }.
Arguments MkClause {E}.
Arguments targets {E}.
Arguments iter {E}.
Arguments ifs {E}.

(** The expression that is called, its arguments and its keywords. *)
Record CallExpr (E : Type) := MkCall {
  func : E; args : list E; keywords : list (Keyword E);
}.
Arguments MkCall {E}.
Arguments func {E}.
Arguments args {E}.
Arguments keywords {E}.
Record CheckExpr (E : Type) := MkCheck { test : E; if_cond : option E; msg : option E }.
Arguments MkCheck {E}.
Arguments test {E}.
Arguments if_cond {E}.
Arguments msg {E}.

(** ** Types *)

Inductive BasicType := TBool | TInt | TFloat | TStr.
Inductive LiteralType :=
  | LBool (b : bool)
  | LInt (v : Z) (suffix : option NumberBinarySuffix)
  | LFloat (v : float)
  | LStr (s : Symbol).
(** The constructors have the prefix [T]. *)
#[local] Set Warnings "-register-all".
Inductive Type_ :=
  | TAny
  | TNamed (names : Identifier)
  | TBasic (b : BasicType)
  | TList (inner_type : option Type_)
  | TDict (key_type value_type : option Type_)
  | TUnion (type_elements : list Type_)
  | TLiteral (l : LiteralType)
  | TFunction (params_ty : option (list Type_)) (ret_ty : option Type_).

(** ** Parts of statements *)

(** The names, the defaults and the types of parameters. *)
Record Arguments_ (E : Type) := MkArguments {
  arg_names : list Identifier; defaults : list (option E); ty_list : list (option Type_);
}.
Arguments MkArguments {E}.
Arguments arg_names {E}.
Arguments defaults {E}.
Arguments ty_list {E}.

Inductive AugOp :=
  | AAssign | AAdd | ASub | AMul | ADiv | AMod | APow | AFloorDiv | ALShift | ARShift
  | ABitXor | ABitAnd | ABitOr.
#[export] Instance AugOp_eq_dec : EqDecision AugOp.
Proof. solve_decision. Defined.
Definition AugOp_symbol (op : AugOp) : string :=
  match op with
  | AAssign => "=" | AAdd => "+=" | ASub => "-=" | AMul => "*=" | ADiv => "/=" | AMod => "%="
  | APow => "**=" | AFloorDiv => "//=" | ALShift => "<<=" | ARShift => ">>=" | ABitXor => "^="
  | ABitAnd => "&=" | ABitOr => "|="
  end.
Definition AugOp_from (op : BinOpToken) : AugOp :=
  match op with
  | Plus => AAdd | Minus => ASub | Star => AMul | Slash => ADiv | Percent => AMod
  | StarStar => APow | SlashSlash => AFloorDiv | Caret => ABitXor | Token.And => ABitAnd
  | Token.Or => ABitOr | Shl => ALShift | Shr => ARShift
  end.
Definition AugOp_try_into_BinOp (op : AugOp) : option BinOp :=
  match op with
  | AAssign => None
  | AAdd => Some Add | ASub => Some Sub | AMul => Some Mul | ADiv => Some Div | AMod => Some Mod
  | APow => Some Pow | AFloorDiv => Some FloorDiv | ALShift => Some LShift
  | ARShift => Some RShift | ABitXor => Some BitXor | ABitAnd => Some BitAnd
  | ABitOr => Some BitOr
  end.

Inductive MemberOrIndex (E : Type) := Member (name : Symbol) | Index (index : E).
Arguments Member {E}.
Arguments Index {E}.
Record Target (E : Type) := MkTarget { target_name : Symbol; paths : list (MemberOrIndex E) }.
Arguments MkTarget {E}.
Arguments target_name {E}.
Arguments paths {E}.

Record SchemaIndexSignature (E : Type) := MkSignature {
  key_name : option Symbol; key_ty : Type_; value_ty : Type_; sig_value : option E;
  any_other : bool;
}.
Arguments MkSignature {E}.
Record SchemaAttr (E : Type) := MkAttr {
  attr_name : Symbol; attr_ty : Type_; attr_op : option AugOp; attr_value : option E;
  is_optional : bool; attr_decorators : list (CallExpr E);
}.
Arguments MkAttr {E}.
Record RuleStmt (E : Type) := MkRule {
  rule_doc : option Symbol; rule_name : Symbol; parent_rules : list Identifier;
  rule_decorators : list (CallExpr E); rule_checks : list (CheckExpr E);
  rule_args : option (Arguments_ E); rule_for_host_name : option Identifier;
}.
Arguments MkRule {E}.
Record SchemaStmt (E S : Type) := MkSchema {
  doc : option Symbol; schema_name : Symbol; parent_name : option Identifier;
  for_host_name : option Identifier; is_mixin : bool; is_protocol : bool;
  schema_args : option (Arguments_ E); mixins : list Identifier; schema_body : list S;
  decorators : list (CallExpr E); checks : list (CheckExpr E);
  index_signature : option (SchemaIndexSignature E);
}.
Arguments MkSchema {E S}.

(** ** Expressions and statements *)

Inductive Expr :=
  | IdentifierExpr (names : Identifier)
  | Unary (op : UnaryOp) (operand : Expr)
  | Binary (left : Expr) (op : BinOp) (right : Expr)
  | If (body cond orelse : Expr)
  | Selector (value : Expr) (attr : Identifier) (has_question : bool)
  | Call (call : CallExpr Expr)
  | ParenExpr (expr : Expr)
  | Quant (target : Expr) (variables : list Identifier) (op : QuantOperation) (test : Expr)
      (if_cond : option Expr)
  | ListExpr (elts : list Expr)
  | ListIfItem (if_cond : Expr) (exprs : list Expr) (orelse : option Expr)
  | ListComp (elt : Expr) (generators : list (CompClause Expr))
  | Starred (value : Expr)
  | DictComp (entry : ConfigEntry Expr) (generators : list (CompClause Expr))
  | ConfigIfEntry (if_cond : Expr) (items : list (ConfigEntry Expr)) (orelse : option Expr)
  | Schema (name : Identifier) (args : list Expr) (kwargs : list (Keyword Expr)) (config : Expr)
  | Config (items : list (ConfigEntry Expr))
  | Check (check : CheckExpr Expr)
  | Lambda (args : option (Arguments_ Expr)) (return_ty : option Type_) (body : list Stmt)
  | Subscript (value : Expr) (index lower upper step : option Expr) (has_question : bool)
  | Compare (left : Expr) (ops : list CmpOp) (comparators : list Expr)
  | NumberLit (binary_suffix : option NumberBinarySuffix) (value : NumberLitValue)
  | StringLitExpr (lit : StringLit)
  | NameConstantLit (value : NameConstant)
  | JoinedString (is_long_string : bool) (raw_value : Symbol) (values : list Expr)
  | FormattedValue (value : Expr) (format_spec : option Symbol)
  | Missing
with Stmt : Set :=
  | STypeAlias (type_name : Identifier) (ty : Type_)
  | SExpr (exprs : list Expr)
  | SUnification (target : Identifier) (value : Expr)
  | SAssign (targets : list (Target Expr)) (value : Expr) (ty : option Type_)
  | SAugAssign (target : Target Expr) (op : AugOp) (value : Expr)
  | SAssert (test : Expr) (if_cond msg : option Expr)
  | SIf (cond : Expr) (body orelse : list Stmt)
  | SImport (path : Symbol) (name : Symbol) (asname : option Symbol)
  | SSchemaAttr (attr : SchemaAttr Expr)
  | SSchema (schema : SchemaStmt Expr Stmt)
  | SRule (rule : RuleStmt Expr).

(** [Expr::get_expr_name], of the expressions that the parser makes. *)
Definition get_expr_name (e : Expr) : string :=
  match e with
  | IdentifierExpr _ => "IdentifierExpression"
  | Unary _ _ => "UnaryExpression"
  | Binary _ _ _ => "BinaryExpression"
  | If _ _ _ => "IfExpression"
  | Selector _ _ _ => "SelectorExpression"
  | Call _ => "CallExpression"
  | ParenExpr _ => "ParenExpression"
  | Quant _ _ _ _ _ => "QuantExpression"
  | ListExpr _ => "ListExpression"
  | ListIfItem _ _ _ => "ListIfItemExpression"
  | ListComp _ _ => "ListCompExpression"
  | Starred _ => "StarredExpression"
  | DictComp _ _ => "DictCompExpression"
  | ConfigIfEntry _ _ _ => "ConfigIfEntryExpression"
  | Schema _ _ _ _ => "SchemaExpression"
  | Config _ => "ConfigExpression"
  | Check _ => "CheckExpression"
  | Lambda _ _ _ => "LambdaExpression"
  | Subscript _ _ _ _ _ _ => "SubscriptExpression"
  | Compare _ _ _ => "CompareExpression"
  | NumberLit _ _ => "NumberLitExpression"
  | StringLitExpr _ => "StringLitExpression"
  | NameConstantLit _ => "NameConstantLitExpression"
  | JoinedString _ _ _ => "JoinedStringExpression"
  | FormattedValue _ _ => "FormattedValueExpression"
  | Missing => "MissingExpression"
  end.

Record Module_ := MkModule { module_doc : option Symbol; comments : list Symbol; body : list Stmt }.
(** [Module::filter_schema_stmt_from_module]. *)
Definition filter_schema_stmt_from_module (m : Module_) : list (SchemaStmt Expr Stmt) :=
  omap (λ s, match s with SSchema s => Some s | _ => None end) (body m).

(** An assignment operator other than [=] is the operator of the token in front
    of its equals sign. *)
Lemma AugOp_from_symbol t :
  AugOp_symbol (AugOp_from t) = BinOpEq_to_string t ∧
  BinOp_symbol <$> AugOp_try_into_BinOp (AugOp_from t) = Some (BinOpToken_to_string t).
Proof. by destruct t. Qed.
