(* ===== verification/Parser.v ===== *)
(** * The state of the parser

    [parser/src/parser/mod.rs]: the current token and the one before it, the
    cursor over the stream, the comments and the diagnostics, which go to the
    session.

    The cursor is what is left of the stream: its index only serves to see
    whether a token was taken, and so does its length here.  A parser is a
    function on the state that returns, panics or runs out of fuel: the loops
    of the parser go on until they meet a token, and nothing in them says that
    they do, so a loop has a bound and [None] says that it was reached. *)

From stdpp Require Import base tactics list numbers strings.
From Stdlib Require Import ZArith Floats.
From S2P Require Import Prelude Token Ast.
From S2P Require TokenStream.
Local Open Scope Z_scope.

(** ** The state and its monad *)

Inductive PMessage :=
  | PMsg (s : string)
  | UnexpectedToken (tok : Symbol)
  | ExpectExpr (tok : Symbol)
  | ExpectedExprGot (tok : Symbol)
  | ExpectedSignature (tok : Symbol)
  | InvalidIndentation (n : nat)
  | MultipleComp (what : string) (n : nat)
  | IllegalAssign (expr_name : string) (reason : string)
  | InvalidTokenElseIf
  | InvalidStringInterpolationExpr (src : Symbol)
  | InvalidJoinedStringSpec
  | InvalidJoinedStringExpr.
(** The expected tokens and the one found, a message at a span with suggestions,
    or what the lexer reports of the text inside of a string. *)
Inductive PDiagnostic :=
  | TokenError (expected : list string) (got : Token)
  | SpanError (msg : PMessage) (sp : Span) (suggestions : option (list string))
  | LexError (d : TokenStream.Diagnostic).

Record Parser := MkParser {
  token : Token;
  prev_token : Token;
  cursor : list Token;
  parse_errors : list PDiagnostic;
}.

(** [split_token_stream]: the tokens without comments, ended by a newline and
    [Eof], and the comments. *)
Fixpoint split_tokens (prev : TokenKind) (ts : list Token) : list Token * list Symbol :=
  match ts with
  | [] => ([], [])
  | t :: ts =>
      match kind t with
      | Eof => (match prev with Newline => [t] | _ => [MkToken Newline (tok_span t); t] end, [])
      | DocComment (Line x) =>
          let '(tokens, comments) := split_tokens (kind t) ts in (tokens, x :: comments)
      | k => let '(tokens, comments) := split_tokens k ts in (t :: tokens, comments)
      end
  end.
Definition split_token_stream (ts : list Token) : list Token * list Symbol := split_tokens Dummy ts.

(** A parser runs out of fuel ([None]), panics or returns. *)
Definition M (A : Type) : Type := Parser → option (Res (A * Parser)).
#[export] Instance M_ret : MRet M := λ A a p, Some (Ok (a, p)).
#[export] Instance M_bind : MBind M := λ A B f m p,
  match m p with
  | None => None
  | Some (Panic e) => Some (Panic e)
  | Some (Ok (a, p)) => f a p
  end.
Definition out_of_fuel {A} : M A := λ _, None.
Definition lift {A} (r : Res A) : M A := λ p,
  Some match r with Ok a => Ok (a, p) | Panic e => Panic e end.
Definition panic_with {A} (e : panic) : M A := λ _, Some (Panic e).
Definition get : M Parser := λ p, Some (Ok (p, p)).
Definition get_token : M Token := λ p, Some (Ok (token p, p)).
Definition get_kind : M TokenKind := λ p, Some (Ok (kind (token p), p)).
Definition get_prev : M Token := λ p, Some (Ok (prev_token p, p)).
Definition when (b : bool) (m : M ()) : M () := if b then m else mret tt.

Definition report (d : PDiagnostic) : M () :=
  λ p, Some (Ok (tt, MkParser (token p) (prev_token p) (cursor p) (d :: parse_errors p))).
Definition struct_token_error (expected : list string) (got : Token) : M () :=
  report (TokenError expected got).
Definition struct_span_error (msg : PMessage) (sp : Span) : M () := report (SpanError msg sp None).
(** The same at the current token. *)
Definition expected_error (expected : list string) : M () :=
  t ← get_token; struct_token_error expected t.
Definition error_here (msg : PMessage) : M () := t ← get_token; struct_span_error msg (tok_span t).

Definition bump : M () := λ p,
  Some (Ok (tt, match cursor p with
                | t :: ts => MkParser t (token p) ts (parse_errors p)
                | [] => MkParser (token p) (token p) [] (parse_errors p)
                end)).
(** [Parser::new], with the comments. *)
Definition start (ts : list Token) (diags : list PDiagnostic) : Parser :=
  match ts with
  | t :: ts => MkParser t dummy ts diags
  | [] => MkParser dummy dummy [] diags
  end.
Definition new (ts : list Token) (diags : list PDiagnostic) : Parser * list Symbol :=
  let '(tokens, comments) := split_token_stream ts in (start tokens diags, comments).

Definition peek_token : M (option Token) := λ p, Some (Ok (head (cursor p), p)).
Definition is_kw (kw : Symbol) : M bool := t ← get_token; mret (is_keyword kw t).
Definition is_kind (k : TokenKind) : M bool := k' ← get_kind; mret (bool_decide (k' = k)).
Abbreviation name k := (TokenKind_to_string k).

Definition bump_keyword (kw : string) : M () :=
  b ← is_kw (Token.intern kw);
  when (negb b) (expected_error [kw]);;
  bump.
Definition bump_token (k : TokenKind) : M () :=
  b ← is_kind k;
  when (negb b) (expected_error [name k]);;
  bump.
(** Bump the token when it is the one expected, and report it otherwise. *)
Definition expect (k : TokenKind) : M () :=
  b ← is_kind k;
  if (b : bool) then bump else expected_error [name k].

(** [mark] and [drop]: a turn of a loop that took no token is reported and
    takes one. *)
Definition mark : M nat := λ p, Some (Ok (length (cursor p), p)).
Definition drop_marker (marker : nat) : M bool :=
  here ← mark;
  if (marker =? here)%nat then
    t ← get_token;
    struct_span_error (ExpectExpr (Token_to_string t)) (tok_span t);;
    bump;; mret true
  else mret false.

(** A loop: [body] goes on with the next value or ends with the result. *)
Fixpoint loop {A B} (fuel : nat) (body : A → M (A + B)) (a : A) : M B :=
  match fuel with
  | O => out_of_fuel
  | S fuel => r ← body a; match r with inl a => loop fuel body a | inr b => mret b end
  end.
Definition continue {A B} (a : A) : M (A + B) := mret (inl a).
Definition break {A B} (b : B) : M (A + B) := mret (inr b).
(** [while cond(token.kind) { bump }] *)
Definition bump_while (fuel : nat) (cond : TokenKind → bool) : M () :=
  loop fuel (λ _, k ← get_kind; if cond k then bump;; continue tt else break tt) tt.


(** ** Newlines and indentation *)

Section Skip.
Variable fuel : nat.

Definition skip_newlines : M () := bump_while fuel (λ k, bool_decide (k = Newline)).
Definition clean_all_indent : M () :=
  bump_while fuel (λ k, match k with Indent _ => true | _ => false end).
Definition clean_all_dedent : M () :=
  bump_while fuel (λ k, match k with Dedent _ => true | _ => false end).
Definition clean_all_indentations : M () := clean_all_indent;; clean_all_dedent.
End Skip.
Definition validate_dedent : M () :=
  t ← get_token;
  match kind t with
  | Dedent (S n) => struct_span_error (InvalidIndentation (S n)) (tok_span t);; bump
  | _ => mret tt
  end.
Abbreviation INDENT := (Indent VALID_SPACES_LENGTH).
Abbreviation DEDENT := (Dedent VALID_SPACES_LENGTH).
