(* ===== verification/ParseType.v ===== *)
(** * The parsers of types and of parameters

    [parser/src/parser/ty.rs], and of [expr.rs] and [stmt.rs] the dotted
    identifiers and the lists of parameters.  A literal type is read with the
    number parsers of the language and unwrapped. *)

From stdpp Require Import base tactics list numbers strings.
From Stdlib Require Import ZArith Floats.
From S2P Require Import Prelude Token Ast Parser.
Local Open Scope Z_scope.

(** ** Numbers *)

(** [str::parse::<i64>]: an optional sign and digits, within range. *)
Fixpoint decimal (acc : Z) (s : Symbol) : option Z :=
  match s with
  | [] => Some acc
  | c :: s => if (48 <=? c) && (c <=? 57) then decimal (acc * 10 + (c - 48)) s else None
  end.
Definition parse_i64 (s : Symbol) : option Z :=
  let '(negative, digits) := match s with
                             | 43 :: s => (false, s)
                             | 45 :: s => (true, s)
                             | s => (false, s)
                             end in
  match digits with
  | [] => None
  | _ =>
      v ← decimal 0 digits;
      let v := if negative : bool then - v else v in
      if (- 2 ^ 63 <=? v) && (v <? 2 ^ 63) then Some v else None
  end.

(** ** Identifiers *)

Section Identifiers.
Variable fuel : nat.

(** The dotted names behind the first. *)
Definition names_step (names : Identifier) : M (Identifier + Identifier) :=
  k ← get_kind;
  match k with
  | Dot =>
      bump;;
      t ← get_token;
      match ident t with
      | Some (id, _) => bump;; continue (names ++ [id])
      | None => struct_token_error ["identifier"%string] t;; continue (names ++ [[]])
      end
  | _ => break names
  end.
Definition parse_identifier : M Identifier :=
  t ← get_token;
  match ident t with
  | None => expected_error ["identifier"%string];; mret [[]]
  | Some (id, _) =>
      bump;;
      loop fuel names_step [id]
  end.
Definition parse_identifier_expr : M Expr := names ← parse_identifier; mret (IdentifierExpr names).
End Identifiers.

Section Types.
Variable parse_f64 : Symbol → option float.
Variable fuel : nat.
Variable parse_type_annotation_rec : M Type_.

(** ** Types *)

Definition parse_literal_type (lit : Lit) : M LiteralType :=
  match lit_kind lit with
  | Bool =>
      if bool_decide (symbol lit = kw.True) then mret (LBool true)
      else if bool_decide (symbol lit = kw.False) then mret (LBool false)
      else expected_error ["True"; "False"]%string;; mret (LBool false)
  | Integer =>
      v ← lift (unwrap (parse_i64 (symbol lit)));
      match suffix lit with
      | Some suffix => x ← lift (unwrap (suffix_try_from suffix)); mret (LInt v (Some x))
      | None => mret (LInt v None)
      end
  | Float => v ← lift (unwrap (parse_f64 (symbol lit))); mret (LFloat v)
  | Str _ _ => mret (LStr (symbol lit))
  | _ =>
      t ← get_token;
      if is_keyword kw.True t then mret (LBool true)
      else if is_keyword kw.False t then mret (LBool false)
      else struct_token_error ["True"; "False"]%string t;; mret (LBool false)
  end.

(** The parameters of a function type, up to the closing parenthesis. *)
Definition parse_params_type : M (list Type_) :=
  loop fuel (λ params,
    close ← is_kind (CloseDelim Paren);
    next ← peek_token;
    if close || negb (bool_decide (is_Some next)) then break params
    else
      t ← parse_type_annotation_rec;
      comma ← is_kind Comma;
      when comma (bump_token Comma);;
      continue (params ++ [t])) [].

Definition parse_type_element : M Type_ :=
  t ← get_token;
  if is_keyword kw.Any t then bump_keyword "any";; mret TAny
  else if is_keyword kw.True t then bump_keyword "True";; mret (TLiteral (LBool true))
  else if is_keyword kw.False t then bump_keyword "False";; mret (TLiteral (LBool false))
  else if is_keyword sym.bool t then bump_keyword "bool";; mret (TBasic TBool)
  else if is_keyword sym.int t then bump_keyword "int";; mret (TBasic TInt)
  else if is_keyword sym.float t then bump_keyword "float";; mret (TBasic TFloat)
  else if is_keyword sym.str t then bump_keyword "str";; mret (TBasic TStr)
  else
    match kind t with
    | Ident _ => names ← parse_identifier fuel; mret (TNamed names)
    | Literal lit => l ← parse_literal_type lit; bump;; mret (TLiteral l)
    | OpenDelim Bracket =>
        bump_token (OpenDelim Bracket);;
        close ← is_kind (CloseDelim Bracket);
        if (close : bool) then bump;; mret (TList None)
        else
          elem ← parse_type_annotation_rec;
          bump_token (CloseDelim Bracket);;
          mret (TList (Some elem))
    | OpenDelim Brace =>
        bump_token (OpenDelim Brace);;
        colon ← is_kind Colon;
        key ← (if (colon : bool) then mret None else t ← parse_type_annotation_rec; mret (Some t));
        bump_token Colon;;
        close ← is_kind (CloseDelim Brace);
        value ← (if (close : bool) then mret None else t ← parse_type_annotation_rec; mret (Some t));
        bump_token (CloseDelim Brace);;
        mret (TDict key value)
    | OpenDelim Paren =>
        bump_token (OpenDelim Paren);;
        params ← parse_params_type;
        bump_token (CloseDelim Paren);;
        arrow ← is_kind RArrow;
        ret ← (if (arrow : bool) then
                 bump_token RArrow;; t ← parse_type_annotation_rec; mret (Some t)
               else mret None);
        mret (TFunction (match params with [] => None | _ => Some params end) ret)
    | _ =>
        struct_token_error
          ["any"; "bool"; "int"; "float"; "str"; "True"; "False"; "identifier"; "literal";
           name (OpenDelim Bracket); name (OpenDelim Brace); name (CloseDelim Paren)]%string t;;
        bump;;
        mret TAny
    end.

Definition parse_type_annotation : M Type_ :=
  first ← parse_type_element;
  types ← loop fuel (λ types,
    k ← get_kind;
    match k with
    | Token.BinOp Token.Or => bump;; t ← parse_type_element; continue (types ++ [t])
    | _ => break types
    end) [first];
  mret match types with
       | [] | [_] => first
       | _ => TUnion types
       end.

(** ** Parameters *)

Variable parse_expr : M Expr.

(** [parse_parameters].  An opening token is asked for when there are some. *)
Definition parse_parameters (open_tokens close_tokens : list TokenKind)
    (bump_close multiline : bool) : M (option (Arguments_ Expr)) :=
  k ← get_kind;
  let has_open_token := bool_decide (k ∈ open_tokens) in
  when has_open_token (bump_token k);;
  if negb (bool_decide (open_tokens = [])) && negb has_open_token then mret None
  else
    let skip_lines :=
      newline ← is_kind Newline;
      when (multiline && newline) (skip_newlines fuel;; clean_all_indentations fuel) in
    args ← loop fuel (λ args,
      marker ← mark;
      k ← get_kind;
      if bool_decide (k ∈ close_tokens) then when bump_close (bump_token k);; break args
      else
        skip_lines;;
        k ← get_kind;
        match k with
        | Newline | Eof => expected_error (TokenKind_to_string <$> close_tokens);; break args
        | _ =>
            name ← parse_identifier fuel;
            colon ← is_kind Colon;
            ty ← (if (colon : bool) then
                    bump_token Colon;; t ← parse_type_annotation; mret (Some t)
                  else mret None);
            assign ← is_kind Assign;
            value ← (if (assign : bool) then
                       bump_token Assign;; e ← parse_expr; mret (Some e)
                     else mret None);
            comma ← is_kind Comma;
            when comma bump;;
            skip_lines;;
            drop_marker marker;;
            continue (MkArguments (arg_names args ++ [name]) (defaults args ++ [value])
                        (ty_list args ++ [ty]))
        end) (MkArguments [] [] []);
    skip_newlines fuel;;
    mret (Some args).
End Types.
