(* ===== verification/ParseExpr.v ===== *)
(** * The parser of expressions

    [parser/src/parser/expr.rs] and the interpolated strings of [stmt.rs]:
    expressions from a stream of tokens, by precedence climbing, with recovery
    from errors.

    The functions call each other recursively: [R] has the parsers one level
    down, for the calls that close a cycle, and [fuel] bounds the loops. *)

From stdpp Require Import base tactics list numbers strings.
From Stdlib Require Import ZArith Floats.
From S2P Require Import Prelude Token Ast Parser ParseType MachineInt.
From S2P Require IntLit TokenStream.
Local Open Scope Z_scope.
Abbreviation len_utf8 := Lexer.len_utf8.
Abbreviation text_len := Lexer.text_len.

(** The functions of the libraries: those behind the number literals, the
    classes of characters and the Unicode names of the lexer. *)
Class Externals := {
  trim : list IntLit.byte → list IntLit.byte;
  parse_bytes : list IntLit.byte → Z → option Z;
  parse_f64 : Symbol → option float;
  character : list char → option char;
  is_id_start : char → bool;
  is_id_continue : char → bool;
  is_emoji : char → bool;
}.

(** The functions through which the recursion goes. *)
Record parsers := MkParsers {
  p_expr : M Expr;
  p_simple : Precedence → M Expr;
  p_list_item : M Expr;
  p_if_entry : M Expr;
  p_type : M Type_;
  p_stmt : M (option Stmt);
}.

Section Parse.
Context {EX : Externals} {HP : Profile}.
Variable fuel : nat.
Variable R : parsers.
Abbreviation parse_expr := (p_expr R).
Abbreviation do_parse_simple_expr_rec := (p_simple R).
Abbreviation parse_list_item_rec := (p_list_item R).
Abbreviation parse_if_entry_expr_rec := (p_if_entry R).
Abbreviation parse_type_annotation := (ParseType.parse_type_annotation parse_f64 fuel (p_type R)).
Abbreviation parse_parameters := (ParseType.parse_parameters parse_f64 fuel (p_type R) parse_expr).
Abbreviation skip_newlines := (Parser.skip_newlines fuel).
Abbreviation clean_all_indentations := (Parser.clean_all_indentations fuel).
Abbreviation clean_all_dedent := (Parser.clean_all_dedent fuel).
Abbreviation parse_identifier := (ParseType.parse_identifier fuel).
Abbreviation parse_identifier_expr := (ParseType.parse_identifier_expr fuel).
Abbreviation parse_stmt := (p_stmt R).
Abbreviation parse_token_streams :=
  (TokenStream.parse_token_streams character is_id_start is_id_continue is_emoji).

(** ** The functions without recursion *)

Definition missing_expr : M Expr := mret Missing.

(** [parse_constant_expr] *)
Definition parse_constant_expr (lk : LitKind) : M Expr :=
  value ← (match lk with
           | Bool =>
               t ← get_token;
               if is_keyword kw.True t then mret NTrue
               else if is_keyword kw.False t then mret NFalse
               else struct_token_error [LitKind_to_string Bool] t;; mret NFalse
           | LitNone => mret NNone
           | LitUndefined => mret NUndefined
           | _ =>
               expected_error (LitKind_to_string <$> [Bool; LitNone; LitUndefined]);;
               mret NUndefined
           end);
  bump;;
  mret (NameConstantLit value).

Definition parse_num_expr (lk : Lit) : M Expr :=
  tok ← get_token;
  '(binary_suffix, value) ←
    (match lit_kind lk with
     | Integer =>
         match IntLit.bytes_to_int trim parse_bytes (symbol lk) 0 with
         | Panic e => panic_with e
         | Ok result =>
             value ← (match result with
                      | Some v => mret v
                      | None => struct_token_error [LitKind_to_string Integer] tok;; mret 0
                      end);
             mret (suffix lk ≫= suffix_try_from, Int value)
         end
     | Float =>
         value ← (match parse_f64 (symbol lk) with
                  | Some v => mret v
                  | None => struct_token_error [LitKind_to_string Float] tok;; mret 0%float
                  end);
         mret (None, FloatLit value)
     | _ =>
         expected_error (LitKind_to_string <$> [Integer; Float]);; mret (None, Int 0)
     end);
  bump;;
  mret (NumberLit binary_suffix value).

(** ** Strings *)

(** [str::find]: the offset of the first occurrence in bytes. *)
Fixpoint find (pat w : Symbol) : option Z :=
  if bool_decide (take (length pat) w = pat) then Some 0
  else match w with c :: w => Z.add (len_utf8 c) <$> find pat w | [] => None end.
(** [replace("\\$", "$")] *)
Fixpoint unescape_dollar (w : Symbol) : Symbol :=
  match w with
  | 92 :: 36 :: w => 36 :: unescape_dollar w
  | c :: w => c :: unescape_dollar w
  | [] => []
  end.
Definition slice (w : Symbol) (from to : Z) : M Symbol := lift (TokenStream.str_from_to w from to).
Definition slice_from (w : Symbol) (from : Z) : M Symbol := slice w from (text_len w).

(** The text of a string literal as an expression. *)
Definition text_part (raw_value value : Symbol) : Expr :=
  StringLitExpr (MkStringLit false value raw_value).

(** A parser of its own over other tokens, with the same session. *)
Definition with_stream {A} (ts : list Token) (m : M A) : M A := λ p,
  match m (start ts (parse_errors p)) with
  | Some (Ok (a, q)) => Some (Ok (a, MkParser (token p) (prev_token p) (cursor p) (parse_errors q)))
  | Some (Panic e) => Some (Panic e)
  | None => None
  end.
Definition report_all (ds : list TokenStream.Diagnostic) : M () :=
  foldr (λ d m, report (LexError d);; m) (mret tt) ds.

(** The expression in [${..}] and its format. *)
Definition parse_interpolation (src : Symbol) (start_pos : Z) : M Expr :=
  let end_pos := start_pos + text_len src in
  src ← slice src 2 (text_len src - 1);
  when (bool_decide (src = []))
    (struct_span_error (InvalidStringInterpolationExpr []) (span start_pos end_pos));;
  let start_pos := start_pos + 2 in
  '(stream, diags) ← lift (parse_token_streams src start_pos);
  report_all diags;;
  with_stream stream
    (expr ← parse_expr;
     colon ← is_kind Colon;
     format_spec ← (if (colon : bool) then
                      bump;;
                      t ← get_token;
                      spec ← (match kind t with
                              | DocComment (Line s) => mret (Some s)
                              | _ => struct_span_error InvalidJoinedStringSpec (tok_span t);;
                                     mret None
                              end);
                      bump;;
                      mret spec
                    else mret None);
     skip_newlines;;
     p ← get;
     when (negb (bool_decide (src = [])) && negb (bool_decide (cursor p = [])))
       (struct_span_error (InvalidStringInterpolationExpr src)
          (span start_pos (start_pos + text_len src)));;
     mret (FormattedValue expr format_spec)).

(** [parse_joined_string]: the values, when there is an interpolation in a string
    that is not raw. *)
Definition parse_joined_string (s : StringLit) (pos : Z) : M (option (list Expr)) :=
  let data := Ast.value s in
  if match raw_value s with c :: _ => (c =? 114) || (c =? 82) | [] => false end then mret None
  else if negb (bool_decide (is_Some (find (intern "${") data))) then mret None
  else
    let quote_space := if is_long_string s then 3 else 1 in
    raw_data ← slice (raw_value s) 0 (text_len (raw_value s) - quote_space);
    values ← loop fuel (λ '(raw_off, data_off, values),
      if (text_len raw_data <=? raw_off) || (text_len data <=? data_off) then break values
      else
        raw_tail ← slice_from raw_data raw_off;
        data_tail ← slice_from data data_off;
        match find (intern "${") raw_tail, find (intern "${") data_tail with
        | Some raw_i, Some data_i =>
            let raw_lo := raw_off + raw_i in
            let data_lo := data_off + data_i in
            raw_close ← slice_from raw_data raw_lo;
            data_close ← slice_from data data_lo;
            match find (intern "}") raw_close, find (intern "}") data_close with
            | Some raw_j, Some data_j =>
                let raw_hi := raw_lo + raw_j + 1 in
                let data_hi := data_lo + data_j + 1 in
                s0 ← slice data data_off data_lo;
                s0_raw ← slice raw_data raw_off raw_lo;
                s1_raw ← slice raw_data raw_lo raw_hi;
                is_escape ← (match s0_raw with
                             | [] => mret false
                             | _ => last ← slice_from s0_raw (text_len s0_raw - 1);
                                    mret (bool_decide (last = [92]))
                             end);
                values ← (if (is_escape : bool) then
                            s_raw ← slice raw_data raw_off raw_hi;
                            s ← slice data data_off data_hi;
                            mret (values ++ [text_part s_raw (unescape_dollar s)])
                          else
                            e ← parse_interpolation s1_raw (pos + raw_lo);
                            mret (values ++
                                  match s0 with [] => [] | _ => [text_part s0_raw s0] end ++ [e]));
                continue (raw_hi, data_hi, values)
            | _, _ =>
                error_here InvalidJoinedStringExpr;; break (values ++ [text_part raw_tail data_tail])
            end
        | _, _ => break (values ++ [text_part raw_tail data_tail])
        end) (quote_space, 0, []);
    mret (Some values).

Definition parse_str_expr (lk : Lit) : M Expr :=
  tok ← get_token;
  lit ← (match lit_kind lk with
         | Str is_long_string _ =>
             mret (MkStringLit is_long_string (symbol lk) (default [] (raw lk)))
         | _ => expected_error [LitKind_to_string (Str false false)];;
                mret (MkStringLit false [] [34; 34])
         end);
  bump;;
  joined ← parse_joined_string lit (tok_span tok).1;
  mret match joined with
       | Some values => JoinedString (is_long_string lit) (raw_value lit) values
       | None => StringLitExpr lit
       end.

(** ** The functions that recur *)

Definition parse_simple_expr : M Expr := do_parse_simple_expr_rec Lowest.

(** ** Suffixes *)

Definition parse_selector_expr (value : Expr) : M Expr :=
  k ← get_kind;
  has_question ← (match k with Question => bump;; mret true | _ => mret false end);
  bump;;
  t ← get_token;
  match ident t with
  | Some _ => attr ← parse_identifier; mret (Selector value attr has_question)
  | None =>
      struct_token_error ["identifier"%string] t;; mret (Selector value [[]] has_question)
  end.

Definition is_missing (e : Expr) : bool := match e with Missing => true | _ => false end.

(** An argument: an expression, or a keyword and its value. *)
Definition parse_argument_expr : M (Expr + Keyword Expr) :=
  e ← parse_expr;
  k ← get_kind;
  match k with
  | Assign =>
      bump;;
      arg ← (match e with
             | IdentifierExpr x => mret x
             | _ => expected_error ["identifier"%string];; mret []
             end);
      value ← parse_expr;
      mret (inr (MkKeyword arg (Some value)))
  | _ => mret (inl e)
  end.

Definition arguments_end (has_newline : bool) (t : Token) : bool :=
  match kind t with
  | CloseDelim Paren | Eof => true
  | Newline => negb has_newline
  | _ => is_keyword kw.For t
  end.
(** The arguments, the keywords and whether there was a keyword. *)
Definition arguments_step (has_newline : bool)
    (st : list Expr * list (Keyword Expr) * bool)
    : M ((list Expr * list (Keyword Expr) * bool) + (list Expr * list (Keyword Expr))) :=
  let '(args, keywords, has_keyword) := st in
  marker ← mark;
  clean_all_indentations;;
  tok ← get_token;
  if arguments_end has_newline tok then break (args, keywords)
  else
    a ← parse_argument_expr;
    st ← (match a with
          | inl e =>
              args ← (if is_missing e then expected_error [name Comma];; bump;; mret args
                      else mret (args ++ [e]));
              when has_keyword
                (struct_span_error (PMsg "positional argument follows keyword argument")
                   (tok_span tok));;
              mret (args, keywords, has_keyword)
          | inr keyword => mret (args, keywords ++ [keyword], true)
          end);
    comma ← is_kind Comma;
    when comma bump;;
    when has_newline skip_newlines;;
    drop_marker marker;;
    continue st.
Definition parse_arguments_expr (has_newline : bool) : M (list Expr * list (Keyword Expr)) :=
  loop fuel (arguments_step has_newline) ([], [], false).

(** [parse_call] *)
Definition parse_call (func : Expr) : M (CallExpr Expr) :=
  expect (OpenDelim Paren);;
  newline ← is_kind Newline;
  empty ← (if (newline : bool) then
             skip_newlines;;
             clean_all_indentations;;
             close ← is_kind (CloseDelim Paren);
             if (close : bool) then bump;; mret true else mret false
           else mret false);
  if (empty : bool) then mret (MkCall func [] [])
  else
    close ← is_kind (CloseDelim Paren);
    '(args, keywords) ← (if (close : bool) then mret ([], [])
                         else parse_arguments_expr newline);
    comma ← is_kind Comma;
    when comma bump;;
    expect (CloseDelim Paren);;
    mret (MkCall func args keywords).
Definition parse_call_expr (func : Expr) : M Expr := call ← parse_call func; mret (Call call).

(** The loop of [parse_subscript_expr] over the expressions and colons of a
    slice, with at most five rounds. *)
Record SliceState := MkSlice {
  round : nat; is_slice : bool; colon_counter : nat;
  exprs : list (option Expr); expr_index : nat; exprs_consecutive : Z;
}.
Definition slice_step (s : SliceState) : M (SliceState + SliceState) :=
  if (4 <? round s)%nat then break s
  else
    k ← get_kind;
    match k with
    | Colon =>
        bump;;
        when (2 <? S (colon_counter s))%nat
          (expected_error ["expression"%string; name (CloseDelim Bracket)]);;
        continue (MkSlice (S (round s)) true (S (colon_counter s)) (exprs s) (S (expr_index s))
                    (exprs_consecutive s - 1))
    | CloseDelim Bracket => break s
    | _ =>
        when (negb (is_slice s) && (round s =? 1)%nat)
          (error_here (PMsg "a list should have only one expr"));;
        e ← parse_expr;
        if (expr_index s <? length (exprs s))%nat then
          when (1 <? exprs_consecutive s + 1) (error_here (PMsg "consecutive exprs found"));;
          continue (MkSlice (S (round s)) (is_slice s) (colon_counter s)
                      (<[expr_index s := Some e]> (exprs s)) (expr_index s)
                      (exprs_consecutive s + 1))
        else panic_with IndexOutOfBounds
    end.

(** The expression made of the rounds. *)
Definition slice_result (value : Expr) (has_question : bool) (s : SliceState) : M Expr :=
  let e i := nth i (exprs s) None in
  if is_slice s then mret (Subscript value None (e 0%nat) (e 1%nat) (e 2%nat) has_question)
  else
    t ← get_token;
    when (match e 0%nat with None => true | _ => false end)
      (struct_span_error (ExpectedExprGot (Token_to_string t)) (tok_span t));;
    when (negb (match e 1%nat, e 2%nat with None, None => true | _, _ => false end))
      (struct_span_error (PMsg "a list should have only one expr") (tok_span t));;
    mret (Subscript value (e 0%nat) None None None has_question).
Definition parse_subscript_expr (value : Expr) : M Expr :=
  has_question ← is_kind Question;
  when has_question bump;;
  expect (OpenDelim Bracket);;
  s ← loop 6 slice_step (MkSlice 0 false 0 [None; None; None] 0 0);
  when (negb (length (exprs s) =? 3)%nat) (error_here (PMsg "a slice should have three exprs"));;
  expect (CloseDelim Bracket);;
  slice_result value has_question s.

(** ** Parentheses, lists and comprehensions *)

Definition parse_paren_expr : M Expr :=
  bump;;
  e ← parse_expr;
  expect (CloseDelim Paren);;
  mret (ParenExpr e).

Definition targets_step (targets : list Identifier) : M (list Identifier + list Identifier) :=
  comma ← is_kind Comma;
  if (comma : bool) then bump;; i ← parse_identifier; continue (targets ++ [i])
  else break targets.
Definition ifs_step (ifs : list Expr) : M (list Expr + list Expr) :=
  b ← is_kw kw.If;
  if (b : bool) then bump;; e ← parse_expr; continue (ifs ++ [e]) else break ifs.
Definition parse_comp_clause : M (CompClause Expr) :=
  bump;;
  first ← parse_identifier;
  targets ← loop fuel targets_step [first];
  comma ← is_kind Comma;
  when comma bump;;
  is_in ← is_kw kw.In;
  when (negb is_in) (expected_error ["in"%string]);;
  bump;;
  iter ← parse_simple_expr;
  skip_newlines;;
  ifs ← loop fuel ifs_step [];
  mret (MkClause targets iter ifs).
Definition clauses_step (clauses : list (CompClause Expr))
    : M (list (CompClause Expr) + list (CompClause Expr)) :=
  b ← is_kw kw.For;
  if (b : bool) then c ← parse_comp_clause; continue (clauses ++ [c]) else break clauses.
Definition parse_comp_clauses : M (list (CompClause Expr)) := loop fuel clauses_step [].

Definition list_end (t : Token) : bool :=
  match kind t with CloseDelim Bracket | Eof => true | _ => is_keyword kw.For t end.
Definition list_items_step (items : list Expr) : M (list Expr + list Expr) :=
  marker ← mark;
  clean_all_indentations;;
  tok ← get_token;
  if list_end tok then break items
  else
    item ← parse_list_item_rec;
    items ← (if is_missing item then expected_error [name Comma];; bump;; mret items
             else mret (items ++ [item]));
    comma ← is_kind Comma;
    when comma bump;;
    skip_newlines;;
    drop_marker marker;;
    continue items.
Definition parse_list_items : M (list Expr) :=
  tok ← get_token;
  if list_end tok then mret []
  else
    item ← parse_list_item_rec;
    comma ← is_kind Comma;
    when comma bump;;
    skip_newlines;;
    loop fuel list_items_step [item].

Definition parse_list_expr (bump_left_brackets : bool) : M Expr :=
  when bump_left_brackets bump;;
  close ← is_kind (CloseDelim Bracket);
  if (close : bool) then bump;; mret (ListExpr [])
  else
    newline ← is_kind Newline;
    empty ← (if (newline : bool) then
               skip_newlines;;
               clean_all_indentations;;
               close ← is_kind (CloseDelim Bracket);
               if (close : bool) then bump;; mret true else mret false
             else mret false);
    if (empty : bool) then mret (ListExpr [])
    else
      start ← get_token;
      items ← parse_list_items;
      generators ← parse_comp_clauses;
      skip_newlines;;
      clean_all_indentations;;
      expect (CloseDelim Bracket);;
      match generators with
      | [] => mret (ListExpr items)
      | _ =>
          match items with
          | item :: rest =>
              when (match rest with [] => false | _ => true end)
                (struct_span_error (MultipleComp "list" (length items)) (tok_span start));;
              mret (ListComp item generators)
          | [] =>
              struct_span_error (PMsg "missing list comp clause expression") (tok_span start);;
              mret (ListExpr items)
          end
      end.

(** ** Configurations *)

Definition parse_config_entry : M (ConfigEntry Expr) :=
  k ← get_kind;
  match k with
  | Token.BinOp StarStar => bump;; value ← parse_expr; mret (MkEntry None value Union)
  | _ =>
      b ← is_kw kw.If;
      if (b : bool) then value ← parse_if_entry_expr_rec; mret (MkEntry None value Union)
      else
        key ← parse_expr;
        k ← get_kind;
        operation ← (match k with
                     | Colon => mret Union
                     | Assign => mret Override
                     | BinOpEq Plus => mret Insert
                     | _ => expected_error [name Colon; name Assign; name (BinOpEq Plus)];;
                            mret Override
                     end);
        bump;;
        value ← parse_expr;
        mret (MkEntry (Some key) value operation)
  end.

Definition entries_end (has_newline : bool) (t : Token) : bool :=
  match kind t with
  | CloseDelim Brace | Eof => true
  | Newline => negb has_newline
  | _ => is_keyword kw.For t
  end.
Definition entries_step (has_newline : bool) (entries : list (ConfigEntry Expr))
    : M (list (ConfigEntry Expr) + list (ConfigEntry Expr)) :=
  marker ← mark;
  clean_all_indentations;;
  tok ← get_token;
  if entries_end has_newline tok then break entries
  else
    entry ← parse_config_entry;
    comma ← is_kind Comma;
    when comma bump;;
    when has_newline skip_newlines;;
    drop_marker marker;;
    continue (entries ++ [entry]).
Definition parse_config_entries (has_newline : bool) : M (list (ConfigEntry Expr)) :=
  tok ← get_token;
  if entries_end has_newline tok then mret []
  else
    entry ← parse_config_entry;
    comma ← is_kind Comma;
    when comma bump;;
    when has_newline skip_newlines;;
    loop fuel (entries_step has_newline) [entry].

Definition parse_config_expr : M Expr :=
  bump;;
  close ← is_kind (CloseDelim Brace);
  if (close : bool) then bump;; mret (Config [])
  else
    newline ← is_kind Newline;
    empty ← (if (newline : bool) then
               skip_newlines;;
               clean_all_indentations;;
               close ← is_kind (CloseDelim Brace);
               if (close : bool) then bump;; mret true else mret false
             else mret false);
    if (empty : bool) then mret (Config [])
    else
      start ← get_token;
      items ← parse_config_entries newline;
      generators ← parse_comp_clauses;
      skip_newlines;;
      clean_all_indentations;;
      expect (CloseDelim Brace);;
      match generators with
      | [] => mret (Config items)
      | _ =>
          match items with
          | item :: rest =>
              when (match rest with [] => false | _ => true end)
                (struct_span_error (MultipleComp "config" (length items)) (tok_span start));;
              mret (DictComp item generators)
          | [] =>
              struct_span_error (PMsg "missing config comp clause expression") (tok_span start);;
              mret (Config items)
          end
      end.

(** [parse_schema_expr] and [parse_schema_expr_with_args]. *)
Definition parse_schema_expr_with_args (call : CallExpr Expr) : M Expr :=
  name ← (match func call with
          | IdentifierExpr x => mret x
          | _ => expected_error ["identifier"%string];; mret []
          end);
  config ← parse_config_expr;
  mret (Schema name (args call) (keywords call) config).
Definition parse_schema_expr (e : Expr) : M Expr := parse_schema_expr_with_args (MkCall e [] []).

(** ** Lambdas *)

(** Whether the brace at the current token, [depth] levels deep, is closed just
    before an arrow. *)
Fixpoint brace_followed_by_arrow (depth : nat) (ts : list Token) : bool :=
  match ts with
  | [] => false
  | t :: ts =>
      match kind t with
      | OpenDelim Brace => brace_followed_by_arrow (S depth) ts
      | CloseDelim Brace =>
          match depth with
          | S (S n) => brace_followed_by_arrow (S n) ts
          | _ => match ts with t :: _ => bool_decide (kind t = RArrow) | [] => false end
          end
      | _ => brace_followed_by_arrow depth ts
      end
  end.

Definition parse_lambda_expr : M Expr :=
  bump_keyword "lambda";;
  brace ← is_kind (OpenDelim Brace);
  p ← get;
  let followed := (brace : bool) && brace_followed_by_arrow 1 (cursor p) in
  k ← get_kind;
  args ← (if followed then parse_parameters [OpenDelim Brace] [CloseDelim Brace] true true
          else match k with
               | RArrow | OpenDelim _ => mret None
               | _ => parse_parameters [] [RArrow; OpenDelim Brace] false false
               end);
  arrow ← is_kind RArrow;
  return_ty ← (if (arrow : bool) then bump_token RArrow;; t ← parse_type_annotation; mret (Some t)
               else mret None);
  bump_token (OpenDelim Brace);;
  newline ← is_kind Newline;
  when newline (skip_newlines;; clean_all_indentations);;
  body ← loop fuel (λ stmts,
    marker ← mark;
    clean_all_indentations;;
    k ← get_kind;
    match k with
    | CloseDelim Brace | Eof => break stmts
    | _ =>
        s ← parse_stmt;
        stmts ← (match s with
                 | Some s => skip_newlines;; mret (stmts ++ [s])
                 | None => bump;; mret stmts
                 end);
        drop_marker marker;;
        continue stmts
    end) [];
  when newline clean_all_dedent;;
  bump_token (CloseDelim Brace);;
  mret (Lambda args return_ty body).

(** ** Operands *)

(** Whether the token is one of the keywords. *)
Definition is_one_of (kws : list Symbol) (t : Token) : bool := existsb (λ kw, is_keyword kw t) kws.

(** Select, call and slice suffixes; the target of a quantifier has no calls. *)
Definition suffix_step (calls : bool) (operand : Expr) : M (Expr + Expr) :=
  k ← get_kind;
  match k with
  | Dot => e ← parse_selector_expr operand; continue e
  | Question =>
      next ← peek_token;
      match kind <$> next with
      | Some Dot => e ← parse_selector_expr operand; continue e
      | Some (OpenDelim Bracket) => e ← parse_subscript_expr operand; continue e
      | _ => break operand
      end
  | OpenDelim Paren => if calls then e ← parse_call_expr operand; continue e else break operand
  | OpenDelim Bracket => e ← parse_subscript_expr operand; continue e
  | _ => break operand
  end.
Definition parse_suffixes (calls : bool) (operand : Expr) : M Expr :=
  loop fuel (suffix_step calls) operand.

Definition parse_quant_target_expr : M Expr :=
  t ← get_token;
  match kind t with
  | Ident _ =>
      if is_one_of [kw.None; kw.Undefined; kw.Lambda; kw.Any; kw.All; kw.Map; kw.Filter] t then
        struct_token_error ["None"; "Undefined"; "lambda"; "any"; "all"; "map"; "filter"]%string t;;
        missing_expr
      else
        operand ← parse_identifier;
        parse_suffixes false (IdentifierExpr operand)
  | Literal lk =>
      match lit_kind lk with
      | Str _ _ => parse_str_expr lk
      | _ => struct_token_error [LitKind_to_string (Str false false)] t;; missing_expr
      end
  | OpenDelim Bracket => parse_list_expr true
  | OpenDelim Brace => parse_config_expr
  | OpenDelim _ =>
      struct_token_error [name (OpenDelim Bracket); name (OpenDelim Brace)] t;; missing_expr
  | _ => struct_token_error ["identifier"; "literal"]%string t;; missing_expr
  end.

Definition parse_quant_expr : M Expr :=
  t ← get_token;
  let op := if is_keyword kw.All t then Some All
            else if is_keyword kw.Any t then Some Any
            else if is_keyword kw.Filter t then Some Filter
            else if is_keyword kw.Map t then Some Map else None in
  match op with
  | None => struct_token_error ["all"; "any"; "filter"; "map"]%string t;; missing_expr
  | Some op =>
      bump;;
      first ← parse_identifier;
      comma ← is_kind Comma;
      variables ← (if (comma : bool) then bump;; i ← parse_identifier; mret [first; i]
                   else mret [first]);
      is_in ← is_kw kw.In;
      (if (is_in : bool) then bump else expected_error ["in"%string]);;
      target ← parse_quant_target_expr;
      expect (OpenDelim Brace);;
      newline ← is_kind Newline;
      when newline (skip_newlines;; expect INDENT);;
      test ← parse_simple_expr;
      b ← is_kw kw.If;
      if_cond ← (if (b : bool) then bump;; e ← parse_expr; mret (Some e) else mret None);
      when newline
        (end_line ← is_kind Newline;
         (if (end_line : bool) then skip_newlines else expected_error [TokenKind_to_string Newline]);;
         validate_dedent;;
         expect DEDENT);;
      expect (CloseDelim Brace);;
      mret (Quant target variables op test if_cond)
  end.

Definition parse_operand_expr : M Expr :=
  t ← get_token;
  match kind t with
  | Ident _ =>
      if is_keyword kw.None t then parse_constant_expr LitNone
      else if is_keyword kw.Undefined t then parse_constant_expr LitUndefined
      else if is_keyword kw.True t || is_keyword kw.False t then parse_constant_expr Bool
      else if is_keyword kw.Lambda t then parse_lambda_expr
      else if is_one_of [kw.Any; kw.All; kw.Map; kw.Filter] t then parse_quant_expr
      else
        operand ← parse_identifier_expr;
        k ← get_kind;
        match k with
        | OpenDelim Brace => parse_schema_expr operand
        | OpenDelim Paren =>
            call ← parse_call operand;
            k ← get_kind;
            match k with
            | OpenDelim Brace => parse_schema_expr_with_args call
            | _ => mret (Call call)
            end
        | _ => mret operand
        end
  | Literal lk =>
      match lit_kind lk with
      | Bool | LitNone | LitUndefined => parse_constant_expr (lit_kind lk)
      | Integer | Float => parse_num_expr lk
      | Str _ _ => parse_str_expr lk
      | LitErr =>
          struct_token_error
            (LitKind_to_string <$> [LitNone; LitUndefined; Bool; Integer; Str false false]) t;;
          missing_expr
      end
  | OpenDelim Paren => parse_paren_expr
  | OpenDelim Bracket => parse_list_expr true
  | OpenDelim Brace => parse_config_expr
  | OpenDelim NoDelim =>
      struct_token_error [name (OpenDelim Paren); name (OpenDelim Bracket); name (OpenDelim Brace)] t;;
      missing_expr
  | _ =>
      struct_token_error ["identifier"%string; "literal"%string; name (OpenDelim Paren);
                          name (OpenDelim Bracket); name (OpenDelim Brace)] t;;
      missing_expr
  end.

Definition parse_primary_expr : M Expr :=
  operand ← parse_operand_expr;
  parse_suffixes true operand.

Definition parse_unary_expr : M Expr :=
  t ← get_token;
  match UnaryOp_try_from t with
  | Some op => bump;; operand ← parse_primary_expr; mret (Unary op operand)
  | None => parse_primary_expr
  end.

(** ** Binary operators *)

(** The precedence of the operator at the current token; [not in] and [is not]
    take two tokens. *)
Definition peek_operator (t : Token) (peek : option Token) : Precedence * bool :=
  let next_is kw := match peek with Some p => is_keyword kw p | None => false end in
  if is_keyword kw.Is t && next_is kw.Not then (IsOrIsNot, true)
  else if is_keyword kw.Not t && next_is kw.In then (InOrNotIn, true)
  else (Precedence_from t, false).

(** The operator of two tokens. *)
Definition two_token_operator (t peek : Token) : M BinOrCmpOp :=
  if is_keyword kw.Not t && is_keyword kw.In peek then mret (Cmp CNotIn)
  else if is_keyword kw.Is t && is_keyword kw.Not peek then mret (Cmp CIsNot)
  else if is_keyword kw.Not t && is_keyword kw.Is peek then
    struct_span_error (PMsg "'not is' here is invalid, consider using 'is not'") (tok_span t);;
    mret (Cmp CIsNot)
  else struct_token_error ["not"; "is"; TokenKind_to_string (BinOpEq Plus)]%string t;;
       mret (Cmp CIs).

(** The state of the loop: the expression so far and the comparison that is
    being collected, with its left side. *)
Record OpState := MkOp { x : Expr; cmp_left : Expr; cmp_ops : list CmpOp; cmp_comparators : list Expr }.

Definition op_step (prec1 : Precedence) (s : OpState) : M (OpState + Expr) :=
  t ← get_token;
  peek ← peek_token;
  let '(oprec, use_peek_op) := peek_operator t peek in
  if (rank oprec <=? rank prec1)%nat then
    break (match cmp_ops s with
           | [] => x s
           | _ => Compare (cmp_left s) (cmp_ops s) (cmp_comparators s)
           end)
  else
    op ← (if use_peek_op : bool then o ← two_token_operator t (default dummy peek); mret (Some o)
          else match BinOrCmpOp_try_from t with
               | Some op => mret (Some op)
               | None => struct_token_error all_symbols t;; mret None
               end);
    match op with
    | None => break (x s)
    | Some op =>
        bump;;
        when use_peek_op bump;;
        y ← do_parse_simple_expr_rec oprec;
        match op with
        | Cmp cmp_op =>
            continue (MkOp (x s) (match cmp_ops s with [] => x s | _ => cmp_left s end)
                        (cmp_ops s ++ [cmp_op]) (cmp_comparators s ++ [y]))
        | Bin bin_op =>
            let left := match cmp_ops s with
                        | [] => x s
                        | _ => Compare (cmp_left s) (cmp_ops s) (cmp_comparators s)
                        end in
            continue (MkOp (Binary left bin_op y) (cmp_left s) [] [])
        end
    end.
Definition do_parse_simple_expr (prec1 : Precedence) : M Expr :=
  x ← parse_unary_expr;
  loop fuel (op_step prec1) (MkOp x x [] []).

(** ** Conditional expressions *)

Definition parse_if_expr (body : Expr) : M Expr :=
  b ← is_kw kw.If;
  if (b : bool) then
    bump;;
    cond ← parse_simple_expr;
    b ← is_kw kw.Else;
    if (b : bool) then bump;; orelse ← parse_expr; mret (If body cond orelse)
    else expected_error ["else"%string];; mret (If body cond Missing)
  else expected_error ["if"%string];; missing_expr.

Definition parse_expr_body : M Expr :=
  t ← get_token;
  when (is_in_recovery_set t)
    (struct_span_error (UnexpectedToken (Token_to_string t)) (tok_span t);; bump);;
  operand ← parse_simple_expr;
  b ← is_kw kw.If;
  if (b : bool) then parse_if_expr operand else mret operand.

(** [parse_exprlist] *)
Definition parse_exprlist : M (list Expr) :=
  first ← parse_expr;
  loop fuel (λ exprs,
    k ← get_kind;
    match k with
    | Comma => bump;; e ← parse_expr; continue (exprs ++ [e])
    | _ => break exprs
    end) [first].

(** [parse_check_expr], whose result the callers take out of the expression. *)
Definition parse_check_expr : M (CheckExpr Expr) :=
  test ← parse_simple_expr;
  b ← is_kw kw.If;
  if_cond ← (if (b : bool) then bump;; e ← parse_simple_expr; mret (Some e) else mret None);
  comma ← is_kind Comma;
  msg ← (if (comma : bool) then bump;; e ← parse_primary_expr; mret (Some e) else mret None);
  mret (MkCheck test if_cond msg).

(** ** List items *)

Definition parse_if_item_exec_block (need_skip_newlines : bool) : M (list Expr) :=
  if negb need_skip_newlines then item ← parse_list_item_rec; mret [item]
  else
    skip_newlines;;
    bump_token INDENT;;
    body ← loop fuel (λ body,
      marker ← mark;
      validate_dedent;;
      dedent ← is_kind DEDENT;
      if (dedent : bool) then break body
      else
        item ← parse_list_item_rec;
        comma ← is_kind Comma;
        when comma bump;;
        skip_newlines;;
        drop_marker marker;;
        continue (body ++ [item])) [];
    validate_dedent;;
    bump_token DEDENT;;
    mret body.

(** A condition with its items; [need_skip_newlines] stays on once a colon ended
    a line. *)
Definition parse_if_item_branch (kw : string) (need_skip_newlines : bool)
    : M (Expr * list Expr * bool) :=
  bump_keyword kw;;
  cond ← parse_expr;
  bump_token Colon;;
  newline ← is_kind Newline;
  let need := newline || need_skip_newlines in
  exprs ← parse_if_item_exec_block need;
  mret (cond, exprs, need).

Definition parse_if_item_expr : M Expr :=
  '(if_cond, exprs, need) ← parse_if_item_branch "if" false;
  skip_newlines;;
  '(elif_list, need) ← loop fuel (λ '(elif_list, need),
    marker ← mark;
    b ← is_kw (Token.intern "elif");
    if negb b then break (elif_list, need)
    else
      '(cond, es, need) ← parse_if_item_branch "elif" need;
      drop_marker marker;;
      continue (elif_list ++ [(cond, es)], need)) ([], need);
  skip_newlines;;
  b ← is_kw kw.Else;
  orelse ← (if (b : bool) then
              bump_keyword "else";;
              bump_token Colon;;
              newline ← is_kind Newline;
              body ← parse_if_item_exec_block (newline || need);
              mret (Some (ListExpr body))
            else mret None);
  mret (ListIfItem if_cond exprs
          (foldr (λ '(cond, es) orelse, Some (ListIfItem cond es orelse)) orelse elif_list)).

Definition parse_list_item : M Expr :=
  k ← get_kind;
  match k with
  | Token.BinOp Star => bump;; e ← parse_expr; mret (Starred e)
  | _ => b ← is_kw kw.If; if (b : bool) then parse_if_item_expr else parse_expr
  end.

(** ** Conditional entries *)

(** [parse_body_item]: whether there was an item, and the item. *)
Definition parse_body_item (need_skip_newlines : bool) : M (option (ConfigEntry Expr)) :=
  marker ← mark;
  k ← get_kind;
  (* The end of the block, which takes the dedent at the start of an item. *)
  let at_end k := match k with
                  | Dedent n => (n =? VALID_SPACES_LENGTH)%nat
                  | Newline => true
                  | _ => false
                  end in
  t ← get_token;
  if need_skip_newlines && bool_decide (k = Dedent VALID_SPACES_LENGTH) then bump;; mret None
  else if negb need_skip_newlines && bool_decide (k = Newline) then mret None
  else if is_keyword (Token.intern "elif") t || is_keyword kw.Else t then mret None
  else if is_keyword kw.If t then
    e ← parse_if_entry_expr_rec; mret (Some (MkEntry None e Override))
  else
    validate_dedent;;
    k ← get_kind;
    if at_end k then mret None
    else match k with
    | Token.BinOp StarStar =>
        bump;; e ← parse_primary_expr; mret (Some (MkEntry None e Override))
    | _ =>
        validate_dedent;;
        k ← get_kind;
        if at_end k then mret None
        else
          key ← parse_expr;
          k ← get_kind;
          op ← (match k with
                | Colon => bump;; mret Union
                | Assign => bump;; mret Override
                | BinOpEq Plus => bump;; mret Insert
                | _ => expected_error [name Colon; name Assign; name (BinOpEq Plus)];; mret Override
                end);
          value ← parse_expr;
          drop_marker marker;;
          mret (Some (MkEntry (Some key) value op))
    end.

Definition parse_if_entry_exec_block (need_skip_newlines : bool) : M (list (ConfigEntry Expr)) :=
  when need_skip_newlines (skip_newlines;; bump_token INDENT);;
  if negb need_skip_newlines then
    item ← parse_body_item need_skip_newlines;
    mret (match item with Some i => [i] | None => [] end)
  else
    items ← loop fuel (λ items,
      item ← parse_body_item need_skip_newlines;
      match item with
      | None => break items
      | Some i =>
          let items := items ++ [i] in
          eof ← is_kind Eof;
          if (eof : bool) then bump;; break items
          else
            comma ← is_kind Comma;
            when comma bump;;
            skip_newlines;;
            continue items
      end) [];
    skip_newlines;;
    mret items.

Definition parse_if_entry_branch (kw : string) (need_skip_newlines : bool)
    : M (Expr * list (ConfigEntry Expr) * bool) :=
  bump_keyword kw;;
  cond ← parse_expr;
  bump_token Colon;;
  newline ← is_kind Newline;
  let need := newline || need_skip_newlines in
  items ← parse_if_entry_exec_block need;
  mret (cond, items, need).

Definition parse_if_entry_expr : M Expr :=
  '(if_cond, items, _) ← parse_if_entry_branch "if" false;
  skip_newlines;;
  '(elif_list, _) ← loop fuel (λ '(elif_list, need),
    marker ← mark;
    b ← is_kw (Token.intern "elif");
    if negb b then break (elif_list, need)
    else
      '(cond, es, need) ← parse_if_entry_branch "elif" need;
      drop_marker marker;;
      continue (elif_list ++ [(cond, es)], need)) ([], false);
  skip_newlines;;
  b ← is_kw kw.Else;
  orelse ← (if (b : bool) then
              bump_keyword "else";;
              bump_token Colon;;
              newline ← is_kind Newline;
              items ← parse_if_entry_exec_block newline;
              mret (Some (Config items))
            else mret None);
  comma ← is_kind Comma;
  when comma bump;;
  skip_newlines;;
  mret (ConfigIfEntry if_cond items
          (foldr (λ '(cond, es) orelse, Some (ConfigIfEntry cond es orelse)) orelse elif_list)).
End Parse.
