(* ===== verification/ParseStmt.v ===== *)
(** * The parser of statements and modules

    [parser/src/parser/stmt.rs] and [module.rs], and the recursion that ties
    the parsers together: [parsers_fuel] unfolds it [fuel] times and bounds
    each loop by what is left of it.  [parse_expr_src] and [parse_module_src]
    are the entries of [parser/src/lib.rs] on the text of a source: the lexer,
    the state of the parser and the parser. *)

From stdpp Require Import base tactics list numbers strings.
From Stdlib Require Import ZArith Floats.
From S2P Require Import Prelude Token Ast Parser ParseType ParseExpr MachineInt.
From S2P Require IntLit TokenStream.
Local Open Scope Z_scope.

(** [join(".")] *)
Fixpoint join_dots (names : Identifier) : Symbol :=
  match names with
  | [] => []
  | [n] => n
  | n :: names => n ++ intern "." ++ join_dots names
  end.
Definition ends_with (suf s : Symbol) : bool :=
  bool_decide (drop (length s - length suf) s = suf).

Definition MIXIN_SUFFIX : Symbol := intern "Mixin".
Definition PROTOCOL_SUFFIX : Symbol := intern "Protocol".

(** ** Targets of assignments *)

(** The name of the expression and the reason. *)
Definition illegal {A} (e : Expr) (reason : string) : PMessage + A :=
  inl (IllegalAssign (get_expr_name e) reason).
Fixpoint expr_as_assign_target_paths (e : Expr) : PMessage + list (MemberOrIndex Expr) :=
  match e with
  | IdentifierExpr names => inr (Member <$> names)
  | Selector value attr has_question =>
      if has_question then illegal e "optional attribute access"
      else match expr_as_assign_target_paths value with
           | inr paths => inr (paths ++ (Member <$> attr))
           | inl err => inl err
           end
  | Subscript value index _ _ _ has_question =>
      if has_question then illegal e "optional subscript access"
      else match expr_as_assign_target_paths value, index with
           | inr paths, Some index => inr (paths ++ [Index index])
           | inr _, None => illegal e "slice access"
           | inl err, _ => inl err
           end
  | _ => illegal e ""
  end.
Definition expr_as_assign_target (e : Expr) : PMessage + Target Expr :=
  match expr_as_assign_target_paths e with
  | inr (Member name :: paths) => inr (MkTarget name paths)
  | inr _ => illegal e ""
  | inl err => inl err
  end.

(** The targets that are legal; the others are reported at their span. *)
Fixpoint assign_targets (es : list Expr) (spans : list Span) : M (list (Target Expr)) :=
  match es with
  | [] => mret []
  | e :: es =>
      sp ← lift (Prelude.index spans 0);
      t ← (match expr_as_assign_target e with
           | inr t => mret [t]
           | inl err => struct_span_error err sp;; mret []
           end);
      ts ← assign_targets es (tail spans);
      mret (t ++ ts)
  end.

Definition expr_as_identifier (e : Expr) (tok : Token) : M Identifier :=
  match e with
  | IdentifierExpr x => mret x
  | _ => struct_span_error (PMsg "expected identifier") (tok_span tok);; mret []
  end.

Section Stmt.
Context {EX : Externals} {HP : Profile}.
Variable fuel : nat.
Variable R : parsers.
Abbreviation parse_expr := (p_expr R).
Abbreviation parse_simple_expr := (ParseExpr.parse_simple_expr R).
Abbreviation parse_check_expr := (ParseExpr.parse_check_expr fuel R).
Abbreviation parse_str_expr := (ParseExpr.parse_str_expr fuel R).
Abbreviation parse_list_expr := (ParseExpr.parse_list_expr fuel R).
Abbreviation parse_call := (ParseExpr.parse_call fuel R).
Abbreviation parse_schema_expr := (ParseExpr.parse_schema_expr fuel R).
Abbreviation parse_schema_expr_with_args := (ParseExpr.parse_schema_expr_with_args fuel R).
Abbreviation parse_type_annotation := (ParseType.parse_type_annotation parse_f64 fuel (p_type R)).
Abbreviation parse_parameters := (ParseType.parse_parameters parse_f64 fuel (p_type R) parse_expr).
Abbreviation skip_newlines := (Parser.skip_newlines fuel).
Abbreviation parse_identifier := (ParseType.parse_identifier fuel).
Abbreviation parse_identifier_expr := (ParseType.parse_identifier_expr fuel).

(** ** Simple statements *)

(** [parse_doc]: the raw text of a long string. *)
Definition parse_doc : M (option Symbol) :=
  k ← get_kind;
  match k with
  | Literal lit =>
      match lit_kind lit with
      | Str true _ =>
          doc_expr ← parse_str_expr lit;
          skip_newlines;;
          mret match doc_expr with
               | StringLitExpr s => Some (raw_value s)
               | JoinedString _ raw_value _ => Some raw_value
               | _ => None
               end
      | _ => mret None
      end
  | _ => mret None
  end.

Definition parse_string_attribute : M (option Symbol) :=
  k ← get_kind;
  match k with
  | Literal lit =>
      match lit_kind lit with
      | Str _ _ =>
          str_expr ← parse_str_expr lit;
          mret match str_expr with StringLitExpr s => Some (Ast.value s) | _ => None end
      | _ => mret None
      end
  | _ => mret None
  end.

Definition parse_expr_stmt : M Stmt := e ← parse_expr; skip_newlines;; mret (SExpr [e]).

(** What follows the targets and the type of an assignment. *)
Definition parse_assign_values (is_in_schema_stmt : bool) (first : Expr) (first_span : Span)
    (ty : option Type_) : M (option Stmt) :=
  '(targets, target_spans, value_or_target) ←
    loop fuel (λ '(targets, spans, value),
      assign ← is_kind Assign;
      if (assign : bool) then
        bump_token Assign;;
        tok ← get_token;
        expr ← parse_expr;
        last ← get_prev;
        continue (targets ++ match value with Some v => [v] | None => [] end,
                  spans ++ [span (tok_span tok).1 (tok_span last).2], Some expr)
      else break (targets, spans, value)) ([first], [first_span], None);
  k ← get_kind;
  let typed_attr := match targets, ty with
                    | [e], Some ty => if is_in_schema_stmt then Some (e, ty) else None
                    | _, _ => None
                    end in
  augmented ← (match k, typed_attr with
               | BinOpEq x, Some (e, ty) =>
                   bump_token k;;
                   value ← parse_expr;
                   match e with
                   | IdentifierExpr target =>
                       skip_newlines;;
                       mret (Some (SSchemaAttr (MkAttr (join_dots target) ty (Some (AugOp_from x))
                                                  (Some value) false [])))
                   | _ => mret None
                   end
               | _, _ => mret None
               end);
  match augmented, value_or_target with
  | Some s, _ => mret (Some s)
  | None, Some value =>
      ts ← assign_targets targets target_spans;
      skip_newlines;;
      mret (Some (SAssign ts value ty))
  | None, None =>
      match typed_attr, ty with
      | Some (IdentifierExpr target, ty), _ =>
          skip_newlines;; mret (Some (SSchemaAttr (MkAttr (join_dots target) ty None None false [])))
      | _, None => skip_newlines;; mret (Some (SExpr targets))
      | _, Some _ =>
          skip_newlines;;
          expected_error [name Assign];;
          if is_in_schema_stmt then mret None
          else
            ts ← assign_targets targets target_spans;
            mret (Some (SAssign ts Missing ty))
      end
  end.

Definition parse_expr_or_assign_stmt (is_in_schema_stmt : bool) : M (option Stmt) :=
  tok ← get_token;
  first ← parse_expr;
  last ← get_prev;
  let first_span := span (tok_span tok).1 (tok_span last).2 in
  let unification (schema_expr : Expr) :=
    target ← expr_as_identifier first tok;
    skip_newlines;;
    mret (Some (SUnification target schema_expr)) in
  k ← get_kind;
  match k with
  | Colon =>
      bump_token Colon;;
      typ ← parse_type_annotation;
      k ← get_kind;
      match k, typ with
      | OpenDelim Brace, TNamed x => e ← parse_schema_expr (IdentifierExpr x); unification e
      | OpenDelim Paren, TNamed x =>
          call ← parse_call (IdentifierExpr x);
          e ← parse_schema_expr_with_args call;
          unification e
      | _, _ => parse_assign_values is_in_schema_stmt first first_span (Some typ)
      end
  | BinOpEq x =>
      bump_token k;;
      match expr_as_assign_target first with
      | inr target =>
          value ← parse_expr;
          skip_newlines;;
          mret (Some (SAugAssign target (AugOp_from x) value))
      | inl err =>
          struct_span_error err first_span;;
          parse_expr;;
          skip_newlines;;
          mret None
      end
  | _ => parse_assign_values is_in_schema_stmt first first_span None
  end.

(** A keyword and what follows it, or nothing. *)
Definition optional_after {A} (kw_name : string) (m : M A) : M (option A) :=
  b ← is_kw (intern kw_name);
  if (b : bool) then bump_keyword kw_name;; a ← m; mret (Some a) else mret None.
Definition optional_token {A} (k : TokenKind) (m : M A) : M (option A) :=
  b ← is_kind k;
  if (b : bool) then bump_token k;; a ← m; mret (Some a) else mret None.

Definition parse_assert_stmt : M Stmt :=
  bump_keyword "assert";;
  test ← parse_simple_expr;
  if_cond ← optional_after "if" parse_simple_expr;
  msg ← optional_token Comma parse_expr;
  skip_newlines;;
  mret (SAssert test if_cond msg).

Definition parse_dots (k : TokenKind) (leading : Symbol) : M Symbol :=
  loop fuel (λ leading,
    b ← is_kind k;
    if (b : bool) then bump_token k;; continue (leading ++ intern (name k))
    else break leading) leading.
Definition parse_import_stmt : M Stmt :=
  bump_keyword "import";;
  leading_dots ← parse_dots DotDotDot [];
  leading_dots ← parse_dots Dot leading_dots;
  dot_name ← parse_identifier;
  asname ← (b ← is_kw kw.As;
            if (b : bool) then
              bump_keyword "as";;
              names ← parse_identifier;
              match names with
              | [n] => mret (Some n)
              | _ => error_here (PMsg "Invalid import asname");; mret None
              end
            else mret None);
  name ← (match asname with Some n => mret n | None => lift (unwrap (last dot_name)) end);
  skip_newlines;;
  mret (SImport (leading_dots ++ join_dots dot_name) name asname).

Definition parse_type_alias_stmt : M Stmt :=
  bump_keyword "type";;
  tok ← get_token;
  expr ← parse_expr;
  type_name ← expr_as_identifier expr tok;
  bump_token Assign;;
  ty ← parse_type_annotation;
  skip_newlines;;
  mret (STypeAlias type_name ty).

Definition parse_simple_stmt : M (option Stmt) :=
  skip_newlines;;
  t ← get_token;
  match kind t with
  | Eof => mret None
  | k =>
      if is_keyword kw.Import t then s ← parse_import_stmt; mret (Some s)
      else if is_keyword kw.Type_ t then s ← parse_type_alias_stmt; mret (Some s)
      else if is_keyword kw.Assert t then s ← parse_assert_stmt; mret (Some s)
      else match k with
           | Token.UnaryOp _ => s ← parse_expr_stmt; mret (Some s)
           | Ident _ | Literal _ | OpenDelim _ => parse_expr_or_assign_stmt false
           | _ => mret None
           end
  end.

(** ** Blocks and conditional statements *)

Definition parse_block_stmt_list (open_tok close_tok : TokenKind) : M (list Stmt) :=
  validate_dedent;;
  bump_token open_tok;;
  stmts ← loop fuel (λ stmts,
    eof ← is_kind Eof;
    if (eof : bool) then bump;; break stmts
    else
      validate_dedent;;
      close ← is_kind close_tok;
      if (close : bool) then bump_token close_tok;; break stmts
      else
        s ← p_stmt R;
        match s with
        | Some s => continue (stmts ++ [s])
        | None => bump;; continue stmts
        end) [];
  skip_newlines;;
  mret stmts.

(** The statement behind a colon, or the block on the lines below. *)
Definition parse_if_body : M (list Stmt) :=
  newline ← is_kind Newline;
  if (newline : bool) then skip_newlines;; parse_block_stmt_list INDENT DEDENT
  else
    s ← parse_expr_or_assign_stmt false;
    match s with Some s => mret [s] | None => bump;; mret [] end.
Definition parse_if_branch (kw_name : string) : M (Expr * list Stmt) :=
  bump_keyword kw_name;;
  cond ← parse_expr;
  bump_token Colon;;
  body ← parse_if_body;
  mret (cond, body).

Definition parse_if_stmt : M Stmt :=
  '(cond, body) ← parse_if_branch "if";
  skip_newlines;;
  elif_list ← loop fuel (λ branches,
    b ← is_kw kw.Elif;
    if (b : bool) then branch ← parse_if_branch "elif"; continue (branches ++ [branch])
    else break branches) [];
  skip_newlines;;
  tok ← get_token;
  orelse ← (if is_keyword kw.Else tok then
              bump_keyword "else";;
              t ← get_token;
              when (is_keyword kw.If t)
                (report (SpanError InvalidTokenElseIf (span (tok_span tok).1 (tok_span t).2)
                           (Some ["elif"%string]));;
                 bump_keyword "if");;
              colon ← is_kind Colon;
              when (negb colon) (expected_error [name Colon]);;
              bump;;
              parse_if_body
            else mret []);
  skip_newlines;;
  mret (SIf cond body (foldr (λ '(cond, body) orelse, [SIf cond body orelse]) orelse elif_list)).

(** ** Schemas *)

Definition parse_decorators : M (list (CallExpr Expr)) :=
  decorators ← loop fuel (λ decorators,
    at_sign ← is_kind At;
    if (at_sign : bool) then
      bump_token At;;
      expr ← parse_expr;
      ds ← (match expr with
            | IdentifierExpr _ => mret [MkCall expr [] []]
            | Call call => mret [call]
            | _ => expected_error ["identifier"%string];; mret []
            end);
      skip_newlines;;
      continue (decorators ++ ds)
    else break decorators) [];
  skip_newlines;;
  mret decorators.

Definition parse_mixins : M (list Identifier) :=
  bump_keyword "mixin";;
  bump_token (OpenDelim Bracket);;
  newline ← is_kind Newline;
  when newline (skip_newlines;; expect INDENT);;
  mixins ← loop fuel (λ mixins,
    marker ← mark;
    validate_dedent;;
    k ← get_kind;
    if bool_decide (k ∈ [CloseDelim Bracket; DEDENT]) then break mixins
    else
      name ← parse_identifier;
      comma ← is_kind Comma;
      when comma bump;;
      skip_newlines;;
      drop_marker marker;;
      continue (mixins ++ [name])) [];
  when newline (validate_dedent;; expect DEDENT);;
  bump_token (CloseDelim Bracket);;
  mret mixins.

Definition parse_schema_attribute : M (SchemaAttr Expr) :=
  at_sign ← is_kind At;
  decorators ← (if (at_sign : bool) then ds ← parse_decorators; skip_newlines;; mret ds
                else mret []);
  name_or_not ← parse_string_attribute;
  attr_name ← (match name_or_not with
               | Some s => mret s
               | None => names ← parse_identifier; mret (join_dots names)
               end);
  is_optional ← is_kind Question;
  when is_optional (bump_token Question);;
  bump_token Colon;;
  ty ← parse_type_annotation;
  k ← get_kind;
  op ← (match k with
        | Assign => bump_token Assign;; mret (Some AAssign)
        | BinOpEq x => bump_token k;; mret (Some (AugOp_from x))
        | _ => mret None
        end);
  value ← (match op with Some _ => e ← parse_expr; mret (Some e) | None => mret None end);
  skip_newlines;;
  mret (MkAttr attr_name ty op value is_optional decorators).

Definition parse_schema_index_signature : M (SchemaIndexSignature Expr) :=
  dots ← is_kind DotDotDot;
  '(key_name, key_ty, any_other) ←
    (if (dots : bool) then bump;; t ← parse_type_annotation; mret (None, t, true)
     else
       tok ← get_token;
       expr ← parse_identifier_expr;
       names ← expr_as_identifier expr tok;
       close ← is_kind (CloseDelim Bracket);
       if (close : bool) then mret (None, TNamed names, false)
       else
         bump_token Colon;;
         any_other ← is_kind DotDotDot;
         when any_other bump;;
         t ← parse_type_annotation;
         mret (Some (join_dots names), t, any_other));
  bump_token (CloseDelim Bracket);;
  bump_token Colon;;
  value_ty ← parse_type_annotation;
  assign ← is_kind Assign;
  value ← (if (assign : bool) then bump;; e ← parse_expr; mret (Some e) else mret None);
  skip_newlines;;
  mret (MkSignature key_name key_ty value_ty value any_other).

Definition parse_schema_index_signature_or_list
    : M (option (SchemaIndexSignature Expr) * option Expr) :=
  bump_token (OpenDelim Bracket);;
  p ← get;
  let peek i := match cursor p !! i with Some t => kind t | None => Eof end in
  let list_expr := e ← parse_list_expr false; mret (None, Some e) in
  let signature := s ← parse_schema_index_signature; mret (Some s, None) in
  match kind (token p), peek 0%nat with
  | Newline, _ | CloseDelim Bracket, _ => list_expr
  | Ident _, k =>
      if negb (bool_decide (k = Colon)) && negb (bool_decide (peek 1%nat = Colon))
      then list_expr else signature
  | DotDotDot, Ident _ => signature
  | _, _ => mret (None, None)
  end.

(** Checks up to the dedent. *)
Definition parse_checks : M (list (CheckExpr Expr)) :=
  loop fuel (λ checks,
    k ← get_kind;
    if bool_decide (k = DEDENT) then break checks
    else
      marker ← mark;
      match k with
      | Eof => expected_error [TokenKind_to_string Newline];; break checks
      | _ =>
          check ← parse_check_expr;
          skip_newlines;;
          drop_marker marker;;
          continue (checks ++ [check])
      end) [].
Definition parse_schema_check_block : M (list (CheckExpr Expr)) :=
  b ← is_kw kw.Check;
  if (b : bool) then
    bump_keyword "check";;
    bump_token Colon;;
    skip_newlines;;
    bump_token INDENT;;
    checks ← parse_checks;
    validate_dedent;;
    bump_token DEDENT;;
    mret checks
  else mret [].

(** An assignment with a type in a schema is an attribute, of the first name of
    its target. *)
Definition schema_stmt (x : Stmt) : Stmt * bool :=
  match x with
  | SSchemaAttr _ => (x, true)
  | SAssign [target] value (Some ty) =>
      (SSchemaAttr (MkAttr (target_name target) ty (Some AAssign) (Some value) false []), true)
  | _ => (x, false)
  end.

(** The loop over the statements of a schema and its index signature. *)
Definition schema_body_step (s : list Stmt * option (SchemaIndexSignature Expr))
    : M ((list Stmt * option (SchemaIndexSignature Expr)) +
         (list Stmt * option (SchemaIndexSignature Expr))) :=
  let '(body, sig) := s in
  marker ← mark;
  validate_dedent;;
  t ← get_token;
  next ← peek_token;
  let next_is k := bool_decide (kind <$> next = Some k) in
  if bool_decide (kind t ∈ [DEDENT; Eof]) || is_keyword kw.Check t then break s
  else if is_keyword kw.Assert t then x ← parse_assert_stmt; continue (body ++ [x], sig)
  else if is_keyword kw.If t then x ← parse_if_stmt; continue (body ++ [x], sig)
  else if (is_string_lit t && next_is Colon) || bool_decide (kind t = At) || next_is Question then
    attr ← parse_schema_attribute; continue (body ++ [SSchemaAttr attr], sig)
  else if bool_decide (kind t = OpenDelim Bracket) then
    r ← parse_schema_index_signature_or_list;
    s ← (match r with
         | (Some x, _) =>
             when (bool_decide (is_Some sig))
               (struct_span_error (PMsg "duplicate schema index signature definitions, only one is allowed in the schema")
                  (tok_span t));;
             mret (body, Some x)
         | (None, Some list_expr) => mret (body ++ [SExpr [list_expr]], sig)
         | (None, None) =>
             t ← get_token;
             struct_span_error (ExpectedSignature (Token_to_string t)) (tok_span t);;
             mret (body, sig)
         end);
    skip_newlines;;
    continue s
  else
    x ← parse_expr_or_assign_stmt true;
    match x with
    | Some x =>
        let '(x, is_attr) := schema_stmt x in
        (if is_attr : bool then continue (body ++ [x], sig)
         else drop_marker marker;; continue (body ++ [x], sig))
    | None => bump;; drop_marker marker;; continue (body, sig)
    end.

Record SchemaBody := MkBody {
  body_doc : option Symbol; body_mixins : list Identifier; body_body : list Stmt;
  body_checks : list (CheckExpr Expr);
  body_index_signature : option (SchemaIndexSignature Expr);
}.
Definition parse_schema_body : M SchemaBody :=
  validate_dedent;;
  bump_token INDENT;;
  next ← peek_token;
  doc ← (if bool_decide (kind <$> next = Some Colon) then mret None else parse_doc);
  b ← is_kw kw.Mixin;
  mixins ← (if (b : bool) then ms ← parse_mixins; skip_newlines;; mret ms else mret []);
  '(body, sig) ← loop fuel schema_body_step ([], None);
  checks ← parse_schema_check_block;
  validate_dedent;;
  bump_token DEDENT;;
  skip_newlines;;
  mret (MkBody doc mixins body checks sig).

(** [for] and the identifier behind it. *)
Definition parse_for_host : M (option Identifier) :=
  optional_after "for" (tok ← get_token; e ← parse_expr; expr_as_identifier e tok).
(** The parameters in brackets. *)
Definition parse_bracket_parameters : M (option (Arguments_ Expr)) :=
  b ← is_kind (OpenDelim Bracket);
  if (b : bool) then parse_parameters [OpenDelim Bracket] [CloseDelim Bracket] true false
  else mret None.

Definition parse_schema_stmt (decorators : list (CallExpr Expr)) : M Stmt :=
  t ← get_token;
  let is_mixin := is_keyword kw.Mixin t in
  let is_protocol := negb is_mixin && is_keyword kw.Protocol t in
  bump_keyword (if is_mixin then "mixin" else if is_protocol then "protocol" else "schema");;
  names ← parse_identifier;
  let name := join_dots names in
  let mixin_name := ends_with MIXIN_SUFFIX name in
  let is_mixin := is_mixin || mixin_name in
  let is_protocol := is_protocol || (negb mixin_name && ends_with PROTOCOL_SUFFIX name) in
  args ← parse_bracket_parameters;
  paren ← is_kind (OpenDelim Paren);
  parent_name ← (if (paren : bool) then
                   bump_token (OpenDelim Paren);;
                   base ← parse_identifier;
                   bump_token (CloseDelim Paren);;
                   mret (Some base)
                 else mret None);
  for_host_name ← parse_for_host;
  bump_token Colon;;
  skip_newlines;;
  indent ← is_kind INDENT;
  body ← (if (indent : bool) then parse_schema_body else mret (MkBody None [] [] [] None));
  mret (SSchema (MkSchema (body_doc body) name parent_name for_host_name is_mixin is_protocol args
                   (body_mixins body) (body_body body) decorators (body_checks body)
                   (body_index_signature body))).

(** ** Rules *)

Definition parse_parent_rules : M (list Identifier) :=
  loop fuel (λ rules,
    tok ← get_token;
    match kind tok with
    | CloseDelim Paren => bump;; break rules
    | Newline | Eof => struct_token_error [name (CloseDelim Paren); name Comma] tok;; break rules
    | _ =>
        e ← parse_expr;
        rule_name ← expr_as_identifier e tok;
        k ← get_kind;
        when (negb (bool_decide (k ∈ [Comma; CloseDelim Paren; Newline; Eof])))
          (expected_error [name Comma; name (CloseDelim Paren)];; bump);;
        comma ← is_kind Comma;
        when comma bump;;
        continue (rules ++ [rule_name])
    end) [].

Definition parse_rule_stmt (decorators : list (CallExpr Expr)) : M Stmt :=
  bump_keyword "rule";;
  names ← parse_identifier;
  args ← parse_bracket_parameters;
  paren ← is_kind (OpenDelim Paren);
  parent_rules ← (if (paren : bool) then bump;; parse_parent_rules else mret []);
  for_host_name ← parse_for_host;
  bump_token Colon;;
  skip_newlines;;
  bump_token INDENT;;
  doc ← parse_doc;
  validate_dedent;;
  checks ← parse_checks;
  validate_dedent;;
  bump_token DEDENT;;
  mret (SRule (MkRule doc (join_dots names) parent_rules decorators checks args for_host_name)).

(** ** Statements *)

Definition parse_compound_stmt : M (option Stmt) :=
  skip_newlines;;
  t ← get_token;
  match kind t with
  | Eof => mret None
  | k =>
      if is_keyword kw.If t then s ← parse_if_stmt; mret (Some s)
      else
        decorators ← (match k with At => parse_decorators | _ => mret [] end);
        t ← get_token;
        if is_keyword kw.Schema t || is_keyword kw.Mixin t || is_keyword kw.Protocol t then
          s ← parse_schema_stmt decorators; mret (Some s)
        else if is_keyword kw.Rule t then s ← parse_rule_stmt decorators; mret (Some s)
        else mret None
  end.

Definition parse_stmt : M (option Stmt) :=
  skip_newlines;;
  eof ← is_kind Eof;
  if (eof : bool) then mret None
  else
    s ← parse_compound_stmt;
    match s with
    | Some s => mret (Some s)
    | None =>
        s ← parse_simple_stmt;
        match s with
        | Some s => mret (Some s)
        | None =>
            t ← get_token;
            struct_span_error (UnexpectedToken (Token_to_string t)) (tok_span t);;
            mret None
        end
    end.

(** ** Modules *)

Definition parse_body : M (list Stmt) :=
  loop fuel (λ stmts,
    eof ← is_kind Eof;
    if (eof : bool) then bump;; break stmts
    else
      s ← parse_stmt;
      match s with
      | Some s => continue (stmts ++ [s])
      | None => bump;; continue stmts
      end) [].

Definition parse_module (comments : list Symbol) : M Module_ :=
  doc ← parse_doc;
  body ← parse_body;
  mret (MkModule doc comments body).
End Stmt.

(** ** The recursion *)

Section Tie.
Context {EX : Externals} {HP : Profile}.

Fixpoint parsers_fuel (fuel : nat) : parsers :=
  match fuel with
  | O => MkParsers out_of_fuel (λ _, out_of_fuel) out_of_fuel out_of_fuel out_of_fuel out_of_fuel
  | S fuel =>
      let R := parsers_fuel fuel in
      MkParsers (parse_expr_body R) (do_parse_simple_expr fuel R) (parse_list_item fuel R)
        (parse_if_entry_expr fuel R) (ParseType.parse_type_annotation parse_f64 fuel (p_type R))
        (parse_stmt fuel R)
  end.

(** Run a parser on the tokens of a source that is in the session at
    [start_pos]; with the diagnostics, the last one first. *)
Definition run_src {A} (m : list Symbol → M A) (src : Symbol) (start_pos : Z)
    : option (Res (A * list PDiagnostic)) :=
  match TokenStream.parse_token_streams character is_id_start is_id_continue is_emoji src start_pos with
  | Panic e => Some (Panic e)
  | Ok (ts, diags) =>
      let '(p, comments) := new ts (rev (LexError <$> diags)) in
      match m comments p with
      | Some (Ok (a, p)) => Some (Ok (a, parse_errors p))
      | Some (Panic e) => Some (Panic e)
      | None => None
      end
  end.

(** [parse_file_with_session] on the text of the file. *)
Definition parse_module_src (fuel : nat) (src : Symbol) (start_pos : Z) :=
  run_src (parse_module fuel (parsers_fuel fuel)) src start_pos.
(** [parse_expr] of [lib.rs]. *)
Definition parse_expr_src (fuel : nat) (src : Symbol) : option (Res (option Expr * list PDiagnostic)) :=
  match src with
  | [] => Some (Ok (None, []))
  | _ => run_src (λ _, e ← p_expr (parsers_fuel fuel); mret (Some e)) src 0
  end.
End Tie.
