(* ===== verification/ParserProps.v ===== *)
(** * What every parser does

    Two facts that hold of all the parsers, proved in one pass over them.  More
    fuel does not change a result, so the result of a parser is that of enough
    fuel.  And a parser only moves forward: its state is related to the one it
    started from by every preorder that has the moves of the state in it, such
    as "what is left of the stream is a suffix of what was left" and "the
    diagnostics are those from before and new ones". *)

From stdpp Require Import base tactics list numbers strings.
From Stdlib Require Import ZArith Lia Floats.
From S2P Require Import Prelude Token Ast Parser ParseType ParseExpr ParseStmt MachineInt.
From S2P Require IntLit TokenStream TokenProps.

(** ** The relation *)

(** A preorder on the states that has their moves in it: to take a token, to
    report, and to run a parser over another stream. *)
Class Moves (R : relation Parser) := {
  #[global] moves_preorder :: PreOrder R;
  moves_bump p : R p (match cursor p with
                      | t :: ts => MkParser t (token p) ts (parse_errors p)
                      | [] => MkParser (token p) (token p) [] (parse_errors p)
                      end);
  moves_report p d : R p (MkParser (token p) (prev_token p) (cursor p) (d :: parse_errors p));
  moves_stream p ts q : R (start ts (parse_errors p)) q →
    R p (MkParser (token p) (prev_token p) (cursor p) (parse_errors q));
}.

(** [m] may run out of fuel where [m'] does not; otherwise they do the same, and
    the state moves. *)
Definition below (R : relation Parser) {A} (m m' : M A) : Prop :=
  ∀ p r, m p = Some r → m' p = Some r ∧ match r with Ok (_, p') => R p p' | Panic _ => True end.

Create HintDb below discriminated.
#[export] Hint Constants Opaque : below.
#[export] Hint Variables Opaque : below.

Section Below.
Context {R : relation Parser} {HR : Moves R}.

Lemma below_fuel {A} (m : M A) : below R out_of_fuel m.
Proof. by intros p r [=]. Qed.
Lemma below_ret {A} (a : A) : below R (mret a) (mret a).
Proof. by intros p r [= <-]. Qed.
Lemma below_bind {A B} (m m' : M A) (f f' : A → M B) :
  below R m m' → (∀ a, below R (f a) (f' a)) → below R (m ≫= f) (m' ≫= f').
Proof.
  intros Hm Hf p r. unfold mbind, M_bind.
  destruct (m p) as [[[a q]|e]|] eqn:E; [| |done]; apply Hm in E as [-> Hq].
  - intros [-> Hr]%Hf. split; [done|]. destruct r as [[b q']|]; [|done]. by etrans.
  - by intros [= <-].
Qed.
Lemma below_when b (m m' : M ()) : below R m m' → below R (when b m) (when b m').
Proof. destruct b; [done|]. intros _. apply below_ret. Qed.
Lemma below_loop {A B} n n' (f f' : A → M (A + B)) :
  (n ≤ n')%nat → (∀ a, below R (f a) (f' a)) → ∀ a, below R (loop n f a) (loop n' f' a).
Proof.
  intros Hn Hf. revert n' Hn. induction n as [|n IH]; intros n' Hn a; [apply below_fuel|].
  destruct n' as [|n']; [lia|]. cbn [loop]. apply below_bind; [done|].
  intros [a'|b]; [apply IH; lia|apply below_ret].
Qed.
Lemma below_reads {A} (f : Parser → A) : below R (λ p, Some (Ok (f p, p))) (λ p, Some (Ok (f p, p))).
Proof. by intros p r [= <-]. Qed.
Lemma below_lift {A} (r : Res A) : below R (lift r) (lift r).
Proof. intros p r' [= <-]. by destruct r. Qed.
Lemma below_panic {A} e : below R (panic_with (A:=A) e) (panic_with e).
Proof. by intros p r [= <-]. Qed.
Lemma below_report d : below R (report d) (report d).
Proof. intros p r [= <-]. split; [done|]. apply moves_report. Qed.
Lemma below_bump : below R bump bump.
Proof. intros p r [= <-]. split; [done|]. apply moves_bump. Qed.
Lemma below_stream {A} ts (m m' : M A) : below R m m' → below R (with_stream ts m) (with_stream ts m').
Proof.
  intros Hm p r. unfold with_stream.
  destruct (m (start ts (parse_errors p))) as [[[a q]|e]|] eqn:E; [| |done];
    apply Hm in E as [-> Hq]; intros [= <-]; [|done].
  split; [done|]. by apply (moves_stream p ts).
Qed.
End Below.
#[export] Hint Resolve below_ret below_lift below_panic below_report below_bump : below.
#[export] Hint Extern 0 (below _ get _) => apply (below_reads (λ p, p)) : below.
#[export] Hint Extern 0 (below _ get_token _) => apply (below_reads token) : below.
#[export] Hint Extern 0 (below _ get_kind _) => apply (below_reads (λ p, kind (token p))) : below.
#[export] Hint Extern 0 (below _ get_prev _) => apply (below_reads prev_token) : below.
#[export] Hint Extern 0 (below _ peek_token _) => apply (below_reads (λ p, head (cursor p))) : below.
#[export] Hint Extern 0 (below _ mark _) => apply (below_reads (λ p, length (cursor p))) : below.

(** Follows the two sides, which have the same shape. *)
Ltac solve_below :=
  repeat (cbv beta zeta; first
    [ progress intros
    | solve [auto 2 with below nocore]
    | lazymatch goal with
      | |- below _ (_ ≫= _) _ => apply below_bind
      | |- below _ (when _ _) _ => apply below_when
      | |- below _ (with_stream _ _) _ => apply below_stream
      | |- below _ (loop _ _ _) _ => apply below_loop; [first [assumption | apply le_n]|]
      | |- below _ match ?x with _ => _ end _ => destruct x
      end ]).

Section Primitives.
Context {R : relation Parser} {HR : Moves R}.
Lemma below_continue {A B} (a : A) : below R (continue (B:=B) a) (continue a).
Proof. apply below_ret. Qed.
Lemma below_break {A B} (b : B) : below R (break (A:=A) b) (break b).
Proof. apply below_ret. Qed.
#[local] Hint Resolve below_continue below_break : below.
Lemma below_is_kw k : below R (is_kw k) (is_kw k).
Proof. unfold is_kw. solve_below. Qed.
Lemma below_is_kind k : below R (is_kind k) (is_kind k).
Proof. unfold is_kind. solve_below. Qed.
Lemma below_token_error e t : below R (struct_token_error e t) (struct_token_error e t).
Proof. apply below_report. Qed.
Lemma below_span_error m sp : below R (struct_span_error m sp) (struct_span_error m sp).
Proof. apply below_report. Qed.
#[local] Hint Resolve below_is_kw below_is_kind below_token_error below_span_error : below.
Lemma below_expected_error e : below R (expected_error e) (expected_error e).
Proof. unfold expected_error. solve_below. Qed.
Lemma below_error_here m : below R (error_here m) (error_here m).
Proof. unfold error_here. solve_below. Qed.
#[local] Hint Resolve below_expected_error below_error_here : below.
Lemma below_bump_keyword k : below R (bump_keyword k) (bump_keyword k).
Proof. unfold bump_keyword. solve_below. Qed.
Lemma below_bump_token k : below R (bump_token k) (bump_token k).
Proof. unfold bump_token. solve_below. Qed.
Lemma below_expect k : below R (expect k) (expect k).
Proof. unfold expect. solve_below. Qed.
Lemma below_drop_marker n : below R (drop_marker n) (drop_marker n).
Proof. unfold drop_marker. solve_below. Qed.
Lemma below_validate_dedent : below R validate_dedent validate_dedent.
Proof. unfold validate_dedent. solve_below. Qed.
End Primitives.
#[export] Hint Resolve below_continue below_break below_is_kw below_is_kind below_token_error
  below_span_error below_expected_error below_error_here below_bump_keyword below_bump_token
  below_expect below_drop_marker below_validate_dedent : below.

(** ** The parsers *)

Section Parsers.
Context {EX : Externals} {HP : Profile} {R : relation Parser} {HR : Moves R}.
Variables (n n' : nat) (Hn : (n ≤ n')%nat).

Lemma below_bump_while c : below R (bump_while n c) (bump_while n' c).
Proof. unfold bump_while. solve_below. Qed.
#[local] Hint Resolve below_bump_while : below.
Lemma below_skip_newlines : below R (skip_newlines n) (skip_newlines n').
Proof. unfold skip_newlines. solve_below. Qed.
Lemma below_clean_all_indent : below R (clean_all_indent n) (clean_all_indent n').
Proof. unfold clean_all_indent. solve_below. Qed.
Lemma below_clean_all_dedent : below R (clean_all_dedent n) (clean_all_dedent n').
Proof. unfold clean_all_dedent. solve_below. Qed.
#[local] Hint Resolve below_skip_newlines below_clean_all_indent below_clean_all_dedent : below.
Lemma below_clean_all_indentations : below R (clean_all_indentations n) (clean_all_indentations n').
Proof. unfold clean_all_indentations. solve_below. Qed.
Lemma below_parse_identifier : below R (parse_identifier n) (parse_identifier n').
Proof. unfold parse_identifier, names_step. solve_below. Qed.
#[local] Hint Resolve below_clean_all_indentations below_parse_identifier : below.
Lemma below_parse_identifier_expr : below R (parse_identifier_expr n) (parse_identifier_expr n').
Proof. unfold parse_identifier_expr. solve_below. Qed.
#[local] Hint Resolve below_parse_identifier_expr : below.

(** [ty.rs] and the parameters. *)
Section Types.
Variables (f64 : Symbol → option float) (ty ty' : M Type_) (Hty : below R ty ty').
#[local] Hint Resolve Hty : below.
Lemma below_literal_type l : below R (parse_literal_type f64 l) (parse_literal_type f64 l).
Proof. unfold parse_literal_type. solve_below. Qed.
Lemma below_params_type : below R (parse_params_type n ty) (parse_params_type n' ty').
Proof. unfold parse_params_type. solve_below. Qed.
#[local] Hint Resolve below_literal_type below_params_type : below.
Lemma below_type_element : below R (parse_type_element f64 n ty) (parse_type_element f64 n' ty').
Proof. unfold parse_type_element. solve_below. Qed.
#[local] Hint Resolve below_type_element : below.
Lemma below_type_annotation :
  below R (parse_type_annotation f64 n ty) (parse_type_annotation f64 n' ty').
Proof. unfold parse_type_annotation. solve_below. Qed.
#[local] Hint Resolve below_type_annotation : below.
Lemma below_parameters e e' os cs b m : below R e e' →
  below R (parse_parameters f64 n ty e os cs b m) (parse_parameters f64 n' ty' e' os cs b m).
Proof. intros He. unfold parse_parameters. solve_below. Qed.
End Types.

Record parsers_below (P P' : parsers) : Prop := {
  below_p_expr : below R (p_expr P) (p_expr P');
  below_p_simple prec : below R (p_simple P prec) (p_simple P' prec);
  below_p_list_item : below R (p_list_item P) (p_list_item P');
  below_p_if_entry : below R (p_if_entry P) (p_if_entry P');
  below_p_type : below R (p_type P) (p_type P');
  below_p_stmt : below R (p_stmt P) (p_stmt P');
}.
Variables (P P' : parsers) (HPP : parsers_below P P').
#[local] Hint Extern 0 (below _ (p_expr _) _) => apply (below_p_expr _ _ HPP) : below.
#[local] Hint Extern 0 (below _ (p_simple _ _) _) => apply (below_p_simple _ _ HPP) : below.
#[local] Hint Extern 0 (below _ (p_list_item _) _) => apply (below_p_list_item _ _ HPP) : below.
#[local] Hint Extern 0 (below _ (p_if_entry _) _) => apply (below_p_if_entry _ _ HPP) : below.
#[local] Hint Extern 0 (below _ (p_type _) _) => apply (below_p_type _ _ HPP) : below.
#[local] Hint Extern 0 (below _ (p_stmt _) _) => apply (below_p_stmt _ _ HPP) : below.
#[local] Hint Resolve below_type_annotation below_parameters : below.

Lemma below_missing_expr : below R missing_expr missing_expr.
Proof. apply below_ret. Qed.
#[local] Hint Resolve below_missing_expr : below.
Lemma below_parse_constant_expr lk : below R (parse_constant_expr lk) (parse_constant_expr lk).
Proof. unfold parse_constant_expr. solve_below. Qed.
#[local] Hint Resolve below_parse_constant_expr : below.
Lemma below_parse_num_expr lk : below R (parse_num_expr lk) (parse_num_expr lk).
Proof. unfold parse_num_expr. solve_below. Qed.
#[local] Hint Resolve below_parse_num_expr : below.
Lemma below_slice w a b : below R (slice w a b) (slice w a b).
Proof. unfold slice. solve_below. Qed.
#[local] Hint Resolve below_slice : below.
Lemma below_slice_from w a : below R (slice_from w a) (slice_from w a).
Proof. unfold slice_from. solve_below. Qed.
#[local] Hint Resolve below_slice_from : below.
Lemma below_report_all ds : below R (report_all ds) (report_all ds).
Proof. induction ds; cbn [report_all foldr]; solve_below. Qed.
#[local] Hint Resolve below_report_all : below.
Lemma below_parse_interpolation src pos :
  below R (parse_interpolation n P src pos) (parse_interpolation n' P' src pos).
Proof. unfold parse_interpolation. solve_below. Qed.
#[local] Hint Resolve below_parse_interpolation : below.
Lemma below_parse_joined_string s pos :
  below R (parse_joined_string n P s pos) (parse_joined_string n' P' s pos).
Proof. unfold parse_joined_string. solve_below. Qed.
#[local] Hint Resolve below_parse_joined_string : below.
Lemma below_parse_str_expr lk : below R (parse_str_expr n P lk) (parse_str_expr n' P' lk).
Proof. unfold parse_str_expr. solve_below. Qed.
#[local] Hint Resolve below_parse_str_expr : below.
Lemma below_parse_simple_expr : below R (parse_simple_expr P) (parse_simple_expr P').
Proof. unfold parse_simple_expr. solve_below. Qed.
#[local] Hint Resolve below_parse_simple_expr : below.
Lemma below_parse_selector_expr v : below R (parse_selector_expr n v) (parse_selector_expr n' v).
Proof. unfold parse_selector_expr. solve_below. Qed.
#[local] Hint Resolve below_parse_selector_expr : below.
Lemma below_parse_argument_expr : below R (parse_argument_expr P) (parse_argument_expr P').
Proof. unfold parse_argument_expr. solve_below. Qed.
#[local] Hint Resolve below_parse_argument_expr : below.
Lemma below_parse_arguments_expr b :
  below R (parse_arguments_expr n P b) (parse_arguments_expr n' P' b).
Proof. unfold parse_arguments_expr, arguments_step. solve_below. Qed.
#[local] Hint Resolve below_parse_arguments_expr : below.
Lemma below_parse_call e : below R (parse_call n P e) (parse_call n' P' e).
Proof. unfold parse_call. solve_below. Qed.
#[local] Hint Resolve below_parse_call : below.
Lemma below_parse_call_expr e : below R (parse_call_expr n P e) (parse_call_expr n' P' e).
Proof. unfold parse_call_expr. solve_below. Qed.
#[local] Hint Resolve below_parse_call_expr : below.
Lemma below_slice_step s : below R (slice_step P s) (slice_step P' s).
Proof. unfold slice_step. solve_below. Qed.
#[local] Hint Resolve below_slice_step : below.
Lemma below_parse_subscript_expr v : below R (parse_subscript_expr P v) (parse_subscript_expr P' v).
Proof. unfold parse_subscript_expr, slice_result. solve_below. Qed.
#[local] Hint Resolve below_parse_subscript_expr : below.
Lemma below_parse_paren_expr : below R (parse_paren_expr P) (parse_paren_expr P').
Proof. unfold parse_paren_expr. solve_below. Qed.
#[local] Hint Resolve below_parse_paren_expr : below.
Lemma below_parse_comp_clause : below R (parse_comp_clause n P) (parse_comp_clause n' P').
Proof. unfold parse_comp_clause, targets_step, ifs_step. solve_below. Qed.
#[local] Hint Resolve below_parse_comp_clause : below.
Lemma below_parse_comp_clauses : below R (parse_comp_clauses n P) (parse_comp_clauses n' P').
Proof. unfold parse_comp_clauses, clauses_step. solve_below. Qed.
#[local] Hint Resolve below_parse_comp_clauses : below.
Lemma below_parse_list_items : below R (parse_list_items n P) (parse_list_items n' P').
Proof. unfold parse_list_items, list_items_step. solve_below. Qed.
#[local] Hint Resolve below_parse_list_items : below.
Lemma below_parse_list_expr b : below R (parse_list_expr n P b) (parse_list_expr n' P' b).
Proof. unfold parse_list_expr. solve_below. Qed.
#[local] Hint Resolve below_parse_list_expr : below.
Lemma below_parse_config_entry : below R (parse_config_entry P) (parse_config_entry P').
Proof. unfold parse_config_entry. solve_below. Qed.
#[local] Hint Resolve below_parse_config_entry : below.
Lemma below_parse_config_entries b :
  below R (parse_config_entries n P b) (parse_config_entries n' P' b).
Proof. unfold parse_config_entries, entries_step. solve_below. Qed.
#[local] Hint Resolve below_parse_config_entries : below.
Lemma below_parse_config_expr : below R (parse_config_expr n P) (parse_config_expr n' P').
Proof. unfold parse_config_expr. solve_below. Qed.
#[local] Hint Resolve below_parse_config_expr : below.
Lemma below_parse_schema_expr_with_args c :
  below R (parse_schema_expr_with_args n P c) (parse_schema_expr_with_args n' P' c).
Proof. unfold parse_schema_expr_with_args. solve_below. Qed.
#[local] Hint Resolve below_parse_schema_expr_with_args : below.
Lemma below_parse_schema_expr e : below R (parse_schema_expr n P e) (parse_schema_expr n' P' e).
Proof. unfold parse_schema_expr. solve_below. Qed.
#[local] Hint Resolve below_parse_schema_expr : below.
Lemma below_parse_lambda_expr : below R (parse_lambda_expr n P) (parse_lambda_expr n' P').
Proof. unfold parse_lambda_expr. solve_below. Qed.
#[local] Hint Resolve below_parse_lambda_expr : below.
Lemma below_parse_suffixes b e : below R (parse_suffixes n P b e) (parse_suffixes n' P' b e).
Proof. unfold parse_suffixes, suffix_step. solve_below. Qed.
#[local] Hint Resolve below_parse_suffixes : below.
Lemma below_parse_quant_target_expr :
  below R (parse_quant_target_expr n P) (parse_quant_target_expr n' P').
Proof. unfold parse_quant_target_expr. solve_below. Qed.
#[local] Hint Resolve below_parse_quant_target_expr : below.
Lemma below_parse_quant_expr : below R (parse_quant_expr n P) (parse_quant_expr n' P').
Proof. unfold parse_quant_expr. solve_below. Qed.
#[local] Hint Resolve below_parse_quant_expr : below.
Lemma below_parse_operand_expr : below R (parse_operand_expr n P) (parse_operand_expr n' P').
Proof. unfold parse_operand_expr. solve_below. Qed.
#[local] Hint Resolve below_parse_operand_expr : below.
Lemma below_parse_primary_expr : below R (parse_primary_expr n P) (parse_primary_expr n' P').
Proof. unfold parse_primary_expr. solve_below. Qed.
#[local] Hint Resolve below_parse_primary_expr : below.
Lemma below_parse_unary_expr : below R (parse_unary_expr n P) (parse_unary_expr n' P').
Proof. unfold parse_unary_expr. solve_below. Qed.
#[local] Hint Resolve below_parse_unary_expr : below.
Lemma below_two_token_operator t u : below R (two_token_operator t u) (two_token_operator t u).
Proof. unfold two_token_operator. solve_below. Qed.
#[local] Hint Resolve below_two_token_operator : below.
Lemma below_op_step prec s : below R (op_step P prec s) (op_step P' prec s).
Proof. unfold op_step. solve_below. Qed.
#[local] Hint Resolve below_op_step : below.
Lemma below_do_parse_simple_expr prec :
  below R (do_parse_simple_expr n P prec) (do_parse_simple_expr n' P' prec).
Proof. unfold do_parse_simple_expr. solve_below. Qed.
#[local] Hint Resolve below_do_parse_simple_expr : below.
Lemma below_parse_if_expr e : below R (parse_if_expr P e) (parse_if_expr P' e).
Proof. unfold parse_if_expr. solve_below. Qed.
#[local] Hint Resolve below_parse_if_expr : below.
Lemma below_parse_expr_body : below R (parse_expr_body P) (parse_expr_body P').
Proof. unfold parse_expr_body. solve_below. Qed.
#[local] Hint Resolve below_parse_expr_body : below.
Lemma below_parse_exprlist : below R (parse_exprlist n P) (parse_exprlist n' P').
Proof. unfold parse_exprlist. solve_below. Qed.
#[local] Hint Resolve below_parse_exprlist : below.
Lemma below_parse_check_expr : below R (parse_check_expr n P) (parse_check_expr n' P').
Proof. unfold parse_check_expr. solve_below. Qed.
#[local] Hint Resolve below_parse_check_expr : below.
Lemma below_parse_if_item_exec_block b :
  below R (parse_if_item_exec_block n P b) (parse_if_item_exec_block n' P' b).
Proof. unfold parse_if_item_exec_block. solve_below. Qed.
#[local] Hint Resolve below_parse_if_item_exec_block : below.
Lemma below_parse_if_item_branch k b :
  below R (parse_if_item_branch n P k b) (parse_if_item_branch n' P' k b).
Proof. unfold parse_if_item_branch. solve_below. Qed.
#[local] Hint Resolve below_parse_if_item_branch : below.
Lemma below_parse_if_item_expr : below R (parse_if_item_expr n P) (parse_if_item_expr n' P').
Proof. unfold parse_if_item_expr. solve_below. Qed.
#[local] Hint Resolve below_parse_if_item_expr : below.
Lemma below_parse_list_item : below R (parse_list_item n P) (parse_list_item n' P').
Proof. unfold parse_list_item. solve_below. Qed.
#[local] Hint Resolve below_parse_list_item : below.
Lemma below_parse_body_item b : below R (parse_body_item n P b) (parse_body_item n' P' b).
Proof. unfold parse_body_item. solve_below. Qed.
#[local] Hint Resolve below_parse_body_item : below.
Lemma below_parse_if_entry_exec_block b :
  below R (parse_if_entry_exec_block n P b) (parse_if_entry_exec_block n' P' b).
Proof. unfold parse_if_entry_exec_block. solve_below. Qed.
#[local] Hint Resolve below_parse_if_entry_exec_block : below.
Lemma below_parse_if_entry_branch k b :
  below R (parse_if_entry_branch n P k b) (parse_if_entry_branch n' P' k b).
Proof. unfold parse_if_entry_branch. solve_below. Qed.
#[local] Hint Resolve below_parse_if_entry_branch : below.
Lemma below_parse_if_entry_expr : below R (parse_if_entry_expr n P) (parse_if_entry_expr n' P').
Proof. unfold parse_if_entry_expr. solve_below. Qed.
#[local] Hint Resolve below_parse_if_entry_expr : below.
Lemma below_optional_after {A} k (m m' : M A) :
  below R m m' → below R (optional_after k m) (optional_after k m').
Proof. intros H. unfold optional_after. solve_below. Qed.
Lemma below_optional_token {A} k (m m' : M A) :
  below R m m' → below R (optional_token k m) (optional_token k m').
Proof. intros H. unfold optional_token. solve_below. Qed.
#[local] Hint Resolve below_optional_after below_optional_token : below.
Lemma below_assign_targets es sps : below R (assign_targets es sps) (assign_targets es sps).
Proof. revert sps. induction es; intros; cbn [assign_targets]; solve_below. Qed.
#[local] Hint Resolve below_assign_targets : below.
Lemma below_expr_as_identifier e t : below R (expr_as_identifier e t) (expr_as_identifier e t).
Proof. unfold expr_as_identifier. solve_below. Qed.
#[local] Hint Resolve below_expr_as_identifier : below.
Lemma below_parse_doc : below R (parse_doc n P) (parse_doc n' P').
Proof. unfold parse_doc. solve_below. Qed.
#[local] Hint Resolve below_parse_doc : below.
Lemma below_parse_string_attribute :
  below R (parse_string_attribute n P) (parse_string_attribute n' P').
Proof. unfold parse_string_attribute. solve_below. Qed.
#[local] Hint Resolve below_parse_string_attribute : below.
Lemma below_parse_expr_stmt : below R (parse_expr_stmt n P) (parse_expr_stmt n' P').
Proof. unfold parse_expr_stmt. solve_below. Qed.
#[local] Hint Resolve below_parse_expr_stmt : below.
Lemma below_parse_assign_values b e sp ty :
  below R (parse_assign_values n P b e sp ty) (parse_assign_values n' P' b e sp ty).
Proof. unfold parse_assign_values. solve_below. Qed.
#[local] Hint Resolve below_parse_assign_values : below.
Lemma below_parse_expr_or_assign_stmt b :
  below R (parse_expr_or_assign_stmt n P b) (parse_expr_or_assign_stmt n' P' b).
Proof. unfold parse_expr_or_assign_stmt. solve_below. Qed.
#[local] Hint Resolve below_parse_expr_or_assign_stmt : below.
Lemma below_parse_assert_stmt : below R (parse_assert_stmt n P) (parse_assert_stmt n' P').
Proof. unfold parse_assert_stmt. solve_below. Qed.
#[local] Hint Resolve below_parse_assert_stmt : below.
Lemma below_parse_dots k l : below R (parse_dots n k l) (parse_dots n' k l).
Proof. unfold parse_dots. solve_below. Qed.
#[local] Hint Resolve below_parse_dots : below.
Lemma below_parse_import_stmt : below R (parse_import_stmt n) (parse_import_stmt n').
Proof. unfold parse_import_stmt. solve_below. Qed.
#[local] Hint Resolve below_parse_import_stmt : below.
Lemma below_parse_type_alias_stmt :
  below R (parse_type_alias_stmt n P) (parse_type_alias_stmt n' P').
Proof. unfold parse_type_alias_stmt. solve_below. Qed.
#[local] Hint Resolve below_parse_type_alias_stmt : below.
Lemma below_parse_simple_stmt : below R (parse_simple_stmt n P) (parse_simple_stmt n' P').
Proof. unfold parse_simple_stmt. solve_below. Qed.
#[local] Hint Resolve below_parse_simple_stmt : below.
Lemma below_parse_block_stmt_list o c :
  below R (parse_block_stmt_list n P o c) (parse_block_stmt_list n' P' o c).
Proof. unfold parse_block_stmt_list. solve_below. Qed.
#[local] Hint Resolve below_parse_block_stmt_list : below.
Lemma below_parse_if_body : below R (parse_if_body n P) (parse_if_body n' P').
Proof. unfold parse_if_body. solve_below. Qed.
#[local] Hint Resolve below_parse_if_body : below.
Lemma below_parse_if_branch k : below R (parse_if_branch n P k) (parse_if_branch n' P' k).
Proof. unfold parse_if_branch. solve_below. Qed.
#[local] Hint Resolve below_parse_if_branch : below.
Lemma below_parse_if_stmt : below R (parse_if_stmt n P) (parse_if_stmt n' P').
Proof. unfold parse_if_stmt. solve_below. Qed.
#[local] Hint Resolve below_parse_if_stmt : below.
Lemma below_parse_decorators : below R (parse_decorators n P) (parse_decorators n' P').
Proof. unfold parse_decorators. solve_below. Qed.
#[local] Hint Resolve below_parse_decorators : below.
Lemma below_parse_mixins : below R (parse_mixins n) (parse_mixins n').
Proof. unfold parse_mixins. solve_below. Qed.
#[local] Hint Resolve below_parse_mixins : below.
Lemma below_parse_schema_attribute :
  below R (parse_schema_attribute n P) (parse_schema_attribute n' P').
Proof. unfold parse_schema_attribute. solve_below. Qed.
#[local] Hint Resolve below_parse_schema_attribute : below.
Lemma below_parse_schema_index_signature :
  below R (parse_schema_index_signature n P) (parse_schema_index_signature n' P').
Proof. unfold parse_schema_index_signature. solve_below. Qed.
#[local] Hint Resolve below_parse_schema_index_signature : below.
Lemma below_parse_schema_index_signature_or_list :
  below R (parse_schema_index_signature_or_list n P) (parse_schema_index_signature_or_list n' P').
Proof. unfold parse_schema_index_signature_or_list. solve_below. Qed.
#[local] Hint Resolve below_parse_schema_index_signature_or_list : below.
Lemma below_parse_checks : below R (parse_checks n P) (parse_checks n' P').
Proof. unfold parse_checks. solve_below. Qed.
#[local] Hint Resolve below_parse_checks : below.
Lemma below_parse_schema_check_block :
  below R (parse_schema_check_block n P) (parse_schema_check_block n' P').
Proof. unfold parse_schema_check_block. solve_below. Qed.
#[local] Hint Resolve below_parse_schema_check_block : below.
Lemma below_schema_body_step s : below R (schema_body_step n P s) (schema_body_step n' P' s).
Proof. unfold schema_body_step. solve_below. Qed.
#[local] Hint Resolve below_schema_body_step : below.
Lemma below_parse_schema_body : below R (parse_schema_body n P) (parse_schema_body n' P').
Proof. unfold parse_schema_body. solve_below. Qed.
#[local] Hint Resolve below_parse_schema_body : below.
Lemma below_parse_for_host : below R (parse_for_host P) (parse_for_host P').
Proof. apply below_optional_after. solve_below. Qed.
#[local] Hint Resolve below_parse_for_host : below.
Lemma below_parse_bracket_parameters :
  below R (parse_bracket_parameters n P) (parse_bracket_parameters n' P').
Proof. unfold parse_bracket_parameters. solve_below. Qed.
#[local] Hint Resolve below_parse_bracket_parameters : below.
Lemma below_parse_schema_stmt ds : below R (parse_schema_stmt n P ds) (parse_schema_stmt n' P' ds).
Proof. unfold parse_schema_stmt. solve_below. Qed.
#[local] Hint Resolve below_parse_schema_stmt : below.
Lemma below_parse_parent_rules : below R (parse_parent_rules n P) (parse_parent_rules n' P').
Proof. unfold parse_parent_rules. solve_below. Qed.
#[local] Hint Resolve below_parse_parent_rules : below.
Lemma below_parse_rule_stmt ds : below R (parse_rule_stmt n P ds) (parse_rule_stmt n' P' ds).
Proof. unfold parse_rule_stmt. solve_below. Qed.
#[local] Hint Resolve below_parse_rule_stmt : below.
Lemma below_parse_compound_stmt : below R (parse_compound_stmt n P) (parse_compound_stmt n' P').
Proof. unfold parse_compound_stmt. solve_below. Qed.
#[local] Hint Resolve below_parse_compound_stmt : below.
Lemma below_parse_stmt : below R (parse_stmt n P) (parse_stmt n' P').
Proof. unfold parse_stmt. solve_below. Qed.
#[local] Hint Resolve below_parse_stmt : below.
Lemma below_parse_body : below R (parse_body n P) (parse_body n' P').
Proof. unfold parse_body. solve_below. Qed.
#[local] Hint Resolve below_parse_body : below.
Lemma below_parse_module c : below R (parse_module n P c) (parse_module n' P' c).
Proof. unfold parse_module. solve_below. Qed.
#[local] Hint Resolve below_parse_module : below.
End Parsers.

(** ** Fuel *)

(** With more fuel, the parsers give what they gave. *)
Lemma parsers_fuel_below {EX : Externals} {HP : Profile} R {HR : Moves R} n n' :
  (n ≤ n')%nat → parsers_below (R:=R) (parsers_fuel n) (parsers_fuel n').
Proof.
  revert n'. induction n as [|n IH]; intros n' Hn.
  { split; intros; apply below_fuel. }
  destruct n' as [|n']; [lia|].
  assert (n ≤ n')%nat as Hn' by lia. specialize (IH n' Hn').
  split; intros; cbn [parsers_fuel p_expr p_simple p_list_item p_if_entry p_type p_stmt].
  - by apply below_parse_expr_body.
  - by apply below_do_parse_simple_expr.
  - by apply below_parse_list_item.
  - by apply below_parse_if_entry_expr.
  - by apply below_type_annotation, (below_p_type _ _ IH).
  - by apply below_parse_stmt.
Qed.

(** ** Moving forward *)

(** What is left of the stream, with the current token. *)
Definition remaining (p : Parser) : list Token := token p :: cursor p.
Definition forward (p p' : Parser) : Prop :=
  remaining p' `suffix_of` remaining p ∧ parse_errors p `suffix_of` parse_errors p'.
#[export] Instance forward_moves : Moves forward.
Proof.
  split.
  - split; [split; done|]. intros p q r [H1 H2] [H3 H4]. split; by etrans.
  - intros [t u cs ds]. split; [|by destruct cs]. destruct cs; [by exists []|by exists [t]].
  - intros p d. split; [done|]. by exists [d].
  - intros p ts q [_ H]. split; [done|]. destruct ts; apply H.
Qed.
Lemma forward_of {EX : Externals} {HP : Profile} {A} (m : M A) p a p' :
  below forward m m → m p = Some (Ok (a, p')) → forward p p'.
Proof. intros Hm [_ H]%Hm. done. Qed.

(** What [new] reads: the stream without its comments, up to the first end. *)
Lemma split_tokens_end prev ts t :
  Forall (λ t, kind t ≠ Eof) ts → kind t = Eof →
  ∃ ts', split_tokens prev (ts ++ [t]) =
           (ts' ++ [t], omap (λ t, match kind t with DocComment (Line x) => Some x | _ => None end) ts) ∧
         Forall (λ t, kind t ≠ Eof) ts'.
Proof.
  intros Hts Ht. revert prev. induction Hts as [|u us Hu _ IH]; intros prev; cbn.
  - rewrite Ht. destruct prev; try by exists []. all: by exists [MkToken Newline (tok_span t)]; repeat constructor.
  - destruct (IH (kind u)) as (us' & E & Hus').
    destruct (kind u) eqn:Ek; try done; try destruct c; rewrite E; try by exists us'.
    all: exists (u :: us'); split; [done|]; (constructor; [by rewrite Ek|done]).
Qed.

Lemma bind_ok {A B} (m : M A) (f : A → M B) p b p' :
  (m ≫= f) p = Some (Ok (b, p')) → ∃ a q, m p = Some (Ok (a, q)) ∧ f a q = Some (Ok (b, p')).
Proof.
  unfold mbind, M_bind. destruct (m p) as [[[a q]|]|] eqn:E; try done. intros H. by exists a, q.
Qed.

(** The last round of a loop, at a state that was moved to. *)
Lemma loop_ends {R : relation Parser} {HR : Moves R} {A B} n (f : A → M (A + B)) a p b p' :
  (∀ a, below R (f a) (f a)) → loop n f a p = Some (Ok (b, p')) →
  ∃ a' q, R p q ∧ f a' q = Some (Ok (inr b, p')).
Proof.
  intros Hf. revert a p. induction n as [|n IH]; intros a p; [done|].
  intros ([a'|b'] & q & E & H)%bind_ok; [|exists a, p; split; [done|]; revert H; by intros [= -> ->]].
  apply IH in H as (a'' & q' & Hq & H). exists a'', q'. split; [|done].
  apply Hf in E as [_ E]. by etrans.
Qed.
(** The loop over statements ends at [Eof]. *)
Lemma parse_body_ends {EX : Externals} {HP : Profile} {R : relation Parser} {HR : Moves R} n n' p stmts p' :
  parse_body n (parsers_fuel n') p = Some (Ok (stmts, p')) →
  ∃ q, R p q ∧ kind (token q) = Eof ∧ bump q = Some (Ok (tt, p')).
Proof.
  assert (parsers_below (R:=R) (parsers_fuel n') (parsers_fuel n')) as HP'
    by exact (parsers_fuel_below R n' n' (le_n n')).
  intros H. apply (loop_ends (R:=R)) in H as (a & q & Hq & H).
  2: { intros a. pose proof (below_parse_stmt n n (le_n n) _ _ HP'). solve_below. }
  exists q. split; [done|].
  apply bind_ok in H as (eof & q' & [= <- <-] & H). case_bool_decide as Heof; [|exfalso].
  - apply bind_ok in H as ([] & q' & Hb & [= _ <-]). done.
  - apply bind_ok in H as ([s|] & q' & _ & H); [done|].
    by apply bind_ok in H as ([] & q'' & _ & H).
Qed.

Lemma suffix_last {A} (P : A → Prop) l x (t : A) k :
  Forall (λ x, ¬ P x) l → P x → (x :: k) `suffix_of` (l ++ [t]) → x = t ∧ k = [].
Proof.
  intros Hl Hx [l' E]. destruct k as [|y k _] using rev_ind.
  - apply app_inj_tail in E as [_ E]. done.
  - rewrite app_comm_cons, app_assoc in E. apply app_inj_tail in E as [-> _].
    apply Forall_app in Hl as [_ Hl]. by inversion Hl.
Qed.

(** ** The properties *)

Section Properties.
Context {EX : Externals} {HP : Profile}.
Abbreviation lex := (TokenStream.parse_token_streams character is_id_start is_id_continue is_emoji).
Implicit Types (src : Symbol) (start_pos : Z).

Lemma run_src_below {A} (m m' : list Symbol → M A) src start_pos r :
  (∀ c, below (λ _ _, True) (m c) (m' c)) →
  run_src m src start_pos = Some r → run_src m' src start_pos = Some r.
Proof.
  intros Hm. unfold run_src. destruct (lex src start_pos) as [[ts diags]|]; [|done].
  destruct (new ts _) as [p comments].
  destruct (m comments p) as [r'|] eqn:E; [|done]. by apply Hm in E as [-> _].
Qed.
#[local] Instance any_moves : Moves (λ _ _, True).
Proof. by split. Qed.

Lemma parse_module_src_mono n n' src start_pos r :
  (n ≤ n')%nat → parse_module_src n src start_pos = Some r → parse_module_src n' src start_pos = Some r.
Proof.
  intros Hn. apply run_src_below. intros c. apply below_parse_module; [done|]. by apply parsers_fuel_below.
Qed.
Lemma parse_expr_src_mono n n' src r :
  (n ≤ n')%nat → parse_expr_src n src = Some r → parse_expr_src n' src = Some r.
Proof.
  intros Hn. destruct src; [done|]. unfold parse_expr_src. apply run_src_below. intros _.
  apply below_bind; [by apply parsers_fuel_below|]. intros. apply below_ret.
Qed.
Lemma mono_unique {A} (f : nat → option A) n n' r r' :
  (∀ n n' r, (n ≤ n')%nat → f n = Some r → f n' = Some r) → f n = Some r → f n' = Some r' → r = r'.
Proof.
  intros Hf H H'. destruct (Nat.le_ge_cases n n') as [Hn|Hn].
  - apply (Hf _ _ _ Hn) in H. congruence.
  - apply (Hf _ _ _ Hn) in H'. congruence.
Qed.

(** More fuel does not change what a source parses to: a module has one result,
    whatever the fuel. *)
Theorem parse_result_unique fuel fuel' src start_pos r r' :
  parse_module_src fuel src start_pos = Some r →
  parse_module_src fuel' src start_pos = Some r' → r = r'.
Proof.
  apply (mono_unique (λ n, parse_module_src n src start_pos)).
  intros n n' r0. apply parse_module_src_mono.
Qed.

(** A module that is parsed is parsed to its end: the lexer's stream ends with
    its only [Eof], and when the parser returns nothing but this [Eof] is left.
    Every comment of the source is in the module, in order, and every diagnostic
    of the lexer is among those of the parser. *)
Theorem module_parsed_whole fuel src start_pos m ds :
  (0 ≤ start_pos)%Z → parse_module_src fuel src start_pos = Some (Ok (m, ds)) →
  ∃ ts sp diags p',
    lex src start_pos = Ok (ts ++ [MkToken Eof sp], diags) ∧
    (let '(p, comments) := new (ts ++ [MkToken Eof sp]) (rev (LexError <$> diags)) in
     parse_module fuel (parsers_fuel fuel) comments p) = Some (Ok (m, p')) ∧
    remaining p' = [MkToken Eof sp] ∧
    comments m = omap (λ t, match kind t with DocComment (Line x) => Some x | _ => None end) ts ∧
    parse_errors p' = ds ∧ rev (LexError <$> diags) `suffix_of` ds.
Proof.
  intros Hpos. unfold parse_module_src, run_src.
  destruct (TokenProps.token_stream_total character is_id_start is_id_continue is_emoji src start_pos Hpos)
    as (ts & sp & diags & _ & _ & -> & Hts & _).
  unfold new, split_token_stream.
  destruct (split_tokens_end Dummy ts (MkToken Eof sp) Hts eq_refl) as (ts' & Es & Hts').
  rewrite Es. set (p := start _ _). destruct (parse_module _ _ _ p) as [[[m' p']|]|] eqn:E; [| |done]; intros [= <- <-].
  exists ts, sp, diags, p'. split; [done|]. split; [by rewrite Es|].
  assert (remaining p = ts' ++ [MkToken Eof sp] ∧ parse_errors p = rev (LexError <$> diags)) as [Hp Hds]
    by (subst p; by destruct ts').
  pose proof (forward_of _ _ _ _ (below_parse_module (R:=forward) fuel fuel (le_n _) _ _
    (parsers_fuel_below forward fuel fuel (le_n _)) _) E) as [_ Herr].
  apply bind_ok in E as (doc & q & Hdoc & E). apply bind_ok in E as (body & q' & Hbody & [= <- <-]).
  split; [|split_and!; [done|done|by rewrite <- Hds]].
  pose proof (forward_of _ _ _ _ (below_parse_doc (R:=forward) fuel fuel (le_n _) _ _
    (parsers_fuel_below forward fuel fuel (le_n _))) Hdoc) as [Hq _].
  apply (parse_body_ends (R:=forward)) in Hbody as (u & [Hu _] & Hk & [= <-]).
  assert (remaining u `suffix_of` ts' ++ [MkToken Eof sp]) as Hs by (rewrite <- Hp; by etrans).
  apply (suffix_last (λ t, kind t = Eof)) in Hs as [Ht Hc]; [|done|done].
  unfold remaining. rewrite Hc. cbn. by rewrite Ht.
Qed.
End Properties.
