(* ===== verification/Grammar.v ===== *)
(** * The grammar of expressions

    The syntax that the comments of [parser/src/parser/expr.rs] document, as
    relations between trees and the tokens they are written with, for
    expressions on one line: names, literals, unary and binary operators with
    their precedences, chains of comparisons, conditional expressions,
    selectors, calls, subscripts and slices, lists, configurations, schemas and
    comprehensions.  [GrammarProps] shows that the parser reads them. *)

From stdpp Require Import base tactics list numbers strings.
From Stdlib Require Import ZArith Lia Floats.
From S2P Require Import Prelude Token Ast Parser ParseExpr MachineInt.
From S2P Require IntLit.

(** ** Operators *)

(** The tokens and the rank of a binary operator. *)
Definition bin_kind (op : BinOp) : TokenKind :=
  match op with
  | Add => Token.BinOp Plus | Sub => Token.BinOp Minus | Mul => Token.BinOp Star
  | Div => Token.BinOp Slash | Mod => Token.BinOp Percent | Pow => Token.BinOp StarStar
  | FloorDiv => Token.BinOp SlashSlash | LShift => Token.BinOp Shl | RShift => Token.BinOp Shr
  | BitXor => Token.BinOp Caret | BitAnd => Token.BinOp Token.And
  | BitOr => Token.BinOp Token.Or
  | And => Ident kw.And | Or => Ident kw.Or | As => Ident kw.As
  end.
Definition bin_rank (op : BinOp) : nat :=
  match op with
  | As => 1 | Or => 2 | And => 3
  | BitOr => 8 | BitXor => 9 | BitAnd => 10 | LShift | RShift => 11 | Add | Sub => 12
  | Mul | Div | Mod | FloorDiv => 13 | Pow => 14
  end.

(** Those of a comparison; no token is read as [CNot]. *)
Definition cmp_kinds (op : CmpOp) : list TokenKind :=
  match op with
  | CEq => [BinCmp Eq] | CNotEq => [BinCmp NotEq] | CLt => [BinCmp Lt] | CLtE => [BinCmp LtEq]
  | CGt => [BinCmp Gt] | CGtE => [BinCmp GtEq] | CIs => [Ident kw.Is] | CIn => [Ident kw.In]
  | CNotIn => [Ident kw.Not; Ident kw.In] | CIsNot => [Ident kw.Is; Ident kw.Not] | CNot => []
  end.
Definition cmp_rank (op : CmpOp) : nat :=
  match op with
  | CEq | CNotEq => 4 | CIn | CNotIn => 5 | CIs | CIsNot | CNot => 6
  | CLt | CLtE | CGt | CGtE => 7
  end.

Definition unary_kinds (op : UnaryOp) : list TokenKind :=
  match op with
  | UAdd => [Token.BinOp Plus] | USub => [Token.BinOp Minus] | Invert => [Token.UnaryOp UTilde]
  | Not => [Token.UnaryOp UNot; Ident kw.Not]
  end.

(** The operator that a comparison [is] is not: [x is not y]. *)
Definition starts_with_not (ts : list Token) : Prop :=
  match ts with t :: _ => kind t = Ident kw.Not | [] => False end.

(** ** Names *)

Definition keyword (s : Symbol) : bool := bool_decide (s ∈ intern <$> kw.Keywords).

(** [. n . m ...] *)
Inductive dotted : Identifier → list Token → Prop :=
  | dotted_nil : dotted [] []
  | dotted_cons d t n ns ts :
      kind d = Dot → kind t = Ident n → dotted ns ts → dotted (n :: ns) (d :: t :: ts).
Inductive names : Identifier → list Token → Prop :=
  | names_of t n ns ts : kind t = Ident n → dotted ns ts → names (n :: ns) (t :: ts).
(** A name that is no keyword. *)
Definition plain (ns : Identifier) : Prop :=
  match ns with n :: _ => keyword n = false | [] => False end.

Inductive targets_of : list Identifier → list Token → Prop :=
  | targets_one ns ts : names ns ts → targets_of [ns] ts
  | targets_cons ns ts c nss tss :
      names ns ts → kind c = Comma → targets_of nss tss → targets_of (ns :: nss) (ts ++ c :: tss).

Inductive optional (k : TokenKind) : list Token → Prop :=
  | optional_none : optional k []
  | optional_some t : kind t = k → optional k [t].

(** ** Expressions *)

(** How a primary expression ends: with its only identifier, with a name behind
    a dot, or otherwise.  The names that follow an identifier belong to it. *)
Inductive ending := Bare | Named | Closed.

Section Grammar.
Context {EX : Externals} {HP : Profile}.

Definition constant_symbol (c : NameConstant) : Symbol :=
  match c with
  | NTrue => kw.True | NFalse => kw.False | NNone => kw.None | NUndefined => kw.Undefined
  end.

Inductive literal : Expr → TokenKind → Prop :=
  | literal_int lk v :
      lit_kind lk = Integer → IntLit.bytes_to_int trim parse_bytes (symbol lk) 0 = Ok (Some v) →
      literal (NumberLit (suffix lk ≫= suffix_try_from) (Int v)) (Literal lk)
  | literal_float lk v :
      lit_kind lk = Float → parse_f64 (symbol lk) = Some v →
      literal (NumberLit None (FloatLit v)) (Literal lk)
  | literal_str lk long is_raw :
      lit_kind lk = Str long is_raw → find (intern "${") (symbol lk) = None →
      literal (StringLitExpr (MkStringLit long (symbol lk) (default [] (raw lk)))) (Literal lk)
  | literal_constant c : literal (NameConstantLit c) (Ident (constant_symbol c)).

(** [test] is [expr]; [simple k] has operators of rank [k] or more outside of its
    operands, which are [unary]; [chain b k] are comparisons, from one of rank
    [b] or less to one of rank [k] or more, none binding tighter than the one
    before. *)
Inductive test : Expr → list Token → Prop :=
  | test_simple e ts : simple 1 e ts → test e ts
  | test_if b tb i c tc l e te :
      simple 1 b tb → kind i = Ident kw.If → simple 1 c tc → kind l = Ident kw.Else → test e te →
      test (If b c e) (tb ++ i :: tc ++ l :: te)
with simple : nat → Expr → list Token → Prop :=
  | simple_unary k e ts : unary e ts → simple k e ts
  | simple_binary k l tl op o r tr :
      k ≤ bin_rank op → simple (bin_rank op) l tl → kind o = bin_kind op →
      simple (S (bin_rank op)) r tr → simple k (Binary l op r) (tl ++ o :: tr)
  | simple_compare k l tl ops es ts :
      simple 8 l tl → chain 7 k ops es ts → simple k (Compare l ops es) (tl ++ ts)
with chain : nat → nat → list CmpOp → list Expr → list Token → Prop :=
  | chain_one b k op os e ts :
      k ≤ cmp_rank op ≤ b → kind <$> os = cmp_kinds op → os ≠ [] → simple (S (cmp_rank op)) e ts →
      (op = CIs → ¬ starts_with_not ts) → chain b k [op] [e] (os ++ ts)
  | chain_cons b k op os e ts ops es tss :
      cmp_rank op ≤ b → kind <$> os = cmp_kinds op → os ≠ [] → simple (S (cmp_rank op)) e ts →
      (op = CIs → ¬ starts_with_not ts) → chain (cmp_rank op) k ops es tss →
      chain b k (op :: ops) (e :: es) (os ++ ts ++ tss)
with unary : Expr → list Token → Prop :=
  | unary_primary n e ts : primary n e ts → unary e ts
  | unary_op op o n e ts : kind o ∈ unary_kinds op → primary n e ts → unary (Unary op e) (o :: ts)
with primary : ending → Expr → list Token → Prop :=
  | primary_names ns ts : names ns ts → plain ns → primary Bare (IdentifierExpr ns) ts
  | primary_operand e ts : operand e ts → primary Closed e ts
  | primary_select e ts d ns tn :
      primary Closed e ts → kind d = Dot → names ns tn → primary Named (Selector e ns false) (ts ++ d :: tn)
  | primary_select_opt n e ts q d ns tn :
      primary n e ts → kind q = Question → kind d = Dot → names ns tn →
      primary Named (Selector e ns true) (ts ++ q :: d :: tn)
  | primary_call n e ts o es ks ta c :
      n ≠ Bare → primary n e ts → kind o = OpenDelim Paren → arguments es ks ta →
      kind c = CloseDelim Paren → primary Closed (Call (MkCall e es ks)) (ts ++ o :: ta ++ [c])
  | primary_index n e ts q o i ti c :
      primary n e ts → optional Question q → kind o = OpenDelim Bracket → test i ti →
      kind c = CloseDelim Bracket →
      primary Closed (Subscript e (Some i) None None None (bool_decide (q ≠ [])))
        (ts ++ q ++ o :: ti ++ [c])
  | primary_slice n e ts q o a ta d b tb c :
      primary n e ts → optional Question q → kind o = OpenDelim Bracket → opt_test a ta →
      kind d = Colon → opt_test b tb → kind c = CloseDelim Bracket →
      primary Closed (Subscript e None a b None (bool_decide (q ≠ [])))
        (ts ++ q ++ o :: ta ++ d :: tb ++ [c])
  | primary_slice_step n e ts q o a ta d b tb d' s tc c :
      primary n e ts → optional Question q → kind o = OpenDelim Bracket → opt_test a ta →
      kind d = Colon → opt_test b tb → kind d' = Colon → opt_test s tc → kind c = CloseDelim Bracket →
      primary Closed (Subscript e None a b s (bool_decide (q ≠ [])))
        (ts ++ q ++ o :: ta ++ d :: tb ++ d' :: tc ++ [c])
with operand : Expr → list Token → Prop :=
  | operand_literal e t : literal e (kind t) → operand e [t]
  | operand_paren o e ts c :
      kind o = OpenDelim Paren → test e ts → kind c = CloseDelim Paren →
      operand (ParenExpr e) (o :: ts ++ [c])
  | operand_call ns tn o es ks ta c :
      names ns tn → plain ns → kind o = OpenDelim Paren → arguments es ks ta →
      kind c = CloseDelim Paren →
      operand (Call (MkCall (IdentifierExpr ns) es ks)) (tn ++ o :: ta ++ [c])
  | operand_schema ns tn e tc :
      names ns tn → plain ns → config e tc → operand (Schema ns [] [] e) (tn ++ tc)
  | operand_schema_args ns tn o es ks ta c e tc :
      names ns tn → plain ns → kind o = OpenDelim Paren → arguments es ks ta →
      kind c = CloseDelim Paren → config e tc →
      operand (Schema ns es ks e) (tn ++ o :: ta ++ c :: tc)
  | operand_list o es ts c :
      kind o = OpenDelim Bracket → list_items es ts → kind c = CloseDelim Bracket →
      operand (ListExpr es) (o :: ts ++ [c])
  | operand_list_comp o e te gs tg c :
      kind o = OpenDelim Bracket → list_item e te → clauses gs tg → gs ≠ [] →
      kind c = CloseDelim Bracket → operand (ListComp e gs) (o :: te ++ tg ++ [c])
  | operand_config e ts : config e ts → operand e ts
with config : Expr → list Token → Prop :=
  | config_entries o es ts c :
      kind o = OpenDelim Brace → entries es ts → kind c = CloseDelim Brace →
      config (Config es) (o :: ts ++ [c])
  | config_comp o e te gs tg c :
      kind o = OpenDelim Brace → entry e te → clauses gs tg → gs ≠ [] →
      kind c = CloseDelim Brace → config (DictComp e gs) (o :: te ++ tg ++ [c])
with arguments : list Expr → list (Keyword Expr) → list Token → Prop :=
  | arguments_keywords ks ts : keywords_of ks ts → arguments [] ks ts
  | arguments_last e ts : test e ts → arguments [e] [] ts
  | arguments_cons e te c es ks ts :
      test e te → kind c = Comma → arguments es ks ts → arguments (e :: es) ks (te ++ c :: ts)
with keywords_of : list (Keyword Expr) → list Token → Prop :=
  | keywords_nil : keywords_of [] []
  | keywords_last ns tn a e te :
      names ns tn → plain ns → kind a = Assign → test e te →
      keywords_of [MkKeyword ns (Some e)] (tn ++ a :: te)
  | keywords_cons ns tn a e te c ks ts :
      names ns tn → plain ns → kind a = Assign → test e te → kind c = Comma → keywords_of ks ts →
      keywords_of (MkKeyword ns (Some e) :: ks) (tn ++ a :: te ++ c :: ts)
with list_item : Expr → list Token → Prop :=
  | list_item_test e ts : test e ts → list_item e ts
  | list_item_starred s e ts :
      kind s = Token.BinOp Star → test e ts → list_item (Starred e) (s :: ts)
with list_items : list Expr → list Token → Prop :=
  | list_items_nil : list_items [] []
  | list_items_last e ts : list_item e ts → list_items [e] ts
  | list_items_cons e te c es ts :
      list_item e te → kind c = Comma → list_items es ts → list_items (e :: es) (te ++ c :: ts)
with entry : ConfigEntry Expr → list Token → Prop :=
  | entry_pair k tk o op v tv :
      test k tk → kind o = match op with Union => Colon | Override => Assign | Insert => BinOpEq Plus end →
      test v tv → entry (MkEntry (Some k) v op) (tk ++ o :: tv)
  | entry_double_star s e ts :
      kind s = Token.BinOp StarStar → test e ts → entry (MkEntry None e Union) (s :: ts)
with entries : list (ConfigEntry Expr) → list Token → Prop :=
  | entries_nil : entries [] []
  | entries_last e ts : entry e ts → entries [e] ts
  | entries_cons e te c es ts :
      entry e te → kind c = Comma → entries es ts → entries (e :: es) (te ++ c :: ts)
with clauses : list (CompClause Expr) → list Token → Prop :=
  | clauses_nil : clauses [] []
  | clauses_cons f nss tn i e te cs ti gs ts :
      kind f = Ident kw.For → targets_of nss tn → kind i = Ident kw.In → simple 1 e te →
      conditions cs ti → clauses gs ts →
      clauses (MkClause nss e cs :: gs) (f :: tn ++ i :: te ++ ti ++ ts)
with conditions : list Expr → list Token → Prop :=
  | conditions_nil : conditions [] []
  | conditions_one i e ts : kind i = Ident kw.If → test e ts → conditions [e] (i :: ts)
with opt_test : option Expr → list Token → Prop :=
  | opt_test_none : opt_test None []
  | opt_test_some e ts : test e ts → opt_test (Some e) ts.

Scheme test_mut := Minimality for test Sort Prop
  with simple_mut := Minimality for simple Sort Prop
  with chain_mut := Minimality for chain Sort Prop
  with unary_mut := Minimality for unary Sort Prop
  with primary_mut := Minimality for primary Sort Prop
  with operand_mut := Minimality for operand Sort Prop
  with config_mut := Minimality for config Sort Prop
  with arguments_mut := Minimality for arguments Sort Prop
  with keywords_mut := Minimality for keywords_of Sort Prop
  with list_item_mut := Minimality for list_item Sort Prop
  with list_items_mut := Minimality for list_items Sort Prop
  with entry_mut := Minimality for entry Sort Prop
  with entries_mut := Minimality for entries Sort Prop
  with clauses_mut := Minimality for clauses Sort Prop
  with conditions_mut := Minimality for conditions Sort Prop
  with opt_test_mut := Minimality for opt_test Sort Prop.
Combined Scheme grammar_ind from test_mut, simple_mut, chain_mut, unary_mut, primary_mut,
  operand_mut, config_mut, arguments_mut, keywords_mut, list_item_mut, list_items_mut, entry_mut,
  entries_mut, clauses_mut, conditions_mut, opt_test_mut.
End Grammar.
