(* ===== verification/GrammarProps.v ===== *)
(** * The parser reads the grammar

    Tokens that [Grammar] relates to a tree are parsed to this tree, without a
    diagnostic and up to their last token, when what follows cannot continue
    them; and fuel that is linear in the number of tokens is enough. *)

From stdpp Require Import base tactics list numbers strings.
From Stdlib Require Import ZArith Lia Floats.
From S2P Require Import Prelude Token Ast Parser ParseType ParseExpr ParseStmt MachineInt Grammar.
From S2P Require IntLit TokenStream.

(** ** Running a parser *)

(** The state at the tokens [ts]. *)
Definition at_ (ts : list Token) (prev : Token) (errs : list PDiagnostic) : Parser :=
  match ts with
  | t :: ts => MkParser t prev ts errs
  | [] => MkParser prev prev [] errs
  end.
(** [m] returns [b] from [p] and is then at [rest]. *)
Definition ends {A} (m : M A) (p : Parser) (b : A) (rest : list Token) (errs : list PDiagnostic) : Prop :=
  ∃ prev, m p = Some (Ok (b, at_ rest prev errs)).

Section Ends.
Context {A B : Type}.
Implicit Types (m : M A) (f : A → M B) (p : Parser) (errs : list PDiagnostic).

Lemma ends_run m f p a q b rest errs :
  m p = Some (Ok (a, q)) → ends (f a) q b rest errs → ends (m ≫= f) p b rest errs.
Proof. unfold ends, mbind, M_bind. intros ->. done. Qed.
Lemma ends_bind m f p a ts b rest errs :
  ends m p a ts errs → (∀ prev, ends (f a) (at_ ts prev errs) b rest errs) →
  ends (m ≫= f) p b rest errs.
Proof. intros [prev Hm] Hf. eapply ends_run; [exact Hm|apply Hf]. Qed.
Lemma ends_assoc {C} m f (g : B → M C) p b rest errs :
  ends (m ≫= λ a, f a ≫= g) p b rest errs → ends ((m ≫= f) ≫= g) p b rest errs.
Proof. intros [prev H]. exists prev. revert H. unfold mbind, M_bind. by repeat case_match. Qed.
Lemma ends_mret a f p b rest errs : ends (f a) p b rest errs → ends (mret a ≫= f) p b rest errs.
Proof. by apply ends_run. Qed.
Lemma ends_ret (b : A) prev rest errs : ends (mret b) (at_ rest prev errs) b rest errs.
Proof. by exists prev. Qed.
Lemma ends_loop n (body : A → M (A + B)) a p b rest errs :
  ends (r ← body a; match r with inl a => loop n body a | inr b => mret b end) p b rest errs →
  ends (loop (S n) body a) p b rest errs.
Proof. done. Qed.
End Ends.

Lemma bump_at t ts prev errs : ts ≠ [] → bump (at_ (t :: ts) prev errs) = Some (Ok (tt, at_ ts t errs)).
Proof. by destruct ts. Qed.

Section Steps.
Context {B : Type}.
Implicit Types (b : B) (rest ts : list Token) (errs : list PDiagnostic).

Lemma ends_bump (f : () → M B) t ts prev errs b rest errs' :
  ts ≠ [] → ends (f tt) (at_ ts t errs) b rest errs' →
  ends (bump ≫= f) (at_ (t :: ts) prev errs) b rest errs'.
Proof. intros Hts. apply ends_run, bump_at, Hts. Qed.
Lemma ends_bump_token k (f : () → M B) t ts prev errs b rest errs' :
  kind t = k → ts ≠ [] → ends (f tt) (at_ ts t errs) b rest errs' →
  ends (bump_token k ≫= f) (at_ (t :: ts) prev errs) b rest errs'.
Proof.
  intros Hk Hts. apply ends_run. unfold bump_token, is_kind, get_kind, mbind, M_bind, mret, M_ret. cbn.
  by rewrite bool_decide_eq_true_2; [apply bump_at|].
Qed.
Lemma ends_expect k (f : () → M B) t ts prev errs b rest errs' :
  kind t = k → ts ≠ [] → ends (f tt) (at_ ts t errs) b rest errs' →
  ends (expect k ≫= f) (at_ (t :: ts) prev errs) b rest errs'.
Proof.
  intros Hk Hts. apply ends_run. unfold expect, is_kind, get_kind, mbind, M_bind, mret, M_ret. cbn.
  by rewrite bool_decide_eq_true_2; [apply bump_at|].
Qed.
Lemma ends_when (c : bool) (m : M ()) (f : () → M B) p b rest errs :
  ends (if c then m ≫= f else f tt) p b rest errs → ends (when c m ≫= f) p b rest errs.
Proof. by destruct c. Qed.
(** Newlines and indentation that are not there. *)
Lemma ends_bump_while n c (f : () → M B) t ts prev errs b rest errs' :
  (0 < n)%nat → c (kind t) = false → ends (f tt) (at_ (t :: ts) prev errs) b rest errs' →
  ends (bump_while n c ≫= f) (at_ (t :: ts) prev errs) b rest errs'.
Proof.
  intros Hn Hc. destruct n; [lia|]. apply ends_run.
  unfold bump_while. cbn [loop]. unfold get_kind, mbind, M_bind. cbn. by rewrite Hc.
Qed.
(** Tokens were taken since the mark. *)
Lemma ends_drop_marker k (f : bool → M B) ts prev errs b rest errs' :
  (length (tail ts) < k)%nat → ends (f false) (at_ ts prev errs) b rest errs' →
  ends (drop_marker k ≫= f) (at_ ts prev errs) b rest errs'.
Proof.
  intros Hk. apply ends_run. unfold drop_marker, mark, mbind, M_bind. cbn.
  destruct ts as [|t ts]; cbn in *; (rewrite (proj2 (Nat.eqb_neq _ _)) by lia); done.
Qed.
End Steps.

(** ** Tokens *)

(** The kinds that expressions start with. *)
Definition starting (k : TokenKind) : bool :=
  match k with
  | Ident s => negb (keyword s) || bool_decide (s ∈ [kw.Not; kw.True; kw.False; kw.None; kw.Undefined])
  | Literal _ | Token.UnaryOp _ | Token.BinOp Plus | Token.BinOp Minus => true
  | OpenDelim NoDelim => false
  | OpenDelim _ => true
  | _ => false
  end.
Definition starts (ts : list Token) : Prop :=
  match ts with t :: _ => starting (kind t) = true | [] => False end.

Lemma starting_kind t k :
  starting (kind t) = true → starting k = false → bool_decide (kind t = k) = false.
Proof. intros Ht Hk. apply bool_decide_eq_false_2. congruence. Qed.
Lemma is_keyword_kind kw t : is_keyword kw t = bool_decide (kind t = Ident kw).
Proof.
  unfold is_keyword, run_on_ident, ident. destruct (kind t); try done.
  cbn. apply bool_decide_ext. split; congruence.
Qed.
Lemma starting_keyword t kw :
  starting (kind t) = true → starting (Ident kw) = false → is_keyword kw t = false.
Proof. rewrite is_keyword_kind. apply starting_kind. Qed.

(** What follows does not continue a primary expression; the rank of the
    operator that follows. *)
Definition stop (ts : list Token) : Prop :=
  match ts with
  | t :: _ =>
      match kind t with
      | Dot | Question | OpenDelim Paren | OpenDelim Bracket | OpenDelim Brace => False
      | _ => True
      end
  | [] => False
  end.
Definition op_rank (ts : list Token) : nat :=
  match ts with t :: ts => rank (peek_operator t (head ts)).1 | [] => 0 end.
Definition follow_simple (ts : list Token) : Prop := stop ts ∧ op_rank ts = 0.
Definition follow_test (ts : list Token) : Prop :=
  follow_simple ts ∧ match ts with t :: _ => kind t ≠ Ident kw.If | [] => True end.

(** The kinds that end an expression. *)
Definition closing (k : TokenKind) : bool :=
  match k with
  | Comma | CloseDelim _ | Colon | Newline | Eof | Assign | BinOpEq _ => true
  | Ident s => bool_decide (s ∈ [kw.For; kw.Else])
  | _ => false
  end.
Lemma op_rank_ident s t ts : kind t = Ident s → s ∈ [kw.For; kw.Else; kw.If] → op_rank (t :: ts) = 0.
Proof.
  intros Ht Hs. cbn. unfold peek_operator, Precedence_from. rewrite !is_keyword_kind, Ht.
  rewrite !elem_of_cons, elem_of_nil in Hs. by destruct Hs as [->|[->|[->|[]]]].
Qed.
Lemma closing_follow t ts : closing (kind t) = true → follow_test (t :: ts).
Proof.
  intros Ht. destruct (kind t) eqn:Ek; try done.
  all: try (split; [split; cbn; unfold peek_operator, Precedence_from; rewrite ?is_keyword_kind, Ek; done|by rewrite Ek]).
  apply (bool_decide_eq_true_1 (s ∈ [kw.For; kw.Else])) in Ht.
  split; [split; [by cbn; rewrite Ek|]|].
  - apply (op_rank_ident s); [done|]. rewrite !elem_of_cons in Ht. rewrite !elem_of_cons. tauto.
  - rewrite Ek. rewrite !elem_of_cons, elem_of_nil in Ht. by destruct Ht as [->|[->|[]]].
Qed.
Lemma if_follow t ts : kind t = Ident kw.If → follow_simple (t :: ts).
Proof.
  intros Ht. split; [by cbn; rewrite Ht|].
  apply (op_rank_ident kw.If); [done|]. rewrite !elem_of_cons. tauto.
Qed.

(** ** Operators *)

Lemma bin_kind_reads op t peek :
  kind t = bin_kind op →
  ∃ prec, peek_operator t peek = (prec, false) ∧ rank prec = bin_rank op ∧
    BinOrCmpOp_try_from t = Some (Bin op).
Proof.
  intros Ht. unfold peek_operator, Precedence_from, BinOrCmpOp_try_from.
  rewrite !is_keyword_kind, Ht. destruct op; cbn; eexists; done.
Qed.
Lemma bin_kind_follow op t ts :
  kind t = bin_kind op → stop (t :: ts) ∧ op_rank (t :: ts) = bin_rank op.
Proof.
  intros Ht. destruct (bin_kind_reads op t (head ts) Ht) as (prec & E & <- & _). split.
  - cbn. by rewrite Ht; destruct op.
  - unfold op_rank. by rewrite E.
Qed.

(** A comparison is read from one token, or from two at once. *)
Definition reads_cmp (op : CmpOp) (os rest : list Token) : Prop :=
  match os with
  | [t] =>
      ∃ prec, peek_operator t (head rest) = (prec, false) ∧ rank prec = cmp_rank op ∧
        BinOrCmpOp_try_from t = Some (Cmp op)
  | [t; t'] =>
      ∃ prec, peek_operator t (Some t') = (prec, true) ∧ rank prec = cmp_rank op ∧
        two_token_operator t t' = mret (Cmp op)
  | _ => False
  end.
Lemma cmp_kinds_read op os rest :
  kind <$> os = cmp_kinds op → os ≠ [] → (op = CIs → ¬ starts_with_not rest) → reads_cmp op os rest.
Proof.
  intros Hos Hne Hnot. destruct os as [|t os]; [done|].
  assert (∀ kw, is_keyword kw t = bool_decide (kind t = Ident kw)) as Ht by (intros; apply is_keyword_kind).
  destruct op, os as [|t' [|? ?]]; cbn in Hos; try done; injection Hos as Hk; cbn [reads_cmp].
  all: try (unfold peek_operator, Precedence_from, BinOrCmpOp_try_from; rewrite !Ht, Hk; cbn; eexists; done).
  - specialize (Hnot eq_refl). destruct rest as [|u rest].
    + unfold peek_operator, Precedence_from, BinOrCmpOp_try_from; rewrite !Ht, Hk; cbn; eexists; done.
    + change (kind u ≠ Ident kw.Not) in Hnot. unfold peek_operator, Precedence_from, BinOrCmpOp_try_from.
      cbv beta zeta. cbn [head]. rewrite !Ht, Hk, is_keyword_kind, (bool_decide_eq_false_2 _ Hnot). eexists; done.
  - unfold peek_operator, two_token_operator. cbv beta zeta. rewrite !Ht, Hk, !is_keyword_kind, H. cbn. eexists; done.
  - unfold peek_operator, two_token_operator. cbv beta zeta. rewrite !Ht, Hk, !is_keyword_kind, H. cbn. eexists; done.
Qed.
Lemma reads_cmp_follow op os rest : reads_cmp op os rest → stop (os ++ rest) ∧ op_rank (os ++ rest) = cmp_rank op.
Proof.
  assert (∀ t ts prec b, peek_operator t (head ts) = (prec, b) → 0 < rank prec → stop (t :: ts)) as Hstop.
  { intros t ts prec b. unfold peek_operator, Precedence_from. rewrite !is_keyword_kind. unfold stop.
    destruct (kind t) as []; try done; try (intros E Hr; lazy in E; injection E as <- <-; cbn in Hr; lia). }
  intros H. destruct os as [|t [|t' [|? ?]]]; try done; destruct H as (prec & E & Hr & _); cbn [app].
  - split; [eapply Hstop; [exact E|destruct op; cbn in *; lia]|]. unfold op_rank. by rewrite E.
  - split; [apply (Hstop t (t' :: rest) prec true E); destruct op; cbn in *; lia|].
    unfold op_rank. cbn [head]. by rewrite E.
Qed.

(** ** First tokens *)

Section Shape.
Context {EX : Externals} {HP : Profile}.

Lemma starts_app ts ts' : starts ts → starts (ts ++ ts').
Proof. by destruct ts. Qed.
Lemma names_starts ns ts : names ns ts → plain ns → starts ts.
Proof. intros [t n ns' ts' Ht _]. cbn. rewrite Ht. cbn. by intros ->. Qed.
Lemma literal_starts e k : literal e k → starting k = true ∧ is_missing e = false.
Proof. intros [lk v| | |[]]; done. Qed.

(** An expression is not missing and starts with a token that starts one. *)
Definition shape (e : Expr) (ts : list Token) : Prop := starts ts ∧ is_missing e = false.
Lemma grammar_shape :
  (∀ e ts, test e ts → shape e ts) ∧
  (∀ k e ts, simple k e ts → shape e ts) ∧
  (∀ (b k : nat) (ops : list CmpOp) (es : list Expr) (ts : list Token), chain b k ops es ts → True) ∧
  (∀ e ts, unary e ts → shape e ts) ∧
  (∀ n e ts, primary n e ts → shape e ts) ∧
  (∀ e ts, operand e ts → shape e ts) ∧
  (∀ e ts, config e ts → starts ts ∧ is_missing e = false ∧ (∃ t ts', ts = t :: ts' ∧ kind t = OpenDelim Brace)).
Proof.
  pose proof (grammar_ind shape (λ _, shape) (λ _ _ _ _ _, True) shape (λ _, shape) shape
    (λ e ts, starts ts ∧ is_missing e = false ∧ ∃ t ts', ts = t :: ts' ∧ kind t = OpenDelim Brace)
    (λ _ _ _, True) (λ _ _, True) (λ _ _, True) (λ _ _, True) (λ _ _, True) (λ _ _, True)
    (λ _ _, True) (λ _ _, True) (λ _ _, True)) as H.
  edestruct H as (H1 & H2 & H3 & H4 & H5 & H6 & H7 & _); clear H; [..|by split_and!];
    unfold shape; intros; try done; split; try done.
  all: repeat lazymatch goal with
       | H : _ ∧ _ |- _ => destruct H
       | |- starts (_ ++ _) => apply starts_app
       end; try assumption.
  all: try (by eapply names_starts).
  all: try (cbn; match goal with H : kind _ = _ |- _ => by rewrite H end).
  all: try (by edestruct literal_starts).
  - revert H. destruct op; cbn; rewrite ?elem_of_cons, elem_of_nil; intros H.
    all: repeat (destruct H as [->|H]; [done|]); done.
  - split; [done|]. by eexists _, _.
  - split; [done|]. by eexists _, _.
Qed.
Lemma test_shape e ts : test e ts → shape e ts.
Proof. apply grammar_shape. Qed.
Lemma simple_shape k e ts : simple k e ts → shape e ts.
Proof. apply grammar_shape. Qed.
Lemma primary_starts n e ts : primary n e ts → starts ts.
Proof. destruct grammar_shape as (_ & _ & _ & _ & Hp & _). intros H. apply (Hp n e), H. Qed.
Lemma config_starts e ts : config e ts → ∃ t ts', ts = t :: ts' ∧ kind t = OpenDelim Brace.
Proof. intros H. by apply grammar_shape in H as (_ & _ & H). Qed.
End Shape.

(** ** Tactics *)

Lemma app_not_nil {A} (l l' : list A) : l' ≠ [] → l ++ l' ≠ [].
Proof. by destruct l. Qed.
Ltac not_nil := repeat first [assumption | discriminate | apply app_not_nil].
Ltac norm_at := cbn [app]; repeat (rewrite <- ?app_assoc; cbn [app]).

(** What the parsers read at a token. *)
Section Reads.
Context {B : Type} (t : Token) (ts : list Token) (prev : Token) (errs : list PDiagnostic)
  (b : B) (rest : list Token) (errs' : list PDiagnostic).
Abbreviation reads m a := (∀ f : _ → M B,
  ends (f a) (at_ (t :: ts) prev errs) b rest errs' →
  ends (m ≫= f) (at_ (t :: ts) prev errs) b rest errs').
Lemma ends_get_token : reads get_token t.
Proof. intros f. by apply ends_run. Qed.
Lemma ends_get_kind : reads get_kind (kind t).
Proof. intros f. by apply ends_run. Qed.
Lemma ends_is_kind k : reads (is_kind k) (bool_decide (kind t = k)).
Proof. intros f. by apply ends_run. Qed.
Lemma ends_is_kw k : reads (is_kw k) (is_keyword k t).
Proof. intros f. by apply ends_run. Qed.
Lemma ends_peek_token : reads peek_token (head ts).
Proof. intros f. by apply ends_run. Qed.
Lemma ends_mark : reads mark (length ts).
Proof. intros f. by apply ends_run. Qed.
End Reads.

(** One step of the run: a primitive whose effect is known. *)
Ltac step :=
  lazymatch goal with
  | |- ends ((_ ≫= _) ≫= _) _ _ _ _ => apply ends_assoc
  | |- ends (mret _ ≫= _) _ _ _ _ => apply ends_mret
  | |- ends (continue _ ≫= _) _ _ _ _ => apply ends_mret
  | |- ends (break _ ≫= _) _ _ _ _ => apply ends_mret
  | |- ends (bump ≫= _) (at_ (_ :: _) _ _) _ _ _ => apply ends_bump; [not_nil|]
  | |- ends (bump_token _ ≫= _) (at_ (_ :: _) _ _) _ _ _ => apply ends_bump_token; [assumption|not_nil|]
  | |- ends (expect _ ≫= _) (at_ (_ :: _) _ _) _ _ _ => apply ends_expect; [assumption|not_nil|]
  | |- ends (when _ _ ≫= _) _ _ _ _ => apply ends_when
  | |- ends (get_token ≫= _) (at_ (_ :: _) _ _) _ _ _ => apply ends_get_token
  | |- ends (get_kind ≫= _) (at_ (_ :: _) _ _) _ _ _ => apply ends_get_kind
  | |- ends (is_kind _ ≫= _) (at_ (_ :: _) _ _) _ _ _ => apply ends_is_kind
  | |- ends (is_kw _ ≫= _) (at_ (_ :: _) _ _) _ _ _ => apply ends_is_kw
  | |- ends (peek_token ≫= _) (at_ (_ :: _) _ _) _ _ _ => apply ends_peek_token
  | |- ends (mark ≫= _) (at_ (_ :: _) _ _) _ _ _ => apply ends_mark
  | |- ends (mret _) _ _ _ _ => apply ends_ret
  end; cbv beta iota.
Lemma ident_kind t s : kind t = Ident s → ident t = Some (s, tok_span t).
Proof. unfold ident. by intros ->. Qed.
(** The tests of the kind of a token that is known. *)
Ltac known :=
  match goal with
  | H : kind ?t = Ident _ |- context [ident ?t] => rewrite (ident_kind _ _ H)
  | H : kind ?t = ?k |- context [is_keyword ?kw ?t] => rewrite (is_keyword_kind kw t), H
  | H : kind ?t = ?k |- context [kind ?t] => rewrite H
  | H : starting (kind ?t) = true |- context [bool_decide (kind ?t = ?k)] =>
      rewrite (starting_kind t k H) by reflexivity
  | H : starting (kind ?t) = true |- context [is_keyword ?k ?t] =>
      rewrite (starting_keyword t k H) by reflexivity
  | |- context [bool_decide (?k = ?k)] => rewrite (bool_decide_eq_true_2 (k = k)) by reflexivity
  | |- context [bool_decide (?k = ?k')] => rewrite (bool_decide_eq_false_2 (k = k')) by discriminate
  | |- context [true || ?b] => change (true || b) with true
  | |- context [false || ?b] => change (false || b) with b
  | |- context [negb true] => change (negb true) with false
  | |- context [negb false] => change (negb false) with true
  end; cbv beta iota.
Ltac run := cbv beta iota; repeat first [step | known].

(** Unfold the parser that runs now. *)
Ltac enter f :=
  lazymatch goal with
  | |- ends (?m ≫= ?g) ?p ?b ?rest ?errs =>
      let m' := eval cbv beta iota zeta delta [f] in m in change (ends (m' ≫= g) p b rest errs)
  | |- ends ?m ?p ?b ?rest ?errs =>
      let m' := eval cbv beta iota zeta delta [f] in m in change (ends m' p b rest errs)
  end.

Section Names.
Context {EX : Externals} {HP : Profile}.

Lemma parse_dotted n ns0 ns ts prev errs rest :
  dotted ns ts → length ts < n → rest ≠ [] → (∀ t us, rest = t :: us → kind t ≠ Dot) →
  ends (loop n names_step ns0) (at_ (ts ++ rest) prev errs) (ns0 ++ ns) rest errs.
Proof.
  intros H. revert n ns0 prev. induction H as [|d t m ns ts Hd Ht _ IH]; intros n ns0 prev Hn Hr Hdot.
  - destruct n as [|n]; [cbn in Hn; lia|]. apply ends_loop. destruct rest as [|u us]; [done|].
    enter names_step. cbn [app]. rewrite app_nil_r. run. specialize (Hdot u us eq_refl).
    destruct (kind u); try done; run.
  - destruct n as [|n]; [cbn in Hn; lia|]. apply ends_loop. enter names_step. cbn [app]. run.
    replace (ns0 ++ m :: ns) with ((ns0 ++ [m]) ++ ns) by (by rewrite <- app_assoc). apply IH; cbn in *; [lia|done..].
Qed.
Lemma parse_names n ns ts prev errs rest :
  names ns ts → length ts ≤ n → rest ≠ [] → (∀ t us, rest = t :: us → kind t ≠ Dot) →
  ends (parse_identifier n) (at_ (ts ++ rest) prev errs) ns rest errs.
Proof.
  intros [t m ns' ts' Ht Hd] Hn Hr Hdot. unfold parse_identifier. cbn [app]. run. apply (parse_dotted n [m]); cbn in *; [done|lia|done..].
Qed.
End Names.

(** ** Operators *)

Section Operators.
Context {EX : Externals} {HP : Profile}.
Abbreviation R n := (parsers_fuel n).

(** What the parser of tests does on a test, with fuel for its tokens. *)
Definition P_test (e : Expr) (ts : list Token) : Prop :=
  ∀ n prev errs rest, 2 * length ts + 2 ≤ n → follow_test rest →
    ends (p_expr (R n)) (at_ (ts ++ rest) prev errs) e rest errs.

(** The expression that the loop over operators has when it ends. *)
Definition fin (s : OpState) : Expr :=
  match cmp_ops s with [] => x s | _ => Compare (cmp_left s) (cmp_ops s) (cmp_comparators s) end.
(** The loop comes to the end of the tokens with their expression. *)
Definition P_simple (k : nat) (e : Expr) (ts : list Token) : Prop :=
  ∀ n prec prev errs rest b rest',
    S (rank prec) ≤ k → 2 * length ts ≤ n → stop rest → op_rank rest ≤ k →
    (∀ m s prev, n ≤ m + length ts → fin s = e → (7 < k → cmp_ops s = []) →
       (cmp_ops s = [] → cmp_comparators s = []) →
       ends (loop m (op_step (R n) prec) s) (at_ rest prev errs) b rest' errs) →
    ends (do_parse_simple_expr n (R n) prec) (at_ (ts ++ rest) prev errs) b rest' errs.
Definition P_unary (e : Expr) (ts : list Token) : Prop :=
  ∀ n prev errs rest, 2 * length ts ≤ n → stop rest →
    ends (parse_unary_expr n (R n)) (at_ (ts ++ rest) prev errs) e rest errs.

Lemma stop_not_nil rest : stop rest → rest ≠ [].
Proof. by destruct rest. Qed.

(** The loop stops at an operator that does not bind tighter. *)
Lemma loop_stops n m prec s rest prev errs :
  0 < m → rest ≠ [] → op_rank rest ≤ rank prec →
  ends (loop m (op_step (R n) prec) s) (at_ rest prev errs) (fin s) rest errs.
Proof.
  intros Hm Hr Hrank. destruct m as [|m]; [lia|]. destruct rest as [|t us]; [done|].
  apply ends_loop. enter op_step. run.
  unfold op_rank in Hrank. destruct (peek_operator t (head us)) as [oprec use_peek]. cbn [fst] in Hrank.
  rewrite (proj2 (Nat.leb_le _ _)) by done. run.
Qed.
Lemma simple_done k e ts n prec prev errs rest :
  P_simple k e ts → starts ts → S (rank prec) ≤ k → 2 * length ts + 1 ≤ n →
  stop rest → op_rank rest ≤ rank prec →
  ends (p_simple (R n) prec) (at_ (ts ++ rest) prev errs) e rest errs.
Proof.
  intros H Hs Hk Hn Hstop Hr. destruct n as [|n]; [lia|].
  change (p_simple (R (S n)) prec) with (do_parse_simple_expr n (R n) prec).
  apply H; [done|lia|done|lia|]. intros m s prev' Hm <- _ _. apply loop_stops; [|by apply stop_not_nil|done].
  destruct ts; [done|]. cbn [length] in *. lia.
Qed.

Lemma P_simple_unary k e ts : unary e ts → P_unary e ts → P_simple k e ts.
Proof.
  intros _ H n prec prev errs rest b rest' _ Hn Hstop Hr Hloop. enter @do_parse_simple_expr.
  eapply ends_bind; [by apply H|]. intros prev'. apply Hloop; [lia|done..].
Qed.

(** One operator and its right operand. *)
Lemma bin_step n m prec s op o e ts rest prev errs b rest' :
  kind o = bin_kind op → rank prec < bin_rank op → P_simple (S (bin_rank op)) e ts → starts ts →
  2 * length ts + 1 ≤ n → stop rest → op_rank rest ≤ bin_rank op →
  (∀ prev, ends (loop m (op_step (R n) prec) (MkOp (Binary (fin s) op e) (cmp_left s) [] []))
             (at_ rest prev errs) b rest' errs) →
  ends (loop (S m) (op_step (R n) prec) s) (at_ (o :: ts ++ rest) prev errs) b rest' errs.
Proof.
  intros Ho Hprec He Hs Hn Hstop Hr Hk. apply ends_loop. enter op_step. run.
  destruct (bin_kind_reads op o (head (ts ++ rest)) Ho) as (oprec & -> & Hrank & ->).
  rewrite (proj2 (Nat.leb_gt _ _)) by lia. apply stop_not_nil in Hstop as Hne. run.
  eapply ends_bind; [apply (simple_done (S (bin_rank op))); [done|done|lia|lia|done|lia]|].
  intros prev'. run. apply Hk.
Qed.

Definition extend (s : OpState) (ops : list CmpOp) (es : list Expr) : OpState :=
  MkOp (x s) (match cmp_ops s with [] => x s | _ => cmp_left s end) (cmp_ops s ++ ops)
    (cmp_comparators s ++ es).
Lemma extend_cons s op e ops es : extend (extend s [op] [e]) ops es = extend s (op :: ops) (e :: es).
Proof. unfold extend. cbn. rewrite <- !app_assoc. by destruct (cmp_ops s). Qed.

Lemma cmp_step n m prec s op os e ts rest prev errs b rest' :
  reads_cmp op os (ts ++ rest) → rank prec < cmp_rank op → P_simple (S (cmp_rank op)) e ts → starts ts →
  2 * length ts + 1 ≤ n → stop rest → op_rank rest ≤ cmp_rank op →
  (∀ prev, ends (loop m (op_step (R n) prec) (extend s [op] [e])) (at_ rest prev errs) b rest' errs) →
  ends (loop (S m) (op_step (R n) prec) s) (at_ (os ++ ts ++ rest) prev errs) b rest' errs.
Proof.
  intros Hos Hprec He Hs Hn Hstop Hr Hk. apply ends_loop. enter op_step.
  apply stop_not_nil in Hstop as Hne.
  destruct os as [|t [|t' [|? ?]]]; try done; destruct Hos as (oprec & Epeek & Hrank & Eop);
    cbn [app]; run; cbn [head]; rewrite Epeek;
    rewrite (proj2 (Nat.leb_gt _ _)) by lia; unfold default, from_option, id; rewrite Eop; run.
  all: eapply ends_bind; [apply (simple_done (S (cmp_rank op))); [done|done|lia|lia|done|lia]|].
  all: intros prev'; run; apply Hk.
Qed.

(** Some comparisons extend the one that is being collected. *)
Definition P_chain (bound k : nat) (ops : list CmpOp) (es : list Expr) (ts : list Token) : Prop :=
  k ≤ bound ∧ ops ≠ [] ∧ (∀ rest, stop (ts ++ rest) ∧ op_rank (ts ++ rest) ≤ bound) ∧
  ∀ n m prec s prev errs rest b rest',
    S (rank prec) ≤ k → 2 * length ts ≤ n → length ts ≤ m → stop rest → op_rank rest ≤ k →
    (∀ m' prev, m ≤ m' + length ts →
       ends (loop m' (op_step (R n) prec) (extend s ops es)) (at_ rest prev errs) b rest' errs) →
    ends (loop m (op_step (R n) prec) s) (at_ (ts ++ rest) prev errs) b rest' errs.

Lemma reads_cmp_app op os ts rest :
  kind <$> os = cmp_kinds op → os ≠ [] → starts ts → (op = CIs → ¬ starts_with_not ts) →
  reads_cmp op os (ts ++ rest).
Proof. intros Hos Hne Hs Hn. apply cmp_kinds_read; [done..|]. by destruct ts. Qed.

Lemma P_chain_one b k op os e ts :
  k ≤ cmp_rank op ≤ b → kind <$> os = cmp_kinds op → os ≠ [] → simple (S (cmp_rank op)) e ts →
  P_simple (S (cmp_rank op)) e ts → (op = CIs → ¬ starts_with_not ts) →
  P_chain b k [op] [e] (os ++ ts).
Proof.
  intros Hk Hos Hne He HPe Hnot. destruct (simple_shape _ _ _ He) as [Hs _].
  split; [lia|]. split; [done|]. split.
  - intros rest. rewrite <- app_assoc. pose proof (reads_cmp_app op os ts rest Hos Hne Hs Hnot) as H.
    apply reads_cmp_follow in H as [H ->]. split; [done|lia].
  - intros n m prec s prev errs rest b' rest' Hprec Hn Hm Hstop Hr Hloop. rewrite <- app_assoc.
    assert (0 < length os) by (destruct os; [done|cbn; lia]). rewrite length_app in *.
    destruct m as [|m]; [lia|]. apply (cmp_step n m prec s op os e ts rest); [by apply reads_cmp_app|lia|done|done|lia|done|lia|].
    intros prev'. apply Hloop. lia.
Qed.
Lemma P_chain_cons b k op os e ts ops es tss :
  cmp_rank op ≤ b → kind <$> os = cmp_kinds op → os ≠ [] → simple (S (cmp_rank op)) e ts →
  P_simple (S (cmp_rank op)) e ts → (op = CIs → ¬ starts_with_not ts) →
  P_chain (cmp_rank op) k ops es tss → P_chain b k (op :: ops) (e :: es) (os ++ ts ++ tss).
Proof.
  intros Hb Hos Hne He HPe Hnot (Hk & _ & Hfollow & Hss). destruct (simple_shape _ _ _ He) as [Hs _].
  split; [lia|]. split; [done|]. split.
  - intros rest. rewrite <- !app_assoc. pose proof (reads_cmp_app op os ts (tss ++ rest) Hos Hne Hs Hnot) as H.
    apply reads_cmp_follow in H as [H ->]. done.
  - intros n m prec s prev errs rest b' rest' Hprec Hn Hm Hstop Hr Hloop. rewrite <- !app_assoc.
    assert (0 < length os) by (destruct os; [done|cbn; lia]). rewrite !length_app in *.
    destruct (Hfollow rest) as [Hstop' Hr'].
    destruct m as [|m]; [lia|]. apply (cmp_step n m prec s op os e ts (tss ++ rest)); [by apply reads_cmp_app|lia|done|done|lia|done|lia|].
    intros prev'. apply Hss; [done|lia|lia|done|done|]. intros m' prev''. rewrite extend_cons.
    intros Hm'. apply Hloop. lia.
Qed.

Lemma P_simple_binary k l tl op o r tr :
  k ≤ bin_rank op → P_simple (bin_rank op) l tl → kind o = bin_kind op →
  simple (S (bin_rank op)) r tr → P_simple (S (bin_rank op)) r tr →
  P_simple k (Binary l op r) (tl ++ o :: tr).
Proof.
  intros Hk Hl Ho Hr HPr n prec prev errs rest b rest' Hprec Hn Hstop Hrank Hloop.
  destruct (simple_shape _ _ _ Hr) as [Hs _]. rewrite length_app in *. cbn [length] in *. norm_at.
  destruct (bin_kind_follow op o (tr ++ rest) Ho) as [Ho1 Ho2].
  apply Hl; [lia|lia|done|lia|]. intros m s prev' Hm Hfin _ _. destruct m as [|m]; [lia|].
  apply (bin_step n m prec s op o r tr); [done|lia|done|done|lia|done|lia|].
  intros prev''. apply Hloop; [lia| |done|done]. unfold fin. cbn. by rewrite <- Hfin.
Qed.
Lemma P_simple_compare k l tl ops es ts :
  P_simple 8 l tl → P_chain 7 k ops es ts → P_simple k (Compare l ops es) (tl ++ ts).
Proof.
  intros Hl (Hk & Hops & Hfollow & Hss) n prec prev errs rest b rest' Hprec Hn Hstop Hrank Hloop.
  rewrite length_app in *. norm_at. destruct (Hfollow rest) as [Hstop' Hr'].
  apply Hl; [lia|lia|done|lia|]. intros m s prev' Hm Hfin Hs Hc. specialize (Hs ltac:(lia)).
  apply Hss; [lia..|done|done|]. intros m' prev'' Hm'. apply Hloop; [lia| |lia|].
  - unfold fin, extend in *. rewrite Hs in *. cbn. rewrite (Hc eq_refl). cbn. by destruct ops; subst.
  - unfold extend. cbn. rewrite Hs. cbn. by intros ->.
Qed.

(** ** Conditional expressions *)

Lemma p_expr_starts n ts rest prev errs b rest' :
  starts ts →
  ends (operand ← p_simple (R n) Lowest; b ← is_kw kw.If;
        if (b : bool) then parse_if_expr (R n) operand else mret operand)
    (at_ (ts ++ rest) prev errs) b rest' errs →
  ends (p_expr (R (S n))) (at_ (ts ++ rest) prev errs) b rest' errs.
Proof.
  intros Hs H. change (p_expr (R (S n))) with (parse_expr_body (R n)). enter parse_expr_body.
  destruct ts as [|t ts]; [done|]. cbn [app] in *. cbn in Hs. run.
  assert (is_in_recovery_set t = false) as ->; [|apply H].
  unfold is_in_recovery_set. by destruct (kind t).
Qed.
Lemma P_test_simple e ts : simple 1 e ts → P_simple 1 e ts → P_test e ts.
Proof.
  intros He HPe n prev errs rest Hn [[Hstop Hrank] Hif]. destruct (simple_shape _ _ _ He) as [Hs _].
  destruct n as [|n]; [lia|]. apply p_expr_starts; [done|].
  eapply ends_bind; [apply (simple_done 1); [done|done|done|lia|done|by rewrite Hrank]|].
  intros prev'. apply stop_not_nil in Hstop as Hne. destruct rest as [|t rest]; [done|].
  step. rewrite is_keyword_kind, bool_decide_eq_false_2 by done. run.
Qed.
Lemma P_test_if b tb i c tc l e te :
  simple 1 b tb → P_simple 1 b tb → kind i = Ident kw.If → simple 1 c tc → P_simple 1 c tc →
  kind l = Ident kw.Else → test e te → P_test e te → P_test (If b c e) (tb ++ i :: tc ++ l :: te).
Proof.
  intros Hb HPb Hi Hc HPc Hl He HPe n prev errs rest Hn Hfollow.
  destruct (simple_shape _ _ _ Hb) as [Hsb _], (simple_shape _ _ _ Hc) as [Hsc _],
    (test_shape _ _ He) as [Hse _].
  rewrite length_app in Hn. cbn [length] in Hn. rewrite length_app in Hn. cbn [length] in Hn.
  destruct (if_follow i (tc ++ l :: te ++ rest) Hi) as [Hi1 Hi2].
  assert (closing (kind l) = true) as Hcl by (by rewrite Hl).
  destruct (closing_follow l (te ++ rest) Hcl) as [[Hl1 Hl2] _].
  destruct n as [|n]; [lia|]. norm_at. apply p_expr_starts; [done|].
  eapply ends_bind; [apply (simple_done 1); [done|done|done|lia|done|by rewrite Hi2]|]. intros prev1.
  run. enter @parse_if_expr. run.
  eapply ends_bind; [apply (simple_done 1); [done|done|done|lia|done|by rewrite Hl2]|]. intros prev2.
  assert (te ++ rest ≠ []) by (by destruct te). run.
  eapply ends_bind; [apply HPe; [lia|done]|]. intros prev3. run.
Qed.

Lemma P_unary_op op o n e ts :
  kind o ∈ unary_kinds op → primary n e ts →
  (∀ N prev errs rest, 2 * length ts ≤ N → stop rest →
     ends (parse_primary_expr N (R N)) (at_ (ts ++ rest) prev errs) e rest errs) →
  P_unary (Unary op e) (o :: ts).
Proof.
  intros Ho He H N prev errs rest HN Hstop. enter @parse_unary_expr. cbn [app length] in *. run.
  assert (UnaryOp_try_from o = Some op) as ->.
  { unfold UnaryOp_try_from. rewrite is_keyword_kind. revert Ho.
    destruct op; cbn [unary_kinds]; rewrite ?elem_of_cons, elem_of_nil; intros Ho;
      repeat (destruct Ho as [->|Ho]; [done|]); done. }
  assert (ts ++ rest ≠ []) by (apply app_not_nil; by destruct rest). run.
  eapply ends_bind; [apply H; [lia|done]|]. intros prev'. run.
Qed.
End Operators.

(** ** Layout and separators *)

Definition layout (k : TokenKind) : bool :=
  match k with Newline | Indent _ | Dedent _ => true | _ => false end.
Lemma starting_layout t : starting (kind t) = true → layout (kind t) = false.
Proof. by destruct (kind t). Qed.

Section Layout.
Context {B : Type}.
Implicit Types (f : () → M B).
Lemma ends_skip_newlines n f t ts prev errs (b : B) rest errs' :
  0 < n → layout (kind t) = false → ends (f tt) (at_ (t :: ts) prev errs) b rest errs' →
  ends (skip_newlines n ≫= f) (at_ (t :: ts) prev errs) b rest errs'.
Proof. intros Hn Ht. apply ends_bump_while; [done|]. by destruct (kind t). Qed.
Lemma ends_clean_all_indentations n f t ts prev errs (b : B) rest errs' :
  0 < n → layout (kind t) = false → ends (f tt) (at_ (t :: ts) prev errs) b rest errs' →
  ends (clean_all_indentations n ≫= f) (at_ (t :: ts) prev errs) b rest errs'.
Proof.
  intros Hn Ht Hf. apply ends_assoc. repeat (apply ends_bump_while; [done|by destruct (kind t)|]). done.
Qed.
End Layout.

Ltac step_layout :=
  lazymatch goal with
  | |- ends (skip_newlines _ ≫= _) _ _ _ _ =>
      apply ends_skip_newlines; [lia|first [assumption | known; reflexivity]|]
  | |- ends (clean_all_indentations _ ≫= _) _ _ _ _ =>
      apply ends_clean_all_indentations; [lia|first [assumption | known; reflexivity]|]
  end.
Ltac run_all := cbv beta iota; repeat first [step | step_layout | known].

(** The names that are no keywords are none of the keywords the parser asks for. *)
Lemma plain_keyword t s k : kind t = Ident s → keyword s = false → keyword k = true → is_keyword k t = false.
Proof.
  intros Ht Hs Hk. rewrite is_keyword_kind, Ht. apply bool_decide_eq_false_2. congruence.
Qed.

Section Primary.
Context {EX : Externals} {HP : Profile}.
Abbreviation R n := (parsers_fuel n).

Lemma primary_head :
  (∀ n e ts, primary n e ts → ∃ t ts', ts = t :: ts' ∧ UnaryOp_try_from t = None) ∧
  (∀ e ts, operand e ts → ∃ t ts', ts = t :: ts' ∧ UnaryOp_try_from t = None).
Proof.
  set (Q := λ ts, ∃ t ts', ts = t :: ts' ∧ UnaryOp_try_from t = None).
  assert (∀ ts ts', Q ts → Q (ts ++ ts')) as Happ.
  { intros ts ts' (t & us & -> & Ht). exists t, (us ++ ts'). done. }
  assert (∀ t ts k, kind t = k → match k with OpenDelim _ => True | _ => False end → Q (t :: ts)) as Hk.
  { intros t ts k Ht Hk. exists t, ts. split; [done|]. unfold UnaryOp_try_from.
    rewrite is_keyword_kind, Ht. by destruct k. }
  assert (∀ ns ts, names ns ts → plain ns → Q ts) as Hnames.
  { intros ns ts [t s ns' ts' Ht _] Hs. exists t, ts'. split; [done|]. unfold UnaryOp_try_from.
    rewrite (plain_keyword t s kw.Not Ht Hs eq_refl), Ht. done. }
  assert (∀ e t, literal e (kind t) → Q [t]) as Hlit.
  { intros e t H. exists t, []. split; [done|]. unfold UnaryOp_try_from. rewrite is_keyword_kind.
    inversion H as [| | |[] E Ek]; done. }
  pose proof (grammar_ind (λ _ _, True) (λ _ _ _, True) (λ _ _ _ _ _, True) (λ _ _, True) (λ _ _, Q)
    (λ _, Q) (λ _, Q) (λ _ _ _, True) (λ _ _, True) (λ _ _, True) (λ _ _, True) (λ _ _, True)
    (λ _ _, True) (λ _ _, True) (λ _ _, True) (λ _ _, True)) as H.
  edestruct H as (_ & _ & _ & _ & H5 & H6 & _); clear H; [..|by split]; intros; try done; eauto.
Qed.

Definition after (n : ending) (rest : list Token) : Prop :=
  match rest with
  | t :: _ =>
      kind t ≠ OpenDelim Brace ∧ (n = Bare → kind t ≠ Dot ∧ kind t ≠ OpenDelim Paren) ∧
      (n = Named → kind t ≠ Dot)
  | [] => False
  end.
Lemma stop_after n rest : stop rest → after n rest.
Proof. destruct rest as [|t rest]; [done|]. cbn. by destruct (kind t) as [| | | | | | | | | | | | |[]| | | | | | | | |]. Qed.
Lemma after_not_nil n rest : after n rest → rest ≠ [].
Proof. by destruct rest. Qed.

(** The loop over suffixes goes on behind a primary expression. *)
Definition P_primary (n : ending) (e : Expr) (ts : list Token) : Prop :=
  ∀ N prev errs rest b rest',
    2 * length ts ≤ N → after n rest →
    (∀ m prev, N ≤ m + length ts →
       ends (loop m (suffix_step N (R N) true) e) (at_ rest prev errs) b rest' errs) →
    ends (parse_primary_expr N (R N)) (at_ (ts ++ rest) prev errs) b rest' errs.
Definition P_operand (e : Expr) (ts : list Token) : Prop :=
  ∀ N prev errs rest, 2 * length ts ≤ N → after Closed rest →
    ends (parse_operand_expr N (R N)) (at_ (ts ++ rest) prev errs) e rest errs.

Lemma primary_done n e ts N prev errs rest :
  primary n e ts → P_primary n e ts → 2 * length ts ≤ N → stop rest →
  ends (parse_primary_expr N (R N)) (at_ (ts ++ rest) prev errs) e rest errs.
Proof.
  intros He H HN Hstop. apply primary_starts in He.
  apply H; [done|by apply stop_after|]. intros m prev' Hm.
  destruct m as [|m]; [destruct ts; [done|cbn in *; lia]|]. destruct rest as [|t rest]; [done|].
  apply ends_loop. enter @suffix_step. run. cbn in Hstop.
  destruct (kind t) as [| | | | | | | | | | | | |[]| | | | | | | | |]; try done; run.
Qed.
Lemma P_unary_primary n e ts : primary n e ts → P_primary n e ts → P_unary e ts.
Proof.
  intros He H N prev errs rest HN Hstop. destruct primary_head as [Hh _].
  destruct (Hh n e ts He) as (t & ts' & -> & Ht). enter @parse_unary_expr. cbn [app]. run. rewrite Ht.
  by apply (primary_done n e (t :: ts')).
Qed.
End Primary.

(** ** Arguments *)

Section Arguments.
Context {EX : Externals} {HP : Profile}.
Abbreviation R n := (parsers_fuel n).

(** The token behind a list of items. *)
Definition closes (k : TokenKind) (rest : list Token) : Prop :=
  match rest with t :: _ => kind t = k | [] => False end.
Lemma closes_follow d rest : closes (CloseDelim d) rest → follow_test rest.
Proof. destruct rest as [|t rest]; [done|]. cbn. intros Ht. apply closing_follow. by rewrite Ht. Qed.
Lemma comma_follow c ts : kind c = Comma → follow_test (c :: ts).
Proof. intros Hc. apply closing_follow. by rewrite Hc. Qed.
Lemma arguments_end_starting b t : starting (kind t) = true → arguments_end b t = false.
Proof.
  intros Ht. unfold arguments_end. rewrite (starting_keyword t kw.For Ht eq_refl).
  by destruct (kind t).
Qed.

(** One argument, with what comes behind it. *)
Lemma parse_positional n e ts prev errs rest :
  test e ts → P_test e ts → 2 * length ts + 2 ≤ n → follow_test rest →
  (match rest with t :: _ => kind t ≠ Assign | [] => True end) →
  ends (parse_argument_expr (R n)) (at_ (ts ++ rest) prev errs) (inl e) rest errs.
Proof.
  intros He H Hn Hf Ha. enter parse_argument_expr. eapply ends_bind; [by apply H|]. intros prev'.
  destruct rest as [|t rest]; [by destruct Hf as [[]]|]. run.
  destruct (kind t); try done; run.
Qed.
Lemma names_simple ns ts : names ns ts → plain ns → test (IdentifierExpr ns) ts.
Proof. intros Hn Hp. eapply test_simple, simple_unary, unary_primary. by apply primary_names. Qed.
Lemma parse_keyword n ns tn a e te prev errs rest :
  names ns tn → plain ns → P_test (IdentifierExpr ns) tn → kind a = Assign →
  test e te → P_test e te →
  2 * length (tn ++ a :: te) + 2 ≤ n → follow_test rest →
  ends (parse_argument_expr (R n)) (at_ (tn ++ a :: te ++ rest) prev errs)
    (inr (MkKeyword ns (Some e))) rest errs.
Proof.
  intros Hns Hp HPn Ha He H Hn Hf. rewrite length_app in Hn. cbn [length] in Hn.
  assert (closing (kind a) = true) as Hca by by rewrite Ha. enter parse_argument_expr.
  eapply ends_bind; [apply HPn; [lia|by apply closing_follow]|]. intros prev'.
  assert (te ++ rest ≠ []) by (destruct (test_shape _ _ He) as [Hs _]; by destruct te). run.
  eapply ends_bind; [apply H; [lia|done]|]. intros prev''. run.
Qed.

(** What is left behind an optional comma. *)
Definition skip_comma (ts : list Token) : list Token :=
  match ts with t :: ts' => if bool_decide (kind t = Comma) then ts' else ts | [] => [] end.
Lemma skip_comma_comma c ts : kind c = Comma → skip_comma (c :: ts) = ts.
Proof. intros Hc. cbn. by rewrite bool_decide_eq_true_2. Qed.
Lemma skip_comma_closes d ts : closes (CloseDelim d) ts → skip_comma ts = ts.
Proof. destruct ts as [|t ts]; [done|]. cbn. intros ->. done. Qed.
Lemma skip_comma_run {A B} (f : () → M A) (g : A → M B) ts prev errs b rest errs' :
  ts ≠ [] → skip_comma ts ≠ [] →
  (∀ prev, ends (f tt ≫= g) (at_ (skip_comma ts) prev errs) b rest errs') →
  ends (comma ← is_kind Comma; (when comma bump ≫= f) ≫= g) (at_ ts prev errs) b rest errs'.
Proof.
  intros Hts Hs Hf. destruct ts as [|t ts]; [done|]. step. step. step. cbn [skip_comma] in *.
  case_bool_decide; [|apply Hf]. run. apply Hf.
Qed.
Lemma skip_comma_length ts : length (skip_comma ts) ≤ length ts.
Proof. destruct ts as [|t ts]; [done|]. cbn. case_bool_decide; cbn; lia. Qed.

Abbreviation args_loop n m st := (loop m (arguments_step n (R n) false) st).
Definition P_arguments (es : list Expr) (ks : list (Keyword Expr)) (ts : list Token) : Prop :=
  ∀ n m a0 prev errs rest,
    2 * length ts + 2 ≤ n → length ts < m → closes (CloseDelim Paren) rest →
    ends (args_loop n m (a0, [], false)) (at_ (ts ++ rest) prev errs) (a0 ++ es, ks) rest errs.
Definition P_keywords (ks : list (Keyword Expr)) (ts : list Token) : Prop :=
  ∀ n m a0 k0 h prev errs rest,
    2 * length ts + 2 ≤ n → length ts < m → closes (CloseDelim Paren) rest →
    ends (args_loop n m (a0, k0, h)) (at_ (ts ++ rest) prev errs) (a0, k0 ++ ks) rest errs.

Lemma P_keywords_nil : P_keywords [] [].
Proof.
  intros n m a0 k0 h prev errs rest Hn Hm Hc. destruct m as [|m]; [lia|].
  destruct rest as [|t rest]; [done|]. cbn in Hc, Hn. apply ends_loop. enter @arguments_step. cbn [app].
  run_all. unfold arguments_end. rewrite app_nil_r. run.
Qed.

(** One round of the loop. *)
Lemma args_round_positional n m a0 e ts prev errs rest b rest' :
  test e ts → P_test e ts → 2 * length ts + 2 ≤ n → follow_test rest →
  (match rest with t :: _ => kind t ≠ Assign | [] => True end) → skip_comma rest ≠ [] →
  (∀ prev, ends (args_loop n m (a0 ++ [e], [], false)) (at_ (skip_comma rest) prev errs) b rest' errs) →
  ends (args_loop n (S m) (a0, [], false)) (at_ (ts ++ rest) prev errs) b rest' errs.
Proof.
  intros He HPe Hn Hf Ha Hs Hk. destruct (test_shape _ _ He) as [Hts Hmiss].
  destruct ts as [|t ts]; [done|]. cbn in Hts. cbn [length] in Hn. apply ends_loop. enter @arguments_step. cbn [app].
  pose proof (starting_layout t Hts). run_all. rewrite arguments_end_starting by done. run.
  eapply ends_bind; [apply (parse_positional n e (t :: ts)); [done|done|cbn; lia|done|done]|].
  intros prev'. run. rewrite Hmiss. run. apply skip_comma_run; [by destruct rest as [|? ?]; [by destruct Hf as [[]]|]|done|].
  intros prev''. run. apply ends_drop_marker; [|run; apply Hk].
  pose proof (skip_comma_length rest). rewrite length_app. destruct (skip_comma rest); [done|cbn in *; lia].
Qed.
Lemma args_round_keyword n m a0 k0 h ns tn a e te prev errs rest b rest' :
  names ns tn → plain ns → P_test (IdentifierExpr ns) tn → kind a = Assign →
  test e te → P_test e te → 2 * length (tn ++ a :: te) + 2 ≤ n → follow_test rest →
  skip_comma rest ≠ [] →
  (∀ prev, ends (args_loop n m (a0, k0 ++ [MkKeyword ns (Some e)], true))
             (at_ (skip_comma rest) prev errs) b rest' errs) →
  ends (args_loop n (S m) (a0, k0, h)) (at_ ((tn ++ a :: te) ++ rest) prev errs) b rest' errs.
Proof.
  intros Hns Hp HPn Ha He HPe Hn Hf Hs Hk. pose proof (names_starts _ _ Hns Hp) as Hts.
  destruct tn as [|t tn]; [done|]. cbn in Hts. apply ends_loop. enter @arguments_step. norm_at.
  rewrite length_app in Hn. cbn [length] in Hn.
  pose proof (starting_layout t Hts). run_all. rewrite arguments_end_starting by done. run.
  eapply ends_bind; [apply (parse_keyword n ns (t :: tn)); try done; rewrite length_app; cbn [length]; lia|].
  intros prev'. run. apply skip_comma_run; [by destruct rest as [|? ?]; [by destruct Hf as [[]]|]|done|].
  intros prev''. run. apply ends_drop_marker; [|run; apply Hk].
  pose proof (skip_comma_length rest). rewrite length_app. cbn [length]. rewrite length_app.
  destruct (skip_comma rest); [done|cbn in *; lia].
Qed.

Lemma closes_no_assign d rest :
  closes (CloseDelim d) rest → match rest with t :: _ => kind t ≠ Assign | [] => True end.
Proof. destruct rest; [done|]. cbn. by intros ->. Qed.
Lemma closes_not_nil k rest : closes k rest → rest ≠ [].
Proof. by destruct rest. Qed.

Lemma P_keywords_last ns tn a e te :
  names ns tn → plain ns → P_test (IdentifierExpr ns) tn → kind a = Assign →
  test e te → P_test e te → P_keywords [MkKeyword ns (Some e)] (tn ++ a :: te).
Proof.
  intros Hns Hp HPn Ha He HPe n m a0 k0 h prev errs rest Hn Hm Hc. destruct m as [|m]; [lia|].
  apply (args_round_keyword n m a0 k0 h ns tn a e te); [done..|by eapply closes_follow| |];
    rewrite (skip_comma_closes _ _ Hc); [by eapply closes_not_nil|].
  intros prev'. rewrite length_app in Hm. cbn [length] in Hm.
  pose proof (P_keywords_nil n m a0 (k0 ++ [MkKeyword ns (Some e)]) true prev' errs rest) as H.
  rewrite app_nil_r in H. apply H; [cbn; lia|cbn; lia|done].
Qed.
Lemma P_keywords_cons ns tn a e te c ks ts :
  names ns tn → plain ns → P_test (IdentifierExpr ns) tn → kind a = Assign →
  test e te → P_test e te → kind c = Comma → P_keywords ks ts →
  P_keywords (MkKeyword ns (Some e) :: ks) (tn ++ a :: te ++ c :: ts).
Proof.
  intros Hns Hp HPn Ha He HPe Hcomma Hks n m a0 k0 h prev errs rest Hn Hm Hc.
  destruct m as [|m]; [lia|].
  replace ((tn ++ a :: te ++ c :: ts) ++ rest) with ((tn ++ a :: te) ++ c :: ts ++ rest) by (by norm_at).
  rewrite !length_app in *. cbn [length] in *. rewrite !length_app in *. cbn [length] in *.
  apply (args_round_keyword n m a0 k0 h ns tn a e te); [done..|rewrite length_app; cbn [length]; lia|by apply comma_follow| |];
    rewrite skip_comma_comma by done; [apply app_not_nil; by eapply closes_not_nil|].
  intros prev'. replace (k0 ++ MkKeyword ns (Some e) :: ks) with ((k0 ++ [MkKeyword ns (Some e)]) ++ ks)
    by (by rewrite <- app_assoc).
  apply Hks; [lia|lia|done].
Qed.

Lemma P_arguments_keywords ks ts : P_keywords ks ts → P_arguments [] ks ts.
Proof. intros H n m a0 prev errs rest Hn Hm Hc. rewrite app_nil_r. by apply (H n m a0 [] false). Qed.
Lemma P_arguments_last e ts : test e ts → P_test e ts → P_arguments [e] [] ts.
Proof.
  intros He HPe n m a0 prev errs rest Hn Hm Hc. destruct m as [|m]; [lia|].
  apply (args_round_positional n m a0 e ts); [done..|by eapply closes_follow|by eapply closes_no_assign| |];
    rewrite (skip_comma_closes _ _ Hc); [by eapply closes_not_nil|].
  intros prev'. destruct (test_shape _ _ He) as [Hs _].
  apply (P_keywords_nil n m (a0 ++ [e]) [] false _ errs rest); [cbn; lia| |done].
  destruct ts; [done|cbn in *; lia].
Qed.
Lemma P_arguments_cons e te c es ks ts :
  test e te → P_test e te → kind c = Comma → P_arguments es ks ts →
  P_arguments (e :: es) ks (te ++ c :: ts).
Proof.
  intros He HPe Hcomma Hes n m a0 prev errs rest Hn Hm Hc. destruct m as [|m]; [lia|].
  rewrite length_app in *. cbn [length] in *. norm_at.
  apply (args_round_positional n m a0 e te); [done|done|lia|by apply comma_follow|by rewrite Hcomma| |];
    rewrite skip_comma_comma by done; [apply app_not_nil; by eapply closes_not_nil|].
  intros prev'. replace (a0 ++ e :: es) with ((a0 ++ [e]) ++ es) by (by rewrite <- app_assoc).
  apply Hes; [lia|lia|done].
Qed.

Lemma arguments_starts es ks ts :
  arguments es ks ts → (ts = [] ∧ es = [] ∧ ks = []) ∨ starts ts.
Proof.
  destruct 1 as [ks ts Hk|e ts He|e te c es ks ts He]; [destruct Hk as [|ns tn a e te Hn|ns tn a e te c ks ts Hn]|..];
    [by left|..]; right; try (apply starts_app; by eapply names_starts); try (by apply test_shape in He as []).
  apply starts_app. by apply test_shape in He as [].
Qed.

(** [( arguments )] *)
Lemma parse_call_ends n f o es ks ts c prev errs rest :
  kind o = OpenDelim Paren → arguments es ks ts → P_arguments es ks ts → kind c = CloseDelim Paren →
  rest ≠ [] → 2 * length ts + 2 ≤ n →
  ends (parse_call n (R n) f) (at_ (o :: ts ++ c :: rest) prev errs) (MkCall f es ks) rest errs.
Proof.
  intros Ho Ha HPa Hc Hr Hn. enter @parse_call.
  destruct (arguments_starts _ _ _ Ha) as [(-> & -> & ->)|Hs]; [cbn [app]; run_all|].
  destruct ts as [|t ts]; [done|]. cbn in Hs. cbn [app]. run. enter @parse_arguments_expr.
  eapply ends_bind; [apply (HPa n n [] _ errs (c :: rest)); cbn in *; [lia|lia|done]|].
  intros prev'. run_all.
Qed.
End Arguments.

(** ** Suffixes *)

Section Suffixes.
Context {EX : Externals} {HP : Profile}.
Abbreviation R n := (parsers_fuel n).

Lemma P_primary_operand e ts : P_operand e ts → P_primary Closed e ts.
Proof.
  intros H N prev errs rest b rest' HN Hafter Hloop. enter @parse_primary_expr.
  eapply ends_bind; [by apply H|]. intros prev'. apply Hloop. lia.
Qed.

(** A suffix behind an expression that is parsed. *)
Lemma suffix_after n e ts e' sfx ending' :
  P_primary n e ts → 0 < length sfx →
  (∀ rest, after n (sfx ++ rest)) →
  (∀ N m prev errs rest b rest',
     2 * length sfx ≤ N → after ending' rest →
     (∀ prev, ends (loop m (suffix_step N (R N) true) e') (at_ rest prev errs) b rest' errs) →
     ends (loop (S m) (suffix_step N (R N) true) e) (at_ (sfx ++ rest) prev errs) b rest' errs) →
  P_primary ending' e' (ts ++ sfx).
Proof.
  intros He Hs Hafter Hstep N prev errs rest b rest' HN Hr Hloop. rewrite length_app in *. norm_at.
  apply He; [lia|done|]. intros m prev' Hm. destruct m as [|m]; [lia|].
  apply Hstep; [lia|done|]. intros prev''. apply Hloop. lia.
Qed.

Lemma parse_selector_ends n e ns tn rest d prev errs :
  kind d = Dot → names ns tn → length tn ≤ n → after Named rest →
  ends (parse_selector_expr n e) (at_ (d :: tn ++ rest) prev errs) (Selector e ns false) rest errs.
Proof.
  intros Hd [t s ns' ts' Ht Hd'] Hn Hr. pose proof (after_not_nil _ _ Hr).
  enter parse_selector_expr. cbn [app]. run.
  eapply ends_bind; [apply (parse_names n (s :: ns') (t :: ts')); [by constructor|done|done|]|].
  { intros u us ->. by apply Hr. }
  intros prev'. run.
Qed.
Lemma P_primary_select e ts d ns tn :
  P_primary Closed e ts → kind d = Dot → names ns tn → P_primary Named (Selector e ns false) (ts ++ d :: tn).
Proof.
  intros He Hd Hns. apply (suffix_after Closed e); [done|cbn; lia| |].
  - intros rest. cbn. by rewrite Hd.
  - intros N m prev errs rest b rest' HN Hr Hk. apply ends_loop. enter @suffix_step. cbn [app length] in *. run.
    eapply ends_bind; [apply (parse_selector_ends N e ns tn); [done|done|lia|done]|]. intros prev'. run. apply Hk.
Qed.
Lemma P_primary_select_opt n e ts q d ns tn :
  P_primary n e ts → kind q = Question → kind d = Dot → names ns tn →
  P_primary Named (Selector e ns true) (ts ++ q :: d :: tn).
Proof.
  intros He Hq Hd Hns. apply (suffix_after n e); [done|cbn; lia| |].
  - intros rest. cbn. rewrite Hq. split; [done|]. by split.
  - intros N m prev errs rest b rest' HN Hr Hk. apply ends_loop. enter @suffix_step. cbn [app length] in *.
    pose proof (after_not_nil _ _ Hr). destruct Hns as [t s ns' ts' Ht Hd']. cbn [app length] in *. run.
    cbn [head fmap option_fmap option_map]. run. enter parse_selector_expr. run.
    eapply ends_bind; [apply (parse_names N (s :: ns') (t :: ts')); [by constructor|cbn; lia|done|]|].
    { intros u us ->. by apply Hr. }
    intros prev'. run. apply Hk.
Qed.
Lemma P_primary_call n e ts o es ks ta c :
  n ≠ Bare → P_primary n e ts → kind o = OpenDelim Paren → arguments es ks ta → P_arguments es ks ta →
  kind c = CloseDelim Paren → P_primary Closed (Call (MkCall e es ks)) (ts ++ o :: ta ++ [c]).
Proof.
  intros Hn He Ho Ha HPa Hc. apply (suffix_after n e); [done|cbn; lia| |].
  - intros rest. cbn. rewrite Ho. split; [done|]. by split.
  - intros N m prev errs rest b rest' HN Hr Hk. apply ends_loop. enter @suffix_step. cbn [length] in HN.
    rewrite length_app in HN. cbn [length] in HN. norm_at. run. enter @parse_call_expr. run.
    eapply ends_bind; [apply (parse_call_ends N e o es ks ta c); [done..|by eapply after_not_nil|lia]|].
    intros prev'. run. apply Hk.
Qed.

(** ** Subscripts *)

(** A state of the loop after some rounds, none of them an expression too many. *)
Definition slice_ok (s : SliceState) : Prop :=
  round s ≤ 4 ∧ expr_index s < 3 ∧ length (exprs s) = 3 ∧ (exprs_consecutive s ≤ 0)%Z ∧
  (is_slice s = true ∨ round s = 0).
Definition with_expr (s : SliceState) (e : option Expr) : SliceState :=
  match e with
  | None => s
  | Some e => MkSlice (S (round s)) (is_slice s) (colon_counter s) (<[expr_index s := Some e]> (exprs s))
                (expr_index s) (exprs_consecutive s + 1)
  end.
Definition with_colon (s : SliceState) : SliceState :=
  MkSlice (S (round s)) true (S (colon_counter s)) (exprs s) (S (expr_index s)) (exprs_consecutive s - 1).
Definition P_opt_test (e : option Expr) (ts : list Token) : Prop :=
  match e with Some e => test e ts ∧ P_test e ts | None => ts = [] end.
Definition rounds (e : option Expr) : nat := match e with Some _ => 1 | None => 0 end.

Lemma slice_expr n m s e ts prev errs t rest b rest' :
  slice_ok s → P_opt_test e ts → 2 * length ts + 2 ≤ n → closing (kind t) = true →
  (∀ prev, ends (loop m (slice_step (R n)) (with_expr s e)) (at_ (t :: rest) prev errs) b rest' errs) →
  ends (loop (rounds e + m) (slice_step (R n)) s) (at_ (ts ++ t :: rest) prev errs) b rest' errs.
Proof.
  intros (Hround & Hi & Hlen & Hcons & Hslice) He Hn Ht Hk. destruct e as [e|]; [|by rewrite He; apply Hk].
  destruct He as [He HPe]. apply ends_loop. enter slice_step.
  rewrite (proj2 (Nat.ltb_ge _ _)) by done. destruct (test_shape _ _ He) as [Hs _].
  destruct ts as [|u ts]; [done|]. cbn in Hs. cbn [app]. run.
  replace (negb (is_slice s) && _) with false
    by (destruct Hslice as [-> | ->]; [done|by rewrite andb_false_r]).
  destruct (kind u) eqn:Eu; try done; run.
  all: eapply ends_bind; [apply (HPe n _ errs (t :: rest)); [done|by apply closing_follow]|]; intros prev'.
  all: rewrite (proj2 (Nat.ltb_lt _ _)) by lia; rewrite (proj2 (Z.ltb_ge _ _)) by lia; run; apply Hk.
Qed.
Lemma slice_colon n m s d prev errs rest b rest' :
  round s ≤ 4 → colon_counter s ≤ 1 → kind d = Colon → rest ≠ [] →
  (∀ prev, ends (loop m (slice_step (R n)) (with_colon s)) (at_ rest prev errs) b rest' errs) →
  ends (loop (S m) (slice_step (R n)) s) (at_ (d :: rest) prev errs) b rest' errs.
Proof.
  intros Hround Hcol Hd Hr Hk. apply ends_loop. enter slice_step.
  rewrite (proj2 (Nat.ltb_ge _ _)) by done. run.
  rewrite (proj2 (Nat.ltb_ge _ _)) by lia. run. apply Hk.
Qed.
Lemma slice_close n m s c prev errs rest :
  kind c = CloseDelim Bracket →
  ends (loop (S m) (slice_step (R n)) s) (at_ (c :: rest) prev errs) s (c :: rest) errs.
Proof. intros Hc. apply ends_loop. enter slice_step. case_match; run. Qed.
End Suffixes.

Section Subscripts.
Context {EX : Externals} {HP : Profile}.
Abbreviation R n := (parsers_fuel n).
Definition slice_init : SliceState := MkSlice 0 false 0 [None; None; None] 0 0.

(** A suffix in brackets. *)
Lemma suffix_bracket n e ts e' q o body :
  P_primary n e ts → optional Question q → kind o = OpenDelim Bracket →
  (∀ N prev errs rest, 2 * length (o :: body) ≤ N → rest ≠ [] →
     ends (parse_subscript_expr (R N) e) (at_ (q ++ (o :: body) ++ rest) prev errs) e' rest errs) →
  P_primary Closed e' (ts ++ q ++ o :: body).
Proof.
  intros He Hq Ho Hsub. apply (suffix_after n e); [done|rewrite length_app; cbn; lia| |].
  - intros rest. destruct Hq as [|t Ht]; cbn; [rewrite Ho|rewrite Ht]; (split; [done|]; by split).
  - intros N m prev errs rest b rest' HN Hr Hk. apply ends_loop. enter @suffix_step.
    rewrite length_app in HN. norm_at. pose proof (after_not_nil _ _ Hr) as Hne.
    destruct Hq as [|t Ht]; cbn [app]; run;
      [|cbn [head fmap option_fmap option_map]; run].
    all: eapply ends_bind; [|intros prev'; run; apply Hk].
    + apply (Hsub N prev errs rest); [lia|done].
    + apply (Hsub N prev errs rest); [lia|done].
Qed.

(** Brackets around rounds of the loop. *)
Lemma subscript_ends n e q o body c s rest prev errs :
  optional Question q → kind o = OpenDelim Bracket → kind c = CloseDelim Bracket → rest ≠ [] →
  body ++ c :: rest ≠ [] → length (exprs s) = 3 →
  (∀ prev, ends (loop 6 (slice_step (R n)) slice_init) (at_ (body ++ c :: rest) prev errs) s (c :: rest) errs) →
  (if is_slice s then True else exprs s !! 0 ≠ Some None ∧ exprs s !! 1 = Some None ∧ exprs s !! 2 = Some None) →
  ends (parse_subscript_expr (R n) e) (at_ (q ++ o :: body ++ c :: rest) prev errs)
    (let i k := nth k (exprs s) None in
     if is_slice s then Subscript e None (i 0) (i 1) (i 2) (bool_decide (q ≠ []))
     else Subscript e (i 0) None None None (bool_decide (q ≠ []))) rest errs.
Proof.
  intros Hq Ho Hc Hr Hb Hlen Hloop Hs. enter parse_subscript_expr.
  assert (∀ p hq, ends (s ← loop 6 (slice_step (R n)) slice_init;
      when (negb (length (exprs s) =? 3)) (error_here (PMsg "a slice should have three exprs"));;
      expect (CloseDelim Bracket);; slice_result e hq s)
    (at_ (body ++ c :: rest) p errs)
    (let i k := nth k (exprs s) None in
     if is_slice s then Subscript e None (i 0) (i 1) (i 2) hq
     else Subscript e (i 0) None None None hq) rest errs) as H.
  { intros p hq. eapply ends_bind; [apply Hloop|]. intros p'. rewrite Hlen. cbn [Nat.eqb negb]. run. unfold slice_result.
    revert Hs. destruct (is_slice s); intros Hs; [run|]. destruct rest as [|u rest]; [done|]. run.
    destruct Hs as (Hs0 & Hs1 & Hs2).
    destruct (exprs s) as [|x0 [|x1 [|x2 [|? ?]]]]; try done.
    injection Hs1 as ->. injection Hs2 as ->. destruct x0; [|done]. cbn [nth]. run. }
  destruct Hq as [|t Ht]; cbn [app]; run; apply H.
Qed.

Lemma P_primary_index n e ts q o i ti c :
  P_primary n e ts → optional Question q → kind o = OpenDelim Bracket → test i ti → P_test i ti →
  kind c = CloseDelim Bracket →
  P_primary Closed (Subscript e (Some i) None None None (bool_decide (q ≠ []))) (ts ++ q ++ o :: ti ++ [c]).
Proof.
  intros He Hq Ho Hi HPi Hc. apply (suffix_bracket n e); [done|done|done|].
  intros N prev errs rest HN Hr. norm_at. cbn [length] in HN. rewrite length_app in HN. cbn [length] in HN.
  apply (subscript_ends N e q o ti c (with_expr slice_init (Some i)) rest); [done|done|done|done|by destruct ti|done| |].
  - intros p. apply (slice_expr N 5 slice_init (Some i) ti); [|done|lia|by rewrite Hc|].
    + unfold slice_ok. cbn. split_and!; [lia..|by right].
    + intros p'. by apply slice_close.
  - cbn. by split_and!.
Qed.

(** The states behind the parts of a slice. *)
Abbreviation slice_first a := (with_colon (with_expr slice_init a)).
Abbreviation slice_second a b := (with_expr (slice_first a) b).
Abbreviation slice_third a b c := (with_expr (with_colon (slice_second a b)) c).
Ltac solve_slice_ok := repeat case_match; cbn; split_and!; first [lia | by left | by right | done].
Lemma slice_first_ok a : slice_ok (slice_first a).
Proof. unfold slice_ok. destruct a; solve_slice_ok. Qed.
Lemma slice_second_ok a b : slice_ok (with_colon (slice_second a b)) ∧ round (slice_second a b) ≤ 4.
Proof. unfold slice_ok. destruct a, b; solve_slice_ok. Qed.

(** [a : b]: what the loop does up to there. *)
Lemma slice_two N m a ta d b tb t rest prev errs b' rest' :
  P_opt_test a ta → P_opt_test b tb → kind d = Colon → closing (kind t) = true →
  2 * (length ta + length tb) + 2 ≤ N →
  (∀ prev, ends (loop m (slice_step (R N)) (slice_second a b)) (at_ (t :: rest) prev errs) b' rest' errs) →
  ends (loop (rounds a + S (rounds b + m)) (slice_step (R N)) slice_init)
    (at_ (ta ++ d :: tb ++ t :: rest) prev errs) b' rest' errs.
Proof.
  intros Ha Hb Hd Ht HN Hk.
  apply (slice_expr N _ slice_init a ta); [|done|lia|by rewrite Hd|].
  { unfold slice_ok. cbn. split_and!; [lia..|by right]. }
  intros p. apply slice_colon; [by destruct a; cbn; lia|by destruct a; cbn; lia|done|by destruct tb|].
  intros p'. apply (slice_expr N _ (slice_first a) b tb); [apply slice_first_ok|done|lia|done|apply Hk].
Qed.
Lemma P_primary_slice n e ts q o a ta d b tb c :
  P_primary n e ts → optional Question q → kind o = OpenDelim Bracket → P_opt_test a ta →
  kind d = Colon → P_opt_test b tb → kind c = CloseDelim Bracket →
  P_primary Closed (Subscript e None a b None (bool_decide (q ≠ []))) (ts ++ q ++ o :: ta ++ d :: tb ++ [c]).
Proof.
  intros He Hq Ho Ha Hd Hb Hc. apply (suffix_bracket n e); [done|done|done|].
  intros N prev errs rest HN Hr. norm_at. cbn [length] in HN. rewrite length_app in HN.
  cbn [length] in HN. rewrite length_app in HN. cbn [length] in HN.
  pose proof (subscript_ends N e q o (ta ++ d :: tb) c (slice_second a b) rest prev errs Hq Ho Hc Hr) as H.
  replace (Subscript e None a b None _) with
    (let i k := nth k (exprs (slice_second a b)) None in
     if is_slice (slice_second a b) then Subscript e None (i 0) (i 1) (i 2) (bool_decide (q ≠ []))
     else Subscript e (i 0) None None None (bool_decide (q ≠ []))) by (by destruct a, b).
  rewrite <- app_assoc in H. cbn [app] in H. apply H; [by destruct ta|by destruct a, b| |by destruct a, b].
  intros p. replace 6 with (rounds a + S (rounds b + S (4 - rounds a - rounds b))) by (by destruct a, b).
  apply slice_two; [done|done|done|by rewrite Hc|lia|]. intros p'. by apply slice_close.
Qed.
Lemma P_primary_slice_step n e ts q o a ta d b tb d' s tc c :
  P_primary n e ts → optional Question q → kind o = OpenDelim Bracket → P_opt_test a ta →
  kind d = Colon → P_opt_test b tb → kind d' = Colon → P_opt_test s tc → kind c = CloseDelim Bracket →
  P_primary Closed (Subscript e None a b s (bool_decide (q ≠ [])))
    (ts ++ q ++ o :: ta ++ d :: tb ++ d' :: tc ++ [c]).
Proof.
  intros He Hq Ho Ha Hd Hb Hd' Hs Hc. apply (suffix_bracket n e); [done|done|done|].
  intros N prev errs rest HN Hr. norm_at. cbn [length] in HN. rewrite length_app in HN.
  cbn [length] in HN. rewrite length_app in HN. cbn [length] in HN. rewrite length_app in HN.
  cbn [length] in HN.
  pose proof (subscript_ends N e q o (ta ++ d :: tb ++ d' :: tc) c (slice_third a b s) rest prev errs Hq Ho Hc Hr) as H.
  replace (Subscript e None a b s _) with
    (let i k := nth k (exprs (slice_third a b s)) None in
     if is_slice (slice_third a b s) then Subscript e None (i 0) (i 1) (i 2) (bool_decide (q ≠ []))
     else Subscript e (i 0) None None None (bool_decide (q ≠ []))) by (by destruct a, b, s).
  rewrite <- app_assoc in H. cbn [app] in H. rewrite <- app_assoc in H. cbn [app] in H.
  apply H; [by destruct ta|by destruct a, b, s| |by destruct a, b, s].
  intros p. destruct (slice_second_ok a b) as [Hok Hround].
  replace 6 with (rounds a + S (rounds b + S (rounds s + (4 - rounds a - rounds b - rounds s))))
    by (by destruct a, b, s).
  apply slice_two; [done|done|done|by rewrite Hd'|lia|]. intros p1.
  apply slice_colon; [done|by destruct a, b; cbn; lia|done|by destruct tc|]. intros p2.
  apply (slice_expr N _ (with_colon (slice_second a b)) s tc); [done|done|lia|by rewrite Hc|].
  intros p3. destruct (4 - rounds a - rounds b - rounds s) eqn:Em; [by destruct a, b, s|].
  by apply slice_close.
Qed.
End Subscripts.

(** ** Lists, configurations and comprehensions *)

Section Items.
Context {EX : Externals} {HP : Profile}.
Abbreviation R n := (parsers_fuel n).

(** What ends the items: a closing delimiter or the first clause of a
    comprehension. *)
Definition items_end (d : DelimToken) (rest : list Token) : Prop :=
  match rest with t :: _ => kind t = CloseDelim d ∨ kind t = Ident kw.For | [] => False end.
Lemma items_end_closing d rest :
  items_end d rest → ∃ t ts, rest = t :: ts ∧ closing (kind t) = true ∧ layout (kind t) = false ∧
    kind t ≠ Comma ∧ kind t ≠ Ident kw.If.
Proof. destruct rest as [|t ts]; [done|]. intros [Ht|Ht]; exists t, ts; by rewrite Ht. Qed.
Lemma items_end_follow d rest : items_end d rest → follow_test rest.
Proof. intros (t & ts & -> & Ht & _)%items_end_closing. by apply closing_follow. Qed.
Lemma items_end_skip d rest : items_end d rest → skip_comma rest = rest ∧ rest ≠ [].
Proof.
  intros (t & ts & -> & _ & _ & Ht & _)%items_end_closing. cbn. by rewrite bool_decide_eq_false_2.
Qed.
Lemma list_end_at rest t ts : rest = t :: ts → items_end Bracket rest → list_end t = true.
Proof. intros -> [Ht|Ht]; unfold list_end; [by rewrite Ht|]. by rewrite is_keyword_kind, Ht. Qed.
Lemma entries_end_at rest t ts : rest = t :: ts → items_end Brace rest → entries_end false t = true.
Proof. intros -> [Ht|Ht]; unfold entries_end; [by rewrite Ht|]. by rewrite is_keyword_kind, Ht. Qed.

(** *** List items *)

Definition P_list_item (e : Expr) (ts : list Token) : Prop :=
  is_missing e = false ∧
  (∃ t ts', ts = t :: ts' ∧ layout (kind t) = false ∧ list_end t = false ∧
     ∀ k, starting k = false → k ≠ Token.BinOp Star → bool_decide (kind t = k) = false) ∧
  ∀ n prev errs rest, 2 * length ts + 3 ≤ n → follow_test rest →
    ends (p_list_item (R n)) (at_ (ts ++ rest) prev errs) e rest errs.

Lemma starting_item t :
  starting (kind t) = true →
  layout (kind t) = false ∧ list_end t = false ∧ entries_end false t = false ∧
  ∀ k, starting k = false → bool_decide (kind t = k) = false.
Proof.
  intros Ht. split; [by apply starting_layout|]. unfold list_end, entries_end.
  rewrite !(starting_keyword t kw.For Ht eq_refl). split_and!; [by destruct (kind t)..|].
  intros k. by apply starting_kind.
Qed.
Lemma P_list_item_test e ts : test e ts → P_test e ts → P_list_item e ts.
Proof.
  intros He HPe. destruct (test_shape _ _ He) as [Hs Hm]. destruct ts as [|t ts]; [done|]. cbn in Hs.
  destruct (starting_item t Hs) as (H1 & H2 & _ & H4). split; [done|]. split; [exists t, ts; by auto|].
  intros n prev errs rest Hn Hf. destruct n as [|n]; [lia|].
  change (p_list_item (R (S n))) with (parse_list_item n (R n)). enter @parse_list_item. cbn [app]. run.
  assert (ends (p_expr (R n)) (at_ ((t :: ts) ++ rest) prev errs) e rest errs) as H by (apply HPe; [lia|done]).
  pose proof (starting_keyword t kw.If Hs eq_refl) as Hif. cbn [app] in H.
  destruct (kind t) as [|[]| | | | | | | | | | | | | | | | | | | | |] eqn:Ek; try done; step; rewrite Hif; exact H.
Qed.
Lemma P_list_item_starred s e ts :
  kind s = Token.BinOp Star → test e ts → P_test e ts → P_list_item (Starred e) (s :: ts).
Proof.
  intros Hs He HPe. destruct (test_shape _ _ He) as [Hts _]. split; [done|]. split.
  - exists s, ts. unfold list_end. rewrite is_keyword_kind, Hs. split_and!; try done.
    intros k _ Hk. by apply bool_decide_eq_false_2.
  - intros n prev errs rest Hn Hf. destruct n as [|n]; [lia|]. cbn [length] in Hn.
    change (p_list_item (R (S n))) with (parse_list_item n (R n)). enter @parse_list_item. cbn [app].
    assert (ts ++ rest ≠ []) by (by destruct ts). run.
    eapply ends_bind; [apply HPe; [lia|done]|]. intros prev'. run.
Qed.

Abbreviation list_loop n m l := (loop m (list_items_step n (R n)) l).
Definition P_list_items (es : list Expr) (ts : list Token) : Prop :=
  (∀ n m l prev errs rest, 2 * length ts + 3 ≤ n → length ts < m → items_end Bracket rest →
     ends (list_loop n m l) (at_ (ts ++ rest) prev errs) (l ++ es) rest errs) ∧
  (∀ n prev errs rest, 2 * length ts + 3 ≤ n → items_end Bracket rest →
     ends (parse_list_items n (R n)) (at_ (ts ++ rest) prev errs) es rest errs).

Lemma P_list_items_nil : P_list_items [] [].
Proof.
  split.
  - intros n m l prev errs rest Hn Hm Hr. destruct m as [|m]; [lia|].
    destruct (items_end_closing _ _ Hr) as (t & ts & -> & _ & Hl & _). cbn in Hn. apply ends_loop.
    enter @list_items_step. cbn [app]. run_all. rewrite (list_end_at _ t ts eq_refl Hr), app_nil_r. run.
  - intros n prev errs rest Hn Hr. destruct (items_end_closing _ _ Hr) as (t & ts & -> & _).
    enter @parse_list_items. cbn [app]. run. rewrite (list_end_at _ t ts eq_refl Hr). run.
Qed.

(** One item with its separator, in the loop and in front of it. *)
Lemma list_round n m l e ts prev errs rest b rest' :
  P_list_item e ts → 2 * length ts + 3 ≤ n → follow_test rest →
  (∃ t us, skip_comma rest = t :: us ∧ layout (kind t) = false) →
  (∀ prev, ends (list_loop n m (l ++ [e])) (at_ (skip_comma rest) prev errs) b rest' errs) →
  ends (list_loop n (S m) l) (at_ (ts ++ rest) prev errs) b rest' errs.
Proof.
  intros (Hmiss & (t & ts' & -> & Hl & Hend & _) & He) Hn Hf (u & us & Hu & Hul) Hk.
  apply ends_loop. enter @list_items_step. cbn [app]. run_all. rewrite Hend. run.
  eapply ends_bind; [apply He; [lia|done]|]. intros prev'. run. rewrite Hmiss. run.
  pose proof (skip_comma_length rest) as Hlen.
  apply skip_comma_run; [by destruct rest|by rewrite Hu|]. intros p. rewrite Hu in *. run_all.
  apply ends_drop_marker; [rewrite length_app; cbn in *; lia|]. run. apply Hk.
Qed.
Lemma list_first n e ts prev errs rest b rest' :
  P_list_item e ts → 2 * length ts + 3 ≤ n → follow_test rest →
  (∃ t us, skip_comma rest = t :: us ∧ layout (kind t) = false) →
  (∀ prev, ends (list_loop n n [e]) (at_ (skip_comma rest) prev errs) b rest' errs) →
  ends (parse_list_items n (R n)) (at_ (ts ++ rest) prev errs) b rest' errs.
Proof.
  intros (Hmiss & (t & ts' & -> & Hl & Hend & _) & He) Hn Hf (u & us & Hu & Hul) Hk.
  enter @parse_list_items. cbn [app]. run. rewrite Hend.
  eapply ends_bind; [apply He; [lia|done]|]. intros prev'.
  destruct rest as [|c rest]; [done|]. run. cbn [skip_comma] in Hu, Hk.
  case_bool_decide; [subst rest|injection Hu as -> ->]; run_all; apply Hk.
Qed.

Lemma skip_items_end d rest :
  items_end d rest → ∃ t us, skip_comma rest = t :: us ∧ layout (kind t) = false.
Proof.
  intros Hr. destruct (items_end_skip _ _ Hr) as [-> _].
  destruct (items_end_closing _ _ Hr) as (t & ts & -> & _ & Ht & _). by exists t, ts.
Qed.
Lemma P_list_items_last e ts : P_list_item e ts → P_list_items [e] ts.
Proof.
  intros He. split.
  - intros n m l prev errs rest Hn Hm Hr. destruct m as [|m]; [lia|].
    apply (list_round n m l e ts); [done|done|by eapply items_end_follow|by eapply skip_items_end|].
    destruct (items_end_skip _ _ Hr) as [-> _]. intros p.
    pose proof (proj1 P_list_items_nil n m (l ++ [e]) p errs rest) as H. rewrite app_nil_r in H.
    destruct He as (_ & (t & ts' & -> & _) & _). apply H; cbn in *; [lia|lia|done].
  - intros n prev errs rest Hn Hr.
    apply (list_first n e ts); [done|done|by eapply items_end_follow|by eapply skip_items_end|].
    destruct (items_end_skip _ _ Hr) as [-> _]. intros p.
    apply (proj1 P_list_items_nil n n [e] p errs rest); cbn; [lia|lia|done].
Qed.
Lemma P_list_items_cons e te c es ts :
  P_list_item e te → kind c = Comma → list_items es ts → P_list_items es ts →
  P_list_items (e :: es) (te ++ c :: ts).
Proof.
  intros He Hc Hts [Hloop _].
  assert (∀ rest, items_end Bracket rest → ∃ t us, ts ++ rest = t :: us ∧ layout (kind t) = false) as Hnext.
  { intros rest Hr. assert (∀ e ts, list_item e ts → ∃ t us, ts = t :: us ∧ layout (kind t) = false) as Hitem.
    { intros e' ts' [e'' ts'' H|s e'' ts'' Hs H]; [apply test_shape in H as [H _]; destruct ts''; [done|]|].
      - by eexists _, _; split; [|apply starting_layout].
      - eexists _, _; split; [done|]. by rewrite Hs. }
    destruct Hts as [|e' ts' H|e' te' c' es' ts' H].
    - destruct (items_end_closing _ _ Hr) as (t & us & -> & _ & Ht & _). by exists t, us.
    - destruct (Hitem _ _ H) as (t & us & -> & Ht). by exists t, (us ++ rest).
    - destruct (Hitem _ _ H) as (t & us & -> & Ht). cbn. by eexists t, _. }
  split.
  - intros n m l prev errs rest Hn Hm Hr. destruct m as [|m]; [lia|]. rewrite length_app in *. cbn [length] in *.
    norm_at. apply (list_round n m l e te); [done|lia|by apply comma_follow|..];
      rewrite skip_comma_comma by done; [by apply Hnext|]. intros p.
    replace (l ++ e :: es) with ((l ++ [e]) ++ es) by (by rewrite <- app_assoc). apply Hloop; [lia|lia|done].
  - intros n prev errs rest Hn Hr. rewrite length_app in *. cbn [length] in *.
    norm_at. apply (list_first n e te); [done|lia|by apply comma_follow|..];
      rewrite skip_comma_comma by done; [by apply Hnext|]. intros p. apply (Hloop n n [e]); [lia|lia|done].
Qed.

(** *** Configuration entries *)

Definition P_entry (e : ConfigEntry Expr) (ts : list Token) : Prop :=
  (∃ t ts', ts = t :: ts' ∧ layout (kind t) = false ∧ entries_end false t = false ∧
     ∀ k, starting k = false → k ≠ Token.BinOp StarStar → bool_decide (kind t = k) = false) ∧
  ∀ n prev errs rest, 2 * length ts + 2 ≤ n → follow_test rest →
    ends (parse_config_entry (R n)) (at_ (ts ++ rest) prev errs) e rest errs.
Lemma P_entry_pair k tk o op v tv :
  test k tk → P_test k tk →
  kind o = match op with Union => Colon | Override => Assign | Insert => BinOpEq Plus end →
  test v tv → P_test v tv → P_entry (MkEntry (Some k) v op) (tk ++ o :: tv).
Proof.
  intros Hk HPk Ho Hv HPv. destruct (test_shape _ _ Hk) as [Hs _], (test_shape _ _ Hv) as [Hsv _].
  destruct tk as [|t tk]; [done|]. cbn in Hs. destruct (starting_item t Hs) as (H1 & _ & H3 & H4).
  split; [eexists t, _; split; [done|]; by auto|].
  intros n prev errs rest Hn Hf. enter parse_config_entry. rewrite length_app in Hn. cbn [length] in Hn. norm_at.
  assert (tv ++ rest ≠ []) by (by destruct tv).
  assert (closing (kind o) = true) as Hco by (by rewrite Ho; destruct op).
  run. pose proof (starting_keyword t kw.If Hs eq_refl) as Hif.
  destruct (kind t) as [|[]| | | | | | | | | | | | | | | | | | | | |] eqn:Ek; try done; step; rewrite Hif.
  all: eapply ends_bind; [apply (HPk n prev errs (o :: tv ++ rest)); [cbn; lia|by apply closing_follow]|].
  all: intros p; destruct op; run; eapply ends_bind; [apply HPv; [lia|done]| |apply HPv; [lia|done]| |apply HPv; [lia|done]|].
  all: intros p'; run.
Qed.
Lemma P_entry_double_star s e ts :
  kind s = Token.BinOp StarStar → test e ts → P_test e ts → P_entry (MkEntry None e Union) (s :: ts).
Proof.
  intros Hs He HPe. destruct (test_shape _ _ He) as [Hts _]. split.
  - exists s, ts. unfold entries_end. rewrite is_keyword_kind, Hs. split_and!; try done.
    intros k _ Hk. by apply bool_decide_eq_false_2.
  - intros n prev errs rest Hn Hf. cbn [length] in Hn. enter parse_config_entry. cbn [app].
    assert (ts ++ rest ≠ []) by (by destruct ts). run.
    eapply ends_bind; [apply HPe; [lia|done]|]. intros prev'. run.
Qed.

Abbreviation entries_loop n m l := (loop m (entries_step n (R n) false) l).
Definition P_entries (es : list (ConfigEntry Expr)) (ts : list Token) : Prop :=
  (∀ n m l prev errs rest, 2 * length ts + 2 ≤ n → length ts < m → items_end Brace rest →
     ends (entries_loop n m l) (at_ (ts ++ rest) prev errs) (l ++ es) rest errs) ∧
  (∀ n prev errs rest, 2 * length ts + 2 ≤ n → items_end Brace rest →
     ends (parse_config_entries n (R n) false) (at_ (ts ++ rest) prev errs) es rest errs).

Lemma P_entries_nil : P_entries [] [].
Proof.
  split.
  - intros n m l prev errs rest Hn Hm Hr. destruct m as [|m]; [lia|].
    destruct (items_end_closing _ _ Hr) as (t & ts & -> & _ & Hl & _). cbn in Hn. apply ends_loop.
    enter @entries_step. cbn [app]. run_all. rewrite (entries_end_at _ t ts eq_refl Hr), app_nil_r. run.
  - intros n prev errs rest Hn Hr. destruct (items_end_closing _ _ Hr) as (t & ts & -> & _).
    enter @parse_config_entries. cbn [app]. run. rewrite (entries_end_at _ t ts eq_refl Hr). run.
Qed.
Lemma entries_round n m l e ts prev errs rest b rest' :
  P_entry e ts → 2 * length ts + 2 ≤ n → follow_test rest → skip_comma rest ≠ [] →
  (∀ prev, ends (entries_loop n m (l ++ [e])) (at_ (skip_comma rest) prev errs) b rest' errs) →
  ends (entries_loop n (S m) l) (at_ (ts ++ rest) prev errs) b rest' errs.
Proof.
  intros [(t & ts' & -> & Hl & Hend & _) He] Hn Hf Hs Hk.
  apply ends_loop. enter @entries_step. cbn [app]. run_all. rewrite Hend. run.
  eapply ends_bind; [apply He; [lia|done]|]. intros prev'. run.
  pose proof (skip_comma_length rest) as Hlen.
  apply skip_comma_run; [by destruct rest|done|]. intros p. run.
  apply ends_drop_marker; [rewrite length_app; destruct (skip_comma rest); [done|cbn in *; lia]|]. run. apply Hk.
Qed.
Lemma entries_first n e ts prev errs rest b rest' :
  P_entry e ts → 2 * length ts + 2 ≤ n → follow_test rest → skip_comma rest ≠ [] →
  (∀ prev, ends (entries_loop n n [e]) (at_ (skip_comma rest) prev errs) b rest' errs) →
  ends (parse_config_entries n (R n) false) (at_ (ts ++ rest) prev errs) b rest' errs.
Proof.
  intros [(t & ts' & -> & Hl & Hend & _) He] Hn Hf Hs Hk.
  enter @parse_config_entries. cbn [app]. run. rewrite Hend.
  eapply ends_bind; [apply He; [lia|done]|]. intros prev'.
  destruct rest as [|c rest]; [done|]. cbn [skip_comma] in Hs, Hk. run.
  case_bool_decide; run; apply Hk.
Qed.
Lemma P_entries_last e ts : P_entry e ts → P_entries [e] ts.
Proof.
  intros He. split.
  - intros n m l prev errs rest Hn Hm Hr. destruct m as [|m]; [lia|].
    destruct (items_end_skip _ _ Hr) as [Hskip Hne].
    apply (entries_round n m l e ts); [done|done|by eapply items_end_follow|by rewrite Hskip|].
    rewrite Hskip. intros p.
    pose proof (proj1 P_entries_nil n m (l ++ [e]) p errs rest) as H. rewrite app_nil_r in H.
    destruct He as [(t & ts' & -> & _) _]. apply H; cbn in *; [lia|lia|done].
  - intros n prev errs rest Hn Hr. destruct (items_end_skip _ _ Hr) as [Hskip Hne].
    apply (entries_first n e ts); [done|done|by eapply items_end_follow|by rewrite Hskip|].
    rewrite Hskip. intros p.
    apply (proj1 P_entries_nil n n [e] p errs rest); cbn; [lia|lia|done].
Qed.
Lemma P_entries_cons e te c es ts :
  P_entry e te → kind c = Comma → P_entries es ts → P_entries (e :: es) (te ++ c :: ts).
Proof.
  intros He Hc [Hloop _].
  split.
  - intros n m l prev errs rest Hn Hm Hr. destruct m as [|m]; [lia|]. rewrite length_app in *. cbn [length] in *.
    norm_at. apply (entries_round n m l e te); [done|lia|by apply comma_follow|..];
      rewrite skip_comma_comma by done; [apply app_not_nil; by destruct rest|]. intros p.
    replace (l ++ e :: es) with ((l ++ [e]) ++ es) by (by rewrite <- app_assoc). apply Hloop; [lia|lia|done].
  - intros n prev errs rest Hn Hr. rewrite length_app in *. cbn [length] in *.
    norm_at. apply (entries_first n e te); [done|lia|by apply comma_follow|..];
      rewrite skip_comma_comma by done; [apply app_not_nil; by destruct rest|]. intros p.
    apply (Hloop n n [e]); [lia|lia|done].
Qed.

(** *** Clauses *)

(** What follows the clauses. *)
Definition delim_end (rest : list Token) : Prop :=
  match rest with t :: _ => ∃ d, kind t = CloseDelim d | [] => False end.
Definition P_conditions (cs : list Expr) (ts : list Token) : Prop :=
  ∀ n m prev errs rest, 2 * length ts ≤ n → length ts < m →
    follow_test rest → ends (loop m (ifs_step (R n)) []) (at_ (ts ++ rest) prev errs) cs rest errs.
Definition P_clauses (gs : list (CompClause Expr)) (ts : list Token) : Prop :=
  (gs ≠ [] → ∃ t ts', ts = t :: ts' ∧ kind t = Ident kw.For) ∧
  (∀ rest, delim_end rest → ∃ t us, ts ++ rest = t :: us ∧ closing (kind t) = true ∧
     layout (kind t) = false ∧ kind t ≠ Ident kw.If) ∧
  ∀ n m l prev errs rest, 2 * length ts ≤ n → 0 < n → length ts < m → delim_end rest →
    ends (loop m (clauses_step n (R n)) l) (at_ (ts ++ rest) prev errs) (l ++ gs) rest errs.

Lemma ifs_stop n m l prev errs rest :
  0 < m → follow_test rest → ends (loop m (ifs_step (R n)) l) (at_ rest prev errs) l rest errs.
Proof.
  intros Hm [[Hs _] Hif]. destruct m as [|m]; [lia|]. apply stop_not_nil in Hs.
  destruct rest as [|t rest]; [done|]. apply ends_loop. enter ifs_step. run.
  rewrite is_keyword_kind, bool_decide_eq_false_2 by done. run.
Qed.
Lemma P_conditions_nil : P_conditions [] [].
Proof. intros n m prev errs rest _ Hm Hf. by apply ifs_stop. Qed.
Lemma P_conditions_one i e ts :
  kind i = Ident kw.If → test e ts → P_test e ts → P_conditions [e] (i :: ts).
Proof.
  intros Hi He HPe n m prev errs rest Hn Hm Hf. destruct m as [|m]; [lia|]. cbn [length] in *.
  destruct (test_shape _ _ He) as [Hs _]. apply ends_loop. enter ifs_step. cbn [app].
  assert (ts ++ rest ≠ []) by (by destruct ts). run.
  eapply ends_bind; [apply HPe; [lia|done]|]. intros p. run. apply ifs_stop; [lia|done].
Qed.

Lemma targets_loop n m nss0 nss ts prev errs i rest :
  targets_of nss ts → length ts ≤ n → length ts ≤ m → kind i = Ident kw.In →
  ∀ c, kind c = Comma →
  ends (loop (S m) (targets_step n) nss0) (at_ (c :: ts ++ i :: rest) prev errs) (nss0 ++ nss) (i :: rest) errs.
Proof.
  intros Hts Hn Hm Hi. revert m nss0 prev Hm.
  induction Hts as [ns ts Hns|ns ts d nss tss Hns Hd _ IH]; intros m nss0 prev Hm c Hc; apply ends_loop; enter targets_step.
  - assert (ts ++ i :: rest ≠ []) by (by destruct ts). run.
    eapply ends_bind; [apply (parse_names n ns ts); [done|lia|done|]|].
    { intros t us [= <- <-]. by rewrite Hi. }
    intros p. run. destruct m as [|m]; [by destruct Hns; cbn in Hm; lia|]. apply ends_loop. enter targets_step. run.
  - rewrite length_app in *. cbn [length] in *. norm_at.
    assert (ts ++ d :: tss ++ i :: rest ≠ []) by (by destruct ts). run.
    eapply ends_bind; [apply (parse_names n ns ts); [done|lia|done|]|].
    { intros t us [= <- <-]. by rewrite Hd. }
    intros p. run. destruct m as [|m]; [lia|].
    replace (nss0 ++ ns :: nss) with ((nss0 ++ [ns]) ++ nss) by (by rewrite <- app_assoc).
    apply IH; [lia|lia|done].
Qed.
End Items.

Section Operands.
Context {EX : Externals} {HP : Profile}.
Abbreviation R n := (parsers_fuel n).

Lemma names_length ns ts : names ns ts → 0 < length ts.
Proof. destruct 1. cbn. lia. Qed.
Lemma targets_ends n nss ts prev errs i rest (f : list Identifier → M (CompClause Expr)) b rest' :
  targets_of nss ts → length ts ≤ n → kind i = Ident kw.In →
  (∀ prev, ends (f nss) (at_ (i :: rest) prev errs) b rest' errs) →
  ends (first ← parse_identifier n; targets ← loop n (targets_step n) [first]; f targets)
    (at_ (ts ++ i :: rest) prev errs) b rest' errs.
Proof.
  intros Hts Hn Hi Hf. destruct Hts as [ns ts Hns|ns ts d nss tss Hns Hd Htss].
  - pose proof (names_length _ _ Hns).
    eapply ends_bind; [apply (parse_names n ns ts); [done|lia|done|]|].
    { intros t us [= <- <-]. by rewrite Hi. }
    intros p. destruct n as [|n]; [lia|]. eapply ends_bind; [|apply Hf].
    apply ends_loop. enter targets_step. run.
  - rewrite length_app in Hn. cbn [length] in Hn. norm_at.
    eapply ends_bind; [apply (parse_names n ns ts); [done|lia|done|]|].
    { intros t us [= <- <-]. by rewrite Hd. }
    intros p. destruct n as [|n]; [lia|]. eapply ends_bind; [|apply Hf].
    apply (targets_loop (S n) n [ns] nss tss); [done|lia|lia|done|done].
Qed.

Lemma P_clauses_nil : P_clauses [] [].
Proof.
  split; [done|]. split.
  - intros [|t rest]; [done|]. intros [d Hd]. exists t, rest. by rewrite Hd.
  - intros n m l prev errs rest _ _ Hm Hr. destruct m as [|m]; [lia|]. destruct rest as [|t rest]; [done|].
    destruct Hr as [d Hd]. apply ends_loop. enter @clauses_step. cbn [app]. rewrite app_nil_r. run.
Qed.
Lemma comp_clause_ends n f nss tn i e te cs ti prev errs rest :
  kind f = Ident kw.For → targets_of nss tn → kind i = Ident kw.In → simple 1 e te → P_simple 1 e te →
  conditions cs ti → P_conditions cs ti → 2 * length (f :: tn ++ i :: te ++ ti) ≤ n →
  (∃ u us, rest = u :: us ∧ closing (kind u) = true ∧ layout (kind u) = false ∧ kind u ≠ Ident kw.If) →
  ends (parse_comp_clause n (R n)) (at_ (f :: tn ++ i :: te ++ ti ++ rest) prev errs)
    (MkClause nss e cs) rest errs.
Proof.
  intros Hfor Htn Hi He HPe Hti HPc Hn (u & us & -> & Hcu & Hlu & Hiu).
  destruct (simple_shape _ _ _ He) as [Hse _].
  assert (0 < length te) by (destruct te; [done|cbn; lia]).
  cbn [length] in *. rewrite !length_app in *. cbn [length] in *. rewrite !length_app in *.
  assert (tn ++ i :: te ++ ti ++ u :: us ≠ []) by (by destruct tn).
  assert (te ++ ti ++ u :: us ≠ []) by (by destruct te).
  assert (∃ v vs, ti ++ u :: us = v :: vs ∧ follow_simple (v :: vs) ∧ layout (kind v) = false) as (v & vs & Ev & Hv & Hlv).
  { destruct Hti as [|j e' ts' Hj _].
    - exists u, us. split; [done|]. by split; [apply closing_follow|].
    - eexists j, _. split; [done|]. split; [by apply if_follow|]. by rewrite Hj. }
  enter @parse_comp_clause. run. apply (targets_ends n nss tn); [done|lia|done|]. intros p. run.
  eapply ends_bind; [apply (simple_done 1); [done|done|done|lia| |]|].
  { rewrite Ev. apply Hv. }
  { rewrite Ev. by destruct Hv as [_ ->]. }
  intros p1. rewrite Ev. run_all. rewrite <- Ev.
  eapply ends_bind; [apply HPc; [lia|lia|by apply closing_follow]|]. intros p2. run.
Qed.
Lemma P_clauses_cons f nss tn i e te cs ti gs ts :
  kind f = Ident kw.For → targets_of nss tn → kind i = Ident kw.In → simple 1 e te → P_simple 1 e te →
  conditions cs ti → P_conditions cs ti → P_clauses gs ts →
  P_clauses (MkClause nss e cs :: gs) (f :: tn ++ i :: te ++ ti ++ ts).
Proof.
  intros Hfor Htn Hi He HPe Hti HPc (_ & Hfollow & Hgs). split; [by eexists _, _|]. split.
  { intros rest _. eexists f, _. split; [done|]. by rewrite Hfor. }
  intros n m l prev errs rest Hn Hn0 Hm Hr. destruct m as [|m]; [lia|].
  cbn [length] in *. rewrite !length_app in *. cbn [length] in *. rewrite !length_app in *.
  apply ends_loop. enter @clauses_step. norm_at. run.
  eapply ends_bind; [apply (comp_clause_ends n f nss tn i e te cs ti); try done|].
  - cbn [length]. rewrite length_app. cbn [length]. rewrite length_app. lia.
  - by apply Hfollow.
  - intros p. run. replace (l ++ _ :: gs) with ((l ++ [MkClause nss e cs]) ++ gs) by (by rewrite <- app_assoc).
    apply Hgs; [lia|lia|lia|done].
Qed.

(** *** The brackets of lists and the braces of configurations *)

Lemma clauses_none n prev errs t ts :
  0 < n → is_keyword kw.For t = false →
  ends (parse_comp_clauses n (R n)) (at_ (t :: ts) prev errs) [] (t :: ts) errs.
Proof.
  intros Hn Ht. destruct n as [|n]; [lia|]. enter @parse_comp_clauses. apply ends_loop.
  enter @clauses_step. run. rewrite Ht. run.
Qed.
Lemma list_item_head es ts :
  list_items es ts → ts ≠ [] →
  ∃ t ts', ts = t :: ts' ∧ bool_decide (kind t = CloseDelim Bracket) = false ∧ bool_decide (kind t = Newline) = false.
Proof.
  assert (∀ e ts ts', list_item e ts → ∃ t us, ts ++ ts' = t :: us ∧
    bool_decide (kind t = CloseDelim Bracket) = false ∧ bool_decide (kind t = Newline) = false) as Hitem.
  { intros e us us' [e' ts' H|s e' ts' Hs H]; [apply test_shape in H as [H _]; destruct ts' as [|t ts']; [done|]|].
    - eexists t, _. split; [done|]. cbn in H. by split; apply starting_kind.
    - eexists s, _. split; [done|]. by rewrite Hs. }
  intros [|e ts' H|e te c es' ts' H _ _] Hne; [done|..]; [|by eapply Hitem].
  destruct (Hitem _ _ [] H) as (t & us & E & Ht). rewrite app_nil_r in E. by exists t, us.
Qed.

Lemma operand_bracket N o ts prev errs b rest' :
  kind o = OpenDelim Bracket →
  ends (parse_list_expr N (R N) true) (at_ (o :: ts) prev errs) b rest' errs →
  ends (parse_operand_expr N (R N)) (at_ (o :: ts) prev errs) b rest' errs.
Proof. intros Ho H. enter @parse_operand_expr. run. exact H. Qed.
Lemma P_operand_list o es ts c :
  kind o = OpenDelim Bracket → list_items es ts → P_list_items es ts → kind c = CloseDelim Bracket →
  P_operand (ListExpr es) (o :: ts ++ [c]).
Proof.
  intros Ho Hes [_ H] Hc N prev errs rest HN Hr. cbn [length] in HN. rewrite length_app in HN.
  cbn [length] in HN. pose proof (after_not_nil _ _ Hr). norm_at. apply operand_bracket; [done|].
  enter @parse_list_expr. destruct ts as [|t ts].
  { inversion Hes as [|? ? Hi|? te ? ? ? Hi _ _ E]; subst; cbn [app]; [run|..].
    - inversion Hi as [? ? Ht|]; subst. by apply test_shape in Ht as [].
    - by destruct te. }
  destruct (list_item_head _ _ Hes) as (t' & ts' & [= -> ->] & Ht1 & Ht2); [done|].
  cbn [app]. run. rewrite Ht1. run. rewrite Ht2. run.
  eapply ends_bind; [apply (H N _ errs (c :: rest)); [cbn in *; lia|by left]|]. intros p.
  eapply ends_bind; [apply clauses_none; [lia|by rewrite is_keyword_kind, Hc]|]. intros p1. run_all.
Qed.
Lemma P_operand_list_comp o e te gs tg c :
  kind o = OpenDelim Bracket → list_item e te → P_list_item e te → clauses gs tg → P_clauses gs tg →
  gs ≠ [] → kind c = CloseDelim Bracket → P_operand (ListComp e gs) (o :: te ++ tg ++ [c]).
Proof.
  intros Ho He HPe Hgs (Hfor & _ & H) Hne Hc N prev errs rest HN Hr. cbn [length] in HN.
  rewrite !length_app in HN. cbn [length] in HN. pose proof (after_not_nil _ _ Hr). norm_at.
  apply operand_bracket; [done|]. enter @parse_list_expr.
  destruct (Hfor Hne) as (u & us & -> & Hu).
  destruct (P_list_items_last e te HPe) as [_ Hitems].
  destruct (list_item_head [e] te (list_items_last _ _ He)) as (t & ts & -> & Ht1 & Ht2);
    [by destruct HPe as (_ & (? & ? & -> & _) & _)|].
  cbn [app]. run. rewrite Ht1. run. rewrite Ht2. run.
  eapply ends_bind; [apply (Hitems N _ errs (u :: us ++ c :: rest)); [cbn in *; lia|by right]|]. intros p.
  eapply ends_bind; [apply (H N N [] _ errs (c :: rest)); [cbn in *; lia|lia|cbn in *; lia|by exists Bracket]|].
  intros p1. cbn [app]. run_all. destruct gs; [done|]. run.
Qed.
End Operands.

Section Config.
Context {EX : Externals} {HP : Profile}.
Abbreviation R n := (parsers_fuel n).

Definition P_config (e : Expr) (ts : list Token) : Prop :=
  ∀ N prev errs rest, 2 * length ts ≤ N → rest ≠ [] →
    ends (parse_config_expr N (R N)) (at_ (ts ++ rest) prev errs) e rest errs.

Lemma P_entry_head e ts :
  P_entry e ts → ∃ t ts', ts = t :: ts' ∧ bool_decide (kind t = CloseDelim Brace) = false ∧
    bool_decide (kind t = Newline) = false.
Proof. intros [(t & ts' & -> & _ & _ & H) _]. exists t, ts'. split_and!; [done|by apply H..]. Qed.
Lemma P_config_entries o es ts c :
  kind o = OpenDelim Brace → entries es ts → P_entries es ts →
  (∀ e te, entry e te → ∃ t ts', te = t :: ts' ∧ bool_decide (kind t = CloseDelim Brace) = false ∧
     bool_decide (kind t = Newline) = false) →
  kind c = CloseDelim Brace → P_config (Config es) (o :: ts ++ [c]).
Proof.
  intros Ho Hes [_ H] Hhead Hc N prev errs rest HN Hr. cbn [length] in HN. rewrite length_app in HN.
  cbn [length] in HN. norm_at. enter @parse_config_expr.
  destruct ts as [|t ts].
  { inversion Hes as [|? ? Hi|? te ? ? ? Hi _ _ E]; subst; cbn [app]; [run|..].
    - apply Hhead in Hi as (? & ? & ? & _). done.
    - by destruct te. }
  assert (bool_decide (kind t = CloseDelim Brace) = false ∧ bool_decide (kind t = Newline) = false) as [Ht1 Ht2].
  { inversion Hes as [|? ? Hi|? te ? ? ? Hi _ _ E1 E2]; subst.
    - by apply Hhead in Hi as (? & ? & [= <- <-] & ?).
    - apply Hhead in Hi as (? & ? & -> & ?). by injection E2 as -> _. }
  cbn [app]. run. rewrite Ht1. run. rewrite Ht2. run.
  eapply ends_bind; [apply (H N _ errs (c :: rest)); [cbn in *; lia|by left]|]. intros p.
  eapply ends_bind; [apply clauses_none; [lia|by rewrite is_keyword_kind, Hc]|]. intros p1. run_all.
Qed.
Lemma P_config_comp o e te gs tg c :
  kind o = OpenDelim Brace → P_entry e te → clauses gs tg → P_clauses gs tg → gs ≠ [] →
  kind c = CloseDelim Brace → P_config (DictComp e gs) (o :: te ++ tg ++ [c]).
Proof.
  intros Ho HPe Hgs (Hfor & _ & H) Hne Hc N prev errs rest HN Hr. cbn [length] in HN.
  rewrite !length_app in HN. cbn [length] in HN. norm_at. enter @parse_config_expr.
  destruct (Hfor Hne) as (u & us & -> & Hu).
  destruct (P_entries_last e te HPe) as [_ Hitems].
  destruct (P_entry_head e te HPe) as (t & ts & -> & Ht1 & Ht2).
  cbn [app]. run. rewrite Ht1. run. rewrite Ht2. run.
  eapply ends_bind; [apply (Hitems N _ errs (u :: us ++ c :: rest)); [cbn in *; lia|by right]|]. intros p.
  eapply ends_bind; [apply (H N N [] _ errs (c :: rest)); [cbn in *; lia|lia|cbn in *; lia|by exists Brace]|].
  intros p1. cbn [app]. run_all. destruct gs; [done|]. run.
Qed.

(** ** Operands *)

(** An operand that starts with a name that is no keyword. *)
Lemma operand_names N ns tn prev errs rest b rest' :
  names ns tn → plain ns → length tn ≤ N → rest ≠ [] → (∀ t us, rest = t :: us → kind t ≠ Dot) →
  (∀ prev, ends (k ← get_kind;
                 match k with
                 | OpenDelim Brace => parse_schema_expr N (R N) (IdentifierExpr ns)
                 | OpenDelim Paren =>
                     call ← parse_call N (R N) (IdentifierExpr ns);
                     k ← get_kind;
                     match k with
                     | OpenDelim Brace => parse_schema_expr_with_args N (R N) call
                     | _ => mret (Call call)
                     end
                 | _ => mret (IdentifierExpr ns)
                 end) (at_ rest prev errs) b rest' errs) →
  ends (parse_operand_expr N (R N)) (at_ (tn ++ rest) prev errs) b rest' errs.
Proof.
  intros Hns Hp HN Hr Hdot Hk. pose proof Hns as Hns'. destruct Hns as [t s ns' ts' Ht Hd].
  enter @parse_operand_expr. cbn [app]. run. unfold is_one_of. cbn [existsb].
  assert (∀ k, keyword k = true → bool_decide (Ident s = Ident k) = false) as Hkw.
  { intros k Hk'. apply bool_decide_eq_false_2. cbn in Hp. congruence. }
  rewrite !is_keyword_kind, Ht, !Hkw by reflexivity. cbn [orb]. enter @parse_identifier_expr.
  cbn [app] in *. run. eapply ends_bind; [apply (parse_names N (s :: ns') (t :: ts')); done|].
  intros p. run. apply Hk.
Qed.

Lemma P_primary_names ns ts : names ns ts → plain ns → P_primary Bare (IdentifierExpr ns) ts.
Proof.
  intros Hns Hp N prev errs rest b rest' HN Hr Hloop. enter @parse_primary_expr.
  destruct rest as [|t rest]; [done|]. destruct Hr as (Hr1 & Hr2 & _). destruct (Hr2 eq_refl) as [Hr3 Hr4].
  eapply ends_bind; [|intros p; apply Hloop; lia]. apply (operand_names N ns ts); [done|done|lia|done| |].
  { by intros u us [= <- <-]. }
  intros p. run. destruct (kind t) as [| | | | | | | | | | | | |[]| | | | | | | | |]; try done; run.
Qed.

Lemma P_operand_literal e t : literal e (kind t) → P_operand e [t].
Proof.
  intros H N prev errs rest HN Hr. pose proof (after_not_nil _ _ Hr) as Hne. enter @parse_operand_expr. cbn [app].
  remember (kind t) as k eqn:Hk. symmetry in Hk.
  destruct H as [lk v Hlk Hv|lk v Hlk Hv|lk long is_raw Hlk Hf|c].
  - run. rewrite Hlk. enter @parse_num_expr. run. rewrite Hlk, Hv. run.
  - run. rewrite Hlk. enter @parse_num_expr. run. rewrite Hlk, Hv. run.
  - run. rewrite Hlk. enter @parse_str_expr. run. rewrite Hlk. run.
    eapply (ends_bind _ _ _ None rest); [|intros p; run]. enter @parse_joined_string. cbn [Ast.value].
    rewrite Hf. rewrite (bool_decide_eq_false_2 (is_Some None)) by (by intros [? [=]]).
    match goal with |- ends (if ?b then _ else _) _ _ _ _ => by destruct b; apply ends_ret end.
  - destruct c; cbn [constant_symbol] in Hk; run; enter parse_constant_expr; run.
Qed.
Lemma P_operand_paren o e ts c :
  kind o = OpenDelim Paren → test e ts → P_test e ts → kind c = CloseDelim Paren →
  P_operand (ParenExpr e) (o :: ts ++ [c]).
Proof.
  intros Ho He HPe Hc N prev errs rest HN Hr. pose proof (after_not_nil _ _ Hr).
  cbn [length] in HN. rewrite length_app in HN. cbn [length] in HN. norm_at.
  enter @parse_operand_expr. run. enter parse_paren_expr. run.
  eapply ends_bind; [apply HPe; [lia|apply closing_follow; by rewrite Hc]|]. intros p. run.
Qed.
Lemma P_operand_call ns tn o es ks ta c :
  names ns tn → plain ns → kind o = OpenDelim Paren → arguments es ks ta → P_arguments es ks ta →
  kind c = CloseDelim Paren → P_operand (Call (MkCall (IdentifierExpr ns) es ks)) (tn ++ o :: ta ++ [c]).
Proof.
  intros Hns Hp Ho Ha HPa Hc N prev errs rest HN Hr. pose proof (after_not_nil _ _ Hr).
  rewrite length_app in HN. cbn [length] in HN. rewrite length_app in HN. cbn [length] in HN. norm_at.
  apply (operand_names N ns tn); [done|done|lia|done| |].
  { intros u us [= <- <-]. by rewrite Ho. }
  intros p. run. eapply ends_bind; [apply (parse_call_ends N _ o es ks ta c); [done..|lia]|]. intros p1.
  destruct rest as [|t rest]; [done|]. run. destruct Hr as [Hr _].
  destruct (kind t) as [| | | | | | | | | | | | |[]| | | | | | | | |]; try done; run.
Qed.
Lemma P_operand_schema ns tn e tc :
  names ns tn → plain ns → config e tc → P_config e tc → P_operand (Schema ns [] [] e) (tn ++ tc).
Proof.
  intros Hns Hp He HPe N prev errs rest HN Hr. pose proof (after_not_nil _ _ Hr).
  rewrite length_app in HN. destruct (config_starts _ _ He) as (t & ts & -> & Ht). norm_at.
  apply (operand_names N ns tn); [done|done|lia|done| |].
  { intros u us [= <- <-]. by rewrite Ht. }
  intros p. run. enter @parse_schema_expr. enter @parse_schema_expr_with_args. run. cbn [func args keywords]. run.
  eapply ends_bind; [apply (HPe N p errs rest); [lia|done]|]. intros p1. run.
Qed.
Lemma P_operand_schema_args ns tn o es ks ta c e tc :
  names ns tn → plain ns → kind o = OpenDelim Paren → arguments es ks ta → P_arguments es ks ta →
  kind c = CloseDelim Paren → config e tc → P_config e tc →
  P_operand (Schema ns es ks e) (tn ++ o :: ta ++ c :: tc).
Proof.
  intros Hns Hp Ho Ha HPa Hc He HPe N prev errs rest HN Hr. pose proof (after_not_nil _ _ Hr).
  rewrite length_app in HN. cbn [length] in HN. rewrite length_app in HN. cbn [length] in HN.
  destruct (config_starts _ _ He) as (t & ts & -> & Ht). norm_at.
  apply (operand_names N ns tn); [done|done|lia|done| |].
  { intros u us [= <- <-]. by rewrite Ho. }
  intros p. run. eapply ends_bind; [apply (parse_call_ends N _ o es ks ta c); [done|done|done|done|done|lia]|].
  intros p1. run. enter @parse_schema_expr_with_args. run. cbn [func args keywords]. run.
  eapply ends_bind; [apply (HPe N _ errs rest); [lia|done]|]. intros p2. run.
Qed.
Lemma P_operand_config e ts : config e ts → P_config e ts → P_operand e ts.
Proof.
  intros He HPe N prev errs rest HN Hr. destruct (config_starts _ _ He) as (t & ts' & -> & Ht).
  enter @parse_operand_expr. cbn [app]. run. apply (HPe N prev errs rest); [done|by eapply after_not_nil].
Qed.
End Config.

(** ** All of the grammar *)

Section Parsed.
Context {EX : Externals} {HP : Profile}.
Abbreviation R n := (parsers_fuel n).

Lemma names_test ns tn : names ns tn → plain ns → P_test (IdentifierExpr ns) tn.
Proof.
  intros Hns Hp. pose proof (primary_names ns tn Hns Hp) as H.
  apply P_test_simple; [by eapply simple_unary, unary_primary|].
  apply P_simple_unary; [by eapply unary_primary|].
  eapply P_unary_primary; [exact H|]. by apply P_primary_names.
Qed.
(** An entry starts with an expression or with [**]. *)
Lemma entry_head e ts :
  entry e ts → ∃ t ts', ts = t :: ts' ∧ bool_decide (kind t = CloseDelim Brace) = false ∧
    bool_decide (kind t = Newline) = false.
Proof.
  intros [k tk o op v tv Hk|s e' ts' Hs].
  - destruct (test_shape _ _ Hk) as [Hst _]. destruct tk as [|t tk]; [done|]. exists t, (tk ++ o :: tv).
    split_and!; [done|by apply starting_kind..].
  - exists s, ts'. by rewrite Hs.
Qed.

Lemma grammar_reads :
  (∀ e ts, test e ts → P_test e ts) ∧ (∀ k e ts, simple k e ts → P_simple k e ts) ∧
  (∀ b k ops es ts, chain b k ops es ts → P_chain b k ops es ts) ∧
  (∀ e ts, unary e ts → P_unary e ts) ∧ (∀ n e ts, primary n e ts → P_primary n e ts) ∧
  (∀ e ts, operand e ts → P_operand e ts) ∧ (∀ e ts, config e ts → P_config e ts) ∧
  (∀ es ks ts, arguments es ks ts → P_arguments es ks ts) ∧
  (∀ ks ts, keywords_of ks ts → P_keywords ks ts) ∧
  (∀ e ts, list_item e ts → P_list_item e ts) ∧ (∀ es ts, list_items es ts → P_list_items es ts) ∧
  (∀ e ts, entry e ts → P_entry e ts) ∧ (∀ es ts, entries es ts → P_entries es ts) ∧
  (∀ gs ts, clauses gs ts → P_clauses gs ts) ∧ (∀ cs ts, conditions cs ts → P_conditions cs ts) ∧
  (∀ e ts, opt_test e ts → P_opt_test e ts).
Proof.
  apply grammar_ind;
    eauto using P_test_simple, P_test_if, P_simple_unary, P_simple_binary, P_simple_compare,
      P_chain_one, P_chain_cons, P_unary_primary, P_primary_names, P_primary_operand,
      P_primary_select, P_primary_select_opt, P_primary_call, P_primary_index, P_primary_slice,
      P_primary_slice_step, P_operand_literal, P_operand_paren, P_operand_call, P_operand_schema,
      P_operand_schema_args, P_operand_list, P_operand_list_comp, P_operand_config.
  all: eauto using P_config_entries, P_config_comp, entry_head, P_arguments_keywords, P_arguments_last,
      P_arguments_cons, P_keywords_nil, P_keywords_last, P_keywords_cons, names_test, P_list_item_test,
      P_list_item_starred, P_list_items_nil, P_list_items_last, P_list_items_cons, P_entry_pair,
      P_entry_double_star, P_entries_nil, P_entries_last, P_entries_cons, P_clauses_nil,
      P_clauses_cons, P_conditions_nil, P_conditions_one.
  all: try done.
  - intros op o n e ts Ho He H. eapply P_unary_op; [done..|]. intros. by eapply primary_done.
Qed.
End Parsed.
