(* ===== verification/ParserSpec.v ===== *)
(** * What the parser promises

    A source that is written in the grammar parses to its tree and to nothing
    else, without a diagnostic; a module has one result, which holds all of the
    source; and the sources on which the parser panics or does not return. *)

From stdpp Require Import base tactics list numbers strings.
From Stdlib Require Import ZArith Lia Floats.
From S2P Require Import Prelude Token Ast Parser ParseType ParseExpr ParseStmt MachineInt.
From S2P Require Import ParserProps Grammar GrammarProps.
From S2P Require IntLit TokenStream TokenProps.

(** ** Expressions *)

Section Expressions.
Context {EX : Externals} {HP : Profile}.
Abbreviation lex := (TokenStream.parse_token_streams character is_id_start is_id_continue is_emoji).
Implicit Types (src : Symbol).

(** C25: The parser of expressions, on the tokens that the grammar gives an
    expression, returns this expression, is then at the first token behind them
    and reports nothing; the fuel is linear in the number of tokens. *)
Theorem expression_parsed fuel e ts prev errs rest :
  test e ts → 2 * length ts + 2 ≤ fuel → follow_test rest →
  ∃ prev', p_expr (parsers_fuel fuel) (at_ (ts ++ rest) prev errs) = Some (Ok (e, at_ rest prev' errs)).
Proof. intros He Hn Hr. destruct grammar_reads as [H _]. exact (H e ts He fuel prev errs rest Hn Hr). Qed.

Lemma new_at ts diags : ts ≠ [] → start ts diags = at_ ts dummy diags.
Proof. by destruct ts. Qed.

(** C24: A source whose tokens are those of an expression up to the end of the line
    parses to this expression, and no fuel gives another result. *)
Theorem expression_src_parsed src toks ts rest e :
  src ≠ [] → lex src 0 = Ok (toks, []) → fst (split_token_stream toks) = ts ++ rest →
  test e ts → follow_test rest →
  parse_expr_src (2 * length ts + 2) src = Some (Ok (Some e, [])) ∧
  ∀ fuel r, parse_expr_src fuel src = Some r → r = Ok (Some e, []).
Proof.
  intros Hsrc Hlex Hts He Hr.
  assert (parse_expr_src (2 * length ts + 2) src = Some (Ok (Some e, []))) as Heq.
  { destruct src as [|c src]; [done|]. unfold parse_expr_src, run_src. rewrite Hlex. unfold new.
    destruct (split_token_stream toks) as [tokens comments] eqn:Es. cbn in Hts. subst tokens.
    rewrite new_at by (apply app_not_nil; intros ->; by destruct Hr as [[]]). unfold mbind, M_bind.
    destruct grammar_reads as [H _]. destruct (H e ts He _ dummy [] rest (le_n _) Hr) as [prev' E].
    cbn [fmap list_fmap rev]. rewrite E. cbn. by destruct rest. }
  split; [done|]. intros fuel r Hfuel.
  refine (mono_unique (λ n, parse_expr_src n src) _ _ _ _ _ Hfuel Heq).
  intros n n' r0. apply parse_expr_src_mono.
Qed.
End Expressions.

(** ** Sample sources *)

(** Sources of ASCII letters and digits. *)
Module Sample.
Definition is_letter (c : char) : bool :=
  (((97 <=? c) && (c <=? 122)) || ((65 <=? c) && (c <=? 90)) || (c =? 95))%Z.
#[export] Instance externals : Externals := {|
  trim := id; parse_bytes := IntLit.read_digits; parse_f64 := λ _, None; character := λ _, None;
  is_id_start := is_letter;
  is_id_continue := λ c, (is_letter c || ((48 <=? c) && (c <=? 57)))%Z; is_emoji := λ _, false |}.
#[export] Instance profile : Profile := IntLit.release.
(** Lines of text. *)
Definition lines (l : list string) : Symbol := concat ((λ x, intern x ++ [10%Z]) <$> l).

Definition source : Symbol := intern "a + f(b, k = 1) * 2 if a < b <= c else [x]".
Definition lexed (src : Symbol) : list Token :=
  match TokenStream.parse_token_streams character is_id_start is_id_continue is_emoji src 0 with
  | Ok (ts, _) => ts
  | Panic _ => []
  end.
Definition toks : list Token := Eval vm_compute in lexed source.
Definition tok (n : nat) : Token := nth n toks dummy.
(** The tokens from the [n]th, [k] of them. *)
Definition seg (n k : nat) : list Token := firstn k (skipn n toks).
Definition num (z : Z) : Expr := NumberLit None (Int z).
Definition id s : Expr := IdentifierExpr [intern s].
Definition tree : Expr :=
  If (Binary (id "a") Add (Binary (Call (MkCall (id "f") [id "b"] [MkKeyword [intern "k"] (Some (num 1))]))
        Mul (num 2)))
     (Compare (id "a") [CLt; CLtE] [id "b"; id "c"]) (ListExpr [id "x"]).

Lemma name_at n s : kind (tok n) = Ident (intern s) → names [intern s] [tok n].
Proof. intros H. by apply names_of; [|apply dotted_nil]. Qed.
Lemma primary_at n s : kind (tok n) = Ident (intern s) → keyword (intern s) = false → primary Bare (id s) [tok n].
Proof. intros H Hs. by apply primary_names; [apply name_at|]. Qed.
Lemma simple_id k n s :
  kind (tok n) = Ident (intern s) → keyword (intern s) = false → simple k (id s) [tok n].
Proof. intros H Hs. by eapply simple_unary, unary_primary, primary_at. Qed.
Lemma simple_operand k e ts : operand e ts → simple k e ts.
Proof. intros H. by eapply simple_unary, unary_primary, primary_operand. Qed.
Lemma simple_num k n lk z :
  kind (tok n) = Literal lk → lit_kind lk = Integer → suffix lk = None →
  IntLit.bytes_to_int trim parse_bytes (symbol lk) 0 = Ok (Some z) → simple k (num z) [tok n].
Proof.
  intros H Hi Hs Hz. apply simple_operand, operand_literal. rewrite H.
  pose proof (literal_int lk z Hi Hz) as Hl. by rewrite Hs in Hl.
Qed.

(** The source is derived in the grammar. *)
Lemma tree_source : test tree (seg 0 22).
Proof.
  apply (test_if _ (seg 0 12) (tok 12) _ (seg 13 5) (tok 18) _ (seg 19 3)); [|done| |done|].
  - apply (simple_binary 1 _ (seg 0 1) Add (tok 1) _ (seg 2 10)); [cbn; lia|by apply (simple_id _ 0)|done|].
    apply (simple_binary _ _ (seg 2 8) Mul (tok 10) _ (seg 11 1)); [cbn; lia| |done|].
    + apply simple_operand.
      apply (operand_call _ (seg 2 1) (tok 3) _ _ (seg 4 5) (tok 9)); [by apply (name_at 2)|done|done| |done].
      apply (arguments_cons _ (seg 4 1) (tok 5) _ _ (seg 6 3)); [by apply test_simple, (simple_id _ 4)|done|].
      apply arguments_keywords, (keywords_last _ (seg 6 1) (tok 7) _ (seg 8 1)); [by apply (name_at 6)|done|done|].
      by eapply test_simple, (simple_num _ 8).
    + by eapply (simple_num _ 11).
  - apply (simple_compare 1 _ (seg 13 1) _ _ (seg 14 4)); [by apply (simple_id _ 13)|].
    apply (chain_cons 7 1 CLt (seg 14 1) _ (seg 15 1) [CLtE] _ (seg 16 2)); [cbn; lia|done|done| |done|].
    { by apply (simple_id _ 15). }
    apply (chain_one 7 1 CLtE (seg 16 1) _ (seg 17 1)); [cbn; lia|done|done| |done]. by apply (simple_id _ 17).
  - apply test_simple, simple_operand, (operand_list (tok 19) _ (seg 20 1) (tok 21)); [done| |done].
    by apply list_items_last, list_item_test, test_simple, (simple_id _ 20).
Qed.
End Sample.
Import Sample.

Lemma expression_parsed_witness :
  ∃ prev', p_expr (parsers_fuel 46) (at_ (seg 0 22 ++ seg 22 2) dummy []) =
    Some (Ok (tree, at_ (seg 22 2) prev' [])).
Proof.
  apply (expression_parsed 46 tree (seg 0 22) dummy [] (seg 22 2)); [exact tree_source|cbn; lia|].
  by apply closing_follow.
Defined.
Lemma expression_src_parsed_witness :
  parse_expr_src 46 source = Some (Ok (Some tree, [])) ∧
  ∀ fuel r, parse_expr_src fuel source = Some r → r = Ok (Some tree, []).
Proof.
  apply (expression_src_parsed source toks (seg 0 22) (seg 22 2) tree);
    [done|vm_compute; reflexivity|vm_compute; reflexivity|exact tree_source|by apply closing_follow].
Defined.

(** A module. *)
Definition module_source : Symbol :=
  lines ["import a.b as c"; "schema A:"; "    x: int = 1"; "    check:"; "        x > 0"; "y = A {x = 2}"; "# end"].
Definition parsed (fuel : nat) : Res (Module_ * list PDiagnostic) :=
  default (Panic UnwrapNone) (parse_module_src fuel module_source 0).
Lemma parse_result_unique_witness : parsed 30 = parsed 40.
Proof.
  apply (parse_result_unique 30 40 module_source 0); vm_compute; reflexivity.
Defined.

Definition module_tree : Module_ := Eval vm_compute in
  match parsed 30 with Ok (m, _) => m | Panic _ => MkModule None [] [] end.
Lemma module_parsed_whole_witness :
  ∃ p', (let '(p, comments) := new (lexed module_source) [] in
         parse_module 30 (parsers_fuel 30) comments p) = Some (Ok (module_tree, p')) ∧
    length (remaining p') = 1 ∧ comments module_tree = [intern "# end"].
Proof.
  assert (parse_module_src 30 module_source 0 = Some (Ok (module_tree, []))) as H by (vm_compute; reflexivity).
  pose proof (module_parsed_whole 30 module_source 0 module_tree [] (Z.le_refl 0) H) as Hwhole.
  destruct Hwhole as (ts & sp & diags & p' & Hlex & Hp & Hr & _).
  exists p'. unfold lexed. revert Hp. rewrite Hlex, Hr.
  replace diags with (@nil TokenStream.Diagnostic).
  - cbn [fmap list_fmap rev]. intros Hp. split; [exact Hp|]. split; [reflexivity|vm_compute; reflexivity].
  - revert Hlex. vm_compute. congruence.
Defined.

(** ** Sources that are not parsed *)

(** The index of the loop over a subscript's parts goes out of its bounds. *)
Example slice_panics : parse_expr_src 30 (intern "a[:::1]") = Some (Panic IndexOutOfBounds).
Proof. vm_compute. reflexivity. Qed.
(** [s0_raw] is cut before its last byte, and here its last character has two. *)
Example joined_string_panics :
  parse_module_src 30 [97; 61; 34; 233; 36; 123; 97; 125; 34]%Z 0 = Some (Panic CharBoundary).
Proof. vm_compute. reflexivity. Qed.
(** An integer in a type is read without the suffix and the base of literals. *)
Example type_literal_panics :
  parse_module_src 30 (intern "a: 1i = 1") 0 = Some (Panic UnwrapNone) ∧
  parse_module_src 30 (intern "a: 0x10 = 1") 0 = Some (Panic UnwrapNone).
Proof. vm_compute. done. Qed.

(** ** Sources that are read otherwise than documented *)

(** Without a diagnostic [src] is read as [e]. *)
Definition reads_as (src : string) (e : Expr) : Prop :=
  parse_expr_src 30 (intern src) = Some (Ok (Some e, [])).
(** Commas between items and arguments can be left out. *)
Example commas_optional :
  reads_as "[1 2]" (ListExpr [num 1; num 2]) ∧
  reads_as "f(a b)" (Call (MkCall (id "f") [id "a"; id "b"] [])).
Proof. vm_compute. done. Qed.
(** A unary operator binds tighter than a power, and powers associate to the left. *)
Example powers :
  reads_as "-2 ** 2" (Binary (Unary USub (num 2)) Pow (num 2)) ∧
  reads_as "2 ** 3 ** 2" (Binary (Binary (num 2) Pow (num 3)) Pow (num 2)).
Proof. vm_compute. done. Qed.
(** The suffix [i] is a suffix for the lexer and none for the parser. *)
Example suffix_dropped : reads_as "1i" (num 1).
Proof. vm_compute. done. Qed.

Definition diagnosed (src : string) : bool :=
  match parse_expr_src 30 (intern src) with Some (Ok (_, ds)) => bool_decide (length ds ≠ 0) | _ => false end.
(** A clause of a comprehension takes no second condition and no comma behind its
    targets. *)
Example clauses_diagnosed :
  diagnosed "[x for x in xs if a if b]" = true ∧ diagnosed "[x for a, in xs]" = true.
Proof. vm_compute. done. Qed.

(** The attributes of the schema that a module consists of. *)
Definition attributes (ls : list string) : list (Symbol * option Expr) :=
  match parse_module_src 30 (lines ls) 0 with
  | Some (Ok (MkModule _ _ [SSchema s], [])) =>
      omap (λ x, match x with SSchemaAttr a => Some (attr_name _ a, attr_value _ a) | _ => None end) (schema_body _ _ s)
  | _ => []
  end.
(** With a value an attribute has only the first of its names; without, all. *)
Example attribute_names :
  attributes ["schema A:"; "    a.b: int = 1"; "    c.d: int"] =
    [(intern "a", Some (num 1)); (intern "c.d", None)].
Proof. vm_compute. reflexivity. Qed.
(** The first value is lost. *)
Example attribute_value_lost :
  attributes ["schema A:"; "    x: int = 1 += 2"] = [(intern "x", Some (num 2))].
Proof. vm_compute. reflexivity. Qed.

(** ** A loop that does not end *)

Section Endless.
Context {EX : Externals} {HP : Profile}.

(** [m] runs out of fuel or returns as [Q] says. *)
Definition runs {A} (m : M A) (p : Parser) (Q : A → Parser → Prop) : Prop :=
  match m p with None => True | Some (Ok (a, q)) => Q a q | Some (Panic _) => False end.
Lemma parses_bind {A B} (m : M A) (f : A → M B) p Q Q' :
  runs m p Q' → (∀ a q, Q' a q → runs (f a) q Q) → runs (m ≫= f) p Q.
Proof.
  unfold runs, mbind, M_bind. destruct (m p) as [[[a q]|]|]; [|done..]. intros Ha Hf. by apply Hf.
Qed.
Lemma runs_then {A B} (m : M A) (f : A → M B) p a q Q :
  m p = Some (Ok (a, q)) → runs (f a) q Q → runs (m ≫= f) p Q.
Proof. unfold runs, mbind, M_bind. by intros ->. Qed.

(** [m] does not return from [p]. *)
Definition never {A} (m : M A) (p : Parser) : Prop := m p = None.
Lemma never_first {A B} (m : M A) (f : A → M B) p : never m p → never (m ≫= f) p.
Proof. unfold never, mbind, M_bind. by intros ->. Qed.
Lemma never_then {A B} (m : M A) (f : A → M B) p a q :
  m p = Some (Ok (a, q)) → never (f a) q → never (m ≫= f) p.
Proof. unfold never, mbind, M_bind. by intros ->. Qed.
Lemma never_loop {A B} n (body : A → M (A + B)) a p :
  never (r ← body a; match r with inl a => loop n body a | inr b => mret b end) p →
  never (loop (S n) body a) p.
Proof. done. Qed.
Lemma p_expr_S n : p_expr (parsers_fuel (S n)) = parse_expr_body (parsers_fuel n).
Proof. done. Qed.
Lemma p_simple_S n prec : p_simple (parsers_fuel (S n)) prec = do_parse_simple_expr n (parsers_fuel n) prec.
Proof. done. Qed.
Lemma p_list_item_S n : p_list_item (parsers_fuel (S n)) = parse_list_item n (parsers_fuel n).
Proof. done. Qed.

Lemma loop_endless {A B} (I : Parser → Prop) (body : A → M (A + B)) n a p :
  (∀ a p, I p → runs (body a) p (λ r q, (∃ a', r = inl a') ∧ I q)) → I p → never (loop n body a) p.
Proof.
  intros Hb. revert a p. induction n as [|n IH]; intros a p Hp; [done|].
  specialize (Hb a p Hp). unfold runs in Hb. unfold never in *. cbn [loop]. unfold mbind, M_bind.
  destruct (body a p) as [[[r q]|]|]; [|done..]. destruct Hb as [[a' ->] Hq]. by apply IH.
Qed.

(** The source is over. *)
Definition over (p : Parser) : Prop := kind (token p) = Eof ∧ cursor p = [].
Lemma over_inv p : over p → ∃ sp prev errs, p = MkParser (MkToken Eof sp) prev [] errs.
Proof. destruct p as [[k sp] prev ts errs]. intros [Hk Hts]. cbn in *. subst. by eexists _, _, _. Qed.

Lemma list_item_over n p : over p → runs (p_list_item (parsers_fuel n)) p (λ _, over).
Proof.
  intros (sp & prev & errs & ->)%over_inv. destruct n as [|[|[|[|n]]]]; [done..|]. unfold runs.
  match goal with |- match ?x with _ => _ end => let y := eval lazy in x in change x with y end. done.
Qed.

(** A conditional list item whose block ends with the source. *)
Lemma if_item_block_endless n p q :
  skip_newlines n p = Some (Ok (tt, q)) → over q →
  never (parse_if_item_exec_block n (parsers_fuel n) true) p.
Proof.
  intros Hp (sp & prev & errs & ->)%over_inv. unfold parse_if_item_exec_block. cbn [negb].
  eapply never_then; [exact Hp|]. eapply never_then; [reflexivity|].
  apply never_first, (loop_endless over); [|done]. clear. intros body p Hp. destruct n as [|n].
  { apply over_inv in Hp as (sp & prev & errs & ->). done. }
  apply over_inv in Hp as (sp & prev & errs & ->). do 3 (eapply runs_then; [reflexivity|]). cbv beta iota.
  eapply parses_bind; [by apply list_item_over|]. intros e p (sp' & prev' & errs' & ->)%over_inv.
  do 4 (eapply runs_then; [reflexivity|]). split; [by eexists|done].
Qed.
End Endless.

(** Go into the parser that runs now; into its first part; on behind it. *)
Ltac into f :=
  lazymatch goal with
  | |- never ?m ?p =>
      let m' := eval cbv beta iota zeta delta [f] in m in change (never m' p)
  end.
Ltac inside := apply never_first; cbv beta iota.
Ltac onward := eapply never_then; [lazy; reflexivity|]; cbv beta iota.


