(* ===== verification/ModuleSpec.v ===== *)
(** * Modules of the grammar

    Statements on one line each (expressions, assignments with one or more targets,
    augmented assignments, assertions and imports), written with the tokens of
    [Grammar]'s expressions; conditional statements with their branches, whose blocks are
    indented; modules of them, with a documentation string in front.  The parser of
    modules reads them to the list of their trees and to nothing else, without a
    diagnostic. *)

From stdpp Require Import base tactics list numbers strings.
From Stdlib Require Import ZArith Lia Floats.
From S2P Require Import Prelude Token Ast Parser ParseType ParseExpr ParseStmt MachineInt.
From S2P Require Import ParserProps Grammar GrammarProps.
From S2P Require IntLit TokenStream ParserSpec.

(** ** The grammar *)

Definition all_of (k : TokenKind) (ts : list Token) : Prop := Forall (λ t, kind t = k) ts.
Definition newlines : list Token → Prop := all_of Newline.
(** The text of the dots in front of an import path. *)
Definition dots (ts : list Token) : Symbol := ts ≫= λ t, intern (name (kind t)).
Definition target_of (ns : Identifier) : Target Expr := MkTarget (hd [] ns) (Member <$> tl ns).

Section ModuleGrammar.
Context {EX : Externals} {HP : Profile}.

(** [= names = ... = test]: the further targets of an assignment, and its value. *)
Inductive values : list Identifier → Expr → list Token → Prop :=
  | values_last a e te : kind a = Assign → test e te → values [] e (a :: te)
  | values_cons a ns tn nss e ts :
      kind a = Assign → names ns tn → plain ns → values nss e ts → values (ns :: nss) e (a :: tn ++ ts).

(** An optional part behind a keyword or a token. *)
Inductive part (k : TokenKind) (p : Expr → list Token → Prop) : option Expr → list Token → Prop :=
  | part_none : part k p None []
  | part_some t e ts : kind t = k → p e ts → part k p (Some e) (t :: ts).

(** A line that starts with an expression does not start with a sign: the parser of
    statements reads [~] but not [+] and [-] there. *)
Definition no_sign (ts : list Token) : Prop :=
  match ts with t :: _ => kind t ≠ Token.BinOp Plus ∧ kind t ≠ Token.BinOp Minus | [] => False end.

Inductive stmt : Stmt → list Token → Prop :=
  | stmt_expr e ts : test e ts → no_sign ts → stmt (SExpr [e]) ts
  | stmt_assign ns tn nss e ts :
      names ns tn → plain ns → values nss e ts →
      stmt (SAssign (target_of <$> ns :: nss) e None) (tn ++ ts)
  | stmt_aug ns tn o op e te :
      names ns tn → plain ns → kind o = BinOpEq op → test e te →
      stmt (SAugAssign (target_of ns) (AugOp_from op) e) (tn ++ o :: te)
  | stmt_assert a e te c tc m tm :
      kind a = Ident kw.Assert → simple 1 e te → part (Ident kw.If) (simple 1) c tc →
      part Comma test m tm → stmt (SAssert e c m) (a :: te ++ tc ++ tm)
  | stmt_import i d3 d1 ns tn :
      kind i = Ident kw.Import → all_of DotDotDot d3 → all_of Dot d1 → names ns tn →
      stmt (SImport (dots d3 ++ dots d1 ++ join_dots ns) (default [] (last ns)) None) (i :: d3 ++ d1 ++ tn)
  | stmt_import_as i d3 d1 ns tn a n t :
      kind i = Ident kw.Import → all_of DotDotDot d3 → all_of Dot d1 → names ns tn →
      kind a = Ident kw.As → kind t = Ident n →
      stmt (SImport (dots d3 ++ dots d1 ++ join_dots ns) n (Some n)) (i :: d3 ++ d1 ++ tn ++ [a; t]).

(** A statement with the ends of its lines; conditional statements, whose blocks stand
    on indented lines of their own; the further branches of one; and the statements of
    a block or a module. *)
Inductive item : Stmt → list Token → Prop :=
  | item_line s ts nls : stmt s ts → nls ≠ [] → newlines nls → item s (ts ++ nls)
  | item_if i c tc p b tb l tl r tr :
      kind i = Ident kw.If → test c tc → kind p = Colon → block b tb → elifs l tl → otherwise r tr →
      item (SIf c b (foldr (λ '(c, b) r, [SIf c b r]) r l)) (i :: tc ++ p :: tb ++ tl ++ tr)
with block : list Stmt → list Token → Prop :=
  | block_of nls o b ts d nls' :
      nls ≠ [] → newlines nls → kind o = INDENT → body b ts → kind d = DEDENT → newlines nls' →
      block b (nls ++ o :: ts ++ d :: nls')
with elifs : list (Expr * list Stmt) → list Token → Prop :=
  | elifs_nil : elifs [] []
  | elifs_cons i c tc p b tb l tl :
      kind i = Ident kw.Elif → test c tc → kind p = Colon → block b tb → elifs l tl →
      elifs ((c, b) :: l) (i :: tc ++ p :: tb ++ tl)
with otherwise : list Stmt → list Token → Prop :=
  | otherwise_none : otherwise [] []
  | otherwise_else i p b tb :
      kind i = Ident kw.Else → kind p = Colon → block b tb → otherwise b (i :: p :: tb)
with body : list Stmt → list Token → Prop :=
  | body_nil : body [] []
  | body_cons s ts b rest : item s ts → body b rest → body (s :: b) (ts ++ rest).

(** The documentation is a long string without an interpolation. *)
Inductive doc : option Symbol → list Token → Prop :=
  | doc_none : doc None []
  | doc_some t lk is_raw nls :
      kind t = Literal lk → lit_kind lk = Str true is_raw → find (intern "${") (symbol lk) = None →
      newlines nls → doc (Some (default [] (raw lk))) (t :: nls).

(** A module without documentation does not start with a long string. *)
Definition no_doc (ts : list Token) : Prop :=
  match ts with
  | t :: _ => match kind t with Literal lk => match lit_kind lk with Str true _ => False | _ => True end | _ => True end
  | [] => True
  end.
Definition module_of (d : option Symbol) (b : list Stmt) (ts : list Token) : Prop :=
  ∃ td tb, doc d td ∧ body b tb ∧ ts = td ++ tb ∧ (d = None → no_doc tb).
End ModuleGrammar.

Scheme item_ind' := Minimality for item Sort Prop
  with block_ind' := Minimality for block Sort Prop
  with elifs_ind' := Minimality for elifs Sort Prop
  with otherwise_ind' := Minimality for otherwise Sort Prop
  with body_ind' := Minimality for body Sort Prop.

(** ** The parser reads it *)

Section Reads.
Context {EX : Externals} {HP : Profile}.
Abbreviation R n := (parsers_fuel n).

(** What stands behind the ends of the lines. *)
Definition next_line (rest : list Token) : Prop :=
  match rest with t :: _ => kind t ≠ Newline | [] => False end.

(** What stands behind a statement. *)
Definition next_item (rest : list Token) : Prop :=
  match rest with
  | t :: _ => kind t ≠ Newline ∧ kind t ≠ Ident kw.Elif ∧ kind t ≠ Ident kw.Else
  | [] => False
  end.
Lemma next_item_line rest : next_item rest → next_line rest.
Proof. by destruct rest as [|t rest]; [|intros [? _]]. Qed.

Lemma skip_all n nls rest prev errs :
  newlines nls → length nls < n → next_line rest →
  ends (skip_newlines n) (at_ (nls ++ rest) prev errs) tt rest errs.
Proof.
  intros H. revert n prev. unfold skip_newlines, bump_while.
  induction H as [|t nls Ht _ IH]; intros n prev Hl Hr; (destruct n as [|n]; [cbn in Hl; lia|]); apply ends_loop.
  - destruct rest as [|t rest]; [done|]. cbn [app next_line] in *. run. rewrite bool_decide_eq_false_2 by done. run.
  - cbn [length app] in *. assert (nls ++ rest ≠ []) by (destruct nls; [by destruct rest|done]).
    run. apply IH; [lia|done].
Qed.
Lemma ends_skip_all {B} n (f : () → M B) nls rest prev errs b rest' :
  newlines nls → length nls < n → next_line rest →
  (∀ prev, ends (f tt) (at_ rest prev errs) b rest' errs) →
  ends (skip_newlines n ≫= f) (at_ (nls ++ rest) prev errs) b rest' errs.
Proof. intros. eapply ends_bind; [by apply skip_all|done]. Qed.
Lemma newlines_head nls : nls ≠ [] → newlines nls → ∃ t us, nls = t :: us ∧ kind t = Newline.
Proof. intros Hne H. destruct H as [|t us Ht _]; [done|by exists t, us]. Qed.
Lemma newlines_follow nls rest : nls ≠ [] → newlines nls → follow_test (nls ++ rest).
Proof.
  intros Hne H. destruct (newlines_head nls Hne H) as (t & us & -> & Ht). cbn [app].
  apply closing_follow. by rewrite Ht.
Qed.

(** The tokens that a line starts with. *)
Definition line_start (k : TokenKind) : bool :=
  starting k || bool_decide (k ∈ [Ident kw.Assert; Ident kw.Import]).
Lemma line_start_cases k : line_start k = true → starting k = true ∨ k = Ident kw.Assert ∨ k = Ident kw.Import.
Proof.
  unfold line_start. intros [H|H%bool_decide_eq_true]%orb_true_iff; [by left|].
  rewrite !elem_of_cons, elem_of_nil in H. tauto.
Qed.
Lemma line_start_not t k : line_start (kind t) = true → line_start k = false → bool_decide (kind t = k) = false.
Proof. intros Ht Hk. apply bool_decide_eq_false_2. congruence. Qed.
Lemma line_start_keyword t k : line_start (kind t) = true → line_start (Ident k) = false → is_keyword k t = false.
Proof. rewrite is_keyword_kind. apply line_start_not. Qed.
Lemma line_start_layout t : line_start (kind t) = true → layout (kind t) = false.
Proof. intros [H|[H|H]]%line_start_cases; [by apply starting_layout|by rewrite H..]. Qed.

Lemma compound_none n t ts prev errs :
  0 < n → line_start (kind t) = true →
  ends (parse_compound_stmt n (R n)) (at_ (t :: ts) prev errs) None (t :: ts) errs.
Proof.
  intros Hn Ht. pose proof (line_start_layout t Ht) as Hl. enter @parse_compound_stmt.
  apply ends_skip_newlines; [done|done|]. run.
  rewrite !(line_start_keyword t _ Ht) by reflexivity.
  assert (ends (decorators ← (mret [] : M (list (CallExpr Expr)));
    t ← get_token;
    if is_keyword kw.Schema t || is_keyword kw.Mixin t || is_keyword kw.Protocol t then
      s ← parse_schema_stmt n (R n) decorators; mret (Some s)
    else if is_keyword kw.Rule t then s ← parse_rule_stmt n (R n) decorators; mret (Some s)
    else mret None) (at_ (t :: ts) prev errs) None (t :: ts) errs) as H.
  { run. rewrite !(line_start_keyword t _ Ht) by reflexivity. run. }
  destruct (kind t) eqn:E; try exact H; done.
Qed.
(** A line is read by the parser of simple statements. *)
Lemma stmt_simple n t ts prev errs s rest :
  0 < n → line_start (kind t) = true →
  (∀ prev, ends (parse_simple_stmt n (R n)) (at_ (t :: ts) prev errs) (Some s) rest errs) →
  ends (parse_stmt n (R n)) (at_ (t :: ts) prev errs) (Some s) rest errs.
Proof.
  intros Hn Ht H. pose proof (line_start_layout t Ht) as Hl. enter @parse_stmt.
  apply ends_skip_newlines; [done|done|]. run. rewrite (line_start_not t _ Ht) by reflexivity.
  eapply ends_bind; [by apply compound_none|]. intros prev1. cbv beta iota.
  eapply ends_bind; [apply H|]. intros prev2. run.
Qed.

(** What the parser of simple statements does on a line. *)
Definition P_stmt (s : Stmt) (ts : list Token) : Prop :=
  ∀ n prev errs nls rest, 2 * length ts + 2 + length nls ≤ n → nls ≠ [] → newlines nls → next_line rest →
    ends (parse_stmt n (R n)) (at_ (ts ++ nls ++ rest) prev errs) (Some s) rest errs.

Lemma reads_test e ts n prev errs rest :
  test e ts → 2 * length ts + 2 ≤ n → follow_test rest →
  ends (p_expr (R n)) (at_ (ts ++ rest) prev errs) e rest errs.
Proof. intros He. destruct grammar_reads as [H _]. by apply (H e ts He). Qed.

Lemma ends_get_prev {B} (f : Token → M B) t ts prev errs b rest errs' :
  ends (f prev) (at_ (t :: ts) prev errs) b rest errs' →
  ends (get_prev ≫= f) (at_ (t :: ts) prev errs) b rest errs'.
Proof. by apply ends_run. Qed.

(** A line that starts with an expression is read as an assignment may be, or as an
    expression. *)
Lemma expression_line n t ts prev errs b rest :
  0 < n → starting (kind t) = true → no_sign (t :: ts) →
  (∀ prev, ends (parse_expr_or_assign_stmt n (R n) false) (at_ (t :: ts) prev errs) b rest errs) →
  (∀ prev, ends (s ← parse_expr_stmt n (R n); mret (Some s)) (at_ (t :: ts) prev errs) b rest errs) →
  ends (parse_simple_stmt n (R n)) (at_ (t :: ts) prev errs) b rest errs.
Proof.
  intros Hn Ht [Hp Hm] H1 H2. pose proof (starting_layout t Ht) as Hl. enter @parse_simple_stmt.
  apply ends_skip_newlines; [done|done|]. run.
  destruct (kind t) as [] eqn:E; try done.
  all: repeat match goal with x : BinOpToken |- _ => destruct x end; done.
Qed.

Lemma starting_line t : starting (kind t) = true → line_start (kind t) = true.
Proof. unfold line_start. by intros ->. Qed.

Lemma P_stmt_expr e ts : test e ts → no_sign ts → P_stmt (SExpr [e]) ts.
Proof.
  intros He Hsign n prev errs nls rest Hn Hne Hnl Hr.
  destruct (test_shape _ _ He) as [Hs _]. destruct ts as [|t ts]; [done|].
  destruct (newlines_head nls Hne Hnl) as (nl & us & -> & Hnlk).
  assert (follow_test ((nl :: us) ++ rest)) as Hf by (by apply newlines_follow).
  norm_at. apply stmt_simple; [lia|by apply starting_line|]. intros prev1.
  apply expression_line; [lia|done|done|..]; intros prev2.
  - enter @parse_expr_or_assign_stmt. run.
    eapply ends_bind; [apply (reads_test e (t :: ts)); [done|lia|exact Hf]|]. intros prev3. norm_at.
    run. apply ends_get_prev. run. enter @parse_assign_values.
    eapply ends_bind.
    { destruct n as [|n]; [lia|]. apply ends_loop. run. }
    intros prev4. run. apply (ends_skip_all _ _ (nl :: us)); [done|cbn in *; lia|done|]. intros prev5. run.
  - enter @parse_expr_stmt. run.
    eapply ends_bind; [apply (reads_test e (t :: ts)); [done|lia|exact Hf]|]. intros prev3. run.
    apply (ends_skip_all _ _ (nl :: us)); [done|cbn in *; lia|done|]. intros prev5. run.
Qed.

(** The round of the loop over the targets of an assignment. *)
Abbreviation target_step n := (λ '(targets, spans, value),
  assign ← is_kind Assign;
  if (assign : bool) then
    bump_token Assign;;
    tok ← get_token;
    expr ← p_expr (R n);
    last ← get_prev;
    continue (targets ++ match value with Some v => [v] | None => [] end,
              spans ++ [span (tok_span tok).1 (tok_span last).2], Some expr)
  else break (targets, spans, value)).
Lemma values_head nss e ts : values nss e ts → ∃ a us, ts = a :: us ∧ kind a = Assign.
Proof. intros []; by eexists _, _. Qed.
Lemma ends_loop_then {A C B} n (body : A → M (A + C)) a (f : C → M B) p b rest errs :
  ends (r ← body a; match r with inl a => loop n body a ≫= f | inr c => f c end) p b rest errs →
  ends (loop (S n) body a ≫= f) p b rest errs.
Proof.
  intros [prev H]. exists prev. revert H. cbn [loop]. unfold mbind, M_bind.
  by destruct (body a p) as [[[[a'|c] q]|]|].
Qed.
Lemma loop_values {B} n nss e ts : values nss e ts →
  ∀ m targets spans value (f : _ → M B) prev errs rest b rest',
  2 * length ts + 2 ≤ n → length ts < m → follow_test rest →
  (match rest with t :: _ => kind t ≠ Assign | [] => True end) →
  (∀ spans' prev, length spans' = length spans + S (length nss) →
     ends (f (targets ++ match value with Some v => [v] | None => [] end ++ (IdentifierExpr <$> nss), spans', Some e))
       (at_ rest prev errs) b rest' errs) →
  ends (loop m (target_step n) (targets, spans, value) ≫= f) (at_ (ts ++ rest) prev errs) b rest' errs.
Proof.
  induction 1 as [a e te Ha He|a ns tn nss e ts Ha Hns Hp Hv IH];
    intros m targets spans value f prev errs rest b rest' Hn Hm Hfo Hr Hf;
    (destruct m as [|m]; [lia|]); cbn [length] in *; apply ends_loop_then.
  - destruct (test_shape _ _ He) as [Hs _]. destruct te as [|t te]; [done|]. norm_at. run.
    eapply ends_bind; [apply (reads_test e (t :: te)); [done|lia|exact Hfo]|]. intros prev2.
    destruct rest as [|r rest]; [by destruct Hfo as [[]]|]. run. apply ends_get_prev. run.
    destruct m as [|m]; [cbn in *; lia|]. apply ends_loop_then. run. rewrite bool_decide_eq_false_2 by done. run.
    specialize (Hf (spans ++ [span (tok_span t).1 (tok_span prev2).2]) prev2). rewrite length_app in Hf.
    cbn [fmap list_fmap] in Hf. rewrite app_nil_r in Hf. by apply Hf.
  - pose proof (names_simple ns tn Hns Hp) as Ht. destruct (test_shape _ _ Ht) as [Hs _].
    destruct tn as [|t tn]; [done|]. rewrite length_app in *. cbn [length] in *.
    destruct (values_head _ _ _ Hv) as (a' & us & -> & Ha'). norm_at. run.
    eapply ends_bind; [apply (reads_test _ (t :: tn)); [done|cbn [length] in *; lia|apply closing_follow; by rewrite Ha']|]. intros prev2.
    run. apply ends_get_prev. run. apply (IH m); [cbn [length] in *; lia..|done|done|].
    intros spans' prev' Hl. rewrite length_app in Hl. cbn [length] in Hl.
    specialize (Hf spans' prev'). cbn [fmap list_fmap] in Hf. rewrite <- app_assoc. apply Hf. lia.
Qed.
Lemma legal_targets nss : ∀ spans p, Forall (λ ns, ns ≠ []) nss → length nss ≤ length spans →
  assign_targets (IdentifierExpr <$> nss) spans p = Some (Ok (target_of <$> nss, p)).
Proof.
  induction nss as [|ns nss IH]; intros spans p Hne Hl; [done|].
  apply Forall_cons in Hne as [Hns Hne]. destruct ns as [|x ns]; [done|]. destruct spans as [|sp spans]; [cbn in Hl; lia|].
  specialize (IH spans p Hne ltac:(cbn in Hl; lia)).
  change (IdentifierExpr <$> (x :: ns) :: nss) with (IdentifierExpr (x :: ns) :: (IdentifierExpr <$> nss)).
  generalize dependent (IdentifierExpr <$> nss). intros es IH. cbn [assign_targets tail].
  unfold lift, mbind, M_bind in *. cbn. by rewrite IH.
Qed.
Lemma plain_not_nil ns : plain ns → ns ≠ [].
Proof. by destruct ns. Qed.
Lemma values_plain nss e ts : values nss e ts → Forall (λ ns, ns ≠ []) nss.
Proof. induction 1; [apply Forall_nil_2|]. apply Forall_cons_2; [by apply plain_not_nil|done]. Qed.

Lemma names_no_sign ns tn : names ns tn → no_sign tn.
Proof. intros [t n ns' ts Ht _]. cbn. by rewrite Ht. Qed.
Lemma no_sign_app ts ts' : no_sign ts → no_sign (ts ++ ts').
Proof. by destruct ts. Qed.
(** A line that starts with a name. *)
Lemma names_line ns tn ts n prev errs s rest :
  names ns tn → plain ns → 0 < n →
  (∀ prev, ends (parse_expr_or_assign_stmt n (R n) false) (at_ (tn ++ ts) prev errs) (Some s) rest errs) →
  ends (parse_stmt n (R n)) (at_ (tn ++ ts) prev errs) (Some s) rest errs.
Proof.
  intros Hns Hp Hn H. pose proof (names_starts _ _ Hns Hp) as Hs. pose proof (names_no_sign _ _ Hns) as Hsign.
  destruct Hns as [t x ns' tn' Ht Hd]. cbn [app starts] in *.
  apply stmt_simple; [done|by apply starting_line|]. intros prev1. pose proof (starting_layout t Hs) as Hl.
  enter @parse_simple_stmt. apply ends_skip_newlines; [done|done|]. run.
  assert (∀ k, keyword k = true → bool_decide (Ident x = Ident k) = false) as Hk.
  { intros k Hk. apply bool_decide_eq_false_2. intros [= ->]. cbn in Hp. congruence. }
  rewrite !Hk by reflexivity. apply H.
Qed.

Lemma P_stmt_assign ns tn nss e ts :
  names ns tn → plain ns → values nss e ts → P_stmt (SAssign (target_of <$> ns :: nss) e None) (tn ++ ts).
Proof.
  intros Hns Hp Hv n prev errs nls rest Hn Hne Hnl Hr. rewrite length_app in Hn. norm_at.
  apply (names_line ns); [done|done|lia|]. intros prev1.
  pose proof (names_simple ns tn Hns Hp) as Ht. destruct (test_shape _ _ Ht) as [Hs _].
  destruct (values_head _ _ _ Hv) as (a & us & -> & Ha).
  destruct (newlines_head nls Hne Hnl) as (nl & ul & -> & Hnlk).
  destruct tn as [|t tn]; [done|]. norm_at. enter @parse_expr_or_assign_stmt. run.
  eapply ends_bind; [apply (reads_test _ (t :: tn)); [done|cbn [length] in *; lia|apply closing_follow; by rewrite Ha]|].
  intros prev2. run. apply ends_get_prev. run. enter @parse_assign_values.
  apply (loop_values n nss e (a :: us) Hv); [lia|lia|exact (newlines_follow (nl :: ul) rest Hne Hnl)|by rewrite Hnlk|].
  intros spans' prev3 Hl. cbn [app] in *. run. 
  eapply ends_run.
  { apply (legal_targets (ns :: nss)); [apply Forall_cons_2; [by apply plain_not_nil|by eapply values_plain]|]. cbn in *. lia. }
  apply (ends_skip_all _ _ (nl :: ul)); [done|cbn in *; lia|done|]. intros prev5. run.
Qed.
Lemma P_stmt_aug ns tn o op e te :
  names ns tn → plain ns → kind o = BinOpEq op → test e te →
  P_stmt (SAugAssign (target_of ns) (AugOp_from op) e) (tn ++ o :: te).
Proof.
  intros Hns Hp Ho He n prev errs nls rest Hn Hne Hnl Hr. rewrite length_app in Hn. cbn [length] in Hn. norm_at.
  apply (names_line ns); [done|done|lia|]. intros prev1.
  pose proof (names_simple ns tn Hns Hp) as Ht. destruct (test_shape _ _ Ht) as [Hs _], (test_shape _ _ He) as [Hse _].
  destruct (newlines_head nls Hne Hnl) as (nl & ul & -> & Hnlk).
  destruct tn as [|t tn]; [done|]. destruct te as [|t' te]; [done|]. norm_at. enter @parse_expr_or_assign_stmt. run.
  eapply ends_bind; [apply (reads_test _ (t :: tn)); [done|cbn [length] in *; lia|apply closing_follow; by rewrite Ho]|].
  intros prev2. run. apply ends_get_prev. run.
  destruct ns as [|x ns]; [done|]. cbn [expr_as_assign_target expr_as_assign_target_paths fmap list_fmap].
  eapply ends_bind; [apply (reads_test e (t' :: te)); [done|lia|exact (newlines_follow (nl :: ul) rest Hne Hnl)]|]. intros prev3.
  apply (ends_skip_all _ _ (nl :: ul)); [done|cbn in *; lia|done|]. intros prev5. run.
Qed.

Lemma ends_bump_keyword {B} kw (f : () → M B) t ts prev errs b rest errs' :
  kind t = Ident (Token.intern kw) → ts ≠ [] → ends (f tt) (at_ ts t errs) b rest errs' →
  ends (bump_keyword kw ≫= f) (at_ (t :: ts) prev errs) b rest errs'.
Proof.
  intros Hk Hts H. enter bump_keyword. run. exact H.
Qed.
Lemma reads_simple e ts n prev errs rest :
  simple 1 e ts → 2 * length ts + 2 ≤ n → follow_simple rest →
  ends (parse_simple_expr (R n)) (at_ (ts ++ rest) prev errs) e rest errs.
Proof.
  intros He Hn [Hstop Hr]. destruct grammar_reads as [_ [H _]]. destruct (simple_shape _ _ _ He) as [Hs _].
  apply (simple_done 1); [exact (H _ _ _ He)|done|done|lia|done|by rewrite Hr].
Qed.
Lemma optional_if c tc n prev errs rest :
  part (Ident kw.If) (simple 1) c tc → 2 * length tc + 2 ≤ n → follow_test rest →
  ends (optional_after "if" (parse_simple_expr (R n))) (at_ (tc ++ rest) prev errs) c rest errs.
Proof.
  intros [|t e ts Ht He] Hn [Hf Hif]; enter @optional_after.
  - destruct rest as [|t rest]; [by destruct Hf|]. cbn [app]. run.
    rewrite is_keyword_kind, bool_decide_eq_false_2 by exact Hif. run.
  - destruct (simple_shape _ _ _ He) as [Hs _]. destruct ts as [|t' ts]; [done|]. cbn [length] in Hn. norm_at. run.
    apply ends_bump_keyword; [done|done|].
    eapply ends_bind; [apply (reads_simple e (t' :: ts)); [done|cbn [length]; lia|done]|]. intros prev2. run.
Qed.
Lemma optional_comma m tm n prev errs rest :
  part Comma test m tm → 2 * length tm + 2 ≤ n → follow_test rest →
  match rest with t :: _ => kind t ≠ Comma | [] => True end →
  ends (optional_token Comma (p_expr (R n))) (at_ (tm ++ rest) prev errs) m rest errs.
Proof.
  intros [|t e ts Ht He] Hn Hf Hc; enter @optional_token.
  - destruct rest as [|t rest]; [by destruct Hf as [[]]|]. cbn [app]. run.
    rewrite bool_decide_eq_false_2 by exact Hc. run.
  - destruct (test_shape _ _ He) as [Hs _]. destruct ts as [|t' ts]; [done|]. cbn [length] in Hn. norm_at. run.
    eapply ends_bind; [apply (reads_test e (t' :: ts)); [done|cbn [length]; lia|done]|]. intros prev2. run.
Qed.
Lemma part_comma_follow m tm rest : part Comma test m tm → follow_test rest → follow_test (tm ++ rest).
Proof. intros [|t e ts Ht _] Hf; [done|]. cbn [app]. apply closing_follow. by rewrite Ht. Qed.
Lemma part_if_follow c tc rest : part (Ident kw.If) (simple 1) c tc → follow_test rest → follow_simple (tc ++ rest).
Proof. intros [|t e ts Ht _] Hf; [by destruct Hf|]. cbn [app]. by apply if_follow. Qed.
Lemma P_stmt_assert a e te c tc m tm :
  kind a = Ident kw.Assert → simple 1 e te → part (Ident kw.If) (simple 1) c tc →
  part Comma test m tm → P_stmt (SAssert e c m) (a :: te ++ tc ++ tm).
Proof.
  intros Ha He Hc Hm n prev errs nls rest Hn Hne Hnl Hr. cbn [length] in Hn. rewrite !length_app in Hn.
  destruct (newlines_head nls Hne Hnl) as (nl & ul & -> & Hnlk).
  pose proof (newlines_follow (nl :: ul) rest Hne Hnl) as Hf.
  assert (match (nl :: ul) ++ rest with t :: _ => kind t ≠ Comma | [] => True end) as Hcomma by (cbn; by rewrite Hnlk).
  destruct (simple_shape _ _ _ He) as [Hs _]. destruct te as [|t te]; [done|]. norm_at. cbn [app] in Hf, Hcomma.
  apply stmt_simple; [lia|unfold line_start; by rewrite Ha|]. intros prev1. enter @parse_simple_stmt.
  apply ends_skip_newlines; [lia|by rewrite Ha|]. run. enter @parse_assert_stmt. run.
  apply ends_bump_keyword; [done|done|]. run.
  eapply ends_bind; [apply (reads_simple e (t :: te)); [done|lia|]|].
  { eapply part_if_follow; [done|]. by eapply part_comma_follow. }
  intros prev2. run. eapply ends_bind; [apply optional_if; [done|lia|by eapply part_comma_follow]|].
  intros prev3. run. eapply ends_bind; [apply optional_comma; [done|lia|done|done]|].
  intros prev4. run. apply (ends_skip_all _ _ (nl :: ul)); [done|cbn in *; lia|done|]. intros prev5. run.
Qed.

Lemma reads_dots k n d acc prev errs rest :
  all_of k d → length d < n → match rest with t :: _ => kind t ≠ k | [] => False end →
  ends (parse_dots n k acc) (at_ (d ++ rest) prev errs) (acc ++ dots d) rest errs.
Proof.
  intros H. revert n acc prev. unfold parse_dots. induction H as [|t d Ht _ IH]; intros n acc prev Hn Hr;
    (destruct n as [|n]; [cbn in Hn; lia|]); apply ends_loop.
  - destruct rest as [|t rest]; [done|]. cbn [app]. run. rewrite bool_decide_eq_false_2 by done.
    run. unfold dots. cbn [mbind list_bind]. rewrite app_nil_r. apply ends_ret.
  - cbn [length app] in *. assert (d ++ rest ≠ []) by (destruct d; [by destruct rest|done]). run.
    unfold dots in *. cbn [mbind list_bind]. rewrite Ht, app_assoc. apply IH; [lia|done].
Qed.
(** The dots and the names of an import. *)
Lemma reads_import {B} n i d3 d1 ns tn rest prev errs (f : Symbol → Symbol → Identifier → M B) b rest' :
  kind i = Ident kw.Import → all_of DotDotDot d3 → all_of Dot d1 → names ns tn →
  length d3 + length d1 + length tn < n →
  match rest with t :: _ => kind t ≠ Dot | [] => False end →
  (∀ prev, ends (f (dots d3) (dots d3 ++ dots d1) ns) (at_ rest prev errs) b rest' errs) →
  ends (bump_keyword "import";;
        leading_dots ← parse_dots n DotDotDot [];
        leading_dots' ← parse_dots n Dot leading_dots;
        dot_name ← parse_identifier n;
        f leading_dots leading_dots' dot_name) (at_ (i :: d3 ++ d1 ++ tn ++ rest) prev errs) b rest' errs.
Proof.
  intros Hi H3 H1 Hns Hn Hr Hf. destruct tn as [|t tn]; [inversion Hns|].
  assert (∃ x, kind t = Ident x) as [x Ht] by (inversion Hns; eauto).
  apply ends_bump_keyword; [done|not_nil|].
  eapply ends_bind; [apply reads_dots; [done|lia|]|].
  { destruct H1 as [|d d1 Hd _]; cbn; [by rewrite Ht|by rewrite Hd]. }
  intros prev1. eapply ends_bind; [apply reads_dots; [done|lia|cbn; by rewrite Ht]|].
  intros prev2. eapply ends_bind; [apply (parse_names n ns (t :: tn)); [done|lia|by destruct rest|]|].
  { intros u us ->. done. }
  intros prev3. apply Hf.
Qed.
Lemma names_last ns tn : names ns tn → ∃ n, last ns = Some n.
Proof.
  intros [t n ns' ts _ _]. destruct (last (n :: ns')) as [x|] eqn:E; [by exists x|]. by apply last_None in E.
Qed.
Lemma import_line i us n prev errs s rest :
  kind i = Ident kw.Import → 0 < n →
  (∀ prev, ends (parse_import_stmt n) (at_ (i :: us) prev errs) s rest errs) →
  ends (parse_stmt n (R n)) (at_ (i :: us) prev errs) (Some s) rest errs.
Proof.
  intros Hi Hn H. apply stmt_simple; [lia|unfold line_start; by rewrite Hi|]. intros prev1.
  enter @parse_simple_stmt. apply ends_skip_newlines; [lia|by rewrite Hi|]. run.
  eapply ends_bind; [apply H|]. intros prev2. run.
Qed.
Lemma P_stmt_import i d3 d1 ns tn :
  kind i = Ident kw.Import → all_of DotDotDot d3 → all_of Dot d1 → names ns tn →
  P_stmt (SImport (dots d3 ++ dots d1 ++ join_dots ns) (default [] (last ns)) None) (i :: d3 ++ d1 ++ tn).
Proof.
  intros Hi H3 H1 Hns n prev errs nls rest Hn Hne Hnl Hr. cbn [length] in Hn. rewrite !length_app in Hn.
  destruct (newlines_head nls Hne Hnl) as (nl & ul & -> & Hnlk). destruct (names_last _ _ Hns) as [x Hx].
  norm_at. apply import_line; [done|lia|]. intros prev1. enter parse_import_stmt.
  apply (reads_import n i d3 d1 ns tn (nl :: ul ++ rest)); [done..|lia|by rewrite Hnlk|]. intros prev2. cbv beta. run.
  rewrite Hx. eapply ends_run; [done|]. 
  apply (ends_skip_all _ _ (nl :: ul)); [done|cbn in *; lia|done|]. intros prev5. run.
  rewrite <- app_assoc. apply ends_ret.
Qed.
Lemma P_stmt_import_as i d3 d1 ns tn a m t :
  kind i = Ident kw.Import → all_of DotDotDot d3 → all_of Dot d1 → names ns tn →
  kind a = Ident kw.As → kind t = Ident m →
  P_stmt (SImport (dots d3 ++ dots d1 ++ join_dots ns) m (Some m)) (i :: d3 ++ d1 ++ tn ++ [a; t]).
Proof.
  intros Hi H3 H1 Hns Ha Ht n prev errs nls rest Hn Hne Hnl Hr. cbn [length] in Hn. rewrite !length_app in Hn.
  cbn [length] in Hn.
  destruct (newlines_head nls Hne Hnl) as (nl & ul & -> & Hnlk).
  norm_at. apply import_line; [done|lia|]. intros prev1. enter parse_import_stmt.
  apply (reads_import n i d3 d1 ns tn (a :: t :: nl :: ul ++ rest)); [done..|lia|by rewrite Ha|]. intros prev2. cbv beta. run.
  apply ends_bump_keyword; [done|done|].
  run. eapply ends_bind; [apply (parse_names n [m] [t]); [apply names_of; [done|constructor]|cbn; lia|done|]|].
  { intros u us [= <- <-]. by rewrite Hnlk. }
  intros prev3. run.
  apply (ends_skip_all _ _ (nl :: ul)); [done|cbn in *; lia|done|]. intros prev5. run.
  rewrite <- app_assoc. apply ends_ret.
Qed.

Lemma stmt_reads s ts : stmt s ts → P_stmt s ts.
Proof.
  intros []; eauto using P_stmt_expr, P_stmt_assign, P_stmt_aug, P_stmt_assert, P_stmt_import, P_stmt_import_as.
Qed.

(** *** Conditional statements *)

(** Nothing to skip. *)
Lemma ends_skip_none {B} n (f : () → M B) rest prev errs b rest' :
  0 < n → next_line rest → ends (f tt) (at_ rest prev errs) b rest' errs →
  ends (skip_newlines n ≫= f) (at_ rest prev errs) b rest' errs.
Proof.
  intros Hn Hr. destruct rest as [|t rest]; [done|]. apply ends_bump_while; [done|]. by rewrite bool_decide_eq_false_2.
Qed.
Lemma ends_validate_dedent {B} (f : () → M B) t ts prev errs b rest errs' :
  (∀ n, kind t ≠ Dedent (S n)) → ends (f tt) (at_ (t :: ts) prev errs) b rest errs' →
  ends (validate_dedent ≫= f) (at_ (t :: ts) prev errs) b rest errs'.
Proof.
  intros Ht H. enter validate_dedent. run. destruct (kind t) as [] eqn:E; try exact H.
  match goal with n : nat |- _ => destruct n; [exact H|] end. by destruct (Ht n).
Qed.

(** The rounds of the loops over the statements of a block and over the branches. *)
Abbreviation block_step n := (λ stmts,
  eof ← is_kind Eof;
  if (eof : bool) then bump;; break stmts
  else
    validate_dedent;;
    close ← is_kind DEDENT;
    if (close : bool) then bump_token DEDENT;; break stmts
    else
      s ← p_stmt (R n);
      match s with
      | Some s => continue (stmts ++ [s])
      | None => bump;; continue stmts
      end).
Abbreviation elif_step n := (λ branches,
  b ← is_kw kw.Elif;
  if (b : bool) then branch ← parse_if_branch n (R n) "elif"; continue (branches ++ [branch])
  else break branches).

Definition P_item (s : Stmt) (ts : list Token) : Prop :=
  (∃ t us, ts = t :: us ∧ (line_start (kind t) = true ∨ kind t = Ident kw.If)) ∧
  ∀ n prev errs rest, 2 * length ts + 2 ≤ n → next_item rest →
    ends (parse_stmt n (R n)) (at_ (ts ++ rest) prev errs) (Some s) rest errs.
Definition P_block (b : list Stmt) (ts : list Token) : Prop :=
  ts ≠ [] ∧ ∀ n prev errs rest, 2 * length ts + 2 ≤ n → next_line rest →
    ends (parse_if_body n (R n)) (at_ (ts ++ rest) prev errs) b rest errs.
Definition P_elifs (l : list (Expr * list Stmt)) (ts : list Token) : Prop :=
  (ts = [] ∨ ∃ t us, ts = t :: us ∧ kind t = Ident kw.Elif) ∧
  ∀ n m acc prev errs rest, 2 * length ts + 2 ≤ n → length ts < m → next_line rest →
    match rest with t :: _ => kind t ≠ Ident kw.Elif | [] => True end →
    ends (loop m (elif_step n) acc) (at_ (ts ++ rest) prev errs) (acc ++ l) rest errs.
Definition P_otherwise (b : list Stmt) (ts : list Token) : Prop :=
  (ts = [] ∧ b = []) ∨
  ∃ i p tb, ts = i :: p :: tb ∧ kind i = Ident kw.Else ∧ kind p = Colon ∧ P_block b tb.
Definition P_body (b : list Stmt) (ts : list Token) : Prop :=
  (ts = [] ∨ ∃ t us, ts = t :: us ∧ (line_start (kind t) = true ∨ kind t = Ident kw.If)) ∧
  ∀ n m acc prev errs d rest, 2 * length ts + 3 ≤ n → length ts < m → kind d = DEDENT → rest ≠ [] →
    ends (loop m (block_step n) acc) (at_ (ts ++ d :: rest) prev errs) (acc ++ b) rest errs.

Lemma item_start_next t us : line_start (kind t) = true ∨ kind t = Ident kw.If → next_item (t :: us).
Proof. intros [H|H]; cbn; [|by rewrite H]. split_and!; intros E; by rewrite E in H. Qed.

Lemma stmt_head s ts : stmt s ts → ∃ t us, ts = t :: us ∧ line_start (kind t) = true.
Proof.
  intros [e ts' He _|ns tn nss e ts' Hns Hp _|ns tn o op e te Hns Hp _ _|a e te c tc m tm Ha _ _ _|i d3 d1 ns tn Hi _ _ _|i d3 d1 ns tn a n t Hi _ _ _ _ _].
  - destruct (test_shape _ _ He) as [Hs _]. destruct ts' as [|t us]; [done|]. exists t, us. split; [done|by apply starting_line].
  - pose proof (names_starts _ _ Hns Hp) as Hs. destruct tn as [|t tn]; [done|]. exists t, (tn ++ ts'). split; [done|by apply starting_line].
  - pose proof (names_starts _ _ Hns Hp) as Hs. destruct tn as [|t tn]; [done|]. exists t, (tn ++ o :: te). split; [done|by apply starting_line].
  - eexists _, _. split; [done|]. unfold line_start. by rewrite Ha.
  - eexists _, _. split; [done|]. unfold line_start. by rewrite Hi.
  - eexists _, _. split; [done|]. unfold line_start. by rewrite Hi.
Qed.
Lemma P_item_line s ts nls : stmt s ts → nls ≠ [] → newlines nls → P_item s (ts ++ nls).
Proof.
  intros Hs Hne Hnl. destruct (stmt_head _ _ Hs) as (t & us & -> & Ht). split.
  { exists t, (us ++ nls). by split; [|left]. }
  intros n prev errs rest Hn Hr. rewrite length_app in Hn. rewrite <- app_assoc.
  apply (stmt_reads s (t :: us) Hs); [lia|done|done|by apply next_item_line].
Qed.
(** A branch: its keyword, its condition and its block. *)
Lemma reads_branch kw n i c tc p b tb prev errs rest :
  kind i = Ident (Token.intern kw) → test c tc → kind p = Colon → P_block b tb →
  2 * length (i :: tc ++ p :: tb) + 2 ≤ n → next_line rest →
  ends (parse_if_branch n (R n) kw) (at_ (i :: tc ++ p :: tb ++ rest) prev errs) (c, b) rest errs.
Proof.
  intros Hi Hc Hp [Hne Hb] Hn Hr. cbn [length] in Hn. rewrite length_app in Hn. cbn [length] in Hn.
  destruct (test_shape _ _ Hc) as [Hs _]. destruct tc as [|t tc]; [done|]. enter @parse_if_branch.
  apply ends_bump_keyword; [done|done|].
  eapply ends_bind; [apply (reads_test c (t :: tc)); [done|lia|apply closing_follow; by rewrite Hp]|].
  intros prev1. assert (tb ++ rest ≠ []) by (by destruct tb). run.
  eapply ends_bind; [apply Hb; [lia|done]|]. intros prev2. run.
Qed.
Lemma P_block_of nls o b ts d nls' :
  nls ≠ [] → newlines nls → kind o = INDENT → P_body b ts → kind d = DEDENT → newlines nls' →
  P_block b (nls ++ o :: ts ++ d :: nls').
Proof.
  intros Hne Hnl Ho [Hhead Hb] Hd Hnl'. split; [by destruct nls|]. intros n prev errs rest Hn Hr.
  rewrite length_app in Hn. cbn [length] in Hn. rewrite length_app in Hn. cbn [length] in Hn.
  destruct (newlines_head nls Hne Hnl) as (nl & us & -> & Hnlk). norm_at. enter @parse_if_body. run.
  apply (ends_skip_all n _ (nl :: us)); [done|cbn [length] in *; lia|cbn; by rewrite Ho|]. intros prev1.
  enter @parse_block_stmt_list. apply ends_validate_dedent; [by rewrite Ho|]. 
  assert (nls' ++ rest ≠ []) by (destruct nls'; [by destruct rest|done]). run.
  eapply ends_bind; [apply (Hb n n []); [lia|lia|done|done]|]. intros prev2.
  apply ends_skip_all; [done|lia|done|]. intros prev3. run.
Qed.
Lemma P_elifs_nil : P_elifs [] [].
Proof.
  split; [by left|]. intros n m acc prev errs rest _ Hm Hr He. destruct m as [|m]; [cbn in Hm; lia|]. apply ends_loop.
  destruct rest as [|t rest]; [done|]. cbn [app]. run. rewrite is_keyword_kind, bool_decide_eq_false_2 by done.
  rewrite app_nil_r. run.
Qed.
Lemma P_elifs_next l tl rest : P_elifs l tl → next_line rest → next_line (tl ++ rest).
Proof. intros [[->|(t & us & -> & Ht)] _] Hr; [done|]. cbn. by rewrite Ht. Qed.
Lemma P_elifs_cons i c tc p b tb l tl :
  kind i = Ident kw.Elif → test c tc → kind p = Colon → P_block b tb → P_elifs l tl →
  P_elifs ((c, b) :: l) (i :: tc ++ p :: tb ++ tl).
Proof.
  intros Hi Hc Hp Hb Hl. split; [right; by eexists _, _|]. intros n m acc prev errs rest Hn Hm Hr He.
  destruct m as [|m]; [lia|]. cbn [length] in *. rewrite length_app in *. cbn [length] in *. rewrite length_app in *.
  pose proof (P_elifs_next _ _ _ Hl Hr) as Hr'. destruct Hl as [_ Hl]. norm_at. apply ends_loop. run.
  eapply ends_bind; [apply (reads_branch "elif" n i c tc p b tb); [done..| |exact Hr']|].
  { cbn [length]. rewrite length_app. cbn [length]. lia. }
  intros prev1. run. replace (acc ++ (c, b) :: l) with ((acc ++ [(c, b)]) ++ l) by by rewrite <- app_assoc.
  apply Hl; [lia|lia|done|done].
Qed.
Lemma P_otherwise_next r tr rest : P_otherwise r tr → next_item rest →
  next_line (tr ++ rest) ∧ match tr ++ rest with t :: _ => kind t ≠ Ident kw.Elif | [] => True end.
Proof.
  intros [[-> ->]|(i & p & tb & -> & Hi & _)] Hr.
  - destruct rest as [|t rest]; [done|]. by destruct Hr as (? & ? & ?).
  - cbn. by rewrite Hi.
Qed.
Lemma P_item_if i c tc p b tb l tl r tr :
  kind i = Ident kw.If → test c tc → kind p = Colon → P_block b tb → P_elifs l tl → P_otherwise r tr →
  P_item (SIf c b (foldr (λ '(c, b) r, [SIf c b r]) r l)) (i :: tc ++ p :: tb ++ tl ++ tr).
Proof.
  intros Hi Hc Hp Hb Hl Ho. split; [exists i; eexists; split; [done|by right]|].
  intros n prev errs rest Hn Hr. cbn [length] in Hn. rewrite length_app in Hn. cbn [length] in Hn. rewrite !length_app in Hn.
  destruct (P_otherwise_next _ _ _ Ho Hr) as [Hr1 Hr2]. pose proof (P_elifs_next _ _ _ Hl Hr1) as Hr3.
  pose proof (next_item_line _ Hr) as Hr0. destruct Hl as [_ Hl].
  norm_at. enter @parse_stmt. apply ends_skip_newlines; [lia|by rewrite Hi|]. run.
  enter @parse_compound_stmt. run. apply ends_skip_newlines; [lia|by rewrite Hi|]. run. enter @parse_if_stmt. run.
  eapply ends_bind; [apply (reads_branch "if" n i c tc p b tb); [done..| |exact Hr3]|].
  { cbn [length]. rewrite length_app. cbn [length]. lia. }
  intros prev1. run. apply ends_skip_none; [lia|done|]. run.
  eapply ends_bind; [apply (Hl n n []); [lia|lia|done|done]|]. intros prev2. run. cbn [app].
  apply ends_skip_none; [lia|done|].
  destruct Ho as [[-> ->]|(e & p' & tb' & -> & He & Hp' & Hbne & Hb')].
  - cbn [app]. destruct rest as [|t rest]; [done|]. destruct Hr as (_ & _ & Helse). run.
    rewrite is_keyword_kind, bool_decide_eq_false_2 by done. run. apply ends_skip_none; [lia|done|]. run.
  - cbn [app length] in *. assert (tb' ++ rest ≠ []) by (by destruct tb'). run.
    apply ends_bump_keyword; [done|done|]. run. 
    eapply ends_bind; [apply Hb'; [lia|done]|]. intros prev3. run. apply ends_skip_none; [lia|done|]. run.
Qed.
Lemma P_body_nil : P_body [] [].
Proof.
  split; [by left|]. intros n m acc prev errs d rest _ Hm Hd Hr. destruct m as [|m]; [cbn in Hm; lia|]. apply ends_loop.
  cbn [app]. rewrite app_nil_r. step. step. known. known. step. apply ends_validate_dedent; [by rewrite Hd|]. run.
Qed.
Lemma P_body_cons s ts b rest : P_item s ts → P_body b rest → P_body (s :: b) (ts ++ rest).
Proof.
  intros [(t & us & -> & Ht) Hs] [Hhead Hb]. split; [right; by exists t, (us ++ rest)|].
  intros n m acc prev errs d rest' Hn Hm Hd Hr. rewrite length_app in *. destruct m as [|m]; [lia|]. destruct n as [|n]; [lia|].
  assert (next_item (rest ++ d :: rest')) as Hnext.
  { destruct Hhead as [->|(t' & us' & -> & Ht')]; [cbn; by rewrite Hd|]. by apply item_start_next. }
  norm_at. apply ends_loop.
  assert (bool_decide (kind t = Eof) = false ∧ bool_decide (kind t = DEDENT) = false ∧ ∀ n, kind t ≠ Dedent (S n)) as (H1 & H2 & H3).
  { destruct Ht as [Ht|Ht]; [|by rewrite Ht].
    split_and!; [by apply line_start_not..|]. intros k E. by rewrite E in Ht. }
  run. rewrite H1. run. apply ends_validate_dedent; [done|]. run. rewrite H2. run.
  eapply ends_bind; [apply (Hs n); [lia|exact Hnext]|]. intros prev2. run.
  replace (acc ++ s :: b) with ((acc ++ [s]) ++ b) by by rewrite <- app_assoc.
  apply Hb; [lia|cbn [length] in *; lia|done|done].
Qed.
Lemma item_reads s ts : item s ts → P_item s ts.
Proof.
  apply (item_ind' _ _ P_item P_block P_elifs P_otherwise P_body);
    eauto using P_item_line, P_item_if, P_block_of, P_elifs_nil, P_elifs_cons, P_body_nil, P_body_cons.
  - by left.
  - intros i p b' tb Hi Hp _ Hb. right. by exists i, p, tb.
Qed.
Lemma body_next b ts eof : body b ts → kind eof = Eof → next_item (ts ++ [eof]).
Proof.
  intros [|s ts' b' rest Hs _] He; [cbn; by rewrite He|].
  destruct (item_reads _ _ Hs) as [(t & us & -> & Ht) _]. by apply item_start_next.
Qed.

Lemma reads_body b ts : body b ts → ∀ n m acc prev errs eof,
  2 * length ts + 2 ≤ n → length ts < m → kind eof = Eof →
  ends (loop m (λ stmts,
    eof ← is_kind Eof;
    if (eof : bool) then bump;; break stmts
    else
      s ← parse_stmt n (R n);
      match s with
      | Some s => continue (stmts ++ [s])
      | None => bump;; continue stmts
      end) acc) (at_ (ts ++ [eof]) prev errs) (acc ++ b) [] errs.
Proof.
  induction 1 as [|s ts b rest Hs Hb IH]; intros n m acc prev errs eof Hn Hm He;
    (destruct m as [|m]; [lia|]); apply ends_loop.
  - cbn [app]. step. step. known. known. exists eof. rewrite app_nil_r. done.
  - rewrite !length_app in *. destruct (item_reads _ _ Hs) as [(t & us & -> & Ht) Hreads].
    pose proof (body_next _ _ _ Hb He) as Hnext. norm_at.
    assert (bool_decide (kind t = Eof) = false) as Heof by (destruct Ht as [Ht|Ht]; [by apply line_start_not|by rewrite Ht]).
    run. rewrite Heof. run.
    eapply ends_bind; [apply Hreads; [lia|exact Hnext]|]. intros prev2. run.
    replace (acc ++ s :: b) with ((acc ++ [s]) ++ b) by by rewrite <- app_assoc.
    apply IH; [lia|cbn [length] in *; lia|done].
Qed.

Lemma reads_doc d td n prev errs rest :
  doc d td → 2 * length td + 2 ≤ n → next_line rest → (d = None → no_doc rest) →
  ends (parse_doc n (R n)) (at_ (td ++ rest) prev errs) d rest errs.
Proof.
  intros [|t lk is_raw nls Ht Hlk Hf Hnl] Hn Hr Hno; enter @parse_doc.
  - specialize (Hno eq_refl). destruct rest as [|t rest]; [done|]. cbn [app no_doc] in *. run.
    destruct (kind t) as [] eqn:Ek; try apply ends_ret.
    match goal with lk : Lit |- _ => destruct (lit_kind lk) as [] eqn:El; try apply ends_ret end.
    match goal with long : bool |- _ => destruct long; [done|apply ends_ret] end.
  - cbn [length] in Hn. assert (nls ++ rest ≠ []) by (destruct nls; [by destruct rest|done]).
    norm_at. run. rewrite Hlk. cbv beta iota.
    eapply (ends_bind _ _ _ (StringLitExpr (MkStringLit true (symbol lk) (default [] (raw lk)))) (nls ++ rest)).
    + enter @parse_str_expr. run. rewrite Hlk. run.
      eapply (ends_bind _ _ _ None (nls ++ rest)); [|intros p; run]. enter @parse_joined_string. cbn [Ast.value].
      rewrite Hf. rewrite (bool_decide_eq_false_2 (is_Some None)) by (by intros [? [=]]).
      match goal with |- ends (if ?b then _ else _) _ _ _ _ => by destruct b; apply ends_ret end.
    + intros prev2. apply ends_skip_all; [done|lia|done|]. intros prev3. run.
Qed.
Lemma reads_module d b ts comments prev errs eof n :
  module_of d b ts → kind eof = Eof → 2 * length ts + 2 ≤ n →
  ends (parse_module n (R n) comments) (at_ (ts ++ [eof]) prev errs) (MkModule d comments b) [] errs.
Proof.
  intros (td & tb & Hd & Hb & -> & Hno) He Hn. rewrite length_app in Hn. rewrite <- app_assoc. enter @parse_module.
  pose proof (next_item_line _ (body_next _ _ _ Hb He)) as Hnext.
  eapply ends_bind; [apply reads_doc; [done|lia|done|]|].
  { intros Hd'. specialize (Hno Hd'). destruct tb as [|t tb]; [cbn; by rewrite He|done]. }
  intros prev1. eapply ends_bind; [|intros prev2; run].
  enter @parse_body. apply (reads_body b tb Hb n n []); [lia|lia|done].
Qed.
End Reads.

Section Modules.
Context {EX : Externals} {HP : Profile}.
Abbreviation lex := (TokenStream.parse_token_streams character is_id_start is_id_continue is_emoji).

(** C26: a source whose tokens are those of a module of the grammar, which are the
    statements of [stmt] (expressions that do not start with a sign, assignments to one or
    more names, augmented assignments, assertions and imports) on lines of their own and
    conditional statements with blocks of such statements, nested at will, behind an
    optional documentation string, parses to the module with exactly these statements in
    their order, this documentation and the comments of the source, without a diagnostic;
    the fuel is linear in the number of tokens, and no fuel gives another result. *)
Theorem module_src_parsed src start_pos toks ts eof comments d b :
  lex src start_pos = Ok (toks, []) → split_token_stream toks = (ts ++ [eof], comments) →
  kind eof = Eof → module_of d b ts →
  parse_module_src (2 * length ts + 2) src start_pos = Some (Ok (MkModule d comments b, [])) ∧
  ∀ fuel r, parse_module_src fuel src start_pos = Some r → r = Ok (MkModule d comments b, []).
Proof.
  intros Hlex Hsplit He Hm.
  assert (parse_module_src (2 * length ts + 2) src start_pos = Some (Ok (MkModule d comments b, []))) as Heq.
  { unfold parse_module_src, run_src. rewrite Hlex. unfold new. rewrite Hsplit.
    rewrite ParserSpec.new_at by (by destruct ts).
    destruct (reads_module d b ts comments dummy [] eof (2 * length ts + 2) Hm He (le_n _)) as [prev' E].
    cbn [fmap list_fmap rev]. by rewrite E. }
  split; [done|]. intros fuel r Hfuel.
  refine (mono_unique (λ n, parse_module_src n src start_pos) _ _ _ _ _ Hfuel Heq).
  intros n n' r0. apply parse_module_src_mono.
Qed.
End Modules.

(** ** A sample module *)

Import ParserSpec.Sample.

Module Sample.
Definition quotes : Symbol := [34; 34; 34]%Z.
Definition source : Symbol :=
  quotes ++ intern "about" ++ quotes ++ [10%Z] ++
  lines ["import .a.b as c"; "import d"; "x = y.z = 1 + c"; "# half"; "x += 2"; ""; "assert x > 1 if y";
         "if x:"; "    f(x)"; ""; "    if y:"; "        y = 1"; "elif c:"; "    x = 2"; "else:"; "    x = 3"; "c"].
Definition lexed_source : list Token := Eval vm_compute in lexed source.
Definition split : list Token * list Symbol := Eval vm_compute in split_token_stream lexed_source.
Definition tok (n : nat) : Token := nth n split.1 dummy.
Definition seg (n k : nat) : list Token := firstn k (skipn n split.1).
Definition statements : list Stmt :=
  [SImport (intern ".a.b") (intern "c") (Some (intern "c")); SImport (intern "d") (intern "d") None;
   SAssign [MkTarget (intern "x") []; MkTarget (intern "y") [Member (intern "z")]]
     (Binary (num 1) Add (id "c")) None;
   SAugAssign (MkTarget (intern "x") []) AAdd (num 2);
   SAssert (Compare (id "x") [CGt] [num 1]) (Some (id "y")) None;
   SIf (id "x")
     [SExpr [Call (MkCall (id "f") [id "x"] [])];
      SIf (id "y") [SAssign [MkTarget (intern "y") []] (num 1) None] []]
     [SIf (id "c") [SAssign [MkTarget (intern "x") []] (num 2) None]
        [SAssign [MkTarget (intern "x") []] (num 3) None]];
   SExpr [id "c"]].

Lemma name_one t s : kind t = Ident (intern s) → names [intern s] [t].
Proof. intros H. by apply names_of; [|apply dotted_nil]. Qed.
Lemma id_one k t s : kind t = Ident (intern s) → keyword (intern s) = false → simple k (id s) [t].
Proof. intros H Hs. eapply simple_unary, unary_primary, primary_names; [by apply name_one|done]. Qed.
Lemma num_one k t lk z :
  kind t = Literal lk → lit_kind lk = Integer → suffix lk = None →
  IntLit.bytes_to_int trim parse_bytes (symbol lk) 0 = Ok (Some z) → simple k (num z) [t].
Proof.
  intros H Hi Hs Hz. apply simple_operand, operand_literal. rewrite H.
  pose proof (literal_int lk z Hi Hz) as Hl. by rewrite Hs in Hl.
Qed.
Lemma line s ts nls b rest : stmt s ts → nls ≠ [] → newlines nls → body b rest → body (s :: b) (ts ++ nls ++ rest).
Proof. intros Hs Hne Hn Hb. rewrite app_assoc. by apply body_cons; [apply item_line|]. Qed.
Lemma one_line s ts nl b rest : stmt s ts → kind nl = Newline → body b rest → body (s :: b) (ts ++ [nl] ++ rest).
Proof. intros Hs Hn Hb. apply line; [done|done|by apply Forall_singleton|done]. Qed.
Lemma id_test t s : kind t = Ident (intern s) → keyword (intern s) = false → test (id s) [t].
Proof. intros. by apply test_simple, id_one. Qed.
(** [x = z] *)
Lemma assign_num t a v x lk z :
  kind t = Ident (intern x) → keyword (intern x) = false → kind a = Assign →
  kind v = Literal lk → lit_kind lk = Integer → suffix lk = None →
  IntLit.bytes_to_int trim parse_bytes (symbol lk) 0 = Ok (Some z) →
  stmt (SAssign [MkTarget (intern x) []] (num z) None) [t; a; v].
Proof.
  intros Ht Hx Ha Hv Hi Hs Hz. apply (stmt_assign [intern x] [t] [] (num z) [a; v]); [by apply name_one|done|].
  apply (values_last a _ [v]); [done|]. by eapply test_simple, num_one.
Qed.
(** A block of lines between its indentation and its end. *)
Lemma a_block nl o b ts d :
  kind nl = Newline → kind o = INDENT → body b ts → kind d = DEDENT → block b ([nl] ++ o :: ts ++ [d]).
Proof. intros. apply block_of; [done|by apply Forall_singleton|done|done|done|apply Forall_nil_2]. Qed.

Lemma imports_source rest b : body b rest →
  body (take 2 statements ++ b) (seg 2 11 ++ rest).
Proof.
  intros Hb. apply (one_line _ (seg 2 7) (tok 9) _ (seg 10 3 ++ rest)); [|done|].
  { apply (stmt_import_as (tok 2) [] (seg 3 1) [intern "a"; intern "b"] (seg 4 3) (tok 7) (intern "c") (tok 8));
      [done|constructor|by repeat constructor| |done|done].
    apply names_of; [done|]. apply dotted_cons; [done|done|constructor]. }
  apply (one_line _ (seg 10 2) (tok 12) _ rest); [|done|done].
  apply (stmt_import (tok 10) [] [] [intern "d"] (seg 11 1)); [done|constructor|constructor|by apply name_one].
Qed.
Lemma assignments_source rest b : body b rest →
  body (take 3 (drop 2 statements) ++ b) (seg 13 23 ++ rest).
Proof.
  intros Hb. apply (line _ (seg 13 9) (seg 22 2) _ (seg 24 12 ++ rest)); [|done|by repeat constructor|].
  { apply (stmt_assign [intern "x"] (seg 13 1) [[intern "y"; intern "z"]] _ (seg 14 8)); [by apply name_one|done|].
    apply (values_cons (tok 14) _ (seg 15 3) _ _ (seg 18 4)); [done| |done|].
    { apply names_of; [done|]. apply dotted_cons; [done|done|constructor]. }
    apply (values_last (tok 18) _ (seg 19 3)); [done|]. apply test_simple.
    apply (simple_binary 1 _ (seg 19 1) Add (tok 20) _ (seg 21 1)); [cbn; lia|by eapply num_one|done|by apply id_one]. }
  apply (line _ (seg 24 3) (seg 27 2) _ (seg 29 7 ++ rest)); [|done|by repeat constructor|].
  { apply (stmt_aug [intern "x"] (seg 24 1) (tok 25) Plus _ (seg 26 1)); [by apply name_one|done|done|].
    by eapply test_simple, num_one. }
  apply (one_line _ (seg 29 6) (tok 35) _ rest); [|done|done].
  apply (stmt_assert (tok 29) _ (seg 30 3) _ (seg 33 2) _ []); [done| | |constructor].
  - apply (simple_compare 1 _ (seg 30 1) _ _ (seg 31 2)); [by apply id_one|].
    apply (chain_one 7 1 CGt (seg 31 1) _ (seg 32 1)); [cbn; lia|done|done| |done]. by eapply num_one.
  - apply (part_some _ _ (tok 33) _ (seg 34 1)); [done|by apply id_one].
Qed.
Lemma inner_source : item (SIf (id "y") [SAssign [MkTarget (intern "y") []] (num 1) None] []) (seg 47 10).
Proof.
  apply (item_if (tok 47) _ (seg 48 1) (tok 49) _ (seg 50 7) [] [] [] []);
    [done|by apply id_test|done| |constructor|constructor].
  apply (a_block (tok 50) (tok 51) _ (seg 52 4) (tok 56)); [done|done| |done].
  apply (one_line _ (seg 52 3) (tok 55) _ []); [by eapply assign_num|done|constructor].
Qed.
Lemma if_source : item (nth 5 statements (SExpr [])) (seg 36 41).
Proof.
  apply (item_if (tok 36) _ (seg 37 1) (tok 38) _ (seg 39 19)
    [(id "c", [SAssign [MkTarget (intern "x") []] (num 2) None])] (seg 58 10)
    [SAssign [MkTarget (intern "x") []] (num 3) None] (seg 68 9)); [done|by apply id_test|done|..].
  - apply (a_block (tok 39) (tok 40) _ (seg 41 16) (tok 57)); [done|done| |done].
    apply (line _ (seg 41 4) (seg 45 2) _ (seg 47 10)); [|done|by repeat constructor|].
    { apply stmt_expr; [|done]. apply test_simple, simple_operand.
      apply (operand_call _ (seg 41 1) (tok 42) _ _ (seg 43 1) (tok 44)); [by apply name_one|done|done| |done].
      by apply arguments_last, id_test. }
    apply (body_cons _ (seg 47 10) _ []); [exact inner_source|constructor].
  - apply (elifs_cons (tok 58) _ (seg 59 1) (tok 60) _ (seg 61 7) _ []); [done|by apply id_test|done| |constructor].
    apply (a_block (tok 61) (tok 62) _ (seg 63 4) (tok 67)); [done|done| |done].
    apply (one_line _ (seg 63 3) (tok 66) _ []); [by eapply assign_num|done|constructor].
  - apply (otherwise_else (tok 68) (tok 69) _ (seg 70 7)); [done|done|].
    apply (a_block (tok 70) (tok 71) _ (seg 72 4) (tok 76)); [done|done| |done].
    apply (one_line _ (seg 72 3) (tok 75) _ []); [by eapply assign_num|done|constructor].
Qed.
Lemma statements_source : body statements (seg 2 77).
Proof.
  apply (imports_source (seg 13 66)), (assignments_source (seg 36 43)).
  apply (body_cons _ (seg 36 41) _ (seg 77 2)); [exact if_source|].
  apply (one_line _ (seg 77 1) (tok 78) _ []); [|done|constructor].
  apply stmt_expr; [by apply id_test|done].
Qed.
End Sample.

Lemma module_src_parsed_witness :
  parse_module_src 160 Sample.source 0 =
    Some (Ok (MkModule (Some (Sample.quotes ++ intern "about" ++ Sample.quotes)) [intern "# half"] Sample.statements, [])).
Proof.
  apply (module_src_parsed Sample.source 0 Sample.lexed_source (Sample.seg 0 79) (Sample.tok 79)
    [intern "# half"] (Some (Sample.quotes ++ intern "about" ++ Sample.quotes)) Sample.statements);
    [vm_compute; reflexivity|vm_compute; reflexivity|reflexivity|].
  exists (Sample.seg 0 2), (Sample.seg 2 77).
  split; [|split; [exact Sample.statements_source|split; [reflexivity|discriminate]]].
  apply (doc_some (Sample.tok 0) (MkLit (Str true false) (intern "about") None
    (Some (Sample.quotes ++ intern "about" ++ Sample.quotes))) false (Sample.seg 1 1));
    [reflexivity|reflexivity|reflexivity|].
  apply Forall_singleton. reflexivity.
Defined.

(** A line may not start with a sign: it is reported and left out. *)
Example sign_dropped :
  parse_module_src 30 (lines ["-1"]) 0 =
    Some (Ok (MkModule None [] [SExpr [num 1]], [SpanError (UnexpectedToken (intern "-")) (0%Z, 1%Z) None])).
Proof. vm_compute. reflexivity. Qed.
