(* ===== verification/TyCalc.v ===== *)
(** * The types of operators

    [crates/sema/src/ty/context.rs] (the widening of literal types and the
    tests of the kinds of a union) and [crates/sema/src/resolver/calculation.rs]
    (the types that the resolver gives to the operators, with its diagnostics).

    The resolver allocates the cells of the types that it makes and records
    diagnostics: a computation passes on the next free address and the errors so
    far, and may panic in a downcast. *)

From stdpp Require Import base tactics list strings numbers pretty.
From Stdlib Require Import ZArith Lia.
From S2P Require Import Prelude IndexMap Str Float64 SemaTypes.
From S2P Require Ast.
Local Open Scope Z_scope.
Local Set Warnings "-clear-no-such-hyp".

(** ** Computations of the resolver *)

(** The code of a diagnostic, of which the resolver of expressions uses two. *)
Inductive ErrorKind := TypeError | CompileError.
#[export] Instance ErrorKind_eq_dec : EqDecision ErrorKind.
Proof. solve_decision. Defined.
(** The diagnostics are an [IndexSet]: the code, the message and the range of each, in
    the order in which they were first reported. *)
Record TyState := MkTyState { next_addr : positive; type_errors : list (ErrorKind * string * Range) }.
Definition TyM (A : Type) : Type := TyState → Res (A * TyState).

#[export] Instance TyM_ret : MRet TyM := λ A a st, Ok (a, st).
#[export] Instance TyM_bind : MBind TyM := λ A B f m st,
  match m st with Ok (a, st) => f a st | Panic p => Panic p end.

(** [Arc::new]: the address of a new cell. *)
Definition alloc : TyM positive := λ st,
  Ok (next_addr st, MkTyState (Pos.succ (next_addr st)) (type_errors st)).
Definition lift {A} (r : Res A) : TyM A := λ st,
  match r with Ok a => Ok (a, st) | Panic p => Panic p end.
Definition add_diagnostic (code : ErrorKind) (msg : string) (range : Range) : TyM unit := λ st,
  Ok (tt, MkTyState (next_addr st)
            (if decide ((code, msg, range) ∈ type_errors st) then type_errors st
             else type_errors st ++ [(code, msg, range)])).
Definition add_type_error : string → Range → TyM unit := add_diagnostic TypeError.

Fixpoint map_ty {A B} (f : A → TyM B) (l : list A) : TyM (list B) :=
  match l with
  | [] => mret []
  | x :: l => y ← f x; ys ← map_ty f l; mret (y :: ys)
  end.

(** ** The context *)

(** The cells of the builtin types, shared by every use. *)
Record BuiltinTypes := MkBuiltinTypes {
  ty_any : TypeRef; ty_bool : TypeRef; ty_int : TypeRef; ty_float : TypeRef;
  ty_str : TypeRef; ty_void : TypeRef; ty_none : TypeRef }.

(** [TypeContext::new], the seven cells allocated from [a] on. *)
Definition new_builtin_types (a : positive) : BuiltinTypes :=
  MkBuiltinTypes (any_ref a) (bool_ref (a + 1)) (int_ref (a + 2)) (float_ref (a + 3))
    (str_ref (a + 4)) (void_ref (a + 5)) (none_ref (a + 6)).

(** Is the type, or is every member of the union, of one of the kinds. *)
Definition is_kind_type_or_kind_union_type (ty : TypeRef) (flags : list Z) : bool :=
  match kind ty with
  | TUnion types => forallb (λ ty, existsb (contains_flags ty) flags) types
  | _ => existsb (contains_flags ty) flags
  end.
Definition is_number_type_or_number_union_type (ty : TypeRef) : bool :=
  is_kind_type_or_kind_union_type ty [INT; FLOAT].
Definition is_number_bool_type_or_number_bool_union_type (ty : TypeRef) : bool :=
  is_kind_type_or_kind_union_type ty [INT; FLOAT; BOOL].
Definition is_config_type_or_config_union_type (ty : TypeRef) : bool :=
  is_kind_type_or_kind_union_type ty [DICT; SCHEMA].
Definition is_str_type_or_str_union_type (ty : TypeRef) : bool :=
  is_kind_type_or_kind_union_type ty [STR].
Definition is_primitive_type_or_primitive_union_type (ty : TypeRef) : bool :=
  is_kind_type_or_kind_union_type ty [INT; FLOAT; BOOL; STR].
Definition is_mul_val_type_or_mul_val_union_type (ty : TypeRef) : bool :=
  is_kind_type_or_kind_union_type ty [INT; FLOAT; STR; LIST].

Definition ZERO_LIT_TYPES : list TypeRef := [int_lit 1 0; float_lit 1 f_zero; bool_lit 1 false].
Definition is_zero_lit (t : TypeRef) : bool := existsb (λ z, type_eq z t) ZERO_LIT_TYPES.

Definition DIV_OR_MOD_ZERO_MSG : string := "integer division or modulo by zero".

Section Resolver.
Variable f64_to_string : f64 → string.
Variable set_order : list positive → list positive.
Variable ctx : BuiltinTypes.

(** [Type::full_ty_str]: the printed form with the packages of schemas. *)
Fixpoint full_ty_string (t : TypeRef) : string :=
  match t with
  | Arc _ k _ _ =>
      match k with
      | TList item_ty => "[" +:+ full_ty_string item_ty +:+ "]"
      | TDict (MkDictType key_ty val_ty _) =>
          "{" +:+ full_ty_string key_ty +:+ ":" +:+ full_ty_string val_ty +:+ "}"
      | TUnion types => String.concat " | " (map full_ty_string types)
      | TSchema s => schema_full_ty_str s
      | _ => SemaTypes.ty_str f64_to_string t
      end
  end.

Definition sup_ty (types : list TypeRef) : TyM TypeRef :=
  a ← alloc; lift (sup f64_to_string set_order a types).
Definition list_ref (item_ty : TypeRef) : TyM TypeRef := a ← alloc; mret (list_of a item_ty).

Fixpoint infer_to_variable_type (ty : TypeRef) : TyM TypeRef :=
  match ty with
  | Arc _ k _ _ =>
      match k with
      | TNone => mret (ty_any ctx)
      | TBoolLit _ => mret (ty_bool ctx)
      | TIntLit _ => mret (ty_int ctx)
      | TFloatLit _ => mret (ty_float ctx)
      | TStrLit _ => mret (ty_str ctx)
      | TList item_ty => item_ty ← infer_to_variable_type item_ty; list_ref item_ty
      | TDict (MkDictType key_ty val_ty attrs) =>
          key_ty ← infer_to_variable_type key_ty;
          val_ty ← infer_to_variable_type val_ty;
          a ← alloc; mret (dict_with_attrs a key_ty val_ty attrs)
      | TUnion types => types ← map_ty infer_to_variable_type types; sup_ty types
      | _ => mret ty
      end
  end.
Definition literal_union_type_to_variable_type (ty : TypeRef) : TyM TypeRef :=
  if is_union ty then infer_to_variable_type ty else mret ty.

(** [Arc::new(Type::FLOAT)] or [Arc::new(Type::INT)] *)
Definition number_binary (left right : TypeRef) : TyM TypeRef :=
  a ← alloc; mret (if is_float left || is_float right then float_ref a else int_ref a).

Definition both_numbers (t1 t2 : TypeRef) : bool := is_number t1 && is_number t2.

(** The flag that the operands are supported, and the type. *)
Definition supported (m : TyM TypeRef) : TyM (bool * TypeRef) := t ← m; mret (true, t).
Definition unsupported : TyM (bool * TypeRef) := mret (false, ty_any ctx).

Definition list_sup (t1 t2 : TypeRef) : TyM TypeRef :=
  i1 ← lift (list_item_ty f64_to_string t1);
  i2 ← lift (list_item_ty f64_to_string t2);
  i ← sup_ty [i1; i2];
  list_ref i.
Definition check_zero (t2 : TypeRef) (range : Range) : TyM unit :=
  if is_zero_lit t2 then add_type_error DIV_OR_MOD_ZERO_MSG range else mret tt.

(** The attributes of the first dict, then those of the second. *)
Definition union_attrs (attrs1 attrs2 : IndexMap string (Attr TypeRef)) : IndexMap string (Attr TypeRef) :=
  fold_left (λ m e, map_insert e.1 e.2 m) attrs2 (fold_left (λ m e, map_insert e.1 e.2 m) attrs1 []).

Definition bit_or_type (t1 t2 : TypeRef) : TyM (bool * TypeRef) :=
  if is_int t1 && is_int t2 then mret (true, ty_int ctx)
  else if is_none t1 then mret (true, t2)
  else if is_none t2 then mret (true, t1)
  else if is_list t1 && is_list t2 then supported (list_sup t1 t2)
  else match kind t1, kind t2 with
       | TDict (MkDictType k1 v1 attrs1), TDict (MkDictType k2 v2 attrs2) =>
           k ← sup_ty [k1; k2];
           v ← sup_ty [v1; v2];
           a ← alloc;
           mret (true, dict_with_attrs a k v (union_attrs attrs1 attrs2))
       | _, _ =>
           if is_schema t1 && (is_schema t2 || is_dict t2) then mret (true, t1) else unsupported
       end.

(** The operator table, on widened operands. *)
Definition binary_table (t1 t2 : TypeRef) (op : Ast.BinOp) (range : Range) : TyM (bool * TypeRef) :=
  match op with
  | Ast.Add =>
      if both_numbers t1 t2 then supported (number_binary t1 t2)
      else if is_str t1 && is_str t2 then mret (true, ty_str ctx)
      else if is_list t1 && is_list t2 then supported (list_sup t1 t2)
      else unsupported
  | Ast.Sub | Ast.Pow =>
      if both_numbers t1 t2 then supported (number_binary t1 t2) else unsupported
  | Ast.Mul =>
      if both_numbers t1 t2 then supported (number_binary t1 t2)
      else if is_int t1 && is_mul_val_type_or_mul_val_union_type t2 then mret (true, t2)
      else if is_mul_val_type_or_mul_val_union_type t1 && is_int t2 then mret (true, t1)
      else unsupported
  | Ast.Div | Ast.FloorDiv =>
      if both_numbers t1 t2 then check_zero t2 range;; supported (number_binary t1 t2)
      else unsupported
  | Ast.Mod =>
      if both_numbers t1 t2 then check_zero t2 range;; mret (true, ty_int ctx) else unsupported
  | Ast.LShift | Ast.RShift | Ast.BitXor | Ast.BitAnd =>
      if is_int t1 && is_int t2 then mret (true, ty_int ctx) else unsupported
  | Ast.BitOr => bit_or_type t1 t2
  | Ast.And => mret (true, ty_bool ctx)
  | Ast.Or => supported (sup_ty [t1; t2])
  | Ast.As =>
      t ← infer_to_variable_type t1;
      b ← lift (is_upper_bound f64_to_string t t2);
      (if (b : bool) then mret tt
       else add_type_error
              ("Conversion of type '" +:+ full_ty_string t1 +:+ "' to type '" +:+ full_ty_string t2 +:+
               "' may be a mistake because neither type sufficiently overlaps with the other") range);;
      mret (true, t2)
  end.

Definition unsupported_operands (symbol : string) (left right : TypeRef) : string :=
  "unsupported operand type(s) for " +:+ symbol +:+ ": '" +:+ SemaTypes.ty_str f64_to_string left +:+
  "' and '" +:+ SemaTypes.ty_str f64_to_string right +:+ "'".

Definition binary (left right : TypeRef) (op : Ast.BinOp) (range : Range) : TyM TypeRef :=
  t1 ← literal_union_type_to_variable_type left;
  t2 ← literal_union_type_to_variable_type right;
  if has_any_type [t1; t2] then mret (ty_any ctx)
  else
    '(result, return_ty) ← binary_table t1 t2 op range;
    (if (result : bool) then mret tt
     else add_type_error (unsupported_operands (Ast.BinOp_symbol op) left right) range);;
    mret return_ty.

Definition UnaryOp_symbol (op : Ast.UnaryOp) : string :=
  match op with Ast.UAdd => "+" | Ast.USub => "-" | Ast.Invert => "~" | Ast.Not => "not" end.

Definition unary (ty : TypeRef) (op : Ast.UnaryOp) (range : Range) : TyM TypeRef :=
  if has_any_type [ty] then mret (ty_any ctx)
  else
    var_ty ← literal_union_type_to_variable_type ty;
    if match op with
       | Ast.UAdd | Ast.USub => is_number var_ty
       | Ast.Invert => is_int var_ty || is_bool var_ty
       | Ast.Not => true
       end
    then mret var_ty
    else
      add_type_error ("bad operand type for unary " +:+ UnaryOp_symbol op +:+ ": '" +:+
                      SemaTypes.ty_str f64_to_string ty +:+ "'") range;;
      mret (ty_any ctx).

Definition is_in (op : Ast.CmpOp) : bool := match op with Ast.CIn | Ast.CNotIn => true | _ => false end.
Definition is_eq (op : Ast.CmpOp) : bool := match op with Ast.CEq => true | _ => false end.
Definition is_eq_or_ne (op : Ast.CmpOp) : bool :=
  match op with Ast.CEq | Ast.CNotEq => true | _ => false end.
Definition is_relation (op : Ast.CmpOp) : bool :=
  match op with
  | Ast.CEq | Ast.CNotEq | Ast.CIs | Ast.CIsNot | Ast.CNot => true
  | _ => false
  end.

(** The operands that a comparison takes. *)
Definition comparable (t1 t2 : TypeRef) (op : Ast.CmpOp) : bool :=
  (is_number_bool_type_or_number_bool_union_type t1 &&
   is_number_bool_type_or_number_bool_union_type t2 && negb (is_in op)) ||
  (is_primitive_type_or_primitive_union_type t1 && is_primitive_type_or_primitive_union_type t2 &&
   is_eq_or_ne op) ||
  (is_eq op && is_list t1 && is_list t2) ||
  (is_eq op && is_dict_or_schema t1 && is_dict_or_schema t2) ||
  (is_in op && is_iterable t2) ||
  ((is_none t1 || is_none t2) && is_relation op).

Definition compare (left right : TypeRef) (op : Ast.CmpOp) (range : Range) : TyM TypeRef :=
  t1 ← literal_union_type_to_variable_type left;
  t2 ← literal_union_type_to_variable_type right;
  if has_any_type [t1; t2] then mret (ty_any ctx)
  else if comparable t1 t2 op then mret (ty_bool ctx)
  else
    add_type_error (unsupported_operands (Ast.CmpOp_symbol op) t1 t2) range;;
    mret (ty_any ctx).

End Resolver.
