(* ===== verification/TypeSound.v ===== *)
(** * Static types against runtime values

    What the types of the checker say about the values of the runtime, and that
    assignability, suprema, the widening of literals and the operator tables of
    the resolver agree with the operations of the runtime. *)

From stdpp Require Import base tactics list strings numbers pretty gmap.
From Stdlib Require Import ZArith Lia Ascii.
From S2P Require Import Prelude MachineInt IndexMap Str Float64 Units SemaTypes TyCalc.
From S2P Require Value.
From S2P Require Ast DictOps.
Local Open Scope Z_scope.
Local Set Warnings "-clear-no-such-hyp".

Abbreviation Val := Value.ValueRef.

(** ** The values of a type *)

Section Inhabits.
(** The full names of the bases of the schema of a full name, itself included. *)
Variable lineage : string → list string.

Definition value_name (s : Value.SchemaValue Val) : string :=
  full_ty_str (Value.schema_pkgpath s) (Value.schema_name s).

(** The values of a type, a specification.  [None] and [Undefined] are in every type.
    A literal type stands for the type of its literal; integers and booleans are in
    [float], as the checker assigns them; a schema definition is a function, which the
    checker does not tell from an instance. *)
Fixpoint base_inhabits (t : TypeRef) (v : Val) {struct t} : bool :=
  Value.is_none_or_undefined v ||
  match t with
  | Arc _ k _ _ =>
      match k with
      | TAny => true
      | TBool | TBoolLit _ => Value.is_bool v
      | TInt | TIntLit _ => Value.is_int v
      | TFloat | TFloatLit _ => Value.is_number v || Value.is_bool v
      | TStr | TStrLit _ => Value.is_str v
      | TList item_ty =>
          match Value.rc v with
          | Value.list_value l => forallb (base_inhabits item_ty) (Value.list_values l)
          | _ => false
          end
      | TDict (MkDictType _ val_ty _) =>
          match Value.rc v with
          | Value.dict_value d => forallb (λ e, base_inhabits val_ty e.2) (Value.values d)
          | _ => false
          end
      | TUnion types => existsb (λ t, base_inhabits t v) types
      | TSchema s =>
          match Value.rc v with
          | Value.schema_value sv => bool_decide (schema_full_ty_str s ∈ lineage (value_name sv))
          | Value.func_value _ => true
          | _ => false
          end
      | TNumberMultiplier _ => Value.is_unit v
      | TFunction _ => Value.is_func v
      | TNone | TVoid | TModule _ | TNamed _ => false
      end
  end.

(** The text of a string literal, in which [subsume] looks for the names of the
    primitive types, contains none of them. *)
Definition plain_str (v : string) : bool :=
  forallb (λ name, negb (str_contains name (tagged STR_TYPE_STR v)))
    [INT_TYPE_STR; FLOAT_TYPE_STR; BOOL_TYPE_STR].
(** Well-formed types of plain literals and consistent schemas, down to the types
    that values are checked against. *)
Fixpoint plain (t : TypeRef) : bool :=
  match t with
  | Arc _ k _ _ =>
      match k with
      | TStrLit v => plain_str v
      | TSchema s => consistent lineage s
      | TList item_ty => plain item_ty
      | TDict (MkDictType key_ty val_ty _) => plain key_ty && plain val_ty
      | TUnion types => forallb plain types
      | _ => true
      end
  end.
Definition sound_type (t : TypeRef) : bool := wf_type t && plain t.
Lemma sound_type_spec t : sound_type t = true ↔ wf_type t = true ∧ plain t = true.
Proof. apply andb_true_iff. Qed.

Lemma sound_list ad i al fl : sound_type (Arc ad (TList i) al fl) = true → sound_type i = true.
Proof. rewrite !sound_type_spec. intros [W P]. split; [by eapply wft_list|done]. Qed.
Lemma sound_dict ad k v at_ al fl :
  sound_type (Arc ad (TDict (MkDictType k v at_)) al fl) = true →
  sound_type k = true ∧ sound_type v = true.
Proof.
  rewrite !sound_type_spec. intros [W%wft_dict P]. cbn [plain] in P. apply andb_true_iff in P. naive_solver.
Qed.
Lemma sound_union ad ts al fl t :
  sound_type (Arc ad (TUnion ts) al fl) = true → t ∈ ts → sound_type t = true.
Proof.
  rewrite !sound_type_spec. intros [W P] Ht. split; [by eapply wft_union|].
  cbn [plain] in P. rewrite forallb_forall in P. by apply P, list_elem_of_In.
Qed.
Lemma sound_leaf t u : sound_type t = true → u ∈ leaves t → sound_type u = true.
Proof.
  revert u. induction t as [t IH] using type_size_ind. intros u Ht Hu.
  destruct t as [ad [| | | | | | | | | | | |ts| | | | | |] al fl]; cbn [leaves] in Hu;
    try (apply list_elem_of_singleton in Hu as ->; done).
  - apply list_elem_of_In, in_concat in Hu as (l & Hl & Hu%list_elem_of_In).
    apply in_map_iff in Hl as (t & <- & Hin%list_elem_of_In).
    apply (IH t); [by apply size_union|by eapply sound_union|done].
  - by apply elem_of_nil in Hu.
Qed.

Lemma inhabits_none t v : Value.is_none_or_undefined v = true → base_inhabits t v = true.
Proof. intros H. destruct t. cbn [base_inhabits]. by rewrite H. Qed.
Lemma inhabits_union ad ts al fl v :
  base_inhabits (Arc ad (TUnion ts) al fl) v = true ↔
  Value.is_none_or_undefined v = true ∨ ∃ t, t ∈ ts ∧ base_inhabits t v = true.
Proof.
  cbn [base_inhabits]. rewrite orb_true_iff, existsb_exists. split.
  - intros [?|(t & Ht%list_elem_of_In & ?)]; eauto.
  - intros [?|(t & Ht%list_elem_of_In & ?)]; eauto.
Qed.
(** A value of a type is in one of its leaves; every leaf is part of the type. *)
Lemma inhabits_leaves t v : wf_type t = true → Value.is_none_or_undefined v = false →
  base_inhabits t v = true ↔ ∃ u, u ∈ leaves t ∧ base_inhabits u v = true.
Proof.
  induction t as [t IH] using type_size_ind. intros Wt Hv.
  destruct t as [ad [| | | | | | | | | | | |ts| | | | | |] al fl]; cbn [leaves];
    try (setoid_rewrite list_elem_of_singleton; naive_solver).
  - rewrite inhabits_union. split.
    + intros [?|(t & Ht & Hi)]; [congruence|].
      apply IH in Hi as (u & Hu & Hi); [|by apply size_union|by eapply wft_union|done].
      exists u. split; [|done]. apply list_elem_of_In, in_concat. exists (leaves t).
      split; [apply in_map, list_elem_of_In|apply list_elem_of_In]; done.
    + intros (u & Hu & Hi). right. apply list_elem_of_In, in_concat in Hu as (l & Hl & Hu%list_elem_of_In).
      apply in_map_iff in Hl as (t & <- & Ht%list_elem_of_In). exists t. split; [done|].
      apply IH; [by apply size_union|by eapply wft_union|done|eauto].
  - cbn [base_inhabits]. rewrite Hv. setoid_rewrite elem_of_nil. naive_solver.
Qed.
End Inhabits.

(** ** Texts of literals *)

Fixpoint has_char (a : Ascii.ascii) (s : string) : bool :=
  match s with EmptyString => false | String b s => Ascii.eqb a b || has_char a s end.
Lemma has_char_app a s t : has_char a (s +:+ t) = has_char a s || has_char a t.
Proof. induction s as [|b s IH]; [done|]. simpl. by rewrite IH, orb_assoc. Qed.
Lemma contains_char a p s : str_contains (String a p) s = true → has_char a s = true.
Proof.
  rewrite str_contains_spec. intros (u & v & ->). rewrite has_char_app. simpl.
  by rewrite Ascii.eqb_refl, orb_true_r.
Qed.
Lemma digits_no_char a s : DictOps.digit_of a = None → all_digits s = true → has_char a s = false.
Proof.
  intros Ha. induction s as [|b s IH]; [done|]. simpl. intros [Hb Hs]%andb_true_iff.
  rewrite IH, orb_false_r by done. apply Ascii.eqb_neq. intros <-. by rewrite Ha in Hb.
Qed.
Lemma pretty_no_char a (z : Z) : DictOps.digit_of a = None → a ≠ "-"%char → has_char a (pretty z) = false.
Proof.
  intros Ha Hm. destruct z as [|x|x].
  - apply digits_no_char; done.
  - apply digits_no_char; [done|]. apply (pretty_N_digits (N.pos x)).
  - change (pretty (Z.neg x)) with ("-" +:+ pretty (N.pos x)). rewrite has_char_app.
    rewrite (digits_no_char a (pretty (N.pos x))); [|done|by apply pretty_N_digits]. simpl.
    by rewrite (proj2 (Ascii.eqb_neq _ _) Hm).
Qed.
(** The text of an integer literal contains only the name of its own type. *)
Lemma int_text (v : Z) name :
  name ∈ [BOOL_TYPE_STR; STR_TYPE_STR] → str_contains name (tagged INT_TYPE_STR (pretty v)) = false.
Proof.
  intros Hn. apply not_true_is_false.
  assert (∀ a p, DictOps.digit_of a = None → a ≠ "-"%char → has_char a (INT_TYPE_STR +:+ "()") = false →
    str_contains (String a p) (tagged INT_TYPE_STR (pretty v)) ≠ true) as H.
  { intros a p Ha Hm Ht H%contains_char. unfold tagged, INT_TYPE_STR in *. simpl in H, Ht.
    rewrite has_char_app, pretty_no_char in H by done. simpl in H.
    repeat (destruct (Ascii.eqb a _); [done|]). done. }
  repeat (apply elem_of_cons in Hn as [->|Hn]); [by apply H..|by apply elem_of_nil in Hn].
Qed.

(** The cells allocated so far.  Two references to one address are one cell. *)
Abbreviation heap := (gmap positive TypeRef).

(** ** Assignability is inclusion *)

Section Sound.
Variable f64_to_string : f64 → string.
Variable lineage : string → list string.
Abbreviation le := (rel f64_to_string).
Abbreviation inhab := (base_inhabits lineage).
Abbreviation sound := (sound_type lineage).
Hypothesis float_text : ∀ v name, name ∈ [INT_TYPE_STR; BOOL_TYPE_STR; STR_TYPE_STR] →
  str_contains name (tagged FLOAT_TYPE_STR (f64_to_string v)) = false.
Hypothesis lineage_trans : ∀ n n' n'', n' ∈ lineage n → n'' ∈ lineage n' → n'' ∈ lineage n.

Lemma inhabits_schema_le s s' n :
  consistent lineage s = true → is_sub_schema_of s s' = true →
  schema_full_ty_str s ∈ lineage n → schema_full_ty_str s' ∈ lineage n.
Proof using lineage_trans.
  rewrite is_sub_schema_of_spec, bool_decide_eq_true. intros [Hl _]%consistent_unfold Hin Hn.
  rewrite Hl in Hin. by apply (lineage_trans _ _ _ Hn).
Qed.

Lemma rel_sound_leaf a b v :
  sound a = true → sound b = true → leaf a = true → leaf b = true →
  Value.is_none_or_undefined v = false →
  (∀ a' b' v', sound a' = true → sound b' = true →
     (type_size a' + type_size b' < type_size a + type_size b)%nat →
     le a' b' false = true → inhab a' v' = true → inhab b' v' = true) →
  le a b false = true → inhab a v = true → inhab b v = true.
Proof using float_text lineage_trans.
  intros Sa Sb La Lb Hv IH.
  pose proof (proj1 (sound_type_spec _ _) Sa) as [Wa Pa]. pose proof (proj1 (sound_type_spec _ _) Sb) as [Wb Pb].
  rewrite rel_unfold by done. unfold rel_body.
  destruct a as [ad k al fl], b as [ad' k' al' fl'].
  unfold leaf in La, Lb. simpl kind in *.
  destruct k as [| | | | | | | | | |i|[dk dv dat]|ts|s|n|f| | |]; try discriminate La; clear La;
  destruct k' as [| | | | | | | | | |i'|[dk' dv' dat']|ts'|s'|n'|f'| | |]; try discriminate Lb; clear Lb;
  cbn [is_TAny is_TNone andb orb]; intros H1; try discriminate H1; cbn [base_inhabits]; rewrite Hv;
  cbn [orb]; intros Hi; try discriminate Hi; try exact Hi; try reflexivity.
  all: try (exfalso; unfold lit_body in H1; cbn [SemaTypes.ty_str] in H1;
            first [rewrite float_text in H1; [discriminate H1|] | rewrite int_text in H1; [discriminate H1|]];
            (by left) || (by right; left) || (by right; right; left)).
  all: try (exfalso; unfold lit_body in H1; cbn [SemaTypes.ty_str] in H1; by destruct v0).
  all: try (exfalso; cbn [plain] in Pa; unfold plain_str in Pa; rewrite forallb_forall in Pa;
            unfold lit_body in H1; cbn [SemaTypes.ty_str] in H1;
            match type of H1 with str_contains ?n _ = true =>
              specialize (Pa n); rewrite H1 in Pa; discriminate Pa; simpl; tauto end).
  all: try (unfold Value.is_int, Value.is_number, Value.is_bool, Value.is_float, Value.kind in *;
            destruct (Value.rc v); done || by rewrite ?orb_true_r).
  - destruct (Value.rc v); try done. rewrite forallb_forall in Hi |- *. intros x Hx.
    apply (IH i i' x); [by eapply sound_list|by eapply sound_list| |done|by apply Hi].
    rewrite !size_list. lia.
  - destruct (sound_dict _ _ _ _ _ _ _ Sa), (sound_dict _ _ _ _ _ _ _ Sb).
    apply andb_true_iff in H1 as [_ H1].
    destruct (Value.rc v); try done. rewrite forallb_forall in Hi |- *. intros x Hx.
    apply (IH dv dv' x.2); [done|done| |done|by apply Hi]. rewrite !size_dict. lia.
  - destruct (Value.rc v); try done. rewrite bool_decide_eq_true in Hi |- *.
    by apply (inhabits_schema_le s).
Qed.

(** Every value of a type that is assignable to another is a value of the other,
    the assignment of [any] to anything apart. *)
Lemma rel_sound a b v :
  sound a = true → sound b = true → le a b false = true → inhab a v = true → inhab b v = true.
Proof using float_text lineage_trans.
  remember (type_size a + type_size b)%nat as n eqn:En. revert a b v En.
  induction (lt_wf n) as [n _ IHn]. intros a b v -> Sa Sb H Hi.
  assert (∀ a' b' v', sound a' = true → sound b' = true →
     (type_size a' + type_size b' < type_size a + type_size b)%nat →
     le a' b' false = true → inhab a' v' = true → inhab b' v' = true) as IH.
  { intros a' b' v' ????. by eapply IHn. }
  clear IHn. pose proof (proj1 (sound_type_spec _ _) Sa) as [Wa Pa].
  pose proof (proj1 (sound_type_spec _ _) Sb) as [Wb Pb].
  destruct (Value.is_none_or_undefined v) eqn:Hv; [by apply inhabits_none|].
  destruct (is_TNone (kind a)) eqn:Na.
  { destruct a as [ad [] al fl]; try discriminate Na. cbn [base_inhabits] in Hi. by rewrite Hv in Hi. }
  destruct (is_TAny (kind b)) eqn:Ab.
  { destruct b as [bd [] bl bf]; try discriminate Ab. cbn [base_inhabits]. apply orb_true_r. }
  destruct (not_union a) eqn:Ua.
  2:{ destruct a as [ad [| | | | | | | | | | | |ts| | | | | |] al fl]; try discriminate Ua.
      rewrite le_union_l in H by done. rewrite forallb_forall in H.
      apply inhabits_union in Hi as [Hi|(t & Ht & Hi)]; [congruence|].
      apply (IH t b v); [by eapply sound_union|done| |by apply H, list_elem_of_In|done].
      pose proof (size_union ad ts al fl t Ht). lia. }
  destruct (not_union b) eqn:Ub.
  2:{ destruct b as [ad [| | | | | | | | | | | |ts| | | | | |] al fl]; try discriminate Ub.
      rewrite le_union_r in H; [|done..|by intros E; rewrite E in Na].
      apply existsb_exists in H as (t & Ht%list_elem_of_In & H). apply inhabits_union. right.
      exists t. split; [done|]. apply (IH a t v); [done|by eapply sound_union| |done|done].
      pose proof (size_union ad ts al fl t Ht). lia. }
  assert (leaf a = true ∨ kind a = TAny) as [La|Ka].
  { unfold leaf, not_union in *. destruct (kind a); try done; auto. }
  2:{ rewrite rel_unfold in H by done. unfold rel_body in H. rewrite Ka, Ab in H. unfold not_union in Ub.
      by destruct (kind b) as [| | | | | | | | | | |[]| | | | | | |]. }
  assert (leaf b = true ∨ kind b = TNone) as [Lb|Kb].
  { unfold leaf, not_union in *. destruct (kind b); try done; auto. }
  2:{ rewrite rel_unfold in H by done. unfold rel_body in H. rewrite Kb, Na in H. unfold not_union in Ua.
      by destruct (kind a) as [| | | | | | | | | | |[]| | | | | | |]. }
  by apply (rel_sound_leaf a b).
Qed.

(** [subsume], as the resolver calls it for unions and upper bounds. *)
Lemma subsume_inhabits a b v :
  sound a = true → sound b = true → subsume f64_to_string a b false = Ok true →
  inhab a v = true → inhab b v = true.
Proof using float_text lineage_trans.
  intros Sa Sb H. destruct (proj1 (sound_type_spec _ _) Sa), (proj1 (sound_type_spec _ _) Sb).
  rewrite subsume_rel in H by done. injection H as H. by apply rel_sound.
Qed.

(** ** Cells *)

(** The cells that a type is made of. *)
Fixpoint cells (t : TypeRef) : list TypeRef :=
  match t with
  | Arc a k al fl =>
      Arc a k al fl ::
      match k with
      | TList item_ty => cells item_ty
      | TDict (MkDictType key_ty val_ty _) => cells key_ty ++ cells val_ty
      | TUnion types => concat (map cells types)
      | _ => []
      end
  end.

Definition in_heap (h : heap) (t : TypeRef) : Prop := ∀ c, c ∈ cells t → h !! addr c = Some c.
Definition ok_state (h : heap) (st : TyState) : Prop :=
  ∀ a t, h !! a = Some t → (a < next_addr st)%positive.

Lemma cells_here t : t ∈ cells t.
Proof using. destruct t. by left. Qed.
Lemma cells_union t ts : t ∈ ts → ∀ c, c ∈ cells t → c ∈ concat (map cells ts).
Proof using.
  intros Ht c Hc. apply list_elem_of_In, in_concat. exists (cells t).
  split; [apply in_map|]; by apply list_elem_of_In.
Qed.
Lemma leaves_cells t u : u ∈ leaves t → ∀ c, c ∈ cells u → c ∈ cells t.
Proof using.
  revert u. induction t as [t IH] using type_size_ind. intros u Hu c Hc.
  destruct t as [ad [| | | | | | | | | | | |ts| | | | | |] al fl]; cbn [leaves] in Hu;
    try (apply list_elem_of_singleton in Hu as ->; done).
  - apply list_elem_of_In, in_concat in Hu as (l & Hl & Hu%list_elem_of_In).
    apply in_map_iff in Hl as (t & <- & Hin%list_elem_of_In). cbn [cells]. right.
    apply (cells_union t); [done|]. apply (IH t) with u; [by apply size_union|done..].
  - by apply elem_of_nil in Hu.
Qed.
Lemma in_heap_mono h h' t : h ⊆ h' → in_heap h t → in_heap h' t.
Proof using. intros Hs Ht c Hc. eapply lookup_weaken; [by apply Ht|done]. Qed.
Lemma in_heap_leaf h t u : in_heap h t → u ∈ leaves t → in_heap h u.
Proof using. intros Ht Hu c Hc. by apply Ht, (leaves_cells t u). Qed.
Lemma in_heap_new h h' a k al fl :
  h ⊆ h' → h' !! a = Some (Arc a k al fl) →
  (∀ c, c ∈ tail (cells (Arc a k al fl)) → h !! addr c = Some c) → in_heap h' (Arc a k al fl).
Proof using.
  intros Hs Ha Hc c. cbn [cells] in *. intros [->|H]%elem_of_cons; [done|].
  eapply lookup_weaken; [by apply Hc|done].
Qed.

(** A supremum allocates at most one cell, and every value of one of the types is
    a value of the supremum. *)
Lemma sup_sound set_order h fresh types :
  (∀ l, set_order l ≡ₚ l) →
  (∀ t, t ∈ types → sound t = true ∧ in_heap h t) → h !! fresh = None →
  ∃ r h', sup f64_to_string set_order fresh types = Ok r ∧ sound r = true ∧
    h ⊆ h' ∧ dom h' ⊆ {[fresh]} ∪ dom h ∧ in_heap h' r ∧
    ∀ t v, t ∈ types → inhab t v = true → inhab r v = true.
Proof using float_text lineage_trans.
  intros Hord Ht Hf.
  assert (∀ u, u ∈ all_leaves types → sound u = true ∧ in_heap h u) as HL.
  { intros u (t & Hin & Hu)%all_leaves_elem. destruct (Ht t Hin).
    split; [by eapply sound_leaf|by eapply in_heap_leaf]. }
  assert (∀ t, t ∈ types → wf_type t = true) as HW.
  { intros t Hin. by apply (proj1 (sound_type_spec lineage t)), Ht. }
  destruct (sup_left f64_to_string set_order fresh types (λ t u, ∀ v, inhab t v = true → inhab u v = true))
    as (M & Es & HM & HG & HC & _); [done|done|..].
  { intros t u Ht' Hu' E. destruct (HL t Ht') as [_ H1], (HL u Hu') as [_ H2].
    specialize (H1 t (cells_here t)). specialize (H2 u (cells_here u)). congruence. }
  { auto. }
  { auto. }
  { intros u w Hu Hw Hle v. destruct (HL u Hu), (HL w Hw). by apply rel_sound. }
  set (r := join_left fresh M) in *.
  assert (∀ e, e ∈ M → sound e.2 = true ∧ in_heap h e.2) as HE.
  { intros e He. apply HL. by apply HG. }
  assert (∀ t v, t ∈ types → inhab t v = true → inhab r v = true) as HI.
  { intros t v Hin Hv. destruct (Value.is_none_or_undefined v) eqn:Hn; [by apply inhabits_none|].
    apply inhabits_leaves in Hv as (u & Hu & Hv); [|by apply HW|done].
    destruct (HC u) as (a & w & Hw & Hi); [apply all_leaves_elem; eauto|]. specialize (Hi v Hv).
    unfold r. destruct M as [|[a' w'] [|e M']]; [by apply elem_of_nil in Hw| |].
    - apply list_elem_of_singleton in Hw as [= -> ->]. done.
    - apply inhabits_union. right. exists w. split; [|done]. apply list_elem_of_fmap. by exists (a, w). }
  destruct M as [|[a w] [|e M']] eqn:EM.
  - exists r, (<[fresh := r]> h). split_and!; [done|done|by apply insert_subseteq| |..|done].
    + by rewrite dom_insert_L.
    + apply (in_heap_new h); [by apply insert_subseteq|by rewrite lookup_insert_eq|].
      intros c Hc. by apply elem_of_nil in Hc.
  - destruct (HE (a, w)) as [? ?]; [by left|]. exists r, h. split_and!; try done. set_solver.
  - rewrite <- EM in *. assert (r = union fresh M.*2) as Er by by subst M.
    exists r, (<[fresh := r]> h). split_and!; [done| |by apply insert_subseteq|by rewrite dom_insert_L| |done].
    + rewrite Er. apply sound_type_spec. split; cbn; apply forallb_forall;
        intros t (e' & -> & He')%list_elem_of_In%list_elem_of_fmap;
        destruct (proj1 (sound_type_spec _ _) (proj1 (HE _ He'))); done.
    + rewrite Er. apply (in_heap_new h); [by apply insert_subseteq|by rewrite lookup_insert_eq|].
      intros c Hc. cbn [tail cells] in Hc. apply list_elem_of_In, in_concat in Hc as (l & Hl & Hc%list_elem_of_In).
      apply in_map_iff in Hl as (t & <- & (e' & -> & He')%list_elem_of_In%list_elem_of_fmap).
      by apply (HE e').
Qed.

(** ** Computations of the resolver *)

(** From every state in which the cells of [h] are allocated, the computation
    returns: the diagnostics are kept, the cells too, and [Q] holds of the cells
    then allocated and the result. *)
Definition runs {A} (h : heap) (m : TyM A) (Q : heap → A → Prop) : Prop :=
  ∀ st, ok_state h st → ∃ a st' h',
    m st = Ok (a, st') ∧ type_errors st `prefix_of` type_errors st' ∧ h ⊆ h' ∧ ok_state h' st' ∧ Q h' a.

Lemma runs_ret {A} h (a : A) (Q : heap → A → Prop) : Q h a → runs h (mret a) Q.
Proof using. intros HQ st Hst. by exists a, st, h. Qed.
Lemma runs_bind {A B} h (m : TyM A) (f : A → TyM B) Q R :
  runs h m Q → (∀ h' a, h ⊆ h' → Q h' a → runs h' (f a) R) → runs h (m ≫= f) R.
Proof using.
  intros Hm Hf st Hst. destruct (Hm st Hst) as (a & st1 & h1 & E1 & P1 & S1 & O1 & Q1).
  destruct (Hf h1 a S1 Q1 st1 O1) as (b & st2 & h2 & E2 & P2 & S2 & O2 & Q2).
  exists b, st2, h2. split_and!; [|by etrans|by etrans|done..].
  unfold mbind, TyM_bind. by rewrite E1.
Qed.
Lemma runs_weaken {A} h (m : TyM A) (Q R : heap → A → Prop) :
  runs h m Q → (∀ h' a, h ⊆ h' → Q h' a → R h' a) → runs h m R.
Proof using.
  intros Hm HQ st Hst. destruct (Hm st Hst) as (a & st1 & h1 & ? & ? & ? & ? & ?).
  exists a, st1, h1. auto 10.
Qed.
Lemma runs_error h code msg range : runs h (add_diagnostic code msg range) (λ _ _, True).
Proof using.
  intros st Hst. eexists _, _, h. split_and!; [done| |done|done|done].
  simpl. destruct (decide _); [done|]. by apply prefix_app_r.
Qed.
Lemma runs_lift {A} h (r : Res A) a (Q : heap → A → Prop) : r = Ok a → Q h a → runs h (lift r) Q.
Proof using. intros -> HQ st Hst. by exists a, st, h. Qed.

(** What is known of a type that the resolver has made. *)
Definition typed (h : heap) (t : TypeRef) : Prop := sound t = true ∧ in_heap h t.
Lemma typed_mono h h' t : h ⊆ h' → typed h t → typed h' t.
Proof using. intros Hs [??]. split; [done|by eapply in_heap_mono]. Qed.

(** [Arc::new] of a type whose parts are in the heap. *)
Lemma runs_new h (f : positive → TypeRef) :
  (∀ a, addr (f a) = a) → (∀ a, sound (f a) = true) →
  (∀ a c, c ∈ tail (cells (f a)) → h !! addr c = Some c) →
  runs h (a ← alloc; mret (f a)) (λ h' t, typed h' t ∧ ∃ a, t = f a).
Proof using.
  intros Ha Hs Hc st Hst. set (n := next_addr st).
  exists (f n), (MkTyState (Pos.succ n) (type_errors st)), (<[n := f n]> h).
  assert (h !! n = None) as Hn.
  { destruct (h !! n) eqn:E; [|done]. apply Hst in E. unfold n in E. lia. }
  split_and!; [done|done|by apply insert_subseteq| |split; [done|]|by exists n].
  - intros a t. simpl. rewrite lookup_insert. case_decide; [subst; lia|]. intros E%Hst. unfold n in *. lia.
  - specialize (Ha n). specialize (Hc n). destruct (f n) as [a k al fl] eqn:E. simpl in Ha. subst a.
    apply (in_heap_new h); [by apply insert_subseteq|by rewrite lookup_insert_eq|done].
Qed.
Lemma runs_list_ref h t : typed h t → runs h (list_ref t) (λ h' r, typed h' r ∧ ∃ a, r = list_of a t).
Proof using.
  intros [Hs Hh]. apply (runs_new h (λ a, list_of a t)); [done| |].
  - intros a. apply sound_type_spec in Hs. by apply sound_type_spec.
  - intros a c Hc. by apply Hh.
Qed.

Section Context.
Variable set_order : list positive → list positive.
Hypothesis Hord : ∀ l, set_order l ≡ₚ l.
Variable a0 : positive.
Abbreviation ctx := (new_builtin_types a0).
Definition builtin_list (c : BuiltinTypes) : list TypeRef :=
  [ty_any c; ty_bool c; ty_int c; ty_float c; ty_str c; ty_void c; ty_none c].
Definition has_builtins (h : heap) : Prop := ∀ t, t ∈ builtin_list ctx → h !! addr t = Some t.
Lemma has_builtins_mono h h' : h ⊆ h' → has_builtins h → has_builtins h'.
Proof using. intros Hs Hb t Ht. eapply lookup_weaken; [by apply Hb|done]. Qed.
Lemma builtin_typed h t : has_builtins h → t ∈ builtin_list ctx → typed h t.
Proof using.
  intros Hb Ht. split.
  - repeat (apply elem_of_cons in Ht as [->|Ht]; [done|]). by apply elem_of_nil in Ht.
  - assert (cells t = [t]) as E.
    { clear Hb. repeat (apply elem_of_cons in Ht as [->|Ht]; [done|]). by apply elem_of_nil in Ht. }
    intros c. rewrite E. intros ->%list_elem_of_singleton. by apply Hb.
Qed.

Lemma runs_sup h types :
  (∀ t, t ∈ types → typed h t) →
  runs h (sup_ty f64_to_string set_order types) (λ h' r, typed h' r ∧
    ∀ t v, t ∈ types → inhab t v = true → inhab r v = true).
Proof using Hord float_text lineage_trans.
  intros Ht st Hst. set (n := next_addr st).
  assert (h !! n = None) as Hn.
  { destruct (h !! n) eqn:E; [|done]. apply Hst in E. unfold n in E. lia. }
  destruct (sup_sound set_order h n types) as (r & h' & E & Hs & Hsub & Hd & Hh & Hi); [done..|].
  exists r, (MkTyState (Pos.succ n) (type_errors st)), h'.
  split_and!; [|done|done| |done|done].
  - unfold sup_ty, alloc, lift, mbind, TyM_bind. cbv beta iota. fold n. by rewrite E.
  - intros a t Ha%elem_of_dom_2. apply Hd in Ha. simpl.
    apply elem_of_union in Ha as [->%elem_of_singleton|[t' Ha]%elem_of_dom]; [lia|].
    apply Hst in Ha. unfold n. lia.
Qed.

(** The widening of a type: every value of the type is a value of the widened one. *)
Definition widens (t : TypeRef) (h : heap) (r : TypeRef) : Prop :=
  typed h r ∧ ∀ v, inhab t v = true → inhab r v = true.

Lemma runs_map_widens ts f h :
  (∀ t h, t ∈ ts → has_builtins h → typed h t → runs h (f t) (widens t)) →
  has_builtins h → (∀ t, t ∈ ts → typed h t) →
  runs h (map_ty f ts) (λ h' rs, (∀ r, r ∈ rs → typed h' r) ∧
    ∀ t, t ∈ ts → ∃ r, r ∈ rs ∧ ∀ v, inhab t v = true → inhab r v = true).
Proof using.
  revert h. induction ts as [|t ts IH]; intros h Hf Hb Ht.
  { apply runs_ret. split; by intros ? ?%elem_of_nil. }
  cbn [map_ty]. eapply runs_bind; [apply Hf; [by left|done|apply Ht; by left]|].
  intros h1 r Hs [Tr Hr]. eapply runs_bind.
  { apply IH; [intros; apply Hf; [by right|done..]|by eapply has_builtins_mono|].
    intros t' Ht'. apply (typed_mono h); [done|]. apply Ht. by right. }
  intros h2 rs Hs2 [Trs Hrs]. apply runs_ret. split.
  - intros r' [->|Hr']%elem_of_cons; [by eapply typed_mono|by apply Trs].
  - intros t' [->|Ht']%elem_of_cons; [exists r; split; [by left|done]|].
    destruct (Hrs t' Ht') as (r' & ? & ?). exists r'. split; [by right|done].
Qed.

Lemma infer_sound t h :
  has_builtins h → typed h t → runs h (infer_to_variable_type f64_to_string set_order ctx t) (widens t).
Proof using Hord float_text lineage_trans.
  revert h. induction t as [t IH] using type_size_ind. intros h Hb Ht.
  assert (∀ b, b ∈ builtin_list ctx → (∀ v, inhab t v = true → inhab b v = true) → runs h (mret b) (widens t))
    as Hbuiltin.
  { intros b Hin Hv. apply runs_ret. split; [by apply builtin_typed|done]. }
  destruct t as [ad k al fl]. cbn [infer_to_variable_type].
  destruct k as [| | | | | | | | | |i|[dk dv dat]|ts|s|n|f| | |];
    try (apply runs_ret; by split);
    try (apply Hbuiltin; [unfold builtin_list; set_solver|done]).
  - apply Hbuiltin; [unfold builtin_list; set_solver|]. intros v _. cbn. by rewrite orb_true_r.
  - destruct Ht as [Hs Hh]. eapply runs_bind; [apply IH; [rewrite size_list; lia|done|]|].
    { split; [by eapply sound_list|]. intros c Hc. apply Hh. cbn [cells]. by right. }
    intros h1 r Hs1 [Tr Hr]. eapply runs_weaken; [by apply runs_list_ref|].
    intros h2 l Hs2 [Tl [a ->]]. split; [done|]. intros v. unfold list_of. cbn [base_inhabits].
    destruct (Value.is_none_or_undefined v); [done|]. cbn [orb]. destruct (Value.rc v); try done.
    rewrite !forallb_forall. auto.
  - destruct Ht as [Hs Hh]. destruct (sound_dict _ _ _ _ _ _ _ Hs) as [Sk Sv].
    assert (in_heap h dk ∧ in_heap h dv) as [Hk Hv].
    { split; intros c Hc; apply Hh; cbn [cells]; right; rewrite elem_of_app; auto. }
    eapply runs_bind; [apply IH; [rewrite size_dict; lia|done|done]|]. intros h1 rk Hs1 [Tk _].
    eapply runs_bind; [apply IH; [rewrite size_dict; lia|by eapply has_builtins_mono|]|].
    { apply (typed_mono h); [done|by split]. }
    intros h2 rv Hs2 [Tv Hrv]. eapply runs_weaken; [apply (runs_new h2 (λ a, dict_with_attrs a rk rv dat))|].
    + done.
    + intros a. destruct Tk as [[??]%sound_type_spec _], Tv as [[??]%sound_type_spec _].
      apply sound_type_spec. split; [change (wf_type rk && wf_type rv = true)|
        change (plain lineage rk && plain lineage rv = true)]; by apply andb_true_intro.
    + intros a c. unfold dict_with_attrs. cbn [tail cells]. intros [Hc|Hc]%elem_of_app; [|by apply Tv].
      eapply lookup_weaken; [by apply Tk|done].
    + intros h3 r Hs3 [Tr [a ->]]. split; [done|]. intros v. unfold dict_with_attrs. cbn [base_inhabits].
      destruct (Value.is_none_or_undefined v); [done|]. cbn [orb]. destruct (Value.rc v); try done.
      rewrite !forallb_forall. auto.
  - destruct Ht as [Hs Hh]. eapply runs_bind.
    { apply runs_map_widens; [|done|].
      - intros t h' Hin Hb' Ht'. apply IH; [by apply size_union|done..].
      - intros t Hin. split; [by eapply sound_union|]. intros c Hc. apply Hh. cbn [cells].
        right. by apply (cells_union t). }
    intros h1 rs Hs1 [Trs Hrs]. eapply runs_weaken; [by apply runs_sup|].
    intros h2 r Hs2 [Tr Hr]. split; [done|]. intros v [?|(t & Hin & Hi)]%inhabits_union; [by apply inhabits_none|].
    destruct (Hrs t Hin) as (r' & Hr' & Hi'). eauto.
Qed.
Lemma literal_union_sound t h :
  has_builtins h → typed h t →
  runs h (literal_union_type_to_variable_type f64_to_string set_order ctx t) (widens t).
Proof using Hord float_text lineage_trans.
  intros Hb Ht. unfold literal_union_type_to_variable_type.
  destruct (is_union t); [by apply infer_sound|]. by apply runs_ret.
Qed.
End Context.
End Sound.
