(* ===== verification/Eval.v ===== *)
(** * The evaluator: operators and expressions

    [crates/evaluator/src]: the operators of [calculation.rs] (its unions are
    those of [union.rs], which repeats [val_union.rs] of the runtime with the
    evaluator in place of the context, see [UnionOps]), and from [node.rs] the
    evaluation of the expressions that do not look at scopes: literals, operators,
    comparisons, conditionals, lists, formatted strings, subscripts and the entries
    of configs.

    An evaluation passes on the state of the evaluator, an arbitrary type here,
    and ends with a value, with an error, or with a panic. *)

From stdpp Require Import base tactics list strings numbers pretty.
From Stdlib Require Import ZArith Floats.
From S2P Require Import Prelude MachineInt IndexMap Str Float64 Value Cmp ListOps DictOps Arith UnionOps Units Display Iter.
From S2P Require TokenStream.
From S2P Require Ast.
Local Open Scope Z_scope.

(** The bytes of a name or of the text of a literal. *)
Definition text (s : list Z) : string :=
  fold_right (λ b r, String (Ascii.ascii_of_N (Z.to_N b)) r) EmptyString (concat (TokenStream.utf8 <$> s)).

Section Calculation.
Context {HP : Profile} {HC : ContextConfig}.
Variable powf : f64 → f64 → f64.
Variable to_json_string : ValueRef → string.
(** The schemas of the evaluator by their runtime type: what the body of a schema
    gives for a config and the arguments of the instance. *)
Variable schemas : string → option (ValueRef → ValueRef → ValueRef → Res ValueRef).
(** [type_pack_and_check]: the value converted to one of the types, strictly or not. *)
Variable type_pack_and_check : ValueRef → list string → bool → Res ValueRef.

(** ** [union.rs] *)

Definition do_union (opts : UnionOptions) (p x : ValueRef) (uc : UnionContext)
    : Res (ValueRef * UnionContext) :=
  do_union_with to_json_string schemas opts (UnionOps.union to_json_string schemas opts) x p uc.
Definition union (opts : UnionOptions) (or_mode : bool) (p x : ValueRef) (uc : UnionContext)
    : Res (ValueRef * UnionContext) :=
  union_with to_json_string schemas opts (UnionOps.union to_json_string schemas opts) or_mode x p uc.
Definition union_entry (p x : ValueRef) (or_mode : bool) (opts : UnionOptions) : Res ValueRef :=
  '(ret, uc) ← union opts or_mode p x UnionContext_default;
  if conflict uc then msg ← conflict_message uc; Panic (PanicMsg msg) else Ok ret.

(** ** Operators *)

Definition add (lhs rhs : ValueRef) : Res ValueRef := bin_add lhs rhs.
Definition sub (lhs rhs : ValueRef) : Res ValueRef := bin_sub lhs rhs.
Definition mul (lhs rhs : ValueRef) : Res ValueRef := bin_mul lhs rhs.
Definition div (lhs rhs : ValueRef) : Res ValueRef := bin_div lhs rhs.
Definition floor_div (lhs rhs : ValueRef) : Res ValueRef := bin_floor_div lhs rhs.
Definition mod_ (lhs rhs : ValueRef) : Res ValueRef := bin_mod lhs rhs.
Definition pow (lhs rhs : ValueRef) : Res ValueRef := bin_pow powf lhs rhs.
Definition bit_lshift (lhs rhs : ValueRef) : Res ValueRef := bin_bit_lshift lhs rhs.
Definition bit_rshift (lhs rhs : ValueRef) : Res ValueRef := bin_bit_rshift lhs rhs.
Definition bit_and (lhs rhs : ValueRef) : Res ValueRef := bin_bit_and lhs rhs.
Definition bit_or (lhs rhs : ValueRef) : Res ValueRef :=
  match rc lhs, rc rhs with
  | int_value a, int_value b => Ok (ref_int (Z.lor a b))
  | _, _ => union_entry (deep_copy lhs) rhs true UnionOptions_default
  end.
Definition bit_xor (lhs rhs : ValueRef) : Res ValueRef := bin_bit_xor lhs rhs.
Definition logic_and (lhs rhs : ValueRef) : ValueRef := ref_bool (Value.logic_and lhs rhs).
Definition logic_or (lhs rhs : ValueRef) : ValueRef := ref_bool (Value.logic_or lhs rhs).
Definition cmp_equal_to (lhs rhs : ValueRef) : Res ValueRef := Ok (ref_bool (cmp_equal lhs rhs)).
Definition cmp_not_equal_to (lhs rhs : ValueRef) : Res ValueRef := Ok (ref_bool (cmp_not_equal lhs rhs)).
Definition cmp_greater_than (lhs rhs : ValueRef) : Res ValueRef := ref_bool <$> Cmp.cmp_greater_than lhs rhs.
Definition cmp_greater_than_or_equal (lhs rhs : ValueRef) : Res ValueRef :=
  ref_bool <$> Cmp.cmp_greater_than_or_equal lhs rhs.
Definition cmp_less_than (lhs rhs : ValueRef) : Res ValueRef := ref_bool <$> Cmp.cmp_less_than lhs rhs.
Definition cmp_less_than_or_equal (lhs rhs : ValueRef) : Res ValueRef :=
  ref_bool <$> Cmp.cmp_less_than_or_equal lhs rhs.
Definition as_ (lhs rhs : ValueRef) : Res ValueRef := type_pack_and_check lhs [as_str rhs] true.
(** [==] of two references is [cmp_equal]. *)
Definition is_ (lhs rhs : ValueRef) : Res ValueRef := Ok (ref_bool (cmp_equal lhs rhs)).
Definition is_not (lhs rhs : ValueRef) : Res ValueRef := Ok (ref_bool (negb (cmp_equal lhs rhs))).
Definition in_ (lhs rhs : ValueRef) : Res ValueRef := ref_bool <$> value_in lhs rhs.
Definition not_in (lhs rhs : ValueRef) : Res ValueRef := ref_bool <$> Cmp.not_in lhs rhs.

(** ** Collections *)

Definition value_is_truthy (value : ValueRef) : bool := is_truthy value.
Definition value_deep_copy (value : ValueRef) : ValueRef := deep_copy value.

Definition attr_map_of (v : ValueRef) : Res (IndexMap string string) :=
  match rc v with
  | dict_value dict => Ok (attr_map dict)
  | schema_value schema => Ok (attr_map (config schema))
  | _ => Panic (PanicMsg ("invalid object '" +:+ type_str v +:+ "' in attr_map"))
  end.

(** The loop over the keys of the other config. *)
Section ValueUnion.
Variable attrs : IndexMap string string.
Variable opts : UnionOptions.
Variable rhs : ValueRef.
Fixpoint union_keys (keys : list string) (lhs : ValueRef) : Res ValueRef :=
  match keys with
  | [] => Ok lhs
  | k :: keys =>
      entry ← dict_get_entry rhs k;
      entry ← unwrap entry;
      lhs ← union_entry lhs entry true opts;
      lhs ← (match map_get k attrs with
             | Some ty =>
                 value ← unwrap (dict_get_value lhs k);
                 value ← type_pack_and_check value [ty] false;
                 dict_update_key_value lhs k value
             | None => Ok lhs
             end);
      union_keys keys lhs
  end.
End ValueUnion.
Definition value_union (lhs rhs : ValueRef) : Res ValueRef :=
  attrs ← attr_map_of lhs;
  let opts := MkUnionOptions false false true in
  if is_config rhs then
    dict ← as_dict_ref rhs; union_keys attrs opts rhs (values dict).*1 lhs
  else union_entry lhs rhs true opts.

Definition dict_get_value (dict : ValueRef) (key : string) : ValueRef :=
  default ref_undefined (DictOps.dict_get_value dict key).

Definition dict_merge_key_value_pair (p : ValueRef) (key : string) (v : ValueRef)
    (op : ConfigEntryOperationKind) (insert_index : option Z) (idempotent_check : bool) : Res ValueRef :=
  if is_config p then
    let dict := MkDict [(key, v)] [(key, op)]
                  (match insert_index with Some i => [(key, i)] | None => [] end) [] None None in
    union_entry p (Ref (dict_value dict)) true (MkUnionOptions false idempotent_check false)
  else Panic (PanicMsg ("invalid dict insert value: " +:+ type_str p)).

Definition operation_kind (op : Ast.ConfigEntryOperation) : ConfigEntryOperationKind :=
  match op with Ast.Union => Union | Ast.Override => Override | Ast.Insert => Insert end.
Definition dict_insert (dict : ValueRef) (key : string) (value : ValueRef)
    (op : Ast.ConfigEntryOperation) (insert_index : option Z) : Res ValueRef :=
  dict_merge_key_value_pair dict key value (operation_kind op) insert_index true.
Definition schema_dict_merge (dict : ValueRef) (key : string) (value : ValueRef)
    (op : Ast.ConfigEntryOperation) (insert_index : option Z) : Res ValueRef :=
  attrs ← attr_map_of dict;
  v ← (match map_get key attrs with
       | Some ty => type_pack_and_check value [ty] false
       | None => Ok value
       end);
  dict_merge_key_value_pair dict key v (operation_kind op) insert_index false.
Definition dict_insert_value (dict : ValueRef) (key : string) (value : ValueRef) : Res ValueRef :=
  dict_update_key_value dict key value.
Definition dict_insert_merge_value (dict : ValueRef) (key : string) (value : ValueRef) : Res ValueRef :=
  dict_merge_key_value_pair dict key value Union None true.

(** [is_in_schema]: whether the evaluator is in the body of a schema.  An instance
    with arguments whose attribute is there already is updated without building it
    anew. *)
Definition dict_set_value (is_in_schema : bool) (p : ValueRef) (key : string) (val : ValueRef)
    : Res ValueRef :=
  if is_config p then
    let '(should_resolve, keys) :=
      match rc p with
      | schema_value s =>
          if is_in_schema then (true, [])
          else (negb (is_truthy (args s) && contains_key key (values (config s))), config_keys s)
      | _ => (true, [])
      end in
    p ← dict_update_key_value p key val;
    match rc p with
    | schema_value s =>
        if should_resolve : bool then
          let keys := if vec_is_empty keys then config_keys s else keys in
          let keys := if bool_decide (key ∈ keys) then keys else keys ++ [key] in
          schema ← resolve_schema schemas p keys;
          Ok (schema_update_with_schema p schema)
        else Ok p
    | _ => Ok p
    end
  else Panic (PanicMsg
    ("failed to update the dict. An iterable of key-value pairs was expected, but got " +:+
     type_str p +:+
     ". Check if the syntax for updating the dictionary with the attribute '" +:+ key +:+
     "' is correct")).
End Calculation.

(** ** Evaluation *)

(** The value of an evaluation, or the message of an [anyhow] error. *)
Inductive Outcome (A : Type) :=
  | Done (a : A)
  | Err (msg : string).
Arguments Done {A}. Arguments Err {A}.

Section Ev.
Context {S : Type}.
Definition Ev (A : Type) : Type := S → Res (Outcome A * S).
#[export] Instance Ev_ret : MRet Ev := λ A a s, Ok (Done a, s).
(** [?]: an error is returned at once. *)
#[export] Instance Ev_bind : MBind Ev := λ A B f m s,
  match m s with
  | Ok (Done a, s) => f a s
  | Ok (Err msg, s) => Ok (Err msg, s)
  | Panic p => Panic p
  end.
Definition lift {A} (r : Res A) : Ev A := λ s,
  match r with Ok a => Ok (Done a, s) | Panic p => Panic p end.
Definition fail {A} (msg : string) : Ev A := λ s, Ok (Err msg, s).
(** [.expect(..)] *)
Definition expect {A} (m : Ev A) : Ev A := λ s,
  match m s with Ok (Err _, _) => Panic ExpectFailed | r => r end.
End Ev.
Arguments Ev : clear implicits.

(** What an evaluation needs of the scopes of the evaluator ([scope.rs],
    [context.rs]), its state being [S]: the scopes entered and left, the set of
    local variables, and the storing of a variable by its names. *)
Class Scopes (S : Type) := {
  enter_scope : Ev S unit;
  leave_scope : Ev S unit;
  is_local_var : string → Ev S bool;
  add_local_var : string → Ev S unit;
  remove_local_var : string → Ev S unit;
  clear_local_vars : Ev S unit;
  add_or_update_local_variable_within_scope : string → ValueRef → Ev S unit;
  store_identifier : list (list Z) → ValueRef → Ev S unit }.

(** [defer!]: run at the end, on a return with an error too. *)
Definition deferred {S A} (m : Ev S A) (cleanup : Ev S unit) : Ev S A := λ s,
  match m s with
  | Ok (r, s) =>
      match cleanup s with
      | Ok (_, s) => Ok (r, s)
      | Panic p => Panic p
      end
  | Panic p => Panic p
  end.

Section Expressions.
Context {HP : Profile} {HC : ContextConfig}.
Variable powf : f64 → f64 → f64.
Variable to_json_string to_yaml_string : ValueRef → string.
Variable f64_to_string : f64 → string.
Variable schemas : string → option (ValueRef → ValueRef → ValueRef → Res ValueRef).
Variable type_pack_and_check : ValueRef → list string → bool → Res ValueRef.
(** [str::to_lowercase] *)
Variable to_lowercase : string → string.
Context {S : Type} {HS : Scopes S}.

Section Walk.
(** [walk_expr] on the expressions inside. *)
Variable walk_expr : Ast.Expr → Ev S ValueRef.

Definition walk_number_lit (binary_suffix : option (list Z)) (value : Ast.NumberLitValue) : Ev S ValueRef :=
  match value with
  | Ast.Int v =>
      match binary_suffix with
      | Some suffix =>
          let unit := text suffix in
          r ← lift (cal_num powf v unit); mret (ref_unit r v unit)
      | None => mret (ref_int v)
      end
  | Ast.FloatLit v => mret (ref_float (FloatOps.Prim2SF v))
  end.
Definition walk_string_lit (lit : Ast.StringLit) : Ev S ValueRef := mret (ref_str (text (Ast.value lit))).
Definition walk_name_constant_lit (value : Ast.NameConstant) : Ev S ValueRef :=
  mret match value with
       | Ast.NTrue => ref_bool true
       | Ast.NFalse => ref_bool false
       | Ast.NNone => ref_none
       | Ast.NUndefined => ref_undefined
       end.

Definition walk_if_expr (body cond orelse : Ast.Expr) : Ev S ValueRef :=
  c ← walk_expr cond;
  if value_is_truthy c then walk_expr body else walk_expr orelse.

Definition walk_unary_expr (op : Ast.UnaryOp) (operand : Ast.Expr) : Ev S ValueRef :=
  value ← walk_expr operand;
  match op with
  | Ast.UAdd => lift (unary_plus value)
  | Ast.USub => lift (unary_minus value)
  | Ast.Invert => mret (unary_not value)
  | Ast.Not => mret (unary_l_not value)
  end.

(** The operators but the short-circuit forms of [and] and [or]. *)
Definition binary_value (op : Ast.BinOp) (left_value right_value : ValueRef) : Res ValueRef :=
  match op with
  | Ast.Add => add left_value right_value
  | Ast.Sub => sub left_value right_value
  | Ast.Mul => mul left_value right_value
  | Ast.Div => div left_value right_value
  | Ast.FloorDiv => floor_div left_value right_value
  | Ast.Mod => mod_ left_value right_value
  | Ast.Pow => pow powf left_value right_value
  | Ast.LShift => bit_lshift left_value right_value
  | Ast.RShift => bit_rshift left_value right_value
  | Ast.BitAnd => bit_and left_value right_value
  | Ast.BitOr => bit_or to_json_string schemas left_value right_value
  | Ast.BitXor => bit_xor left_value right_value
  | Ast.And => Ok (logic_and left_value right_value)
  | Ast.Or => Ok (logic_or left_value right_value)
  | Ast.As => as_ type_pack_and_check left_value right_value
  end.
Fixpoint join_names (names : list (list Z)) : string :=
  match names with
  | [] => EmptyString
  | [n] => text n
  | n :: names => text n +:+ "." +:+ join_names names
  end.
Definition walk_binary_expr (left : Ast.Expr) (op : Ast.BinOp) (right : Ast.Expr) : Ev S ValueRef :=
  match op with
  | Ast.And =>
      left_value ← walk_expr left;
      if value_is_truthy left_value then walk_expr right else mret left_value
  | Ast.Or =>
      left_value ← walk_expr left;
      if value_is_truthy left_value then mret left_value else walk_expr right
  | _ =>
      left_value ← walk_expr left;
      right_value ← (match op with
                     | Ast.As =>
                         mret match right with
                              | Ast.IdentifierExpr names => ref_str (join_names names)
                              | _ => ref_none
                              end
                     | _ => walk_expr right
                     end);
      lift (binary_value op left_value right_value)
  end.

Definition compare_value (op : Ast.CmpOp) (left_value right_value : ValueRef) : Res ValueRef :=
  match op with
  | Ast.CEq => cmp_equal_to left_value right_value
  | Ast.CNotEq => cmp_not_equal_to left_value right_value
  | Ast.CGt => cmp_greater_than left_value right_value
  | Ast.CGtE => cmp_greater_than_or_equal left_value right_value
  | Ast.CLt => cmp_less_than left_value right_value
  | Ast.CLtE => cmp_less_than_or_equal left_value right_value
  | Ast.CIs => is_ left_value right_value
  | Ast.CIsNot | Ast.CNot => is_not left_value right_value
  | Ast.CNotIn => not_in left_value right_value
  | Ast.CIn => in_ left_value right_value
  end.
(** The chain of several comparisons stops at the first that is not true; a
    comparator that is missing panics. *)
Fixpoint compare_chain (ops : list Ast.CmpOp) (comparators : list Ast.Expr)
    (left_value result_value : ValueRef) {struct comparators} : Ev S ValueRef :=
  match ops with
  | [] => mret result_value
  | op :: ops =>
      match comparators with
      | [] => lift (Panic IndexOutOfBounds)
      | e :: comparators =>
          right_value ← walk_expr e;
          result_value ← lift (compare_value op left_value right_value);
          match ops with
          | [] => mret result_value
          | _ => if value_is_truthy result_value
                 then compare_chain ops comparators right_value result_value
                 else mret result_value
          end
      end
  end.
Definition walk_compare (left : Ast.Expr) (ops : list Ast.CmpOp) (comparators : list Ast.Expr)
    : Ev S ValueRef :=
  left_value ← walk_expr left;
  match comparators with
  | _ :: _ :: _ => compare_chain ops comparators left_value ref_undefined
  | [e] =>
      right_value ← walk_expr e;
      match ops with
      | op :: _ => lift (compare_value op left_value right_value)
      | [] => lift (Panic IndexOutOfBounds)
      end
  | [] => lift (Panic IndexOutOfBounds)
  end.

Definition is_unpacked (e : Ast.Expr) : bool :=
  match e with Ast.Starred _ | Ast.ListIfItem _ _ _ => true | _ => false end.
(** The elements behind those of a list. *)
Fixpoint append_items (elts : list Ast.Expr) (list_value : ValueRef) : Ev S ValueRef :=
  match elts with
  | [] => mret list_value
  | item :: elts =>
      value ← walk_expr item;
      list_value ← lift (if is_unpacked item then list_append_unpack list_value value
                         else list_append list_value value);
      append_items elts list_value
  end.
Definition walk_list_expr (elts : list Ast.Expr) : Ev S ValueRef := append_items elts (ref_list []).
Definition walk_list_if_item_expr (if_cond : Ast.Expr) (exprs : list Ast.Expr) (orelse : option Ast.Expr)
    : Ev S ValueRef :=
  cond ← walk_expr if_cond;
  if value_is_truthy cond then append_items exprs (ref_list [])
  else match orelse with Some orelse => walk_expr orelse | None => mret ref_none end.
Definition walk_starred_expr (value : Ast.Expr) : Ev S ValueRef := walk_expr value.
Definition walk_paren_expr (expr : Ast.Expr) : Ev S ValueRef := walk_expr expr.

Definition walk_optional (e : option Ast.Expr) : Ev S ValueRef :=
  match e with Some e => walk_expr e | None => mret ref_none end.
Definition walk_subscript (value : Ast.Expr) (index lower upper step : option Ast.Expr)
    (has_question : bool) : Ev S ValueRef :=
  value ← walk_expr value;
  match index with
  | Some index =>
      index ← walk_expr index;
      lift (if has_question then bin_subscr_option value index else bin_subscr value index)
  | None =>
      lower ← walk_optional lower;
      upper ← walk_optional upper;
      step ← walk_optional step;
      if has_question && negb (is_truthy value) then mret ref_none
      else lift (list_slice value lower upper step)
  end.

Definition INVALID_JOINED_STR_MSG : string := "Invalid AST JoinedString value".
Definition INVALID_STR_INTERPOLATION_SPEC_MSG : string :=
  "Invalid string interpolation format specification".
Definition walk_formatted_value (value : Ast.Expr) (format_spec : option (list Z)) : Ev S ValueRef :=
  value ← walk_expr value;
  match format_spec with
  | Some spec =>
      let spec := to_lowercase (text spec) in
      if bool_decide (spec = "#json") then mret (ref_str (to_json_string value))
      else if bool_decide (spec = "#yaml") then mret (ref_str (to_yaml_string value))
      else lift (Panic (PanicMsg INVALID_STR_INTERPOLATION_SPEC_MSG))
  | None => mret (ref_str (to_string f64_to_string value))
  end.
Definition walk_joined_part (value : Ast.Expr) : Ev S ValueRef :=
  match value with
  | Ast.FormattedValue value format_spec => expect (walk_formatted_value value format_spec)
  | Ast.StringLitExpr lit => expect (walk_string_lit lit)
  | _ => lift (Panic (PanicMsg INVALID_JOINED_STR_MSG))
  end.
Fixpoint join_parts (values : list Ast.Expr) (result_value : ValueRef) : Ev S ValueRef :=
  match values with
  | [] => mret result_value
  | value :: values =>
      value ← walk_joined_part value;
      result_value ← lift (add result_value value);
      join_parts values result_value
  end.
Definition walk_joined_string (values : list Ast.Expr) : Ev S ValueRef := join_parts values (ref_str "").

(** ** The entries of a config *)

(** The name and the insertion index of a key that is a name, a string or a
    subscript with an integer; [v as i32]. *)
Definition entry_name (key : Ast.Expr) : Res (option string * option Z) :=
  match key with
  | Ast.IdentifierExpr names => n ← Prelude.index names 0; Ok (Some (text n), None)
  | Ast.StringLitExpr lit => Ok (Some (text (Ast.value lit)), None)
  | Ast.Subscript (Ast.IdentifierExpr names) (Some index) _ _ _ _ =>
      match index with
      | Ast.NumberLit _ (Ast.Int v) =>
          n ← Prelude.index names 0; Ok (Some (text n), Some (as_i32 v))
      | Ast.Unary _ (Ast.NumberLit _ (Ast.Int v)) =>
          v ← arith 64 (- v);
          n ← Prelude.index names 0; Ok (Some (text n), Some (as_i32 v))
      | _ => Ok (None, None)
      end
  | _ => Ok (None, None)
  end.
Fixpoint config_entries (items : list (Ast.ConfigEntry Ast.Expr)) (config_value : ValueRef)
    : Ev S ValueRef :=
  match items with
  | [] => mret config_value
  | item :: items =>
      value ← walk_expr (Ast.entry_value item);
      match Ast.key item with
      | Some key_node =>
          '(optional_name, insert_index) ← lift (entry_name key_node);
          key ← (match optional_name with
                 | Some name =>
                     local ← is_local_var name;
                     if (local : bool) then walk_expr key_node else mret (ref_str name)
                 | None => walk_expr key_node
                 end);
          config_value ← lift (dict_insert to_json_string schemas config_value (as_str key) value
                                 (Ast.operation item) insert_index);
          match optional_name with
          | Some name => add_or_update_local_variable_within_scope name (dict_get_value config_value name)
          | None => mret tt
          end;;
          config_entries items config_value
      | None =>
          config_value ← lift (dict_insert_unpack to_json_string schemas (to_string f64_to_string)
                                 config_value value);
          config_entries items config_value
      end
  end.
Definition walk_config_entries (items : list (Ast.ConfigEntry Ast.Expr)) : Ev S ValueRef :=
  config_entries items (ref_dict []).
Definition walk_config_expr (items : list (Ast.ConfigEntry Ast.Expr)) : Ev S ValueRef :=
  enter_scope;; deferred (walk_config_entries items) leave_scope.
Definition walk_config_if_entry_expr (if_cond : Ast.Expr) (items : list (Ast.ConfigEntry Ast.Expr))
    (orelse : option Ast.Expr) : Ev S ValueRef :=
  cond ← walk_expr if_cond;
  if value_is_truthy cond then walk_config_entries items
  else match orelse with
       | Some (Ast.Config items) => walk_config_entries items
       | Some orelse => walk_expr orelse
       | None => mret ref_none
       end.

(** ** Loops *)

(** [while let Some(r) = iter.next_with_key_value(host) { .. }]: the body gives the
    result of the loop ([inl]) or what the next round starts from.  A round advances
    the iterator, so that one round more than the length is fuel enough. *)
Section Loop.
Context {A B : Type}.
Variable host : ValueRef.
Variable body : ValueRef * ValueRef * ValueRef → A → Ev S (B + A).
Fixpoint loop_entries (fuel : nat) (it : ValueIterator) (acc : A) : Ev S (B + A) :=
  match fuel with
  | O => lift (Panic AssertionFailed)
  | Datatypes.S fuel =>
      step ← lift (next_with_key_value it host);
      match step.2 with
      | None => mret (inr acc)
      | Some r =>
          acc ← body r acc;
          match acc with inl b => mret (inl b) | inr acc => loop_entries fuel step.1 acc end
      end
  end.
Definition loop_over (acc : A) : Ev S (B + A) :=
  it ← lift (from_value host); loop_entries (Datatypes.S (Z.to_nat (it_len it))) it acc.
End Loop.

(** The loop variables: added to the local variables and stored. *)
Fixpoint add_local_vars (variables : list (list (list Z))) : Ev S unit :=
  match variables with
  | [] => mret tt
  | v :: variables => n ← lift (Prelude.index v 0); add_local_var (text n);; add_local_vars variables
  end.
Definition store_loop_variables (variables : list (list (list Z))) (r : ValueRef * ValueRef * ValueRef)
    : Ev S unit :=
  let '(next_value, key, value) := r in
  match variables with
  | [v] => store_identifier v next_value
  | [k; v] => store_identifier k key;; store_identifier v value
  | _ => lift (Panic (PanicMsg ("the number of loop variables is " +:+ pretty (length variables) +:+
                                ", which can only be 1 or 2")))
  end.

(** The value that a quantifier gives up or goes on with after a round. *)
Definition quant_round (op : Ast.QuantOperation) (next_value value result : ValueRef)
    : Res (ValueRef + ValueRef) :=
  let is_truth := value_is_truthy value in
  match op with
  | Ast.All => Ok (if is_truth then inr result else inl (ref_bool false))
  | Ast.Any => Ok (if is_truth then inl (ref_bool true) else inr result)
  | Ast.Filter =>
      if is_truth then Ok (inr result)
      else if is_dict result then inr <$> dict_remove result (as_str next_value)
      else if is_list result then inr <$> list_remove result next_value
      else Panic (PanicMsg "only list, dict and schema can be removed item")
  | Ast.Map => inr <$> list_append result value
  end.
Definition quant_body (variables : list (list (list Z))) (op : Ast.QuantOperation) (test : Ast.Expr)
    (if_cond : option Ast.Expr) (r : ValueRef * ValueRef * ValueRef) (result : ValueRef)
    : Ev S (ValueRef + ValueRef) :=
  add_local_vars variables;;
  store_loop_variables variables r;;
  skip ← (match if_cond with
          | Some if_expr => value ← walk_expr if_expr; mret (negb (is_truthy value))
          | None => mret false
          end);
  if (skip : bool) then mret (inr result)
  else
    value ← walk_expr test;
    lift (quant_round op r.1.1 value result).
Definition walk_quant_expr (target : Ast.Expr) (variables : list (list (list Z)))
    (op : Ast.QuantOperation) (test : Ast.Expr) (if_cond : option Ast.Expr) : Ev S ValueRef :=
  result ← (match op with
            | Ast.All => mret (ref_bool true)
            | Ast.Any => mret (ref_bool false)
            | Ast.Map => mret (ref_list [])
            | Ast.Filter => v ← walk_expr target; mret (value_deep_copy v)
            end);
  iter_host_value ← (match op with
                     | Ast.Filter => mret (value_deep_copy result)
                     | _ => walk_expr target
                     end);
  it ← lift (from_value iter_host_value);
  enter_scope;;
  deferred
    (r ← loop_entries iter_host_value (quant_body variables op test if_cond)
           (Datatypes.S (Z.to_nat (it_len it))) it result;
     mret match r with inl v | inr v => v end)
    (leave_scope;; clear_local_vars).

(** Every [if] of a clause is evaluated, also after one that is not true. *)
Fixpoint all_ifs (ifs : list Ast.Expr) (ok : bool) : Ev S bool :=
  match ifs with
  | [] => mret ok
  | e :: ifs => value ← expect (walk_expr e); all_ifs ifs (ok && is_truthy value)
  end.
(** What the innermost round adds to the collection, by the [CompType]. *)
Definition add_item (elt : Ast.Expr) (collection_value : ValueRef) : Ev S ValueRef :=
  item ← expect (walk_expr elt); lift (list_append collection_value item).
Definition add_entry (entry : Ast.ConfigEntry Ast.Expr) (collection_value : ValueRef) : Ev S ValueRef :=
  value ← expect (walk_expr (Ast.entry_value entry));
  match Ast.key entry with
  | Some key =>
      key ← expect (walk_expr key);
      lift (dict_insert to_json_string schemas collection_value (as_str key) (deep_copy value)
              (Ast.operation entry) None)
  | None => lift (Panic ExpectFailed)
  end.
Fixpoint remove_local_vars (targets : list (list (list Z))) : Ev S unit :=
  match targets with
  | [] => mret tt
  | v :: targets => n ← lift (Prelude.index v 0); remove_local_var (text n);; remove_local_vars targets
  end.
Section Generator.
Variable add_to_collection : ValueRef → Ev S ValueRef.
Fixpoint walk_generator (generators : list (Ast.CompClause Ast.Expr)) (collection_value : ValueRef)
    : Ev S ValueRef :=
  match generators with
  | [] => lift (Panic IndexOutOfBounds)
  | generator :: rest =>
      iter_host_value ← expect (walk_expr (Ast.iter generator));
      r ← loop_over (B := Empty_set) iter_host_value (λ r collection_value,
            add_local_vars (Ast.targets generator);;
            expect (store_loop_variables (Ast.targets generator) r);;
            ok ← all_ifs (Ast.ifs generator) true;
            if (ok : bool) then
              c ← (match rest with
                   | [] => add_to_collection collection_value
                   | _ => walk_generator rest collection_value
                   end);
              mret (inr c)
            else mret (inr collection_value)) collection_value;
      remove_local_vars (Ast.targets generator);;
      mret match r with inl e => match (e : Empty_set) with end | inr c => c end
  end.
End Generator.
Definition walk_list_comp (elt : Ast.Expr) (generators : list (Ast.CompClause Ast.Expr)) : Ev S ValueRef :=
  enter_scope;; deferred (walk_generator (add_item elt) generators (ref_list [])) leave_scope.
(** The key is there, or the comprehension panics before it starts. *)
Definition walk_dict_comp (entry : Ast.ConfigEntry Ast.Expr) (generators : list (Ast.CompClause Ast.Expr))
    : Ev S ValueRef :=
  enter_scope;;
  deferred
    (match Ast.key entry with
     | Some _ => walk_generator (add_entry entry) generators (ref_dict [])
     | None => lift (Panic ExpectFailed)
     end) leave_scope.
End Walk.

(** ** Expressions

    Identifiers, selectors, calls, lambdas, schemas and checks look at scopes,
    frames and the instance under construction; they are the parameter [rest]. *)
Variable rest : Ast.Expr → Ev S ValueRef.
Definition MISSING_EXPR_MSG : string := "compile error: missing expression".
Fixpoint walk_expr (e : Ast.Expr) : Ev S ValueRef :=
  match e with
  | Ast.Unary op operand => walk_unary_expr walk_expr op operand
  | Ast.Binary l op r => walk_binary_expr walk_expr l op r
  | Ast.If body cond orelse => walk_if_expr walk_expr body cond orelse
  | Ast.ParenExpr e => walk_paren_expr walk_expr e
  | Ast.Quant target variables op test if_cond =>
      walk_quant_expr walk_expr target variables op test if_cond
  | Ast.ListExpr elts => walk_list_expr walk_expr elts
  | Ast.ListIfItem if_cond exprs orelse => walk_list_if_item_expr walk_expr if_cond exprs orelse
  | Ast.ListComp elt generators => walk_list_comp walk_expr elt generators
  | Ast.Starred value => walk_starred_expr walk_expr value
  | Ast.DictComp entry generators => walk_dict_comp walk_expr entry generators
  | Ast.ConfigIfEntry if_cond items orelse => walk_config_if_entry_expr walk_expr if_cond items orelse
  | Ast.Config items => walk_config_expr walk_expr items
  | Ast.Subscript value index lower upper step has_question =>
      walk_subscript walk_expr value index lower upper step has_question
  | Ast.Compare l ops comparators => walk_compare walk_expr l ops comparators
  | Ast.NumberLit suffix value => walk_number_lit suffix value
  | Ast.StringLitExpr lit => walk_string_lit lit
  | Ast.NameConstantLit value => walk_name_constant_lit value
  | Ast.JoinedString _ _ values => walk_joined_string walk_expr values
  | Ast.FormattedValue value spec => walk_formatted_value walk_expr value spec
  | Ast.Missing => fail MISSING_EXPR_MSG
  | Ast.IdentifierExpr _ | Ast.Selector _ _ _ | Ast.Call _ | Ast.Schema _ _ _ _
  | Ast.Check _ | Ast.Lambda _ _ _ => rest e
  end.
End Expressions.
