(* ===== verification/TyExpr.v ===== *)
(** * The types of expressions

    [crates/sema/src/resolver/node.rs]: the types that the resolver gives to
    literals, operators, comparisons, conditionals, lists and formatted strings.
    The syntax tree has no positions: the start and the end of an expression are
    parameters, equal for equal expressions. *)

From stdpp Require Import base tactics list strings numbers.
From Stdlib Require Import ZArith Floats.
From S2P Require Import Prelude IndexMap Str Float64 SemaTypes TyCalc.
From S2P Require Units Eval.
From S2P Require Ast.
Local Open Scope Z_scope.

Section Resolver.
Variable f64_to_string : f64 → string.
Variable set_order : list positive → list positive.
Variable ctx : BuiltinTypes.
Variable powf : f64 → f64 → f64.
(** [str::to_lowercase] *)
Variable to_lowercase : string → string.
Variable get_pos get_end_pos : Ast.Expr → Position.
Definition get_span_pos (e : Ast.Expr) : Range := (get_pos e, get_end_pos e).
(** The range of the identifier or statement that is being resolved. *)
Variable current_range : Range.
(** The item types of a list of more than ten elements that are all instances of
    one schema, which are computed together; [None] for any other list. *)
Variable homogeneous_types : list Ast.Expr → TyM (option (list TypeRef)).

Definition add_compile_error : string → Range → TyM unit := add_diagnostic CompileError.

Section Walk.
(** [expr]: [walk_expr] on the expressions inside. *)
Variable expr : Ast.Expr → TyM TypeRef.

Definition exprs (es : list Ast.Expr) : TyM (list TypeRef) := map_ty expr es.
Definition expr_or_any_type (e : option Ast.Expr) : TyM TypeRef :=
  match e with Some e => expr e | None => mret (ty_any ctx) end.

Definition walk_number_lit (binary_suffix : option (list Z)) (value : Ast.NumberLitValue) : TyM TypeRef :=
  match binary_suffix with
  | Some suffix =>
      raw_value ← (match value with
                   | Ast.Int v => mret v
                   | Ast.FloatLit v =>
                       add_compile_error "float literal can not be followed the unit suffix" current_range;;
                       mret (f_to_i64 (FloatOps.Prim2SF v))
                   end);
      let suffix := Eval.text suffix in
      value ← lift (Units.cal_num powf raw_value suffix);
      a ← alloc; mret (number_multiplier a value raw_value suffix)
  | None =>
      a ← alloc;
      mret match value with
           | Ast.Int v => int_lit a v
           | Ast.FloatLit v => float_lit a (FloatOps.Prim2SF v)
           end
  end.
Definition walk_string_lit (lit : Ast.StringLit) : TyM TypeRef :=
  a ← alloc; mret (str_lit a (Eval.text (Ast.value lit))).
Definition walk_name_constant_lit (value : Ast.NameConstant) : TyM TypeRef :=
  match value with
  | Ast.NTrue => a ← alloc; mret (bool_lit a true)
  | Ast.NFalse => a ← alloc; mret (bool_lit a false)
  | Ast.NNone | Ast.NUndefined => mret (ty_none ctx)
  end.

Definition walk_if_expr (body cond orelse : Ast.Expr) : TyM TypeRef :=
  expr cond;;
  body_ty ← expr body;
  orelse_ty ← expr orelse;
  sup_ty f64_to_string set_order [body_ty; orelse_ty].
Definition walk_unary_expr (op : Ast.UnaryOp) (operand : Ast.Expr) : TyM TypeRef :=
  operand_ty ← expr operand;
  unary f64_to_string set_order ctx operand_ty op (get_span_pos operand).
(** The operators other than [as], whose right operand is a type. *)
Definition walk_binary_expr (l : Ast.Expr) (op : Ast.BinOp) (r : Ast.Expr) : TyM TypeRef :=
  left_ty ← expr l;
  right_ty ← expr r;
  binary f64_to_string set_order ctx left_ty right_ty op (get_pos l, get_end_pos r).

(** [for i in 1..comparators.len() - 1]: the comparator after the first is checked
    with the operator after its own, and the last one is not looked at; an operator
    that is missing panics. *)
Fixpoint compare_rest (t1 : TypeRef) (ops : list Ast.CmpOp) (comparators : list Ast.Expr) : TyM unit :=
  match comparators with
  | [] => mret tt
  | e :: comparators =>
      match comparators with
      | [] => mret tt
      | _ =>
          op ← lift (index ops 1);
          t2 ← expr e;
          compare f64_to_string set_order ctx t1 t2 op (get_span_pos e);;
          compare_rest t1 (tail ops) comparators
      end
  end.
Definition walk_compare (l : Ast.Expr) (ops : list Ast.CmpOp) (comparators : list Ast.Expr) : TyM TypeRef :=
  t1 ← expr l;
  match comparators with
  | [] => lift (Panic IndexOutOfBounds)
  | e :: rest =>
      t2 ← expr e;
      op ← lift (index ops 0);
      compare f64_to_string set_order ctx t1 t2 op (get_pos l, get_end_pos e);;
      compare_rest t1 (tail ops) rest;;
      mret (ty_bool ctx)
  end.

Definition walk_paren_expr (e : Ast.Expr) : TyM TypeRef := expr e.
Definition walk_list_expr (elts : list Ast.Expr) : TyM TypeRef :=
  types ← (if Nat.ltb 10 (length elts) then homogeneous_types elts else mret None);
  item_types ← (match types with Some types => mret types | None => exprs elts end);
  item_type ← sup_ty f64_to_string set_order item_types;
  list_ref item_type.
Definition walk_list_if_item_expr (if_cond : Ast.Expr) (items : list Ast.Expr) (orelse : option Ast.Expr)
    : TyM TypeRef :=
  expr if_cond;;
  or_else_ty ← expr_or_any_type orelse;
  let or_else_ty := match kind or_else_ty with TList item_ty => item_ty | _ => or_else_ty end in
  types ← exprs items;
  exprs_ty ← sup_ty f64_to_string set_order types;
  sup_ty f64_to_string set_order [or_else_ty; exprs_ty].

(** The item type of what is unpacked, and whether it can be; [SchemaType::key_ty]
    is a new [str]. *)
Fixpoint starred_ty_walk_fn (ty : TypeRef) : TyM (TypeRef * bool) :=
  match ty with
  | Arc _ k _ _ =>
      match k with
      | TNone | TAny => mret (ty, true)
      | TList item_ty => mret (item_ty, true)
      | TDict (MkDictType key_ty _ _) => mret (key_ty, true)
      | TSchema _ => a ← alloc; mret (str_ref a, true)
      | TUnion types =>
          results ← map_ty starred_ty_walk_fn types;
          t ← sup_ty f64_to_string set_order results.*1;
          mret (t, forallb id results.*2)
      | _ => a ← alloc; mret (any_ref a, false)
      end
  end.
Definition walk_starred_expr (value : Ast.Expr) : TyM TypeRef :=
  value_ty ← expr value;
  '(ty, result) ← starred_ty_walk_fn value_ty;
  (if (result : bool) then mret tt
   else add_compile_error
          ("only list, dict, schema object can be used * unpacked, got " +:+
           SemaTypes.ty_str f64_to_string ty) (get_span_pos value));;
  mret ty.

Definition VALID_FORMAT_SPEC_SET : list string := ["#json"; "#yaml"].
Definition walk_formatted_value (value : Ast.Expr) (format_spec : option (list Z)) : TyM TypeRef :=
  match format_spec with
  | Some spec =>
      let spec := Eval.text spec in
      if bool_decide (to_lowercase spec ∈ VALID_FORMAT_SPEC_SET) then mret tt
      else add_compile_error (spec +:+ " is a invalid format spec") (get_span_pos value)
  | None => mret tt
  end;;
  expr value.
Definition walk_joined_string (values : list Ast.Expr) : TyM TypeRef := exprs values;; mret (ty_str ctx).
Definition walk_missing_expr : TyM TypeRef := mret (ty_any ctx).
End Walk.

(** Identifiers, selectors, calls, subscripts, configs, schemas, comprehensions,
    quantifiers and lambdas look at the scope, and so do types on the right of
    [as]: the parameter [rest].  The type that [expr] returns is what is modelled:
    the source also records it in [node_ty_map], as the schema expected by the
    enclosing configuration where there is one, for the language server. *)
Variable rest : Ast.Expr → TyM TypeRef.
Fixpoint expr (e : Ast.Expr) : TyM TypeRef :=
  match e with
  | Ast.Unary op operand => walk_unary_expr expr op operand
  | Ast.Binary _ Ast.As _ => rest e
  | Ast.Binary l op r => walk_binary_expr expr l op r
  | Ast.If body cond orelse => walk_if_expr expr body cond orelse
  | Ast.ParenExpr e => walk_paren_expr expr e
  | Ast.ListExpr elts => walk_list_expr expr elts
  | Ast.ListIfItem if_cond items orelse => walk_list_if_item_expr expr if_cond items orelse
  | Ast.Starred value => walk_starred_expr expr value
  | Ast.Compare l ops comparators => walk_compare expr l ops comparators
  | Ast.NumberLit suffix value => walk_number_lit suffix value
  | Ast.StringLitExpr lit => walk_string_lit lit
  | Ast.NameConstantLit value => walk_name_constant_lit value
  | Ast.JoinedString _ _ values => walk_joined_string expr values
  | Ast.FormattedValue value spec => walk_formatted_value expr value spec
  | Ast.Missing => walk_missing_expr
  | _ => rest e
  end.
End Resolver.
