(* ===== verification/OpSound.v ===== *)
(** * The operator tables against the operators

    The types that the resolver gives to the unary, binary and comparison
    operators ([TyCalc]) hold of what the operators of the runtime ([Arith],
    [Cmp]) return, for the operators for which they do; the entries of the tables
    that are wrong are the examples at the end. *)

From stdpp Require Import base tactics list strings numbers gmap.
From Stdlib Require Import ZArith Lia.
From S2P Require Import Prelude MachineInt IndexMap Str Float64 Value Cmp ListOps DictOps Arith.
From S2P Require SemaTypes Ast Eval.
From S2P Require Import TyCalc TypeSound.
Local Open Scope Z_scope.
Local Set Warnings "-clear-no-such-hyp".
Abbreviation TypeRef := SemaTypes.TypeRef.

(** ** What the operators of the runtime return *)

(** The values of a numeric type. *)
Definition numeric (v : ValueRef) : bool := is_none_or_undefined v || (is_number v || is_bool v).

(** An operator on numbers: it takes no booleans and no [None], and the result is
    an integer exactly if both operands are. *)
Definition arithmetic (op : ValueRef → ValueRef → Res ValueRef) : Prop :=
  ∀ v1 v2 v, numeric v1 = true → numeric v2 = true → op v1 v2 = Ok v →
    if is_int v1 && is_int v2 then is_int v = true
    else is_number v1 = true ∧ is_number v2 = true ∧ is_float v = true.
(** An operator on integers. *)
Definition bitwise (op : ValueRef → ValueRef → Res ValueRef) : Prop :=
  ∀ v1 v2 v, op v1 v2 = Ok v → is_int v1 = true ∧ is_int v2 = true ∧ is_int v = true.

Ltac by_cells :=
  intros [c1] [c2] v; destruct c1, c2; intros; simpl in *; try done;
  unfold bin_add, bin_sub, bin_mul, bin_pow, bin_floor_div, bin_bit_lshift, bin_bit_rshift,
    bin_bit_and, bin_bit_xor in *; cbn [rc] in *; try done;
  repeat match goal with H : (_ ← _; _) = Ok _ |- _ => apply Res_bind_Ok_inv in H as (? & ? & ?) end;
  simplify_eq; auto.

Section Operators.
Context {HP : Profile} {HC : ContextConfig} (powf : f64 → f64 → f64).

Lemma add_arithmetic : arithmetic bin_add.
Proof. unfold arithmetic. by_cells. Qed.
Lemma sub_arithmetic : arithmetic bin_sub.
Proof. unfold arithmetic. by_cells. Qed.
Lemma mul_arithmetic : arithmetic bin_mul.
Proof. unfold arithmetic. by_cells. Qed.
Lemma pow_arithmetic : arithmetic (bin_pow powf).
Proof. unfold arithmetic. by_cells. Qed.
Lemma floor_div_arithmetic : arithmetic bin_floor_div.
Proof. unfold arithmetic. by_cells. Qed.
Lemma lshift_bitwise : bitwise bin_bit_lshift.
Proof. unfold bitwise. by_cells. Qed.
Lemma rshift_bitwise : bitwise bin_bit_rshift.
Proof. unfold bitwise. by_cells. Qed.
Lemma and_bitwise : bitwise bin_bit_and.
Proof. unfold bitwise. by_cells. Qed.
Lemma xor_bitwise : bitwise bin_bit_xor.
Proof. unfold bitwise. by_cells. Qed.

(** Concatenation. *)
Lemma add_str v1 v2 v :
  is_none_or_undefined v1 || is_str v1 = true → bin_add v1 v2 = Ok v → is_str v = true.
Proof.
  revert v1 v2 v. intros [c1] [c2] v. destruct c1; intros H E; try discriminate H;
    destruct c2; try discriminate E. unfold bin_add in E. cbn in E. by simplify_eq.
Qed.
Lemma add_list v1 v2 v l :
  rc v1 = list_value l → bin_add v1 v2 = Ok v →
  ∃ l', rc v2 = list_value l' ∧ rc v = list_value (MkList (list_values l ++ list_values l')).
Proof.
  intros E. unfold bin_add. rewrite E. destruct (rc v2) eqn:E2; try discriminate. intros [= <-]. eauto.
Qed.
Lemma add_none v1 v2 v : is_none_or_undefined v1 = true → bin_add v1 v2 = Ok v → False.
Proof. intros H. unfold bin_add. unfold is_none_or_undefined in H. by destruct (rc v1). Qed.

(** Repetition: of an element of the kind [f] of a sequence. *)
Lemma repeated_elem acc l n r x :
  push_repeated acc l n = Ok r → x ∈ r → x ∈ acc ∨ x ∈ l.
Proof.
  unfold push_repeated. destruct (vec_is_empty l); [intros [= ->]; auto|].
  destruct (_ <=? _); [|done]. intros [= <-] [?|Hx]%elem_of_app; [by left|right].
  apply list_elem_of_In, in_concat in Hx as (l' & Hl'%list_elem_of_In & Hx%list_elem_of_In).
  by apply elem_of_replicate in Hl' as [-> _].
Qed.
End Operators.

(** A deep copy is in the types of the value. *)
Lemma values_copied copy keep v vs d x :
  x ∈ (values (copy_entries copy keep v vs d)).*2 → x ∈ (values d).*2 ∨ ∃ y, y ∈ vs.*2 ∧ x = copy y.
Proof.
  revert d. induction vs as [|[k y] vs IH]; intros d; cbn [copy_entries]; [auto|].
  intros [H|(z & ? & ->)]%IH; [|right; exists z; split; [by right|done]].
  assert (x ∈ (map_insert k (copy y) (values d)).*2) as H' by (destruct keep; [case_match|]; done).
  apply map_insert_vals in H' as [?| ->]; [by left|]. right. exists y. split; [by left|done].
Qed.

Section Types.
Variable lineage : string → list string.
Abbreviation inhab := (base_inhabits lineage).
Abbreviation sound := (sound_type lineage).

Lemma inhabits_deep_copy t v : inhab t v = true → inhab t (deep_copy v) = true.
Proof.
  revert v. induction t as [t IH] using SemaTypes.type_size_ind. intros v.
  destruct t as [ad k al fl].
  destruct k as [| | | | | | | | | |i|[dk dv dat]|ts|s|n|f| | |];
    try (destruct v as [[]]; cbn; done).
  - destruct v as [[]]; cbn -[deep_copy]; try done. cbn. rewrite !forallb_forall.
    intros H x (y & <- & Hy)%in_map_iff. apply IH; [rewrite SemaTypes.size_list; lia|auto].
  - destruct v as [[]]; cbn -[deep_copy]; try done. cbn. rewrite !forallb_forall.
    intros H [k x] Hx%list_elem_of_In. simpl.
    assert (x ∈ (values (copy_entries deep_copy false d (values d) dict_default)).*2) as Hx'.
    { apply list_elem_of_fmap. by exists (k, x). }
    apply values_copied in Hx' as [?%elem_of_nil|(y & (e & -> & He)%list_elem_of_fmap & ->)]; [done|].
    apply IH; [rewrite SemaTypes.size_dict; lia|]. by apply H, list_elem_of_In.
  - rewrite !inhabits_union. intros [H|(t & Ht & H)].
    + left. by destruct v as [[]].
    + right. exists t. split; [done|]. apply IH; [by apply SemaTypes.size_union|done].
Qed.

(** ** The kinds of operand types *)

Ltac by_kind t W :=
  destruct t as [ad k al fl]; pose proof (SemaTypes.wft_flags _ _ _ _ W) as ->;
  destruct k as [| | | | | | | | | |i|[dk dv dat]|ts|s|n|f| | |]; cbn; try done.

Lemma number_values t v :
  SemaTypes.wf_type t = true → SemaTypes.is_number t = true → inhab t v = true → numeric v = true.
Proof. intros W. by_kind t W; intros _; unfold numeric; destruct v as [[]]; done. Qed.
Lemma number_takes t v :
  SemaTypes.wf_type t = true → SemaTypes.is_number t = true →
  is_int v = true ∨ SemaTypes.is_float t = true ∧ is_float v = true → inhab t v = true.
Proof. intros W. by_kind t W; intros _; destruct v as [[]]; cbn; intuition congruence. Qed.
Lemma int_values t v :
  SemaTypes.wf_type t = true → SemaTypes.is_number t = true → SemaTypes.is_float t = false →
  inhab t v = true → is_none_or_undefined v || is_int v = true.
Proof. intros W. by_kind t W. Qed.
Lemma int_not_float t :
  SemaTypes.wf_type t = true → SemaTypes.is_int t = true →
  SemaTypes.is_number t = true ∧ SemaTypes.is_float t = false.
Proof. intros W. by_kind t W. Qed.
Lemma str_values t v :
  SemaTypes.wf_type t = true → SemaTypes.is_str t = true → inhab t v = true →
  is_none_or_undefined v || is_str v = true.
Proof. intros W. by_kind t W. Qed.
Lemma str_takes t v :
  SemaTypes.wf_type t = true → SemaTypes.is_str t = true → is_str v = true → inhab t v = true.
Proof. intros W. by_kind t W; intros _ ->; apply orb_true_r. Qed.
Lemma list_kind t :
  SemaTypes.wf_type t = true → SemaTypes.is_list t = true → ∃ i, SemaTypes.kind t = SemaTypes.TList i.
Proof. intros W. by_kind t W. eauto. Qed.
Lemma any_kind t v : SemaTypes.wf_type t = true → SemaTypes.is_any t = true → inhab t v = true.
Proof. intros W. by_kind t W. intros _. apply orb_true_r. Qed.
Lemma list_values_of t i v :
  SemaTypes.kind t = SemaTypes.TList i → inhab t v = true → is_none_or_undefined v = false →
  ∃ l, rc v = list_value l ∧ ∀ x, x ∈ list_values l → inhab i x = true.
Proof.
  destruct t as [ad k al fl]. simpl. intros ->. cbn [base_inhabits]. intros H Hv. rewrite Hv in H.
  destruct v as [[]]; try discriminate H. cbn in H. rewrite forallb_forall in H. eexists. split; [done|].
  intros x Hx. by apply H, list_elem_of_In.
Qed.
Lemma list_takes t i l :
  SemaTypes.kind t = SemaTypes.TList i → (∀ x, x ∈ list_values l → inhab i x = true) →
  inhab t (Ref (list_value l)) = true.
Proof.
  destruct t as [ad k al fl]. simpl. intros ->. cbn. intros H. apply forallb_forall.
  intros x Hx. by apply H, list_elem_of_In.
Qed.

(** An arithmetic operator on operands of numeric types, and one on integers. *)
Lemma arithmetic_sound op t1 t2 v1 v2 v a :
  arithmetic op → SemaTypes.wf_type t1 = true → SemaTypes.wf_type t2 = true →
  both_numbers t1 t2 = true → inhab t1 v1 = true → inhab t2 v2 = true → op v1 v2 = Ok v →
  inhab (if SemaTypes.is_float t1 || SemaTypes.is_float t2 then SemaTypes.float_ref a
         else SemaTypes.int_ref a) v = true.
Proof.
  intros Hop W1 W2 [N1 N2]%andb_true_iff H1 H2 E.
  pose proof (Hop v1 v2 v (number_values _ _ W1 N1 H1) (number_values _ _ W2 N2 H2) E) as R.
  destruct (SemaTypes.is_float t1 || SemaTypes.is_float t2) eqn:F.
  - apply number_takes; [done|done|]. destruct (is_int v1 && is_int v2); [by left|right].
    split; [done|apply R].
  - apply orb_false_iff in F as [F1 F2].
    pose proof (int_values _ _ W1 N1 F1 H1) as I1. pose proof (int_values _ _ W2 N2 F2 H2) as I2.
    apply number_takes; [done|done|]. left.
    destruct v1 as [[]], v2 as [[]]; cbn in R, I1, I2; try done; destruct R as (? & ? & ?); done.
Qed.
End Types.

(** ** Repetition *)

Section Repetition.
Context {HP : Profile} {HC : ContextConfig}.
Variable lineage : string → list string.
Abbreviation inhab := (base_inhabits lineage).

(** Multiplication by an integer, from either side, keeps the kind of the other
    operand, and the types of the elements of a list. *)
Lemma mul_by_int v1 v2 v w :
  is_none_or_undefined v1 || is_int v1 = true →
  bin_mul v1 v2 = Ok v ∧ w = v2 ∨ bin_mul v2 v1 = Ok v ∧ w = v2 →
  (is_int v = true ∧ is_int w = true) ∨ (is_float v = true ∧ is_float w = true) ∨
  (is_str v = true ∧ is_str w = true) ∨
  ∃ l l', rc w = list_value l ∧ v = ref_list l' ∧ ∀ x, x ∈ l' → x ∈ deep_copy <$> list_values l.
Proof.
  intros H1 HE.
  assert (∀ l n r, (vs ← push_repeated [] (deep_copy <$> list_values l) n; Ok (ref_list vs)) = Ok r →
    ∃ l', r = ref_list l' ∧ ∀ x, x ∈ l' → x ∈ deep_copy <$> list_values l) as Hrep.
  { intros l n r (vs & E & [= <-])%Res_bind_Ok_inv. eexists. split; [done|]. intros x Hx.
    by apply (repeated_elem _ _ _ _ _ E) in Hx as [?%elem_of_nil|?]. }
  destruct v1 as [[]], v2 as [[]]; try discriminate H1;
    (destruct HE as [[HE ->]|[HE ->]]; unfold bin_mul in HE; cbn [rc] in HE; try discriminate HE;
     try (apply Hrep in HE as (l' & -> & ?); do 3 right; by eauto);
     apply Res_bind_Ok_inv in HE as (? & ? & [= <-]); auto).
Qed.

Lemma mul_kind_sound t v1 v2 v :
  SemaTypes.wf_type t = true → TyCalc.is_mul_val_type_or_mul_val_union_type t = true →
  is_none_or_undefined v1 || is_int v1 = true → inhab t v2 = true →
  bin_mul v1 v2 = Ok v ∨ bin_mul v2 v1 = Ok v → inhab t v = true.
Proof.
  intros W HM H1 H2 HE.
  assert (∀ t, SemaTypes.wf_type t = true →
    existsb (SemaTypes.contains_flags t) [SemaTypes.INT; SemaTypes.FLOAT; SemaTypes.STR; SemaTypes.LIST] = true →
    inhab t v2 = true → inhab t v = true) as Hkind.
  { clear t W HM H2. intros t W HM H2.
    destruct (mul_by_int v1 v2 v v2 H1) as [[R1 R2]|[[R1 R2]|[[R1 R2]|(l & l' & R1 & -> & Hl)]]];
      [naive_solver|..];
      destruct t as [ad k al fl]; pose proof (SemaTypes.wft_flags _ _ _ _ W) as ->;
      destruct k as [| | | | | | | | | |i|[dk dv dat]|ts|s|n|f| | |]; try discriminate HM;
      cbn [base_inhabits] in *; destruct v2 as [[]]; try discriminate; cbn in R1 |- *;
      try (destruct v as [[]]; try discriminate; done).
    cbn in R1. injection R1 as ->. apply forallb_forall. intros x Hx%list_elem_of_In%Hl.
    apply list_elem_of_fmap in Hx as (y & -> & Hy). apply inhabits_deep_copy.
    cbn in H2. rewrite forallb_forall in H2. by apply H2, list_elem_of_In. }
  unfold TyCalc.is_mul_val_type_or_mul_val_union_type, TyCalc.is_kind_type_or_kind_union_type in HM.
  destruct t as [ad k al fl]. cbn [SemaTypes.kind] in HM.
  destruct (is_none_or_undefined v2) eqn:Hn.
  { exfalso. by destruct v2 as [[]], v1 as [[]]; try discriminate; destruct HE as [HE|HE]. }
  destruct k as [| | | | | | | | | | | |ts| | | | | |]; try (by apply Hkind).
  apply inhabits_union in H2 as [H2|(t & Ht & Hi)]; [congruence|]. apply inhabits_union. right.
  exists t. split; [done|]. apply Hkind; [by eapply SemaTypes.wft_union| |done].
  rewrite forallb_forall in HM. by apply HM, list_elem_of_In.
Qed.
End Repetition.

(** ** The table of the binary operators *)

Section Table.
Context {HP : Profile} {HC : ContextConfig}.
Variable powf : f64 → f64 → f64.
Variable to_json_string : ValueRef → string.
Variable schemas : string → option (ValueRef → ValueRef → ValueRef → Res ValueRef).
Variable type_pack_and_check : ValueRef → list string → bool → Res ValueRef.

(** The value of a binary expression on the values of both operands. *)
Definition eval_binop (op : Ast.BinOp) (v1 v2 : ValueRef) : Res ValueRef :=
  match op with
  | Ast.And => Ok (if is_truthy v1 then v2 else v1)
  | Ast.Or => Ok (if is_truthy v1 then v1 else v2)
  | _ => Eval.binary_value powf to_json_string schemas type_pack_and_check op v1 v2
  end.

(** The operators with entries in the table that hold of their results. *)
Definition sound_op (op : Ast.BinOp) : bool :=
  match op with
  | Ast.Add | Ast.Sub | Ast.Mul | Ast.FloorDiv | Ast.Pow | Ast.LShift | Ast.RShift | Ast.BitXor
  | Ast.BitAnd | Ast.Or => true
  | _ => false
  end.

Variable f64_to_string : f64 → string.
Variable lineage : string → list string.
Abbreviation inhab := (base_inhabits lineage).
Abbreviation typed := (typed lineage).
Hypothesis float_text : ∀ v name, name ∈ [SemaTypes.INT_TYPE_STR; SemaTypes.BOOL_TYPE_STR; SemaTypes.STR_TYPE_STR] →
  str_contains name (SemaTypes.tagged SemaTypes.FLOAT_TYPE_STR (f64_to_string v)) = false.
Hypothesis lineage_trans : ∀ n n' n'', n' ∈ lineage n → n'' ∈ lineage n' → n'' ∈ lineage n.
Variable set_order : list positive → list positive.
Hypothesis Hord : ∀ l, set_order l ≡ₚ l.
Variable a0 : positive.
Abbreviation ctx := (new_builtin_types a0).
Abbreviation has_builtins := (has_builtins a0).

(** Where the operator has a result, the type holds of it. *)
Definition result_in (op : Ast.BinOp) (t1 t2 r : TypeRef) : Prop :=
  ∀ v1 v2 v, inhab t1 v1 = true → inhab t2 v2 = true → eval_binop op v1 v2 = Ok v → inhab r v = true.

Lemma typed_wf h t : typed h t → SemaTypes.wf_type t = true.
Proof using. by intros [[? _]%sound_type_spec _]. Qed.
Lemma typed_item h t i : typed h t → SemaTypes.kind t = SemaTypes.TList i → typed h i.
Proof using.
  destruct t as [ad k al fl]. simpl. intros [Hs Hh] ->. split; [by eapply sound_list|].
  intros c Hc. apply Hh. cbn [cells]. by right.
Qed.

Lemma runs_number_binary h t1 t2 :
  runs h (number_binary t1 t2) (λ h' r, typed h' r ∧
    ∃ a, r = if SemaTypes.is_float t1 || SemaTypes.is_float t2 then SemaTypes.float_ref a
             else SemaTypes.int_ref a).
Proof using.
  unfold number_binary. destruct (_ || _); eapply runs_weaken;
    try (eapply (runs_new lineage h SemaTypes.float_ref) || eapply (runs_new lineage h SemaTypes.int_ref));
    try done; intros; by apply elem_of_nil in H || eauto.
Qed.

(** What is shown of an entry of the table. *)
Definition entry_sound (op : Ast.BinOp) (t1 t2 : TypeRef) (h : heap) (e : bool * TypeRef) : Prop :=
  typed h e.2 ∧ result_in op t1 t2 e.2.

Lemma builtin_in h (f : BuiltinTypes → TypeRef) :
  has_builtins h → f ctx ∈ builtin_list ctx → typed h (f ctx).
Proof using. intros. by eapply builtin_typed. Qed.
Lemma runs_unsupported op h t1 t2 : has_builtins h → runs h (unsupported ctx) (entry_sound op t1 t2).
Proof using.
  intros Hb. apply runs_ret. split; [apply (builtin_in h ty_any Hb); by left|].
  intros v1 v2 v _ _ _. cbn. apply orb_true_r.
Qed.
Lemma runs_arithmetic op h t1 t2 :
  arithmetic (eval_binop op) → typed h t1 → typed h t2 → both_numbers t1 t2 = true →
  runs h (supported (number_binary t1 t2)) (entry_sound op t1 t2).
Proof using.
  intros Hop T1 T2 HN. unfold supported. eapply runs_bind; [apply runs_number_binary|].
  intros h' r Hs [Tr [a ->]]. apply runs_ret. split; [done|]. intros v1 v2 v H1 H2 E.
  by apply (arithmetic_sound lineage (eval_binop op) t1 t2 v1 v2); [|eapply typed_wf..| | | |].
Qed.
Lemma runs_bitwise op h t1 t2 :
  bitwise (eval_binop op) → has_builtins h →
  runs h (mret (true, ty_int ctx)) (entry_sound op t1 t2).
Proof using.
  intros Hop Hb. apply runs_ret. split; [apply (builtin_in h ty_int Hb); do 2 right; by left|].
  intros v1 v2 v _ _ E. destruct (Hop v1 v2 v E) as (_ & _ & H). cbn. by rewrite H, orb_true_r.
Qed.
Lemma runs_concat h t1 t2 :
  typed h t1 → typed h t2 → SemaTypes.is_list t1 && SemaTypes.is_list t2 = true →
  runs h (supported (list_sup f64_to_string set_order t1 t2)) (entry_sound Ast.Add t1 t2).
Proof using float_text lineage_trans Hord.
  intros T1 T2 [L1 L2]%andb_true_iff.
  destruct (list_kind t1 (typed_wf _ _ T1) L1) as [i1 K1], (list_kind t2 (typed_wf _ _ T2) L2) as [i2 K2].
  pose proof (typed_item _ _ _ T1 K1) as I1. pose proof (typed_item _ _ _ T2 K2) as I2.
  unfold supported, list_sup, SemaTypes.list_item_ty. rewrite K1, K2.
  eapply (runs_bind _ _ _ (λ h' r, typed h' r ∧ result_in Ast.Add t1 t2 r)).
  2:{ intros h' r _ H. by apply runs_ret. }
  eapply runs_bind; [by apply (runs_lift _ _ i1 (λ h' a, h' = h ∧ a = i1))|].
  intros h1 a1 _ [-> ->].
  eapply runs_bind; [by apply (runs_lift _ _ i2 (λ h' a, h' = h ∧ a = i2))|]. intros h2 a2 _ [-> ->].
  eapply runs_bind.
  { apply (runs_sup f64_to_string lineage float_text lineage_trans set_order Hord h [i1; i2]).
    intros t [->| ->%list_elem_of_singleton]%elem_of_cons; done. }
  intros h3 i _ [Ti Hi]. eapply runs_weaken; [by apply (runs_list_ref lineage)|].
  intros h4 r _ [Tr [a ->]]. split; [done|]. intros v1 v2 v H1 H2 E. cbn [eval_binop Eval.binary_value] in E.
  destruct (is_none_or_undefined v1) eqn:N1; [exfalso; by eapply add_none|].
  destruct (list_values_of lineage t1 i1 v1 K1 H1 N1) as (l & R1 & F1).
  destruct (add_list v1 v2 v l R1 E) as (l' & R2 & R).
  assert (is_none_or_undefined v2 = false) as N2 by (unfold is_none_or_undefined; by rewrite R2).
  destruct (list_values_of lineage t2 i2 v2 K2 H2 N2) as (l2 & R2' & F2). rewrite R2 in R2'. injection R2' as <-.
  destruct v as [c]. simpl in R. subst c. apply (list_takes lineage _ i); [done|]. simpl.
  intros x [Hx|Hx]%elem_of_app; [apply (Hi i1)|apply (Hi i2)]; auto.
  - by left.
  - right. by left.
Qed.

Lemma binary_table_sound op h t1 t2 range :
  sound_op op = true → has_builtins h → typed h t1 → typed h t2 →
  runs h (binary_table f64_to_string set_order ctx t1 t2 op range) (entry_sound op t1 t2).
Proof using float_text lineage_trans Hord.
  intros Hop Hb T1 T2. pose proof (runs_unsupported op h t1 t2 Hb) as HU.
  pose proof (typed_wf _ _ T1) as W1. pose proof (typed_wf _ _ T2) as W2.
  destruct op; try discriminate Hop; cbn [binary_table].
  - (* + *)
    destruct (both_numbers t1 t2) eqn:HN.
    { apply runs_arithmetic; [apply add_arithmetic|done..]. }
    destruct (SemaTypes.is_str t1 && SemaTypes.is_str t2) eqn:HS.
    { apply andb_true_iff in HS as [S1 S2]. apply runs_ret.
      split; [apply (builtin_in h ty_str Hb); do 4 right; by left|].
      intros v1 v2 v H1 H2 E. apply str_takes; [done|done|]. apply (add_str v1 v2); [|exact E].
      by apply (str_values lineage t1). }
    destruct (SemaTypes.is_list t1 && SemaTypes.is_list t2) eqn:HL; [by apply runs_concat|done].
  - (* - *)
    destruct (both_numbers t1 t2) eqn:HN; [|done]. apply runs_arithmetic; [apply sub_arithmetic|done..].
  - (* * *)
    destruct (both_numbers t1 t2) eqn:HN.
    { apply runs_arithmetic; [apply mul_arithmetic|done..]. }
    destruct (SemaTypes.is_int t1 && is_mul_val_type_or_mul_val_union_type t2) eqn:HM1.
    { apply andb_true_iff in HM1 as [I1 M2]. apply runs_ret. split; [done|]. intros v1 v2 v H1 H2 E.
      destruct (int_not_float t1 W1 I1) as [N1 F1].
      apply (mul_kind_sound lineage t2 v1 v2); [done|done|by apply (int_values lineage t1)|done|by left]. }
    destruct (is_mul_val_type_or_mul_val_union_type t1 && SemaTypes.is_int t2) eqn:HM2; [|done].
    apply andb_true_iff in HM2 as [M1 I2]. apply runs_ret. split; [done|]. intros v1 v2 v H1 H2 E.
    destruct (int_not_float t2 W2 I2) as [N2 F2].
    apply (mul_kind_sound lineage t1 v2 v1); [done|done|by apply (int_values lineage t2)|done|by right].
  - (* ** *)
    destruct (both_numbers t1 t2) eqn:HN; [|done]. apply runs_arithmetic; [apply pow_arithmetic|done..].
  - (* // *)
    destruct (both_numbers t1 t2) eqn:HN; [|done]. eapply runs_bind.
    { instantiate (1 := λ h' _, True). unfold check_zero.
      destruct (is_zero_lit t2); [apply runs_error|by apply runs_ret]. }
    intros h' _ Hs _. apply runs_arithmetic; [apply floor_div_arithmetic|by eapply typed_mono..|done].
  - destruct (_ && _); [|done]. apply runs_bitwise; [apply lshift_bitwise|done].
  - destruct (_ && _); [|done]. apply runs_bitwise; [apply rshift_bitwise|done].
  - destruct (_ && _); [|done]. apply runs_bitwise; [apply xor_bitwise|done].
  - destruct (_ && _); [|done]. apply runs_bitwise; [apply and_bitwise|done].
  - (* or *)
    unfold supported. eapply runs_bind.
    { apply (runs_sup f64_to_string lineage float_text lineage_trans set_order Hord h [t1; t2]).
      intros t [->| ->%list_elem_of_singleton]%elem_of_cons; done. }
    intros h' r Hs [Tr Hr]. apply runs_ret. split; [done|]. intros v1 v2 v H1 H2 E.
    cbn [eval_binop] in E. injection E as <-. destruct (is_truthy v1).
    + apply (Hr t1); [by left|done].
    + apply (Hr t2); [right; by left|done].
Qed.

(** The type that the resolver gives to a binary operator holds of what the
    operator of the runtime returns, for the operators [+], [-], [*], [//], [**],
    the shifts, [^], [&] and [or]: from every state the resolver returns, whatever
    it reports, and where the evaluator has a result on values of the operand
    types, the result is a value of the type. *)
Lemma binary_sound op h left right range :
  sound_op op = true → has_builtins h → typed h left → typed h right →
  runs h (binary f64_to_string set_order ctx left right op range) (λ h' r,
    typed h' r ∧ result_in op left right r).
Proof using float_text lineage_trans Hord.
  intros Hop Hb T1 T2. unfold binary.
  eapply runs_bind; [by apply (literal_union_sound f64_to_string lineage float_text lineage_trans set_order Hord)|].
  intros h1 t1 Hs1 [Tt1 Ht1].
  eapply runs_bind.
  { apply (literal_union_sound f64_to_string lineage float_text lineage_trans set_order Hord a0 right);
      [by eapply has_builtins_mono|by eapply typed_mono]. }
  intros h2 t2 Hs2 [Tt2 Ht2].
  assert (has_builtins h2) as Hb2 by (eapply has_builtins_mono; [|done]; by etrans).
  destruct (SemaTypes.has_any_type [t1; t2]).
  { apply runs_ret. split; [apply (builtin_in h2 ty_any Hb2); by left|].
    intros v1 v2 v _ _ _. cbn. apply orb_true_r. }
  eapply runs_bind; [apply (binary_table_sound op); [done|done|by eapply typed_mono|done]|].
  intros h3 [b r] Hs3 [Tr Hr]. eapply runs_bind.
  { instantiate (1 := λ h' _, True). destruct b; [by apply runs_ret|apply runs_error]. }
  intros h4 _ Hs4 _. apply runs_ret. split; [by eapply typed_mono|].
  intros v1 v2 v H1 H2 E. apply (Hr v1 v2); auto.
Qed.

(** ** Unary operators and comparisons *)

Definition sound_unary (op : Ast.UnaryOp) : bool :=
  match op with Ast.UAdd | Ast.USub => true | _ => false end.
Definition eval_unop (op : Ast.UnaryOp) (v : ValueRef) : Res ValueRef :=
  match op with
  | Ast.UAdd => unary_plus v
  | Ast.USub => unary_minus v
  | Ast.Invert => Ok (unary_not v)
  | Ast.Not => Ok (unary_l_not v)
  end.
Lemma unary_number op v r :
  sound_unary op = true → eval_unop op v = Ok r → is_int v = true ∧ is_int r = true ∨ is_float v = true ∧ is_float r = true.
Proof using.
  intros Hop E. destruct op; try discriminate Hop; cbn [eval_unop] in E; unfold unary_plus, unary_minus in E;
    destruct v as [[]]; cbn [rc] in E; try discriminate E.
  all: repeat match goal with H : (_ ← _; _) = Ok _ |- _ => apply Res_bind_Ok_inv in H as (? & ? & ?) end;
    simplify_eq; auto.
Qed.

(** The sign operators keep the type of their operand, widened. *)
Lemma unary_sound op h ty range :
  sound_unary op = true → has_builtins h → typed h ty →
  runs h (unary f64_to_string set_order ctx ty op range) (λ h' r, typed h' r ∧
    ∀ v w, inhab ty v = true → eval_unop op v = Ok w → inhab r w = true).
Proof using float_text lineage_trans Hord.
  intros Hop Hb T. unfold unary.
  assert (∀ h', h ⊆ h' → runs h' (mret (ty_any ctx)) (λ h' r, typed h' r ∧
    ∀ v w, inhab ty v = true → eval_unop op v = Ok w → inhab r w = true)) as Hany.
  { intros h' Hs. apply runs_ret. split; [|intros v w _ _; cbn; apply orb_true_r].
    apply (builtin_in h' ty_any); [by eapply has_builtins_mono|by left]. }
  destruct (SemaTypes.has_any_type [ty]); [by apply Hany|].
  eapply runs_bind; [by apply (literal_union_sound f64_to_string lineage float_text lineage_trans set_order Hord)|].
  intros h1 t Hs1 [Tt Ht]. pose proof (typed_wf _ _ Tt) as W.
  destruct (match op with Ast.UAdd | Ast.USub => _ | Ast.Invert => _ | Ast.Not => _ end) eqn:HN.
  - apply runs_ret. split; [done|]. intros v w Hv E. specialize (Ht v Hv).
    assert (SemaTypes.is_number t = true) as N by by destruct op.
    destruct (unary_number op v w Hop E) as [[I R]|[I R]].
    + apply number_takes; auto.
    + apply number_takes; [done|done|]. right. split; [|done].
      destruct (SemaTypes.is_float t) eqn:F; [done|].
      pose proof (int_values lineage t v W N F Ht). by destruct v as [[]].
  - eapply runs_bind; [apply runs_error|]. intros h2 _ Hs2 _. apply Hany. by etrans.
Qed.

(** A comparison gives a boolean, and the resolver [bool] or [any]. *)
Lemma compare_value_bool op v1 v2 v : Eval.compare_value op v1 v2 = Ok v → is_bool v = true.
Proof using.
  assert (∀ m : Res bool, ref_bool <$> m = Ok v → is_bool v = true) as H.
  { intros m. destruct m; simpl; [|done]. by intros [= <-]. }
  destruct op; cbn [Eval.compare_value]; first [apply H | by intros [= <-]].
Qed.
Lemma compare_sound op h left right range :
  has_builtins h → typed h left → typed h right →
  runs h (compare f64_to_string set_order ctx left right op range) (λ h' r,
    typed h' r ∧ ∀ v, is_bool v = true → inhab r v = true).
Proof using float_text lineage_trans Hord.
  intros Hb T1 T2. unfold compare.
  assert (∀ h' t, h ⊆ h' → t ∈ [ty_any ctx; ty_bool ctx] →
    typed h' t ∧ ∀ v, is_bool v = true → inhab t v = true) as Hres.
  { intros h' t Hs Ht. assert (has_builtins h') as Hb' by by eapply has_builtins_mono.
    apply elem_of_cons in Ht as [->|Ht%list_elem_of_singleton]; [|subst t]; split.
    - apply (builtin_in h' ty_any Hb'). by left.
    - intros v _. cbn. apply orb_true_r.
    - apply (builtin_in h' ty_bool Hb'). right. by left.
    - intros v Hv. cbn. by rewrite Hv, orb_true_r. }
  eapply runs_bind; [by apply (literal_union_sound f64_to_string lineage float_text lineage_trans set_order Hord)|].
  intros h1 t1 Hs1 _.
  eapply runs_bind.
  { apply (literal_union_sound f64_to_string lineage float_text lineage_trans set_order Hord a0 right);
      [by eapply has_builtins_mono|by eapply typed_mono]. }
  intros h2 t2 Hs2 _. assert (h ⊆ h2) as Hs by by etrans.
  destruct (SemaTypes.has_any_type [t1; t2]); [apply runs_ret, Hres; [done|by left]|].
  destruct (comparable t1 t2 op); [apply runs_ret, Hres; [done|right; by left]|].
  eapply runs_bind; [apply runs_error|]. intros h3 _ Hs3 _. apply runs_ret, Hres; [by etrans|by left].
Qed.
End Table.
