(* ===== verification/ExprSound.v ===== *)
(** * Checked expressions evaluate to values of their types

    The resolver ([TyExpr]) against the evaluator ([Eval]) on the same syntax tree:
    for literals, the operators whose tables hold ([OpSound]), comparisons,
    conditionals, lists and formatted strings, over any other expressions of which
    it is known. *)

From stdpp Require Import base tactics list strings numbers gmap.
From Stdlib Require Import ZArith Floats Lia.
From S2P Require Import Prelude MachineInt IndexMap Str Float64 Value Arith.
From S2P Require SemaTypes Ast Eval TyExpr Units Cmp ListOps.
From S2P Require Import TyCalc TypeSound OpSound.
Local Open Scope Z_scope.
Local Set Warnings "-clear-no-such-hyp".

#[local] Existing Instances Eval.Ev_ret Eval.Ev_bind.

(** ** Induction on expressions *)

(** The expressions inside, for the expressions looked at here. *)
Definition subexprs (e : Ast.Expr) : list Ast.Expr :=
  match e with
  | Ast.Unary _ e | Ast.ParenExpr e | Ast.FormattedValue e _ => [e]
  | Ast.Binary l _ r => [l; r]
  | Ast.If body cond orelse => [body; cond; orelse]
  | Ast.ListExpr elts => elts
  | Ast.Compare l _ comparators => l :: comparators
  | Ast.JoinedString _ _ values => values
  | _ => []
  end.
Lemma subexprs_ind (P : Ast.Expr → Prop) :
  (∀ e, (∀ e', e' ∈ subexprs e → P e') → P e) → ∀ e, P e.
Proof.
  intros H. fix IH 1. intros e. apply H. apply Forall_forall.
  destruct e; cbn [subexprs]; try apply Forall_nil_2.
  - repeat constructor; apply IH.
  - repeat constructor; apply IH.
  - repeat constructor; apply IH.
  - repeat constructor; apply IH.
  - induction elts as [|x l IHl]; constructor; [apply IH|apply IHl].
  - constructor; [apply IH|]. induction comparators as [|x l IHl]; constructor; [apply IH|apply IHl].
  - induction values as [|x l IHl]; constructor; [apply IH|apply IHl].
  - repeat constructor; apply IH.
Qed.

Section Sound.
Context {HP : Profile} {HC : ContextConfig}.
Variable powf : f64 → f64 → f64.
Variable to_json_string to_yaml_string : ValueRef → string.
Variable f64_to_string : f64 → string.
Variable schemas : string → option (ValueRef → ValueRef → ValueRef → Res ValueRef).
Variable type_pack_and_check : ValueRef → list string → bool → Res ValueRef.
Variable to_lowercase : string → string.
Context {S : Type} {HS : Eval.Scopes S}.
Variable ev_rest : Ast.Expr → Eval.Ev S ValueRef.
Variable set_order : list positive → list positive.
Variable a0 : positive.
Abbreviation ctx := (new_builtin_types a0).
Variable get_pos get_end_pos : Ast.Expr → SemaTypes.Position.
Variable current_range : SemaTypes.Range.
Variable homogeneous_types : list Ast.Expr → TyM (option (list TypeRef)).
Variable ty_rest : Ast.Expr → TyM TypeRef.
Variable lineage : string → list string.

Abbreviation eval := (Eval.walk_expr powf to_json_string to_yaml_string f64_to_string schemas
  type_pack_and_check to_lowercase ev_rest).
Abbreviation type_of := (TyExpr.expr f64_to_string set_order ctx powf to_lowercase get_pos get_end_pos
  current_range homogeneous_types ty_rest).
Abbreviation inhab := (base_inhabits lineage).
Abbreviation typed := (typed lineage).
Abbreviation has_builtins := (has_builtins a0).

(** What is known of the states of the evaluator, say that the variables in scope
    have values of their types. *)
Variable Inv : S → Prop.
(** The expressions that depend on the scope and are known to be sound. *)
Variable base : Ast.Expr → bool.

(** Every value of the evaluation is a value of the type. *)
Definition holds (m : Eval.Ev S ValueRef) (t : TypeRef) : Prop :=
  ∀ s v s', Inv s → m s = Ok (Eval.Done v, s') → Inv s' ∧ inhab t v = true.
Definition sound_at (m : Eval.Ev S ValueRef) (h : heap) (t : TypeRef) : Prop := typed h t ∧ holds m t.

Hypothesis float_text : ∀ v name, name ∈ [SemaTypes.INT_TYPE_STR; SemaTypes.BOOL_TYPE_STR; SemaTypes.STR_TYPE_STR] →
  str_contains name (SemaTypes.tagged SemaTypes.FLOAT_TYPE_STR (f64_to_string v)) = false.
Hypothesis lineage_trans : ∀ n n' n'', n' ∈ lineage n → n'' ∈ lineage n' → n'' ∈ lineage n.
Hypothesis Hord : ∀ l, set_order l ≡ₚ l.
Hypothesis base_sound : ∀ e h, base e = true → has_builtins h → runs h (ty_rest e) (sound_at (eval e)).
(** Only a list that starts with an instance of a schema may be homogeneous. *)
Definition is_schema_expr (e : Ast.Expr) : bool := match e with Ast.Schema _ _ _ _ => true | _ => false end.
Hypothesis homogeneous_schemas : ∀ es, forallb (λ e, negb (is_schema_expr e)) es = true →
  homogeneous_types es = mret None.

(** ** The expressions of the theorem *)

Definition list_item (e : Ast.Expr) : bool := negb (Eval.is_unpacked e) && negb (is_schema_expr e).
Fixpoint core (e : Ast.Expr) : bool :=
  match e with
  | Ast.Unary op e => sound_unary op && core e
  | Ast.Binary l op r => sound_op op && (core l && core r)
  | Ast.If body cond orelse => core body && (core cond && core orelse)
  | Ast.ParenExpr e => core e
  | Ast.ListExpr elts => forallb (λ e, list_item e && core e) elts
  | Ast.Compare l ops comparators =>
      core l && forallb core comparators && Nat.leb 1 (length comparators) &&
      Nat.leb (length comparators) (length ops)
  | Ast.NumberLit None _ => true
  | Ast.NumberLit (Some suffix) value =>
      match value with Ast.Int v => is_Ok (Units.cal_num powf v (Eval.text suffix)) | _ => false end
  | Ast.StringLitExpr lit => plain_str (Eval.text (Ast.value lit))
  | Ast.NameConstantLit _ | Ast.Missing => true
  | Ast.JoinedString _ _ values =>
      forallb (λ e, match e with
                    | Ast.FormattedValue e _ => core e
                    | Ast.StringLitExpr _ => true
                    | _ => false
                    end) values
  | Ast.FormattedValue _ _ | Ast.ListIfItem _ _ _ | Ast.Starred _ => false
  | _ => base e
  end.
(** A part of a formatted string. *)
Definition part (e : Ast.Expr) : bool :=
  match e with
  | Ast.FormattedValue e _ => core e
  | Ast.StringLitExpr _ => true
  | _ => false
  end.

(** ** Evaluations *)

Lemma bind_Done {A B} (m : Eval.Ev S A) (f : A → Eval.Ev S B) s v s' :
  (m ≫= f) s = Ok (Eval.Done v, s') → ∃ a s1, m s = Ok (Eval.Done a, s1) ∧ f a s1 = Ok (Eval.Done v, s').
Proof using. unfold mbind, Eval.Ev_bind. destruct (m s) as [[[a|] s1]|]; try done. eauto. Qed.
Lemma lift_Done {A} (r : Res A) (s : S) v s' : Eval.lift r s = Ok (Eval.Done v, s') → r = Ok v ∧ s' = s.
Proof using. unfold Eval.lift. destruct r; [|done]. by intros [= <- <-]. Qed.

Lemma holds_bind m t (f : ValueRef → Eval.Ev S ValueRef) r :
  holds m t → (∀ v, inhab t v = true → holds (f v) r) → holds (m ≫= f) r.
Proof using.
  intros Hm Hf s v s' Hs (a & s1 & E1 & E2)%bind_Done. destruct (Hm _ _ _ Hs E1) as [H1 Ha].
  by apply (Hf a Ha s1).
Qed.
Lemma holds_ret v t : inhab t v = true → holds (mret v) t.
Proof using. intros Hv s w s' Hs [= <- <-]. done. Qed.
Lemma holds_lift r t : (∀ v, r = Ok v → inhab t v = true) → holds (Eval.lift r) t.
Proof using. intros Hr s v s' Hs [E ->]%lift_Done. auto. Qed.
Lemma holds_le m t r : (∀ v, inhab t v = true → inhab r v = true) → holds m t → holds m r.
Proof using. intros Hr Hm s v s' Hs E. destruct (Hm _ _ _ Hs E). auto. Qed.

Lemma runs_any h (m : Eval.Ev S ValueRef) :
  has_builtins h → (∀ s v s', m s ≠ Ok (Eval.Done v, s')) → runs h (mret (ty_any ctx)) (sound_at m).
Proof using.
  intros Hb Hm. apply runs_ret. split; [apply (builtin_in lineage a0 h ty_any Hb); by left|].
  intros s v s' _ E. by apply Hm in E.
Qed.
(** A literal: a new cell. *)
Lemma runs_literal h f v :
  (∀ a, SemaTypes.addr (f a) = a) → (∀ a, sound_type lineage (f a) = true) → (∀ a, cells (f a) = [f a]) →
  (∀ a, inhab (f a) v = true) → runs h (a ← alloc; mret (f a)) (sound_at (mret v)).
Proof using.
  intros Ha Hs Hc Hv. eapply runs_weaken; [apply (runs_new lineage h f)|]; [done|done| |].
  - intros a c. rewrite Hc. by intros ?%elem_of_nil.
  - intros h' t _ [Ht [a ->]]. split; [done|]. by apply holds_ret.
Qed.

(** ** Lists of expressions *)

Lemma runs_exprs es h :
  (∀ e, e ∈ es → ∀ h, has_builtins h → runs h (type_of e) (sound_at (eval e))) → has_builtins h →
  runs h (map_ty type_of es) (λ h' ts, Forall2 (λ e t, typed h' t ∧ holds (eval e) t) es ts).
Proof using.
  revert h. induction es as [|e es IH]; intros h He Hb; cbn [map_ty]; [by apply runs_ret|].
  eapply runs_bind; [apply He; [by left|done]|]. intros h1 t Hs1 [Tt Ht].
  eapply runs_bind; [apply IH; [intros; apply He; [by right|done]|by eapply has_builtins_mono]|].
  intros h2 ts Hs2 Hts. apply runs_ret. constructor; [|done]. split; [by eapply typed_mono|done].
Qed.

Lemma holds_items i a es l :
  Forall (λ e, Eval.is_unpacked e = false ∧ holds (eval e) i) es → (∀ x, x ∈ l → inhab i x = true) →
  holds (Eval.append_items eval es (ref_list l)) (SemaTypes.list_of a i).
Proof using.
  intros He. revert l. induction He as [|e es [Hu He] _ IH]; intros l Hl; cbn [Eval.append_items].
  { apply holds_ret. by apply (list_takes lineage _ i). }
  eapply holds_bind; [exact He|]. intros v Hv. rewrite Hu.
  intros s w s' Hs (l' & s1 & [E ->]%lift_Done & E2)%bind_Done. injection E as <-.
  eapply IH; [|exact Hs|exact E2].
  intros x [?| ->%list_elem_of_singleton]%elem_of_app; auto.
Qed.

(** ** Formatted strings *)

Lemma joined_str values : forallb part values = true → ∀ v, is_str v = true →
  (∀ e, e ∈ values → ∀ e' sp, e = Ast.FormattedValue e' sp → ∀ s v s', Inv s → eval e' s = Ok (Eval.Done v, s') → Inv s') →
  ∀ s w s', Inv s →
  Eval.join_parts to_json_string to_yaml_string f64_to_string to_lowercase eval values v s = Ok (Eval.Done w, s') →
  Inv s' ∧ is_str w = true.
Proof using.
  intros Hp. induction values as [|e values IH]; intros v Hv He s w s' Hs E; cbn [Eval.join_parts] in E.
  { injection E as <- <-. done. }
  cbn [forallb] in Hp. apply andb_true_iff in Hp as [Hpe Hp].
  apply bind_Done in E as (p & s1 & E1 & (w1 & s2 & [E2 ->]%lift_Done & E3)%bind_Done).
  apply (IH Hp w1) in E3; [done| |intros; by eapply He; [right|..]|].
  - eapply add_str; [|exact E2]. by rewrite Hv, orb_true_r.
  - destruct e; try discriminate Hpe; cbn [Eval.walk_joined_part] in E1.
    + unfold Eval.expect in E1. destruct (Eval.walk_string_lit lit s) as [[[]]|] eqn:E'; simplify_eq.
      by injection E' as <- <-.
    + unfold Eval.expect in E1.
      destruct (Eval.walk_formatted_value _ _ _ _ _ _ _ s) as [[[]]|] eqn:E'; simplify_eq.
      unfold Eval.walk_formatted_value in E'. apply bind_Done in E' as (x & s3 & E4 & E5).
      apply (He _ ltac:(by left) _ _ eq_refl _ _ _ Hs) in E4.
      destruct format_spec; [|by injection E5 as _ <-].
      repeat case_bool_decide; [by injection E5 as _ <-..|]. by apply lift_Done in E5 as [? _].
Qed.

(** ** Comparisons *)

Definition keeps (m : Eval.Ev S ValueRef) : Prop :=
  ∀ s v s', Inv s → m s = Ok (Eval.Done v, s') → Inv s'.
Definition bool_type : TypeRef := ty_bool ctx.
Lemma compare_holds op v1 v2 : holds (Eval.lift (Eval.compare_value op v1 v2)) bool_type.
Proof using.
  apply holds_lift. intros v Hv%compare_value_bool. cbn. by rewrite Hv, orb_true_r.
Qed.
Lemma chain_holds ops comparators l r :
  (∀ e, e ∈ comparators → keeps (eval e)) → inhab bool_type r = true →
  holds (Eval.compare_chain eval ops comparators l r) bool_type.
Proof using.
  revert ops l r. induction comparators as [|e es IH]; intros [|op ops] l r He Hr; cbn [Eval.compare_chain];
    try by apply holds_ret.
  { by apply holds_lift. }
  intros s v s' Hs (x & s1 & E1 & (w & s2 & E2 & E3)%bind_Done)%bind_Done.
  apply (He e ltac:(by left) _ _ _ Hs) in E1. destruct (compare_holds _ _ _ _ _ _ E1 E2) as [H2 Hw].
  destruct ops as [|op' ops]; [injection E3 as <- <-; done|].
  destruct (Eval.value_is_truthy w); [|injection E3 as <- <-; done].
  eapply IH; [|exact Hw|exact H2|exact E3]. intros; apply He; by right.
Qed.
Lemma walk_compare_holds l ops comparators :
  keeps (eval l) → (∀ e, e ∈ comparators → keeps (eval e)) →
  holds (Eval.walk_compare eval l ops comparators) bool_type.
Proof using.
  intros Hl He s v s' Hs (x & s1 & E1%(Hl _ _ _ Hs) & E2)%bind_Done.
  destruct comparators as [|e [|e' es]].
  - by apply lift_Done in E2 as [? _].
  - apply bind_Done in E2 as (y & s2 & E2 & E3). apply (He e ltac:(by left) _ _ _ E1) in E2.
    destruct ops; [by apply lift_Done in E3 as [? _]|]. by apply (compare_holds _ _ _ _ _ _ E2 E3).
  - exact (chain_holds _ _ _ ref_undefined He eq_refl _ _ _ E1 E2).
Qed.

(** The resolver's side: every comparator but the last is resolved. *)
Lemma runs_compare_rest t1 ops comparators h :
  (∀ e, e ∈ comparators → ∀ h, has_builtins h → runs h (type_of e) (sound_at (eval e))) →
  has_builtins h → typed h t1 → (length comparators ≤ length ops)%nat →
  runs h (TyExpr.compare_rest f64_to_string set_order ctx get_pos get_end_pos type_of t1 ops comparators)
    (λ _ _, True).
Proof using float_text lineage_trans Hord.
  revert ops h. induction comparators as [|e es IH]; intros ops h He Hb T1 Hl; cbn [TyExpr.compare_rest];
    [by apply runs_ret|].
  destruct es as [|e' es]; [by apply runs_ret|].
  destruct ops as [|op [|op' ops]]; simpl in Hl; [lia|lia|].
  eapply runs_bind; [by apply (runs_lift _ _ op' (λ h' _, h' = h))|]. intros h0 op0 _ ->.
  eapply runs_bind; [apply He; [by left|done]|]. intros h1 t Hs1 [Tt _].
  assert (has_builtins h1) as Hb1 by by eapply has_builtins_mono.
  eapply runs_bind.
  { apply (compare_sound f64_to_string lineage float_text lineage_trans set_order Hord a0);
      [done|by eapply typed_mono|done]. }
  intros h2 b Hs2 _. apply IH; [intros; apply He; [by right|done]|by eapply has_builtins_mono| |simpl; lia].
  apply (typed_mono lineage h); [by etrans|done].
Qed.

(** ** Soundness *)

Lemma core_joined values e : forallb part values = true → e ∈ values → part e = true.
Proof using. rewrite forallb_forall. intros H He. by apply H, list_elem_of_In. Qed.

Lemma runs_number suffix value h :
  core (Ast.NumberLit suffix value) = true → has_builtins h →
  runs h (type_of (Ast.NumberLit suffix value)) (sound_at (eval (Ast.NumberLit suffix value))).
Proof using.
  intros Hc Hb. cbn [TyExpr.expr TyExpr.walk_number_lit Eval.walk_expr Eval.walk_number_lit].
  destruct suffix as [suffix|]; [destruct value as [v|v]; [|done]|].
  - cbn [core] in Hc. destruct (Units.cal_num powf v (Eval.text suffix)) as [r|] eqn:E; [|done].
    eapply runs_bind; [by apply (runs_ret _ _ (λ h' x, h' = h ∧ x = v))|]. intros h' x _ [-> ->].
    eapply runs_bind; [by apply (runs_lift _ _ r (λ h' x, h' = h ∧ x = r))|]. intros h' x _ [-> ->].
    eapply runs_weaken;
      [by apply (runs_literal h (λ a, SemaTypes.number_multiplier a r v (Eval.text suffix))
                   (ref_unit r v (Eval.text suffix)))|].
    intros h' t _ [Tt Ht]. split; [done|]. intros s w s' Hs Ew. apply (Ht s w s' Hs).
    unfold Eval.walk_number_lit, mbind, Eval.Ev_bind, Eval.lift in Ew. cbv zeta in Ew. rewrite E in Ew. exact Ew.
  - destruct value as [v|v].
    + by apply (runs_literal h (λ a, SemaTypes.int_lit a v) (ref_int v)).
    + by apply (runs_literal h (λ a, SemaTypes.float_lit a (FloatOps.Prim2SF v)) (ref_float (FloatOps.Prim2SF v))).
Qed.
Lemma runs_name value h :
  has_builtins h →
  runs h (type_of (Ast.NameConstantLit value)) (sound_at (eval (Ast.NameConstantLit value))).
Proof using.
  intros Hb. assert (∀ v, is_none_or_undefined v = true → runs h (mret (ty_none ctx)) (sound_at (mret v))) as Hnone.
  { intros v Hv. apply runs_ret. split; [apply (builtin_in lineage a0 h ty_none Hb); do 6 right; by left|].
    apply holds_ret. by apply inhabits_none. }
  destruct value; cbn [TyExpr.expr TyExpr.walk_name_constant_lit Eval.walk_expr Eval.walk_name_constant_lit].
  - by apply (runs_literal h (λ a, SemaTypes.bool_lit a true) (ref_bool true)).
  - by apply (runs_literal h (λ a, SemaTypes.bool_lit a false) (ref_bool false)).
  - by apply Hnone.
  - by apply Hnone.
Qed.
Lemma runs_list elts h :
  forallb (λ e, list_item e && core e) elts = true →
  (∀ e, e ∈ elts → ∀ h, has_builtins h → runs h (type_of e) (sound_at (eval e))) → has_builtins h →
  runs h (TyExpr.walk_list_expr f64_to_string set_order homogeneous_types type_of elts)
    (sound_at (Eval.walk_list_expr eval elts)).
Proof using float_text lineage_trans Hord homogeneous_schemas.
  intros Hc He Hb. unfold TyExpr.walk_list_expr. rewrite homogeneous_schemas.
  2:{ rewrite forallb_forall in Hc |- *. intros e Hin%Hc. unfold list_item in Hin.
      by apply andb_true_iff in Hin as [[_ ?]%andb_true_iff _]. }
  eapply (runs_bind _ _ _ (λ h' x, h' = h ∧ x = None)).
  { destruct (Nat.ltb _ _); by apply runs_ret. }
  intros h' x _ [-> ->]. eapply runs_bind; [by apply runs_exprs|]. intros h1 ts Hs1 Hts.
  eapply runs_bind.
  { apply (runs_sup f64_to_string lineage float_text lineage_trans set_order Hord h1 ts).
    intros t Ht. clear -Hts Ht. induction Hts as [|??? ts [? _]]; [by apply elem_of_nil in Ht|].
    apply elem_of_cons in Ht as [->|]; auto. }
  intros h2 i Hs2 [Ti Hi]. eapply runs_weaken; [by apply (runs_list_ref lineage)|].
  intros h3 l _ [Tl [a ->]]. split; [done|]. apply holds_items; [|by intros ? ?%elem_of_nil].
  clear He. induction Hts as [|e t elts ts [Tt Ht] _ IH]; [constructor|].
  cbn [forallb] in Hc. apply andb_true_iff in Hc as [[Hit _]%andb_true_iff Hc].
  constructor; [|apply IH; [done|intros; by eapply Hi; [right|]]]. split.
  - unfold list_item in Hit. apply andb_true_iff in Hit as [Hu _]. by apply negb_true_iff.
  - apply (holds_le _ t); [|done]. intros v. apply Hi. by left.
Qed.

(** Every part of a formatted string has a type. *)
Lemma runs_parts values h :
  forallb part values = true →
  (∀ e sp, Ast.FormattedValue e sp ∈ values → ∀ h, has_builtins h → runs h (type_of e) (sound_at (eval e))) →
  has_builtins h → runs h (map_ty type_of values) (λ _ _, True).
Proof using.
  revert h. induction values as [|e values IH]; intros h Hp He Hb; cbn [map_ty]; [by apply runs_ret|].
  cbn [forallb] in Hp. apply andb_true_iff in Hp as [Hpe Hp].
  eapply (runs_bind _ _ _ (λ _ _, True)).
  - destruct e; try discriminate Hpe.
    + cbn [TyExpr.expr]. unfold TyExpr.walk_string_lit. intros st Hst.
      eexists _, _, h. split_and!; [reflexivity|done|done| |done].
      intros a t Ha%Hst. simpl. lia.
    + cbn [TyExpr.expr]. unfold TyExpr.walk_formatted_value.
      eapply (runs_bind _ _ _ (λ h' _, True)).
      { destruct format_spec; [|by apply runs_ret]. case_bool_decide; [by apply runs_ret|apply runs_error]. }
      intros h1 _ Hs1 _. eapply runs_weaken; [eapply He; [by left|by eapply has_builtins_mono]|done].
  - intros h1 t Hs1 _. eapply (runs_bind _ _ _ (λ _ _, True)).
    + apply IH; [done| |by eapply has_builtins_mono]. intros; eapply He; [by right|done].
    + intros h2 ts _ _. by apply runs_ret.
Qed.

(** A conditional, and a binary operator, on sound parts. *)
Lemma holds_if body cond orelse t :
  keeps (eval cond) → holds (eval body) t → holds (eval orelse) t →
  holds (Eval.walk_if_expr eval body cond orelse) t.
Proof using.
  intros Hc Hb Ho s v s' Hs (c & s1 & E1%(Hc _ _ _ Hs) & E2)%bind_Done.
  destruct (Eval.value_is_truthy c); [by apply (Hb s1)|by apply (Ho s1)].
Qed.
Lemma holds_binary op l r t1 t2 t :
  sound_op op = true → holds (eval l) t1 → holds (eval r) t2 →
  result_in powf to_json_string schemas type_pack_and_check lineage op t1 t2 t →
  holds (Eval.walk_binary_expr powf to_json_string schemas type_pack_and_check eval l op r) t.
Proof using.
  intros Hop Hl Hr Ht. destruct op; try discriminate Hop; cbn [Eval.walk_binary_expr].
  10:{ eapply holds_bind; [exact Hl|]. intros v1 H1 s v s' Hs E. specialize (Ht v1).
       cbn [eval_binop] in Ht. unfold Eval.value_is_truthy in E.
       destruct (is_truthy v1).
       - injection E as <- <-. split; [done|]. apply (Ht ref_none); [done| |done]. by apply inhabits_none.
       - destruct (Hr _ _ _ Hs E) as [? H2]. split; [done|]. by apply (Ht v). }
  all: eapply holds_bind; [exact Hl|]; intros v1 H1; eapply holds_bind; [exact Hr|]; intros v2 H2;
    apply holds_lift; intros v E; by apply (Ht v1 v2).
Qed.
Lemma sound_keeps e h t : sound_at (eval e) h t → keeps (eval e).
Proof using. intros [_ H] s v s' Hs E. by destruct (H s v s' Hs E). Qed.
(** Evaluation keeps the invariant, whatever the state of the resolver. *)
Definition init_heap : heap := list_to_map ((λ t, (SemaTypes.addr t, t)) <$> builtin_list ctx).
Lemma init_builtins : has_builtins init_heap ∧ ok_state init_heap (MkTyState (a0 + 7) []).
Proof using.
  assert (NoDup ((λ t, (SemaTypes.addr t, t)) <$> builtin_list ctx).*1) as Hnd.
  { cbn. repeat (constructor; [rewrite ?not_elem_of_cons; split_and?; try lia; apply not_elem_of_nil|]).
    constructor. }
  split.
  - intros t Ht. apply elem_of_list_to_map; [done|]. apply list_elem_of_fmap. by exists t.
  - intros a t E. apply elem_of_list_to_map_2 in E. apply list_elem_of_fmap in E as (u & [= -> ->] & Hu).
    cbn in Hu |- *. repeat (apply elem_of_cons in Hu as [->|Hu]; [cbn; lia|]). by apply elem_of_nil in Hu.
Qed.
Lemma runs_keeps e : (∀ h, has_builtins h → runs h (type_of e) (sound_at (eval e))) → keeps (eval e).
Proof using.
  intros H. destruct init_builtins as [Hb Ho].
  destruct (H init_heap Hb _ Ho) as (t & st & h & _ & _ & _ & _ & Hs). by eapply sound_keeps.
Qed.

Lemma expr_sound_at e :
  (core e = true → ∀ h, has_builtins h → runs h (type_of e) (sound_at (eval e))) ∧
  (∀ e' sp, e = Ast.FormattedValue e' sp → core e' = true →
    ∀ h, has_builtins h → runs h (type_of e') (sound_at (eval e'))).
Proof using float_text lineage_trans Hord base_sound homogeneous_schemas.
  induction e as [e IHp] using subexprs_ind. split.
  2:{ intros e' sp -> Hc h Hb. apply IHp; [by left|done..]. }
  assert (∀ e', e' ∈ subexprs e → core e' = true → ∀ h, has_builtins h → runs h (type_of e') (sound_at (eval e')))
    as IH by (intros; by apply IHp).
  intros Hc h Hb.
  destruct e; try (by apply base_sound); try discriminate Hc; cbn [subexprs] in IH;
    cbn [core] in Hc; cbn [TyExpr.expr Eval.walk_expr].
  - apply andb_true_iff in Hc as [Hop Hc].
    eapply runs_bind; [apply IH; [by left|done|done]|]. intros h1 t Hs1 [Tt Ht].
    eapply runs_weaken.
    { apply (unary_sound f64_to_string lineage float_text lineage_trans set_order Hord a0 op h1 t);
        [done|by eapply has_builtins_mono|done]. }
    intros h2 r Hs2 [Tr Hr]. split; [done|]. unfold Eval.walk_unary_expr.
    eapply holds_bind; [exact Ht|]. intros v Hv.
    destruct op; try discriminate Hop; apply holds_lift; intros w Ew; by apply (Hr v w).
  - apply andb_true_iff in Hc as [Hop [Hc1 Hc2]%andb_true_iff].
    assert (runs h (TyExpr.walk_binary_expr f64_to_string set_order ctx get_pos get_end_pos type_of e1 op e2)
      (sound_at (Eval.walk_binary_expr powf to_json_string schemas type_pack_and_check eval e1 op e2))) as Hbin.
    { eapply runs_bind; [apply IH; [by left|done|done]|]. intros h1 t1 Hs1 [Tt1 Ht1].
      eapply runs_bind; [apply IH; [right; by left|done|by eapply has_builtins_mono]|].
      intros h2 t2 Hs2 [Tt2 Ht2]. eapply runs_weaken.
      { apply (binary_sound powf to_json_string schemas type_pack_and_check f64_to_string lineage float_text
                 lineage_trans set_order Hord a0 op h2 t1 t2);
          [done|by apply (has_builtins_mono a0 h); [etrans|]|by eapply typed_mono|done]. }
      intros h3 r Hs3 [Tr Hr]. split; [done|]. by apply (holds_binary op e1 e2 t1 t2). }
    destruct op; try discriminate Hop; exact Hbin.
  - apply andb_true_iff in Hc as [Hc1 [Hc2 Hc3]%andb_true_iff].
    eapply runs_bind; [apply IH; [right; by left|done|done]|]. intros h1 t1 Hs1 H1.
    assert (has_builtins h1) as Hb1 by by eapply has_builtins_mono.
    eapply runs_bind; [apply IH; [by left|done|done]|]. intros h2 t2 Hs2 [Tt2 Ht2].
    assert (has_builtins h2) as Hb2 by by eapply has_builtins_mono.
    eapply runs_bind; [apply IH; [do 2 right; by left|done|done]|]. intros h3 t3 Hs3 [Tt3 Ht3].
    eapply runs_weaken.
    { apply (runs_sup f64_to_string lineage float_text lineage_trans set_order Hord h3 [t2; t3]).
      intros t [->| ->%list_elem_of_singleton]%elem_of_cons; [by eapply typed_mono|done]. }
    intros h4 r Hs4 [Tr Hr]. split; [done|].
    apply holds_if; [by eapply sound_keeps|apply (holds_le _ t2)|apply (holds_le _ t3)]; try done;
      intros v; apply Hr; [by left|right; by left].
  - apply IH; [by left|done|done].
  - apply runs_list; [done| |done]. intros e He h' Hb'. apply IH; [done| |done].
    rewrite forallb_forall in Hc. by apply list_elem_of_In, Hc, andb_true_iff, proj2 in He.
  - apply andb_true_iff in Hc as [[[Hc1 Hc2]%andb_true_iff Hl1%Nat.leb_le]%andb_true_iff Hl2%Nat.leb_le].
    assert (∀ e, e ∈ comparators → ∀ h, has_builtins h → runs h (type_of e) (sound_at (eval e))) as He.
    { intros e' He' h' Hb'. apply IH; [by right| |done]. rewrite forallb_forall in Hc2.
      by apply Hc2, list_elem_of_In. }
    assert (keeps (eval e)) as Hk by (apply runs_keeps; intros; apply IH; [by left|done..]).
    unfold TyExpr.walk_compare. eapply runs_bind; [apply IH; [by left|done|done]|].
    intros h1 t1 Hs1 [Tt1 _]. destruct comparators as [|e' es]; [simpl in Hl1; lia|].
    eapply runs_bind; [apply He; [by left|by eapply has_builtins_mono]|]. intros h2 t2 Hs2 [Tt2 _].
    destruct ops as [|op ops]; [simpl in Hl2; lia|].
    eapply runs_bind; [by apply (runs_lift _ _ op (λ h' _, h' = h2))|]. intros h0 op0 _ ->.
    assert (has_builtins h2) as Hb2 by (apply (has_builtins_mono a0 h); [by etrans|done]).
    eapply runs_bind.
    { apply (compare_sound f64_to_string lineage float_text lineage_trans set_order Hord a0);
        [done|by eapply typed_mono|done]. }
    intros h3 b Hs3 _. assert (has_builtins h3) as Hb3 by by eapply has_builtins_mono.
    eapply (runs_bind _ _ _ (λ _ _, True)).
    { eapply runs_weaken; [apply runs_compare_rest|done].
      - intros e0 He0. apply He. by right.
      - done.
      - apply (typed_mono lineage h1); [by etrans|done].
      - simpl in *. lia. }
    intros h4 _ Hs4 _. apply runs_ret. split.
    + apply (builtin_in lineage a0 h4 ty_bool); [by eapply has_builtins_mono|right; by left].
    + apply walk_compare_holds; [done|]. intros e0 He0. by apply runs_keeps, He.
  - by apply runs_number.
  - by apply (runs_literal h (λ a, SemaTypes.str_lit a (Eval.text (Ast.value lit)))
                (ref_str (Eval.text (Ast.value lit)))).
  - by apply runs_name.
  - assert (∀ e sp, Ast.FormattedValue e sp ∈ values → ∀ h, has_builtins h → runs h (type_of e) (sound_at (eval e)))
      as He.
    { intros e sp Hin h' Hb'. apply (IHp _ Hin) with sp; [done| |done]. by apply (core_joined values) in Hin. }
    eapply runs_bind; [by apply runs_parts|]. intros h1 ts Hs1 _. apply runs_ret. split.
    + apply (builtin_in lineage a0 h1 ty_str); [by eapply has_builtins_mono|do 4 right; by left].
    + intros s v s' Hs E. unfold Eval.walk_joined_string in E.
      apply (joined_str values Hc) in E as [? Hv]; [|done| |done].
      * split; [done|]. cbn. by rewrite Hv, orb_true_r.
      * intros e Hin e' sp ->. apply runs_keeps. by apply (He e' sp).
  - by apply runs_any.
Qed.

End Sound.

(** ** Examples *)

Module Sample.
Definition fmt (v : f64) : string := "0.5".
Lemma format_text v name : name ∈ [SemaTypes.INT_TYPE_STR; SemaTypes.BOOL_TYPE_STR; SemaTypes.STR_TYPE_STR] →
  str_contains name (SemaTypes.tagged SemaTypes.FLOAT_TYPE_STR (fmt v)) = false.
Proof.
  intros Hn. repeat (apply elem_of_cons in Hn as [->|Hn]; [reflexivity|]). by apply elem_of_nil in Hn.
Qed.
#[local] Instance profile : Profile := {| overflow_checks := true |}.
#[local] Instance config : ContextConfig :=
  {| debug_mode := false; strict_range_check := false; disable_schema_check := false |}.
(** No scopes: the state of the evaluator is empty. *)
#[local] Instance no_scopes : Eval.Scopes unit := {|
  Eval.enter_scope := mret tt; Eval.leave_scope := mret tt;
  Eval.is_local_var _ := mret false; Eval.add_local_var _ := mret tt;
  Eval.remove_local_var _ := mret tt; Eval.clear_local_vars := mret tt;
  Eval.add_or_update_local_variable_within_scope _ _ := mret tt;
  Eval.store_identifier _ _ := mret tt |}.

Definition json (v : ValueRef) : string := type_str v.
Definition schemas (name : string) : option (ValueRef → ValueRef → ValueRef → Res ValueRef) := None.
Definition pack (v : ValueRef) (types : list string) (strict : bool) : Res ValueRef := Ok v.
Definition unknown (e : Ast.Expr) : Eval.Ev unit ValueRef := (Eval.fail "unknown").
Definition at_start (e : Ast.Expr) : SemaTypes.Position := SemaTypes.dummy_pos.
Definition here : SemaTypes.Range := (SemaTypes.dummy_pos, SemaTypes.dummy_pos).
Definition no_homogeneous (es : list Ast.Expr) : TyM (option (list TypeRef)) := mret None.
Abbreviation ctx := (new_builtin_types 1).
Definition untyped (e : Ast.Expr) : TyM TypeRef := mret (ty_any ctx).
Definition eval (e : Ast.Expr) : Res (Eval.Outcome ValueRef * unit) :=
  (Eval.walk_expr f_add json json fmt schemas pack id unknown e tt).
(** The type and the diagnostics, from the state after [TypeContext::new]. *)
Definition type_of (e : Ast.Expr) : Res (TypeRef * list string) :=
  r ← TyExpr.expr fmt id ctx f_add id at_start at_start here no_homogeneous untyped e (MkTyState 8 []);
  Ok (r.1, (type_errors r.2).*1.*2).
(** What a type and a value look like. *)
Definition shown (e : Ast.Expr) : Res (string * list string) :=
  r ← type_of e; Ok (SemaTypes.ty_str fmt r.1, r.2).
Definition value (e : Ast.Expr) : Res ValueRef :=
  r ← eval e; match r.1 with Eval.Done v => Ok v | Eval.Err _ => Panic ExpectFailed end.

Definition num (n : Z) : Ast.Expr := Ast.NumberLit None (Ast.Int n).
Definition half : Ast.Expr := Ast.NumberLit None (Ast.FloatLit 0.5%float).
Definition str (s : string) : Ast.Expr := Ast.StringLitExpr (Ast.MkStringLit false (Token.intern s) (Token.intern s)).
Definition true_lit : Ast.Expr := Ast.NameConstantLit Ast.NTrue.
(** [[1 + 2, "ab" * 2, 3 if 1 < 2 else None]] *)
Definition sample : Ast.Expr :=
  Ast.ListExpr [Ast.Binary (num 1) Ast.Add (num 2); Ast.Binary (str "ab") Ast.Mul (num 2);
                Ast.If (num 3) (Ast.Compare (num 1) [Ast.CLt] [num 2]) (Ast.NameConstantLit Ast.NNone)].

Example sample_type : shown sample = Ok ("[int | str(ab)]", []).
Proof. vm_compute. reflexivity. Qed.
Example sample_value : value sample = Ok (ref_list [ref_int 3; ref_str "abab"; ref_int 3]).
Proof. vm_compute. reflexivity. Qed.

Definition no_lineage (name : string) : list string := [].

(** Where the tables are wrong. *)
Definition bin (l : Ast.Expr) (op : Ast.BinOp) (r : Ast.Expr) : Ast.Expr := Ast.Binary l op r.
(** The type that is given, without diagnostics, does not hold of the value. *)
Definition wrong (e : Ast.Expr) : bool :=
  match type_of e, value e with
  | Ok (t, []), Ok v => negb (base_inhabits no_lineage t v)
  | _, _ => false
  end.
(** [1 / 2] is an [int] for the resolver; the evaluator divides as floats. *)
Example div_is_float : shown (bin (num 1) Ast.Div (num 2)) = Ok ("int", []) ∧
  wrong (bin (num 1) Ast.Div (num 2)) = true.
Proof. split; vm_compute; reflexivity. Qed.
(** [0.5 % 2] is an [int] for the resolver. *)
Example mod_is_float : shown (bin half Ast.Mod (num 2)) = Ok ("int", []) ∧
  wrong (bin half Ast.Mod (num 2)) = true.
Proof. split; vm_compute; reflexivity. Qed.
(** [1 and 2] is a [bool] for the resolver; the evaluator gives the operand. *)
Example and_is_operand : shown (bin (num 1) Ast.And (num 2)) = Ok ("bool", []) ∧
  value (bin (num 1) Ast.And (num 2)) = Ok (ref_int 2) ∧ wrong (bin (num 1) Ast.And (num 2)) = true.
Proof. split_and!; vm_compute; reflexivity. Qed.
(** [not 1] has the type of its operand for the resolver, and so has [~True]. *)
Example not_is_bool : shown (Ast.Unary Ast.Not (num 1)) = Ok ("int(1)", []) ∧
  wrong (Ast.Unary Ast.Not (num 1)) = true.
Proof. split; vm_compute; reflexivity. Qed.
Example invert_is_int : shown (Ast.Unary Ast.Invert true_lit) = Ok ("bool(True)", []) ∧
  wrong (Ast.Unary Ast.Invert true_lit) = true.
Proof. split; vm_compute; reflexivity. Qed.
(** A literal operand keeps its literal type: [-1] has the type [1], and ['ab' * 2]
    the type ['ab']. *)
Example literal_kept : shown (Ast.Unary Ast.USub (num 1)) = Ok ("int(1)", []) ∧
  value (Ast.Unary Ast.USub (num 1)) = Ok (ref_int (-1)) ∧
  shown (bin (str "ab") Ast.Mul (num 2)) = Ok ("str(ab)", []) ∧
  value (bin (str "ab") Ast.Mul (num 2)) = Ok (ref_str "abab").
Proof. split_and!; vm_compute; reflexivity. Qed.
(** [1 < 2 < 'ab']: the last comparator is not looked at; the evaluator panics. *)
Example last_comparator_unchecked :
  shown (Ast.Compare (num 1) [Ast.CLt; Ast.CLt] [num 2; str "ab"]) = Ok ("bool", []) ∧
  is_Ok (value (Ast.Compare (num 1) [Ast.CLt; Ast.CLt] [num 2; str "ab"])) = false.
Proof. split; vm_compute; reflexivity. Qed.
(** [[if False: [1] elif True: [2] else: [2]]]: the items of the second branch are taken for
    the list itself. *)
Definition if_lists : Ast.Expr :=
  Ast.ListExpr [Ast.ListIfItem (Ast.NameConstantLit Ast.NFalse) [Ast.ListExpr [num 1]]
    (Some (Ast.ListIfItem true_lit [Ast.ListExpr [num 2]] (Some (Ast.ListExpr [Ast.ListExpr [num 2]]))))].
Example elif_items_unwrapped : shown if_lists = Ok ("[int(2) | [int(1)]]", []) ∧
  value if_lists = Ok (ref_list [ref_list [ref_int 2]]).
Proof. split; vm_compute; reflexivity. Qed.
(** The conversion of an [int] to [float] is reported, though every [int] is a
    [float]: only whether the target is below the operand is tested. *)
Example as_float_reported :
  (r ← binary fmt id ctx (ty_int ctx) (ty_float ctx) Ast.As here (MkTyState 8 []);
   Ok (type_errors r.2).*1.*2) =
  Ok ["Conversion of type 'int' to type 'float' may be a mistake because neither type sufficiently overlaps with the other"] ∧
  SemaTypes.subsume fmt (ty_int ctx) (ty_float ctx) false = Ok true.
Proof. split; vm_compute; reflexivity. Qed.
End Sample.

