(* ===== verification/Lazy.v ===== *)
(** * Setters and the lazy scope of a package

    [crates/evaluator/src/lazy.rs]: the statements that assign each global variable
    (its setters), the cache of the variables that have been computed, and the
    backtracking information of a statement that is run to compute a variable.

    A statement is identified by its place: the module or the function that it is
    in and the path to it through the branches of conditional statements.  The
    code compares ids that are unique, so that only their equality matters. *)

From stdpp Require Import base tactics list strings numbers.
From Stdlib Require Import ZArith Lia.
From S2P Require Import Prelude IndexMap Value DictOps.
From S2P Require Ast Eval.
Local Set Warnings "-clear-no-such-hyp".

(** What a statement belongs to: a module of a package or a function, by its frame. *)
Inductive Owner :=
  | OModule (pkgpath : string) (module : nat)
  | OFrame (frame : nat).
#[export] Instance Owner_eq_dec : EqDecision Owner.
Proof. solve_decision. Defined.
Definition AstIndex : Type := Owner * list nat.
(** The id of a statement of a list, of the first and of the second branch of a
    conditional. *)
Definition nth_stmt (id : AstIndex) (i : nat) : AstIndex := (id.1, id.2 ++ [i]).
Definition in_body (id : AstIndex) : AstIndex := nth_stmt id 0.
Definition in_orelse (id : AstIndex) : AstIndex := nth_stmt id 1.

(** ** Setters *)

Inductive SetterKind := Normal | KIf | KOrElse.
#[export] Instance SetterKind_eq_dec : EqDecision SetterKind.
Proof. solve_decision. Defined.

Record Setter := MkSetter {
  setter_index : option nat;
  setter_stmt : nat;
  stmt_id : AstIndex;
  stopped : option AstIndex;
  setter_kind : SetterKind }.

(** What is known of the statement that is run to compute a variable. *)
Record BacktrackMeta := MkMeta {
  meta_stmt_id : option AstIndex;
  meta_stopped : option AstIndex;
  is_break : bool;
  meta_kind : SetterKind }.
Definition meta_of (setter : Setter) : BacktrackMeta :=
  MkMeta (Some (stmt_id setter)) (stopped setter) false (setter_kind setter).

(** ** Lazy scopes *)

Record LazyEvalScope := MkLazy {
  cache : IndexMap string ValueRef;
  levels : IndexMap string nat;
  setters : IndexMap string (list Setter);
  cal_times : IndexMap string nat }.

Definition set_cache (f : IndexMap string ValueRef → IndexMap string ValueRef) (self : LazyEvalScope) :=
  MkLazy (f (cache self)) (levels self) (setters self) (cal_times self).
Definition set_levels (f : IndexMap string nat → IndexMap string nat) (self : LazyEvalScope) :=
  MkLazy (cache self) (f (levels self)) (setters self) (cal_times self).

Definition is_backtracking (self : LazyEvalScope) (key : string) : bool :=
  Nat.ltb 0 (default 0 (map_get key (levels self))).
Definition setter_len (self : LazyEvalScope) (key : string) : nat :=
  length (default [] (map_get key (setters self))).
Definition cal_increment (self : LazyEvalScope) (key : string) : bool * LazyEvalScope :=
  if is_backtracking self key then (false, self)
  else
    let next_cal_time := default 0 (map_get key (cal_times self)) + 1 in
    (Nat.leb (setter_len self key) next_cal_time,
     MkLazy (cache self) (levels self) (setters self) (map_insert key next_cal_time (cal_times self))).
Definition is_last_setter_ast_index (self : LazyEvalScope) (key : string) (id : AstIndex) : bool :=
  if is_backtracking self key then false
  else match list.last (default [] (map_get key (setters self))) with
       | Some s => bool_decide (default (stmt_id s) (stopped s) = id)
       | None => false
       end.

(** ** Emission *)

Definition BodyMap : Type := IndexMap string (list Setter).

Definition add_setters (s : BodyMap) (e : string * list Setter) : BodyMap :=
  match map_get e.1 s with
  | Some values => map_insert e.1 (values ++ e.2) s
  | None => map_insert e.1 e.2 s
  end.
Definition merge_setters (s other : BodyMap) : BodyMap := foldl add_setters s other.
Fixpoint merge_variables_and_setters (v : ValueRef) (s : BodyMap) (other : list (string * list Setter))
    : Res (ValueRef * BodyMap) :=
  match other with
  | [] => Ok (v, s)
  | e :: other =>
      let s := add_setters s e in
      v ← (match get_by_key v e.1 with
           | None => dict_update_key_value v e.1 ref_undefined
           | Some _ => Ok v
           end);
      merge_variables_and_setters v s other
  end.

Section Emit.
Variable index : option nat.
Definition add_stmt (name : string) (i : nat) (id : AstIndex) (stopped : option AstIndex)
    (kind : SetterKind) (body_map : BodyMap) : BodyMap :=
  map_insert name (default [] (map_get name body_map) ++ [MkSetter index i id stopped kind]) body_map.

(** The setters emitted so far and the names that the branches of an [if] assign. *)
Definition Emitted : Type := BodyMap * list (string * AstIndex).
Definition emit_name (is_in_if : bool) (i : nat) (id : AstIndex) (acc : Emitted) (name : string) : Emitted :=
  if is_in_if then (acc.1, acc.2 ++ [(name, id)]) else (add_stmt name i id None Normal acc.1, acc.2).
Definition emit_if_names (is_in_if : bool) (i : nat) (id : AstIndex) (kind : SetterKind)
    (names : list (string * AstIndex)) (acc : Emitted) : Emitted :=
  if is_in_if then (acc.1, acc.2 ++ names)
  else (foldl (λ m e, add_stmt e.1 i id (Some e.2) kind m) acc.1 names, acc.2).

Section Body.
Variable emit_stmt : nat → AstIndex → bool → Ast.Stmt → Emitted → Res Emitted.
Fixpoint emit_from (i : nat) (id : AstIndex) (is_in_if : bool) (body : list Ast.Stmt) (acc : Emitted)
    : Res Emitted :=
  match body with
  | [] => Ok acc
  | stmt :: body =>
      acc ← emit_stmt i (nth_stmt id i) is_in_if stmt acc;
      emit_from (S i) id is_in_if body acc
  end.
End Body.
Fixpoint emit_stmt (i : nat) (id : AstIndex) (is_in_if : bool) (stmt : Ast.Stmt) (acc : Emitted)
    {struct stmt} : Res Emitted :=
  match stmt with
  | Ast.SUnification target _ =>
      n ← Prelude.index target 0; Ok (emit_name is_in_if i id acc (Eval.text n))
  | Ast.SAssign targets _ _ =>
      Ok (foldl (emit_name is_in_if i id) acc ((λ t, Eval.text (Ast.target_name t)) <$> targets))
  | Ast.SAugAssign target _ _ => Ok (emit_name is_in_if i id acc (Eval.text (Ast.target_name target)))
  | Ast.SIf _ body orelse =>
      r ← emit_from emit_stmt 0 (in_body id) true body (acc.1, []);
      let acc := emit_if_names is_in_if i id KIf r.2 (r.1, acc.2) in
      r ← emit_from emit_stmt 0 (in_orelse id) true orelse (acc.1, []);
      Ok (emit_if_names is_in_if i id KOrElse r.2 (r.1, acc.2))
  | Ast.SSchemaAttr attr => Ok (emit_name is_in_if i id acc (Eval.text (Ast.attr_name _ attr)))
  | _ => Ok acc
  end.
Definition emit_setters_with (id : AstIndex) (is_in_if : bool) (body : list Ast.Stmt) (acc : Emitted)
    : Res Emitted := emit_from emit_stmt 0 id is_in_if body acc.
Definition emit_setters (id : AstIndex) (body : list Ast.Stmt) : Res BodyMap :=
  fst <$> emit_setters_with id false body ([], []).
End Emit.
