(* ===== verification/Addr.v ===== *)
(** * The functions of the runtime by name

    [crates/runtime/src/addr.rs]: the evaluator refers to a function of the runtime
    by its address, which it asks for with the mangled name of the function.  The
    addresses themselves are a parameter. *)

From stdpp Require Import base list strings.
From Stdlib Require Import ZArith.
From S2P Require Import Prelude Str.

Definition FN_NAMES_kcl_a : list string :=
  ["kcl_assert"; "kcl_base32_decode"; "kcl_base32_encode"; "kcl_base64_decode"; "kcl_base64_encode";
   "kcl_builtin_abs"; "kcl_builtin_all_true"; "kcl_builtin_any_true"; "kcl_builtin_bin"; "kcl_builtin_bool";
   "kcl_builtin_dict"; "kcl_builtin_float"; "kcl_builtin_hex"; "kcl_builtin_int"; "kcl_builtin_isnullish";
   "kcl_builtin_isunique"; "kcl_builtin_len"; "kcl_builtin_list"; "kcl_builtin_max"; "kcl_builtin_min";
   "kcl_builtin_multiplyof"; "kcl_builtin_oct"; "kcl_builtin_option"; "kcl_builtin_option_init";
   "kcl_builtin_option_reset"; "kcl_builtin_ord"; "kcl_builtin_pow"; "kcl_builtin_print"; "kcl_builtin_range";
   "kcl_builtin_reduce"; "kcl_builtin_round"; "kcl_builtin_sorted"; "kcl_builtin_str";
   "kcl_builtin_str_capitalize"; "kcl_builtin_str_chars"; "kcl_builtin_str_count"; "kcl_builtin_str_endswith";
   "kcl_builtin_str_find"; "kcl_builtin_str_format"; "kcl_builtin_str_index"; "kcl_builtin_str_isalnum";
   "kcl_builtin_str_isalpha"; "kcl_builtin_str_isdigit"; "kcl_builtin_str_islower"; "kcl_builtin_str_isspace";
   "kcl_builtin_str_istitle"; "kcl_builtin_str_isupper"; "kcl_builtin_str_join"; "kcl_builtin_str_lower";
   "kcl_builtin_str_lstrip"; "kcl_builtin_str_removeprefix"; "kcl_builtin_str_removesuffix";
   "kcl_builtin_str_replace"; "kcl_builtin_str_rfind"; "kcl_builtin_str_rindex"; "kcl_builtin_str_rsplit";
   "kcl_builtin_str_rstrip"; "kcl_builtin_str_split"; "kcl_builtin_str_splitlines"; "kcl_builtin_str_startswith";
   "kcl_builtin_str_strip"; "kcl_builtin_str_title"; "kcl_builtin_str_upper"; "kcl_builtin_sum";
   "kcl_builtin_typeof"; "kcl_builtin_zip"; "kcl_config_attr_map"; "kcl_context_delete"; "kcl_context_invoke";
   "kcl_context_new"; "kcl_context_pkgpath_is_imported"; "kcl_context_set_debug_mode";
   "kcl_context_set_disable_none"; "kcl_context_set_disable_schema_check"; "kcl_context_set_import_names";
   "kcl_context_set_kcl_filename"; "kcl_context_set_kcl_line_col"; "kcl_context_set_kcl_location";
   "kcl_context_set_kcl_modpath"; "kcl_context_set_kcl_pkgpath"; "kcl_context_set_kcl_workdir";
   "kcl_context_set_strict_range_check"; "kcl_convert_collection_value"; "kcl_crypto_blake3";
   "kcl_crypto_fileblake3"; "kcl_crypto_filesha256"; "kcl_crypto_filesha512"; "kcl_crypto_md5"; "kcl_crypto_sha1";
   "kcl_crypto_sha224"; "kcl_crypto_sha256"; "kcl_crypto_sha384"; "kcl_crypto_sha512"; "kcl_crypto_uuid";
   "kcl_datetime_date"; "kcl_datetime_now"; "kcl_datetime_ticks"; "kcl_datetime_today"; "kcl_datetime_validate";
   "kcl_default_collection_insert_int_pointer"; "kcl_default_collection_insert_value"; "kcl_dict_clear";
   "kcl_dict_get"; "kcl_dict_get_entry"; "kcl_dict_get_value"; "kcl_dict_get_value_by_path"; "kcl_dict_has_value";
   "kcl_dict_insert"; "kcl_dict_insert_unpack"; "kcl_dict_insert_value"; "kcl_dict_is_override_attr"].
Definition FN_NAMES_kcl_d : list string :=
  ["kcl_dict_keys"; "kcl_dict_len"; "kcl_dict_merge"; "kcl_dict_remove"; "kcl_dict_safe_insert";
   "kcl_dict_set_value"; "kcl_dict_update"; "kcl_dict_update_key_value"; "kcl_dict_values"; "kcl_file_abs";
   "kcl_file_append"; "kcl_file_cp"; "kcl_file_current"; "kcl_file_delete"; "kcl_file_exists"; "kcl_file_glob";
   "kcl_file_mkdir"; "kcl_file_modpath"; "kcl_file_mv"; "kcl_file_read"; "kcl_file_read_env"; "kcl_file_size";
   "kcl_file_workdir"; "kcl_file_write"; "kcl_iterator_cur_key"; "kcl_iterator_cur_value"; "kcl_iterator_delete";
   "kcl_iterator_is_end"; "kcl_iterator_next_value"; "kcl_json_decode"; "kcl_json_dump_to_file"; "kcl_json_encode";
   "kcl_json_merge"; "kcl_json_validate"; "kcl_list_append"; "kcl_list_append_bool"; "kcl_list_append_float";
   "kcl_list_append_int"; "kcl_list_append_str"; "kcl_list_append_unpack"; "kcl_list_clear"; "kcl_list_count";
   "kcl_list_find"; "kcl_list_get"; "kcl_list_get_option"; "kcl_list_insert"; "kcl_list_len"; "kcl_list_pop";
   "kcl_list_pop_first"; "kcl_list_remove_at"; "kcl_list_resize"; "kcl_list_set"; "kcl_manifests_yaml_stream";
   "kcl_math_ceil"; "kcl_math_exp"; "kcl_math_expm1"; "kcl_math_factorial"; "kcl_math_floor"; "kcl_math_gcd";
   "kcl_math_isfinite"; "kcl_math_isinf"; "kcl_math_isnan"; "kcl_math_log"; "kcl_math_log10"; "kcl_math_log1p";
   "kcl_math_log2"; "kcl_math_modf"; "kcl_math_pow"; "kcl_math_sqrt"; "kcl_net_CIDR_host"; "kcl_net_CIDR_netmask";
   "kcl_net_CIDR_subnet"; "kcl_net_CIDR_subnets"; "kcl_net_IP_string"; "kcl_net_fqdn"; "kcl_net_is_IP";
   "kcl_net_is_IP_in_CIDR"; "kcl_net_is_IPv4"; "kcl_net_is_global_unicast_IP";
   "kcl_net_is_interface_local_multicast_IP"; "kcl_net_is_link_local_multicast_IP";
   "kcl_net_is_link_local_unicast_IP"; "kcl_net_is_loopback_IP"; "kcl_net_is_multicast_IP";
   "kcl_net_is_unspecified_IP"; "kcl_net_join_host_port"; "kcl_net_parse_CIDR"; "kcl_net_parse_IP";
   "kcl_net_split_host_port"; "kcl_net_to_IP4"; "kcl_net_to_IP6"; "kcl_plugin_init"; "kcl_plugin_invoke";
   "kcl_plugin_invoke_json"; "kcl_regex_compile"; "kcl_regex_findall"; "kcl_regex_match"; "kcl_regex_replace";
   "kcl_regex_search"; "kcl_regex_split"; "kcl_runtime_catch"; "kcl_schema_assert"; "kcl_schema_backtrack_cache";
   "kcl_schema_default_settings"; "kcl_schema_do_check_with_index_sign_attr"; "kcl_schema_get_value";
   "kcl_schema_instances"; "kcl_schema_optional_check"; "kcl_schema_value_check"; "kcl_schema_value_new";
   "kcl_scope_add_setter"].
Definition FN_NAMES_kcl_v : list string :=
  ["kcl_scope_delete"; "kcl_scope_get"; "kcl_scope_new"; "kcl_scope_set"; "kcl_template_execute";
   "kcl_template_html_escape"; "kcl_units_to_G"; "kcl_units_to_Gi"; "kcl_units_to_K"; "kcl_units_to_Ki";
   "kcl_units_to_M"; "kcl_units_to_Mi"; "kcl_units_to_P"; "kcl_units_to_Pi"; "kcl_units_to_T"; "kcl_units_to_Ti";
   "kcl_units_to_m"; "kcl_units_to_n"; "kcl_units_to_u"; "kcl_value_Bool"; "kcl_value_Decorator"; "kcl_value_Dict";
   "kcl_value_False"; "kcl_value_Float"; "kcl_value_Function"; "kcl_value_Function_using_ptr"; "kcl_value_Int";
   "kcl_value_List"; "kcl_value_List10"; "kcl_value_List6"; "kcl_value_None"; "kcl_value_Schema"; "kcl_value_Str";
   "kcl_value_Str_ptr"; "kcl_value_True"; "kcl_value_Undefined"; "kcl_value_Unit"; "kcl_value_as";
   "kcl_value_check_function_ptr"; "kcl_value_cmp_equal_to"; "kcl_value_cmp_greater_than";
   "kcl_value_cmp_greater_than_or_equal"; "kcl_value_cmp_less_than"; "kcl_value_cmp_less_than_or_equal";
   "kcl_value_cmp_not_equal_to"; "kcl_value_deep_copy"; "kcl_value_delete"; "kcl_value_from_json";
   "kcl_value_function_ptr"; "kcl_value_in"; "kcl_value_is"; "kcl_value_is_not"; "kcl_value_is_truthy";
   "kcl_value_iter"; "kcl_value_len"; "kcl_value_load_attr"; "kcl_value_load_attr_option"; "kcl_value_logic_and";
   "kcl_value_logic_or"; "kcl_value_not_in"; "kcl_value_op_add"; "kcl_value_op_aug_add";
   "kcl_value_op_aug_bit_and"; "kcl_value_op_aug_bit_lshift"; "kcl_value_op_aug_bit_or";
   "kcl_value_op_aug_bit_rshift"; "kcl_value_op_aug_bit_xor"; "kcl_value_op_aug_div"; "kcl_value_op_aug_floor_div";
   "kcl_value_op_aug_mod"; "kcl_value_op_aug_mul"; "kcl_value_op_aug_pow"; "kcl_value_op_aug_sub";
   "kcl_value_op_bit_and"; "kcl_value_op_bit_lshift"; "kcl_value_op_bit_or"; "kcl_value_op_bit_rshift";
   "kcl_value_op_bit_xor"; "kcl_value_op_div"; "kcl_value_op_floor_div"; "kcl_value_op_mod"; "kcl_value_op_mul";
   "kcl_value_op_pow"; "kcl_value_op_sub"; "kcl_value_plan_to_json"; "kcl_value_plan_to_yaml";
   "kcl_value_remove_item"; "kcl_value_schema_function"; "kcl_value_schema_with_config"; "kcl_value_slice";
   "kcl_value_slice_option"; "kcl_value_subscr"; "kcl_value_subscr_option"; "kcl_value_subscr_set";
   "kcl_value_to_json_value"; "kcl_value_to_json_value_with_null"; "kcl_value_to_str_value";
   "kcl_value_to_yaml_value"; "kcl_value_unary_l_not"; "kcl_value_unary_minus"; "kcl_value_unary_not";
   "kcl_value_unary_plus"; "kcl_value_union"; "kcl_value_union_all"; "kcl_yaml_decode"; "kcl_yaml_decode_all";
   "kcl_yaml_dump_all_to_file"; "kcl_yaml_dump_to_file"; "kcl_yaml_encode"; "kcl_yaml_encode_all";
   "kcl_yaml_validate"].
Definition FN_NAMES : list string := FN_NAMES_kcl_a ++ FN_NAMES_kcl_d ++ FN_NAMES_kcl_v.

Definition kcl_get_fn_ptr_by_name (address : string → Z) (name : string) : Res Z :=
  if bool_decide (name ∈ FN_NAMES) then Ok (address name) else Panic (PanicMsg ("unknown " +:+ name)).

Lemma fn_known address name : name ∈ FN_NAMES → kcl_get_fn_ptr_by_name address name = Ok (address name).
Proof. intros H. unfold kcl_get_fn_ptr_by_name. by rewrite bool_decide_eq_true_2. Qed.
