(* ===== verification/Scopes.v ===== *)
(** * The scopes of the evaluator

    [crates/evaluator/src/lib.rs] (the state of the evaluator), [scope.rs] (the
    scopes of a package, the lookup and the storing of variables) and [context.rs]
    (the stacks of packages, lambdas and schemas, the local variables).

    The stacks and the scopes of a package are lists with their top first: the
    level of a scope is the number of scopes behind it.  The scope at level 0 holds
    the builtin functions, the one at level 1 the global variables.  What a schema
    or a rule is evaluated in ([schema.rs], [rule.rs]) is the parameter [E], and its
    caller the parameter [C]. *)

From stdpp Require Import base tactics list strings numbers gmap.
From Stdlib Require Import ZArith Lia.
From S2P Require Import Prelude MachineInt IndexMap Str Float64 Value Units Addr Lazy.
From S2P Require Ast.
From S2P Require Import Eval.
Local Set Warnings "-clear-no-such-hyp".

Definition GLOBAL_LEVEL : nat := 1.
Definition INNER_LEVEL : nat := 2.
Definition MAIN_PKG_PATH : string := "__main__".
Definition PKG_PATH_PREFIX : string := "@".
Definition PLUGIN_PREFIX_WITH_AT : string := "@kcl_plugin".
Definition KCL_BUILTIN_FUNCTION_MANGLE_PREFIX : string := "kcl_builtin".
Definition KCL_SYSTEM_MODULE_MANGLE_PREFIX : string := "kcl_".
Definition UNITS : string := "units".
Definition UNITS_FIELD_NAMES : list string :=
  ["n"; "u"; "m"; "k"; "K"; "M"; "G"; "T"; "P"; "Ki"; "Mi"; "Gi"; "Ti"; "Pi"; "NumberMultiplier"].
Definition STANDARD_SYSTEM_MODULE_NAMES_WITH_AT : list string :=
  ["@collection"; "@net"; "@manifests"; "@math"; "@datetime"; "@regex"; "@yaml"; "@json"; "@crypto";
   "@base64"; "@units"; "@file"; "@template"; "@runtime"; "@base32"].
Definition BUILTIN_FUNCTION_NAMES : list string :=
  ["option"; "print"; "multiplyof"; "isunique"; "isnullish"; "len"; "abs"; "all_true"; "any_true"; "hex";
   "bin"; "oct"; "ord"; "sorted"; "range"; "max"; "min"; "sum"; "pow"; "round"; "zip"; "int"; "float";
   "bool"; "str"; "list"; "dict"; "typeof"; "reduce"].

(** ** The state *)

Record Scope := MkScope {
  scalars : list ValueRef;
  schema_scalar_idx : nat;
  is_schema_scope_flag : bool;
  variables : IndexMap string ValueRef;
  arguments : list string }.
Definition new_scope (is_schema : bool) : Scope := MkScope [] 0 is_schema [] [].
Definition set_variables (f : IndexMap string ValueRef → IndexMap string ValueRef) (s : Scope) : Scope :=
  MkScope (scalars s) (schema_scalar_idx s) (is_schema_scope_flag s) (f (variables s)) (arguments s).

Record FunctionEvalThis (E : Type) := MkThis {
  this_ctx : E; this_value : ValueRef; this_config : ValueRef }.
Arguments MkThis {E}. Arguments this_ctx {E}. Arguments this_value {E}. Arguments this_config {E}.
(** The lambda with the variables that it captures and the level of its scope. *)
Record FunctionEvalContext (E : Type) := MkFunctionCtx {
  fn_args : option (Ast.Arguments_ Ast.Expr);
  fn_return_ty : option Ast.Type_;
  fn_body : list Ast.Stmt;
  fn_this : option (FunctionEvalThis E);
  fn_closure : IndexMap string ValueRef;
  fn_level : nat }.
Arguments MkFunctionCtx {E}. Arguments fn_args {E}. Arguments fn_return_ty {E}. Arguments fn_body {E}.
Arguments fn_this {E}. Arguments fn_closure {E}. Arguments fn_level {E}.

Inductive Proxy (E C : Type) :=
  | Lambda (f : FunctionEvalContext E)
  | SchemaOrRule (c : C)
  | Global (index : nat).
Arguments Lambda {E C}. Arguments SchemaOrRule {E C}. Arguments Global {E C}.
Record Frame (E C : Type) := MkFrame { frame_pkgpath : string; frame_proxy : Proxy E C }.
Arguments MkFrame {E C}. Arguments frame_pkgpath {E C}. Arguments frame_proxy {E C}.

Inductive LambdaOrSchemaEvalContext (E : Type) :=
  | CSchema (e : E)
  | CLambda (f : FunctionEvalContext E).
Arguments CSchema {E}. Arguments CLambda {E}.

Record Evaluator (E C : Type) := MkEvaluator {
  frames : list (Frame E C);
  pkgpath_stack : list string;
  target_vars : list string;
  imported : gset string;
  lambda_stack : list (FunctionEvalContext E);
  schema_stack : list E;
  ctx_stack : list (LambdaOrSchemaEvalContext E);
  pkg_scopes : gmap string (list Scope);
  lazy_scopes : gmap string LazyEvalScope;
  scope_covers : list (nat * nat);
  local_vars : gset string;
  backtrack_meta : list BacktrackMeta;
  ast_id : AstIndex }.
Arguments MkEvaluator {E C}. Arguments frames {E C}. Arguments pkgpath_stack {E C}.
Arguments target_vars {E C}. Arguments imported {E C}. Arguments lambda_stack {E C}.
Arguments schema_stack {E C}. Arguments ctx_stack {E C}. Arguments pkg_scopes {E C}.
Arguments lazy_scopes {E C}. Arguments scope_covers {E C}. Arguments local_vars {E C}.
Arguments backtrack_meta {E C}. Arguments ast_id {E C}.

Section State.
Context {E C : Type}.
Abbreviation S := (Evaluator E C).
Abbreviation M := (Ev S).

(** [Evaluator::new] *)
Definition new_evaluator : S :=
  MkEvaluator [] [MAIN_PKG_PATH] [] ∅ [] [] [] ∅ ∅ [] ∅ [] (OModule MAIN_PKG_PATH 0, []).

Definition set_frames f (s : S) : S :=
  MkEvaluator (f (frames s)) (pkgpath_stack s) (target_vars s) (imported s) (lambda_stack s) (schema_stack s)
    (ctx_stack s) (pkg_scopes s) (lazy_scopes s) (scope_covers s) (local_vars s) (backtrack_meta s) (ast_id s).
Definition set_pkgpath_stack f (s : S) : S :=
  MkEvaluator (frames s) (f (pkgpath_stack s)) (target_vars s) (imported s) (lambda_stack s) (schema_stack s)
    (ctx_stack s) (pkg_scopes s) (lazy_scopes s) (scope_covers s) (local_vars s) (backtrack_meta s) (ast_id s).
Definition set_target_vars f (s : S) : S :=
  MkEvaluator (frames s) (pkgpath_stack s) (f (target_vars s)) (imported s) (lambda_stack s) (schema_stack s)
    (ctx_stack s) (pkg_scopes s) (lazy_scopes s) (scope_covers s) (local_vars s) (backtrack_meta s) (ast_id s).
Definition set_imported f (s : S) : S :=
  MkEvaluator (frames s) (pkgpath_stack s) (target_vars s) (f (imported s)) (lambda_stack s) (schema_stack s)
    (ctx_stack s) (pkg_scopes s) (lazy_scopes s) (scope_covers s) (local_vars s) (backtrack_meta s) (ast_id s).
Definition set_stacks fl fs fc (s : S) : S :=
  MkEvaluator (frames s) (pkgpath_stack s) (target_vars s) (imported s) (fl (lambda_stack s))
    (fs (schema_stack s)) (fc (ctx_stack s)) (pkg_scopes s) (lazy_scopes s) (scope_covers s) (local_vars s)
    (backtrack_meta s) (ast_id s).
Definition set_pkg_scopes f (s : S) : S :=
  MkEvaluator (frames s) (pkgpath_stack s) (target_vars s) (imported s) (lambda_stack s) (schema_stack s)
    (ctx_stack s) (f (pkg_scopes s)) (lazy_scopes s) (scope_covers s) (local_vars s) (backtrack_meta s) (ast_id s).
Definition set_lazy_scopes f (s : S) : S :=
  MkEvaluator (frames s) (pkgpath_stack s) (target_vars s) (imported s) (lambda_stack s) (schema_stack s)
    (ctx_stack s) (pkg_scopes s) (f (lazy_scopes s)) (scope_covers s) (local_vars s) (backtrack_meta s) (ast_id s).
Definition set_scope_covers f (s : S) : S :=
  MkEvaluator (frames s) (pkgpath_stack s) (target_vars s) (imported s) (lambda_stack s) (schema_stack s)
    (ctx_stack s) (pkg_scopes s) (lazy_scopes s) (f (scope_covers s)) (local_vars s) (backtrack_meta s) (ast_id s).
Definition set_local_vars_of f (s : S) : S :=
  MkEvaluator (frames s) (pkgpath_stack s) (target_vars s) (imported s) (lambda_stack s) (schema_stack s)
    (ctx_stack s) (pkg_scopes s) (lazy_scopes s) (scope_covers s) (f (local_vars s)) (backtrack_meta s) (ast_id s).
Definition set_backtrack_meta f (s : S) : S :=
  MkEvaluator (frames s) (pkgpath_stack s) (target_vars s) (imported s) (lambda_stack s) (schema_stack s)
    (ctx_stack s) (pkg_scopes s) (lazy_scopes s) (scope_covers s) (local_vars s) (f (backtrack_meta s)) (ast_id s).
Definition set_ast_id id (s : S) : S :=
  MkEvaluator (frames s) (pkgpath_stack s) (target_vars s) (imported s) (lambda_stack s) (schema_stack s)
    (ctx_stack s) (pkg_scopes s) (lazy_scopes s) (scope_covers s) (local_vars s) (backtrack_meta s) id.

Definition gets {A} (f : S → A) : M A := λ s, Ok (Done (f s), s).
Definition modify (f : S → S) : M unit := λ s, Ok (Done tt, f s).

(** ** Stacks *)

Definition current_pkgpath : M string := λ s,
  match pkgpath_stack s with p :: _ => Ok (Done p, s) | [] => Panic ExpectFailed end.
Definition push_pkgpath (pkgpath : string) : M unit := modify (set_pkgpath_stack (cons pkgpath)).
Definition pop_pkgpath : M unit := modify (set_pkgpath_stack tail).
Definition push_scope_cover (start stop : nat) : M unit := modify (set_scope_covers (cons (start, stop))).
Definition pop_scope_cover : M unit := modify (set_scope_covers tail).

Definition push_schema (v : E) : M unit := modify (set_stacks id (cons v) (cons (CSchema v))).
Definition pop_schema : M unit := modify (set_stacks id tail tail).
Definition is_in_schema : M bool := gets (λ s, match schema_stack s with [] => false | _ => true end).
Definition is_in_lambda : M bool := gets (λ s, match lambda_stack s with [] => false | _ => true end).
Definition last_lambda_ctx : M (option (FunctionEvalContext E)) := gets (λ s, head (lambda_stack s)).

Definition add_local_var (name : string) : M unit := modify (set_local_vars_of (λ v, {[name]} ∪ v)).
Definition remove_local_var (name : string) : M unit := modify (set_local_vars_of (λ v, v ∖ {[name]})).
Definition is_local_var (name : string) : M bool := gets (λ s, bool_decide (name ∈ local_vars s)).
Definition clear_local_vars : M unit := modify (set_local_vars_of (λ _, ∅)).
Definition clean_and_cloned_local_vars : M (gset string) :=
  r ← gets local_vars; clear_local_vars;; mret r.
Definition set_local_vars (vars : gset string) : M unit := modify (set_local_vars_of (λ v, v ∪ vars)).

Definition add_target_var (name : string) : M unit := modify (set_target_vars (cons name)).
Definition pop_target_var : M unit := modify (set_target_vars tail).
Definition get_target_var : M string := gets (λ s, default "" (head (target_vars s))).
Definition check_imported (pkgpath : string) : M bool := gets (λ s, bool_decide (pkgpath ∈ imported s)).
Definition mark_imported (pkgpath : string) : M unit := modify (set_imported (λ i, {[pkgpath]} ∪ i)).

Definition push_backtrack_meta (setter : Setter) : M unit := modify (set_backtrack_meta (cons (meta_of setter))).
Definition pop_backtrack_meta : M unit := modify (set_backtrack_meta tail).
Definition update_ast_id (id : AstIndex) : M unit := modify (set_ast_id id).
(** [is_backtrack_only_if] and [is_backtrack_only_or_else]. *)
Definition is_backtrack_only (kind : SetterKind) : M bool := gets (λ s,
  match backtrack_meta s with
  | m :: _ =>
      bool_decide (meta_kind m = kind) &&
      match meta_stmt_id m with Some id => bool_decide (ast_id s = id) | None => true end
  | [] => false
  end).

(** [Arena::insert]: the position of the new frame. *)
Definition add_frame (proxy : Proxy E C) : M nat :=
  pkgpath ← current_pkgpath;
  index ← gets (λ s, length (frames s));
  modify (set_frames (λ l, l ++ [MkFrame pkgpath proxy]));;
  mret index.

(** ** Scopes *)

(** The scopes of the current package, which have to be there. *)
Definition with_scopes {A} (f : list Scope → Res (A * list Scope)) : M A :=
  pkgpath ← (current_pkgpath : M string);
  (λ s, match pkg_scopes s !! pkgpath with
        | Some scopes =>
            match f scopes with
            | Ok (a, scopes) => Ok (Done a, set_pkg_scopes <[pkgpath := scopes]> s)
            | Panic p => Panic p
            end
        | None => Panic ExpectFailed
        end) : M A.
Definition of_scopes {A} (f : list Scope → Res A) : M A :=
  with_scopes (λ scopes, a ← f scopes; Ok (a, scopes)).

(** [len - 1], where the scope of the builtin functions is never left. *)
Definition top_level (scopes : list Scope) : Res nat :=
  match scopes with [] => Panic ArithOverflow | _ :: below => Ok (length below) end.
Definition scope_level : M nat := of_scopes top_level.
Definition is_schema_scope : M bool :=
  of_scopes (λ scopes, Ok match scopes with s :: _ => is_schema_scope_flag s | [] => false end).
Definition enter_schema_scope (is_schema : bool) : M unit :=
  with_scopes (λ scopes, Ok (tt, new_scope is_schema :: scopes)).
Definition enter_scope : M unit := enter_schema_scope false.
Definition leave_scope : M unit := with_scopes (λ scopes, Ok (tt, tail scopes)).

Definition push_scalar (scalar : ValueRef) (is_schema : bool) (s : Scope) : Scope :=
  if is_schema then
    let l := (if Nat.ltb (schema_scalar_idx s) (length (scalars s))
              then delete (schema_scalar_idx s) (scalars s) else scalars s) ++ [scalar] in
    MkScope l (length l - 1) (is_schema_scope_flag s) (variables s) (arguments s)
  else MkScope (scalars s ++ [scalar]) (schema_scalar_idx s) (is_schema_scope_flag s) (variables s) (arguments s).
Definition add_scalar (scalar : ValueRef) (is_schema : bool) : M unit :=
  with_scopes (λ scopes,
    Ok (tt, match scopes with s :: below => push_scalar scalar is_schema s :: below | [] => [] end)).

Definition update_lazy_scope_cache (pkgpath key : string) (value : ValueRef) : M unit :=
  modify (set_lazy_scopes (alter (set_cache (map_insert key value)) pkgpath)).
Definition add_variable (name : string) (pointer : ValueRef) : M unit :=
  existed ← with_scopes (λ scopes,
    Ok match scopes with
       | s :: below =>
           (contains_key name (variables s), set_variables (map_insert name pointer) s :: below)
       | [] => (false, [])
       end);
  if (existed : bool) then
    pkgpath ← current_pkgpath; update_lazy_scope_cache pkgpath name pointer
  else mret tt.

Definition store_argument_in_current_scope (name : string) : M unit :=
  with_scopes (λ scopes,
    match scopes with
    | s :: below =>
        Ok (tt, MkScope (scalars s) (schema_scalar_idx s) (is_schema_scope_flag s) (variables s)
                  (if decide (name ∈ arguments s) then arguments s else arguments s ++ [name]) :: below)
    | [] => Panic ArithOverflow
    end).
Definition store_in (name : string) (value : ValueRef) (s : Scope) : option Scope :=
  if contains_key name (variables s) then Some (set_variables (map_insert name value) s) else None.
Definition store_variable_in_current_scope (name : string) (value : ValueRef) : M bool :=
  with_scopes (λ scopes,
    match scopes with
    | s :: below =>
        Ok match store_in name value s with
           | Some s => (true, s :: below)
           | None => (false, scopes)
           end
    | [] => Panic ArithOverflow
    end).
Fixpoint store_innermost (name : string) (value : ValueRef) (scopes : list Scope) : bool * list Scope :=
  match scopes with
  | [] => (false, [])
  | s :: below =>
      match store_in name value s with
      | Some s => (true, s :: below)
      | None => let r := store_innermost name value below in (r.1, s :: r.2)
      end
  end.
Definition store_variable (name : string) (value : ValueRef) : M bool :=
  with_scopes (λ scopes, Ok (store_innermost name value scopes)).

(** The level of the innermost scope with the variable or argument. *)
Fixpoint level_of (name : string) (scopes : list Scope) : option nat :=
  match scopes with
  | [] => None
  | s :: below =>
      if contains_key name (variables s) || bool_decide (name ∈ arguments s)
      then Some (length below) else level_of name below
  end.
Definition resolve_variable_level (name : string) : M (option nat) :=
  of_scopes (λ scopes, Ok (level_of name scopes)).
Definition resolve_variable (name : string) : M bool :=
  level ← resolve_variable_level name; mret match level with Some _ => true | None => false end.

Definition add_or_update_local_variable_within_scope (name : string) (value : ValueRef) : M unit :=
  with_scopes (λ scopes,
    index ← top_level scopes;
    Ok (tt, match scopes with
            | s :: below =>
                (if Nat.ltb GLOBAL_LEVEL index then set_variables (map_insert name value) s else s) :: below
            | [] => []
            end)).

(** The lazy scope of a package, which has to be there. *)
Definition with_lazy_scope {A} (pkgpath : string) (f : LazyEvalScope → A * LazyEvalScope) : M A := λ s,
  match lazy_scopes s !! pkgpath with
  | Some scope =>
      let r := f scope in Ok (Done r.1, set_lazy_scopes <[pkgpath := r.2]> s)
  | None => Panic ExpectFailed
  end.
Definition of_lazy_scope {A} (pkgpath : string) (f : LazyEvalScope → A) : M A := λ s,
  match lazy_scopes s !! pkgpath with
  | Some scope => Ok (Done (f scope), s)
  | None => Panic ExpectFailed
  end.
Definition store_computed (key : string) (value : ValueRef) (id : AstIndex) (scope : LazyEvalScope)
    : LazyEvalScope :=
  let r := cal_increment scope key in
  if (r.1 || is_last_setter_ast_index r.2 key id) && negb (contains_key key (cache r.2))
  then set_cache (map_insert key value) r.2 else r.2.
Definition set_value_to_lazy_scope (pkgpath key : string) (value : ValueRef) : M unit :=
  id ← gets ast_id;
  with_lazy_scope pkgpath (λ scope, (tt, store_computed key value id scope)).
Definition add_or_update_global_variable (name : string) (value : ValueRef) (save_lazy_scope : bool) : M unit :=
  pkgpath ← current_pkgpath;
  existed ← with_scopes (λ scopes,
    Ok match scopes with
       | s :: below =>
           (Some (contains_key name (variables s)), set_variables (map_insert name value) s :: below)
       | [] => (None, [])
       end);
  match existed with
  | Some existed =>
      if save_lazy_scope then
        set_value_to_lazy_scope pkgpath name value;;
        if (existed : bool) then update_lazy_scope_cache pkgpath name value else mret tt
      else mret tt
  | None => mret tt
  end.

(** ** Lookup *)

(** The addresses of the functions of the runtime. *)
Variable fn_ptr_by_name : string → Z.
Definition function_value_with_ptr (function_ptr : Z) : ValueRef :=
  Ref (func_value (MkFunc function_ptr 0%Z (ref_list []) "" "" false None)).
Definition proxy_function_value (index : nat) : ValueRef :=
  Ref (func_value (MkFunc 0%Z 0%Z ref_undefined "" "" false (Some (Z.of_nat index, 0%Z)))).

Definition full_pkgpath (pkgpath : string) : string :=
  if starts_with PKG_PATH_PREFIX pkgpath || bool_decide (pkgpath = MAIN_PKG_PATH) then pkgpath
  else PKG_PATH_PREFIX +:+ pkgpath.
(** A member of a system package: a unit or a function. *)
Definition system_variable (pkgpath name : string) : Res ValueRef :=
  if bool_decide (pkgpath = UNITS) && bool_decide (name ∈ UNITS_FIELD_NAMES) then
    Ok (if Z.eqb (u64_unit_value name) 1 then ref_float (f64_unit_value name)
        else ref_int (u64_unit_value name))
  else
    function_ptr ← kcl_get_fn_ptr_by_name fn_ptr_by_name
      (KCL_SYSTEM_MODULE_MANGLE_PREFIX +:+ pkgpath +:+ "_" +:+ name);
    Ok (function_value_with_ptr function_ptr).
Definition plugin_variable (pkgpath name : string) : ValueRef :=
  Ref (func_value (MkFunc 0%Z 0%Z ref_undefined (pkgpath +:+ "." +:+ name) "" true None)).
(** The text behind the first character. *)
Definition without_prefix (pkgpath : string) : string :=
  match pkgpath with String _ r => r | EmptyString => EmptyString end.

(** The variable of the innermost scope that has it, with the level of the scope. *)
Fixpoint find_variable (name : string) (scopes : list Scope) : option (nat * ValueRef) :=
  match scopes with
  | [] => None
  | s :: below =>
      match map_get name (variables s) with
      | Some var => Some (length below, var)
      | None => find_variable name below
      end
  end.
(** Inside a lambda a variable of a scope outside of it, or of a scope that the call
    covers, is the one that the lambda captured. *)
Definition covered (covers : list (nat * nat)) (index : nat) : bool :=
  match covers with (start, stop) :: _ => Nat.leb start index && Nat.leb index stop | [] => false end.
Definition captured (ctx : option (FunctionEvalContext E)) (covers : list (nat * nat)) (is_local : bool)
    (name : string) (index : nat) (var : ValueRef) : ValueRef :=
  match ctx with
  | Some ctx =>
      if Nat.leb (fn_level ctx) index && negb (covered covers index) || is_local then var
      else default var (map_get name (fn_closure ctx))
  | None => var
  end.
Definition from_closure (ctx : option (FunctionEvalContext E)) (name : string) : ValueRef :=
  default ref_undefined (ctx ← ctx; map_get name (fn_closure ctx)).
Definition get_variable_in_pkgpath (name pkgpath : string) : M ValueRef := λ s,
  let pkgpath := full_pkgpath pkgpath in
  if bool_decide (pkgpath ∈ STANDARD_SYSTEM_MODULE_NAMES_WITH_AT)
  then lift (system_variable (without_prefix pkgpath) name) s
  else if starts_with PLUGIN_PREFIX_WITH_AT pkgpath
  then Ok (Done (plugin_variable (without_prefix pkgpath) name), s)
  else match pkg_scopes s !! pkgpath with
       | Some scopes =>
           let ctx := head (lambda_stack s) in
           Ok (Done match find_variable name scopes with
                    | Some (index, var) =>
                        captured ctx (scope_covers s) (bool_decide (name ∈ local_vars s)) name index var
                    | None => from_closure ctx name
                    end, s)
       | None => Panic (PanicMsg ("package " +:+ pkgpath +:+ " is not found"))
       end.
Definition get_variable (name : string) : M ValueRef :=
  pkgpath ← current_pkgpath; get_variable_in_pkgpath name pkgpath.
Definition get_variable_in_pkgpath_from_last_scope (name pkgpath : string) : M ValueRef := λ s,
  let pkgpath := full_pkgpath pkgpath in
  if bool_decide (pkgpath ∈ STANDARD_SYSTEM_MODULE_NAMES_WITH_AT)
  then lift (system_variable (without_prefix pkgpath) name) s
  else if starts_with PLUGIN_PREFIX_WITH_AT pkgpath
  then Ok (Done (plugin_variable (without_prefix pkgpath) name), s)
  else match pkg_scopes s !! pkgpath with
       | Some (scope :: below) =>
           Ok (Done match map_get name (variables scope) with
                    | Some var => captured (head (lambda_stack s)) (scope_covers s) false name (length below) var
                    | None => ref_undefined
                    end, s)
       | Some [] => Panic ArithOverflow
       | None => Panic (PanicMsg ("package " +:+ pkgpath +:+ " is not found"))
       end.

(** The variables of the inner scopes, the outermost first, behind those that the
    lambda around has captured. *)
Definition inner_scopes (scopes : list Scope) : list Scope := drop INNER_LEVEL (reverse scopes).
Definition get_current_closure_map : M (IndexMap string ValueRef) :=
  ctx ← last_lambda_ctx;
  of_scopes (λ scopes,
    Ok (foldl (λ m s, map_extend m (variables s))
          match ctx with Some ctx => fn_closure ctx | None => [] end (inner_scopes scopes))).

(** ** The scopes of a package *)

(** The modules of the packages. *)
Variable pkgs : gmap string (list Ast.Module_).
Definition modules_of (pkgpath : string) : Res (list Ast.Module_) :=
  match pkgs !! pkgpath with
  | Some l => Ok l
  | None =>
      match (if starts_with PKG_PATH_PREFIX pkgpath then pkgs !! without_prefix pkgpath else None) with
      | Some l => Ok l
      | None => Panic (PanicMsg ("pkgpath " +:+ pkgpath +:+ " not found"))
      end
  end.
Definition type_name (stmt : Ast.Stmt) : string :=
  match stmt with
  | Ast.SSchema schema => text (Ast.schema_name _ _ schema)
  | Ast.SRule rule => text (Ast.rule_name _ rule)
  | _ => ""
  end.
Fixpoint each {A} (f : A → M unit) (l : list A) : M unit :=
  match l with [] => mret tt | x :: l => f x;; each f l end.
Definition builtin_value (symbol : string) : Res ValueRef :=
  function_ptr ← kcl_get_fn_ptr_by_name fn_ptr_by_name (KCL_BUILTIN_FUNCTION_MANGLE_PREFIX +:+ "_" +:+ symbol);
  Ok (function_value_with_ptr function_ptr).
Fixpoint init_setters (i : nat) (modules : list Ast.Module_) (acc : BodyMap) : M BodyMap :=
  match modules with
  | [] => mret acc
  | m :: modules =>
      index ← add_frame (Global i);
      pkgpath ← current_pkgpath;
      emitted ← lift (emit_setters (Some index) (OModule pkgpath i, []) (Ast.body m));
      init_setters (Datatypes.S i) modules (merge_setters acc emitted)
  end.
Definition init_scope (pkgpath : string) : M unit :=
  known ← gets (λ s, bool_decide (is_Some (pkg_scopes s !! pkgpath)));
  if (known : bool) then mret tt
  else
    modify (set_pkg_scopes <[pkgpath := [new_scope false]]>);;
    modules ← lift (modules_of pkgpath);
    each (λ name, if bool_decide (name = "") then mret tt else add_variable name ref_undefined)
      (type_name <$> concat (Ast.body <$> modules));;
    each (λ symbol, v ← lift (builtin_value symbol); add_variable symbol v) BUILTIN_FUNCTION_NAMES;;
    setters ← init_setters 0 modules [];
    modify (set_lazy_scopes (λ m,
      match m !! pkgpath with
      | Some _ => m
      | None => <[pkgpath := MkLazy [] [] setters []]> m
      end));;
    enter_scope.
End State.

(** Every builtin function has an address. *)
Lemma builtin_linked address symbol : symbol ∈ BUILTIN_FUNCTION_NAMES →
  builtin_value address symbol = Ok (function_value_with_ptr
    (address (KCL_BUILTIN_FUNCTION_MANGLE_PREFIX +:+ "_" +:+ symbol))).
Proof.
  intros H. unfold builtin_value. rewrite fn_known; [done|].
  assert (Forall (λ symbol, KCL_BUILTIN_FUNCTION_MANGLE_PREFIX +:+ "_" +:+ symbol ∈ FN_NAMES) BUILTIN_FUNCTION_NAMES) as Hall
    by (apply (bool_decide_unpack _); vm_compute; exact I).
  rewrite Forall_forall in Hall. by apply Hall.
Qed.
