(* ===== verification/EvalStmt.v ===== *)
(** * Names, functions and statements of the evaluator

    [crates/evaluator/src/node.rs] (identifiers, selectors, calls, lambdas and the
    statements), [scope.rs] ([load_value], [load_name]), [lazy.rs]
    ([get_value_from_lazy_scope]), [func.rs] and [module.rs], and
    [runtime/src/value/val_attr.rs].

    The evaluation of a name may run the statements that assign it and the call of
    a lambda runs its body: [walkers] ties these knots up to a depth, at whose end
    the evaluation is a [StackOverflow].

    Schemas and rules ([schema.rs], [rule.rs]), the functions of the runtime and
    assignments to a path, which modify a value in place, are parameters. *)

From stdpp Require Import base tactics list strings numbers gmap pretty.
From Stdlib Require Import ZArith Lia Ascii.
From S2P Require Import Prelude MachineInt IndexMap Str Float64 Value ListOps DictOps Arith UnionOps Display.
From S2P Require Ast.
From S2P Require Import Eval Lazy Scopes.
Local Set Warnings "-clear-no-such-hyp".

(** ** Printed type annotations *)

Section Types.
Variable f64_to_string : f64 → string.
Definition literal_to_string (l : Ast.LiteralType) : string :=
  match l with
  | Ast.LBool v => if v then "True" else "False"
  | Ast.LInt v suffix => pretty v +:+ match suffix with Some s => text s | None => "" end
  | Ast.LFloat v =>
      let s := f64_to_string (FloatOps.Prim2SF v) in if str_contains "." s then s else s +:+ ".0"
  | Ast.LStr v => DQUOTE +:+ replace_byte (Ascii.ascii_of_nat 34) (BACKSLASH +:+ DQUOTE) (text v) +:+ DQUOTE
  end.
Fixpoint joined (sep : string) (l : list string) : string :=
  match l with
  | [] => ""
  | [s] => s
  | s :: l => s +:+ sep +:+ joined sep l
  end.
Fixpoint type_to_string (t : Ast.Type_) : string :=
  match t with
  | Ast.TAny => "any"
  | Ast.TNamed names => join_names names
  | Ast.TBasic b =>
      match b with Ast.TBool => "bool" | Ast.TInt => "int" | Ast.TFloat => "float" | Ast.TStr => "str" end
  | Ast.TList inner => "[" +:+ match inner with Some t => type_to_string t | None => "" end +:+ "]"
  | Ast.TDict key value =>
      "{" +:+ match key with Some t => type_to_string t | None => "" end +:+ ":" +:+
      match value with Some t => type_to_string t | None => "" end +:+ "}"
  | Ast.TUnion [] => "any"
  | Ast.TUnion types => joined " | " (type_to_string <$> types)
  | Ast.TLiteral l => literal_to_string l
  | Ast.TFunction params ret =>
      "(" +:+ match params with Some l => joined ", " (type_to_string <$> l) | None => "" end +:+ ")" +:+
      match ret with Some t => " -> " +:+ type_to_string t | None => "" end
  end.
End Types.

(** ** Attributes of values *)

Section Attributes.
Variable fn_ptr_by_name : string → Z.
Definition STR_MEMBERS : list string :=
  ["lower"; "upper"; "capitalize"; "chars"; "count"; "endswith"; "find"; "format"; "index"; "isalnum";
   "isalpha"; "isdigit"; "islower"; "isspace"; "istitle"; "isupper"; "join"; "lstrip"; "rstrip"; "replace";
   "removeprefix"; "removesuffix"; "rfind"; "rindex"; "rsplit"; "split"; "splitlines"; "startswith";
   "strip"; "title"].
Definition member_function (p : ValueRef) (name : string) : ValueRef :=
  Ref (func_value (MkFunc (fn_ptr_by_name name) 0%Z (ref_list [p]) "" "" false None)).
Definition load_attr (p : ValueRef) (key : string) : Res ValueRef :=
  if is_dict p then Ok (default ref_undefined (DictOps.dict_get_value p key))
  else if is_schema p then
    dict ← schema_to_dict p;
    match DictOps.dict_get_value dict key with
    | Some x => Ok x
    | None => Panic (PanicMsg ("schema '" +:+ type_str p +:+ "' attribute '" +:+ key +:+ "' not found"))
    end
  else if is_str p then
    if bool_decide (key ∈ STR_MEMBERS) then Ok (member_function p ("kcl_builtin_str_" +:+ key))
    else Panic (PanicMsg ("str object attr '" +:+ key +:+ "' not found"))
  else if is_func p then
    if bool_decide (key = "instances") then Ok (member_function p "kcl_schema_instances")
    else Panic (PanicMsg ("schema object attr '" +:+ key +:+ "' not found"))
  else Panic (PanicMsg ("invalid value '" +:+ type_str p +:+ "' to load attribute '" +:+ key +:+ "'")).
Fixpoint load_attrs (value : ValueRef) (names : list string) : Res ValueRef :=
  match names with
  | [] => Ok value
  | attr :: names => value ← load_attr value attr; load_attrs value names
  end.
End Attributes.

Definition try_get_proxy (self : ValueRef) : option nat :=
  match rc self with func_value f => (λ p, Z.to_nat p.1) <$> proxy f | _ => None end.

(** ** Results *)

Section Outcomes.
Context {S : Type}.
(** The result of [m], an error too. *)
Definition attempt {A} (m : Ev S A) : Ev S (Outcome A) := λ s,
  match m s with Ok (o, s) => Ok (Done o, s) | Panic p => Panic p end.
Definition of_outcome {A} (o : Outcome A) : Ev S A := λ s, Ok (o, s).
End Outcomes.

(** What the evaluator uses of schemas, rules and the functions of the runtime. *)
Record Externals (E C : Type) := MkExternals {
  (** the value of a name in the context of a schema or rule *)
  get_value_in_context : E → string → Ev (Evaluator E C) ValueRef;
  context_has_key : E → string → Evaluator E C → bool;
  update_schema_or_rule_scope_value : string → option ValueRef → Ev (Evaluator E C) unit;
  (** the context that a lambda has captured *)
  eval_ctx : FunctionEvalThis E → E;
  current_this : E → Evaluator E C → FunctionEvalThis E;
  call_schema_or_rule : C → ValueRef → ValueRef → Ev (Evaluator E C) ValueRef;
  invoke_function : ValueRef → ValueRef → ValueRef → Ev (Evaluator E C) ValueRef;
  (** schema expressions and checks *)
  walk_schema_expr : Ast.Expr → Ev (Evaluator E C) ValueRef;
  (** schema, rule and schema attribute statements *)
  walk_type_stmt : Ast.Stmt → Ev (Evaluator E C) ValueRef;
  store_target_paths : Ast.Target Ast.Expr → ValueRef → Ev (Evaluator E C) unit;
  store_attributes : list string → ValueRef → Ev (Evaluator E C) unit }.
Arguments get_value_in_context {E C}. Arguments context_has_key {E C}.
Arguments update_schema_or_rule_scope_value {E C}. Arguments eval_ctx {E C}. Arguments current_this {E C}.
Arguments call_schema_or_rule {E C}. Arguments invoke_function {E C}. Arguments walk_schema_expr {E C}.
Arguments walk_type_stmt {E C}. Arguments store_target_paths {E C}. Arguments store_attributes {E C}.

Section Evaluator.
Context {HP : Profile} {HC : ContextConfig} {E C : Type}.
Variable powf : f64 → f64 → f64.
Variable to_json_string to_yaml_string : ValueRef → string.
Variable f64_to_string : f64 → string.
Variable schemas : string → option (ValueRef → ValueRef → ValueRef → Res ValueRef).
Variable type_pack_and_check : ValueRef → list string → bool → Res ValueRef.
Variable to_lowercase : string → string.
Variable fn_ptr_by_name : string → Z.
Variable pkgs : gmap string (list Ast.Module_).
Variable X : Externals E C.
Abbreviation S := (Evaluator E C).
Abbreviation M := (Ev S).

(** A name that is there, as [names[0]] asks for. *)
Definition first_name (names : list (list Z)) : M string := n ← lift (Prelude.index names 0); mret (text n).
Definition cast (value : ValueRef) (ty : option Ast.Type_) : Res ValueRef :=
  match ty with
  | Some ty => type_pack_and_check value [type_to_string f64_to_string ty] false
  | None => Ok value
  end.

(** ** The evaluation of names *)

Section Names.
(** A statement that assigns a variable is run. *)
Variable run_setter : Setter → M unit.

(** [n - next_level] on [usize]. *)
Definition setter_at (l : list Setter) (next_level : nat) : Res (option Setter) :=
  if Nat.ltb (length l) next_level then
    if overflow_checks then Panic ArithOverflow else Ok None
  else Ok (l !! (length l - next_level)).
Definition get_value_from_lazy_scope (pkgpath key target : string) (default_value : ValueRef) : M ValueRef :=
  in_place ← (if bool_decide (key = target)
              then of_lazy_scope pkgpath (λ sc, negb (is_backtracking sc key) || Nat.leb (setter_len sc key) 1)
              else mret false);
  if (in_place : bool) then mret default_value
  else
    cached ← of_lazy_scope pkgpath (λ sc, map_get key (cache sc));
    match cached with
    | Some value => mret value
    | None =>
        l ← of_lazy_scope pkgpath (λ sc, default [] (map_get key (setters sc)));
        match l with
        | [] => mret default_value
        | _ =>
            level ← of_lazy_scope pkgpath (λ sc, default 0 (map_get key (levels sc)));
            let next_level := (level + 1)%nat in
            with_lazy_scope pkgpath (λ sc, (tt, set_levels (map_insert key next_level) sc));;
            setter ← lift (setter_at l next_level);
            match setter with
            | Some setter =>
                run_setter setter;;
                value ← get_variable_in_pkgpath fn_ptr_by_name key pkgpath;
                with_lazy_scope pkgpath (λ sc,
                  (tt, set_cache (map_insert key value) (set_levels (map_insert key level) sc)));;
                mret value
            | None => mret default_value
            end
        end
    end.

Definition get_variable_in_schema_or_rule (name : string) : M ValueRef :=
  ctx ← gets (λ s, head (schema_stack s));
  match ctx with
  | Some ctx => get_value_in_context X ctx name
  | None => get_variable fn_ptr_by_name name
  end.
Fixpoint get_value_from_contexts (name : string) (ctxs : list (LambdaOrSchemaEvalContext E))
    : M (option ValueRef) :=
  match ctxs with
  | [] => mret None
  | ctx :: ctxs =>
      res ← (match ctx with
             | CSchema _ => get_variable_in_schema_or_rule name
             | CLambda _ =>
                 pkgpath ← current_pkgpath; get_variable_in_pkgpath_from_last_scope fn_ptr_by_name name pkgpath
             end);
      if is_undefined res then get_value_from_contexts name ctxs else mret (Some res)
  end.
Definition has_setter (pkgpath name : string) : M bool := gets (λ s,
  match lazy_scopes s !! pkgpath with Some sc => contains_key name (setters sc) | None => false end).
Definition load_name (name : string) : M ValueRef :=
  in_schema ← is_in_schema;
  in_lambda ← is_in_lambda;
  local ← is_local_var name;
  if negb in_schema && negb local then
    variable ← get_variable fn_ptr_by_name name;
    level ← resolve_variable_level name;
    match level with
    | Some level =>
        if Nat.leb level GLOBAL_LEVEL then
          pkgpath ← current_pkgpath;
          target ← get_target_var;
          get_value_from_lazy_scope pkgpath name target variable
        else mret variable
    | None => mret variable
    end
  else if negb in_schema || local then get_variable fn_ptr_by_name name
  else if negb in_lambda then
    variable ← get_variable_in_schema_or_rule name;
    if is_undefined variable then
      pkgpath ← current_pkgpath;
      known ← has_setter pkgpath name;
      if (known : bool) then
        target ← get_target_var;
        get_value_from_lazy_scope pkgpath name target variable
      else mret variable
    else mret variable
  else
    level ← resolve_variable_level name;
    match level with
    | Some level =>
        if Nat.ltb GLOBAL_LEVEL level then
          ctxs ← gets ctx_stack;
          found ← get_value_from_contexts name ctxs;
          match found with
          | Some result => mret result
          | None => ctx ← last_lambda_ctx; mret (from_closure ctx name)
          end
        else get_variable_in_schema_or_rule name
    | None => get_variable_in_schema_or_rule name
    end.
(** [load_value] of the names of an identifier that belongs to no package. *)
Definition load_value (names : list string) : M ValueRef :=
  match names with
  | [] => mret ref_undefined
  | name :: attrs => value ← load_name name; lift (load_attrs fn_ptr_by_name value attrs)
  end.

(** ** The storing of names *)

Definition schema_has_key (name : string) : M bool := gets (λ s,
  match schema_stack s with ctx :: _ => context_has_key X ctx name s | [] => false end).
Definition store_name (name : string) (value : ValueRef) : M unit :=
  in_schema ← is_in_schema;
  level ← scope_level;
  if Nat.eqb level GLOBAL_LEVEL then add_or_update_global_variable name value true
  else
    in_lambda ← is_in_lambda;
    local ← is_local_var name;
    if (in_lambda : bool) then
      schema_scope ← is_schema_scope;
      if (schema_scope : bool) then
        if negb local && in_schema then update_schema_or_rule_scope_value X name (Some value)
        else add_variable name value
      else
        stored ← store_variable_in_current_scope name value;
        if (stored : bool) then mret tt
        else add_variable name ref_undefined;; store_variable name value;; mret tt
    else
      executing ← gets (λ s, match backtrack_meta s with [] => false | _ => true end);
      is_attr ← schema_has_key name;
      match local, in_schema, executing, is_attr with
      | _, _, true, false => add_variable name value
      | false, true, _, true | false, true, false, false =>
          update_schema_or_rule_scope_value X name (Some value)
      | _, _, _, _ => add_variable name value
      end.
(** [walk_identifier_with_ctx] with [Store]. *)
Definition store_names (names : list (list Z)) (value : ValueRef) : M unit :=
  match names with
  | [name] => store_name (text name) value
  | _ => store_attributes X (text <$> names) value
  end.
Definition walk_target_with_value (target : Ast.Target Ast.Expr) (right_value : ValueRef) : M ValueRef :=
  (match Ast.paths target with
   | [] => store_name (text (Ast.target_name target)) right_value
   | _ => store_target_paths X target right_value
   end);;
  mret right_value.
End Names.

(** ** Functions *)

Section Walk.
(** Expressions and statements inside. *)
Variable walk_expr : Ast.Expr → M ValueRef.
Variable walk_stmt : AstIndex → Ast.Stmt → M ValueRef.

(** The result is that of the last statement. *)
Fixpoint walk_stmts_from (id : AstIndex) (i : nat) (stmts : list Ast.Stmt) (result : Outcome ValueRef)
    : M ValueRef :=
  match stmts with
  | [] => of_outcome result
  | stmt :: stmts =>
      result ← attempt (walk_stmt (nth_stmt id i) stmt);
      walk_stmts_from id (Datatypes.S i) stmts result
  end.
Definition walk_stmts (id : AstIndex) (stmts : list Ast.Stmt) : M ValueRef :=
  walk_stmts_from id 0 stmts (Done ref_undefined).

(** The statement of the setter, in the module of its frame. *)
Definition setter_source (setter : Setter) : M (option (AstIndex * Ast.Stmt)) :=
  match setter_index setter with
  | None => mret None
  | Some index =>
      frame ← gets (λ s, frames s !! index);
      match frame with
      | Some (MkFrame pkgpath (Global i)) =>
          mret (modules ← pkgs !! (if starts_with PKG_PATH_PREFIX pkgpath then without_prefix pkgpath else pkgpath);
                m ← modules !! i;
                (λ stmt, ((OModule pkgpath i, [setter_stmt setter]), stmt)) <$> Ast.body m !! setter_stmt setter)
      | Some _ => mret None
      | None => lift (Panic ExpectFailed)
      end
  end.
Definition walk_stmts_with_setter (setter : Setter) : M unit :=
  source ← setter_source setter;
  match source with
  | Some (id, stmt) =>
      push_backtrack_meta setter;;
      expect (walk_stmt id stmt);;
      pop_backtrack_meta
  | None => mret tt
  end.

Fixpoint default_arguments (names : list Ast.Identifier) (types : list (option Ast.Type_))
    (defaults : list (option Ast.Expr)) : M unit :=
  match names, types, defaults with
  | arg_name :: names, arg_type :: types, value :: defaults =>
      arg_value ← (match value with Some value => expect (walk_expr value) | None => mret ref_none end);
      arg_value ← lift (cast arg_value arg_type);
      let name := join_names arg_name in
      store_argument_in_current_scope name;;
      add_local_var name;;
      expect (store_names arg_name arg_value);;
      remove_local_var name;;
      default_arguments names types defaults
  | _, _, _ => mret tt
  end.
Fixpoint positional_arguments (i : Z) (names : list Ast.Identifier) (types : list (option Ast.Type_))
    (args : ValueRef) : M unit :=
  match names, types with
  | arg_name :: names, arg_type :: types =>
      argument_len ← lift (len args);
      if (i <? argument_len)%Z then
        v ← lift (list_get_option args i);
        arg_value ← lift (cast (default ref_undefined v) arg_type);
        name ← first_name arg_name;
        add_local_var name;;
        store_variable name arg_value;;
        positional_arguments (i + 1) names types args
      else mret tt
  | _, _ => mret tt
  end.
Fixpoint keyword_arguments (names : list Ast.Identifier) (types : list (option Ast.Type_))
    (kwargs : ValueRef) : M unit :=
  match names, types with
  | arg_name :: names, arg_type :: types =>
      name ← first_name arg_name;
      match DictOps.dict_get_value kwargs name with
      | Some arg =>
          arg_value ← lift (cast arg arg_type);
          add_local_var name;;
          store_variable name arg_value;;
          mret tt
      | None => mret tt
      end;;
      keyword_arguments names types kwargs
  | _, _ => mret tt
  end.
Definition walk_arguments (arguments : option (Ast.Arguments_ Ast.Expr)) (args kwargs : ValueRef) : M unit :=
  match arguments with
  | Some a =>
      default_arguments (Ast.arg_names a) (Ast.ty_list a) (Ast.defaults a);;
      positional_arguments 0 (Ast.arg_names a) (Ast.ty_list a) args;;
      keyword_arguments (Ast.arg_names a) (Ast.ty_list a) kwargs
  | None => mret tt
  end.
Definition func_body (frame : nat) (ctx : FunctionEvalContext E) (args kwargs : ValueRef) : M ValueRef :=
  enter_scope;;
  deferred
    (walk_arguments (fn_args ctx) args kwargs;;
     result ← expect (walk_stmts (OFrame frame, []) (fn_body ctx));
     lift (cast result (fn_return_ty ctx)))
    leave_scope.

Definition push_lambda (ctx : FunctionEvalContext E) (current_pkgpath frame_pkgpath : string) (level : nat)
    : M unit :=
  match fn_this ctx with Some this => push_schema (eval_ctx X this) | None => mret tt end;;
  (if bool_decide (frame_pkgpath = current_pkgpath) && Nat.leb (fn_level ctx) level
   then push_scope_cover (fn_level ctx) level else mret tt);;
  modify (set_stacks (cons ctx) id (cons (CLambda ctx))).
Definition pop_lambda (ctx : FunctionEvalContext E) (current_pkgpath frame_pkgpath : string) (level : nat)
    : M unit :=
  modify (set_stacks tail id tail);;
  (if bool_decide (frame_pkgpath = current_pkgpath) && Nat.leb (fn_level ctx) level
   then pop_scope_cover else mret tt);;
  match fn_this ctx with Some _ => pop_schema | None => mret tt end.
Definition invoke_proxy_function (proxy_index : nat) (args kwargs : ValueRef) : M ValueRef :=
  frame ← gets (λ s, frames s !! proxy_index);
  match frame with
  | None => lift (Panic ExpectFailed)
  | Some frame =>
      push_pkgpath (frame_pkgpath frame);;
      deferred
        (match frame_proxy frame with
         | Lambda ctx =>
             pkgpath ← current_pkgpath;
             level ← scope_level;
             push_lambda ctx pkgpath (frame_pkgpath frame) level;;
             value ← func_body proxy_index ctx args kwargs;
             pop_lambda ctx pkgpath (frame_pkgpath frame) level;;
             mret value
         | SchemaOrRule c => call_schema_or_rule X c args kwargs
         | Global _ => mret ref_undefined
         end)
        pop_pkgpath
  end.

(** ** Expressions that depend on the scopes *)

Definition walk_selector_expr (value : Ast.Expr) (attr : Ast.Identifier) (has_question : bool) : M ValueRef :=
  value ← walk_expr value;
  key ← first_name attr;
  value ← lift (if has_question && negb (is_truthy value) then Ok ref_none
                else load_attr fn_ptr_by_name value key);
  lift (load_attrs fn_ptr_by_name value (text <$> tail attr)).

Fixpoint walk_args (args : list Ast.Expr) (list_value : ValueRef) : M ValueRef :=
  match args with
  | [] => mret list_value
  | arg :: args =>
      value ← walk_expr arg;
      list_value ← lift (list_append list_value value);
      walk_args args list_value
  end.
Fixpoint walk_keywords (keywords : list (Ast.Keyword Ast.Expr)) (dict_value : ValueRef) : M ValueRef :=
  match keywords with
  | [] => mret dict_value
  | keyword :: keywords =>
      name ← first_name (Ast.kw_arg keyword);
      value ← (match Ast.kw_value keyword with Some value => walk_expr value | None => mret ref_none end);
      dict_value ← lift (dict_insert_value dict_value name value);
      walk_keywords keywords dict_value
  end.
Definition walk_call_expr (call : Ast.CallExpr Ast.Expr) : M ValueRef :=
  func ← walk_expr (Ast.func call);
  list_value ← walk_args (Ast.args call) (ref_list []);
  dict_value ← walk_keywords (Ast.keywords call) (ref_dict []);
  vars ← clean_and_cloned_local_vars;
  result ← attempt (match try_get_proxy func with
                    | Some proxy => invoke_proxy_function proxy list_value dict_value
                    | None => invoke_function X func list_value dict_value
                    end);
  set_local_vars vars;;
  of_outcome result.
Definition walk_lambda_expr (args : option (Ast.Arguments_ Ast.Expr)) (return_ty : option Ast.Type_)
    (body : list Ast.Stmt) : M ValueRef :=
  this ← gets (λ s, (λ ctx, current_this X ctx s) <$> head (schema_stack s));
  closure ← get_current_closure_map;
  level ← scope_level;
  index ← add_frame (Lambda (MkFunctionCtx args return_ty body this closure (level + 1)));
  mret (proxy_function_value index).

(** The expressions that [Eval.walk_expr] leaves open. *)
Definition walk_scoped (e : Ast.Expr) : M ValueRef :=
  match e with
  | Ast.IdentifierExpr names => load_value walk_stmts_with_setter (text <$> names)
  | Ast.Selector value attr has_question => walk_selector_expr value attr has_question
  | Ast.Call call => walk_call_expr call
  | Ast.Lambda args return_ty body => walk_lambda_expr args return_ty body
  | _ => walk_schema_expr X e
  end.
End Walk.

(** ** Statements *)

Definition INVALID_OPERATOR_MSG : string := "Invalid operator".
(** The operator of an augmented assignment; [=] is none. *)
Definition aug_value (op : Ast.AugOp) (org_value right_value : ValueRef) : option (Res ValueRef) :=
  match op with
  | Ast.AAdd => Some (add org_value right_value)
  | Ast.ASub => Some (sub org_value right_value)
  | Ast.AMul => Some (mul org_value right_value)
  | Ast.ADiv => Some (div org_value right_value)
  | Ast.AMod => Some (mod_ org_value right_value)
  | Ast.APow => Some (pow powf org_value right_value)
  | Ast.ALShift => Some (bit_lshift org_value right_value)
  | Ast.ARShift => Some (bit_rshift org_value right_value)
  | Ast.ABitOr => Some (bit_or to_json_string schemas org_value right_value)
  | Ast.ABitXor => Some (bit_xor org_value right_value)
  | Ast.ABitAnd => Some (bit_and org_value right_value)
  | Ast.AFloorDiv => Some (floor_div org_value right_value)
  | Ast.AAssign => None
  end.

Section Statements.
Variable walk_expr : Ast.Expr → M ValueRef.
Variable run_setter : Setter → M unit.
Variable walk_import_stmt : list Z → M ValueRef.

Fixpoint walk_exprs (exprs : list Ast.Expr) (result : ValueRef) : M ValueRef :=
  match exprs with
  | [] => mret result
  | e :: exprs =>
      scalar ← walk_expr e;
      match e with
      | Ast.Call _ => mret tt
      | Ast.Schema _ _ _ _ => add_scalar scalar true
      | _ => add_scalar scalar false
      end;;
      walk_exprs exprs scalar
  end.
Definition walk_expr_stmt (exprs : list Ast.Expr) : M ValueRef := walk_exprs exprs ref_undefined.
Definition walk_unification_stmt (target : Ast.Identifier) (value : Ast.Expr) : M ValueRef :=
  clear_local_vars;;
  name ← first_name target;
  add_target_var name;;
  value ← walk_schema_expr X value;
  org_value ← attempt (load_value run_setter (text <$> target));
  value ← lift (bit_or to_json_string schemas
                  match org_value with Done v => v | Err _ => ref_undefined end value);
  store_names target value;;
  pop_target_var;;
  mret value.
Definition walk_assign_stmt (targets : list (Ast.Target Ast.Expr)) (value : Ast.Expr) (ty : option Ast.Type_)
    : M ValueRef :=
  clear_local_vars;;
  each (λ t, add_target_var (text (Ast.target_name t))) targets;;
  value ← walk_expr value;
  value ← lift (cast value ty);
  each (λ t, walk_target_with_value t (value_deep_copy value);; mret tt) targets;;
  each (λ _, pop_target_var) targets;;
  mret value.
Fixpoint load_paths (value : ValueRef) (paths : list (Ast.MemberOrIndex Ast.Expr)) : M ValueRef :=
  match paths with
  | [] => mret value
  | path :: paths =>
      value ← (match path with
               | Ast.Member name => lift (load_attr fn_ptr_by_name value (text name))
               | Ast.Index index => i ← walk_expr index; lift (bin_subscr value i)
               end);
      load_paths value paths
  end.
Definition load_target (target : Ast.Target Ast.Expr) : M ValueRef :=
  value ← load_name run_setter (text (Ast.target_name target));
  load_paths value (Ast.paths target).
Definition walk_aug_assign_stmt (target : Ast.Target Ast.Expr) (op : Ast.AugOp) (value : Ast.Expr) : M ValueRef :=
  add_target_var (text (Ast.target_name target));;
  right_value ← walk_expr value;
  org_value ← load_target target;
  match aug_value op org_value right_value with
  | Some value =>
      value ← lift value;
      walk_target_with_value target value;;
      pop_target_var;;
      mret value
  | None => fail INVALID_OPERATOR_MSG
  end.
Definition do_assert (test : Ast.Expr) (msg : option Ast.Expr) : M ValueRef :=
  assert_result ← expect (walk_expr test);
  msg ← (match msg with Some msg => expect (walk_expr msg) | None => mret (ref_str "") end);
  if is_truthy assert_result then mret ref_undefined else lift (Panic (PanicMsg (as_str msg))).
Definition walk_assert_stmt (test : Ast.Expr) (if_cond msg : option Ast.Expr) : M ValueRef :=
  match if_cond with
  | Some if_cond =>
      if_value ← walk_expr if_cond;
      if value_is_truthy if_value then do_assert test msg else mret ref_undefined
  | None => do_assert test msg
  end.

(** [backtrack_break_here!] and [backtrack_update_break!]. *)
Definition breaks : M bool := gets (λ s, match backtrack_meta s with m :: _ => is_break m | [] => false end).
Definition break_at (id : AstIndex) (m : BacktrackMeta) : BacktrackMeta :=
  if bool_decide (meta_stopped m = Some id)
  then MkMeta (meta_stmt_id m) (meta_stopped m) true (meta_kind m) else m.
Definition update_break (id : AstIndex) : M unit :=
  modify (set_backtrack_meta (λ l, match l with m :: l => break_at id m :: l | [] => [] end)).

Fixpoint walk_stmt (id : AstIndex) (stmt : Ast.Stmt) {struct stmt} : M ValueRef :=
  broken ← breaks;
  if (broken : bool) then mret ref_undefined
  else
    update_ast_id id;;
    value ← attempt match stmt with
      | Ast.STypeAlias _ _ => mret ref_undefined
      | Ast.SExpr exprs => walk_expr_stmt exprs
      | Ast.SUnification target value => walk_unification_stmt target value
      | Ast.SAssign targets value ty => walk_assign_stmt targets value ty
      | Ast.SAugAssign target op value => walk_aug_assign_stmt target op value
      | Ast.SAssert test if_cond msg => walk_assert_stmt test if_cond msg
      | Ast.SIf cond body orelse =>
          cond ← walk_expr cond;
          let is_truth := value_is_truthy cond in
          only_or_else ← is_backtrack_only KOrElse;
          only_if ← is_backtrack_only KIf;
          (if (only_or_else : bool) then
             if is_truth then mret ref_undefined else walk_stmts walk_stmt (in_orelse id) orelse
           else if (only_if : bool) then
             if is_truth then walk_stmts walk_stmt (in_body id) body else mret ref_undefined
           else if is_truth then walk_stmts walk_stmt (in_body id) body
           else walk_stmts walk_stmt (in_orelse id) orelse);;
          mret ref_undefined
      | Ast.SImport path _ _ => walk_import_stmt path
      | Ast.SSchemaAttr _ | Ast.SSchema _ | Ast.SRule _ => walk_type_stmt X stmt
      end;
    update_break id;;
    of_outcome value.
End Statements.

(** ** Modules *)

Section Modules.
Variable walk_stmt : AstIndex → Ast.Stmt → M ValueRef.

Definition predefine (name : string) : M unit := add_or_update_global_variable name ref_undefined false.
Section Predefine.
Variable emit_global_stmt : Ast.Stmt → M unit.
Definition emit_global_vars (body : list Ast.Stmt) : M unit := each emit_global_stmt body.
End Predefine.
Fixpoint emit_global_stmt (stmt : Ast.Stmt) : M unit :=
  match stmt with
  | Ast.SUnification [name] _ => predefine (text name)
  | Ast.SAssign targets _ _ => each (λ t, predefine (text (Ast.target_name t))) targets
  | Ast.SIf _ body orelse => emit_global_vars emit_global_stmt body;; emit_global_vars emit_global_stmt orelse
  | _ => mret tt
  end.
Definition predefine_global_vars (m : Ast.Module_) : M unit := emit_global_vars emit_global_stmt (Ast.body m).

Definition STANDARD_SYSTEM_MODULES : list string := without_prefix <$> STANDARD_SYSTEM_MODULE_NAMES_WITH_AT.
Definition PLUGIN_MODULE_PREFIX : string := "kcl_plugin.".
(** A package that is not there is marked too. *)
Definition walk_import_stmt (compile_ast_modules : list Ast.Module_ → M ValueRef) (path : list Z) : M ValueRef :=
  let pkgpath := text path in
  known ← check_imported pkgpath;
  if (known : bool) then mret ref_undefined
  else if bool_decide (pkgpath ∈ STANDARD_SYSTEM_MODULES) || starts_with PLUGIN_MODULE_PREFIX pkgpath
  then mret ref_undefined
  else
    match pkgs !! pkgpath with
    | Some modules =>
        push_pkgpath (PKG_PATH_PREFIX +:+ pkgpath);;
        init_scope fn_ptr_by_name pkgs (PKG_PATH_PREFIX +:+ pkgpath);;
        compile_ast_modules modules;;
        pop_pkgpath
    | None => mret tt
    end;;
    mark_imported pkgpath;;
    mret ref_undefined.

Definition predefine_global_types (name : string) : M unit :=
  stored ← store_variable name ref_undefined;
  if (stored : bool) then mret tt else add_variable name ref_undefined.
Definition compile_type (import : list Z → M ValueRef) (stmt : Ast.Stmt) : M unit :=
  match stmt with
  | Ast.SImport path _ _ => expect (import path);; mret tt
  | Ast.SSchema _ | Ast.SRule _ =>
      predefine_global_types (type_name stmt);; expect (walk_type_stmt X stmt);; mret tt
  | _ => mret tt
  end.
Definition compile_module_import_and_types (import : list Z → M ValueRef) (m : Ast.Module_) : M unit :=
  each (compile_type import) (Ast.body m).

Fixpoint walk_stmts_except_import (id : AstIndex) (i : nat) (stmts : list Ast.Stmt) (result : Outcome ValueRef)
    : M ValueRef :=
  match stmts with
  | [] => of_outcome result
  | Ast.SImport _ _ _ :: stmts => walk_stmts_except_import id (Datatypes.S i) stmts result
  | stmt :: stmts =>
      result ← attempt (walk_stmt (nth_stmt id i) stmt);
      walk_stmts_except_import id (Datatypes.S i) stmts result
  end.
Fixpoint walk_modules (pkgpath : string) (i : nat) (modules : list Ast.Module_) (result : ValueRef) : M ValueRef :=
  match modules with
  | [] => mret result
  | m :: modules =>
      result ← expect (walk_stmts_except_import (OModule pkgpath i, []) 0 (Ast.body m) (Done ref_undefined));
      walk_modules pkgpath (Datatypes.S i) modules result
  end.
Definition compile_ast_modules (import : list Z → M ValueRef) (modules : list Ast.Module_) : M ValueRef :=
  each predefine_global_vars modules;;
  each (compile_module_import_and_types import) modules;;
  pkgpath ← current_pkgpath;
  walk_modules pkgpath 0 modules ref_undefined.
End Modules.

(** ** The evaluator up to a depth *)

#[local] Instance scopes : Eval.Scopes S := {|
  Eval.enter_scope := enter_scope;
  Eval.leave_scope := leave_scope;
  Eval.is_local_var := is_local_var;
  Eval.add_local_var := add_local_var;
  Eval.remove_local_var := remove_local_var;
  Eval.clear_local_vars := clear_local_vars;
  Eval.add_or_update_local_variable_within_scope := add_or_update_local_variable_within_scope;
  Eval.store_identifier := store_names |}.

Record Walkers := MkWalkers {
  expr_at : Ast.Expr → M ValueRef;
  stmt_at : AstIndex → Ast.Stmt → M ValueRef;
  import_at : list Z → M ValueRef }.
Definition overflow {A} : M A := lift (Panic StackOverflow).
Fixpoint walkers (depth : nat) : Walkers :=
  match depth with
  | O => MkWalkers (λ _, overflow) (λ _ _, overflow) (λ _, overflow)
  | Datatypes.S depth =>
      let w := walkers depth in
      let expr := Eval.walk_expr powf to_json_string to_yaml_string f64_to_string schemas type_pack_and_check
                    to_lowercase (walk_scoped (expr_at w) (stmt_at w)) in
      MkWalkers expr
        (walk_stmt expr (walk_stmts_with_setter (stmt_at w)) (import_at w))
        (walk_import_stmt (compile_ast_modules (stmt_at w) (import_at w)))
  end.

(** [run_as_function] and the part of [run] before the planning: the program is
    evaluated from a new evaluator. *)
Definition run_as_function (depth : nat) : M ValueRef :=
  match default [] (pkgs !! MAIN_PKG_PATH) with
  | [] => mret ref_undefined
  | modules =>
      init_scope fn_ptr_by_name pkgs MAIN_PKG_PATH;;
      compile_ast_modules (stmt_at (walkers depth)) (import_at (walkers depth)) modules
  end.

Definition SCALAR_KEY : string := "".
Definition KCL_PRIVATE_VAR_PREFIX : string := "_".
Fixpoint merge_scalars (l : list ValueRef) (global_dict : ValueRef) : Res ValueRef :=
  match l with
  | [] => Ok global_dict
  | scalar :: l =>
      d ← dict_insert_merge_value to_json_string schemas global_dict SCALAR_KEY scalar;
      merge_scalars l d
  end.
Fixpoint merge_globals (show_hidden : bool) (l : IndexMap string ValueRef) (global_dict : ValueRef) : Res ValueRef :=
  match l with
  | [] => Ok global_dict
  | (name, value) :: l =>
      if starts_with KCL_PRIVATE_VAR_PREFIX name && negb show_hidden
      then merge_globals show_hidden l global_dict
      else
        value_dict ← dict_insert_merge_value to_json_string schemas (ref_dict []) name value;
        d ← dict_insert_merge_value to_json_string schemas global_dict SCALAR_KEY value_dict;
        merge_globals show_hidden l d
  end.
(** What [plan_globals_to_string] plans. *)
Definition plan_globals (show_hidden : bool) : M ValueRef :=
  of_scopes (λ scopes,
    match scopes with
    | [] => Panic ExpectFailed
    | scope :: _ =>
        d ← merge_scalars (scalars scope) (ref_dict []);
        d ← merge_globals show_hidden (variables scope) d;
        Ok (default (ref_dict []) (DictOps.dict_get_value d SCALAR_KEY))
    end).
End Evaluator.
