(* ===== verification/LazySound.v ===== *)
(** * The evaluation of a module by need

    The evaluator computes a global variable when it is first asked for, by running
    the statement that assigns it ([EvalStmt.get_value_from_lazy_scope]).  For
    modules of assignments without loops, configurations and calls, the variables
    that this gives are those of the assignments evaluated one after the other in
    an order in which each variable is assigned before it is used, whatever the
    order in the module. *)

From stdpp Require Import base tactics list strings numbers gmap.
From Stdlib Require Import ZArith Lia.
From S2P Require Import Prelude MachineInt IndexMap Str Float64 Value ListOps DictOps Arith.
From S2P Require Ast Token.
From S2P Require Import Eval Lazy Scopes EvalStmt.
Local Set Warnings "-clear-no-such-hyp".

(** ** Expressions that enter no scope *)

Definition inner (e : Ast.Expr) : Ast.Expr := match e with Ast.FormattedValue e _ => e | _ => e end.
Definition children (e : Ast.Expr) : list Ast.Expr :=
  match e with
  | Ast.Unary _ e | Ast.ParenExpr e | Ast.Starred e | Ast.FormattedValue e _ => [e]
  | Ast.Binary l _ r => [l; r]
  | Ast.If body cond orelse => [body; cond; orelse]
  | Ast.ListExpr elts => elts
  | Ast.ListIfItem c es orelse => c :: es ++ option_list orelse
  | Ast.Subscript v i l u s _ => v :: option_list i ++ option_list l ++ option_list u ++ option_list s
  | Ast.Compare l _ comparators => l :: comparators
  | Ast.JoinedString _ _ values => inner <$> values
  | _ => []
  end.
Definition whole (e : option Ast.Expr) (p : Ast.Expr → bool) : bool := match e with Some e => p e | None => true end.
Fixpoint pure (e : Ast.Expr) : bool :=
  match e with
  | Ast.IdentifierExpr (_ :: _) => true
  | Ast.Unary _ e | Ast.ParenExpr e | Ast.Starred e | Ast.FormattedValue e _ => pure e
  | Ast.Binary l _ r => pure l && pure r
  | Ast.If body cond orelse => pure body && pure cond && pure orelse
  | Ast.ListExpr elts => forallb pure elts
  | Ast.ListIfItem c es orelse => pure c && forallb pure es && whole orelse pure
  | Ast.Subscript v i l u s _ => pure v && whole i pure && whole l pure && whole u pure && whole s pure
  | Ast.Compare l _ comparators => pure l && forallb pure comparators
  | Ast.NumberLit _ _ | Ast.StringLitExpr _ | Ast.NameConstantLit _ | Ast.Missing => true
  | Ast.JoinedString _ _ values => forallb pure values
  | _ => false
  end.
Definition is_name (e : Ast.Expr) : bool := match e with Ast.IdentifierExpr _ => true | _ => false end.

Lemma children_ind (P : Ast.Expr → Prop) :
  (∀ e, (∀ e', e' ∈ children e → P e') → P e) → ∀ e, P e.
Proof.
  intros H. fix IH 1. intros e. apply H. apply Forall_forall.
  assert (∀ o : option Ast.Expr, match o with Some e => P e | None => True end → Forall P (option_list o)) as Ho.
  { intros [e'|] ?; repeat constructor; done. }
  destruct e; cbn [children]; try apply Forall_nil_2; repeat (apply Forall_cons_2 || apply Forall_app_2);
    try apply IH; try apply Forall_nil_2;
    try (apply Ho; match goal with |- match ?o with _ => _ end => destruct o; [apply IH|done] end).
  all: match goal with |- Forall _ (_ <$> ?l) => induction l as [|x l IHl] | |- Forall _ ?l => induction l as [|x l IHl] end;
    constructor; try apply IHl; first [apply IH | destruct x; apply IH].
Qed.

Lemma whole_in o e' : whole o pure = true → e' ∈ option_list o → pure e' = true.
Proof. destruct o; simpl; [by intros ? ->%list_elem_of_singleton|by intros _ ?%elem_of_nil]. Qed.
Lemma forallb_in {A} (p : A → bool) l x : forallb p l = true → x ∈ l → p x = true.
Proof. rewrite forallb_forall. intros H Hx%list_elem_of_In. auto. Qed.
Lemma pure_children e e' : pure e = true → e' ∈ children e → pure e' = true.
Proof.
  intros He Hin. destruct e; try (by apply elem_of_nil in Hin); cbn [pure children] in *; try discriminate He;
    repeat match goal with H : _ && _ = true |- _ => apply andb_true_iff in H as [? ?] end;
    repeat (apply elem_of_cons in Hin as [->|Hin] || apply elem_of_app in Hin as [Hin|Hin]);
    try done; try (by apply elem_of_nil in Hin);
    try first [by eapply forallb_in; [|exact Hin] | by eapply whole_in; [|exact Hin]].
  apply list_elem_of_fmap in Hin as (v & -> & Hv). apply (forallb_in pure) in Hv; [|done]. by destruct v.
Qed.

(** ** Simulation *)

(** What the one evaluation gives the other gives, between related states. *)
Section Simulation.
Context {S1 S2 : Type}.
Variable R : S1 → S2 → Prop.
Definition sim {A} (m1 : Ev S1 A) (m2 : Ev S2 A) : Prop :=
  ∀ s1 s2 a s1', R s1 s2 → m1 s1 = Ok (Done a, s1') → ∃ s2', m2 s2 = Ok (Done a, s2') ∧ R s1' s2'.

Lemma sim_ret {A} (a : A) : sim (mret a) (mret a).
Proof. intros s1 s2 a' s1' HR [= <- <-]. by exists s2. Qed.
Lemma sim_lift {A} (r : Res A) : sim (lift r) (lift r).
Proof. intros s1 s2 a' s1' HR. unfold lift. destruct r; [|done]. intros [= <- <-]. by exists s2. Qed.
Lemma sim_fail {A} msg (m : Ev S2 A) : sim (Eval.fail msg) m.
Proof. by intros s1 s2 a' s1' HR. Qed.
Lemma sim_panic {A} p (m : Ev S2 A) : sim (lift (Panic p)) m.
Proof. by intros s1 s2 a' s1' HR. Qed.
Lemma sim_bind {A B} (m1 : Ev S1 A) m2 (f1 : A → Ev S1 B) f2 :
  sim m1 m2 → (∀ a, sim (f1 a) (f2 a)) → sim (m1 ≫= f1) (m2 ≫= f2).
Proof.
  intros Hm Hf s1 s2 b s1' HR. unfold mbind, Ev_bind.
  destruct (m1 s1) as [[[a|msg] t1]|p] eqn:E; [|done|done]. intros Hb.
  destruct (Hm _ _ _ _ HR E) as (t2 & -> & HR'). by apply (Hf a t1 t2).
Qed.
Lemma sim_expect {A} (m1 : Ev S1 A) m2 : sim m1 m2 → sim (expect m1) (expect m2).
Proof.
  intros Hm s1 s2 a s1' HR. unfold expect. destruct (m1 s1) as [[[a'|msg] t1]|p] eqn:E; [|done|done].
  intros [= <- <-]. destruct (Hm _ _ _ _ HR E) as (t2 & -> & HR'). eauto.
Qed.
End Simulation.
#[export] Hint Resolve sim_ret sim_lift sim_fail sim_panic sim_expect : kcl.
Ltac sim_step := first
  [ apply sim_ret | apply sim_lift | apply sim_fail | apply sim_panic | apply sim_expect
  | apply sim_bind; [|intros ?] | assumption ].

Section Pure.
Context {HP : Profile} {HC : ContextConfig}.
Variable powf : f64 → f64 → f64.
Variable to_json_string to_yaml_string : ValueRef → string.
Variable f64_to_string : f64 → string.
Variable schemas : string → option (ValueRef → ValueRef → ValueRef → Res ValueRef).
Variable type_pack_and_check : ValueRef → list string → bool → Res ValueRef.
Variable to_lowercase : string → string.
Context {S1 S2 : Type} {H1 : Eval.Scopes S1} {H2 : Eval.Scopes S2}.
Variable R : S1 → S2 → Prop.
Variable rest1 : Ast.Expr → Ev S1 ValueRef.
Variable rest2 : Ast.Expr → Ev S2 ValueRef.
Abbreviation eval1 := (Eval.walk_expr powf to_json_string to_yaml_string f64_to_string schemas
  type_pack_and_check to_lowercase rest1).
Abbreviation eval2 := (Eval.walk_expr powf to_json_string to_yaml_string f64_to_string schemas
  type_pack_and_check to_lowercase rest2).
Abbreviation simulated e := (sim R (eval1 e) (eval2 e)).
Hypothesis names : ∀ ns, sim R (rest1 (Ast.IdentifierExpr ns)) (rest2 (Ast.IdentifierExpr ns)).

Lemma sim_items elts l : (∀ e, e ∈ elts → simulated e) → sim R (append_items eval1 elts l) (append_items eval2 elts l).
Proof using.
  revert l. induction elts as [|e elts IH]; intros l He; cbn [append_items]; [sim_step|].
  sim_step; [apply He; by left|]. sim_step; [sim_step|]. apply IH. intros e' ?. apply He. by right.
Qed.
Lemma sim_optional o : (∀ e, e ∈ option_list o → simulated e) →
  sim R (walk_optional eval1 o) (walk_optional eval2 o).
Proof using. destruct o as [e|]; intros He; [apply He; by left|sim_step]. Qed.
Lemma sim_chain ops comparators l r : (∀ e, e ∈ comparators → simulated e) →
  sim R (compare_chain eval1 ops comparators l r) (compare_chain eval2 ops comparators l r).
Proof using.
  revert ops l r. induction comparators as [|e es IH]; intros ops l r He; destruct ops as [|op ops];
    cbn [compare_chain]; try solve [sim_step].
  sim_step; [apply He; by left|]. sim_step; [sim_step|]. destruct ops; [sim_step|].
  destruct (value_is_truthy _); [|sim_step]. apply IH. intros e' ?. apply He. by right.
Qed.
Lemma sim_parts values r : (∀ e, e ∈ inner <$> values → simulated e) →
  sim R (join_parts to_json_string to_yaml_string f64_to_string to_lowercase eval1 values r)
        (join_parts to_json_string to_yaml_string f64_to_string to_lowercase eval2 values r).
Proof using.
  revert r. induction values as [|e es IH]; intros r He; cbn [join_parts]; [sim_step|].
  sim_step.
  - destruct e; cbn [walk_joined_part]; try solve [sim_step; sim_step]; try apply sim_expect, sim_ret.
    apply sim_expect. unfold walk_formatted_value. sim_step; [apply He; by left|].
    destruct format_spec; [|sim_step]. repeat case_bool_decide; sim_step.
  - sim_step; [sim_step|]. apply IH. intros e' ?. apply He. by right.
Qed.
Lemma sim_pure e : pure e = true → simulated e.
Proof using names.
  induction e as [e IH] using children_ind. intros He.
  assert (∀ e', e' ∈ children e → simulated e') as IH'.
  { intros e' Hin. apply IH; [done|]. by apply (pure_children e). }
  destruct e; try discriminate He; cbn [Eval.walk_expr children] in *.
  - apply names.
  - unfold walk_unary_expr. sim_step; [apply IH'; by left|]. destruct op; sim_step.
  - assert (simulated e1 ∧ simulated e2) as [He1 He2] by (split; apply IH'; set_solver).
    unfold walk_binary_expr. destruct op; sim_step; try done; try sim_step; try sim_step; try done;
      destruct (value_is_truthy _); done || sim_step.
  - unfold walk_if_expr. sim_step; [apply IH'; set_solver|].
    destruct (value_is_truthy _); apply IH'; set_solver.
  - apply IH'. by left.
  - by apply sim_items.
  - unfold walk_list_if_item_expr. sim_step; [apply IH'; by left|].
    destruct (value_is_truthy _); [apply sim_items; set_solver|].
    destruct orelse; [|sim_step]. apply IH'. set_solver.
  - apply IH'. by left.
  - unfold walk_subscript. sim_step; [apply IH'; by left|]. destruct index as [i|].
    + sim_step; [apply IH'; set_solver|]. destruct has_question; sim_step.
    + sim_step; [apply sim_optional; set_solver|]. sim_step; [apply sim_optional; set_solver|].
      sim_step; [apply sim_optional; set_solver|]. destruct (_ && _); sim_step.
  - unfold walk_compare. sim_step; [apply IH'; by left|].
    destruct comparators as [|e1 [|e2 es]]; [sim_step| |].
    + sim_step; [apply IH'; set_solver|]. destruct ops; sim_step.
    + apply sim_chain. set_solver.
  - unfold walk_number_lit. destruct value; [|sim_step]. destruct binary_suffix; [|sim_step].
    sim_step; sim_step.
  - apply sim_ret.
  - apply sim_ret.
  - unfold walk_joined_string. by apply sim_parts.
  - unfold walk_formatted_value. sim_step; [apply IH'; by left|].
    destruct format_spec; [|sim_step]. repeat case_bool_decide; sim_step.
  - apply sim_fail.
Qed.
End Pure.

(** ** Modules of assignments *)

Section Order.
Context {HP : Profile} {HC : ContextConfig} {E C : Type}.
Variable powf : f64 → f64 → f64.
Variable to_json_string to_yaml_string : ValueRef → string.
Variable f64_to_string : f64 → string.
Variable schemas : string → option (ValueRef → ValueRef → ValueRef → Res ValueRef).
Variable type_pack_and_check : ValueRef → list string → bool → Res ValueRef.
Variable to_lowercase : string → string.
Variable fn_ptr_by_name : string → Z.
Variable X : Externals E C.
Abbreviation S := (Evaluator E C).
Abbreviation M := (Ev S).

(** A variable and the expression that it is assigned. *)
Definition Def : Type := list Z * Ast.Expr.
Definition def_name (d : Def) : string := text d.1.
Definition assignment (d : Def) : Ast.Stmt := Ast.SAssign [Ast.MkTarget d.1 []] d.2 None.

(** The evaluation of an expression in an environment, where no scope is entered. *)
#[local] Instance no_scopes : Eval.Scopes unit := {|
  Eval.enter_scope := mret tt; Eval.leave_scope := mret tt;
  Eval.is_local_var _ := mret false; Eval.add_local_var _ := mret tt;
  Eval.remove_local_var _ := mret tt; Eval.clear_local_vars := mret tt;
  Eval.add_or_update_local_variable_within_scope _ _ := mret tt;
  Eval.store_identifier _ _ := mret tt |}.
Definition lookup_names (ρ : gmap string ValueRef) (e : Ast.Expr) : Ev unit ValueRef :=
  match e with
  | Ast.IdentifierExpr (n :: attrs) =>
      match ρ !! text n with
      | Some v => lift (load_attrs fn_ptr_by_name v (text <$> attrs))
      | None => Eval.fail "undefined"
      end
  | _ => Eval.fail "not a name"
  end.
Definition value_in (ρ : gmap string ValueRef) (e : Ast.Expr) : option ValueRef :=
  match Eval.walk_expr powf to_json_string to_yaml_string f64_to_string schemas type_pack_and_check
          to_lowercase (lookup_names ρ) e tt with
  | Ok (Done v, _) => Some v
  | _ => None
  end.
(** The assignments one after the other, each in the environment of those before. *)
Fixpoint in_order (ρ : gmap string ValueRef) (defs : list Def) : option (gmap string ValueRef) :=
  match defs with
  | [] => Some ρ
  | d :: defs =>
      match value_in ρ d.2 with
      | Some v => in_order (<[def_name d := deep_copy v]> ρ) defs
      | None => None
      end
  end.

Lemma in_order_spec defs : ∀ ρ0 ρ,
  NoDup (def_name <$> defs) → (∀ x, x ∈ def_name <$> defs → ρ0 !! x = None) → in_order ρ0 defs = Some ρ →
  ρ0 ⊆ ρ ∧ ∀ i d, defs !! i = Some d → ∃ ρi v,
    value_in ρi d.2 = Some v ∧ ρ !! def_name d = Some (deep_copy v) ∧ ρi ⊆ ρ ∧
    ∀ x, is_Some (ρi !! x) → is_Some (ρ0 !! x) ∨ ∃ j d', j < i ∧ defs !! j = Some d' ∧ def_name d' = x.
Proof using.
  induction defs as [|d defs IH]; intros ρ0 ρ Hnd Hnew; cbn [in_order]; [intros [= ->]; by split|].
  destruct (value_in ρ0 d.2) as [v|] eqn:Ev; [|done]. rewrite fmap_cons in Hnd.
  apply NoDup_cons in Hnd as [Hd Hnd]. intros Hρ. edestruct IH as [Hsub Hdefs]; [exact Hnd| |exact Hρ|].
  { intros x Hx. rewrite lookup_insert_ne; [|by intros <-]. apply Hnew. rewrite fmap_cons. by right. }
  assert (ρ0 ⊆ ρ) as Hsub0.
  { etrans; [|exact Hsub]. apply insert_subseteq, Hnew. rewrite fmap_cons. by left. }
  split; [done|]. intros [|i] d' Hi; simpl in Hi.
  - injection Hi as <-. exists ρ0, v. split_and!; [done| |done|by left].
    eapply lookup_weaken; [|exact Hsub]. by rewrite lookup_insert_eq.
  - destruct (Hdefs i d' Hi) as (ρi & w & Hw & Hd' & Hi' & Hx). exists ρi, w. split_and!; [done..|].
    intros x Hx'. destruct (Hx x Hx') as [H0|(j & d'' & Hj & Hd'' & <-)].
    + destruct (decide (def_name d = x)) as [<-|Hne].
      * right. exists 0, d. split; [lia|done].
      * rewrite lookup_insert_ne in H0 by done. by left.
    + right. exists (Datatypes.S j), d''. split; [lia|done].
Qed.

(** ** The evaluator on a module of assignments *)

Lemma bind_run {A B} (m : M A) (f : A → M B) s a s1 : m s = Ok (Done a, s1) → (m ≫= f) s = f a s1.
Proof using. intros H. unfold mbind, Ev_bind. by rewrite H. Qed.

Variable pkgs : gmap string (list Ast.Module_).
Variable m : Ast.Module_.
Variable body sorted : list Def.
Variable ρ : gmap string ValueRef.
Hypothesis Hpkgs : pkgs !! MAIN_PKG_PATH = Some [m].
Hypothesis Hbody : Ast.body m = assignment <$> body.
Hypothesis Hperm : body ≡ₚ sorted.
Hypothesis Hnodup : NoDup (def_name <$> sorted).
Hypothesis Hpure : ∀ d, d ∈ sorted → pure d.2 = true.
Hypothesis Hρ : in_order ∅ sorted = Some ρ.

Abbreviation walkers := (walkers powf to_json_string to_yaml_string f64_to_string schemas type_pack_and_check
  to_lowercase fn_ptr_by_name pkgs X).
Abbreviation module_id := (OModule MAIN_PKG_PATH 0, @nil nat).
Definition setter_of (k : nat) : Setter := MkSetter (Some 0) k (nth_stmt module_id k) None Normal.

(** The states between the statements and during the evaluation of a variable: [D]
    are the variables that have been computed, [T] the targets, [B] the statements
    that are run for a variable and [lv] their levels. *)
Record good (D T : list string) (B : list BacktrackMeta) (lv : string → nat) (s : S) : Prop := {
  good_pkgpath : pkgpath_stack s = [MAIN_PKG_PATH];
  good_lambda : lambda_stack s = [];
  good_schema : schema_stack s = [];
  good_locals : local_vars s = ∅;
  good_frames : frames s = [MkFrame MAIN_PKG_PATH (Global 0)];
  good_scopes : ∃ g b, pkg_scopes s !! MAIN_PKG_PATH = Some [g; b] ∧
    ∀ d, d ∈ body → ∃ v, map_get (def_name d) (variables g) = Some v ∧ (def_name d ∈ D → ρ !! def_name d = Some v);
  good_lazy : ∃ L, lazy_scopes s !! MAIN_PKG_PATH = Some L ∧
    (∀ x, default 0 (map_get x (levels L)) = lv x) ∧
    (∀ k d, body !! k = Some d → map_get (def_name d) (setters L) = Some [setter_of k]) ∧
    (∀ d v, d ∈ body → map_get (def_name d) (cache L) = Some v → ρ !! def_name d = Some v);
  good_targets : target_vars s = T;
  good_meta : backtrack_meta s = B;
  good_breaks : Forall (λ b, is_break b = false ∧ meta_stopped b = None) B }.

Lemma good_more D D' T B lv s : good D T B lv s → (∀ x, x ∈ D' → x ∈ D) → good D' T B lv s.
Proof using.
  intros [] HD. constructor; try done. destruct good_scopes0 as (g & b & Hs & Hg). exists g, b. split; [done|].
  intros d Hd. destruct (Hg d Hd) as (v & ? & ?). exists v. auto.
Qed.
Lemma good_id D T B lv s i : good D T B lv s → good D T B lv (set_ast_id i s).
Proof using. intros []. by constructor. Qed.
Lemma good_clear D T B lv s : good D T B lv s → good D T B lv (set_local_vars_of (λ _, ∅) s).
Proof using. intros []. by constructor. Qed.
Lemma good_target D T B lv s x : good D T B lv s → good D (x :: T) B lv (set_target_vars (cons x) s).
Proof using. intros []. constructor; try done. simpl. by rewrite good_targets0. Qed.
Lemma good_untarget D T B lv s x : good D (x :: T) B lv s → good D T B lv (set_target_vars tail s).
Proof using. intros []. constructor; try done. simpl. by rewrite good_targets0. Qed.
Lemma good_push D T B lv s k : good D T B lv s →
  good D T (meta_of (setter_of k) :: B) lv (set_backtrack_meta (cons (meta_of (setter_of k))) s).
Proof using. intros []. constructor; try done; simpl; [by rewrite good_meta0|by constructor]. Qed.
Lemma good_pop D T b B lv s : good D T (b :: B) lv s → good D T B lv (set_backtrack_meta tail s).
Proof using. intros []. constructor; try done; simpl; [by rewrite good_meta0|]. by apply Forall_cons in good_breaks0 as [_ ?]. Qed.
Lemma good_broken D T B lv s : good D T B lv s → breaks s = Ok (Done false, s).
Proof using.
  intros []. unfold breaks, gets. rewrite good_meta0. destruct B as [|b B]; [done|].
  apply Forall_cons in good_breaks0 as [[-> _] _]. done.
Qed.
Lemma good_update_break D T B lv s id : good D T B lv s →
  ∃ s', update_break id s = Ok (Done tt, s') ∧ good D T B lv s'.
Proof using.
  intros H. eexists. split; [done|]. destruct H. constructor; try done. simpl. rewrite good_meta0.
  destruct B as [|b B]; [done|]. apply Forall_cons in good_breaks0 as [[_ Hb] _]. unfold break_at. by rewrite Hb.
Qed.

Lemma of_scopes_run {A} (f : list Scope → Res A) (s : S) l a :
  pkgpath_stack s = [MAIN_PKG_PATH] → pkg_scopes s !! MAIN_PKG_PATH = Some l → f l = Ok a →
  of_scopes f s = Ok (Done a, s).
Proof using.
  intros Hp Hl Hf. unfold of_scopes, with_scopes. rewrite (bind_run _ _ s MAIN_PKG_PATH s).
  - rewrite Hl. unfold mbind, Res_bind. rewrite Hf. do 2 f_equal. unfold set_pkg_scopes. rewrite insert_id by done. by destruct s.
  - unfold current_pkgpath. by rewrite Hp.
Qed.
Lemma of_lazy_run {A} (f : LazyEvalScope → A) (s : S) L :
  lazy_scopes s !! MAIN_PKG_PATH = Some L → of_lazy_scope MAIN_PKG_PATH f s = Ok (Done (f L), s).
Proof using. intros HL. unfold of_lazy_scope. by rewrite HL. Qed.
Lemma store_computed_spec key value id L :
  levels (store_computed key value id L) = levels L ∧ setters (store_computed key value id L) = setters L ∧
  (cache (store_computed key value id L) = cache L ∨
   cache (store_computed key value id L) = map_insert key value (cache L)).
Proof using.
  unfold store_computed, cal_increment, set_cache.
  destruct (is_backtracking L key); cbn; destruct (_ && _); cbn; auto.
Qed.

Lemma good_store D T B lv s d w :
  good D T B lv s → d ∈ body → ρ !! def_name d = Some w →
  ∃ s', store_name X (def_name d) w s = Ok (Done tt, s') ∧ good (def_name d :: D) T B lv s'.
Proof using.
  intros G Hd Hw. pose proof G as []. destruct good_scopes0 as (g & b & Hs & Hg).
  destruct good_lazy0 as (L & HL & Hlv & Hset & Hcache).
  destruct (Hg d Hd) as (v0 & Hv0 & _).
  unfold store_name. rewrite (bind_run _ _ s false s) by (unfold is_in_schema, gets; by rewrite good_schema0).
  rewrite (bind_run _ _ s 1 s) by by eapply of_scopes_run.
  cbn [Nat.eqb GLOBAL_LEVEL]. unfold add_or_update_global_variable.
  rewrite (bind_run _ _ s MAIN_PKG_PATH s) by (unfold current_pkgpath; by rewrite good_pkgpath0).
  set (s1 := set_pkg_scopes <[MAIN_PKG_PATH := [set_variables (map_insert (def_name d) w) g; b]]> s).
  rewrite (bind_run _ _ s (Some true) s1).
  2:{ unfold with_scopes. rewrite (bind_run _ _ s MAIN_PKG_PATH s) by (unfold current_pkgpath; by rewrite good_pkgpath0).
      rewrite Hs. unfold contains_key. by rewrite Hv0. }
  unfold set_value_to_lazy_scope.
  set (s2 := set_lazy_scopes <[MAIN_PKG_PATH := store_computed (def_name d) w (ast_id s1) L]> s1).
  rewrite (bind_run _ _ s1 tt s2).
  2:{ rewrite (bind_run _ _ s1 (ast_id s1) s1) by done. unfold with_lazy_scope. cbn [lazy_scopes set_pkg_scopes s1].
      by rewrite HL. }
  eexists. split; [done|]. destruct (store_computed_spec (def_name d) w (ast_id s1) L) as (El & Es & Ec).
  constructor; try done; cbn [pkg_scopes lazy_scopes set_lazy_scopes set_pkg_scopes s1 s2].
  - eexists _, b. rewrite lookup_insert_eq. split; [done|]. cbn [variables set_variables]. intros d' Hd'.
    destruct (decide (def_name d' = def_name d)) as [->|Hne].
    + exists w. by rewrite map_get_insert_eq.
    + destruct (Hg d' Hd') as (v & Hv & HD). exists v. rewrite map_get_insert_ne by done. split; [done|].
      intros [?|?]%elem_of_cons; [done|auto].
  - eexists. rewrite lookup_alter_eq, lookup_insert_eq. split; [done|].
    cbn [levels setters cache set_cache]. rewrite El, Es.
    split_and!; [done..|]. intros d' v Hd'. destruct (decide (def_name d' = def_name d)) as [->|Hne].
    + rewrite map_get_insert_eq. by intros [= <-].
    + rewrite map_get_insert_ne by done. destruct Ec as [-> | ->]; [by apply Hcache|].
      rewrite map_get_insert_ne by done. by apply Hcache.
Qed.

Lemma get_global D T B lv s d : good D T B lv s → d ∈ body →
  ∃ v, get_variable_in_pkgpath fn_ptr_by_name (def_name d) MAIN_PKG_PATH s = Ok (Done v, s) ∧
       (def_name d ∈ D → ρ !! def_name d = Some v).
Proof using.
  intros [] Hd. destruct good_scopes0 as (g & b & Hs & Hg). destruct (Hg d Hd) as (v & Hv & HD).
  exists v. split; [|done]. unfold get_variable_in_pkgpath.
  change (full_pkgpath MAIN_PKG_PATH) with MAIN_PKG_PATH.
  change (bool_decide (MAIN_PKG_PATH ∈ STANDARD_SYSTEM_MODULE_NAMES_WITH_AT)) with false.
  change (starts_with PLUGIN_PREFIX_WITH_AT MAIN_PKG_PATH) with false. cbv iota.
  rewrite Hs. cbn [find_variable]. rewrite Hv, good_lambda0. done.
Qed.
Lemma level_global D T B lv s d : good D T B lv s → d ∈ body →
  resolve_variable_level (def_name d) s = Ok (Done (Some 1), s).
Proof using.
  intros [] Hd. destruct good_scopes0 as (g & b & Hs & Hg). destruct (Hg d Hd) as (v & Hv & _).
  eapply of_scopes_run; [done..|]. cbn [level_of]. unfold contains_key. by rewrite Hv.
Qed.
Lemma with_lazy_run {A} (f : LazyEvalScope → A * LazyEvalScope) (s : S) L :
  lazy_scopes s !! MAIN_PKG_PATH = Some L →
  with_lazy_scope MAIN_PKG_PATH f s = Ok (Done (f L).1, set_lazy_scopes <[MAIN_PKG_PATH := (f L).2]> s).
Proof using. intros HL. unfold with_lazy_scope. by rewrite HL. Qed.
(** The state with another lazy scope. *)
Lemma good_lazy_scope D T B lv lv' s L :
  good D T B lv s → (∀ x, default 0 (map_get x (levels L)) = lv' x) →
  (∀ k d, body !! k = Some d → map_get (def_name d) (setters L) = Some [setter_of k]) →
  (∀ d v, d ∈ body → map_get (def_name d) (cache L) = Some v → ρ !! def_name d = Some v) →
  good D T B lv' (set_lazy_scopes <[MAIN_PKG_PATH := L]> s).
Proof using.
  intros [] Hl Hs Hc. constructor; try done. exists L. split; [|done].
  unfold set_lazy_scopes. cbn [lazy_scopes]. apply lookup_insert_eq.
Qed.

Definition at_level (lv : string → nat) (x : string) (n : nat) (y : string) : nat := if decide (y = x) then n else lv y.
Lemma level_insert lv L x n y : (∀ x, default 0 (map_get x (levels L)) = lv x) →
  default 0 (map_get y (map_insert x n (levels L))) = at_level lv x n y.
Proof using.
  intros Hl. unfold at_level. case_decide as Hd; [subst; by rewrite map_get_insert_eq|].
  by rewrite map_get_insert_ne.
Qed.

Section Load.
(** The statements that the loading of a name runs. *)
Variable walk : AstIndex → Ast.Stmt → M ValueRef.
Abbreviation run_setter := (walk_stmts_with_setter pkgs walk).

Lemma setter_run D T B lv s d k :
  good D T B lv s → body !! k = Some d →
  setter_source pkgs (setter_of k) s = Ok (Done (Some (nth_stmt module_id k, assignment d)), s).
Proof using Hpkgs Hbody.
  intros [] Hk. unfold setter_source, setter_of. cbn [setter_index setter_stmt].
  rewrite (bind_run _ _ s (Some (MkFrame MAIN_PKG_PATH (Global 0))) s) by (unfold gets; by rewrite good_frames0).
  cbv iota beta. change (starts_with PKG_PATH_PREFIX MAIN_PKG_PATH) with false. cbv iota.
  rewrite Hpkgs. cbn. rewrite Hbody, list_lookup_fmap, Hk. done.
Qed.

Lemma load_def D t T B lv s d k v :
  good D (t :: T) B lv s → body !! k = Some d → def_name d ≠ t → lv (def_name d) = 0 → ρ !! def_name d = Some v →
  (∀ s', good D (t :: T) (meta_of (setter_of k) :: B) (at_level lv (def_name d) 1) s' →
     ∃ w s'', walk (nth_stmt module_id k) (assignment d) s' = Ok (Done w, s'') ∧
              good (def_name d :: D) (t :: T) (meta_of (setter_of k) :: B) (at_level lv (def_name d) 1) s'') →
  ∃ s', load_name fn_ptr_by_name X run_setter (def_name d) s = Ok (Done v, s') ∧ good D (t :: T) B lv s'.
Proof using Hpkgs Hbody.
  intros G Hk Hne Hlv Hv Hwalk. pose proof G as [].
  assert (d ∈ body) as Hd by by eapply list_elem_of_lookup_2.
  destruct good_lazy0 as (L & HL & Hl & Hset & Hcache).
  destruct (get_global _ _ _ _ _ _ G Hd) as (v0 & Hget & _).
  unfold load_name.
  rewrite (bind_run _ _ s false s) by (unfold is_in_schema, gets; by rewrite good_schema0).
  rewrite (bind_run _ _ s false s) by (unfold is_in_lambda, gets; by rewrite good_lambda0).
  rewrite (bind_run _ _ s false s) by (unfold is_local_var, gets; by rewrite good_locals0).
  cbn [negb andb]. rewrite (bind_run _ _ s v0 s).
  2:{ unfold get_variable. rewrite (bind_run _ _ s MAIN_PKG_PATH s); [done|].
      unfold current_pkgpath. by rewrite good_pkgpath0. }
  rewrite (bind_run _ _ s (Some 1) s) by by eapply level_global.
  cbn [Nat.leb GLOBAL_LEVEL].
  rewrite (bind_run _ _ s MAIN_PKG_PATH s) by (unfold current_pkgpath; by rewrite good_pkgpath0).
  rewrite (bind_run _ _ s t s) by (unfold get_target_var, gets; by rewrite good_targets0).
  unfold get_value_from_lazy_scope. rewrite bool_decide_eq_false_2 by done.
  rewrite (bind_run _ _ s false s) by done.
  rewrite (bind_run _ _ s _ s) by by eapply of_lazy_run.
  destruct (map_get (def_name d) (cache L)) as [c|] eqn:Hc.
  { exists s. split; [|done]. rewrite (Hcache d c Hd Hc) in Hv. by injection Hv as ->. }
  rewrite (bind_run _ _ s _ s) by by eapply of_lazy_run.
  rewrite (Hset k d Hk). change (default [] (Some [setter_of k])) with [setter_of k]. cbv iota.
  rewrite (bind_run _ _ s _ s) by by eapply of_lazy_run. rewrite Hl, Hlv.
  erewrite bind_run; [|by apply with_lazy_run]. cbn [snd fst].
  set (s1 := set_lazy_scopes _ s).
  assert (good D (t :: T) B (at_level lv (def_name d) 1) s1) as G1.
  { apply good_lazy_scope with lv; [done| |done|done]. intros x. by apply level_insert. }
  rewrite (bind_run _ _ s1 (Some (setter_of k)) s1) by done. cbv iota beta.
  unfold walk_stmts_with_setter at 1.
  destruct (Hwalk _ (good_push _ _ _ _ _ k G1)) as (w & s2 & Hw & G2).
  set (s3 := set_backtrack_meta tail s2).
  assert (good (def_name d :: D) (t :: T) B (at_level lv (def_name d) 1) s3) as G3 by by eapply good_pop.
  rewrite (bind_run _ _ s1 tt s3).
  2:{ erewrite bind_run; [|by eapply setter_run]. cbv iota beta.
      rewrite (bind_run _ _ s1 tt (set_backtrack_meta (cons (meta_of (setter_of k))) s1)) by done.
      rewrite (bind_run _ _ _ w s2); [done|]. unfold expect. by rewrite Hw. }
  destruct (get_global _ _ _ _ _ _ G3 Hd) as (v1 & Hget1 & Hv1).
  rewrite (Hv1 ltac:(by left)) in Hv. injection Hv as ->.
  rewrite (bind_run _ _ s3 v s3) by done.
  destruct (good_lazy _ _ _ _ _ G3) as (L3 & HL3 & Hl3 & Hset3 & Hcache3).
  erewrite bind_run; [|by apply with_lazy_run]. cbn [snd fst].
  eexists. split; [done|]. apply good_more with (def_name d :: D); [|intros; by right].
  eapply good_lazy_scope; [done| |done|].
  - intros x. cbn [levels set_cache set_levels]. rewrite (level_insert (at_level lv (def_name d) 1)) by done.
    unfold at_level. repeat case_decide; congruence.
  - intros d' v'. cbn [cache set_cache set_levels]. intros Hd'. destruct (decide (def_name d' = def_name d)) as [->|].
    + rewrite map_get_insert_eq. intros [= <-]. apply Hv1. by left.
    + rewrite map_get_insert_ne by done. by apply Hcache3.
Qed.
End Load.

Lemma sorted_name i j d d' : sorted !! i = Some d → sorted !! j = Some d' → def_name d = def_name d' → i = j.
Proof using Hnodup.
  intros Hi Hj He. eapply (NoDup_lookup (def_name <$> sorted)); [done| |]; rewrite list_lookup_fmap.
  - by rewrite Hi.
  - rewrite Hj, He. done.
Qed.
Lemma in_body j d : sorted !! j = Some d → ∃ k, body !! k = Some d.
Proof using Hperm.
  intros Hj%list_elem_of_lookup_2. apply list_elem_of_lookup_1. by rewrite Hperm.
Qed.
Lemma sorted_def i d : sorted !! i = Some d → ∃ ρi v,
  value_in ρi d.2 = Some v ∧ ρ !! def_name d = Some (deep_copy v) ∧ ρi ⊆ ρ ∧
  ∀ x, is_Some (ρi !! x) → ∃ j d', j < i ∧ sorted !! j = Some d' ∧ def_name d' = x.
Proof using Hρ Hnodup.
  intros Hi. destruct (in_order_spec sorted ∅ ρ) as [_ H]; [done|done|done|].
  destruct (H i d Hi) as (ρi & v & ? & ? & ? & Hx). exists ρi, v. split_and!; [done..|].
  intros x Hs. destruct (Hx x Hs) as [He|?]; [|done]. rewrite lookup_empty in He. by destruct He.
Qed.

Lemma assign_good walk_expr D T B lv s d v :
  good D T B lv s → d ∈ body → ρ !! def_name d = Some (deep_copy v) →
  (∀ s', good D (def_name d :: T) B lv s' → ∃ s'', walk_expr d.2 s' = Ok (Done v, s'') ∧
     good D (def_name d :: T) B lv s'') →
  ∃ s', walk_assign_stmt f64_to_string type_pack_and_check X walk_expr [Ast.MkTarget d.1 []] d.2 None s =
          Ok (Done v, s') ∧ good (def_name d :: D) T B lv s'.
Proof using.
  intros G Hd Hv He. unfold walk_assign_stmt. cbn [each].
  set (s1 := set_local_vars_of (λ _, ∅) s). rewrite (bind_run _ _ s tt s1) by done.
  set (s2 := set_target_vars (cons (def_name d)) s1). rewrite (bind_run _ _ s1 tt s2) by done.
  destruct (He s2) as (s3 & E3 & G3). { by apply good_target, good_clear. }
  rewrite (bind_run _ _ s2 v s3) by done. cbn [cast]. rewrite (bind_run _ _ s3 v s3) by done.
  destruct (good_store _ _ _ _ _ _ _ G3 Hd Hv) as (s4 & E4 & G4).
  rewrite (bind_run _ _ s3 tt s4).
  2:{ unfold walk_target_with_value. cbn [Ast.paths Ast.target_name].
      rewrite (bind_run _ _ s3 tt s4); [done|]. rewrite (bind_run _ _ s3 (deep_copy v) s4); [done|].
      by rewrite (bind_run _ _ s3 tt s4). }
  eexists. split; [done|]. by eapply good_untarget.
Qed.

(** The statement of a variable gives it its value, running the statements of the
    variables before it as they are needed. *)
Lemma run_def i : ∀ d k depth D T B lv s,
  sorted !! i = Some d → body !! k = Some d → i < depth → good D T B lv s →
  (∀ j d', j < i → sorted !! j = Some d' → lv (def_name d') = 0) →
  ∃ w s', stmt_at (walkers depth) (nth_stmt module_id k) (assignment d) s = Ok (Done w, s') ∧
          good (def_name d :: D) T B lv s'.
Proof using Hpkgs Hbody Hperm Hnodup Hpure Hρ.
  induction i as [i IH] using lt_wf_ind. intros d k depth D T B lv s Hi Hk Hdepth G Hlv.
  destruct depth as [|n]; [lia|]. cbn [EvalStmt.walkers stmt_at]. unfold assignment. cbn [walk_stmt].
  destruct (sorted_def i d Hi) as (ρi & v & Hval & Hv & Hsub & Hbefore).
  assert (d ∈ body) as Hd by by eapply list_elem_of_lookup_2.
  rewrite (bind_run _ _ s false s) by by eapply good_broken. cbv iota.
  set (id := nth_stmt module_id k). set (s1 := set_ast_id id s).
  rewrite (bind_run _ _ s tt s1) by done. assert (good D T B lv s1) as G1 by by apply good_id.
  unfold value_in in Hval. destruct (Eval.walk_expr _ _ _ _ _ _ _ _ _ _) as [[[v'|] []]|] eqn:Hev;
    try discriminate Hval. injection Hval as ->.
  match goal with |- context [walk_assign_stmt _ _ _ ?e] =>
    destruct (assign_good e _ _ _ _ _ _ _ G1 Hd Hv) as (s2 & E2 & G2) end.
  { intros s' G'. eapply (sim_pure _ _ _ _ _ _ _ (λ _ s, good D (def_name d :: T) B lv s)); [|by apply Hpure; eapply list_elem_of_lookup_2|exact G'|exact Hev].
    intros ns. destruct ns as [|x attrs]; [apply sim_fail|]. cbn [lookup_names walk_scoped fmap list_fmap].
    destruct (ρi !! text x) as [vx|] eqn:Hx; [|apply sim_fail].
    destruct (Hbefore (text x)) as (j & dj & Hj & Hdj & Hname); [by rewrite Hx|].
    intros [] t a [] Gt [= Ha]. unfold load_value.
    destruct (in_body j dj Hdj) as [kj Hkj].
    destruct (load_def (stmt_at (walkers n)) D (def_name d) T B lv t dj kj vx) as (t' & Et & Gt'); try done.
    - intros He. pose proof (sorted_name _ _ _ _ Hi Hdj (eq_sym He)). lia.
    - by apply Hlv with j.
    - rewrite Hname. by eapply lookup_weaken.
    - intros t' Gt'. eapply (IH j); [done..|lia|done|]. intros j' d' Hj' Hd'. unfold at_level.
      rewrite decide_False; [|intros He; pose proof (sorted_name _ _ _ _ Hd' Hdj He); lia].
      apply Hlv with j'; [lia|done].
    - rewrite Hname in Et. rewrite (bind_run _ _ t vx t') by done. exists t'. split; [|done].
      unfold lift in *. by destruct (load_attrs _ _ _); simplify_eq. }
  rewrite (bind_run _ _ s1 (Done v) s2).
  2:{ unfold attempt. rewrite E2. done. }
  destruct (good_update_break _ _ _ _ _ id G2) as (s3 & E3 & G3).
  rewrite (bind_run _ _ s2 tt s3) by done. exists v, s3. done.
Qed.

(** ** From the start of the program *)

Lemma insert_fresh {A} (x : string) (v : A) (l : IndexMap string A) : map_get x l = None → map_insert x v l = l ++ [(x, v)].
Proof using. intros Hx%map_get_None. by apply map_insert_fresh. Qed.
Definition entries (l : list Def) (i : nat) : BodyMap := imap (λ k d, (def_name d, [setter_of (i + k)])) l.
Lemma entries_cons d l i : entries (d :: l) i = (def_name d, [setter_of i]) :: entries l (Datatypes.S i).
Proof using.
  unfold entries. cbn [imap]. f_equal; [by rewrite Nat.add_0_r|]. apply imap_ext. intros j x _. cbn.
  by rewrite Nat.add_succ_r.
Qed.
Lemma entries_keys l i : (entries l i).*1 = def_name <$> l.
Proof using. revert i. induction l as [|d l IH]; intros i; [done|]. rewrite entries_cons. cbn. by rewrite IH. Qed.
Lemma entries_get l i k d : NoDup (def_name <$> l) → l !! k = Some d →
  map_get (def_name d) (entries l i) = Some [setter_of (i + k)].
Proof using.
  intros Hnd Hk. apply in_map_get; [unfold wf_map; by rewrite entries_keys|].
  apply list_elem_of_lookup_2 with k. unfold entries. rewrite list_lookup_imap, Hk. done.
Qed.

Lemma emit_defs l : ∀ i acc, NoDup (def_name <$> l) → (∀ x, x ∈ def_name <$> l → map_get x acc.1 = None) →
  emit_from (emit_stmt (Some 0)) i module_id false (assignment <$> l) acc = Ok (acc.1 ++ entries l i, acc.2).
Proof using.
  induction l as [|d l IH]; intros i [acc ns] Hnd Hnew; cbn [fst snd] in *; [by rewrite app_nil_r|].
  rewrite fmap_cons in Hnd. apply NoDup_cons in Hnd as [Hd Hnd].
  rewrite fmap_cons. cbn [emit_from emit_stmt assignment]. cbn [fmap list_fmap foldl].
  unfold mbind, Res_bind. rewrite IH; [|done|].
  - cbn [emit_name fst snd]. unfold add_stmt. cbn [Ast.target_name].
    change (text d.1) with (def_name d).
    rewrite (Hnew (def_name d)) by by left. rewrite insert_fresh by (apply Hnew; by left).
    rewrite entries_cons, <- app_assoc. done.
  - intros x Hx. cbn [emit_name fst snd]. unfold add_stmt. rewrite map_get_insert_ne.
    + apply Hnew. by right.
    + intros ->. done.
Qed.
Lemma emit_module : emit_setters (Some 0) module_id (Ast.body m) = Ok (entries body 0).
Proof using Hbody Hperm Hnodup.
  unfold emit_setters, emit_setters_with. rewrite Hbody, emit_defs; [done| |done].
  by rewrite Hperm.
Qed.
Lemma merge_fresh l acc : NoDup l.*1 → (∀ x, x ∈ l.*1 → map_get x acc = None) → merge_setters acc l = acc ++ l.
Proof using.
  revert acc. induction l as [|[x v] l IH]; intros acc Hnd Hnew; [by rewrite app_nil_r|].
  cbn in Hnd. apply NoDup_cons in Hnd as [Hx Hnd]. unfold merge_setters. cbn [foldl]. unfold add_setters at 2. cbn [fst snd].
  rewrite (Hnew x) by by left. rewrite insert_fresh by (apply Hnew; by left).
  fold (merge_setters (acc ++ [(x, v)]) l). rewrite IH; [by rewrite <- app_assoc|done|].
  intros y Hy. rewrite <- insert_fresh by (apply Hnew; by left). rewrite map_get_insert_ne by (by intros ->).
  apply Hnew. by right.
Qed.

(** The state while the scope of the functions is filled. *)
Record booting (s : S) : Prop := {
  boot_pkgpath : pkgpath_stack s = [MAIN_PKG_PATH];
  boot_lambda : lambda_stack s = [];
  boot_schema : schema_stack s = [];
  boot_locals : local_vars s = ∅;
  boot_frames : frames s = [];
  boot_lazy : lazy_scopes s = ∅;
  boot_targets : target_vars s = [];
  boot_meta : backtrack_meta s = [];
  boot_scopes : ∃ b, pkg_scopes s !! MAIN_PKG_PATH = Some [b] }.
Lemma boot_variable s name v : booting s → ∃ s', add_variable name v s = Ok (Done tt, s') ∧ booting s'.
Proof using.
  intros []. destruct boot_scopes0 as [b Hb]. unfold add_variable.
  set (s1 := set_pkg_scopes <[MAIN_PKG_PATH := [set_variables (map_insert name v) b]]> s).
  assert (current_pkgpath s = Ok (Done MAIN_PKG_PATH, s)) as Hp by (unfold current_pkgpath; by rewrite boot_pkgpath0).
  rewrite (bind_run _ _ s (contains_key name (variables b)) s1).
  2:{ unfold with_scopes. rewrite (bind_run _ _ s MAIN_PKG_PATH s) by done. by rewrite Hb. }
  assert (booting s1) as Hs1.
  { constructor; try done. eexists. unfold s1, set_pkg_scopes. cbn [pkg_scopes]. apply lookup_insert_eq. }
  destruct (contains_key name (variables b)); [|by exists s1].
  eexists. split.
  - rewrite (bind_run _ _ s1 MAIN_PKG_PATH s1); [done|]. unfold current_pkgpath. by rewrite (boot_pkgpath _ Hs1).
  - destruct Hs1. constructor; try done. unfold set_lazy_scopes. cbn [lazy_scopes]. rewrite boot_lazy1.
    apply map_eq. intros k. destruct (decide (k = MAIN_PKG_PATH)) as [->|].
    + by rewrite lookup_alter_eq.
    + by rewrite lookup_alter_ne.
Qed.
Lemma boot_each {A} (f : A → M unit) l s :
  (∀ a s, a ∈ l → booting s → ∃ s', f a s = Ok (Done tt, s') ∧ booting s') → booting s →
  ∃ s', each f l s = Ok (Done tt, s') ∧ booting s'.
Proof using.
  revert s. induction l as [|a l IH]; intros s Hf Hs; [by exists s|]. cbn [each].
  destruct (Hf a s ltac:(left) Hs) as (s1 & E1 & H1). rewrite (bind_run _ _ s tt s1) by done.
  apply IH; [|done]. intros a' s' Ha. apply Hf. by right.
Qed.

(** The state when the scopes of the package are there. *)
Record started (g : Scope) (s : S) : Prop := {
  start_pkgpath : pkgpath_stack s = [MAIN_PKG_PATH];
  start_lambda : lambda_stack s = [];
  start_schema : schema_stack s = [];
  start_locals : local_vars s = ∅;
  start_frames : frames s = [MkFrame MAIN_PKG_PATH (Global 0)];
  start_scopes : ∃ b, pkg_scopes s !! MAIN_PKG_PATH = Some [g; b];
  start_lazy : lazy_scopes s !! MAIN_PKG_PATH = Some (MkLazy [] [] (entries body 0) []);
  start_targets : target_vars s = [];
  start_meta : backtrack_meta s = [] }.
Lemma init_run : ∃ s, init_scope fn_ptr_by_name pkgs MAIN_PKG_PATH new_evaluator = Ok (Done tt, s) ∧
  started (new_scope false) s.
Proof using Hpkgs Hbody Hperm Hnodup.
  unfold init_scope. set (s0 := new_evaluator). rewrite (bind_run _ _ s0 false s0) by done. cbv iota.
  set (s1 := set_pkg_scopes <[MAIN_PKG_PATH := [new_scope false]]> s0). rewrite (bind_run _ _ s0 tt s1) by done.
  rewrite (bind_run _ _ s1 [m] s1) by (unfold lift, modules_of; by rewrite Hpkgs).
  assert (booting s1) as H1 by (constructor; try done; by eexists).
  edestruct (boot_each (λ name, if bool_decide (name = "") then mret tt else add_variable name ref_undefined))
    as (s2 & E2 & H2); [|exact H1|].
  { intros x s _ Hs. case_bool_decide; [by exists s|by apply boot_variable]. }
  rewrite (bind_run _ _ s1 tt s2) by exact E2.
  edestruct (boot_each (λ symbol, v ← lift (builtin_value fn_ptr_by_name symbol); add_variable symbol v))
    as (s3 & E3 & H3); [|exact H2|].
  { intros x s Hx Hs. erewrite bind_run by (unfold lift; by rewrite builtin_linked). by apply boot_variable. }
  rewrite (bind_run _ _ s2 tt s3) by exact E3.
  set (s4 := set_frames (λ l, l ++ [MkFrame MAIN_PKG_PATH (Global 0)]) s3).
  assert (∀ s : S, pkgpath_stack s = [MAIN_PKG_PATH] → current_pkgpath s = Ok (Done MAIN_PKG_PATH, s)) as Hp.
  { intros s Hs. unfold current_pkgpath. by rewrite Hs. }
  destruct H3. rewrite (bind_run _ _ s3 (entries body 0) s4).
  2:{ cbn [init_setters]. rewrite (bind_run _ _ s3 0 s4).
      2:{ unfold add_frame. rewrite (bind_run _ _ s3 MAIN_PKG_PATH s3) by by apply Hp.
          rewrite (bind_run _ _ s3 0 s3) by (unfold gets; by rewrite boot_frames0). done. }
      rewrite (bind_run _ _ s4 MAIN_PKG_PATH s4) by by apply Hp.
      rewrite (bind_run _ _ s4 (entries body 0) s4) by (unfold lift; by rewrite emit_module).
      rewrite merge_fresh; [done| |done]. rewrite entries_keys, Hperm. done. }
  set (s5 := set_lazy_scopes (λ m, match m !! MAIN_PKG_PATH with
    Some _ => m | None => <[MAIN_PKG_PATH := MkLazy [] [] (entries body 0) []]> m end) s4).
  rewrite (bind_run _ _ s4 tt s5) by done.
  destruct boot_scopes0 as [b Hb]. unfold enter_scope, enter_schema_scope, with_scopes.
  rewrite (bind_run _ _ s5 MAIN_PKG_PATH s5) by by apply Hp. change (pkg_scopes s5) with (pkg_scopes s3). rewrite Hb.
  eexists. split; [done|]. constructor; try done.
  - unfold set_pkg_scopes, s5, set_lazy_scopes, s4, set_frames. cbn [frames]. by rewrite boot_frames0.
  - exists b. unfold set_pkg_scopes at 1. cbn [pkg_scopes]. apply lookup_insert_eq.
  - unfold set_pkg_scopes, s5, set_lazy_scopes, s4, set_frames. cbn [lazy_scopes]. rewrite boot_lazy0.
    rewrite lookup_empty. apply lookup_insert_eq.
Qed.

Lemma predefine_run g s d : started g s → ∃ s', predefine (def_name d) s = Ok (Done tt, s') ∧
  started (set_variables (map_insert (def_name d) ref_undefined) g) s'.
Proof using.
  intros []. destruct start_scopes0 as [b Hb]. unfold predefine, add_or_update_global_variable.
  assert (current_pkgpath s = Ok (Done MAIN_PKG_PATH, s)) as Hp by (unfold current_pkgpath; by rewrite start_pkgpath0).
  rewrite (bind_run _ _ s MAIN_PKG_PATH s) by done.
  set (s1 := set_pkg_scopes <[MAIN_PKG_PATH := [set_variables (map_insert (def_name d) ref_undefined) g; b]]> s).
  rewrite (bind_run _ _ s (Some (contains_key (def_name d) (variables g))) s1).
  2:{ unfold with_scopes. rewrite (bind_run _ _ s MAIN_PKG_PATH s) by done. by rewrite Hb. }
  exists s1. split; [done|]. constructor; try done. exists b. unfold s1, set_pkg_scopes. cbn [pkg_scopes].
  apply lookup_insert_eq.
Qed.
Lemma predefine_all l : ∀ g s, started g s → ∃ g' s',
  each emit_global_stmt (assignment <$> l) s = Ok (Done tt, s') ∧ started g' s' ∧
  ∀ x, x ∈ def_name <$> l ∨ is_Some (map_get x (variables g)) → is_Some (map_get x (variables g')).
Proof using.
  induction l as [|d l IH]; intros g s Hs.
  { exists g, s. split_and!; [done..|]. intros x [Hx|?]; [by apply elem_of_nil in Hx|done]. }
  destruct (predefine_run g s d Hs) as (s1 & E1 & H1). destruct (IH _ _ H1) as (g' & s2 & E2 & H2 & Hg).
  exists g', s2. rewrite fmap_cons. cbn [each]. rewrite (bind_run _ _ s tt s1).
  - split_and!; [done..|]. intros x Hx. apply Hg. cbn [variables set_variables].
    destruct (decide (x = def_name d)) as [->|Hne]; [right; by rewrite map_get_insert_eq|].
    rewrite map_get_insert_ne by done. destruct Hx as [Hx|?]; [|by right].
    rewrite fmap_cons in Hx. apply elem_of_cons in Hx as [?|?]; [done|by left].
  - cbn [emit_global_stmt assignment each Ast.target_name].
    by rewrite (bind_run _ _ s tt s1).
Qed.
Lemma started_good g s : started g s → (∀ x, x ∈ def_name <$> body → is_Some (map_get x (variables g))) →
  good [] [] [] (λ _, 0) s.
Proof using Hperm Hnodup.
  intros [] Hg. constructor; try done.
  - destruct start_scopes0 as [b Hb]. exists g, b. split; [done|]. intros d Hd.
    destruct (Hg (def_name d)) as [v Hv]; [by apply list_elem_of_fmap_2|]. exists v. split; [done|].
    by intros ?%elem_of_nil.
  - eexists. split; [done|]. split_and!; [done| |done]. intros k d Hk.
    change (map_get (def_name d) (entries body 0) = Some [setter_of (0 + k)]).
    apply entries_get; [by rewrite Hperm|done].
Qed.
Lemma types_run import l s : each (compile_type X import) (assignment <$> l) s = Ok (Done tt, s).
Proof using. induction l as [|d l IH]; [done|]. rewrite fmap_cons. cbn [each compile_type assignment]. by rewrite (bind_run _ _ s tt s). Qed.

Lemma walk_all l : ∀ pre depth D s r,
  pre ++ l = body → length body ≤ depth → good D [] [] (λ _, 0) s → ∃ v s',
  walk_stmts_except_import (stmt_at (walkers depth)) module_id (length pre) (assignment <$> l) (Done r) s =
    Ok (Done v, s') ∧ good ((def_name <$> l) ++ D) [] [] (λ _, 0) s'.
Proof using Hpkgs Hbody Hperm Hnodup Hpure Hρ.
  induction l as [|d l IH]; intros pre depth D s r Hl Hdepth G; [by exists r, s|].
  assert (body !! length pre = Some d) as Hk by by rewrite <- Hl, list_lookup_middle.
  assert (d ∈ sorted) as Hd by (rewrite <- Hperm; by eapply list_elem_of_lookup_2).
  apply list_elem_of_lookup_1 in Hd as [i Hi].
  destruct (run_def i d (length pre) depth D [] [] (λ _, 0) s) as (w & s1 & E1 & G1); try done.
  { apply lookup_lt_Some in Hi. rewrite <- Hperm in Hi. lia. }
  destruct (IH (pre ++ [d]) depth (def_name d :: D) s1 w) as (v & s2 & E2 & G2); [by rewrite <- app_assoc|done..|].
  exists v, s2. split.
  - rewrite fmap_cons. cbn [walk_stmts_except_import]. unfold assignment at 1.
    rewrite (bind_run _ _ s (Done w) s1).
    + rewrite length_app, Nat.add_1_r in E2. exact E2.
    + unfold attempt. by rewrite E1.
  - eapply good_more; [exact G2|]. intros x. rewrite fmap_cons. set_solver.
Qed.

(** The value of a global variable of the main package. *)
Definition global_variable (x : string) (s : S) : option ValueRef :=
  match pkg_scopes s !! MAIN_PKG_PATH with
  | Some (g :: _) => map_get x (variables g)
  | _ => None
  end.

(** C1: a module of assignments without loops, configurations and calls, whose
    definitions can be put in an order in which each uses variables that are defined
    before it, is evaluated without an error, and each of its global variables gets
    the value of its assignment evaluated in that order: the order of the statements
    in the module does not matter. *)
Theorem lazy_order_independent depth : length body ≤ depth → ∃ v s,
  run_as_function powf to_json_string to_yaml_string f64_to_string schemas type_pack_and_check to_lowercase
    fn_ptr_by_name pkgs X depth new_evaluator = Ok (Done v, s) ∧
  ∀ d, d ∈ body → is_Some (ρ !! def_name d) ∧ global_variable (def_name d) s = ρ !! def_name d.
Proof using Hpkgs Hbody Hperm Hnodup Hpure Hρ.
  intros Hdepth. unfold run_as_function. rewrite Hpkgs. cbn [default id].
  destruct init_run as (s0 & E0 & H0). change (default [] (Some [m])) with [m]. cbv iota.
  rewrite (bind_run _ _ _ tt s0) by exact E0.
  destruct (predefine_all body _ _ H0) as (g & s1 & E1 & H1 & Hg).
  assert (good [] [] [] (λ _, 0) s1) as G1 by (eapply started_good; [done|]; auto).
  destruct (walk_all body [] depth [] s1 ref_undefined) as (v & s2 & E2 & G2); [done..|].
  exists v, s2. split.
  - unfold compile_ast_modules. rewrite (bind_run _ _ s0 tt s1).
    2:{ cbn [each]. rewrite (bind_run _ _ s0 tt s1); [done|]. unfold predefine_global_vars, emit_global_vars.
        by rewrite Hbody. }
    rewrite (bind_run _ _ s1 tt s1).
    2:{ cbn [each]. rewrite (bind_run _ _ s1 tt s1); [done|]. unfold compile_module_import_and_types.
        by rewrite Hbody, types_run. }
    rewrite (bind_run _ _ s1 MAIN_PKG_PATH s1) by (unfold current_pkgpath; by rewrite (good_pkgpath _ _ _ _ _ G1)).
    cbn [walk_modules]. rewrite (bind_run _ _ s1 v s2); [done|]. unfold expect. rewrite Hbody.
    cbn [length] in E2. by rewrite E2.
  - intros d Hd. destruct (good_scopes _ _ _ _ _ G2) as (g2 & b & Hs & Hg2).
    destruct (Hg2 d Hd) as (w & Hw & HD). unfold global_variable. rewrite Hs, Hw.
    rewrite HD; [eauto|]. rewrite app_nil_r. by apply list_elem_of_fmap_2.
Qed.
End Order.

(** ** Programs *)

Module Sample.
#[local] Instance config : ContextConfig :=
  {| debug_mode := false; strict_range_check := false; disable_schema_check := false |}.
(** No schemas, rules and functions. *)
Definition unused {A} : Ev (Evaluator unit unit) A := lift (Panic AssertionFailed).
Definition X : Externals unit unit :=
  MkExternals unit unit (λ _ _, unused) (λ _ _ _, false) (λ _ _, unused) (λ _, tt)
    (λ _ _, MkThis tt ref_undefined ref_undefined) (λ _ _ _, unused) (λ _ _ _, unused) (λ _, unused)
    (λ _, unused) (λ _ _, unused) (λ _ _, unused).
Definition id (n : string) : Ast.Expr := Ast.IdentifierExpr [Token.intern n].
Definition num (n : Z) : Ast.Expr := Ast.NumberLit None (Ast.Int n).
Definition set (n : string) (e : Ast.Expr) : Ast.Stmt := Ast.SAssign [Ast.MkTarget (Token.intern n) []] e None.
Definition plus (l r : Ast.Expr) : Ast.Expr := Ast.Binary l Ast.Add r.
Definition pkgs (body : list Ast.Stmt) : gmap string (list Ast.Module_) :=
  {[ MAIN_PKG_PATH := [Ast.MkModule None [] body] ]}.
Definition run (checks : bool) (depth : nat) (body : list Ast.Stmt) :
    Res (Outcome ValueRef * Evaluator unit unit) :=
  let _ : Profile := {| overflow_checks := checks |} in
  run_as_function (λ a _, a) (λ _, EmptyString) (λ _, EmptyString) (λ _, EmptyString) (λ _, None)
    (λ v _ _, Ok v) (λ s, s) (λ _, 0%Z) (pkgs body) X depth new_evaluator.
Definition global_of (r : Res (Outcome ValueRef * Evaluator unit unit)) (x : string) : Res (option ValueRef) :=
  r ← r; Ok (global_variable x r.2).
(** The variable [x] after the run of a module, in a build with overflow checks. *)
Definition global (body : list Ast.Stmt) (x : string) : Res (option ValueRef) :=
  global_of (run true (2 * length body) body) x.
Definition two_defs : list Def :=
  [(Token.intern "a", plus (id "b") (num 1)); (Token.intern "b", num 2)].
End Sample.

Lemma lazy_order_independent_witness :
  let _ : Profile := {| overflow_checks := true |} in ∃ v s,
  Sample.run true 2 (assignment <$> Sample.two_defs) = Ok (Done v, s) ∧
  global_variable "a" s = Some (ref_int 3) ∧ global_variable "b" s = Some (ref_int 2).
Proof.
  intros HP.
  destruct (lazy_order_independent (HP := HP) (HC := Sample.config) (λ a _, a) (λ _, EmptyString) (λ _, EmptyString)
    (λ _, EmptyString) (λ _, None) (λ v _ _, Ok v) (λ s, s) (λ _, 0%Z) Sample.X
    (Sample.pkgs (assignment <$> Sample.two_defs)) (Ast.MkModule None [] (assignment <$> Sample.two_defs))
    Sample.two_defs (rev Sample.two_defs) {[ "a" := ref_int 3; "b" := ref_int 2 ]})
    with (depth := 2) as (v & s & Hrun & Hg).
  - reflexivity.
  - reflexivity.
  - exact (Permutation_rev _).
  - by apply (bool_decide_unpack _).
  - by repeat (intros d [->|Hd]%elem_of_cons; [done|revert d Hd]); intros d ?%elem_of_nil.
  - vm_compute. reflexivity.
  - reflexivity.
  - exists v, s. split; [exact Hrun|]. split.
    + exact (proj2 (Hg _ (list_elem_of_here _ _))).
    + exact (proj2 (Hg _ (list_elem_of_further _ _ _ (list_elem_of_here _ _)))).
Defined.

(** ** Where the order matters *)

Import Sample.

(** The loop variable of a comprehension replaces the value that the cache of the
    module has for the global variable of that name. *)
Example loop_variable_cached :
  global [set "x" (num 10);
          set "a" (Ast.ListComp (id "x") [Ast.MkClause [[Token.intern "x"]] (Ast.ListExpr [num 1; num 2]) []]);
          set "b" (id "x")] "b" = Ok (Some (ref_int 2)).
Proof. vm_compute. reflexivity. Qed.
(** The statement of a global variable runs in the scopes of the expression that
    asks for it: [b] is computed with the attribute [x] of the configuration. *)
Definition reader : list Ast.Stmt :=
  [set "a" (Ast.Config [Ast.MkEntry (Some (id "x")) (num 1) Ast.Union;
                            Ast.MkEntry (Some (id "y")) (id "b") Ast.Union]);
   set "b" (plus (id "x") (num 1)); set "x" (num 10)].

Example reader_scopes :
  global reader "b" = Ok (Some (ref_int 11)) ∧
  (v ← global reader "a"; Ok (v ≫= λ v, get_by_key v "y")) = Ok (Some (ref_int 2)).
Proof. split; vm_compute; reflexivity. Qed.
(** Of the setters of a variable only the last one is run: the else branch, which
    is not the one taken. *)
Example last_branch_only :
  global [set "a" (id "x"); Ast.SIf (Ast.NameConstantLit Ast.NTrue) [set "x" (num 1)] [set "x" (num 2)]] "a" =
    Ok (Some ref_undefined).
Proof. vm_compute. reflexivity. Qed.
Example last_assignment_only :
  global [set "a" (id "x"); set "x" (num 0); Ast.SIf (Ast.NameConstantLit Ast.NFalse) [set "x" (num 1)] []] "a" =
    Ok (Some ref_undefined).
Proof. vm_compute. reflexivity. Qed.
(** A cycle of definitions overflows the index of the setter: it panics with overflow
    checks, and without them the index wraps around and the value is undefined. *)
Example cycle_overflows :
  global [set "a" (id "b"); set "b" (id "a")] "a" = Panic ArithOverflow ∧
  global_of (run false 8 [set "a" (id "b"); set "b" (id "a")]) "a" = Ok (Some ref_undefined).
Proof. split; vm_compute; reflexivity. Qed.
(** The condition of a conditional that is run for one of its setters forces [c],
    after which the whole conditional is run. *)
Example conditional_rerun :
  global [set "a" (id "x"); Ast.SIf (id "c") [set "x" (num 1); set "y" (num 2)] []; set "c" (Ast.NameConstantLit Ast.NTrue)] "a" =
    Ok (Some (ref_int 1)).
Proof. vm_compute. reflexivity. Qed.
(** An error of a statement is dropped when another one comes after it. *)
Example statement_errors_dropped :
  (r ← run true 4 [set "a" Ast.Missing; set "b" (num 1)];
   Ok (r.1, global_variable "a" r.2, global_variable "b" r.2)) =
    Ok (Done (ref_int 1), Some ref_undefined, Some (ref_int 1)) ∧
  run true 4 [set "b" (num 1); set "a" Ast.Missing] = Panic ExpectFailed.
Proof. split; vm_compute; reflexivity. Qed.
