(* ===== verification/Builtins.v ===== *)
(** * The builtin functions that the resolver knows

    [crates/sema/src/builtin]: the types of the builtin functions ([mod.rs]), of the
    members of strings ([string.rs]), of the decorators ([decorator.rs]) and of the
    functions of the system packages ([system_module.rs]); the help of the options
    ([option.rs]).

    A table is a list of names with the computations that make their types; the
    statics of the source are what these computations give. *)

From stdpp Require Import base tactics list strings numbers.
From Stdlib Require Import ZArith Lia Ascii.
From S2P Require Import Prelude IndexMap Str Float64 SemaTypes TyCalc.
Local Set Warnings "-clear-no-such-hyp".

(** ** The types of a signature *)

Section Constructors.
Definition DQUOTE : string := String (Ascii.ascii_of_nat 34) EmptyString.
Definition dummy_range : Range := (dummy_pos, dummy_pos).
Definition cell (f : positive → TypeRef) : TyM TypeRef := a ← alloc; mret (f a).
Definition any_ref : TyM TypeRef := cell SemaTypes.any_ref.
Definition int_ref : TyM TypeRef := cell SemaTypes.int_ref.
Definition float_ref : TyM TypeRef := cell SemaTypes.float_ref.
Definition bool_ref : TyM TypeRef := cell SemaTypes.bool_ref.
Definition str_ref : TyM TypeRef := cell SemaTypes.str_ref.
Definition none_ref : TyM TypeRef := cell SemaTypes.none_ref.
Definition list_ref (item_ty : TyM TypeRef) : TyM TypeRef := t ← item_ty; cell (λ a, list_of a t).
Definition dict_ref (key_ty val_ty : TyM TypeRef) : TyM TypeRef :=
  k ← key_ty; v ← val_ty; cell (λ a, dict a k v).
Definition union_ref (types : list (TyM TypeRef)) : TyM TypeRef :=
  l ← map_ty id types; cell (λ a, union a l).
Definition number : TyM TypeRef := union_ref [int_ref; float_ref].
Definition iterable : TyM TypeRef := union_ref [str_ref; dict_ref any_ref any_ref; list_ref any_ref].
Definition param (name : string) (ty : TyM TypeRef) (has_default : bool) : TyM (Param TypeRef) :=
  t ← ty; mret (MkParam name t has_default None dummy_range).
Definition function (self_ty : option (TyM TypeRef)) (return_ty : TyM TypeRef) (params : list (TyM (Param TypeRef)))
    (doc : string) (is_variadic : bool) (kw_only_index : option nat) : TyM TypeRef :=
  self ← (match self_ty with Some ty => t ← ty; mret (Some t) | None => mret None end);
  ret ← return_ty;
  ps ← map_ty id params;
  cell (λ a, SemaTypes.function a self ret ps doc is_variadic kw_only_index).
End Constructors.

(** The map of a table, an insertion for each row. *)
Fixpoint register (table : list (string * TyM TypeRef)) (builtin_mapping : IndexMap string TypeRef)
    : TyM (IndexMap string TypeRef) :=
  match table with
  | [] => mret builtin_mapping
  | (name, ty) :: table => t ← ty; register table (map_insert name t builtin_mapping)
  end.

(** ** The tables *)


(** *** The builtin functions *)

Definition builtin_option : TyM TypeRef := function None any_ref
    [param "key" str_ref false; param "type" str_ref true; param "required" bool_ref true; param "default" any_ref true; param "help" str_ref true]
    "Return the top level argument by the key" false (Some 1%nat).
Definition builtin_print : TyM TypeRef := function None none_ref
    []
    "Prints the values to a stream, or to the system stdout by default.
Optional keyword arguments:
sep:   string inserted between values, default a space.
end:   string appended after the last value, default a newline." true None.
Definition builtin_multiplyof : TyM TypeRef := function None bool_ref
    [param "a" int_ref false; param "b" int_ref false]
    "Check if the modular result of a and b is 0." false None.
Definition builtin_isunique : TyM TypeRef := function None bool_ref
    [param "inval" (list_ref any_ref) false]
    "Check if a list has duplicated elements" false None.
Definition builtin_isnullish : TyM TypeRef := function None bool_ref
    [param "inval" any_ref false]
    "Return `True` if the input value is `None` or `Undefined`, and `False` otherwise." false None.
Definition builtin_len : TyM TypeRef := function None int_ref
    [param "inval" iterable false]
    "Return the length of a value." false None.
Definition builtin_abs : TyM TypeRef := function None any_ref
    [param "inval" any_ref false]
    "Return the absolute value of the argument." false None.
Definition builtin_all_true : TyM TypeRef := function None bool_ref
    [param "inval" (list_ref any_ref) false]
    "Return True if bool(x) is True for all values x in the iterable.

If the iterable is empty, return True." false None.
Definition builtin_any_true : TyM TypeRef := function None bool_ref
    [param "inval" (list_ref any_ref) false]
    "Return True if bool(x) is True for any x in the iterable.

If the iterable is empty, return False." false None.
Definition builtin_hex : TyM TypeRef := function None str_ref
    [param "number" int_ref false]
    "Return the hexadecimal representation of an integer." false None.
Definition builtin_bin : TyM TypeRef := function None str_ref
    [param "number" int_ref false]
    "Return the binary representation of an integer." false None.
Definition builtin_oct : TyM TypeRef := function None str_ref
    [param "number" int_ref false]
    "Return the octal representation of an integer." false None.
Definition builtin_ord : TyM TypeRef := function None int_ref
    [param "c" str_ref false]
    "Return the Unicode code point for a one-character string." false None.
Definition builtin_sorted : TyM TypeRef := function None (list_ref any_ref)
    [param "inval" iterable false; param "reverse" bool_ref true]
    "Return a new list containing all items from the iterable in ascending order.

A custom key function can be supplied to customize the sort order, and the reverse
flag can be set to request the result in descending order." false (Some 1%nat).
Definition builtin_range : TyM TypeRef := function None (list_ref int_ref)
    [param "start" int_ref true; param "stop" int_ref true; param "step" int_ref true]
    "Return the range of a value." false None.
Definition builtin_max : TyM TypeRef := function None any_ref
    []
    "With a single iterable argument, return its biggest item.
The default keyword-only argument specifies an object to return
if the provided iterable is empty. With two or more arguments,
return the largest argument." true None.
Definition builtin_min : TyM TypeRef := function None any_ref
    []
    "With a single iterable argument, return its smallest item.
The default keyword-only argument specifies an object to return
if the provided iterable is empty. With two or more arguments,
return the smallest argument." true None.
Definition builtin_sum : TyM TypeRef := function None any_ref
    [param "iterable" (list_ref any_ref) false; param "start" any_ref true]
    "When the iterable is empty, return the start value. This function is
intended specifically for use with numeric values and may reject
non-numeric types." false None.
Definition builtin_pow : TyM TypeRef := function None number
    [param "x" number false; param "y" number false; param "z" number true]
    "Equivalent to `x ** y` (with two arguments) or `x ** y % z` (with three arguments)

Some types, such as ints, are able to use a more efficient algorithm when
invoked using the three argument form." false None.
Definition builtin_round : TyM TypeRef := function None number
    [param "number" number false; param "ndigits" int_ref true]
    "Round a number to a given precision in decimal digits.

The return value is an integer if ndigits is omitted or None.
Otherwise the return value has the same type as the number.
ndigits may be negative." false None.
Definition builtin_zip : TyM TypeRef := function None (list_ref any_ref)
    []
    "Return a zip object whose next method returns
a tuple where the i-th element comes from the i-th iterable
argument." true None.
Definition builtin_int : TyM TypeRef := function None int_ref
    [param "number" any_ref false; param "base" int_ref true]
    "Convert a number or string to an integer, or return 0 if no arguments
are given. For floating point numbers, this truncates towards zero." false None.
Definition builtin_float : TyM TypeRef := function None float_ref
    [param "number" any_ref false]
    "Convert a string or number to a floating point number, if possible." false None.
Definition builtin_bool : TyM TypeRef := function None bool_ref
    [param "x" any_ref true]
    "Returns True when the argument x is true, False otherwise.
The builtin `True` and `False` are the only two instances of the class bool.
The class bool is a subclass of the class int, and cannot be subclassed." false None.
Definition builtin_str : TyM TypeRef := function None str_ref
    [param "x" any_ref true]
    "Create a new string object from the given object.
If encoding or errors is specified, then the object must
expose a data buffer that will be decoded using the
given encoding and error handler." false None.
Definition builtin_list : TyM TypeRef := function None (list_ref any_ref)
    [param "x" any_ref true]
    "Built-in list function, which can convert other data types or construct a list.

If no argument is given, the constructor creates a new empty list.
The argument must be an iterable if specified." false None.
Definition builtin_dict : TyM TypeRef := function None (dict_ref any_ref any_ref)
    [param "x" any_ref true]
    "Built-in dict function.

If no argument is given, the constructor creates a new empty dict." true None.
Definition builtin_typeof : TyM TypeRef := function None str_ref
    [param "x" any_ref false; param "full_name" bool_ref true]
    "Return the type of the object" false None.
Definition builtin_reduce : TyM TypeRef := function None any_ref
    [param "reducer" (function None any_ref
    [param "accumulator" any_ref false; param "item" any_ref false]
    "" false None) false; param "list" (list_ref any_ref) false; param "initial" any_ref true]
    "Apply a function of two arguments cumulatively to the items of a list, from left to right, to reduce the list to a single value.

If initial is provided, it is used as the starting accumulator value and applies the reducer to all list elements. An empty list returns initial.
If initial is not provided, uses the first element as the starting accumulator value and applies the reducer to the remaining elements. An empty list with a non-nullable accumulator type raises an error; otherwise returns None." false None.
Definition BUILTIN_FUNCTIONS_table : list (string * TyM TypeRef) :=
  [("option", builtin_option); ("print", builtin_print); ("multiplyof", builtin_multiplyof); ("isunique",
   builtin_isunique); ("isnullish", builtin_isnullish); ("len", builtin_len); ("abs", builtin_abs); ("all_true",
   builtin_all_true); ("any_true", builtin_any_true); ("hex", builtin_hex); ("bin", builtin_bin); ("oct",
   builtin_oct); ("ord", builtin_ord); ("sorted", builtin_sorted); ("range", builtin_range); ("max", builtin_max);
   ("min", builtin_min); ("sum", builtin_sum); ("pow", builtin_pow); ("round", builtin_round); ("zip",
   builtin_zip); ("int", builtin_int); ("float", builtin_float); ("bool", builtin_bool); ("str", builtin_str);
   ("list", builtin_list); ("dict", builtin_dict); ("typeof", builtin_typeof); ("reduce", builtin_reduce)].
(** *** The members of strings *)

Definition member_capitalize : TyM TypeRef := function (Some str_ref) str_ref
    []
    "Return a copy of the string with its first character capitalized and the rest lowercased." false None.
Definition member_chars : TyM TypeRef := function (Some str_ref) (list_ref str_ref)
    []
    "Return a list of the characters in the string." false None.
Definition member_count : TyM TypeRef := function (Some str_ref) int_ref
    [param "sub" str_ref false; param "start" int_ref true; param "end" int_ref true]
    "Return the number of non-overlapping occurrences of substring sub in the range [start, end]. Optional arguments start and end are interpreted as in slice notation." false None.
Definition member_endswith : TyM TypeRef := function (Some str_ref) bool_ref
    [param "val" str_ref false; param "start" int_ref true; param "end" int_ref true]
    "Return True if the string ends with the specified suffix, otherwise return False. suffix can also be a tuple of suffixes to look for. With optional start, test beginning at that position. With optional end, stop comparing at that position." false None.
Definition member_find : TyM TypeRef := function (Some str_ref) int_ref
    [param "sub" str_ref false; param "start" int_ref true; param "end" int_ref true]
    "Return the lowest index in the string where substring sub is found within the slice s[start:end]. Optional arguments start and end are interpreted as in slice notation. Return -1 if sub is not found." false None.
Definition member_format : TyM TypeRef := function (Some str_ref) str_ref
    []
    "Perform a string formatting operation. The string on which this method is called can contain literal text or replacement fields delimited by braces {}. Each replacement field contains either the numeric index of a positional argument, or the name of a keyword argument. Returns a copy of the string where each replacement field is replaced with the string value of the corresponding argument." true None.
Definition member_index : TyM TypeRef := function (Some str_ref) int_ref
    [param "sub" str_ref false; param "start" int_ref true; param "end" int_ref true]
    "Like str.find(), but raise an error when the substring is not found." false None.
Definition member_isalpha : TyM TypeRef := function (Some str_ref) bool_ref
    []
    "Return True if all characters in the string are alphabetic and there is at least one character, False otherwise. Alphabetic characters are those characters defined in the Unicode character database as “Letter”, i.e., those with general category property being one of “Lm”, “Lt”, “Lu”, “Ll”, or “Lo”. Note that this is different from the “Alphabetic” property defined in the Unicode Standard." false None.
Definition member_isalnum : TyM TypeRef := function (Some str_ref) bool_ref
    []
    "Return True if all characters in the string are alphanumeric and there is at least one character, False otherwise. A character c is alphanumeric if one of the following returns True: c.isalpha(), c.isdecimal(), c.isdigit(), or c.isnumeric()." false None.
Definition member_isdigit : TyM TypeRef := function (Some str_ref) bool_ref
    []
    "Return True if all characters in the string are digits and there is at least one character, False otherwise. Digits include decimal characters and digits that need special handling, such as the compatibility superscript digits. This covers digits which cannot be used to form numbers in base 10, like the Kharosthi numbers. Formally, a digit is a character that has the property value Numeric_Type=Digit or Numeric_Type=Decimal." false None.
Definition member_islower : TyM TypeRef := function (Some str_ref) bool_ref
    []
    "Return True if all cased characters in the string are lowercase and there is at least one cased character, False otherwise." false None.
Definition member_isspace : TyM TypeRef := function (Some str_ref) bool_ref
    []
    "Return True if there are only whitespace characters in the string and there is at least one character, False otherwise." false None.
Definition member_istitle : TyM TypeRef := function (Some str_ref) bool_ref
    []
    "Return True if the string is a titlecased string and there is at least one character, for example uppercase characters may only follow uncased characters and lowercase characters only cased ones. Return False otherwise." false None.
Definition member_isupper : TyM TypeRef := function (Some str_ref) bool_ref
    []
    "Return True if all cased characters in the string are uppercase and there is at least one cased character, False otherwise." false None.
Definition member_join : TyM TypeRef := function (Some str_ref) str_ref
    [param "iter" (list_ref any_ref) false]
    "Return a string which is the concatenation of the strings in iterable. An error will be raised if there are any non-string values in iterable. The separator between elements is the string providing this method." false None.
Definition member_lower : TyM TypeRef := function (Some str_ref) str_ref
    []
    "Return a copy of the string with all the cased characters converted to lowercase." false None.
Definition member_upper : TyM TypeRef := function (Some str_ref) str_ref
    []
    "Return a copy of the string with all the cased characters converted to uppercase." false None.
Definition member_lstrip : TyM TypeRef := function (Some str_ref) str_ref
    [param "chars" str_ref true]
    "Return a copy of the string with leading characters removed. The chars argument is a string specifying the set of characters to be removed. If omitted or None, the chars argument defaults to removing whitespace. The chars argument is not a prefix; rather, all combinations of its values are stripped:" false None.
Definition member_rstrip : TyM TypeRef := function (Some str_ref) str_ref
    [param "chars" str_ref true]
    "Return a copy of the string with trailing characters removed. The chars argument is a string specifying the set of characters to be removed. If omitted or None, the chars argument defaults to removing whitespace. The chars argument is not a suffix; rather, all combinations of its values are stripped:" false None.
Definition member_replace : TyM TypeRef := function (Some str_ref) str_ref
    [param "old" str_ref false; param "new" str_ref false; param "count" int_ref true]
    "Return a copy of the string with all occurrences of substring old replaced by new. If the optional argument count is given, only the first count occurrences are replaced.Return a copy of the string with all occurrences of substring old replaced by new. If the optional argument count is given, only the first count occurrences are replaced." false None.
Definition member_removeprefix : TyM TypeRef := function (Some str_ref) str_ref
    [param "prefix" str_ref false]
    "If the string starts with the prefix string, return string[len(prefix):]. Otherwise, return a copy of the original string." false None.
Definition member_removesuffix : TyM TypeRef := function (Some str_ref) str_ref
    [param "suffix" str_ref false]
    "If the string ends with the suffix string and that suffix is not empty, return string[:-len(suffix)]. Otherwise, return a copy of the original string." false None.
Definition member_rfind : TyM TypeRef := function (Some str_ref) int_ref
    [param "sub" str_ref false; param "start" int_ref true; param "end" int_ref true]
    "Return the highest index in the string where substring sub is found, such that sub is contained within s[start:end]. Optional arguments start and end are interpreted as in slice notation. Return -1 on failure." false None.
Definition member_rindex : TyM TypeRef := function (Some str_ref) int_ref
    [param "sub" str_ref false; param "start" int_ref true; param "end" int_ref true]
    "Like rfind() but raises ValueError when the substring sub is not found." false None.
Definition member_rsplit : TyM TypeRef := function (Some str_ref) (list_ref str_ref)
    [param "sep" str_ref true; param "maxsplit" int_ref true]
    "Return a list of the words in the string, using sep as the delimiter string. If maxsplit is given, at most maxsplit splits are done, the rightmost ones. If sep is not specified or None, any whitespace string is a separator. Except for splitting from the right, rsplit() behaves like split() which is described in detail below." false None.
Definition member_split : TyM TypeRef := function (Some str_ref) (list_ref str_ref)
    [param "sep" str_ref true; param "maxsplit" int_ref true]
    "Return a list of the words in the string, using sep as the delimiter string. If maxsplit is given, at most maxsplit splits are done (thus, the list will have at most maxsplit+1 elements). If maxsplit is not specified or -1, then there is no limit on the number of splits (all possible splits are made)." false None.
Definition member_splitlines : TyM TypeRef := function (Some str_ref) (list_ref str_ref)
    [param "keepends" bool_ref true]
    "Return a list of the lines in the string, breaking at line boundaries. Line breaks are not included in the resulting list unless keepends is given and true." false None.
Definition member_startswith : TyM TypeRef := function (Some str_ref) bool_ref
    [param "val" str_ref false; param "start" int_ref true; param "end" int_ref true]
    "Return True if string starts with the prefix, otherwise return False. prefix can also be a tuple of prefixes to look for. With optional start, test string beginning at that position. With optional end, stop comparing string at that position." false None.
Definition member_strip : TyM TypeRef := function (Some str_ref) str_ref
    [param "chars" str_ref true]
    "Return a copy of the string with the leading and trailing characters removed. The chars argument is a string specifying the set of characters to be removed. If omitted or None, the chars argument defaults to removing whitespace. The chars argument is not a prefix or suffix; rather, all combinations of its values are stripped:" false None.
Definition member_title : TyM TypeRef := function (Some str_ref) str_ref
    []
    "Return a titlecased version of the string where words start with an uppercase character and the remaining characters are lowercase." false None.
Definition STRING_MEMBER_FUNCTIONS_table : list (string * TyM TypeRef) :=
  [("capitalize", member_capitalize); ("chars", member_chars); ("count", member_count); ("endswith", member_endswith); ("find",
   member_find); ("format", member_format); ("index", member_index); ("isalpha", member_isalpha); ("isalnum", member_isalnum);
   ("isdigit", member_isdigit); ("islower", member_islower); ("isspace", member_isspace); ("istitle", member_istitle);
   ("isupper", member_isupper); ("join", member_join); ("lower", member_lower); ("upper", member_upper); ("lstrip",
   member_lstrip); ("rstrip", member_rstrip); ("replace", member_replace); ("removeprefix", member_removeprefix);
   ("removesuffix", member_removesuffix); ("rfind", member_rfind); ("rindex", member_rindex); ("rsplit", member_rsplit);
   ("split", member_split); ("splitlines", member_splitlines); ("startswith", member_startswith); ("strip", member_strip);
   ("title", member_title)].
(** *** The decorators *)

Definition decorator_deprecated : TyM TypeRef := function None any_ref
    [param "version" str_ref true; param "reason" str_ref true; param "strict" bool_ref true]
    "This decorator is used to get the deprecation message according to the wrapped key-value pair." false None.
Definition decorator_info : TyM TypeRef := function None any_ref
    []
    "Info decorator is used to mark some compile-time information for external API queries" true (Some 0%nat).
Definition BUILTIN_DECORATORS_table : list (string * TyM TypeRef) :=
  [("deprecated", decorator_deprecated); ("info", decorator_info)].
(** *** The package base64 *)

Definition base64_encode : TyM TypeRef := function None str_ref
    [param "value" str_ref false; param "encoding" str_ref true]
    "Encode the string `value` using the codec registered for encoding." false None.
Definition base64_decode : TyM TypeRef := function None str_ref
    [param "value" str_ref false]
    "Decode the string `value` using the codec registered for encoding." false None.
Definition BASE64_FUNCTION_TYPES_table : list (string * TyM TypeRef) :=
  [("encode", base64_encode); ("decode", base64_decode)].

(** *** The package base32 *)

Definition base32_encode : TyM TypeRef := function None str_ref
    [param "value" str_ref false]
    "Encode the string `value` using the base32 codec." false None.
Definition base32_decode : TyM TypeRef := function None str_ref
    [param "value" str_ref false]
    "Decode the string `value` using the base32 codec." false None.
Definition BASE32_FUNCTION_TYPES_table : list (string * TyM TypeRef) :=
  [("encode", base32_encode); ("decode", base32_decode)].

(** *** The package net *)

Definition net_CIDR_host : TyM TypeRef := function None str_ref
    [param "cidr" str_ref false; param "host_num" int_ref false]
    "Calulate a host IP within an enclosing subnet." false None.
Definition net_CIDR_netmask : TyM TypeRef := function None str_ref
    [param "cidr" str_ref false]
    "Calulate the netmask for a subnet." false None.
Definition net_CIDR_subnet : TyM TypeRef := function None str_ref
    [param "cidr" str_ref false; param "additional_bits" int_ref false; param "net_num" int_ref false]
    "Calulate a subnet within an enclosing subnet." false None.
Definition net_CIDR_subnets : TyM TypeRef := function None (list_ref str_ref)
    [param "cidr" str_ref false; param "additional_bits" (list_ref int_ref) false]
    "Allocate subnets within an enclosing subnet." false None.
Definition net_split_host_port : TyM TypeRef := function None (list_ref str_ref)
    [param "ip_end_point" str_ref false]
    "Split the `host` and `port` from the `ip_end_point`." false None.
Definition net_join_host_port : TyM TypeRef := function None str_ref
    [param "host" str_ref false; param "port" (union_ref [int_ref; str_ref]) false]
    "Merge the `host` and `port`." false None.
Definition net_fqdn : TyM TypeRef := function None str_ref
    [param "name" str_ref true]
    "Return Fully Qualified Domain Name (FQDN)." false None.
Definition net_parse_IP : TyM TypeRef := function None str_ref
    [param "ip" str_ref false]
    "Parse ip to a real IP address." false None.
Definition net_IP_string : TyM TypeRef := function None str_ref
    [param "ip" str_ref false]
    "Get the IP string." false None.
Definition net_to_IP4 : TyM TypeRef := function None str_ref
    [param "ip" str_ref false]
    "Get the IP4 form of ip." false None.
Definition net_to_IP6 : TyM TypeRef := function None str_ref
    [param "ip" str_ref false]
    "Get the IP6 form of ip." false None.
Definition net_is_IPv4 : TyM TypeRef := function None bool_ref
    [param "ip" str_ref false]
    "Whether ip is a IPv4 one." false None.
Definition net_is_IP : TyM TypeRef := function None bool_ref
    [param "ip" str_ref false]
    "Whether ip is a valid ip address." false None.
Definition net_is_loopback_IP : TyM TypeRef := function None bool_ref
    [param "ip" str_ref false]
    "Whether ip is a loopback one." false None.
Definition net_is_multicast_IP : TyM TypeRef := function None bool_ref
    [param "ip" str_ref false]
    "Whether ip is a multicast one." false None.
Definition net_is_interface_local_multicast_IP : TyM TypeRef := function None bool_ref
    [param "ip" str_ref false]
    "Whether ip is a interface, local and multicast one." false None.
Definition net_is_link_local_multicast_IP : TyM TypeRef := function None bool_ref
    [param "ip" str_ref false]
    "Whether ip is a link local and multicast one." false None.
Definition net_is_link_local_unicast_IP : TyM TypeRef := function None bool_ref
    [param "ip" str_ref false]
    "Whether ip is a link local and unicast one." false None.
Definition net_is_global_unicast_IP : TyM TypeRef := function None bool_ref
    [param "ip" str_ref false]
    "Whether ip is a global and unicast one." false None.
Definition net_is_unspecified_IP : TyM TypeRef := function None bool_ref
    [param "ip" str_ref false]
    "Whether ip is a unspecified one." false None.
Definition net_parse_CIDR : TyM TypeRef := function None (dict_ref str_ref any_ref)
    [param "cidr" str_ref false]
    "Parse a CIDR prefix into a dict containing 'ip' (the IP) and 'mask' (the prefix bit length)." false None.
Definition net_is_IP_in_CIDR : TyM TypeRef := function None bool_ref
    [param "ip" str_ref false; param "cidr" str_ref false]
    "Check if an IP address is within a given CIDR block." false None.
Definition NET_FUNCTION_TYPES_table : list (string * TyM TypeRef) :=
  [("CIDR_host", net_CIDR_host); ("CIDR_netmask", net_CIDR_netmask); ("CIDR_subnet", net_CIDR_subnet);
   ("CIDR_subnets", net_CIDR_subnets); ("split_host_port", net_split_host_port); ("join_host_port",
   net_join_host_port); ("fqdn", net_fqdn); ("parse_IP", net_parse_IP); ("IP_string", net_IP_string); ("to_IP4",
   net_to_IP4); ("to_IP6", net_to_IP6); ("is_IPv4", net_is_IPv4); ("is_IP", net_is_IP); ("is_loopback_IP",
   net_is_loopback_IP); ("is_multicast_IP", net_is_multicast_IP); ("is_interface_local_multicast_IP",
   net_is_interface_local_multicast_IP); ("is_link_local_multicast_IP", net_is_link_local_multicast_IP);
   ("is_link_local_unicast_IP", net_is_link_local_unicast_IP); ("is_global_unicast_IP", net_is_global_unicast_IP);
   ("is_unspecified_IP", net_is_unspecified_IP); ("parse_CIDR", net_parse_CIDR); ("is_IP_in_CIDR",
   net_is_IP_in_CIDR)].

(** *** The package manifests *)

Definition manifests_yaml_stream : TyM TypeRef := function None any_ref
    [param "values" any_ref false; param "opts" (dict_ref str_ref any_ref) true]
    ("This function is used to serialize the KCL object list into YAML output with the --- separator. It has two parameters:
values - A list of KCL objects
opts - The YAML serialization options
 + sort_keys: Whether to sort the serialized results in the dictionary order of attribute names (the default is False).
 + ignore_private: Whether to ignore the attribute output whose name starts with the character _ (the default value is True).
 + ignore_none: Whether to ignore the attribute with the value of' None '(the default value is False).
 + sep: Set the separator between multiple YAML documents (the default value is " +:+ DQUOTE +:+ "---" +:+ DQUOTE +:+ ").
") false None.
Definition MANIFESTS_FUNCTION_TYPES_table : list (string * TyM TypeRef) :=
  [("yaml_stream", manifests_yaml_stream)].

(** *** The package math *)

Definition math_ceil : TyM TypeRef := function None int_ref
    [param "x" number false]
    "Return the ceiling of `x` as an Integral. This is the smallest integer >= `x`." false None.
Definition math_factorial : TyM TypeRef := function None int_ref
    [param "x" number false]
    "Return `x`!. Raise a error if `x` is negative or non-integral." false None.
Definition math_floor : TyM TypeRef := function None int_ref
    [param "x" number false]
    "Return the floor of `x` as an Integral. This is the largest integer <= `x`." false None.
Definition math_gcd : TyM TypeRef := function None int_ref
    [param "a" int_ref false; param "b" int_ref false]
    "Return the greatest common divisor of `x` and `y`." false None.
Definition math_isfinite : TyM TypeRef := function None bool_ref
    [param "x" number false]
    "Return `True` if `x` is neither an infinity nor a NaN, and `False` otherwise." false None.
Definition math_isinf : TyM TypeRef := function None bool_ref
    [param "x" number false]
    "Return `True` if `x` is a positive or negative infinity, and `False` otherwise." false None.
Definition math_isnan : TyM TypeRef := function None bool_ref
    [param "x" number false]
    "Return `True` if `x` is a NaN (not a number), and `False` otherwise." false None.
Definition math_modf : TyM TypeRef := function None (list_ref float_ref)
    [param "x" number false]
    "Return the fractional and integer parts of `x`. Both results carry the sign of `x` and are floats." false None.
Definition math_exp : TyM TypeRef := function None float_ref
    [param "x" number false]
    "Return `e` raised to the power of `x`." false None.
Definition math_expm1 : TyM TypeRef := function None float_ref
    [param "x" number false]
    "Return `exp(x) - 1`. This function avoids the loss of precision involved in the direct evaluation of `exp(x) - 1` for small `x`." false None.
Definition math_log : TyM TypeRef := function None float_ref
    [param "x" number false; param "e" float_ref true]
    "Return the logarithm of `x` to the base `e`." false None.
Definition math_log1p : TyM TypeRef := function None float_ref
    [param "x" number false]
    "Return the natural logarithm of `1+x` (base `e`). The result is computed in a way which is accurate for `x` near zero." false None.
Definition math_log2 : TyM TypeRef := function None float_ref
    [param "x" number false]
    "Return the base 2 logarithm of x." false None.
Definition math_log10 : TyM TypeRef := function None float_ref
    [param "x" number false]
    "Return the base 10 logarithm of `x`." false None.
Definition math_pow : TyM TypeRef := function None float_ref
    [param "x" number false; param "y" number false]
    "Return `x**y` (`x` to the power of `y`)." false None.
Definition math_sqrt : TyM TypeRef := function None float_ref
    [param "x" number false]
    "Return the square root of `x`." false None.
Definition MATH_FUNCTION_TYPES_table : list (string * TyM TypeRef) :=
  [("ceil", math_ceil); ("factorial", math_factorial); ("floor", math_floor); ("gcd", math_gcd); ("isfinite",
   math_isfinite); ("isinf", math_isinf); ("isnan", math_isnan); ("modf", math_modf); ("exp", math_exp); ("expm1",
   math_expm1); ("log", math_log); ("log1p", math_log1p); ("log2", math_log2); ("log10", math_log10); ("pow",
   math_pow); ("sqrt", math_sqrt)].

(** *** The package datetime *)

Definition datetime_ticks : TyM TypeRef := function None float_ref
    []
    "Return the current time in seconds since the Epoch. Fractions of a second may be present if the system clock provides them." false None.
Definition datetime_date : TyM TypeRef := function None str_ref
    []
    "Return the `%Y-%m-%d %H:%M:%S` format date." false None.
Definition datetime_now : TyM TypeRef := function None str_ref
    [param "format" str_ref true]
    ("Return the local time format. e.g. 'Sat Jun 06 16:26:11 1998' or format the combined date and time per the specified format string, and the default date format is " +:+ DQUOTE +:+ "%a %b %d %H:%M:%S %Y" +:+ DQUOTE +:+ ".") false None.
Definition datetime_today : TyM TypeRef := function None str_ref
    []
    "Return the `%Y-%m-%d %H:%M:%S.%{ticks}` format date." false None.
Definition datetime_validate : TyM TypeRef := function None bool_ref
    [param "date" str_ref false; param "format" str_ref false]
    "Validate whether the provided date string matches the specified format." false None.
Definition DATETIME_FUNCTION_TYPES_table : list (string * TyM TypeRef) :=
  [("ticks", datetime_ticks); ("date", datetime_date); ("now", datetime_now); ("today", datetime_today);
   ("validate", datetime_validate)].

(** *** The package regex *)

Definition regex_replace : TyM TypeRef := function None str_ref
    [param "string" str_ref false; param "pattern" str_ref false; param "replace" str_ref false; param "count" int_ref true]
    "Return the string obtained by replacing the leftmost non-overlapping occurrences of the pattern in string by the replacement." false None.
Definition regex_match : TyM TypeRef := function None bool_ref
    [param "string" str_ref false; param "pattern" str_ref false]
    "Try to apply the pattern at the start of the string, returning a bool value `True` if any match was found, or `False` if no match was found." false None.
Definition regex_compile : TyM TypeRef := function None bool_ref
    [param "pattern" str_ref false]
    "Compile a regular expression pattern, returning a bool value denoting whether the pattern is valid." false None.
Definition regex_findall : TyM TypeRef := function None (list_ref str_ref)
    [param "string" str_ref false; param "pattern" str_ref false]
    "Return a list of all non-overlapping matches in the string." false None.
Definition regex_search : TyM TypeRef := function None bool_ref
    [param "string" str_ref false; param "pattern" str_ref false]
    "Scan through string looking for a match to the pattern, returning a bool value `True` if any match was found, or `False` if no match was found." false None.
Definition regex_split : TyM TypeRef := function None (list_ref str_ref)
    [param "string" str_ref false; param "pattern" str_ref false; param "maxsplit" int_ref true]
    "Return a list composed of words from the string, splitting up to a maximum of `maxsplit` times using `pattern` as the separator." false None.
Definition REGEX_FUNCTION_TYPES_table : list (string * TyM TypeRef) :=
  [("replace", regex_replace); ("match", regex_match); ("compile", regex_compile); ("findall", regex_findall);
   ("search", regex_search); ("split", regex_split)].

(** *** The package yaml *)

Definition yaml_encode : TyM TypeRef := function None str_ref
    [param "data" any_ref false; param "sort_keys" bool_ref true; param "ignore_private" bool_ref true; param "ignore_none" bool_ref true]
    "Serialize a KCL object `data` to a YAML formatted str." false (Some 1%nat).
Definition yaml_encode_all : TyM TypeRef := function None str_ref
    [param "data" (list_ref any_ref) false; param "sort_keys" bool_ref true; param "ignore_private" bool_ref true; param "ignore_none" bool_ref true]
    "Serialize a sequence of KCL objects into a YAML stream str." false (Some 1%nat).
Definition yaml_decode : TyM TypeRef := function None any_ref
    [param "value" str_ref false]
    "Deserialize `value` (a string instance containing a YAML document) to a KCL object." false None.
Definition yaml_decode_all : TyM TypeRef := function None (list_ref any_ref)
    [param "value" str_ref false]
    "Parse all YAML documents in a stream and produce corresponding KCL objects." false None.
Definition yaml_dump_to_file : TyM TypeRef := function None str_ref
    [param "data" any_ref false; param "filename" str_ref false; param "sort_keys" bool_ref true; param "ignore_private" bool_ref true; param "ignore_none" bool_ref true]
    "Serialize a KCL object `data` to a YAML formatted str and write it into the file `filename`." false (Some 2%nat).
Definition yaml_dump_all_to_file : TyM TypeRef := function None str_ref
    [param "data" (list_ref any_ref) false; param "filename" str_ref false; param "sort_keys" bool_ref true; param "ignore_private" bool_ref true; param "ignore_none" bool_ref true]
    "Serialize a sequence of KCL objects into a YAML stream str and write it into the file `filename`." false (Some 2%nat).
Definition yaml_validate : TyM TypeRef := function None bool_ref
    [param "value" str_ref false]
    "Validate whether the given string is a valid YAML or YAML stream document." false None.
Definition YAML_FUNCTION_TYPES_table : list (string * TyM TypeRef) :=
  [("encode", yaml_encode); ("encode_all", yaml_encode_all); ("decode", yaml_decode); ("decode_all",
   yaml_decode_all); ("dump_to_file", yaml_dump_to_file); ("dump_all_to_file", yaml_dump_all_to_file); ("validate",
   yaml_validate)].

(** *** The package json *)

Definition json_encode : TyM TypeRef := function None str_ref
    [param "data" any_ref false; param "sort_keys" bool_ref true; param "indent" int_ref true; param "ignore_private" bool_ref true; param "ignore_none" bool_ref true]
    "Serialize a KCL object `data` to a JSON formatted str." false (Some 1%nat).
Definition json_decode : TyM TypeRef := function None any_ref
    [param "value" str_ref false]
    "Deserialize `value` (a string instance containing a JSON document) to a KCL object." false None.
Definition json_dump_to_file : TyM TypeRef := function None str_ref
    [param "data" any_ref false; param "filename" str_ref false; param "sort_keys" bool_ref true; param "indent" int_ref true; param "ignore_private" bool_ref true; param "ignore_none" bool_ref true]
    "Serialize a KCL object `data` to a YAML formatted str and write it into the file `filename`." false (Some 2%nat).
Definition json_validate : TyM TypeRef := function None bool_ref
    [param "value" str_ref false]
    "Validate whether the given string is a valid JSON" false None.
Definition json_merge : TyM TypeRef := function None any_ref
    [param "src" any_ref false; param "patch" any_ref false]
    "Merge patch into src following RFC 7396 JSON Merge Patch semantics.
When patch is a dict/schema, recursively merge matching keys.
When patch value is None/Undefined, remove the key from result.
Otherwise, replace the value." false None.
Definition JSON_FUNCTION_TYPES_table : list (string * TyM TypeRef) :=
  [("encode", json_encode); ("decode", json_decode); ("dump_to_file", json_dump_to_file); ("validate",
   json_validate); ("merge", json_merge)].

(** *** The package crypto *)

Definition crypto_md5 : TyM TypeRef := function None str_ref
    [param "value" str_ref false; param "encoding" str_ref true]
    "Encrypt the string `value` using `MD5` and the codec registered for encoding." false None.
Definition crypto_sha1 : TyM TypeRef := function None str_ref
    [param "value" str_ref false; param "encoding" str_ref true]
    "Encrypt the string `value` using `SHA1` and the codec registered for encoding." false None.
Definition crypto_sha224 : TyM TypeRef := function None str_ref
    [param "value" str_ref false; param "encoding" str_ref true]
    "Encrypt the string `value` using `SHA224` and the codec registered for encoding." false None.
Definition crypto_sha256 : TyM TypeRef := function None str_ref
    [param "value" str_ref false; param "encoding" str_ref true]
    "Encrypt the string `value` using `SHA256` and the codec registered for encoding." false None.
Definition crypto_sha384 : TyM TypeRef := function None str_ref
    [param "value" str_ref false; param "encoding" str_ref true]
    "Encrypt the string `value` using `SHA384` and the codec registered for encoding." false None.
Definition crypto_sha512 : TyM TypeRef := function None str_ref
    [param "value" str_ref false; param "encoding" str_ref true]
    "Encrypt the string `value` using `SHA512` and the codec registered for encoding." false None.
Definition crypto_blake3 : TyM TypeRef := function None str_ref
    [param "value" str_ref false; param "encoding" str_ref true]
    "Encrypt the string `value` using `BLAKE3` and the codec registered for encoding." false None.
Definition crypto_uuid : TyM TypeRef := function None str_ref
    []
    "Generate a random UUIDv4." false None.
Definition crypto_filesha256 : TyM TypeRef := function None str_ref
    [param "filepath" str_ref false]
    "Calculate the SHA256 hash of the file `filepath`." false None.
Definition CRYPTO_FUNCTION_TYPES_table : list (string * TyM TypeRef) :=
  [("md5", crypto_md5); ("sha1", crypto_sha1); ("sha224", crypto_sha224); ("sha256", crypto_sha256); ("sha384",
   crypto_sha384); ("sha512", crypto_sha512); ("blake3", crypto_blake3); ("uuid", crypto_uuid); ("filesha256",
   crypto_filesha256)].

(** *** The package units *)

Definition units_to_n : TyM TypeRef := function None str_ref
    [param "num" number false]
    "Int literal to string with `n` suffix." false None.
Definition units_to_u : TyM TypeRef := function None str_ref
    [param "num" number false]
    "Int literal to string with `u` suffix." false None.
Definition units_to_m : TyM TypeRef := function None str_ref
    [param "num" number false]
    "Int literal to string with `m` suffix." false None.
Definition units_to_K : TyM TypeRef := function None str_ref
    [param "num" number false]
    "Int literal to string with `K` suffix." false None.
Definition units_to_M : TyM TypeRef := function None str_ref
    [param "num" number false]
    "Int literal to string with `M` suffix." false None.
Definition units_to_G : TyM TypeRef := function None str_ref
    [param "num" number false]
    "Int literal to string with `G` suffix." false None.
Definition units_to_T : TyM TypeRef := function None str_ref
    [param "num" number false]
    "Int literal to string with `T` suffix." false None.
Definition units_to_P : TyM TypeRef := function None str_ref
    [param "num" number false]
    "Int literal to string with `P` suffix." false None.
Definition units_to_Ki : TyM TypeRef := function None str_ref
    [param "num" number false]
    "Int literal to string with `Ki` suffix." false None.
Definition units_to_Mi : TyM TypeRef := function None str_ref
    [param "num" number false]
    "Int literal to string with `Mi` suffix." false None.
Definition units_to_Gi : TyM TypeRef := function None str_ref
    [param "num" number false]
    "Int literal to string with `Gi` suffix." false None.
Definition units_to_Ti : TyM TypeRef := function None str_ref
    [param "num" number false]
    "Int literal to string with `Ti` suffix." false None.
Definition units_to_Pi : TyM TypeRef := function None str_ref
    [param "num" number false]
    "Int literal to string with `Pi` suffix." false None.
Definition UNITS_FUNCTION_TYPES_table : list (string * TyM TypeRef) :=
  [("n", int_ref); ("u", int_ref); ("m", int_ref); ("k", int_ref); ("K", int_ref); ("M", int_ref); ("G", int_ref);
   ("T", int_ref); ("P", int_ref); ("Ki", int_ref); ("Mi", int_ref); ("Gi", int_ref); ("Ti", int_ref); ("Pi",
   int_ref); ("to_n", units_to_n); ("to_u", units_to_u); ("to_m", units_to_m); ("to_K", units_to_K); ("to_M",
   units_to_M); ("to_G", units_to_G); ("to_T", units_to_T); ("to_P", units_to_P); ("to_Ki", units_to_Ki); ("to_Mi",
   units_to_Mi); ("to_Gi", units_to_Gi); ("to_Ti", units_to_Ti); ("to_Pi", units_to_Pi)].

(** *** The package collection *)

Definition collection_union_all : TyM TypeRef := function None any_ref
    [param "num" (list_ref any_ref) false]
    "Union all object to one object." false None.
Definition COLLECTION_FUNCTION_TYPES_table : list (string * TyM TypeRef) :=
  [("union_all", collection_union_all)].

(** *** The package file *)

Definition file_read : TyM TypeRef := function None str_ref
    [param "filepath" str_ref false]
    "Read the file content from path" false None.
Definition file_glob : TyM TypeRef := function None (list_ref str_ref)
    [param "pattern" str_ref false]
    "Find all paths that match a pattern" false None.
Definition file_modpath : TyM TypeRef := function None str_ref
    []
    "Read the module root path (kcl.mod file path or a single *.k file path)" false None.
Definition file_workdir : TyM TypeRef := function None str_ref
    []
    "Read the workdir" false None.
Definition file_current : TyM TypeRef := function None str_ref
    []
    "Read the path of the current script or module that is being executed" false None.
Definition file_exists : TyM TypeRef := function None bool_ref
    [param "filepath" str_ref false]
    "Whether this file path exists. Returns true if the path points at an existing entity. This function will traverse symbolic links to query information about the destination file." false None.
Definition file_abs : TyM TypeRef := function None str_ref
    [param "filepath" str_ref false]
    "Returns the canonical, absolute form of the path with all intermediate components normalized and symbolic links resolved." false None.
Definition file_append : TyM TypeRef := function None any_ref
    [param "filepath" str_ref false; param "content" str_ref false]
    "Append content to a file at the specified path. If the file doesn't exist, it will be created." false None.
Definition file_mkdir : TyM TypeRef := function None any_ref
    [param "directory" str_ref false; param "exists" bool_ref true]
    "Create a new directory at the specified path if it doesn't already exist." false None.
Definition file_delete : TyM TypeRef := function None any_ref
    [param "filepath" str_ref false]
    "Delete a file or an empty directory at the specified path." false None.
Definition file_cp : TyM TypeRef := function None any_ref
    [param "src" str_ref false; param "dest" str_ref false]
    "Copy a file or directory from the source path to the destination path." false None.
Definition file_mv : TyM TypeRef := function None any_ref
    [param "src" str_ref false; param "dest" str_ref false]
    "Move a file or directory from the source path to the destination path." false None.
Definition file_size : TyM TypeRef := function None int_ref
    [param "filepath" str_ref false]
    "Get the size of a file at the specified path." false None.
Definition file_write : TyM TypeRef := function None any_ref
    [param "filepath" str_ref false; param "content" str_ref false]
    "Write content to a file at the specified path. If the file doesn't exist, it will be created. If it does exist, its content will be replaced." false None.
Definition file_read_env : TyM TypeRef := function None str_ref
    [param "key" str_ref false]
    "Read the environment variable key from the current process." false None.
Definition FILE_FUNCTION_TYPES_table : list (string * TyM TypeRef) :=
  [("read", file_read); ("glob", file_glob); ("modpath", file_modpath); ("workdir", file_workdir); ("current",
   file_current); ("exists", file_exists); ("abs", file_abs); ("append", file_append); ("mkdir", file_mkdir);
   ("delete", file_delete); ("cp", file_cp); ("mv", file_mv); ("size", file_size); ("write", file_write);
   ("read_env", file_read_env)].

(** *** The package template *)

Definition template_execute : TyM TypeRef := function None str_ref
    [param "template" str_ref false; param "data" (dict_ref str_ref any_ref) true]
    "Applies a parsed template to the specified data object and returns the string output. See https://handlebarsjs.com/ for more documents and examples." false None.
Definition template_html_escape : TyM TypeRef := function None str_ref
    [param "data" str_ref false]
    ("Replaces the characters `&" +:+ DQUOTE +:+ "<>` with the equivalent html / xml entities.") false None.
Definition TEMPLATE_FUNCTION_TYPES_table : list (string * TyM TypeRef) :=
  [("execute", template_execute); ("html_escape", template_html_escape)].

(** *** The package runtime *)

Definition runtime_catch : TyM TypeRef := function None str_ref
    [param "func" (function None any_ref
    []
    "" false None) false]
    "Executes the provided function and catches any potential runtime errors. Returns undefined if execution is successful, otherwise returns an error message in case of a runtime panic." false None.
Definition RUNTIME_FUNCTION_TYPES_table : list (string * TyM TypeRef) :=
  [("catch", runtime_catch)].
(** ** Lookup *)

Definition UNITS_NUMBER_MULTIPLIER : string := "NumberMultiplier".
Definition UNITS_FUNCTION_NAMES : list string :=
  ["to_n"; "to_u"; "to_m"; "to_K"; "to_M"; "to_G"; "to_T"; "to_P"; "to_Ki"; "to_Mi"; "to_Gi"; "to_Ti"; "to_Pi"].
Definition UNITS_FIELD_NAMES : list string :=
  ["n"; "u"; "m"; "k"; "K"; "M"; "G"; "T"; "P"; "Ki"; "Mi"; "Gi"; "Ti"; "Pi"; UNITS_NUMBER_MULTIPLIER].
Definition STANDARD_SYSTEM_MODULES : list string :=
  ["collection"; "net"; "manifests"; "math"; "datetime"; "regex"; "yaml"; "json"; "crypto"; "base64"; "units";
   "file"; "template"; "runtime"; "base32"].
(** The table of a system package. *)
Definition module_table (name : string) : option (list (string * TyM TypeRef)) :=
  match name with
  | "base64" => Some BASE64_FUNCTION_TYPES_table
  | "base32" => Some BASE32_FUNCTION_TYPES_table
  | "net" => Some NET_FUNCTION_TYPES_table
  | "manifests" => Some MANIFESTS_FUNCTION_TYPES_table
  | "math" => Some MATH_FUNCTION_TYPES_table
  | "datetime" => Some DATETIME_FUNCTION_TYPES_table
  | "regex" => Some REGEX_FUNCTION_TYPES_table
  | "yaml" => Some YAML_FUNCTION_TYPES_table
  | "json" => Some JSON_FUNCTION_TYPES_table
  | "crypto" => Some CRYPTO_FUNCTION_TYPES_table
  | "units" => Some UNITS_FUNCTION_TYPES_table
  | "collection" => Some COLLECTION_FUNCTION_TYPES_table
  | "file" => Some FILE_FUNCTION_TYPES_table
  | "template" => Some TEMPLATE_FUNCTION_TYPES_table
  | "runtime" => Some RUNTIME_FUNCTION_TYPES_table
  | _ => None
  end.
(** The names of the members; those of [units] are listed apart from the table. *)
Definition get_system_module_members (name : string) : Res (list string) :=
  if bool_decide (name = "units") then Ok (UNITS_FUNCTION_NAMES ++ UNITS_FIELD_NAMES)
  else match module_table name with
       | Some table => Ok table.*1
       | None => Panic (PanicMsg ("invalid system module name '" +:+ name +:+ "'"))
       end.
(** [types.get(func).cloned().map(Arc::new)]: the type of the table in a cell of its own. *)
Definition realloc (t : TypeRef) : TyM TypeRef :=
  cell (λ a, match t with Arc _ k alias f => Arc a k alias f end).
(** A static is made on its first use: [start] tells the first free cell at that time. *)
Definition static_types (start : string → positive) (name : string) : option (IndexMap string TypeRef) :=
  table ← module_table name;
  match register table [] (MkTyState (start name) []) with
  | Ok (types, _) => Some types
  | Panic _ => None
  end.
Definition get_system_member_function_ty (start : string → positive) (name func : string) : TyM TypeRef :=
  match types ← static_types start name; map_get func types with
  | Some t => realloc t
  | None => any_ref
  end.

(** ** Help for the options of a program *)

Record OptionHelp := MkOptionHelp {
  help_name : string; help_ty : string; help_required : bool; help_default_value : string; help_help : string }.
Definition NEWLINE : string := String (Ascii.ascii_of_nat 10) EmptyString.
Definition print_option (opt : OptionHelp) : string :=
  "  -D " +:+ help_name opt +:+ "=" +:+
  (if bool_decide (help_default_value opt = "") then "?" else help_default_value opt) +:+
  (if help_required opt && negb (bool_decide (help_ty opt = "")) then " (" +:+ help_ty opt +:+ ",required)"
   else if negb (bool_decide (help_ty opt = "")) then " (" +:+ help_ty opt +:+ ")"
   else if help_required opt then " (required)" else "") +:+
  (if bool_decide (help_help opt = "") then "" else " " +:+ help_help opt) +:+ NEWLINE.
(** Without the line ends at the end. *)
Fixpoint trim_newlines (s : string) : string :=
  match s with
  | EmptyString => EmptyString
  | String a r =>
      match trim_newlines r with
      | EmptyString => if Ascii.eqb a (Ascii.ascii_of_nat 10) then EmptyString else String a EmptyString
      | r => String a r
      end
  end.
Definition print_option_help (option_helps : list OptionHelp) : string :=
  trim_newlines ("option list:" +:+ NEWLINE +:+ foldr (λ o s, print_option o +:+ s) "" option_helps).
