(* ===== verification/Args.v ===== *)
(** * Arguments of calls

    [value/val_args.rs]: the positional arguments of a call are a list and its
    keyword arguments a dictionary; the accessors that the built-in functions use
    on them. *)

From stdpp Require Import base tactics list strings numbers.
From Stdlib Require Import ZArith Lia.
From S2P Require Import Prelude MachineInt IndexMap Str Float64 Value ListOps DictOps.
Local Open Scope Z_scope.

(** A parameter that is [None] or [Undefined] counts as absent. *)
Definition adjust_parameter (value : option ValueRef) : option ValueRef :=
  match value with
  | Some v => if is_none_or_undefined v then None else Some v
  | None => None
  end.

Definition args_of (self : ValueRef) : option (list ValueRef) :=
  match rc self with list_value l => Some (list_values l) | _ => None end.
(** The list with other elements. *)
Definition with_args (self : ValueRef) (l : list ValueRef) : ValueRef :=
  match rc self with list_value _ => ref_list l | _ => self end.

Definition arg_i (self : ValueRef) (i : nat) : option ValueRef :=
  match rc self with list_value l => list_values l !! i | _ => None end.
Definition arg_0 (self : ValueRef) : option ValueRef := arg_i self 0.
Definition arg_last `{Profile} (self : ValueRef) : Res (option ValueRef) :=
  match rc self with
  | list_value l =>
      match list_values l with
      | [] => if overflow_checks then Panic ArithOverflow else Panic IndexOutOfBounds
      | l => Ok (list.last l)
      end
  | _ => Ok None
  end.
(** The argument that is taken out, and the list without it. *)
Definition pop_arg_last (self : ValueRef) : option ValueRef * ValueRef :=
  match rc self with
  | list_value l => (list.last (list_values l), ref_list (removelast (list_values l)))
  | _ => (None, self)
  end.
Definition pop_arg_first (self : ValueRef) : option ValueRef * ValueRef :=
  match rc self with
  | list_value l =>
      match list_values l with
      | v :: l => (Some v, ref_list l)
      | [] => (None, self)
      end
  | _ => (None, self)
  end.
Definition args_len (self : ValueRef) : nat :=
  match rc self with list_value l => length (list_values l) | _ => 1 end.

(** An argument as a value of a Rust type: the default when it is absent, [None] or
    [Undefined], and nothing when it has another kind. *)
Definition argument_as {A} (x : option ValueRef) (f : Value ValueRef → option A) (default : option A) : option A :=
  match x with
  | Some x =>
      match f (rc x) with
      | Some v => Some v
      | None => match rc x with none | undefined => default | _ => None end
      end
  | None => default
  end.
Definition as_bool_value (v : Value ValueRef) : option bool := match v with bool_value v => Some v | _ => None end.
Definition as_int_value (v : Value ValueRef) : option Z := match v with int_value v => Some v | _ => None end.
Definition as_int_or_bool (v : Value ValueRef) : option Z :=
  match v with bool_value v => Some (Z.b2z v) | int_value v => Some v | _ => None end.
Definition as_float_value (v : Value ValueRef) : option f64 := match v with float_value v => Some v | _ => None end.
Definition as_num_value (v : Value ValueRef) : option f64 :=
  match v with float_value v => Some v | int_value v => Some (f_of_int v) | _ => None end.
Definition as_str_value (v : Value ValueRef) : option string := match v with str_value v => Some v | _ => None end.
Definition of_kind (p : ValueRef → bool) (x : option ValueRef) : option ValueRef :=
  match x with Some x => if p x then Some x else None | None => None end.

Definition arg_i_bool (self : ValueRef) (i : nat) := argument_as (arg_i self i) as_bool_value.
Definition arg_i_int (self : ValueRef) (i : nat) := argument_as (arg_i self i) as_int_value.
Definition arg_i_int_or_bool (self : ValueRef) (i : nat) := argument_as (arg_i self i) as_int_or_bool.
Definition arg_i_float (self : ValueRef) (i : nat) := argument_as (arg_i self i) as_float_value.
Definition arg_i_num (self : ValueRef) (i : nat) := argument_as (arg_i self i) as_num_value.
Definition arg_i_str (self : ValueRef) (i : nat) := argument_as (arg_i self i) as_str_value.
Definition arg_i_list (self : ValueRef) (i : nat) : option ValueRef := of_kind is_list (arg_i self i).
Definition arg_i_dict (self : ValueRef) (i : nat) : option ValueRef := of_kind is_dict (arg_i self i).

Definition kwarg (self : ValueRef) (name : string) : option ValueRef :=
  match rc self with dict_value d => map_get name (values d) | _ => None end.
Definition kwarg_bool (self : ValueRef) (name : string) := argument_as (kwarg self name) as_bool_value.
Definition kwarg_int (self : ValueRef) (name : string) := argument_as (kwarg self name) as_int_value.
Definition kwarg_float (self : ValueRef) (name : string) := argument_as (kwarg self name) as_float_value.
Definition kwarg_str (self : ValueRef) (name : string) := argument_as (kwarg self name) as_str_value.
Definition kwarg_list (self : ValueRef) (name : string) : option ValueRef := of_kind is_list (kwarg self name).
Definition kwarg_dict (self : ValueRef) (name : string) : option ValueRef := of_kind is_dict (kwarg self name).

Section Calls.
Context {HP : Profile}.
(** A keyword argument goes before the positional one. *)
Definition get_call_arg (args kwargs : ValueRef) (index : nat) (key : option string) : Res (option ValueRef) :=
  match key ≫= get_by_key kwargs with
  | Some val => Ok (Some val)
  | None =>
      n ← len args;
      if Z.of_nat index <? n then v ← list_get args (Z.of_nat index); v ← unwrap v; Ok (Some v) else Ok None
  end.
(** [.map(f)] of an argument *)
Definition map_arg {A} (f : ValueRef → A) (arg : Res (option ValueRef)) : Res (option A) :=
  v ← arg; Ok (match v with Some v => Some (f v) | None => None end).
Definition get_call_arg_str (args kwargs : ValueRef) (index : nat) (key : option string) : Res (option string) :=
  map_arg as_str (get_call_arg args kwargs index key).
Definition get_call_arg_bool (args kwargs : ValueRef) (index : nat) (key : option string) : Res (option bool) :=
  map_arg as_bool (get_call_arg args kwargs index key).
Definition get_call_arg_int (args kwargs : ValueRef) (index : nat) (key : option string) : Res (option Z) :=
  v ← get_call_arg args kwargs index key;
  match v with Some v => i ← must_as_strict_int v; Ok (Some i) | None => Ok None end.
Definition get_call_arg_num (args kwargs : ValueRef) (index : nat) (key : option string) : Res (option f64) :=
  map_arg as_num (get_call_arg args kwargs index key).
End Calls.
