(* ===== verification/StrMethods.v ===== *)
(** * String methods

    [value/val_str.rs] and the member functions of strings in [value/api.rs].  A
    character is the string of its bytes ([Str.chars]); what the Standard Library
    and the unic crates know of characters is in [CharTables].  [format], which
    has its own parser of format strings, is left out. *)

From stdpp Require Import base tactics list strings numbers.
From Stdlib Require Import ZArith Lia Ascii.
From S2P Require Import Prelude MachineInt IndexMap Str Float64 Value ListOps DictOps TypeStr Iter Display Args.
Local Open Scope nat_scope.
Local Set Warnings "-clear-no-such-hyp".

(** The tables of characters, and the case mappings of strings. *)
Class CharTables := {
  is_lowercase : string → bool;
  is_uppercase : string → bool;
  is_titlecase : string → bool;
  is_alphanumeric : string → bool;
  is_alphabetic : string → bool;
  is_numeric : string → bool;
  is_whitespace : string → bool;
  (** a space separator, or of the bidirectional classes WS, B and S *)
  is_space : string → bool;
  to_lowercase : string → string;
  to_uppercase : string → string;
  to_titlecase : string → string }.

(** ** Occurrences of a pattern *)

(** The offsets of the characters of [s], and its end. *)
Definition is_char_boundary (s : string) (i : nat) : bool :=
  Nat.eqb i 0 || Nat.eqb i (slen s) ||
  match str_drop i s with String a _ => negb (is_cont a) | EmptyString => false end.
Definition boundaries (s : string) : list nat := filter (λ i, is_char_boundary s i = true) (List.seq 0 (slen s + 1)).

(** The occurrences that do not overlap, from the left: [skip] bytes belong to the
    last one. *)
Fixpoint left_matches (skip i : nat) (p s : string) : list nat :=
  match s with
  | EmptyString => []
  | String _ s' =>
      match skip with
      | S skip => left_matches skip (S i) p s'
      | O => if starts_with p s then i :: left_matches (slen p - 1) (S i) p s' else left_matches 0 (S i) p s'
      end
  end.
(** From the right: an occurrence must end before the next one. *)
Fixpoint right_matches (i : nat) (p s : string) : list nat :=
  match s with
  | EmptyString => []
  | String _ s' =>
      let l := right_matches (S i) p s' in
      if starts_with p s && match l with j :: _ => Nat.leb (i + slen p) j | [] => true end then i :: l else l
  end.
(** [s.match_indices(p)] and the reverse of [s.rmatch_indices(p)]. *)
Definition match_indices (p s : string) : list nat :=
  if str_is_empty p then boundaries s else left_matches 0 0 p s.
Definition rmatch_indices (p s : string) : list nat :=
  if str_is_empty p then boundaries s else right_matches 0 p s.

(** The pieces of [s], which is at offset [off], between occurrences of [n] bytes. *)
Fixpoint pieces (off n : nat) (at_ : list nat) (s : string) : list string :=
  match at_ with
  | [] => [s]
  | m :: at_ => str_take (m - off) s :: pieces (m + n) n at_ (str_drop (m - off + n) s)
  end.
Definition split_at (p s : string) (at_ : list nat) : list string := pieces 0 (slen p) at_ s.
(** [s.split(p)] and [s.splitn(n, p)]; the reverse of [s.rsplit(p)] and [s.rsplitn(n, p)]. *)
Definition split (p s : string) : list string := split_at p s (match_indices p s).
Definition splitn (n : nat) (p s : string) : list string :=
  match n with O => [] | S n => split_at p s (take n (match_indices p s)) end.
Definition rsplit (p s : string) : list string := split_at p s (rmatch_indices p s).
Definition rsplitn (n : nat) (p s : string) : list string :=
  match n with
  | O => []
  | S n => let l := rmatch_indices p s in split_at p s (drop (length l - n) l)
  end.
(** [l.join(sep)] *)
Fixpoint join (sep : string) (l : list string) : string :=
  match l with
  | [] => EmptyString
  | [s] => s
  | s :: l => s +:+ sep +:+ join sep l
  end.
(** [s.replace(old, new)] and [s.replacen(old, new, count)] *)
Definition replace (old new s : string) : string := join new (split old s).
Definition replacen (old new : string) (count : nat) (s : string) : string :=
  join new (split_at old s (take count (match_indices old s))).
Definition ends_with (p s : string) : bool :=
  Nat.leb (slen p) (slen s) && bool_decide (str_drop (slen s - slen p) s = p).

(** Characters taken off the ends. *)
Fixpoint drop_chars (f : string → bool) (l : list string) : list string :=
  match l with c :: l' => if f c then drop_chars f l' else l | [] => [] end.
Definition trim_start_matches (f : string → bool) (s : string) : string := str_concat (drop_chars f (chars s)).
Definition trim_end_matches (f : string → bool) (s : string) : string :=
  str_concat (reverse (drop_chars f (reverse (chars s)))).
Definition trim_matches (f : string → bool) (s : string) : string :=
  trim_end_matches f (trim_start_matches f s).

Local Open Scope Z_scope.
Section Methods.
Context {HP : Profile} {HT : CharTables} (f64_to_string : f64 → string).

Definition on_str {A} (self : ValueRef) (msg : string) (f : string → Res A) : Res A :=
  match rc self with str_value v => f v | _ => Panic (PanicMsg msg) end.

(** ** Ranges *)

Definition adjust_indices (start stop : option ValueRef) (len : nat) : Z * Z :=
  let len := Z.of_nat len in
  let start := match start with Some v => if is_none_or_undefined v then 0 else as_int v | None => 0 end in
  let stop := match stop with Some v => if is_none_or_undefined v then len else as_int v | None => len end in
  let stop := if len <? stop then len else if stop <? 0 then Z.max 0 (stop + len) else stop in
  let start := if start <? 0 then Z.max 0 (start + len) else start in
  (start, stop).
Definition is_normal (range : Z * Z) : bool := range.1 <=? range.2.
(** [v.get(range).unwrap()] *)
Definition get_range (v : string) (range : Z * Z) : Res string :=
  let i := Z.to_nat range.1 in
  let j := Z.to_nat range.2 in
  if Nat.leb i j && Nat.leb j (slen v) && is_char_boundary v i && is_char_boundary v j
  then Ok (str_slice i j v) else Panic UnwrapNone.
(** What [f] gives for the bytes in the range and its start, if there are any. *)
Definition in_range {A} (msg : string) (self sub : ValueRef) (start stop : option ValueRef)
    (f : string → string → nat → Res A) (out : Res A) : Res A :=
  match rc self, rc sub with
  | str_value v, str_value p =>
      let range := adjust_indices (adjust_parameter start) (adjust_parameter stop) (slen v) in
      if is_normal range then s ← get_range v range; f s p (Z.to_nat range.1) else out
  | _, _ => Panic (PanicMsg msg)
  end.

Definition str_count (self sub : ValueRef) (start stop : option ValueRef) : Res ValueRef :=
  in_range "Invalid str object in str_count" self sub start stop
    (λ s p _, Ok (ref_int (Z.of_nat (length (match_indices p s))))) (Ok (ref_int 0)).
Definition str_startswith (self sub : ValueRef) (start stop : option ValueRef) : Res ValueRef :=
  in_range "Invalid str object in str_startswith" self sub start stop
    (λ s p _, Ok (ref_bool (starts_with p s))) (Ok (ref_bool false)).
Definition str_endswith (self sub : ValueRef) (start stop : option ValueRef) : Res ValueRef :=
  in_range "Invalid str object in str_endswith" self sub start stop
    (λ s p _, Ok (ref_bool (ends_with p s))) (Ok (ref_bool false)).

Definition found (o : option nat) (start : nat) (none : Res ValueRef) : Res ValueRef :=
  match o with Some i => Ok (ref_int (Z.of_nat (i + start))) | None => none end.
Definition not_found : Res ValueRef := Panic (PanicMsg "substring not found").
Definition find_with (msg : string) (search : string → string → option nat) (out : Res ValueRef)
    (self sub : ValueRef) (start stop : option ValueRef) : Res ValueRef :=
  in_range msg self sub start stop (λ s p i, found (search p s) i out) out.
Definition str_find := find_with "Invalid str object in str_find" Str.str_find (Ok (ref_int (-1))).
Definition str_rfind := find_with "Invalid str object in str_rfind" Str.str_rfind (Ok (ref_int (-1))).
Definition str_index := find_with "Invalid str object in str_index" Str.str_find not_found.
Definition str_rindex := find_with "Invalid str object in str_rindex" Str.str_rfind not_found.

(** ** Case and kinds of characters *)

Definition str_len (self : ValueRef) : Res nat := on_str self "Invalid str object in str len" (λ v, Ok (slen v)).
Definition str_lower (self : ValueRef) : Res ValueRef :=
  on_str self "Invalid str object in lower" (λ v, Ok (ref_str (to_lowercase v))).
Definition str_upper (self : ValueRef) : Res ValueRef :=
  on_str self "Invalid str object in upper" (λ v, Ok (ref_str (to_uppercase v))).
Definition str_capitalize (self : ValueRef) : Res ValueRef :=
  on_str self "Invalid str object in str_capitalize" (λ v,
    Ok (ref_str match chars v with
                | first_char :: rest => to_uppercase first_char +:+ to_lowercase (str_concat rest)
                | [] => EmptyString
                end)).
Definition str_chars (self : ValueRef) : Res ValueRef :=
  on_str self "Invalid str object in str_chars" (λ v, Ok (list_str (chars v))).

(** Some character is of the case and none of the opposite one. *)
Fixpoint case_loop (is_case is_opposite : string → bool) (cased : bool) (l : list string) : bool :=
  match l with
  | [] => cased
  | c :: l => if is_opposite c then false else case_loop is_case is_opposite (cased || is_case c) l
  end.
Definition is_case (value : string) (is_case is_opposite : string → bool) : bool :=
  case_loop is_case is_opposite false (chars value).
Definition all_chars (self : ValueRef) (msg : string) (f : string → bool) : Res ValueRef :=
  on_str self msg (λ v, Ok (ref_bool (negb (str_is_empty v) && forallb f (chars v)))).
Definition str_isalnum (self : ValueRef) := all_chars self "Invalid str object in str_isalnum" is_alphanumeric.
Definition str_isalpha (self : ValueRef) := all_chars self "Invalid str object in str_isalpha" is_alphabetic.
Definition str_isnumeric (self : ValueRef) := all_chars self "Invalid str object in str_isnumeric" is_numeric.
Definition str_isspace (self : ValueRef) := all_chars self "Invalid str object in str_isspace" is_space.
Definition str_isdigit (self : ValueRef) : Res ValueRef :=
  on_str self "Invalid str object in str_isdigit" (λ v, Ok (ref_bool (TypeStr.str_isdigit v))).
Definition str_islower (self : ValueRef) : Res ValueRef :=
  on_str self "Invalid str object in str_islower" (λ v, Ok (ref_bool (is_case v is_lowercase is_uppercase))).
Definition str_isupper (self : ValueRef) : Res ValueRef :=
  on_str self "Invalid str object in str_isupper" (λ v, Ok (ref_bool (is_case v is_uppercase is_lowercase))).
Fixpoint istitle_loop (cased previous_is_cased : bool) (l : list string) : bool :=
  match l with
  | [] => cased
  | c :: l =>
      if is_uppercase c || is_titlecase c then
        if previous_is_cased then false else istitle_loop true true l
      else if is_lowercase c then
        if previous_is_cased then istitle_loop true true l else false
      else istitle_loop cased false l
  end.
Definition str_istitle (self : ValueRef) : Res ValueRef :=
  on_str self "Invalid str object in str_istitle" (λ v,
    Ok (ref_bool (if str_is_empty v then false else istitle_loop false false (chars v)))).
Fixpoint title_loop (previous_is_cased : bool) (l : list string) : string :=
  match l with
  | [] => EmptyString
  | c :: l =>
      if is_lowercase c then
        (if previous_is_cased then c else to_titlecase c) +:+ title_loop true l
      else if is_uppercase c || is_titlecase c then
        (if previous_is_cased then to_lowercase c else c) +:+ title_loop true l
      else c +:+ title_loop false l
  end.
Definition str_title (self : ValueRef) : Res ValueRef :=
  on_str self "Invalid str object in title" (λ v, Ok (ref_str (title_loop false (chars v)))).
Definition str_equal (self : ValueRef) (value : string) : bool :=
  match rc self with str_value v => bool_decide (v = value) | _ => false end.

(** ** Joining, stripping and replacing *)

(** [while !iter.is_end()] with a separator where another turn follows. *)
Fixpoint join_loop (fuel : nat) (it : ValueIterator) (sep : string) (value : ValueRef) : Res string :=
  match fuel with
  | O => Panic AssertionFailed
  | S fuel =>
      if is_end it then Ok EmptyString
      else
        step ← next it value;
        iter_value ← unwrap step.2;
        rest ← join_loop fuel step.1 sep value;
        Ok (to_string f64_to_string iter_value +:+ (if is_end step.1 then EmptyString else sep) +:+ rest)
  end.
Definition str_join (self value : ValueRef) : Res ValueRef :=
  on_str self "Invalid str object in str_joined" (λ v,
    it ← from_value value;
    s ← join_loop (S (Z.to_nat (it_len it))) it v value;
    Ok (ref_str s)).
Definition strip_with (msg : string) (trim_set : (string → bool) → string → string)
    (self : ValueRef) (value : option ValueRef) : Res ValueRef :=
  on_str self msg (λ v,
    Ok (ref_str match adjust_parameter value with
                | Some set => trim_set (λ c, str_contains c (as_str set)) v
                | None => trim_set is_whitespace v
                end)).
Definition str_lstrip := strip_with "Invalid str object in str_lstrip" trim_start_matches.
Definition str_rstrip := strip_with "Invalid str object in str_rstrip" trim_end_matches.
Definition str_strip := strip_with "Invalid str object in str_strip" trim_matches.
Definition str_replace (self old new : ValueRef) (count : option ValueRef) : Res ValueRef :=
  on_str self "Invalid str object in str_replace" (λ v,
    Ok (ref_str match adjust_parameter count with
                | Some count =>
                    if 0 <=? as_int count then replacen (as_str old) (as_str new) (Z.to_nat (as_int count)) v
                    else replace (as_str old) (as_str new) v
                | None => replace (as_str old) (as_str new) v
                end)).
Definition str_removeprefix (self prefix : ValueRef) : Res ValueRef :=
  on_str self "Invalid str object in str_rstrip" (λ v,
    Ok (ref_str (if starts_with (as_str prefix) v then str_drop (slen (as_str prefix)) v else v))).
Definition str_removesuffix (self suffix : ValueRef) : Res ValueRef :=
  on_str self "Invalid str object in str_removesuffix" (λ v,
    Ok (ref_str (if ends_with (as_str suffix) v then str_take (slen v - slen (as_str suffix)) v else v))).

(** ** Splitting *)

(** [c.is_ascii_whitespace() || c == '\x0b'], the bytes of [ASCII_WHITESPACES] *)
Definition is_ws (a : ascii) : bool :=
  let n := nat_of_ascii a in Nat.eqb n 32 || (Nat.leb 9 n && Nat.leb n 13).
(** The offsets of the whitespace of [s], which is at offset [i]. *)
Fixpoint ws_indices (i : nat) (s : string) : list nat :=
  match s with
  | EmptyString => []
  | String a s => if is_ws a then i :: ws_indices (S i) s else ws_indices (S i) s
  end.
(** A count below zero never comes to zero. *)
Fixpoint split_ws (v : string) (offsets : list nat) (last_offset : nat) (count : Z) : list string :=
  let rest := if Nat.eqb last_offset (slen v) then [] else [str_drop last_offset v] in
  match offsets with
  | [] => rest
  | offset :: offsets =>
      if Nat.eqb last_offset offset then split_ws v offsets (last_offset + 1) count
      else if count =? 0 then rest
      else str_slice last_offset offset v :: split_ws v offsets (offset + 1) (count - 1)
  end.
(** [haystack.rfind_byteset(ASCII_WHITESPACES)] *)
Definition rfind_ws (haystack : string) : option nat := list.last (ws_indices 0 haystack).
(** From the right, with the pieces in reverse. *)
Fixpoint rsplit_ws (fuel : nat) (haystack : string) (count : Z) : list string :=
  let rest := if str_is_empty haystack then [] else [haystack] in
  match fuel, rfind_ws haystack with
  | S fuel, Some offset =>
      if Nat.eqb (offset + 1) (slen haystack) then rsplit_ws fuel (str_take offset haystack) count
      else if count =? 0 then rest
      else str_drop (offset + 1) haystack :: rsplit_ws fuel (str_take offset haystack) (count - 1)
  | _, _ => rest
  end.

Definition max_split (maxsplit : option ValueRef) : Z :=
  match adjust_parameter maxsplit with Some v => as_int v | None => -1 end.
Definition str_split (self : ValueRef) (sep maxsplit : option ValueRef) : Res ValueRef :=
  on_str self "Invalid str object in str_split" (λ v,
    let maxsplit := max_split maxsplit in
    Ok (list_str match adjust_parameter sep with
                 | Some pattern =>
                     let s := as_str pattern in
                     if maxsplit <? 0 then split s v else splitn (Z.to_nat maxsplit + 1) s v
                 | None => split_ws v (ws_indices 0 v) 0 maxsplit
                 end)).
Definition str_rsplit (self : ValueRef) (sep maxsplit : option ValueRef) : Res ValueRef :=
  on_str self "Invalid str object in str_rsplit" (λ v,
    let maxsplit := max_split maxsplit in
    Ok (list_str match adjust_parameter sep with
                 | Some pattern =>
                     let s := as_str pattern in
                     if maxsplit <? 0 then rsplit s v else rsplitn (Z.to_nat maxsplit + 1) s v
                 | None => reverse (rsplit_ws (slen v) v maxsplit)
                 end)).

Definition LF : ascii := ascii_of_nat 10.
Definition CR : ascii := ascii_of_nat 13.
(** The lines of [v] from [last_i] on; [rest] is at offset [i]. *)
Fixpoint splitlines_loop (v : string) (keep : nat) (rest : string) (i last_i : nat) : list string :=
  match rest with
  | EmptyString => if Nat.eqb last_i (slen v) then [] else [str_slice last_i (slen v) v]
  | String ch rest =>
      if Ascii.eqb ch LF then str_slice last_i (i + keep) v :: splitlines_loop v keep rest (i + 1) (i + 1)
      else if Ascii.eqb ch CR then
        match rest with
        | String ch' rest' =>
            if Ascii.eqb ch' LF then
              str_slice last_i (i + (keep + keep)) v :: splitlines_loop v keep rest' (i + 2) (i + 2)
            else str_slice last_i (i + keep) v :: splitlines_loop v keep rest (i + 1) (i + 1)
        | EmptyString => str_slice last_i (i + keep) v :: splitlines_loop v keep rest (i + 1) (i + 1)
        end
      else splitlines_loop v keep rest (i + 1) last_i
  end.
Definition str_splitlines (self : ValueRef) (keepends : option ValueRef) : Res ValueRef :=
  on_str self "Invalid str object in str_splitlines" (λ v,
    let keepends := match adjust_parameter keepends with Some v => as_bool v | None => false end in
    Ok (list_str (splitlines_loop v (if keepends then 1 else 0) v 0 0))).

(** ** The member functions *)

Definition member (name : string) (args : ValueRef) (f : ValueRef → ValueRef → Res ValueRef) : Res ValueRef :=
  match pop_arg_first args with
  | (Some val, args) => f val args
  | (None, _) => Panic (PanicMsg ("invalid self value in " +:+ name))
  end.
Definition member_0 (name : string) (f : ValueRef → Res ValueRef) (args kwargs : ValueRef) : Res ValueRef :=
  member name args (λ val _, f val).
(** A pattern and a range. *)
Definition member_range (name method : string)
    (f : ValueRef → ValueRef → option ValueRef → option ValueRef → Res ValueRef) (args kwargs : ValueRef) : Res ValueRef :=
  member name args (λ val args,
    match arg_0 args with
    | Some sub => f val sub (arg_i args 1) (arg_i args 2)
    | None => Panic (PanicMsg (method +:+ "() takes at least 1 argument (0 given)"))
    end).
Definition member_set (name : string) (f : ValueRef → option ValueRef → Res ValueRef) (args kwargs : ValueRef) :=
  member name args (λ val args, f val (arg_i args 0)).
Definition expect_arg (args : ValueRef) (i : nat) : Res ValueRef :=
  match arg_i args i with Some v => Ok v | None => Panic ExpectFailed end.
Definition or_kwarg (arg : option ValueRef) (kwargs : ValueRef) (name : string) : option ValueRef :=
  match arg with Some v => Some v | None => kwarg kwargs name end.
Definition member_split (name : string) (f : ValueRef → option ValueRef → option ValueRef → Res ValueRef)
    (args kwargs : ValueRef) : Res ValueRef :=
  member name args (λ val args, f val (or_kwarg (arg_i args 0) kwargs "sep") (or_kwarg (arg_i args 1) kwargs "maxsplit")).

Definition kcl_builtin_str_lower := member_0 "str_lower" str_lower.
Definition kcl_builtin_str_upper := member_0 "str_upper" str_upper.
Definition kcl_builtin_str_capitalize := member_0 "str_capitalize" str_capitalize.
Definition kcl_builtin_str_chars := member_0 "str_chars" str_chars.
Definition kcl_builtin_str_isalnum := member_0 "str_isalnum" str_isalnum.
Definition kcl_builtin_str_isalpha := member_0 "str_isalpha" str_isalpha.
Definition kcl_builtin_str_isdigit := member_0 "str_isdigit" str_isdigit.
Definition kcl_builtin_str_islower := member_0 "str_islower" str_islower.
Definition kcl_builtin_str_isspace := member_0 "str_isspace" str_isspace.
Definition kcl_builtin_str_istitle := member_0 "str_istitle" str_istitle.
Definition kcl_builtin_str_isupper := member_0 "str_isupper" str_isupper.
Definition kcl_builtin_str_title := member_0 "str_title" str_title.
Definition kcl_builtin_str_count := member_range "str_count" "count" str_count.
Definition kcl_builtin_str_endswith := member_range "str_endswith" "endswith" str_endswith.
Definition kcl_builtin_str_find := member_range "str_find" "find" str_find.
Definition kcl_builtin_str_index := member_range "str_index" "index" str_index.
Definition kcl_builtin_str_rfind := member_range "str_rfind" "rfind" str_rfind.
Definition kcl_builtin_str_rindex := member_range "str_rindex" "rindex" str_rindex.
Definition kcl_builtin_str_startswith := member_range "str_startswith" "startswith" str_startswith.
Definition kcl_builtin_str_lstrip := member_set "str_lstrip" str_lstrip.
Definition kcl_builtin_str_rstrip := member_set "str_rstrip" str_rstrip.
Definition kcl_builtin_str_strip := member_set "str_strip" str_strip.
Definition kcl_builtin_str_split := member_split "str_split" str_split.
Definition kcl_builtin_str_rsplit := member_split "str_rsplit" str_rsplit.
Definition kcl_builtin_str_join (args kwargs : ValueRef) : Res ValueRef :=
  member "str_join" args (λ val args, iter ← unwrap (arg_i args 0); str_join val iter).
Definition kcl_builtin_str_replace (args kwargs : ValueRef) : Res ValueRef :=
  member "str_replace" args (λ val args,
    old ← expect_arg args 0; new ← expect_arg args 1; str_replace val old new (arg_i args 2)).
Definition kcl_builtin_str_removeprefix (args kwargs : ValueRef) : Res ValueRef :=
  member "str_removeprefix" args (λ val args, prefix ← expect_arg args 0; str_removeprefix val prefix).
Definition kcl_builtin_str_removesuffix (args kwargs : ValueRef) : Res ValueRef :=
  member "str_removesuffix" args (λ val args, suffix ← expect_arg args 0; str_removesuffix val suffix).
Definition kcl_builtin_str_splitlines (args kwargs : ValueRef) : Res ValueRef :=
  member "str_splitlines" args (λ val args, str_splitlines val (or_kwarg (arg_i args 0) kwargs "keepends")).
End Methods.
