(* ===== verification/StrProps.v ===== *)
(** * Properties of the string methods

    Splitting is undone by joining, whatever the number of splits and the side they
    are taken from; the pieces hold no separator; splitting at whitespace gives the
    words; and the lines with their ends make up the string. *)

From stdpp Require Import base tactics list strings numbers.
From Stdlib Require Import ZArith Lia Ascii.
From Stdlib Require Sorted.
From S2P Require Import Prelude MachineInt IndexMap Str Float64 Value ListOps DictOps Iter Display Args StrMethods.
Local Open Scope nat_scope.
Local Set Warnings "-clear-no-such-hyp".

(** ** Occurrences *)

(** [l] are occurrences of [p] in [s], which is at offset [off], one after the other. *)
Fixpoint valid (p : string) (off : nat) (l : list nat) (s : string) : Prop :=
  match l with
  | [] => True
  | m :: l => off ≤ m ∧ ∃ u t, s = u +:+ p +:+ t ∧ slen u = m - off ∧ valid p (m + slen p) l t
  end.

Lemma str_drop_add i j s : str_drop (i + j) s = str_drop j (str_drop i s).
Proof. revert s. induction i as [|i IH]; intros [|a s]; simpl; try done. by destruct j. Qed.
Lemma str_drop_slen s : str_drop (slen s) s = EmptyString.
Proof. induction s; done. Qed.
Lemma valid_pieces p : ∀ l off s, valid p off l s → join p (pieces off (slen p) l s) = s.
Proof.
  induction l as [|m l IH]; intros off s; [done|]. cbn [valid]. intros (Hm & u & t & -> & Hu & Ht).
  assert (str_take (m - off) (u +:+ p +:+ t) = u) as E1 by by rewrite <- Hu, str_take_app_slen.
  assert (str_drop (m - off + slen p) (u +:+ p +:+ t) = t) as E2.
  { by rewrite str_drop_add, <- Hu, str_drop_app_slen, str_drop_app_slen. }
  cbn [pieces]. rewrite E1, E2. specialize (IH _ _ Ht).
  destruct (pieces (m + slen p) (slen p) l t) as [|x y] eqn:E; [by destruct l|].
  change (join p (u :: x :: y)) with (u +:+ p +:+ join p (x :: y)). by rewrite IH.
Qed.
Lemma valid_cons p i l a s : valid p (S i) l s → valid p i l (String a s).
Proof.
  destruct l as [|m l]; [done|]. cbn [valid]. intros (Hm & u & t & -> & Hu & Ht). split; [lia|].
  exists (String a u), t. split_and!; [done|cbn; lia|done].
Qed.
Lemma valid_advance p k : ∀ i l s,
  valid p i l s → match l with m :: _ => i + k ≤ m | [] => True end → valid p (i + k) l (str_drop k s).
Proof.
  induction k as [|k IH]; intros i l s Hv Hl; [by rewrite Nat.add_0_r; destruct s|].
  destruct l as [|m l]; [done|]. destruct Hv as (Hm & u & t & -> & Hu & Ht). destruct u as [|a u]; cbn in Hu; [lia|].
  cbn [String.append str_drop]. replace (i + S k) with (S i + k) by lia. apply IH; [|lia]. cbn [valid]. split; [lia|].
  exists u, t. split_and!; [done|lia|done].
Qed.
Lemma valid_tail p off m l s : valid p off (m :: l) s → valid p off l s.
Proof.
  intros (Hm & u & t & -> & Hu & Ht). destruct l as [|m' l]; [done|].
  destruct Ht as (Hm' & u' & t' & -> & Hu' & Ht'). split; [lia|]. exists (u +:+ p +:+ u'), t'.
  split_and!; [by rewrite !str_app_assoc|rewrite !slen_app; lia|done].
Qed.
Lemma valid_take p n : ∀ off l s, valid p off l s → valid p off (take n l) s.
Proof.
  induction n as [|n IH]; intros off [|m l] s; try done. cbn [take valid].
  intros (Hm & u & t & -> & Hu & Ht). split; [done|]. exists u, t. split_and!; auto.
Qed.
Lemma valid_drop p n : ∀ l off s, valid p off l s → valid p off (drop n l) s.
Proof. induction n as [|n IH]; intros [|m l] off s Hv; try done. cbn [drop]. eapply IH, valid_tail, Hv. Qed.

Lemma starts_with_app p s : starts_with p s = true → s = p +:+ str_drop (slen p) s.
Proof. intros [t ->]%starts_with_spec. by rewrite str_drop_app_slen. Qed.
Lemma starts_with_slen p s : starts_with p s = true → slen p ≤ slen s.
Proof. intros H%starts_with_app. rewrite H, slen_app. lia. Qed.
Lemma left_matches_valid p : 0 < slen p → ∀ s skip i,
  skip ≤ slen s → valid p (i + skip) (left_matches skip i p s) (str_drop skip s).
Proof.
  intros Hp. induction s as [|a s IH]; intros skip i Hskip; cbn [left_matches]; [done|].
  destruct skip as [|skip]; cbn [str_drop slen] in *.
  2:{ replace (i + S skip) with (S i + skip) by lia. apply IH. cbn in Hskip. lia. }
  rewrite Nat.add_0_r. destruct (starts_with p (String a s)) eqn:E.
  - cbn [valid]. split; [lia|]. exists EmptyString, (str_drop (slen p) (String a s)).
    split_and!; [by apply starts_with_app|cbn; lia|]. apply starts_with_slen in E. cbn in E.
    destruct (slen p) as [|n] eqn:Hn; [lia|]. cbn [str_drop]. replace (i + S n) with (S i + n) by lia.
    replace (S n - 1) with n by lia. apply IH. lia.
  - apply valid_cons. specialize (IH 0 (S i)). rewrite Nat.add_0_r in IH. destruct s; apply IH; cbn; lia.
Qed.
Lemma right_matches_valid p : 0 < slen p → ∀ s i, valid p i (right_matches i p s) s.
Proof.
  intros Hp. induction s as [|a s IH]; intros i; [done|]. cbn [right_matches].
  assert (valid p i (right_matches (S i) p s) (String a s)) as Hs by by apply valid_cons.
  destruct (starts_with p (String a s)) eqn:E; cbn [andb]; [|done].
  destruct (match right_matches (S i) p s with [] => true | j :: _ => i + slen p <=? j end) eqn:Hj; [|done].
  cbn [valid]. split; [lia|]. exists EmptyString, (str_drop (slen p) (String a s)).
  split_and!; [by apply starts_with_app|cbn; lia|]. apply valid_advance; [done|].
  destruct (right_matches (S i) p s); [done|]. by apply Nat.leb_le in Hj.
Qed.
Lemma valid_empty : ∀ l off s, Sorted.Sorted lt l → Forall (λ m, off ≤ m ∧ m ≤ off + slen s) l → valid EmptyString off l s.
Proof.
  induction l as [|m l IH]; intros off s Hl Hm; [done|]. apply Forall_cons_1 in Hm as [[Hm1 Hm2] Hm].
  apply Sorted.Sorted_inv in Hl as Hl'. destruct Hl' as [Hl' Hhd]. cbn [valid]. split; [lia|].
  exists (str_take (m - off) s), (str_drop (m - off) s).
  split_and!; [symmetry; apply str_take_drop|rewrite slen_take; lia|]. cbn [slen]. rewrite Nat.add_0_r.
  apply IH; [done|]. assert (Sorted.StronglySorted lt (m :: l)) as Hs.
  { apply Sorted.Sorted_StronglySorted; [|done]. intros x y z. lia. }
  apply Sorted.StronglySorted_inv in Hs as [_ Hs]. rewrite Forall_forall in *. intros x Hx.
  specialize (Hs x Hx). specialize (Hm x Hx). rewrite slen_drop. lia.
Qed.
Lemma boundaries_valid s : valid EmptyString 0 (boundaries s) s.
Proof.
  apply valid_empty.
  - unfold boundaries. apply Sorted.StronglySorted_Sorted. generalize (slen s + 1); intros n. generalize 0. induction n as [|n IH]; intros k; [constructor|].
    cbn [List.seq]. rewrite filter_cons. destruct (decide _); [|apply IH]. constructor; [apply IH|].
    apply Forall_forall. intros x Hx%list_elem_of_In. apply list_elem_of_filter in Hx as [_ Hx]. apply list_elem_of_In, in_seq in Hx. lia.
  - apply Forall_forall. intros x Hx%list_elem_of_In. apply list_elem_of_filter in Hx as [_ Hx]. apply list_elem_of_In, in_seq in Hx. lia.
Qed.
Lemma match_indices_valid p s : valid p 0 (match_indices p s) s.
Proof.
  unfold match_indices, str_is_empty. case_bool_decide as E; [subst; apply boundaries_valid|].
  pose proof (left_matches_valid p) as H. destruct p as [|a p]; [done|].
  specialize (H ltac:(cbn; lia) s 0 0 ltac:(lia)). by destruct s.
Qed.
Lemma rmatch_indices_valid p s : valid p 0 (rmatch_indices p s) s.
Proof.
  unfold rmatch_indices, str_is_empty. case_bool_decide as E; [subst; apply boundaries_valid|].
  apply right_matches_valid. destruct p; [done|cbn; lia].
Qed.
#[local] Hint Resolve valid_take valid_drop match_indices_valid rmatch_indices_valid valid_pieces : core.

(** The strings that a split with a separator gives. *)
Definition split_strings (right : bool) (maxsplit : Z) (p s : string) : list string :=
  if right then if (maxsplit <? 0)%Z then rsplit p s else rsplitn (Z.to_nat maxsplit + 1) p s
  else if (maxsplit <? 0)%Z then split p s else splitn (Z.to_nat maxsplit + 1) p s.
Lemma join_split right n p s : join p (split_strings right n p s) = s.
Proof.
  unfold split_strings, split, splitn, rsplit, rsplitn, split_at. rewrite Nat.add_1_r.
  destruct right; destruct (n <? 0)%Z; auto.
Qed.

(** ** Joining *)

Section Joining.
Context {HP : Profile} {HT : CharTables} (f64_to_string : f64 → string).
Local Open Scope Z_scope.

Lemma next_of it host r :
  next_with_key_value it host = Ok r → ∃ s, next it host = Ok s ∧ r.1 = s.1 ∧ (fst ∘ fst) <$> r.2 = s.2.
Proof.
  unfold next_with_key_value. destruct (next it host) as [[it' o]|]; [|done]. intros [= <-].
  exists (it', o). split_and!; [done..|]. by destruct o.
Qed.
(** What is printed for the values that an iteration visits. *)
Definition printed (host : ValueRef) : list string := (λ r, to_string f64_to_string r.1.1) <$> visits host.
Lemma join_loop_spec host sep fuel : ∀ it i,
  wf_value host → at_pos host i it → it_len it = Z.of_nat (length (visits host)) →
  (length (visits host) < i + fuel)%nat → (i ≤ length (visits host))%nat →
  join_loop f64_to_string fuel it sep host = Ok (join sep (drop i (printed host))).
Proof using Type.
  induction fuel as [|fuel IH]; intros it i Hwf Hat Hlen Hf Hi; [lia|]. cbn [join_loop].
  pose proof (next_spec host it i Hwf Hat Hi) as Hnext.
  assert (∀ k, (k ≤ length (visits host))%nat →
    (as_i32 (it_len it) <=? Z.of_nat k) = (length (visits host) <=? k)%nat) as Hend.
  { intros k Hk. destruct Hat as (_ & Hn & _). rewrite (i32_le (it_len it) (it_len it)) by (done || lia).
    rewrite Hlen. destruct (Z.leb_spec (Z.of_nat (length (visits host))) (Z.of_nat k)), (Nat.leb_spec (length (visits host)) k); lia || done. }
  assert (is_end it = (length (visits host) <=? i)%nat) as ->.
  { unfold is_end. destruct Hat as (Hl & Hn & Hp & Hk). rewrite Hp. by apply Hend. }
  destruct (Nat.leb_spec (length (visits host)) i) as [Hge|Hlt].
  { unfold printed. by rewrite drop_ge by by rewrite length_fmap. }
  destruct (lookup_lt_is_Some_2 _ _ Hlt) as [r Hr]. rewrite Hr in Hnext.
  destruct (next_of _ _ _ Hnext) as ([it' o] & -> & Hit & Ho). cbn [fst snd] in *. subst it' o.
  cbn [fmap option_fmap option_map mbind Res_bind unwrap]. unfold unwrap. cbn [fst snd compose].
  rewrite (IH _ (S i)) by (try done; try lia; by apply at_pos_step). cbn [mbind Res_bind]. f_equal.
  assert (printed host !! i = Some (to_string f64_to_string r.1.1)) as Hpr by (unfold printed; by rewrite list_lookup_fmap, Hr).
  rewrite (drop_S _ _ i Hpr). unfold is_end. cbn [it_len pos].
  replace (Z.of_nat i + 1) with (Z.of_nat (S i)) by lia. rewrite Hend by lia.
  destruct (Nat.leb_spec (length (visits host)) (S i)) as [Hge|Hlt'].
  - rewrite drop_ge by (unfold printed; rewrite length_fmap; lia). by rewrite str_app_nil_r.
  - destruct (drop (S i) (printed host)) as [|x l] eqn:E; [|done].
    apply (f_equal length) in E. rewrite length_drop in E. unfold printed in E. rewrite length_fmap in E. cbn in E. lia.
Qed.

Lemma str_join_strings sep l : in_i32 (Z.of_nat (length l)) = true →
  str_join f64_to_string (ref_str sep) (list_str l) = Ok (ref_str (join sep l)).
Proof using Type.
  intros Hl. unfold str_join, on_str, ref_str at 1. cbn [rc].
  assert (Value.len (list_str l) = Ok (Z.of_nat (length l))) as Hlen.
  { unfold Value.len, list_str, ref_list. cbn [rc list_values]. by rewrite length_fmap. }
  assert (is_Ok (from_value (list_str l)) = true) as Hf by by rewrite from_value_iterable.
  destruct (from_value (list_str l)) as [it|] eqn:E; [|done]. cbn [mbind Res_bind].
  assert (at_pos (list_str l) 0 it) as Hat.
  { apply (at_pos_start _ _ E). intros n Hn. rewrite Hlen in Hn. by injection Hn as <-. }
  assert (printed (list_str l) = l) as Hpr.
  { unfold printed, visits, list_str, ref_list. cbn [rc list_values]. unfold indexed.
    apply list_eq. intros i. rewrite list_lookup_fmap, list_lookup_imap, list_lookup_fmap. by destruct (l !! i). }
  assert (length (visits (list_str l)) = length l) as Hv.
  { rewrite <- Hpr at 2. unfold printed. by rewrite length_fmap. }
  assert (it_len it = Z.of_nat (length l)) as Hi by (destruct Hat as [Hat _]; congruence).
  rewrite (join_loop_spec _ _ _ it 0%nat).
  - by rewrite drop_0, Hpr.
  - apply check_wf_sound. unfold list_str, ref_list. cbn [check_wf check_cell list_values andb].
    clear. induction l; done.
  - done.
  - by rewrite Hv.
  - lia.
  - lia.
Qed.
End Joining.

(** ** The pieces hold no separator *)

Lemma contains_cons p a u : str_contains p (String a u) = starts_with p (String a u) || str_contains p u.
Proof.
  unfold str_contains. change (Str.str_find p (String a u)) with
    (if starts_with p (String a u) then Some 0 else S <$> Str.str_find p u).
  destruct (starts_with p (String a u)); [done|]. by destruct (Str.str_find p u).
Qed.
Lemma contains_short p u : slen u < slen p → str_contains p u = false.
Proof.
  intros Hl. destruct (str_contains p u) eqn:E; [|done]. apply str_contains_spec in E as (x & y & ->).
  rewrite !slen_app in Hl. lia.
Qed.
Lemma starts_with_prefix p u t : starts_with p u = true → starts_with p (u +:+ t) = true.
Proof. rewrite !starts_with_spec. intros [x ->]. exists (x +:+ t). by rewrite str_app_assoc. Qed.
Lemma contains_drop p k u : str_contains p u = false → str_contains p (str_drop k u) = false.
Proof.
  intros Hu. destruct (str_contains p (str_drop k u)) eqn:E; [|done].
  apply str_contains_spec in E as (x & y & E). enough (str_contains p u = true) by congruence.
  apply str_contains_spec. exists (str_take k u +:+ x), y. by rewrite str_app_assoc, <- E, str_take_drop.
Qed.
Lemma pieces_head off n l s : ∃ u us t, pieces off n l s = u :: us ∧ s = u +:+ t.
Proof.
  destruct l as [|m l]; [exists s, [], EmptyString; by rewrite str_app_nil_r|].
  eexists _, _, (str_drop (m - off) s). split; [done|]. symmetry. apply str_take_drop.
Qed.
Definition apart_from (off : nat) (l : list nat) : Prop := match l with m :: _ => off ≤ m | [] => True end.
Lemma pieces_longer i n l a s u us : apart_from (S i) l →
  pieces (S i) n l s = u :: us → pieces i n l (String a s) = String a u :: us.
Proof.
  destruct l as [|m l]; cbn [pieces apart_from]; [by intros _ [= -> ->]|]. intros Hm [= <- <-].
  by replace (m - i) with (S (m - S i)) by lia.
Qed.
Lemma pieces_shorter k : ∀ i n l s u us, apart_from (i + k) l →
  pieces i n l s = u :: us → pieces (i + k) n l (str_drop k s) = str_drop k u :: us.
Proof.
  induction k as [|k IH]; intros i n l s u us Hl E; [by rewrite Nat.add_0_r; destruct s, u|].
  destruct l as [|m l]; cbn [pieces apart_from] in *; [by injection E as <- <-|]. injection E as <- <-.
  replace (m - i) with (S k + (m - (i + S k))) by lia. generalize (m - (i + S k)). intros d. f_equal.
  - clear. revert s. generalize (S k) as j. induction j as [|j IH]; intros s; [by destruct s|].
    destruct s as [|a s]; simpl; [by destruct d|]. apply IH.
  - by rewrite <- Nat.add_assoc, (str_drop_add (S k)).
Qed.
Definition no_separator (p : string) (l : list string) : Prop := Forall (λ x, str_contains p x = false) l.
(** A byte in front of the first piece. *)
Lemma no_separator_cons p i l a s : apart_from (S i) l → starts_with p (String a s) = false →
  no_separator p (pieces (S i) (slen p) l s) → no_separator p (pieces i (slen p) l (String a s)).
Proof.
  intros Hl Hs. destruct (pieces_head (S i) (slen p) l s) as (u & us & t & E & Et).
  rewrite E, (pieces_longer _ _ _ a _ _ _ Hl E). unfold no_separator. intros [Hu Hus]%Forall_cons_1. constructor; [|done].
  rewrite contains_cons, Hu, orb_false_r. destruct (starts_with p (String a u)) eqn:Hau; [|done].
  apply (starts_with_prefix _ _ t) in Hau. change (String a u +:+ t) with (String a (u +:+ t)) in Hau.
  rewrite <- Et in Hau. congruence.
Qed.
Lemma valid_apart p i l s : valid p i l s → apart_from i l.
Proof. destruct l; [done|]. by intros [? _]. Qed.

Lemma left_no_separator p : 0 < slen p → ∀ s skip i, skip ≤ slen s →
  no_separator p (pieces (i + skip) (slen p) (left_matches skip i p s) (str_drop skip s)).
Proof.
  intros Hp. induction s as [|a s IH]; intros skip i Hskip.
  { cbn in Hskip. replace skip with 0 by lia. cbn. constructor; [|done]. by apply contains_short. }
  cbn [left_matches]. destruct skip as [|skip].
  2:{ cbn [str_drop]. replace (i + S skip) with (S i + skip) by lia. apply IH. cbn in Hskip. lia. }
  rewrite Nat.add_0_r. cbn [str_drop]. destruct (starts_with p (String a s)) eqn:E.
  - cbn [pieces]. rewrite Nat.sub_diag. constructor; [by apply contains_short|]. apply starts_with_slen in E. cbn in E.
    destruct (slen p) as [|n] eqn:Hn; [lia|]. cbn [Nat.add str_drop]. replace (i + S n) with (S i + n) by lia.
    replace (S n - 1) with n by lia. apply IH. lia.
  - specialize (IH 0 (S i) ltac:(lia)). rewrite Nat.add_0_r in IH. replace (str_drop 0 s) with s in IH by by destruct s.
    pose proof (left_matches_valid p Hp s 0 (S i) ltac:(lia)) as Hv. rewrite Nat.add_0_r in Hv.
    apply no_separator_cons; [by eapply valid_apart|done|done].
Qed.
Lemma right_no_separator p : 0 < slen p → ∀ s i, no_separator p (pieces i (slen p) (right_matches i p s) s).
Proof.
  intros Hp. induction s as [|a s IH]; intros i.
  { constructor; [by apply contains_short|done]. }
  cbn [right_matches]. specialize (IH (S i)). pose proof (right_matches_valid p Hp s (S i)) as Hv.
  destruct (starts_with p (String a s)) eqn:E; cbn [andb].
  2:{ apply no_separator_cons; [by eapply valid_apart|done|done]. }
  destruct (match right_matches (S i) p s with [] => true | j :: _ => i + slen p <=? j end) eqn:Hj.
  - cbn [pieces]. rewrite Nat.sub_diag. cbn [Nat.add]. constructor; [by apply contains_short|].
    destruct (pieces_head (S i) (slen p) (right_matches (S i) p s) s) as (u & us & t & Eu & Et).
    unfold no_separator in IH. rewrite Eu in IH. apply Forall_cons_1 in IH as [Hu Hus].
    destruct (slen p) as [|n] eqn:Hn; [lia|]. cbn [str_drop]. replace (i + S n) with (S i + n) by lia.
    rewrite (pieces_shorter n _ _ _ _ _ _) with (2 := Eu).
    + constructor; [by apply contains_drop|done].
    + destruct (right_matches (S i) p s); [done|]. cbn. apply Nat.leb_le in Hj. lia.
  - destruct (right_matches (S i) p s) as [|j l] eqn:El; [done|]. apply Nat.leb_gt in Hj.
    cbn [pieces] in *. apply Forall_cons_1 in IH as [_ IH]. destruct Hv as [Hv _].
    constructor.
    + apply contains_short. rewrite slen_take. lia.
    + replace (j - i + slen p) with (S (j - S i + slen p)) by lia. done.
Qed.
Lemma split_no_separator right n p s : (n < 0)%Z → 0 < slen p → no_separator p (split_strings right n p s).
Proof.
  intros Hn%Z.ltb_lt Hp. unfold split_strings, split, rsplit, split_at, match_indices, rmatch_indices, str_is_empty.
  rewrite bool_decide_false by (intros ->; cbn in Hp; lia). rewrite Hn. destruct right.
  - by apply right_no_separator.
  - pose proof (left_no_separator p Hp s 0 0 ltac:(lia)) as H. by destruct s.
Qed.

(** ** The number of pieces *)

Lemma pieces_length n : ∀ l off s, length (pieces off n l s) = S (length l).
Proof. induction l as [|m l IH]; intros off s; cbn [pieces length]; [done|by rewrite IH]. Qed.
Lemma left_matches_length p : ∀ s skip i, length (left_matches skip i p s) ≤ slen s.
Proof.
  induction s as [|a s IH]; intros skip i; cbn [left_matches]; [done|].
  destruct skip; [destruct (starts_with p (String a s))|]; cbn [length slen];
    [specialize (IH (slen p - 1) (S i))|specialize (IH 0 (S i))|specialize (IH skip (S i))]; cbn; lia.
Qed.
Lemma right_matches_length p : ∀ s i, length (right_matches i p s) ≤ slen s.
Proof.
  induction s as [|a s IH]; intros i; cbn [right_matches]; [done|]. specialize (IH (S i)).
  destruct (_ && _); cbn; lia.
Qed.
Lemma boundaries_length s : length (boundaries s) ≤ slen s + 1.
Proof.
  unfold boundaries. etrans; [apply length_filter|]. by rewrite List.length_seq.
Qed.
Lemma indices_length (right : bool) p s : length ((if right then rmatch_indices else match_indices) p s) ≤ slen s + 1.
Proof.
  pose proof (boundaries_length s) as Hb. pose proof (left_matches_length p s 0 0) as Hl. pose proof (right_matches_length p s 0) as Hr.
  unfold rmatch_indices, match_indices. destruct right, (str_is_empty p); lia.
Qed.
Lemma split_length right n p s :
  length (split_strings right n p s) ≤ slen s + 2 ∧
  ((0 ≤ n)%Z → Z.of_nat (length (split_strings right n p s)) ≤ n + 1)%Z.
Proof.
  pose proof (indices_length right p s) as Hi. unfold split_strings, split, splitn, rsplit, rsplitn, split_at.
  rewrite Nat.add_1_r. destruct right, (Z.ltb_spec n 0); rewrite pieces_length, ?length_take, ?length_drop; lia.
Qed.

(** ** Words *)

(** The longest parts of [s] without whitespace, where [cur] comes before [s]. *)
Fixpoint words (cur s : string) : list string :=
  match s with
  | EmptyString => if str_is_empty cur then [] else [cur]
  | String a s =>
      if is_ws a then if str_is_empty cur then words EmptyString s else cur :: words EmptyString s
      else words (cur +:+ String a EmptyString) s
  end.

Lemma str_drop_nil i s : i ≤ slen s → str_is_empty (str_drop i s) = Nat.eqb i (slen s).
Proof.
  intros Hi. pose proof (slen_drop i s) as H. unfold str_is_empty. destruct (Nat.eqb_spec i (slen s)) as [->|Hne].
  - by rewrite str_drop_slen.
  - apply bool_decide_false. intros E. rewrite E in H. cbn in H. lia.
Qed.
Lemma str_slice_snoc i j a v rest : i ≤ j → str_drop j v = String a rest →
  str_slice i j v +:+ String a EmptyString = str_slice i (j + 1) v.
Proof.
  intros Hi. unfold str_slice. replace (j + 1 - i) with (S (j - i)) by lia.
  replace j with (i + (j - i)) at 1 by lia. rewrite str_drop_add. generalize (str_drop i v), (j - i). clear.
  intros s n. revert s. induction n as [|n IH]; intros [|b s]; try done.
  - by intros [= -> ->].
  - cbn [str_drop]. intros E. cbn [str_take String.append]. by rewrite (IH s E).
Qed.
Lemma str_slice_nil i v : str_slice i i v = EmptyString.
Proof. unfold str_slice. rewrite Nat.sub_diag. by destruct (str_drop i v). Qed.
Lemma str_slice_empty i j v : i ≤ j → j ≤ slen v → str_is_empty (str_slice i j v) = Nat.eqb i j.
Proof.
  intros Hi Hj. assert (slen (str_slice i j v) = j - i) as H by (unfold str_slice; rewrite slen_take, slen_drop; lia).
  unfold str_is_empty. destruct (Nat.eqb_spec i j) as [->|Hne].
  - by rewrite str_slice_nil.
  - apply bool_decide_false. intros E. rewrite E in H. cbn in H. lia.
Qed.
Lemma str_slice_end i v : str_slice i (slen v) v = str_drop i v.
Proof.
  unfold str_slice. rewrite <- slen_drop. generalize (str_drop i v). intros s. induction s as [|a s IH]; [done|].
  cbn. by rewrite IH.
Qed.
Lemma split_ws_words v count : (count < 0)%Z → ∀ rest i last,
  str_drop i v = rest → i + slen rest = slen v → last ≤ i →
  split_ws v (ws_indices i rest) last count = words (str_slice last i v) rest.
Proof.
  intros Hcount rest. revert count Hcount.
  induction rest as [|a rest IH]; intros count Hcount i last Hrest Hlen Hlast; cbn [ws_indices words split_ws].
  - cbn in Hlen. replace i with (slen v) by lia. rewrite str_slice_end, str_drop_nil by lia. done.
  - cbn in Hlen. assert (str_drop (S i) v = rest) as Hrest'.
    { replace (S i) with (i + 1) by lia. by rewrite str_drop_add, Hrest. }
    destruct (is_ws a) eqn:Ea.
    + cbn [split_ws]. rewrite str_slice_empty by lia. destruct (Nat.eqb_spec last i) as [->|Hne].
      * rewrite (IH count) by (done || lia). rewrite Nat.add_1_r. by rewrite str_slice_nil.
      * destruct (Z.eqb_spec count 0); [lia|]. rewrite (IH (count - 1)%Z) by (done || lia).
        rewrite Nat.add_1_r. by rewrite str_slice_nil.
    + rewrite (IH count) by (done || lia). f_equal. rewrite (str_slice_snoc last i a v rest) by done.
      by rewrite Nat.add_1_r.
Qed.

Lemma words_app s a t : is_ws a = true → ∀ c, words c (s +:+ String a t) = words c s ++ words EmptyString t.
Proof.
  intros Ha. induction s as [|b s IH]; intros c; cbn [String.append words].
  - rewrite Ha. by destruct (str_is_empty c).
  - destruct (is_ws b); [|apply IH]. rewrite IH. by destruct (str_is_empty c).
Qed.
Lemma ws_indices_nil s : ∀ i, ws_indices i s = [] → ∀ c, words c s = if str_is_empty (c +:+ s) then [] else [c +:+ s].
Proof.
  induction s as [|a s IH]; intros i Hs c; cbn [words].
  { by rewrite str_app_nil_r. }
  cbn [ws_indices] in Hs. destruct (is_ws a); [done|]. rewrite (IH _ Hs). by rewrite str_app_assoc.
Qed.
Lemma last_ws s : ∀ i off, list.last (ws_indices i s) = Some off → ∃ u a t,
  s = u +:+ String a t ∧ off = i + slen u ∧ is_ws a = true ∧ ws_indices 0 t = [].
Proof.
  assert (∀ t i j, ws_indices i t = [] → ws_indices j t = []) as Hshift.
  { induction t as [|b t IH]; intros i j; [done|]. cbn [ws_indices]. destruct (is_ws b); [done|]. apply IH. }
  induction s as [|a s IH]; intros i off; cbn [ws_indices]; [done|].
  destruct (list.last (ws_indices (S i) s)) as [o|] eqn:E.
  - destruct (IH _ _ E) as (u & b & t & -> & -> & Hb & Ht). intros Hoff.
    assert (off = S i + slen u) as ->.
    { destruct (is_ws a); [|congruence]. rewrite last_cons, E in Hoff. by injection Hoff. }
    exists (String a u), b, t. split_and!; [done|cbn; lia|done|done].
  - apply last_None in E. destruct (is_ws a) eqn:Ea; rewrite E; [|done]. intros [= <-].
    exists EmptyString, a, s. split_and!; [done|cbn; lia|done|]. by eapply Hshift.
Qed.
Lemma rsplit_ws_words fuel : ∀ h count, (count < 0)%Z → slen h ≤ fuel → reverse (rsplit_ws fuel h count) = words EmptyString h.
Proof.
  induction fuel as [|fuel IH]; intros h count Hcount Hf; cbn [rsplit_ws].
  { destruct h; [done|cbn in Hf; lia]. }
  unfold rfind_ws. destruct (list.last (ws_indices 0 h)) as [off|] eqn:E.
  - apply last_ws in E as (u & a & t & -> & -> & Ha & Ht). cbn [Nat.add]. rewrite slen_app in *. cbn [slen] in *.
    rewrite str_take_app_slen, words_app, (ws_indices_nil t 0 Ht) by done. cbn [String.append].
    replace (slen u + 1) with (slen u + slen (String a EmptyString)) by done.
    rewrite str_drop_add, str_drop_app_slen. cbn [slen str_drop]. replace (str_drop 0 t) with t by by destruct t.
    destruct (Nat.eqb_spec (slen u + 1) (slen u + S (slen t))) as [El|El].
    + assert (t = EmptyString) as -> by (destruct t; [done|cbn in El; lia]). rewrite IH by lia. by rewrite app_nil_r.
    + destruct (Z.eqb_spec count 0); [lia|]. rewrite reverse_cons, IH by lia. f_equal.
      destruct t; [cbn in El; lia|done].
  - apply last_None in E. rewrite (ws_indices_nil h 0 E). cbn. by destruct (str_is_empty h).
Qed.

(** ** Lines *)

(** A line without the line feed, the carriage return or both at its end. *)
Definition newline : string := String LF EmptyString.
Definition chomp (line : string) : string :=
  if ends_with (String CR newline) line then str_take (slen line - 2) line
  else if ends_with newline line || ends_with (String CR EmptyString) line then str_take (slen line - 1) line
  else line.
Lemma str_slice_app i j k v : i ≤ j → j ≤ k → str_slice i j v +:+ str_slice j k v = str_slice i k v.
Proof.
  intros Hi Hj. unfold str_slice. replace (str_drop j v) with (str_drop (j - i) (str_drop i v)) by (rewrite <- str_drop_add; f_equal; lia).
  replace (k - i) with ((j - i) + (k - j)) by lia. generalize (str_drop i v), (j - i), (k - j). clear.
  intros s n m. revert s. induction n as [|n IH]; intros [|a s]; try done.
  - by destruct m.
  - cbn. by rewrite IH.
Qed.
Lemma str_concat_cons x l : str_concat (x :: l) = x +:+ str_concat l.
Proof. done. Qed.
Lemma ends_with_spec p s : ends_with p s = true ↔ ∃ u, s = u +:+ p.
Proof.
  unfold ends_with. rewrite andb_true_iff, Nat.leb_le, bool_decide_eq_true. split.
  - intros [Hl E]. exists (str_take (slen s - slen p) s). transitivity (str_take (slen s - slen p) s +:+ str_drop (slen s - slen p) s);
      [by rewrite str_take_drop|by rewrite E].
  - intros [u ->]. rewrite slen_app. split; [lia|]. replace (slen u + slen p - slen p) with (slen u) by lia.
    apply str_drop_app_slen.
Qed.
(** A text without line ends. *)
Fixpoint flat (s : string) : bool :=
  match s with EmptyString => true | String a s => negb (Ascii.eqb a LF) && negb (Ascii.eqb a CR) && flat s end.
Lemma flat_snoc u a : flat (u +:+ String a EmptyString) = flat u && (negb (Ascii.eqb a LF) && negb (Ascii.eqb a CR)).
Proof.
  induction u as [|b u IH]; cbn [String.append flat]; [by rewrite andb_true_r|]. by rewrite IH, <- !andb_assoc.
Qed.
Lemma flat_app u t : flat (u +:+ t) = flat u && flat t.
Proof. induction u as [|b u IH]; cbn [String.append flat]; [done|]. by rewrite IH, <- !andb_assoc. Qed.
Lemma flat_no_end u p : flat u = true → flat p = false → ends_with p u = false.
Proof.
  intros Hu Hp. destruct (ends_with p u) eqn:E; [|done]. apply ends_with_spec in E as [x ->].
  rewrite flat_app, Hp, andb_false_r in Hu. done.
Qed.
Lemma app_inj_r u u' t t' : slen t = slen t' → u +:+ t = u' +:+ t' → u = u' ∧ t = t'.
Proof.
  intros Hl. revert u'. induction u as [|a u IH]; intros [|b u'] E; simpl in *; try done.
  - apply (f_equal slen) in E. cbn in E. rewrite slen_app in E. lia.
  - apply (f_equal slen) in E. cbn in E. rewrite slen_app in E. lia.
  - injection E as -> E. by destruct (IH _ E) as [-> ->].
Qed.
Lemma chomp_line u : flat u = true →
  chomp (u +:+ newline) = u ∧ chomp (u +:+ String CR newline) = u ∧ chomp (u +:+ String CR EmptyString) = u ∧ chomp u = u.
Proof.
  intros Hu. unfold chomp.
  assert (ends_with (String CR newline) (u +:+ newline) = false) as E1.
  { apply not_true_is_false. intros [x E]%ends_with_spec.
    change (String CR newline) with (String CR EmptyString +:+ newline) in E. rewrite <- str_app_assoc in E.
    apply app_inj_r in E as [-> _]; [|done]. by rewrite flat_app, andb_false_r in Hu. }
  assert (ends_with (String CR newline) (u +:+ String CR EmptyString) = false) as E2.
  { apply not_true_is_false. intros [x E]%ends_with_spec.
    change (String CR newline) with (String CR EmptyString +:+ newline) in E. rewrite <- str_app_assoc in E.
    apply app_inj_r in E as [_ E]; [|done]. apply (f_equal (String.get 0)) in E. vm_compute in E. discriminate E. }
  split_and!.
  - rewrite E1. replace (ends_with newline (u +:+ newline)) with true by (symmetry; apply ends_with_spec; eauto).
    cbn [orb]. rewrite slen_app. replace (slen u + slen newline - 1) with (slen u) by (cbn; lia). apply str_take_app_slen.
  - replace (ends_with _ _) with true by (symmetry; apply ends_with_spec; eauto).
    rewrite slen_app. replace (slen u + slen (String CR newline) - 2) with (slen u) by (cbn; lia). apply str_take_app_slen.
  - rewrite E2. replace (ends_with (String CR EmptyString) _) with true by (symmetry; apply ends_with_spec; eauto).
    rewrite orb_true_r, slen_app. replace (slen u + slen (String CR EmptyString) - 1) with (slen u) by (cbn; lia). apply str_take_app_slen.
  - by rewrite !flat_no_end.
Qed.

(** The lines with their ends make up the rest of the string, and the lines without
    their ends are those with the ends taken off. *)
Lemma splitlines_spec v n : ∀ rest i last, slen rest ≤ n →
  str_drop i v = rest → i + slen rest = slen v → last ≤ i → flat (str_slice last i v) = true →
  str_concat (splitlines_loop v 1 rest i last) = str_drop last v ∧
  splitlines_loop v 0 rest i last = chomp <$> splitlines_loop v 1 rest i last ∧
  Forall (λ x, flat x = true) (splitlines_loop v 0 rest i last).
Proof.
  induction n as [|n IH]; intros rest i last Hn Hrest Hlen Hlast Hflat.
  all: pose proof (chomp_line _ Hflat) as (C1 & C2 & C3 & C4).
  all: assert (slen rest = 0 → i = slen v) as Hend by lia.
  all: assert (∀ k, i ≤ k → k ≤ slen v → str_slice last i v +:+ str_slice i k v = str_slice last k v) as Happ
      by (intros; by apply str_slice_app).
  - destruct rest as [|a rest]; [|cbn in Hn; lia]. cbn [splitlines_loop]. rewrite Hend in * by done.
    destruct (Nat.eqb_spec last (slen v)) as [->|Hne].
    + rewrite str_drop_slen. split_and!; by repeat constructor.
    + rewrite str_concat_cons. cbn [str_concat foldr fmap list_fmap]. rewrite str_app_nil_r, C4, str_slice_end.
      rewrite str_slice_end in Hflat. split_and!; by repeat constructor.
  - destruct rest as [|a rest]; [apply (IH EmptyString); done || cbn; lia|]. cbn [splitlines_loop]. cbn [slen] in *.
    assert (str_drop (i + 1) v = rest) as Hr1 by by rewrite str_drop_add, Hrest.
    assert (∀ k, str_slice i (i + S k) v = String a (str_take k rest)) as Htake.
    { intros k. unfold str_slice. rewrite Hrest. replace (i + S k - i) with (S k) by lia. done. }
    assert (∀ j, i ≤ j → j ≤ slen v → str_slice last j v +:+ str_drop j v = str_drop last v) as Hdrop.
    { intros j Hj1 Hj2. rewrite <- str_slice_end, <- (str_slice_end last), str_slice_app by lia. done. }
    assert (∀ j, flat (str_slice j j v) = true) as Hnil by (intros j; by rewrite str_slice_nil).
    assert (∀ k line tail, str_drop (i + S k) v = tail → slen tail ≤ n → i + S k + slen tail = slen v →
      line = str_slice last (i + S k) v → chomp line = str_slice last i v →
      str_concat (line :: splitlines_loop v 1 tail (i + S k) (i + S k)) = str_drop last v ∧
      str_slice last i v :: splitlines_loop v 0 tail (i + S k) (i + S k) =
        chomp <$> line :: splitlines_loop v 1 tail (i + S k) (i + S k) ∧
      Forall (λ x, flat x = true) (str_slice last i v :: splitlines_loop v 0 tail (i + S k) (i + S k))) as Hline.
    { intros k line tail Ht Hn' Hl' -> Hc. destruct (IH tail (i + S k) (i + S k)) as (I1 & I2 & I3); try done.
      rewrite str_concat_cons, I1, fmap_cons, I2, Hc. split_and!; [apply Hdrop; lia|done|].
      rewrite I2 in I3. by constructor. }
    replace (i + 0) with i by lia. replace (i + (0 + 0)) with i by lia.
    assert (slen rest ≤ n ∧ i + 1 + slen rest = slen v) as [Hn1 Hl1] by lia.
    assert (str_take 0 rest = EmptyString) as Ht0 by by destruct rest.
    destruct (Ascii.eqb_spec a LF) as [->|HLF].
    { apply (Hline 0); try done. rewrite <- (Happ (i + 1)) by lia. by rewrite Htake, Ht0. }
    destruct (Ascii.eqb_spec a CR) as [->|HCR].
    { assert (chomp (str_slice last (i + 1) v) = str_slice last i v) as Hc.
      { rewrite <- (Happ (i + 1)) by lia. by rewrite Htake, Ht0. }
      destruct rest as [|b rest]; [by apply (Hline 0)|]. destruct (Ascii.eqb_spec b LF) as [->|Hb]; [|by apply (Hline 0)].
      cbn [slen] in *. apply (Hline 1); try done; try lia.
      - replace (i + 2) with (i + 1 + 1) by lia. by rewrite str_drop_add, Hr1.
      - change (1 + 1) with 2. rewrite <- (Happ (i + 2)) by lia. rewrite Htake. by destruct rest. }
    apply IH; try done; try lia. rewrite <- (str_slice_snoc last i a v rest) by done.
    rewrite flat_snoc, Hflat. destruct (Ascii.eqb_spec a LF), (Ascii.eqb_spec a CR); done.
Qed.

(** ** Searching *)

Lemma str_rfind_spec p s :
  match Str.str_rfind p s with
  | Some i => starts_with p (str_drop i s) = true ∧ i ≤ slen s ∧
              ∀ j, i < j → j ≤ slen s → starts_with p (str_drop j s) = false
  | None => ∀ j, j ≤ slen s → starts_with p (str_drop j s) = false
  end.
Proof.
  induction s as [|a s IH]; cbn [Str.str_rfind].
  - destruct (starts_with p EmptyString) eqn:E.
    + split_and!; [done|done|intros; cbn in *; lia].
    + intros j Hj. cbn in Hj. by replace j with 0 by lia.
  - destruct (Str.str_rfind p s) as [k|].
    + destruct IH as (H1 & H2 & H3). cbn [str_drop slen]. split_and!; [done|lia|].
      intros [|j] Hj Hj'; [lia|]. apply H3; cbn in *; lia.
    + destruct (starts_with p (String a s)) eqn:E.
      * cbn [str_drop slen]. split_and!; [done|lia|]. intros [|j] Hj Hj'; [lia|]. apply IH. lia.
      * intros [|j] Hj; [done|]. apply IH. cbn in Hj. lia.
Qed.
Lemma str_find_spec p s :
  match Str.str_find p s with
  | Some i => starts_with p (str_drop i s) = true ∧ i ≤ slen s ∧ ∀ j, j < i → starts_with p (str_drop j s) = false
  | None => ∀ j, j ≤ slen s → starts_with p (str_drop j s) = false
  end.
Proof. destruct (Str.str_find p s) eqn:E; [by apply str_find_Some|by apply str_find_None]. Qed.

(** [p] at offset [k], within the offsets [i] to [j]. *)
Definition occurs (p s : string) (i j k : nat) : Prop := i ≤ k ∧ k + slen p ≤ j ∧ starts_with p (str_drop k s) = true.
Lemma starts_with_take p n s : starts_with p (str_take n s) = starts_with p s && Nat.leb (slen p) n || str_is_empty p.
Proof.
  assert (∀ a p, str_is_empty (String a p) = false) as Hne by (intros; by apply bool_decide_false).
  assert (str_is_empty EmptyString = true) as He by done.
  revert p s. induction n as [|n IH]; intros [|a p] s; cbn [str_take starts_with slen]; rewrite ?Hne, ?He, ?orb_true_r, ?orb_false_r; try done.
  - cbn [Nat.leb]. by rewrite andb_false_r.
  - destruct s as [|b s]; [done|]. cbn [starts_with]. rewrite IH. cbn [Nat.leb].
    destruct (Ascii.eqb a b); cbn [andb]; [|done]. destruct p; [by rewrite He|by rewrite Hne, orb_false_r].
Qed.
Lemma str_drop_take k n s : str_drop k (str_take n s) = str_take (n - k) (str_drop k s).
Proof.
  assert (∀ t, str_drop 0 t = t) as H0 by by intros [].
  revert n s. induction k as [|k IH]; intros n s; [by rewrite Nat.sub_0_r, !H0|].
  destruct n as [|n]; [by destruct s|]. destruct s as [|a s]; cbn [str_take str_drop Nat.sub]; [by destruct (n - k)|apply IH].
Qed.
Lemma occurs_slice p s i j k : i ≤ j → j ≤ slen s → k ≤ j - i →
  starts_with p (str_drop k (str_slice i j s)) = true ↔ occurs p s i j (i + k).
Proof.
  intros Hi Hj Hk. unfold str_slice, occurs. rewrite str_drop_take, starts_with_take, <- str_drop_add.
  rewrite orb_true_iff, andb_true_iff, Nat.leb_le. unfold str_is_empty. rewrite bool_decide_eq_true. split.
  - intros [[H1 H2]| ->]; [split_and!; [lia|lia|done]|]. split_and!; [lia|cbn; lia|by destruct (str_drop _ s)].
  - intros (_ & H1 & H2). left. split; [done|lia].
Qed.
Lemma slen_str_slice i j s : i ≤ j → j ≤ slen s → slen (str_slice i j s) = j - i.
Proof. intros. unfold str_slice. rewrite slen_take, slen_drop. lia. Qed.

Section Theorems.
Context {HP : Profile} {HT : CharTables} (f64_to_string : f64 → string).

Lemma in_range_run {A} msg s p start stop i j (f : string → string → nat → Res A) out :
  adjust_indices (adjust_parameter start) (adjust_parameter stop) (slen s) = (Z.of_nat i, Z.of_nat j) →
  i ≤ j → j ≤ slen s → is_char_boundary s i = true → is_char_boundary s j = true →
  in_range msg (ref_str s) (ref_str p) start stop f out = f (str_slice i j s) p i.
Proof using Type.
  intros E Hi Hj Bi Bj. unfold in_range, ref_str. cbn [rc]. rewrite E. unfold is_normal. cbn [fst snd].
  destruct (Z.leb_spec (Z.of_nat i) (Z.of_nat j)); [|lia]. unfold get_range. cbn [fst snd]. rewrite !Nat2Z.id, Bi, Bj.
  destruct (Nat.leb_spec i j), (Nat.leb_spec j (slen s)); try lia. done.
Qed.

(** within a range of whole characters, [find] and [rfind] return the first and
    the last occurrence of the pattern, as byte offsets of the whole string, or -1
    when there is none, and [index] and [rindex] return the same or panic. *)
Theorem find_spec s p start stop i j :
  adjust_indices (adjust_parameter start) (adjust_parameter stop) (slen s) = (Z.of_nat i, Z.of_nat j) →
  i ≤ j → j ≤ slen s → is_char_boundary s i = true → is_char_boundary s j = true →
  let results k l none :=
    str_find (ref_str s) (ref_str p) start stop = Ok (ref_int k) ∧
    str_rfind (ref_str s) (ref_str p) start stop = Ok (ref_int l) ∧
    str_index (ref_str s) (ref_str p) start stop = (if none : bool then not_found else Ok (ref_int k)) ∧
    str_rindex (ref_str s) (ref_str p) start stop = (if none then not_found else Ok (ref_int l)) in
  (results (-1)%Z (-1)%Z true ∧ ∀ m, ¬ occurs p s i j m) ∨
  ∃ k l, results (Z.of_nat k) (Z.of_nat l) false ∧ occurs p s i j k ∧ occurs p s i j l ∧
         ∀ m, occurs p s i j m → k ≤ m ∧ m ≤ l.
Proof using Type.
  intros E Hi Hj Bi Bj results. unfold results, str_find, str_rfind, str_index, str_rindex, find_with.
  rewrite !(in_range_run _ s p start stop i j) by done. unfold found.
  pose proof (str_find_spec p (str_slice i j s)) as Hf. pose proof (str_rfind_spec p (str_slice i j s)) as Hr.
  rewrite slen_str_slice in Hf, Hr by done.
  assert (∀ m, occurs p s i j m → i ≤ m ∧ m - i ≤ j - i ∧ starts_with p (str_drop (m - i) (str_slice i j s)) = true) as Ho.
  { intros m Hm. pose proof Hm as (H1 & H2 & _). split_and!; [done|lia|]. apply occurs_slice; [done|done|lia|].
    by replace (i + (m - i)) with m by lia. }
  destruct (Str.str_find p (str_slice i j s)) as [k|], (Str.str_rfind p (str_slice i j s)) as [l|].
  - destruct Hf as (F1 & F2 & F3), Hr as (R1 & R2 & R3). right. exists (i + k), (i + l).
    rewrite !(Nat.add_comm _ i). split_and!; try done; [by apply occurs_slice..|].
    intros m (H1 & H2 & H3)%Ho. split.
    + destruct (decide (m - i < k)) as [Hlt|]; [|lia]. rewrite (F3 _ Hlt) in H3. done.
    + destruct (decide (l < m - i)) as [Hlt|]; [|lia]. rewrite (R3 _ Hlt) in H3 by done. done.
  - destruct Hf as (F1 & F2 & _). by rewrite Hr in F1.
  - destruct Hr as (R1 & R2 & _). by rewrite Hf in R1.
  - left. split; [done|]. intros m (H1 & H2 & H3)%Ho. by rewrite Hf in H3.
Qed.

(** C34: a string split at a separator, from either side and as often as wanted, is
    got back by joining the pieces with the separator; a limit bounds the number of
    pieces, and without a limit no piece holds the separator. *)
Theorem split_join (right : bool) s p maxsplit : (Z.of_nat (slen s) + 2 ≤ i32_MAX)%Z → ∃ l,
  (if right then str_rsplit else str_split) (ref_str s) (Some (ref_str p)) maxsplit = Ok (list_str l) ∧
  str_join f64_to_string (ref_str p) (list_str l) = Ok (ref_str s) ∧
  (0 ≤ max_split maxsplit → Z.of_nat (length l) ≤ max_split maxsplit + 1)%Z ∧
  ((max_split maxsplit < 0)%Z → 0 < slen p → Forall (λ x, str_contains p x = false) l).
Proof using Type.
  intros Hs. exists (split_strings right (max_split maxsplit) p s). pose proof (split_length right (max_split maxsplit) p s) as [Hl Hn].
  split_and!.
  - unfold split_strings. destruct right; unfold str_rsplit, str_split, on_str, ref_str; cbn [rc]; by destruct (_ <? 0)%Z.
  - rewrite str_join_strings, join_split; [done|]. apply in_int_spec. unfold int_min, int_max, i32_MAX in *. lia.
  - done.
  - intros Hneg Hp. by apply split_no_separator.
Qed.

(** without a separator and a limit, [split] and [rsplit] both return the words:
    the longest parts without whitespace, in order. *)
Theorem split_words s :
  str_split (ref_str s) None None = Ok (list_str (words EmptyString s)) ∧
  str_rsplit (ref_str s) None None = Ok (list_str (words EmptyString s)).
Proof using Type.
  unfold str_split, str_rsplit, on_str, ref_str. cbn [rc]. unfold max_split. cbn [adjust_parameter]. split; do 2 f_equal.
  - rewrite (split_ws_words s (-1)) by (done || lia || by destruct s). by rewrite str_slice_nil.
  - by apply rsplit_ws_words.
Qed.

(** The lines with their ends make up the string; without them they are the same
    lines with the line feed, the carriage return or both taken off, and hold none. *)
Theorem splitlines_concat s : ∃ l,
  str_splitlines (ref_str s) (Some (ref_bool true)) = Ok (list_str l) ∧ str_concat l = s ∧
  str_splitlines (ref_str s) None = Ok (list_str (chomp <$> l)) ∧
  Forall (λ x, flat x = true) (chomp <$> l).
Proof using Type.
  exists (splitlines_loop s 1 s 0 0). unfold str_splitlines, on_str, ref_str. cbn [rc].
  destruct (splitlines_spec s (slen s) s 0 0) as (H1 & H2 & H3);
    [done|by destruct s|done|done|by rewrite str_slice_nil|].
  cbn [adjust_parameter is_none_or_undefined]. rewrite H2 in *. by split_and!.
Qed.
End Theorems.

(** ** Examples *)

Module Sample.
#[local] Instance no_overflow : Profile := {| overflow_checks := true |}.
Definition csv : string := "a,b,,c".
End Sample.

Lemma find_spec_witness : is_char_boundary Sample.csv 1 = true ∧
  str_find (ref_str Sample.csv) (ref_str ",") (Some (ref_int 1)) (Some (ref_int 5)) = Ok (ref_int 1) ∧
  str_rfind (ref_str Sample.csv) (ref_str ",") (Some (ref_int 1)) (Some (ref_int 5)) = Ok (ref_int 4).
Proof.
  split; [reflexivity|].
  destruct (find_spec Sample.csv "," (Some (ref_int 1)) (Some (ref_int 5)) 1 5) as [[(H & _) _]|(k & l & (Hk & Hl & _) & _)].
  - reflexivity.
  - lia.
  - cbn. lia.
  - reflexivity.
  - reflexivity.
  - vm_compute in H. discriminate H.
  - split; vm_compute; reflexivity.
Defined.
Lemma split_join_witness : let _ := Sample.no_overflow in
  (Z.of_nat (slen Sample.csv) + 2 ≤ i32_MAX)%Z ∧ ∃ l,
  str_rsplit (ref_str Sample.csv) (Some (ref_str ",")) (Some (ref_int 1)) = Ok (list_str l) ∧
  str_join (λ _, EmptyString) (ref_str ",") (list_str l) = Ok (ref_str Sample.csv).
Proof.
  intros P. assert (Z.of_nat (slen Sample.csv) + 2 ≤ i32_MAX)%Z as H by (vm_compute; congruence). split; [exact H|].
  destruct (split_join (HP := P) (λ _, EmptyString) true Sample.csv "," (Some (ref_int 1)) H) as (l & H1 & H2 & _).
  exists l. split; [exact H1|exact H2].
Defined.
Example split_sample : split "," Sample.csv = ["a"; "b"; ""; "c"] ∧ rsplitn 2 "," Sample.csv = ["a,b,"; "c"] ∧
  split "" "ab" = [""; "a"; "b"; ""] ∧ rsplit "aa" "aaa" = ["a"; ""] ∧ replace "aa" "b" "aaa" = "ba".
Proof. split_and!; vm_compute; reflexivity. Qed.
(** A range that starts inside a character is not refused but panics. *)
Example find_inside_character : 
  str_find (ref_str (String (Ascii.ascii_of_nat 195) (String (Ascii.ascii_of_nat 169) "x"))) (ref_str "x") (Some (ref_int 1)) None =
  Panic UnwrapNone.
Proof. vm_compute. reflexivity. Qed.
