(* ===== verification/Plan.v ===== *)
(** * Planning

    [value/val_plan.rs]: before a value is printed as JSON or YAML, its functions,
    undefined values and hidden attributes are filtered out.  The printers, which are
    those of other crates, are parameters. *)

From stdpp Require Import base tactics list strings numbers.
From Stdlib Require Import ZArith Lia.
From S2P Require Import Prelude MachineInt IndexMap Str Float64 Value ListOps DictOps Builtin.
Local Set Warnings "-clear-no-such-hyp".

Definition KCL_PRIVATE_VAR_PREFIX : string := "_".
Definition LIST_DICT_TEMP_KEY : string := "$".
Definition SCHEMA_TYPE_META_ATTR : string := "_type".
Definition MAIN_PKG_PATH : string := "__main__".
Definition JSON_STREAM_SEP : string := String (Ascii.ascii_of_nat 10) EmptyString.

Record PlanOptions := MkPlanOptions {
  sort_keys : bool;
  include_schema_type_path : bool;
  show_hidden : bool;
  disable_none : bool;
  disable_empty_list : bool;
  query_paths : list string;
  sep : option string }.

(** [builtin::type_of] *)
Definition builtin_type_of (x full_name : ValueRef) : Res ValueRef :=
  let plain := ref_str (type_str x) in
  if is_schema x then
    if is_truthy full_name then
      schema ← as_schema x;
      let full_type_str := default (schema_pkgpath schema) (strip_prefix "@" (schema_pkgpath schema)) in
      Ok (ref_str ((if bool_decide (full_type_str = MAIN_PKG_PATH) then "" else full_type_str +:+ ".") +:+ schema_name schema))
    else Ok plain
  else if is_none x then Ok (ref_str "None")
  else Ok plain.
Definition type_of (v : ValueRef) (full_name : bool) : Res string :=
  t ← builtin_type_of v (ref_bool full_name); Ok (as_str t).
Definition value_type_path (v : ValueRef) (full_name : bool) : Res string :=
  if is_schema v then type_of v full_name
  else
    match get_potential_schema_type v with
    | Some ty_str =>
        ty ← (if full_name then Ok (default ty_str (strip_prefix "@" ty_str))
              else match reverse (split_char (Ascii.ascii_of_nat 46) ty_str) with
                   | part :: _ => Ok part
                   | [] => type_of v full_name
                   end);
        Ok (default ty (strip_prefix (MAIN_PKG_PATH +:+ ".") ty))
    | None => type_of v full_name
    end.

Section Filter.
Variable ctx : PlanOptions.

(** The first of the results with an entry. *)
Definition update_first (key : string) (value : ValueRef) (results : list ValueRef) : Res (list ValueRef) :=
  match results with
  | result :: rest => result ← dict_update_key_value result key value; Ok (result :: rest)
  | [] => Panic UnwrapNone
  end.

Section Calls.
(** The recursive call. *)
Variable filter_results : ValueRef → Res (list ValueRef).

Definition handle_schema (value : ValueRef) : Res (list ValueRef) :=
  filtered ← filter_results value;
  match filtered with
  | v :: rest =>
      if include_schema_type_path ctx && is_config v then
        path ← value_type_path value true;
        update_first SCHEMA_TYPE_META_ATTR (ref_str path) filtered
      else Ok filtered
  | [] => Ok []
  end.

(** The results of the elements of a list, one after the other. *)
Fixpoint filter_stream (values : list ValueRef) (results : list ValueRef) : Res (list ValueRef) :=
  match values with
  | [] => Ok results
  | v :: values => filtered ← filter_results v; filter_stream values (results ++ filtered)
  end.
(** The elements that keep their place in a list, and the results of the others. *)
Fixpoint filter_items (values processed_elements results : list ValueRef) : Res (list ValueRef * list ValueRef) :=
  match values with
  | [] => Ok (processed_elements, results)
  | item :: values =>
      if is_config item then
        filtered ← filter_results item;
        match filtered with
        | [v] => filter_items values (processed_elements ++ [v]) results
        | _ => filter_items values processed_elements (results ++ filtered)
        end
      else filter_items values (processed_elements ++ [item]) results
  end.
Definition filter_list (values : list ValueRef) : Res (list ValueRef) :=
  let use_stream_format := forallb is_config values || is_some (sep ctx) in
  if use_stream_format then filter_stream values []
  else
    r ← filter_items values [] [];
    Ok (r.2 ++ match r.1 with [] => [] | l => [ref_list l] end).

(** An element of a list that is an attribute: the list of those kept, the number of
    schemas without a result, and the results. *)
Definition filter_element (v : ValueRef) (filtered_list : list ValueRef) (ignore_schema_count : nat)
    (results : list ValueRef) : Res (list ValueRef * nat * list ValueRef) :=
  if is_schema v || has_potential_schema_type v then
    filtered ← handle_schema v;
    match filtered with
    | [] => Ok (filtered_list, S ignore_schema_count, results)
    | _ => Ok (filtered_list ++ filtered, ignore_schema_count, results)
    end
  else if is_dict v then
    filtered ← filter_results v; Ok (filtered_list ++ filtered, ignore_schema_count, results)
  else if is_none v && disable_none ctx then Ok (filtered_list, ignore_schema_count, results)
  else if is_undefined v then Ok (filtered_list, ignore_schema_count, results)
  else
    filtered ← filter_results (ref_dict [(LIST_DICT_TEMP_KEY, v)]);
    let kept := match filtered with f :: _ => option_list (get_by_key f LIST_DICT_TEMP_KEY) | [] => [] end in
    Ok (filtered_list ++ kept, ignore_schema_count, results ++ tail filtered).
Fixpoint filter_elements (values filtered_list : list ValueRef) (ignore_schema_count : nat) (results : list ValueRef)
    : Res (list ValueRef * nat * list ValueRef) :=
  match values with
  | [] => Ok (filtered_list, ignore_schema_count, results)
  | v :: values =>
      r ← filter_element v filtered_list ignore_schema_count results;
      filter_elements values r.1.1 r.1.2 r.2
  end.

(** The results of a nested config are added to those of the outer one. *)
Definition add_filtered (key : string) (filtered results : list ValueRef) : Res (list ValueRef) :=
  match filtered with
  | v :: rest => results ← update_first key v results; Ok (results ++ rest)
  | [] => Ok results
  end.
Definition filter_entry (key : string) (value : ValueRef) (results : list ValueRef) : Res (list ValueRef) :=
  if is_none value && disable_none ctx then Ok results
  else if starts_with KCL_PRIVATE_VAR_PREFIX key && negb (show_hidden ctx) then Ok results
  else if is_undefined value || is_func value then Ok results
  else if is_schema value || has_potential_schema_type value then
    filtered ← handle_schema value; add_filtered key filtered results
  else if is_dict value then
    filtered ← filter_results value; add_filtered key filtered results
  else if is_list value then
    l ← as_list_ref value;
    r ← filter_elements (list_values l) [] 0 results;
    let results := r.2 in
    results ← (if vec_is_empty (list_values l) && negb (disable_empty_list ctx)
               then update_first key (ref_list []) results else Ok results);
    if Nat.ltb r.1.2 (length (list_values l)) then update_first key (ref_list r.1.1) results else Ok results
  else update_first key value results.
Fixpoint filter_entries (l : IndexMap string ValueRef) (results : list ValueRef) : Res (list ValueRef) :=
  match l with
  | [] => Ok results
  | (key, value) :: l => results ← filter_entry key value results; filter_entries l results
  end.
End Calls.

Fixpoint filter_results (fuel : nat) (key_values : ValueRef) : Res (list ValueRef) :=
  match fuel with
  | O => Panic StackOverflow
  | S fuel =>
      if is_list key_values then
        l ← as_list_ref key_values; filter_list (filter_results fuel) (list_values l)
      else if is_config key_values then
        d ← as_dict_ref key_values;
        let result := set_potential_schema_type (ref_dict []) (default "" (potential_schema d)) in
        filter_entries (filter_results fuel) (values d) [result]
      else Ok []
  end.
End Filter.

(** ** The plan of a value *)

Definition filter_by_path (self : ValueRef) (path_selector : list string) : string + ValueRef :=
  let select path :=
    match get_by_path self path with
    | Some value => inr value
    | None => inl ("invalid path select operand " +:+ path +:+ ", value not found")
    end in
  if is_config self then
    match path_selector with
    | [] => inr self
    | [path] => select path
    | _ =>
        (fix collect (paths : list string) (found : list ValueRef) : string + ValueRef :=
           match paths with
           | [] => inr (ref_list found)
           | path :: paths =>
               match select path with inr v => collect paths (found ++ [v]) | inl e => inl e end
           end) path_selector []
    end
  else inr self.

Section Plan.
(** The printers, which take whether to sort the keys. *)
Variable to_json_string_with_options to_yaml_string_with_options : bool → ValueRef → string.
Variable ctx : PlanOptions.

Definition strip_suffix_newline (s : string) : Res string :=
  if bool_decide (str_drop (slen s - 1) s = JSON_STREAM_SEP) then Ok (str_take (slen s - 1) s) else Panic UnwrapNone.
Definition json (v : ValueRef) : string := to_json_string_with_options (sort_keys ctx) v.
Definition yaml (v : ValueRef) : Res string := strip_suffix_newline (to_yaml_string_with_options (sort_keys ctx) v).
Fixpoint yaml_results (l : list ValueRef) : Res (list string) :=
  match l with
  | [] => Ok []
  | v :: l => s ← yaml v; rest ← yaml_results l; Ok (s :: rest)
  end.
Definition plan (fuel : nat) (self : ValueRef) : Res (string * string) :=
  value ← (match query_paths ctx with
           | [] => Ok self
           | paths => match filter_by_path self paths with inr v => Ok v | inl e => Panic (PanicMsg e) end
           end);
  if is_list_or_config value then
    results ← filter_results ctx fuel value;
    match results with
    | [r] => y ← yaml r; Ok (json r, y)
    | _ =>
        let sep := default "---" (sep ctx) in
        ys ← yaml_results results;
        Ok (String.concat JSON_STREAM_SEP (json <$> results),
            String.concat (JSON_STREAM_SEP +:+ sep +:+ JSON_STREAM_SEP) ys)
    end
  else y ← yaml value; Ok (json value, y).
End Plan.
