(* ===== verification/PlanSpec.v ===== *)
(** * What planning keeps

    The filter of [Plan] equals a recursive definition of the plan of a value; the
    plan of a config holds nothing that is not to be printed, and is its own plan. *)

From stdpp Require Import base tactics list strings numbers.
From Stdlib Require Import ZArith Lia.
From S2P Require Import Prelude MachineInt IndexMap Str Float64 Value ListOps DictOps Builtin Plan.
Local Open Scope nat_scope.
Local Set Warnings "-clear-no-such-hyp".

Section Spec.
Variable ctx : PlanOptions.

Definition hidden (key : string) : bool := starts_with KCL_PRIVATE_VAR_PREFIX key && negb (show_hidden ctx).
Definition type_path (v : ValueRef) : string := match value_type_path v true with Ok s => s | Panic _ => "" end.
(** A dictionary with the entries and the potential schema type of a config. *)
Definition dict_of_config (potential : option string) (l : IndexMap string ValueRef) : ValueRef :=
  let p := default "" potential in
  Ref (dict_value (MkDict l [] [] [] (if str_is_empty p then None else Some p) None)).
Definition with_type (v : ValueRef) (config : ValueRef) : ValueRef :=
  if (is_schema v || has_potential_schema_type v) && include_schema_type_path ctx then
    default config (map_config (set_values (map_insert SCHEMA_TYPE_META_ATTR (ref_str (type_path v)))) config)
  else config.
Definition planned_entry (planned : ValueRef → option ValueRef) (e : string * ValueRef) : option (string * ValueRef) :=
  if hidden e.1 then None else match planned e.2 with Some p => Some (e.1, p) | None => None end.

(** The plan of an attribute or an element, if it has one. *)
Fixpoint planned (v : ValueRef) : option ValueRef :=
  match v with
  | Ref c =>
      match c with
      | undefined | func_value _ => None
      | none => if disable_none ctx then None else Some v
      | list_value l =>
          match list_values l with
          | [] => if disable_empty_list ctx then None else Some (ref_list [])
          | _ => Some (ref_list (omap planned (list_values l)))
          end
      | dict_value d =>
          Some (with_type v (dict_of_config (potential_schema d) (omap (planned_entry planned) (values d))))
      | schema_value s =>
          Some (with_type v (dict_of_config (potential_schema (config s)) (omap (planned_entry planned) (values (config s)))))
      | _ => Some v
      end
  end.
(** The plan of a config on its own. *)
Definition planned_config (d : DictValue ValueRef) : ValueRef :=
  dict_of_config (potential_schema d) (omap (planned_entry planned) (values d)).

Lemma planned_Config v d : config_of v = Some d → planned v = Some (with_type v (planned_config d)).
Proof using. destruct v as [[]]; try discriminate; by intros [= <-]. Qed.
Lemma value_type_path_Ok v : ∃ s, value_type_path v true = Ok s.
Proof using.
  unfold value_type_path. destruct (is_schema v) eqn:E.
  - unfold type_of, builtin_type_of. rewrite E. cbn [is_truthy]. unfold is_schema, kind in E.
    unfold as_schema. destruct v as [[]]; try discriminate E. eexists. reflexivity.
  - destruct (get_potential_schema_type v); [eexists; reflexivity|]. unfold type_of, builtin_type_of. rewrite E.
    destruct (is_none v); eexists; reflexivity.
Qed.

(** ** The filter gives the plan *)

Section Step.
Variable filter : ValueRef → Res (list ValueRef).
(** The calls for configs up to a height. *)
Definition filters (n : nat) : Prop :=
  ∀ w d, config_of w = Some d → wf_value w → height w ≤ n → filter w = Ok [planned_config d].

Lemma handle_schema_spec n v d : filters n → config_of v = Some d → wf_value v → height v ≤ n →
  is_schema v || has_potential_schema_type v = true →
  handle_schema ctx filter v = Ok (option_list (planned v)).
Proof using.
  intros Hf Hd Hwf Hn Hs. unfold handle_schema. rewrite (Hf v d) by done. rewrite (planned_Config v d) by done.
  unfold with_type. rewrite Hs. cbn [mbind Res_bind option_list andb].
  change (is_config (planned_config d)) with true. rewrite andb_true_r.
  destruct (include_schema_type_path ctx); [|done]. unfold type_path.
  destruct (value_type_path_Ok v) as [s Hs']. rewrite Hs'. done.
Qed.

Lemma config_kinds v : is_schema v || has_potential_schema_type v = true → is_Some (config_of v).
Proof using.
  destruct v as [[]]; try discriminate; eauto.
Qed.
Lemma config_dict v : is_dict v = true → is_Some (config_of v).
Proof using. destruct v as [[]]; try discriminate; eauto. Qed.

(** The plan of an element that is no config. *)
Lemma filter_wrapped n v : filters n → wf_value v → height v < n → config_of v = None →
  filter (ref_dict [(LIST_DICT_TEMP_KEY, v)]) = Ok [dict_of_config None (option_list ((LIST_DICT_TEMP_KEY,.) <$> planned v))].
Proof using.
  intros Hf Hwf Hn Hv. pose proof (Hf (ref_dict [(LIST_DICT_TEMP_KEY, v)]) _ eq_refl) as E. rewrite E; clear E.
  - unfold planned_config. cbn [potential_schema values map_extend foldl map_insert omap list_omap].
    unfold planned_entry, hidden. cbn [fst snd].
    change (starts_with KCL_PRIVATE_VAR_PREFIX LIST_DICT_TEMP_KEY) with false. cbn [andb]. by destruct (planned v).
  - constructor.
    + cbn. split_and!; repeat constructor. by intros ?%elem_of_nil.
    + intros c ->%list_elem_of_singleton. done.
  - change (S (max (height v) 0) ≤ n). lia.
Qed.

Lemma get_wrapped k (o : option ValueRef) :
  get_by_key (dict_of_config None (option_list ((k,.) <$> o))) k = o.
Proof using.
  unfold get_by_key, dict_of_config. cbn [rc values]. destruct o; [|done].
  exact (map_get_insert_eq [] k v).
Qed.
(** The elements of a list. *)
Lemma filter_element_spec n v kept results : filters n → wf_value v → height v < n →
  filter_element ctx filter v kept 0 results = Ok (kept ++ option_list (planned v), 0, results).
Proof using.
  intros Hf Hwf Hn. unfold filter_element. destruct (is_schema v || has_potential_schema_type v) eqn:Es.
  { destruct (config_kinds v Es) as [d Hd]. rewrite (handle_schema_spec n v d) by (done || lia).
    rewrite (planned_Config v d Hd). done. }
  destruct (is_dict v) eqn:Ed.
  { destruct (config_dict v Ed) as [d Hd]. rewrite (Hf v d) by (done || lia).
    rewrite (planned_Config v d Hd). unfold with_type. by rewrite Es. }
  destruct (is_none v && disable_none ctx) eqn:En.
  { apply andb_true_iff in En as [En Hnone]. destruct v as [[]]; try discriminate En.
    cbn [planned]. rewrite Hnone. by rewrite app_nil_r. }
  destruct (is_undefined v) eqn:Eu.
  { destruct v as [[]]; try discriminate Eu. by rewrite app_nil_r. }
  assert (config_of v = None) as Hv.
  { destruct v as [[]]; try reflexivity; discriminate. }
  rewrite (filter_wrapped n) by (done || lia). cbn [mbind Res_bind tail]. rewrite get_wrapped.
  by rewrite app_nil_r.
Qed.
Lemma filter_elements_spec n values : ∀ kept results, filters n →
  (∀ v, v ∈ values → wf_value v ∧ height v < n) →
  filter_elements ctx filter values kept 0 results = Ok (kept ++ omap planned values, 0, results).
Proof using.
  induction values as [|v values IH]; intros kept results Hf Hv; cbn [filter_elements]; [by rewrite app_nil_r|].
  destruct (Hv v ltac:(by left)) as [Hwf Hn]. rewrite (filter_element_spec n) by done. cbn [mbind Res_bind fst snd].
  rewrite IH; [|exact Hf|intros; apply Hv; by right]. rewrite <- app_assoc. cbn [omap list_omap].
  destruct (planned v); reflexivity.
Qed.

(** A dictionary with the entries [l] in front of those to come. *)
Lemma update_first_spec p l k v : k ∉ l.*1 →
  update_first k v [dict_of_config p l] = Ok [dict_of_config p (l ++ [(k, v)])].
Proof using.
  intros Hk. unfold update_first, dict_update_key_value, map_config, dict_of_config. cbn [rc mbind Res_bind].
  unfold set_values. cbn [values ops insert_indexs attr_map potential_schema schema_args].
  by rewrite map_insert_fresh.
Qed.
Lemma filter_entry_spec p l k v : filters (height v) → wf_value v → k ∉ l.*1 →
  filter_entry ctx filter k v [dict_of_config p l] =
    Ok [dict_of_config p (l ++ option_list (planned_entry planned (k, v)))].
Proof using.
  intros Hf Hwf Hk. unfold filter_entry, planned_entry. cbn [fst snd]. fold (hidden k).
  assert (∀ o, add_filtered k (option_list o) [dict_of_config p l] =
    Ok [dict_of_config p (l ++ option_list (match o with Some w => Some (k, w) | None => None end))]) as Hadd.
  { intros [w|]; [|by rewrite app_nil_r]. change (option_list (Some w)) with [w]. unfold add_filtered.
    rewrite update_first_spec by done. reflexivity. }
  destruct (is_none v && disable_none ctx) eqn:En.
  { apply andb_true_iff in En as [En Hnone]. destruct v as [[]]; try discriminate En. cbn [planned].
    rewrite Hnone. destruct (hidden k); by rewrite app_nil_r. }
  destruct (hidden k); [by rewrite app_nil_r|].
  destruct (is_undefined v || is_func v) eqn:Eu.
  { destruct v as [[]]; try discriminate Eu; by rewrite app_nil_r. }
  destruct (is_schema v || has_potential_schema_type v) eqn:Es.
  { destruct (config_kinds v Es) as [d Hd]. rewrite (handle_schema_spec (height v) v d) by done. apply Hadd. }
  destruct (is_dict v) eqn:Ed.
  { destruct (config_dict v Ed) as [d Hd]. rewrite (Hf v d), (planned_Config v d Hd) by done.
    unfold with_type. rewrite Es. apply (Hadd (Some _)). }
  destruct (is_list v) eqn:El.
  2:{ destruct v as [[]]; try discriminate; cbn [planned]; try by apply update_first_spec.
      destruct (disable_none ctx); [discriminate|]. by apply update_first_spec. }
  destruct v as [[| | | | | |lv| | | |]]; try discriminate El. cbn [as_list_ref rc mbind Res_bind].
  rewrite (filter_elements_spec (height (Ref (list_value lv)))); [|done|].
  2:{ intros x Hx. split; [by eapply wf_value_child|by apply height_element]. }
  cbn [mbind Res_bind fst snd]. cbn [planned]. destruct (list_values lv) as [|x xs]; cbn [vec_is_empty andb length Nat.ltb Nat.leb].
  - destruct (disable_empty_list ctx); cbn [negb mbind Res_bind]; [by rewrite app_nil_r|].
    rewrite update_first_spec by done. reflexivity.
  - cbn [mbind Res_bind app]. rewrite update_first_spec by done. reflexivity.
Qed.
Lemma planned_entry_key e e' : planned_entry planned e = Some e' → e'.1 = e.1.
Proof using. unfold planned_entry. destruct (hidden _); [done|]. destruct (planned _); [|done]. by intros [= <-]. Qed.
Lemma filter_entries_spec p es : ∀ l, NoDup (l.*1 ++ es.*1) →
  (∀ e, e ∈ es → filters (height e.2) ∧ wf_value e.2) →
  filter_entries ctx filter es [dict_of_config p l] = Ok [dict_of_config p (l ++ omap (planned_entry planned) es)].
Proof using.
  induction es as [|[k v] es IH]; intros l Hnd Hes; cbn [filter_entries]; [by rewrite app_nil_r|].
  destruct (Hes (k, v) ltac:(by left)) as [Hf Hwf]. rewrite fmap_cons in Hnd. cbn [fst] in Hnd.
  assert (k ∉ l.*1) as Hk.
  { apply list.NoDup_app in Hnd as (_ & Hd & _). intros Hin. apply (Hd k Hin). by left. }
  rewrite filter_entry_spec by done. cbn [mbind Res_bind]. rewrite IH.
  - rewrite <- app_assoc. cbn [omap list_omap]. by destruct (planned_entry planned (k, v)).
  - destruct (planned_entry planned (k, v)) as [e'|] eqn:E; cbn [option_list].
    + apply planned_entry_key in E. rewrite fmap_app, <- app_assoc. cbn. by rewrite E.
    + rewrite app_nil_r. apply list.NoDup_app in Hnd as (H1 & H2 & H3). apply list.NoDup_cons in H3 as [_ H3].
      apply list.NoDup_app. split_and!; [done| |done]. intros x Hx Hx'. apply (H2 x Hx). by right.
  - intros e He. apply Hes. by right.
Qed.
End Step.

Lemma set_potential_config p :
  set_potential_schema_type (ref_dict []) (default "" p) = dict_of_config p [].
Proof using.
  unfold set_potential_schema_type, dict_of_config. by destruct (str_is_empty (default "" p)).
Qed.
Lemma filter_plan fuel v d :
  config_of v = Some d → wf_value v → height v < fuel → filter_results ctx fuel v = Ok [planned_config d].
Proof using.
  revert v d. induction fuel as [|fuel IH]; intros v d Hd Hwf Hf; [lia|]. cbn [filter_results].
  assert (is_list v = false) as -> by (by destruct v as [[]]).
  rewrite is_config_of, Hd, as_dict_ref_config, Hd. cbn [mbind Res_bind]. rewrite set_potential_config.
  rewrite filter_entries_spec; [done| |].
  - cbn [fmap list_fmap app]. by destruct (wf_config_of v d Hwf Hd).
  - intros e He. pose proof (height_entry v d e Hd He). split.
    + intros w dw Hdw Hww Hw. apply IH; [done|done|lia].
    + apply (wf_value_child v); [done|]. destruct v as [[]]; try discriminate Hd; injection Hd as <-; by apply list_elem_of_fmap_2.
Qed.

(** ** What a plan holds *)

(** Nothing that is not to be printed, in lists and dictionaries at any depth. *)
Fixpoint clean (v : ValueRef) : bool :=
  match v with
  | Ref c =>
      match c with
      | undefined | func_value _ | schema_value _ => false
      | none => negb (disable_none ctx)
      | list_value l => forallb clean (list_values l)
      | dict_value d =>
          forallb (λ e, (negb (hidden e.1) || (include_schema_type_path ctx && bool_decide (e.1 = SCHEMA_TYPE_META_ATTR)))
                        && clean e.2) (values d)
      | _ => true
      end
  end.

Lemma forallb_insert {A} (f : string * A → bool) k v l :
  forallb f l = true → f (k, v) = true → (∀ k' w, f (k, w) = true → k' = k → f (k', v) = true) → forallb f (map_insert k v l) = true.
Proof using.
  intros Hl Hv Hk. induction l as [|[k' w] l IH]; cbn [map_insert forallb]; [by rewrite Hv|].
  cbn [forallb] in Hl. apply andb_true_iff in Hl as [Hw Hl]. destruct (decide (k = k')) as [<-|Hne]; cbn [forallb].
  - by rewrite Hl, Hv.
  - by rewrite Hw, IH.
Qed.
Lemma clean_entries es : (∀ e p, e ∈ es → planned e.2 = Some p → clean p = true) →
  clean (dict_of_config None (omap (planned_entry planned) es)) = true.
Proof using.
  intros Hes. unfold dict_of_config. cbn [clean values]. induction es as [|[k v] es IH]; [done|]. cbn [omap list_omap].
  unfold planned_entry at 1. cbn [fst snd]. destruct (hidden k) eqn:Hk; [apply IH; intros; eapply Hes; [by right|done]|].
  destruct (planned v) as [p|] eqn:Hp; [|apply IH; intros; eapply Hes; [by right|done]]. cbn [forallb fst snd].
  rewrite Hk, (Hes (k, v) p ltac:(by left) Hp). cbn [negb orb andb]. apply IH. intros; eapply Hes; [by right|done].
Qed.
Lemma clean_dict p q l : clean (dict_of_config p l) = clean (dict_of_config q l).
Proof using. done. Qed.
Lemma clean_with_type v p l : clean (dict_of_config p l) = true → clean (with_type v (dict_of_config p l)) = true.
Proof using.
  intros Hl. unfold with_type. destruct (is_schema v || has_potential_schema_type v); [|done].
  destruct (include_schema_type_path ctx) eqn:Hi; [|done]. cbn [andb]. unfold map_config, dict_of_config. cbn [rc].
  change (default ?x (Some ?y)) with y. unfold set_values. cbn [values clean]. rewrite Hi.
  unfold dict_of_config in Hl. cbn [clean values] in Hl. rewrite Hi in Hl. apply forallb_insert; [done| |].
  - cbn [fst snd clean andb]. rewrite bool_decide_true by done. by rewrite orb_true_r.
  - intros k' w _ ->. cbn [fst snd clean andb]. rewrite bool_decide_true by done. by rewrite orb_true_r.
Qed.
Lemma planned_clean v : ∀ p, planned v = Some p → clean p = true.
Proof using.
  induction v as [v IH] using ValueRef_ind. intros p.
  assert (∀ d, config_of v = Some d → clean (planned_config d) = true) as Hd.
  { intros d Hd. unfold planned_config. rewrite (clean_dict _ None). apply clean_entries. intros e q He. apply IH.
    destruct v as [[]]; try discriminate Hd; injection Hd as <-; by apply list_elem_of_fmap_2. }
  destruct v as [[| | | | | |l|d|sv| |]]; cbn [planned]; try discriminate; try (by intros [= <-]).
  - destruct (disable_none ctx) eqn:E; [discriminate|]. intros [= <-]. cbn [clean]. by rewrite E.
  - assert (forallb clean (omap planned (list_values l)) = true) as Hl.
    { apply forallb_forall. intros q Hq%list_elem_of_In. apply list_elem_of_omap in Hq as (x & Hx & Hq). by eapply IH. }
    destruct (list_values l); [destruct (disable_empty_list ctx); [discriminate|by intros [= <-]]|by intros [= <-]].
  - intros [= <-]. apply clean_with_type, (Hd d eq_refl).
  - intros [= <-]. apply clean_with_type, (Hd (config sv) eq_refl).
Qed.

Lemma planned_keys (es : list (string * ValueRef)) k :
  k ∈ (omap (planned_entry planned) es).*1 → k ∈ es.*1.
Proof using.
  intros ([k' p] & -> & He)%list_elem_of_fmap. apply list_elem_of_omap in He as (e & He & Hp).
  apply planned_entry_key in Hp. cbn in *. rewrite Hp. by apply list_elem_of_fmap_2.
Qed.
Lemma planned_keys_nodup (es : list (string * ValueRef)) : NoDup es.*1 → NoDup (omap (planned_entry planned) es).*1.
Proof using.
  induction es as [|e es IH]; [done|]. rewrite fmap_cons. intros [He Hes]%list.NoDup_cons. cbn [omap list_omap].
  destruct (planned_entry planned e) as [e'|] eqn:E; [|by apply IH]. rewrite fmap_cons. apply list.NoDup_cons.
  split; [|by apply IH]. apply planned_entry_key in E. rewrite E. by intros ?%planned_keys.
Qed.
Lemma map_insert_elem {A} (k : string) (v : A) l e : e ∈ map_insert k v l → e.2 = v ∨ e ∈ l.
Proof using.
  induction l as [|[k' w] l IH]; cbn [map_insert].
  - intros ->%list_elem_of_singleton. by left.
  - destruct (decide (k = k')) as [<-|Hne].
    + intros [->|He]%elem_of_cons; [by left|]. right. by right.
    + intros [->|He]%elem_of_cons; [right; by left|]. destruct (IH He); [by left|]. right. by right.
Qed.
Lemma wf_dict_of_config p l : NoDup l.*1 → (∀ e, e ∈ l → wf_value e.2) → wf_value (dict_of_config p l).
Proof using.
  intros Hl He. constructor.
  - unfold dict_of_config. cbn. split_and!; try done; constructor.
  - intros c Hc. unfold children, dict_of_config in Hc. cbn [rc values] in Hc. apply list_elem_of_fmap in Hc as (e & -> & Hc). by apply He.
Qed.
Lemma planned_wf v : ∀ p, wf_value v → planned v = Some p → wf_value p.
Proof using.
  induction v as [v IH] using ValueRef_ind. intros p Hwf.
  assert (∀ d, config_of v = Some d → ∀ l, l = omap (planned_entry planned) (values d) →
    NoDup l.*1 ∧ ∀ e, e ∈ l → wf_value e.2) as Hd.
  { intros d Hd l ->. split; [apply planned_keys_nodup; by destruct (wf_config_of v d Hwf Hd)|].
    intros e (x & Hx & He)%list_elem_of_omap. unfold planned_entry in He. destruct (hidden x.1); [discriminate|].
    destruct (planned x.2) as [q|] eqn:Eq; [|discriminate]. injection He as <-. cbn [snd].
    assert (x.2 ∈ children v) as Hc.
    { destruct v as [[]]; try discriminate Hd; injection Hd as <-; by apply list_elem_of_fmap_2. }
    eapply IH; [exact Hc| |done]. by eapply wf_value_child. }
  assert (∀ w d, config_of v = Some d → wf_value (with_type w (planned_config d))) as Hw.
  { intros w d Hvd. destruct (Hd d Hvd _ eq_refl) as [Hnd He]. unfold with_type.
    destruct (_ && _); [|by apply wf_dict_of_config]. unfold planned_config, map_config, dict_of_config. cbn [rc].
    change (default ?x (Some ?y)) with y. unfold set_values. cbn [values ops insert_indexs attr_map potential_schema schema_args].
    constructor.
    - cbn. split_and!; [by apply map_insert_wf|constructor..].
    - intros c Hc. unfold children in Hc. cbn [rc values] in Hc. apply list_elem_of_fmap in Hc as ([k x] & -> & Hc).
      apply map_insert_elem in Hc as [Hx|Hc]; cbn [snd] in *; [|by apply (He (k, x))]. subst x.
      constructor; [done|]. intros c' Hc'. by apply elem_of_nil in Hc'. }
  destruct v as [[| | | | | |l|d|sv| |]]; cbn [planned]; try discriminate; try (intros [= <-]; exact Hwf).
  - destruct (disable_none ctx); [discriminate|intros [= <-]; exact Hwf].
  - assert (∀ x, x ∈ omap planned (list_values l) → wf_value x) as Hl.
    { intros x (y & Hy & Hx)%list_elem_of_omap. eapply IH; [exact Hy| |done]. by eapply wf_value_child. }
    assert (∀ xs, (∀ x, x ∈ xs → wf_value x) → wf_value (ref_list xs)) as Hlist by (intros xs Hxs; by constructor).
    destruct (list_values l); [destruct (disable_empty_list ctx); [discriminate|]|]; intros [= <-]; apply Hlist;
      [intros x Hx; by apply elem_of_nil in Hx|exact Hl].
  - intros [= <-]. apply (Hw (Ref (dict_value d)) d eq_refl).
  - intros [= <-]. apply (Hw (Ref (schema_value sv)) (config sv) eq_refl).
Qed.

(** ** Planning again *)

Section Again.
Hypothesis no_type : include_schema_type_path ctx = false.
Hypothesis empty_lists : disable_empty_list ctx = false.

Lemma omap_again {A} (f : A → option A) (l : list A) :
  (∀ x y, x ∈ l → f x = Some y → f y = Some y) → omap f (omap f l) = omap f l.
Proof using.
  induction l as [|x l IH]; intros Hf; [done|]. cbn [omap list_omap].
  assert (omap f (omap f l) = omap f l) as E by (apply IH; intros; eapply Hf; [by right|done]).
  destruct (f x) as [y|] eqn:Ex; cbn [omap list_omap]; [|done]. rewrite (Hf x y ltac:(by left) Ex). by f_equal.
Qed.
Lemma with_type_none v p : with_type v p = p.
Proof using no_type. unfold with_type. by rewrite no_type, andb_false_r. Qed.
Lemma planned_entries_again (es : list (string * ValueRef)) : (∀ e p, e ∈ es → planned e.2 = Some p → planned p = Some p) →
  omap (planned_entry planned) (omap (planned_entry planned) es) = omap (planned_entry planned) es.
Proof using.
  intros Hes. apply omap_again. intros [k v] y He. unfold planned_entry at 1. cbn [fst snd].
  destruct (hidden k) eqn:Hk; [discriminate|]. destruct (planned v) as [p|] eqn:Hp; [|discriminate]. intros [= <-].
  unfold planned_entry. cbn [fst snd]. by rewrite Hk, (Hes (k, v) p He Hp).
Qed.
Lemma planned_config_again d : (∀ e p, e ∈ values d → planned e.2 = Some p → planned p = Some p) →
  planned (planned_config d) = Some (planned_config d) ∧
  ∃ d', config_of (planned_config d) = Some d' ∧ planned_config d' = planned_config d.
Proof using no_type.
  intros He. apply planned_entries_again in He.
  assert (∀ p, (if str_is_empty (default "" (if str_is_empty (default "" p) then None else Some (default "" p)))
     then None else Some (default "" (if str_is_empty (default "" p) then None else Some (default "" p)))) =
     (if str_is_empty (default "" p) then None else Some (default "" p))) as Hp.
  { intros p. destruct (str_is_empty (default "" p)) eqn:E; [done|]. change (default "" (Some (default "" p))) with (default "" p). by rewrite E. }
  assert (∀ d', d' = MkDict (omap (planned_entry planned) (values d)) [] [] []
      (if str_is_empty (default "" (potential_schema d)) then None else Some (default "" (potential_schema d))) None →
    planned_config d' = planned_config d) as Hd'.
  { intros d' ->. unfold planned_config, dict_of_config. cbn [values potential_schema]. by rewrite He, Hp. }
  split; [|eexists; split; [done|by apply Hd']].
  unfold planned_config at 1, dict_of_config. cbn [planned]. rewrite with_type_none. f_equal. by apply Hd'.
Qed.
Lemma planned_again v : ∀ p, planned v = Some p → planned p = Some p.
Proof using no_type empty_lists.
  induction v as [v IH] using ValueRef_ind. intros p.
  assert (∀ d, config_of v = Some d → planned (planned_config d) = Some (planned_config d)) as Hd.
  { intros d Hd. apply planned_config_again. intros e q He. apply IH.
    destruct v as [[]]; try discriminate Hd; injection Hd as <-; by apply list_elem_of_fmap_2. }
  destruct v as [[| | | | | |l|d|sv| |]]; cbn [planned]; try discriminate; try (by intros [= <-]).
  - destruct (disable_none ctx) eqn:E; [discriminate|]. intros [= <-]. cbn [planned]. by rewrite E.
  - assert (omap planned (omap planned (list_values l)) = omap planned (list_values l)) as Hl.
    { apply omap_again. intros x y Hx. by apply IH. }
    assert (∀ l' : list ValueRef, omap planned l' = l' → planned (ref_list l') = Some (ref_list l')) as Hlist.
    { intros [|y l'] Hl'; unfold ref_list; cbn [planned list_values]; [rewrite empty_lists; reflexivity|]. by rewrite Hl'. }
    destruct (list_values l) as [|x xs].
    + rewrite empty_lists. intros [= <-]. by apply Hlist.
    + intros [= <-]. apply (Hlist _ Hl).
  - rewrite with_type_none. intros [= <-]. apply (Hd d eq_refl).
  - rewrite with_type_none. intros [= <-]. apply (Hd (config sv) eq_refl).
Qed.
End Again.

Lemma planned_config_clean v d : config_of v = Some d → clean (planned_config d) = true.
Proof using.
  intros Hd. pose proof (planned_Config v d Hd) as Hp. unfold planned_config. rewrite (clean_dict _ None).
  apply clean_entries. intros e p _. apply planned_clean.
Qed.
Lemma planned_config_wf v d : config_of v = Some d → wf_value v → wf_value (planned_config d).
Proof using.
  intros Hd Hwf. apply wf_dict_of_config.
  - apply planned_keys_nodup. by destruct (wf_config_of v d Hwf Hd).
  - intros e (x & Hx & He)%list_elem_of_omap. unfold planned_entry in He. destruct (hidden x.1); [discriminate|].
    destruct (planned x.2) as [q|] eqn:Eq; [|discriminate]. injection He as <-. apply (planned_wf x.2); [|done].
    apply (wf_value_child v); [done|]. destruct v as [[]]; try discriminate Hd; injection Hd as <-; by apply list_elem_of_fmap_2.
Qed.

(** planning a config gives one result, which is its recursively defined plan, and
    a recursion as deep as the config is enough. *)
Theorem filter_results_planned fuel v d :
  config_of v = Some d → wf_value v → height v < fuel → filter_results ctx fuel v = Ok [planned_config d].
Proof using. apply filter_plan. Qed.

(** C18: the plan of a config has no undefined value, no function and, unless they are
    asked for, no hidden attribute and no None, at any depth; it is well-formed; and
    when no type attributes are added and empty lists are kept it is its own plan. *)
Theorem plan_stable fuel v :
  is_config v = true → wf_value v → height v < fuel → ∃ p,
  filter_results ctx fuel v = Ok [p] ∧ clean p = true ∧ wf_value p ∧
  (include_schema_type_path ctx = false → disable_empty_list ctx = false →
   ∀ fuel', height p < fuel' → filter_results ctx fuel' p = Ok [p]).
Proof using.
  rewrite is_config_of. destruct (config_of v) as [d|] eqn:Hd; [|done]. intros _ Hwf Hf.
  exists (planned_config d). pose proof (planned_config_wf v d Hd Hwf) as Hp.
  split_and!; [by apply (filter_plan fuel v)|by eapply planned_config_clean|done|].
  intros Ht He fuel' Hf'. destruct (planned_config_again Ht d) as (_ & d' & Hd' & E).
  { intros e p Hin. by apply planned_again. }
  rewrite <- E at 2. exact (filter_plan fuel' _ d' Hd' Hp Hf').
Qed.
End Spec.

(** ** Concrete configs *)

Module Sample.
Definition options : PlanOptions := MkPlanOptions false false false true false [] None.
Definition options_no_empty : PlanOptions := MkPlanOptions false false false false true [] None.
(** [{a = 1, _b = 2, c = [None, {d = Undefined, e = "x"}], f = None}] *)
Definition config : ValueRef :=
  ref_dict [("a", ref_int 1); ("_b", ref_int 2);
            ("c", ref_list [Ref none; ref_dict [("d", Ref undefined); ("e", ref_str "x")]]); ("f", Ref none)].
Definition config_dict : DictValue ValueRef := MkDict
  [("a", ref_int 1); ("_b", ref_int 2);
   ("c", ref_list [Ref none; ref_dict [("d", Ref undefined); ("e", ref_str "x")]]); ("f", Ref none)] [] [] [] None None.
Definition config_plan : ValueRef :=
  ref_dict [("a", ref_int 1); ("c", ref_list [ref_dict [("e", ref_str "x")]])].
(** A list of undefined values only, and its plan. *)
Definition undefined_list : ValueRef := ref_dict [("a", ref_list [Ref undefined])].
Definition nested_list : ValueRef := ref_list [ref_list [ref_dict [("_a", ref_int 1)]]].
End Sample.

Example config_planned : filter_results Sample.options 5 Sample.config = Ok [Sample.config_plan].
Proof. vm_compute. reflexivity. Qed.
(** An empty list is dropped when [disable_empty_list] is set, and a list that planning
    makes empty is not: the plan is not its own plan. *)
Example emptied_list_printed :
  filter_results Sample.options_no_empty 5 Sample.undefined_list = Ok [ref_dict [("a", ref_list [])]] ∧
  filter_results Sample.options_no_empty 5 (ref_dict [("a", ref_list [])]) = Ok [ref_dict []].
Proof. vm_compute. split; reflexivity. Qed.
(** A list inside a list at the top is kept as it is, hidden attributes included. *)
Example nested_list_kept :
  filter_results Sample.options 5 Sample.nested_list = Ok [Sample.nested_list].
Proof. vm_compute. reflexivity. Qed.

Example filter_results_planned_witness :
  config_of Sample.config = Some Sample.config_dict ∧ wf_value Sample.config ∧ height Sample.config < 5 ∧
  filter_results Sample.options 5 Sample.config = Ok [planned_config Sample.options Sample.config_dict] ∧
  planned_config Sample.options Sample.config_dict = Sample.config_plan.
Proof.
  assert (wf_value Sample.config) as Hwf by (apply check_wf_sound; vm_compute; reflexivity).
  assert (config_of Sample.config = Some Sample.config_dict) as Hd by reflexivity.
  assert (height Sample.config < 5) as Hf by (apply Nat.ltb_lt; vm_compute; reflexivity).
  split_and!; [exact Hd|exact Hwf|exact Hf|exact (filter_results_planned Sample.options 5 _ _ Hd Hwf Hf)|vm_compute; reflexivity].
Defined.
Example plan_stable_witness :
  is_config Sample.config = true ∧ wf_value Sample.config ∧ height Sample.config < 5 ∧
  ∃ p, filter_results Sample.options 5 Sample.config = Ok [p] ∧ clean Sample.options p = true ∧ wf_value p ∧
    filter_results Sample.options 5 p = Ok [p].
Proof.
  assert (wf_value Sample.config) as Hwf by (apply check_wf_sound; vm_compute; reflexivity).
  assert (height Sample.config < 5) as Hf by (apply Nat.ltb_lt; vm_compute; reflexivity).
  split; [reflexivity|split; [exact Hwf|split; [exact Hf|]]].
  destruct (plan_stable Sample.options 5 Sample.config eq_refl Hwf Hf) as (p & Hp & Hc & Hw & Hagain).
  exists p. assert (p = Sample.config_plan) as E.
  { pose proof (eq_trans (eq_sym Hp) config_planned) as H. injection H as H. exact H. }
  split; [exact Hp|split; [exact Hc|split; [exact Hw|]]].
  apply (Hagain eq_refl eq_refl 5). rewrite E. apply Nat.ltb_lt. vm_compute. reflexivity.
Defined.
