(* ===== verification/Context.v ===== *)
(** * The runtime context

    [context/mod.rs], [api/kcl.rs] and [api/error.rs]: the context that every
    function of the runtime is given, with the position and the message of an error;
    the functions that change it: decorators ([value/val_decorator.rs]), assertions
    ([stdlib/assert_api.rs]), [print] ([stdlib/builtin_api.rs]) and [runtime.catch]
    ([panic/mod.rs]).  The fields for pointers to objects, the tables of compiled
    schemas and plugins and the import graph are left out: nothing here uses them. *)

From stdpp Require Import base tactics list strings numbers.
From Stdlib Require Import ZArith Lia.
From S2P Require Import Prelude MachineInt IndexMap Str Float64 Value ListOps DictOps Arith Display Args Plan.
Local Open Scope Z_scope.
Local Set Warnings "-clear-no-such-hyp".

Inductive RuntimeErrorType :=
  | EvaluationError | RecursiveLoad | FloatOverflow | FloatUnderflow | IntOverflow | TypeError
  | AssertionError | Deprecated | DeprecatedWarning | SchemaCheckFailure.
(** [err_type as i32] *)
Definition err_code (t : RuntimeErrorType) : Z :=
  match t with
  | EvaluationError => 1 | RecursiveLoad => 2 | FloatOverflow => 3 | FloatUnderflow => 4 | IntOverflow => 5
  | TypeError => 6 | AssertionError => 7 | Deprecated => 8 | DeprecatedWarning => 9 | SchemaCheckFailure => 10
  end.

Record BacktraceFrame := MkFrame { frame_file : string; frame_func : string; frame_col : Z; frame_line : Z }.
Record PanicInfo := MkPanicInfo {
  kcl_PanicInfo : bool;
  info_backtrace : list BacktraceFrame;
  rust_file : string; rust_line : Z; rust_col : Z;
  kcl_pkgpath : string; kcl_file : string; kcl_func : string;
  kcl_line : Z; kcl_col : Z; kcl_arg_msg : string;
  kcl_config_meta_file : string; kcl_config_meta_line : Z; kcl_config_meta_col : Z;
  kcl_config_meta_arg_msg : string;
  message : string; err_type_code : Z; is_warning : bool }.
Definition info_default : PanicInfo :=
  MkPanicInfo false [] "" 0 0 "" "" "" 0 0 "" "" 0 0 "" "" 0 false.
Record RuntimePanicRecord := MkPanicRecord {
  record_message : string; record_file : string; record_line : Z; record_col : Z }.
Record Context := MkContext {
  cfg : ContextConfig;
  module_path : string;
  workdir : string;
  backtrace : list BacktraceFrame;
  imported_pkgpath : list string;
  option_values : IndexMap string ValueRef;
  log_message : string;
  panic_info : PanicInfo;
  plan_opts : PlanOptions }.

Definition from_panic_info (info : PanicInfo) : BacktraceFrame :=
  MkFrame (kcl_file info) (kcl_func info) (kcl_col info) (kcl_line info).
(** The updates of one field. *)
Definition with_info (f : PanicInfo → PanicInfo) (c : Context) : Context :=
  MkContext (cfg c) (module_path c) (workdir c) (backtrace c) (imported_pkgpath c) (option_values c) (log_message c)
    (f (panic_info c)) (plan_opts c).
Definition with_backtrace (f : list BacktraceFrame → list BacktraceFrame) (c : Context) : Context :=
  MkContext (cfg c) (module_path c) (workdir c) (f (backtrace c)) (imported_pkgpath c) (option_values c) (log_message c)
    (panic_info c) (plan_opts c).
Definition with_options (f : IndexMap string ValueRef → IndexMap string ValueRef) (c : Context) : Context :=
  MkContext (cfg c) (module_path c) (workdir c) (backtrace c) (imported_pkgpath c) (f (option_values c)) (log_message c)
    (panic_info c) (plan_opts c).
Definition push_log (s : string) (c : Context) : Context :=
  MkContext (cfg c) (module_path c) (workdir c) (backtrace c) (imported_pkgpath c) (option_values c) (log_message c +:+ s)
    (panic_info c) (plan_opts c).

Definition options_default : PlanOptions := MkPlanOptions false false false false false [] None.
Definition Context_new : Context :=
  MkContext {| debug_mode := false; strict_range_check := false; disable_schema_check := false |} "" "" [] [] [] ""
    (MkPanicInfo false [] "" 0 0 "" "" "kcl_main" 0 0 "" "" 0 0 "" "" 0 false) options_default.

(** ** The setters *)

Definition set_kcl_pkgpath (pkgpath : string) : Context → Context := with_info (λ i,
  MkPanicInfo (kcl_PanicInfo i) (info_backtrace i) (rust_file i) (rust_line i) (rust_col i) pkgpath (kcl_file i)
    (kcl_func i) (kcl_line i) (kcl_col i) (kcl_arg_msg i) (kcl_config_meta_file i) (kcl_config_meta_line i)
    (kcl_config_meta_col i) (kcl_config_meta_arg_msg i) (message i) (err_type_code i) (is_warning i)).
Definition set_kcl_module_path (path : string) (c : Context) : Context :=
  MkContext (cfg c) path (workdir c) (backtrace c) (imported_pkgpath c) (option_values c) (log_message c)
    (panic_info c) (plan_opts c).
Definition set_kcl_workdir (dir : string) (c : Context) : Context :=
  MkContext (cfg c) (module_path c) dir (backtrace c) (imported_pkgpath c) (option_values c) (log_message c)
    (panic_info c) (plan_opts c).
Definition info_position (file : option string) (line col : option Z) (arg_msg func : option string) (i : PanicInfo) : PanicInfo :=
  MkPanicInfo (kcl_PanicInfo i) (info_backtrace i) (rust_file i) (rust_line i) (rust_col i) (kcl_pkgpath i)
    (default (kcl_file i) file) (default (kcl_func i) func) (default (kcl_line i) line) (default (kcl_col i) col)
    (default (kcl_arg_msg i) arg_msg) (kcl_config_meta_file i) (kcl_config_meta_line i)
    (kcl_config_meta_col i) (kcl_config_meta_arg_msg i) (message i) (err_type_code i) (is_warning i).
Definition set_kcl_filename (file : string) (c : Context) : Context :=
  if str_is_empty file then c else with_info (info_position (Some file) None None None None) c.
Definition set_kcl_line_col (line col : Z) : Context → Context :=
  with_info (info_position None (Some line) (Some col) None None).
Definition set_kcl_location_info (arg_msg file : option string) (line col : option Z) : Context → Context :=
  with_info (info_position file line col arg_msg None).
Definition set_kcl_config_meta_location_info (arg_msg file : option string) (line col : option Z) : Context → Context :=
  with_info (λ i,
    MkPanicInfo (kcl_PanicInfo i) (info_backtrace i) (rust_file i) (rust_line i) (rust_col i) (kcl_pkgpath i) (kcl_file i)
      (kcl_func i) (kcl_line i) (kcl_col i) (kcl_arg_msg i) (default (kcl_config_meta_file i) file)
      (default (kcl_config_meta_line i) line) (default (kcl_config_meta_col i) col)
      (default (kcl_config_meta_arg_msg i) arg_msg) (message i) (err_type_code i) (is_warning i)).
Definition info_message (msg : string) (code : Z) (warning : bool) (i : PanicInfo) : PanicInfo :=
  MkPanicInfo true (info_backtrace i) (rust_file i) (rust_line i) (rust_col i) (kcl_pkgpath i) (kcl_file i)
    (kcl_func i) (kcl_line i) (kcl_col i) (kcl_arg_msg i) (kcl_config_meta_file i) (kcl_config_meta_line i)
    (kcl_config_meta_col i) (kcl_config_meta_arg_msg i) msg code warning.
Definition set_err_type (err_type : RuntimeErrorType) : Context → Context :=
  with_info (λ i, info_message (message i) (err_code err_type) (is_warning i) i).
Definition set_warning_message (msg : string) : Context → Context :=
  with_info (λ i, info_message msg (err_type_code i) true i).
Definition set_panic_info (record : RuntimePanicRecord) (c : Context) : Context :=
  let i := panic_info c in
  let frames := if @debug_mode (cfg c) then backtrace c ++ [from_panic_info i] else info_backtrace i in
  with_info (λ i,
    MkPanicInfo true frames (record_file record) (record_line record) (record_col record) (kcl_pkgpath i) (kcl_file i)
      (kcl_func i) (kcl_line i) (kcl_col i) (kcl_arg_msg i) (kcl_config_meta_file i) (kcl_config_meta_line i)
      (kcl_config_meta_col i) (kcl_config_meta_arg_msg i) (record_message record) (err_type_code i) (is_warning i)) c.
(** Whether the package was imported before. *)
Definition pkgpath_is_imported (pkgpath : string) (c : Context) : bool * Context :=
  (bool_decide (pkgpath ∈ imported_pkgpath c),
   MkContext (cfg c) (module_path c) (workdir c) (backtrace c) (set_insert pkgpath (imported_pkgpath c)) (option_values c)
     (log_message c) (panic_info c) (plan_opts c)).
Definition set_debug_mode (v : Z) (c : Context) : Context :=
  let cfg' := {| debug_mode := negb (v =? 0); strict_range_check := @strict_range_check (cfg c);
                 disable_schema_check := @disable_schema_check (cfg c) |} in
  MkContext cfg' (module_path c) (workdir c) (backtrace c) (imported_pkgpath c) (option_values c) (log_message c)
    (panic_info c) (plan_opts c).
Definition set_strict_range_check (v : Z) (c : Context) : Context :=
  let cfg' := {| debug_mode := @debug_mode (cfg c); strict_range_check := negb (v =? 0);
                 disable_schema_check := @disable_schema_check (cfg c) |} in
  MkContext cfg' (module_path c) (workdir c) (backtrace c) (imported_pkgpath c) (option_values c) (log_message c)
    (panic_info c) (plan_opts c).
Definition set_disable_none (v : Z) (c : Context) : Context :=
  let o := plan_opts c in
  MkContext (cfg c) (module_path c) (workdir c) (backtrace c) (imported_pkgpath c) (option_values c) (log_message c)
    (panic_info c) (MkPlanOptions (sort_keys o) (include_schema_type_path o) (show_hidden o) (negb (v =? 0))
                      (disable_empty_list o) (query_paths o) (sep o)).
Definition set_disable_schema_check (v : Z) (c : Context) : Context :=
  let cfg' := {| debug_mode := @debug_mode (cfg c); strict_range_check := @strict_range_check (cfg c);
                 disable_schema_check := negb (v =? 0) |} in
  MkContext cfg' (module_path c) (workdir c) (backtrace c) (imported_pkgpath c) (option_values c) (log_message c)
    (panic_info c) (plan_opts c).

(** ** Computations that change the context, which outlives a panic *)

Definition Effect (A : Type) : Type := Context → Res A * Context.
#[export] Instance Effect_ret : MRet Effect := λ A a c, (Ok a, c).
#[export] Instance Effect_bind : MBind Effect := λ A B f m c,
  match m c with (Ok a, c) => f a c | (Panic p, c) => (Panic p, c) end.
Definition update (f : Context → Context) : Effect unit := λ c, (Ok tt, f c).
Definition ask {A} (f : Context → A) : Effect A := λ c, (Ok (f c), c).
Definition lift {A} (r : Res A) : Effect A := λ c, (r, c).
Definition throw {A} (msg : string) : Effect A := lift (Panic (PanicMsg msg)).

Definition kcl_assert (value msg : ValueRef) : Effect unit :=
  if is_truthy value then mret tt
  else update (set_err_type AssertionError);; throw (as_str msg).
Definition NEWLINE : string := String (Ascii.ascii_of_nat 10) EmptyString.
Definition kcl_builtin_print (f64_to_string : f64 → string) (args kwargs : ValueRef) : Effect ValueRef :=
  l ← lift (as_list_ref args);
  update (push_log (String.concat " " (to_string f64_to_string <$> list_values l)));;
  d ← lift (as_dict_ref kwargs);
  update (push_log match map_get "end" (values d) with
                   | Some c => to_string f64_to_string c
                   | None => NEWLINE
                   end);;
  mret ref_none.

(** ** Decorators *)

Definition DEPRECATED_DECORATOR : string := "deprecated".
Definition DEPRECATED_INFO : string := "info".
Record DecoratorValue := MkDecorator {
  decorator_name : string; decorator_args : ValueRef; decorator_kwargs : ValueRef }.

(** The version and the reason of a deprecation. *)
Definition deprecation (kwargs : ValueRef) : string :=
  let text name := match kwarg kwargs name with Some v => as_str v | None => "" end in
  (if str_is_empty (text "version") then "" else "since version " +:+ text "version") +:+
  (if str_is_empty (text "reason") then "" else ", " +:+ text "reason").
Definition run_decorator (self : DecoratorValue) (attr_name : string) (is_schema_target : bool)
    (config_value config_meta : ValueRef) : Effect unit :=
  let err_msg := attr_name +:+ " was deprecated " in
  let used := is_schema_target || is_some (get_by_key config_value attr_name) in
  let msg := deprecation (decorator_kwargs self) in
  let strict := match kwarg (decorator_kwargs self) "strict" with Some v => as_bool v | None => true end in
  if bool_decide (decorator_name self = DEPRECATED_DECORATOR) then
    if strict then
      if used then
        update (match get_by_key config_meta CONFIG_META_FILENAME, get_by_key config_meta CONFIG_META_LINE with
                | Some filename, Some line => λ c,
                    with_info (info_position None (Some (as_i32 (as_int line))) None None None)
                      (set_kcl_filename (as_str filename) c)
                | _, _ => λ c, c
                end);;
        update (set_err_type Deprecated);;
        throw (err_msg +:+ msg)
      else mret tt
    else
      update (set_err_type DeprecatedWarning);;
      update (set_warning_message (if used then err_msg +:+ msg else err_msg))
  else if bool_decide (decorator_name self = DEPRECATED_INFO) then mret tt
  else throw ("Unknown decorator " +:+ decorator_name self).

(** ** [runtime.catch] *)

Section Catch.
Context {HP : Profile}.
(** The function called, and the messages of the panics of the Standard Library. *)
Variable call_fn : FuncValue ValueRef → Effect ValueRef.
Variable std_message : panic → string.

Definition err_to_str (p : panic) : string := match p with PanicMsg s => s | p => std_message p end.
Definition kcl_runtime_catch (args kwargs : ValueRef) : Effect ValueRef :=
  arg ← lift (get_call_arg args kwargs 0 (Some "func"));
  match arg with
  | Some func =>
      func ← lift (as_function func);
      debug ← ask (λ c, @debug_mode (cfg c));
      (if (debug : bool) then
         update (λ c, with_backtrace (λ b, b ++ [from_panic_info (panic_info c)]) c);;
         update (with_info (info_position None None None None (Some (func_name func))))
       else mret tt);;
      now_meta_info ← ask panic_info;
      result ← (λ c, match call_fn func c with (result, c) => (Ok result, c) end);
      (if (debug : bool) then update (with_backtrace (@removelast _)) else mret tt);;
      update (with_info (λ _, now_meta_info));;
      mret match result with Ok _ => ref_undefined | Panic p => ref_str (err_to_str p) end
  | None => throw "catch() takes exactly one argument (0 given)"
  end.
End Catch.

(** ** What a catch leaves of a panic *)

Section CatchProps.
Context {HP : Profile}.
Variable call_fn : FuncValue ValueRef → Effect ValueRef.
Variable std_message : panic → string.

(** The context in which the function is called. *)
Definition catch_entry (f : FuncValue ValueRef) (c : Context) : Context :=
  if @debug_mode (cfg c) then
    with_info (info_position None None None None (Some (func_name f)))
      (with_backtrace (λ b, b ++ [from_panic_info (panic_info c)]) c)
  else c.

(** [runtime.catch] of a function returns whatever the function does: with Undefined
    when the function returns and with the message of its panic otherwise.  The context
    is the one the function left, but for the panic information, which is that of the
    call (in debug mode with the name of the function, see [catch_keeps_function]), and,
    for a function that leaves the backtrace as it found it, for the frame of the call,
    which is taken off. *)
Theorem catch_contains args kwargs f c r c' :
  get_call_arg args kwargs 0 (Some "func") = Ok (Some (Ref (func_value f))) →
  call_fn f (catch_entry f c) = (r, c') →
  ∃ v c'', kcl_runtime_catch call_fn std_message args kwargs c = (Ok v, c'') ∧
  (∀ x, r = Ok x → v = ref_undefined) ∧
  (∀ p, r = Panic p → v = ref_str (err_to_str std_message p)) ∧
  panic_info c'' = panic_info (catch_entry f c) ∧
  log_message c'' = log_message c' ∧ option_values c'' = option_values c' ∧
  imported_pkgpath c'' = imported_pkgpath c' ∧ plan_opts c'' = plan_opts c' ∧
  (backtrace c' = backtrace (catch_entry f c) → backtrace c'' = backtrace c).
Proof using.
  intros Ha Hc. destruct c as [[dm sr ds] mp wd bt ip ov lm pi po]. unfold kcl_runtime_catch.
  unfold mbind, Effect_bind, lift at 1. rewrite Ha. unfold lift, ask, update, mret, Effect_ret. cbn [as_function rc].
  destruct dm; unfold catch_entry in Hc |- *; cbn -[info_position from_panic_info removelast] in Hc |- *; rewrite Hc;
    (eexists _, _; split; [reflexivity|]); cbn -[removelast]; split_and!; try reflexivity; try (by intros ? ->).
  - intros ->. apply removelast_last.
  - done.
Qed.
End CatchProps.

Module Sample.
(** A function that logs and panics. *)
Definition failing (f : FuncValue ValueRef) : Effect ValueRef := update (push_log "called");; throw "no".
Definition func : FuncValue ValueRef := MkFunc 1 0 (ref_list []) "f" "" false None.
Definition call_args : ValueRef := ref_list [Ref (func_value func)].
Definition debugging : Context := set_debug_mode 1 Context_new.
End Sample.

Example catch_contains_witness :
  get_call_arg (HP := {| overflow_checks := false |}) Sample.call_args (ref_dict []) 0 (Some "func") = Ok (Some (Ref (func_value Sample.func))) ∧
  ∃ v c, kcl_runtime_catch (HP := {| overflow_checks := false |}) Sample.failing (λ _, "") Sample.call_args (ref_dict []) Context_new = (Ok v, c) ∧
    v = ref_str "no" ∧ panic_info c = panic_info Context_new ∧ log_message c = "called".
Proof.
  assert (get_call_arg (HP := {| overflow_checks := false |}) Sample.call_args (ref_dict []) 0 (Some "func") =
    Ok (Some (Ref (func_value Sample.func)))) as Ha by reflexivity.
  split; [exact Ha|].
  destruct (catch_contains (HP := {| overflow_checks := false |}) Sample.failing (λ _, "") Sample.call_args (ref_dict []) Sample.func Context_new
    (Panic (PanicMsg "no")) (push_log "called" Context_new) Ha eq_refl) as (v & c & H & _ & Hv & Hi & Hl & _).
  exists v, c. split; [exact H|split; [exact (Hv _ eq_refl)|split; [exact Hi|exact Hl]]].
Defined.

(** In debug mode the name of the function stays in the panic information. *)
Example catch_keeps_function :
  kcl_func (panic_info (kcl_runtime_catch (HP := {| overflow_checks := false |}) Sample.failing (λ _, "") Sample.call_args (ref_dict [])
    Sample.debugging).2) = "f" ∧ kcl_func (panic_info Sample.debugging) = "kcl_main".
Proof. split; reflexivity. Qed.
(** A deprecated attribute that is not used is reported in the warning all the same. *)
Example unused_deprecation_warned :
  let d := MkDecorator "deprecated" (ref_list []) (ref_dict [("strict", ref_bool false)]) in
  message (panic_info (run_decorator d "a" false (ref_dict []) (ref_dict []) Context_new).2) = "a was deprecated ".
Proof. reflexivity. Qed.
(** The message starts with a comma when only a reason is given. *)
Example reason_only : deprecation (ref_dict [("reason", ref_str "old")]) = ", old".
Proof. reflexivity. Qed.
