(* ===== verification/Format.v ===== *)
(** * Format strings

    [value/val_fmt.rs]: the format specifiers, the formatting of integers and floats
    with them, and the templates of [format]; [str_format] of [value/val_str.rs].
    The formatting of floats by the Standard Library with a number of digits, which
    is exact and rounds to even, is in [FloatText]. *)

From stdpp Require Import base tactics list strings numbers pretty.
From Stdlib Require Import ZArith Lia Ascii.
From Stdlib Require Import Floats.SpecFloat.
From S2P Require Import Prelude MachineInt IndexMap Str Float64 Value ListOps DictOps Builtin Display Args StrMethods.
Local Open Scope nat_scope.
Local Set Warnings "-clear-no-such-hyp".

(** [format!("{:.p$}", f)], [{:.p$e}], [{:e}], [{:.1?}] and [{}] of a float that is not negative. *)
Class FloatText := {
  text_fixed : nat → f64 → string;
  text_exp : nat → f64 → string;
  text_shortest_exp : f64 → string;
  text_debug_1 : f64 → string;
  text_display : f64 → string }.

Inductive Case := Lower | Upper.
Inductive FormatPreconversor := PreStr | PreRepr | PreAscii | PreBytes.
Inductive FormatAlign := Left | Right | AfterSign | Center.
Inductive FormatSign := Plus | Minus | MinusOrSpace.
Inductive FormatGrouping := Comma | Underscore.
Inductive FormatType :=
  | TString | Binary | Character | Decimal | Octal | HexLower | HexUpper | Number | ExponentLower | ExponentUpper
  | GeneralFormatLower | GeneralFormatUpper | FixedPointLower | FixedPointUpper | Percentage.
Record FormatSpec := MkSpec {
  preconversor : option FormatPreconversor;
  fill : option string;
  align : option FormatAlign;
  sign : option FormatSign;
  alternate_form : bool;
  width : option Z;
  grouping_option : option FormatGrouping;
  precision : option Z;
  format_type : option FormatType }.

(** ** Reading a specifier

    The characters that matter are ASCII, so that the first byte tells the first
    character and what follows it is the rest. *)

Definition pre_from_char (c : ascii) : option FormatPreconversor :=
  match c with
  | "s" => Some PreStr | "r" => Some PreRepr | "a" => Some PreAscii | "b" => Some PreBytes | _ => None
  end%char.
Definition parse_preconversor (text : string) : option FormatPreconversor * string :=
  match text with
  | String "!" (String c rest) =>
      match pre_from_char c with Some p => (Some p, rest) | None => (None, text) end
  | _ => (None, text)
  end%char.
Definition align_from_char (c : ascii) : option FormatAlign :=
  match c with
  | "<" => Some Left | ">" => Some Right | "=" => Some AfterSign | "^" => Some Center | _ => None
  end%char.
Definition parse_align (text : string) : option FormatAlign * string :=
  match text with
  | String c rest => match align_from_char c with Some a => (Some a, rest) | None => (None, text) end
  | EmptyString => (None, text)
  end.
Definition parse_fill_and_align (text : string) : option string * option FormatAlign * string :=
  match chars text with
  | [] => (None, None, text)
  | [_] => let '(maybe_align, remaining) := parse_align text in (None, maybe_align, remaining)
  | c :: _ =>
      match parse_align (str_drop (slen c) text) with
      | (Some a, remaining) => (Some c, Some a, remaining)
      | (None, _) => let '(only_align, remaining) := parse_align text in (None, only_align, remaining)
      end
  end.
Definition is_digit (a : ascii) : bool := let n := nat_of_ascii a in Nat.leb 48 n && Nat.leb n 57.
Fixpoint get_num_digits (text : string) : nat :=
  match text with
  | String a rest => if is_digit a then S (get_num_digits rest) else 0
  | EmptyString => 0
  end.
(** What reads a part of a specifier: an error, or the part and what is left. *)
Definition parse_number (text : string) : string + (option Z * string) :=
  let num_digits := get_num_digits text in
  if Nat.eqb num_digits 0 then inr (None, text)
  else
    match parse_usize (str_take num_digits text) with
    | Some num => inr (Some num, str_drop num_digits text)
    | None => inl "Too many decimal digits in format string"
    end.
Definition parse_sign (text : string) : option FormatSign * string :=
  match text with
  | String "-" rest => (Some Minus, rest)
  | String "+" rest => (Some Plus, rest)
  | String " " rest => (Some MinusOrSpace, rest)
  | _ => (None, text)
  end%char.
Definition parse_alternate_form (text : string) : bool * string :=
  match text with String "#" rest => (true, rest) | _ => (false, text) end%char.
Definition parse_zero (text : string) : bool * string :=
  match text with String "0" rest => (true, rest) | _ => (false, text) end%char.
Definition parse_precision (text : string) : string + (option Z * string) :=
  match text with
  | String "." rest =>
      match parse_number rest with
      | inl e => inl e
      | inr (Some size, remaining) => inr (Some size, remaining)
      | inr (None, _) => inr (None, text)
      end
  | _ => inr (None, text)
  end%char.
Definition parse_grouping_option (text : string) : option FormatGrouping * string :=
  match text with
  | String "_" rest => (Some Underscore, rest)
  | String "," rest => (Some Comma, rest)
  | _ => (None, text)
  end%char.
Definition type_from_char (c : ascii) : option FormatType :=
  match c with
  | "s" => Some TString | "b" => Some Binary | "c" => Some Character | "d" => Some Decimal | "o" => Some Octal
  | "x" => Some HexLower | "X" => Some HexUpper | "e" => Some ExponentLower | "E" => Some ExponentUpper
  | "f" => Some FixedPointLower | "F" => Some FixedPointUpper | "g" => Some GeneralFormatLower
  | "G" => Some GeneralFormatUpper | "n" => Some Number | "%" => Some Percentage | _ => None
  end%char.
Definition parse_format_type (text : string) : option FormatType * string :=
  match text with
  | String c rest => match type_from_char c with Some t => (Some t, rest) | None => (None, text) end
  | EmptyString => (None, text)
  end.
Definition parse_format_spec (text : string) : string + FormatSpec :=
  let '(preconversor, after_preconversor) := parse_preconversor text in
  let '(fill, align, after_align) := parse_fill_and_align after_preconversor in
  let '(sign, after_sign) := parse_sign after_align in
  let '(alternate_form, after_alternate_form) := parse_alternate_form after_sign in
  let '(zero, after_zero) := parse_zero after_alternate_form in
  match parse_number after_zero with
  | inl e => inl e
  | inr (width, after_width) =>
      let '(grouping_option, after_grouping_option) := parse_grouping_option after_width in
      match parse_precision after_grouping_option with
      | inl e => inl e
      | inr (precision, after_precision) =>
          let '(format_type, after_format_type) := parse_format_type after_precision in
          if negb (str_is_empty after_format_type) then inl "Invalid format specifier"
          else
            let zero_fill := zero && match fill with None => true | Some _ => false end in
            inr (MkSpec preconversor (if zero_fill then Some "0" else fill)
                   (if zero_fill then match align with Some a => Some a | None => Some AfterSign end else align)
                   sign alternate_form width grouping_option precision format_type)
      end
  end.

(** ** Formatting numbers *)

Section Numbers.
Context {HP : Profile} {HF : FloatText}.

(** A result, an error, or a panic. *)
Abbreviation Formatted := (Res (string + string)).

Definition compute_fill_string (fill_char : string) (fill_chars_needed : Z) : string :=
  str_repeat (Z.to_nat fill_chars_needed) fill_char.
(** [remaining] bytes follow. *)
Fixpoint separated (interval : nat) (separator : string) (l : list string) (remaining : nat) : string :=
  match l with
  | [] => EmptyString
  | c :: l =>
      let remaining := remaining - 1 in
      c +:+ (if Nat.eqb (remaining mod interval) 0 && Nat.ltb 0 remaining then separator else EmptyString) +:+
      separated interval separator l remaining
  end.
Definition add_magnitude_separators_for_char (magnitude_string : string) (interval : nat) (separator : string) : string :=
  match splitn 2 "." magnitude_string with
  | [int; part] => separated interval separator (chars int) (slen int) +:+ "." +:+ part
  | int :: _ => separated interval separator (chars int) (slen int)
  | [] => EmptyString
  end.
Definition get_separator_interval (self : FormatSpec) : Res nat :=
  match format_type self with
  | Some (Binary | Octal | HexLower | HexUpper) => Ok 4
  | Some (Decimal | Number | FixedPointLower | FixedPointUpper) | None => Ok 3
  | _ => Panic (PanicMsg "Separators only valid for numbers!")
  end.
Definition add_magnitude_separators (self : FormatSpec) (magnitude_string : string) : Res string :=
  match grouping_option self with
  | Some g =>
      interval ← get_separator_interval self;
      Ok (add_magnitude_separators_for_char magnitude_string interval
            match g with Comma => "," | Underscore => "_" end)
  | None => Ok magnitude_string
  end.

(** The width is cut to 32 bits before the lengths are taken off. *)
Definition fill_needed (self : FormatSpec) (magnitude_string sign_str : string) : Res Z :=
  match width self with
  | Some w =>
      a ← arith 32 (as_i32 w - as_i32 (Z.of_nat (slen magnitude_string)));
      b ← arith 32 (a - as_i32 (Z.of_nat (slen sign_str)));
      Ok (Z.max 0 b)
  | None => Ok 0%Z
  end.
Definition format_sign_and_align (self : FormatSpec) (magnitude_string sign_str : string) : Formatted :=
  let fill_char := default " " (fill self) in
  fill_chars_needed ← fill_needed self magnitude_string sign_str;
  Ok (inr match default Right (align self) with
          | Left => sign_str +:+ magnitude_string +:+ compute_fill_string fill_char fill_chars_needed
          | Right => compute_fill_string fill_char fill_chars_needed +:+ sign_str +:+ magnitude_string
          | AfterSign => sign_str +:+ compute_fill_string fill_char fill_chars_needed +:+ magnitude_string
          | Center =>
              let left := (fill_chars_needed / 2)%Z in
              compute_fill_string fill_char left +:+ sign_str +:+ magnitude_string +:+
              compute_fill_string fill_char (fill_chars_needed - left)
          end).
Definition sign_text (self : FormatSpec) (negative : bool) : string :=
  if negative then "-"
  else match default Minus (sign self) with Plus => "+" | Minus => "" | MinusOrSpace => " " end.

(** *** Floats *)

Definition f_abs (f : f64) : f64 := SFabs f.
Definition f_is_finite (f : f64) : bool := match f with S754_zero _ | S754_finite _ _ _ => true | _ => false end.
(** [f.round()]: the nearest integer, away from zero from halfway. *)
Definition f_round (f : f64) : f64 :=
  match f with
  | S754_finite s m e =>
      if (0 <=? e)%Z then f
      else binary_normalize 53 1024 (signed s ((2 * Zpos m + 2 ^ (- e)) / 2 ^ (- e + 1))) 0 s
  | _ => f
  end.
Definition f64_EPSILON : f64 := f_of_mant 1 (-52).

Fixpoint remove_trailing_zeros_chars (l : list ascii) : list ascii :=
  match l with
  | c :: l' => if Ascii.eqb c "0" then remove_trailing_zeros_chars l' else l
  | [] => []
  end.
Definition remove_trailing_zeros (s : string) : string :=
  String.string_of_list_ascii (reverse (remove_trailing_zeros_chars (reverse (String.list_ascii_of_string s)))).
Definition remove_trailing_decimal_point (s : string) : string :=
  if ends_with "." s then str_take (slen s - 1) s else s.
Definition remove_trailing_redundant_chars (s : string) : string :=
  if str_contains "." s then remove_trailing_decimal_point (remove_trailing_zeros s) else s.
Definition format_nan (case : Case) : string := match case with Lower => "nan" | Upper => "NAN" end.
Definition format_inf (case : Case) : string := match case with Lower => "inf" | Upper => "INF" end.
Definition format_special (magnitude : f64) (case : Case) : string :=
  if f_is_nan magnitude then format_nan case else format_inf case.
Definition format_fixed (precision : Z) (magnitude : f64) (case : Case) : string :=
  if f_is_finite magnitude then text_fixed (Z.to_nat precision) magnitude else format_special magnitude case.
Definition is_integer (v : f64) : bool := f_lt (f_abs (f_sub v (f_round v))) f64_EPSILON.
(** [{exponent:+#03}] *)
Definition exponent_text (exponent : Z) : string :=
  let digits := pretty (Z.abs exponent) in
  (if (exponent <? 0)%Z then "-" else "+") +:+ str_repeat (2 - slen digits) "0" +:+ digits.
(** The number after the letter of a text that has one. *)
Definition split_exponent (lit : string) : Res (string * Z) :=
  match splitn 2 "e" lit with
  | [base; exponent] => exponent ← unwrap (signed_digits 10 exponent); Ok (base, exponent)
  | _ => Panic UnwrapNone
  end.
Definition float_to_string (value : f64) : Res string :=
  let lit := text_shortest_exp value in
  if str_contains "e" lit then
    r ← split_exponent lit;
    Ok (if (r.2 <? 16)%Z && (-5 <? r.2)%Z then
          (if is_integer value then text_debug_1 value else text_display value)
        else r.1 +:+ "e" +:+ exponent_text r.2)
  else Ok (text_display value).
Definition letter_e (case : Case) : string := match case with Lower => "e" | Upper => "E" end.
Definition format_general (precision : Z) (magnitude : f64) (case : Case) : Res string :=
  if f_is_finite magnitude then
    r ← split_exponent (text_exp (Z.to_nat (precision - 1)) magnitude);
    if ((r.2 <? -4) || (as_i64 precision <=? r.2))%Z then
      let base := remove_trailing_redundant_chars (str_concat (take (Z.to_nat (precision + 1)) (chars r.1))) in
      Ok (base +:+ letter_e case +:+ exponent_text r.2)
    else Ok (remove_trailing_redundant_chars (text_fixed (Z.to_nat (as_i64 precision - 1 - r.2)) magnitude))
  else Ok (format_special magnitude case).
Definition format_exponent (precision : Z) (magnitude : f64) (case : Case) : Res string :=
  if f_is_finite magnitude then
    r ← split_exponent (text_exp (Z.to_nat precision) magnitude);
    Ok (r.1 +:+ letter_e case +:+ exponent_text r.2)
  else Ok (format_special magnitude case).

Definition unknown_code (code kind : string) : Formatted :=
  Ok (inl ("Unknown format code '" +:+ code +:+ "' for object of type '" +:+ kind +:+ "'")).
Definition raw_float (self : FormatSpec) (magnitude : f64) : Formatted :=
  let precision := default 6%Z (precision self) in
  let general := if (precision =? 0)%Z then 1%Z else precision in
  let done (s : Res string) : Formatted := s ← s; Ok (inr s) in
  match format_type self with
  | Some FixedPointUpper => done (Ok (format_fixed precision magnitude Upper))
  | Some FixedPointLower => done (Ok (format_fixed precision magnitude Lower))
  | Some Decimal => unknown_code "d" "float"
  | Some Binary => unknown_code "b" "float"
  | Some Octal => unknown_code "o" "float"
  | Some HexLower => unknown_code "x" "float"
  | Some HexUpper => unknown_code "X" "float"
  | Some TString => unknown_code "s" "float"
  | Some Character => unknown_code "c" "float"
  | Some Number => Ok (inl "Format code 'n' for object of type 'float' not implemented yet")
  | Some GeneralFormatUpper => done (format_general general magnitude Upper)
  | Some GeneralFormatLower => done (format_general general magnitude Lower)
  | Some ExponentUpper => done (format_exponent precision magnitude Upper)
  | Some ExponentLower => done (format_exponent precision magnitude Lower)
  | Some Percentage =>
      done (Ok (if f_is_nan magnitude then "nan%"
                else if f_is_finite magnitude
                then text_fixed (Z.to_nat precision) (f_mul magnitude (f_of_int 100)) +:+ "%" else "inf%"))
  | None =>
      if f_is_nan magnitude then done (Ok "nan")
      else if f_is_finite magnitude then done (float_to_string magnitude) else done (Ok "inf")
  end.
Definition f_sign_negative (f : f64) : bool :=
  match f with S754_zero s | S754_infinity s | S754_finite s _ _ => s | S754_nan => false end.
Definition format_float (self : FormatSpec) (num : f64) : Formatted :=
  raw ← raw_float self (f_abs num);
  match raw with
  | inl e => Ok (inl e)
  | inr raw_magnitude_string =>
      magnitude_string ← add_magnitude_separators self raw_magnitude_string;
      format_sign_and_align self magnitude_string (sign_text self (f_sign_negative num && negb (f_is_nan num)))
  end.

(** *** Integers *)

(** The absolute value, which overflows on the least integer. *)
Definition magnitude_of (num : Z) : Res Z := arith 64 (Z.abs num).
(** [{:b}] and the like print the two's complement. *)
Definition radix_text (base magnitude : Z) : string := digits_in base (wrap_uint 64 magnitude).
Fixpoint make_ascii_uppercase (s : string) : string :=
  match s with
  | EmptyString => EmptyString
  | String a s =>
      let n := nat_of_ascii a in
      String (if Nat.leb 97 n && Nat.leb n 122 then ascii_of_nat (n - 32) else a) (make_ascii_uppercase s)
  end.
Definition int_prefix (self : FormatSpec) : string :=
  if alternate_form self then
    match format_type self with
    | Some Binary => "0b" | Some Octal => "0o" | Some (HexLower | HexUpper) => "0x" | _ => ""
    end
  else "".
Definition raw_int (self : FormatSpec) (num magnitude : Z) : Formatted :=
  match format_type self with
  | Some Binary => Ok (inr (radix_text 2 magnitude))
  | Some Octal => Ok (inr (radix_text 8 magnitude))
  | Some HexLower => Ok (inr (radix_text 16 magnitude))
  | Some HexUpper => Ok (inr (make_ascii_uppercase (radix_text 16 magnitude)))
  | Some (Decimal | Number) | None => Ok (inr (pretty magnitude))
  | Some TString => unknown_code "s" "int"
  | Some Character => unknown_code "c" "int"
  | Some GeneralFormatUpper => unknown_code "G" "int"
  | Some GeneralFormatLower => unknown_code "g" "int"
  | Some (FixedPointUpper | FixedPointLower | ExponentUpper | ExponentLower | Percentage) =>
      format_float self (f_of_int num)
  end.
Definition format_int (self : FormatSpec) (num : Z) : Formatted :=
  magnitude ← magnitude_of num;
  raw ← raw_int self num magnitude;
  match raw with
  | inl e => Ok (inl e)
  | inr raw_magnitude_string =>
      magnitude_string ← add_magnitude_separators self raw_magnitude_string;
      format_sign_and_align self (int_prefix self +:+ magnitude_string) (sign_text self (num <? 0)%Z)
  end.

Definition to_string_with_spec (f64_to_string : f64 → string) (self : ValueRef) (spec : string) : Res string :=
  let formatted (format : FormatSpec → Formatted) : Res string :=
    match parse_format_spec spec with
    | inl err => Panic (PanicMsg err)
    | inr format_spec =>
        r ← format format_spec; match r with inr s => Ok s | inl err => Panic (PanicMsg err) end
    end in
  match rc self with
  | int_value v => formatted (λ s, format_int s v)
  | float_value v => formatted (λ s, format_float s v)
  | _ => Ok (to_string f64_to_string self)
  end.
End Numbers.

(** ** Templates *)

Inductive FormatParseError :=
  | UnmatchedBracket | MissingStartBracket | UnescapedStartBracketInLiteral | InvalidFormatSpecifier
  | EmptyAttribute | MissingRightBracket | InvalidCharacterAfterRightBracket.
Inductive FieldNamePart := Attribute (s : string) | Index (i : Z) | StringIndex (s : string).
Inductive FieldType := Auto | FieldIndex (i : Z) | Keyword (s : string).
Record FieldName := MkFieldName { field_type : FieldType; name_parts : list FieldNamePart }.
Inductive FormatPart := Field (field_name format_spec : string) | Literal (s : string).

(** The characters up to the first [.] or [\[], and the rest. *)
Fixpoint take_name (s : string) : string * string :=
  match s with
  | EmptyString => (EmptyString, EmptyString)
  | String a s' =>
      if Ascii.eqb a "." || Ascii.eqb a "[" then (EmptyString, s)
      else let '(name, rest) := take_name s' in (String a name, rest)
  end.
(** The characters up to the first [\]], and what follows it. *)
Fixpoint take_index (s : string) : option (string * string) :=
  match s with
  | EmptyString => None
  | String a s' =>
      if Ascii.eqb a "]" then Some (EmptyString, s')
      else match take_index s' with Some (index, rest) => Some (String a index, rest) | None => None end
  end.
Definition parse_part (s : string) : FormatParseError + option (FieldNamePart * string) :=
  match s with
  | EmptyString => inr None
  | String "." s =>
      let '(attribute, rest) := take_name s in
      if str_is_empty attribute then inl EmptyAttribute else inr (Some (Attribute attribute, rest))
  | String "[" s =>
      match take_index s with
      | None => inl MissingRightBracket
      | Some (index, rest) =>
          if str_is_empty index then inl EmptyAttribute
          else match parse_usize index with
               | Some i => inr (Some (Index i, rest))
               | None => inr (Some (StringIndex index, rest))
               end
      end
  | _ => inl InvalidCharacterAfterRightBracket
  end%char.
Fixpoint parse_parts (fuel : nat) (s : string) (parts : list FieldNamePart) : FormatParseError + list FieldNamePart :=
  match fuel with
  | O => inr parts
  | S fuel =>
      match parse_part s with
      | inl e => inl e
      | inr None => inr parts
      | inr (Some (part, rest)) => parse_parts fuel rest (parts ++ [part])
      end
  end.
Definition parse_field_name (text : string) : FormatParseError + FieldName :=
  let '(first, rest) := take_name text in
  let field_type :=
    if str_is_empty first then Auto
    else match parse_usize first with Some i => FieldIndex i | None => Keyword first end in
  match parse_parts (S (slen rest)) rest [] with inl e => inl e | inr parts => inr (MkFieldName field_type parts) end.

(** A literal up to a bracket that is not doubled, and what is left. *)
Fixpoint parse_literal (text result : string) : FormatParseError + (FormatPart * string) :=
  let stop := if str_is_empty result then inl UnescapedStartBracketInLiteral else inr (Literal result, text) in
  match text with
  | EmptyString => inr (Literal result, EmptyString)
  | String a rest =>
      if Ascii.eqb a "{" || Ascii.eqb a "}" then
        match rest with
        | String b rest' => if Ascii.eqb b a then parse_literal rest' (result +:+ String a "") else stop
        | EmptyString => stop
        end
      else parse_literal rest (result +:+ String a "")
  end.
Definition parse_part_in_brackets (text : string) : FormatPart :=
  match splitn 2 ":" text with
  | arg_part :: parts =>
      Field (default EmptyString (head (splitn 2 "!" arg_part))) (default EmptyString (head parts))
  | [] => Field EmptyString EmptyString
  end.
(** The characters from the [idx]-th on: an error, or those in the brackets and the
    number of the closing one, if there is one. *)
Fixpoint scan_spec (idx : nat) (l : list string) (nested : bool) (inner : string)
    : FormatParseError + (string * option nat) :=
  match l with
  | [] => inr (inner, None)
  | c :: l =>
      if Nat.eqb idx 0 then
        if bool_decide (c = "{") then scan_spec (S idx) l nested inner else inl MissingStartBracket
      else if bool_decide (c = "{") then
        if nested then inl InvalidFormatSpecifier else scan_spec (S idx) l true (inner +:+ c)
      else if bool_decide (c = "}") then
        if nested then scan_spec (S idx) l false (inner +:+ c) else inr (inner, Some idx)
      else scan_spec (S idx) l nested (inner +:+ c)
  end.
(** The number of the bracket counts characters, but the text is split at it as an
    offset in bytes. *)
Definition parse_spec (text : string) : Res (FormatParseError + (FormatPart * string)) :=
  match scan_spec 0 (chars text) false EmptyString with
  | inl e => Ok (inl e)
  | inr (_, None) => Ok (inl UnmatchedBracket)
  | inr (inner, Some pos) =>
      if is_char_boundary text pos && is_char_boundary (str_drop pos text) 1
      then Ok (inr (parse_part_in_brackets inner, str_drop 1 (str_drop pos text)))
      else Panic CharBoundary
  end.
Definition parse_one (text : string) : Res (FormatParseError + (FormatPart * string)) :=
  match parse_literal text EmptyString with inr r => Ok (inr r) | inl _ => parse_spec text end.
(** Every part takes a character. *)
Fixpoint from_template (fuel : nat) (cur_text : string) (parts : list FormatPart) : Res (FormatParseError + list FormatPart) :=
  if str_is_empty cur_text then Ok (inr parts)
  else
    match fuel with
    | O => Panic AssertionFailed
    | S fuel =>
        r ← parse_one cur_text;
        match r with
        | inl e => Ok (inl e)
        | inr (part, new_text) => from_template fuel new_text (parts ++ [part])
        end
    end.
Definition FormatString_from_str (text : string) : Res (FormatParseError + list FormatPart) :=
  from_template (slen text) text [].

Section Templates.
Context {HP : Profile} {HF : FloatText}.
Variable f64_to_string : f64 → string.

Definition expect {A} (o : option A) : Res A := match o with Some a => Ok a | None => Panic ExpectFailed end.
Definition field_argument (auto_argument_index : nat) (field_type : FieldType) (args kwargs : ValueRef)
    : Res (ValueRef * nat) :=
  match field_type with
  | Auto => v ← expect (arg_i args auto_argument_index); Ok (v, S auto_argument_index)
  | FieldIndex index =>
      if negb (Nat.eqb auto_argument_index 0) then
        Panic (PanicMsg "cannot switch from automatic field numbering to manual field specification")
      else v ← expect (arg_i args (Z.to_nat index)); Ok (v, auto_argument_index)
  | Keyword keyword =>
      match dict_get_value kwargs keyword with
      | Some v => Ok (v, auto_argument_index)
      | None => Panic (PanicMsg ("keyword argument '" +:+ keyword +:+ "' not found"))
      end
  end.
Definition load_part (argument : ValueRef) (name_part : FieldNamePart) : Res ValueRef :=
  match name_part with
  | Attribute attr => unwrap (dict_get_value argument attr)
  | Index index => v ← list_get argument (as_i64 index); unwrap v
  | StringIndex value => unwrap (dict_get_value argument value)
  end.
Fixpoint load_parts (argument : ValueRef) (parts : list FieldNamePart) : Res ValueRef :=
  match parts with
  | [] => Ok argument
  | part :: parts => argument ← load_part argument part; load_parts argument parts
  end.
Fixpoint format_parts (parts : list FormatPart) (auto_argument_index : nat) (args kwargs : ValueRef) : Res string :=
  match parts with
  | [] => Ok EmptyString
  | Field field_name format_spec :: parts =>
      match parse_field_name field_name with
      | inl _ => Panic UnwrapNone
      | inr name =>
          argument ← field_argument auto_argument_index (field_type name) args kwargs;
          value ← load_parts argument.1 (name_parts name);
          s ← to_string_with_spec f64_to_string value format_spec;
          rest ← format_parts parts argument.2 args kwargs;
          Ok (s +:+ rest)
      end
  | Literal literal :: parts => rest ← format_parts parts auto_argument_index args kwargs; Ok (literal +:+ rest)
  end.
Definition str_format (self args kwargs : ValueRef) : Res ValueRef :=
  match rc self, rc args with
  | str_value v, list_value _ =>
      r ← FormatString_from_str v;
      match r with
      | inr format_string => s ← format_parts format_string 0 args kwargs; Ok (ref_str s)
      | inl _ => Panic (PanicMsg "format error")
      end
  | _, _ => Panic (PanicMsg "Invalid str object in str_format")
  end.
Definition kcl_builtin_str_format (args kwargs : ValueRef) : Res ValueRef :=
  member "str_format" args (λ val args, str_format val args kwargs).
End Templates.
