(* ===== verification/FormatProps.v ===== *)
(** * What format strings print

    The integer that [format_int] of [Format] prints is read back from it, and the
    width, the alignment and the groups of digits are those asked for; a template
    that is printed from its parts is read back as those parts. *)

From stdpp Require Import base tactics list strings numbers pretty.
From Stdlib Require Import ZArith Lia Ascii.
From S2P Require Import Prelude MachineInt IndexMap Str Float64 Value ListOps DictOps Units Builtin Display Args StrMethods Format.
Local Open Scope nat_scope.
Local Set Warnings "-clear-no-such-hyp".

(** ** Strings of digits *)

(** Every byte is a digit or a letter, so that it is a character. *)
Definition alnum (s : string) : bool := forallb (λ a, is_some (alnum_value a)) (String.list_ascii_of_string s).

Lemma radix_value_alnum base s : ∀ acc v, radix_value base s acc = Some v → alnum s = true.
Proof.
  unfold alnum. induction s as [|a s IH]; intros acc v; cbn [radix_value]; [done|].
  cbn [String.list_ascii_of_string forallb]. destruct (alnum_value a) as [d|] eqn:E; [|done]. cbn [mbind option_bind is_some andb].
  destruct (_ <? _)%Z; [|done]. apply IH.
Qed.
Lemma alnum_byte a : is_some (alnum_value a) = true → is_cont a = false ∧ a ≠ "."%char.
Proof. destruct a as [[] [] [] [] [] [] [] []]; vm_compute; intros; done. Qed.
Lemma alnum_chars s : alnum s = true → chars s = (λ a, String a EmptyString) <$> String.list_ascii_of_string s.
Proof.
  unfold alnum. induction s as [|a s IH]; [done|]. cbn [String.list_ascii_of_string forallb]. intros [Ha Hs]%andb_true_iff.
  cbn [chars fmap list_fmap]. rewrite IH by done. destruct s as [|b s]; [done|]. cbn [String.list_ascii_of_string fmap list_fmap].
  cbn [String.list_ascii_of_string forallb] in Hs. apply andb_true_iff in Hs as [Hb _]. by rewrite (proj1 (alnum_byte b Hb)).
Qed.
Lemma alnum_no_dot s : ∀ i, alnum s = true → left_matches 0 i "." s = [].
Proof.
  unfold alnum. induction s as [|a s IH]; intros i; [done|]. cbn [String.list_ascii_of_string forallb].
  intros [Ha Hs]%andb_true_iff. cbn [left_matches].
  assert (starts_with "." (String a s) = false) as ->.
  { cbn [starts_with]. destruct (ascii_dec "." a) as [<-|]; [by apply alnum_byte in Ha as []|].
    destruct (Ascii.eqb_spec "." a); [done|]. reflexivity. }
  by apply IH.
Qed.
Lemma alnum_split s : alnum s = true → splitn 2 "." s = [s].
Proof. intros Hs. unfold splitn, match_indices. cbn [str_is_empty bool_decide]. by rewrite alnum_no_dot. Qed.

(** The text of a magnitude is its value in the base. *)
Definition base_of (t : option FormatType) : Z :=
  match t with Some Binary => 2 | Some Octal => 8 | Some (HexLower | HexUpper) => 16 | _ => 10 end.
Definition int_type (t : option FormatType) : bool :=
  match t with Some (Binary | Octal | HexLower | HexUpper | Decimal | Number) | None => true | _ => false end.

Lemma digits_value_radix s : ∀ acc v, digits_value s acc = Some v → radix_value 10 s acc = Some v.
Proof.
  induction s as [|a s IH]; intros acc v; cbn [digits_value radix_value]; [done|].
  destruct (digit_of a) as [d|] eqn:E; [|done]. cbn [mbind option_bind].
  assert (alnum_value a = Some d ∧ (d < 10)%Z) as [-> Hd].
  { revert E. destruct a as [[] [] [] [] [] [] [] []]; vm_compute; intros E; first [discriminate E|injection E as <-; done]. }
  cbn [mbind option_bind]. destruct (Z.ltb_spec d 10); [|lia]. apply IH.
Qed.
Lemma uppercase_radix base s : ∀ acc, radix_value base (make_ascii_uppercase s) acc = radix_value base s acc.
Proof.
  induction s as [|a s IH]; intros acc; [done|]. cbn [make_ascii_uppercase radix_value].
  assert (alnum_value (if Nat.leb 97 (nat_of_ascii a) && Nat.leb (nat_of_ascii a) 122
    then ascii_of_nat (nat_of_ascii a - 32) else a) = alnum_value a) as ->.
  { destruct a as [[] [] [] [] [] [] [] []]; reflexivity. }
  destruct (alnum_value a); [|done]. cbn [mbind option_bind]. destruct (_ <? _)%Z; [apply IH|done].
Qed.
Lemma radix_text_value base n : (2 ≤ base ≤ 36)%Z → (0 ≤ n < 2 ^ 63)%Z → radix_value base (radix_text base n) 0 = Some n.
Proof.
  intros Hb Hn. unfold radix_text, wrap_uint. rewrite Z.mod_small by lia. unfold digits_in. rewrite radix_digits_onto; [done|done| |lia].
  split; [lia|]. apply (Z.lt_le_trans _ (2 ^ 64)); [lia|]. apply Z.pow_le_mono_l. lia.
Qed.
Lemma pretty_value n : (0 ≤ n)%Z → radix_value 10 (pretty n) 0 = Some n.
Proof.
  intros Hn. apply digits_value_radix. destruct n as [|p|p]; [reflexivity| |lia].
  exact (proj1 (pretty_N_digits (N.pos p))).
Qed.

(** ** Groups of digits *)

Lemma list_ascii_length s : length (String.list_ascii_of_string s) = slen s.
Proof. induction s as [|a s IH]; cbn; [done|]. by rewrite IH. Qed.

(** The bytes of [s] in groups of [k], the first of which may be shorter. *)
Definition grouped (k : nat) (groups : list string) : Prop :=
  match groups with
  | [] => False
  | g :: gs => 0 < slen g ≤ k ∧ Forall (λ g, slen g = k) gs
  end.
Lemma str_concat_single l : str_concat ((λ a, String a EmptyString) <$> l) = String.string_of_list_ascii l.
Proof. induction l as [|a l IH]; [done|]. cbn [fmap list_fmap str_concat foldr String.string_of_list_ascii String.append] in *. by f_equal. Qed.
Lemma separated_groups k sep l : 0 < k → l ≠ [] → ∃ g gs,
  separated k sep ((λ a, String a EmptyString) <$> l) (length l) = join sep (g :: gs) ∧
  str_concat (g :: gs) = String.string_of_list_ascii l ∧
  slen g = (length l - 1) mod k + 1 ∧ Forall (λ g, slen g = k) gs.
Proof.
  intros Hk. induction l as [|a l IH]; [done|]. intros _. cbn [fmap list_fmap separated length].
  replace (S (length l) - 1) with (length l) by lia. destruct l as [|b l].
  { exists (String a EmptyString), []. split_and!; [|done| |by constructor].
    - cbn [length fmap list_fmap separated join]. by rewrite andb_false_r, !str_app_nil_r.
    - cbn [length String.length]. by rewrite Nat.Div0.mod_0_l. }
  destruct IH as (g & gs & -> & Hc & Hg & Hgs); [done|].
  replace (S (length (b :: l)) - 1) with (length (b :: l)) in * by lia. set (n := length (b :: l)) in *.
  assert (0 < n) as Hn by (subst n; cbn; lia).
  destruct (Nat.eqb_spec (n mod k) 0) as [E|E].
  - destruct (Nat.ltb_spec 0 n); [|lia]. cbn [andb]. exists (String a EmptyString), (g :: gs). split_and!.
    + done.
    + cbn [str_concat foldr] in Hc |- *. rewrite Hc. done.
    + rewrite E. done.
    + constructor; [|done]. rewrite Hg. pose proof (Nat.div_mod_eq n k). rewrite E in *.
      destruct (n / k) as [|q] eqn:Eq; [lia|].
      replace (n - 1) with ((k - 1) + q * k) by nia. rewrite Nat.Div0.mod_add, Nat.mod_small by lia. lia.
  - cbn [andb]. exists (String a g), gs. split_and!.
    + destruct gs; done.
    + cbn [str_concat foldr] in Hc |- *. change (String.string_of_list_ascii (a :: b :: l)) with (String a (String.string_of_list_ascii (b :: l))).
      rewrite <- Hc. done.
    + cbn [String.length]. rewrite Hg. pose proof (Nat.mod_upper_bound n k ltac:(lia)). pose proof (Nat.div_mod_eq n k).
      replace (n - 1) with ((n mod k - 1) + (n / k) * k) by nia.
      rewrite Nat.Div0.mod_add, (Nat.mod_small (n mod k - 1)) by lia. lia.
    + done.
Qed.

Definition separator_of (g : FormatGrouping) : string := match g with Comma => "," | Underscore => "_" end.
(** The digits with their separators: those of [d], in groups when they are asked for. *)
Definition body_of (spec : FormatSpec) (d body : string) : Prop :=
  match grouping_option spec with
  | None => body = d
  | Some g => ∃ groups, body = join (separator_of g) groups ∧ str_concat groups = d ∧
      grouped (match format_type spec with Some (Decimal | Number) | None => 3 | _ => 4 end) groups
  end.
Lemma separators_body spec d : int_type (format_type spec) = true → alnum d = true → d ≠ EmptyString →
  ∃ body, add_magnitude_separators spec d = Ok body ∧ body_of spec d body.
Proof.
  intros Ht Hd Hne. unfold add_magnitude_separators, body_of. destruct (grouping_option spec) as [g|]; [|by exists d].
  set (k := match format_type spec with Some (Decimal | Number) | None => 3 | _ => 4 end).
  assert (get_separator_interval spec = Ok k ∧ 0 < k) as [-> Hk].
  { unfold get_separator_interval, k. destruct (format_type spec) as [[]|]; try discriminate Ht; split; (reflexivity || lia). }
  cbn [mbind Res_bind]. unfold add_magnitude_separators_for_char. rewrite alnum_split by done.
  destruct (separated_groups k (separator_of g) (String.list_ascii_of_string d) Hk) as (g0 & gs & Hs & Hc & Hg & Hgs).
  { by destruct d. }
  eexists. split; [reflexivity|]. exists (g0 :: gs). rewrite alnum_chars by done.
  rewrite list_ascii_length in Hs.
  split_and!; [exact Hs|by rewrite Hc, String.string_of_list_ascii_of_string|].
  split; [|done]. rewrite Hg. pose proof (Nat.mod_upper_bound (length (String.list_ascii_of_string d) - 1) k). lia.
Qed.

(** ** Integers *)

(** The filling, [l], [m] and [r] characters of it before, inside and after the number. *)
Definition placed (spec : FormatSpec) (total l m r : Z) : Prop :=
  match default Right (align spec) with
  | Left => l = 0 ∧ m = 0 ∧ r = total
  | Right => l = total ∧ m = 0 ∧ r = 0
  | AfterSign => l = 0 ∧ m = total ∧ r = 0
  | Center => l = total / 2 ∧ m = 0 ∧ r = total - total / 2
  end%Z.
Definition filled (spec : FormatSpec) (n : Z) : string := compute_fill_string (default " " (fill spec)) n.

Lemma aligned `{Profile} spec body sign_str : (Z.of_nat (slen sign_str) ≤ 1)%Z → (Z.of_nat (slen body) < 2 ^ 31)%Z →
  (∀ w, width spec = Some w → 0 ≤ w < 2 ^ 31)%Z →
  ∃ l m r, format_sign_and_align spec body sign_str =
    Ok (inr (filled spec l +:+ sign_str +:+ filled spec m +:+ body +:+ filled spec r)) ∧
  placed spec (Z.max 0 (default 0 (width spec) - Z.of_nat (slen body) - Z.of_nat (slen sign_str)))%Z l m r.
Proof.
  intros Hs Hb Hw. unfold format_sign_and_align, filled.
  assert (fill_needed spec body sign_str =
    Ok (Z.max 0 (default 0 (width spec) - Z.of_nat (slen body) - Z.of_nat (slen sign_str)))%Z) as ->.
  { unfold fill_needed. destruct (width spec) as [w|]; cbn [default]; [|f_equal; lia]. specialize (Hw w eq_refl).
    rewrite !wrap_int_id by (try lia; apply in_int_spec; unfold int_min, int_max; lia).
    rewrite arith_Ok by (apply in_int_spec; unfold int_min, int_max; lia). cbn [mbind Res_bind].
    rewrite arith_Ok by (apply in_int_spec; unfold int_min, int_max; lia). done. }
  cbn [mbind Res_bind]. set (n := Z.max 0 _). unfold placed.
  destruct (default Right (align spec)); [exists 0%Z, 0%Z, n|exists n, 0%Z, 0%Z|exists 0%Z, n, 0%Z|exists (n / 2)%Z, 0%Z, (n - n / 2)%Z];
    cbn [compute_fill_string Z.to_nat str_repeat String.append]; rewrite ?str_app_nil_r; done.
Qed.

Lemma digits_onto_length base fuel : ∀ n acc, slen (digits_onto fuel base n acc) ≤ fuel + slen acc.
Proof.
  induction fuel as [|fuel IH]; intros n acc; cbn [digits_onto]; [lia|].
  destruct (_ =? 0)%Z; [cbn; lia|]. etransitivity; [apply IH|]. cbn. lia.
Qed.

Lemma pretty_N_go_length x k : ∀ s, (x < 10 ^ N.of_nat k)%N → slen (pretty_N_go x s) ≤ k + slen s.
Proof.
  revert x. induction k as [|k IH]; intros x s Hx.
  { replace x with 0%N by (cbn in Hx; lia). by rewrite pretty_N_go_0. }
  destruct (decide (x = 0)%N) as [->|Hn]; [rewrite pretty_N_go_0; lia|]. rewrite pretty_N_go_step by lia.
  etransitivity; [apply IH|cbn; lia]. apply N.Div0.div_lt_upper_bound. rewrite Nat2N.inj_succ, N.pow_succ_r' in Hx. lia.
Qed.
Lemma pretty_length n : (0 ≤ n < 2 ^ 63)%Z → slen (pretty n) ≤ 64.
Proof.
  intros Hn. destruct n as [|p|p]; [cbn; lia| |lia].
  assert (slen (pretty_N_go (N.pos p) "") ≤ 64) as H.
  { etransitivity; [apply (pretty_N_go_length _ 20)|cbn; lia]. apply (N.lt_le_trans _ (2 ^ 63)); [lia|]. apply N.leb_le. vm_compute. done. }
  change (pretty (Z.pos p)) with (pretty (N.pos p)). unfold pretty, pretty_N. by destruct (decide _).
Qed.
Lemma uppercase_length s : slen (make_ascii_uppercase s) = slen s.
Proof. induction s as [|a s IH]; cbn; [done|]. by rewrite IH. Qed.

(** What [raw_int] prints of a magnitude. *)
Lemma raw_int_digits `{Profile} `{FloatText} spec num n : int_type (format_type spec) = true → (0 ≤ n < 2 ^ 63)%Z →
  ∃ d, raw_int spec num n = Ok (inr d) ∧ radix_value (base_of (format_type spec)) d 0 = Some n ∧
    d ≠ EmptyString ∧ slen d ≤ 64.
Proof.
  intros Ht Hn.
  assert (∀ base, (2 ≤ base ≤ 36)%Z → radix_value base (radix_text base n) 0 = Some n ∧ radix_text base n ≠ EmptyString ∧
    slen (radix_text base n) ≤ 64) as Hr.
  { intros base Hb. split_and!; [by apply radix_text_value| |].
    - unfold radix_text, digits_in. destruct (digits_onto_head base 64 (wrap_uint 64 n) "" Hb ltac:(lia)) as (d & t & _ & ->). done.
    - etransitivity; [apply digits_onto_length|cbn; lia]. }
  assert (radix_value 10 (pretty n) 0 = Some n ∧ pretty n ≠ EmptyString ∧ slen (pretty n) ≤ 64) as Hp.
  { split_and!; [apply pretty_value; lia| |by apply pretty_length].
    destruct n as [|p|p]; [done| |lia]. exact (proj2 (proj2 (pretty_N_digits (N.pos p)))). }
  unfold raw_int, base_of. destruct (format_type spec) as [[]|]; try discriminate Ht; eexists; (split; [reflexivity|]);
    try (apply Hp); try (apply Hr; lia).
  rewrite uppercase_radix, uppercase_length. destruct (Hr 16%Z ltac:(lia)) as (? & Hne & ?). split_and!; try done.
  by destruct (radix_text 16 n).
Qed.

Lemma join_length sep gs : slen sep ≤ 1 → Forall (λ g, 0 < slen g) gs → slen (join sep gs) ≤ 2 * slen (str_concat gs).
Proof.
  intros Hs. induction 1 as [|g gs Hg Hgs IH]; [cbn; lia|].
  change (str_concat (g :: gs)) with (g +:+ str_concat gs). rewrite slen_app. destruct gs as [|g' gs]; [cbn [join]; lia|].
  change (join sep (g :: g' :: gs)) with (g +:+ sep +:+ join sep (g' :: gs)). rewrite !slen_app. lia.
Qed.
Lemma body_length spec d body : body_of spec d body → slen body ≤ 2 * slen d.
Proof.
  unfold body_of. destruct (grouping_option spec) as [g|]; [|intros ->; lia]. intros (gs & -> & <- & Hg).
  apply join_length; [by destruct g|]. destruct gs as [|g0 gs]; [constructor|]. destruct Hg as [Hg Hgs].
  constructor; [lia|]. eapply Forall_impl; [exact Hgs|]. intros x ->. by destruct (format_type spec) as [[]|]; cbn; lia.
Qed.
Lemma prefix_length spec : slen (int_prefix spec) ≤ 2.
Proof. unfold int_prefix. destruct (alternate_form spec); [|cbn; lia]. destruct (format_type spec) as [[]|]; cbn; lia. Qed.
Lemma sign_length spec b : (Z.of_nat (slen (sign_text spec b)) ≤ 1)%Z.
Proof. unfold sign_text. destruct b; [done|]. by destruct (default Minus (sign spec)). Qed.

(** an integer other than the least one is printed by an integer format as its
    sign, the prefix of its base and digits that stand for its absolute value in that
    base, in groups of three or four from the right when they are asked for, and filled
    up to the width as the alignment says: the text is never shorter than the width. *)
Theorem int_formatted `{Profile} `{FloatText} spec num :
  in_i64 num = true → num ≠ i64_MIN → int_type (format_type spec) = true →
  (∀ w, width spec = Some w → 0 ≤ w < 2 ^ 31)%Z →
  ∃ d body l m r,
  radix_value (base_of (format_type spec)) d 0 = Some (Z.abs num) ∧ body_of spec d body ∧
  let sign_str := sign_text spec (num <? 0)%Z in
  let number := int_prefix spec +:+ body in
  placed spec (Z.max 0 (default 0 (width spec) - Z.of_nat (slen number) - Z.of_nat (slen sign_str)))%Z l m r ∧
  format_int spec num = Ok (inr (filled spec l +:+ sign_str +:+ filled spec m +:+ number +:+ filled spec r)).
Proof.
  intros Hn Hmin Ht Hw. apply in_int_spec in Hn. unfold int_min, int_max in Hn.
  assert (0 ≤ Z.abs num < 2 ^ 63)%Z as Ha by (change i64_MIN with (- 2 ^ 63)%Z in Hmin; lia).
  destruct (raw_int_digits spec num (Z.abs num) Ht Ha) as (d & Hr & Hd & Hne & Hlen).
  destruct (separators_body spec d Ht (radix_value_alnum _ _ _ _ Hd) Hne) as (body & Hs & Hb).
  pose proof (body_length _ _ _ Hb). pose proof (prefix_length spec).
  destruct (aligned spec (int_prefix spec +:+ body) (sign_text spec (num <? 0)%Z)) as (l & m & r & Hf & Hp);
    [apply sign_length|rewrite slen_app; lia|exact Hw|].
  exists d, body, l, m, r. cbv zeta. split_and!; [done|done|exact Hp|].
  unfold format_int, magnitude_of. rewrite arith_Ok by (apply in_int_spec; unfold int_min, int_max; lia).
  cbn [mbind Res_bind]. rewrite Hr. cbn [mbind Res_bind]. rewrite Hs. exact Hf.
Qed.

(** ** Templates *)

Definition brace (a : ascii) : bool := Ascii.eqb a "{" || Ascii.eqb a "}".
(** The text of a literal, with its braces doubled. *)
Fixpoint escape_braces (s : string) : string :=
  match s with
  | EmptyString => EmptyString
  | String a s => if brace a then String a (String a (escape_braces s)) else String a (escape_braces s)
  end.
Definition print_part (part : FormatPart) : string :=
  match part with
  | Field name spec => "{" +:+ name +:+ ":" +:+ spec +:+ "}"
  | Literal s => escape_braces s
  end.
Definition print_template (parts : list FormatPart) : string := str_concat (print_part <$> parts).

(** A byte of a field: ASCII, and no brace. *)
Definition field_byte (a : ascii) : bool := Nat.ltb (nat_of_ascii a) 128 && negb (brace a).
Definition starts_char (s : string) : bool := match s with String a _ => negb (is_cont a) | EmptyString => true end.
Definition part_ok (part : FormatPart) : bool :=
  match part with
  | Field name spec =>
      forallb (λ a, field_byte a && negb (Ascii.eqb a ":") && negb (Ascii.eqb a "!")) (String.list_ascii_of_string name) &&
      forallb field_byte (String.list_ascii_of_string spec)
  | Literal s => negb (str_is_empty s) && starts_char s
  end.
(** The parts of a template: no literal follows another. *)
Fixpoint canonical (parts : list FormatPart) : bool :=
  match parts with
  | [] => true
  | part :: parts =>
      part_ok part && match part, parts with Literal _, Literal _ :: _ => false | _, _ => true end && canonical parts
  end.

Lemma field_byte_char a : field_byte a = true → is_cont a = false.
Proof. destruct a as [[] [] [] [] [] [] [] []]; vm_compute; done. Qed.
Lemma escape_starts s t : starts_char s = true → starts_char t = true → starts_char (escape_braces s +:+ t) = true.
Proof. destruct s as [|a s]; [done|]. cbn [escape_braces]. by destruct (brace a). Qed.
Lemma template_starts parts : canonical parts = true → starts_char (print_template parts) = true.
Proof.
  induction parts as [|part parts IH]; [done|]. cbn [canonical]. intros [[Hp _]%andb_true_iff Hc]%andb_true_iff.
  change (print_template (part :: parts)) with (print_part part +:+ print_template parts).
  destruct part as [n s|s]; [done|]. apply andb_true_iff in Hp as [_ Hs]. apply escape_starts; auto.
Qed.
Lemma chars_field s t : forallb (λ a, negb (is_cont a)) (String.list_ascii_of_string s) = true → starts_char t = true →
  chars (s +:+ t) = ((λ a, String a EmptyString) <$> String.list_ascii_of_string s) ++ chars t.
Proof.
  intros Hs Ht. induction s as [|a s IH]; [done|]. cbn [String.list_ascii_of_string forallb] in Hs. apply andb_true_iff in Hs as [_ Hs].
  cbn [String.append chars String.list_ascii_of_string fmap list_fmap app]. rewrite IH by done.
  destruct s as [|b s]; cbn [String.append String.list_ascii_of_string fmap list_fmap app].
  - destruct t as [|b t]; [done|]. cbn [starts_char] in Ht. apply negb_true_iff in Ht.
    destruct (chars (String b t)) eqn:E; [done|]. by rewrite Ht.
  - cbn [String.list_ascii_of_string forallb] in Hs. apply andb_true_iff in Hs as [Hb%negb_true_iff _]. by rewrite Hb.
Qed.

(** What a literal is followed by: the end or a field. *)
Definition literal_end (t : string) : bool :=
  match t with
  | EmptyString => true
  | String a (String b _) => Ascii.eqb a "{" && negb (Ascii.eqb b "{")
  | _ => false
  end.
Lemma parse_literal_escaped s t : literal_end t = true → ∀ acc, acc +:+ s ≠ EmptyString →
  parse_literal (escape_braces s +:+ t) acc = inr (Literal (acc +:+ s), t).
Proof.
  intros Ht. induction s as [|a s IH]; intros acc Hne.
  - cbn [escape_braces String.append]. rewrite str_app_nil_r in *. destruct t as [|x [|y t]]; [done|done|].
    cbn [literal_end] in Ht. apply andb_true_iff in Ht as [->%Ascii.eqb_eq Hy%negb_true_iff]. cbn [parse_literal].
    change (Ascii.eqb "{" "{") with true. cbn [orb]. rewrite Hy. unfold str_is_empty. by rewrite bool_decide_eq_false_2.
  - assert (acc +:+ String a s = (acc +:+ String a "") +:+ s) as E by (by rewrite str_app_assoc).
    assert (∀ u, (acc +:+ String a "") +:+ u ≠ EmptyString) by (intros u; by destruct acc).
    cbn [escape_braces]. unfold brace. destruct (_ || _) eqn:Hb; cbn [String.append parse_literal]; rewrite Hb.
    + rewrite Ascii.eqb_refl. rewrite IH by done. by rewrite E.
    + rewrite IH by done. by rewrite E.
Qed.

Lemma scan_field l : ∀ idx inner rest, 0 < idx → forallb field_byte l = true →
  scan_spec idx (((λ a, String a EmptyString) <$> l) ++ "}" :: rest) false inner =
  inr (inner +:+ String.string_of_list_ascii l, Some (idx + length l)).
Proof.
  induction l as [|a l IH]; intros idx inner rest Hi; cbn [fmap list_fmap app scan_spec forallb length].
  - intros _. destruct (Nat.eqb_spec idx 0); [lia|]. cbn. by rewrite str_app_nil_r, Nat.add_0_r.
  - intros [Ha Hl]%andb_true_iff. destruct (Nat.eqb_spec idx 0); [lia|].
    unfold field_byte, brace in Ha. apply andb_true_iff in Ha as [_ [Ho%Ascii.eqb_neq Hc%Ascii.eqb_neq]%negb_true_iff%orb_false_iff].
    rewrite !bool_decide_eq_false_2 by congruence. rewrite IH by (done || lia). cbn [String.string_of_list_ascii].
    by rewrite str_app_assoc, Nat.add_succ_comm.
Qed.
Lemma first_match c n t : ∀ i, forallb (λ a, negb (Ascii.eqb a c)) (String.list_ascii_of_string n) = true →
  left_matches 0 i (String c EmptyString) (n +:+ String c t) = (i + slen n) :: left_matches 0 (S (i + slen n)) (String c EmptyString) t.
Proof.
  induction n as [|a n IH]; intros i; cbn [String.list_ascii_of_string forallb String.append left_matches starts_with].
  - intros _. rewrite Ascii.eqb_refl. cbn [andb String.length]. by rewrite Nat.add_0_r.
  - intros [Ha%negb_true_iff Hn]%andb_true_iff. rewrite Ascii.eqb_sym, Ha. cbn [andb String.length]. rewrite IH by done.
    by rewrite Nat.add_succ_comm.
Qed.
Lemma splitn_first c n t : forallb (λ a, negb (Ascii.eqb a c)) (String.list_ascii_of_string n) = true →
  splitn 2 (String c EmptyString) (n +:+ String c t) = [n; t].
Proof.
  intros Hn. unfold splitn, match_indices, split_at. cbn [str_is_empty bool_decide]. rewrite first_match by done.
  rewrite Nat.add_0_l. change (str_is_empty (String c EmptyString)) with false.
  cbn [take pieces String.length]. rewrite !Nat.sub_0_r, str_take_app_slen. f_equal.
  replace (slen n + 1) with (slen (n +:+ String c "")) by (rewrite slen_app; done).
  change (n +:+ String c t) with (n +:+ (String c "" +:+ t)). rewrite <- str_app_assoc. by rewrite str_drop_app_slen.
Qed.
Lemma splitn_none c n : forallb (λ a, negb (Ascii.eqb a c)) (String.list_ascii_of_string n) = true →
  splitn 2 (String c EmptyString) n = [n].
Proof.
  intros Hn. unfold splitn, match_indices, split_at. change (str_is_empty (String c EmptyString)) with false.
  assert (∀ i, left_matches 0 i (String c EmptyString) n = []) as ->; [|done].
  induction n as [|a n IH]; intros i; [done|]. cbn [String.list_ascii_of_string forallb] in Hn.
  apply andb_true_iff in Hn as [Ha%negb_true_iff Hn]. cbn [left_matches starts_with]. rewrite Ascii.eqb_sym, Ha. cbn [andb]. by apply IH.
Qed.
Lemma forallb_imp {A} (f g : A → bool) l : (∀ a, f a = true → g a = true) → forallb f l = true → forallb g l = true.
Proof. intros H. induction l as [|a l IH]; cbn; [done|]. intros [Ha Hl]%andb_true_iff. by rewrite (H a Ha), IH. Qed.
Lemma parse_field name spec rest : part_ok (Field name spec) = true → starts_char rest = true →
  parse_one (print_part (Field name spec) +:+ rest) = Ok (inr (Field name spec, rest)).
Proof.
  intros [Hn Hs]%andb_true_iff Hr. unfold parse_one.
  set (inner := name +:+ ":" +:+ spec).
  assert (print_part (Field name spec) +:+ rest = String "{" (inner +:+ "}" +:+ rest)) as ->.
  { unfold inner. cbn [print_part]. by rewrite !str_app_assoc. }
  assert (forallb field_byte (String.list_ascii_of_string inner) = true) as Hi.
  { assert (∀ s t, String.list_ascii_of_string (s +:+ t) = String.list_ascii_of_string s ++ String.list_ascii_of_string t) as E.
    { intros s t. induction s as [|a s IH]; [done|]. cbn. by rewrite IH. }
    unfold inner. rewrite !E, !forallb_app, Hs, !andb_true_r.
    eapply forallb_imp; [|exact Hn]. cbv beta. intros a [[Ha _]%andb_true_iff _]%andb_true_iff. exact Ha. }
  assert (parse_literal (String "{" (inner +:+ "}" +:+ rest)) EmptyString = inl UnescapedStartBracketInLiteral) as ->.
  { cbn [parse_literal]. change (Ascii.eqb "{" "{") with true. cbn [orb].
    destruct inner as [|b s] eqn:E; [by destruct name|]. cbn [String.append].
    cbn [String.list_ascii_of_string forallb] in Hi. apply andb_true_iff in Hi as [Hb _].
    unfold field_byte, brace in Hb. apply andb_true_iff in Hb as [_ [Hb _]%negb_true_iff%orb_false_iff]. by rewrite Hb. }
  assert (chars (String "{" (inner +:+ "}" +:+ rest)) =
    "{" :: ((λ a, String a EmptyString) <$> String.list_ascii_of_string inner) ++ "}" :: chars rest) as Hc.
  { change (String "{" (inner +:+ "}" +:+ rest)) with ("{" +:+ (inner +:+ ("}" +:+ rest))).
    assert (forallb (λ a, negb (is_cont a)) (String.list_ascii_of_string inner) = true) as Hi'.
    { eapply forallb_imp; [|exact Hi]. cbv beta. intros a Ha. by rewrite field_byte_char. }
    rewrite chars_field; [|done|].
    - rewrite chars_field by done. by rewrite (chars_field "}").
    - destruct inner as [|b s]; [done|]. cbn [String.list_ascii_of_string forallb] in Hi'. by apply andb_true_iff in Hi' as [? _]. }
  unfold parse_spec. rewrite Hc. cbn [scan_spec]. change (Nat.eqb 0 0) with true. rewrite bool_decide_eq_true_2 by done.
  rewrite scan_field by (done || lia). rewrite String.string_of_list_ascii_of_string, list_ascii_length. cbn [String.append].
  set (text := String "{" _).
  assert (str_drop (1 + slen inner) text = String "}" rest) as Hd.
  { apply (str_drop_app_slen inner). }
  rewrite Hd. assert (is_char_boundary text (1 + slen inner) = true) as ->.
  { unfold is_char_boundary. rewrite Hd. by rewrite orb_true_r. }
  assert (is_char_boundary (String "}" rest) 1 = true) as ->.
  { unfold is_char_boundary. destruct rest as [|b s]; [done|]. cbn [str_drop]. cbn [starts_char] in Hr. by rewrite Hr, orb_true_r. }
  cbn [andb str_drop]. do 3 f_equal. unfold parse_part_in_brackets, inner. change (":" +:+ spec) with (String ":" spec).
  rewrite splitn_first, splitn_none; [done| |]; (eapply forallb_imp; [|exact Hn]); cbv beta; intros a;
    intros [[_ H1]%andb_true_iff H2]%andb_true_iff; done.
Qed.

Lemma parse_part_printed part parts : canonical (part :: parts) = true →
  parse_one (print_part part +:+ print_template parts) = Ok (inr (part, print_template parts)).
Proof.
  cbn [canonical]. intros [[Hp Hn]%andb_true_iff Hc]%andb_true_iff. destruct part as [name spec|s].
  - apply parse_field; [done|by apply template_starts].
  - unfold parse_one. cbn [print_part]. apply andb_true_iff in Hp as [Hs _].
    rewrite parse_literal_escaped; [done| |].
    + destruct parts as [|[n sp|] parts]; [done| |done]. cbn [canonical] in Hc.
      apply andb_true_iff in Hc as [[Hf _]%andb_true_iff _]. apply andb_true_iff in Hf as [Hf _].
      change (print_template (Field n sp :: parts)) with (String "{" ((n +:+ ":" +:+ sp +:+ "}") +:+ print_template parts)).
      destruct n as [|a n]; [done|]. cbn [String.append literal_end]. cbn [String.list_ascii_of_string forallb] in Hf.
      apply andb_true_iff in Hf as [[[Hf _]%andb_true_iff _]%andb_true_iff _]. unfold field_byte, brace in Hf.
      apply andb_true_iff in Hf as [_ [Hf _]%negb_true_iff%orb_false_iff]. by rewrite Hf.
    + destruct s; done.
Qed.
Lemma print_part_length part : part_ok part = true → 0 < slen (print_part part).
Proof.
  destruct part as [n sp|s]; cbn [print_part]; [cbn; lia|]. intros [Hs _]%andb_true_iff. destruct s as [|a s]; [done|].
  cbn [escape_braces]. destruct (brace a); cbn; lia.
Qed.
Lemma from_template_printed parts : ∀ fuel acc, canonical parts = true → slen (print_template parts) ≤ fuel →
  from_template fuel (print_template parts) acc = Ok (inr (acc ++ parts)).
Proof.
  induction parts as [|part parts IH]; intros fuel acc Hc Hf.
  - rewrite app_nil_r. by destruct fuel.
  - pose proof Hc as Hc'. cbn [canonical] in Hc. apply andb_true_iff in Hc as [[Hp _]%andb_true_iff Hc].
    change (print_template (part :: parts)) with (print_part part +:+ print_template parts) in *.
    pose proof (print_part_length part Hp). rewrite slen_app in Hf. destruct fuel as [|fuel]; [lia|]. cbn [from_template].
    unfold str_is_empty. rewrite bool_decide_eq_false_2 by (destruct (print_part part); [cbn in *; lia|done]).
    rewrite parse_part_printed by done. cbn [mbind Res_bind]. rewrite IH by (done || lia). by rewrite <- app_assoc.
Qed.

(** a template that is printed from its parts is read back as those parts: literals
    with their braces doubled, and fields in ASCII without braces, with a name that has
    no colon and no exclamation mark. *)
Theorem template_roundtrip parts :
  canonical parts = true → FormatString_from_str (print_template parts) = Ok (inr parts).
Proof. intros Hc. unfold FormatString_from_str. rewrite from_template_printed; [done|done|lia]. Qed.

Lemma parse_literal_rest text : ∀ acc p t, parse_literal text acc = inr (p, t) →
  slen t ≤ slen text ∧ (acc = EmptyString → text ≠ EmptyString → slen t < slen text).
Proof.
  induction text as [text IH] using (well_founded_induction (Wf_nat.well_founded_ltof _ String.length)). unfold Wf_nat.ltof in IH.
  intros acc p t. destruct text as [|a rest]; cbn [parse_literal]; [by intros [= _ <-]|].
  assert (∀ r, (if str_is_empty acc then inl UnescapedStartBracketInLiteral else inr (Literal acc, String a rest)) =
    inr r → r = (Literal acc, String a rest) ∧ acc ≠ EmptyString) as Hstop.
  { intros r. unfold str_is_empty. destruct (bool_decide_reflect (acc = "")); [done|]. by intros [= <-]. }
  destruct (_ || _).
  - destruct rest as [|b rest']; [intros [[= -> ->] ?]%Hstop; done|].
    destruct (Ascii.eqb b a); [|intros [[= -> ->] ?]%Hstop; done].
    intros H%IH; [|cbn; lia]. cbn in *. lia.
  - intros H%IH; [|cbn; lia]. cbn in *. lia.
Qed.
Lemma parse_one_shorter text p t : text ≠ EmptyString → parse_one text = Ok (inr (p, t)) → slen t < slen text.
Proof.
  intros Hne. unfold parse_one. destruct (parse_literal text EmptyString) as [e|[q u]] eqn:E.
  - unfold parse_spec. destruct (scan_spec 0 (chars text) false "") as [|[inner [pos|]]]; try done.
    destruct (_ && _); [|done].
    assert (slen (str_drop 1 (str_drop pos text)) < slen text) as Hlt by (rewrite !slen_drop; destruct text; [done|cbn; lia]).
    intros [= _ <-]. exact Hlt.
  - intros [= -> ->]. by apply (parse_literal_rest _ _ _ _ E).
Qed.
Lemma parse_one_panics text : (∃ r, parse_one text = Ok r) ∨ parse_one text = Panic CharBoundary.
Proof.
  unfold parse_one. destruct (parse_literal text ""); [|by left; eexists]. unfold parse_spec.
  destruct (scan_spec 0 (chars text) false "") as [|[inner [pos|]]]; try (by left; eexists).
  destruct (_ && _); [by left; eexists|by right].
Qed.
(** the parser of templates comes to an end with a result on every text, or stops
    because it splits the text inside a character. *)
Theorem template_total text :
  (∃ r, FormatString_from_str text = Ok r) ∨ FormatString_from_str text = Panic CharBoundary.
Proof.
  unfold FormatString_from_str. assert (slen text ≤ slen text) as Hf by done. revert Hf. generalize (slen text) at 2 3 4.
  generalize (@nil FormatPart). intros acc fuel. revert text acc.
  induction fuel as [|fuel IH]; intros text acc Hf; cbn [from_template]; unfold str_is_empty;
    destruct (bool_decide_reflect (text = "")) as [->|Hne]; try (by left; eexists); [by destruct text; cbn in *; [|lia]|].
  destruct (parse_one_panics text) as [[[e|[p t]] Hr]| ->]; [| |by right]; [by rewrite Hr; left; eexists|].
  pose proof (parse_one_shorter _ _ _ Hne Hr). rewrite Hr. cbn [mbind Res_bind]. apply IH. lia.
Qed.

(** ** Samples *)

Module Sample.
Definition overflow : Profile := {| overflow_checks := true |}.
(** Floats whose texts are those of the numbers used below. *)
Definition floats : FloatText := {|
  text_fixed := λ p f, pretty (f_to_i64 f) +:+ (if Nat.eqb p 0 then "" else "." +:+ str_repeat p "0");
  text_exp := λ p f, pretty (f_to_i64 f) +:+ "." +:+ str_repeat p "0" +:+ "e0";
  text_shortest_exp := λ f, if f_lt (f_of_int 10000000000000000) f then "1e20" else pretty (f_to_i64 f) +:+ "e0";
  text_debug_1 := λ f, pretty (f_to_i64 f) +:+ ".0";
  text_display := λ f, pretty (f_to_i64 f) |}.
Definition spec_of (s : string) : FormatSpec :=
  match parse_format_spec s with
  | inr spec => spec
  | inl _ => MkSpec None None None None false None None None None
  end.
Definition format_with (s : string) (num : Z) := format_int (HP := overflow) (HF := floats) (spec_of s) num.
Definition parts : list FormatPart := [Literal "a{b"; Field "0.x[1]" "#06x"; Field "" ""; Literal "}"].
(** A field with the letter e acute, which is two bytes. *)
Definition accented : string := "{" +:+ String (ascii_of_nat 195) (String (ascii_of_nat 169) "}").
End Sample.

Example int_formats :
  Sample.format_with "+,d" 1234567 = Ok (inr "+1,234,567") ∧
  Sample.format_with "*^#12_x" 3735928559 = Ok (inr "0xdead_beef*") ∧
  Sample.format_with "08" (-42) = Ok (inr "-0000042").
Proof. vm_compute. split_and!; reflexivity. Qed.
(** The filling of zeros goes before the prefix. *)
Example zeros_before_prefix : Sample.format_with "#06x" 255 = Ok (inr "000xff").
Proof. vm_compute. reflexivity. Qed.
(** A float format gives an integer its sign and its width twice. *)
Example float_format_of_int :
  Sample.format_with ".1f" (-5) = Ok (inr "--5.0") ∧ Sample.format_with "+.1f" 5 = Ok (inr "++5.0") ∧
  Sample.format_with "^8.0f" (-5) = Ok (inr "-   -5   ").
Proof. vm_compute. split_and!; reflexivity. Qed.
(** The least integer has no magnitude. *)
Example least_integer : Sample.format_with "d" i64_MIN = Panic ArithOverflow.
Proof. vm_compute. reflexivity. Qed.
(** A width of [2^32] is none. *)
Example width_truncated : Sample.format_with "4294967296d" 5 = Ok (inr "5").
Proof. vm_compute. reflexivity. Qed.
(** The exponent is grouped with the digits. *)
Example exponent_grouped :
  format_float (HP := Sample.overflow) (HF := Sample.floats) (Sample.spec_of ",") (f_of_int 100000000000000000000) =
  Ok (inr "1e,+20").
Proof. vm_compute. reflexivity. Qed.
(** A general format with a separator panics. *)
Example general_grouped :
  format_float (HP := Sample.overflow) (HF := Sample.floats) (Sample.spec_of ",g") (f_of_int 1) =
  Panic (PanicMsg "Separators only valid for numbers!").
Proof. vm_compute. reflexivity. Qed.
(** A conversion after [!] is read from a template and dropped. *)
Example conversion_dropped : FormatString_from_str "{x!r:d}" = Ok (inr [Field "x" "d"]).
Proof. vm_compute. reflexivity. Qed.
(** The closing bracket is counted in characters and looked for in bytes. *)
Example accented_field_panics : FormatString_from_str Sample.accented = Panic CharBoundary.
Proof. vm_compute. reflexivity. Qed.

Lemma int_formatted_witness :
  in_i64 (-255) = true ∧
  ∃ d body l m r, radix_value 16 d 0 = Some 255%Z ∧ body_of (Sample.spec_of "*<+#10_X") d body ∧
    Sample.format_with "*<+#10_X" (-255) =
      Ok (inr (filled (Sample.spec_of "*<+#10_X") l +:+ "-" +:+ filled (Sample.spec_of "*<+#10_X") m +:+ ("0x" +:+ body) +:+
        filled (Sample.spec_of "*<+#10_X") r)).
Proof.
  assert (in_i64 (-255) = true) as Hn by reflexivity.
  assert ((-255)%Z ≠ i64_MIN) as Hmin by discriminate.
  assert (∀ w, width (Sample.spec_of "*<+#10_X") = Some w → (0 ≤ w < 2 ^ 31)%Z) as Hw.
  { intros w Hw. vm_compute in Hw. injection Hw as <-. split; [discriminate|reflexivity]. }
  split; [exact Hn|].
  destruct (int_formatted (H := Sample.overflow) (H0 := Sample.floats) (Sample.spec_of "*<+#10_X") (-255) Hn Hmin eq_refl Hw)
    as (d & body & l & m & r & Hd & Hb & _ & Hf).
  exists d, body, l, m, r. split; [exact Hd|split; [exact Hb|exact Hf]].
Defined.
Lemma template_roundtrip_witness :
  canonical Sample.parts = true ∧ FormatString_from_str (print_template Sample.parts) = Ok (inr Sample.parts).
Proof. split; [reflexivity|apply (template_roundtrip Sample.parts); reflexivity]. Defined.
