(* ===== verification/Json.v ===== *)
(** * JSON and YAML

    [value/val_json.rs]: the JSON form of a value, the formatter of JSON texts and the
    value of a JSON form; [value/val_yaml.rs]; the functions of the packages [json]
    ([json/mod.rs]), [yaml] ([yaml/mod.rs]) and [manifests] ([manifests/*.rs]) that
    write no file.  The readers and the drivers of the printers are those of serde_json
    and serde_yaml and are parameters: a reader gives the document as the calls it makes
    to the visitor. *)

From stdpp Require Import base tactics list strings numbers.
From Stdlib Require Import ZArith Lia.
From S2P Require Import Prelude MachineInt IndexMap Str Float64 Value ListOps DictOps Arith UnionOps Builtin Args Plan Context.
Local Open Scope Z_scope.
Local Set Warnings "-clear-no-such-hyp".

(** [serde_json::Number] *)
Inductive JsonNumber := json_integer (z : Z) | json_float (f : f64).
Unset Elimination Schemes.
Inductive JsonValue :=
  | Null
  | Bool (b : bool)
  | Number (n : JsonNumber)
  | JString (s : string)
  | Array (l : list JsonValue)
  | Object (m : IndexMap string JsonValue).
Set Elimination Schemes.

Record JsonEncodeOptions := MkJsonOptions {
  json_sort_keys : bool; json_indent : Z; ignore_private : bool; ignore_none : bool }.
Definition JsonEncodeOptions_default : JsonEncodeOptions := MkJsonOptions false 0 false false.

(** [Number::from_f64] refuses what is not finite. *)
Definition number_from_f64 (f : f64) : JsonValue :=
  match f with S754_zero _ | S754_finite _ _ _ => Number (json_float f) | _ => Null end.

(** ** Reading: the visitor of [JsonValue] *)

(** What a reader gives the visitor. *)
Unset Elimination Schemes.
Inductive Doc :=
  | DocUnit
  | DocBool (b : bool)
  | DocI64 (z : Z)
  | DocU64 (z : Z)
  | DocF64 (f : f64)
  | DocStr (s : string)
  | DocSeq (l : list Doc)
  | DocMap (l : list (string * Doc)).
Set Elimination Schemes.

(** A key that comes again replaces the value at the place of the first one. *)
Fixpoint visit (d : Doc) : JsonValue :=
  match d with
  | DocUnit => Null
  | DocBool b => Bool b
  | DocI64 z | DocU64 z => Number (json_integer z)
  | DocF64 f => number_from_f64 f
  | DocStr s => JString s
  | DocSeq l => Array (visit <$> l)
  | DocMap l => Object (map_extend [] ((λ e, (e.1, visit e.2)) <$> l))
  end.

(** ** The value of a JSON form *)

Section Parse.
Context {HP : Profile} {HC : ContextConfig}.
Variable to_json : ValueRef → string.
Variable all_schemas : string → option (ValueRef → ValueRef → ValueRef → Res ValueRef).

Definition i64_MAX_u : Z := 2 ^ 63 - 1.
Definition parse_number (n : JsonNumber) : ValueRef :=
  match n with
  | json_integer z => if in_i64 z then ref_int z else if z <=? i64_MAX_u then ref_int z else ref_float (f_of_int z)
  | json_float f => ref_float f
  end.
(** The elements of a list and the entries of an object, one after the other. *)
Section Loops.
Variable parse_json : JsonValue → Res ValueRef.
Fixpoint parse_elements (l : list JsonValue) (vs : list ValueRef) : Res ValueRef :=
  match l with
  | [] => Ok (ref_list vs)
  | j :: l => v ← parse_json j; parse_elements l (vs ++ [v])
  end.
Fixpoint parse_entries (l : list (string * JsonValue)) (dict : ValueRef) : Res ValueRef :=
  match l with
  | [] => Ok dict
  | e :: l =>
      v ← parse_json e.2;
      dict ← dict_insert to_json all_schemas dict e.1 v Union None;
      parse_entries l dict
  end.
End Loops.
Fixpoint parse_json (json : JsonValue) : Res ValueRef :=
  match json with
  | Object values => parse_entries parse_json values (ref_dict [])
  | Array values => parse_elements parse_json values []
  | JString val => Ok (ref_str val)
  | Number val => Ok (parse_number val)
  | Bool val => Ok (ref_bool val)
  | Null => Ok ref_none
  end.
End Parse.

(** ** The JSON form of a value *)

(** [vals.sort_keys()] *)
Fixpoint insert_key {A} (e : string * A) (l : IndexMap string A) : IndexMap string A :=
  match l with
  | [] => [e]
  | x :: l' => if str_le e.1 x.1 then e :: l else x :: insert_key e l'
  end.
Definition sort_keys {A} (l : IndexMap string A) : IndexMap string A := foldr insert_key [] l.

Section Build.
Variable opts : JsonEncodeOptions.

(** Whether an element or an entry is printed. *)
Definition printed (v : ValueRef) : bool :=
  match rc v with
  | undefined | func_value _ => false
  | none => negb (ignore_none opts)
  | _ => true
  end.
(** An entry with its JSON form. *)
Definition kept_entry (e : string * (ValueRef * JsonValue)) : option (string * JsonValue) :=
  if ignore_private opts && starts_with KCL_PRIVATE_VAR_PREFIX e.1 then None
  else if printed e.2.1 then Some (e.1, e.2.2) else None.
Definition build_object (l : IndexMap string (ValueRef * JsonValue)) : JsonValue :=
  Object (map_extend [] (omap kept_entry (if json_sort_keys opts then sort_keys l else l))).
Fixpoint build_json (self : ValueRef) : JsonValue :=
  match self with
  | Ref c =>
      match c with
      | undefined | none => Null
      | bool_value v => Bool v
      | int_value v => Number (json_integer v)
      | float_value v | unit_value v _ _ => number_from_f64 v
      | str_value v => JString v
      | list_value v => Array (omap (λ x, if printed x then Some (build_json x) else None) (list_values v))
      | dict_value v => build_object ((λ e, (e.1, (e.2, build_json e.2))) <$> values v)
      | schema_value v => build_object ((λ e, (e.1, (e.2, build_json e.2))) <$> values (config v))
      | func_value v => Number (json_integer (fn_ptr v))
      end
  end.
End Build.

(** ** The formatter

    The calls that serde_json makes for the punctuation of a text. *)

Record JsonFormatter := MkFormatter { current_indent : Z; has_value : bool; indent_text : string }.
Definition with_indent (indent : Z) : JsonFormatter :=
  MkFormatter 0 false (str_repeat (Z.to_nat (if indent <? 0 then 0 else indent)) " ").

Section Formatter.
Context {HP : Profile}.
Definition usize_add_1 (n : Z) : Res Z :=
  if n + 1 <? 2 ^ 64 then Ok (n + 1) else if overflow_checks then Panic ArithOverflow else Ok 0.
Definition usize_sub_1 (n : Z) : Res Z :=
  if 0 <? n then Ok (n - 1) else if overflow_checks then Panic ArithOverflow else Ok (2 ^ 64 - 1).
(** [indent(writer, n, s)] *)
Definition indentation (self : JsonFormatter) : string := str_repeat (Z.to_nat (current_indent self)) (indent_text self).
Definition begin_compound (open : string) (self : JsonFormatter) : Res (JsonFormatter * string) :=
  n ← usize_add_1 (current_indent self); Ok (MkFormatter n false (indent_text self), open).
Definition end_compound (close : string) (self : JsonFormatter) : Res (JsonFormatter * string) :=
  n ← usize_sub_1 (current_indent self);
  let self := MkFormatter n (has_value self) (indent_text self) in
  Ok (self, (if has_value self && negb (str_is_empty (indent_text self)) then NEWLINE +:+ indentation self else "") +:+ close).
Definition begin_array := begin_compound "[".
Definition end_array := end_compound "]".
Definition begin_object := begin_compound "{".
Definition end_object := end_compound "}".
Definition begin_array_value (first : bool) (self : JsonFormatter) : string :=
  (if first then "" else ",") +:+
  (if negb (str_is_empty (indent_text self)) then NEWLINE else if first then "" else " ") +:+ indentation self.
Definition begin_object_key (first : bool) (self : JsonFormatter) : string := begin_array_value first self.
Definition begin_object_value : string := ": ".
Definition end_value (self : JsonFormatter) : JsonFormatter := MkFormatter (current_indent self) true (indent_text self).
End Formatter.

(** ** Texts *)

Section Texts.
Context {HP : Profile} {HC : ContextConfig}.
Variable all_schemas : string → option (ValueRef → ValueRef → ValueRef → Res ValueRef).
(** [json.serialize(Serializer::with_formatter(writer, formatter))], the text of a JSON
    value with the formatter of the crate, and the readers of documents. *)
Variable serialize : JsonFormatter → JsonValue → Res (JsonFormatter * string).
Variable json_from_str : string → string + Doc.
Variable compact_json : JsonValue → string.
(** [serde_yaml::to_string] of what serde_json reads as a YAML value. *)
Variable yaml_of_json : string → Res string.
Variable yaml_from_str : string → string + Doc.
Variable yaml_documents : string → list (string + Doc).

Definition to_json_string_with_options (self : ValueRef) (opts : JsonEncodeOptions) : Res string :=
  r ← serialize (with_indent (json_indent opts)) (build_json opts self); Ok r.2.
Definition to_json_string (self : ValueRef) : Res string :=
  to_json_string_with_options self JsonEncodeOptions_default.
Definition NUL : string := String (Ascii.ascii_of_nat 0) EmptyString.
Definition to_json_string_with_null (self : ValueRef) : Res string := s ← to_json_string self; Ok (s +:+ NUL).
(** In the messages of the union. *)
Definition message_json (self : ValueRef) : string := match to_json_string self with Ok s => s | Panic _ => "" end.
Definition from_value (json : JsonValue) : Res ValueRef := parse_json message_json all_schemas json.
Definition from_json (s : string) : Res (string + ValueRef) :=
  match json_from_str s with
  | inr d => v ← from_value (visit d); Ok (inr v)
  | inl e => Ok (inl e)
  end.

(** *** YAML *)

Record YamlEncodeOptions := MkYamlOptions {
  yaml_sort_keys : bool; yaml_ignore_private : bool; yaml_ignore_none : bool; yaml_sep : string }.
Definition YamlEncodeOptions_default : YamlEncodeOptions := MkYamlOptions false false false "---".
Definition YAML_STREAM_SEP : string := NEWLINE +:+ "---" +:+ NEWLINE.
Definition yaml_text (json : Res string) : Res string :=
  json ← json; s ← yaml_of_json json; Ok (default s (strip_prefix ("---" +:+ NEWLINE) s)).
Definition to_yaml_string (self : ValueRef) : Res string := yaml_text (to_json_string self).
Definition to_yaml_string_with_options (self : ValueRef) (opts : YamlEncodeOptions) : Res string :=
  yaml_text (to_json_string_with_options self
    (MkJsonOptions (yaml_sort_keys opts) 0 (yaml_ignore_private opts) (yaml_ignore_none opts))).
(** The document is printed as JSON and read again. *)
Definition from_yaml (s : string) : Res (string + ValueRef) :=
  match yaml_from_str s with
  | inl e => Ok (inl e)
  | inr d =>
      r ← from_json (compact_json (visit d));
      match r with inr v => Ok (inr v) | inl _ => Panic UnwrapNone end
  end.
Fixpoint read_documents (l : list (string + Doc)) (result : list ValueRef) : Res (string + list ValueRef) :=
  match l with
  | [] => Ok (inr result)
  | inl e :: _ => Ok (inl e)
  | inr d :: l => v ← from_value (visit d); read_documents l (result ++ [v])
  end.
Definition list_from_yaml_stream (s : string) : Res (string + ValueRef) :=
  r ← read_documents (yaml_documents s) [];
  Ok (match r with inl e => inl e | inr l => inr (ref_list l) end).
Definition from_yaml_stream (s : string) : Res (string + ValueRef) :=
  r ← read_documents (yaml_documents s) [];
  Ok (match r with
      | inl e => inl e
      | inr [] => inr (ref_dict [])
      | inr [v] => inr v
      | inr l => inr (ref_list l)
      end).

(** *** The functions of the packages *)

Definition needs {A} (arg : Res (option ValueRef)) (msg : string) (f : ValueRef → Res A) : Res A :=
  arg ← arg; match arg with Some v => f v | None => Panic (PanicMsg msg) end.
Definition json_args_to_opts (args kwargs : ValueRef) (index : nat) : Res JsonEncodeOptions :=
  sort_keys ← get_call_arg_bool args kwargs index (Some "sort_keys");
  indent ← get_call_arg_int args kwargs (index + 1) (Some "indent");
  ignore_private ← get_call_arg_bool args kwargs (index + 2) (Some "ignore_private");
  ignore_none ← get_call_arg_bool args kwargs (index + 3) (Some "ignore_none");
  Ok (MkJsonOptions (default false sort_keys) (default 0 indent) (default false ignore_private) (default false ignore_none)).
Definition yaml_args_to_opts (args kwargs : ValueRef) (index : nat) : Res YamlEncodeOptions :=
  sort_keys ← get_call_arg_bool args kwargs index (Some "sort_keys");
  ignore_private ← get_call_arg_bool args kwargs (index + 1) (Some "ignore_private");
  ignore_none ← get_call_arg_bool args kwargs (index + 2) (Some "ignore_none");
  Ok (MkYamlOptions (default false sort_keys) (default false ignore_private) (default false ignore_none) "---").
Definition kcl_json_encode (args kwargs : ValueRef) : Res ValueRef :=
  needs (get_call_arg args kwargs 0 (Some "data")) "encode() missing 1 required positional argument: 'value'" (λ arg0,
    opts ← json_args_to_opts args kwargs 1;
    s ← to_json_string_with_options arg0 opts; Ok (ref_str s)).
Definition decoded (r : Res (string + ValueRef)) : Res ValueRef :=
  r ← r; match r with inr x => Ok x | inl err => Panic (PanicMsg err) end.
Definition validated (r : Res (string + ValueRef)) : Res ValueRef :=
  r ← r; Ok (ref_bool match r with inr _ => true | inl _ => false end).
Definition kcl_json_decode (args kwargs : ValueRef) : Res ValueRef :=
  needs (get_call_arg args kwargs 0 (Some "value")) "decode() missing 1 required positional argument: 'value'"
    (λ arg0, decoded (from_json (as_str arg0))).
Definition kcl_json_validate (args kwargs : ValueRef) : Res ValueRef :=
  needs (get_call_arg args kwargs 0 (Some "value")) "validate() missing 1 required positional argument: 'value'"
    (λ arg0, validated (from_json (as_str arg0))).
Definition kcl_yaml_encode (args kwargs : ValueRef) : Res ValueRef :=
  needs (get_call_arg args kwargs 0 (Some "data")) "encode_all() missing 1 required positional argument: 'data'" (λ arg0,
    opts ← yaml_args_to_opts args kwargs 1;
    s ← to_yaml_string_with_options arg0 opts; Ok (ref_str s)).
Fixpoint yaml_all (opts : YamlEncodeOptions) (l : list ValueRef) : Res (list string) :=
  match l with
  | [] => Ok []
  | v :: l => s ← to_yaml_string_with_options v opts; ss ← yaml_all opts l; Ok (s :: ss)
  end.
Definition kcl_yaml_encode_all (args kwargs : ValueRef) : Res ValueRef :=
  needs (get_call_arg args kwargs 0 (Some "data")) "encode() missing 1 required positional argument: 'data'" (λ arg0,
    opts ← yaml_args_to_opts args kwargs 1;
    l ← as_list_ref arg0;
    results ← yaml_all opts (list_values l);
    Ok (ref_str (String.concat YAML_STREAM_SEP results))).
Definition kcl_yaml_decode (args kwargs : ValueRef) : Res ValueRef :=
  needs (get_call_arg args kwargs 0 (Some "value")) "decode() missing 1 required positional argument: 'value'"
    (λ arg0, decoded (from_yaml (as_str arg0))).
Definition kcl_yaml_decode_all (args kwargs : ValueRef) : Res ValueRef :=
  needs (get_call_arg args kwargs 0 (Some "value")) "decode_all() missing 1 required positional argument: 'value'"
    (λ arg0, decoded (list_from_yaml_stream (as_str arg0))).
Definition kcl_yaml_validate (args kwargs : ValueRef) : Res ValueRef :=
  needs (get_call_arg args kwargs 0 (Some "value")) "validate() missing 1 required positional argument: 'value'"
    (λ arg0, validated (from_yaml_stream (as_str arg0))).

(** [manifests.yaml_stream]: the documents for the output, and the options of the plan. *)
Definition stream_options (opts : option ValueRef) : Res YamlEncodeOptions :=
  match opts with
  | Some opts =>
      if is_config opts then
        let flag name default := match get_by_key opts name with Some v => as_bool v | None => default end in
        Ok (MkYamlOptions (flag "sort_keys" false) (flag "ignore_private" true) (flag "ignore_none" false)
              (match get_by_key opts "sep" with Some v => as_str v | None => "---" end))
      else Panic (PanicMsg ("Invalid options arguments in yaml_stream(): expect config, got " +:+ type_str opts))
  | None => Ok YamlEncodeOptions_default
  end.
Definition strip_newline (s : string) : string :=
  if bool_decide (str_drop (slen s - 1) s = NEWLINE) then str_take (slen s - 1) s else s.
Definition stream_plan (opts : YamlEncodeOptions) (p : PlanOptions) : PlanOptions :=
  MkPlanOptions (yaml_sort_keys opts) (include_schema_type_path p) (negb (yaml_ignore_private opts))
    (yaml_ignore_none opts) (disable_empty_list p) (query_paths p) (Some (yaml_sep opts)).
Definition kcl_manifests_yaml_stream (args kwargs : ValueRef) (plan_opts : PlanOptions) : Res (string * PlanOptions) :=
  opts ← stream_options match kwarg kwargs "opts" with Some v => Some v | None => arg_i args 1 end;
  needs (get_call_arg args kwargs 0 (Some "values")) "yaml_stream() missing 1 required positional argument: 'values'"
    (λ values,
      l ← as_list_ref values;
      docs ← yaml_all opts (list_values l);
      Ok (String.concat (NEWLINE +:+ yaml_sep opts +:+ NEWLINE) (strip_newline <$> docs), stream_plan opts plan_opts)).

(** [option] values from the command line: JSON, or a string. *)
Definition builtin_option_init (key value : string) : Effect unit := λ c,
  match from_json value with
  | Ok (inr x) => update (with_options (map_insert key x)) c
  | Ok (inl _) => update (with_options (map_insert key (ref_str value))) c
  | Panic p => (Panic p, c)
  end.
Definition builtin_option_reset : Effect unit := update (with_options (λ _, [])).
End Texts.

(** ** Merge patches *)

(** Recursion on the patch, as deep as it is nested. *)
Section Merge.
Variable json_merge_impl : ValueRef → ValueRef → Res ValueRef.
Definition merge_key (patch result : ValueRef) (key : string) : Res ValueRef :=
  match dict_get_value patch key with
  | Some patch_value =>
      if is_none_or_undefined patch_value then dict_remove result key
      else if is_config patch_value then
        merged ← json_merge_impl (default (ref_dict []) (dict_get_value result key)) patch_value;
        dict_update_key_value result key merged
      else dict_update_key_value result key (deep_copy patch_value)
  | None => Ok result
  end.
Fixpoint merge_keys (patch : ValueRef) (keys : list ValueRef) (result : ValueRef) : Res ValueRef :=
  match keys with
  | [] => Ok result
  | key_val :: keys => result ← merge_key patch result (as_str key_val); merge_keys patch keys result
  end.
End Merge.
Fixpoint json_merge_impl (fuel : nat) (src patch : ValueRef) : Res ValueRef :=
  match fuel with
  | O => Panic StackOverflow
  | S fuel =>
      if negb (is_config patch) then Ok (deep_copy patch)
      else
        let result := if is_config src then deep_copy src else ref_dict [] in
        patch_keys ← dict_keys patch;
        keys ← as_list_ref patch_keys;
        merge_keys (json_merge_impl fuel) patch (list_values keys) result
  end.
Definition kcl_json_merge `{Profile} (args kwargs : ValueRef) : Res ValueRef :=
  src ← get_call_arg args kwargs 0 (Some "src");
  patch ← get_call_arg args kwargs 1 (Some "patch");
  match src, patch with
  | Some src, Some patch => json_merge_impl (S (height patch)) src patch
  | _, _ => Panic (PanicMsg "merge() missing required positional arguments: 'src' and 'patch'")
  end.
