(* ===== verification/JsonProps.v ===== *)
(** * What JSON keeps

    The value of a JSON form has that form; the texts that the formatter of [Json]
    prints are JSON texts of the form, whatever the indentation; [json.merge] is the
    merge patch of RFC 7396. *)

From stdpp Require Import base tactics list strings numbers.
From Stdlib Require Import ZArith Lia.
From S2P Require Import Prelude MachineInt IndexMap Str Float64 Value ListOps DictOps Arith UnionOps Builtin Args Plan Context Json.
Local Open Scope Z_scope.
Local Set Warnings "-clear-no-such-hyp".

Lemma JsonValue_ind (P : JsonValue → Prop) :
  P Null → (∀ b, P (Bool b)) → (∀ n, P (Number n)) → (∀ s, P (JString s)) →
  (∀ l, (∀ j, j ∈ l → P j) → P (Array l)) →
  (∀ m, (∀ e, e ∈ m → P e.2) → P (Object m)) → ∀ j, P j.
Proof.
  intros Hn Hb Hi Hs Ha Ho. fix IH 1. intros [| | | |l|m]; [done|apply Hb|apply Hi|apply Hs|apply Ha|apply Ho].
  - apply list.Forall_forall. induction l as [|j l IHl]; constructor; [apply IH|apply IHl].
  - apply list.Forall_forall. induction m as [|[k j] m IHm]; constructor; [apply IH|apply IHm].
Qed.

(** ** The value of a form *)

Definition finite (f : f64) : bool := match f with S754_zero _ | S754_finite _ _ _ => true | _ => false end.
(** A form whose objects are maps and whose numbers are 64-bit integers and finite floats. *)
Fixpoint json_ok (j : JsonValue) : bool :=
  match j with
  | Number (json_integer z) => in_i64 z
  | Number (json_float f) => finite f
  | Array l => forallb json_ok l
  | Object m => nodup_keys m && forallb (λ e, json_ok e.2) m
  | _ => true
  end.
Definition dict_of_entries (m : IndexMap string ValueRef) : ValueRef :=
  Ref (dict_value (MkDict m ((λ e, (e.1, Union)) <$> m) [] [] None None)).
Fixpoint value_of (j : JsonValue) : ValueRef :=
  match j with
  | Null => ref_none
  | Bool b => ref_bool b
  | Number (json_integer z) => ref_int z
  | Number (json_float f) => ref_float f
  | JString s => ref_str s
  | Array l => ref_list (value_of <$> l)
  | Object m => dict_of_entries ((λ e, (e.1, value_of e.2)) <$> m)
  end.

Section RoundTrip.
Context {HP : Profile} {HC : ContextConfig}.
Variable to_json : ValueRef → string.
Variable all_schemas : string → option (ValueRef → ValueRef → ValueRef → Res ValueRef).
Hypothesis no_debug : debug_mode = false.

Lemma check_entry_int_off v : check_entry_int v = Ok tt.
Proof using no_debug. unfold check_entry_int. rewrite no_debug. by destruct (rc v). Qed.
Lemma dict_insert_fresh d key v op : key ∉ (values d).*1 →
  dict_insert to_json all_schemas (Ref (dict_value d)) key v op None =
  Ok (Ref (dict_value (MkDict (values d ++ [(key, v)]) (map_insert key op (ops d)) (insert_indexs d) (attr_map d) None
    (schema_args d)))).
Proof using no_debug.
  intros Hk. unfold dict_insert, dict_merge_key_value_pair. rewrite check_entry_int_off.
  cbn [mbind Res_bind is_config rc]. unfold union_entry, union_with.
  cbn [is_none_or_undefined is_list_or_config rc andb]. unfold do_union_with, union_fn.
  cbn [rc values ops insert_indexs attr_map potential_schema schema_args union_entries].
  unfold union_step, contains_key. cbn [map_get insert_indexs is_some negb values].
  rewrite (proj2 (map_get_None _ _) Hk). cbn [negb andb mbind Res_bind conflict UnionContext_default].
  unfold put_value, set_values. cbn [values ops insert_indexs attr_map potential_schema schema_args].
  by rewrite map_insert_fresh.
Qed.
Lemma parse_entries_fresh (parse : JsonValue → Res ValueRef) (l : list (string * JsonValue)) : ∀ m,
  (∀ e, e ∈ l → parse e.2 = Ok (value_of e.2)) → NoDup (m.*1 ++ l.*1) →
  parse_entries to_json all_schemas parse l (dict_of_entries m) =
  Ok (dict_of_entries (m ++ ((λ e, (e.1, value_of e.2)) <$> l))).
Proof using no_debug.
  induction l as [|[k j] l IH]; intros m Hp Hnd; cbn [parse_entries]; [by rewrite app_nil_r|].
  rewrite (Hp (k, j)) by left. cbn [mbind Res_bind snd fst]. unfold dict_of_entries at 1.
  apply list.NoDup_app in Hnd as Hnd'. destruct Hnd' as (_ & Hdis & _).
  assert (k ∉ m.*1) as Hk by (intros Hin; apply (Hdis k Hin); by left).
  rewrite dict_insert_fresh by done. cbn [mbind Res_bind values ops insert_indexs attr_map schema_args].
  rewrite map_insert_fresh by (rewrite <- list_fmap_compose; exact Hk).
  change [(k, Union)] with ((λ e : string * ValueRef, (e.1, Union)) <$> [(k, value_of j)]). rewrite <- fmap_app.
  change (Ref (dict_value _)) with (dict_of_entries (m ++ [(k, value_of j)])). rewrite IH.
  - by rewrite <- app_assoc.
  - intros e He. apply Hp. by right.
  - rewrite fmap_app, <- app_assoc. exact Hnd.
Qed.
Lemma parse_elements_all (parse : JsonValue → Res ValueRef) (l : list JsonValue) : ∀ vs,
  (∀ j, j ∈ l → parse j = Ok (value_of j)) → parse_elements parse l vs = Ok (ref_list (vs ++ (value_of <$> l))).
Proof using.
  induction l as [|j l IH]; intros vs Hp; cbn [parse_elements]; [by rewrite app_nil_r|].
  rewrite Hp by left. cbn [mbind Res_bind]. rewrite IH by (intros; apply Hp; by right). by rewrite <- app_assoc.
Qed.
Lemma parse_value j : json_ok j = true → parse_json to_json all_schemas j = Ok (value_of j).
Proof using no_debug.
  induction j as [|b|n|s|l IH|m IH] using JsonValue_ind; cbn [json_ok parse_json value_of]; intros Hok; try done.
  - destruct n as [z|f]; cbn [parse_number]; [by rewrite Hok|done].
  - rewrite parse_elements_all; [done|]. intros j Hj. apply IH; [done|]. rewrite forallb_forall in Hok. by apply Hok, list_elem_of_In.
  - apply andb_true_iff in Hok as [Hnd%bool_decide_eq_true Hok]. apply (parse_entries_fresh _ _ []); [|done].
    intros e He. apply IH; [done|]. rewrite forallb_forall in Hok. by apply (Hok e), list_elem_of_In.
Qed.

Lemma value_printed j : printed JsonEncodeOptions_default (value_of j) = true.
Proof using. by destruct j as [| |[]| | |]. Qed.
Lemma map_extend_fresh {A} (l : list (string * A)) : ∀ m, NoDup (m.*1 ++ l.*1) → map_extend m l = m ++ l.
Proof using.
  induction l as [|[k v] l IH]; intros m Hnd; [by rewrite app_nil_r|]. change (map_extend m ((k, v) :: l)) with (map_extend (map_insert k v m) l).
  apply list.NoDup_app in Hnd as Hnd'. destruct Hnd' as (_ & Hdis & _). rewrite map_insert_fresh by (intros Hin; apply (Hdis k Hin); by left).
  rewrite IH; [by rewrite <- app_assoc|]. rewrite fmap_app, <- app_assoc. exact Hnd.
Qed.
Lemma build_value j : json_ok j = true → build_json JsonEncodeOptions_default (value_of j) = j.
Proof using.
  induction j as [|b|n|s|l IH|m IH] using JsonValue_ind; cbn [json_ok value_of]; intros Hok; try done.
  - destruct n as [z|[]]; try done; discriminate Hok.
  - cbn [build_json ref_list list_values]. f_equal. rewrite forallb_forall in Hok.
    induction l as [|j l IHl]; [done|]. cbn [fmap list_fmap omap list_omap]. rewrite value_printed, IH; [|by left|apply Hok; by left].
    f_equal. apply IHl; [intros; apply IH; [by right|done]|intros; apply Hok; by right].
  - apply andb_true_iff in Hok as [Hnd%bool_decide_eq_true Hok]. cbn [build_json dict_of_entries values]. unfold build_object.
    cbn [json_sort_keys JsonEncodeOptions_default]. rewrite forallb_forall in Hok.
    assert (omap (kept_entry JsonEncodeOptions_default)
      ((λ e, (e.1, (e.2, build_json JsonEncodeOptions_default e.2))) <$> ((λ e, (e.1, value_of e.2)) <$> m)) = m) as ->.
    { clear Hnd. induction m as [|[k j] m IHm]; [done|]. cbn [fmap list_fmap fst snd omap list_omap]. unfold kept_entry at 1.
      cbn [ignore_private JsonEncodeOptions_default andb fst snd]. rewrite value_printed.
      pose proof (IH (k, j) ltac:(by left) (Hok (k, j) ltac:(by left))) as E. cbn [snd] in E. rewrite E.
      f_equal. apply IHm; [intros; apply IH; [by right|done]|intros; apply Hok; by right]. }
    by rewrite (map_extend_fresh m []).
Qed.

(** C20: a JSON form is decoded to a value without a conflict, and that value is encoded
    as the same form: the same numbers, the same order of keys, at any depth. *)
Theorem json_roundtrip j : json_ok j = true →
  parse_json to_json all_schemas j = Ok (value_of j) ∧ build_json JsonEncodeOptions_default (value_of j) = j.
Proof using no_debug. intros Hj. split; [by apply parse_value|by apply build_value]. Qed.
End RoundTrip.

(** ** The texts *)

(** Spaces, tabs and line ends. *)
Definition blank (s : string) : bool :=
  forallb (λ a, let n := Ascii.nat_of_ascii a in Nat.eqb n 32 || Nat.eqb n 9 || Nat.eqb n 10 || Nat.eqb n 13)
    (String.list_ascii_of_string s).

Section Texts.
(** The texts of numbers and strings, which serde_json writes on its own. *)
Variable number_text : JsonNumber → string.
Variable string_text : string → string.

(** The JSON texts of a value, with blanks wherever RFC 8259 allows them. *)
Inductive json_text : JsonValue → string → Prop :=
  | text_null : json_text Null "null"
  | text_bool b : json_text (Bool b) (if b then "true" else "false")
  | text_number n : json_text (Number n) (number_text n)
  | text_string s : json_text (JString s) (string_text s)
  | text_empty_array w : blank w = true → json_text (Array []) ("[" +:+ w +:+ "]")
  | text_array j l w s t : blank w = true → json_text j s → more_elements l t →
      json_text (Array (j :: l)) ("[" +:+ (w +:+ s +:+ t) +:+ "]")
  | text_empty_object w : blank w = true → json_text (Object []) ("{" +:+ w +:+ "}")
  | text_object k j m w1 w2 w3 s t : blank w1 = true → blank w2 = true → blank w3 = true → json_text j s → more_members m t →
      json_text (Object ((k, j) :: m)) ("{" +:+ (w1 +:+ string_text k +:+ w2 +:+ ":" +:+ w3 +:+ s +:+ t) +:+ "}")
with more_elements : list JsonValue → string → Prop :=
  | no_more_elements w : blank w = true → more_elements [] w
  | more_element j l w w' s t : blank w = true → blank w' = true → json_text j s → more_elements l t →
      more_elements (j :: l) (w +:+ "," +:+ w' +:+ s +:+ t)
with more_members : IndexMap string JsonValue → string → Prop :=
  | no_more_members w : blank w = true → more_members [] w
  | more_member k j m w w1 w2 w3 s t : blank w = true → blank w1 = true → blank w2 = true → blank w3 = true →
      json_text j s → more_members m t →
      more_members ((k, j) :: m) (w +:+ "," +:+ w1 +:+ string_text k +:+ w2 +:+ ":" +:+ w3 +:+ s +:+ t).

(** *** The driver

    serde_json's [Serializer] calls [begin_array], then for each element
    [begin_array_value], the serialization of the element and [end_array_value], and
    [end_array]; objects likewise, with [begin_object_value] after the key. *)
Section Driver.
Context {HP : Profile}.
Section Loops.
Variable serialize : JsonFormatter → JsonValue → Res (JsonFormatter * string).
Fixpoint write_elements (first : bool) (l : list JsonValue) (fmt : JsonFormatter) : Res (JsonFormatter * string) :=
  match l with
  | [] => Ok (fmt, "")
  | j :: l =>
      r ← serialize fmt j;
      rest ← write_elements false l (end_value r.1);
      Ok (rest.1, begin_array_value first fmt +:+ r.2 +:+ rest.2)
  end.
Fixpoint write_members (first : bool) (m : IndexMap string JsonValue) (fmt : JsonFormatter) : Res (JsonFormatter * string) :=
  match m with
  | [] => Ok (fmt, "")
  | (k, j) :: m =>
      r ← serialize fmt j;
      rest ← write_members false m (end_value r.1);
      Ok (rest.1, begin_object_key first fmt +:+ string_text k +:+ begin_object_value +:+ r.2 +:+ rest.2)
  end.
Definition compound (b : Res (JsonFormatter * string)) (loop : JsonFormatter → Res (JsonFormatter * string))
    (e : JsonFormatter → Res (JsonFormatter * string)) : Res (JsonFormatter * string) :=
  b ← b; r ← loop b.1; e ← e r.1; Ok (e.1, b.2 +:+ r.2 +:+ e.2).
End Loops.
(** What the code relies on of [json.serialize(&mut serializer)]. *)
Class SerdeJson (serialize : JsonFormatter → JsonValue → Res (JsonFormatter * string)) : Prop := {
  serialize_null fmt : serialize fmt Null = Ok (fmt, "null");
  serialize_bool fmt b : serialize fmt (Bool b) = Ok (fmt, if b then "true" else "false");
  serialize_number fmt n : serialize fmt (Number n) = Ok (fmt, number_text n);
  serialize_string fmt s : serialize fmt (JString s) = Ok (fmt, string_text s);
  serialize_array fmt l : serialize fmt (Array l) =
    compound (begin_array fmt) (write_elements serialize true l) end_array;
  serialize_object fmt m : serialize fmt (Object m) =
    compound (begin_object fmt) (write_members serialize true m) end_object }.

Fixpoint json_height (j : JsonValue) : nat :=
  match j with
  | Array l => S (foldr (λ j n, Nat.max (json_height j) n) 0%nat l)
  | Object m => S (foldr (λ e n, Nat.max (json_height e.2) n) 0%nat m)
  | _ => 0%nat
  end.

Lemma blank_app s t : blank (s +:+ t) = blank s && blank t.
Proof using.
  unfold blank. rewrite <- forallb_app. f_equal. induction s as [|a s IH]; [done|]. cbn. by rewrite IH.
Qed.
Lemma blank_repeat n s : blank s = true → blank (str_repeat n s) = true.
Proof using. intros Hs. induction n as [|n IH]; [done|]. cbn [str_repeat]. by rewrite blank_app, Hs, IH. Qed.

(** A formatter whose indentation is blank and at a depth that leaves room for [h] more. *)
Definition sound (h : nat) (fmt : JsonFormatter) : Prop :=
  blank (indent_text fmt) = true ∧ 0 ≤ current_indent fmt ∧ current_indent fmt + Z.of_nat h < 2 ^ 64.
Lemma sound_le h h' fmt : (h' ≤ h)%nat → sound h fmt → sound h' fmt.
Proof using. unfold sound. intros ? (? & ? & ?). split_and!; [done|done|lia]. Qed.
(** The blanks around an element. *)
Lemma separator_text first fmt : blank (indent_text fmt) = true →
  ∃ w, blank w = true ∧ begin_array_value first fmt = (if first then "" else ",") +:+ w.
Proof using.
  intros Hi. unfold begin_array_value, indentation. eexists. split; [|reflexivity].
  rewrite blank_app, (blank_repeat _ _ Hi). by destruct (negb _), first.
Qed.
(** The same formatter but for the flag. *)
Definition same_depth (fmt fmt' : JsonFormatter) : Prop :=
  current_indent fmt' = current_indent fmt ∧ indent_text fmt' = indent_text fmt.
Lemma same_depth_sound h fmt fmt' : same_depth fmt fmt' → sound h fmt → sound h (end_value fmt').
Proof using. intros [E E'] (Hb & H0 & H1). unfold sound. cbn [end_value current_indent indent_text]. by rewrite E, E'. Qed.
Lemma same_depth_end fmt fmt' fmt'' : same_depth fmt fmt' → same_depth (end_value fmt') fmt'' → same_depth fmt fmt''.
Proof using. intros [E1 E2] [E3 E4]. unfold same_depth. cbn in *. by rewrite E3, E4, E1, E2. Qed.

Section Serialize.
Variable serialize : JsonFormatter → JsonValue → Res (JsonFormatter * string).
Context `{!SerdeJson serialize}.
(** The serialization of a value. *)
Definition writes (j : JsonValue) : Prop := ∀ fmt, sound (json_height j) fmt → ∃ fmt' s,
  serialize fmt j = Ok (fmt', s) ∧ same_depth fmt fmt' ∧ json_text j s.

Lemma elements_written l : ∀ h fmt, (∀ j, j ∈ l → writes j ∧ (json_height j ≤ h)%nat) → sound h fmt → ∃ fmt' s,
  write_elements serialize false l fmt = Ok (fmt', s) ∧ same_depth fmt fmt' ∧
  ∀ w, blank w = true → more_elements l (s +:+ w).
Proof using.
  induction l as [|j l IH]; intros h fmt Hl Hf; cbn [write_elements].
  { eexists _, _. split; [reflexivity|split; [done|]]. intros w Hw. by constructor. }
  destruct (Hl j ltac:(by left)) as [Hj Hh]. destruct (Hj fmt) as (fmt1 & s & -> & Hd & Hs); [by eapply sound_le|].
  cbn [mbind Res_bind fst snd]. destruct (IH h (end_value fmt1)) as (fmt2 & t & -> & Hd' & Ht);
    [intros; apply Hl; by right|by eapply same_depth_sound|].
  cbn [mbind Res_bind fst snd]. eexists _, _. split; [reflexivity|split; [by eapply same_depth_end|]].
  intros w Hw. destruct (separator_text false fmt) as (w' & Hw' & ->); [apply Hf|].
  rewrite !str_app_assoc. apply (more_element j l EmptyString); auto.
Qed.
Lemma members_written m : ∀ h fmt, (∀ e, e ∈ m → writes e.2 ∧ (json_height e.2 ≤ h)%nat) → sound h fmt → ∃ fmt' s,
  write_members serialize false m fmt = Ok (fmt', s) ∧ same_depth fmt fmt' ∧
  ∀ w, blank w = true → more_members m (s +:+ w).
Proof using.
  induction m as [|[k j] m IH]; intros h fmt Hl Hf; cbn [write_members].
  { eexists _, _. split; [reflexivity|split; [done|]]. intros w Hw. by constructor. }
  destruct (Hl (k, j) ltac:(by left)) as [Hj Hh]. destruct (Hj fmt) as (fmt1 & s & E & Hd & Hs); [by eapply sound_le|].
  cbn [snd] in E. rewrite E. cbn [mbind Res_bind fst snd].
  destruct (IH h (end_value fmt1)) as (fmt2 & t & -> & Hd' & Ht);
    [intros; apply Hl; by right|by eapply same_depth_sound|].
  cbn [mbind Res_bind fst snd]. eexists _, _. split; [reflexivity|split; [by eapply same_depth_end|]].
  intros w Hw. unfold begin_object_key. destruct (separator_text false fmt) as (w' & Hw' & ->); [apply Hf|].
  rewrite !str_app_assoc. apply (more_member k j m EmptyString w' EmptyString " "); auto.
Qed.

(** The brackets around the text of a loop. *)
Lemma compound_written h op cl (loop : JsonFormatter → Res (JsonFormatter * string)) (P : string → Prop) fmt :
  sound (S h) fmt →
  (∀ fmt1, sound h fmt1 → ∃ fmt' s, loop fmt1 = Ok (fmt', s) ∧ same_depth fmt1 fmt' ∧ ∀ w, blank w = true → P (s +:+ w)) →
  ∃ fmt' s, compound (begin_compound op fmt) loop (end_compound cl) = Ok (fmt', op +:+ s +:+ cl) ∧ same_depth fmt fmt' ∧ P s.
Proof using.
  intros (Hb & H0 & H1) Hloop. unfold compound, begin_compound, usize_add_1.
  destruct (Z.ltb_spec (current_indent fmt + 1) (2 ^ 64)); [|lia]. cbn [mbind Res_bind fst snd].
  destruct (Hloop (MkFormatter (current_indent fmt + 1) false (indent_text fmt))) as (fmt' & s & -> & [Hc Hi] & Hs).
  { split_and!; cbn; [done|lia|lia]. }
  cbn [mbind Res_bind fst snd]. unfold end_compound, usize_sub_1. rewrite Hc. cbn [current_indent].
  destruct (Z.ltb_spec 0 (current_indent fmt + 1)); [|lia]. cbn [mbind Res_bind fst snd].
  rewrite <- (str_app_assoc s).
  eexists _, _. split; [reflexivity|]. split; [split; [cbn; lia|exact Hi]|].
  apply Hs. unfold indentation. cbn [indent_text has_value current_indent]. destruct (_ && _); [|done].
  rewrite blank_app, blank_repeat; [done|]. by rewrite Hi.
Qed.
Lemma max_in {A} (f : A → nat) x l : x ∈ l → (f x ≤ foldr (λ x n, Nat.max (f x) n) 0 l)%nat.
Proof using. apply foldr_max. Qed.
Lemma value_written j : writes j.
Proof using All.
  induction j as [|b|n|s|l IH|m IH] using JsonValue_ind; intros fmt Hf; cbn [json_height] in Hf.
  1-4: eexists _, _; split; [first [apply serialize_null|apply serialize_bool|apply serialize_number|apply serialize_string]|];
    split; [done|constructor].
  - rewrite serialize_array.
    destruct (compound_written _ "[" "]" (write_elements serialize true l) (λ s, json_text (Array l) ("[" +:+ s +:+ "]")) fmt Hf)
      as (fmt' & s & Hw & Hd & Ht); [|by exists fmt', ("[" +:+ s +:+ "]")].
    intros fmt1 Hf1. destruct l as [|j l]; cbn [write_elements].
    { eexists _, _. split; [reflexivity|split; [done|]]. intros w Hw. by constructor. }
    destruct (IH j ltac:(by left) fmt1) as (fmt2 & s & -> & Hd & Hs).
    { eapply sound_le; [|exact Hf1]. apply (max_in json_height). by left. }
    cbn [mbind Res_bind fst snd].
    destruct (elements_written l (foldr (λ j n, Nat.max (json_height j) n) 0%nat (j :: l)) (end_value fmt2))
      as (fmt3 & t & -> & Hd' & Ht).
    { intros x Hx. split; [apply IH; by right|apply (max_in json_height); by right]. }
    { by eapply same_depth_sound. }
    cbn [mbind Res_bind fst snd]. eexists _, _. split; [reflexivity|split; [by eapply same_depth_end|]]. intros w Hw.
    destruct (separator_text true fmt1) as (w' & Hw' & ->); [apply Hf1|]. change ("" +:+ w') with w'.
    rewrite (str_app_assoc w'), (str_app_assoc s). apply text_array; auto.
  - rewrite serialize_object.
    destruct (compound_written _ "{" "}" (write_members serialize true m) (λ s, json_text (Object m) ("{" +:+ s +:+ "}")) fmt Hf)
      as (fmt' & s & Hw & Hd & Ht); [|by exists fmt', ("{" +:+ s +:+ "}")].
    intros fmt1 Hf1. destruct m as [|[k j] m]; cbn [write_members].
    { eexists _, _. split; [reflexivity|split; [done|]]. intros w Hw. by constructor. }
    destruct (IH (k, j) ltac:(by left) fmt1) as (fmt2 & s & E & Hd & Hs).
    { eapply sound_le; [|exact Hf1]. apply (max_in (λ e, json_height e.2)). by left. }
    cbn [snd] in E, Hs. rewrite E. cbn [mbind Res_bind fst snd].
    destruct (members_written m (foldr (λ e n, Nat.max (json_height e.2) n) 0%nat ((k, j) :: m)) (end_value fmt2))
      as (fmt3 & t & -> & Hd' & Ht).
    { intros x Hx. split; [apply IH; by right|apply (max_in (λ e, json_height e.2)); by right]. }
    { by eapply same_depth_sound. }
    cbn [mbind Res_bind fst snd]. eexists _, _. split; [reflexivity|split; [by eapply same_depth_end|]]. intros w Hw.
    unfold begin_object_key. destruct (separator_text true fmt1) as (w' & Hw' & ->); [apply Hf1|].
    change ("" +:+ w') with w'. rewrite (str_app_assoc w'), !(str_app_assoc (string_text k)), !(str_app_assoc begin_object_value), (str_app_assoc s).
    apply (text_object k j m w' EmptyString " "); auto.
Qed.

(** C19: the text that a value is encoded as is a JSON text, in the grammar of RFC 8259,
    of the form that is built of the value: whatever the indentation, the options and
    the texts of numbers and strings, it is printed without a panic. *)
Theorem encoded_text opts v : Z.of_nat (json_height (build_json opts v)) < 2 ^ 64 → ∃ s,
  to_json_string_with_options serialize v opts = Ok s ∧ json_text (build_json opts v) s.
Proof using All.
  intros Hh. unfold to_json_string_with_options.
  destruct (value_written (build_json opts v) (with_indent (json_indent opts))) as (fmt & s & -> & _ & Hs).
  { split_and!; [|done|exact Hh]. cbn [with_indent indent_text]. by apply blank_repeat. }
  by exists s.
Qed.
End Serialize.
End Driver.
End Texts.

(** ** Merge patches *)

(** The object that a patch is merged into: a copy of the source, or a new one. *)
Definition target (src : ValueRef) : ValueRef := if is_config src then deep_copy src else ref_dict [].
(** The result of a patch as RFC 7396 defines it: a patch that is no object is the
    result; of an object, a null removes the name, and another value is merged into
    what the name has. *)
Inductive merge_patch : ValueRef → ValueRef → ValueRef → Prop :=
  | patch_other src patch : is_config patch = false → merge_patch src patch (deep_copy patch)
  | patch_object src patch r (merged : string → ValueRef) : is_config patch = true → is_config r = true →
      (∀ k, dict_get_value patch k = None → dict_get_value r k = dict_get_value (target src) k) →
      (∀ k v, dict_get_value patch k = Some v → is_none_or_undefined v = true → dict_get_value r k = None) →
      (∀ k v, dict_get_value patch k = Some v → is_none_or_undefined v = false →
        dict_get_value r k = Some (merged k)) →
      (∀ k v, dict_get_value patch k = Some v → is_none_or_undefined v = false →
        merge_patch (default (ref_dict []) (dict_get_value (target src) k)) v (merged k)) →
      merge_patch src patch r.

Lemma map_config_kind f v r : map_config f v = Some r → is_config r = true.
Proof. unfold map_config. destruct (rc v); try done; by intros [= <-]. Qed.
Lemma update_config v k x : is_config v = true → wf_value v → wf_value x → ∃ r,
  dict_update_key_value v k x = Ok r ∧ is_config r = true ∧ wf_value r ∧
  ∀ k', dict_get_value r k' = if decide (k' = k) then Some x else dict_get_value v k'.
Proof.
  intros Hc Hv Hx. destruct (dict_point_updates v k x Hv Hx) as (Hu & _ & Hok & _).
  destruct (dict_update_key_value v k x) as [r|] eqn:E; [|by rewrite Hc in Hok]. exists r.
  destruct (Hu r eq_refl). split_and!; try done. unfold dict_update_key_value in E.
  destruct (map_config _ v) eqn:Em; [|done]. injection E as <-. by eapply map_config_kind.
Qed.
Lemma remove_config v k : is_config v = true → wf_value v → ∃ r,
  dict_remove v k = Ok r ∧ is_config r = true ∧ wf_value r ∧
  ∀ k', dict_get_value r k' = if decide (k' = k) then None else dict_get_value v k'.
Proof.
  intros Hc Hv. destruct (dict_point_updates v k ref_none Hv) as (_ & Hu & _ & Hok); [by constructor; [|intros ? ?%elem_of_nil]|].
  destruct (dict_remove v k) as [r|] eqn:E; [|by rewrite Hc in Hok]. exists r.
  destruct (Hu r eq_refl). split_and!; try done. unfold dict_remove in E.
  destruct (map_config _ v) eqn:Em; [|done]. injection E as <-. by eapply map_config_kind.
Qed.
Lemma get_value_entry v k x : dict_get_value v k = Some x → ∃ d, config_of v = Some d ∧ (k, x) ∈ values d.
Proof.
  unfold dict_get_value. destruct (config_of v) as [d|]; [|done]. intros Hx. exists d. split; [done|by apply map_get_in].
Qed.
Lemma get_value_wf v k x : wf_value v → dict_get_value v k = Some x → wf_value x.
Proof.
  intros Hv (d & Hd & Hx)%get_value_entry. apply (wf_value_child v); [done|].
  destruct v as [[]]; try discriminate Hd; injection Hd as <-; by apply (list_elem_of_fmap_2 snd) in Hx.
Qed.
Lemma target_config src : is_config (target src) = true.
Proof. unfold target. destruct (is_config src) eqn:E; [|done]. by destruct src as [[]]. Qed.
Lemma target_wf src : wf_value src → wf_value (target src).
Proof. intros H. unfold target. destruct (is_config src); [by apply deep_copy_wf|]. by apply check_wf_sound. Qed.

Section MergeKeys.
Variable merge : ValueRef → ValueRef → Res ValueRef.
Variable src patch : ValueRef.
Hypothesis patch_wf : wf_value patch.
Hypothesis merge_ok : ∀ k v s, dict_get_value patch k = Some v → wf_value s → ∃ m, merge s v = Ok m ∧ wf_value m ∧ merge_patch s v m.

(** What is at the key after its patch. *)
Definition patched (r : ValueRef) (k : string) : Prop :=
  match dict_get_value patch k with
  | None => dict_get_value r k = dict_get_value (target src) k
  | Some v =>
      if is_none_or_undefined v then dict_get_value r k = None
      else ∃ m, merge_patch (default (ref_dict []) (dict_get_value (target src) k)) v m ∧ dict_get_value r k = Some m
  end.
Lemma merge_key_patched r k : is_config r = true → wf_value r → dict_get_value r k = dict_get_value (target src) k → ∃ r',
  merge_key merge patch r k = Ok r' ∧ is_config r' = true ∧ wf_value r' ∧ patched r' k ∧
  ∀ k', k' ≠ k → dict_get_value r' k' = dict_get_value r k'.
Proof using patch_wf merge_ok.
  intros Hc Hr Hk. unfold merge_key, patched. destruct (dict_get_value patch k) as [v|] eqn:Hv.
  2:{ exists r. split_and!; done. }
  destruct (is_none_or_undefined v) eqn:Hn.
  { destruct (remove_config r k Hc Hr) as (r' & -> & Hc' & Hr' & Hg). exists r'. split_and!; [done..| |].
    - by rewrite Hg, decide_True.
    - intros k' Hne. by rewrite Hg, decide_False. }
  assert (∀ m, wf_value m → merge_patch (default (ref_dict []) (dict_get_value (target src) k)) v m → ∃ r',
    dict_update_key_value r k m = Ok r' ∧ is_config r' = true ∧ wf_value r' ∧
    (∃ m, merge_patch (default (ref_dict []) (dict_get_value (target src) k)) v m ∧ dict_get_value r' k = Some m) ∧
    ∀ k', k' ≠ k → dict_get_value r' k' = dict_get_value r k') as Hup.
  { intros m Hm Hp. destruct (update_config r k m Hc Hr Hm) as (r' & -> & Hc' & Hr' & Hg). exists r'. split_and!; [done..| |].
    - exists m. split; [done|]. by rewrite Hg, decide_True.
    - intros k' Hne. by rewrite Hg, decide_False. }
  destruct (is_config v) eqn:Hcv.
  - rewrite Hk. destruct (merge_ok k v (default (ref_dict []) (dict_get_value (target src) k)) Hv) as (m & -> & Hm & Hp).
    { rewrite <- Hk. destruct (dict_get_value r k) eqn:E; [exact (get_value_wf _ _ _ Hr E)|by apply check_wf_sound]. }
    by apply Hup.
  - apply Hup; [|by constructor]. apply deep_copy_wf. exact (get_value_wf _ _ _ patch_wf Hv).
Qed.
Lemma merge_keys_patched keys : ∀ r, NoDup keys → is_config r = true → wf_value r →
  (∀ k, k ∈ keys → dict_get_value r k = dict_get_value (target src) k) → (∀ k, k ∉ keys → patched r k) → ∃ r',
  merge_keys merge patch (ref_str <$> keys) r = Ok r' ∧ is_config r' = true ∧ wf_value r' ∧ ∀ k, patched r' k.
Proof using patch_wf merge_ok.
  induction keys as [|k keys IH]; intros r Hnd Hc Hr Hin Hout; cbn [fmap list_fmap merge_keys].
  { exists r. split_and!; try done. intros k. apply Hout. by intros ?%elem_of_nil. }
  apply list.NoDup_cons in Hnd as [Hk Hnd].
  destruct (merge_key_patched r k Hc Hr (Hin k ltac:(by left))) as (r' & Hm & Hc' & Hr' & Hp & Hg).
  change (as_str (ref_str k)) with k. rewrite Hm. cbn [mbind Res_bind]. apply IH; [done..| |].
  - intros k' Hk'. rewrite Hg; [apply Hin; by right|]. by intros ->.
  - intros k' Hk'. destruct (decide (k' = k)) as [->|Hne]; [done|].
    assert (k' ∉ k :: keys) as Hnot by (intros [->|?]%elem_of_cons; done). specialize (Hout k' Hnot).
    unfold patched in *. destruct (dict_get_value patch k'); [|by rewrite Hg]. destruct (is_none_or_undefined _); by rewrite Hg.
Qed.
End MergeKeys.

Lemma json_merge_patch fuel : ∀ src patch, wf_value src → wf_value patch → (height patch < fuel)%nat →
  ∃ r, json_merge_impl fuel src patch = Ok r ∧ wf_value r ∧ merge_patch src patch r.
Proof.
  induction fuel as [|fuel IH]; intros src patch Hs Hp Hf; [lia|]. cbn [json_merge_impl].
  destruct (is_config patch) eqn:Hc; cbn [negb]; [|eexists; split; [reflexivity|split; [by apply deep_copy_wf|by constructor]]].
  pose proof Hc as Hc'. rewrite is_config_of in Hc'. destruct (config_of patch) as [d|] eqn:Hd; [|done].
  unfold dict_keys, dict_config. rewrite Hd. cbn [mbind Res_bind as_list_ref rc ref_list list_values].
  change (if is_config src then deep_copy src else ref_dict []) with (target src).
  assert (∀ k, k ∉ (values d).*1 → dict_get_value patch k = None) as Hnone.
  { intros k Hk. unfold dict_get_value. rewrite Hd. by apply map_get_None. }
  destruct (merge_keys_patched (json_merge_impl fuel) src patch Hp) with (keys := (values d).*1) (r := target src)
    as (r & Hr & Hrc & Hrw & Hpatched).
  - intros k v s Hv Hsw. apply IH; [done|exact (get_value_wf _ _ _ Hp Hv)|]. apply get_value_entry in Hv as (d' & Hd' & Hin).
    pose proof (height_entry _ _ _ Hd' Hin). cbn [snd] in *. lia.
  - by apply (wf_config_of patch).
  - apply target_config.
  - by apply target_wf.
  - done.
  - intros k Hk. unfold patched. by rewrite Hnone.
  - exists r. split; [exact Hr|split; [done|]]. apply (patch_object _ _ _ (λ k, default ref_none (dict_get_value r k))); try done.
    + intros k Hk. specialize (Hpatched k). unfold patched in Hpatched. by rewrite Hk in Hpatched.
    + intros k v Hk Hn. specialize (Hpatched k). unfold patched in Hpatched. by rewrite Hk, Hn in Hpatched.
    + intros k v Hk Hn. specialize (Hpatched k). unfold patched in Hpatched. rewrite Hk, Hn in Hpatched.
      destruct Hpatched as (m & _ & ->). done.
    + intros k v Hk Hn. specialize (Hpatched k). unfold patched in Hpatched. rewrite Hk, Hn in Hpatched.
      destruct Hpatched as (m & Hm & ->). done.
Qed.

(** C17: [json.merge] gives the result that RFC 7396 defines for its arguments, at any
    depth, where Undefined counts as null; it does not panic, and a recursion as deep as
    the patch is enough. *)
Theorem json_merge_rfc7396 `{Profile} args kwargs src patch :
  get_call_arg args kwargs 0 (Some "src") = Ok (Some src) → get_call_arg args kwargs 1 (Some "patch") = Ok (Some patch) →
  wf_value src → wf_value patch → ∃ r, kcl_json_merge args kwargs = Ok r ∧ wf_value r ∧ merge_patch src patch r.
Proof.
  intros E1 E2 Hs Hp. unfold kcl_json_merge. rewrite E1. cbn [mbind Res_bind]. rewrite E2. cbn [mbind Res_bind].
  apply json_merge_patch; [done|done|lia].
Qed.

(** ** Samples *)

Module Sample.
Definition profile : Profile := {| overflow_checks := true |}.
Definition config : ContextConfig := {| debug_mode := false; strict_range_check := false; disable_schema_check := false |}.
Definition no_schemas (name : string) : option (ValueRef → ValueRef → ValueRef → Res ValueRef) := None.
Definition form : JsonValue :=
  Object [("b", Array [Number (json_integer 1); Null; Object []]); ("a", JString "x"); ("c", Number (json_float f_zero))].
Definition value : ValueRef :=
  ref_dict [("b", ref_list [ref_int 1; ref_none; ref_undefined]); ("_a", ref_list []); ("a", ref_dict [])].
(** Texts of numbers and strings without escapes, and the driver of the formatter. *)
Definition number_text (n : JsonNumber) : string := match n with json_integer z => pretty.pretty z | json_float _ => "0.0" end.
Definition string_text (s : string) : string := DQUOTE +:+ s +:+ DQUOTE.
Fixpoint driver (fmt : JsonFormatter) (j : JsonValue) {struct j} : Res (JsonFormatter * string) :=
  match j with
  | Null => Ok (fmt, "null")
  | Bool b => Ok (fmt, if b then "true" else "false")
  | Number n => Ok (fmt, number_text n)
  | JString s => Ok (fmt, string_text s)
  | Array l => compound (begin_array (HP := profile) fmt) (write_elements driver true l) (end_array (HP := profile))
  | Object m => compound (begin_object (HP := profile) fmt) (write_members string_text driver true m) (end_object (HP := profile))
  end.
#[export] Instance driver_serde : SerdeJson number_text string_text (HP := profile) driver.
Proof. by split. Qed.
Definition options : JsonEncodeOptions := MkJsonOptions true 2 true false.
(** [{a: 1, b: 2, c: {d: 3}}] and a patch that removes a. *)
Definition source : ValueRef := ref_dict [("a", ref_int 1); ("b", ref_int 2); ("c", ref_dict [("d", ref_int 3)])].
Definition patch : ValueRef := ref_dict [("a", ref_none); ("c", ref_dict [("e", ref_int 4)])].
Definition merge_args : ValueRef := ref_list [source; patch].
End Sample.

Example encoded_sample : to_json_string_with_options Sample.driver Sample.value Sample.options =
  Ok ("{" +:+ NEWLINE +:+ "  " +:+ DQUOTE +:+ "a" +:+ DQUOTE +:+ ": {}," +:+ NEWLINE +:+
      "  " +:+ DQUOTE +:+ "b" +:+ DQUOTE +:+ ": [" +:+ NEWLINE +:+ "    1," +:+ NEWLINE +:+ "    null" +:+ NEWLINE +:+
      "  ]" +:+ NEWLINE +:+ "}").
Proof. vm_compute. reflexivity. Qed.
(** A key that is removed leaves its place to the last one. *)
Example merge_moves_last : json_merge_impl 5 Sample.source (ref_dict [("a", ref_none)]) =
  Ok (Ref (dict_value (MkDict [("c", Ref (dict_value (MkDict [("d", ref_int 3)] [("d", Union)] [] [] None None))); ("b", ref_int 2)]
    [("a", Union); ("b", Union); ("c", Union)] [] [] None None))).
Proof. vm_compute. reflexivity. Qed.
(** Private attributes are printed without options and hidden with empty ones. *)
Example stream_defaults :
  stream_options None = Ok (MkYamlOptions false false false "---") ∧
  stream_options (Some (ref_dict [])) = Ok (MkYamlOptions false true false "---").
Proof. split; reflexivity. Qed.
(** The separator is read from [sep], not from [separator]. *)
Example stream_separator :
  stream_options (Some (ref_dict [("separator", ref_str "===")])) = Ok (MkYamlOptions false true false "---").
Proof. reflexivity. Qed.

Lemma json_roundtrip_witness :
  json_ok Sample.form = true ∧
  parse_json (HP := Sample.profile) (HC := Sample.config) (λ _, "") Sample.no_schemas Sample.form = Ok (value_of Sample.form) ∧
  build_json JsonEncodeOptions_default (value_of Sample.form) = Sample.form.
Proof.
  split; [reflexivity|].
  exact (json_roundtrip (HP := Sample.profile) (HC := Sample.config) (λ _, "") Sample.no_schemas eq_refl Sample.form eq_refl).
Defined.
Lemma encoded_text_witness :
  Z.of_nat (json_height (build_json Sample.options Sample.value)) < 2 ^ 64 ∧ ∃ s,
  to_json_string_with_options Sample.driver Sample.value Sample.options = Ok s ∧
  json_text Sample.number_text Sample.string_text (build_json Sample.options Sample.value) s.
Proof.
  pose proof Sample.driver_serde as HS.
  assert (Z.of_nat (json_height (build_json Sample.options Sample.value)) < 2 ^ 64) as H by reflexivity.
  split; [exact H|].
  exact (encoded_text Sample.number_text Sample.string_text (HP := Sample.profile) Sample.driver Sample.options Sample.value H).
Defined.
Lemma json_merge_rfc7396_witness :
  wf_value Sample.source ∧ wf_value Sample.patch ∧ ∃ r,
  kcl_json_merge (H := Sample.profile) Sample.merge_args (ref_dict []) = Ok r ∧ merge_patch Sample.source Sample.patch r.
Proof.
  assert (wf_value Sample.source) as Hs by (apply check_wf_sound; vm_compute; reflexivity).
  assert (wf_value Sample.patch) as Hp by (apply check_wf_sound; vm_compute; reflexivity).
  split; [exact Hs|split; [exact Hp|]].
  destruct (json_merge_rfc7396 (H := Sample.profile) Sample.merge_args (ref_dict []) Sample.source Sample.patch
    eq_refl eq_refl Hs Hp) as (r & Hr & _ & Hm).
  exists r. exact (conj Hr Hm).
Defined.
