(* ===== verification/BuiltinApi.v ===== *)
(** * The functions that programs call

    [crates/runtime/src/stdlib/builtin_api.rs]: the builtin functions as the
    evaluator calls them, with a list of positional and a dictionary of keyword
    arguments; [stdlib/builtin.rs]: [float] and [round]; [collection/mod.rs]; and
    the table of the functions of [addr.rs].

    [isunique] is left out: what it answers depends on the layout of a hash set. *)

From stdpp Require Import base tactics list strings numbers pretty.
From Stdlib Require Import ZArith Lia SpecFloat.
From S2P Require Import Prelude MachineInt IndexMap Str Float64 Value Cmp ListOps DictOps Arith UnionOps.
From S2P Require Import Display Iter Builtin Args Plan Context Format.
Local Open Scope Z_scope.
Local Set Warnings "-clear-no-such-hyp".

Section Api.
Context {HP : Profile} {HC : ContextConfig} {HF : FloatText}.
Variable f64_to_string : f64 → string.
Variable powf : f64 → f64 → f64.
Variable to_json_string : ValueRef → string.
Variable all_schemas : string → option (ValueRef → ValueRef → ValueRef → Res ValueRef).
(** [s.parse::<f64>()] *)
Variable parse_f64 : string → option f64.
(** The rounds of the loops that may not end. *)
Variable fuel : nat.

(** ** [float] and [round] *)

(** [(v as f32).is_infinite()]: from halfway between the largest [f32] and the next power on. *)
Definition as_f32_is_infinite (v : f64) : bool := f_le (f_of_mant (2 ^ 25 - 1) 103) (f_abs v).
Definition is_infinite (v : f64) : bool := match v with S754_infinity _ => true | _ => false end.
Definition check_float (v : f64) : Res ValueRef :=
  if strict_range_check_32 && as_f32_is_infinite v then
    Panic (PanicMsg "inf: A 32-bit floating point number overflow")
  else if strict_range_check_64 && is_infinite v then
    Panic (PanicMsg "inf: A 64-bit floating point number overflow")
  else Ok (ref_float v).
Definition convert_to_float (self : ValueRef) : Res ValueRef :=
  let invalid := PanicMsg ("invalid literal for float() with base 10: '" +:+ to_string f64_to_string self +:+ "'") in
  match rc self with
  | int_value v => Ok (ref_float (f_of_int v))
  | float_value v => check_float v
  | unit_value v _ _ => Ok (ref_float v)
  | bool_value v => Ok (ref_float (f_of_int (Z_of_bool v)))
  | str_value v => match parse_f64 v with Some v => check_float v | None => Panic invalid end
  | _ => Panic invalid
  end.

Definition f_ten : f64 := f_of_int 10.
(** [1e22] is an integer multiple of [2 ^ 22] that a double holds exactly. *)
Definition f_1e22 : f64 := f_of_mant 2384185791015625 22.
Definition f_half : f64 := f_of_mant 1 (-1).
Definition f_two : f64 := f_of_int 2.
Definition f_one : f64 := f_of_int 1.
(** The number scaled up, or down for negative digits, and the scales. *)
Definition round_scaled (number : f64) (ndigits : Z) : Res (option (f64 * f64 * option f64)) :=
  if 0 <=? ndigits then
    let '(pow1, pow2) :=
      if 22 <? ndigits then (powf f_ten (f_of_int (ndigits - 22)), f_1e22)
      else (powf f_ten (f_of_int ndigits), f_one) in
    let y := f_mul (f_mul number pow1) pow2 in
    Ok (if f_is_finite y then Some (y, pow1, Some pow2) else None)
  else
    n ← arith 64 (- ndigits);
    let pow1 := powf f_ten (f_of_int n) in
    Ok (Some (f_div number pow1, pow1, None)).
(** A value halfway between two integers goes to the even one. *)
Definition round_half (y : f64) : f64 :=
  let z := f_round y in
  if f_eq (f_abs (f_sub y z)) f_half then f_mul f_two (f_round (f_div y f_two)) else z.
Definition round_to (number : f64) (ndigits : Z) : Res ValueRef :=
  scaled ← round_scaled number ndigits;
  Ok match scaled with
     | None => ref_float number
     | Some (y, pow1, pow2) =>
         let z := round_half y in
         let z := match pow2 with Some pow2 => f_div (f_div z pow2) pow1 | None => f_mul z pow1 end in
         if f_is_finite z then ref_float z else ref_undefined
     end.
Definition round (number ndigits : ValueRef) : Res ValueRef :=
  match rc ndigits, rc number with
  | int_value _, int_value number => Ok (ref_float (f_of_int number))
  | int_value ndigits, float_value number =>
      if ndigits =? 0 then Ok (ref_float (f_round number)) else round_to number ndigits
  | int_value _, _ => Ok ref_undefined
  | _, int_value number => Ok (ref_int number)
  | _, float_value number => Ok (ref_int (f_to_i64 (f_round number)))
  | _, _ => Ok ref_undefined
  end.

(** ** Calls *)

(** [get_call_arg] of an argument that has to be there. *)
Definition required (args kwargs : ValueRef) (key msg : string) (f : ValueRef → Res ValueRef) : Res ValueRef :=
  arg ← get_call_arg args kwargs 0%nat (Some key);
  match arg with Some arg => f arg | None => Panic (PanicMsg msg) end.
Definition optional (args kwargs : ValueRef) (index : nat) (key : string) (none : ValueRef)
    (f : ValueRef → Res ValueRef) : Res ValueRef :=
  arg ← get_call_arg args kwargs index (Some key);
  match arg with Some arg => f arg | None => Ok none end.

Definition kcl_builtin_len (args kwargs : ValueRef) : Res ValueRef :=
  required args kwargs "inval" "len() takes exactly one argument (0 given)" (λ arg,
    n ← len arg; Ok (ref_int n)).
Definition kcl_builtin_any_true (args kwargs : ValueRef) : Res ValueRef :=
  optional args kwargs 0%nat "inval" (ref_bool false) (λ arg0, Ok (ref_bool (any_true arg0))).
Definition kcl_builtin_all_true (args kwargs : ValueRef) : Res ValueRef :=
  optional args kwargs 0%nat "inval" (ref_bool false) (λ arg0, Ok (ref_bool (all_true arg0))).
Definition kcl_builtin_sorted (args kwargs : ValueRef) : Res ValueRef :=
  required args kwargs "inval" "sorted() takes exactly one argument (0 given)" (λ arg0,
    reverse ← get_call_arg args kwargs 1%nat (Some "reverse"); sorted arg0 reverse).
Definition kcl_builtin_int (args kwargs : ValueRef) : Res ValueRef :=
  required args kwargs "number" "int() takes exactly one argument (0 given)" (λ arg0,
    base ← get_call_arg args kwargs 1%nat (Some "base"); convert_to_int f64_to_string arg0 base).
Definition kcl_builtin_float (args kwargs : ValueRef) : Res ValueRef :=
  required args kwargs "number" "float() takes exactly one argument (0 given)" convert_to_float.
Definition kcl_builtin_bool (args kwargs : ValueRef) : Res ValueRef :=
  required args kwargs "x" "bool() takes exactly one argument (0 given)" (λ arg0, Ok (ref_bool (is_truthy arg0))).
Definition kcl_builtin_str (args kwargs : ValueRef) : Res ValueRef :=
  optional args kwargs 0%nat "x" (ref_str "") (λ arg0, Ok (ref_str (to_string f64_to_string arg0))).
(** The largest of the arguments, or of the elements of the only one. *)
Definition extreme (msg : string) (f : ValueRef → Res ValueRef) (args : ValueRef) : Res ValueRef :=
  if Nat.ltb 1 (args_len args) then f args
  else match arg_0 args with Some arg0 => f arg0 | None => Panic (PanicMsg msg) end.
Definition kcl_builtin_max (args kwargs : ValueRef) : Res ValueRef :=
  extreme "max() takes exactly one argument (0 given)" max_value args.
Definition kcl_builtin_min (args kwargs : ValueRef) : Res ValueRef :=
  extreme "min() takes exactly one argument (0 given)" min_value args.
Definition kcl_builtin_multiplyof (args kwargs : ValueRef) : Res ValueRef :=
  a ← get_call_arg args kwargs 0%nat (Some "a");
  b ← get_call_arg args kwargs 1%nat (Some "b");
  match a, b with
  | Some arg0, Some arg1 => multiplyof arg0 arg1
  | _, _ => Panic (PanicMsg ("multiplyof() takes exactly two argument (" +:+
                             pretty (Z.of_nat (args_len args)) +:+ " given)"))
  end.
Definition kcl_builtin_abs (args kwargs : ValueRef) : Res ValueRef :=
  required args kwargs "inval" "abs() takes exactly one argument (0 given)" abs_value.
Definition kcl_builtin_hex (args kwargs : ValueRef) : Res ValueRef :=
  required args kwargs "number" "hex() takes exactly one argument (0 given)" (λ arg0, Ok (hex arg0)).
Definition kcl_builtin_bin (args kwargs : ValueRef) : Res ValueRef :=
  required args kwargs "number" "bin() takes exactly one argument (0 given)" (λ arg0, Ok (bin arg0)).
Definition kcl_builtin_oct (args kwargs : ValueRef) : Res ValueRef :=
  required args kwargs "number" "oct() takes exactly one argument (0 given)" (λ arg0, Ok (oct arg0)).
Definition kcl_builtin_ord (args kwargs : ValueRef) : Res ValueRef :=
  required args kwargs "c" "ord() takes exactly one argument (0 given)" ord.
Definition kcl_builtin_sum (args kwargs : ValueRef) : Res ValueRef :=
  optional args kwargs 0%nat "iterable" ref_undefined (λ arg0,
    start ← get_call_arg args kwargs 1%nat (Some "start"); sum arg0 (default (ref_int 0) start)).
Definition kcl_builtin_pow (args kwargs : ValueRef) : Res ValueRef :=
  x ← get_call_arg args kwargs 0%nat (Some "x");
  y ← get_call_arg args kwargs 1%nat (Some "y");
  match x, y with
  | Some arg0, Some arg1 => z ← get_call_arg args kwargs 2%nat (Some "z"); pow powf arg0 arg1 (default ref_none z)
  | _, _ => Ok ref_undefined
  end.
Definition kcl_builtin_round (args kwargs : ValueRef) : Res ValueRef :=
  optional args kwargs 0%nat "number" ref_undefined (λ arg0,
    ndigits ← get_call_arg args kwargs 1%nat (Some "ndigits"); round arg0 (default ref_none ndigits)).
Definition kcl_builtin_zip (args kwargs : ValueRef) : Run ValueRef := zip_run fuel args.
Definition kcl_builtin_list (args kwargs : ValueRef) : Res ValueRef :=
  if Nat.ltb 0 (args_len args) then
    required args kwargs "x" "invalid arguments in list() function" (λ arg0, list_of (Some arg0))
  else list_of None.
(** The entries of the argument, and behind them the keyword arguments. *)
Definition dict_of_arg (arg0 : option ValueRef) : Run ValueRef :=
  match arg0 with
  | Some arg0 =>
      match dict_run f64_to_string to_json_string all_schemas fuel (Some arg0) with
      | Some v =>
          Some (v ← v; dict_insert_unpack to_json_string all_schemas (to_string f64_to_string) (ref_dict []) v)
      | None => None
      end
  | None => Some (Ok (ref_dict []))
  end.
Definition kcl_builtin_dict (args kwargs : ValueRef) : Run ValueRef :=
  run_with (get_call_arg args kwargs 0%nat (Some "x")) (λ arg0,
    match dict_of_arg arg0, dict_run f64_to_string to_json_string all_schemas fuel (Some kwargs) with
    | Some d, Some v =>
        Some (d ← d; v ← v; dict_insert_unpack to_json_string all_schemas (to_string f64_to_string) d v)
    | _, _ => None
    end).
Definition kcl_builtin_typeof (args kwargs : ValueRef) : Res ValueRef :=
  required args kwargs "x" "typeof() missing 1 required positional argument: 'x'" (λ arg0,
    full_name ← get_call_arg args kwargs 1%nat (Some "full_name");
    builtin_type_of arg0 (default (ref_bool false) full_name)).
Definition kcl_builtin_range (args kwargs : ValueRef) : Run ValueRef :=
  run_with (get_call_arg args kwargs 0%nat (Some "start")) (λ start,
  match start with
  | Some arg0 =>
      run_with (get_call_arg args kwargs 1%nat (Some "stop")) (λ stop,
      match stop with
      | Some arg1 =>
          run_with (get_call_arg args kwargs 2%nat (Some "step")) (λ step,
            range_run fuel arg0 arg1 (default (ref_int 1) step))
      | None => range_run fuel (ref_int 0) arg0 (ref_int 1)
      end)
  | None => Some (Ok ref_undefined)
  end).
Definition kcl_builtin_isnullish (args kwargs : ValueRef) : Res ValueRef :=
  required args kwargs "inval" "is_nullable() takes exactly one argument (0 given)" (λ arg0,
    Ok (ref_bool (is_none_or_undefined arg0))).
Definition kcl_builtin_reduce (args kwargs : ValueRef) : Res ValueRef :=
  Panic (PanicMsg "kcl_builtin_reduce should be handled by the evaluator").

(** *** [option] *)

(** [format!("{}", v)] of a bool and of a float. *)
Definition bool_display (v : bool) : string := if v then "true" else "false".
Definition float_display (v : f64) : string :=
  if f_sign_negative v && negb (f_is_nan v) then "-" +:+ text_display (f_abs v) else text_display v.
Definition _value_to_type (this : ValueRef) (typ : string) : Res ValueRef :=
  let cannot := PanicMsg ("cannot use '" +:+ to_string f64_to_string this +:+ "' as type '" +:+ typ +:+ "'") in
  if bool_decide (typ = "") then Ok this
  else if bool_decide (typ = "bool") then
    Ok match rc this with
       | bool_value v => ref_bool v
       | int_value v => ref_bool (negb (v =? 0))
       | float_value v => ref_bool (negb (f_eq v f_zero))
       | str_value v => ref_bool (bool_decide (v = "True") || bool_decide (v = "true"))
       | _ => ref_undefined
       end
  else if bool_decide (typ = "int") then
    match rc this with
    | bool_value v => Ok (ref_int (Z_of_bool v))
    | int_value v => Ok (ref_int v)
    | float_value v => Ok (ref_int (f_to_i64 v))
    | str_value v =>
        n ← i64_from_str_radix v 10;
        match n with
        | Some n => Ok (ref_int n)
        | None => Panic (PanicMsg ("cannot use '" +:+ v +:+ "' as type '" +:+ typ +:+ "'"))
        end
    | _ => Panic cannot
    end
  else if bool_decide (typ = "float") then
    match rc this with
    | bool_value v => Ok (ref_float (f_of_int (Z_of_bool v)))
    | int_value v => Ok (ref_float (f_of_int v))
    | float_value v => Ok (ref_float v)
    | str_value v => Ok (ref_float (default f_zero (parse_f64 v)))
    | _ => Panic cannot
    end
  else if bool_decide (typ = "str") then
    match rc this with
    | bool_value v => Ok (ref_str (bool_display v))
    | int_value v => Ok (ref_str (pretty v))
    | float_value v => Ok (ref_str (float_display v))
    | str_value v => Ok (ref_str v)
    | _ => Panic cannot
    end
  else if bool_decide (typ = "list") then if is_list this then Ok this else Panic cannot
  else if bool_decide (typ = "dict") then if is_dict this then Ok this else Panic cannot
  else Panic (PanicMsg ("unknown type '" +:+ typ +:+ "'")).
Definition option_typed (args kwargs x : ValueRef) : Res ValueRef :=
  kwarg_type ← get_call_arg_str args kwargs 1%nat (Some "type");
  match kwarg_type with Some typ => _value_to_type x typ | None => Ok x end.
(** What is left when there is neither a value nor a default. *)
Definition option_missing (args kwargs : ValueRef) : Res ValueRef :=
  required ← get_call_arg_bool args kwargs 2%nat (Some "required");
  if default false required then
    name ← get_call_arg_str args kwargs 0%nat (Some "key");
    let name := default "?" name in
    Panic (PanicMsg ("option('" +:+ name +:+ "') must be initialized, try '-D " +:+ name +:+ "=?' argument"))
  else Ok ref_none.
Definition kcl_builtin_option (args kwargs : ValueRef) : Effect ValueRef :=
  options ← ask option_values;
  lift (
    arg0 ← get_call_arg_str args kwargs 0%nat (Some "key");
    match arg0 with
    | Some arg0 =>
        match map_get arg0 options with
        | Some x => option_typed args kwargs x
        | None =>
            kwarg_default ← get_call_arg args kwargs 3%nat (Some "default");
            match kwarg_default with
            | Some v => option_typed args kwargs v
            | None => option_missing args kwargs
            end
        end
    | None => option_missing args kwargs
    end).

(** ** [collection.union_all] *)

Fixpoint union_from (result : ValueRef) (l : list ValueRef) : Res ValueRef :=
  match l with
  | [] => Ok result
  | v :: l => result ← bin_aug_union_with to_json_string all_schemas result v; union_from result l
  end.
Definition kcl_value_union_all (args kwargs : ValueRef) : Res ValueRef :=
  match arg_0 args with
  | Some arg =>
      if negb (is_truthy arg) || negb (is_list arg) then Ok (ref_dict [])
      else
        value ← as_list_ref arg;
        match list_values value with
        | [] => Ok (ref_dict [])
        | v :: l => union_from (deep_copy v) l
        end
  | None => Panic (PanicMsg "union_all() takes at least 1 argument (0 given)")
  end.

(** ** The call of a builtin function by its name *)

Definition once (f : ValueRef → ValueRef → Res ValueRef) (args kwargs : ValueRef) : Effect ValueRef :=
  lift (f args kwargs).
(** A loop that uses up its rounds does not return. *)
Definition looped (f : ValueRef → ValueRef → Run ValueRef) (args kwargs : ValueRef) : Effect ValueRef :=
  lift (default (Panic StackOverflow) (f args kwargs)).
Definition builtin_call (name : string) : option (ValueRef → ValueRef → Effect ValueRef) :=
  match name with
  | "option" => Some kcl_builtin_option
  | "print" => Some (kcl_builtin_print f64_to_string)
  | "multiplyof" => Some (once kcl_builtin_multiplyof)
  | "isnullish" => Some (once kcl_builtin_isnullish)
  | "len" => Some (once kcl_builtin_len)
  | "abs" => Some (once kcl_builtin_abs)
  | "all_true" => Some (once kcl_builtin_all_true)
  | "any_true" => Some (once kcl_builtin_any_true)
  | "hex" => Some (once kcl_builtin_hex)
  | "bin" => Some (once kcl_builtin_bin)
  | "oct" => Some (once kcl_builtin_oct)
  | "ord" => Some (once kcl_builtin_ord)
  | "sorted" => Some (once kcl_builtin_sorted)
  | "range" => Some (looped kcl_builtin_range)
  | "max" => Some (once kcl_builtin_max)
  | "min" => Some (once kcl_builtin_min)
  | "sum" => Some (once kcl_builtin_sum)
  | "pow" => Some (once kcl_builtin_pow)
  | "round" => Some (once kcl_builtin_round)
  | "zip" => Some (looped kcl_builtin_zip)
  | "int" => Some (once kcl_builtin_int)
  | "float" => Some (once kcl_builtin_float)
  | "bool" => Some (once kcl_builtin_bool)
  | "str" => Some (once kcl_builtin_str)
  | "list" => Some (once kcl_builtin_list)
  | "dict" => Some (looped kcl_builtin_dict)
  | "typeof" => Some (once kcl_builtin_typeof)
  | "reduce" => Some (once kcl_builtin_reduce)
  | _ => None
  end.
End Api.
