(* ===== verification/Linking.v ===== *)
(** * The resolver and the runtime agree on the functions

    The resolver accepts the members that [crates/sema/src/builtin] lists, with the
    parameters that are written there; the evaluator looks the members up by name
    ([Scopes], [addr.rs]) and the runtime reads the arguments by position or by name
    ([builtin_api.rs]).  This file compares the two sides. *)

From stdpp Require Import base tactics list strings numbers gmap.
From Stdlib Require Import ZArith Lia.
From S2P Require Import Prelude MachineInt IndexMap Str Float64 Value SemaTypes TyCalc Builtins.
From S2P Require Import Addr.
From S2P Require Eval Scopes.
From S2P Require Import Arith Iter Args Context Format BuiltinApi.
Local Set Warnings "-clear-no-such-hyp".

(** ** Members of the system packages *)

Definition is_field (m f : string) : bool := bool_decide (m = "units") && bool_decide (f ∈ UNITS_FIELD_NAMES).
Definition unlinked (m f : string) : bool := bool_decide (m = "collection") && bool_decide (f = "union_all").

(** Whether [p] holds of all members of all packages. *)
Definition all_members (p : string → string → bool) : bool :=
  forallb (λ m, match get_system_module_members m with Ok l => forallb (p m) l | Panic _ => false end)
    STANDARD_SYSTEM_MODULES.
Lemma all_members_spec p m l f : all_members p = true →
  m ∈ STANDARD_SYSTEM_MODULES → get_system_module_members m = Ok l → f ∈ l → p m f = true.
Proof.
  unfold all_members. rewrite forallb_forall. intros H Hm Hl Hf. specialize (H m ltac:(by apply list_elem_of_In)).
  rewrite Hl, forallb_forall in H. apply H. by apply list_elem_of_In.
Qed.

(** [load_attr_type] of the resolver on a system package: whether it accepts the
    member, and the type that the member gets. *)
Definition load_system_attr (start : string → positive) (pkgpath attr : string) : TyM (bool * TypeRef) :=
  if bool_decide (pkgpath = "units") && bool_decide (attr = UNITS_NUMBER_MULTIPLIER) then
    t ← cell number_multiplier_non_lit_ty; mret (true, t)
  else
    members ← TyCalc.lift (get_system_module_members pkgpath);
    t ← get_system_member_function_ty start pkgpath attr;
    mret (bool_decide (attr ∈ members), t).

(** The type of a member is that of a function, or of an integer for a unit; that of
    the multiplier of [units] is its own. *)
Definition member_type_ok (m f : string) (t : TypeRef) : bool :=
  if is_field m f then (if bool_decide (f = UNITS_NUMBER_MULTIPLIER) then is_number_multiplier t else is_int t)
  else is_func t.
Definition typed_ok (start : string → positive) (st : TyState) (m f : string) : bool :=
  match load_system_attr start m f st with
  | Ok ((found, t), _) => found && member_type_ok m f t
  | Panic _ => false
  end.
Lemma members_typed start st : all_members (typed_ok start st) = true.
Proof. vm_compute. reflexivity. Qed.
(** A name that is no member is refused. *)
Lemma load_system_attr_other start st m l f : get_system_module_members m = Ok l → f ∉ l →
  ∃ t st', load_system_attr start m f st = Ok ((false, t), st').
Proof.
  intros Hl Hf. unfold load_system_attr. destruct (_ && _) eqn:E.
  - apply andb_prop in E as [->%bool_decide_eq_true ->%bool_decide_eq_true]. exfalso. apply Hf.
    injection Hl as <-. apply (bool_decide_unpack _). vm_compute. exact I.
  - rewrite Hl. unfold mbind, TyM_bind, TyCalc.lift. cbv beta iota.
    rewrite (bool_decide_false (f ∈ l)) by done. unfold get_system_member_function_ty.
    destruct (static_types start m ≫= _); by eexists _, _.
Qed.

(** The member is there at run time. *)
Definition linked_ok (address : string → Z) (m f : string) : bool :=
  unlinked m f ||
  match Scopes.system_variable address m f with
  | Ok v => if is_field m f then Value.is_number v else Value.is_func v
  | Panic _ => false
  end.
Lemma members_linked address : all_members (linked_ok address) = true.
Proof. vm_compute. reflexivity. Qed.

Lemma members_known m : m ∈ STANDARD_SYSTEM_MODULES → ∃ l, get_system_module_members m = Ok l.
Proof.
  intros Hm. assert (is_Ok (get_system_module_members m) = true) as H.
  { revert m Hm. apply Forall_forall. apply (bool_decide_unpack _). vm_compute. exact I. }
  destruct (get_system_module_members m) as [l|]; [by exists l|done].
Qed.

Section Members.
Context {E C : Type}.
Lemma system_lookup address (s : Scopes.Evaluator E C) m f : m ∈ STANDARD_SYSTEM_MODULES →
  Scopes.get_variable_in_pkgpath address f m s = Eval.lift (Scopes.system_variable address m f) s.
Proof.
  intros Hm. unfold Scopes.get_variable_in_pkgpath.
  assert (Scopes.full_pkgpath m = "@" +:+ m ∧ "@" +:+ m ∈ Scopes.STANDARD_SYSTEM_MODULE_NAMES_WITH_AT) as [-> Hin].
  { revert m Hm. apply Forall_forall. apply (bool_decide_unpack _). vm_compute. exact I. }
  by rewrite bool_decide_eq_true_2.
Qed.

(** C36: the resolver accepts a member of a system package exactly when the package
    lists it, with the type of a function, of an integer if it is a unit, or of a number
    multiplier for [units.NumberMultiplier]; and the evaluator finds what was accepted: a
    function with an address, or a number (1.0 for the multiplier).  The one exception is
    [collection.union_all], which the runtime does not know by that name, so that its use
    is a panic. *)
Theorem system_members_linked start st address (s : Scopes.Evaluator E C) m f :
  m ∈ STANDARD_SYSTEM_MODULES →
  ∃ l found t st', get_system_module_members m = Ok l ∧
    load_system_attr start m f st = Ok ((found, t), st') ∧ (found = true ↔ f ∈ l) ∧
    (found = true → member_type_ok m f t = true ∧
       if unlinked m f
       then Scopes.get_variable_in_pkgpath address f m s = Panic (PanicMsg "unknown kcl_collection_union_all")
       else ∃ v, Scopes.get_variable_in_pkgpath address f m s = Ok (Eval.Done v, s) ∧
                 (if is_field m f then Value.is_number v else Value.is_func v) = true).
Proof.
  intros Hm. destruct (members_known m Hm) as [l Hl].
  destruct (decide (f ∈ l)) as [Hf|Hf].
  2: { destruct (load_system_attr_other start st _ _ _ Hl Hf) as (t & st' & H). by exists l, false, t, st'. }
  pose proof (all_members_spec _ _ _ _ (members_typed start st) Hm Hl Hf) as H. unfold typed_ok in H.
  destruct (load_system_attr start m f st) as [[[found t] st']|]; [|done]. apply andb_prop in H as [-> Ht].
  exists l, true, t, st'. split_and!; [done..|]. intros _. split; [done|].
  rewrite (system_lookup address s m f Hm).
  pose proof (all_members_spec _ _ _ _ (members_linked address) Hm Hl Hf) as H. unfold linked_ok in H.
  destruct (unlinked m f) eqn:Hu.
  - unfold unlinked in Hu. apply andb_prop in Hu as [->%bool_decide_eq_true ->%bool_decide_eq_true]. reflexivity.
  - destruct (Scopes.system_variable address m f) as [v|]; [by exists v|done].
Qed.
End Members.

(** ** Arguments by position and by name *)

(** The parameters of a builtin function, with whether they have a default. *)
Definition parameters (name : string) : list (string * bool) :=
  match snd <$> list_find (λ e, e.1 = name) BUILTIN_FUNCTIONS_table with
  | Some (_, ty) =>
      match ty (MkTyState 1 []) with
      | Ok (t, _) =>
          match SemaTypes.kind t with
          | TFunction f => (λ p, match p with MkParam n _ d _ _ => (n, d) end) <$> SemaTypes.params f
          | _ => []
          end
      | Panic _ => []
      end
  | None => []
  end.
Definition required_params (name : string) : nat :=
  length (List.filter (λ p, negb p.2) (parameters name)).
(** The functions with a fixed number of parameters. *)
Definition FIXED_FUNCTIONS : list string :=
  ["option"; "multiplyof"; "isnullish"; "len"; "abs"; "all_true"; "any_true"; "hex"; "bin"; "oct"; "ord";
   "sorted"; "sum"; "pow"; "round"; "int"; "float"; "bool"; "str"; "typeof"; "range"].

Section Keywords.
Context {HP : Profile} {HC : ContextConfig} {HF : FloatText}.
Variable f64_to_string : f64 → string.
Variable powf : f64 → f64 → f64.
Variable to_json_string : ValueRef → string.
Variable all_schemas : string → option (ValueRef → ValueRef → ValueRef → Res ValueRef).
Variable parse_f64 : string → option f64.
Variable fuel : nat.

(** a builtin function with a fixed number of parameters gives the same result and
    has the same effects when its arguments are given in order and when they are given
    by the names of the parameters that the resolver lists, as long as those without a
    default are given. *)
Theorem keywords_as_positions name f l c :
  name ∈ FIXED_FUNCTIONS →
  builtin_call f64_to_string powf to_json_string all_schemas parse_f64 fuel name = Some f →
  required_params name ≤ length l ≤ length (parameters name) →
  f (ref_list []) (ref_dict (zip (parameters name).*1 l)) c = f (ref_list l) (ref_dict []) c.
Proof using.
  intros Hn Hf Hl. unfold FIXED_FUNCTIONS in Hn.
  repeat (apply elem_of_cons in Hn as [->|Hn]); [..|by apply elem_of_nil in Hn]; injection Hf as <-;
    match type of Hl with required_params ?n ≤ _ ≤ _ =>
      let r := eval vm_compute in (required_params n) in
      change (required_params n) with r in Hl;
      let p := eval vm_compute in (parameters n) in
      change (parameters n) with p in Hl |- *
    end; cbn [length fmap list_fmap fst] in Hl |- *.
  all: repeat (destruct l as [|? l]; cbn [length] in Hl; try (exfalso; lia)); try reflexivity.
Qed.
End Keywords.

(** ** Samples *)

Module Sample.
Definition profile : Profile := {| overflow_checks := true |}.
Definition config : ContextConfig := {| debug_mode := false; strict_range_check := false; disable_schema_check := false |}.
Definition floats : FloatText := {|
  text_fixed := λ _ _, "0"; text_exp := λ _ _, "0e0"; text_shortest_exp := λ _, "0e0";
  text_debug_1 := λ _, "0.0"; text_display := λ _, "0" |}.
Definition start (name : string) : positive := 100.
Definition state : TyState := MkTyState 1 [].
Definition address (name : string) : Z := 7.
Definition evaluator : Scopes.Evaluator unit unit := Scopes.new_evaluator.
Definition call := builtin_call (HP := profile) (HC := config) (HF := floats) (λ _, "0.0") (λ x _, x) (λ _, "")
  (λ _, None) (λ _, None) 100.
Definition numbers : ValueRef := ref_list [ref_int 2; ref_int 3; ref_int 1].
End Sample.

(** A list is only made of an argument that has no name. *)
Example list_by_name : ∃ f, Sample.call "list" = Some f ∧
  (f (ref_list []) (ref_dict [("x", Sample.numbers)]) Context_new).1 = Ok (ref_list []) ∧
  (f (ref_list [Sample.numbers]) (ref_dict []) Context_new).1 = Ok Sample.numbers.
Proof. eexists. split; [reflexivity|]. split; vm_compute; reflexivity. Qed.
(** A boolean option that is asked for as a string is printed as Rust prints it. *)
Example option_bool_str : ∃ f, Sample.call "option" = Some f ∧
  (f (ref_list [ref_str "a"]) (ref_dict [("type", ref_str "str")])
     (with_options (map_insert "a" (ref_bool true)) Context_new)).1 = Ok (ref_str "true") ∧
  Display.to_string (λ _, "") (ref_bool true) = "True".
Proof. eexists. split; [reflexivity|]. split; vm_compute; reflexivity. Qed.
(** A unit below one is a float although its type is that of an integer. *)
Example unit_not_int :
  (∃ t st, get_system_member_function_ty Sample.start "units" "n" Sample.state = Ok (t, st) ∧ is_int t = true) ∧
  ∃ v, Scopes.system_variable Sample.address "units" "n" = Ok v ∧ Value.is_float v = true.
Proof. split; [eexists _, _|eexists]; split; vm_compute; reflexivity. Qed.

Lemma system_members_linked_witness :
  "units" ∈ STANDARD_SYSTEM_MODULES ∧
  ∃ l found t st', get_system_module_members "units" = Ok l ∧
    load_system_attr Sample.start "units" "NumberMultiplier" Sample.state = Ok ((found, t), st') ∧ (found = true ↔ "NumberMultiplier" ∈ l).
Proof.
  assert ("units" ∈ STANDARD_SYSTEM_MODULES) as Hm by (apply (bool_decide_unpack _); vm_compute; exact I).
  split; [exact Hm|].
  destruct (system_members_linked Sample.start Sample.state Sample.address Sample.evaluator "units" "NumberMultiplier" Hm)
    as (l & found & t & st' & Hl & Ht & Hf & _).
  exists l, found, t, st'. exact (conj Hl (conj Ht Hf)).
Defined.
Lemma keywords_as_positions_witness : ∃ f, Sample.call "sorted" = Some f ∧
  "sorted" ∈ FIXED_FUNCTIONS ∧ required_params "sorted" ≤ 2 ≤ length (parameters "sorted") ∧
  f (ref_list []) (ref_dict [("inval", Sample.numbers); ("reverse", ref_bool true)]) Context_new =
  f (ref_list [Sample.numbers; ref_bool true]) (ref_dict []) Context_new.
Proof.
  eexists. split; [reflexivity|].
  assert ("sorted" ∈ FIXED_FUNCTIONS) as Hn by (apply (bool_decide_unpack _); vm_compute; exact I).
  assert (required_params "sorted" ≤ 2 ≤ length (parameters "sorted")) as Hl by (vm_compute; lia).
  split; [exact Hn|split; [exact Hl|]].
  exact (keywords_as_positions (HP := Sample.profile) (HC := Sample.config) (HF := Sample.floats) (λ _, "0.0") (λ x _, x)
    (λ _, "") (λ _, None) (λ _, None) 100 "sorted" _ [Sample.numbers; ref_bool true] Context_new Hn eq_refl Hl).
Defined.
