(* ===== verification/Net.v ===== *)
(** * Internet addresses

    [crates/runtime/src/net/mod.rs], the package [net].  The readers and printers of
    addresses in the Standard Library of Rust are definitions; of the [cidr] crate,
    which reads networks in a notation of its own, we take a network as the record
    that it documents and its functions as a class.  [fqdn], which asks the name
    service, is left out. *)

From stdpp Require Import base tactics list strings numbers pretty.
From Stdlib Require Import ZArith Lia Ascii.
From S2P Require Import Prelude MachineInt IndexMap Str Float64 Value ListOps DictOps.
From S2P Require Import Display Builtin Units Args.
Local Open Scope Z_scope.
Local Set Warnings "-clear-no-such-hyp".

(** ** Addresses as numbers *)

Inductive IpAddr := V4 (bits : Z) | V6 (bits : Z).
#[export] Instance IpAddr_eq_dec : EqDecision IpAddr.
Proof. solve_decision. Defined.

(** [addr.octets()[i]] and [addr.segments()[i]], from the most significant one. *)
Definition octet (addr i : Z) : Z := Z.land (Z.shiftr addr (8 * (3 - i))) 255.
Definition segment (addr i : Z) : Z := Z.land (Z.shiftr addr (16 * (7 - i))) 65535.
Definition segments (addr : Z) : list Z := segment addr <$> [0; 1; 2; 3; 4; 5; 6; 7].
(** The number of a sequence of digits in a base. *)
Definition from_parts (base : Z) (l : list Z) : Z := foldl (λ acc d, acc * base + d) 0 l.

(** *** Reading: the parser of [core::net]

    A reader takes a text and gives a value with what is left of the text; a reader
    that fails leaves the text as it was. *)

Definition Reader A := string → option (A * string).
Definition read_given_char (c : ascii) (s : string) : option string :=
  match s with
  | String a s => if Ascii.eqb a c then Some s else None
  | EmptyString => None
  end.
Definition read_separator {A} (sep : ascii) (index : nat) (inner : Reader A) : Reader A := λ s,
  match index with
  | O => inner s
  | S _ => match read_given_char sep s with Some s => inner s | None => None end
  end.
Fixpoint read_digits (radix : Z) (max_digits : nat) (s : string) (result : Z) (digit_count : nat)
    : option (Z * nat * string) :=
  let stop := Some (result, digit_count, s) in
  match s with
  | String a s' =>
      match alnum_value a with
      | Some digit =>
          if digit <? radix then
            if Nat.ltb max_digits (S digit_count) then None
            else read_digits radix max_digits s' (result * radix + digit) (S digit_count)
          else stop
      | None => stop
      end
  | EmptyString => stop
  end.
(** A number below [limit]. *)
Definition read_number (radix : Z) (max_digits : nat) (allow_zero_prefix : bool) (limit : Z) : Reader Z := λ s,
  match read_digits radix max_digits s 0 0 with
  | Some (result, digit_count, rest) =>
      if Nat.eqb digit_count 0 then None
      else if negb allow_zero_prefix && starts_with "0" s && Nat.ltb 1 digit_count then None
      else if result <? limit then Some (result, rest) else None
  | None => None
  end.
Definition read_octet (i : nat) : Reader Z := read_separator "." i (read_number 10 3 false 256).
Definition read_ipv4_addr : Reader Z := λ s,
  match read_octet 0 s with
  | Some (a, s) =>
      match read_octet 1 s with
      | Some (b, s) =>
          match read_octet 2 s with
          | Some (c, s) =>
              match read_octet 3 s with
              | Some (d, s) => Some (from_parts 256 [a; b; c; d], s)
              | None => None
              end
          | None => None
          end
      | None => None
      end
  | None => None
  end.
(** At most [left] groups, the first of which has the index [i]: the groups, whether
    the last two were read as an IPv4 address, and the rest of the text. *)
Fixpoint read_groups (left i : nat) (s : string) : list Z * bool * string :=
  match left with
  | O => ([], false, s)
  | S left' =>
      match (if Nat.ltb 1 left then read_separator ":" i read_ipv4_addr s else None) with
      | Some (v4_addr, s) => ([Z.shiftr v4_addr 16; Z.land v4_addr 65535], true, s)
      | None =>
          match read_separator ":" i (read_number 16 4 true 65536) s with
          | Some (g, s) => let '(groups, v4, s) := read_groups left' (S i) s in (g :: groups, v4, s)
          | None => ([], false, s)
          end
      end
  end.
Definition read_ipv6_addr : Reader Z := λ s,
  let '(head, head_ipv4, s) := read_groups 8 0 s in
  if Nat.eqb (length head) 8 then Some (from_parts 65536 head, s)
  else if head_ipv4 then None
  else
    match read_given_char ":" s with
    | Some s =>
        match read_given_char ":" s with
        | Some s =>
            let '(tail, _, s) := read_groups (8 - (length head + 1)) 0 s in
            Some (from_parts 65536 (head ++ replicate (8 - length head - length tail)%nat 0 ++ tail), s)
        | None => None
        end
    | None => None
    end.
Definition parse_with {A} (inner : Reader A) (s : string) : option A :=
  match inner s with Some (a, EmptyString) => Some a | _ => None end.
Definition ipv4_from_str (s : string) : option Z :=
  if Nat.ltb 15 (slen s) then None else parse_with read_ipv4_addr s.
Definition ipv6_from_str (s : string) : option Z := parse_with read_ipv6_addr s.
Definition read_ip_addr : Reader IpAddr := λ s,
  match read_ipv4_addr s with
  | Some (a, s) => Some (V4 a, s)
  | None => match read_ipv6_addr s with Some (a, s) => Some (V6 a, s) | None => None end
  end.
Definition ip_from_str (s : string) : option IpAddr := parse_with read_ip_addr s.

(** *** Printing *)

Definition ipv4_to_string (addr : Z) : string :=
  digits_in 10 (octet addr 0) +:+ "." +:+ digits_in 10 (octet addr 1) +:+ "." +:+
  digits_in 10 (octet addr 2) +:+ "." +:+ digits_in 10 (octet addr 3).
Definition to_ipv4_mapped (addr : Z) : option Z :=
  if Z.shiftr addr 32 =? 65535 then Some (Z.land addr 4294967295) else None.
Definition to_ipv4 (addr : Z) : option Z :=
  if (Z.shiftr addr 32 =? 65535) || (Z.shiftr addr 32 =? 0) then Some (Z.land addr 4294967295) else None.
Definition to_ipv6_mapped (addr : Z) : Z := Z.lor (Z.shiftl 65535 32) addr.
(** The longest run of zero segments, the first one if there are several: start and length. *)
Fixpoint longest_zeroes (i : nat) (l : list Z) (current longest : nat * nat) : nat * nat :=
  match l with
  | [] => longest
  | seg :: l =>
      if seg =? 0 then
        let current := ((if Nat.eqb current.2 0 then i else current.1), S current.2) in
        longest_zeroes (S i) l current (if Nat.ltb longest.2 current.2 then current else longest)
      else longest_zeroes (S i) l (0, 0)%nat longest
  end.
Fixpoint fmt_subslice (chunk : list Z) : string :=
  match chunk with
  | [] => ""
  | [seg] => digits_in 16 seg
  | seg :: chunk => digits_in 16 seg +:+ ":" +:+ fmt_subslice chunk
  end.
Definition fmt_segments (l : list Z) : string :=
  let zeroes := longest_zeroes 0 l (0, 0)%nat (0, 0)%nat in
  if Nat.ltb 1 zeroes.2 then
    fmt_subslice (take zeroes.1 l) +:+ "::" +:+ fmt_subslice (drop (zeroes.1 + zeroes.2) l)
  else fmt_subslice l.
Definition ipv6_to_string (addr : Z) : string :=
  match to_ipv4_mapped addr with
  | Some ipv4 => "::ffff:" +:+ ipv4_to_string ipv4
  | None => fmt_segments (segments addr)
  end.
Definition ip_to_string (addr : IpAddr) : string :=
  match addr with V4 a => ipv4_to_string a | V6 a => ipv6_to_string a end.

(** *** Kinds of addresses *)

Definition v4_is_unspecified (a : Z) : bool := a =? 0.
Definition v4_is_loopback (a : Z) : bool := octet a 0 =? 127.
Definition v4_is_private (a : Z) : bool :=
  (octet a 0 =? 10) || ((octet a 0 =? 172) && (16 <=? octet a 1) && (octet a 1 <=? 31)) ||
  ((octet a 0 =? 192) && (octet a 1 =? 168)).
Definition v4_is_link_local (a : Z) : bool := (octet a 0 =? 169) && (octet a 1 =? 254).
Definition v4_is_multicast (a : Z) : bool := (224 <=? octet a 0) && (octet a 0 <=? 239).
Definition v4_is_broadcast (a : Z) : bool := a =? 4294967295.
Definition v4_is_documentation (a : Z) : bool :=
  ((octet a 0 =? 192) && (octet a 1 =? 0) && (octet a 2 =? 2)) ||
  ((octet a 0 =? 198) && (octet a 1 =? 51) && (octet a 2 =? 100)) ||
  ((octet a 0 =? 203) && (octet a 1 =? 0) && (octet a 2 =? 113)).
Definition v6_is_unspecified (a : Z) : bool := a =? 0.
Definition v6_is_loopback (a : Z) : bool := a =? 1.
Definition v6_is_multicast (a : Z) : bool := Z.land (segment a 0) 65280 =? 65280.

Definition Ipv4Addr_is_shared (a : Z) : bool := (octet a 0 =? 100) && (Z.land (octet a 1) 192 =? 64).
Definition Ipv4Addr_is_ietf_protocol_assignment (a : Z) : bool :=
  (octet a 0 =? 192) && (octet a 1 =? 0) && (octet a 2 =? 0).
Definition Ipv4Addr_is_reserved (a : Z) : bool :=
  (Z.land (octet a 0) 240 =? 240) && negb (v4_is_broadcast a).
Definition Ipv4Addr_is_benchmarking (a : Z) : bool := (octet a 0 =? 198) && (Z.land (octet a 1) 254 =? 18).
Definition Ipv4Addr_is_global (a : Z) : bool :=
  if (a =? 3221225481) || (a =? 3221225482) then true
  else negb (v4_is_private a) && negb (v4_is_loopback a) && negb (v4_is_link_local a) &&
       negb (v4_is_broadcast a) && negb (v4_is_documentation a) && negb (Ipv4Addr_is_shared a) &&
       negb (Ipv4Addr_is_ietf_protocol_assignment a) && negb (Ipv4Addr_is_reserved a) &&
       negb (Ipv4Addr_is_benchmarking a) && negb (octet a 0 =? 0).
Definition Ipv6Addr_is_unicast_link_local (a : Z) : bool := Z.land (segment a 0) 65472 =? 65152.
Definition Ipv6Addr_is_global (a : Z) : bool :=
  if Z.land (segment a 0) 57344 =? 8192 then
    if (segment a 0 =? 8193) && (segment a 1 =? 3512) then false
    else negb ((segment a 0 =? 8193) && (segment a 1 =? 2) && (segment a 2 =? 0))
  else if (segment a 0 =? 100) && (segment a 1 =? 65435) && (segment a 2 =? 0) && (segment a 3 =? 0) &&
          (segment a 4 =? 0) && (segment a 5 =? 0)
  then let ipv4 := Z.shiftl (segment a 6) 16 + segment a 7 in
       Ipv4Addr_is_global ipv4 && negb (v4_is_multicast ipv4)
  else false.

(** ** Networks: the [cidr] crate

    A network is its family, its first address and the length of its prefix. *)

Record IpCidr := MkCidr { is_ipv6 : bool; first_address : Z; network_length : Z }.
#[export] Instance IpCidr_eq_dec : EqDecision IpCidr.
Proof. solve_decision. Defined.

(** [cidr.family().len()] *)
Definition family_len (v6 : bool) : Z := if v6 then 128 else 32.
(** The functions of the crate: a network from its text, or the text of the error; a
    network from an address and a length of the prefix; membership. *)
Class CidrCrate := {
  cidr_from_str : string → string + IpCidr;
  cidr_new : bool → Z → Z → option IpCidr;
  cidr_contains : IpCidr → IpAddr → bool }.

(** A network has as many bits as its prefix says and none behind them. *)
Definition cidr_wf (c : IpCidr) : Prop :=
  0 ≤ network_length c ≤ family_len (is_ipv6 c) ∧
  0 ≤ first_address c < 2 ^ family_len (is_ipv6 c) ∧
  (2 ^ (family_len (is_ipv6 c) - network_length c) | first_address c).
(** The addresses of a network. *)
Definition in_network (c : IpCidr) (a : Z) : Prop :=
  first_address c ≤ a < first_address c + 2 ^ (family_len (is_ipv6 c) - network_length c).

(** What the crate documents. *)
Class CidrLaws (crate : CidrCrate) : Prop := {
  from_str_wf s c : cidr_from_str s = inr c → cidr_wf c;
  new_spec v6 a len : 0 ≤ len ≤ family_len v6 → 0 ≤ a < 2 ^ family_len v6 →
    cidr_new v6 a len = if a mod 2 ^ (family_len v6 - len) =? 0 then Some (MkCidr v6 a len) else None;
  contains_spec c a : cidr_wf c →
    cidr_contains c (if is_ipv6 c then V6 a else V4 a) = true ↔ in_network c a }.

(** ** Hosts and ports *)

(** [s.escape_default()]: a character outside the printable ASCII as its code point. *)
Definition escape_char (c : string) : string :=
  let n := code_point c in
  if n =? 9 then "\t" else if n =? 10 then "\n" else if n =? 13 then "\r"
  else if (n =? 34) || (n =? 39) || (n =? 92) then "\" +:+ c
  else if (32 <=? n) && (n <? 127) then c
  else "\u{" +:+ digits_in 16 n +:+ "}".
Definition escape_default (s : string) : string := str_concat (escape_char <$> chars s).
(** [s.rsplit_once(c)] *)
Definition rsplit_once (c s : string) : option (string * string) :=
  i ← str_rfind c s; Some (str_take i s, str_drop (i + slen c) s).

Section Net.
Context {HP : Profile} {crate : CidrCrate}.
Variable f64_to_string : f64 → string.

Definition dquote : string := String (Ascii.ascii_of_nat 34) EmptyString.
(** The panics of [split_host_port]. *)
Definition bad_end_point {A} (s what : string) : Res A :=
  Panic (PanicMsg ("ip_end_point " +:+ dquote +:+ escape_default s +:+ dquote +:+ " " +:+ what)).
Definition host_and_port (host port : string) : Res ValueRef := Ok (ref_list [ref_str host; ref_str port]).
(** [s\[1..\].contains('[')] *)
Definition bracket_inside (s : string) : Res bool :=
  r ← slice_checked 1 (slen s) s; Ok (str_contains "[" r).
Definition split_bracketed (ip_end_point host port : string) : Res ValueRef :=
  match str_find "]" ip_end_point with
  | None => bad_end_point ip_end_point "missing ']'"
  | Some stop =>
      let n := slen host in
      if Nat.ltb n stop || negb (starts_with ":" (str_drop (stop + 1) ip_end_point))
      then bad_end_point ip_end_point "missing port"
      else if Nat.ltb stop (n - 1) then bad_end_point ip_end_point "too many colons"
      else
        b ← bracket_inside ip_end_point;
        if b : bool then bad_end_point ip_end_point "unexpected '['"
        else if str_contains "]" port then bad_end_point ip_end_point "unexpected ']'"
        else host_and_port (str_slice 1 stop host) port
  end.
Definition split_host_port (ip_end_point : string) : Res ValueRef :=
  match rsplit_once ":" ip_end_point with
  | None => bad_end_point ip_end_point "missing port"
  | Some (host, port) =>
      if starts_with "[" host then split_bracketed ip_end_point host port
      else if str_contains ":" host then bad_end_point ip_end_point "too many colons"
      else
        b ← bracket_inside ip_end_point;
        if b : bool then bad_end_point ip_end_point "unexpected '['"
        else if str_contains "]" ip_end_point then bad_end_point ip_end_point "unexpected ']'"
        else host_and_port host port
  end.
Definition kcl_net_split_host_port (args kwargs : ValueRef) : Res ValueRef :=
  ip_end_point ← get_call_arg args kwargs 0%nat (Some "ip_end_point");
  match ip_end_point with
  | Some v => split_host_port (as_str v)
  | None => Panic (PanicMsg "split_host_port() missing 1 required positional argument: 'ip_end_point'")
  end.
Definition kcl_net_join_host_port (args kwargs : ValueRef) : Res ValueRef :=
  host ← get_call_arg args kwargs 0%nat (Some "host");
  port ← match host with Some _ => get_call_arg args kwargs 1%nat (Some "port") | None => Ok None end;
  match host, port with
  | Some host, Some port =>
      let text := to_string f64_to_string in
      Ok (ref_str (if str_contains ":" (as_str host) then "[" +:+ text host +:+ "]:" +:+ text port
                   else text host +:+ ":" +:+ text port))
  | _, _ => Panic (PanicMsg "join_host_port() missing 2 required positional arguments: 'host' and 'port'")
  end.

(** ** Functions of an address *)

Definition with_ip (missing : string) (f : string → Res ValueRef) (args kwargs : ValueRef) : Res ValueRef :=
  ip ← get_call_arg_str args kwargs 0%nat (Some "ip");
  match ip with
  | Some ip => f ip
  | None => Panic (PanicMsg (missing +:+ "() missing 1 required positional argument: 'ip'"))
  end.
(** What both families of addresses have in common: false for a text that is no address. *)
Definition ip_test (missing : string) (v4 v6 : Z → bool) : ValueRef → ValueRef → Res ValueRef :=
  with_ip missing (λ ip, Ok (ref_bool
    match ipv4_from_str ip with
    | Some addr => v4 addr
    | None => match ipv6_from_str ip with Some addr => v6 addr | None => false end
    end)).

Definition kcl_net_IP_string : ValueRef → ValueRef → Res ValueRef :=
  with_ip "IP_string" (λ ip, Ok (ref_str
    match ipv4_from_str ip with
    | Some addr => ipv4_to_string addr
    | None => match ipv6_from_str ip with Some addr => ipv6_to_string addr | None => "" end
    end)).
Definition kcl_net_parse_IP : ValueRef → ValueRef → Res ValueRef := kcl_net_IP_string.
(** The texts of the errors of [Ipv4Addr] and [Ipv6Addr]. *)
Definition not_both (ip err : string) : string :=
  "can not both parse " +:+ ip +:+ " to ipv6 and ipv4,err:" +:+ err.
Definition kcl_net_to_IP4 : ValueRef → ValueRef → Res ValueRef :=
  with_ip "IP_string" (λ ip, Ok (ref_str
    match ipv4_from_str ip with
    | Some addr => ipv4_to_string addr
    | None =>
        match ipv6_from_str ip with
        | Some addr =>
            match to_ipv4 addr with
            | Some v4 => ipv4_to_string v4
            | None => "can not parse " +:+ ip +:+ " ipv6 to ipv4!"
            end
        | None => not_both ip "invalid IPv6 address syntax"
        end
    end)).
Definition kcl_net_to_IP6 : ValueRef → ValueRef → Res ValueRef :=
  with_ip "IP_string" (λ ip, Ok (ref_str
    match ipv6_from_str ip with
    | Some addr => ipv6_to_string addr
    | None =>
        match ipv4_from_str ip with
        | Some addr => ipv6_to_string (to_ipv6_mapped addr)
        | None => not_both ip "invalid IPv4 address syntax"
        end
    end)).
Definition kcl_net_is_IPv4 := ip_test "is_IPv4" (λ _, true) (λ _, false).
Definition kcl_net_is_IP := ip_test "is_IP" (λ _, true) (λ _, true).
Definition kcl_net_is_loopback_IP := ip_test "is_loopback_IP" v4_is_loopback v6_is_loopback.
Definition kcl_net_is_multicast_IP := ip_test "kcl_net_is_multicast_IP" v4_is_multicast v6_is_multicast.
Definition kcl_net_is_interface_local_multicast_IP : ValueRef → ValueRef → Res ValueRef :=
  with_ip "is_interface_local_multicast_IP" (λ ip, Ok (ref_bool
    match ipv6_from_str ip with
    | Some addr => (Z.land (segment addr 0) 65295 =? 65281) && v6_is_multicast addr
    | None => false
    end)).
Definition kcl_net_is_link_local_multicast_IP :=
  ip_test "is_link_local_multicast_IP"
    (λ a, (octet a 0 =? 224) && (octet a 1 =? 0) && (octet a 2 =? 0) && v4_is_multicast a)
    (λ a, (Z.land (segment a 0) 65295 =? 65282) && v6_is_multicast a).
Definition kcl_net_is_link_local_unicast_IP :=
  ip_test "is_link_local_unicast_IP"
    (λ a, v4_is_link_local a && negb (v4_is_multicast a))
    (λ a, Ipv6Addr_is_unicast_link_local a && negb (v6_is_multicast a)).
Definition kcl_net_is_global_unicast_IP :=
  ip_test "is_global_unicast_IP" (λ a, Ipv4Addr_is_global a && negb (v4_is_multicast a)) Ipv6Addr_is_global.
Definition kcl_net_is_unspecified_IP := ip_test "is_unspecified_IP" v4_is_unspecified v6_is_unspecified.

(** ** Functions of a network *)

(** Operators of unsigned integers of a width. *)
Definition arith_u (w z : Z) : Res Z :=
  if (0 <=? z) && (z <? 2 ^ w) then Ok z
  else if overflow_checks then Panic ArithOverflow else Ok (wrap_uint w z).
Definition shl_u (w a s : Z) : Res Z := n ← shift_amount w s; Ok (wrap_uint w (Z.shiftl a n)).
Definition unreachable {A} : Res A := Panic (PanicMsg "internal error: entered unreachable code").

Definition cidr_ip (c : IpCidr) : IpAddr := if is_ipv6 c then V6 (first_address c) else V4 (first_address c).
Definition cidr_to_string (c : IpCidr) : string :=
  ip_to_string (cidr_ip c) +:+ "/" +:+ pretty (network_length c).

(** The arguments of the functions on networks; [missing] is the panic without one. *)
Definition missing_args (name which : string) : panic :=
  PanicMsg (name +:+ "() missing " +:+ which).
Definition network_arg (name which : string) (args kwargs : ValueRef) : Res IpCidr :=
  cidr ← get_call_arg args kwargs 0%nat (Some "cidr");
  match cidr with
  | None => Panic (missing_args name which)
  | Some cidr =>
      match cidr_from_str (as_str cidr) with
      | inl err => Panic (PanicMsg (name +:+ "() invalid cidr: " +:+ err))
      | inr cidr => Ok cidr
      end
  end.
Definition int_arg (name which : string) (i : nat) (key : string) (args kwargs : ValueRef) : Res Z :=
  v ← get_call_arg args kwargs i (Some key);
  match v with None => Panic (missing_args name which) | Some v => must_as_strict_int v end.
Definition not_negative (name key : string) (n : Z) : Res unit :=
  if n <? 0 then Panic (PanicMsg (name +:+ "() invalid " +:+ key +:+ ": cannot be negative")) else Ok tt.

Definition kcl_net_parse_CIDR (args kwargs : ValueRef) : Res ValueRef :=
  cidr ← get_call_arg args kwargs 0%nat (Some "cidr");
  match cidr with
  | Some cidr =>
      Ok match cidr_from_str (as_str cidr) with
         | inr cidr => ref_dict [("ip", ref_str (ip_to_string (cidr_ip cidr))); ("mask", ref_int (network_length cidr))]
         | inl _ => ref_dict []
         end
  | None => Panic (missing_args "parse_CIDR" "1 required positional argument: 'cidr'")
  end.
Definition kcl_net_is_IP_in_CIDR (args kwargs : ValueRef) : Res ValueRef :=
  let missing := missing_args "is_IP_in_CIDR" "2 required positional arguments: 'ip' and 'cidr'" in
  ip ← get_call_arg_str args kwargs 0%nat (Some "ip");
  ip ← match ip with
       | None => Panic missing
       | Some ip =>
           match ip_from_str ip with
           | None => Panic (PanicMsg "is_IP_in_CIDR() invalid ip: invalid IP address syntax")
           | Some ip => Ok ip
           end
       end;
  cidr ← get_call_arg_str args kwargs 1%nat (Some "cidr");
  cidr ← match cidr with
         | None => Panic missing
         | Some cidr =>
             match cidr_from_str cidr with
             | inl err => Panic (PanicMsg ("is_IP_in_CIDR() invalid cidr: " +:+ err))
             | inr cidr => Ok cidr
             end
         end;
  Ok (ref_bool match ip with
               | V4 ip => if is_ipv6 cidr then cidr_contains cidr (V6 (to_ipv6_mapped ip)) else cidr_contains cidr (V4 ip)
               | V6 _ => cidr_contains cidr ip
               end).

(** *** Subnets *)

Definition allocate_at (v6 : bool) (addr len : Z) : Res (string + ValueRef) :=
  match cidr_new v6 addr (wrap_uint 8 len) with
  | Some cidr => Ok (inr (ref_str (cidr_to_string cidr)))
  | None => unreachable
  end.
Definition too_long (len : Z) (family : string) : string :=
  "invalid additional_bits: would extend network length to " +:+ pretty len +:+ " bits, which is too long for " +:+ family.
Definition too_few_bits (additional_bits net_num : Z) : string :=
  "additional_bits of " +:+ pretty additional_bits +:+ " does not accommodate a net_num of " +:+ pretty net_num.
Definition allocate_v4 (first len additional_bits net_num : Z) : Res (string + ValueRef) :=
  if 32 <? len then Ok (inl (too_long len "IPv4"))
  else
    limit ← int_shl 64 1 additional_bits;
    if limit <=? net_num then Ok (inl (too_few_bits additional_bits net_num))
    else
      s ← arith 64 (32 - len);
      offset ← int_shl 64 net_num s;
      addr ← arith_u 32 (first + wrap_uint 32 offset);
      allocate_at false addr len.
Definition allocate_v6 (first len additional_bits net_num : Z) : Res (string + ValueRef) :=
  if 128 <? len then Ok (inl (too_long len "IPv6"))
  else
    full ← (if additional_bits <? 64 then limit ← shl_u 64 1 additional_bits; Ok (limit <=? wrap_uint 64 net_num)
            else Ok false);
    if full : bool then Ok (inl (too_few_bits additional_bits net_num))
    else if len =? 0 then Ok (inr (ref_str "::/0"))
    else
      s ← arith 64 (128 - len);
      offset ← shl_u 128 (wrap_uint 128 net_num) s;
      addr ← arith_u 128 (first + offset);
      allocate_at true addr len.
Definition CIDR_allocate (cidr : IpCidr) (additional_bits net_num : Z) : Res (string + ValueRef) :=
  len ← arith 64 (network_length cidr + additional_bits);
  (if is_ipv6 cidr then allocate_v6 else allocate_v4) (first_address cidr) len additional_bits net_num.
Definition kcl_net_CIDR_subnet (args kwargs : ValueRef) : Res ValueRef :=
  let which := "3 required positional arguments: 'cidr', 'additional_bits', and 'net_num'" in
  cidr ← network_arg "CIDR_subnet" which args kwargs;
  additional_bits ← int_arg "CIDR_subnet" which 1 "additional_bits" args kwargs;
  _ ← not_negative "CIDR_subnet" "additional_bits" additional_bits;
  net_num ← int_arg "CIDR_subnet" which 2 "net_num" args kwargs;
  _ ← not_negative "CIDR_subnet" "net_num" net_num;
  r ← CIDR_allocate cidr additional_bits net_num;
  match r with
  | inr value => Ok value
  | inl message => Panic (PanicMsg ("CIDR_subnet() " +:+ message))
  end.

(** The number of an allocated subnet, seen with prefixes of [bits] more bits: that of
    the subnet it lies in, or of the first of those that it holds; and how many bits it has. *)
Definition seen_with (bits item allocated_bits : Z) : Res (Z * Z) :=
  '(num, allocated_bits) ←
    (if bits <? allocated_bits then d ← arith 64 (allocated_bits - bits); n ← int_shr 64 item d; Ok (n, bits)
     else Ok (item, allocated_bits));
  num ← (if allocated_bits <? bits then d ← arith 64 (bits - allocated_bits); int_shl 64 num d else Ok num);
  Ok (num, allocated_bits).
(** One pass over the subnets that are allocated, with the bits they were asked for with. *)
Fixpoint try_pass (bits : Z) (net_num : list (ValueRef * Z)) (num : Z) (try_again : bool) : Res (Z * bool) :=
  match net_num with
  | [] => Ok (num, try_again)
  | (additional, item) :: net_num =>
      allocated_bits ← must_as_strict_int additional;
      '(allocated_num, allocated_bits) ← seen_with bits item allocated_bits;
      if allocated_num =? num then
        d ← arith 64 (bits - allocated_bits);
        step ← int_shl 64 1 d;
        num ← arith 64 (num + step);
        try_pass bits net_num num true
      else try_pass bits net_num num try_again
  end.
Fixpoint try_loop (fuel : nat) (bits : Z) (net_num : list (ValueRef * Z)) (num : Z) : Run Z :=
  match fuel with
  | O => None
  | S fuel =>
      run_with (try_pass bits net_num num false) (λ r,
        if r.2 : bool then try_loop fuel bits net_num r.1 else Some (Ok r.1))
  end.
Definition subnet_bits (cidr : IpCidr) (new_additional : ValueRef) : Res Z :=
  let invalid {A} (what : string) : Res A := Panic (PanicMsg ("CIDR_subnets() invalid additional_bits: " +:+ what)) in
  bits ← must_as_strict_int new_additional;
  if bits <? 0 then invalid "cannot be negative"
  else
    new_bits ← arith 64 (network_length cidr + bits);
    let long family := invalid ("would extend network length to " +:+ pretty new_bits +:+
                                " bits, which is too long for " +:+ family) in
    if negb (is_ipv6 cidr) && (32 <? new_bits) then long "IPv4"
    else if is_ipv6 cidr && (63 <? bits) then invalid "cannot extend more than 63 bits"
    else if is_ipv6 cidr && (128 <? new_bits) then long "IPv6"
    else Ok bits.
Fixpoint net_nums (fuel : nat) (cidr : IpCidr) (additional_bits : list ValueRef) (net_num : list (ValueRef * Z))
    : Run (list (ValueRef * Z)) :=
  match additional_bits with
  | [] => Some (Ok net_num)
  | new_additional :: additional_bits =>
      run_with (subnet_bits cidr new_additional) (λ bits,
        match try_loop fuel bits net_num 0 with
        | Some r => run_with r (λ num, net_nums fuel cidr additional_bits (net_num ++ [(new_additional, num)]))
        | None => None
        end)
  end.
Fixpoint build_subnets (cidr : IpCidr) (net_num : list (ValueRef * Z)) (subnets : list ValueRef) : Res (list ValueRef) :=
  match net_num with
  | [] => Ok subnets
  | (additional, num) :: net_num =>
      bits ← must_as_strict_int additional;
      room ← shl_u 64 1 bits;
      if room <=? wrap_uint 64 num then
        match list.last subnets with
        | None => unreachable
        | Some last =>
            len ← arith 64 (network_length cidr + bits);
            Panic (PanicMsg ("CIDR_subnets() not enough remaining address space for a subnet with a prefix of " +:+
                             pretty len +:+ " bits after " +:+ to_string f64_to_string last))
        end
      else
        r ← CIDR_allocate cidr bits num;
        match r with
        | inr subnet => build_subnets cidr net_num (subnets ++ [subnet])
        | inl message => Panic (PanicMsg ("CIDR_subnets " +:+ message))
        end
  end.
Definition CIDR_subnets (fuel : nat) (cidr : IpCidr) (additional_bits : list ValueRef) : Run ValueRef :=
  match net_nums fuel cidr additional_bits [] with
  | Some r => run_with r (λ net_num, Some (l ← build_subnets cidr net_num []; Ok (ref_list l)))
  | None => None
  end.
Definition kcl_net_CIDR_subnets (fuel : nat) (args kwargs : ValueRef) : Run ValueRef :=
  let which := "2 required positional arguments: 'cidr' and 'additional_bits'" in
  run_with (network_arg "CIDR_subnets" which args kwargs) (λ cidr,
  run_with (get_call_arg args kwargs 1%nat (Some "additional_bits")) (λ additional_bits,
  match additional_bits with
  | None => Some (Panic (missing_args "CIDR_subnets" which))
  | Some v => run_with (as_list_ref v) (λ l, CIDR_subnets fuel cidr (list_values l))
  end)).

(** *** Hosts and masks *)

Definition abs_host_num (host_num : Z) : Res Z :=
  if host_num <? 0 then n ← arith 64 (host_num + 1); n ← arith 64 (- n); Ok (wrap_uint 64 n)
  else Ok (wrap_uint 64 host_num).
Definition host_v4 (first host_len host_num : Z) : Res Z :=
  bits ← (if host_num <? 0 then n ← int_shl 64 1 host_len; arith 64 (first + n) else Ok first);
  bits ← arith 64 (bits + host_num);
  Ok (wrap_uint 32 bits).
Definition host_v6 (first host_len host_num : Z) : Res Z :=
  if host_len =? 128 then Ok (wrap_uint 128 host_num)
  else
    host_bits ← (if host_num <? 0 then n ← shl_u 128 1 host_len; arith_u 128 (n - wrap_uint 128 (- host_num))
                 else Ok (wrap_uint 128 host_num));
    arith_u 128 (first + host_bits).
Definition CIDR_host (cidr : IpCidr) (host_num : Z) : Res IpAddr :=
  host_len ← arith_u 8 (family_len (is_ipv6 cidr) - network_length cidr);
  n ← abs_host_num host_num;
  full ← (if host_len <? 64 then limit ← shl_u 64 1 host_len; Ok (limit <=? n) else Ok false);
  if full : bool then
    Panic (PanicMsg ("CIDR_host() prefix of " +:+ pretty (network_length cidr) +:+
                     " does not accommodate a host numbered " +:+ pretty host_num))
  else if is_ipv6 cidr then V6 <$> host_v6 (first_address cidr) host_len host_num
  else V4 <$> host_v4 (first_address cidr) host_len host_num.
Definition kcl_net_CIDR_host (args kwargs : ValueRef) : Res ValueRef :=
  let which := "2 required positional arguments: 'cidr' and 'host_num'" in
  cidr ← network_arg "CIDR_host" which args kwargs;
  host_num ← int_arg "CIDR_host" which 1 "host_num" args kwargs;
  addr ← CIDR_host cidr host_num;
  Ok (ref_str (ip_to_string addr)).
Definition CIDR_netmask (cidr : IpCidr) : Res Z :=
  s ← arith_u 8 (32 - network_length cidr);
  bits ← int_shl 64 (-1) s;
  Ok (wrap_uint 32 bits).
Definition kcl_net_CIDR_netmask (args kwargs : ValueRef) : Res ValueRef :=
  cidr ← network_arg "CIDR_netmask" "1 required positional argument: 'cidr'" args kwargs;
  if is_ipv6 cidr then Panic (PanicMsg "CIDR_netmask() IPv6 addresses cannot have a netmask")
  else mask ← CIDR_netmask cidr; Ok (ref_str (ipv4_to_string mask)).
End Net.
