(* ===== verification/NetProps.v ===== *)
(** * Theorems on internet addresses and networks

    [Net]: the subnets of a network are allotted first fit, lie in the network and
    have no address in common; the hosts of a network lie in it; addresses and pairs
    of host and port are read back as they are printed. *)

From stdpp Require Import base tactics list strings numbers pretty.
From Stdlib Require Import ZArith Lia Ascii.
From S2P Require Import Prelude MachineInt IndexMap Str Float64 Value ListOps DictOps.
From S2P Require Import Display Builtin Units Args Net.
Local Open Scope Z_scope.
Local Set Warnings "-clear-no-such-hyp".

(** ** Integers of a width *)

Lemma in_int64 z : - 2 ^ 63 ≤ z < 2 ^ 63 → in_int 64 z = true.
Proof. intros H. apply in_int_spec. unfold int_min, int_max. change (64 - 1) with 63. lia. Qed.

Section Widths.
Context {HP : Profile}.
Lemma arith64 z : - 2 ^ 63 ≤ z < 2 ^ 63 → arith 64 z = Ok z.
Proof using. intros H. apply arith_Ok. by apply in_int64. Qed.
Lemma arith_u_Ok w z : 0 ≤ z < 2 ^ w → arith_u w z = Ok z.
Proof using. intros H. unfold arith_u. destruct (Z.leb_spec 0 z), (Z.ltb_spec z (2 ^ w)); simpl; lia || done. Qed.
Lemma shift_amount_Ok w s : 0 ≤ s < w → shift_amount w s = Ok s.
Proof using. intros H. unfold shift_amount. destruct (Z.leb_spec 0 s), (Z.ltb_spec s w); simpl; lia || done. Qed.
Lemma int_shl64 a s : 0 ≤ s < 64 → - 2 ^ 63 ≤ a * 2 ^ s < 2 ^ 63 → int_shl 64 a s = Ok (a * 2 ^ s).
Proof using.
  intros Hs Ha. unfold int_shl. rewrite shift_amount_Ok by done. cbn [mbind Res_bind].
  rewrite Z.shiftl_mul_pow2, wrap_int_id by (lia || by apply in_int64). done.
Qed.
Lemma shl_u_Ok w a s : 0 ≤ s < w → 0 ≤ a * 2 ^ s < 2 ^ w → shl_u w a s = Ok (a * 2 ^ s).
Proof using.
  intros Hs Ha. unfold shl_u, wrap_uint. rewrite shift_amount_Ok by done. cbn [mbind Res_bind].
  by rewrite Z.shiftl_mul_pow2, Z.mod_small by lia.
Qed.
Lemma int_shr64 a s : 0 ≤ s < 64 → int_shr 64 a s = Ok (a / 2 ^ s).
Proof using.
  intros Hs. unfold int_shr. rewrite shift_amount_Ok by done. cbn [mbind Res_bind].
  by rewrite Z.shiftr_div_pow2 by lia.
Qed.
End Widths.
Lemma pow2_le a b : 0 ≤ a ≤ b → 2 ^ a ≤ 2 ^ b.
Proof. intros H. apply Z.pow_le_mono_r; lia. Qed.
Lemma pow2_gt a : 0 ≤ a → 0 < 2 ^ a.
Proof. intros H. apply Z.pow_pos_nonneg; lia. Qed.
Lemma pow2_split a b : 0 ≤ a ≤ b → 2 ^ b = 2 ^ a * 2 ^ (b - a).
Proof. intros H. rewrite <- Z.pow_add_r by lia. f_equal. lia. Qed.

(** ** Subnets *)

(** The subnet number [n] of those with [b] more bits in their prefix. *)
Definition subnet (c : IpCidr) (b n : Z) : IpCidr :=
  MkCidr (is_ipv6 c) (first_address c + n * 2 ^ (family_len (is_ipv6 c) - network_length c - b)) (network_length c + b).
Definition fits (c : IpCidr) (b : Z) : Prop := 0 ≤ b ∧ network_length c + b ≤ family_len (is_ipv6 c).

Lemma network_end c : cidr_wf c →
  first_address c + 2 ^ (family_len (is_ipv6 c) - network_length c) ≤ 2 ^ family_len (is_ipv6 c).
Proof.
  intros (Hl & Hf & k & Hk). rewrite (pow2_split (family_len (is_ipv6 c) - network_length c) (family_len (is_ipv6 c))) in * by lia.
  revert Hf. rewrite Hk. pose proof (pow2_gt (family_len (is_ipv6 c) - network_length c) ltac:(lia)) as H0.
  generalize dependent (2 ^ (family_len (is_ipv6 c) - network_length c)). intros x _ H0.
  generalize (2 ^ (family_len (is_ipv6 c) - (family_len (is_ipv6 c) - network_length c))). intros y Hf.
  assert (k < y) by nia. nia.
Qed.

Section Subnet.
Context (c : IpCidr) (Hc : cidr_wf c) (b n : Z) (Hb : fits c b) (Hn : 0 ≤ n < 2 ^ b).
Lemma subnet_end :
  n * 2 ^ (family_len (is_ipv6 c) - network_length c - b) + 2 ^ (family_len (is_ipv6 c) - network_length c - b) ≤
  2 ^ (family_len (is_ipv6 c) - network_length c).
Proof using Hc Hb Hn.
  destruct Hc as (Hl & _), Hb as (Hb0 & Hb1).
  rewrite (pow2_split b (family_len (is_ipv6 c) - network_length c)) by lia.
  pose proof (pow2_gt (family_len (is_ipv6 c) - network_length c - b) ltac:(lia)). nia.
Qed.
Lemma subnet_inside a : in_network (subnet c b n) a → in_network c a.
Proof using Hc Hb Hn.
  pose proof subnet_end. unfold in_network, subnet; cbn [is_ipv6 first_address network_length].
  rewrite Z.sub_add_distr. pose proof (pow2_gt (family_len (is_ipv6 c) - network_length c - b)). destruct Hb. nia.
Qed.
Lemma subnet_wf : cidr_wf (subnet c b n).
Proof using Hc Hb Hn.
  pose proof subnet_end as He. pose proof (network_end c Hc) as Hw. destruct Hc as (Hl & Hf & Hd), Hb as (Hb0 & Hb1).
  unfold cidr_wf, subnet; cbn [is_ipv6 first_address network_length]. rewrite Z.sub_add_distr.
  pose proof (pow2_gt (family_len (is_ipv6 c) - network_length c - b) ltac:(lia)).
  split; [lia|split; [nia|]]. apply Z.divide_add_r; [|apply Z.divide_factor_r].
  etransitivity; [|exact Hd]. rewrite (pow2_split b (family_len (is_ipv6 c) - network_length c)) by lia. apply Z.divide_factor_r.
Qed.
End Subnet.

(** *** Allocation *)

Section Allocate.
Context {HP : Profile} {crate : CidrCrate} {laws : CidrLaws crate}.
Lemma allocate_at_wf c : cidr_wf c →
  allocate_at (is_ipv6 c) (first_address c) (network_length c) = Ok (inr (ref_str (cidr_to_string c))).
Proof using laws.
  intros (Hl & Hf & Hd). unfold allocate_at, wrap_uint.
  assert (family_len (is_ipv6 c) ≤ 128) by (by destruct (is_ipv6 c)).
  rewrite Z.mod_small by (change (2 ^ 8) with 256; lia). rewrite new_spec by done.
  apply Z.mod_divide in Hd; [|pose proof (pow2_gt (family_len (is_ipv6 c) - network_length c) ltac:(lia)); lia].
  rewrite Hd. by destruct c.
Qed.
Lemma allocate_subnet c b n : cidr_wf c → fits c b → 0 ≤ n < 2 ^ b → n < 2 ^ 63 →
  CIDR_allocate c b n = Ok (inr (ref_str (cidr_to_string (subnet c b n)))).
Proof using laws.
  intros Hc Hb Hn Hn63. pose proof (allocate_at_wf _ (subnet_wf c Hc b n Hb Hn)) as Ha.
  pose proof (subnet_wf c Hc b n Hb Hn) as (_ & Hf & _).
  pose proof (subnet_end c Hc b n Hb Hn) as He. unfold subnet in *; cbn [is_ipv6 first_address network_length] in *.
  destruct Hc as (Hl & Hf0 & Hd), Hb as (Hb0 & Hb1).
  unfold CIDR_allocate. assert (family_len (is_ipv6 c) ≤ 128) by (by destruct (is_ipv6 c)).
  rewrite arith64 by lia. cbn [mbind Res_bind].
  destruct (is_ipv6 c) eqn:E6; cbn [family_len] in *.
  - unfold allocate_v6. destruct (Z.ltb_spec 128 (network_length c + b)); [lia|].
    assert ((if b <? 64 then limit ← shl_u 64 1 b; Ok (limit <=? wrap_uint 64 n) else Ok false) = Ok false) as ->.
    { destruct (Z.ltb_spec b 64); [|done]. rewrite shl_u_Ok; [|lia|].
      - cbn [mbind Res_bind]. unfold wrap_uint. rewrite Z.mod_small by lia. f_equal. apply Z.leb_gt. lia.
      - pose proof (Z.pow_lt_mono_r 2 b 64). pose proof (pow2_gt b). lia. }
    cbn [mbind Res_bind]. destruct (Z.eqb_spec (network_length c + b) 0) as [E|E].
    + assert (b = 0) as -> by lia. assert (network_length c = 0) as El by lia. rewrite El in *.
      change (2 ^ 0) with 1 in Hn. assert (n = 0) as -> by lia. destruct Hd as [k Hk]. change (128 - 0) with 128 in *.
      assert (first_address c = 0) as -> by nia. reflexivity.
    + rewrite arith64 by lia. cbn [mbind Res_bind]. unfold wrap_uint. rewrite Z.mod_small by lia.
      replace (128 - (network_length c + b)) with (128 - network_length c - b) by ring.
      pose proof (pow2_gt (128 - network_length c - b) ltac:(lia)).
      rewrite shl_u_Ok by (lia || nia). cbn [mbind Res_bind]. rewrite arith_u_Ok by lia. exact Ha.
  - unfold allocate_v4. destruct (Z.ltb_spec 32 (network_length c + b)); [lia|].
    pose proof (pow2_gt b ltac:(lia)). pose proof (pow2_le b 32 ltac:(lia)).
    rewrite int_shl64 by lia. cbn [mbind Res_bind]. destruct (Z.leb_spec (1 * 2 ^ b) n); [lia|].
    rewrite arith64 by lia. cbn [mbind Res_bind].
    replace (32 - (network_length c + b)) with (32 - network_length c - b) by ring.
    pose proof (pow2_gt (32 - network_length c - b) ltac:(lia)).
    pose proof (pow2_le (32 - network_length c) 32 ltac:(lia)).
    rewrite int_shl64 by (lia || nia). cbn [mbind Res_bind]. unfold wrap_uint. rewrite Z.mod_small by nia.
    rewrite arith_u_Ok by lia. exact Ha.
Qed.
End Allocate.

(** *** First fit among intervals

    The search for a number keeps clear of intervals of numbers: a start and a length. *)

Section Intervals.
Context (I : list (Z * Z)) (M : Z).
Hypothesis lengths : ∀ p, p ∈ I → 0 < p.2 ≤ M.
(** Intervals that meet are the same. *)
Hypothesis apart : ∀ p q, p ∈ I → q ∈ I → p = q ∨ p.1 + p.2 ≤ q.1 ∨ q.1 + q.2 ≤ p.1.

Definition taken (m : Z) : Prop := ∃ p, p ∈ I ∧ p.1 ≤ m < p.1 + p.2.
(** The intervals that the search may still meet. *)
Definition ahead (num : Z) : nat := length (filter (λ p : Z * Z, num ≤ p.1) I).
(** What the search keeps: all numbers before are taken, and where the number is taken
    it is the first of its interval. *)
Definition searched (num : Z) : Prop :=
  0 ≤ num ∧ (∀ m, 0 ≤ m < num → taken m) ∧ (∀ p, p ∈ I → p.1 ≤ num < p.1 + p.2 → p.1 = num) ∧
  num ≤ (Z.of_nat (length I) - Z.of_nat (ahead num)) * M.

Lemma searched_0 : (∀ p, p ∈ I → 0 ≤ p.1) → 0 < M → searched 0.
Proof using.
  intros H HM. split_and!; [done|lia| |].
  - intros p Hp Hr. specialize (H p Hp). lia.
  - assert (ahead 0 ≤ length I)%nat by apply length_filter. nia.
Qed.
Lemma ahead_step p : p ∈ I → (ahead (p.1 + p.2) < ahead p.1)%nat.
Proof using lengths.
  intros Hp. unfold ahead. assert (0 < p.2) as Hpos by (by apply lengths).
  assert (∀ l : list (Z * Z), p ∈ l → (length (filter (λ q : Z * Z, (p.1 + p.2 ≤ q.1)%Z) l) < length (filter (λ q : Z * Z, (p.1 ≤ q.1)%Z) l))%nat) as H; [|by apply H].
  induction l as [|q l IH]; [by intros ?%elem_of_nil|]. intros Hq. rewrite !filter_cons.
  assert (∀ l : list (Z * Z), (length (filter (λ q : Z * Z, (p.1 + p.2 ≤ q.1)%Z) l) ≤ length (filter (λ q : Z * Z, (p.1 ≤ q.1)%Z) l))%nat) as Hle.
  { clear -Hpos. induction l as [|q l IH]; [done|]. rewrite !filter_cons. repeat case_decide; cbn [length]; lia. }
  specialize (Hle l). apply elem_of_cons in Hq as [->|Hq].
  - rewrite decide_False, decide_True by lia. cbn [length]. lia.
  - specialize (IH Hq). repeat case_decide; cbn [length]; lia.
Qed.
Lemma searched_step p : p ∈ I → searched p.1 → searched (p.1 + p.2).
Proof using lengths apart.
  intros Hp (H0 & Hall & Hfirst & Hb). pose proof (lengths p Hp) as [Hpos HM]. split_and!; [lia| | |].
  - intros m Hm. destruct (decide (m < p.1)); [apply Hall; lia|]. exists p. split; [done|lia].
  - intros q Hq Hr. destruct (apart p q Hp Hq) as [<-|?]; lia.
  - pose proof (ahead_step p Hp). nia.
Qed.
Lemma searched_small p : p ∈ I → searched p.1 → p.1 + p.2 ≤ Z.of_nat (length I) * M.
Proof using lengths apart.
  intros Hp Hs. destruct (searched_step p Hp Hs) as (_ & _ & _ & H). pose proof (lengths p Hp). nia.
Qed.
Lemma searched_free num : searched num → (∀ p, p ∈ I → p.1 ≠ num) → ¬ taken num.
Proof using. intros (_ & _ & H & _) Hne (p & Hp & Hr). apply (Hne p Hp). by apply H. Qed.
End Intervals.

(** *** Blocks: subnets as a number of bits and a number *)

(** The interval of the numbers with [bits] bits that meet a block. *)
Definition interval (bits : Z) (p : Z * Z) : Z * Z :=
  if bits <? p.1 then (p.2 / 2 ^ (p.1 - bits), 1) else (p.2 * 2 ^ (bits - p.1), 2 ^ (bits - p.1)).
Definition net (c : IpCidr) (p : Z * Z) : IpCidr := subnet c p.1 p.2.
Definition disjoint_nets (c1 c2 : IpCidr) : Prop := ∀ a, in_network c1 a → in_network c2 a → False.

Section Blocks.
Context (c : IpCidr).
Let U := family_len (is_ipv6 c) - network_length c.
Definition meets (p q : Z * Z) : Prop :=
  p.2 * 2 ^ (U - p.1) < q.2 * 2 ^ (U - q.1) + 2 ^ (U - q.1) ∧
  q.2 * 2 ^ (U - q.1) < p.2 * 2 ^ (U - p.1) + 2 ^ (U - p.1).
Lemma disjoint_meets p q : fits c p.1 → fits c q.1 → disjoint_nets (net c p) (net c q) ↔ ¬ meets p q.
Proof using.
  intros [Hp Hp'] [Hq Hq']. unfold disjoint_nets, net, subnet, in_network, meets; cbn [is_ipv6 first_address network_length].
  rewrite !Z.sub_add_distr. fold U.
  pose proof (pow2_gt (U - p.1) ltac:(lia)). pose proof (pow2_gt (U - q.1) ltac:(lia)). split.
  - intros H' Hm. apply (H' (first_address c + Z.max (p.2 * 2 ^ (U - p.1)) (q.2 * 2 ^ (U - q.1)))); lia.
  - intros Hm a Ha Ha'. apply Hm. lia.
Qed.
Lemma meets_sym p q : meets p q → meets q p.
Proof using. unfold meets. tauto. Qed.
Lemma interval_meets bits p m : fits c bits → fits c p.1 →
  (interval bits p).1 ≤ m < (interval bits p).1 + (interval bits p).2 ↔ meets p (bits, m).
Proof using.
  intros [Hb Hb'] [Hp Hp']. unfold interval, meets; cbn [fst snd]. destruct (Z.ltb_spec bits p.1) as [H|H]; cbn [fst snd].
  - pose proof (pow2_gt (U - p.1) ltac:(lia)). pose proof (pow2_gt (p.1 - bits) ltac:(lia)).
    assert (2 ^ (U - bits) = 2 ^ (p.1 - bits) * 2 ^ (U - p.1)) as ->.
    { rewrite <- Z.pow_add_r by lia. f_equal. lia. }
    pose proof (Z.div_mod p.2 (2 ^ (p.1 - bits)) ltac:(lia)). pose proof (Z.mod_pos_bound p.2 (2 ^ (p.1 - bits)) ltac:(lia)).
    generalize dependent (2 ^ (U - p.1)). generalize dependent (2 ^ (p.1 - bits)). intros D HD Hdm Hmb Y HY. split.
    + intros Hm. assert (m = p.2 / D) as -> by lia. nia.
    + intros [H1 H2]. assert (p.2 < (m + 1) * D) by nia. assert (m * D < p.2 + 1) by nia. nia.
  - pose proof (pow2_gt (U - bits) ltac:(lia)). pose proof (pow2_gt (bits - p.1) ltac:(lia)).
    assert (2 ^ (U - p.1) = 2 ^ (bits - p.1) * 2 ^ (U - bits)) as ->.
    { rewrite <- Z.pow_add_r by lia. f_equal. lia. }
    generalize dependent (2 ^ (U - bits)). generalize dependent (2 ^ (bits - p.1)). intros D HD X HX. split; nia.
Qed.
(** A block with fewer bits holds every block with more bits that it meets. *)
Lemma meets_through bits p q m : fits c bits → fits c p.1 → p.1 ≤ bits →
  meets p (bits, m) → meets q (bits, m) → meets p q.
Proof using.
  intros Hb Hp Hle Hm. apply interval_meets in Hm; [|done|done]. revert Hm. unfold interval.
  destruct (Z.ltb_spec bits p.1); [lia|]. destruct Hb as [Hb Hb'], Hp as [Hp Hp']. unfold meets; cbn [fst snd].
  pose proof (pow2_gt (U - bits) ltac:(lia)). pose proof (pow2_gt (bits - p.1) ltac:(lia)).
  assert (2 ^ (U - p.1) = 2 ^ (bits - p.1) * 2 ^ (U - bits)) as ->.
  { rewrite <- Z.pow_add_r by lia. f_equal. lia. }
  generalize dependent (2 ^ (U - bits)). generalize dependent (2 ^ (bits - p.1)). intros D HD X HX Hm Hq. nia.
Qed.
(** The intervals of blocks that do not meet are apart or the same. *)
Lemma intervals_apart bits p q : fits c bits → fits c p.1 → fits c q.1 → (p = q ∨ ¬ meets p q) →
  interval bits p = interval bits q ∨
  (interval bits p).1 + (interval bits p).2 ≤ (interval bits q).1 ∨ (interval bits q).1 + (interval bits q).2 ≤ (interval bits p).1.
Proof using.
  intros Hb Hp Hq [->|Hpq]; [by left|].
  destruct (decide ((interval bits p).1 + (interval bits p).2 ≤ (interval bits q).1)) as [?|H1]; [by right; left|].
  destruct (decide ((interval bits q).1 + (interval bits q).2 ≤ (interval bits p).1)) as [?|H2]; [by right; right|]. left.
  assert (∀ p, fits c p.1 → 0 < (interval bits p).2) as Hpos.
  { clear -Hb. intros p [Hp ?]. unfold interval. destruct (Z.ltb_spec bits p.1); cbn [snd]; [lia|]. apply pow2_gt. lia. }
  pose proof (Hpos p Hp). pose proof (Hpos q Hq).
  set (m := Z.max (interval bits p).1 (interval bits q).1).
  assert (meets p (bits, m)) as Mp by (apply interval_meets; [done|done|lia]).
  assert (meets q (bits, m)) as Mq by (apply interval_meets; [done|done|lia]).
  destruct (decide (p.1 ≤ bits)). { destruct Hpq. eapply (meets_through bits); [exact Hb|exact Hp|done|exact Mp|exact Mq]. }
  destruct (decide (q.1 ≤ bits)). { destruct Hpq. apply meets_sym. eapply (meets_through bits); [exact Hb|exact Hq|done|exact Mq|exact Mp]. }
  apply interval_meets in Mp; [|done|done]. apply interval_meets in Mq; [|done|done]. revert Mp Mq. unfold interval.
  destruct (Z.ltb_spec bits p.1), (Z.ltb_spec bits q.1); try lia. cbn [fst snd]. intros. f_equal; lia.
Qed.
End Blocks.

(** *** The search *)

Definition row (p : Z * Z) : ValueRef * Z := (ref_int p.1, p.2).

Section Search.
Context {HP : Profile} (c : IpCidr) (bits : Z) (L : list (Z * Z)) (N : Z).
Hypothesis Hbits : 0 ≤ bits ≤ 63.
(** The blocks that are allocated. *)
Hypothesis small : ∀ p, p ∈ L → 0 ≤ p.1 ≤ 63 ∧ 0 ≤ p.2 ≤ N * 2 ^ p.1.
Hypothesis room : N * 2 ^ bits < 2 ^ 63.
Hypothesis longer : Z.of_nat (length L) < N.
Let I := interval bits <$> L.
Hypothesis Iapart : ∀ p q, p ∈ I → q ∈ I → p = q ∨ p.1 + p.2 ≤ q.1 ∨ q.1 + q.2 ≤ p.1.
Let M := 2 ^ bits.

Lemma interval_lengths p : p ∈ I → 0 < p.2 ≤ M.
Proof using small Hbits.
  intros (q & -> & Hq)%list_elem_of_fmap. destruct (small q Hq) as [Hq1 _]. pose proof (pow2_gt bits ltac:(lia)). unfold interval.
  destruct (Z.ltb_spec bits q.1); cbn [snd]; [unfold M; lia|]. split; [apply pow2_gt; lia|]. apply pow2_le. lia.
Qed.
Lemma interval_small q : q ∈ L → 0 ≤ (interval bits q).1 < 2 ^ 63.
Proof using small room Hbits.
  intros Hq. destruct (small q Hq) as [Hq1 Hq2]. unfold interval. destruct (Z.ltb_spec bits q.1); cbn [fst].
  - pose proof (pow2_gt (q.1 - bits) ltac:(lia)). split; [apply Z.div_pos; lia|].
    apply Z.le_lt_trans with (N * 2 ^ bits); [|done].
    apply Z.div_le_upper_bound; [done|].
    replace (2 ^ (q.1 - bits) * (N * 2 ^ bits)) with (N * (2 ^ bits * 2 ^ (q.1 - bits))) by ring.
    rewrite <- pow2_split by lia. lia.
  - pose proof (pow2_gt (bits - q.1) ltac:(lia)). split; [nia|].
    apply Z.le_lt_trans with (N * 2 ^ bits); [|done]. rewrite (pow2_split q.1 bits) by lia. nia.
Qed.
Lemma seen_with_interval q : q ∈ L → seen_with bits q.2 q.1 = Ok ((interval bits q).1, Z.min bits q.1).
Proof using small room Hbits.
  intros Hq. pose proof (interval_small q Hq) as Hs. destruct (small q Hq) as [Hq1 Hq2]. revert Hs. unfold seen_with, interval.
  destruct (Z.ltb_spec bits q.1); cbn [fst]; intros Hs.
  - rewrite arith64 by lia. cbn [mbind Res_bind]. rewrite int_shr64 by lia. cbn [mbind Res_bind]. rewrite Z.ltb_irrefl. cbn [mbind Res_bind]. do 2 f_equal. lia.
  - cbn [mbind Res_bind]. destruct (Z.ltb_spec q.1 bits).
    + rewrite arith64 by lia. cbn [mbind Res_bind]. rewrite int_shl64 by lia. cbn [mbind Res_bind]. do 2 f_equal. lia.
    + assert (q.1 = bits) as -> by lia. cbn [mbind Res_bind]. rewrite Z.sub_diag, Z.mul_1_r, Z.min_id. done.
Qed.
Lemma interval_length q : q ∈ L → (interval bits q).2 = 2 ^ (bits - Z.min bits q.1).
Proof using.
  intros Hq. unfold interval. destruct (Z.ltb_spec bits q.1); cbn [snd].
  - by rewrite Z.min_l, Z.sub_diag by lia.
  - by rewrite Z.min_r by lia.
Qed.

Lemma try_pass_Ok l num again : (∀ p, p ∈ l → p ∈ L) → searched I M num →
  ∃ num' again', try_pass bits (row <$> l) num again = Ok (num', again') ∧ searched I M num' ∧
    ((num' = num ∧ again' = again ∧ ∀ p, p ∈ l → (interval bits p).1 ≠ num) ∨
     (again' = true ∧ (ahead I num' < ahead I num)%nat)).
Proof using small room Hbits longer Iapart.
  revert num again. induction l as [|q l IH]; intros num again Hl Hs.
  { exists num, again. split_and!; [done|done|]. left. split_and!; [done|done|]. by intros p ?%elem_of_nil. }
  assert (q ∈ L) as Hq by (apply Hl; by left).
  cbn [try_pass row fmap list_fmap]. change (must_as_strict_int (ref_int q.1)) with (@Ok Z q.1). cbn [mbind Res_bind].
  rewrite seen_with_interval by done. cbn [mbind Res_bind].
  destruct (Z.eqb_spec (interval bits q).1 num) as [<-|Hne].
  - assert (interval bits q ∈ I) as HqI by (by apply list_elem_of_fmap_2).
    pose proof (searched_step I M interval_lengths Iapart _ HqI Hs) as Hs'.
    pose proof (searched_small I M interval_lengths Iapart _ HqI Hs) as Hsm.
    pose proof (interval_lengths _ HqI) as Hlen. pose proof (interval_small q Hq) as His.
    assert ((interval bits q).1 + (interval bits q).2 < 2 ^ 63).
    { unfold I in Hsm. rewrite length_fmap in Hsm. unfold M in *. pose proof (pow2_gt bits ltac:(lia)). nia. }
    destruct (small q Hq) as [Hq1 _]. rewrite arith64 by lia. cbn [mbind Res_bind].
    rewrite interval_length in * by done.
    rewrite int_shl64 by lia. cbn [mbind Res_bind]. rewrite Z.mul_1_l, arith64 by lia. cbn [mbind Res_bind].
    pose proof (ahead_step I M interval_lengths _ HqI) as Ha. rewrite interval_length in Ha by done.
    destruct (IH ((interval bits q).1 + 2 ^ (bits - Z.min bits q.1)) true) as (num' & again' & H1 & H2 & H3); [by intros; apply Hl; right|done|].
    exists num', again'. split_and!; [done|done|]. right. destruct H3 as [(-> & -> & _)|[? ?]]; [done|]. split; [done|lia].
  - destruct (IH num again) as (num' & again' & H1 & H2 & H3); [by intros; apply Hl; right|done|].
    exists num', again'. split_and!; [done|done|]. destruct H3 as [(-> & -> & H3)|H3]; [left|by right].
    split_and!; [done|done|]. intros p [->|Hp]%elem_of_cons; [done|by apply H3].
Qed.
Lemma try_loop_Ok fuel num : (ahead I num < fuel)%nat → searched I M num →
  ∃ num', try_loop fuel bits (row <$> L) num = Some (Ok num') ∧ searched I M num' ∧ ¬ taken I num'.
Proof using small room Hbits longer Iapart.
  revert num. induction fuel as [|fuel IH]; intros num Hf Hs; [lia|]. cbn [try_loop].
  destruct (try_pass_Ok L num false) as (num' & again' & -> & Hs' & H); [done|done|]. cbn [run_with].
  destruct H as [(-> & -> & Hne)|[-> Hlt]]; cbn [fst snd].
  - exists num. split_and!; [done|done|]. apply (searched_free I M num); [done|].
    intros p (q & -> & Hq)%list_elem_of_fmap. by apply Hne.
  - apply IH; [lia|done].
Qed.
End Search.

(** *** All subnets *)

(** The subnet meets none of those that are taken. *)
Definition free (c : IpCidr) (taken : list (Z * Z)) (b n : Z) : Prop :=
  ∀ p, p ∈ taken → disjoint_nets (net c p) (net c (b, n)).
(** Each block has the least number that is free of the blocks before it. *)
Definition first_fit (c : IpCidr) (l : list (Z * Z)) : Prop := ∀ i b n, l !! i = Some (b, n) →
  0 ≤ n ∧ free c (take i l) b n ∧ ∀ m, 0 ≤ m < n → ¬ free c (take i l) b m.

Lemma first_fit_apart c l i j p q : first_fit c l → l !! i = Some p → l !! j = Some q → (i < j)%nat →
  disjoint_nets (net c p) (net c q).
Proof.
  intros Hl Hi Hj Hij. destruct q as [b n]. destruct (Hl j b n Hj) as (_ & Hf & _). apply Hf.
  apply list_elem_of_lookup. exists i. by rewrite lookup_take_lt.
Qed.
Lemma first_fit_pairwise c l p q : (∀ p, p ∈ l → fits c p.1) → first_fit c l → p ∈ l → q ∈ l → p = q ∨ ¬ meets c p q.
Proof.
  intros Hfit Hl Hp Hq. pose proof (Hfit p Hp). pose proof (Hfit q Hq).
  apply list_elem_of_lookup in Hp as [i Hi]. apply list_elem_of_lookup in Hq as [j Hj].
  destruct (lt_eq_lt_dec i j) as [[Hij| ->]|Hij].
  - right. apply disjoint_meets; [done|done|]. by eapply first_fit_apart.
  - left. congruence.
  - right. intros Hm%meets_sym. revert Hm. apply disjoint_meets; [done|done|]. by eapply first_fit_apart.
Qed.
Lemma first_fit_snoc c l b n : first_fit c l → 0 ≤ n → free c l b n → (∀ m, 0 ≤ m < n → ¬ free c l b m) →
  first_fit c (l ++ [(b, n)]).
Proof.
  intros Hl H0 Hf Hm i b' n' Hi. destruct (decide (i < length l)%nat) as [Hlt|Hge].
  - rewrite lookup_app_l in Hi by done. rewrite take_app_le by lia. by apply Hl.
  - rewrite lookup_app_r in Hi by lia. destruct (i - length l)%nat as [|k] eqn:E; [|by destruct k].
    injection Hi as <- <-. assert (i = length l) as -> by lia. by rewrite take_app_length.
Qed.

Section Subnets.
Context {HP : Profile} {crate : CidrCrate} {laws : CidrLaws crate} (f64_to_string : f64 → string).
Context (c : IpCidr) (Hc : cidr_wf c) (N : Z).
(** What is known of a block: it can be there, and the sum of all fits in an [i64]. *)
Definition bounded (p : Z * Z) : Prop := fits c p.1 ∧ N * 2 ^ p.1 < 2 ^ 63 ∧ 0 ≤ p.2 ≤ N * 2 ^ p.1.

Lemma bits_bound b : 0 < N → fits c b → N * 2 ^ b < 2 ^ 63 → b < 63.
Proof using. intros HN [Hb _] H. apply (Z.pow_lt_mono_r_iff 2); [lia|lia|]. pose proof (pow2_gt b Hb). nia. Qed.
Lemma subnet_bits_Ok b : fits c b → b ≤ 63 → subnet_bits c (ref_int b) = Ok b.
Proof using Hc.
  intros [Hb Hb'] H. destruct Hc as ([Hl Hl'] & _). unfold subnet_bits. change (must_as_strict_int (ref_int b)) with (@Ok Z b). cbn [mbind Res_bind].
  destruct (Z.ltb_spec b 0); [lia|]. assert (family_len (is_ipv6 c) ≤ 128) by (by destruct (is_ipv6 c)).
  rewrite arith64 by lia. cbn [mbind Res_bind]. destruct (is_ipv6 c); cbn [family_len negb andb] in *.
  - destruct (Z.ltb_spec 63 b); [lia|]. destruct (Z.ltb_spec 128 (network_length c + b)); [lia|done].
  - destruct (Z.ltb_spec 32 (network_length c + b)); [lia|done].
Qed.
(** One subnet: the search ends with the first fit. *)
Lemma search_first_fit fuel L b : (∀ p, p ∈ L → bounded p) → first_fit c L → Z.of_nat (length L) < N →
  fits c b → N * 2 ^ b < 2 ^ 63 → (length L < fuel)%nat →
  ∃ n, try_loop fuel b (row <$> L) 0 = Some (Ok n) ∧ first_fit c (L ++ [(b, n)]) ∧ bounded (b, n).
Proof using.
  intros HL Hff HN Hb Hr Hf.
  pose proof (bits_bound b ltac:(lia) Hb Hr) as Hb63.
  assert (∀ p, p ∈ L → 0 ≤ p.1 ≤ 63 ∧ 0 ≤ p.2 ≤ N * 2 ^ p.1) as Hsmall.
  { intros p Hp. destruct (HL p Hp) as (H1 & H2 & H3). pose proof (bits_bound p.1 ltac:(lia) H1 H2). destruct H1. lia. }
  assert (∀ p q, p ∈ interval b <$> L → q ∈ interval b <$> L → p = q ∨ p.1 + p.2 ≤ q.1 ∨ q.1 + q.2 ≤ p.1) as Hap.
  { intros p q (p' & -> & Hp)%list_elem_of_fmap (q' & -> & Hq)%list_elem_of_fmap.
    apply (intervals_apart c); [done|by apply HL|by apply HL|].
    apply (first_fit_pairwise c L); [intros r Hr'; by apply HL|done|done|done]. }
  assert (0 ≤ b ≤ 63) as Hb' by (destruct Hb; lia).
  assert (ahead (interval b <$> L) 0 ≤ length L)%nat as Hahead.
  { unfold ahead. etransitivity; [apply length_filter|]. by rewrite length_fmap. }
  destruct (try_loop_Ok b L N Hb' Hsmall Hr HN Hap fuel 0) as (n & Ht & Hs & Hnt); [lia| |].
  { apply searched_0; [|apply pow2_gt; lia]. intros p (q & -> & Hq)%list_elem_of_fmap.
    by apply (interval_small b L N Hb' Hsmall Hr). }
  assert (∀ m, free c L b m ↔ ¬ taken (interval b <$> L) m) as Hfree.
  { intros m. unfold free, taken. split.
    - intros H (p & (q & -> & Hq)%list_elem_of_fmap & Hm). apply (interval_meets c) in Hm; [|done|by apply HL].
      revert Hm. apply disjoint_meets; [by apply HL|done|]. by apply H.
    - intros H p Hp. apply disjoint_meets; [by apply HL|done|]. intros Hm%interval_meets; [|done|by apply HL].
      apply H. exists (interval b p). split; [by apply list_elem_of_fmap_2|done]. }
  destruct Hs as (H0 & Hbelow & _ & Hle). exists n. split; [done|split].
  - apply first_fit_snoc; [done|done|by apply Hfree|]. intros m Hm Hfm%Hfree. by apply Hfm, Hbelow.
  - split; [done|split; [done|]]. cbn [fst snd]. split; [done|]. rewrite length_fmap in Hle.
    pose proof (pow2_gt b ltac:(lia)). nia.
Qed.
Lemma net_nums_Ok fuel bs L : (∀ p, p ∈ L → bounded p) → first_fit c L →
  Z.of_nat (length L + length bs) ≤ N → Forall (λ b, fits c b ∧ N * 2 ^ b < 2 ^ 63) bs → (length L + length bs ≤ fuel)%nat →
  ∃ ns, length ns = length bs ∧ net_nums fuel c (ref_int <$> bs) (row <$> L) = Some (Ok (row <$> (L ++ zip bs ns))) ∧
    first_fit c (L ++ zip bs ns) ∧ ∀ p, p ∈ L ++ zip bs ns → bounded p.
Proof using Hc.
  revert L. induction bs as [|b bs IH]; intros L HL Hff HN Hbs Hf; cbn [length] in *.
  { exists []. cbn [zip zip_with]. rewrite app_nil_r. done. }
  apply Forall_cons in Hbs as [[Hb Hr] Hbs].
  destruct (search_first_fit fuel L b HL Hff) as (n & Ht & Hff' & Hbd); [lia|done|done|lia|].
  rewrite fmap_cons. cbn [net_nums]. rewrite subnet_bits_Ok; [|done|pose proof (bits_bound b ltac:(lia) Hb Hr); lia].
  cbn [run_with]. rewrite Ht. cbn [run_with].
  destruct (IH (L ++ [(b, n)])) as (ns & Hlen & Hn & Hff2 & Hb2); [|done|rewrite length_app; cbn [length]; lia|done|rewrite length_app; cbn [length]; lia|].
  { intros p [Hp| ->%list_elem_of_singleton]%elem_of_app; [by apply HL|done]. }
  exists (n :: ns). cbn [length zip zip_with]. rewrite <- app_assoc in *. rewrite fmap_app in Hn.
  split_and!; [congruence|exact Hn|done|done].
Qed.

(** The subnets in the order they were asked for. *)
Definition subnet_values (l : list (Z * Z)) : list ValueRef := (λ p, ref_str (cidr_to_string (net c p))) <$> l.
Definition in_room (p : Z * Z) : bool := p.2 <? 2 ^ p.1.
Lemma build_subnets_Ok l subnets : 0 < N → (∀ p, p ∈ l → bounded p) →
  (subnets ≠ [] ∨ ∃ b l', l = (b, 0) :: l') →
  (forallb in_room l = true → build_subnets f64_to_string c (row <$> l) subnets = Ok (subnets ++ subnet_values l)) ∧
  (forallb in_room l = false → ∃ msg, build_subnets f64_to_string c (row <$> l) subnets = Panic (PanicMsg msg)).
Proof using Hc laws.
  intros HN. revert subnets. induction l as [|[b n] l IH]; intros subnets Hl Hne.
  { split; [intros _; unfold subnet_values; cbn; by rewrite app_nil_r|done]. }
  destruct (Hl (b, n) ltac:(by left)) as (Hb & Hr & Hn); cbn [fst snd] in *.
  pose proof (bits_bound b HN Hb Hr) as Hb63. assert (0 ≤ b) as Hb0 by (by destruct Hb).
  pose proof (pow2_gt b Hb0). pose proof (Z.pow_lt_mono_r 2 b 64 ltac:(lia) ltac:(lia) ltac:(lia)).
  rewrite fmap_cons. cbn [build_subnets row fst snd forallb]. change (must_as_strict_int (ref_int b)) with (@Ok Z b).
  cbn [mbind Res_bind]. rewrite shl_u_Ok by lia. cbn [mbind Res_bind]. rewrite Z.mul_1_l.
  assert (n < 2 ^ 63) by lia. unfold wrap_uint. rewrite Z.mod_small by lia.
  change (in_room (b, n)) with (n <? 2 ^ b). destruct (Z.leb_spec (2 ^ b) n), (Z.ltb_spec n (2 ^ b)); try lia; cbn [andb].
  - split; [done|]. intros _. destruct (list.last subnets) as [lst|] eqn:El.
    + destruct Hc as ([Hl0 Hl1] & _), Hb as [_ Hb]. assert (family_len (is_ipv6 c) ≤ 128) by (by destruct (is_ipv6 c)).
      rewrite arith64 by lia. cbn [mbind Res_bind]. by eexists.
    + apply last_None in El. destruct Hne as [?|(b' & l' & [= -> -> ->])]; [done|]. lia.
  - rewrite allocate_subnet by (done || lia). cbn [mbind Res_bind].
    destruct (IH (subnets ++ [ref_str (cidr_to_string (subnet c b n))])) as [IH1 IH2].
    { intros p Hp. apply Hl. by right. }
    { left. by destruct subnets. }
    split; [|exact IH2]. intros Hin. rewrite IH1 by done. by rewrite <- app_assoc.
Qed.
End Subnets.

Section Theorems.
Context {HP : Profile} {crate : CidrCrate} {laws : CidrLaws crate} (f64_to_string : f64 → string).

(** C5: [CIDR_subnets] ends, with no more passes for a subnet than there are subnets,
    and allots first fit: every subnet gets the least number for which it has no address in
    common with those before it.  When all these numbers fit into the bits that were asked
    for, the result is the list of the texts of the subnets, which are networks inside the
    given one and pairwise without a common address; otherwise it is a panic with a
    message.  The bits must be such that the sizes of all subnets together, seen with the
    longest prefix, can be counted in an [i64]. *)
Theorem subnets_first_fit c bs fuel :
  cidr_wf c → Forall (λ b, fits c b ∧ Z.of_nat (length bs) * 2 ^ b < 2 ^ 63) bs → (length bs ≤ fuel)%nat →
  ∃ ns, length ns = length bs ∧ first_fit c (zip bs ns) ∧
    if forallb in_room (zip bs ns)
    then CIDR_subnets f64_to_string fuel c (ref_int <$> bs) = Some (Ok (ref_list (subnet_values c (zip bs ns)))) ∧
         (∀ p, p ∈ zip bs ns → cidr_wf (net c p) ∧ ∀ a, in_network (net c p) a → in_network c a) ∧
         (∀ i j p q, zip bs ns !! i = Some p → zip bs ns !! j = Some q → i ≠ j → disjoint_nets (net c p) (net c q))
    else ∃ msg, CIDR_subnets f64_to_string fuel c (ref_int <$> bs) = Some (Panic (PanicMsg msg)).
Proof using laws.
  intros Hc Hbs Hf. set (N := Z.of_nat (length bs)) in *.
  destruct (net_nums_Ok c Hc N fuel bs []) as (ns & Hlen & Hn & Hff & Hbd); [by intros ? ?%elem_of_nil|by intros ? ? ? ?|
    cbn [length]; lia|done|cbn [length]; lia|]. cbn [app] in *.
  exists ns. split; [done|split; [done|]]. unfold CIDR_subnets. change (@nil (ValueRef * Z)) with (row <$> []). rewrite Hn. cbn [run_with].
  destruct bs as [|b bs']; [by cbn; split_and!; [done|intros ? ?%elem_of_nil|intros [] ? ? ? ?]|].
  destruct ns as [|n ns']; [done|]. set (l := zip (b :: bs') (n :: ns')) in *.
  assert (n = 0) as ->.
  { destruct (Hff 0%nat b n eq_refl) as (H0 & _ & H). destruct (decide (n = 0)) as [?|Hne]; [done|]. destruct (H 0); [lia|].
    by intros ? ?%elem_of_nil. }
  destruct (build_subnets_Ok f64_to_string c Hc N l []) as [H1 H2]; [unfold N; cbn [length]; lia|done|right; by eexists _, _|].
  destruct (forallb in_room l) eqn:Hall.
  - rewrite H1 by done. cbn [mbind Res_bind app]. split; [done|]. split.
    + intros p Hp. rewrite forallb_forall in Hall. pose proof (Hall p ltac:(by apply list_elem_of_In)) as Hin. unfold in_room in Hin.
      destruct (Hbd p Hp) as (Hfit & _ & Hp0). split; [apply subnet_wf|apply subnet_inside]; done || lia.
    + intros i j p q Hi Hj Hij. destruct (decide (i < j)%nat); [by eapply first_fit_apart|].
      intros a Ha Hb. eapply (first_fit_apart c l j i q p); [done|done|done|lia|done|done].
  - destruct (H2 eq_refl) as [msg ->]. by exists msg.
Qed.
End Theorems.

(** ** Reading numbers *)

Definition stops (radix : Z) (s : string) : Prop :=
  match s with
  | EmptyString => True
  | String a _ => match alnum_value a with Some d => radix ≤ d | None => True end
  end.
Lemma read_digits_stop radix max s v k : stops radix s → read_digits radix max s v k = Some (v, k, s).
Proof.
  intros H. destruct s as [|a s]; [done|]. cbn [read_digits stops] in *. destruct (alnum_value a) as [d|]; [|done].
  destruct (Z.ltb_spec d radix); [lia|done].
Qed.
Lemma read_digits_app radix max s rest acc k v : radix_value radix s acc = Some v → stops radix rest → (k + slen s ≤ max)%nat →
  read_digits radix max (s +:+ rest) acc k = Some (v, (k + slen s)%nat, rest).
Proof.
  revert acc k. induction s as [|a s IH]; intros acc k Hv Hr Hm; cbn [radix_value slen] in *.
  - injection Hv as <-. rewrite Nat.add_0_r. by apply read_digits_stop.
  - cbn [String.append read_digits]. destruct (alnum_value a) as [d|]; [|done]. cbn [mbind option_bind] in Hv.
    destruct (d <? radix); [|done]. destruct (Nat.ltb_spec max (S k)); [lia|]. rewrite IH by (done || lia). do 3 f_equal. lia.
Qed.
Lemma digits_onto_slen base n acc k fuel : 2 ≤ base → 0 ≤ n < base ^ Z.of_nat k → (0 < k)%nat →
  (slen (digits_onto fuel base n acc) ≤ slen acc + k)%nat.
Proof.
  intros Hb. revert n acc k. induction fuel as [|fuel IH]; intros n acc k Hn Hk; cbn [digits_onto]; [lia|].
  destruct (Z.eqb_spec (n / base) 0) as [E|E]; cbn [slen]; [lia|]. destruct k as [|k]; [lia|].
  rewrite Nat2Z.inj_succ, Z.pow_succ_r in Hn by lia.
  assert (0 ≤ n / base < base ^ Z.of_nat k) by (split; [apply Z.div_pos; lia|apply Z.div_lt_upper_bound; lia]).
  assert (0 < k)%nat. { destruct k; [|lia]. change (base ^ Z.of_nat 0) with 1 in *. lia. }
  specialize (IH (n / base) (String (digit_char (n mod base)) acc) k). cbn [slen] in IH. lia.
Qed.
Lemma digits_in_facts base n k : 2 ≤ base ≤ 36 → 0 ≤ n < base ^ Z.of_nat k → (0 < k ≤ 64)%nat →
  radix_value base (digits_in base n) 0 = Some n ∧ (0 < slen (digits_in base n) ≤ k)%nat.
Proof.
  intros Hb Hn Hk. unfold digits_in. rewrite radix_digits_onto; [|done| |lia].
  - split; [done|]. pose proof (digits_onto_slen base n "" k 64 ltac:(lia) Hn ltac:(lia)) as H. cbn [slen] in H.
    destruct (digits_onto_head base 64 n "" Hb ltac:(lia)) as (d & t & _ & E). rewrite E in *. cbn [slen] in *. lia.
  - split; [lia|]. apply Z.lt_le_trans with (base ^ Z.of_nat k); [lia|]. apply Z.pow_le_mono_r; lia.
Qed.
(** Only zero is printed with a zero in front. *)
Lemma octet_zero n : 0 ≤ n < 256 → starts_with "0" (digits_in 10 n) = true → slen (digits_in 10 n) = 1%nat.
Proof.
  intros Hn. assert (forallb (λ n, implb (starts_with "0" (digits_in 10 (Z.of_nat n))) (Nat.eqb (slen (digits_in 10 (Z.of_nat n))) 1))
    (List.seq 0 256) = true) as H by (vm_compute; reflexivity).
  rewrite forallb_forall in H. specialize (H (Z.to_nat n)). rewrite Z2Nat.id in H by lia. intros E. rewrite E in H.
  apply Nat.eqb_eq. apply H, in_seq. lia.
Qed.
Lemma read_octet_text n rest : 0 ≤ n < 256 → stops 10 rest →
  read_number 10 3 false 256 (digits_in 10 n +:+ rest) = Some (n, rest).
Proof.
  intros Hn Hr. destruct (digits_in_facts 10 n 3 ltac:(lia) ltac:(lia) ltac:(lia)) as [Hv Hl]. unfold read_number.
  rewrite (read_digits_app 10 3 _ rest 0 0 n Hv Hr) by lia. cbn [negb andb Nat.add].
  destruct (Nat.eqb_spec (slen (digits_in 10 n)) 0); [lia|].
  assert (starts_with "0" (digits_in 10 n +:+ rest) = starts_with "0" (digits_in 10 n)) as ->.
  { destruct (digits_in 10 n); [done|]. cbn. by rewrite !andb_true_r. }
  destruct (starts_with "0" (digits_in 10 n)) eqn:E.
  - rewrite (octet_zero n Hn E). cbn [Nat.ltb Nat.leb andb]. destruct (Z.ltb_spec n 256); [done|lia].
  - cbn [andb]. destruct (Z.ltb_spec n 256); [done|lia].
Qed.
Lemma read_group_text n rest : 0 ≤ n < 65536 → stops 16 rest →
  read_number 16 4 true 65536 (digits_in 16 n +:+ rest) = Some (n, rest).
Proof.
  intros Hn Hr. destruct (digits_in_facts 16 n 4 ltac:(lia) ltac:(lia) ltac:(lia)) as [Hv Hl]. unfold read_number.
  rewrite (read_digits_app 16 4 _ rest 0 0 n Hv Hr) by lia. cbn [negb andb Nat.add].
  destruct (Nat.eqb_spec (slen (digits_in 16 n)) 0); [lia|]. destruct (Z.ltb_spec n 65536); [done|lia].
Qed.

(** ** Parts of addresses *)

Lemma land_part a k : 0 ≤ k → ∀ w, 0 ≤ w → Z.land (Z.shiftr a k) (2 ^ w - 1) = (a / 2 ^ k) mod 2 ^ w.
Proof. intros Hk w Hw. rewrite Z.shiftr_div_pow2 by done. rewrite <- Z.land_ones by done. by rewrite Z.ones_equiv. Qed.
Lemma octet_part a i : 0 ≤ i ≤ 3 → octet a i = (a / 2 ^ (8 * (3 - i))) mod 2 ^ 8.
Proof. intros Hi. unfold octet. change 255 with (2 ^ 8 - 1). apply land_part; lia. Qed.
Lemma segment_part a i : 0 ≤ i ≤ 7 → segment a i = (a / 2 ^ (16 * (7 - i))) mod 2 ^ 16.
Proof. intros Hi. unfold segment. change 65535 with (2 ^ 16 - 1). apply land_part; lia. Qed.
Lemma octet_range a i : 0 ≤ i ≤ 3 → 0 ≤ octet a i < 256.
Proof. intros Hi. rewrite octet_part by done. by apply Z.mod_pos_bound. Qed.
Lemma segment_range a i : 0 ≤ i ≤ 7 → 0 ≤ segment a i < 65536.
Proof. intros Hi. rewrite segment_part by done. by apply Z.mod_pos_bound. Qed.
(** A number is put together again from its upper and its lowest part. *)
Lemma next_part a j k w : 0 ≤ k → 0 ≤ w → j = k + w → a / 2 ^ j * 2 ^ w + (a / 2 ^ k) mod 2 ^ w = a / 2 ^ k.
Proof.
  intros Hk Hw ->. rewrite Z.pow_add_r, <- Z.div_div by (try apply Z.pow_nonzero; try apply Z.pow_pos_nonneg; lia).
  pose proof (Z.div_mod (a / 2 ^ k) (2 ^ w)) as H. pose proof (pow2_gt w Hw). lia.
Qed.
Lemma from_octets a : 0 ≤ a < 2 ^ 32 → from_parts 256 [octet a 0; octet a 1; octet a 2; octet a 3] = a.
Proof.
  intros Ha. unfold from_parts. cbn [foldl]. rewrite !octet_part by lia. change 256 with (2 ^ 8).
  assert ((a / 2 ^ (8 * (3 - 0))) mod 2 ^ 8 = a / 2 ^ 24) as ->.
  { change (8 * (3 - 0)) with 24. apply Z.mod_small. split; [apply Z.div_pos; lia|apply Z.div_lt_upper_bound; lia]. }
  change (0 * 2 ^ 8) with 0. rewrite Z.add_0_l.
  change (8 * (3 - 1)) with 16. change (8 * (3 - 2)) with 8. change (8 * (3 - 3)) with 0.
  rewrite (next_part a 24 16 8), (next_part a 16 8 8), (next_part a 8 0 8) by lia. by rewrite Z.div_1_r.
Qed.
Lemma from_segments a : 0 ≤ a < 2 ^ 128 → from_parts 65536 (segments a) = a.
Proof.
  intros Ha. unfold from_parts, segments. cbn [fmap list_fmap foldl]. rewrite !segment_part by lia. change 65536 with (2 ^ 16).
  assert ((a / 2 ^ (16 * (7 - 0))) mod 2 ^ 16 = a / 2 ^ 112) as ->.
  { change (16 * (7 - 0)) with 112. apply Z.mod_small. split; [apply Z.div_pos; lia|apply Z.div_lt_upper_bound; lia]. }
  change (0 * 2 ^ 16) with 0. rewrite Z.add_0_l.
  change (16 * (7 - 1)) with 96. change (16 * (7 - 2)) with 80. change (16 * (7 - 3)) with 64. change (16 * (7 - 4)) with 48.
  change (16 * (7 - 5)) with 32. change (16 * (7 - 6)) with 16. change (16 * (7 - 7)) with 0.
  rewrite (next_part a 112 96 16), (next_part a 96 80 16), (next_part a 80 64 16), (next_part a 64 48 16), (next_part a 48 32 16),
    (next_part a 32 16 16), (next_part a 16 0 16) by lia. by rewrite Z.div_1_r.
Qed.

(** ** Addresses are read back *)

Lemma stops_char radix a s : alnum_value a = None → stops radix (String a s).
Proof. intros H. cbn [stops]. by rewrite H. Qed.
Lemma dot_text s : "." +:+ s = String "." s. Proof. done. Qed.
Lemma colon_text s : ":" +:+ s = String ":" s. Proof. done. Qed.

Lemma ipv4_text_read a rest : 0 ≤ a < 2 ^ 32 → stops 10 rest → read_ipv4_addr (ipv4_to_string a +:+ rest) = Some (a, rest).
Proof.
  intros Ha Hr. unfold read_ipv4_addr, ipv4_to_string, read_octet. rewrite !str_app_assoc.
  cbn [read_separator]. rewrite read_octet_text; [|apply octet_range; lia|by apply stops_char].
  cbn [String.append read_separator read_given_char Ascii.eqb Bool.eqb]. rewrite read_octet_text; [|apply octet_range; lia|by apply stops_char].
  cbn [String.append read_separator read_given_char Ascii.eqb Bool.eqb]. rewrite read_octet_text; [|apply octet_range; lia|by apply stops_char].
  cbn [String.append read_separator read_given_char Ascii.eqb Bool.eqb]. rewrite read_octet_text; [|apply octet_range; lia|done].
  by rewrite from_octets.
Qed.
Lemma ipv4_text_length a : (slen (ipv4_to_string a) ≤ 15)%nat.
Proof.
  unfold ipv4_to_string. rewrite !slen_app. cbn [slen].
  assert (∀ i, 0 ≤ i ≤ 3 → (slen (digits_in 10 (octet a i)) ≤ 3)%nat) as H.
  { intros i Hi. pose proof (octet_range a i Hi). destruct (digits_in_facts 10 (octet a i) 3 ltac:(lia) ltac:(lia) ltac:(lia)) as [_ ?]. lia. }
  pose proof (H 0 ltac:(lia)). pose proof (H 1 ltac:(lia)). pose proof (H 2 ltac:(lia)). pose proof (H 3 ltac:(lia)). lia.
Qed.
Lemma ipv4_read_back a : 0 ≤ a < 2 ^ 32 → ipv4_from_str (ipv4_to_string a) = Some a.
Proof.
  intros Ha. unfold ipv4_from_str, parse_with. pose proof (ipv4_text_length a). destruct (Nat.ltb_spec 15 (slen (ipv4_to_string a))); [lia|].
  rewrite <- (str_app_nil_r (ipv4_to_string a)). by rewrite ipv4_text_read.
Qed.

(** *** A text without dots is not an IPv4 address *)

Fixpoint no_dots (s : string) : bool :=
  match s with EmptyString => true | String a s => negb (Ascii.eqb a ".") && no_dots s end.
Lemma no_dots_app s t : no_dots (s +:+ t) = no_dots s && no_dots t.
Proof. induction s as [|a s IH]; [done|]. cbn. by rewrite IH, andb_assoc. Qed.
Lemma read_digits_no_dots radix max s v k r : no_dots s = true → read_digits radix max s v k = Some r → no_dots r.2 = true.
Proof.
  revert v k. induction s as [|a s IH]; intros v k Hs H; cbn [read_digits] in H; [by injection H as <-|].
  assert (no_dots s = true) as Hs' by (by apply andb_prop in Hs as [_ ?]).
  destruct (alnum_value a) as [d|]; [|by injection H as <-]. destruct (d <? radix); [|by injection H as <-].
  destruct (Nat.ltb max (S k)); [done|]. by apply (IH _ _ Hs' H).
Qed.
Lemma ipv4_no_dots s : no_dots s = true → read_ipv4_addr s = None.
Proof.
  intros Hs. unfold read_ipv4_addr. destruct (read_octet 0 s) as [[n r]|] eqn:E; [|done].
  assert (no_dots r = true) as Hr.
  { revert E. unfold read_octet, read_number. cbn [read_separator].
    destruct (read_digits 10 3 s 0 0) as [[[v k] t]|] eqn:Ed; [|done]. apply read_digits_no_dots in Ed; [|done].
    destruct (Nat.eqb k 0); [done|]. destruct (_ && _); [done|]. destruct (v <? 256); [|done]. by intros [= _ <-]. }
  unfold read_octet. cbn [read_separator]. destruct r as [|a r]; [done|]. cbn [read_given_char no_dots] in *.
  by destruct (Ascii.eqb a "."); [discriminate|].
Qed.
Lemma digits_no_dots base n : 2 ≤ base ≤ 36 → no_dots (digits_in base n) = true.
Proof.
  intros Hb. unfold digits_in. assert (no_dots "" = true) as H by done. revert H. generalize "". generalize n. generalize 64%nat.
  induction n0 as [|k IH]; intros m acc Hacc; cbn [digits_onto]; [done|].
  assert (no_dots (String (digit_char (m mod base)) acc) = true) as H.
  { cbn [no_dots]. rewrite Hacc, andb_true_r. destruct (Ascii.eqb_spec (digit_char (m mod base)) ".") as [E|]; [|done].
    pose proof (Z.mod_pos_bound m base ltac:(lia)). pose proof (alnum_digit (m mod base) ltac:(lia)) as Ha. by rewrite E in Ha. }
  destruct (_ =? 0); [done|]. by apply IH.
Qed.

(** *** Groups *)

Definition group (x : Z) : Prop := 0 ≤ x < 65536.
(** The text of groups that stand behind others. *)
Fixpoint groups_text (l : list Z) : string :=
  match l with [] => "" | x :: l => ":" +:+ digits_in 16 x +:+ groups_text l end.
Lemma fmt_subslice_cons x l : fmt_subslice (x :: l) = digits_in 16 x +:+ groups_text l.
Proof.
  revert x. induction l as [|y l IH]; intros x; [by rewrite str_app_nil_r|].
  change (fmt_subslice (x :: y :: l)) with (digits_in 16 x +:+ ":" +:+ fmt_subslice (y :: l)). by rewrite IH.
Qed.
Lemma groups_no_dots l : no_dots (groups_text l) = true.
Proof. induction l as [|x l IH]; [done|]. cbn [groups_text]. by rewrite !no_dots_app, digits_no_dots, IH by lia. Qed.
Lemma fmt_no_dots l : no_dots (fmt_subslice l) = true.
Proof. destruct l as [|x l]; [done|]. rewrite fmt_subslice_cons, no_dots_app, digits_no_dots, groups_no_dots by lia. done. Qed.

(** A text that holds no further group. *)
Definition ends_groups (s : string) : Prop := s = EmptyString ∨ ∃ r, s = String ":" (String ":" r).
Lemma ends_groups_stops s : ends_groups s → stops 16 s.
Proof. intros [->|[r ->]]; [done|]. by apply stops_char. Qed.
Lemma no_group i s : ends_groups s → read_separator ":" i (read_number 16 4 true 65536) s = None.
Proof. intros [->|[r ->]]; destruct i; reflexivity. Qed.
Lemma no_ipv4 i s : no_dots s = true → read_separator ":" i read_ipv4_addr s = None.
Proof.
  intros Hs. destruct i as [|i]; cbn [read_separator]; [by apply ipv4_no_dots|]. destruct s as [|a s]; [done|].
  cbn [read_given_char no_dots] in *. apply andb_prop in Hs as [_ Hs]. destruct (Ascii.eqb a ":"); [by apply ipv4_no_dots|done].
Qed.
Lemma read_groups_stop left i s : ends_groups s → no_dots s = true → read_groups left i s = ([], false, s).
Proof.
  intros He Hs. destruct left as [|left]; [done|]. cbn [read_groups]. rewrite no_group by done.
  assert ((if Nat.ltb 1 (S left) then read_separator ":" i read_ipv4_addr s else None) = None) as ->; [|done].
  destruct (Nat.ltb _ _); [|done]. by apply no_ipv4.
Qed.
Lemma read_group_step left i x s : group x → no_dots s = true → stops 16 s →
  read_groups (S left) i ((match i with O => EmptyString | S _ => ":" end) +:+ digits_in 16 x +:+ s) =
  (let '(l, v4, r) := read_groups left (S i) s in (x :: l, v4, r)).
Proof.
  intros Hx Hs Hr. cbn [read_groups]. set (t := _ +:+ digits_in 16 x +:+ s).
  assert (no_dots t = true) as Ht.
  { unfold t. rewrite !no_dots_app, Hs, digits_no_dots by lia. by destruct i. }
  assert ((if Nat.ltb 1 (S left) then read_separator ":" i read_ipv4_addr t else None) = None) as ->.
  { destruct (Nat.ltb _ _); [|done]. by apply no_ipv4. }
  assert (read_separator ":" i (read_number 16 4 true 65536) t = Some (x, s)) as ->; [|done].
  unfold t. destruct i as [|i]; cbn [String.append read_separator read_given_char Ascii.eqb Bool.eqb]; by apply read_group_text.
Qed.
Lemma groups_stop l s : ends_groups s → stops 16 (groups_text l +:+ s).
Proof. destruct l as [|x l]; [apply ends_groups_stops|]. intros _. cbn [groups_text]. rewrite str_app_assoc. by apply stops_char. Qed.
Lemma read_groups_text l left i s : Forall group l → (length l ≤ left)%nat → ends_groups s → no_dots s = true →
  read_groups left (S i) (groups_text l +:+ s) = (l, false, s).
Proof.
  revert left i. induction l as [|x l IH]; intros left i Hl Hlen He Hs; [by apply read_groups_stop|].
  apply Forall_cons in Hl as [Hx Hl]. destruct left as [|left]; [cbn [length] in Hlen; lia|]. cbn [groups_text length] in *.
  rewrite !str_app_assoc.
  change (":" +:+ digits_in 16 x +:+ groups_text l +:+ s) with
    ((match S i with O => EmptyString | S _ => ":" end) +:+ digits_in 16 x +:+ (groups_text l +:+ s)).
  rewrite read_group_step; [|done|by rewrite no_dots_app, groups_no_dots|by apply groups_stop]. by rewrite IH by (done || lia).
Qed.
Lemma read_subslice l left s : Forall group l → (length l ≤ left)%nat → ends_groups s → no_dots s = true →
  read_groups left 0 (fmt_subslice l +:+ s) = (l, false, s).
Proof.
  intros Hl Hlen He Hs. destruct l as [|x l]; [by apply read_groups_stop|].
  apply Forall_cons in Hl as [Hx Hl]. destruct left as [|left]; [cbn [length] in Hlen; lia|]. cbn [length] in Hlen.
  rewrite fmt_subslice_cons, str_app_assoc.
  change (digits_in 16 x +:+ groups_text l +:+ s) with
    ((match 0%nat with O => EmptyString | S _ => ":" end) +:+ digits_in 16 x +:+ (groups_text l +:+ s)).
  rewrite read_group_step; [|done|by rewrite no_dots_app, groups_no_dots|by apply groups_stop]. by rewrite read_groups_text by (done || lia).
Qed.

(** *** The run of zeroes *)

Definition zero_run (l : list Z) (r : nat * nat) : Prop :=
  (r.1 + r.2 ≤ length l)%nat ∧ ∀ k, (r.1 ≤ k < r.1 + r.2)%nat → l !! k = Some 0.
Lemma longest_zeroes_run all l i current longest :
  drop i all = l → zero_run all current → zero_run all longest → (i ≤ length all)%nat →
  (current.2 = 0%nat ∨ (current.1 + current.2 = i)%nat) → zero_run all (longest_zeroes i l current longest).
Proof.
  revert i current longest. induction l as [|x l IH]; intros i current longest Hd Hc Hl Hi Hat; cbn [longest_zeroes]; [done|].
  assert (all !! i = Some x ∧ drop (S i) all = l) as [Hx Hd'].
  { split; [by rewrite <- (Nat.add_0_r i), <- lookup_drop, Hd|]. change (S i) with (1 + i)%nat. by rewrite Nat.add_comm, <- drop_drop, Hd. }
  assert (S i ≤ length all)%nat as Hi' by (apply lookup_lt_Some in Hx; lia).
  destruct (Z.eqb_spec x 0) as [->|Hx0].
  - set (current' := (if Nat.eqb current.2 0 then i else current.1, S current.2)).
    assert (zero_run all current' ∧ (current'.1 + current'.2 = S i)%nat) as [Hc' Hat'].
    { unfold current'. destruct (Nat.eqb_spec current.2 0) as [E|E]; cbn [fst snd].
      - rewrite E. split; [|lia]. split; cbn [fst snd]; [lia|]. intros k Hk. assert (k = i) as -> by lia. done.
      - split; [|lia]. destruct Hat as [?|Hat]; [lia|]. destruct Hc as [Hc1 Hc2]. split; cbn [fst snd]; [lia|].
        intros k Hk. destruct (decide (k = i)) as [->|]; [done|]. apply Hc2. lia. }
    apply IH; [done|done| |done|by right]. by destruct (Nat.ltb _ _).
  - apply IH; [done|split; cbn; [lia|intros; lia]|done|done|by left].
Qed.
Lemma zero_run_split l s n : zero_run l (s, n) → l = take s l ++ replicate n 0 ++ drop (s + n) l.
Proof.
  intros [H1 H2]; cbn [fst snd] in *. rewrite <- (take_drop s l) at 1. f_equal. rewrite <- (take_drop n (drop s l)), drop_drop. f_equal.
  apply list_eq. intros k. destruct (decide (k < n)%nat) as [Hk|Hk].
  - rewrite lookup_take_lt, lookup_drop, H2 by lia. symmetry. by apply lookup_replicate_2.
  - rewrite lookup_take_ge by lia. symmetry. apply lookup_replicate_None. lia.
Qed.

(** *** IPv6 addresses *)

Lemma fmt_segments_read l : Forall group l → length l = 8%nat → parse_with read_ipv6_addr (fmt_segments l) = Some (from_parts 65536 l).
Proof.
  intros Hl Hlen. unfold fmt_segments, parse_with, read_ipv6_addr.
  destruct (longest_zeroes 0 l (0, 0)%nat (0, 0)%nat) as [s n] eqn:E.
  assert (zero_run l (s, n)) as Hr.
  { rewrite <- E. apply longest_zeroes_run; [done|split; cbn; [lia|intros; lia]|split; cbn; [lia|intros; lia]|lia|by left]. }
  cbn [fst snd]. destruct (Nat.ltb_spec 1 n) as [Hn|Hn].
  - destruct Hr as [Hr1 Hr2] eqn:Hrun; clear Hrun. cbn [fst snd] in Hr1.
    assert (length (take s l) = s) as Hs by (rewrite length_take; lia).
    assert (length (drop (s + n) l) = 8 - s - n)%nat as Ht by (rewrite length_drop; lia).
    rewrite read_subslice; [|by apply Forall_take|lia|right; by eexists|by apply fmt_no_dots].
    rewrite Hs. destruct (Nat.eqb_spec s 8); [lia|]. cbn [String.append read_given_char Ascii.eqb Bool.eqb].
    rewrite <- (str_app_nil_r (fmt_subslice (drop (s + n) l))).
    rewrite read_subslice; [|by apply Forall_drop|lia|by left|done]. do 2 f_equal. rewrite Ht.
    replace (8 - s - (8 - s - n))%nat with n by lia. symmetry. by apply zero_run_split.
  - rewrite <- (str_app_nil_r (fmt_subslice l)). rewrite read_subslice; [|done|lia|by left|done]. by rewrite Hlen.
Qed.
Lemma segments_groups a : Forall group (segments a).
Proof. unfold segments. repeat (apply Forall_cons; split; [apply segment_range; lia|]). by apply Forall_nil. Qed.
Lemma mapped_read a : 0 ≤ a < 2 ^ 32 → parse_with read_ipv6_addr ("::ffff:" +:+ ipv4_to_string a) = Some (65535 * 2 ^ 32 + a).
Proof.
  intros Ha. unfold parse_with, read_ipv6_addr.
  assert (read_groups 8 0 ("::ffff:" +:+ ipv4_to_string a) = ([], false, "::ffff:" +:+ ipv4_to_string a)) as -> by reflexivity.
  cbn [length Nat.eqb String.append read_given_char Ascii.eqb Bool.eqb].
  assert (read_groups (8 - (0 + 1)) 0 ("ffff:" +:+ ipv4_to_string a) = ([65535; Z.shiftr a 16; Z.land a 65535], true, "")) as Hg.
  { change (read_groups (8 - (0 + 1)) 0 ("ffff:" +:+ ipv4_to_string a)) with
      (let '(l, v4, r) := read_groups 6 1 (":" +:+ ipv4_to_string a) in (65535 :: l, v4, r)).
    cbn [read_groups Nat.ltb Nat.leb]. cbn [read_separator String.append read_given_char Ascii.eqb Bool.eqb].
    rewrite <- (str_app_nil_r (ipv4_to_string a)). by rewrite ipv4_text_read. }
  cbn [String.append] in Hg. rewrite Hg. f_equal. unfold from_parts. cbn [length Nat.sub replicate app foldl].
  rewrite Z.shiftr_div_pow2 by lia. change 65535 with (Z.ones 16) at 2. rewrite Z.land_ones by lia.
  pose proof (Z.div_mod a (2 ^ 16) ltac:(lia)). change (2 ^ 16) with 65536 in *. change (2 ^ 32) with 4294967296. lia.
Qed.
Lemma ipv6_read_back a : 0 ≤ a < 2 ^ 128 → ipv6_from_str (ipv6_to_string a) = Some a.
Proof.
  intros Ha. unfold ipv6_from_str, ipv6_to_string, to_ipv4_mapped. rewrite Z.shiftr_div_pow2 by lia.
  destruct (Z.eqb_spec (a / 2 ^ 32) 65535) as [E|E].
  - change 4294967295 with (Z.ones 32). rewrite Z.land_ones by lia. pose proof (Z.mod_pos_bound a (2 ^ 32) ltac:(lia)).
    rewrite mapped_read by done. f_equal. pose proof (Z.div_mod a (2 ^ 32) ltac:(lia)). lia.
  - rewrite fmt_segments_read by (done || apply segments_groups). by rewrite from_segments.
Qed.
Lemma ipv6_text_not_v4 a : read_ipv4_addr (ipv6_to_string a) = None.
Proof.
  unfold ipv6_to_string. destruct (to_ipv4_mapped a); [done|]. apply ipv4_no_dots. unfold fmt_segments.
  destruct (Nat.ltb _ _); [|apply fmt_no_dots]. by rewrite !no_dots_app, !fmt_no_dots.
Qed.

(** The numbers that are addresses. *)
Definition ip_ok (a : IpAddr) : Prop := match a with V4 a => 0 ≤ a < 2 ^ 32 | V6 a => 0 ≤ a < 2 ^ 128 end.

Lemma ip_read_back a : ip_ok a → ip_from_str (ip_to_string a) = Some a.
Proof.
  unfold ip_from_str, parse_with, read_ip_addr. destruct a as [a|a]; intros Ha; cbn [ip_to_string ip_ok] in *.
  - pose proof (ipv4_text_read a "" Ha I) as Hr. rewrite str_app_nil_r in Hr. by rewrite Hr.
  - rewrite ipv6_text_not_v4. pose proof (ipv6_read_back a Ha) as Hr. revert Hr. unfold ipv6_from_str, parse_with.
    destruct (read_ipv6_addr _) as [[b []]|]; [|done|done]. by intros [= ->].
Qed.
(** every IPv4 and IPv6 address is read back from the text it is printed as, by the
    parser of any address and by that of its own family, and the text of an IPv6 address is
    none of an IPv4 address: the longest run of zero groups that is left out and the dotted
    form of mapped addresses lose nothing.  So [IP_string] gives a text that it gives
    for itself. *)
Theorem address_roundtrip {HP : Profile} a : ip_ok a →
  ip_from_str (ip_to_string a) = Some a ∧
  match a with
  | V4 b => ipv4_from_str (ip_to_string a) = Some b
  | V6 b => ipv4_from_str (ip_to_string a) = None ∧ ipv6_from_str (ip_to_string a) = Some b
  end ∧
  kcl_net_IP_string (ref_list [ref_str (ip_to_string a)]) (ref_dict []) = Ok (ref_str (ip_to_string a)).
Proof.
  intros Ha. split; [by apply ip_read_back|]. unfold kcl_net_IP_string, with_ip.
  change (get_call_arg_str _ _ _ _) with (@Ok (option string) (Some (ip_to_string a))). cbn [mbind Res_bind].
  destruct a as [a|a]; cbn [ip_to_string ip_ok] in *; [by rewrite ipv4_read_back|].
  assert (ipv4_from_str (ipv6_to_string a) = None) as ->.
  { unfold ipv4_from_str, parse_with. rewrite ipv6_text_not_v4. by destruct (Nat.ltb _ _). }
  by rewrite ipv6_read_back.
Qed.

(** ** Hosts *)

Section Hosts.
Context {HP : Profile} {crate : CidrCrate} {laws : CidrLaws crate}.

(** Whether the network has a host of the number, which counts from the end when it is negative. *)
Definition has_host (c : IpCidr) (h : Z) : bool :=
  let size := 2 ^ (family_len (is_ipv6 c) - network_length c) in if h <? 0 then - h <=? size else h <? size.
Definition host (c : IpCidr) (h : Z) : Z :=
  first_address c + (if h <? 0 then 2 ^ (family_len (is_ipv6 c) - network_length c) else 0) + h.
Lemma host_inside c h : has_host c h = true → in_network c (host c h).
Proof using. unfold has_host, host, in_network. destruct (Z.ltb_spec h 0); lia. Qed.

Lemma host_v4_Ok c h : cidr_wf c → is_ipv6 c = false → has_host c h = true →
  host_v4 (first_address c) (32 - network_length c) h = Ok (host c h).
Proof using.
  intros Hc E Hh. pose proof (host_inside c h Hh) as [H1 H2]. pose proof (network_end c Hc) as He. destruct Hc as (Hl & Hf & _).
  unfold host_v4, has_host, host in *. rewrite E in *. cbn [family_len] in *.
  pose proof (pow2_le (32 - network_length c) 32 ltac:(lia)). pose proof (pow2_gt (32 - network_length c) ltac:(lia)).
  destruct (Z.ltb_spec h 0).
  - rewrite int_shl64 by lia. cbn [mbind Res_bind]. rewrite !arith64 by lia. cbn [mbind Res_bind]. rewrite arith64 by lia. cbn [mbind Res_bind].
    unfold wrap_uint. rewrite Z.mod_small by lia. f_equal. lia.
  - cbn [mbind Res_bind]. rewrite arith64 by lia. cbn [mbind Res_bind]. unfold wrap_uint. rewrite Z.mod_small by lia. f_equal. lia.
Qed.
Lemma host_v6_Ok c h : cidr_wf c → is_ipv6 c = true → - 2 ^ 63 ≤ h < 2 ^ 63 → has_host c h = true →
  host_v6 (first_address c) (128 - network_length c) h = Ok (host c h).
Proof using.
  intros Hc E Hr Hh. pose proof (host_inside c h Hh) as [H1 H2]. pose proof (network_end c Hc) as He. destruct Hc as (Hl & Hf & Hd).
  unfold host_v6, has_host, host in *. rewrite E in *. cbn [family_len] in *.
  pose proof (pow2_gt (128 - network_length c) ltac:(lia)).
  destruct (Z.eqb_spec (128 - network_length c) 128) as [E0|E0].
  - rewrite E0 in *. destruct Hd as [k Hk]. assert (first_address c = 0) as -> by lia. unfold wrap_uint.
    destruct (Z.ltb_spec h 0); f_equal; [|rewrite Z.mod_small by lia; lia].
    rewrite <- (Z_mod_plus_full h 1), Z.mod_small by lia. lia.
  - pose proof (Z.pow_lt_mono_r 2 (128 - network_length c) 128 ltac:(lia) ltac:(lia) ltac:(lia)). destruct (Z.ltb_spec h 0).
    + rewrite shl_u_Ok by lia. cbn [mbind Res_bind]. unfold wrap_uint. rewrite Z.mod_small by lia.
      rewrite arith_u_Ok by lia. cbn [mbind Res_bind]. rewrite arith_u_Ok by lia. f_equal. lia.
    + cbn [mbind Res_bind]. unfold wrap_uint. rewrite Z.mod_small by lia. rewrite arith_u_Ok by lia. f_equal. lia.
Qed.
Lemma CIDR_host_Ok c h : cidr_wf c → - 2 ^ 63 ≤ h < 2 ^ 63 →
  if has_host c h then CIDR_host c h = Ok (if is_ipv6 c then V6 (host c h) else V4 (host c h))
  else ∃ msg, CIDR_host c h = Panic (PanicMsg msg).
Proof using.
  intros Hc Hr. pose proof Hc as ([Hl0 Hl1] & _). unfold CIDR_host.
  set (n := family_len (is_ipv6 c) - network_length c).
  assert (0 ≤ n ≤ 128) as Hn by (unfold n; destruct (is_ipv6 c); cbn [family_len] in *; lia).
  rewrite arith_u_Ok by (change (2 ^ 8) with 256; lia). cbn [mbind Res_bind].
  set (m := if h <? 0 then - (h + 1) else h).
  assert (abs_host_num h = Ok m ∧ 0 ≤ m < 2 ^ 63) as [-> Hm].
  { unfold abs_host_num, m, wrap_uint. destruct (Z.ltb_spec h 0).
    - rewrite !arith64 by lia. cbn [mbind Res_bind]. rewrite arith64 by lia. cbn [mbind Res_bind]. rewrite Z.mod_small by lia. split; [done|lia].
    - rewrite Z.mod_small by lia. split; [done|lia]. }
  cbn [mbind Res_bind].
  assert ((if n <? 64 then limit ← shl_u 64 1 n; Ok (limit <=? m) else Ok false) = Ok (negb (has_host c h))) as ->.
  { unfold has_host. fold n. pose proof (pow2_gt n ltac:(lia)). destruct (Z.ltb_spec n 64).
    - pose proof (Z.pow_lt_mono_r 2 n 64 ltac:(lia) ltac:(lia) ltac:(lia)). rewrite shl_u_Ok by lia. cbn [mbind Res_bind]. f_equal.
      unfold m. destruct (Z.ltb_spec h 0); lia.
    - pose proof (pow2_le 64 n ltac:(lia)). f_equal. destruct (Z.ltb_spec h 0); lia. }
  cbn [mbind Res_bind]. destruct (has_host c h) eqn:Hh; cbn [negb]; [|by eexists].
  unfold n. destruct (is_ipv6 c) eqn:E; cbn [family_len].
  - by rewrite host_v6_Ok.
  - by rewrite host_v4_Ok.
Qed.

(** C40: the host of a network by its number, counted from the end if it is negative, is
    the address at that place: [CIDR_host] prints it, it lies in the network, and
    [is_IP_in_CIDR] tells so of the text; a number that the network has no room for is a
    panic with a message, without an overflow anywhere. *)
Theorem host_in_network s c h : cidr_from_str s = inr c → - 2 ^ 63 ≤ h < 2 ^ 63 →
  if has_host c h then
    let text := ip_to_string (if is_ipv6 c then V6 (host c h) else V4 (host c h)) in
    kcl_net_CIDR_host (ref_list [ref_str s; ref_int h]) (ref_dict []) = Ok (ref_str text) ∧ in_network c (host c h) ∧
    kcl_net_is_IP_in_CIDR (ref_list [ref_str text; ref_str s]) (ref_dict []) = Ok (ref_bool true)
  else ∃ msg, kcl_net_CIDR_host (ref_list [ref_str s; ref_int h]) (ref_dict []) = Panic (PanicMsg msg).
Proof using laws.
  intros Hs Hr. pose proof (from_str_wf s c Hs) as Hc. pose proof (CIDR_host_Ok c h Hc Hr) as H.
  assert (kcl_net_CIDR_host (ref_list [ref_str s; ref_int h]) (ref_dict []) = (addr ← CIDR_host c h; Ok (ref_str (ip_to_string addr)))) as ->.
  { unfold kcl_net_CIDR_host, network_arg. change (get_call_arg _ _ _ _) with (@Ok (option ValueRef) (Some (ref_str s))).
    cbn [mbind Res_bind]. change (as_str (ref_str s)) with s. by rewrite Hs. }
  destruct (has_host c h) eqn:Hh; [|destruct H as [msg ->]; by exists msg]. rewrite H. cbn [mbind Res_bind].
  pose proof (host_inside c h Hh) as Hin. split_and!; [done|done|].
  pose proof (network_end c Hc) as He. pose proof Hc as (_ & Hf & _). pose proof Hin as Hin'. unfold in_network in Hin'.
  unfold kcl_net_is_IP_in_CIDR.
  match goal with |- context [get_call_arg_str (ref_list [ref_str ?t; _]) _ 0 _] =>
    change (get_call_arg_str (ref_list [ref_str t; ref_str s]) (ref_dict []) 0 (Some "ip")) with (@Ok (option string) (Some t));
    change (get_call_arg_str (ref_list [ref_str t; ref_str s]) (ref_dict []) 1 (Some "cidr")) with (@Ok (option string) (Some s)) end.
  cbn [mbind Res_bind]. pose proof (proj2 (contains_spec c (host c h) Hc) Hin) as Hct.
  rewrite ip_read_back by (destruct (is_ipv6 c); cbn [family_len ip_ok] in *; lia). cbn [mbind Res_bind]. rewrite Hs. cbn [mbind Res_bind].
  destruct (is_ipv6 c); by rewrite Hct.
Qed.
End Hosts.

(** ** Hosts and ports *)

Section Chars.
Context (a : ascii).
Let p := String a EmptyString.
Lemma contains_byte_cons b s : str_contains p (String b s) = Ascii.eqb a b || str_contains p s.
Proof using.
  unfold str_contains, p. cbn [str_find starts_with]. rewrite andb_true_r. destruct (Ascii.eqb a b); [done|].
  by destruct (str_find (String a "") s).
Qed.
Lemma contains_app s t : str_contains p (s +:+ t) = str_contains p s || str_contains p t.
Proof using. induction s as [|b s IH]; [done|]. cbn [String.append]. by rewrite !contains_byte_cons, IH, orb_assoc. Qed.
Lemma rfind_none s : str_contains p s = false → str_rfind p s = None.
Proof using.
  induction s as [|b s IH]; [done|]. rewrite contains_byte_cons. intros [Hb Hs]%orb_false_elim. cbn [str_rfind]. rewrite IH by done.
  unfold p. cbn [starts_with]. by rewrite Hb.
Qed.
Lemma rfind_last s t : str_contains p t = false → str_rfind p (s +:+ String a t) = Some (slen s).
Proof using.
  intros Ht. induction s as [|b s IH]; cbn [String.append str_rfind slen]; [|by rewrite IH].
  rewrite rfind_none by done. unfold p. cbn [starts_with]. by rewrite Ascii.eqb_refl.
Qed.
Lemma find_first s t : str_contains p s = false → str_find p (s +:+ String a t) = Some (slen s).
Proof using.
  induction s as [|b s IH]; cbn [String.append str_find slen].
  - intros _. unfold p. cbn [starts_with]. by rewrite Ascii.eqb_refl.
  - rewrite contains_byte_cons. intros [Hb Hs]%orb_false_elim. unfold p in *. cbn [starts_with]. rewrite Hb. cbn [andb]. by rewrite IH.
Qed.
End Chars.

Lemma rsplit_once_last a s t : str_contains (String a "") t = false → rsplit_once (String a "") (s +:+ String a t) = Some (s, t).
Proof.
  intros Ht. unfold rsplit_once. rewrite rfind_last by done. cbn [mbind option_bind slen]. rewrite str_take_app_slen. do 2 f_equal.
  replace (slen s + 1)%nat with (slen (s +:+ String a "")) by (rewrite slen_app; done).
  replace (s +:+ String a t) with ((s +:+ String a "") +:+ t) by (by rewrite str_app_assoc). apply str_drop_app_slen.
Qed.
(** Behind the first byte of a text there is no bracket when there is none anywhere. *)
Lemma bracket_inside_false s : boundary 1 s = true → str_contains "[" (str_drop 1 s) = false → bracket_inside s = Ok false.
Proof.
  intros Hb Hs. unfold bracket_inside, slice_checked. rewrite Hb.
  assert (boundary (slen s) s = true) as ->.
  { unfold boundary. assert (str_drop (slen s) s = EmptyString) as ->; [|by apply Nat.leb_le].
    rewrite <- (str_app_nil_r s) at 2. apply str_drop_app_slen. }
  cbn [andb mbind Res_bind]. unfold str_slice. destruct s as [|b s]; [done|]. cbn [str_drop slen] in *.
  rewrite Nat.sub_succ, Nat.sub_0_r. replace (str_drop 0 s) with s in * by (by destruct s).
  assert (str_take (slen s) s = s) as -> by (rewrite <- (str_app_nil_r s) at 2; apply str_take_app_slen). by rewrite Hs.
Qed.

Section HostPort.
Context {HP : Profile} (f64_to_string : f64 → string).
Definition host_port (host port : string) : string :=
  if str_contains ":" host then "[" +:+ host +:+ "]:" +:+ port else host +:+ ":" +:+ port.
Lemma split_without_colons host port : str_contains ":" host = false → str_contains "[" host = false → str_contains "]" host = false →
  str_contains ":" port = false → str_contains "[" port = false → str_contains "]" port = false →
  boundary 1 (host +:+ ":" +:+ port) = true → split_host_port (host +:+ ":" +:+ port) = Ok (ref_list [ref_str host; ref_str port]).
Proof using.
  change (":" +:+ port) with (String ":" port). intros H1 H2 H3 P1 P2 P3 Hb. unfold split_host_port. rewrite (rsplit_once_last ":" host port) by done.
  assert (starts_with "[" host = false) as ->.
  { destruct host as [|b host]; [done|]. rewrite contains_byte_cons in H2. apply orb_false_elim in H2 as [H2 _]. cbn [starts_with]. by rewrite H2. }
  rewrite H1, bracket_inside_false; [|done|].
  - cbn [mbind Res_bind]. by rewrite contains_app, contains_byte_cons, H3, P3.
  - destruct host as [|b host]; [cbn; by destruct port|]. rewrite contains_byte_cons in H2. apply orb_false_elim in H2 as [_ H2].
    cbn [String.append str_drop]. replace (str_drop 0 (host +:+ String ":" port)) with (host +:+ String ":" port) by (by destruct (host +:+ _)).
    by rewrite contains_app, contains_byte_cons, H2, P2.
Qed.
Lemma split_brackets host port : str_contains "[" host = false → str_contains "]" host = false →
  str_contains ":" port = false → str_contains "[" port = false → str_contains "]" port = false →
  boundary 1 ("[" +:+ host +:+ "]:" +:+ port) = true →
  split_host_port ("[" +:+ host +:+ "]:" +:+ port) = Ok (ref_list [ref_str host; ref_str port]).
Proof using.
  intros H2 H3 P1 P2 P3 Hb. unfold split_host_port.
  assert ("[" +:+ host +:+ "]:" +:+ port = ("[" +:+ host +:+ "]") +:+ String ":" port) as E by (by rewrite !str_app_assoc).
  rewrite E, (rsplit_once_last ":") by done. rewrite <- E. cbn [String.append starts_with Ascii.eqb Bool.eqb andb].
  unfold split_bracketed.
  assert (str_find "]" (String "[" (host +:+ String "]" (String ":" port))) = Some (S (slen host))) as ->.
  { change (String "[" (host +:+ String "]" (String ":" port))) with (String "[" host +:+ String "]" (String ":" port)).
    rewrite find_first; [done|]. by rewrite contains_byte_cons, H3. }
  cbn [slen]. rewrite slen_app. cbn [slen]. destruct (Nat.ltb_spec (S (slen host + 1)) (S (slen host))); [lia|].
  assert (str_drop (S (slen host) + 1) (String "[" (host +:+ String "]" (String ":" port))) = String ":" port) as ->.
  { cbn [str_drop Nat.add]. replace (slen host + 1)%nat with (slen (host +:+ "]")) by (rewrite slen_app; done).
    replace (host +:+ String "]" (String ":" port)) with ((host +:+ "]") +:+ String ":" port) by (by rewrite str_app_assoc).
    apply str_drop_app_slen. }
  cbn [starts_with Ascii.eqb Bool.eqb andb negb orb]. destruct (Nat.ltb_spec (S (slen host)) (S (slen host + 1) - 1)); [lia|].
  rewrite bracket_inside_false; [|done|].
  - cbn [mbind Res_bind]. rewrite P3. unfold host_and_port, str_slice. cbn [Nat.sub str_drop]. rewrite Nat.sub_0_r.
    replace (str_drop 0 (host +:+ "]")) with (host +:+ "]") by (by destruct (host +:+ "]")). by rewrite str_take_app_slen.
  - cbn [str_drop]. replace (str_drop 0 (host +:+ String "]" (String ":" port))) with (host +:+ String "]" (String ":" port)) by (by destruct (host +:+ _)).
    by rewrite contains_app, !contains_byte_cons, H2, P2.
Qed.

(** A host and a port that are joined are got back by splitting the text, with the
    host in brackets when it has colons, as an IPv6 address.  Neither has brackets, the
    port no colon, and the text must begin with a character of one byte, as it is cut
    behind the first byte. *)
Theorem host_port_roundtrip host port :
  str_contains "[" host = false → str_contains "]" host = false →
  str_contains ":" port = false → str_contains "[" port = false → str_contains "]" port = false →
  boundary 1 (host_port host port) = true →
  kcl_net_join_host_port f64_to_string (ref_list [ref_str host; ref_str port]) (ref_dict []) = Ok (ref_str (host_port host port)) ∧
  kcl_net_split_host_port (ref_list [ref_str (host_port host port)]) (ref_dict []) = Ok (ref_list [ref_str host; ref_str port]).
Proof using.
  intros H2 H3 P1 P2 P3 Hb. split.
  - unfold kcl_net_join_host_port. change (get_call_arg _ _ 0 _) with (@Ok (option ValueRef) (Some (ref_str host))).
    cbn [mbind Res_bind]. change (get_call_arg _ _ 1 _) with (@Ok (option ValueRef) (Some (ref_str port))). by cbn [mbind Res_bind].
  - unfold kcl_net_split_host_port. change (get_call_arg _ _ 0 _) with (@Ok (option ValueRef) (Some (ref_str (host_port host port)))).
    cbn [mbind Res_bind]. change (as_str (ref_str (host_port host port))) with (host_port host port). revert Hb. unfold host_port.
    destruct (str_contains ":" host) eqn:H1; [by apply split_brackets|by apply split_without_colons].
Qed.
End HostPort.

(** ** Samples *)

Module Sample.
Definition profile : Profile := {| overflow_checks := true |}.
Definition release : Profile := {| overflow_checks := false |}.
Definition ten : IpCidr := MkCidr false 167772160 8.
Definition documentation : IpCidr := MkCidr true 42540766411282592856903984951653826560 32.
Definition crate : CidrCrate := {|
  cidr_from_str := λ s,
    if bool_decide (s = "10.0.0.0/8") then inr ten
    else if bool_decide (s = "2001:db8::/32") then inr documentation
    else inl "couldn't parse address in network: invalid IP address syntax";
  cidr_new := λ v6 a len, if a mod 2 ^ (family_len v6 - len) =? 0 then Some (MkCidr v6 a len) else None;
  cidr_contains := λ c a,
    let inside a := (first_address c <=? a) && (a <? first_address c + 2 ^ (family_len (is_ipv6 c) - network_length c)) in
    match a with V4 a => negb (is_ipv6 c) && inside a | V6 a => is_ipv6 c && inside a end |}.
End Sample.
#[export] Existing Instance Sample.crate.
Lemma ten_wf : cidr_wf Sample.ten.
Proof. unfold cidr_wf. cbn. split_and!; [lia|lia|lia|lia|]. by exists 10. Qed.
#[export] Instance sample_laws : CidrLaws Sample.crate.
Proof.
  split.
  - intros s c. cbn. case_bool_decide; [intros [= <-]; apply ten_wf|]. case_bool_decide; [|done]. intros [= <-].
    unfold cidr_wf. cbn. split_and!; [lia|lia|lia|lia|]. by exists 536939960.
  - done.
  - intros [[] f n] a _; unfold in_network; cbn; lia.
Qed.

(** The third subnet fills the gap behind the first one. *)
Example subnets_sample : CIDR_subnets (HP := Sample.profile) (λ _, "") 3 Sample.ten [ref_int 8; ref_int 4; ref_int 8] =
  Some (Ok (ref_list [ref_str "10.0.0.0/16"; ref_str "10.16.0.0/12"; ref_str "10.1.0.0/16"])).
Proof. vm_compute. reflexivity. Qed.
(** The number of a subnet with 63 more bits overflows: a panic under overflow checks,
    and without them a search that starts over for ever. *)
Example subnets_overflow : CIDR_subnets (HP := Sample.profile) (λ _, "") 3 Sample.documentation [ref_int 0; ref_int 0; ref_int 63] =
  Some (Panic ArithOverflow).
Proof. vm_compute. reflexivity. Qed.
Lemma subnets_never_end fuel : CIDR_subnets (HP := Sample.release) (λ _, "") fuel Sample.documentation [ref_int 0; ref_int 0; ref_int 63] = None.
Proof.
  assert (∀ fuel, try_loop (HP := Sample.release) fuel 63 [(ref_int 0, 0); (ref_int 0, 1)] 0 = None) as H.
  { clear fuel. induction fuel as [|fuel IH]; [done|]. cbn [try_loop].
    change (try_pass 63 [(ref_int 0, 0); (ref_int 0, 1)] 0 false) with (@Ok (Z * bool) (0, true)). cbn [run_with fst snd]. exact IH. }
  unfold CIDR_subnets. destruct fuel as [|[|fuel]]; [reflexivity|reflexivity|].
  change (net_nums (HP := Sample.release) (S (S fuel)) Sample.documentation [ref_int 0; ref_int 0; ref_int 63] []) with
    (match try_loop (HP := Sample.release) (S (S fuel)) 63 [(ref_int 0, 0); (ref_int 0, 1)] 0 with
     | Some r => run_with r (λ num, net_nums (HP := Sample.release) (S (S fuel)) Sample.documentation []
         ([(ref_int 0, 0); (ref_int 0, 1)] ++ [(ref_int 63, num)]))
     | None => None
     end).
  by rewrite H.
Qed.
(** The length of the prefix overflows before it is compared with that of the family. *)
Example subnet_overflow : kcl_net_CIDR_subnet (HP := Sample.profile) (ref_list [ref_str "10.0.0.0/8"; ref_int i64_MAX; ref_int 0]) (ref_dict []) =
  Panic ArithOverflow.
Proof. vm_compute. reflexivity. Qed.
(** A host that begins with a character of two bytes cannot be split off. *)
Example accented_host_panics : let host := String (ascii_of_nat 195) (String (ascii_of_nat 169) "") in
  split_host_port (host_port host "80") = Panic CharBoundary.
Proof. vm_compute. reflexivity. Qed.

Lemma subnets_first_fit_witness : cidr_wf Sample.ten ∧
  Forall (λ b, fits Sample.ten b ∧ Z.of_nat (length [8; 4; 8]) * 2 ^ b < 2 ^ 63) [8; 4; 8] ∧
  ∃ ns, length ns = 3%nat ∧ first_fit Sample.ten (zip [8; 4; 8] ns).
Proof.
  assert (Forall (λ b, fits Sample.ten b ∧ Z.of_nat (length [8; 4; 8]) * 2 ^ b < 2 ^ 63) [8; 4; 8]) as Hb.
  { repeat (apply Forall_cons; split; [split; [split; cbn; lia|cbn; lia]|]). by apply Forall_nil. }
  split; [exact ten_wf|split; [exact Hb|]].
  destruct (subnets_first_fit (HP := Sample.profile) (λ _, "") Sample.ten [8; 4; 8] 3 ten_wf Hb ltac:(cbn; lia)) as (ns & H1 & H2 & _).
  exists ns. split; [exact H1|exact H2].
Defined.
Lemma address_roundtrip_witness : ip_ok (V6 281473913979146) ∧ ip_to_string (V6 281473913979146) = "::ffff:192.168.1.10" ∧
  ip_from_str "::ffff:192.168.1.10" = Some (V6 281473913979146).
Proof.
  assert (ip_ok (V6 281473913979146)) as H by (cbn; lia). split; [exact H|split; [vm_compute; reflexivity|]].
  exact (proj1 (address_roundtrip (HP := Sample.profile) (V6 281473913979146) H)).
Defined.
Lemma host_in_network_witness : cidr_from_str "10.0.0.0/8" = inr Sample.ten ∧ - 2 ^ 63 ≤ -2 < 2 ^ 63 ∧
  kcl_net_CIDR_host (HP := Sample.profile) (ref_list [ref_str "10.0.0.0/8"; ref_int (-2)]) (ref_dict []) = Ok (ref_str "10.255.255.254").
Proof.
  assert (cidr_from_str "10.0.0.0/8" = inr Sample.ten) as H by reflexivity. assert (- 2 ^ 63 ≤ -2 < 2 ^ 63) as Hr by lia.
  split; [exact H|split; [exact Hr|]]. exact (proj1 (host_in_network (HP := Sample.profile) "10.0.0.0/8" Sample.ten (-2) H Hr)).
Defined.
Lemma host_port_roundtrip_witness : host_port "::1" "80" = "[::1]:80" ∧
  kcl_net_split_host_port (HP := Sample.profile) (ref_list [ref_str "[::1]:80"]) (ref_dict []) = Ok (ref_list [ref_str "::1"; ref_str "80"]).
Proof.
  split; [reflexivity|].
  exact (proj2 (host_port_roundtrip (HP := Sample.profile) (λ _, "") "::1" "80" eq_refl eq_refl eq_refl eq_refl eq_refl eq_refl)).
Defined.
