(* ===== verification/Desugar.v ===== *)
(** * Desugaring of programs

    [MutSelfMutWalker] of [crates/ast/src/walker.rs], the traversal that rewrites a tree in
    place, and the passes of [crates/sema/src/pre_process] that override parts of it:
    [ConfigNestAttrTransformer] unfolds dotted keys of configurations, [RawIdentifierTransformer]
    strips the prefix of raw identifiers and [LitTypeDefaultValueTransformer] gives attributes
    of a literal type their default.  [transform_multi_assign] splits assignments with several
    targets.

    The package path that [fix_qualified_identifier] writes into identifiers is not part of
    the tree of [Ast], so that pass is left out. *)

From stdpp Require Import base tactics list strings numbers.
From Stdlib Require Import ZArith Lia.
From S2P Require Import Prelude Token Ast.
From S2P Require SemaTypes.

(** ** The traversal *)

(** What a pass may override: the names of an identifier; a name of a target, a schema, a rule
    or an import; and, given a node and the node with its parts walked, an attribute, an entry
    of a configuration and the condition of a conditional entry. *)
Record Walker := MkWalker {
  on_identifier : Identifier → Identifier;
  on_name : Symbol → Symbol;
  on_attr : SchemaAttr Expr → SchemaAttr Expr → SchemaAttr Expr;
  on_entry : ConfigEntry Expr → ConfigEntry Expr → ConfigEntry Expr;
  on_entry_cond : Expr → Expr → Expr;
}.
Definition default_walker : Walker := MkWalker id id (λ _ a, a) (λ _ e, e) (λ _ c, c).

Section Walk.
Context (w : Walker).

Fixpoint walk_type (ty : Type_) : Type_ :=
  match ty with
  | TNamed names => TNamed (on_identifier w names)
  | TList inner_type => TList (walk_type <$> inner_type)
  | TDict key_type value_type => TDict (walk_type <$> key_type) (walk_type <$> value_type)
  | TUnion type_elements => TUnion (walk_type <$> type_elements)
  | _ => ty
  end.
Definition walk_keyword (walk_expr : Expr → Expr) (k : Keyword Expr) : Keyword Expr :=
  MkKeyword (on_identifier w (kw_arg k)) (walk_expr <$> kw_value k).
Definition walk_call_expr (walk_expr : Expr → Expr) (c : CallExpr Expr) : CallExpr Expr :=
  MkCall (walk_expr (func c)) (walk_expr <$> args c) (walk_keyword walk_expr <$> keywords c).
Definition walk_check_expr (walk_expr : Expr → Expr) (c : CheckExpr Expr) : CheckExpr Expr :=
  MkCheck (walk_expr (test c)) (walk_expr <$> if_cond c) (walk_expr <$> msg c).
Definition walk_comp_clause (walk_expr : Expr → Expr) (c : CompClause Expr) : CompClause Expr :=
  MkClause (on_identifier w <$> targets c) (walk_expr (iter c)) (walk_expr <$> ifs c).
Definition walk_arguments (walk_expr : Expr → Expr) (a : Arguments_ Expr) : Arguments_ Expr :=
  MkArguments (on_identifier w <$> arg_names a) ((λ d : option Expr, walk_expr <$> d) <$> defaults a)
    ((λ t : option Type_, walk_type <$> t) <$> ty_list a).
Definition walk_path (walk_expr : Expr → Expr) (p : MemberOrIndex Expr) : MemberOrIndex Expr :=
  match p with Member name => Member (on_name w name) | Index index => Index (walk_expr index) end.
Definition walk_target (walk_expr : Expr → Expr) (t : Target Expr) : Target Expr :=
  MkTarget (on_name w (target_name t)) (walk_path walk_expr <$> paths t).
(** The parts of an entry. *)
Definition walk_parts (walk_expr : Expr → Expr) (e : ConfigEntry Expr) : ConfigEntry Expr :=
  MkEntry (walk_expr <$> key e) (walk_expr (entry_value e)) (operation e).
Definition walk_entry (walk_expr : Expr → Expr) (e : ConfigEntry Expr) : ConfigEntry Expr :=
  on_entry w e (walk_parts walk_expr e).
Definition walk_schema_attr (walk_expr : Expr → Expr) (a : SchemaAttr Expr) : SchemaAttr Expr :=
  on_attr w a (MkAttr (attr_name _ a) (walk_type (attr_ty _ a)) (attr_op _ a) (walk_expr <$> attr_value _ a)
                 (is_optional _ a) (walk_call_expr walk_expr <$> attr_decorators _ a)).
Definition walk_signature (walk_expr : Expr → Expr) (s : SchemaIndexSignature Expr) : SchemaIndexSignature Expr :=
  MkSignature (key_name _ s) (key_ty _ s) (value_ty _ s) (walk_expr <$> sig_value _ s) (any_other _ s).
Definition walk_schema_stmt (walk_expr : Expr → Expr) (walk_stmt : Stmt → Stmt) (s : SchemaStmt Expr Stmt) : SchemaStmt Expr Stmt :=
  MkSchema (doc _ _ s) (on_name w (schema_name _ _ s)) (on_identifier w <$> parent_name _ _ s)
    (on_identifier w <$> for_host_name _ _ s) (is_mixin _ _ s) (is_protocol _ _ s)
    (walk_arguments walk_expr <$> schema_args _ _ s) (on_identifier w <$> mixins _ _ s)
    (walk_stmt <$> schema_body _ _ s) (walk_call_expr walk_expr <$> decorators _ _ s)
    (walk_check_expr walk_expr <$> checks _ _ s) (walk_signature walk_expr <$> index_signature _ _ s).
Definition walk_rule_stmt (walk_expr : Expr → Expr) (r : RuleStmt Expr) : RuleStmt Expr :=
  MkRule (rule_doc _ r) (on_name w (rule_name _ r)) (on_identifier w <$> parent_rules _ r)
    (walk_call_expr walk_expr <$> rule_decorators _ r) (walk_check_expr walk_expr <$> rule_checks _ r)
    (walk_arguments walk_expr <$> rule_args _ r) (on_identifier w <$> rule_for_host_name _ r).

Fixpoint walk_expr (e : Expr) : Expr :=
  match e with
  | IdentifierExpr names => IdentifierExpr (on_identifier w names)
  | Unary op operand => Unary op (walk_expr operand)
  | Binary l op r => Binary (walk_expr l) op (walk_expr r)
  | If body cond orelse => If (walk_expr body) (walk_expr cond) (walk_expr orelse)
  | Selector value attr q => Selector (walk_expr value) (on_identifier w attr) q
  | Call call => Call (walk_call_expr walk_expr call)
  | ParenExpr expr => ParenExpr (walk_expr expr)
  | Quant target variables op test if_cond =>
      Quant (walk_expr target) (on_identifier w <$> variables) op (walk_expr test) (walk_expr <$> if_cond)
  | ListExpr elts => ListExpr (walk_expr <$> elts)
  | ListIfItem if_cond exprs orelse => ListIfItem (walk_expr if_cond) (walk_expr <$> exprs) (walk_expr <$> orelse)
  | ListComp elt generators => ListComp (walk_expr elt) (walk_comp_clause walk_expr <$> generators)
  | Starred value => Starred (walk_expr value)
  | DictComp entry generators => DictComp (walk_parts walk_expr entry) (walk_comp_clause walk_expr <$> generators)
  | ConfigIfEntry if_cond items orelse =>
      ConfigIfEntry (on_entry_cond w if_cond (walk_expr if_cond)) (walk_entry walk_expr <$> items) (walk_expr <$> orelse)
  | Schema name args kwargs config =>
      Schema (on_identifier w name) (walk_expr <$> args) (walk_keyword walk_expr <$> kwargs) (walk_expr config)
  | Config items => Config (walk_entry walk_expr <$> items)
  | Check check => Check (walk_check_expr walk_expr check)
  | Lambda args return_ty body => Lambda (walk_arguments walk_expr <$> args) (walk_type <$> return_ty) (walk_stmt <$> body)
  | Subscript value index lower upper step q =>
      Subscript (walk_expr value) (walk_expr <$> index) (walk_expr <$> lower) (walk_expr <$> upper) (walk_expr <$> step) q
  | Compare l ops comparators => Compare (walk_expr l) ops (walk_expr <$> comparators)
  | JoinedString long raw_value values => JoinedString long raw_value (walk_expr <$> values)
  | FormattedValue value format_spec => FormattedValue (walk_expr value) format_spec
  | NumberLit _ _ | StringLitExpr _ | NameConstantLit _ | Missing => e
  end
with walk_stmt (s : Stmt) : Stmt :=
  match s with
  | STypeAlias type_name ty => STypeAlias (on_identifier w type_name) (walk_type ty)
  | SExpr exprs => SExpr (walk_expr <$> exprs)
  | SUnification target value => SUnification (on_identifier w target) (walk_expr value)
  | SAssign targets value ty => SAssign (walk_target walk_expr <$> targets) (walk_expr value) (walk_type <$> ty)
  | SAugAssign target op value => SAugAssign (walk_target walk_expr target) op (walk_expr value)
  | SAssert test if_cond msg => SAssert (walk_expr test) (walk_expr <$> if_cond) (walk_expr <$> msg)
  | SIf cond body orelse => SIf (walk_expr cond) (walk_stmt <$> body) (walk_stmt <$> orelse)
  | SImport path name asname => SImport (on_name w path) (on_name w name) (on_name w <$> asname)
  | SSchemaAttr attr => SSchemaAttr (walk_schema_attr walk_expr attr)
  | SSchema schema => SSchema (walk_schema_stmt walk_expr walk_stmt schema)
  | SRule rule => SRule (walk_rule_stmt walk_expr rule)
  end.
Definition walk_module (body : list Stmt) : list Stmt := walk_stmt <$> body.
End Walk.

(** ** Dotted keys *)

(** The configuration of the names after the first, innermost first: the loop over the
    reversed names; [is_last_item] holds of the first round. *)
Fixpoint nest_loop (is_last_item : bool) (operation : ConfigEntryOperation) (names : list Symbol) (value : Expr) : Expr :=
  match names with
  | [] => value
  | name :: names =>
      nest_loop false operation names
        (Config [MkEntry (Some (IdentifierExpr [name])) value (if is_last_item then operation else Union)])
  end.
Definition walk_config_entry (e : ConfigEntry Expr) : ConfigEntry Expr :=
  match key e with
  | Some (IdentifierExpr (name :: (_ :: _) as names)) =>
      MkEntry (Some (IdentifierExpr [name])) (nest_loop true (operation e) (rev names) (entry_value e)) Union
  | _ => e
  end.
(** [ConfigNestAttrTransformer]: the keys of entries and the conditions of conditional
    entries are not walked. *)
Definition ConfigNestAttrTransformer : Walker :=
  MkWalker id id (λ _ a, a) (λ e walked, walk_config_entry (MkEntry (key e) (entry_value walked) (operation e))) (λ cond _, cond).
Definition fix_config_expr_nest_attr (body : list Stmt) : list Stmt := walk_module ConfigNestAttrTransformer body.

(** ** Raw identifiers *)

Definition RAW_IDENTIFIER_PREFIX : Z := 36.
Definition remove_raw_ident_prefix (name : Symbol) : Symbol :=
  match name with
  | c :: name_without_prefix => if Z.eqb c RAW_IDENTIFIER_PREFIX then name_without_prefix else name
  | [] => name
  end.

Section Passes.
(** The number of columns of the name of an attribute, from its position, and the text
    that [Debug] writes for a string. *)
Context (name_columns : SchemaAttr Expr → nat) (debug : Symbol → Symbol).

Definition is_ident_attr (a : SchemaAttr Expr) : bool := (name_columns a <=? length (attr_name _ a))%nat.
(** The type of an attribute is not walked. *)
Definition RawIdentifierTransformer : Walker :=
  MkWalker (fmap remove_raw_ident_prefix) remove_raw_ident_prefix
    (λ a walked, MkAttr (if is_ident_attr a then remove_raw_ident_prefix (attr_name _ a) else attr_name _ a)
                   (attr_ty _ a) (attr_op _ a) (attr_value _ walked) (is_optional _ a) (attr_decorators _ walked))
    (λ _ e, e) (λ _ c, c).
Definition fix_raw_identifier_prefix (body : list Stmt) : list Stmt := walk_module RawIdentifierTransformer body.

(** ** Defaults of literal types *)

Definition literal_default (l : LiteralType) : Expr :=
  match l with
  | LBool val => NameConstantLit (if val then NTrue else NFalse)
  | LInt v suffix => NumberLit suffix (Int v)
  | LFloat v => NumberLit None (FloatLit v)
  | LStr val => StringLitExpr (MkStringLit false val (debug val))
  end.
(** The parts of an attribute are not walked. *)
Definition default_attr (a : SchemaAttr Expr) : SchemaAttr Expr :=
  match attr_value _ a, is_optional _ a, attr_ty _ a with
  | None, false, TLiteral literal_ty =>
      MkAttr (attr_name _ a) (attr_ty _ a) (Some AAssign) (Some (literal_default literal_ty)) (is_optional _ a) (attr_decorators _ a)
  | _, _, _ => a
  end.
Definition LitTypeDefaultValueTransformer : Walker := MkWalker id id (λ a _, default_attr a) (λ _ e, e) (λ _ c, c).
Definition fix_lit_ty_default_value (body : list Stmt) : list Stmt := walk_module LitTypeDefaultValueTransformer body.

(** The passes over a module. *)
Definition pre_process_module (body : list Stmt) : list Stmt :=
  fix_lit_ty_default_value (fix_config_expr_nest_attr (fix_raw_identifier_prefix body)).
End Passes.

(** ** Assignments with several targets *)

(** The statement with its first target, and the assignments to the others. *)
Definition walk_assign_stmt (s : Stmt) : Stmt * list Stmt :=
  match s with
  | SAssign (t :: (_ :: _) as targets) value ty => (SAssign [t] value ty, (λ t, SAssign [t] value ty) <$> targets)
  | _ => (s, [])
  end.
(** The walked body, and the assignments to insert by the index of their statement. *)
Fixpoint multi_assign_mapping (index : nat) (body : list Stmt) : list Stmt * list (nat * list Stmt) :=
  match body with
  | [] => ([], [])
  | s :: body =>
      let (s, others) := walk_assign_stmt s in
      let (body, mapping) := multi_assign_mapping (S index) body in
      (s :: body, match others with [] => mapping | _ => (index, others) :: mapping end)
  end.
(** [Vec::insert]. *)
Definition insert_at (i : nat) (s : Stmt) (body : list Stmt) : list Stmt := take i body ++ s :: drop i body.
Fixpoint insert_behind (i : nat) (stmts : list Stmt) (body : list Stmt) : list Stmt :=
  match stmts with
  | [] => body
  | s :: stmts => insert_behind (S i) stmts (insert_at (S i) s body)
  end.
(** The entries of the hash map in the order that its iterator yields. *)
Fixpoint insert_stmts (insert_count : nat) (mapping : list (nat * list Stmt)) (body : list Stmt) : Res (list Stmt) :=
  match mapping with
  | [] => Ok body
  | (index, stmts) :: mapping =>
      match body !! (index + insert_count)%nat with
      | Some _ => insert_stmts (insert_count + length stmts) mapping (insert_behind (index + insert_count) stmts body)
      | None => SemaTypes.bug "AST module body index out of bound"
      end
  end.
Definition transform_multi_assign (iter : list (nat * list Stmt) → list (nat * list Stmt)) (body : list Stmt) : Res (list Stmt) :=
  let (body, mapping) := multi_assign_mapping 0 body in insert_stmts 0 (iter mapping) body.
