(* ===== verification/DesugarProps.v ===== *)
(** * Theorems on the desugaring

    [Desugar]: dotted keys are gone after one pass, which leaves everything else alone and
    keeps what an entry means; a program whose assignments are split in ascending order is
    the one where each statement is replaced by its parts. *)

From stdpp Require Import base tactics list strings numbers.
From Stdlib Require Import ZArith Lia.
From S2P Require Import Prelude Token Ast Desugar.

(** ** Flat configurations *)

Section Flat.
Context (flat_expr : Expr → bool) (flat_stmt : Stmt → bool).
Definition flat_option (e : option Expr) : bool := match e with Some e => flat_expr e | None => true end.
Definition flat_keyword (k : Keyword Expr) : bool := flat_option (kw_value k).
Definition flat_call (c : CallExpr Expr) : bool := flat_expr (func c) && forallb flat_expr (args c) && forallb flat_keyword (keywords c).
Definition flat_check (c : CheckExpr Expr) : bool := flat_expr (test c) && flat_option (if_cond c) && flat_option (msg c).
Definition flat_clause (c : CompClause Expr) : bool := flat_expr (iter c) && forallb flat_expr (ifs c).
Definition flat_arguments (a : option (Arguments_ Expr)) : bool :=
  match a with Some a => forallb flat_option (defaults a) | None => true end.
Definition flat_path (p : MemberOrIndex Expr) : bool := match p with Member _ => true | Index index => flat_expr index end.
Definition flat_target (t : Target Expr) : bool := forallb flat_path (paths t).
(** The key of an entry has at most one name. *)
Definition plain_key (e : ConfigEntry Expr) : bool :=
  match key e with Some (IdentifierExpr names) => (length names <=? 1)%nat | _ => true end.
Definition flat_entry (e : ConfigEntry Expr) : bool := plain_key e && flat_expr (entry_value e).
Definition flat_attr (a : SchemaAttr Expr) : bool := flat_option (attr_value _ a) && forallb flat_call (attr_decorators _ a).
Definition flat_schema (s : SchemaStmt Expr Stmt) : bool :=
  flat_arguments (schema_args _ _ s) && forallb flat_stmt (schema_body _ _ s) && forallb flat_call (decorators _ _ s) &&
  forallb flat_check (checks _ _ s) &&
  match index_signature _ _ s with Some i => flat_option (sig_value _ i) | None => true end.
Definition flat_rule (r : RuleStmt Expr) : bool :=
  forallb flat_call (rule_decorators _ r) && forallb flat_check (rule_checks _ r) && flat_arguments (rule_args _ r).
End Flat.

(** No entry of a configuration has a dotted key.  Keys themselves and the conditions of
    conditional entries are not looked at: the pass does not walk them. *)
Fixpoint flat_expr (e : Expr) : bool :=
  match e with
  | Unary _ operand => flat_expr operand
  | Binary l _ r => flat_expr l && flat_expr r
  | If body cond orelse => flat_expr body && flat_expr cond && flat_expr orelse
  | Selector value _ _ => flat_expr value
  | Call call => flat_call flat_expr call
  | ParenExpr expr => flat_expr expr
  | Quant target _ _ test if_cond => flat_expr target && flat_expr test && flat_option flat_expr if_cond
  | ListExpr elts => forallb flat_expr elts
  | ListIfItem if_cond exprs orelse => flat_expr if_cond && forallb flat_expr exprs && flat_option flat_expr orelse
  | ListComp elt generators => flat_expr elt && forallb (flat_clause flat_expr) generators
  | Starred value => flat_expr value
  | DictComp entry generators =>
      flat_option flat_expr (key entry) && flat_expr (entry_value entry) && forallb (flat_clause flat_expr) generators
  | ConfigIfEntry _ items orelse => forallb (flat_entry flat_expr) items && flat_option flat_expr orelse
  | Schema _ args kwargs config => forallb flat_expr args && forallb (flat_keyword flat_expr) kwargs && flat_expr config
  | Config items => forallb (flat_entry flat_expr) items
  | Check check => flat_check flat_expr check
  | Lambda args _ body => flat_arguments flat_expr args && forallb flat_stmt body
  | Subscript value index lower upper step _ =>
      flat_expr value && flat_option flat_expr index && flat_option flat_expr lower && flat_option flat_expr upper && flat_option flat_expr step
  | Compare l _ comparators => flat_expr l && forallb flat_expr comparators
  | JoinedString _ _ values => forallb flat_expr values
  | FormattedValue value _ => flat_expr value
  | IdentifierExpr _ | NumberLit _ _ | StringLitExpr _ | NameConstantLit _ | Missing => true
  end
with flat_stmt (s : Stmt) : bool :=
  match s with
  | STypeAlias _ _ | SImport _ _ _ => true
  | SExpr exprs => forallb flat_expr exprs
  | SUnification _ value => flat_expr value
  | SAssign targets value _ => forallb (flat_target flat_expr) targets && flat_expr value
  | SAugAssign target _ value => flat_target flat_expr target && flat_expr value
  | SAssert test if_cond msg => flat_expr test && flat_option flat_expr if_cond && flat_option flat_expr msg
  | SIf cond body orelse => flat_expr cond && forallb flat_stmt body && forallb flat_stmt orelse
  | SSchemaAttr attr => flat_attr flat_expr attr
  | SSchema schema => flat_schema flat_expr flat_stmt schema
  | SRule rule => flat_rule flat_expr rule
  end.

(** ** Induction over the parts of a tree *)

Definition keyword_exprs (k : Keyword Expr) : list Expr := option_list (kw_value k).
Definition call_exprs (c : CallExpr Expr) : list Expr := func c :: args c ++ (keywords c ≫= keyword_exprs).
Definition check_exprs (c : CheckExpr Expr) : list Expr := test c :: option_list (if_cond c) ++ option_list (msg c).
Definition clause_exprs (c : CompClause Expr) : list Expr := iter c :: ifs c.
Definition argument_exprs (a : Arguments_ Expr) : list Expr := defaults a ≫= option_list.
Definition entry_exprs (e : ConfigEntry Expr) : list Expr := option_list (key e) ++ [entry_value e].
Definition path_exprs (p : MemberOrIndex Expr) : list Expr := match p with Member _ => [] | Index index => [index] end.
Definition target_exprs (t : Target Expr) : list Expr := paths t ≫= path_exprs.
Definition attr_exprs (a : SchemaAttr Expr) : list Expr := option_list (attr_value _ a) ++ (attr_decorators _ a ≫= call_exprs).
Definition signature_exprs (s : SchemaIndexSignature Expr) : list Expr := option_list (sig_value _ s).
Definition schema_exprs (s : SchemaStmt Expr Stmt) : list Expr :=
  (option_list (schema_args _ _ s) ≫= argument_exprs) ++ (decorators _ _ s ≫= call_exprs) ++ (checks _ _ s ≫= check_exprs) ++
  (option_list (index_signature _ _ s) ≫= signature_exprs).
Definition rule_exprs (r : RuleStmt Expr) : list Expr :=
  (rule_decorators _ r ≫= call_exprs) ++ (rule_checks _ r ≫= check_exprs) ++ (option_list (rule_args _ r) ≫= argument_exprs).
Definition expr_exprs (e : Expr) : list Expr :=
  match e with
  | IdentifierExpr _ | NumberLit _ _ | StringLitExpr _ | NameConstantLit _ | Missing => []
  | Unary _ e | Selector e _ _ | ParenExpr e | Starred e | FormattedValue e _ => [e]
  | Binary l _ r => [l; r]
  | If body cond orelse => [body; cond; orelse]
  | Call call => call_exprs call
  | Quant target _ _ test if_cond => target :: test :: option_list if_cond
  | ListExpr elts => elts
  | ListIfItem if_cond exprs orelse => if_cond :: exprs ++ option_list orelse
  | ListComp elt generators => elt :: (generators ≫= clause_exprs)
  | DictComp entry generators => entry_exprs entry ++ (generators ≫= clause_exprs)
  | ConfigIfEntry if_cond items orelse => if_cond :: (items ≫= entry_exprs) ++ option_list orelse
  | Schema _ args kwargs config => config :: args ++ (kwargs ≫= keyword_exprs)
  | Config items => items ≫= entry_exprs
  | Check check => check_exprs check
  | Lambda args _ _ => option_list args ≫= argument_exprs
  | Subscript value index lower upper step _ =>
      value :: option_list index ++ option_list lower ++ option_list upper ++ option_list step
  | Compare l _ comparators => l :: comparators
  | JoinedString _ _ values => values
  end.
Definition expr_stmts (e : Expr) : list Stmt := match e with Lambda _ _ body => body | _ => [] end.
Definition stmt_exprs (s : Stmt) : list Expr :=
  match s with
  | STypeAlias _ _ | SImport _ _ _ => []
  | SExpr exprs => exprs
  | SUnification _ value => [value]
  | SAssign targets value _ => value :: (targets ≫= target_exprs)
  | SAugAssign target _ value => value :: target_exprs target
  | SAssert test if_cond msg => test :: option_list if_cond ++ option_list msg
  | SIf cond _ _ => [cond]
  | SSchemaAttr attr => attr_exprs attr
  | SSchema schema => schema_exprs schema
  | SRule rule => rule_exprs rule
  end.
Definition stmt_stmts (s : Stmt) : list Stmt :=
  match s with SIf _ body orelse => body ++ orelse | SSchema schema => schema_body _ _ schema | _ => [] end.

Section Induction.
Context (P : Expr → Prop) (Q : Stmt → Prop).
Hypothesis HP : ∀ e, Forall P (expr_exprs e) → Forall Q (expr_stmts e) → P e.
Hypothesis HQ : ∀ s, Forall P (stmt_exprs s) → Forall Q (stmt_stmts s) → Q s.
Ltac all_parts e s :=
  unfold schema_exprs, rule_exprs, attr_exprs, target_exprs, call_exprs, check_exprs, clause_exprs, keyword_exprs, argument_exprs, entry_exprs,
    path_exprs, signature_exprs; cbn;
  repeat match goal with
    | |- Forall _ [] => constructor
    | |- Forall _ (_ :: _) => constructor
    | |- P _ => apply e
    | |- Q _ => apply s
    | H : ?G |- ?G => exact H
    | |- Forall _ ((_ ++ _) ++ _) => rewrite <- app_assoc
    | |- Forall _ (_ ++ _) => apply Forall_app_2
    | |- Forall _ (option_list ?o) => destruct o; cbn
    | |- Forall _ (option_list ?o ≫= _) => destruct o as [[]|]; cbn
    | |- Forall _ (?l ≫= _) => is_var l; induction l as [|[] ? ?]; cbn
    | |- Forall _ ?l => is_var l; induction l as [|? ? ?]
    end.
Fixpoint expr_parts (e : Expr) : P e
with stmt_parts (s : Stmt) : Q s.
Proof using HP HQ.
  - apply HP; destruct e as [| | | | |[f l ks]| |? ? ? ? []| |? l []|? gs| |[[] ?] gs|? l []|? l ks|l|[? [] []]|[[? ds ?]|]| ? [] [] [] []| | | | | | | ]; cbn; all_parts expr_parts stmt_parts.
  - apply HQ; destruct s as [| | | |[]| | | |[]|[]|[]]; cbn; all_parts expr_parts stmt_parts.
Qed.
End Induction.

(** ** The pass on dotted keys *)

Abbreviation nest := ConfigNestAttrTransformer.
Abbreviation W := (walk_expr nest).
Lemma walk_type_id (ty : Type_) : walk_type nest ty = ty.
Proof.
  revert ty. fix walk_type_id 1. intros ty. destruct ty as [| | |[i|]|[k|] [v|]|ts| |]; cbn; rewrite ?walk_type_id; try done.
  f_equal. induction ts as [|t ts IH]; [done|]. cbn. by rewrite walk_type_id, IH.
Qed.
Lemma option_type_id (ty : option Type_) : walk_type nest <$> ty = ty.
Proof. destruct ty; [|done]. cbn. by rewrite walk_type_id. Qed.
Lemma types_id (l : list (option Type_)) : (λ t : option Type_, walk_type nest <$> t) <$> l = l.
Proof. induction l as [|t l IH]; [done|]. cbn [fmap list_fmap]. by rewrite option_type_id, IH. Qed.
Lemma option_id {A} (o : option A) : id <$> o = o.
Proof. by destruct o. Qed.
Lemma Forall_bind_iff {A B} (P : B → Prop) (f : A → list B) l : Forall P (l ≫= f) ↔ Forall (λ x, Forall P (f x)) l.
Proof. induction l as [|x l IH]; cbn; [by split; constructor|]. by rewrite list.Forall_app, list.Forall_cons, IH. Qed.
Lemma map_same {A} (f : A → A) (g : A → bool) l : Forall (λ x, g x = true → f x = x) l → forallb g l = true → f <$> l = l.
Proof. induction 1 as [|x l Hx Hl IH]; [done|]. cbn. intros [? ?]%andb_true_iff. rewrite Hx, IH; done. Qed.
Lemma map_flat {A} (f : A → A) (g : A → bool) l : Forall (λ x, g (f x) = true) l → forallb g (f <$> l) = true.
Proof. induction 1 as [|x l Hx Hl IH]; [done|]. cbn. by rewrite Hx. Qed.

(** Splits the hypotheses on the parts of a node. *)
Ltac split_parts := repeat match goal with
  | H : _ && _ = true |- _ => apply andb_true_iff in H as [? ?]
  | H : Forall _ (_ ++ _) |- _ => apply list.Forall_app in H as [? ?]
  | H : Forall _ (_ :: _) |- _ => apply list.Forall_cons in H as [? ?]
  | H : Forall _ (_ ≫= _) |- _ => rewrite Forall_bind_iff in H
  end.

Definition same (e : Expr) : Prop := flat_expr e = true → W e = e.
Lemma same_option o : Forall same (option_list o) → flat_option flat_expr o = true → W <$> o = o.
Proof. destruct o; [|done]. cbn. intros H%list.Forall_cons E. f_equal. by apply H. Qed.
Lemma same_list l : Forall same l → forallb flat_expr l = true → W <$> l = l.
Proof. apply map_same. Qed.
Ltac same_map := let H := fresh in intros H; apply map_same; apply (list.Forall_impl _ _ _ H); clear.
Lemma same_keywords l : Forall (λ k, Forall same (keyword_exprs k)) l → forallb (flat_keyword flat_expr) l = true → walk_keyword nest W <$> l = l.
Proof. same_map. intros [a v] H E. unfold walk_keyword. cbn. f_equal. by apply same_option. Qed.
Lemma same_call c : Forall same (call_exprs c) → flat_call flat_expr c = true → walk_call_expr nest W c = c.
Proof. destruct c as [f l ks]. unfold call_exprs, flat_call, walk_call_expr. cbn. intros H E. split_parts. f_equal; [auto|by apply same_list|by apply same_keywords]. Qed.
Lemma same_calls l : Forall (λ k, Forall same (call_exprs k)) l → forallb (flat_call flat_expr) l = true → walk_call_expr nest W <$> l = l.
Proof. same_map. apply same_call. Qed.
Lemma same_check c : Forall same (check_exprs c) → flat_check flat_expr c = true → walk_check_expr W c = c.
Proof. destruct c as [t i m]. unfold check_exprs, flat_check, walk_check_expr. cbn. intros H E. split_parts. f_equal; auto using same_option. Qed.
Lemma same_checks l : Forall (λ k, Forall same (check_exprs k)) l → forallb (flat_check flat_expr) l = true → walk_check_expr W <$> l = l.
Proof. same_map. apply same_check. Qed.
Lemma same_clauses l : Forall (λ k, Forall same (clause_exprs k)) l → forallb (flat_clause flat_expr) l = true → walk_comp_clause nest W <$> l = l.
Proof.
  same_map. intros [t i c]. unfold clause_exprs, flat_clause, walk_comp_clause. cbn. intros H E. split_parts.
  f_equal; [apply list_fmap_id|auto|by apply same_list].
Qed.
Lemma same_arguments a : Forall (λ a, Forall same (argument_exprs a)) (option_list a) → flat_arguments flat_expr a = true → walk_arguments nest W <$> a = a.
Proof.
  destruct a as [[n d t]|]; [|done]. cbn. unfold argument_exprs, walk_arguments. cbn. intros H E. split_parts. f_equal.
  f_equal; [apply list_fmap_id| |apply types_id]. revert E. eapply map_same, list.Forall_impl; [done|]. intros. by apply same_option.
Qed.
Lemma walk_plain_entry e : plain_key e = true → walk_config_entry e = e.
Proof.
  unfold plain_key, walk_config_entry. destruct e as [[k|] v o]; cbn; [|done]. destruct k as [names| | | | | | | | | | | | | | | | | | | | | | | | |]; try done.
  destruct names as [|? [|? ?]]; done.
Qed.
Lemma same_entries l : Forall (λ k, Forall same (entry_exprs k)) l → forallb (flat_entry flat_expr) l = true → walk_entry nest W <$> l = l.
Proof.
  same_map. intros [k v o]. unfold entry_exprs, flat_entry, walk_entry, walk_parts. cbn. intros H E. split_parts.
  assert (W v = v) as -> by auto. by rewrite walk_plain_entry.
Qed.
Lemma same_target t : Forall same (target_exprs t) → flat_target flat_expr t = true → walk_target nest W t = t.
Proof.
  destruct t as [n p]. unfold target_exprs, flat_target, walk_target. cbn. intros H E. split_parts. f_equal.
  revert E. eapply map_same, list.Forall_impl; [done|]. intros [m|i]; cbn; [done|]. intros Hi%list.Forall_cons E. f_equal. by apply Hi.
Qed.
Lemma same_targets l : Forall (λ k, Forall same (target_exprs k)) l → forallb (flat_target flat_expr) l = true → walk_target nest W <$> l = l.
Proof. same_map. apply same_target. Qed.
Lemma same_attr a : Forall same (attr_exprs a) → flat_attr flat_expr a = true → walk_schema_attr nest W a = a.
Proof.
  destruct a as [n t o v q d]. unfold attr_exprs, flat_attr, walk_schema_attr. cbn. intros H E. split_parts.
  by rewrite walk_type_id, same_option, same_calls.
Qed.
Definition same_stmt (s : Stmt) : Prop := flat_stmt s = true → walk_stmt nest s = s.
Lemma same_stmts l : Forall same_stmt l → forallb flat_stmt l = true → walk_stmt nest <$> l = l.
Proof. apply map_same. Qed.
Lemma same_schema s : Forall same (schema_exprs s) → Forall same_stmt (schema_body _ _ s) → flat_schema flat_expr flat_stmt s = true →
  walk_schema_stmt nest W (walk_stmt nest) s = s.
Proof.
  destruct s as [doc n pn fh mx pr ar mi b de ch ix]. unfold schema_exprs, flat_schema, walk_schema_stmt. cbn. intros H Hb E. split_parts.
  rewrite same_arguments, same_calls, same_checks, same_stmts, !option_id, list_fmap_id by done. f_equal.
  destruct ix as [[kn kt vt v ao]|]; [|done]. unfold walk_signature. cbn in *. unfold signature_exprs in *. split_parts. by rewrite same_option.
Qed.
Lemma same_rule r : Forall same (rule_exprs r) → flat_rule flat_expr r = true → walk_rule_stmt nest W r = r.
Proof.
  destruct r as [doc n pr de ch ar fh]. unfold rule_exprs, flat_rule, walk_rule_stmt. cbn. intros H E. split_parts.
  by rewrite same_arguments, same_calls, same_checks, !option_id, list_fmap_id.
Qed.
Create HintDb same.
#[export] Hint Resolve same_option same_list same_keywords same_call same_calls same_check same_checks same_clauses same_arguments same_entries
  same_target same_targets same_attr same_stmts same_schema same_rule walk_type_id option_type_id option_id list_fmap_id : same.
Lemma same_parts : (∀ e, same e) ∧ (∀ s, same_stmt s).
Proof.
  assert (∀ e, Forall same (expr_exprs e) → Forall same_stmt (expr_stmts e) → same e) as HE.
  { intros e He Hs. destruct e; unfold same; cbn in *; intros E; split_parts; try done; try (f_equal; auto with same; fail).
    - f_equal; auto with same. destruct entry as [k v o]. unfold entry_exprs, walk_parts in *. cbn in *. split_parts. f_equal; auto with same. }
  assert (∀ s, Forall same (stmt_exprs s) → Forall same_stmt (stmt_stmts s) → same_stmt s) as HS.
  { intros s He Hs. destruct s; unfold same_stmt; cbn in *; intros E; split_parts; try done; try (f_equal; auto with same; fail).
    by apply (f_equal SSchemaAttr), same_attr. }
  split; [apply expr_parts with same_stmt|apply stmt_parts with same]; done.
Qed.

(** *** The result is flat *)

Definition flattened (e : Expr) : Prop := flat_expr (W e) = true.
Definition flattened_stmt (s : Stmt) : Prop := flat_stmt (walk_stmt nest s) = true.
Ltac flat_map := let H := fresh in intros H; apply map_flat; apply (list.Forall_impl _ _ _ H); clear.
Lemma flat_list l : Forall flattened l → forallb flat_expr (W <$> l) = true.
Proof. apply map_flat. Qed.
Lemma flat_stmts l : Forall flattened_stmt l → forallb flat_stmt (walk_stmt nest <$> l) = true.
Proof. apply map_flat. Qed.
Lemma flat_optional o : Forall flattened (option_list o) → flat_option flat_expr (W <$> o) = true.
Proof. destruct o; [|done]. cbn. by intros [H _]%list.Forall_cons. Qed.
Lemma flat_keywords l : Forall (λ k, Forall flattened (keyword_exprs k)) l → forallb (flat_keyword flat_expr) (walk_keyword nest W <$> l) = true.
Proof. flat_map. intros [a v] H. unfold flat_keyword. cbn. by apply flat_optional. Qed.
Ltac conj := repeat match goal with |- _ && _ = true => apply andb_true_iff; split end.
Lemma flat_called c : Forall flattened (call_exprs c) → flat_call flat_expr (walk_call_expr nest W c) = true.
Proof. destruct c as [f l ks]. unfold call_exprs, flat_call. cbn. intros H. split_parts. conj; [done|by apply flat_list|by apply flat_keywords]. Qed.
Lemma flat_calls l : Forall (λ k, Forall flattened (call_exprs k)) l → forallb (flat_call flat_expr) (walk_call_expr nest W <$> l) = true.
Proof. flat_map. apply flat_called. Qed.
Lemma flat_checked c : Forall flattened (check_exprs c) → flat_check flat_expr (walk_check_expr W c) = true.
Proof. destruct c as [t i m]. unfold check_exprs, flat_check. cbn. intros H. split_parts. conj; auto using flat_optional. Qed.
Lemma flat_checks l : Forall (λ k, Forall flattened (check_exprs k)) l → forallb (flat_check flat_expr) (walk_check_expr W <$> l) = true.
Proof. flat_map. apply flat_checked. Qed.
Lemma flat_clauses l : Forall (λ k, Forall flattened (clause_exprs k)) l → forallb (flat_clause flat_expr) (walk_comp_clause nest W <$> l) = true.
Proof. flat_map. intros [t i c]. unfold clause_exprs, flat_clause. cbn. intros H. split_parts. conj; [done|by apply flat_list]. Qed.
Lemma flat_argument a : Forall (λ a, Forall flattened (argument_exprs a)) (option_list a) → flat_arguments flat_expr (walk_arguments nest W <$> a) = true.
Proof.
  destruct a as [[n d t]|]; [|done]. cbn. unfold argument_exprs. cbn. intros H. split_parts. eapply map_flat, list.Forall_impl; [done|].
  intros. by apply flat_optional.
Qed.
(** An unfolded entry is flat when its value is. *)
Lemma nest_loop_flat b op names v : flat_expr v = true → flat_expr (nest_loop b op names v) = true.
Proof. induction names as [|n names IH] in b, v |- *; intros H; [done|]. cbn. apply IH. cbn. by rewrite H. Qed.
Lemma entry_flat e : flat_expr (entry_value e) = true → flat_entry flat_expr (walk_config_entry e) = true.
Proof.
  intros H. unfold walk_config_entry. destruct (key e) as [k|] eqn:Ek; [|unfold flat_entry, plain_key; by rewrite Ek].
  destruct k as [names| | | | | | | | | | | | | | | | | | | | | | | | |]; try (unfold flat_entry, plain_key; by rewrite Ek).
  destruct names as [|n [|n' names]]; try (unfold flat_entry, plain_key; by rewrite Ek). unfold flat_entry. cbn [plain_key key entry_value length].
  by rewrite nest_loop_flat.
Qed.
Lemma flat_entries l : Forall (λ k, Forall flattened (entry_exprs k)) l → forallb (flat_entry flat_expr) (walk_entry nest W <$> l) = true.
Proof. flat_map. intros [k v o]. unfold entry_exprs. cbn. intros H. split_parts. by apply entry_flat. Qed.
Lemma flat_targeted t : Forall flattened (target_exprs t) → flat_target flat_expr (walk_target nest W t) = true.
Proof.
  destruct t as [n p]. unfold target_exprs, flat_target. cbn. intros H. split_parts. eapply map_flat, list.Forall_impl; [done|].
  intros [m|i]; cbn; [done|]. by intros [Hi _]%list.Forall_cons.
Qed.
Lemma flat_targets l : Forall (λ k, Forall flattened (target_exprs k)) l → forallb (flat_target flat_expr) (walk_target nest W <$> l) = true.
Proof. flat_map. apply flat_targeted. Qed.
Lemma flat_attribute a : Forall flattened (attr_exprs a) → flat_attr flat_expr (walk_schema_attr nest W a) = true.
Proof. destruct a as [n t o v q d]. unfold attr_exprs, flat_attr. cbn. intros H. split_parts. conj; auto using flat_optional, flat_calls. Qed.
Lemma flat_schema_stmt s : Forall flattened (schema_exprs s) → Forall flattened_stmt (schema_body _ _ s) →
  flat_schema flat_expr flat_stmt (walk_schema_stmt nest W (walk_stmt nest) s) = true.
Proof.
  destruct s as [doc n pn fh mx pr ar mi b de ch ix]. unfold schema_exprs, flat_schema. cbn. intros H Hb. split_parts.
  conj; auto using flat_argument, flat_calls, flat_checks, flat_stmts.
  destruct ix as [[kn kt vt v ao]|]; [|done]. cbn in *. unfold signature_exprs in *. split_parts. by apply flat_optional.
Qed.
Lemma flat_rule_stmt r : Forall flattened (rule_exprs r) → flat_rule flat_expr (walk_rule_stmt nest W r) = true.
Proof.
  destruct r as [doc n pr de ch ar fh]. unfold rule_exprs, flat_rule. cbn. intros H. split_parts. conj; auto using flat_argument, flat_calls, flat_checks.
Qed.
Create HintDb flat.
#[export] Hint Resolve flat_list flat_stmts flat_optional flat_keywords flat_called flat_calls flat_checked flat_checks flat_clauses flat_argument
  flat_entries flat_targeted flat_targets flat_attribute flat_schema_stmt flat_rule_stmt : flat.
Lemma flat_parts : (∀ e, flattened e) ∧ (∀ s, flattened_stmt s).
Proof.
  assert (∀ e, Forall flattened (expr_exprs e) → Forall flattened_stmt (expr_stmts e) → flattened e) as HE.
  { intros e He Hs. destruct e; unfold flattened; cbn in *; split_parts; try done; try (conj; auto with flat; fail).
    all: conj; auto with flat; destruct entry as [k v o]; unfold entry_exprs in *; cbn in *; split_parts; auto with flat. }
  assert (∀ s, Forall flattened (stmt_exprs s) → Forall flattened_stmt (stmt_stmts s) → flattened_stmt s) as HS.
  { intros s He Hs. destruct s; unfold flattened_stmt; cbn in *; split_parts; try done; try (conj; auto with flat; fail).
    all: first [by apply flat_attribute | apply andb_true_iff; split; [by apply flat_targeted|done]]. }
  split; [apply expr_parts with flattened_stmt|apply stmt_parts with flattened]; done.
Qed.

(** *** What an unfolded entry means *)

(** The entry at the end of a chain of configurations with one entry each. *)
Fixpoint chain (depth : nat) (e : ConfigEntry Expr) : option (list Symbol * Expr * ConfigEntryOperation) :=
  match key e, depth with
  | Some (IdentifierExpr [name]), O => Some ([name], entry_value e, operation e)
  | Some (IdentifierExpr [name]), S depth =>
      match operation e, entry_value e with
      | Union, Config [e] => (λ '(names, v, o), (name :: names, v, o)) <$> chain depth e
      | _, _ => None
      end
  | _, _ => None
  end.
Lemma nest_loop_snoc b op names n v : nest_loop b op (names ++ [n]) v =
  Config [MkEntry (Some (IdentifierExpr [n])) (nest_loop b op names v) (match names with [] => if b then op else Union | _ => Union end)].
Proof. induction names as [|x names IH] in b, v |- *; [done|]. cbn. rewrite IH. by destruct names. Qed.
Lemma chain_nest op v names : names ≠ [] → ∃ e,
  nest_loop true op (rev names) v = Config [e] ∧ chain (length names - 1) e = Some (names, v, op).
Proof.
  induction names as [|n names IH]; [done|]. intros _. cbn [rev]. rewrite nest_loop_snoc. eexists; split; [done|].
  destruct names as [|n' names]; [done|]. destruct IH as (e & -> & He); [done|]. cbn [length Nat.sub] in *. rewrite Nat.sub_0_r in *.
  cbn [chain key operation entry_value]. destruct (rev (n' :: names)) eqn:E; [by apply (f_equal length) in E; rewrite length_rev in E|]. by rewrite He.
Qed.
(** The names of the key are those along the chain; the value and the operation stay with the
    last of them. *)
Lemma entry_chain names v op : names ≠ [] →
  chain (length names - 1) (walk_config_entry (MkEntry (Some (IdentifierExpr names)) v op)) = Some (names, v, op).
Proof.
  destruct names as [|n [|n' names]]; intros H; [done..|]. cbn [walk_config_entry key operation entry_value length]. 
  destruct (chain_nest op v (n' :: names)) as (e & He & Hc); [done|]. unfold walk_config_entry. cbn [key]. rewrite He. cbn [length Nat.sub] in *. rewrite Nat.sub_0_r in Hc.
  cbn. by rewrite Hc.
Qed.


(** ** Assignments with several targets *)

Definition split_stmt (s : Stmt) : list Stmt := let (s, others) := walk_assign_stmt s in s :: others.
Lemma insert_behind_split i stmts pre s rest : length pre = i → insert_behind i stmts (pre ++ s :: rest) = pre ++ s :: stmts ++ rest.
Proof.
  induction stmts as [|x stmts IH] in i, pre, s |- *; intros Hi; [done|]. cbn [insert_behind app]. unfold insert_at.
  assert (take (S i) (pre ++ s :: rest) = pre ++ [s]) as ->.
  { change (pre ++ s :: rest) with (pre ++ [s] ++ rest). rewrite app_assoc, take_app_length'; [done|]. rewrite length_app. cbn. lia. }
  assert (drop (S i) (pre ++ s :: rest) = rest) as ->.
  { change (pre ++ s :: rest) with (pre ++ [s] ++ rest). rewrite app_assoc, drop_app_length'; [done|]. rewrite length_app. cbn. lia. }
  rewrite IH by (rewrite length_app; cbn; lia). by rewrite <- app_assoc.
Qed.
Lemma insert_stmts_ascending body k c pre : length pre = (k + c)%nat →
  let (body', mapping) := multi_assign_mapping k body in
  insert_stmts c mapping (pre ++ body') = Ok (pre ++ (body ≫= split_stmt)).
Proof.
  induction body as [|s body IH] in k, c, pre |- *; intros Hp; [done|]. cbn [multi_assign_mapping].
  change ((s :: body) ≫= split_stmt) with (split_stmt s ++ (body ≫= split_stmt)). unfold split_stmt at 1.
  destruct (walk_assign_stmt s) as [s' others]. destruct others as [|o others].
  - specialize (IH (S k) c (pre ++ [s'])). destruct (multi_assign_mapping (S k) body) as [b m]. rewrite <- !app_assoc in IH. apply IH.
    rewrite length_app. cbn. lia.
  - specialize (IH (S k) (c + S (length others))%nat (pre ++ s' :: o :: others)). destruct (multi_assign_mapping (S k) body) as [b m].
    cbn [insert_stmts]. rewrite lookup_app_r, Hp, Nat.sub_diag by lia. cbn [lookup list_lookup]. rewrite insert_behind_split by done.
    rewrite <- !app_assoc in IH. cbn [app] in IH |- *. cbn [length]. apply IH. rewrite length_app. cbn. lia.
Qed.
(** Splitting assignments in the order of the statements replaces every assignment with
    several targets by the assignments of its value to each of them, in place, and never
    panics. *)
Theorem multi_assign_split body : transform_multi_assign id body = Ok (body ≫= split_stmt).
Proof.
  unfold transform_multi_assign. pose proof (insert_stmts_ascending body 0 0 [] eq_refl) as H.
  by destruct (multi_assign_mapping 0 body) as [b m].
Qed.
(** The iterator of the hash map may yield the second statement first: [b] is then assigned
    after [c], whose value refers to it. *)
Example multi_assign_order :
  let name s := MkTarget (intern s) [] in let load s := IdentifierExpr [intern s] in
  let assign t v := SAssign t v None in
  transform_multi_assign (λ m, rev m)
    [assign [name "a"; name "b"] (load "x"); assign [name "c"; name "d"] (load "b")] =
  Ok [assign [name "a"] (load "x"); assign [name "c"] (load "b"); assign [name "b"] (load "x"); assign [name "d"] (load "b")].
Proof. reflexivity. Qed.

(** ** Raw identifiers *)

(** The prefix of a name in a type of an attribute stays, that of other names goes. *)
Example raw_type_kept :
  fix_raw_identifier_prefix (λ a, length (attr_name _ a))
    [SSchemaAttr (MkAttr (intern "$filter") (TNamed [intern "$Map"]) None (Some (IdentifierExpr [intern "$all"])) false [])] =
  [SSchemaAttr (MkAttr (intern "filter") (TNamed [intern "$Map"]) None (Some (IdentifierExpr [intern "all"])) false [])].
Proof. reflexivity. Qed.
