(* ===== verification/Preprocess.v ===== *)
(** * Pre-processing of programs

    [crates/sema/src/pre_process]: the rewriting of the syntax tree between the parser
    and the resolver.  The passes over single modules are in [Desugar]; [merge_program]
    of [config.rs] merges the configurations of one name that are spread over the files of
    the main package into the last of them. *)

From stdpp Require Import base tactics list strings numbers.
From Stdlib Require Import ZArith Lia.
From S2P Require Import Prelude IndexMap Token Ast Desugar.
From S2P Require SemaTypes.
Local Set Warnings "-clear-no-such-hyp".

(** ** Merging of configurations *)

Definition is_private_field (name : Symbol) : bool :=
  match name with c :: _ => Z.eqb c 95 | [] => false end.
Definition NAME_NONE_BUCKET_KEY : Symbol := intern "$name_none".
(** [names.join(".")] *)
Fixpoint identifier_name (names : Identifier) : Symbol :=
  match names with
  | [] => []
  | [n] => n
  | n :: names => n ++ intern "." ++ identifier_name names
  end.

(** *** The entries of one configuration *)

Abbreviation Entry := (ConfigEntry Expr).
Definition bucket_name (entry : Entry) : Symbol :=
  match key entry with
  | Some (IdentifierExpr names) => identifier_name names
  | Some (StringLitExpr lit) => value lit
  | _ => NAME_NONE_BUCKET_KEY
  end.
Definition is_override (entry : Entry) : bool := bool_decide (operation entry = Override).
(** The entry joins its bucket; an override clears it first. *)
Definition add_to_bucket (bucket : IndexMap Symbol (list Entry)) (entry : Entry) : IndexMap Symbol (list Entry) :=
  let name := bucket_name entry in
  match map_get name bucket with
  | Some values => map_insert name ((if is_override entry then [] else values) ++ [entry]) bucket
  | None => map_insert name [entry] bucket
  end.
Definition bucketed (entries : list Entry) : list Entry :=
  let bucket := foldl add_to_bucket [] entries in concat bucket.*2.
Definition with_value (f : list Entry → list Entry) (e : Entry) : Entry :=
  match entry_value e with
  | Schema name args kwargs (Config items) => MkEntry (key e) (Schema name args kwargs (Config (f items))) (operation e)
  | Config items => MkEntry (key e) (Config (f items)) (operation e)
  | _ => e
  end.
(** Recursion to a depth: configurations nested deeper are left as they are. *)
Fixpoint unify_config_entries (depth : nat) (entries : list Entry) : list Entry :=
  match depth with
  | O => entries
  | S depth => with_value (unify_config_entries depth) <$> bucketed entries
  end.

(** *** The declarations of a name *)

Record SourceFile := MkFile { filename : string; file_body : list Stmt }.
Inductive ConfigMergeKind := MergeOverride | MergeUnion.
#[export] Instance ConfigMergeKind_eq_dec : EqDecision ConfigMergeKind.
Proof. solve_decision. Defined.
Record Declaration := MkDeclaration {
  decl_file : string; decl_module : nat; decl_index : nat; decl_kind : ConfigMergeKind }.
#[export] Instance Declaration_eq_dec : EqDecision Declaration.
Proof. solve_decision. Defined.
Abbreviation Mapping := (IndexMap Symbol (list Declaration)).

Definition push_declaration (name : Symbol) (d : Declaration) (m : Mapping) : Mapping :=
  match map_get name m with
  | Some declarations => map_insert name (declarations ++ [d]) m
  | None => map_insert name [d] m
  end.
(** A name that is assigned again keeps its declarations, unless it is private. *)
Definition assign_target (d : Declaration) (m : Mapping) (target : Target Expr) : Mapping :=
  match paths target with
  | [] =>
      let name := target_name target in
      match map_get name m with
      | Some _ => if is_private_field name then map_insert name [d] m else m
      | None => map_insert name [d] m
      end
  | _ => m
  end.
Definition collect_stmt (file : string) (module_id i : nat) (m : Mapping) (stmt : Stmt) : Mapping :=
  match stmt with
  | SUnification (name :: _) _ => push_declaration name (MkDeclaration file module_id i MergeUnion) m
  | SAssign targets (Schema _ _ _ _) _ => foldl (assign_target (MkDeclaration file module_id i MergeOverride)) m targets
  | _ => m
  end.
Fixpoint collect_body (file : string) (module_id i : nat) (body : list Stmt) (m : Mapping) : Mapping :=
  match body with
  | [] => m
  | stmt :: body => collect_body file module_id (S i) body (collect_stmt file module_id i m stmt)
  end.
Fixpoint collect_modules (module_id : nat) (modules : list SourceFile) (m : Mapping) : Mapping :=
  match modules with
  | [] => m
  | f :: modules => collect_modules (S module_id) modules (collect_body (filename f) module_id 0 (file_body f) m)
  end.

(** The items of a declaration. *)
Definition config_items (config : Expr) : list Entry := match config with Config items => items | _ => [] end.
Definition declared_items (stmt : Stmt) (kind : ConfigMergeKind) : Res (list Entry) :=
  match stmt, kind with
  | SUnification _ (Schema _ _ _ config), MergeUnion => Ok (config_items config)
  | SAssign _ value _, MergeOverride => Ok match value with Schema _ _ _ config => config_items config | _ => [] end
  | _, _ => SemaTypes.bug "mismatch ast node and config merge kind"
  end.
Definition set_config (items : list Entry) (config : Expr) : Expr :=
  match config with Config _ => Config items | _ => config end.
Definition set_declared_items (items : list Entry) (stmt : Stmt) (kind : ConfigMergeKind) : Res Stmt :=
  match stmt, kind with
  | SUnification target (Schema name args kwargs config), MergeUnion =>
      Ok (SUnification target (Schema name args kwargs (set_config items config)))
  | SAssign targets value ty, MergeOverride =>
      Ok (SAssign targets match value with
                          | Schema name args kwargs config => Schema name args kwargs (set_config items config)
                          | _ => value
                          end ty)
  | _, _ => SemaTypes.bug "mismatch ast node and config merge kind"
  end.
(** The file of a declaration, which is found by its name and its number. *)
Definition declaring_file (modules : list SourceFile) (d : Declaration) : option SourceFile :=
  match modules !! decl_module d with
  | Some f => if bool_decide (filename f = decl_file d) then Some f else None
  | None => None
  end.
Fixpoint merged_items (modules : list SourceFile) (ds : list Declaration) : Res (list Entry) :=
  match ds with
  | [] => Ok []
  | d :: ds =>
      items ← match declaring_file modules d with
              | Some f => stmt ← unwrap (file_body f !! decl_index d); declared_items stmt (decl_kind d)
              | None => Ok []
              end;
      rest ← merged_items modules ds;
      Ok (items ++ rest)
  end.
Definition write_items (modules : list SourceFile) (d : Declaration) (items : list Entry) : Res (list SourceFile) :=
  match declaring_file modules d with
  | Some f =>
      match file_body f !! decl_index d with
      | Some stmt =>
          stmt ← set_declared_items items stmt (decl_kind d);
          Ok (<[decl_module d := MkFile (filename f) (<[decl_index d := stmt]> (file_body f))]> modules)
      | None => Ok modules
      end
  | None => Ok modules
  end.
Definition merge_name (depth : nat) (modules : list SourceFile) (ds : list Declaration) : Res (list SourceFile) :=
  if Nat.ltb 1 (length ds) then
    last ← unwrap (list.last ds);
    items ← merged_items modules ds;
    write_items modules last (unify_config_entries depth items)
  else Ok modules.
Fixpoint merge_names (depth : nat) (mapping : list (list Declaration)) (modules : list SourceFile) : Res (list SourceFile) :=
  match mapping with
  | [] => Ok modules
  | ds :: mapping => modules ← merge_name depth modules ds; merge_names depth mapping modules
  end.

(** The statements whose items were merged into a later one. *)
Definition redundant (mapping : list (list Declaration)) (module_id : nat) (file : string) (i : nat) : bool :=
  existsb (λ ds, existsb (λ d, bool_decide (decl_file d = file) && Nat.eqb (decl_module d) module_id && Nat.eqb (decl_index d) i)
                   (removelast ds)) mapping.
Fixpoint retain_from (i : nat) (keep : nat → bool) (body : list Stmt) : list Stmt :=
  match body with
  | [] => []
  | stmt :: body => if keep i then stmt :: retain_from (S i) keep body else retain_from (S i) keep body
  end.
Fixpoint delete_redundant (mapping : list (list Declaration)) (module_id : nat) (modules : list SourceFile) : list SourceFile :=
  match modules with
  | [] => []
  | f :: modules =>
      MkFile (filename f) (retain_from 0 (λ i, negb (redundant mapping module_id (filename f) i)) (file_body f))
        :: delete_redundant mapping (S module_id) modules
  end.
(** The main package of a program after the merge. *)
Definition merge_program (depth : nat) (modules : list SourceFile) : Res (list SourceFile) :=
  let mapping := (collect_modules 0 modules []).*2 in
  modules ← merge_names depth mapping modules;
  Ok (delete_redundant mapping 0 modules).

(** The passes over the modules of the main package, then the merge if the options ask
    for it. *)
Definition pre_process_program (name_columns : SchemaAttr Expr → nat) (debug : Symbol → Symbol) (opts_merge_program : bool)
    (depth : nat) (modules : list SourceFile) : Res (list SourceFile) :=
  let modules := (λ f, MkFile (filename f) (pre_process_module name_columns debug (file_body f))) <$> modules in
  if opts_merge_program then merge_program depth modules else Ok modules.
