(* ===== verification/PreprocessProps.v ===== *)
(** * Theorems on the pre-processing of programs

    [Preprocess]: the merged configuration of a name has the entries since the last
    override of each key; the merge keeps the last declaration of each name, which receives
    the entries of all of them. *)

From stdpp Require Import base tactics list strings numbers.
From Stdlib Require Import ZArith Lia.
From S2P Require Import Prelude IndexMap Token Ast Preprocess.
Local Set Warnings "-clear-no-such-hyp".

(** ** The entries of a configuration *)

Definition named (k : Symbol) (l : list Entry) : list Entry := base.filter (λ e, bucket_name e = k) l.
(** The entries since the last override. *)
Fixpoint effective (l : list Entry) : list Entry :=
  match l with
  | [] => []
  | e :: l => if existsb is_override l then effective l else e :: l
  end.
(** The names in the order of their first entries. *)
Definition names_of (l : list Entry) : list Symbol :=
  foldl (λ acc e, if decide (bucket_name e ∈ acc) then acc else acc ++ [bucket_name e]) [] l.

Lemma named_app k l l' : named k (l ++ l') = named k l ++ named k l'.
Proof. apply list.filter_app. Qed.
Lemma named_one k e : named k [e] = if decide (bucket_name e = k) then [e] else [].
Proof. reflexivity. Qed.
Lemma effective_snoc l e : effective (l ++ [e]) = (if is_override e then [] else effective l) ++ [e].
Proof.
  induction l as [|x l IH]; cbn [app effective]; [cbn; by destruct (is_override e)|].
  rewrite existsb_app, IH. cbn [existsb]. rewrite orb_false_r. destruct (existsb is_override l), (is_override e); try done.
Qed.
Lemma names_of_snoc l e : names_of (l ++ [e]) = if decide (bucket_name e ∈ names_of l) then names_of l else names_of l ++ [bucket_name e].
Proof. unfold names_of. by rewrite foldl_app. Qed.

Lemma buckets l : let b := foldl add_to_bucket [] l in
  b.*1 = names_of l ∧ wf_map b ∧
  ∀ k, map_get k b = if decide (named k l = []) then None else Some (effective (named k l)).
Proof.
  induction l as [|e l IH] using rev_ind; [cbn; split_and!; [done|apply NoDup_nil_2|done]|].
  rewrite foldl_app. cbn [foldl]. set (b := foldl add_to_bucket [] l) in *. destruct IH as (Hk & Hwf & Hg).
  assert (add_to_bucket b e = map_insert (bucket_name e) (effective (named (bucket_name e) (l ++ [e]))) b) as ->.
  { unfold add_to_bucket. rewrite Hg, named_app, named_one, (decide_True (P := bucket_name e = bucket_name e)), effective_snoc by done.
    destruct (decide (named (bucket_name e) l = [])) as [->|]; [|done]. by destruct (is_override e). }
  split_and!.
  - by rewrite map_insert_keys, Hk, names_of_snoc.
  - by apply map_insert_wf.
  - intros k. destruct (decide (k = bucket_name e)) as [->|Hne].
    + rewrite map_get_insert_eq, decide_False; [done|]. rewrite named_app, named_one, decide_True by done. by destruct (named _ l).
    + rewrite map_get_insert_ne, named_app, named_one, (decide_False (P := bucket_name e = k)), app_nil_r, Hg by congruence. done.
Qed.
Lemma bucketed_groups l : bucketed l = concat ((λ k, effective (named k l)) <$> names_of l).
Proof.
  unfold bucketed. destruct (buckets l) as (Hk & Hwf & Hg). set (b := foldl add_to_bucket [] l) in *. rewrite <- Hk. f_equal.
  rewrite <- list_fmap_compose. apply list_fmap_ext. intros i [k v] Hi. apply list_elem_of_lookup_2 in Hi.
  apply in_map_get in Hi; [|done]. cbn. rewrite Hg in Hi. destruct (decide _); [done|]. by injection Hi.
Qed.
Lemma effective_in l e : e ∈ effective l → e ∈ l.
Proof. induction l as [|x l IH]; [done|]. cbn [effective]. destruct (existsb _ _); [intros H; right; by apply IH|done]. Qed.
Lemma names_of_NoDup l : NoDup (names_of l).
Proof. destruct (buckets l) as (<- & H & _). exact H. Qed.
Lemma names_of_in l k : k ∈ names_of l ↔ named k l ≠ [].
Proof.
  destruct (buckets l) as (<- & _ & Hg). rewrite <- contains_key_spec. unfold contains_key. rewrite Hg. by destruct (decide _).
Qed.
Lemma named_idem k l : Forall (λ e, bucket_name e = k) l → named k l = l.
Proof. induction 1 as [|e l He Hl IH]; [done|]. unfold named in *. rewrite list.filter_cons, decide_True, IH by done. done. Qed.
Lemma named_other k k' l : Forall (λ e, bucket_name e = k') l → k ≠ k' → named k l = [].
Proof. intros H Hne. induction H as [|e l He Hl IH]; [done|]. unfold named in *. rewrite list.filter_cons, decide_False, IH by congruence. done. Qed.
Lemma effective_named k l : Forall (λ e, bucket_name e = k) (effective (named k l)).
Proof. apply list.Forall_forall. intros e He%effective_in. by apply list_elem_of_filter in He as [? _]. Qed.
(** Each key has its entries since its last override, in their order. *)
Lemma bucketed_named k l : named k (bucketed l) = effective (named k l).
Proof.
  rewrite bucketed_groups. pose proof (names_of_NoDup l) as Hnd.
  assert (named k l ≠ [] → k ∈ names_of l) as Hin by apply names_of_in.
  assert (∀ ns, NoDup ns → named k (concat ((λ k, effective (named k l)) <$> ns)) = if decide (k ∈ ns) then effective (named k l) else []) as H.
  { induction ns as [|n ns IH]; intros Hn; [done|]. apply list.NoDup_cons in Hn as [Hn Hns]. cbn [fmap list_fmap concat]. rewrite named_app, IH by done.
    destruct (decide (k = n)) as [->|Hne].
    - rewrite named_idem by apply effective_named. rewrite decide_False, app_nil_r, decide_True by (done || by left). done.
    - rewrite (named_other _ n) by (apply effective_named || done). cbn [app]. destruct (decide (k ∈ ns)) as [Hk|Hk].
      + by rewrite decide_True by (by right).
      + rewrite decide_False; [done|]. intros H; inversion H; congruence. }
  rewrite H by done. destruct (decide (k ∈ names_of l)) as [|Hk]; [done|]. destruct (decide (named k l = [])) as [->|Hne]; [done|]. by destruct Hk; apply Hin.
Qed.

(** ** Depth and idempotence *)

Lemma with_value_key f e : key (with_value f e) = key e.
Proof. destruct e as [k v o]. cbn. destruct v; try done. cbn. by destruct v. Qed.
Lemma with_value_operation f e : operation (with_value f e) = operation e.
Proof. destruct e as [k v o]. cbn. destruct v; try done. cbn. by destruct v. Qed.
Lemma with_value_name f e : bucket_name (with_value f e) = bucket_name e.
Proof. unfold bucket_name. by rewrite with_value_key. Qed.
Lemma named_with_value k f l : named k (with_value f <$> l) = with_value f <$> named k l.
Proof.
  induction l as [|e l IH]; [done|]. unfold named in *. cbn [fmap list_fmap]. rewrite !list.filter_cons, with_value_name.
  case_decide; cbn [fmap list_fmap]; by f_equal.
Qed.
Lemma effective_with_value f l : effective (with_value f <$> l) = with_value f <$> effective l.
Proof.
  induction l as [|e l IH]; [done|]. cbn [fmap list_fmap effective].
  assert (existsb is_override (with_value f <$> l) = existsb is_override l) as ->.
  { clear IH. induction l as [|x l IH]; [done|]. cbn [fmap list_fmap existsb]. unfold is_override at 1. by rewrite with_value_operation, IH. }
  by destruct (existsb is_override l).
Qed.
Lemma names_of_app l l' : names_of (l ++ l') = foldl (λ acc e, if decide (bucket_name e ∈ acc) then acc else acc ++ [bucket_name e]) (names_of l) l'.
Proof. unfold names_of. by rewrite foldl_app. Qed.
Lemma names_of_map f l : (∀ e, bucket_name (f e) = bucket_name e) → names_of (f <$> l) = names_of l.
Proof.
  intros Hf. induction l as [|e l IH] using rev_ind; [done|].
  rewrite fmap_app. change (f <$> [e]) with [f e]. by rewrite !names_of_snoc, IH, Hf.
Qed.
Lemma effective_idem l : effective (effective l) = effective l.
Proof.
  induction l as [|e l IH]; [done|]. cbn [effective]. destruct (existsb is_override l) eqn:E; [done|]. cbn [effective]. by rewrite E.
Qed.
Lemma effective_nil l : effective l = [] → l = [].
Proof. induction l as [|e l IH]; [done|]. cbn [effective]. destruct (existsb _ l) eqn:E; [|done]. intros ->%IH. done. Qed.
(** A group of entries of one name adds the name. *)
Lemma names_of_group l g k : Forall (λ e, bucket_name e = k) g → g ≠ [] → k ∉ names_of l → names_of (l ++ g) = names_of l ++ [k].
Proof.
  intros Hg Hne Hk. rewrite names_of_app. destruct Hg as [|e g He Hg]; [done|]. cbn [foldl]. rewrite He, decide_False by done.
  clear Hne Hk He. induction Hg as [|e' g He' Hg IH]; [done|]. cbn [foldl]. rewrite He', decide_True; [done|]. apply elem_of_app. right. by left.
Qed.
Lemma names_of_groups (gs : Symbol → list Entry) ns : NoDup ns → (∀ k, k ∈ ns → Forall (λ e, bucket_name e = k) (gs k) ∧ gs k ≠ []) →
  names_of (concat (gs <$> ns)) = ns.
Proof.
  induction ns as [|n ns IH] using rev_ind; intros Hnd Hg; [done|]. apply list.NoDup_app in Hnd as (Hnd & Hn & _).
  rewrite fmap_app, concat_app. cbn [fmap list_fmap concat]. rewrite app_nil_r.
  assert (names_of (concat (gs <$> ns)) = ns) as IH' by (apply IH; [done|]; intros k Hk; apply Hg; apply elem_of_app; by left).
  destruct (Hg n) as [H1 H2]; [apply elem_of_app; right; by left|].
  erewrite names_of_group; [by rewrite IH'|exact H1|exact H2|]. rewrite IH'. intros H. apply (Hn n H). by left.
Qed.
Lemma bucketed_names l : names_of (bucketed l) = names_of l.
Proof.
  rewrite bucketed_groups. apply names_of_groups; [apply names_of_NoDup|]. intros k Hk. split; [apply effective_named|].
  intros H%effective_nil. by apply names_of_in in Hk.
Qed.
Lemma bucketed_ext l l' : names_of l = names_of l' → (∀ k, effective (named k l) = effective (named k l')) → bucketed l = bucketed l'.
Proof. intros Hn He. rewrite !bucketed_groups, Hn. f_equal. apply list_fmap_ext. intros. apply He. Qed.
Lemma fmap_concat {A B} (f : A → B) (ls : list (list A)) : fmap (M := list) f (concat ls) = concat (fmap (M := list) (fmap (M := list) f) ls).
Proof. induction ls as [|l ls IH]; [done|]. cbn [concat fmap list_fmap]. by rewrite fmap_app, IH. Qed.
Lemma bucketed_with_value f l : bucketed (with_value f <$> l) = with_value f <$> bucketed l.
Proof.
  rewrite !bucketed_groups, names_of_map by apply with_value_name. rewrite fmap_concat.
  rewrite <- list_fmap_compose. f_equal. apply list_fmap_ext. intros i k _. cbn. by rewrite named_with_value, effective_with_value.
Qed.
Lemma bucketed_idem l : bucketed (bucketed l) = bucketed l.
Proof. apply bucketed_ext; [apply bucketed_names|]. intros k. by rewrite bucketed_named, effective_idem. Qed.
Lemma with_value_comp f g e : with_value f (with_value g e) = with_value (λ l, f (g l)) e.
Proof. destruct e as [k v o]. unfold with_value. cbn. destruct v as [| | | | | | | | | | | | | |n a kw c| | | | | | | | | | |]; try done. by destruct c. Qed.
(** How deep the configurations of an expression are nested. *)
Fixpoint config_depth (e : Expr) : nat :=
  match e with
  | Schema _ _ _ (Config items) | Config items => S (max_list_with (λ x, config_depth (entry_value x)) items)
  | _ => 0
  end.
Definition entries_depth (l : list Entry) : nat := max_list_with (λ x, config_depth (entry_value x)) l.
Lemma with_value_ext f g e : (∀ l, entries_depth l < config_depth (entry_value e) → f l = g l)%nat → with_value f e = with_value g e.
Proof.
  intros H. unfold with_value. destruct (entry_value e) as [| | | | | | | | | | | | | |n a kw c| | | | | | | | | | |]; try done.
  - destruct c; try done. rewrite H; [done|]. unfold entries_depth. cbn. lia.
  - rewrite H; [done|]. unfold entries_depth. cbn. lia.
Qed.
(** The names keep their order, and each has its entries since its last override. *)
Lemma unify_named depth k l : named k (unify_config_entries (S depth) l) = with_value (unify_config_entries depth) <$> effective (named k l).
Proof. cbn [unify_config_entries]. by rewrite named_with_value, bucketed_named. Qed.
Lemma unify_names depth l : names_of (unify_config_entries depth l) = names_of l.
Proof. destruct depth; [done|]. cbn [unify_config_entries]. by rewrite names_of_map, bucketed_names by apply with_value_name. Qed.
Lemma unify_idem depth l : unify_config_entries depth (unify_config_entries depth l) = unify_config_entries depth l.
Proof.
  induction depth as [|depth IH] in l |- *; [done|]. cbn [unify_config_entries]. rewrite bucketed_with_value, bucketed_idem, <- list_fmap_compose.
  apply list_fmap_ext. intros i e _. cbn. rewrite with_value_comp. apply with_value_ext. intros. apply IH.
Qed.


Lemma elem_of_concat {A} (x : A) ls : x ∈ concat ls ↔ ∃ l, l ∈ ls ∧ x ∈ l.
Proof. rewrite list_elem_of_In, in_concat. by setoid_rewrite list_elem_of_In. Qed.
Lemma bucketed_in l e : e ∈ bucketed l → e ∈ l.
Proof.
  rewrite bucketed_groups. intros (k & Hk & He)%elem_of_concat. apply list_elem_of_fmap in Hk as (n & -> & _).
  apply effective_in in He. by apply list_elem_of_filter in He as [_ ?].
Qed.
Lemma entry_depth l e : e ∈ l → (config_depth (entry_value e) ≤ entries_depth l)%nat.
Proof. unfold entries_depth. induction 1; cbn; lia. Qed.
(** A depth that exceeds that of the entries is enough. *)
Lemma unify_depth depth depth' l : (entries_depth l < depth ≤ depth')%nat → unify_config_entries depth' l = unify_config_entries depth l.
Proof.
  induction depth as [|depth IH] in depth', l |- *; intros H; [lia|]. destruct depth' as [|depth']; [lia|]. cbn [unify_config_entries].
  apply list_fmap_ext. intros i e He%list_elem_of_lookup_2%bucketed_in%entry_depth. apply with_value_ext. intros l' Hl'. apply IH. lia.
Qed.

(** ** The declarations of a name *)

(** The names that a statement declares: none, the target of a unification, or the
    targets of the assignment of a schema instance. *)
Definition declares (stmt : Stmt) : list (Symbol * ConfigMergeKind) :=
  match stmt with
  | SUnification (name :: _) _ => [(name, MergeUnion)]
  | SAssign targets (Schema _ _ _ _) _ =>
      (λ t, (target_name t, MergeOverride)) <$> base.filter (λ t, paths t = []) targets
  | _ => []
  end.
Definition occurrences_in (file : string) (m i : nat) (stmt : Stmt) : list (Symbol * Declaration) :=
  (λ nk, (nk.1, MkDeclaration file m i nk.2)) <$> declares stmt.
(** All declarations of a package, in their order. *)
Definition occurrences (modules : list SourceFile) : list (Symbol * Declaration) :=
  concat (imap (λ m f, concat (imap (occurrences_in (filename f) m) (file_body f))) modules).
Definition is_union (d : Declaration) : bool := bool_decide (decl_kind d = MergeUnion).
(** Those since the last assignment. *)
Fixpoint since_assigned (ds : list Declaration) : list Declaration :=
  match ds with
  | [] => []
  | d :: ds => if forallb is_union ds then d :: ds else since_assigned ds
  end.
(** Of a public name the first declaration and all later unifications count, of a private
    name those since its last assignment. *)
Definition counted (name : Symbol) (l : list (Symbol * Declaration)) : list Declaration :=
  let ds := (base.filter (λ nd, nd.1 = name) l).*2 in
  if is_private_field name then since_assigned ds
  else match ds with [] => [] | d :: ds => d :: List.filter is_union ds end.
Definition declarations_of (name : Symbol) (modules : list SourceFile) : list Declaration :=
  counted name (occurrences modules).

Definition add_declaration (m : Mapping) (nd : Symbol * Declaration) : Mapping :=
  match decl_kind nd.2 with
  | MergeUnion => push_declaration nd.1 nd.2 m
  | MergeOverride => assign_target nd.2 m (MkTarget nd.1 [])
  end.
Lemma collect_stmt_occurrences file m i stmt b : collect_stmt file m i b stmt = foldl add_declaration b (occurrences_in file m i stmt).
Proof.
  destruct stmt as [| |[|n ns] v|ts v ty| | | | | | |]; try done. destruct v; try done. unfold occurrences_in. cbn [declares collect_stmt].
  induction ts as [|t ts IH] in b |- *; [done|]. cbn [foldl]. rewrite list.filter_cons. destruct (decide (paths t = [])) as [Hp|Hp].
  - cbn [fmap list_fmap foldl]. rewrite IH. f_equal. unfold add_declaration. cbn. unfold assign_target. cbn. by rewrite Hp.
  - rewrite IH. f_equal. unfold assign_target. by destruct (paths t).
Qed.
Lemma imap_shift {A B} (g : nat → A → B) i l : imap (λ j, g (S i + j)) l = imap (λ j, g (i + S j)) l.
Proof. apply imap_ext. intros j x _. by rewrite Nat.add_succ_r. Qed.
Lemma collect_body_occurrences file m i body b :
  collect_body file m i body b = foldl add_declaration b (concat (imap (λ j, occurrences_in file m (i + j)) body)).
Proof.
  induction body as [|s body IH] in i, b |- *; [done|]. cbn [collect_body]. rewrite IH, imap_cons, collect_stmt_occurrences. cbn [concat].
  by rewrite foldl_app, Nat.add_0_r, imap_shift.
Qed.
Lemma collect_modules_occurrences m modules b :
  collect_modules m modules b =
  foldl add_declaration b (concat (imap (λ j f, concat (imap (occurrences_in (filename f) (m + j)) (file_body f))) modules)).
Proof.
  induction modules as [|f modules IH] in m, b |- *; [done|]. cbn [collect_modules]. rewrite IH, imap_cons, collect_body_occurrences. cbn [concat].
  rewrite foldl_app, Nat.add_0_r. f_equal. by rewrite (imap_shift (λ j f, concat (imap (occurrences_in (filename f) j) (file_body f)))).
Qed.

Lemma since_assigned_snoc ds d : since_assigned (ds ++ [d]) = if is_union d then since_assigned ds ++ [d] else [d].
Proof.
  induction ds as [|x ds IH]; [by destruct (is_union d)|]. cbn [app since_assigned]. rewrite forallb_app, IH. cbn [forallb].
  destruct (is_union d), (forallb is_union ds); done.
Qed.
Lemma counted_snoc n l n' d : counted n (l ++ [(n', d)]) =
  if decide (n' = n) then
    if is_union d || bool_decide (counted n l = []) then counted n l ++ [d]
    else if is_private_field n then [d] else counted n l
  else counted n l.
Proof.
  unfold counted. rewrite list.filter_app, fmap_app, list.filter_cons. cbn [fst]. destruct (decide (n' = n)) as [->|]; [|by rewrite list.filter_nil, app_nil_r].
  rewrite list.filter_nil. cbn [fmap list_fmap snd]. generalize ((base.filter (λ nd, nd.1 = n) l).*2). intros ds. destruct (is_private_field n).
  - rewrite since_assigned_snoc. destruct (is_union d); [done|]. cbn [orb]. case_bool_decide as E; [by rewrite E|done].
  - destruct ds as [|x ds]; [by destruct (is_union d)|]. cbn [app]. rewrite List.filter_app. cbn [List.filter]. rewrite (bool_decide_false (x :: _ = [])) by done.
    destruct (is_union d); cbn [orb]; by rewrite ?app_nil_r.
Qed.
Lemma collected l : let b := foldl add_declaration [] l in
  wf_map b ∧ ∀ n, map_get n b = if decide (counted n l = []) then None else Some (counted n l).
Proof.
  induction l as [|[n d] l IH] using rev_ind.
  { split; [apply base.NoDup_nil_2|]. intros n. unfold counted. rewrite list.filter_nil. by destruct (is_private_field n). }
  cbv zeta in *. rewrite foldl_app. cbn [foldl]. set (b := foldl add_declaration [] l) in *. destruct IH as [Hwf Hg].
  assert (add_declaration b (n, d) = b ∧ counted n (l ++ [(n, d)]) = counted n l ∧ counted n l ≠ [] ∨
          add_declaration b (n, d) = map_insert n (counted n (l ++ [(n, d)])) b ∧ counted n (l ++ [(n, d)]) ≠ []) as [(-> & Hc & Hn)|(-> & Hn)].
  { rewrite counted_snoc, decide_True by done. unfold add_declaration, push_declaration, assign_target, is_union. cbn [fst snd paths target_name].
    rewrite Hg. destruct (decide (counted n l = [])) as [->|Hne]; [|rewrite (bool_decide_false (counted n l = [])) by done].
    - right. destruct (decl_kind d); done.
    - destruct (decl_kind d); cbn; [destruct (is_private_field n); [by right|by left]|]. right. split; [done|]. by destruct (counted n l). }
  - split; [done|]. intros n'. destruct (decide (n' = n)) as [->|Hn']; [by rewrite Hg, Hc|]. rewrite Hg, counted_snoc, (decide_False (P := n = n')) by congruence. done.
  - split; [by apply map_insert_wf|]. intros n'. destruct (decide (n' = n)) as [->|Hn']; [by rewrite map_get_insert_eq, decide_False|].
    rewrite map_get_insert_ne, Hg, counted_snoc, (decide_False (P := n = n')) by congruence. done.
Qed.
Lemma mapping_elements modules ds :
  ds ∈ (collect_modules 0 modules []).*2 ↔ ∃ n, ds = declarations_of n modules ∧ ds ≠ [].
Proof.
  rewrite collect_modules_occurrences. change (concat _) with (occurrences modules). destruct (collected (occurrences modules)) as [Hwf Hg].
  rewrite list_elem_of_fmap. split.
  - intros ([n ds'] & -> & H). apply in_map_get in H; [|done]. rewrite Hg in H. exists n. unfold declarations_of. case_decide; naive_solver.
  - intros (n & -> & Hne). exists (n, declarations_of n modules). split; [done|]. apply map_get_in. by rewrite Hg, decide_False.
Qed.

Lemma NoDup_concat_imap {A B} (tag : B → nat) (g : nat → A → list B) l k :
  (∀ i x, l !! i = Some x → NoDup (g i x)) → (∀ i x y, y ∈ g i x → tag y = k + i)%nat → NoDup (concat (imap g l)).
Proof.
  intros Hg Ht. induction l as [|x l IH] in k, g, Hg, Ht |- *; [apply base.NoDup_nil_2|]. rewrite imap_cons. cbn [concat]. apply list.NoDup_app.
  split_and!; [by apply Hg| |apply (IH (g ∘ S) (S k)); [intros; by apply Hg|]].
  - intros y Hy (l' & Hl' & Hy')%elem_of_concat. apply elem_of_lookup_imap in Hl' as (i & x' & -> & _). apply Ht in Hy, Hy'. lia.
  - intros i x' y Hy. apply Ht in Hy. lia.
Qed.
Lemma in_occurrences modules n d : (n, d) ∈ occurrences modules ↔
  ∃ f s, modules !! decl_module d = Some f ∧ filename f = decl_file d ∧ file_body f !! decl_index d = Some s ∧ (n, decl_kind d) ∈ declares s.
Proof.
  unfold occurrences. rewrite elem_of_concat. split.
  - intros (l & Hl & Hd). apply elem_of_lookup_imap in Hl as (m & f & -> & Hf). apply elem_of_concat in Hd as (l & Hl & Hd).
    apply elem_of_lookup_imap in Hl as (i & s & -> & Hs). unfold occurrences_in in Hd. apply list_elem_of_fmap in Hd as ([n' k] & [= -> ->] & Hd).
    by exists f, s.
  - intros (f & s & Hf & Hn & Hs & Hd). eexists. split; [apply elem_of_lookup_imap; by exists (decl_module d), f|]. apply elem_of_concat.
    eexists. split; [apply elem_of_lookup_imap; by exists (decl_index d), s|]. apply list_elem_of_fmap. exists (n, decl_kind d). split; [|done].
    rewrite Hn. by destruct d.
Qed.

(** A program whose unifications have an instance as their value, which the type of the
    tree requires, and whose assignments of instances have one target. *)
Definition single (stmt : Stmt) : Prop :=
  match stmt with
  | SUnification _ value => match value with Schema _ _ _ _ => True | _ => False end
  | SAssign targets (Schema _ _ _ _) _ => (length targets ≤ 1)%nat
  | _ => True
  end.
Definition singles (modules : list SourceFile) : Prop := Forall (λ f, Forall single (file_body f)) modules.
Lemma single_declares s : single s → (length (declares s) ≤ 1)%nat.
Proof.
  destruct s as [| |[|n ns] v|ts v ty| | | | | | |]; try (cbn; lia). destruct v; try (cbn; lia). intros H. cbn in H |- *. rewrite length_fmap.
  etrans; [apply list.length_filter|done].
Qed.
Lemma singles_lookup modules m f i s : singles modules → modules !! m = Some f → file_body f !! i = Some s → single s.
Proof. intros H Hf Hs. eapply Forall_lookup_1 in H; [|done]. by eapply Forall_lookup_1 in H. Qed.
Definition position (d : Declaration) : nat * nat := (decl_module d, decl_index d).
Lemma same_position modules n d n' d' : singles modules → (n, d) ∈ occurrences modules → (n', d') ∈ occurrences modules →
  position d = position d' → n = n' ∧ d = d'.
Proof.
  intros Hm (f & s & Hf & Hn & Hs & Hd)%in_occurrences (f' & s' & Hf' & Hn' & Hs' & Hd')%in_occurrences [= Em Ei].
  rewrite <- Em in *. rewrite <- Ei in *. simplify_eq. pose proof (single_declares _ (singles_lookup _ _ _ _ _ Hm Hf Hs)) as Hl.
  destruct (declares s) as [|x [|y r]]; [by inversion Hd| |cbn in Hl; lia]. apply list_elem_of_singleton in Hd, Hd'. subst x. injection Hd' as -> Hk.
  split; [done|]. destruct d, d'; cbn in *; congruence.
Qed.
Lemma occurrences_NoDup modules : singles modules → NoDup (occurrences modules).
Proof.
  intros H. apply (NoDup_concat_imap (λ nd, decl_module nd.2) _ _ 0).
  - intros m f Hf. apply (NoDup_concat_imap (λ nd, decl_index nd.2) _ _ 0).
    + intros i s Hs. pose proof (single_declares _ (singles_lookup _ _ _ _ _ H Hf Hs)) as Hl. unfold occurrences_in.
      destruct (declares s) as [|x [|y r]]; [apply base.NoDup_nil_2|apply NoDup_singleton|cbn in Hl; lia].
    + intros i s [n d] ([n' k] & [= -> ->] & _)%list_elem_of_fmap. done.
  - intros m f [n d] (l & (i & s & -> & _)%elem_of_lookup_imap & ([n' k] & [= -> ->] & _)%list_elem_of_fmap)%elem_of_concat. done.
Qed.

Lemma counted_sublist n l : counted n l `sublist_of` (base.filter (λ nd, nd.1 = n) l).*2.
Proof.
  unfold counted. generalize ((base.filter (λ nd, nd.1 = n) l).*2). intros ds. destruct (is_private_field n).
  - induction ds as [|d ds IH]; [done|]. cbn [since_assigned]. destruct (forallb is_union ds); [done|]. by constructor.
  - destruct ds as [|d ds]; [done|]. constructor. induction ds as [|x ds IH]; [done|]. cbn [List.filter]. destruct (is_union x); by constructor.
Qed.
Lemma declared_occurrence n d modules : d ∈ declarations_of n modules → (n, d) ∈ occurrences modules.
Proof.
  intros H. eapply elem_of_sublist in H; [|apply counted_sublist]. apply list_elem_of_fmap in H as ([n' d'] & -> & H).
  apply list_elem_of_filter in H as [<- H]. done.
Qed.
Lemma declarations_NoDup n modules : singles modules → NoDup (declarations_of n modules).
Proof.
  intros H. eapply sublist_NoDup; [|apply counted_sublist]. apply NoDup_fmap_2_strong.
  - intros [n1 d1] [n2 d2] [E1 _]%list_elem_of_filter [E2 _]%list_elem_of_filter E. cbn in *. congruence.
  - apply list.NoDup_filter. by apply occurrences_NoDup.
Qed.
Lemma mapping_NoDup modules : singles modules → NoDup (collect_modules 0 modules []).*2.
Proof.
  intros H. rewrite collect_modules_occurrences. change (concat _) with (occurrences modules). destruct (collected (occurrences modules)) as [Hwf Hg].
  apply NoDup_fmap_2_strong; [|by eapply NoDup_fmap_1].
  assert (∀ x, x ∈ foldl add_declaration [] (occurrences modules) → x.2 = declarations_of x.1 modules ∧ x.2 ≠ []) as He.
  { intros [n ds] Hx%in_map_get; [|done]. rewrite Hg in Hx. case_decide; [done|]. injection Hx as <-. done. }
  intros [n ds] [n' ds'] [Hx Hne]%He [Hy _]%He E. cbn in *. rewrite <- E in Hy |- *. f_equal. destruct ds as [|d ds]; [done|].
  eapply same_position; [done| | |reflexivity]; apply declared_occurrence; [rewrite <- Hx|rewrite <- Hy]; by left.
Qed.

(** ** The merged program *)

Definition stmt_items (stmt : Stmt) : list Entry :=
  match stmt with
  | SUnification _ (Schema _ _ _ config) | SAssign _ (Schema _ _ _ config) _ => config_items config
  | _ => []
  end.
Definition with_items (items : list Entry) (stmt : Stmt) : Stmt :=
  match stmt with
  | SUnification t (Schema n a kw config) => SUnification t (Schema n a kw (set_config items config))
  | SAssign ts (Schema n a kw config) ty => SAssign ts (Schema n a kw (set_config items config)) ty
  | _ => stmt
  end.
Definition items_of (modules : list SourceFile) (d : Declaration) : list Entry :=
  default [] (f ← modules !! decl_module d; stmt_items <$> file_body f !! decl_index d).
Definition all_items (modules : list SourceFile) (ds : list Declaration) : list Entry := concat (items_of modules <$> ds).
(** What becomes of a statement: the last of the several declarations of a name receives the
    entries of all of them, the others vanish, and everything else is kept. *)
Definition merged_stmt (depth : nat) (modules : list SourceFile) (m i : nat) (stmt : Stmt) : list Stmt :=
  match declares stmt with
  | [] => [stmt]
  | (name, _) :: _ =>
      let ds := declarations_of name modules in
      if (1 <? length ds)%nat then
        if bool_decide (position <$> list.last ds = Some (m, i)) then [with_items (unify_config_entries depth (all_items modules ds)) stmt]
        else if bool_decide ((m, i) ∈ position <$> ds) then [] else [stmt]
      else [stmt]
  end.

Section Merge.
Context (depth : nat) (modules : list SourceFile) (Hm : singles modules).

Definition ends_at (m i : nat) (ds : list Declaration) : bool :=
  (1 <? length ds)%nat && bool_decide (position <$> list.last ds = Some (m, i)).
(** The program when the names of [P] are merged. *)
Definition rewritten (P : list (list Declaration)) (m i : nat) (s : Stmt) : Stmt :=
  match List.find (ends_at m i) P with
  | Some ds => with_items (unify_config_entries depth (all_items modules ds)) s
  | None => s
  end.
Definition view (P : list (list Declaration)) : list SourceFile :=
  imap (λ m f, MkFile (filename f) (imap (rewritten P m) (file_body f))) modules.
Definition known (P : list (list Declaration)) : Prop := ∀ ds, ds ∈ P → ∃ n, ds = declarations_of n modules ∧ ds ≠ [].

Lemma occurrence_fits n d s : (n, decl_kind d) ∈ declares s → single s →
  declared_items s (decl_kind d) = Ok (stmt_items s) ∧
  ∀ items, set_declared_items items s (decl_kind d) = Ok (with_items items s).
Proof.
  intros Hd Hs. destruct s as [| |[|x xs] v|ts v ty| | | | | | |]; try by inversion Hd.
  - apply list_elem_of_singleton in Hd as [= -> ->]. by destruct v.
  - destruct v; try by inversion Hd. apply list_elem_of_fmap in Hd as (t & [= -> ->] & _). done.
Qed.
Lemma declaring_view P n d : (n, d) ∈ occurrences modules → ∃ f s,
  modules !! decl_module d = Some f ∧ file_body f !! decl_index d = Some s ∧ (n, decl_kind d) ∈ declares s ∧ single s ∧
  declaring_file (view P) d = Some (MkFile (filename f) (imap (rewritten P (decl_module d)) (file_body f))).
Proof using Hm.
  intros (f & s & Hf & Hn & Hs & Hd)%in_occurrences. exists f, s. split_and!; try done; [by eapply singles_lookup|].
  unfold declaring_file, view. rewrite list_lookup_imap, Hf. cbn [fmap option_fmap option_map filename]. by rewrite bool_decide_true.
Qed.
(** The names merged so far leave the declarations of the others alone. *)
Lemma untouched P ds d : known (ds :: P) → ds ∉ P → d ∈ ds → List.find (ends_at (decl_module d) (decl_index d)) P = None.
Proof using Hm.
  intros Hk Hn Hd. destruct (List.find _ P) as [ds'|] eqn:E; [|done]. exfalso. apply find_some in E as [Hin E]. apply list_elem_of_In in Hin.
  apply andb_true_iff in E as [_ E%bool_decide_eq_true]. apply fmap_Some in E as (d' & Hl & E). apply last_Some_elem_of in Hl.
  destruct (Hk ds) as (n & -> & _); [by left|]. destruct (Hk ds') as (n' & -> & _); [by right|].
  destruct (same_position modules n d n' d') as [-> _]; [done|by apply declared_occurrence..|by rewrite <- E|]. done.
Qed.
Lemma merged_items_view P ds ds' : known (ds :: P) → ds ∉ P → (∀ d, d ∈ ds' → d ∈ ds) → merged_items (view P) ds' = Ok (all_items modules ds').
Proof using Hm.
  intros Hk Hn Hin. destruct (Hk ds) as (n & E & _); [by left|]. induction ds' as [|d ds' IH]; [done|]. cbn [merged_items].
  assert (d ∈ ds) as Hd by (apply Hin; by left).
  destruct (declaring_view P n d) as (f & s & Hf & Hs & Hdecl & Hsingle & ->); [apply declared_occurrence; by rewrite <- E|].
  cbn [file_body]. rewrite list_lookup_imap, Hs. cbn [fmap option_fmap option_map unwrap]. unfold rewritten at 1. rewrite (untouched P ds) by done.
  destruct (occurrence_fits n d s) as [Hi _]; [done..|]. cbn. rewrite Hi. cbn. rewrite IH by (intros; apply Hin; by right). cbn.
  unfold all_items. cbn [fmap list_fmap concat]. f_equal. f_equal. unfold items_of. by rewrite Hf; cbn; rewrite Hs.
Qed.
Lemma ends_at_position m i ds d : list.last ds = Some d → ends_at m i ds = (1 <? length ds)%nat && bool_decide (position d = (m, i)).
Proof. intros Hl. unfold ends_at. rewrite Hl. cbn. f_equal. apply bool_decide_ext. split; congruence. Qed.
Lemma rewritten_snoc P ds m i s : rewritten (P ++ [ds]) m i s =
  match List.find (ends_at m i) P with
  | Some _ => rewritten P m i s
  | None => if ends_at m i ds then with_items (unify_config_entries depth (all_items modules ds)) s else s
  end.
Proof.
  unfold rewritten. assert (List.find (ends_at m i) (P ++ [ds]) = match List.find (ends_at m i) P with Some x => Some x | None => if ends_at m i ds then Some ds else None end) as ->.
  { induction P as [|x P IH]; [done|]. cbn [app List.find]. by destruct (ends_at m i x). }
  destruct (List.find _ P); [done|]. by destruct (ends_at m i ds).
Qed.
Lemma rewritten_elsewhere P ds m i s : ends_at m i ds = false → rewritten (P ++ [ds]) m i s = rewritten P m i s.
Proof. intros H. rewrite rewritten_snoc, H. unfold rewritten. by destruct (List.find _ P). Qed.
Lemma merge_name_view P ds : known (ds :: P) → ds ∉ P → merge_name depth (view P) ds = Ok (view (P ++ [ds])).
Proof using Hm.
  intros Hk Hn. unfold merge_name. destruct (1 <? length ds)%nat eqn:El.
  2:{ f_equal. unfold view. apply imap_ext. intros m f _. cbn. f_equal. apply imap_ext. intros i s _. cbn.
      symmetry. apply rewritten_elsewhere. unfold ends_at. by rewrite El. }
  destruct (list.last ds) as [d|] eqn:Ed; [|by apply last_None in Ed; subst]. cbn [unwrap]. cbn.
  rewrite (merged_items_view P ds) by done. cbn. unfold write_items.
  assert (d ∈ ds) as Hd by by apply last_Some_elem_of.
  destruct (Hk ds) as (n & E & _); [by left|].
  destruct (declaring_view P n d) as (f & s & Hf & Hs & Hdecl & Hsingle & ->); [apply declared_occurrence; by rewrite <- E|].
  cbn [file_body filename]. rewrite list_lookup_imap, Hs. cbn [fmap option_fmap option_map].
  pose proof (untouched P ds d Hk Hn Hd) as Hu. assert (rewritten P (decl_module d) (decl_index d) s = s) as -> by (unfold rewritten; by rewrite Hu).
  destruct (occurrence_fits n d s) as [_ ->]; [done..|]. cbn. f_equal. apply list_eq. intros j.
  destruct (decide (j = decl_module d)) as [->|Hj].
  - rewrite list_lookup_insert_eq by (unfold view; rewrite length_imap; by eapply lookup_lt_Some).
    unfold view. rewrite list_lookup_imap, Hf. cbn. f_equal. f_equal. apply list_eq. intros i. destruct (decide (i = decl_index d)) as [->|Hi].
    + rewrite list_lookup_insert_eq by (rewrite length_imap; by eapply lookup_lt_Some). rewrite list_lookup_imap, Hs. cbn. f_equal.
      rewrite rewritten_snoc, Hu, (ends_at_position _ _ _ _ Ed), El, bool_decide_true by done. done.
    + rewrite list_lookup_insert_ne by done. rewrite !list_lookup_imap. destruct (file_body f !! i); [|done]. cbn. f_equal.
      symmetry. apply rewritten_elsewhere. rewrite (ends_at_position _ _ _ _ Ed), bool_decide_false, andb_false_r; [done|]. intros [=]; congruence.
  - rewrite list_lookup_insert_ne by done. unfold view. rewrite !list_lookup_imap. destruct (modules !! j); [|done]. cbn. do 2 f_equal.
    apply imap_ext. intros i x _. cbn. symmetry. apply rewritten_elsewhere. rewrite (ends_at_position _ _ _ _ Ed), bool_decide_false, andb_false_r; [done|].
    intros [=]; congruence.
Qed.
Lemma merge_names_view rest P : NoDup (P ++ rest) → known (P ++ rest) → merge_names depth rest (view P) = Ok (view (P ++ rest)).
Proof using Hm.
  induction rest as [|ds rest IH] in P |- *; intros Hnd Hk; [by rewrite app_nil_r|]. cbn [merge_names].
  rewrite merge_name_view; [| |].
  - cbn. rewrite IH, <- app_assoc; [done|by rewrite <- app_assoc..].
  - intros ds' H. apply Hk. apply elem_of_app. apply elem_of_cons in H as [->|H]; [right; by left|by left].
  - apply list.NoDup_app in Hnd as (_ & H & _). intros Hin. apply (H ds Hin). by left.
Qed.
Lemma view_nil : view [] = modules.
Proof.
  unfold view. apply list_eq. intros m. rewrite list_lookup_imap. destruct (modules !! m) as [[n b]|]; [|done]. cbn. do 2 f_equal.
  apply list_eq. intros i. rewrite list_lookup_imap. by destruct (b !! i).
Qed.
Lemma retain_imap i keep body (g : nat → Stmt → Stmt) :
  retain_from i keep (imap (λ j, g (i + j)%nat) body) = concat (imap (λ j s, if keep (i + j)%nat then [g (i + j)%nat s] else []) body).
Proof.
  induction body as [|s body IH] in i |- *; [done|]. rewrite !imap_cons. cbn [retain_from concat]. rewrite Nat.add_0_r.
  specialize (IH (S i)). rewrite (imap_shift (λ j, g j)) in IH. rewrite (imap_shift (λ j s, if keep j then [g j s] else [])) in IH.
  destruct (keep i); cbn [app]; [f_equal|]; exact IH.
Qed.
Lemma delete_imap mapping m ms : delete_redundant mapping m ms =
  imap (λ j f, MkFile (filename f) (retain_from 0 (λ i, negb (redundant mapping (m + j) (filename f) i)) (file_body f))) ms.
Proof.
  induction ms as [|f ms IH] in m |- *; [done|]. rewrite imap_cons. cbn [delete_redundant]. rewrite Nat.add_0_r. f_equal. rewrite IH.
  apply (imap_shift (λ j f, MkFile (filename f) (retain_from 0 (λ i, negb (redundant mapping j (filename f) i)) (file_body f)))).
Qed.
Lemma elem_of_removelast {A} (x : A) l : x ∈ removelast l → x ∈ l.
Proof. destruct l as [|y l]; intros H; [done|]. rewrite (app_removelast_last x (l := y :: l)) by done. apply elem_of_app. by left. Qed.
Lemma at_position n d m i f s : (n, d) ∈ occurrences modules → position d = (m, i) → modules !! m = Some f → file_body f !! i = Some s →
  (n, decl_kind d) ∈ declares s ∧ decl_file d = filename f.
Proof. intros (f' & s' & Hf' & Hn & Hs' & Hd)%in_occurrences [= <- <-] Hf Hs. by simplify_eq. Qed.
Lemma redundant_spec P m f i s : known P → modules !! m = Some f → file_body f !! i = Some s →
  redundant P m (filename f) i = true ↔ ∃ ds, ds ∈ P ∧ (m, i) ∈ position <$> removelast ds.
Proof.
  intros Hk Hf Hs. unfold redundant. rewrite existsb_exists. setoid_rewrite existsb_exists. setoid_rewrite <- list_elem_of_In.
  split.
  - intros (ds & Hds & d & Hd & E). exists ds. split; [done|]. apply list_elem_of_fmap. exists d. split; [|done].
    apply andb_true_iff in E as [E Ei%Nat.eqb_eq]. apply andb_true_iff in E as [_ Em%Nat.eqb_eq]. unfold position. congruence.
  - intros (ds & Hds & (d & E & Hd)%list_elem_of_fmap). exists ds. split; [done|]. exists d. split; [done|]. destruct (Hk ds Hds) as (n & Hn & Hne).
    destruct (at_position n d m i f s) as [_ Hfile]; [| done..|].
    { apply declared_occurrence. rewrite <- Hn. rewrite (app_removelast_last d Hne). apply elem_of_app. by left. }
    injection E as <- <-. rewrite bool_decide_true, !Nat.eqb_refl by done. done.
Qed.
Lemma find_position P m i ds : known P → List.find (ends_at m i) P = Some ds → ds ∈ P ∧ ends_at m i ds = true ∧ ∃ d, d ∈ ds ∧ position d = (m, i).
Proof.
  intros Hk [Hin%list_elem_of_In E]%find_some. split_and!; [done..|]. apply andb_true_iff in E as [_ E%bool_decide_eq_true].
  apply fmap_Some in E as (d & Hl & E). exists d. split; [by apply last_Some_elem_of|done].
Qed.
(** The fate of one statement. *)
Lemma stmt_fate m f i s : let mapping := (collect_modules 0 modules []).*2 in
  modules !! m = Some f → file_body f !! i = Some s →
  (if negb (redundant mapping m (filename f) i) then [rewritten mapping m i s] else []) = merged_stmt depth modules m i s.
Proof using Hm.
  intros mapping Hf Hs. assert (known mapping) as Hk by (intros ds Hds; by apply mapping_elements).
  assert (∀ ds d, ds ∈ mapping → d ∈ ds → position d = (m, i) → ∃ n k, declares s = [(n, k)] ∧ ds = declarations_of n modules) as Honly.
  { intros ds d Hds Hd Hp. destruct (Hk ds Hds) as (n & -> & _). destruct (at_position n d m i f s) as [Hn _]; [by apply declared_occurrence|done..|].
    pose proof (single_declares _ (singles_lookup _ _ _ _ _ Hm Hf Hs)) as Hl. destruct (declares s) as [|[n' k] [|y r]]; [by inversion Hn| |cbn in Hl; lia].
    apply list_elem_of_singleton in Hn. exists n', k. by injection Hn as -> _. }
  pose proof (redundant_spec mapping m f i s Hk Hf Hs) as Hr. unfold merged_stmt, rewritten.
  destruct (declares s) as [|[n k] r] eqn:Edecl.
  { destruct (redundant _ _ _ _).
    { destruct Hr as [(ds & Hds & (d & E & Hd)%list_elem_of_fmap) _]; [done|]. apply elem_of_removelast in Hd. by destruct (Honly ds d) as (? & ? & ? & _). }
    destruct (List.find _ _) eqn:E; [|done]. apply find_position in E as (Hds & _ & d & Hd & Hp); [|done]. by destruct (Honly _ d Hds Hd Hp) as (? & ? & ? & _). }
  set (ds := declarations_of n modules) in *.
  assert (List.find (ends_at m i) mapping = if ends_at m i ds then Some ds else None) as ->.
  { destruct (List.find _ _) as [ds'|] eqn:E.
    - apply find_position in E as (Hds & He & d & Hd & Hp); [|done]. destruct (Honly _ d Hds Hd Hp) as (n' & k' & [= <- <- ->] & ->). fold ds in He |- *. by rewrite He.
    - destruct (ends_at m i ds) eqn:Ee; [|done]. exfalso. assert (ds ∈ mapping) as Hin%list_elem_of_In.
      { apply mapping_elements. exists n. split; [done|]. intros Hnil. unfold ends_at in Ee. by rewrite Hnil in Ee. }
      pose proof (find_none _ _ E ds Hin) as H. congruence. }
  assert (redundant mapping m (filename f) i = bool_decide ((m, i) ∈ position <$> removelast ds)) as ->.
  { apply eq_true_iff_eq. rewrite bool_decide_eq_true, Hr. split.
    - intros (ds' & Hds & Hin). pose proof Hin as (d & E & Hd%elem_of_removelast)%list_elem_of_fmap. destruct (Honly ds' d) as (n' & k' & [= <- <- ->] & ->); done.
    - intros Hin. exists ds. split; [|done]. apply mapping_elements. exists n. split; [done|]. intros Hnil. rewrite Hnil in Hin. by inversion Hin. }
  unfold ends_at. destruct (1 <? length ds)%nat eqn:El; cbn [andb].
  2:{ apply Nat.ltb_ge in El. rewrite bool_decide_false; [done|]. destruct ds as [|d [|d' l]]; cbn in El |- *; [by intros H; inversion H..|lia]. }
  destruct (list.last ds) as [d|] eqn:Ed; [|by apply last_None in Ed; rewrite Ed in El].
  apply last_Some in Ed as [l Ed]. pose proof (declarations_NoDup n modules Hm) as Hnd. fold ds in Hnd. rewrite Ed in Hnd |- *. rewrite removelast_last.
  cbn [fmap option_fmap option_map]. rewrite fmap_app. cbn [fmap list_fmap].
  assert (∀ d', d' ∈ l → position d' ≠ position d) as Hpos.
  { intros d' Hd' E. apply list.NoDup_app in Hnd as (_ & Hnd & _). apply (Hnd d' Hd').
    destruct (same_position modules n d' n d) as [_ ->]; [done|apply declared_occurrence; fold ds; rewrite Ed; apply elem_of_app; rewrite ?list_elem_of_singleton; by eauto..|done|by apply list_elem_of_singleton]. }
  destruct (decide (position d = (m, i))) as [Hp|Hp].
  - rewrite (bool_decide_false ((m, i) ∈ _)); [|intros (d' & E & Hd')%list_elem_of_fmap; apply (Hpos d' Hd'); congruence].
    rewrite bool_decide_true by congruence. done.
  - rewrite (bool_decide_false (Some _ = _)) by congruence.
    assert (bool_decide ((m, i) ∈ position <$> l) = bool_decide ((m, i) ∈ (position <$> l) ++ [position d])) as ->; [|by destruct (bool_decide _)].
    apply bool_decide_ext. rewrite elem_of_app, list_elem_of_singleton. naive_solver.
Qed.
Lemma merged_program : merge_program depth modules =
  Ok (imap (λ m f, MkFile (filename f) (concat (imap (merged_stmt depth modules m) (file_body f)))) modules).
Proof using Hm.
  unfold merge_program. set (mapping := (collect_modules 0 modules []).*2). rewrite <- view_nil at 1. rewrite merge_names_view.
  - cbn [mbind app]. cbn. f_equal. rewrite delete_imap. apply list_eq. intros m. rewrite !list_lookup_imap. unfold view. rewrite list_lookup_imap.
    destruct (modules !! m) as [f|] eqn:Hf; [|done]. cbn. do 2 f_equal. etrans; [apply (retain_imap 0)|]. f_equal. apply imap_ext. intros i s Hs. cbn. by apply stmt_fate.
  - by apply mapping_NoDup.
  - intros ds Hds. by apply mapping_elements.
Qed.
End Merge.


(** C7: The unified entries of a configuration, to a depth that exceeds its own: the names keep
    the order of their first entries, each name has its entries since its last override with
    their configurations unified likewise, unifying again changes nothing, and more depth
    makes no difference. *)
Theorem unify_config_entries_spec depth l : (entries_depth l < depth)%nat →
  names_of (unify_config_entries depth l) = names_of l ∧
  (∀ k, named k (unify_config_entries depth l) = with_value (unify_config_entries depth) <$> effective (named k l)) ∧
  unify_config_entries depth (unify_config_entries depth l) = unify_config_entries depth l ∧
  ∀ depth', (depth ≤ depth')%nat → unify_config_entries depth' l = unify_config_entries depth l.
Proof.
  intros Hd. split_and!; [apply unify_names| |apply unify_idem|intros; by apply unify_depth].
  intros k. destruct depth as [|depth]; [lia|]. rewrite unify_named. apply list_fmap_ext.
  intros i e He%list_elem_of_lookup_2%effective_in. apply list_elem_of_filter in He as [_ He%entry_depth].
  apply with_value_ext. intros l' Hl'. symmetry. apply unify_depth. lia.
Qed.

(** ** Samples *)

Definition sample_entry (k : string) (v : Expr) (op : ConfigEntryOperation) : Entry := MkEntry (Some (IdentifierExpr [intern k])) v op.
Definition sample_number (n : Z) : Expr := NumberLit None (Int n).
Definition sample_instance (items : list Entry) : Expr := Schema [intern "Server"] [] [] (Config items).
(** Two files of a package that declare [app]. *)
Definition sample_files : list SourceFile :=
  [MkFile "base.k" [SUnification [intern "app"] (sample_instance [sample_entry "port" (sample_number 80) Union; sample_entry "name" (sample_number 1) Union]);
                    SExpr [sample_number 0]];
   MkFile "prod.k" [SUnification [intern "app"] (sample_instance [sample_entry "port" (sample_number 443) Override])]].
Lemma unify_config_entries_spec_witness :
  let l := [sample_entry "a" (sample_number 1) Union; sample_entry "b" (Config [sample_entry "c" (sample_number 2) Union]) Union;
            sample_entry "a" (sample_number 3) Override] in
  named (intern "a") (unify_config_entries 2 l) = [sample_entry "a" (sample_number 3) Override].
Proof.
  intros l. assert (entries_depth l < 2)%nat as H by (vm_compute; lia).
  destruct (unify_config_entries_spec 2 l H) as (_ & Hk & _). rewrite Hk. vm_compute. reflexivity.
Defined.
(** An assignment to two names loses one of them when the other is declared again. *)
Example shared_assignment_deleted :
  let name s := MkTarget (intern s) [] in
  merge_program 3 [MkFile "main.k" [SAssign [name "a"; name "b"] (sample_instance []) None; SUnification [intern "a"] (sample_instance [])]] =
  Ok [MkFile "main.k" [SUnification [intern "a"] (sample_instance [])]].
Proof. reflexivity. Qed.
(** The override of a computed key drops the unnamed entries before it, here an unpacked
    configuration. *)
Example computed_override_drops :
  unify_config_entries 2 [MkEntry None (Starred (IdentifierExpr [intern "base"])) Union; MkEntry (Some (sample_number 1)) (sample_number 2) Override] =
  [MkEntry (Some (sample_number 1)) (sample_number 2) Override].
Proof. reflexivity. Qed.
