(* ===== verification/Override.v ===== *)
(** * Queries: overrides of programs

    [crates/query/src/override.rs] and [path.rs]: an override such as [app.image=nginx], the
    option [-O] of the command line, is parsed into a path, a value and an operation, and
    rewrites the module: [replace_config_with_path_parts] replaces, unifies, appends or
    deletes the entries of a configuration at a path, [OverrideTransformer] finds the
    configuration in the module.  Below [ast/path.rs], the paths of keys and targets, and
    [ast/config.rs].

    The lines of nodes, which [AstNodeMover] moves when imports are added, are not part of
    the tree.  Writing the changed files is left out. *)

From stdpp Require Import base tactics list strings numbers pretty.
From Stdlib Require Import ZArith Lia Floats.
From S2P Require Import Prelude Token Ast Preprocess Desugar.
From S2P Require SemaTypes.
Local Set Warnings "-clear-no-such-hyp".

(** ** Paths *)

Inductive Error := InvalidSpec (spec : Symbol) | InvalidImportPath (path : Symbol) | ExpectedClosing | ExpectedQuote | UnmatchedClosing.

(** A character, by its code point. *)
Definition chr (s : string) : Z := default 0%Z (head (intern s)).
Definition quote_char (c : Z) : bool := Z.eqb c 34 || Z.eqb c 39.
Definition push_part (current : Symbol) (parts : list Symbol) : list Symbol :=
  match current with [] => parts | _ => parts ++ [current] end.
Fixpoint path_loop (in_brackets : bool) (current : Symbol) (parts : list Symbol) (chars : Symbol) : Error + list Symbol :=
  match chars with
  | [] => inr (push_part current parts)
  | ch :: chars =>
      if in_brackets then
        if quote_char ch then
          match chars with
          | c :: chars' => if Z.eqb c 93 then path_loop false current parts chars' else inl ExpectedClosing
          | [] => inl ExpectedClosing
          end
        else path_loop true (current ++ [ch]) parts chars
      else if Z.eqb ch 46 then path_loop false [] (push_part current parts) chars
      else if Z.eqb ch 91 then
        match chars with
        | c :: chars' => if quote_char c then path_loop true [] (push_part current parts) chars' else inl ExpectedQuote
        | [] => inr (push_part current parts)
        end
      else if Z.eqb ch 93 then inl UnmatchedClosing
      else path_loop false (current ++ [ch]) parts chars
  end.
Definition parse_attribute_path (path : Symbol) : Error + list Symbol := path_loop false [] [] path.

(** [ast/path.rs] *)
Definition get_key_path (key : option Expr) : Symbol :=
  match key with
  | Some (IdentifierExpr names) => identifier_name names
  | Some (StringLitExpr lit) => value lit
  | _ => []
  end.
Definition get_key_parts (key : option Expr) : list Symbol :=
  match key with
  | Some (IdentifierExpr names) => names
  | Some (StringLitExpr lit) => [value lit]
  | _ => []
  end.
Definition UnaryOp_symbol (op : UnaryOp) : string :=
  match op with UAdd => "+" | USub => "-" | Invert => "~" | Not => "not" end.

(** [ast/config.rs]: the entries of a configuration or an instance, and the expression with
    other entries. *)
Definition try_get_config_expr (e : Expr) : option (list Entry) :=
  match e with
  | Schema _ _ _ (Config items) | Config items => Some items
  | _ => None
  end.
Definition set_config_expr (items : list Entry) (e : Expr) : Expr :=
  match e with
  | Schema name args kwargs (Config _) => Schema name args kwargs (Config items)
  | Config _ => Config items
  | _ => e
  end.

(** ** Specifications of overrides *)

Inductive OverrideAction := Delete | CreateOrUpdate.
#[export] Instance OverrideAction_eq_dec : EqDecision OverrideAction.
Proof. solve_decision. Defined.
Record OverrideSpec := MkSpec {
  field_path : Symbol; field_value : Symbol; spec_action : OverrideAction; spec_operation : ConfigEntryOperation }.

(** The functions of libraries that the code relies on: the white space of Unicode; the number
    of characters of the first match of the regular expression for a string in the quotes
    given; [Debug] and [Display] of strings and floats; and the parser of expressions. *)
Class Library := {
  is_whitespace : Z → bool;
  quoted_match : Z → Symbol → option nat;
  debug : Symbol → Symbol;
  float_text : float → Symbol;
  parse_expr : Symbol → Res (option Expr);
}.

Section Spec.
Context {LIB : Library}.

Fixpoint trim_left (s : Symbol) : Symbol :=
  match s with c :: s' => if is_whitespace c then trim_left s' else s | [] => [] end.
Definition trim (s : Symbol) : Symbol := rev (trim_left (rev (trim_left s))).

(** The loop over the index of a character; [stack] holds the open brackets. *)
Fixpoint split_loop (fuel i : nat) (stack : list Z) (spec : Symbol) : option (Symbol * Symbol * ConfigEntryOperation) :=
  match fuel with
  | O => None
  | S fuel =>
      match spec !! i with
      | None => None
      | Some c =>
          let empty := match stack with [] => true | _ => false end in
          if Z.eqb c 61 && empty then Some (take i spec, drop (S i) spec, Override)
          else if Z.eqb c 58 && empty then Some (take i spec, drop (S i) spec, Union)
          else if Z.eqb c 43 && empty then
            if bool_decide (spec !! S i = Some 61%Z) then Some (take i spec, drop (S (S i)) spec, Insert)
            else split_loop fuel (S i) stack spec
          else if Z.eqb c 91 || Z.eqb c 123 then split_loop fuel (S i) (c :: stack) spec
          else if Z.eqb c 93 || Z.eqb c 125 then split_loop fuel (S i) (tail stack) spec
          else if quote_char c then
            match quoted_match c (drop i spec) with
            | Some count => split_loop fuel (S (i + (count - 1))) stack spec
            | None => split_loop fuel (S i) stack spec
            end
          else split_loop fuel (S i) stack spec
      end
  end.
Definition split_override_spec_op (spec : Symbol) : option (Symbol * Symbol * ConfigEntryOperation) :=
  split_loop (S (length spec)) 0 [] spec.
Definition strip_minus (spec : Symbol) : option Symbol :=
  match rev spec with c :: rest => if Z.eqb c 45 then Some (rev rest) else None | [] => None end.
Definition parse_override_spec (spec : Symbol) : Error + OverrideSpec :=
  match split_override_spec_op spec with
  | Some (path, value, operation) =>
      match trim path, trim value with
      | [], _ | _, [] => inl (InvalidSpec spec)
      | field_path, field_value => inr (MkSpec field_path field_value CreateOrUpdate operation)
      end
  | None =>
      match strip_minus spec with
      | Some stripped =>
          match trim stripped with
          | [] => inl (InvalidSpec spec)
          | field_path => inr (MkSpec field_path [] Delete Override)
          end
      | None => inl (InvalidSpec spec)
      end
  end.

(** [a=-1] and [a=x-y] are strings. *)
Definition build_expr_from_string (value : Symbol) : Res (option Expr) :=
  expr ← parse_expr value;
  Ok match expr with
     | Some (Unary _ _) | Some (Binary _ _ _) => Some (StringLitExpr (MkStringLit false value (debug value)))
     | _ => expr
     end.

(** [get_target_path] *)
Definition number_to_string (suffix : option NumberBinarySuffix) (v : NumberLitValue) : Symbol :=
  match v with Int v => intern (pretty v) | FloatLit v => float_text v end ++ default [] suffix.
Definition path_text (p : MemberOrIndex Expr) : Symbol :=
  match p with
  | Member member => intern "." ++ member
  | Index index =>
      intern "[" ++
      match index with
      | Unary op (NumberLit suffix v) => intern (UnaryOp_symbol op) ++ number_to_string suffix v
      | NumberLit suffix v => number_to_string suffix v
      | StringLitExpr lit => debug (value lit)
      | _ => intern "..."
      end ++ intern "]"
  end.
Definition get_target_path (t : Target Expr) : Symbol := target_name t ++ (paths t ≫= path_text).
End Spec.

(** ** Edits of a configuration *)

(** The new value of an entry at the end of the path and whether it changed; [merge] merges
    the entries of [value] into a configuration. *)
Definition update_value (merge : list Entry → list Entry * bool) (op : ConfigEntryOperation) (value old : Expr) (changed : bool) : Expr * bool :=
  match op with
  | Union =>
      match value with
      | Config _ =>
          match try_get_config_expr old with
          | Some items => let (items, changed) := merge items in (set_config_expr items old, changed)
          | None => (old, changed)
          end
      | Schema merged_name _ _ merged_config =>
          match old, merged_config with
          | Schema name _ _ (Config items), Config _ =>
              if bool_decide (identifier_name name = identifier_name merged_name) then
                let (items, changed) := merge items in (set_config_expr items old, changed)
              else (old, changed)
          | _, _ => (old, changed)
          end
      | _ => (value, true)
      end
  | Insert =>
      match value, old with
      | ListExpr inserted, ListExpr elts => (ListExpr (elts ++ inserted), true)
      | _, _ => (old, changed)
      end
  | Override => (value, true)
  end.
(** The loop over the entries: [edit] rewrites the value of a matching one. *)
Fixpoint edit_entries (part : Symbol) (edit : Expr → bool → Expr * bool) (items : list Entry) (changed : bool) : list Entry * bool :=
  match items with
  | [] => ([], changed)
  | item :: items =>
      if bool_decide (part = get_key_path (key item)) then
        let (v, changed) := edit (entry_value item) changed in
        let (items, changed) := edit_entries part edit items changed in
        (MkEntry (key item) v (operation item) :: items, changed)
      else let (items, changed) := edit_entries part edit items changed in (item :: items, changed)
  end.
(** An entry whose path goes on is edited in its configuration. *)
Definition edit_inside (replace : list Entry → list Entry * bool) (old : Expr) (changed : bool) : Expr * bool :=
  match try_get_config_expr old with
  | Some items => let (items, changed) := replace items in (set_config_expr items old, changed)
  | None => (old, changed)
  end.
(** [replace_config_with_path_parts] for [CreateOrUpdate] with a value, by recursion on the
    value and then on the parts: merging calls it with the entries of the value. *)
Fixpoint replace_parts (value : Expr) : ConfigEntryOperation → list Symbol → list Entry → list Entry * bool :=
  let merge (config : list Entry) : list Entry * bool :=
    let merge_items := fix merge_items (merged config : list Entry) (changed : bool) {struct merged} : list Entry * bool :=
      match merged with
      | [] => (config, changed)
      | item :: merged =>
          match get_key_parts (key item) with
          | [] => merge_items merged (config ++ [item]) true
          | parts =>
              let (config, c) := replace_parts (entry_value item) (operation item) parts config in
              merge_items merged config (changed || c)
          end
      end in
    match value with
    | Config merged | Schema _ _ _ (Config merged) => merge_items merged config false
    | _ => (config, false)
    end in
  fix replace (op : ConfigEntryOperation) (parts : list Symbol) (config : list Entry) {struct parts} : list Entry * bool :=
    match parts with
    | [] => (config, false)
    | part :: rest =>
        let edit := match rest with
                    | [] => update_value merge op value
                    | _ => edit_inside (replace op rest)
                    end in
        let (config, changed) := edit_entries part edit config false in
        if (changed : bool) then (config, true) else (config ++ [MkEntry (Some (IdentifierExpr parts)) value op], true)
    end.
Fixpoint delete_parts (parts : list Symbol) (config : list Entry) : list Entry * bool :=
  match parts with
  | [] => (config, false)
  | [part] =>
      let kept := List.filter (λ item, negb (bool_decide (part = get_key_path (key item)))) config in
      (kept, negb (length kept =? length config)%nat)
  | part :: rest => edit_entries part (edit_inside (delete_parts rest)) config false
  end.
Definition replace_config_with_path_parts (config : list Entry) (parts : list Symbol) (action : OverrideAction)
    (op : ConfigEntryOperation) (value : option Expr) : list Entry * bool :=
  match action, value with
  | Delete, _ => delete_parts parts config
  | CreateOrUpdate, Some value => replace_parts value op parts config
  | CreateOrUpdate, None => (config, false)
  end.
Fixpoint merge_loop (action : OverrideAction) (merged config : list Entry) (changed : bool) : list Entry * bool :=
  match merged with
  | [] => (config, changed)
  | item :: merged =>
      match get_key_parts (key item) with
      | [] => merge_loop action merged (config ++ [item]) true
      | parts =>
          let (config, c) := replace_config_with_path_parts config parts action (operation item) (Some (entry_value item)) in
          merge_loop action merged config (changed || c)
      end
  end.
Definition merge_config_expr (config merged : list Entry) (action : OverrideAction) : list Entry * bool :=
  merge_loop action merged config false.

(** ** Imports *)

(** The text under which an import counts as present.  Without a name the source takes
    [rawpath], which the parser sets to a copy of the path ([parse_import_stmt]): the
    syntax trees of the model keep one of the two. *)
Definition import_text (s : Stmt) : list Symbol :=
  match s with
  | SImport path _ (Some asname) => [path ++ intern " as " ++ asname]
  | SImport path _ None => [path]
  | _ => []
  end.
(** [path.split('.').next_back()] *)
Fixpoint last_segment (acc path : Symbol) : Symbol :=
  match path with [] => acc | c :: path => if Z.eqb c 46 then last_segment [] path else last_segment (acc ++ [c]) path end.
(** The index of a path is that of its statement; [Vec::insert] panics behind the end. *)
Fixpoint insert_imports (exist_import_set : list Symbol) (i : nat) (import_paths : list Symbol) (body : list Stmt) : Res (list Stmt) :=
  match import_paths with
  | [] => Ok body
  | path :: import_paths =>
      if bool_decide (path ∈ exist_import_set) then insert_imports exist_import_set (S i) import_paths body
      else if (i <=? length body)%nat then
        insert_imports exist_import_set (S i) import_paths (insert_at i (SImport path (last_segment [] path) None) body)
      else Panic IndexOutOfBounds
  end.
Definition apply_import_paths_on_module (body : list Stmt) (import_paths : list Symbol) : Res (list Stmt) :=
  match import_paths with
  | [] => Ok body
  | _ => insert_imports (body ≫= import_text) 0 import_paths body
  end.

(** ** The transformer *)

Record OverrideTransformer := MkTransformer {
  target_id : Symbol; field_paths : list Symbol; override_value : option Expr;
  action : OverrideAction; op : ConfigEntryOperation }.
(** The fields that the walk changes. *)
Record State := MkState { has_override : bool; override_target_count : nat }.
Definition OM (A : Type) : Type := State → Res (A * State).
#[export] Instance OM_ret : MRet OM := λ A a st, Ok (a, st).
#[export] Instance OM_bind : MBind OM := λ A B f m st,
  match m st with Ok (a, st) => f a st | Panic p => Panic p end.
Definition lift {A} (r : Res A) : OM A := λ st, a ← r; Ok (a, st).
Definition get_state : OM State := λ st, Ok (st, st).
Definition set_override (b : bool) : OM () := λ st, Ok ((), MkState b (override_target_count st)).
Definition set_target_count (n : nat) : OM () := λ st, Ok ((), MkState (has_override st) n).
Fixpoint map_walk {A} (f : A → OM A) (l : list A) : OM (list A) :=
  match l with
  | [] => mret []
  | x :: l => x ← f x; l ← map_walk f l; mret (x :: l)
  end.
Definition if_walk {A} (f : A → OM A) (o : option A) : OM (option A) :=
  match o with Some x => x ← f x; mret (Some x) | None => mret None end.

Section Transformer.
Context (t : OverrideTransformer).

Definition clone_override_value : Res Expr :=
  match override_value t with Some v => Ok v | None => SemaTypes.bug "Override value is None" end.
Definition first_name (names : Identifier) : Res Symbol :=
  match names with name :: _ => Ok name | [] => SemaTypes.bug "Invalid AST unification target names []" end.
Definition lookup_config_and_replace (config : list Entry) : list Entry * bool :=
  replace_config_with_path_parts config (field_paths t) (action t) (op t) (override_value t).
(** The entry that is appended where the path is not found. *)
Definition override_entry (value : Expr) : Entry := MkEntry (Some (IdentifierExpr (field_paths t))) value (op t).

(** [walk_schema_expr] and [walk_config_expr] do not walk further. *)
Definition walk_schema_config (config : Expr) : OM Expr :=
  st ← get_state;
  if has_override st || (override_target_count st =? 0)%nat then mret config
  else
    config ← match config with
             | Config items =>
                 let (items, found) := lookup_config_and_replace items in
                 if (found : bool) then set_override true;; mret (Config items)
                 else if bool_decide (action t = CreateOrUpdate) then
                   value ← lift clone_override_value;
                   set_override true;; mret (Config (items ++ [override_entry value]))
                 else mret (Config items)
             | _ => mret config
             end;
    set_target_count 0;; mret config.
Definition walk_config_expr (items : list Entry) : OM (list Entry) :=
  st ← get_state;
  if has_override st then mret items
  else
    let (items, found) := lookup_config_and_replace items in
    if (found : bool) then set_override true;; set_target_count 0;; mret items else mret items.

(** The default traversal, in the order of [walker.rs]; conditional statements, schemas and
    lambdas are not entered. *)
Definition walk_keyword (walk_expr : Expr → OM Expr) (k : Keyword Expr) : OM (Keyword Expr) :=
  v ← if_walk walk_expr (kw_value k); mret (MkKeyword (kw_arg k) v).
Definition walk_call_expr (walk_expr : Expr → OM Expr) (c : CallExpr Expr) : OM (CallExpr Expr) :=
  f ← walk_expr (func c); l ← map_walk walk_expr (args c); ks ← map_walk (walk_keyword walk_expr) (keywords c); mret (MkCall f l ks).
Definition walk_check_expr (walk_expr : Expr → OM Expr) (c : CheckExpr Expr) : OM (CheckExpr Expr) :=
  t ← walk_expr (test c); i ← if_walk walk_expr (if_cond c); m ← if_walk walk_expr (msg c); mret (MkCheck t i m).
Definition walk_comp_clause (walk_expr : Expr → OM Expr) (c : CompClause Expr) : OM (CompClause Expr) :=
  i ← walk_expr (iter c); l ← map_walk walk_expr (ifs c); mret (MkClause (targets c) i l).
Definition walk_arguments (walk_expr : Expr → OM Expr) (a : Arguments_ Expr) : OM (Arguments_ Expr) :=
  d ← map_walk (if_walk walk_expr) (defaults a); mret (MkArguments (arg_names a) d (ty_list a)).
Definition walk_path (walk_expr : Expr → OM Expr) (p : MemberOrIndex Expr) : OM (MemberOrIndex Expr) :=
  match p with Member name => mret (Member name) | Index index => i ← walk_expr index; mret (Index i) end.
Definition walk_target (walk_expr : Expr → OM Expr) (t : Target Expr) : OM (Target Expr) :=
  p ← map_walk (walk_path walk_expr) (paths t); mret (MkTarget (target_name t) p).
(** Entries of conditional configurations and of comprehensions: the key, then the value. *)
Definition walk_parts (walk_expr : Expr → OM Expr) (e : Entry) : OM Entry :=
  k ← if_walk walk_expr (key e); v ← walk_expr (entry_value e); mret (MkEntry k v (operation e)).
Definition walk_schema_attr (walk_expr : Expr → OM Expr) (a : SchemaAttr Expr) : OM (SchemaAttr Expr) :=
  d ← map_walk (walk_call_expr walk_expr) (attr_decorators _ a); v ← if_walk walk_expr (attr_value _ a);
  mret (MkAttr (attr_name _ a) (attr_ty _ a) (attr_op _ a) v (is_optional _ a) d).
Definition walk_rule_stmt (walk_expr : Expr → OM Expr) (r : RuleStmt Expr) : OM (RuleStmt Expr) :=
  d ← map_walk (walk_call_expr walk_expr) (rule_decorators _ r); c ← map_walk (walk_check_expr walk_expr) (rule_checks _ r);
  a ← if_walk (walk_arguments walk_expr) (rule_args _ r);
  mret (MkRule (rule_doc _ r) (rule_name _ r) (parent_rules _ r) d c a (rule_for_host_name _ r)).
Fixpoint walk_expr (e : Expr) : OM Expr :=
  match e with
  | Unary op operand => e ← walk_expr operand; mret (Unary op e)
  | Binary l op r => l ← walk_expr l; r ← walk_expr r; mret (Binary l op r)
  | If body cond orelse => c ← walk_expr cond; b ← walk_expr body; o ← walk_expr orelse; mret (If b c o)
  | Selector value attr q => v ← walk_expr value; mret (Selector v attr q)
  | Call call => c ← walk_call_expr walk_expr call; mret (Call c)
  | ParenExpr expr => e ← walk_expr expr; mret (ParenExpr e)
  | Quant target variables op test if_cond =>
      target ← walk_expr target; test ← walk_expr test; i ← if_walk walk_expr if_cond; mret (Quant target variables op test i)
  | ListExpr elts => l ← map_walk walk_expr elts; mret (ListExpr l)
  | ListIfItem if_cond exprs orelse =>
      c ← walk_expr if_cond; l ← map_walk walk_expr exprs; o ← if_walk walk_expr orelse; mret (ListIfItem c l o)
  | ListComp elt generators => e ← walk_expr elt; g ← map_walk (walk_comp_clause walk_expr) generators; mret (ListComp e g)
  | Starred value => v ← walk_expr value; mret (Starred v)
  | DictComp entry generators =>
      e ← walk_parts walk_expr entry; g ← map_walk (walk_comp_clause walk_expr) generators; mret (DictComp e g)
  | ConfigIfEntry if_cond items orelse =>
      c ← walk_expr if_cond; l ← map_walk (walk_parts walk_expr) items; o ← if_walk walk_expr orelse; mret (ConfigIfEntry c l o)
  | Schema name args kwargs config => c ← walk_schema_config config; mret (Schema name args kwargs c)
  | Config items => l ← walk_config_expr items; mret (Config l)
  | Check check => c ← walk_check_expr walk_expr check; mret (Check c)
  | Subscript value index lower upper step q =>
      v ← walk_expr value; i ← if_walk walk_expr index; l ← if_walk walk_expr lower; u ← if_walk walk_expr upper;
      s ← if_walk walk_expr step; mret (Subscript v i l u s q)
  | Compare l ops comparators => l ← walk_expr l; r ← map_walk walk_expr comparators; mret (Compare l ops r)
  | JoinedString long raw_value values => l ← map_walk walk_expr values; mret (JoinedString long raw_value l)
  | FormattedValue value format_spec => v ← walk_expr value; mret (FormattedValue v format_spec)
  | IdentifierExpr _ | Lambda _ _ _ | NumberLit _ _ | StringLitExpr _ | NameConstantLit _ | Missing => mret e
  end.
Definition is_target (target : Target Expr) : bool :=
  match paths target with [] => bool_decide (target_name target = target_id t) | _ => false end.
Definition walk_stmt (s : Stmt) : OM Stmt :=
  match s with
  | SExpr exprs => l ← map_walk walk_expr exprs; mret (SExpr l)
  | SUnification target value =>
      st ← get_state;
      if has_override st then mret s
      else
        name ← lift (first_name target);
        match field_paths t with
        | [] => mret s
        | _ =>
            if bool_decide (name = target_id t) then set_target_count 1;; v ← walk_expr value; mret (SUnification target v)
            else mret s
        end
  | SAssign targets value ty =>
      st ← get_state;
      if has_override st then mret s
      else
        match value with
        | Schema _ _ _ _ | Config _ =>
            let count := length (List.filter is_target targets) in
            set_target_count count;;
            if (count =? 0)%nat then mret s else v ← walk_expr value; mret (SAssign targets v ty)
        | _ => mret s
        end
  | SAugAssign target op value => target ← walk_target walk_expr target; v ← walk_expr value; mret (SAugAssign target op v)
  | SAssert test if_cond msg =>
      test ← walk_expr test; i ← if_walk walk_expr if_cond; m ← if_walk walk_expr msg; mret (SAssert test i m)
  | SSchemaAttr attr => a ← walk_schema_attr walk_expr attr; mret (SSchemaAttr a)
  | SRule rule => r ← walk_rule_stmt walk_expr rule; mret (SRule r)
  | STypeAlias _ _ | SImport _ _ _ | SIf _ _ _ | SSchema _ => mret s
  end.
End Transformer.

(** *** Whole modules *)

Section Module_.
Context {LIB : Library} (t : OverrideTransformer).

Definition config_items_of (value : Expr) : list Entry := default [] (try_get_config_expr value).
(** [override_top_level_stmt] on the value of a statement: the flag is only assigned where the
    value is edited. *)
Definition override_top_level_stmt (old : Expr) : OM Expr :=
  value ← lift (clone_override_value t);
  st ← get_state;
  let (v, b) := update_value (λ items, merge_config_expr items (config_items_of value) (action t)) (op t) value old (has_override st) in
  set_override b;; mret v.
(** A unification only takes instances. *)
Definition override_unification (old : Expr) : OM Expr :=
  value ← lift (clone_override_value t);
  st ← get_state;
  match op t, value with
  | Union, Config merged =>
      match old with
      | Schema name args kwargs (Config items) =>
          let (items, b) := merge_config_expr items merged (action t) in set_override b;; mret (Schema name args kwargs (Config items))
      | _ => mret old
      end
  | Union, Schema merged_name _ _ merged_config =>
      match old, merged_config with
      | Schema name args kwargs (Config items), Config merged =>
          if bool_decide (identifier_name name = identifier_name merged_name) then
            let (items, b) := merge_config_expr items merged (action t) in set_override b;; mret (Schema name args kwargs (Config items))
          else mret old
      | _, _ => mret old
      end
  | (Insert | Override), Schema _ _ _ _ => set_override true;; mret value
  | _, _ => mret old
  end.
Definition update_stmt (s : Stmt) : OM Stmt :=
  match field_paths t with
  | [] =>
      match s with
      | SAssign [target] value ty =>
          if bool_decide (get_target_path target = target_id t) then v ← override_top_level_stmt value; mret (SAssign [target] v ty)
          else mret s
      | SAugAssign target op value =>
          if bool_decide (get_target_path target = target_id t) then v ← override_top_level_stmt value; mret (SAugAssign target op v)
          else mret s
      | SUnification target value =>
          name ← lift (first_name target);
          if bool_decide (name = target_id t) then v ← override_unification value; mret (SUnification target v) else mret s
      | _ => mret s
      end
  | _ => mret s
  end.
(** Whether the statement is kept. *)
Definition retain_stmt (s : Stmt) : OM bool :=
  let no_path := match field_paths t with [] => true | _ => false end in
  match s with
  | SAssign [target] _ _ =>
      if no_path && bool_decide (get_target_path target = target_id t) then set_override true;; mret false else mret true
  | SUnification target _ =>
      name ← lift (first_name target);
      if bool_decide (name = target_id t) && no_path then set_override true;; mret false else mret true
  | _ => mret true
  end.
Fixpoint retain_body (body : list Stmt) : OM (list Stmt) :=
  match body with
  | [] => mret []
  | s :: body => keep ← retain_stmt s; body ← retain_body body; mret (if (keep : bool) then s :: body else body)
  end.
(** The statement that is added when nothing was found. *)
Definition new_target : Target Expr := MkTarget (target_id t) [].
Definition new_stmt (value : Expr) : Stmt :=
  let value := match field_paths t with [] => value | _ => Config [override_entry t value] end in
  match op t with
  | Override => SAssign [new_target] value None
  | Union => match value with Schema _ _ _ _ => SUnification [target_id t] value | _ => SAssign [new_target] value None end
  | Insert => SAugAssign new_target AAdd value
  end.
Definition walk_module (body : list Stmt) : OM (list Stmt) :=
  st ← get_state;
  if has_override st then mret body
  else
    body ← match action t with CreateOrUpdate => map_walk update_stmt body | Delete => retain_body body end;
    body ← map_walk (walk_stmt t) body;
    st ← get_state;
    if has_override st then mret body
    else
      match action t with
      | CreateOrUpdate => value ← lift (clone_override_value t); set_override true;; mret (body ++ [new_stmt value])
      | Delete => mret body
      end.
End Module_.

(** [apply_override_on_module], with the order in which the hash map of the splits is iterated:
    the new body and whether there was an override, or an error. *)
Definition apply_override_on_module {LIB : Library} (iter : list (nat * list Stmt) → list (nat * list Stmt))
    (body : list Stmt) (o : Symbol) (import_paths : list Symbol) : Res (Error + (list Stmt * bool)) :=
  body ← apply_import_paths_on_module body import_paths;
  match parse_override_spec o with
  | inl e => Ok (inl e)
  | inr o =>
      match parse_attribute_path (field_path o) with
      | inl e => Ok (inl e)
      | inr [] => Panic IndexOutOfBounds
      | inr (target_id :: field_paths) =>
          body ← transform_multi_assign iter (fix_config_expr_nest_attr body);
          value ← build_expr_from_string (field_value o);
          '(body, st) ← walk_module (MkTransformer target_id field_paths value (spec_action o) (spec_operation o)) body (MkState false 0);
          Ok (inr (body, has_override st))
      end
  end.
(** [apply_overrides] on the modules of the main package. *)
Fixpoint override_modules {LIB : Library} (iter : list (nat * list Stmt) → list (nat * list Stmt)) (o : Symbol)
    (import_paths : list Symbol) (modules : list (list Stmt)) : Res (Error + list (list Stmt)) :=
  match modules with
  | [] => Ok (inr [])
  | m :: modules =>
      r ← apply_override_on_module iter m o import_paths;
      match r with
      | inl e => Ok (inl e)
      | inr (m, _) =>
          r ← override_modules iter o import_paths modules;
          Ok match r with inl e => inl e | inr modules => inr (m :: modules) end
      end
  end.
Fixpoint apply_overrides {LIB : Library} (iter : list (nat * list Stmt) → list (nat * list Stmt)) (overrides : list Symbol)
    (import_paths : list Symbol) (modules : list (list Stmt)) : Res (Error + list (list Stmt)) :=
  match overrides with
  | [] => Ok (inr modules)
  | o :: overrides =>
      r ← override_modules iter o import_paths modules;
      match r with inl e => Ok (inl e) | inr modules => apply_overrides iter overrides import_paths modules end
  end.
