(* ===== verification/OverrideProps.v ===== *)
(** * Theorems on overrides

    [Override]: after an override every value at its path is the new one and all values at
    other paths are what they were; specifications and paths are read back from their texts. *)

From stdpp Require Import base tactics list strings numbers pretty.
From Stdlib Require Import ZArith Lia.
From S2P Require Import Prelude Token Ast Preprocess Desugar DesugarProps Override.
From S2P Require SemaTypes.
Local Set Warnings "-clear-no-such-hyp".

(** ** The values at a path *)

(** What is left of a path behind the names of a key. *)
Fixpoint after_key (names path : list Symbol) : option (list Symbol) :=
  match names, path with
  | [n], p :: path => if bool_decide (n = p) then Some path else None
  | n :: names, p :: path => if bool_decide (n = p) then after_key names path else None
  | _, _ => None
  end.
Definition entry_values (inner : list Symbol → list Entry → list Expr) (path : list Symbol) (e : Entry) : list Expr :=
  match after_key (get_key_parts (key e)) path with
  | Some [] => [entry_value e]
  | Some path => match try_get_config_expr (entry_value e) with Some items => inner path items | None => [] end
  | None => []
  end.
(** All values of a configuration at a path of at most [n] names: a key may occur several
    times, and its names may be those of several levels. *)
Fixpoint values_at (n : nat) (path : list Symbol) (config : list Entry) : list Expr :=
  match n with O => [] | S n => config ≫= entry_values (values_at n) path end.
(** Neither path goes on from the other. *)
Definition apart (p q : list Symbol) : Prop := ¬ p `prefix_of` q ∧ ¬ q `prefix_of` p.

Lemma plain_after_key e path : plain_key e = true → Forall (λ p, p ≠ []) path →
  after_key (get_key_parts (key e)) path =
  match path with p :: path => if bool_decide (get_key_path (key e) = p) then Some path else None | [] => None end.
Proof.
  unfold plain_key. destruct (key e) as [k|]; cbn.
  2:{ intros _ H. destruct H as [|p l H]; [done|]. rewrite bool_decide_false; [done|]. by intros <-. }
  destruct k as [names| | | | | | | | | | | | | | | | | | | | |lit| | | |]; cbn; intros Hk H; try (destruct H as [|p l H]; [done|]; rewrite bool_decide_false; [done|]; by intros <-).
  - destruct names as [|n [|n' names]]; [|by destruct path|done]. destruct H as [|p l H]; [done|]. cbn. rewrite bool_decide_false; [done|]. by intros <-.
  - by destruct path.
Qed.
Lemma values_at_app n path c c' : values_at n path (c ++ c') = values_at n path c ++ values_at n path c'.
Proof. destruct n; [done|]. cbn [values_at]. apply bind_app. Qed.
Lemma after_key_self names path rest : names ≠ [] → names ++ rest = path → after_key names path = Some rest.
Proof.
  induction names as [|n names IH] in path |- *; [done|]. intros _ <-. cbn [app after_key]. rewrite bool_decide_true by done.
  destruct names as [|n' names]; [done|]. by apply IH.
Qed.
Lemma after_key_prefix names path rest : after_key names path = Some rest → names ++ rest = path.
Proof.
  induction names as [|n names IH] in path |- *; [done|]. destruct path as [|p path]; [by destruct names|]. cbn [after_key].
  destruct (bool_decide (n = p)) eqn:E; [apply bool_decide_eq_true in E as ->|by destruct names].
  destruct names as [|n' names]; [by intros [= ->]|]. intros H%IH. cbn [app]. by f_equal.
Qed.
(** The appended entry. *)
Lemma appended_value n path v o : path ≠ [] → (length path ≤ n)%nat → values_at n path [MkEntry (Some (IdentifierExpr path)) v o] = [v].
Proof.
  intros Hp Hn. destruct n as [|n]; [destruct path; [done|cbn in Hn; lia]|]. cbn. unfold entry_values. cbn [key get_key_parts].
  rewrite (after_key_self path path []) by (done || apply app_nil_r). done.
Qed.
Lemma appended_apart n path q v o : apart path q → values_at n q [MkEntry (Some (IdentifierExpr path)) v o] = [].
Proof.
  intros [Hp _]. destruct n as [|n]; [done|]. cbn. unfold entry_values. cbn [key get_key_parts].
  destruct (after_key path q) as [rest|] eqn:E; [|done]. apply after_key_prefix in E. destruct Hp. by exists rest.
Qed.

(** ** The loop over the entries *)

Lemma edit_entries_same part edit items c n q :
  (∀ e ch, e ∈ items → get_key_path (key e) = part →
    entry_values (values_at n) q (MkEntry (key e) (edit (entry_value e) ch).1 (operation e)) = entry_values (values_at n) q e) →
  values_at (S n) q (edit_entries part edit items c).1 = values_at (S n) q items.
Proof.
  cbn [values_at]. induction items as [|e items IH] in c |- *; intros H; [done|]. cbn [edit_entries].
  assert (∀ c, (edit_entries part edit items c).1 ≫= entry_values (values_at n) q = items ≫= entry_values (values_at n) q) as IH'.
  { intros c'. apply IH. intros e' ch He'. apply H. by right. }
  case_bool_decide as Ep.
  - pose proof (H e c) as He. destruct (edit (entry_value e) c) as [v c']. specialize (IH' c'). destruct (edit_entries part edit items c') as [l c''].
    cbn in *. rewrite IH', He; [done|by left|done].
  - specialize (IH' c). destruct (edit_entries part edit items c) as [l c']. cbn in *. by rewrite IH'.
Qed.
(** Every matching entry gets the value at the path, or stays as it is without one. *)
Definition edited (n : nat) (p : list Symbol) (v : Expr) (items items' : list Entry) (c c' : bool) : Prop :=
  Forall (eq v) (values_at (S n) p items') ∧ (c = true → c' = true) ∧ (c' = true → c = true ∨ values_at (S n) p items' ≠ []) ∧
  (c' = false → items' = items ∧ values_at (S n) p items = []).
Lemma edited_skip n p v e items items' c c' : entry_values (values_at n) p e = [] → edited n p v items items' c c' →
  edited n p v (e :: items) (e :: items') c c'.
Proof.
  unfold edited. cbn [values_at]. intros He (H1 & H2 & H3 & H4). split_and!; [cbn; by rewrite He|done|cbn; by rewrite He|].
  intros Hc. destruct (H4 Hc) as [-> ?]. cbn. by rewrite He.
Qed.
Lemma edit_entries_target part (edit : Expr → bool → Expr * bool) items c n p v :
  (∀ e, e ∈ items → get_key_path (key e) ≠ part → entry_values (values_at n) p e = []) →
  (∀ e ch, e ∈ items → get_key_path (key e) = part →
    let (v', ch') := edit (entry_value e) ch in
    let vs := entry_values (values_at n) p (MkEntry (key e) v' (operation e)) in
    ch' = true ∧ vs ≠ [] ∧ Forall (eq v) vs ∨ v' = entry_value e ∧ ch' = ch ∧ vs = []) →
  let (items', c') := edit_entries part edit items c in edited n p v items items' c c'.
Proof.
  induction items as [|e items IH] in c |- *; intros Ho Hm.
  { cbn. split_and!; [constructor|done|by left|done]. }
  cbn [edit_entries].
  assert (∀ c, let (items', c') := edit_entries part edit items c in edited n p v items items' c c') as IH'.
  { intros c'. apply IH; intros; [apply Ho|apply Hm]; by try right. }
  case_bool_decide as Ep.
  - specialize (Hm e c (list_elem_of_here _ _) (eq_sym Ep)). destruct (edit (entry_value e) c) as [v' c'] eqn:Ee. cbn in Hm.
    specialize (IH' c'). destruct (edit_entries part edit items c') as [l c'']. destruct Hm as [(-> & Hne & Hall)|(-> & -> & Hnil)].
    + destruct IH' as (H1 & H2 & _ & _). unfold edited. cbn [values_at] in *. split_and!; [cbn; by apply Forall_app_2|auto| |].
      * intros _. right. cbn. by destruct (entry_values _ _ _).
      * intros ->. assert (false = true) by by apply H2. done.
    + destruct e. by apply edited_skip.
  - specialize (IH' c). destruct (edit_entries part edit items c) as [l c']. apply edited_skip; [|done]. apply Ho; [by left|congruence].
Qed.

(** ** The override of a path *)

(** The entries of [value] merged into a configuration. *)
Lemma replace_parts_cons v op part rest config :
  replace_parts v op (part :: rest) config =
  let edit := match rest with
              | [] => update_value (λ items, match v with
                                             | Config merged | Schema _ _ _ (Config merged) => merge_config_expr items merged CreateOrUpdate
                                             | _ => (items, false)
                                             end) op v
              | _ => edit_inside (replace_parts v op rest)
              end in
  let (config, changed) := edit_entries part edit config false in
  if (changed : bool) then (config, true) else (config ++ [MkEntry (Some (IdentifierExpr (part :: rest))) v op], true).
Proof.
  destruct rest as [|p rest]; [|by destruct v].
  assert (∀ f g : list Entry → list Entry * bool, (∀ l, f l = g l) → ∀ c, edit_entries part (update_value f op v) config c = edit_entries part (update_value g op v) config c) as Hext.
  { intros f g Hfg. induction config as [|e config IH]; intros c; [done|]. cbn [edit_entries].
    assert (update_value f op v (entry_value e) c = update_value g op v (entry_value e) c) as ->.
    { unfold update_value. destruct op, v; try done; destruct (try_get_config_expr _) || destruct (entry_value e) as [| | | | | | | | | | | | | |? ? ? []| | | | | | | | | | |]; rewrite ?Hfg; done. }
    rewrite IH. destruct (bool_decide _); [|done]. destruct (update_value g op v _ _). by rewrite IH. }
  destruct v as [| | | | | | | | | | | | | |n a kw [| | | | | | | | | | | | | | |merged| | | | | | | | | |]|merged| | | | | | | | | |]; try done.
  all: cbn [replace_parts]; erewrite Hext; [done|]; intros l; unfold merge_config_expr; generalize false; induction merged as [|e merged IH] in l |- *;
    intros b; [done|]; cbn [merge_loop]; destruct (get_key_parts (key e)) as [|p ps]; [apply IH|]; cbn [replace_config_with_path_parts].
  all: destruct (replace_parts _ _ _ l); apply IH.
Qed.
Lemma matched_key e part : plain_key e = true → part ≠ [] → get_key_path (key e) = part → get_key_parts (key e) = [part].
Proof.
  unfold plain_key. intros Hk Hp <-. destruct (key e) as [k|]; [|done]. destruct k as [names| | | | | | | | | | | | | | | | | | | | | | | | |]; try done.
  destruct names as [|n [|n' names]]; done.
Qed.
Lemma unmatched_key e p path : plain_key e = true → p ≠ [] → get_key_path (key e) ≠ p → after_key (get_key_parts (key e)) (p :: path) = None.
Proof.
  unfold plain_key. intros Hk Hp Hn. destruct (key e) as [k|]; [|done]. destruct k as [names| | | | | | | | | | | | | | | | | | | | |lit| | | |]; try done.
  - destruct names as [|n [|n' names]]; try done. cbn in *. by rewrite bool_decide_false.
  - cbn in *. by rewrite bool_decide_false.
Qed.
Lemma after_one part q : after_key [part] q = match q with p :: q => if bool_decide (part = p) then Some q else None | [] => None end.
Proof. by destruct q. Qed.
Lemma try_get_set items old l : try_get_config_expr old = Some l → try_get_config_expr (set_config_expr items old) = Some items.
Proof. destruct old as [| | | | | | | | | | | | | |n a kw c| | | | | | | | | | |]; try done. by destruct c. Qed.
Lemma flat_inside old l : flat_expr old = true → try_get_config_expr old = Some l → forallb (flat_entry flat_expr) l = true.
Proof.
  destruct old as [| | | | | | | | | | | | | |n a kw c| | | | | | | | | | |]; try done; [|by intros ? [= <-]].
  cbn. destruct c; try done. intros [_ H]%andb_true_iff. by intros [= <-].
Qed.
Lemma apart_cons part rest q : apart (part :: rest) (part :: q) → apart rest q.
Proof. intros [H1 H2]. split; intros H; [apply H1|apply H2]; by apply prefix_cons. Qed.
Lemma flat_in (config : list Entry) e : forallb (flat_entry flat_expr) config = true → e ∈ config → plain_key e = true ∧ flat_expr (entry_value e) = true.
Proof. intros H He%list_elem_of_In. rewrite forallb_forall in H. apply H in He. by apply andb_true_iff in He. Qed.
Lemma override_values v parts config : parts ≠ [] → Forall (λ p, p ≠ []) parts → forallb (flat_entry flat_expr) config = true →
  let (config', changed) := replace_parts v Override parts config in
  changed = true ∧
  (∀ n, (length parts ≤ n)%nat → values_at n parts config' ≠ [] ∧ Forall (eq v) (values_at n parts config')) ∧
  (∀ n q, apart parts q → values_at n q config' = values_at n q config).
Proof.
  induction parts as [|part rest IH] in config |- *; intros Hne Hparts Hflat; [done|]. clear Hne. apply list.Forall_cons in Hparts as [Hpart Hrest].
  rewrite replace_parts_cons. cbv zeta. set (edit := match rest with [] => _ | _ => _ end).
  assert (∀ n e ch, e ∈ config → get_key_path (key e) = part → (length rest ≤ n)%nat →
    let (v', ch') := edit (entry_value e) ch in
    let vs := entry_values (values_at n) (part :: rest) (MkEntry (key e) v' (operation e)) in
    ch' = true ∧ vs ≠ [] ∧ Forall (eq v) vs ∨ v' = entry_value e ∧ ch' = ch ∧ vs = []) as Htarget.
  { intros n e ch He Hk Hn. destruct (flat_in config e Hflat He) as [Hplain Hv]. unfold entry_values. cbn [key entry_value].
    rewrite (matched_key e part) by done. rewrite after_one, bool_decide_true by done. destruct rest as [|p rest]; [cbn; left; split_and!; auto|].
    unfold edit, edit_inside. destruct (try_get_config_expr (entry_value e)) as [items|] eqn:Et; [|right; by rewrite Et].
    specialize (IH items ltac:(done) Hrest (flat_inside _ _ Hv Et)). destruct (replace_parts v Override (p :: rest) items) as [items' c'].
    destruct IH as (-> & H & _). left. rewrite (try_get_set _ _ items) by done. destruct (H n Hn). done. }
  assert (∀ n q e ch, apart (part :: rest) q → e ∈ config → get_key_path (key e) = part →
    entry_values (values_at n) q (MkEntry (key e) (edit (entry_value e) ch).1 (operation e)) = entry_values (values_at n) q e) as Hother.
  { intros n q e ch Hq He Hk. destruct (flat_in config e Hflat He) as [Hplain Hv]. unfold entry_values. cbn [key entry_value].
    rewrite (matched_key e part) by done. rewrite after_one. destruct q as [|p q]; [done|]. case_bool_decide as E; [subst p|done].
    apply apart_cons in Hq. destruct rest as [|r rest]; [exfalso; destruct Hq as [Hq _]; apply Hq; apply prefix_nil|].
    destruct q as [|p q]; [exfalso; destruct Hq as [_ Hq]; apply Hq; apply prefix_nil|].
    unfold edit, edit_inside. destruct (try_get_config_expr (entry_value e)) as [items|] eqn:Et; [|cbn; by rewrite Et].
    specialize (IH items ltac:(done) Hrest (flat_inside _ _ Hv Et)). destruct (replace_parts v Override (r :: rest) items) as [items' c'].
    destruct IH as (_ & _ & H). cbn [fst]. rewrite (try_get_set _ _ items) by done. by apply H. }
  assert (∀ n, (length rest ≤ n)%nat → let (items', c') := edit_entries part edit config false in edited n (part :: rest) v config items' false c') as Hedit.
  { intros n Hn. apply edit_entries_target; [|intros e ch He Hk; by apply Htarget].
    intros e He Hk. destruct (flat_in config e Hflat He) as [Hplain _]. unfold entry_values. by rewrite unmatched_key. }
  assert (∀ n q, apart (part :: rest) q → values_at n q (edit_entries part edit config false).1 = values_at n q config) as Hkeep.
  { intros n q Hq. destruct n as [|n]; [done|]. apply edit_entries_same. intros; by apply Hother. }
  destruct (edit_entries part edit config false) as [config' c]. cbn [fst] in Hkeep. destruct c; (split; [done|]); split.
  - intros n Hn. destruct n as [|n]; [cbn in Hn; lia|]. destruct (Hedit n ltac:(cbn in Hn; lia)) as (H1 & _ & H3 & _).
    split; [|done]. by destruct (H3 eq_refl).
  - done.
  - intros n Hn. destruct n as [|n]; [cbn in Hn; lia|]. destruct (Hedit n ltac:(cbn in Hn; lia)) as (_ & _ & _ & H4). destruct (H4 eq_refl) as [-> Hnil].
    rewrite values_at_app, Hnil, appended_value by done. split; [done|]. by repeat constructor.
  - intros n q Hq. rewrite values_at_app, appended_apart, app_nil_r by done. by apply Hkeep.
Qed.

(** ** The deletion of a path *)

Lemma edit_entries_none part (edit : Expr → bool → Expr * bool) items c n p :
  (∀ e, e ∈ items → get_key_path (key e) ≠ part → entry_values (values_at n) p e = []) →
  (∀ e ch, e ∈ items → get_key_path (key e) = part → entry_values (values_at n) p (MkEntry (key e) (edit (entry_value e) ch).1 (operation e)) = []) →
  values_at (S n) p (edit_entries part edit items c).1 = [].
Proof.
  cbn [values_at]. induction items as [|e items IH] in c |- *; intros Ho Hm; [done|]. cbn [edit_entries].
  assert (∀ c, (edit_entries part edit items c).1 ≫= entry_values (values_at n) p = []) as IH'.
  { intros c'. apply IH; intros; [apply Ho|apply Hm]; by try right. }
  case_bool_decide as Ep.
  - pose proof (Hm e c (list_elem_of_here _ _) (eq_sym Ep)) as He. destruct (edit (entry_value e) c) as [v c']. specialize (IH' c').
    destruct (edit_entries part edit items c') as [l c'']. cbn in *. by rewrite He, IH'.
  - specialize (IH' c). destruct (edit_entries part edit items c) as [l c']. cbn in *. rewrite IH', Ho; [done|by left|congruence].
Qed.
Lemma delete_values parts config : Forall (λ p, p ≠ []) parts → forallb (flat_entry flat_expr) config = true →
  (∀ n, values_at n parts (delete_parts parts config).1 = []) ∧
  (∀ n q, apart parts q → values_at n q (delete_parts parts config).1 = values_at n q config).
Proof.
  induction parts as [|part rest IH] in config |- *; intros Hparts Hflat.
  { split; [|intros n q [H _]; destruct H; apply prefix_nil]. intros [|n]; [done|]. cbn. clear Hflat. induction config as [|e config IH]; [done|]. cbn.
    rewrite IH, app_nil_r. unfold entry_values. by destruct (get_key_parts (key e)) as [|? [|? ?]]. }
  apply list.Forall_cons in Hparts as [Hpart Hrest].
  destruct rest as [|r rest].
  - cbn [delete_parts fst]. split; (intros [|n]; [done|]); cbn [values_at].
    + induction config as [|e config IHc]; [done|]. cbn [forallb] in Hflat. apply andb_true_iff in Hflat as [[Hp Hv]%andb_true_iff Hflat].
      cbn [List.filter]. case_bool_decide as E; cbn [negb]; [by apply IHc|]. cbn. rewrite IHc, app_nil_r by done.
      unfold entry_values. by rewrite unmatched_key by congruence.
    + intros q [Hq _]. induction config as [|e config IHc]; [done|]. cbn [forallb] in Hflat. apply andb_true_iff in Hflat as [[Hp Hv]%andb_true_iff Hflat].
      cbn [List.filter]. case_bool_decide as E; cbn [negb]; [|cbn; by rewrite IHc]. cbn. rewrite IHc by done.
      unfold entry_values at 2. rewrite (matched_key e part), after_one by done. destruct q as [|p q]; [done|].
      rewrite bool_decide_false; [done|]. intros <-. apply Hq, prefix_cons, prefix_nil.
  - change (delete_parts (part :: r :: rest) config) with (edit_entries part (edit_inside (delete_parts (r :: rest))) config false).
    assert (∀ e items, e ∈ config → try_get_config_expr (entry_value e) = Some items → forallb (flat_entry flat_expr) items = true) as Hin.
    { intros e items He Et. destruct (flat_in config e Hflat He) as [_ Hv]. by eapply flat_inside. }
    split; (intros [|n]; [done|]).
    + apply edit_entries_none.
      * intros e He Hk. destruct (flat_in config e Hflat He) as [Hplain _]. unfold entry_values. by rewrite unmatched_key.
      * intros e ch He Hk. destruct (flat_in config e Hflat He) as [Hplain _]. unfold entry_values. cbn [key entry_value].
        rewrite (matched_key e part), after_one, bool_decide_true by done. unfold edit_inside.
        destruct (try_get_config_expr (entry_value e)) as [items|] eqn:Et; [|cbn; by rewrite Et].
        destruct (IH items Hrest (Hin _ _ He Et)) as [H _]. destruct (delete_parts (r :: rest) items) as [items' c']. cbn [fst] in *.
        by rewrite (try_get_set _ _ items).
    + intros q Hq. apply edit_entries_same. intros e ch He Hk. destruct (flat_in config e Hflat He) as [Hplain _]. unfold entry_values. cbn [key entry_value].
      rewrite (matched_key e part), after_one by done. destruct q as [|p q]; [done|]. case_bool_decide as E; [subst p|done].
      apply apart_cons in Hq. destruct q as [|p q]; [exfalso; destruct Hq as [_ Hq]; apply Hq; apply prefix_nil|].
      unfold edit_inside. destruct (try_get_config_expr (entry_value e)) as [items|] eqn:Et; [|cbn; by rewrite Et].
      destruct (IH items Hrest (Hin _ _ He Et)) as [_ H]. destruct (delete_parts (r :: rest) items) as [items' c']. cbn [fst] in *.
      rewrite (try_get_set _ _ items) by done. by apply H.
Qed.

(** ** Modules *)

(** The statements that the walk does not search for configurations of other names. *)
Definition quiet (s : Stmt) : bool :=
  match s with
  | SUnification (_ :: _) (Schema _ _ _ _) | SAssign _ _ _ | SImport _ _ _ | STypeAlias _ _ | SIf _ _ _ | SSchema _ => true
  | _ => false
  end.
Section Module_.
Context {LIB : Library} (t : OverrideTransformer) (v : Expr).
Context (Ha : action t = CreateOrUpdate) (Hv : override_value t = Some v) (Hp : field_paths t ≠ []).

Definition replaced (items : list Entry) : list Entry := (replace_config_with_path_parts items (field_paths t) CreateOrUpdate (op t) (Some v)).1.
(** The statement with the configuration that it gives the target, if it does. *)
Definition overridden (s : Stmt) : option Stmt :=
  match s with
  | SUnification (name :: names) value =>
      if bool_decide (name = target_id t) then
        match try_get_config_expr value with Some items => Some (SUnification (name :: names) (set_config_expr (replaced items) value)) | None => None end
      else None
  | SAssign targets value ty =>
      if existsb (is_target t) targets then
        match try_get_config_expr value with Some items => Some (SAssign targets (set_config_expr (replaced items) value) ty) | None => None end
      else None
  | _ => None
  end.
Fixpoint override_first (body : list Stmt) : list Stmt :=
  match body with
  | [] => [new_stmt t v]
  | s :: body => match overridden s with Some s => s :: body | None => s :: override_first body end
  end.

Lemma lookup_found items : lookup_config_and_replace t items = (replaced items, true).
Proof using Ha Hv Hp.
  unfold lookup_config_and_replace, replaced. rewrite Ha, Hv. cbn [replace_config_with_path_parts]. destruct (field_paths t) as [|p ps]; [done|].
  rewrite replace_parts_cons. cbv zeta. by destruct (edit_entries _ _ _ _) as [c' []].
Qed.
Lemma walk_instance items n : walk_schema_config t (Config items) (MkState false (S n)) = Ok (Config (replaced items), MkState true 0).
Proof using Ha Hv Hp. unfold walk_schema_config, get_state, mbind, OM_bind. cbn. rewrite lookup_found. done. Qed.
Lemma other_config c st : (∀ items, c ≠ Config items) → has_override st = false → ∃ k, walk_schema_config t c st = Ok (c, MkState false k).
Proof.
  destruct st as [h n]. cbn. intros Hc ->. unfold walk_schema_config, get_state, mbind, OM_bind. cbn. destruct (n =? 0)%nat; [by eexists|]. destruct c; try by eexists. by destruct (Hc items).
Qed.
Lemma quiet_done s st : quiet s = true → has_override st = true → walk_stmt t s st = Ok (s, st).
Proof. intros Hs Hst. destruct s as [| |names value|targets value ty| | | | | | |]; try done; cbn; unfold get_state, mbind, OM_bind; cbn; rewrite ?Hst; try done. Qed.
Lemma quiet_rest body st : forallb quiet body = true → has_override st = true → map_walk (walk_stmt t) body st = Ok (body, st).
Proof.
  intros Hb Hst. induction body as [|s body IH]; [done|]. cbn in Hb. apply andb_true_iff in Hb as [Hs Hb]. cbn. unfold mbind, OM_bind.
  rewrite quiet_done by done. fold (@map_walk Stmt). by rewrite IH.
Qed.
Lemma count_targets targets : (length (List.filter (is_target t) targets) =? 0)%nat = negb (existsb (is_target t) targets).
Proof. induction targets as [|x l IH]; [done|]. cbn. by destruct (is_target t x). Qed.
Lemma quiet_step s st : quiet s = true → has_override st = false → ∃ k, walk_stmt t s st =
  Ok match overridden s with Some s' => (s', MkState true k) | None => (s, MkState false k) end.
Proof using Ha Hv Hp.
  intros Hs Hst. destruct st as [h n]. cbn in Hst. subst h. destruct s as [| |names value|targets value ty| | | | | | |]; try done; try (by eexists).
  - destruct names as [|name names]; [done|]. destruct value as [| | | | | | | | | | | | | |sn sa sk c| | | | | | | | | | |]; try done.
    cbn. unfold get_state, lift, mbind, OM_bind. cbn. assert (∀ A (a b : A), match field_paths t with [] => a | _ => b end = b) as Hpath by (intros; by destruct (field_paths t)). rewrite Hpath. destruct (bool_decide (name = target_id t)); [|by eexists].
    unfold set_target_count. cbn. destruct (try_get_config_expr (Schema sn sa sk c)) as [items|] eqn:Et.
    + destruct c; try done. injection Et as <-. unfold mbind, OM_bind. rewrite walk_instance. by eexists.
    + destruct (other_config c (MkState false 1)) as [k Hk]; [by intros items ->|done|]. unfold mbind, OM_bind. rewrite Hk. cbn.
      exists k. by destruct c.
  - cbn. unfold get_state, mbind, OM_bind. cbn. destruct value as [| | | | | | | | | | | | | |sn sa sk c|items| | | | | | | | | |]; try (destruct (existsb _ _); by eexists).
    + rewrite count_targets. destruct (existsb (is_target t) targets) eqn:Ee; cbn; [|by eexists].
      destruct (length (List.filter (is_target t) targets)) as [|k] eqn:El.
      { pose proof (count_targets targets) as H. rewrite El, Ee in H. done. }
      unfold set_target_count. cbn. unfold mbind, OM_bind. destruct (try_get_config_expr (Schema sn sa sk c)) as [items|] eqn:Et.
      * destruct c; try done. injection Et as <-. rewrite walk_instance. by eexists.
      * destruct (other_config c (MkState false (S k))) as [k' Hk]; [by intros items ->|done|]. rewrite Hk. cbn. exists k'. by destruct c.
    + rewrite count_targets. destruct (existsb (is_target t) targets) eqn:Ee; cbn; [|by eexists].
      unfold set_target_count, walk_config_expr, get_state, set_override, mbind, OM_bind. cbn. rewrite lookup_found. cbn. by eexists.
Qed.
Lemma quiet_walk body st : forallb quiet body = true → has_override st = false → ∃ k, map_walk (walk_stmt t) body st =
  Ok match list_find (λ s, is_Some (overridden s)) body with
     | Some _ => (override_first body, MkState true k)
     | None => (body, MkState false k)
     end.
Proof using Ha Hv Hp.
  induction body as [|s body IH] in st |- *; intros Hb Hst; [destruct st as [h k]; cbn in Hst; subst; by exists k|].
  cbn [forallb] in Hb. apply andb_true_iff in Hb as [Hs Hb]. destruct (quiet_step s st) as [k Hk]; [done..|]. cbn [map_walk].
  unfold mbind, OM_bind. rewrite Hk. clear Hk. cbn [list_find override_first]. destruct (overridden s) as [s'|].
  - rewrite quiet_rest by done. exists k. rewrite decide_True by done. done.
  - rewrite decide_False by (intros [? ?]; done). destruct (IH (MkState false k) Hb eq_refl) as [k' ->]. exists k'.
    by destruct (list_find (λ s, is_Some (overridden s)) body) as [[i x]|].
Qed.
Lemma override_first_absent body : list_find (λ s, is_Some (overridden s)) body = None → override_first body = body ++ [new_stmt t v].
Proof.
  induction body as [|s body IH]; [done|]. cbn [list_find override_first app]. destruct (overridden s); [by rewrite decide_True|].
  rewrite decide_False by (intros [? ?]; done). destruct (list_find _ body); [done|]. intros _. by rewrite IH.
Qed.
Lemma walk_quiet_module body : forallb quiet body = true → ∃ k, walk_module t body (MkState false 0) = Ok (override_first body, MkState true k).
Proof using Ha Hv Hp.
  intros Hb. unfold walk_module, get_state, mbind, OM_bind. cbn. rewrite Ha.
  assert (∀ st, map_walk (update_stmt t) body st = Ok (body, st)) as ->.
  { intros st. clear Hb. induction body as [|s body IH]; [done|]. cbn [map_walk]. unfold mbind, OM_bind.
    assert (update_stmt t s st = Ok (s, st)) as -> by (unfold update_stmt; by destruct (field_paths t)). by rewrite IH. }
  destruct (quiet_walk body (MkState false 0) Hb eq_refl) as [k ->].
  destruct (list_find (λ s, is_Some (overridden s)) body) as [x|] eqn:E; cbn; [by exists k|].
  exists k. unfold lift, clone_override_value. rewrite Hv. cbn. by rewrite override_first_absent.
Qed.
End Module_.

(** C9: An override with a path below a variable, in a module whose other statements are
    assignments, unifications, imports, schemas and conditionals, edits the first statement
    that gives the variable a configuration and no other; when there is none, a statement
    with the path is added.  The walk does not panic and reports an override. *)
Theorem override_edits_target {LIB : Library} t v body :
  action t = CreateOrUpdate → override_value t = Some v → field_paths t ≠ [] → forallb quiet body = true →
  ∃ k, walk_module t body (MkState false 0) = Ok (override_first t v body, MkState true k).
Proof. intros Ha Hv Hp Hb. by apply (walk_quiet_module t v). Qed.

(** C8: In a configuration without dotted keys, an override leaves the new value, and nothing
    else, at its path, a deletion leaves nothing there; the values at all paths that neither
    continue that path nor lead to it are what they were. *)
Theorem override_at_path config parts v old : parts ≠ [] → Forall (λ p, p ≠ []) parts → forallb (flat_entry flat_expr) config = true →
  (let (config', changed) := replace_config_with_path_parts config parts CreateOrUpdate Override (Some v) in
   changed = true ∧
   (∀ n, (length parts ≤ n)%nat → values_at n parts config' ≠ [] ∧ Forall (eq v) (values_at n parts config')) ∧
   ∀ n q, apart parts q → values_at n q config' = values_at n q config) ∧
  (let config' := (replace_config_with_path_parts config parts Delete Override old).1 in
   (∀ n, values_at n parts config' = []) ∧ ∀ n q, apart parts q → values_at n q config' = values_at n q config).
Proof. intros Hne Hparts Hflat. split; [by apply override_values|by apply delete_values]. Qed.

(** ** The texts of paths and specifications *)

(** A part of a path: a name, or a name in brackets and quotes of a kind. *)
Definition Part : Type := option Z * Symbol.
Definition part_chars (first : bool) (p : Part) : Symbol :=
  match p.1 with
  | None => (if first then [] else [46%Z]) ++ p.2
  | Some q => 91%Z :: q :: p.2 ++ [q; 93%Z]
  end.
Definition print_parts (parts : list Part) : Symbol :=
  match parts with [] => [] | p :: parts => part_chars true p ++ (parts ≫= part_chars false) end.
Definition op_chars (op : ConfigEntryOperation) : Symbol := match op with Override => [61%Z] | Union => [58%Z] | Insert => [43%Z; 61%Z] end.

(** What the parsers of paths and specifications treat alike: no separator, bracket, quote or
    operator. *)
Definition ordinary (c : Z) : bool := negb (quote_char c) && negb (existsb (Z.eqb c) [46; 91; 93; 123; 125; 61; 58; 43]%Z).
(** The white space of Unicode does not contain brackets; a string without quotes, escapes and
    line ends inside is matched up to its closing quote. *)
Class LibraryLaws (LIB : Library) := {
  brackets_no_space : is_whitespace 91 = false ∧ is_whitespace 93 = false;
  quoted_match_simple q s rest : quote_char q = true → s ≠ [] → Forall (λ c, quote_char c = false ∧ c ≠ 92%Z ∧ c ≠ 10%Z) s →
    quoted_match q (q :: s ++ q :: rest) = Some (length s + 2)%nat;
}.

Section Texts.
Context {LIB : Library} {LAWS : LibraryLaws LIB}.
Definition valid_part (p : Part) : Prop :=
  p.2 ≠ [] ∧
  match p.1 with
  | None => Forall (λ c, ordinary c = true ∧ is_whitespace c = false) p.2
  | Some q => quote_char q = true ∧ Forall (λ c, quote_char c = false ∧ c ≠ 92%Z ∧ c ≠ 10%Z) p.2
  end.

(** *** Paths *)

Lemma ordinary_facts c : ordinary c = true → quote_char c = false ∧
  (∀ k, k ∈ [46; 91; 93; 123; 125; 61; 58; 43]%Z → Z.eqb c k = false).
Proof.
  unfold ordinary. intros [Hq%negb_true_iff He%negb_true_iff]%andb_true_iff. split; [done|]. intros k Hk%list_elem_of_In.
  destruct (Z.eqb c k) eqn:E; [|done]. assert (existsb (Z.eqb c) [46; 91; 93; 123; 125; 61; 58; 43]%Z = true) as H; [|congruence].
  apply existsb_exists. by exists k.
Qed.
Lemma not_special c k : ordinary c = true → bool_decide (k ∈ [46; 91; 93; 123; 125; 61; 58; 43]%Z) = true → Z.eqb c k = false.
Proof. intros Hc Hk%bool_decide_eq_true. by apply ordinary_facts. Qed.
Lemma path_plain name rest cur parts : Forall (λ c, ordinary c = true) name →
  path_loop false cur parts (name ++ rest) = path_loop false (cur ++ name) parts rest.
Proof.
  intros H. induction H as [|c name Hc Hn IH] in cur |- *; [by rewrite app_nil_r|]. cbn [app path_loop].
  rewrite !(not_special c) by done. rewrite IH, <- app_assoc. done.
Qed.
Lemma path_quoted q name rest cur parts : quote_char q = true → Forall (λ c, quote_char c = false) name →
  path_loop true cur parts (name ++ q :: 93%Z :: rest) = path_loop false (cur ++ name) parts rest.
Proof.
  intros Hq H. induction H as [|c name Hc Hn IH] in cur |- *; cbn [app path_loop]; [by rewrite Hq, app_nil_r|]. rewrite Hc, IH, <- app_assoc. done.
Qed.
Lemma push_nonempty cur parts : cur ≠ [] → push_part cur parts = parts ++ [cur].
Proof. by destruct cur. Qed.
Lemma path_part p rest cur parts : valid_part p → cur ≠ [] →
  path_loop false cur parts (part_chars false p ++ rest) = path_loop false p.2 (parts ++ [cur]) rest.
Proof.
  destruct p as [[q|] name]; intros [Hne Hv] Hcur; cbn in Hne, Hv; unfold part_chars; cbn [fst snd].
  - destruct Hv as [Hq Hv]. cbn [app path_loop]. change (Z.eqb 91 46) with false. change (Z.eqb 91 91) with true. cbn [negb]. rewrite Hq, <- app_assoc.
    cbn [app]. rewrite path_quoted, push_nonempty by (done || by eapply list.Forall_impl; [done|]; intros ? [? _]). done.
  - cbn [app path_loop]. change (Z.eqb 46 46) with true. cbn [negb]. rewrite path_plain, push_nonempty; [done..|]. eapply list.Forall_impl; [done|]. by intros ? [? _].
Qed.
Lemma path_rest ps cur parts : Forall valid_part ps → cur ≠ [] →
  path_loop false cur parts (ps ≫= part_chars false) = inr (parts ++ cur :: ps.*2).
Proof.
  intros H. induction H as [|p ps Hp Hps IH] in cur, parts |- *; intros Hcur; cbn; [by rewrite push_nonempty|].
  rewrite path_part by done. rewrite IH by apply Hp. by rewrite <- app_assoc.
Qed.
Lemma path_printed parts : Forall valid_part parts → parse_attribute_path (print_parts parts) = inr parts.*2.
Proof.
  intros H. unfold parse_attribute_path. destruct H as [|p ps Hp Hps]; [done|]. cbn [print_parts fmap list_fmap].
  destruct p as [[q|] name]; destruct Hp as [Hne Hv]; cbn in Hne, Hv; unfold part_chars; cbn [fst snd].
  - destruct Hv as [Hq Hv]. cbn [app path_loop]. change (Z.eqb 91 46) with false. change (Z.eqb 91 91) with true. cbn [negb]. rewrite Hq, <- app_assoc. cbn [app push_part].
    rewrite path_quoted by (done || by eapply list.Forall_impl; [done|]; intros ? [? _]). by rewrite path_rest.
  - cbn [app]. rewrite path_plain by (by eapply list.Forall_impl; [done|]; intros ? [? _]). by rewrite path_rest.
Qed.

(** *** Specifications *)

(** The loop at index [i] with enough fuel. *)
Definition scan (i : nat) (stack : list Z) (spec : Symbol) := split_loop (S (length spec - i)) i stack spec.
Lemma split_fuel fuel i stack spec : (length spec - i < fuel)%nat → split_loop fuel i stack spec = scan i stack spec.
Proof.
  unfold scan. assert (∀ f f' i stack, (length spec - i < f)%nat → (length spec - i < f')%nat → split_loop f i stack spec = split_loop f' i stack spec) as H.
  { induction f as [|f IH]; intros f' j st Hf Hf'; [lia|]. destruct f' as [|f']; [lia|]. cbn [split_loop].
    destruct (spec !! j) as [c|] eqn:E; [|done]. apply lookup_lt_Some in E.
    repeat match goal with
      | |- (if ?b then _ else _) = _ => destruct b
      | |- match ?o with Some _ => _ | None => _ end = _ => destruct o
      end; done || (apply IH; lia). }
  intros Hf. apply H; lia.
Qed.
Lemma scan_plain pre name rest stack : Forall (λ c, ordinary c = true) name →
  scan (length pre) stack (pre ++ name ++ rest) = scan (length (pre ++ name)) stack (pre ++ name ++ rest).
Proof.
  intros H. induction H as [|c name Hc Hn IH] in pre |- *; [by rewrite app_nil_r|].
  specialize (IH (pre ++ [c])). rewrite <- !app_assoc in IH. cbn [app] in IH |- *. rewrite <- IH. clear IH. unfold scan at 1. cbn [split_loop].
  rewrite list_lookup_middle by done. rewrite !(not_special c) by done. destruct (ordinary_facts c Hc) as [-> _]. cbn [andb orb].
  rewrite split_fuel; [by rewrite length_app, Nat.add_1_r|]. rewrite !length_app. cbn. lia.
Qed.
Lemma scan_step_dot pre rest stack : scan (length pre) stack (pre ++ 46%Z :: rest) = scan (length (pre ++ [46%Z])) stack (pre ++ 46%Z :: rest).
Proof.
  unfold scan at 1. cbn [split_loop]. rewrite list_lookup_middle by done. cbn. rewrite split_fuel; [by rewrite length_app, Nat.add_1_r|].
  rewrite !length_app. cbn. lia.
Qed.
Lemma scan_bracket pre q name rest : quote_char q = true → name ≠ [] → Forall (λ c, quote_char c = false ∧ c ≠ 92%Z ∧ c ≠ 10%Z) name →
  let text := 91%Z :: q :: name ++ [q; 93%Z] in
  scan (length pre) [] (pre ++ text ++ rest) = scan (length (pre ++ text)) [] (pre ++ text ++ rest).
Proof using LAWS.
  intros Hq Hne Hn text. set (spec := pre ++ text ++ rest).
  assert (∀ i c, spec !! (length pre + i)%nat = c ↔ (text ++ rest) !! i = c) as Hl.
  { intros i c. unfold spec. rewrite lookup_app_r by lia. by replace (length pre + i - length pre)%nat with i by lia. }
  assert (length spec = (length pre + length name + 4 + length rest)%nat) as Hlen.
  { unfold spec, text. rewrite !length_app. cbn. rewrite length_app. cbn. lia. }
  assert (∀ i, drop (length pre + i) spec = drop i (text ++ rest)) as Hd.
  { intros i. unfold spec. by rewrite drop_app_ge, Nat.add_sub_swap, Nat.sub_diag by lia. }
  assert (text ++ rest = (91%Z :: q :: name) ++ q :: 93%Z :: rest) as Ht by (unfold text; cbn; by rewrite <- app_assoc).
  assert (∀ f, split_loop (S f) (length pre) [] spec = split_loop f (length pre + 1) [91%Z] spec) as H1.
  { intros f. cbn [split_loop]. pose proof (Hl 0%nat (Some 91%Z)) as [_ H]. rewrite Nat.add_0_r in H. rewrite H by done. cbn. by rewrite Nat.add_1_r. }
  assert (∀ f, split_loop (S f) (length pre + 1) [91%Z] spec = split_loop f (length pre + (length name + 3)) [91%Z] spec) as H2.
  { intros f. cbn [split_loop]. rewrite (proj2 (Hl 1%nat (Some q)) eq_refl), !andb_false_r.
    assert (Z.eqb q 91 || Z.eqb q 123 = false) as -> by (unfold quote_char in Hq; lia).
    assert (Z.eqb q 93 || Z.eqb q 125 = false) as -> by (unfold quote_char in Hq; lia).
    rewrite Hq, Hd, Ht. cbn [app drop]. rewrite quoted_match_simple by done. f_equal. lia. }
  assert (∀ f, split_loop (S f) (length pre + (length name + 3)) [91%Z] spec = split_loop f (length (pre ++ text)) [] spec) as H3.
  { intros f. cbn [split_loop]. rewrite (proj2 (Hl (length name + 3)%nat (Some 93%Z))).
    - cbn. f_equal. unfold text. rewrite length_app. cbn. rewrite length_app. cbn. lia.
    - rewrite Ht, lookup_app_r by (cbn; lia). cbn [length]. by replace (length name + 3 - S (S (length name)))%nat with 1%nat by lia. }
  unfold scan at 1. rewrite Hlen. replace (S (length pre + length name + 4 + length rest - length pre)) with (S (S (S (S (S (length name + length rest)))))) by lia.
  rewrite H1, H2, H3. apply split_fuel. rewrite Hlen. unfold text. rewrite length_app. cbn. rewrite length_app. cbn. lia.
Qed.
Lemma scan_part first p pre rest : valid_part p →
  scan (length pre) [] (pre ++ part_chars first p ++ rest) = scan (length (pre ++ part_chars first p)) [] (pre ++ part_chars first p ++ rest).
Proof using LAWS.
  destruct p as [[q|] name]; intros [Hne Hv]; cbn in Hne, Hv; unfold part_chars; cbn [fst snd].
  - destruct Hv as [Hq Hv]. by apply scan_bracket.
  - assert (Forall (λ c, ordinary c = true) name) as Hn by (eapply list.Forall_impl; [done|]; by intros ? [? _]).
    destruct first; cbn [app]; [by apply scan_plain|]. rewrite scan_step_dot. pose proof (scan_plain (pre ++ [46%Z]) name rest [] Hn) as H.
    rewrite <- !app_assoc in H. exact H.
Qed.
Lemma scan_parts ps pre rest : Forall valid_part ps →
  scan (length pre) [] (pre ++ (ps ≫= part_chars false) ++ rest) =
  scan (length (pre ++ (ps ≫= part_chars false))) [] (pre ++ (ps ≫= part_chars false) ++ rest).
Proof using LAWS.
  intros H. induction H as [|p ps Hp Hps IH] in pre |- *; [by rewrite app_nil_r|].
  change ((p :: ps) ≫= part_chars false) with (part_chars false p ++ (ps ≫= part_chars false)). rewrite <- app_assoc.
  rewrite scan_part by done. specialize (IH (pre ++ part_chars false p)). rewrite <- !app_assoc in IH. exact IH.
Qed.
Lemma scan_printed parts rest : Forall valid_part parts →
  split_override_spec_op (print_parts parts ++ rest) = scan (length (print_parts parts)) [] (print_parts parts ++ rest).
Proof using LAWS.
  intros H. unfold split_override_spec_op. rewrite split_fuel by lia. destruct H as [|p ps Hp Hps]; [done|]. cbn [print_parts].
  pose proof (scan_part true p [] ((ps ≫= part_chars false) ++ rest) Hp) as H1. cbn [app length] in H1. rewrite <- app_assoc, H1.
  apply (scan_parts ps (part_chars true p) rest Hps).
Qed.
Lemma scan_op path op value : scan (length path) [] (path ++ op_chars op ++ value) = Some (path, value, op).
Proof.
  unfold scan. cbn [split_loop]. destruct op; cbn [op_chars app]; rewrite list_lookup_middle by done; cbn [Z.eqb Pos.eqb andb].
  1,2: rewrite take_app_length; do 3 f_equal; rewrite drop_app_ge by lia; by replace (S (length path) - length path)%nat with 1%nat by lia.
  assert ((path ++ 43%Z :: 61%Z :: value) !! S (length path) = Some 61%Z) as Hn.
  { rewrite lookup_app_r by lia. by replace (S (length path) - length path)%nat with 1%nat by lia. }
  rewrite bool_decide_true by done. rewrite take_app_length. do 3 f_equal. rewrite drop_app_ge by lia. by replace (S (S (length path)) - length path)%nat with 2%nat by lia.
Qed.
Lemma scan_minus path : split_loop (S (length (path ++ [45%Z]) - length path)) (length path) [] (path ++ [45%Z]) = None.
Proof.
  replace (S (length (path ++ [45%Z]) - length path)) with 2%nat by (rewrite length_app; cbn; lia). cbn [split_loop].
  rewrite list_lookup_middle by done. cbn. rewrite lookup_ge_None_2; [done|]. rewrite length_app. cbn. lia.
Qed.

(** The ends of a text are not white space. *)
Definition tight (s : Symbol) : Prop := (∀ c s', s = c :: s' → is_whitespace c = false) ∧ (∀ c s', s = s' ++ [c] → is_whitespace c = false).
Lemma trim_left_tight c s : is_whitespace c = false → trim_left (c :: s) = c :: s.
Proof. intros H. cbn. by rewrite H. Qed.
Lemma trim_tight s : tight s → trim s = s.
Proof.
  intros [Hl Hr]. unfold trim. assert (trim_left s = s) as ->.
  { destruct s as [|c s]; [done|]. by apply trim_left_tight, (Hl c s). }
  assert (trim_left (rev s) = rev s) as ->; [|apply rev_involutive]. destruct (rev s) as [|c r] eqn:E; [done|]. apply trim_left_tight.
  apply (Hr c (rev r)). apply (f_equal (@rev _)) in E. rewrite rev_involutive in E. exact E.
Qed.
Lemma part_ends first p : valid_part p → part_chars first p ≠ [] ∧
  (first = true → ∀ c s, part_chars first p = c :: s → is_whitespace c = false) ∧ ∀ c s, part_chars first p = s ++ [c] → is_whitespace c = false.
Proof using LAWS.
  destruct brackets_no_space as [H91 H93]. destruct p as [[q|] name]; intros [Hne Hv]; cbn in Hne, Hv; unfold part_chars; cbn [fst snd].
  - split_and!; [done|by intros _ c s [= <- _]|]. intros c s H. change (91%Z :: q :: name ++ [q; 93%Z]) with ((91%Z :: q :: name) ++ [q] ++ [93%Z]) in H.
    rewrite app_assoc in H. apply app_inj_tail in H as [_ <-]. done.
  - assert (∀ c, c ∈ name → is_whitespace c = false) as Hn by (intros c Hc; by eapply list.Forall_forall in Hv as [_ ?]).
    split_and!; [by destruct first, name| |].
    + intros -> c s. cbn [app]. intros ->. apply Hn. by left.
    + intros c s H. apply Hn. destruct name as [|x name] using rev_ind; [done|]. clear IHname. rewrite app_assoc in H. apply app_inj_tail in H as [_ ->].
      apply elem_of_app. right. by left.
Qed.
Lemma printed_tight parts : Forall valid_part parts → parts ≠ [] → tight (print_parts parts) ∧ print_parts parts ≠ [].
Proof using LAWS.
  intros H Hne. destruct H as [|p ps Hp Hps]; [done|]. cbn [print_parts]. destruct (part_ends true p Hp) as (Hpn & Hl & Hr). split; [split|].
  - intros c s. destruct (part_chars true p) as [|x r] eqn:E; [done|]. cbn [app]. intros [= -> _]. by apply (Hl eq_refl c r).
  - intros c s. destruct ps as [|p' ps _] using rev_ind; [cbn; rewrite app_nil_r; by apply Hr|]. apply list.Forall_app in Hps as [_ Hp']. apply list.Forall_cons in Hp' as [Hp' _].
    destruct (part_ends false p' Hp') as (Hn' & _ & Hr'). rewrite bind_app. cbn [mbind list_bind]. rewrite app_nil_r.
    destruct (part_chars false p') as [|x r _] using rev_ind; [done|]. rewrite !app_assoc. intros [_ <-]%app_inj_tail. by apply (Hr' x r).
  - intros Hnil. by apply app_eq_nil in Hnil as [? _].
Qed.
Lemma spec_read parts op value : parts ≠ [] → Forall valid_part parts → value ≠ [] → trim value = value →
  parse_override_spec (print_parts parts ++ op_chars op ++ value) = inr (MkSpec (print_parts parts) value CreateOrUpdate op) ∧
  parse_override_spec (print_parts parts ++ [45%Z]) = inr (MkSpec (print_parts parts) [] Delete Override).
Proof using LAWS.
  intros Hp Hv Hne Ht. destruct (printed_tight parts Hv Hp) as [Htight Hn]. unfold parse_override_spec. rewrite !scan_printed, scan_op by done.
  rewrite trim_tight, Ht by done. split; [destruct (print_parts parts); [done|]; by destruct value|].
  unfold scan. rewrite scan_minus. unfold strip_minus. rewrite rev_app_distr. cbn [rev app Z.eqb Pos.eqb]. rewrite rev_involutive, trim_tight by done. by destruct (print_parts parts).
Qed.
End Texts.

(** C10: The specification of an override is read back from its text, whatever quotes the path
    uses, with a value for each of the three operations or as a deletion, and so are the
    names of its path. *)
Theorem spec_roundtrip {LIB : Library} {LAWS : LibraryLaws LIB} parts op value :
  parts ≠ [] → Forall valid_part parts → value ≠ [] → trim value = value →
  parse_override_spec (print_parts parts ++ op_chars op ++ value) = inr (MkSpec (print_parts parts) value CreateOrUpdate op) ∧
  parse_override_spec (print_parts parts ++ [45%Z]) = inr (MkSpec (print_parts parts) [] Delete Override) ∧
  parse_attribute_path (print_parts parts) = inr parts.*2.
Proof. intros Hp Hv Hn Ht. destruct (spec_read parts op value Hp Hv Hn Ht). split_and!; [done..|by apply path_printed]. Qed.

(** ** Samples *)

Fixpoint closing (q : Z) (s : Symbol) : option nat :=
  match s with [] => None | c :: s => if Z.eqb c q then Some 0%nat else S <$> closing q s end.
#[export] Instance sample_library : Library := {|
  is_whitespace c := Z.eqb c 32;
  quoted_match q text := match text with c :: s => if Z.eqb c q then (λ n, n + 2)%nat <$> closing q s else None | [] => None end;
  debug s := s;
  float_text _ := [];
  parse_expr s := Ok (match s with [] => None | _ => Some (IdentifierExpr [s]) end);
|}.
Lemma closing_end q s rest : quote_char q = true → Forall (λ c, quote_char c = false) s → closing q (s ++ q :: rest) = Some (length s).
Proof.
  intros Hq H. induction H as [|c s Hc Hs IH]; cbn; [by rewrite Z.eqb_refl|]. destruct (Z.eqb c q) eqn:E; [apply Z.eqb_eq in E; subst; congruence|]. by rewrite IH.
Qed.
#[export] Instance sample_laws : LibraryLaws sample_library.
Proof.
  split; [done|]. intros q s rest Hq _ Hs. cbn. rewrite Z.eqb_refl, closing_end; [done..|]. eapply list.Forall_impl; [done|]. by intros ? [? _].
Qed.
Lemma spec_roundtrip_witness :
  parse_override_spec (intern "app['a=b.c'].port:80") = inr (MkSpec (intern "app['a=b.c'].port") (intern "80") CreateOrUpdate Union).
Proof.
  apply (spec_roundtrip [(None, intern "app"); (Some 39%Z, intern "a=b.c"); (None, intern "port")] Union (intern "80")).
  - done.
  - repeat constructor; done.
  - done.
  - reflexivity.
Defined.
Definition number (n : Z) : Expr := NumberLit None (Int n).
Definition entry (k : string) (v : Expr) : Entry := MkEntry (Some (IdentifierExpr [intern k])) v Union.
Definition sample_config : list Entry := [entry "image" (number 1); entry "ports" (Config [entry "web" (number 80); entry "db" (number 5432)])].
Lemma override_at_path_witness :
  let config' := (replace_config_with_path_parts sample_config [intern "ports"; intern "web"] CreateOrUpdate Override (Some (number 8080))).1 in
  values_at 2 [intern "ports"; intern "web"] config' = [number 8080] ∧ values_at 2 [intern "ports"; intern "db"] config' = [number 5432].
Proof.
  intros config'. assert (apart [intern "ports"; intern "web"] [intern "ports"; intern "db"]) as Hq.
  { split; intros [k Hk]; discriminate Hk. }
  destruct (override_at_path sample_config [intern "ports"; intern "web"] (number 8080) None) as [H _]; [done|by repeat constructor|done|].
  split; [reflexivity|]. unfold config'. destruct (replace_config_with_path_parts _ _ _ _ _) as [c b]. destruct H as (_ & _ & H).
  cbn [fst]. rewrite (H 2%nat _ Hq). vm_compute. reflexivity.
Defined.
Definition variable (s : string) : Target Expr := MkTarget (intern s) [].
Definition sample_override : OverrideTransformer := MkTransformer (intern "app") [intern "image"] (Some (number 2)) CreateOrUpdate Override.
Definition sample_module : list Stmt :=
  [SAssign [variable "base"] (Config sample_config) None; SAssign [variable "app"] (Config [entry "image" (number 1)]) None].
Lemma override_edits_target_witness :
  ∃ k, walk_module sample_override sample_module (MkState false 0) =
    Ok ([SAssign [variable "base"] (Config sample_config) None; SAssign [variable "app"] (Config [entry "image" (number 2)]) None], MkState true k).
Proof.
  destruct (override_edits_target sample_override (number 2) sample_module) as [k Hk]; [done..|]. exists k. rewrite Hk. vm_compute. reflexivity.
Defined.

(** The walk enters the configuration of any statement that is not an assignment: the override
    of [app] edits what is added to [other], and [app] keeps its image. *)
Example other_variable_edited :
  walk_module sample_override
    [SAugAssign (variable "other") AAdd (Config [entry "port" (number 80)]); SAssign [variable "app"] (Config [entry "image" (number 1)]) None]
    (MkState false 0) =
  Ok ([SAugAssign (variable "other") AAdd (Config [entry "port" (number 80); MkEntry (Some (IdentifierExpr [intern "image"])) (number 2) Override]);
       SAssign [variable "app"] (Config [entry "image" (number 1)]) None], MkState true 0).
Proof. reflexivity. Qed.
(** A path without a name. *)
Example nameless_path_panics : apply_override_on_module id [] (intern ".=1") [] = Panic IndexOutOfBounds.
Proof. reflexivity. Qed.
(** Paths that are imported already take up indices. *)
Example repeated_import_panics :
  apply_import_paths_on_module [SImport (intern "a") (intern "a") None] [intern "a"; intern "a"; intern "b"] = Panic IndexOutOfBounds.
Proof. reflexivity. Qed.
