(* ===== verification/Fix.v ===== *)
(** * Code fixes

    [crates/tools/src/fix]: the suggestions of diagnostics are applied to the files.
    [replace.rs] keeps a text as its original bytes and the parts it consists of, which
    are original, replaced or inserted; [mod.rs] turns diagnostics into suggestions and
    applies them file by file.

    A byte slice is a string.  Reading and writing files are operations of a file system
    that is a map; the lines printed on the way are left out. *)

From stdpp Require Import base tactics list strings numbers gmap.
From Stdlib Require Import ZArith Lia Ascii.
From S2P Require Import Prelude MachineInt Str Value StrMethods.
From S2P Require SemaTypes.
Local Open Scope Z_scope.
Local Set Warnings "-clear-no-such-hyp".

(** ** [replace.rs] *)

Inductive State := Initial | Replaced (data : string) | Inserted (data : string).
#[export] Instance State_eq_dec : EqDecision State.
Proof. solve_decision. Defined.
Definition is_inserted (s : State) : bool := match s with Inserted _ => true | _ => false end.

(** [span_end] belongs to the span. *)
Record Span := MkSpan { span_start : Z; span_end : Z; span_data : State }.
Record Data := MkData { original : string; parts : list Span }.

Inductive Error :=
  | StartAfterEnd (from up_to_and_including : Z)
  | RangeTooLong (from up_to_and_including len : Z)
  | NotReplaceable (from up_to_and_including : Z)
  | AlreadyReplaced
  | FromUtf8
  | LineOutOfRange
  | ReadFailed (file : string).

Definition len (s : string) : Z := Z.of_nat (slen s).
Definition saturating_sub (a b : Z) : Z := Z.max 0 (a - b).
Definition Data_new (data : string) : Data :=
  MkData data [MkSpan 0 (saturating_sub (len data) 1) Initial].

(** [&s[a..=b]] *)
Definition slice_inclusive (a b : Z) (s : string) : Res string :=
  if (a <=? b + 1) && (b <? len s) then Ok (str_slice (Z.to_nat a) (Z.to_nat (b + 1)) s)
  else Panic IndexOutOfBounds.
Definition part_text (orig : string) (d : Span) : Res string :=
  match span_data d with
  | Initial => slice_inclusive (span_start d) (span_end d) orig
  | Replaced d | Inserted d => Ok d
  end.
Fixpoint fold_parts (orig acc : string) (ps : list Span) : Res string :=
  match ps with
  | [] => Ok acc
  | d :: ps => t ← part_text orig d; fold_parts orig (acc +:+ t) ps
  end.
Definition to_vec (self : Data) : Res string :=
  if str_is_empty (original self) then Ok "" else fold_parts (original self) "" (parts self).

Definition is_replaced_by (data : string) (s : State) : bool :=
  match s with Replaced replacement => bool_decide (replacement = data) | _ => false end.

Section Fixes.
Context {HP : Profile}.

(** [usize] arithmetic *)
Definition usize (z : Z) : Res Z :=
  if (0 <=? z) && (z <? 2 ^ 64) then Ok z
  else if overflow_checks then Panic ArithOverflow else Ok (wrap_uint 64 z).

Definition covers (from up_to_and_including : Z) (p : Span) : bool :=
  negb (is_inserted (span_data p)) && (span_start p <=? from) && (up_to_and_including <=? span_end p).
(** The parts that a part of the original is split into. *)
Definition split_part (from up_to_and_including : Z) (new : State) (p : Span) : list Span :=
  (if span_start p <? from then [MkSpan (span_start p) (saturating_sub from 1) Initial] else []) ++
  [MkSpan from up_to_and_including new] ++
  (if up_to_and_including <? span_end p then [MkSpan (up_to_and_including + 1) (span_end p) Initial] else []).
Definition replace_range (self : Data) (from up_to_and_including : Z) (data : string) : Res (Error + Data) :=
  exclusive_end ← usize (up_to_and_including + 1);
  if negb (from <=? exclusive_end) then Ok (inl (StartAfterEnd from up_to_and_including))
  else if negb (up_to_and_including <=? len (original self)) then
    Ok (inl (RangeTooLong from up_to_and_including (len (original self))))
  else
    let insert_only := from =? exclusive_end in
    match list_find (λ p, covers from up_to_and_including p = true) (parts self) with
    | None => Ok (inl (NotReplaceable from up_to_and_including))
    | Some (index_of_part_to_split, p) =>
        if (span_start p =? from) && (span_end p =? up_to_and_including) && is_replaced_by data (span_data p)
        then Ok (inr self)
        else if negb (bool_decide (span_data p = Initial)) then Ok (inl AlreadyReplaced)
        else
          let new := if insert_only then Inserted data else Replaced data in
          Ok (inr (MkData (original self)
            (take index_of_part_to_split (parts self) ++ split_part from up_to_and_including new p ++
             drop (index_of_part_to_split + 1) (parts self))))
    end.

(** ** [mod.rs] *)

Record Suggestion := MkSuggestion {
  sg_message : string; file_name : string; range_start : Z; range_end : Z; replacement : string }.

Definition CodeFix_new (s : string) : Data := Data_new s.
Definition apply (self : Data) (suggestion : Suggestion) : Res (Error + Data) :=
  replace_range self (range_start suggestion) (saturating_sub (range_end suggestion) 1) (replacement suggestion).

(** [String::from_utf8]: the byte sequences of the Unicode standard. *)
Definition byte_in (lo hi : nat) (a : ascii) : bool :=
  Nat.leb lo (Ascii.nat_of_ascii a) && Nat.leb (Ascii.nat_of_ascii a) hi.
Definition cont : ascii → bool := byte_in 128 191.
Fixpoint is_utf8 (s : string) : bool :=
  match s with
  | EmptyString => true
  | String a s =>
      if byte_in 0 127 a then is_utf8 s
      else
        match s with
        | EmptyString => false
        | String b s =>
            if byte_in 194 223 a then cont b && is_utf8 s
            else
              match s with
              | EmptyString => false
              | String c s =>
                  if byte_in 224 239 a then
                    (if byte_in 224 224 a then byte_in 160 191 b
                     else if byte_in 237 237 a then byte_in 128 159 b else cont b) && cont c && is_utf8 s
                  else
                    match s with
                    | EmptyString => false
                    | String d s =>
                        byte_in 240 244 a &&
                        (if byte_in 240 240 a then byte_in 144 191 b
                         else if byte_in 244 244 a then byte_in 128 143 b else cont b) &&
                        cont c && cont d && is_utf8 s
                    end
              end
        end
  end.
Definition finish (self : Data) : Res (Error + string) :=
  v ← to_vec self; Ok (if is_utf8 v then inr v else inl FromUtf8).

(** Whether the program is built for Windows. *)
Variable windows : bool.
Definition NL : string := String "010" "".
Definition CR : ascii := "013".
Definition is_newline_at_index (s : string) (index : Z) : bool :=
  if len s <=? index then false
  else
    let at_ := str_drop (Z.to_nat index) s in
    starts_with NL at_ || (windows && starts_with (String CR NL) at_).

Fixpoint line_starts (pre_total_length : Z) (lines : list string) : list Z :=
  match lines with
  | [] => []
  | line :: lines => pre_total_length :: line_starts (pre_total_length + (len line + 1)) lines
  end.
(** [lines_length.get(line as usize - 1).unwrap() + column.unwrap_or(0) as usize] *)
Definition offset (lines_length : list Z) (p : SemaTypes.Position) : Res Z :=
  i ← usize (SemaTypes.line p - 1);
  start ← unwrap (if i <? Z.of_nat (length lines_length) then lines_length !! Z.to_nat i else None);
  usize (start + default 0 (SemaTypes.column p)).
Definition text_range (text : string) (range : SemaTypes.Range) : Res (Error + Z * Z) :=
  let lines_length := line_starts 0 (StrMethods.split NL text) in
  let n := Z.of_nat (length lines_length) in
  if negb ((SemaTypes.line range.1 <=? n) && (SemaTypes.line range.2 <=? n)) then Ok (inl LineOutOfRange)
  else
    start ← offset lines_length range.1;
    end_ ← offset lines_length range.2;
    end_ ← (if is_newline_at_index text end_ then usize (end_ + (if windows then 2 else 1)) else Ok end_);
    Ok (inr (start, end_)).

(** A message of a diagnostic, and the files. *)
Record Message := MkMessage {
  range : SemaTypes.Range; message : string; suggested_replacement : option (list string) }.
Abbreviation Files := (gmap string string).

Fixpoint diag_to_suggestion (fs : Files) (messages : list Message) (files : Files)
    : Res (Error + list Suggestion * Files) :=
  match messages with
  | [] => Ok (inr ([], files))
  | msg :: messages =>
      let replacements := default [""] (suggested_replacement msg) in
      let replacement_str := default "" (head replacements) in
      let name := SemaTypes.filename (range msg).1 in
      src ← (match files !! name with
             | Some src => Ok src
             | None => match fs !! name with Some src => Ok src | None => Panic ExpectFailed end
             end);
      r ← text_range src (range msg);
      match r with
      | inl e => Ok (inl e)
      | inr (s, e) =>
          r ← diag_to_suggestion fs messages (<[name := src]> files);
          Ok match r with
             | inl e => inl e
             | inr (l, files) => inr (MkSuggestion (message msg) name s e replacement_str :: l, files)
             end
      end
  end.
Fixpoint diags_to_suggestions (fs : Files) (diags : list (list Message)) (files : Files)
    : Res (Error + list Suggestion) :=
  match diags with
  | [] => Ok (inr [])
  | diag :: diags =>
      r ← diag_to_suggestion fs diag files;
      match r with
      | inl e => Ok (inl e)
      | inr (l, files) =>
          r ← diags_to_suggestions fs diags files;
          Ok match r with inl e => inl e | inr l' => inr (l ++ l') end
      end
  end.

(** The suggestions that fail are reported and skipped. *)
Fixpoint apply_all (self : Data) (suggestions : list Suggestion) : Res Data :=
  match suggestions with
  | [] => Ok self
  | suggestion :: suggestions =>
      r ← apply self suggestion;
      apply_all (match r with inl _ => self | inr self => self end) suggestions
  end.
Definition group (suggestions : list Suggestion) (file : string) : list Suggestion :=
  filter (λ s, file_name s = file) suggestions.
(** The files in the order of the hash map. *)
Fixpoint fix_files (suggestions : list Suggestion) (files : list string) (fs : Files)
    : Res (option Error * Files) :=
  match files with
  | [] => Ok (None, fs)
  | source_file :: files =>
      match fs !! source_file with
      | None => Ok (Some (ReadFailed source_file), fs)
      | Some source =>
          fix_ ← apply_all (CodeFix_new source) (group suggestions source_file);
          r ← finish fix_;
          match r with
          | inl e => Ok (Some e, fs)
          | inr fixes => fix_files suggestions files (<[source_file := fixes]> fs)
          end
      end
  end.
Variable hash_order : list string → list string.
Definition fix_ (diags : list (list Message)) (fs : Files) : Res (option Error * Files) :=
  r ← diags_to_suggestions fs diags ∅;
  match r with
  | inl e => Ok (Some e, fs)
  | inr suggestions => fix_files suggestions (hash_order (remove_dups (file_name <$> suggestions))) fs
  end.
End Fixes.
