(* ===== verification/FixProps.v ===== *)
(** * What the fixes of a file do

    The text after the suggestions for a file: a suggestion whose range meets none of the
    ranges replaced before is made, the others are dropped, and the rest of the text is
    kept; suggestions that do not overlap may come in any order.  The offsets of a range of
    a diagnostic, and the ranges without characters. *)

From stdpp Require Import base tactics list strings numbers gmap sorting.
From Stdlib Require Import ZArith Lia Ascii.
From S2P Require Import Prelude MachineInt Str Value StrMethods Fix.
From S2P Require SemaTypes StrProps.
Local Open Scope Z_scope.
Local Set Warnings "-clear-no-such-hyp".

(** ** Edits

    The specification: a text replaces the bytes from [from] up to [upto]. *)

Record Edit := MkEdit { from : Z; upto : Z; text : string }.
#[export] Instance Edit_eq_dec : EqDecision Edit.
Proof. solve_decision. Defined.
Definition apart (e x : Edit) : bool := (upto e <=? from x) || (upto x <=? from e).
Fixpoint place (e : Edit) (es : list Edit) : list Edit :=
  match es with
  | [] => [e]
  | x :: es' => if upto e <=? from x then e :: es else x :: place e es'
  end.
(** The edits accepted so far, in their order in the text, and one more. *)
Definition accept (n : Z) (es : list Edit) (e : Edit) : list Edit :=
  if (upto e <=? n) && forallb (apart e) es then place e es else es.
Fixpoint splice (orig : string) (lo : Z) (es : list Edit) : string :=
  match es with
  | [] => str_drop (Z.to_nat lo) orig
  | e :: es => str_slice (Z.to_nat lo) (Z.to_nat (from e)) orig +:+ text e +:+ splice orig (upto e) es
  end.

Definition edit_of (s : Suggestion) : Edit := MkEdit (range_start s) (range_end s) (replacement s).
(** A range with characters, whose bounds are those of a [usize]. *)
Definition range_ok (s : Suggestion) : Prop := 0 ≤ range_start s < range_end s ∧ range_end s < 2 ^ 64.
#[export] Instance range_ok_dec s : Decision (range_ok s).
Proof. unfold range_ok. apply _. Defined.

(** ** Parts *)

Definition edits (ps : list Span) : list Edit :=
  omap (λ p, match span_data p with
             | Replaced d => Some (MkEdit (span_start p) (span_end p + 1) d)
             | _ => None
             end) ps.
Definition initial (p : Span) : bool := bool_decide (span_data p = Initial).
(** The parts from offset [lo] to the end of [n] bytes: no two original ones in a row. *)
Fixpoint tiles (n lo : Z) (after_initial : bool) (ps : list Span) : Prop :=
  match ps with
  | [] => lo = n
  | p :: ps =>
      span_start p = lo ∧ lo ≤ span_end p < n ∧ is_inserted (span_data p) = false ∧
      (after_initial && initial p = false) ∧ tiles n (span_end p + 1) (initial p) ps
  end.

Lemma tiles_weaken n lo b ps : tiles n lo b ps → tiles n lo false ps.
Proof. destruct ps as [|p ps]; [done|]. cbn [tiles]. naive_solver. Qed.
Lemma edits_from n ps : ∀ lo b, tiles n lo b ps → Forall (λ e, lo ≤ from e) (edits ps).
Proof.
  induction ps as [|p ps IH]; intros lo b; cbn [tiles edits omap list_omap]; [constructor|].
  intros (Hs & Hr & _ & _ & Ht). apply IH in Ht.
  assert (Forall (λ e, lo ≤ from e) (edits ps)) as Ht' by (eapply list.Forall_impl; [exact Ht|]; simpl; lia).
  destruct (span_data p); [done| |done]. constructor; [simpl; lia|exact Ht'].
Qed.

Lemma list_find_cons (P : Span → Prop) `{∀ x, Decision (P x)} x l :
  list_find P (x :: l) = if decide (P x) then Some (0%nat, x) else prod_map S id <$> list_find P l.
Proof. done. Qed.

Section Range.
Variables (n s e : Z) (d : string).
Hypothesis Hse : 0 ≤ s < e.
Abbreviation find_ ps := (list_find (λ p, covers s (e - 1) p = true) ps).
Abbreviation E := (MkEdit s e d).
Abbreviation fits ps := ((upto E <=? n) && forallb (apart E) (edits ps)).

Lemma covers_spec n' p b ps lo : tiles n' lo b (p :: ps) →
  covers s (e - 1) p = (lo <=? s) && (e <=? span_end p + 1).
Proof using. intros (Hs & _ & Hi & _). unfold covers. rewrite Hi, Hs. cbn [negb andb]. f_equal. lia. Qed.
Lemma find_beyond ps : ∀ lo b, tiles n lo b ps → s < lo → find_ ps = None.
Proof using.
  induction ps as [|p ps IH]; intros lo b Ht Hlo; [done|].
  pose proof (covers_spec _ _ _ _ _ Ht) as Hc. destruct Ht as (Hs & Hr & _ & _ & Ht).
  rewrite list_find_cons, Hc. destruct (decide _) as [Hd|_]; [lia|].
  rewrite (IH _ _ Ht) by lia. done.
Qed.

(** The original part around the range is split where the range meets no edit; where it
    does, there is no part around it, or one that is not original. *)
Lemma find_part ps : ∀ lo b, tiles n lo b ps → 0 ≤ lo ≤ s →
  match find_ ps with
  | Some (k, p) =>
      if initial p then
        let ps' := take k ps ++ split_part s (e - 1) (Replaced d) p ++ drop (k + 1) ps in
        fits ps = true ∧ tiles n lo b ps' ∧ edits ps' = place E (edits ps)
      else fits ps = false
  | None => fits ps = false
  end.
Proof using Hse.
  induction ps as [|p ps IH]; intros lo b Ht Hlo.
  { cbn [tiles] in Ht. cbn [list_find]. simpl. lia. }
  pose proof (covers_spec _ _ _ _ _ Ht) as Hc. pose proof (edits_from _ _ _ _ Ht) as Hall.
  pose proof Ht as (Hs & Hr & Hins & Hb & Ht'). pose proof (edits_from _ _ _ _ Ht') as Hfrom.
  rewrite list_find_cons, Hc. destruct (decide _) as [Hd|Hd].
  - unfold initial. case_bool_decide as Hi.
    + cbn [take drop Nat.add app]. cbn [edits omap list_omap] in *. rewrite Hi in *. fold (edits ps) in *.
      assert (place E (edits ps) = E :: edits ps) as ->.
      { destruct (edits ps) as [|x es]; [done|]. cbn [place]. apply list.Forall_cons in Hfrom as [Hx _].
        cbn [upto]. replace (e <=? from x) with true by lia. done. }
      split; [|split].
      * apply andb_true_iff. split; [cbn [upto]; lia|]. apply forallb_forall. intros x Hx%list_elem_of_In.
        rewrite list.Forall_forall in Hfrom. specialize (Hfrom x Hx). unfold apart. cbn [upto]. lia.
      * unfold split_part, saturating_sub. rewrite Hs. unfold initial in *. rewrite Hi in *.
        destruct (lo <? s) eqn:E1, (e - 1 <? span_end p) eqn:E2; cbn [app tiles span_start span_end span_data is_inserted initial];
          unfold initial; cbn [span_data]; rewrite ?bool_decide_true by done; rewrite ?bool_decide_false by done;
          rewrite ?andb_false_r in *; repeat split; try done; try lia.
        all: rewrite bool_decide_true, ?andb_true_r in * by done; try done.
        all: try (replace (e - 1 + 1) with (span_end p + 1) by lia; by eapply tiles_weaken).
      * unfold split_part. destruct (_ <? s), (_ <? span_end p); cbn [app edits omap list_omap span_data span_start span_end]; replace (e - 1 + 1) with e by lia; done.
    + destruct (span_data p) as [|r|] eqn:Ep; [done| |done]. cbn [edits omap list_omap]. rewrite Ep.
      cbn [forallb]. unfold apart at 1. cbn [upto from]. lia.
  - destruct (decide (span_end p < s)) as [Hlt|Hge].
    + specialize (IH _ _ Ht' ltac:(lia)).
      assert (fits (p :: ps) = fits ps) as ->.
      { cbn [edits omap list_omap]. destruct (span_data p); try done. fold (edits ps). cbn [forallb].
        unfold apart at 1. cbn [upto from]. replace (e <=? span_start p) with false by lia.
        replace (span_end p + 1 <=? s) with true by lia. done. }
      destruct (find_ ps) as [[k q]|]; [|done]. change (prod_map S id <$> Some (k, q)) with (Some (S k, q)).
      cbv iota beta zeta in *. destruct (initial q); [|done].
      destruct IH as (H1 & H2 & H3). split; [done|]. cbn [Nat.add take drop app]. split.
      * cbn [tiles]. repeat split; try done; lia.
      * cbn [edits omap list_omap]. fold (edits ps).
        change (omap _ ?l) with (edits l). rewrite H3. destruct (span_data p) as [|r|]; [done| |done].
        cbn [place upto from]. replace (e <=? span_start p) with false by lia. done.
    + rewrite (find_beyond _ _ _ Ht') by lia. cbn [fmap option_fmap option_map].
      cbn [edits omap list_omap]. fold (edits ps). unfold initial in *. destruct (span_data p) as [|r|] eqn:Ep; [|clear IH|done].
      * rewrite bool_decide_true in Ht' by done. destruct ps as [|q ps]; cbn [tiles] in Ht'.
        { cbn [upto]. simpl. lia. }
        destruct Ht' as (Hq & Hqr & Hqi & Hqn & _). unfold initial in Hqn. cbn [andb] in Hqn.
        apply bool_decide_eq_false in Hqn. cbn [edits omap list_omap]. destruct (span_data q) as [|r|]; [done| |done].
        cbn [forallb]. unfold apart at 1. cbn [upto from]. lia.
      * cbn [forallb]. unfold apart at 1. cbn [upto from]. lia.
Qed.
End Range.

(** ** The text of the parts *)

Lemma str_slice_drop a b s : (a ≤ b)%nat → str_slice a b s +:+ str_drop b s = str_drop a s.
Proof.
  intros Hab. unfold str_slice. rewrite <- (str_take_drop (b - a) (str_drop a s)) at 2. f_equal.
  revert b Hab s. induction a as [|a IH]; intros b Hab s; [by rewrite Nat.sub_0_r|].
  destruct b as [|b]; [lia|]. destruct s as [|x s]; [by destruct (S b - S a)%nat|]. cbn [str_drop]. rewrite IH by lia. done.
Qed.
Lemma str_take_add i j s : str_take (i + j) s = str_take i s +:+ str_take j (str_drop i s).
Proof.
  revert s. induction i as [|i IH]; intros s; [done|]. destruct s as [|x s]; [by destruct j|].
  cbn [Nat.add str_take str_drop String.append]. by rewrite IH.
Qed.
Lemma splice_from orig lo b es : 0 ≤ lo ≤ b → Forall (λ e, b ≤ from e) es →
  str_slice (Z.to_nat lo) (Z.to_nat b) orig +:+ splice orig b es = splice orig lo es.
Proof.
  intros Hb [|e es' He _]; cbn [splice].
  - apply str_slice_drop. lia.
  - rewrite <- str_app_assoc. f_equal. apply StrProps.str_slice_app; lia.
Qed.
Lemma fold_parts_text orig ps : ∀ lo b acc, tiles (len orig) lo b ps → 0 ≤ lo →
  fold_parts orig acc ps = Ok (acc +:+ splice orig lo (edits ps)).
Proof.
  induction ps as [|p ps IH]; intros lo b acc Ht Hlo; cbn [fold_parts edits omap list_omap].
  { cbn [tiles] in Ht. subst lo. cbn [splice]. unfold len. rewrite Nat2Z.id.
    rewrite <- (str_app_nil_r orig) at 2. by rewrite str_drop_app_slen, str_app_nil_r. }
  destruct Ht as (Hs & Hr & Hi & _ & Ht). fold (edits ps). pose proof (edits_from _ _ _ _ Ht) as Hfrom.
  unfold part_text. destruct (span_data p) as [|d|]; [| |done].
  - unfold slice_inclusive. rewrite Hs. replace (lo <=? span_end p + 1) with true by lia.
    replace (span_end p <? len orig) with true by lia. cbn [andb mbind Res_bind]. rewrite (IH _ _ _ Ht) by lia.
    rewrite str_app_assoc. do 2 f_equal. apply splice_from; [lia|done].
  - cbn [mbind Res_bind]. rewrite (IH _ _ _ Ht) by lia. cbn [splice from upto text]. rewrite Hs.
    rewrite str_app_assoc. do 2 f_equal. unfold str_slice. rewrite Nat.sub_diag. by destruct (str_drop _ _).
Qed.

(** ** Suggestions *)

(** The data of a text of which the edits have been made. *)
Definition made (orig : string) (es : list Edit) (self : Data) : Prop :=
  original self = orig ∧ tiles (len orig) 0 false (parts self) ∧ edits (parts self) = es.

Lemma made_new orig : orig ≠ "" → made orig [] (CodeFix_new orig).
Proof.
  intros Ho. unfold made, CodeFix_new, Data_new. cbn [original parts edits omap list_omap span_data].
  repeat split; cbn [tiles span_start span_end span_data is_inserted andb]; unfold saturating_sub, len;
    (destruct orig; [done|]); cbn [slen]; try lia; done.
Qed.
Lemma made_text orig es self : orig ≠ "" → made orig es self → to_vec self = Ok (splice orig 0 es).
Proof.
  intros Ho (<- & Ht & <-). unfold to_vec, str_is_empty. rewrite bool_decide_false by done.
  by rewrite (fold_parts_text _ _ _ _ _ Ht).
Qed.

Section Accepted.
Context {HP : Profile}.

Lemma apply_accept orig es self s : made orig es self → range_ok s →
  ∃ r, apply self s = Ok r ∧ made orig (accept (len orig) es (edit_of s)) (match r with inl _ => self | inr self => self end).
Proof using.
  intros (Ho & Ht & He) (Hs & Hb). unfold apply, replace_range, saturating_sub.
  replace (Z.max 0 (range_end s - 1)) with (range_end s - 1) by lia.
  unfold usize. replace ((0 <=? range_end s - 1 + 1) && (range_end s - 1 + 1 <? 2 ^ 64)) with true by lia.
  cbn [mbind Res_bind]. replace (range_start s <=? range_end s - 1 + 1) with true by lia. cbn [negb].
  replace (range_start s =? range_end s - 1 + 1) with false by lia. rewrite Ho.
  pose proof (find_part (len orig) (range_start s) (range_end s) (replacement s) ltac:(lia) _ _ _ Ht ltac:(lia)) as Hf.
  rewrite He in Hf. fold (edit_of s) in Hf. unfold accept. destruct (negb _) eqn:Elen.
  { eexists. split; [done|]. replace (upto (edit_of s) <=? len orig) with false by (cbn [edit_of upto]; lia). done. }
  destruct (list_find _ _) as [[k p]|].
  2: { rewrite Hf. eexists. by split. }
  destruct (initial p) eqn:Ei.
  - destruct Hf as (-> & Ht' & He'). apply bool_decide_eq_true in Ei. rewrite Ei. cbn [is_replaced_by].
    rewrite andb_false_r, bool_decide_true by done. cbn [negb]. eexists. split; [done|]. by split.
  - rewrite Hf. unfold initial in Ei. rewrite Ei. cbn [negb]. destruct (_ && _ && _); eexists; by split.
Qed.
Lemma apply_all_accept orig suggestions : ∀ es self, made orig es self → Forall range_ok suggestions →
  ∃ self', apply_all self suggestions = Ok self' ∧
    made orig (foldl (accept (len orig)) es (edit_of <$> suggestions)) self'.
Proof using.
  induction suggestions as [|s l IH]; intros es self Hm Hok; [by exists self|].
  apply list.Forall_cons in Hok as [Hs Hl]. destruct (apply_accept orig es self s Hm Hs) as (r & Hr & Hm').
  cbn [apply_all fmap list_fmap foldl]. rewrite Hr. cbn [mbind Res_bind]. by apply IH.
Qed.

(** C11: the fixes of a text.  Whatever the suggestions with ranges of at least one byte,
    the fixes do not fail: each of them is made where its range lies in the text and meets
    no range replaced before, and dropped otherwise; the result is the text with the
    accepted ranges replaced and everything else kept. *)
Theorem fixes_applied orig suggestions : orig ≠ "" → Forall range_ok suggestions →
  ∃ self, apply_all (CodeFix_new orig) suggestions = Ok self ∧
    to_vec self = Ok (splice orig 0 (foldl (accept (len orig)) [] (edit_of <$> suggestions))).
Proof using.
  intros Ho Hok. destruct (apply_all_accept orig suggestions [] _ (made_new orig Ho) Hok) as (self & Ha & Hm).
  exists self. split; [done|]. by apply made_text.
Qed.
End Accepted.

(** ** Suggestions that do not overlap *)

Definition ordered : list Edit → Prop := StronglySorted (λ e x, upto e ≤ from x).
Definition edit_ok (n : Z) (e : Edit) : Prop := from e < upto e ≤ n.
Lemma place_perm e es : place e es ≡ₚ e :: es.
Proof.
  induction es as [|x es IH]; [done|]. cbn [place]. destruct (_ <=? _); [done|]. rewrite IH. apply Permutation_swap.
Qed.
Lemma place_ordered n e es : ordered es → Forall (edit_ok n) (e :: es) → Forall (λ x, apart e x = true) es →
  ordered (place e es).
Proof.
  intros Hs. induction Hs as [|x es Hs IH Hx]; intros Hok Hap; cbn [place]; [repeat constructor|].
  apply list.Forall_cons in Hok as [He Hok]. apply list.Forall_cons in Hok as [Hox Hok].
  apply list.Forall_cons in Hap as [Ha Hap]. unfold edit_ok in *. case_goal.
  - constructor; [by constructor|]. constructor; [lia|]. eapply list.Forall_impl; [exact Hx|]. simpl. intros y Hy. lia.
  - constructor; [apply IH; [by constructor|done]|]. rewrite place_perm. constructor; [|done]. unfold apart in Ha. lia.
Qed.
Lemma accept_all n l : ∀ es, ordered es → Forall (edit_ok n) (l ++ es) →
  (∀ i j e x, (l ++ es) !! i = Some e → (l ++ es) !! j = Some x → i ≠ j → apart e x = true) →
  ordered (foldl (accept n) es l) ∧ foldl (accept n) es l ≡ₚ l ++ es.
Proof.
  induction l as [|e l IH]; intros es Hs Hok Hap; [done|]. cbn [foldl app]. cbn [app] in Hok, Hap.
  apply list.Forall_cons in Hok as Hok'. destruct Hok' as [He Hok']. apply list.Forall_app in Hok' as [Hl Hes].
  assert (Forall (λ x, apart e x = true) es) as Hfree.
  { apply list.Forall_forall. intros x Hx. apply list_elem_of_lookup in Hx as [j Hj].
    apply (Hap 0%nat (S (length l + j)) e x); [done| |lia].
    change (e :: l ++ es) with ((e :: l) ++ es). rewrite lookup_app_r by (simpl; lia).
    by replace (S (length l + j) - length (e :: l))%nat with j by (simpl; lia). }
  assert (accept n es e = place e es) as ->.
  { unfold accept. replace (upto e <=? n) with true by (unfold edit_ok in He; lia). cbn [andb].
    rewrite (proj2 (forallb_forall _ _)); [done|]. intros x Hx%list_elem_of_In. rewrite list.Forall_forall in Hfree. by apply Hfree. }
  assert (l ++ place e es ≡ₚ e :: l ++ es) as Hp by (rewrite place_perm; by rewrite Permutation_middle).
  destruct (IH (place e es)) as [H1 H2].
  - apply (place_ordered n); [done|by constructor|done].
  - by rewrite Hp.
  - intros i j x y Hi Hj Hij. apply Permutation_inj in Hp as [_ (f & Hinj & Hf)].
    rewrite Hf in Hi, Hj. apply (Hap (f i) (f j)); [done..|]. intros E. by apply Hij, Hinj.
  - split; [done|]. by rewrite H2.
Qed.
Lemma ordered_unique n l1 l2 : ordered l1 → ordered l2 → Forall (edit_ok n) l1 → l1 ≡ₚ l2 → l1 = l2.
Proof.
  intros H1 H2 Hok Hp. apply (StronglySorted_unique_strong (λ e x, upto e ≤ from x)); [|done..].
  intros x y Hx Hy Hxy Hyx. rewrite list.Forall_forall in Hok. pose proof (Hok x Hx).
  rewrite <- Hp in Hy. pose proof (Hok y Hy). unfold edit_ok in *. lia.
Qed.


Lemma ordered_apart es : ordered es → ∀ i j e x, es !! i = Some e → es !! j = Some x → i ≠ j → apart e x = true.
Proof.
  intros Hs. induction Hs as [|y es Hs IH Hy]; intros i j e x Hi Hj Hij; [done|].
  rewrite list.Forall_forall in Hy. unfold apart in *.
  destruct i as [|i], j as [|j]; [done| | |by apply (IH i j); [..|congruence]].
  - injection Hi as ->. change (es !! j = Some x) in Hj. apply list_elem_of_lookup_2 in Hj. specialize (Hy x Hj). lia.
  - injection Hj as ->. change (es !! i = Some e) in Hi. apply list_elem_of_lookup_2 in Hi. specialize (Hy e Hi). lia.
Qed.

(** the order of the fixes does not matter.  Suggestions whose ranges lie in the text
    and do not overlap are all made, in whatever order they come. *)
Theorem fixes_any_order `{HP : Profile} orig es suggestions : orig ≠ "" → ordered es → Forall (edit_ok (len orig)) es →
  Forall range_ok suggestions → edit_of <$> suggestions ≡ₚ es →
  ∃ self, apply_all (CodeFix_new orig) suggestions = Ok self ∧ to_vec self = Ok (splice orig 0 es).
Proof.
  intros Ho Hs Hok Hr Hp.
  destruct (apply_all_accept orig suggestions [] _ (made_new orig Ho) Hr) as (self & Ha & Hm).
  destruct (accept_all (len orig) (edit_of <$> suggestions) []) as [Hs' Hp']; [constructor|by rewrite app_nil_r, Hp| |].
  { rewrite app_nil_r. intros i j e x Hi Hj Hij. apply Permutation_inj in Hp as [_ (f & Hinj & Hf)].
    rewrite Hf in Hi, Hj. apply (ordered_apart es Hs (f i) (f j)); [done..|]. intros E. by apply Hij, Hinj. }
  rewrite app_nil_r in Hp'. pose proof (Permutation_trans Hp' Hp) as Hp''. symmetry in Hp''.
  exists self. split; [done|]. rewrite (made_text _ _ _ Ho Hm). f_equal. f_equal.
  symmetry. by apply (ordered_unique (len orig)).
Qed.

(** ** The range of a diagnostic *)

Lemma len_app s t : len (s +:+ t) = len s + len t.
Proof. unfold len. rewrite slen_app. lia. Qed.
Lemma len_nonneg s : 0 ≤ len s.
Proof. unfold len. lia. Qed.
Definition ended (line : string) : string := line +:+ NL.
Lemma join_take k : ∀ ls line, ls !! k = Some line →
  join NL ls = str_concat (ended <$> take k ls) +:+ line +:+
    (if (S k <? length ls)%nat then NL +:+ join NL (drop (S k) ls) else "").
Proof.
  induction k as [|k IH]; intros [|x ls] line Hl; try done.
  - injection Hl as ->. cbn [take fmap list_fmap str_concat foldr String.append length drop join].
    destruct ls as [|y ls]; [by rewrite str_app_nil_r|done].
  - change (ls !! k = Some line) in Hl. pose proof (IH ls line Hl) as IH'.
    cbn [take fmap list_fmap length drop]. rewrite StrProps.str_concat_cons.
    change (S (S k) <? S (length ls))%nat with (S k <? length ls)%nat.
    destruct ls as [|y ls]; [done|].
    change (join NL (x :: y :: ls)) with (x +:+ NL +:+ join NL (y :: ls)).
    rewrite IH'. unfold ended at 2. by rewrite !str_app_assoc.
Qed.
Lemma line_starts_lookup ls : ∀ k n, (k < length ls)%nat →
  line_starts n ls !! k = Some (n + len (str_concat (ended <$> take k ls))).
Proof.
  induction ls as [|x ls IH]; intros k n Hk; [simpl in Hk; lia|]. destruct k as [|k].
  - cbn. unfold len. simpl. f_equal. lia.
  - cbn [line_starts take fmap list_fmap length] in *. change ((?a :: ?l) !! S ?k) with (l !! k).
    rewrite IH by lia. rewrite StrProps.str_concat_cons, len_app. unfold ended at 2. rewrite len_app.
    f_equal. change (len NL) with 1. lia.
Qed.
Lemma line_starts_length ls : ∀ n, length (line_starts n ls) = length ls.
Proof. induction ls as [|x ls IH]; intros n; cbn [line_starts length]; [done|]. by rewrite IH. Qed.
Lemma lines_le_join ls : Z.of_nat (length ls) ≤ len (join NL ls) + 1.
Proof.
  induction ls as [|x [|y l] IH]; [done|unfold len; simpl; lia|].
  change (join NL (x :: y :: l)) with (x +:+ NL +:+ join NL (y :: l)). rewrite !len_app. change (len NL) with 1.
  cbn [length] in *. unfold len at 1. lia.
Qed.

Section TextRange.
Context {HP : Profile}.
Lemma usize_ok z : 0 ≤ z < 2 ^ 64 → usize z = Ok z.
Proof using. intros Hz. unfold usize. by replace (_ && _) with true by lia. Qed.
Variable content : string.
Hypothesis fits : len content + 1 < 2 ^ 64.
Abbreviation lines := (StrMethods.split NL content).

Lemma content_lines : join NL lines = content.
Proof using. exact (StrProps.join_split false (-1) NL content). Qed.
Lemma lines_flat line : line ∈ lines → str_contains NL line = false.
Proof using.
  intros Hl. pose proof (StrProps.split_no_separator false (-1) NL content ltac:(lia) ltac:(simpl; lia)) as H.
  unfold StrProps.no_separator in H. rewrite list.Forall_forall in H. exact (H line Hl).
Qed.

(** *** Columns as bytes *)

Definition bytes_before (p : SemaTypes.Position) : string :=
  str_concat (ended <$> take (Z.to_nat (SemaTypes.line p - 1)) lines) +:+
  str_take (Z.to_nat (default 0 (SemaTypes.column p))) (default "" (lines !! Z.to_nat (SemaTypes.line p - 1))).
Definition bytes_ok (p : SemaTypes.Position) : Prop :=
  1 ≤ SemaTypes.line p ≤ Z.of_nat (length lines) ∧
  0 ≤ default 0 (SemaTypes.column p) ≤ len (default "" (lines !! Z.to_nat (SemaTypes.line p - 1))).
Definition bytes_end (p : SemaTypes.Position) : string :=
  if (default 0 (SemaTypes.column p) =? len (default "" (lines !! Z.to_nat (SemaTypes.line p - 1)))) &&
     (SemaTypes.line p <? Z.of_nat (length lines)) then NL else "".

Lemma before_content p : bytes_ok p → ∃ line rest, lines !! Z.to_nat (SemaTypes.line p - 1) = Some line ∧
  content = bytes_before p +:+ str_drop (Z.to_nat (default 0 (SemaTypes.column p))) line +:+ rest ∧
  rest = if SemaTypes.line p <? Z.of_nat (length lines) then NL +:+ join NL (drop (Z.to_nat (SemaTypes.line p)) lines) else "".
Proof using.
  intros [Hl Hc]. destruct (lookup_lt_is_Some_2 lines (Z.to_nat (SemaTypes.line p - 1)) ltac:(lia)) as [line Hline].
  exists line. eexists. split; [done|]. split; [|done]. unfold bytes_before. rewrite Hline. cbn [default].
  rewrite <- content_lines at 1. rewrite (join_take _ _ _ Hline).
  rewrite <- (str_take_drop (Z.to_nat (default 0 (SemaTypes.column p))) line) at 1. rewrite !str_app_assoc. do 3 f_equal.
  replace (S (Z.to_nat (SemaTypes.line p - 1))) with (Z.to_nat (SemaTypes.line p)) by lia.
  destruct (Nat.ltb_spec (Z.to_nat (SemaTypes.line p)) (length lines)), (SemaTypes.line p <? _) eqn:E; try done; lia.
Qed.
Lemma before_len p : bytes_ok p → len (bytes_before p) ≤ len content.
Proof using. intros Hp. destruct (before_content p Hp) as (l & r & _ & -> & _). rewrite len_app. unfold len. lia. Qed.
Lemma offset_before p : bytes_ok p → offset (line_starts 0 lines) p = Ok (len (bytes_before p)).
Proof using fits.
  intros Hp. pose proof (before_len p Hp) as Hlen. destruct Hp as [Hl Hc]. unfold offset.
  rewrite line_starts_length. assert (Z.of_nat (length lines) ≤ len content + 1) as Hn.
  { pose proof (lines_le_join lines) as Hj. by rewrite content_lines in Hj. }
  rewrite usize_ok by lia. cbn [mbind Res_bind]. replace (SemaTypes.line p - 1 <? Z.of_nat (length lines)) with true by lia.
  rewrite line_starts_lookup by lia. cbn [unwrap mbind Res_bind]. unfold bytes_before in *. rewrite len_app in *.
  assert (len (str_take (Z.to_nat (default 0 (SemaTypes.column p))) (default "" (lines !! Z.to_nat (SemaTypes.line p - 1))))
    = default 0 (SemaTypes.column p)) as E by (unfold len in *; rewrite slen_take; lia).
  rewrite E in *. rewrite Z.add_0_l. pose proof (len_nonneg (str_concat (ended <$> take (Z.to_nat (SemaTypes.line p - 1)) lines))).
  rewrite usize_ok by lia. done.
Qed.
Lemma newline_after b t : is_newline_at_index false (b +:+ t) (len b) = starts_with NL t.
Proof using.
  unfold is_newline_at_index. rewrite len_app. unfold len. rewrite Nat2Z.id, str_drop_app_slen. cbn [andb]. rewrite orb_false_r.
  destruct t as [|a t]; destruct (_ <=? _) eqn:E; try done; cbn [String.length] in E;
    exfalso; clear -E; apply Z.leb_le in E; lia.
Qed.
Lemma newline_behind p : bytes_ok p →
  is_newline_at_index false content (len (bytes_before p)) = negb (str_is_empty (bytes_end p)).
Proof using.
  intros Hp. destruct (before_content p Hp) as (line & rest & Hl & Hc & Hr). destruct Hp as [Hp Hcol].
  rewrite Hl in Hcol. cbn [default id] in Hcol. rewrite Hc at 1. rewrite newline_after. unfold bytes_end. rewrite Hl. cbn [default id].
  unfold len in *. set (c := default 0 (SemaTypes.column p)) in *.
  pose proof (lines_flat line ltac:(by eapply list_elem_of_lookup_2)) as Hflat.
  destruct (decide (c = Z.of_nat (slen line))) as [->|Hne].
  - rewrite Nat2Z.id, StrProps.str_drop_slen, Z.eqb_refl. cbn [andb String.append]. rewrite Hr. by destruct (_ <? _).
  - replace (c =? Z.of_nat (slen line)) with false by lia. cbn [andb].
    pose proof (StrProps.contains_drop _ (Z.to_nat c) _ Hflat) as Hd. pose proof (slen_drop (Z.to_nat c) line) as Hsl.
    destruct (str_drop (Z.to_nat c) line) as [|a t]; [cbn [String.length] in Hsl; lia|].
    rewrite StrProps.contains_cons in Hd. apply orb_false_iff in Hd as [Hd _]. cbn [String.append starts_with NL] in *.
    destruct (Ascii.eqb _ a); [by destruct t|done].
Qed.

Lemma text_range_bytes p1 p2 : bytes_ok p1 → bytes_ok p2 →
  text_range false content (p1, p2) = Ok (inr (len (bytes_before p1), len (bytes_before p2 +:+ bytes_end p2))) ∧
  (∃ rest, content = bytes_before p1 +:+ rest) ∧ ∃ rest, content = bytes_before p2 +:+ bytes_end p2 +:+ rest.
Proof using fits.
  intros H1 H2. split; [|split].
  - unfold text_range. cbn [fst snd]. rewrite line_starts_length. pose proof H1 as [Hl1 _]. pose proof H2 as [Hl2 _].
    replace (_ && _) with true by lia. cbn [negb]. rewrite !offset_before by done. cbn [mbind Res_bind].
    rewrite newline_behind by done. rewrite len_app. unfold bytes_end. destruct (_ && _); unfold str_is_empty.
    + rewrite bool_decide_false by done. cbn [negb]. pose proof (before_len p2 H2).
      rewrite usize_ok; [done|]. unfold len in *. lia.
    + rewrite bool_decide_true by done. cbn [negb mbind Res_bind]. by rewrite Z.add_0_r.
  - destruct (before_content p1 H1) as (l & r & _ & H & _). eauto.
  - destruct (before_content p2 H2) as (l & r & Hl & H & Hr). unfold bytes_end. rewrite Hl. cbn [default id].
    destruct (_ =? _) eqn:Ec; cbn [andb]; [|by eexists]. apply Z.eqb_eq in Ec. unfold len in Ec.
    rewrite Ec, Nat2Z.id, StrProps.str_drop_slen in H. cbn [String.append] in H.
    destruct (_ <? _); [|by eexists]. eexists. rewrite H at 1. by rewrite Hr.
Qed.

(** *** Columns as characters *)

(** A position of a diagnostic: lines are counted from one, and the column is the
    number of the characters in front of it on its line. *)
Definition line_at (p : SemaTypes.Position) : string :=
  default "" (lines !! Z.to_nat (SemaTypes.line p - 1)).
Definition column_at (p : SemaTypes.Position) : nat := Z.to_nat (default 0 (SemaTypes.column p)).
(** The text in front of the position: the lines before, and the characters in front
    of it on its line. *)
Definition before (p : SemaTypes.Position) : string :=
  str_concat (ended <$> take (Z.to_nat (SemaTypes.line p - 1)) lines) +:+
  str_concat (take (column_at p) (chars (line_at p))).
(** A position in the text, with characters of one byte in front of it on its line. *)
Definition position_ok (p : SemaTypes.Position) : Prop :=
  1 ≤ SemaTypes.line p ≤ Z.of_nat (length lines) ∧ 0 ≤ default 0 (SemaTypes.column p) ∧
  (column_at p <= length (chars (line_at p)))%nat ∧
  Forall (λ c, slen c = 1%nat) (take (column_at p) (chars (line_at p))).
(** The line end behind a position at the end of a line. *)
Definition line_end (p : SemaTypes.Position) : string :=
  if bool_decide (column_at p = length (chars (line_at p))) &&
     (SemaTypes.line p <? Z.of_nat (length lines)) then NL else "".

Lemma str_concat_app l1 l2 : str_concat (l1 ++ l2) = str_concat l1 +:+ str_concat l2.
Proof using.
  induction l1 as [|c l1 IH]; [done|]. cbn [app]. by rewrite !StrProps.str_concat_cons, IH, str_app_assoc.
Qed.
Lemma slen_concat_ones l : Forall (λ c, slen c = 1%nat) l → slen (str_concat l) = length l.
Proof using.
  induction 1 as [|c l Hc _ IH]; [done|]. rewrite StrProps.str_concat_cons, slen_app, Hc, IH. done.
Qed.
Lemma one_byte_chars n s : (n <= length (chars s))%nat → Forall (λ c, slen c = 1%nat) (take n (chars s)) →
  str_take n s = str_concat (take n (chars s)) ∧ (n <= slen s)%nat ∧ (n = slen s ↔ n = length (chars s)).
Proof using.
  intros Hn Hf. pose proof (slen_concat_ones _ Hf) as Hl. rewrite length_take, Nat.min_l in Hl by done.
  assert (s = str_concat (take n (chars s)) +:+ str_concat (drop n (chars s))) as Hs.
  { rewrite <- str_concat_app, take_drop. by rewrite chars_concat. }
  pose proof (chars_length_le s). split_and!.
  - rewrite Hs at 1. rewrite <- Hl at 1. by rewrite str_take_app_slen.
  - lia.
  - split; [lia|]. intros Hn'. rewrite Hs, slen_app, Hl, Hn', drop_all. simpl. lia.
Qed.
Lemma position_bytes p : position_ok p →
  bytes_ok p ∧ bytes_before p = before p ∧ bytes_end p = line_end p.
Proof using.
  intros (Hl & Hc & Hn & Hf). destruct (one_byte_chars _ _ Hn Hf) as (Ht & Hs & He).
  unfold bytes_ok, bytes_before, before, bytes_end, line_end, column_at, line_at in *. split_and!; [lia..| |by rewrite Ht|].
  - unfold len. lia.
  - do 2 f_equal. unfold len. destruct (Z.eqb_spec (default 0 (SemaTypes.column p)) (Z.of_nat (slen (default "" (lines !! Z.to_nat (SemaTypes.line p - 1)))))).
    + rewrite bool_decide_true; [done|]. apply He. lia.
    + rewrite bool_decide_false; [done|]. rewrite <- He. lia.
Qed.

(** C12: the bytes that a diagnostic names.  For positions in the text, their lines counted
    from one and their columns in characters, with characters of one byte in front of them
    on their lines, the range goes from the end of the text in front of the first to the
    end of the text in front of the second, with the line end where the second is at the
    end of a line.  Behind a longer character the range is off ([accented_column]). *)
Theorem text_range_spec p1 p2 : position_ok p1 → position_ok p2 →
  text_range false content (p1, p2) = Ok (inr (len (before p1), len (before p2 +:+ line_end p2))) ∧
  (∃ rest, content = before p1 +:+ rest) ∧ ∃ rest, content = before p2 +:+ line_end p2 +:+ rest.
Proof using fits.
  intros (H1 & <- & _)%position_bytes (H2 & <- & <-)%position_bytes. by apply text_range_bytes.
Qed.
End TextRange.

(** ** Concrete fixes *)

Module Sample.
#[export] Instance release : Profile := {| overflow_checks := false |}.
Definition fix_at (s e : Z) (t : string) : Suggestion := MkSuggestion "" "main.k" s e t.
Definition fixed (orig : string) (l : list Suggestion) : Res (Error + string) :=
  self ← apply_all (CodeFix_new orig) l; finish self.
Definition source : string := "a = 1" +:+ NL +:+ "b = 22" +:+ NL +:+ "c = 3".
Definition pos (l c : Z) : SemaTypes.Position := SemaTypes.MkPosition "main.k" l (Some c).
Definition suggestions : list Suggestion := [fix_at 8 11 "BAZ"; fix_at 4 7 "lol"; fix_at 5 9 "x"].
Definition swapped : list Suggestion := [fix_at 8 11 "BAZ"; fix_at 4 7 "lol"].
End Sample.
#[local] Existing Instance Sample.release.

Lemma fixes_applied_witness : ∃ self, apply_all (CodeFix_new "foo bar baz") Sample.suggestions = Ok self ∧
  to_vec self = Ok "foo lol BAZ".
Proof.
  apply (fixes_applied "foo bar baz" Sample.suggestions); [done|]. repeat (apply Forall_cons_2; [vm_compute; by repeat split|]). apply Forall_nil_2.
Defined.
Lemma fixes_any_order_witness : ∃ self, apply_all (CodeFix_new "foo bar baz") Sample.swapped = Ok self ∧
  to_vec self = Ok "foo lol BAZ".
Proof.
  apply (fixes_any_order "foo bar baz" [MkEdit 4 7 "lol"; MkEdit 8 11 "BAZ"] Sample.swapped); [done| | | |apply perm_swap].
  - constructor; [constructor; [constructor|apply Forall_nil_2]|]. apply Forall_cons_2; [cbn; lia|apply Forall_nil_2].
  - apply Forall_cons_2; [|apply Forall_cons_2; [|apply Forall_nil_2]]; unfold edit_ok; vm_compute; by split.
  - apply Forall_cons_2; [|apply Forall_cons_2; [|apply Forall_nil_2]]; unfold range_ok; vm_compute; by repeat split.
Defined.
Lemma text_range_spec_witness :
  text_range false Sample.source (Sample.pos 1 4, Sample.pos 2 6) = Ok (inr (4, 13)).
Proof.
  refine (proj1 (text_range_spec Sample.source _ (Sample.pos 1 4) (Sample.pos 2 6) _ _));
    vm_compute; repeat split; first [done | repeat constructor].
Defined.

(** The tests of [replace.rs]: an insertion, and a range that was replaced before. *)
Example inserted : Sample.fixed "foo" [Sample.fix_at 3 3 " bar"] = Ok (inr "foo bar").
Proof. vm_compute. reflexivity. Qed.
Example replaced_twice : Sample.fixed "foo" [Sample.fix_at 0 2 "b"; Sample.fix_at 0 2 "b"; Sample.fix_at 1 3 "c"] = Ok (inr "bo").
Proof. vm_compute. reflexivity. Qed.

(** An insertion in front of the text replaces its first byte: the range up to zero is
    taken for the range of the byte zero.  An insertion into an empty text is lost. *)
Example insertion_at_start : Sample.fixed "foo" [Sample.fix_at 0 0 "x"] = Ok (inr "xoo").
Proof. vm_compute. reflexivity. Qed.
Example insertion_lost : Sample.fixed "" [Sample.fix_at 0 0 "x"] = Ok (inr "").
Proof. vm_compute. reflexivity. Qed.
(** The columns of a diagnostic count characters, those of a range count bytes: behind an
    accent the fix is off. *)
Definition accented : string := String "195" (String "169" " x").
Example accented_column :
  text_range false accented (Sample.pos 1 2, Sample.pos 1 3) = Ok (inr (2, 3)) ∧ str_slice 2 3 accented = " ".
Proof. vm_compute. done. Qed.
(** A message without a suggestion deletes its range. *)
Example no_suggestion_deletes :
  let fs := {["main.k" := "ab"]} in
  fix_ false id [[MkMessage (Sample.pos 1 0, Sample.pos 1 1) "unused" None]] fs = Ok (None, {["main.k" := "b"]}).
Proof. vm_compute. reflexivity. Qed.
