(* ===== verification/Vet.v ===== *)
(** * Validation of data

    [crates/tools/src/vet]: the data of a JSON or YAML file becomes an expression of the
    language ([expr_builder.rs]), which is assigned to a variable at the end of a program
    with schemas, and the program is run ([validator.rs]).

    The readers of the data, the loading and the execution of programs and the escapes of
    [fmt::Debug] are parameters.  The positions of the nodes are left out. *)

From stdpp Require Import base tactics list strings numbers.
From Stdlib Require Import ZArith Floats.
From S2P Require Import Prelude MachineInt.
From S2P Require Ast.
Local Open Scope Z_scope.

(** ** The data *)

Abbreviation Symbol := (list Z) (only parsing).

(** [serde_json::Number] and [serde_yaml::Number]: an integer of 64 bits, signed or not,
    or a float. *)
Inductive Number := Integer (z : Z) | Float (f : float).
(** [serde_json::Value] and [json_spanned_value::Value] *)
Unset Elimination Schemes.
Inductive JsonData :=
  | JNull
  | JBool (b : bool)
  | JNumber (n : Number)
  | JString (s : Symbol)
  | JArray (l : list JsonData)
  | JObject (m : list (Symbol * JsonData)).
(** [serde_yaml::Value] *)
Inductive YamlData :=
  | YNull
  | YBool (b : bool)
  | YNumber (n : Number)
  | YString (s : Symbol)
  | YSequence (l : list YamlData)
  | YMapping (m : list (YamlData * YamlData))
  | YTagged (tag : Symbol).
(** [located_yaml::YamlElt]: a float is its text; an alias or a bad value. *)
Inductive LocatedYaml :=
  | LNull
  | LBoolean (b : bool)
  | LInteger (z : Z)
  | LReal (text : Symbol)
  | LString (s : Symbol)
  | LArray (l : list LocatedYaml)
  | LHash (m : list (LocatedYaml * LocatedYaml))
  | LOther.
Set Elimination Schemes.

(** ** [expr_builder.rs] *)

Inductive Error :=
  | FailLoad
  | UnsupportedUnsigned
  | UnsupportedNumber
  | UnsupportedTag (tag : Symbol)
  | UnsupportedElement.

Section Builder.
(** [format!("{:?}", s)] of a string. *)
Variable debug_str : Symbol → Symbol.
(** [s.parse::<f64>()] and [format!("{}", f)]. *)
Variable parse_f64 : Symbol → option float.
Variable f64_to_string : float → Symbol.

Definition StringLit_from (s : Symbol) : Ast.StringLit := Ast.MkStringLit false s (debug_str s).
Definition name_constant (b : bool) : Ast.Expr := Ast.NameConstantLit (if b then Ast.NTrue else Ast.NFalse).
Definition number_expr (n : Number) : Error + Ast.Expr :=
  match n with
  | Float f => inr (Ast.NumberLit None (Ast.FloatLit f))
  | Integer z => if in_i64 z then inr (Ast.NumberLit None (Ast.Int z)) else inl UnsupportedUnsigned
  end.
Definition config_entry (k v : Ast.Expr) : Ast.ConfigEntry Ast.Expr := Ast.MkEntry (Some k) v Ast.Union.
Definition config_or_schema (schema_name : option Symbol) (items : list (Ast.ConfigEntry Ast.Expr)) : Ast.Expr :=
  match schema_name with
  | Some s_name => Ast.Schema [s_name] [] [] (Ast.Config items)
  | None => Ast.Config items
  end.

(** One after the other, up to the first error. *)
Section Each.
Context {A B : Type} (f : A → Error + B).
Fixpoint each (l : list A) : Error + list B :=
  match l with
  | [] => inr []
  | x :: l =>
      match f x with
      | inl e => inl e
      | inr y => match each l with inl e => inl e | inr ys => inr (y :: ys) end
      end
  end.
End Each.
Definition list_expr (r : Error + list Ast.Expr) : Error + Ast.Expr :=
  match r with inl e => inl e | inr l => inr (Ast.ListExpr l) end.
Definition map_expr (schema_name : option Symbol) (r : Error + list (Ast.ConfigEntry Ast.Expr)) : Error + Ast.Expr :=
  match r with inl e => inl e | inr items => inr (config_or_schema schema_name items) end.

Fixpoint generate_json (value : JsonData) (schema_name : option Symbol) : Error + Ast.Expr :=
  match value with
  | JNull => inr (Ast.NameConstantLit Ast.NNone)
  | JBool b => inr (name_constant b)
  | JNumber n => number_expr n
  | JString s => inr (Ast.StringLitExpr (StringLit_from s))
  | JArray l => list_expr (each (λ x, generate_json x schema_name) l)
  | JObject m =>
      map_expr schema_name (each (λ e,
        match generate_json e.2 None with
        | inl e => inl e
        | inr v => inr (config_entry (Ast.StringLitExpr (StringLit_from e.1)) v)
        end) m)
  end.

(** The key of an entry, then its value. *)
Definition entry_of {A} (generate : A → Error + Ast.Expr) (e : A * A) : Error + Ast.ConfigEntry Ast.Expr :=
  match generate e.1 with
  | inl e => inl e
  | inr k => match generate e.2 with inl e => inl e | inr v => inr (config_entry k v) end
  end.
Fixpoint generate_yaml (value : YamlData) (schema_name : option Symbol) : Error + Ast.Expr :=
  match value with
  | YNull => inr (Ast.NameConstantLit Ast.NNone)
  | YBool b => inr (name_constant b)
  | YNumber n => number_expr n
  | YString s => inr (Ast.StringLitExpr (StringLit_from s))
  | YSequence l => list_expr (each (λ x, generate_yaml x schema_name) l)
  | YMapping m => map_expr schema_name (each (entry_of (λ x, generate_yaml x None)) m)
  | YTagged tag => inl (UnsupportedTag tag)
  end.

Fixpoint generate_located (value : LocatedYaml) (schema_name : option Symbol) : Error + Ast.Expr :=
  match value with
  | LNull => inr (Ast.NameConstantLit Ast.NNone)
  | LBoolean b => inr (name_constant b)
  | LInteger z => if in_i64 z then inr (Ast.NumberLit None (Ast.Int z)) else inl UnsupportedNumber
  | LReal j_float =>
      match parse_f64 j_float with
      | Some number_lit =>
          if bool_decide (f64_to_string number_lit ≠ j_float) then inl UnsupportedNumber
          else inr (Ast.NumberLit None (Ast.FloatLit number_lit))
      | None => inl UnsupportedNumber
      end
  | LString s => inr (Ast.StringLitExpr (StringLit_from s))
  | LArray l => list_expr (each (λ x, generate_located x schema_name) l)
  | LHash m => map_expr schema_name (each (entry_of (λ x, generate_located x None)) m)
  | LOther => inl UnsupportedElement
  end.

Inductive LoaderKind := YAML | JSON.
(** The first document of the file, or the error of its reader. *)
Variable load_json : Symbol → string + JsonData.
Variable load_yaml : Symbol → string + LocatedYaml.
Definition build (kind : LoaderKind) (content : Symbol) (schema_name : option Symbol) : (string + Error) + Ast.Expr :=
  match kind with
  | JSON =>
      match load_json content with
      | inl e => inl (inl e)
      | inr value => match generate_json value schema_name with inl e => inl (inr e) | inr e => inr e end
      end
  | YAML =>
      match load_yaml content with
      | inl e => inl (inl e)
      | inr value => match generate_located value schema_name with inl e => inl (inr e) | inr e => inr e end
      end
  end.

(** ** [validator.rs] *)

(** The packages of a program with their modules. *)
Definition Program : Type := list (string * list Ast.Module_).
Definition MAIN_PKG : string := "__main__".
Definition build_assign (attr_name : Symbol) (node : Ast.Expr) : Ast.Stmt :=
  Ast.SAssign [Ast.MkTarget attr_name []] node None.
Definition filter_schema_stmt_from_prog (prog : Program) : list (Ast.SchemaStmt Ast.Expr Ast.Stmt) :=
  concat ((λ p, if bool_decide (p.1 = MAIN_PKG) then concat (Ast.filter_schema_stmt_from_module <$> p.2) else []) <$> prog).
Definition push_stmt (stmt : Ast.Stmt) (m : Ast.Module_) : Ast.Module_ :=
  Ast.MkModule (Ast.module_doc m) (Ast.comments m) (Ast.body m ++ [stmt]).
(** The statement at the end of the first module of the main package. *)
Fixpoint push_to_main (stmt : Ast.Stmt) (prog : Program) : option Program :=
  match prog with
  | [] => None
  | (name, modules) :: prog =>
      if bool_decide (name = MAIN_PKG) then
        match modules with
        | m :: modules => Some ((name, push_stmt stmt m :: modules) :: prog)
        | [] => None
        end
      else cons (name, modules) <$> push_to_main stmt prog
  end.

Inductive ValidateError :=
  | LoadError (msg : string)
  | DataError (e : string + Error)
  | NoMain
  | Failed (msg : string).
(** Loading the program of the options, and running a program. *)
Variable program : string + Program.
Variable execute : Program → option string.
Definition validate (schema_name : option Symbol) (attribute_name : Symbol) (kind : LoaderKind) (content : Symbol)
    : ValidateError + bool :=
  match program with
  | inl e => inl (LoadError e)
  | inr prog =>
      let schemas := filter_schema_stmt_from_prog prog in
      let schema_name := match schema_name with
                         | Some name => Some name
                         | None => @Ast.schema_name Ast.Expr Ast.Stmt <$> head schemas
                         end in
      match build kind content schema_name with
      | inl e => inl (DataError e)
      | inr validated_expr =>
          match push_to_main (build_assign attribute_name validated_expr) prog with
          | None => inl NoMain
          | Some prog => match execute prog with Some e => inl (Failed e) | None => inr true end
          end
      end
  end.
End Builder.
