(* ===== verification/VetProps.v ===== *)
(** * What the validated data evaluate to

    The expression that is built from JSON data evaluates to the value that [json.decode]
    gives for the same data, in every state of the scopes ([Scoped], which the evaluator
    of [EvalStmt] has); data of YAML with the same content give the same expression; with
    the name of a schema, the objects at the top become instances of it. *)

From stdpp Require Import base tactics list strings numbers gmap.
From Stdlib Require Import ZArith Floats Lia.
From S2P Require Import Prelude MachineInt IndexMap Str Float64 Value ListOps DictOps Arith UnionOps.
From S2P Require Ast Eval Scopes EvalStmt Json JsonProps.
From S2P Require Import Vet.
Local Open Scope Z_scope.
Local Set Warnings "-clear-no-such-hyp".

#[local] Existing Instances Eval.Ev_ret Eval.Ev_bind.

(** ** Induction *)

Lemma JsonData_ind (P : JsonData → Prop) :
  P JNull → (∀ b, P (JBool b)) → (∀ n, P (JNumber n)) → (∀ s, P (JString s)) →
  (∀ l, (∀ j, j ∈ l → P j) → P (JArray l)) →
  (∀ m, (∀ e, e ∈ m → P e.2) → P (JObject m)) → ∀ j, P j.
Proof.
  intros Hn Hb Hi Hs Ha Ho. fix IH 1. intros [| | | |l|m]; [done|apply Hb|apply Hi|apply Hs|apply Ha|apply Ho].
  - apply list.Forall_forall. induction l as [|j l IHl]; constructor; [apply IH|apply IHl].
  - apply list.Forall_forall. induction m as [|[k j] m IHm]; constructor; [apply IH|apply IHm].
Qed.

(** ** The data as a JSON form *)

Definition json_number (n : Number) : Json.JsonNumber :=
  match n with Integer z => Json.json_integer z | Float f => Json.json_float (FloatOps.Prim2SF f) end.
Fixpoint json_of (j : JsonData) : Json.JsonValue :=
  match j with
  | JNull => Json.Null
  | JBool b => Json.Bool b
  | JNumber n => Json.Number (json_number n)
  | JString s => Json.JString (Eval.text s)
  | JArray l => Json.Array (json_of <$> l)
  | JObject m => Json.Object ((λ e, (Eval.text e.1, json_of e.2)) <$> m)
  end.

(** The same data in YAML. *)
Fixpoint yaml_of (j : JsonData) : YamlData :=
  match j with
  | JNull => YNull
  | JBool b => YBool b
  | JNumber n => YNumber n
  | JString s => YString s
  | JArray l => YSequence (yaml_of <$> l)
  | JObject m => YMapping ((λ e, (YString e.1, yaml_of e.2)) <$> m)
  end.

Lemma each_fmap {A B C} (f : A → Error + C) (g : B → Error + C) (h : A → B) l :
  (∀ x, x ∈ l → g (h x) = f x) → each g (h <$> l) = each f l.
Proof.
  induction l as [|x l IH]; intros H; [done|]. cbn [fmap list_fmap each]. rewrite H by left.
  destruct (f x); [done|]. rewrite IH; [done|]. intros y Hy. apply H. by right.
Qed.
Lemma each_inr {A B} (f : A → Error + B) l ys :
  each f l = inr ys ↔ Forall2 (λ x y, f x = inr y) l ys.
Proof.
  revert ys. induction l as [|x l IH]; intros ys; cbn [each].
  - split; [intros [= <-]; constructor|]. by inversion 1.
  - split.
    + destruct (f x) as [|y] eqn:E; [done|]. destruct (each f l) as [|l']; [done|]. intros [= <-]. constructor; [done|]. by apply IH.
    + inversion 1 as [|? y ? l' Hx Hl]; subst. rewrite Hx. apply IH in Hl. by rewrite Hl.
Qed.
Lemma each_total {A B} (f : A → Error + B) l : (∀ x, x ∈ l → ∃ y, f x = inr y) → ∃ ys, each f l = inr ys.
Proof.
  induction l as [|x l IH]; intros H; [by exists []|]. cbn [each]. destruct (H x ltac:(left)) as [y ->].
  destruct IH as [ys ->]; [intros z Hz; apply H; by right|]. by eexists.
Qed.

Section Data.
Variable debug_str : list Z → list Z.
Abbreviation generate := (generate_json debug_str).

Lemma yaml_same j : ∀ name, generate_yaml debug_str (yaml_of j) name = generate j name.
Proof using.
  induction j as [|b|n|s|l IH|m IH] using JsonData_ind; intros name; try done.
  - cbn [yaml_of generate_yaml generate_json]. f_equal. apply each_fmap. intros x Hx. by apply IH.
  - cbn [yaml_of generate_yaml generate_json]. f_equal. apply each_fmap. intros [k v] Hx. cbn [entry_of fst snd generate_yaml].
    by rewrite (IH (k, v)) by done.
Qed.

(** Every object at the top, or in lists at the top, as an instance. *)
Fixpoint instances (name : list Z) (e : Ast.Expr) : Ast.Expr :=
  match e with
  | Ast.Config items => Ast.Schema [name] [] [] (Ast.Config items)
  | Ast.ListExpr l => Ast.ListExpr (instances name <$> l)
  | e => e
  end.
Lemma number_expr_instances name n : number_expr n = sum_map id (instances name) (number_expr n).
Proof using. destruct n; simpl; [|done]. by case_goal. Qed.

(** the expression of data.  Data of JSON and of YAML with the same content give the
    same expression or the same error, and the name of a schema makes instances of it of
    the objects at the top and in lists at the top, but not of those inside objects. *)
Theorem generated_form j name :
  (∀ schema_name, generate_yaml debug_str (yaml_of j) schema_name = generate j schema_name) ∧
  generate j (Some name) = sum_map id (instances name) (generate j None).
Proof using.
  split; [intros; apply yaml_same|].
  induction j as [|b|n|s|l IH|m _] using JsonData_ind; cbn [generate_json]; try done.
  - apply number_expr_instances.
  - assert (each (λ x, generate x (Some name)) l = sum_map id (fmap (instances name)) (each (λ x, generate x None) l)) as ->.
    { induction l as [|x l IHl]; [done|]. cbn [each]. rewrite IH by left. destruct (generate x None); [done|]. cbn [sum_map].
      rewrite IHl by (intros; apply IH; by right). destruct (each (λ x, generate x None) l); reflexivity. }
    destruct (each _ l); reflexivity.
  - destruct (each _ m); reflexivity.
Qed.
(** An integer that does not fit 64 bits with a sign. *)
Fixpoint too_large (j : JsonData) : bool :=
  match j with
  | JNumber (Integer z) => negb (in_i64 z)
  | JArray l => existsb too_large l
  | JObject m => existsb (λ e, too_large e.2) m
  | _ => false
  end.
Lemma each_refused {A B} (f : A → Error + B) (large : A → bool) err l :
  (∀ x, x ∈ l → if large x then f x = inl err else ∃ y, f x = inr y) →
  if existsb large l then each f l = inl err else ∃ ys, each f l = inr ys.
Proof using.
  induction l as [|x l IH]; intros H; [by exists []|]. cbn [existsb each]. pose proof (H x ltac:(left)) as Hx.
  destruct (large x); cbn [orb]; [by rewrite Hx|]. destruct Hx as [y ->].
  specialize (IH (λ z Hz, H z (list_elem_of_further _ _ _ Hz))). destruct (existsb large l); [by rewrite IH|].
  destruct IH as [ys ->]. by eexists.
Qed.
(** data that are refused.  Data have an expression unless one of their numbers, at any
    depth, is an integer that does not fit 64 bits with a sign, which is the error. *)
Theorem refused_data j : ∀ name,
  if too_large j then generate j name = inl UnsupportedUnsigned else ∃ e, generate j name = inr e.
Proof using.
  induction j as [|b|[z|f]|s|l IH|m IH] using JsonData_ind; intros name; cbn [too_large generate_json]; try by eexists.
  - cbn [number_expr]. destruct (in_i64 z); [by eexists|done].
  - pose proof (each_refused (λ x, generate x name) too_large UnsupportedUnsigned l (λ x Hx, IH x Hx name)) as H.
    destruct (existsb _ l); [by rewrite H|]. destruct H as [ys ->]. by eexists.
  - epose proof (each_refused (λ e, match generate e.2 None with inl e0 => inl e0
      | inr v => inr (config_entry (Ast.StringLitExpr (StringLit_from debug_str e.1)) v) end) (λ e, too_large e.2) UnsupportedUnsigned m _) as H.
    destruct (existsb _ m); [by rewrite H|]. destruct H as [ys ->]. by eexists.
    Unshelve. intros x Hx. specialize (IH x Hx None). cbv beta. destruct (too_large x.2); [by rewrite IH|]. destruct IH as [y ->]. by eexists.
Qed.
End Data.

(** ** Evaluation *)

(** The states with [n] scopes over those of the start, in which scopes are entered and
    left and variables stored in the innermost one of them. *)
Class Scoped (S : Type) `{HS : Eval.Scopes S} := {
  scoped : nat → S → Prop;
  enter_ok n s : scoped n s → ∃ s', Eval.enter_scope s = Ok (Eval.Done tt, s') ∧ scoped (1 + n) s';
  leave_ok n s : scoped (1 + n) s → ∃ s', Eval.leave_scope s = Ok (Eval.Done tt, s') ∧ scoped n s';
  local_ok n s name : scoped n s → ∃ b s', Eval.is_local_var name s = Ok (Eval.Done b, s') ∧ scoped n s';
  store_ok n s name v : scoped (1 + n) s →
    ∃ s', Eval.add_or_update_local_variable_within_scope name v s = Ok (Eval.Done tt, s') ∧ scoped (1 + n) s' }.

Section Values.
Context {HP : Profile} {HC : ContextConfig}.
Variable powf : f64 → f64 → f64.
Variable to_json_string to_yaml_string : ValueRef → string.
Variable f64_to_string : f64 → string.
Variable schemas : string → option (ValueRef → ValueRef → ValueRef → Res ValueRef).
Variable type_pack_and_check : ValueRef → list string → bool → Res ValueRef.
Variable to_lowercase : string → string.
Context {S : Type} {HS : Eval.Scopes S} {HI : Scoped S}.
Variable rest : Ast.Expr → Eval.Ev S ValueRef.
Variable debug_str : list Z → list Z.
Abbreviation eval := (Eval.walk_expr powf to_json_string to_yaml_string f64_to_string schemas
  type_pack_and_check to_lowercase rest).
Abbreviation generate := (generate_json debug_str).

(** The evaluation ends with the value, in as many scopes as before. *)
Definition gives {A} (n : nat) (m : Eval.Ev S A) (a : A) : Prop :=
  ∀ s, scoped n s → ∃ s', m s = Ok (Eval.Done a, s') ∧ scoped n s'.
Lemma gives_ret {A} n (a : A) : gives n (mret a) a.
Proof using. intros s Hs. by exists s. Qed.
Lemma gives_bind {A B} n (m : Eval.Ev S A) (f : A → Eval.Ev S B) a b :
  gives n m a → gives n (f a) b → gives n (m ≫= f) b.
Proof using.
  intros Hm Hf s Hs. destruct (Hm s Hs) as (s1 & E1 & H1). destruct (Hf s1 H1) as (s2 & E2 & H2).
  exists s2. split; [|done]. cbn [mbind Eval.Ev_bind]. unfold mbind, Eval.Ev_bind. by rewrite E1.
Qed.
Lemma gives_lift {A} n (r : Res A) a : r = Ok a → gives n (Eval.lift r) a.
Proof using. intros -> s Hs. by exists s. Qed.
Lemma gives_scope {A} n (m : Eval.Ev S A) a : gives (1 + n) m a →
  gives n (Eval.enter_scope;; Eval.deferred m Eval.leave_scope) a.
Proof using.
  intros Hm s Hs. destruct (enter_ok n s Hs) as (s1 & E1 & H1). destruct (Hm s1 H1) as (s2 & E2 & H2).
  destruct (leave_ok n s2 H2) as (s3 & E3 & H3). exists s3. split; [|done].
  unfold mbind, Eval.Ev_bind, Eval.deferred. by rewrite E1, E2, E3.
Qed.

Lemma insert_fresh_key d key v op : key ∉ (values d).*1 →
  Eval.dict_insert to_json_string schemas (Ref (dict_value d)) key v op None =
  Ok (Ref (dict_value (MkDict (values d ++ [(key, v)]) (map_insert key (Eval.operation_kind op) (ops d))
    (insert_indexs d) (attr_map d) None (schema_args d)))).
Proof using.
  intros Hk. unfold Eval.dict_insert, Eval.dict_merge_key_value_pair, Eval.union_entry, Eval.union, union_with.
  cbn [is_config rc is_none_or_undefined is_list_or_config andb]. unfold do_union_with, union_fn.
  cbn [rc values ops insert_indexs attr_map potential_schema schema_args union_entries].
  unfold union_step, contains_key. cbn [map_get insert_indexs is_some negb values].
  rewrite (proj2 (map_get_None _ _) Hk). cbn [negb andb mbind Res_bind conflict UnionContext_default].
  unfold put_value, set_values. cbn [values ops insert_indexs attr_map potential_schema schema_args].
  by rewrite map_insert_fresh.
Qed.

(** The entries of an object, behind those evaluated before. *)
Lemma gives_entries n (es : list (list Z * JsonData)) items : ∀ m : IndexMap string ValueRef,
  Forall2 (λ e item, ∃ v, item = config_entry (Ast.StringLitExpr (StringLit_from debug_str e.1)) v ∧
                          gives (1 + n) (eval v) (JsonProps.value_of (json_of e.2))) es items →
  NoDup (m.*1 ++ ((λ e, Eval.text e.1) <$> es)) →
  gives (1 + n) (Eval.config_entries to_json_string f64_to_string schemas eval items (JsonProps.dict_of_entries m))
    (JsonProps.dict_of_entries (m ++ ((λ e, (Eval.text e.1, JsonProps.value_of (json_of e.2))) <$> es))).
Proof using.
  intros m Hl. revert m. induction Hl as [|[k j] item es items (v & -> & Hv) Hl IH]; intros m Hnd.
  { rewrite app_nil_r. apply gives_ret. }
  cbn [Eval.config_entries config_entry Ast.entry_value Ast.key Ast.operation]. eapply gives_bind; [exact Hv|].
  eapply gives_bind; [by apply gives_lift|]. cbn beta iota.
  apply (gives_bind _ _ _ (ref_str (Eval.text k))).
  { intros s Hs. destruct (local_ok _ s (Eval.text k) Hs) as (b & s' & E & Hs'). exists s'. split; [|done].
    unfold mbind, Eval.Ev_bind. cbn [StringLit_from Ast.value fst]. rewrite E. by destruct b. }
  apply list.NoDup_app in Hnd as Hnd'. destruct Hnd' as (_ & Hdis & _).
  assert (Eval.text k ∉ m.*1) as Hk by (intros Hin; apply (Hdis _ Hin); by left).
  eapply gives_bind; [apply gives_lift; unfold JsonProps.dict_of_entries; by apply insert_fresh_key|].
  cbn [values ops insert_indexs attr_map schema_args Eval.operation_kind].
  rewrite map_insert_fresh by (rewrite <- list_fmap_compose; exact Hk).
  change (as_str (ref_str (Eval.text k))) with (Eval.text k). set (w := JsonProps.value_of (json_of (k, j).2)).
  change [(Eval.text k, Union)] with ((λ e : string * ValueRef, (e.1, Union)) <$> [(Eval.text k, w)]).
  rewrite <- fmap_app. change (Ref (dict_value _)) with (JsonProps.dict_of_entries (m ++ [(Eval.text k, w)])).
  eapply gives_bind. { intros s Hs. apply store_ok, Hs. }
  cbn [fmap list_fmap fst]. fold w.
  match goal with |- gives _ _ (JsonProps.dict_of_entries (m ++ ?x :: ?l)) => rewrite (cons_middle x m l), (app_assoc m [x] l) end.
  apply IH.
  rewrite fmap_app, <- app_assoc. exact Hnd.
Qed.
Lemma gives_items n l es : ∀ vs : list ValueRef,
  Forall2 (λ j e, Eval.is_unpacked e = false ∧ gives n (eval e) (JsonProps.value_of (json_of j))) l es →
  gives n (Eval.append_items eval es (ref_list vs)) (ref_list (vs ++ ((λ j, JsonProps.value_of (json_of j)) <$> l))).
Proof using.
  intros vs Hl. revert vs. induction Hl as [|j e l es [He Hv] Hl IH]; intros vs.
  { rewrite app_nil_r. apply gives_ret. }
  cbn [Eval.append_items]. rewrite He. eapply gives_bind; [exact Hv|].
  eapply gives_bind; [by apply gives_lift|]. cbn [fmap list_fmap ref_list list_values].
  match goal with |- gives _ _ (ref_list (vs ++ ?x :: ?l)) => rewrite (cons_middle x vs l), (app_assoc vs [x] l) end.
  apply IH.
Qed.

Lemma generated_not_unpacked j e : generate j None = inr e → Eval.is_unpacked e = false.
Proof using.
  destruct j as [|b|n|s|l|m]; cbn [generate_json]; try by intros [= <-].
  - destruct n; cbn [number_expr]; [case_goal; [|done]|]; by intros [= <-].
  - destruct (each _ l); [done|]. by intros [= <-].
  - destruct (each _ m); [done|]. by intros [= <-].
Qed.
(** The expression of data evaluates to the value of its JSON form. *)
Lemma generated_value j : JsonProps.json_ok (json_of j) = true →
  ∃ e, generate j None = inr e ∧ ∀ n, gives n (eval e) (JsonProps.value_of (json_of j)).
Proof using.
  induction j as [|b|[z|f]|s|l IH|m IH] using JsonData_ind; cbn [json_of JsonProps.json_ok generate_json json_number]; intros Hok.
  - eexists. split; [done|]. intros n. apply gives_ret.
  - eexists. split; [done|]. intros n. destruct b; apply gives_ret.
  - cbn [number_expr]. rewrite Hok. eexists. split; [done|]. intros n. apply gives_ret.
  - eexists. split; [done|]. intros n. apply gives_ret.
  - eexists. split; [done|]. intros n. apply gives_ret.
  - rewrite forallb_forall in Hok.
    assert (∀ x, x ∈ l → ∃ e, generate x None = inr e ∧ ∀ n, gives n (eval e) (JsonProps.value_of (json_of x))) as H.
    { intros x Hx. apply IH; [done|]. apply Hok, list_elem_of_In, list_elem_of_fmap. eauto. }
    destruct (each_total (λ x, generate x None) l) as [es Hes]; [intros x Hx; destruct (H x Hx) as (e & -> & _); eauto|].
    rewrite Hes. eexists. split; [done|]. intros n. cbn [Eval.walk_expr JsonProps.value_of].
    rewrite <- list_fmap_compose. apply (gives_items n l es []). apply each_inr in Hes.
    clear Hok IH. induction Hes as [|x e l es He Hes IHes]; [constructor|]. constructor.
    + destruct (H x ltac:(left)) as (e' & E & Hv). rewrite He in E. injection E as ->. split; [by eapply generated_not_unpacked|apply Hv].
    + apply IHes. intros y Hy. apply H. by right.
  - apply andb_true_iff in Hok as [Hnd%bool_decide_eq_true Hok]. rewrite forallb_forall in Hok.
    assert (∀ x, x ∈ m → ∃ e, generate x.2 None = inr e ∧ ∀ n, gives n (eval e) (JsonProps.value_of (json_of x.2))) as H.
    { intros x Hx. apply IH; [done|]. apply (Hok (Eval.text x.1, json_of x.2)), list_elem_of_In, list_elem_of_fmap. eauto. }
    destruct (each_total (λ e, match generate e.2 None with
      | inl e => inl e | inr v => inr (config_entry (Ast.StringLitExpr (StringLit_from debug_str e.1)) v) end) m) as [es Hes].
    { intros x Hx. destruct (H x Hx) as (e & -> & _). eauto. }
    rewrite Hes. eexists. split; [done|]. intros n. cbn [map_expr config_or_schema Eval.walk_expr JsonProps.value_of].
    apply gives_scope. rewrite <- list_fmap_compose. apply (gives_entries n m es []).
    + apply each_inr in Hes. clear Hok IH Hnd. induction Hes as [|x e m es He Hes IHes]; [constructor|]. constructor.
      * destruct (H x ltac:(left)) as (v & E & Hv). rewrite E in He. injection He as <-. eauto.
      * apply IHes. intros y Hy. apply H. by right.
    + cbn [app fmap list_fmap]. by rewrite <- list_fmap_compose in Hnd.
Qed.

Hypothesis no_debug : debug_mode = false.
(** C13: what is validated is the data.  The expression of JSON data whose integers have 64
    bits, whose floats are finite and whose objects have no key twice evaluates, in every
    state and leaving as many scopes as there were, to the value that the runtime decodes
    from the same data. *)
Theorem validated_value j n : JsonProps.json_ok (json_of j) = true →
  ∃ e, generate j None = inr e ∧ ∀ s, scoped n s → ∃ v s',
    eval e s = Ok (Eval.Done v, s') ∧ scoped n s' ∧
    Json.parse_json to_json_string schemas (json_of j) = Ok v.
Proof using no_debug.
  intros Hok. destruct (generated_value j Hok) as (e & He & Hv). exists e. split; [done|].
  intros s Hs. destruct (Hv n s Hs) as (s' & E & Hs'). exists (JsonProps.value_of (json_of j)), s'.
  split; [done|]. split; [done|]. by apply JsonProps.parse_value.
Qed.
End Values.

(** ** The evaluator *)

Section Evaluator.
Context {E C : Type}.
Abbreviation State := (Scopes.Evaluator E C).
#[local] Instance evaluator_scopes : Eval.Scopes State := {|
  Eval.enter_scope := Scopes.enter_scope;
  Eval.leave_scope := Scopes.leave_scope;
  Eval.is_local_var := Scopes.is_local_var;
  Eval.add_local_var := Scopes.add_local_var;
  Eval.remove_local_var := Scopes.remove_local_var;
  Eval.clear_local_vars := Scopes.clear_local_vars;
  Eval.add_or_update_local_variable_within_scope := Scopes.add_or_update_local_variable_within_scope;
  Eval.store_identifier := λ _ _, mret tt |}.
(** The current package has its scopes, [n] of them over the first one. *)
Definition package_scopes (n : nat) (s : State) : Prop :=
  ∃ pkgpath l, head (Scopes.pkgpath_stack s) = Some pkgpath ∧ Scopes.pkg_scopes s !! pkgpath = Some l ∧ length l = S n.
Lemma with_scopes_run {A} (f : list Scopes.Scope → Res (A * list Scopes.Scope)) n m s :
  package_scopes n s → (∀ l, length l = S n → ∃ a l', f l = Ok (a, l') ∧ length l' = S m) →
  ∃ a s', Scopes.with_scopes f s = Ok (Eval.Done a, s') ∧ package_scopes m s'.
Proof using.
  intros (p & l & Hp & Hl & Hlen) Hf. destruct (Hf l Hlen) as (a & l' & E1 & Hl').
  unfold Scopes.with_scopes, Scopes.current_pkgpath, mbind, Eval.Ev_bind.
  destruct (Scopes.pkgpath_stack s) as [|p' st] eqn:Est; [done|]. injection Hp as ->. rewrite Hl, E1.
  eexists _, _. split; [done|]. exists p, l'. cbn [Scopes.set_pkg_scopes Scopes.pkgpath_stack Scopes.pkg_scopes].
  rewrite Est, lookup_insert_eq. by repeat split.
Qed.
#[export] Instance evaluator_scoped : Scoped State.
Proof.
  refine {| scoped := package_scopes |}.
  - intros n s Hs. destruct (with_scopes_run (λ scopes, Ok (tt, Scopes.new_scope false :: scopes)) n (1 + n) s Hs) as ([] & s' & H & Hs').
    { intros l Hl. eexists _, _. split; [done|]. cbn [length]. by rewrite Hl. }
    by exists s'.
  - intros n s Hs. destruct (with_scopes_run (λ scopes, Ok (tt, tail scopes)) (1 + n) n s Hs) as ([] & s' & H & Hs').
    { intros l Hl. eexists _, _. split; [done|]. destruct l; [done|]. cbn [tail length] in *. lia. }
    by exists s'.
  - intros n s name Hs. eexists _, s. by split.
  - intros n s name v Hs.
    assert (∃ a s', Scopes.add_or_update_local_variable_within_scope name v s = Ok (Eval.Done a, s') ∧ package_scopes (1 + n) s')
      as ([] & s' & H & Hs'); [|by exists s'].
    apply (with_scopes_run _ (1 + n)); [done|]. intros l Hl. destruct l as [|x l]; [done|]. eexists _, _. by split.
Defined.
End Evaluator.

(** ** Concrete data *)

Module Sample.
#[export] Instance checked : Profile := {| overflow_checks := true |}.
#[export] Instance config : ContextConfig :=
  {| debug_mode := false; strict_range_check := false; disable_schema_check := false |}.
Definition codes (s : string) : list Z := (λ a, Z.of_N (Ascii.N_of_ascii a)) <$> String.list_ascii_of_string s.
(** A debug form that only adds the quotes. *)
Definition quoted (s : list Z) : list Z := [34] ++ s ++ [34].
Definition json (v : ValueRef) : string := "".
Definition fmt (f : f64) : string := "".
Definition schemas (name : string) : option (ValueRef → ValueRef → ValueRef → Res ValueRef) := None.
Definition pack (v : ValueRef) (types : list string) (strict : bool) : Res ValueRef := Ok v.
Definition add (a b : f64) : f64 := a.
(** [{"name": "Alice", "age": 18, "tags": [null, true, {}]}] *)
Definition data : JsonData := JObject [
  (codes "name", JString (codes "Alice")); (codes "age", JNumber (Integer 18));
  (codes "tags", JArray [JNull; JBool true; JObject []])].
Abbreviation State := (Scopes.Evaluator unit unit).
Definition start : State := Scopes.set_pkg_scopes (λ _, {[Scopes.MAIN_PKG_PATH := [Scopes.new_scope false]]}) Scopes.new_evaluator.
Definition unknown (e : Ast.Expr) : Eval.Ev State ValueRef := (Eval.fail "unknown").
#[export] Existing Instances evaluator_scopes evaluator_scoped.
End Sample.
Import Sample.

Lemma start_scoped : scoped 0 Sample.start.
Proof. by exists Scopes.MAIN_PKG_PATH, [Scopes.new_scope false]. Qed.
Lemma validated_value_witness :
  ∃ e, generate_json quoted data None = inr e ∧ ∀ s : State, scoped 0 s → ∃ v s',
    Eval.walk_expr add json json fmt schemas pack id unknown e s = Ok (Eval.Done v, s') ∧ scoped 0 s' ∧
    Json.parse_json json schemas (json_of data) = Ok v.
Proof. by apply (validated_value (HC := config) add json json fmt schemas pack id unknown quoted eq_refl data 0). Defined.

(** A float of YAML is refused where its text is not the one that Rust prints: [1.0] is
    printed as 1. *)
Section Reals.
Definition parse (s : list Z) : option float := if bool_decide (s = codes "1.0") then Some 1%float else None.
Definition print (f : float) : list Z := codes "1".
Example real_refused : generate_located quoted parse print (LReal (codes "1.0")) None = inl UnsupportedNumber.
Proof. vm_compute. reflexivity. Qed.
End Reals.
(** A list at the top becomes a list of instances, whose objects stay configurations. *)
Example instances_of_list :
  generate_json quoted (JArray [JObject [(codes "a", JObject [])]]) (Some (codes "S")) =
  inr (Ast.ListExpr [Ast.Schema [codes "S"] [] [] (Ast.Config
    [config_entry (Ast.StringLitExpr (StringLit_from quoted (codes "a"))) (Ast.Config [])])]).
Proof. vm_compute. reflexivity. Qed.
