(* ===== verification/Packages.v ===== *)
(** * Packages in the file system

    The names and the places of the packages that a file imports: [config/src/vfs.rs]
    ([fix_import_path]), [utils/src/pkgpath.rs] and from [parser/src/lib.rs] the search for
    a package in the root of the importing package and among the external packages
    ([find_packages]) with the lists of its files.

    The file system is a record of its answers; a path is a string with [/] between its
    components, none of which is a dot.  The crate pathdiff is a parameter.  On this side
    of [cfg] the program is not built for Windows. *)

From stdpp Require Import base tactics list strings numbers gmap.
From Stdlib Require Import ZArith Ascii.
From S2P Require Import Prelude MachineInt Str Value StrMethods.
From S2P Require Builtins.
From S2P Require Import Eval.
Local Open Scope nat_scope.
Local Set Warnings "-clear-no-such-hyp".

(** ** Paths *)

Fixpoint drop_end (a : ascii) (s : string) : string :=
  match s with
  | EmptyString => EmptyString
  | String b s =>
      match drop_end a s with
      | EmptyString => if Ascii.eqb a b then EmptyString else String b EmptyString
      | t => String b t
      end
  end.
Definition is_absolute (p : string) : bool := starts_with "/" p.
(** [PathBuf::push] and [Path::join] *)
Definition path_join (p s : string) : string :=
  if is_absolute s then s
  else if str_is_empty p || ends_with "/" p then p +:+ s else p +:+ "/" +:+ s.
(** [Path::parent] *)
Definition path_parent (p : string) : option string :=
  let q := drop_end "/" p in
  if str_is_empty q then None
  else match Str.str_rfind "/" q with
       | None => Some ""
       | Some i => let d := drop_end "/" (str_take i q) in Some (if str_is_empty d then "/" else d)
       end.
(** [Path::with_extension] *)
Definition path_with_extension (p ext : string) : string :=
  let q := drop_end "/" p in
  let i := match Str.str_rfind "/" q with Some i => i + 1 | None => 0 end in
  let name := str_drop i q in
  if str_is_empty name || bool_decide (name = "..") then p
  else
    let stem := match Str.str_rfind "." name with Some (S k) => str_take (S k) name | _ => name end in
    str_take i q +:+ stem +:+ "." +:+ ext.

(** ** The file system *)

Record FileSystem := MkFileSystem {
  exists_ : string → bool;
  is_dir : string → bool;
  canonicalize : string → option string;
  read_to_string : string → option string;
  (** the names of the entries of a directory *)
  read_dir : string → option (list string) }.

Definition KCL_FILE_SUFFIX : string := ".k".
Definition KCL_FILE_EXTENSION : string := "k".
Definition KCL_MOD_FILE : string := "kcl.mod".
Definition MAIN_PKG : string := "__main__".
Definition PLUGIN_MODULE_PREFIX : string := "kcl_plugin.".

(** [LoadProgramOptions], the fields that are read here. *)
Record LoadProgramOptions := MkLoadOptions {
  work_dir : string;
  k_code_list : list string;
  vendor_dirs : list string;
  package_maps : gmap string string;
  load_plugins : bool;
  preserve_symlink_paths : bool }.

(** [PkgInfo] *)
Record PkgInfo := MkPkgInfo { info_name : string; info_root : string; info_path : string; k_files : list string }.

(** What is reported to the session. *)
Inductive LoadDiagnostic :=
  | PluginNotEnabled (pkgpath : string)
  | FoundTwice (pkgpath : string)
  | PkgNotFound (pkgpath : string)
  | CyclicImport (files : list string).

(** The result of a search with what it reports. *)
Abbreviation Reported A := (Ev (list LoadDiagnostic) A).
Definition report (d : LoadDiagnostic) : Reported unit := λ l, Ok (Done tt, l ++ [d]).

(** ** Names *)

Section Packages.
Variable fs : FileSystem.
(** [pathdiff::diff_paths(path, base)] *)
Variable diff_paths : string → string → option string.
Variable opts : LoadProgramOptions.

Definition is_dot (c : string) : bool := bool_decide (c = ".").
Definition slash_to_dot (c : string) : string := if bool_decide (c ∈ ["/"; "\"]) then "." else c.
Fixpoint leading_dots (s : string) : nat :=
  match s with String a s => if Ascii.eqb a "." then S (leading_dots s) else 0 | EmptyString => 0 end.

Definition fix_import_path (root filepath import_path : string) : Res string :=
  if negb (starts_with "." import_path) then Ok import_path
  else
    dirpath ← unwrap (path_parent filepath);
    let pkgpath := default dirpath (diff_paths dirpath root) in
    let pkgpath := trim_end_matches is_dot (str_concat (slash_to_dot <$> chars pkgpath)) in
    let leading_dot_count := leading_dots import_path in
    if str_is_empty pkgpath then
      Ok (if leading_dot_count <=? 1 then trim_matches is_dot import_path else "")
    else if leading_dot_count =? 1 then Ok (pkgpath +:+ import_path)
    else
      let ss := split "." pkgpath in
      if leading_dot_count - 1 <? length ss then
        Ok (join "." (take (length ss - leading_dot_count + 1) ss) +:+ "." +:+ str_drop leading_dot_count import_path)
      else if leading_dot_count - 1 =? length ss then Ok (str_drop leading_dot_count import_path)
      else Ok "".

(** [splitn(2, '.')] gives at least one name. *)
Definition parse_external_pkg_name (pkgpath : string) : string :=
  default "" (head (splitn 2 "." pkgpath)).
(** [s.trim_start_matches(p)]: every occurrence at the start is taken off. *)
Fixpoint strip_all (fuel : nat) (p s : string) : string :=
  match fuel with
  | O => s
  | S fuel => if starts_with p s then strip_all fuel p (str_drop (slen p) s) else s
  end.
Definition rm_external_pkg_name (pkgpath : string) : string :=
  let name := parse_external_pkg_name pkgpath in
  if str_is_empty name then pkgpath else strip_all (slen pkgpath) name pkgpath.

Definition is_plugin_pkg (pkgpath : string) : bool := starts_with PLUGIN_MODULE_PREFIX pkgpath.
Definition is_builtin_pkg (pkgpath : string) : bool := bool_decide (pkgpath ∈ Builtins.STANDARD_SYSTEM_MODULES).

(** ** The files of a package *)

Fixpoint insert_sorted (s : string) (l : list string) : list string :=
  match l with [] => [s] | x :: l' => if str_le s x then s :: l else x :: insert_sorted s l' end.
Definition sort (l : list string) : list string := foldr insert_sorted [] l.

(** [get_dir_files(dir)] of [lib.rs] *)
Definition is_source (name : string) : bool :=
  ends_with KCL_FILE_SUFFIX name && negb (ends_with "_test.k" name) && negb (starts_with "_" name).
Definition get_dir_files (dir : string) : Reported (list string) :=
  if negb (exists_ fs dir) then mret []
  else match read_dir fs dir with
       | None => fail "Failed to read directory"
       | Some names => mret (sort (path_join dir <$> filter (λ n, is_source n = true) names))
       end.
Definition get_pkg_kfile_list (pkgroot pkgpath : string) : Reported (list string) :=
  if is_plugin_pkg pkgpath then mret []
  else if is_builtin_pkg pkgpath then mret []
  else if str_is_empty pkgroot then fail ("pkgroot not found: " +:+ pkgpath)
  else
    let pathbuf := foldl path_join (path_join "" pkgroot) (split "." pkgpath) in
    let abspath := default pathbuf (canonicalize fs pathbuf) in
    if exists_ fs abspath then get_dir_files abspath
    else
      let as_k_path := abspath +:+ KCL_FILE_SUFFIX in
      if exists_ fs as_k_path then mret [as_k_path] else mret [].

(** ** The search for a package *)

Definition pkg_exists_in_path (path pkgpath : string) : bool :=
  let pathbuf := foldl path_join path (split "." pkgpath) in
  exists_ fs pathbuf || exists_ fs (path_with_extension pathbuf KCL_FILE_EXTENSION).
Definition pkg_exists (pkgroots : list string) (pkgpath : string) : option string :=
  head (filter (λ root, pkg_exists_in_path root pkgpath = true) pkgroots).
Definition is_internal_pkg (pkg_name pkg_root pkg_path : string) : Reported (option PkgInfo) :=
  match pkg_exists [pkg_root] pkg_path with
  | Some internal_pkg_root =>
      let fullpath := if bool_decide (pkg_name = MAIN_PKG) then pkg_path else pkg_name +:+ "." +:+ pkg_path in
      files ← get_pkg_kfile_list pkg_root pkg_path;
      mret (Some (MkPkgInfo pkg_name internal_pkg_root fullpath files))
  | None => mret None
  end.
Definition is_external_pkg (pkg_path : string) : Reported (option PkgInfo) :=
  let pkg_name := parse_external_pkg_name pkg_path in
  let external_pkg_root :=
    match package_maps opts !! pkg_name with
    | Some root => Some (path_join root KCL_MOD_FILE)
    | None => (λ path, path_join (path_join path pkg_name) KCL_MOD_FILE) <$> pkg_exists (vendor_dirs opts) pkg_path
    end in
  match external_pkg_root with
  | None => mret None
  | Some external_pkg_root =>
      if exists_ fs external_pkg_root then
        match path_parent external_pkg_root with
        | Some root =>
            let abs_root := default root (canonicalize fs root) in
            files ← get_pkg_kfile_list abs_root (rm_external_pkg_name pkg_path);
            mret (Some (MkPkgInfo pkg_name abs_root pkg_path files))
        | None => mret None
        end
      else mret None
  end.

Definition find_packages (pkg_name pkg_root pkg_path : string) : Reported (option PkgInfo) :=
  if str_is_empty pkg_path then mret None
  else if is_plugin_pkg pkg_path then
    if load_plugins opts then mret None else report (PluginNotEnabled pkg_path);; mret None
  else if is_builtin_pkg pkg_path then mret None
  else
    is_internal ← is_internal_pkg pkg_name pkg_root pkg_path;
    is_external ← is_external_pkg pkg_path;
    match is_internal, is_external with
    | Some _, Some _ => report (FoundTwice pkg_path);; mret None
    | Some pkg_info, None | None, Some pkg_info => mret (Some pkg_info)
    | None, None => report (PkgNotFound pkg_path);; mret None
    end.
End Packages.

(** The examples of [fix_import_path], where the file is not below the root. *)
Section Examples.
Definition unrelated (path base : string) : option string := None.
Definition fixed (import_path : string) : Res string :=
  fix_import_path unrelated "/home/konfig" "path/to/app/file.k" import_path.
Example fixed_paths :
  fixed <$> [".sub"; "..sub"; "...sub"; "....sub"; ".....sub"; "path.to.sub"] =
  [Ok "path.to.app.sub"; Ok "path.to.sub"; Ok "path.sub"; Ok "sub"; Ok ""; Ok "path.to.sub"].
Proof. vm_compute. reflexivity. Qed.
End Examples.
