(* ===== verification/Load.v ===== *)
(** * Loading a program

    [parser/src/file_graph.rs]: the graph of the files and their imports; [parser/src/lib.rs]:
    the cache of modules, the parsing of the files of an entry and, breadth first, of all
    files they import, the order of compilation and the report of cyclic imports, and the
    import statements rewritten to the packages found.

    A module is its statements, of which the imports are looked at; the lexer and the parser
    ([Parser]) are a parameter.  Cells shared by reference are read through the cache.  Of
    petgraph, the containers are lists of nodes and edges and the algorithms are
    parameters. *)

From stdpp Require Import base tactics list strings numbers gmap.
From Stdlib Require Import ZArith.
From S2P Require Import Prelude MachineInt IndexMap Str Eval Packages.
From S2P Require Ast.
Local Open Scope nat_scope.
Local Set Warnings "-clear-no-such-hyp".

(** ** Files and packages *)

Record PkgFile := MkPkgFile { path : string; pkg_path : string }.
#[export] Instance PkgFile_eq_dec : EqDecision PkgFile.
Proof. solve_decision. Defined.
#[export] Instance PkgFile_countable : Countable PkgFile.
Proof.
  refine (inj_countable' (λ f, (path f, pkg_path f)) (λ p, MkPkgFile p.1 p.2) _). by intros [].
Defined.
Record Pkg := MkPkg { pkg_name : string; pkg_root : string }.
#[export] Instance Pkg_eq_dec : EqDecision Pkg.
Proof. solve_decision. Defined.
Abbreviation PkgMap := (IndexMap PkgFile Pkg).

(** ** [file_graph.rs] *)

Record Graph (T : Type) := MkGraph { nodes : list T; edges : list (nat * nat) }.
Arguments MkGraph {T}. Arguments nodes {T}. Arguments edges {T}.
Definition add_node {T} (n : T) (g : Graph T) : Graph T * nat :=
  (MkGraph (nodes g ++ [n]) (edges g), length (nodes g)).
Definition add_edge {T} (i j : nat) (g : Graph T) : Graph T := MkGraph (nodes g) (edges g ++ [(i, j)]).

Record PkgFileGraph := MkFileGraph {
  graph : Graph PkgFile; path_to_node_index : IndexMap PkgFile nat }.
Definition PkgFileGraph_default : PkgFileGraph := MkFileGraph (MkGraph [] []) [].
Definition get_or_insert_node_index (file : PkgFile) (self : PkgFileGraph) : PkgFileGraph * nat :=
  match map_get file (path_to_node_index self) with
  | Some node_index => (self, node_index)
  | None =>
      let (g, node_index) := add_node file (graph self) in
      (MkFileGraph g (map_insert file node_index (path_to_node_index self)), node_index)
  end.
Definition remove_out_edges (i : nat) (self : PkgFileGraph) : PkgFileGraph :=
  MkFileGraph (MkGraph (nodes (graph self)) (filter (λ e, e.1 ≠ i) (edges (graph self)))) (path_to_node_index self).
Definition add_dependency (from : nat) (self : PkgFileGraph) (to_path : PkgFile) : PkgFileGraph :=
  let (self, to_) := get_or_insert_node_index to_path self in
  MkFileGraph (add_edge from to_ (graph self)) (path_to_node_index self).
Definition update_file (self : PkgFileGraph) (from_path : PkgFile) (to_paths : list PkgFile) : PkgFileGraph :=
  let (self, from) := get_or_insert_node_index from_path self in
  foldl (add_dependency from) (remove_out_edges from self) to_paths.
Definition contains_file (self : PkgFileGraph) (file : PkgFile) : bool := contains_key file (path_to_node_index self).
Definition graph_paths (self : PkgFileGraph) : list PkgFile := (path_to_node_index self).*1.

(** The paths of the files with the edges between the last nodes of their paths. *)
Definition path_nodes (g : Graph PkgFile) : Graph string * IndexMap string nat :=
  foldl (λ acc f, let (g, i) := add_node (path f) acc.1 in (g, map_insert (path f) i acc.2))
    (MkGraph [] [], []) (nodes g).
Definition file_path_graph (self : PkgFileGraph) : Graph string :=
  let g := graph self in
  let (paths, node_map) := path_nodes g in
  foldl (λ acc e,
    match nodes g !! e.1, nodes g !! e.2 with
    | Some source, Some target =>
        match map_get (path source) node_map, map_get (path target) node_map with
        | Some source, Some target => add_edge source target acc
        | _, _ => acc
        end
    | _, _ => acc
    end) paths (edges g).

Section Loading.
(** [petgraph::algo]: an order of the nodes or a node on a cycle, and the strongly
    connected components, of a graph by the number of its nodes and its edges. *)
Variable petgraph_toposort : nat → list (nat * nat) → nat + list nat.
Variable tarjan_scc : nat → list (nat * nat) → list (list nat).

Definition toposort {T} (g : Graph T) : Res (list T + list T) :=
  match petgraph_toposort (length (nodes g)) (edges g) with
  | inr indices => inr <$> mapM (Prelude.index (nodes g)) (reverse indices)
  | inl n =>
      let cycle := default [n] (head (filter (λ c, 1 < length c) (tarjan_scc (length (nodes g)) (edges g)))) in
      inl <$> mapM (Prelude.index (nodes g)) cycle
  end.

(** ** The state of a load *)

(** A statement is an import of a path, or another one. *)
Inductive Stmt := Import (import_path : string) | Other (stmt : Ast.Stmt).
Definition stmt_of (s : Ast.Stmt) : Stmt :=
  match s with Ast.SImport p _ _ => Import (text p) | s => Other s end.
Record Module := MkModule { filename : string; body : list Stmt }.

(** [ModuleCache] and the state that the functions pass on. *)
Record Loader := MkLoader {
  ast_cache : gmap string Module;
  file_pkg : gmap string (gset PkgFile);
  dep_cache : gmap PkgFile PkgMap;
  source_code : gmap string string;
  pkgs : gmap string (list string);
  pkgmap : PkgMap;
  file_graph : PkgFileGraph;
  parsed_file : gset PkgFile;
  errors : list LoadDiagnostic }.
Definition Loader_new : Loader := MkLoader ∅ ∅ ∅ ∅ ∅ [] PkgFileGraph_default ∅ [].
Definition set_cache f (s : Loader) : Loader :=
  MkLoader (f (ast_cache s)) (file_pkg s) (dep_cache s) (source_code s) (pkgs s) (pkgmap s) (file_graph s) (parsed_file s) (errors s).
Definition set_file_pkg f (s : Loader) : Loader :=
  MkLoader (ast_cache s) (f (file_pkg s)) (dep_cache s) (source_code s) (pkgs s) (pkgmap s) (file_graph s) (parsed_file s) (errors s).
Definition set_dep_cache f (s : Loader) : Loader :=
  MkLoader (ast_cache s) (file_pkg s) (f (dep_cache s)) (source_code s) (pkgs s) (pkgmap s) (file_graph s) (parsed_file s) (errors s).
Definition set_pkgs f (s : Loader) : Loader :=
  MkLoader (ast_cache s) (file_pkg s) (dep_cache s) (source_code s) (f (pkgs s)) (pkgmap s) (file_graph s) (parsed_file s) (errors s).
Definition set_pkgmap f (s : Loader) : Loader :=
  MkLoader (ast_cache s) (file_pkg s) (dep_cache s) (source_code s) (pkgs s) (f (pkgmap s)) (file_graph s) (parsed_file s) (errors s).
Definition set_file_graph f (s : Loader) : Loader :=
  MkLoader (ast_cache s) (file_pkg s) (dep_cache s) (source_code s) (pkgs s) (pkgmap s) (f (file_graph s)) (parsed_file s) (errors s).
Definition set_parsed f (s : Loader) : Loader :=
  MkLoader (ast_cache s) (file_pkg s) (dep_cache s) (source_code s) (pkgs s) (pkgmap s) (file_graph s) (f (parsed_file s)) (errors s).
Definition set_errors f (s : Loader) : Loader :=
  MkLoader (ast_cache s) (file_pkg s) (dep_cache s) (source_code s) (pkgs s) (pkgmap s) (file_graph s) (parsed_file s) (f (errors s)).

Abbreviation M := (Ev Loader).
Definition gets {A} (f : Loader → A) : M A := λ s, Ok (Done (f s), s).
Definition modify (f : Loader → Loader) : M unit := λ s, Ok (Done tt, f s).
Definition reporting {A} (m : Reported A) : M A := λ s,
  match m (errors s) with Ok (r, l) => Ok (r, set_errors (λ _, l) s) | Panic p => Panic p end.
(** [.unwrap_or(None)] *)
Definition or_none {A} (m : Reported (option A)) : Reported (option A) := λ l,
  match m l with Ok (Err _, l) => Ok (Done None, l) | r => r end.

(** [ModuleCache::clear] *)
Definition clear (p : string) (s : Loader) : Loader :=
  MkLoader (delete p (ast_cache s)) (delete p (file_pkg s))
    (match file_pkg s !! p with
     | Some pkgs => filter (λ e, e.1 ∉ pkgs) (dep_cache s)
     | None => dep_cache s
     end) (delete p (source_code s)) (pkgs s) (pkgmap s) (file_graph s) (parsed_file s) (errors s).

(** ** Parsing *)

Variable fs : FileSystem.
Variable diff_paths : string → string → option string.
Variable opts : LoadProgramOptions.
(** The statements that the parser makes of a source. *)
Variable parse_source : string → list Ast.Stmt.

Definition PkgFile_new (p pkg : string) : PkgFile := MkPkgFile (default p (canonicalize fs p)) pkg.
Definition parse_file_with_session (name : string) (code : option string) : M Module :=
  match code with
  | Some src => mret (MkModule name (stmt_of <$> parse_source src))
  | None =>
      match read_to_string fs name with
      | Some src => mret (MkModule name (stmt_of <$> parse_source src))
      | None => fail ("Failed to load KCL file '" +:+ name +:+ "'.")
      end
  end.

Definition add_files (info : PkgInfo) (deps : PkgMap) : PkgMap :=
  foldl (λ deps p, map_insert (PkgFile_new p (info_path info)) (MkPkg (info_name info) (info_root info)) deps)
    deps (k_files info).
(** The packages that are found for the imports of a module, and those without files. *)
Fixpoint imported_files (pkg : Pkg) (name : string) (stmts : list Stmt) (acc : PkgMap * list string)
    : Reported (PkgMap * list string) :=
  match stmts with
  | [] => mret acc
  | Other _ :: stmts => imported_files pkg name stmts acc
  | Import p :: stmts =>
      fix_path ← lift (fix_import_path diff_paths (pkg_root pkg) name p);
      pkg_info ← find_packages fs opts (pkg_name pkg) (pkg_root pkg) fix_path;
      imported_files pkg name stmts
        match pkg_info with
        | Some info =>
            (add_files info acc.1, if bool_decide (k_files info = []) then acc.2 ++ [info_path info] else acc.2)
        | None => acc
        end
  end.
Definition get_deps (file : PkgFile) (m : Module) : M PkgMap :=
  match body m with
  | [] => mret []
  | stmts =>
      pkg ← gets (λ s, map_get file (pkgmap s));
      match pkg with
      | None => lift (Panic ExpectFailed)
      | Some pkg =>
          r ← reporting (imported_files pkg (filename m) stmts ([], []));
          modify (set_pkgs (λ l, foldl (λ l p, <[p := []]> l) l r.2));;
          mret r.1
      end
  end.
Definition add_file_pkg (file : PkgFile) (m : gmap string (gset PkgFile)) : gmap string (gset PkgFile) :=
  <[path file := {[file]} ∪ default ∅ (m !! path file)]> m.
Definition parse_file (file : PkgFile) (src : option string) : M (list PkgFile) :=
  cached ← gets (λ s, source_code s !! path file);
  m ← parse_file_with_session (path file) (match src with Some src => Some src | None => cached end);
  deps ← get_deps file m;
  let dep_files := deps.*1 in
  modify (set_pkgmap (λ l, map_extend l deps));;
  modify (set_cache (<[path file := m]>));;
  modify (set_file_pkg (add_file_pkg file));;
  modify (set_dep_cache (<[file := deps]>));;
  modify (set_file_graph (λ g, update_file g file dep_files));;
  mret dep_files.
Fixpoint parse_pkg (files : list (PkgFile * option string)) : M (list PkgFile) :=
  match files with
  | [] => mret []
  | (file, src) :: files =>
      deps ← parse_file file src;
      dependent ← parse_pkg files;
      mret (deps ++ dependent)
  end.

(** ** The files of an entry and those they import *)

Record Entry := MkEntry {
  entry_name : string; entry_path : string; entry_k_files : list string; entry_k_codes : list (option string) }.

(** [parsed_file.insert(dep)], and the files that were not there. *)
Fixpoint push_new (deps : list PkgFile) (queue : list PkgFile) : M (list PkgFile) :=
  match deps with
  | [] => mret queue
  | dep :: deps =>
      seen ← gets (λ s, bool_decide (dep ∈ parsed_file s));
      if (seen : bool) then push_new deps queue
      else modify (set_parsed (λ p, {[dep]} ∪ p));; push_new deps (queue ++ [dep])
  end.
(** The file in the set of its path, and whether it is new there. *)
Definition note_file (file : PkgFile) : M bool :=
  known ← gets (λ s, match file_pkg s !! path file with Some s => bool_decide (file ∈ s) | None => false end);
  modify (set_file_pkg (add_file_pkg file));;
  mret (negb known).
Definition parse_queued (file : PkgFile) (queue : list PkgFile) (new_files : gset PkgFile)
    : M (list PkgFile * gset PkgFile) :=
  new ← note_file file;
  let new_files := if (new : bool) then {[file]} ∪ new_files else new_files in
  cached ← gets (λ s, ast_cache s !! path file);
  match cached with
  | Some m =>
      known ← gets (λ s, dep_cache s !! file);
      deps ← (match known with
              | Some deps => mret deps
              | None => λ s, match get_deps file m s with Ok (Err _, _) => Panic UnwrapNone | r => r end
              end : M PkgMap);
      modify (set_pkgmap (λ l, map_extend l deps));;
      modify (set_file_graph (λ g, update_file g file deps.*1));;
      queue ← push_new deps.*1 queue;
      mret (queue, new_files)
  | None =>
      deps ← parse_file file None;
      queue ← push_new deps queue;
      mret (queue, {[file]} ∪ new_files)
  end.
(** [while let Some(file) = unparsed_file.pop_front()]: a file is pushed once, so that as
    many rounds as there are files are enough. *)
Fixpoint parse_imports (fuel : nat) (queue : list PkgFile) (new_files : gset PkgFile) : M (gset PkgFile) :=
  match fuel with
  | O => lift (Panic StackOverflow)
  | S fuel =>
      match queue with
      | [] => mret new_files
      | file :: queue =>
          r ← parse_queued file queue new_files;
          parse_imports fuel r.1 r.2
      end
  end.
Definition entry_files (entry : Entry) : list (PkgFile * option string) :=
  imap (λ i f, (PkgFile_new f MAIN_PKG, default None (entry_k_codes entry !! i))) (entry_k_files entry).
Definition parse_entry (fuel : nat) (entry : Entry) : M (gset PkgFile) :=
  let files := entry_files entry in
  modify (set_pkgmap (λ l, foldl (λ l f, map_insert f (MkPkg (entry_name entry) (entry_path entry)) l) l files.*1));;
  dependent_paths ← parse_pkg files;
  parse_imports fuel dependent_paths (list_to_set files.*1).
Fixpoint parse_entries (fuel : nat) (entries : list Entry) : M (gset PkgFile) :=
  match entries with
  | [] => mret ∅
  | entry :: entries =>
      new_files ← parse_entry fuel entry;
      more ← parse_entries fuel entries;
      mret (new_files ∪ more)
  end.

(** ** The program *)

(** The import paths of a module, replaced by those of the packages that are found. *)
Fixpoint fix_stmts (pkg : Pkg) (name : string) (stmts : list Stmt) : Reported (list Stmt) :=
  match stmts with
  | [] => mret []
  | Other s :: stmts => stmts ← fix_stmts pkg name stmts; mret (Other s :: stmts)
  | Import p :: stmts =>
      fix_path ← lift (fix_import_path diff_paths (pkg_root pkg) name p);
      pkg_info ← or_none (find_packages fs opts (pkg_name pkg) (pkg_root pkg) fix_path);
      stmts ← fix_stmts pkg name stmts;
      mret (Import (match pkg_info with Some info => info_path info | None => fix_path end) :: stmts)
  end.
Definition fix_rel_import_path_with_file (file : PkgFile) (m : Module) : M unit :=
  pkg ← gets (λ s, map_get file (pkgmap s));
  match pkg with
  | None => lift (Panic ExpectFailed)
  | Some pkg =>
      stmts ← reporting (fix_stmts pkg (filename m) (body m));
      modify (set_cache (<[path file := MkModule (filename m) stmts]>))
  end.
Definition push_module (file : PkgFile) (l : gmap string (list string)) : gmap string (list string) :=
  <[pkg_path file := default [] (l !! pkg_path file) ++ [path file]]> l.
Fixpoint collect_files (new_files : gset PkgFile) (files : list PkgFile) : M unit :=
  match files with
  | [] => mret tt
  | file :: files =>
      cached ← gets (λ s, ast_cache s !! path file);
      match cached with
      | None => lift (Panic (PanicMsg ("Module not found in module: " +:+ path file)))
      | Some m =>
          (if bool_decide (file ∈ new_files) then fix_rel_import_path_with_file file m else mret tt);;
          modify (set_pkgs (push_module file));;
          collect_files new_files files
      end
  end.

Record LoadProgramResult := MkLoadResult {
  root : string;
  program_pkgs : gmap string (list string);
  modules : gmap string Module;
  result_errors : list LoadDiagnostic;
  paths : list string }.

Definition parse_program (fuel : nat) (workdir : string) (compile_entries : list Entry) : M LoadProgramResult :=
  modify (set_pkgs (λ _, ∅));;
  new_files ← parse_entries fuel compile_entries;
  g ← gets file_graph;
  sorted ← lift (toposort (graph g));
  cycle ← lift (toposort (file_path_graph g));
  match cycle with
  | inl cycle => modify (set_errors (λ l, l ++ [CyclicImport cycle]))
  | inr _ => mret tt
  end;;
  let files := match sorted with inr files => files | inl _ => graph_paths g end in
  collect_files new_files files;;
  gets (λ s, MkLoadResult workdir (pkgs s)
    (list_to_map (omap (λ f, (path f,.) <$> ast_cache s !! path f) files)) (errors s) (path <$> files)).
End Loading.
