(* ===== verification/LoadGraph.v ===== *)
(** * The graph of files, its orders and its cycles

    The nodes and edges that updating the graph of [Load] gives, what petgraph documents of
    its algorithms ([PetgraphLaws]) with functions that have these laws ([Kahn]), the order
    that [toposort] gives to the files, and the graph of their paths with its cycles. *)

From stdpp Require Import base tactics list relations strings numbers gmap.
From Stdlib Require Import ZArith Lia.
From S2P Require Import Prelude MachineInt IndexMap Str Eval Packages Load.
From S2P Require Ast.
Local Open Scope nat_scope.
Local Set Warnings "-clear-no-such-hyp".

(** ** The graph of files *)

(** An edge between two values of the nodes. *)
Definition linked {T} (g : Graph T) (a b : T) : Prop :=
  ∃ i j, (i, j) ∈ edges g ∧ nodes g !! i = Some a ∧ nodes g !! j = Some b.
Definition in_range {T} (g : Graph T) : Prop :=
  Forall (λ e, e.1 < length (nodes g) ∧ e.2 < length (nodes g)) (edges g).
Record wf_graph (g : PkgFileGraph) : Prop := {
  wf_index : path_to_node_index g = imap (λ i f, (f, i)) (nodes (graph g));
  wf_nodup : NoDup (nodes (graph g));
  wf_range : in_range (graph g) }.
Abbreviation files_of g := (nodes (graph g)).

Lemma imap_keys (l : list PkgFile) : ∀ k, (imap (λ i f, (f, k + i)) l).*1 = l.
Proof.
  induction l as [|f l IH]; intros k; [done|]. cbn. f_equal. erewrite imap_ext; [apply (IH (S k))|].
  intros i x _. cbn. f_equal. lia.
Qed.
Lemma graph_paths_nodes g : wf_graph g → graph_paths g = files_of g.
Proof. intros [Hi _ _]. unfold graph_paths. rewrite Hi. apply (imap_keys _ 0). Qed.
Lemma node_index g f i : wf_graph g → map_get f (path_to_node_index g) = Some i ↔ files_of g !! i = Some f.
Proof.
  intros [Hi Hn _]. rewrite Hi. split; intros H.
  - apply map_get_in in H. apply elem_of_lookup_imap in H as (j & x & [= -> ->] & Hj). done.
  - apply in_map_get; [unfold wf_map; by rewrite (imap_keys _ 0)|]. apply elem_of_lookup_imap. eauto.
Qed.
Lemma no_node_index g f : wf_graph g → map_get f (path_to_node_index g) = None ↔ f ∉ files_of g.
Proof. intros Hg. rewrite map_get_None. pose proof (graph_paths_nodes g Hg) as H. unfold graph_paths in H. by rewrite H. Qed.

(** The nodes grow at the end, and the edges stay those of the same nodes. *)
Lemma linked_prefix {T} (g g' : Graph T) a b : in_range g → nodes g `prefix_of` nodes g' → edges g' = edges g →
  linked g' a b ↔ linked g a b.
Proof.
  intros Hr [l Hl] He. unfold linked. rewrite He, Hl.
  assert (∀ i x, i < length (nodes g) → (nodes g ++ l) !! i = Some x ↔ nodes g !! i = Some x) as Hx.
  { intros i x Hi. by rewrite lookup_app_l. }
  split; intros (i & j & Hin & Ha & Hb); exists i, j; pose proof (proj1 (list.Forall_forall _ _) Hr _ Hin) as [Hi Hj];
    cbn in Hi, Hj; [rewrite Hx in Ha, Hb by done|rewrite !Hx by done]; done.
Qed.

Lemma get_or_insert_spec f g g' i : wf_graph g → get_or_insert_node_index f g = (g', i) →
  wf_graph g' ∧ files_of g' !! i = Some f ∧ files_of g `prefix_of` files_of g' ∧
  edges (graph g') = edges (graph g) ∧ (∀ x, x ∈ files_of g' ↔ x = f ∨ x ∈ files_of g).
Proof.
  intros Hg. unfold get_or_insert_node_index. destruct (map_get f _) as [k|] eqn:E; intros [= <- <-].
  - apply node_index in E; [|done]. split_and!; [done..|]. intros x. split; [by right|].
    intros [->|Hx]; [|done]. by apply list_elem_of_lookup_2 in E.
  - pose proof E as Hk. apply (no_node_index _ _ Hg) in E. destruct Hg as [Hi Hn Hr]. cbn [graph nodes edges]. split_and!.
    + split; cbn [graph nodes edges path_to_node_index].
      * rewrite map_insert_fresh by (apply map_get_None; done). rewrite Hi, imap_app. cbn. by rewrite Nat.add_0_r.
      * apply NoDup_app. split_and!; [done| |apply NoDup_singleton]. intros x Hx ->%list_elem_of_singleton. done.
      * eapply list.Forall_impl; [exact Hr|]. intros e [? ?]. cbn. rewrite length_app. cbn. lia.
    + rewrite lookup_app_r by lia. by rewrite Nat.sub_diag.
    + by exists [f].
    + done.
    + intros x. rewrite elem_of_app, list_elem_of_singleton. tauto.
Qed.
Lemma add_dependency_spec from f to g g' : wf_graph g → files_of g !! from = Some f → add_dependency from g to = g' →
  wf_graph g' ∧ files_of g' !! from = Some f ∧ (∀ a b, linked (graph g') a b ↔ linked (graph g) a b ∨ (a = f ∧ b = to)) ∧
  (∀ x, x ∈ files_of g' ↔ x = to ∨ x ∈ files_of g).
Proof.
  intros Hg Hf <-. unfold add_dependency. destruct (get_or_insert_node_index to g) as [g1 j] eqn:E.
  destruct (get_or_insert_spec _ _ _ _ Hg E) as (H1 & Hj & Hp & He & Hx).
  assert (files_of g1 !! from = Some f) as Hf1 by (by eapply prefix_lookup_Some). split_and!; try done.
  - destruct H1 as [Hi1 Hn1 Hr1]. split; [done..|]. unfold in_range. cbn. apply list.Forall_app. split; [done|].
    repeat constructor; cbn; by eapply lookup_lt_Some.
  - intros a b. rewrite <- (linked_prefix (graph g) (graph g1) a b (wf_range _ Hg) Hp He). unfold linked. cbn.
    setoid_rewrite elem_of_app. setoid_rewrite list_elem_of_singleton. split.
    + intros (i & k & [Hin|[= -> ->]] & Ha & Hb); [by left; exists i, k|right]. split; congruence.
    + intros [(i & k & Hin & Ha & Hb)|[-> ->]]; [by exists i, k; split; [left|]|]. exists from, j. split; [by right|done].
Qed.
Lemma add_dependencies_spec from f to : ∀ g g', wf_graph g → files_of g !! from = Some f →
  foldl (add_dependency from) g to = g' →
  wf_graph g' ∧ (∀ a b, linked (graph g') a b ↔ linked (graph g) a b ∨ (a = f ∧ b ∈ to)) ∧
  (∀ x, x ∈ files_of g' ↔ x ∈ to ∨ x ∈ files_of g).
Proof.
  induction to as [|t to IH]; intros g g' Hg Hf H; cbn [foldl] in H.
  { subst. split_and!; [done|..]; intros; rewrite elem_of_nil; tauto. }
  destruct (add_dependency_spec from f t g _ Hg Hf eq_refl) as (H1 & Hf1 & Hl1 & Hx1).
  destruct (IH _ _ H1 Hf1 H) as (H2 & Hl2 & Hx2). split_and!; [done|..].
  - intros a b. rewrite Hl2, Hl1, elem_of_cons. tauto.
  - intros x. rewrite Hx2, Hx1, elem_of_cons. tauto.
Qed.

(** Updating a file gives it the edges to the given files and no others, and leaves the
    edges of the other files. *)
Lemma update_file_spec f to g : wf_graph g →
  wf_graph (update_file g f to) ∧
  (∀ a b, linked (graph (update_file g f to)) a b ↔ (a = f ∧ b ∈ to) ∨ (a ≠ f ∧ linked (graph g) a b)) ∧
  (∀ x, x ∈ files_of (update_file g f to) ↔ x = f ∨ x ∈ to ∨ x ∈ files_of g).
Proof.
  intros Hg. unfold update_file. destruct (get_or_insert_node_index f g) as [g1 i] eqn:E.
  destruct (get_or_insert_spec _ _ _ _ Hg E) as (H1 & Hi & Hp & He & Hx).
  assert (wf_graph (remove_out_edges i g1)) as Hr.
  { destruct H1 as [Hi1 Hn1 Hr1]. split; [done..|]. unfold in_range, remove_out_edges. cbn.
    apply list.Forall_forall. intros e [_ Hin]%list_elem_of_filter. by apply (proj1 (list.Forall_forall _ _) Hr1). }
  destruct (add_dependencies_spec i f to _ _ Hr Hi eq_refl) as (H2 & Hl & Hx2). split_and!; [done|..].
  - intros a b. rewrite Hl, <- (linked_prefix (graph g) (graph g1) a b (wf_range _ Hg) Hp He).
    unfold linked, remove_out_edges. cbn. setoid_rewrite list_elem_of_filter. cbn.
    destruct (decide (a = f)) as [->|Hne].
    + split; [intros [(k & j & [Hk _] & Ha & _)|[_ Hb]]; [|by left]|intros [[_ Hb]|[Hn _]]; [by right|done]].
      destruct Hk. by eapply NoDup_lookup; [apply (wf_nodup _ H1)|..].
    + split.
      * intros [(k & j & [Hk Hin] & Ha & Hb)|[-> _]]; [right|done]. split; [done|]. by exists k, j.
      * intros [[-> _]|[_ (k & j & Hin & Ha & Hb)]]; [done|left]. exists k, j. split_and!; try done. cbn. congruence.
  - intros x. rewrite Hx2. cbn. rewrite Hx. tauto.
Qed.

(** ** Orders of the nodes *)

Definition before {A} (l : list A) (a b : A) : Prop := ∃ l1 l2 l3, l = l1 ++ a :: l2 ++ b :: l3.
Definition edge (es : list (nat * nat)) (i j : nat) : Prop := (i, j) ∈ es.

(** What petgraph documents of its algorithms. *)
Record PetgraphLaws (petgraph_toposort : nat → list (nat * nat) → nat + list nat)
    (tarjan_scc : nat → list (nat * nat) → list (list nat)) : Prop := {
  toposort_order n es l : Forall (λ e, e.1 < n ∧ e.2 < n) es → petgraph_toposort n es = inr l →
    l ≡ₚ seq 0 n ∧ ∀ i j, edge es i j → before l i j;
  toposort_cycle n es i : Forall (λ e, e.1 < n ∧ e.2 < n) es → petgraph_toposort n es = inl i →
    i < n ∧ tc (edge es) i i;
  scc_connected n es c : Forall (λ e, e.1 < n ∧ e.2 < n) es → c ∈ tarjan_scc n es →
    NoDup c ∧ ∀ i, i ∈ c → i < n ∧ ∀ j, j ∈ c → rtc (edge es) i j }.

Lemma before_reverse {A} (l : list A) a b : before l a b → before (reverse l) b a.
Proof.
  intros (l1 & l2 & l3 & ->). exists (reverse l3), (reverse l2), (reverse l1).
  rewrite !reverse_app, !reverse_cons, !reverse_app, !reverse_cons. by rewrite <- !app_assoc.
Qed.
Lemma before_omap {A B} (f : A → option B) l a b x y : f a = Some x → f b = Some y → before l a b → before (omap f l) x y.
Proof.
  intros Ha Hb (l1 & l2 & l3 & ->). exists (omap f l1), (omap f l2), (omap f l3).
  rewrite omap_app. cbn. rewrite Ha, omap_app. cbn. by rewrite Hb.
Qed.
Lemma before_lt {A} (l : list A) a b : NoDup l → before l a b → ∃ i j, l !! i = Some a ∧ l !! j = Some b ∧ i < j.
Proof.
  intros _ (l1 & l2 & l3 & ->). exists (length l1), (length l1 + S (length l2)). split_and!; [| |lia].
  - by apply list_lookup_middle.
  - rewrite lookup_app_r by lia. replace (length l1 + S (length l2) - length l1) with (S (length l2)) by lia.
    cbn. by apply list_lookup_middle.
Qed.
(** A list with each node before those that it has edges to shows that there is no cycle. *)
Lemma ordered_acyclic {A} (E : relation A) (l : list A) : NoDup l → (∀ a b, E a b → before l a b) → ∀ a, ¬ tc E a a.
Proof.
  intros Hl HE a. assert (∀ x y, tc E x y → ∃ i j, l !! i = Some x ∧ l !! j = Some y ∧ i < j) as H.
  { induction 1 as [x y Hxy|x y z Hxy _ (i & j & Hi & Hj & Hlt)]; [by apply before_lt, HE|].
    destruct (before_lt l x y Hl (HE _ _ Hxy)) as (i' & j' & Hi' & Hj' & Hlt'). exists i', j.
    split_and!; [done..|]. pose proof (NoDup_lookup _ _ _ _ Hl Hi Hj'). lia. }
  intros Ha. destruct (H a a Ha) as (i & j & Hi & Hj & Hlt). pose proof (NoDup_lookup _ _ _ _ Hl Hi Hj). lia.
Qed.
Lemma mapM_index {A} (l : list A) ns : Forall (λ i, i < length l) ns →
  mapM (Prelude.index l) ns = Ok (omap (λ i, l !! i) ns).
Proof.
  induction 1 as [|i ns Hi _ IH]; [done|]. cbn. destruct (index_Ok l i Hi) as (a & E & E'). rewrite E, E'.
  cbn. by rewrite IH.
Qed.
Lemma omap_lookup_seq {A} (l : list A) : ∀ k, omap (λ i, (k ++ l) !! i) (seq (length k) (length l)) = l.
Proof.
  induction l as [|x l IH]; intros k; [done|]. cbn. rewrite list_lookup_middle by done. cbn. f_equal.
  specialize (IH (k ++ [x])). rewrite length_app in IH. cbn in IH. rewrite <- app_assoc in IH. cbn in IH.
  by rewrite Nat.add_1_r in IH.
Qed.

Section Toposort.
Variable petgraph_toposort : nat → list (nat * nat) → nat + list nat.
Variable tarjan_scc : nat → list (nat * nat) → list (list nat).
Hypothesis HL : PetgraphLaws petgraph_toposort tarjan_scc.

(** Either all nodes are given, each behind those that it has edges to, or nodes that lie
    on cycles. *)
Lemma toposort_spec {T} (g : Graph T) : in_range g →
  (∃ ns, ns ≡ₚ seq 0 (length (nodes g)) ∧ (∀ i j, edge (edges g) i j → before ns j i) ∧
     toposort petgraph_toposort tarjan_scc g = Ok (inr (omap (λ i, nodes g !! i) ns))) ∨
  (∃ ns, ns ≠ [] ∧ (∀ i, i ∈ ns → i < length (nodes g) ∧ tc (edge (edges g)) i i) ∧
     toposort petgraph_toposort tarjan_scc g = Ok (inl (omap (λ i, nodes g !! i) ns))).
Proof using HL.
  intros Hr. unfold toposort. destruct (petgraph_toposort _ _) as [n|l] eqn:E; [right|left].
  - destruct (toposort_cycle _ _ HL _ _ _ Hr E) as [Hn Hc].
    set (big := base.filter (λ c, 1 < length c) (tarjan_scc (length (nodes g)) (edges g))).
    assert (∀ c, head big = Some c → c ≠ [] ∧ ∀ i, i ∈ c → i < length (nodes g) ∧ tc (edge (edges g)) i i) as Hbig.
    { intros c Hh. assert (c ∈ big) as [Hlen Hin]%list_elem_of_filter.
      { destruct big; [done|]. injection Hh as ->. by left. }
      split; [by intros ->; cbn in Hlen; lia|]. destruct (scc_connected _ _ HL _ _ _ Hr Hin) as [Hnd Hcc].
      intros i Hi. destruct (Hcc i Hi) as [Hlt Hij]. split; [done|].
      assert (∃ j, j ∈ c ∧ j ≠ i) as (j & Hj & Hne).
      { destruct c as [|x [|y c]]; cbn in Hlen; [lia..|]. apply NoDup_cons in Hnd as [Hx _].
        rewrite elem_of_cons in Hx. destruct (decide (x = i)) as [->|]; [exists y|by exists x; split; [left|]].
        split; [by right; left|]. intros ->. apply Hx. by left. }
      destruct (Hcc j Hj) as [_ Hji]. specialize (Hij j Hj). specialize (Hji i Hi).
      destruct (rtc_inv _ _ Hij) as [->|(k & Hik & Hkj)]; [done|]. eapply tc_rtc_r; [by apply tc_once|]. by trans j. }
    exists (default [n] (head big)). destruct (head big) as [c|]; cbn [default id].
    + destruct (Hbig c eq_refl) as [Hne Hc']. split_and!; [done..|]. rewrite mapM_index; [done|].
      apply list.Forall_forall. intros i Hi. by apply Hc'.
    + split_and!; [done| |].
      * intros i ->%list_elem_of_singleton. done.
      * rewrite mapM_index; [done|]. by constructor.
  - destruct (toposort_order _ _ HL _ _ _ Hr E) as [Hp Hb]. exists (reverse l). split_and!.
    + by rewrite reverse_Permutation.
    + intros i j Hij. by apply before_reverse, Hb.
    + rewrite mapM_index; [done|]. apply list.Forall_forall. intros i Hi.
      rewrite reverse_Permutation, Hp in Hi. apply elem_of_seq in Hi. lia.
Qed.
End Toposort.

(** ** The graph of paths *)

Definition path_linked (g : PkgFileGraph) (p q : string) : Prop :=
  ∃ a b, linked (graph g) a b ∧ path a = p ∧ path b = q.

Lemma path_nodes_spec (step : Graph string * IndexMap string nat → PkgFile → Graph string * IndexMap string nat) (l : list PkgFile) :
  (∀ acc f, step acc f = let (g, i) := add_node (path f) acc.1 in (g, map_insert (path f) i acc.2)) → ∀ ps m,
  let r := foldl step (ps, m) l in
  nodes r.1 = nodes ps ++ (path <$> l) ∧ edges r.1 = edges ps ∧
  ∀ p, (p ∈ path <$> l → is_Some (map_get p r.2)) ∧ (is_Some (map_get p m) → is_Some (map_get p r.2)) ∧
    ∀ i, map_get p r.2 = Some i → map_get p m = Some i ∨ nodes r.1 !! i = Some p.
Proof.
  intros Hstep. induction l as [|f l IH]; intros ps m; cbn [foldl].
  { split_and!; [by rewrite app_nil_r|done|]. intros p. split_and!; [by intros ?%elem_of_nil|done|by left]. }
  rewrite Hstep. cbn [add_node fst snd].
  destruct (IH (MkGraph (nodes ps ++ [path f]) (edges ps)) (map_insert (path f) (length (nodes ps)) m)) as (Hn & He & Hp).
  cbv zeta in *. cbn [nodes edges] in Hn, He. split_and!; [rewrite Hn, <- app_assoc; done|done|]. intros p. destruct (Hp p) as (H1 & H2 & H3). split_and!.
  - intros [->|Hin]%elem_of_cons; [|by apply H1]. apply H2. by rewrite map_get_insert_eq.
  - intros Hs. apply H2. destruct (decide (p = path f)) as [->|Hne]; [by rewrite map_get_insert_eq|by rewrite map_get_insert_ne].
  - intros i [Hi|Hi]%H3; [|by right]. destruct (decide (p = path f)) as [->|Hne].
    + rewrite map_get_insert_eq in Hi. injection Hi as <-. right. rewrite Hn, <- app_assoc.
      by apply list_lookup_middle.
    + rewrite map_get_insert_ne in Hi by done. by left.
Qed.

(** Its nodes are the paths of the files; a path is represented by the last of its nodes,
    and the edges are those of the paths. *)
Lemma path_graph_spec g : wf_graph g → ∃ idx,
  nodes (file_path_graph g) = path <$> files_of g ∧
  (∀ p, p ∈ path <$> files_of g → nodes (file_path_graph g) !! idx p = Some p) ∧
  ∀ i j, edge (edges (file_path_graph g)) i j ↔ ∃ p q, path_linked g p q ∧ i = idx p ∧ j = idx q.
Proof.
  intros Hg. unfold file_path_graph, path_nodes.
  destruct (path_nodes_spec _ (files_of g) (λ _ _, eq_refl) (MkGraph [] []) []) as (Hn & He & Hp). cbv zeta in *.
  destruct (foldl _ (MkGraph [] [], []) _) as [paths node_map]. cbn [fst snd nodes edges] in Hn, He, Hp.
  set (idx p := default 0 (map_get p node_map)). exists idx.
  assert (∀ p, p ∈ path <$> files_of g → map_get p node_map = Some (idx p) ∧ (path <$> files_of g) !! idx p = Some p) as Hidx.
  { intros p Hin. destruct (Hp p) as (Hs & _ & Hi). destruct (Hs Hin) as [i Ei]. unfold idx. rewrite Ei.
    split; [done|]. destruct (Hi i Ei) as [Hm|Hm]; [done|]. by rewrite Hn in Hm. }
  match goal with |- context [foldl ?F paths (edges (graph g))] => set (step := F) end.
  assert (∀ es acc, Forall (λ e, e.1 < length (files_of g) ∧ e.2 < length (files_of g)) es →
    nodes (foldl step acc es) = nodes acc ∧ ∀ i j, edge (edges (foldl step acc es)) i j ↔ edge (edges acc) i j ∨
      ∃ k l a b, (k, l) ∈ es ∧ files_of g !! k = Some a ∧ files_of g !! l = Some b ∧ i = idx (path a) ∧ j = idx (path b)) as Hstep.
  { induction es as [|[k l] es IH]; intros acc Hf; cbn [foldl].
    { split; [done|]. intros i j. split; [by left|]. by intros [?|(? & ? & ? & ? & ?%elem_of_nil & _)]. }
    apply list.Forall_cons in Hf as [[Hk Hl] Hf]. cbn [fst snd] in Hk, Hl.
    apply lookup_lt_is_Some_2 in Hk as [a Ha], Hl as [b Hb].
    assert (step acc (k, l) = add_edge (idx (path a)) (idx (path b)) acc) as ->.
    { unfold step. cbn [fst snd]. rewrite Ha, Hb.
      destruct (Hidx (path a)) as [-> _]; [apply list_elem_of_fmap; exists a; split; [done|by eapply list_elem_of_lookup_2]|].
      by destruct (Hidx (path b)) as [-> _]; [apply list_elem_of_fmap; exists b; split; [done|by eapply list_elem_of_lookup_2]|]. }
    destruct (IH (add_edge (idx (path a)) (idx (path b)) acc) Hf) as [IHn IHe]. split; [done|].
    intros i j. rewrite IHe. unfold edge, add_edge. cbn [edges nodes]. rewrite elem_of_app, list_elem_of_singleton.
    split.
    - intros [[H|[= -> ->]]|(k' & l' & a' & b' & H & ?)]; [by left|right; exists k, l, a, b; split; [by left|done]|].
      right. exists k', l', a', b'. split; [by right|done].
    - intros [H|(k' & l' & a' & b' & [[= -> ->]|H]%elem_of_cons & Ha' & Hb' & -> & ->)]; [by left; left| |].
      + left; right. congruence.
      + right. by exists k', l', a', b'. }
  destruct (Hstep _ paths (wf_range _ Hg)) as [Sn Se]. split_and!.
  - by rewrite Sn, Hn.
  - intros p Hin. rewrite Sn, Hn. by apply Hidx.
  - intros i j. rewrite Se. unfold path_linked, linked. unfold edge at 1. rewrite He, elem_of_nil. split.
    + intros [[]|(k & l & a & b & H & Ha & Hb & -> & ->)]. exists (path a), (path b). split; [|done].
      exists a, b. split; [by exists k, l|done].
    + intros (p & q & (a & b & (k & l & H & Ha & Hb) & <- & <-) & -> & ->). right. by exists k, l, a, b.
Qed.
Lemma path_linked_nodes g p q : path_linked g p q → p ∈ path <$> files_of g ∧ q ∈ path <$> files_of g.
Proof.
  intros (a & b & (i & j & _ & Ha & Hb) & <- & <-).
  split; apply list_elem_of_fmap; eexists; (split; [done|]); by eapply list_elem_of_lookup_2.
Qed.

(** ** Orders and cycles of a graph of files *)

Lemma tc_converse {A} (E : relation A) a b : tc E a b → tc (λ x y, E y x) b a.
Proof. induction 1 as [x y Hxy|x y z Hxy _ IH]; [by apply tc_once|]. by eapply tc_r. Qed.

Section Cycles.
Variable petgraph_toposort : nat → list (nat * nat) → nat + list nat.
Variable tarjan_scc : nat → list (nat * nat) → list (list nat).
Hypothesis HL : PetgraphLaws petgraph_toposort tarjan_scc.
Abbreviation toposort := (toposort petgraph_toposort tarjan_scc).

(** The files in their order, or all of them in the order of the graph. *)
Lemma order_of g : wf_graph g → ∃ r, toposort (graph g) = Ok r ∧
  let files := match r with inr files => files | inl _ => graph_paths g end in
  files ≡ₚ files_of g ∧ ((∀ f, ¬ tc (linked (graph g)) f f) → ∀ a b, linked (graph g) a b → before files b a).
Proof using HL.
  intros Hg. destruct (toposort_spec _ _ HL (graph g) (wf_range _ Hg)) as [(ns & Hp & Hb & ->)|(ns & Hne & Hc & ->)];
    (eexists; split; [reflexivity|]); cbv zeta; cbn beta iota; split.
  - rewrite Hp. pose proof (omap_lookup_seq (files_of g) []) as H. cbn in H. by rewrite H.
  - intros _ a b (i & j & He & Ha & Hb'). by apply (before_omap _ ns j i), Hb.
  - by rewrite graph_paths_nodes.
  - intros Hac. exfalso. destruct ns as [|i ns]; [done|]. destruct (Hc i ltac:(left)) as [Hi Ht].
    assert (∀ k l, tc (edge (edges (graph g))) k l → ∃ x y, files_of g !! k = Some x ∧ files_of g !! l = Some y ∧ tc (linked (graph g)) x y) as H.
    { pose proof (proj1 (list.Forall_forall _ _) (wf_range _ Hg)) as Hr.
      induction 1 as [k l Hkl|k l m Hkl _ (x & y & Hx & Hy & Hxy)].
      - destruct (Hr _ Hkl) as [Hk Hl']. apply lookup_lt_is_Some_2 in Hk as [x Hx], Hl' as [y Hy].
        exists x, y. split_and!; [done..|]. apply tc_once. by exists k, l.
      - destruct (Hr _ Hkl) as [Hk _]. apply lookup_lt_is_Some_2 in Hk as [w Hw]. exists w, y. split_and!; [done..|].
        eapply tc_l; [|exact Hxy]. by exists k, l. }
    destruct (H i i Ht) as (x & y & Hx & Hy & Hxy). cbn in Hx. apply (Hac x). congruence.
Qed.
(** A cycle of paths is found if there is one. *)
Lemma cycle_of g : wf_graph g → ∃ r, toposort (file_path_graph g) = Ok r ∧
  match r with
  | inl c => c ≠ [] ∧ ∀ p, p ∈ c → tc (path_linked g) p p
  | inr _ => ∀ p, ¬ tc (path_linked g) p p
  end.
Proof using HL.
  intros Hg. destruct (path_graph_spec g Hg) as (idx & Hn & Hidx & He).
  assert (in_range (file_path_graph g)) as Hr.
  { apply list.Forall_forall. intros [i j] Hij. apply He in Hij as (p & q & Hpq & -> & ->).
    apply path_linked_nodes in Hpq as [Hp Hq]. cbn. split; eapply lookup_lt_Some; by apply Hidx. }
  destruct (toposort_spec _ _ HL (file_path_graph g) Hr) as [(ns & Hp & Hb & ->)|(ns & Hne & Hc & ->)];
    (eexists; split; [reflexivity|]); cbn beta iota.
  - intros p Hcp. assert (NoDup ns) as Hnd by (rewrite Hp; apply NoDup_seq).
    apply (ordered_acyclic (λ i j, edge (edges (file_path_graph g)) j i) ns Hnd (λ i j H, Hb _ _ H) (idx p)).
    apply tc_converse. eapply tc_congruence, Hcp. intros x y Hxy. apply He. eauto.
  - assert (∀ i, tc (edge (edges (file_path_graph g))) i i → ∃ p, nodes (file_path_graph g) !! i = Some p ∧ tc (path_linked g) p p) as Hcyc.
    { intros i Hi. set (name k := default "" (nodes (file_path_graph g) !! k)).
      assert (∀ k l, edge (edges (file_path_graph g)) k l → nodes (file_path_graph g) !! k = Some (name k) ∧ path_linked g (name k) (name l)) as Hkl.
      { intros k l Hkl. apply He in Hkl as (p & q & Hpq & -> & ->). destruct (path_linked_nodes _ _ _ Hpq) as [Hp Hq].
        unfold name. by rewrite (Hidx p Hp), (Hidx q Hq). }
      exists (name i). split; [|eapply tc_congruence, Hi; intros x y Hxy; by apply (Hkl x y)].
      assert (∃ l, edge (edges (file_path_graph g)) i l) as [l Hl] by (inversion Hi; eauto). by apply (Hkl i l). }
    split.
    + destruct ns as [|i ns]; [done|]. destruct (Hc i ltac:(left)) as [_ Hi]. destruct (Hcyc i Hi) as (p & Hp & _).
      cbn. by rewrite Hp.
    + intros p Hp. apply list_elem_of_omap in Hp as (i & Hi & Hp). destruct (Hc i Hi) as [_ Ht].
      destruct (Hcyc i Ht) as (q & Hq & Hcq). congruence.
Qed.
End Cycles.

(** A function that has the laws: nodes without edges from the others first, and when there
    are none, a walk against the edges that is as long as there are nodes. *)
Module Kahn.
Definition enters (es : list (nat * nat)) (rem : list nat) (i : nat) : option nat :=
  head (omap (λ e, if bool_decide (e.2 = i ∧ e.1 ∈ rem) then Some e.1 else None) es).
Definition walk (es : list (nat * nat)) (rem : list nat) (n i : nat) : nat :=
  Nat.iter n (λ i, default i (enters es rem i)) i.
Fixpoint sorted (fuel : nat) (es : list (nat * nat)) (rem : list nat) : nat + list nat :=
  match fuel, rem with
  | S fuel, x :: _ =>
      match head (base.filter (λ i, enters es rem i = None) rem) with
      | None => inl (walk es rem (length rem) x)
      | Some i =>
          match sorted fuel es (base.filter (λ j, j ≠ i) rem) with
          | inr l => inr (i :: l)
          | inl c => inl c
          end
      end
  | _, _ => inr []
  end.
Definition toposort (n : nat) (es : list (nat * nat)) : nat + list nat := sorted n es (seq 0 n).
(** What is reached with at most [n] edges, and the nodes that reach each other; a
    component is given for its first node. *)
Definition nexts (es : list (nat * nat)) (l : list nat) : list nat :=
  l ++ omap (λ e, if bool_decide (e.1 ∈ l) then Some e.2 else None) es.
Definition reach (es : list (nat * nat)) (n i : nat) : list nat := Nat.iter n (nexts es) [i].
Definition component (n : nat) (es : list (nat * nat)) (i : nat) : list nat :=
  base.filter (λ j, j ∈ reach es n i ∧ i ∈ reach es n j) (seq 0 n).
Definition components (n : nat) (es : list (nat * nat)) : list (list nat) :=
  omap (λ i, let c := component n es i in if bool_decide (head c = Some i) then Some c else None) (seq 0 n).

Lemma enters_Some es rem i j : enters es rem i = Some j → edge es j i ∧ j ∈ rem.
Proof.
  unfold enters. intros H. assert (j ∈ omap (λ e, if bool_decide (e.2 = i ∧ e.1 ∈ rem) then Some e.1 else None) es) as Hin.
  { destruct (omap _ es); [done|]. injection H as ->. by left. }
  apply list_elem_of_omap in Hin as ([a b] & Hin & Hj). case_bool_decide as Hc; [|done]. cbn in Hj, Hc.
  injection Hj as <-. destruct Hc as [<- Hr]. done.
Qed.
Lemma enters_None es rem i j : enters es rem i = None → edge es j i → j ∈ rem → False.
Proof.
  unfold enters. intros H He Hj. assert (j ∈ omap (λ e, if bool_decide (e.2 = i ∧ e.1 ∈ rem) then Some e.1 else None) es) as Hin.
  { apply list_elem_of_omap. exists (j, i). split; [done|]. cbn. by rewrite bool_decide_true. }
  destruct (omap _ es); [|done]. by apply elem_of_nil in Hin.
Qed.
Lemma repeated {A} `{EqDecision A} (l : list A) : ¬ NoDup l → ∃ i j x, i < j ∧ l !! i = Some x ∧ l !! j = Some x.
Proof.
  induction l as [|y l IH]; intros Hn; [destruct Hn; constructor|]. destruct (decide (y ∈ l)) as [Hin|Hin].
  - apply list_elem_of_lookup in Hin as [j Hj]. exists 0, (S j), y. split_and!; [lia|done..].
  - destruct IH as (i & j & x & Hlt & Hi & Hj); [intros H; apply Hn; by constructor|].
    exists (S i), (S j), x. split_and!; [lia|done..].
Qed.
Lemma walk_cycle es rem i : NoDup rem → i ∈ rem → (∀ j, j ∈ rem → is_Some (enters es rem j)) →
  let c := walk es rem (length rem) i in c ∈ rem ∧ tc (edge es) c c.
Proof.
  intros Hnd Hi Hs. cbv zeta. set (w n := walk es rem n i).
  assert (∀ n, w (S n) = default (w n) (enters es rem (w n))) as HS by done.
  assert (∀ n, w n ∈ rem ∧ edge es (w (S n)) (w n)) as Hw.
  { induction n as [|n [IH1 IH2]].
    - destruct (Hs i Hi) as [j Hj]. split; [done|]. rewrite HS. change (w 0) with i. rewrite Hj. by apply (enters_Some es rem).
    - destruct (Hs _ IH1) as [j Hj]. assert (w (S n) = j) as Hwj by (by rewrite HS, Hj).
      apply enters_Some in Hj as [_ Hj]. rewrite <- Hwj in Hj. destruct (Hs _ Hj) as [k Hk]. split; [done|].
      assert (w (S (S n)) = k) as -> by (by rewrite HS, Hk). by apply (enters_Some es rem). }
  destruct (repeated (w <$> seq 0 (S (length rem)))) as (a & b & x & Hab & Ha & Hb).
  { intros Hn. assert (length (w <$> seq 0 (S (length rem))) ≤ length rem) as Hl; [|rewrite length_fmap, length_seq in Hl; lia].
    apply submseteq_length, NoDup_submseteq; [done|]. intros y (k & -> & _)%list_elem_of_fmap. apply Hw. }
  apply list_lookup_fmap_Some in Ha as (a' & Ea & Ha), Hb as (b' & Eb & Hb). apply lookup_seq in Ha as [-> Ha], Hb as [-> Hb].
  cbn [Nat.add] in Ea, Eb. split; [apply Hw|]. fold (w (length rem)).
  assert (∀ k, w (a + k) = w (b + k)) as Hk.
  { induction k as [|k IH]; [rewrite !Nat.add_0_r; congruence|]. rewrite !Nat.add_succ_r, !HS. by rewrite IH. }
  assert (∀ n k, 0 < k → tc (edge es) (w (n + k)) (w n)) as Ht.
  { intros n. induction k as [|[|k] IH]; intros Hlt; [lia| |].
    - rewrite Nat.add_1_r. apply tc_once, Hw.
    - eapply tc_l; [|apply IH; lia]. rewrite (Nat.add_succ_r n (S k)). apply Hw. }
  pose proof (Ht (length rem) (b - a) ltac:(lia)) as H. specialize (Hk (length rem - a)).
  replace (length rem + (b - a)) with (b + (length rem - a)) in H by lia.
  replace (a + (length rem - a)) with (length rem) in Hk by lia. by rewrite <- Hk in H.
Qed.
Lemma kahn_spec es fuel : ∀ rem, NoDup rem → length rem ≤ fuel →
  match sorted fuel es rem with
  | inr l => l ≡ₚ rem ∧ ∀ i j, edge es i j → i ∈ rem → j ∈ rem → before l i j
  | inl c => c ∈ rem ∧ tc (edge es) c c
  end.
Proof.
  induction fuel as [|fuel IH]; intros [|x rem'] Hnd Hl; cbn [sorted]; try (split; [done|by intros i j _ ?%elem_of_nil]); [cbn in Hl; lia|].
  set (rem := x :: rem') in *. destruct (base.filter _ rem) as [|i rest] eqn:Ef; cbn [head].
  - apply walk_cycle; [done|by left|]. intros j Hj. destruct (enters es rem j) eqn:E; [done|].
    assert (j ∈ base.filter (λ i, enters es rem i = None) rem) as Hin by (by apply list_elem_of_filter).
    rewrite Ef in Hin. by apply elem_of_nil in Hin.
  - assert (i ∈ base.filter (λ i, enters es rem i = None) rem) as [Hi Hin]%list_elem_of_filter by (rewrite Ef; left).
    assert (rem ≡ₚ i :: base.filter (λ j, j ≠ i) rem) as Hp.
    { apply list.NoDup_Permutation; [done|constructor; [|by apply NoDup_filter]|].
      - intros [H _]%list_elem_of_filter. done.
      - intros j. rewrite elem_of_cons, list_elem_of_filter. destruct (decide (j = i)); naive_solver. }
    specialize (IH (base.filter (λ j, j ≠ i) rem) ltac:(by apply NoDup_filter)).
    apply Permutation_length in Hp as Hlen. cbn [length] in Hlen. specialize (IH ltac:(lia)).
    destruct (sorted fuel es _) as [c|l].
    + destruct IH as [[_ Hc]%list_elem_of_filter Ht]. done.
    + destruct IH as [Hpl Hb]. split; [by rewrite Hpl, <- Hp|]. intros a b Hab Ha Hb'.
      assert (b ≠ i) as Hbi by (intros ->; by apply (enters_None es rem i a)).
      destruct (decide (a = i)) as [->|Hai].
      * assert (b ∈ l) as (l1 & l2 & ->)%list_elem_of_split by (rewrite Hpl; by apply list_elem_of_filter). by exists [], l1, l2.
      * destruct (Hb a b Hab) as (l1 & l2 & l3 & ->); [by apply list_elem_of_filter..|]. by exists (i :: l1), l2, l3.
Qed.
Lemma reach_rtc es n i : ∀ j, j ∈ reach es n i → rtc (edge es) i j.
Proof.
  unfold reach. induction n as [|n IH]; cbn; intros j; [intros ->%list_elem_of_singleton; done|].
  intros [Hj|Hj]%elem_of_app; [by apply IH|]. apply list_elem_of_omap in Hj as ([a c] & Hin & Hj).
  case_bool_decide as Ha; [|done]. cbn in Ha, Hj. injection Hj as ->. eapply rtc_r; [by apply IH|done].
Qed.
Lemma laws : PetgraphLaws toposort components.
Proof.
  assert (∀ n es i j, Forall (λ e, e.1 < n ∧ e.2 < n) es → edge es i j → i ∈ seq 0 n ∧ j ∈ seq 0 n) as Hr.
  { intros n es i j Hf Hij. apply (proj1 (list.Forall_forall _ _) Hf) in Hij as [Hi Hj]. cbn in *. rewrite !elem_of_seq. lia. }
  split; intros n es x Hf; unfold toposort.
  - intros H. pose proof (kahn_spec es n (seq 0 n) (NoDup_seq _ _)) as Hs. rewrite H, length_seq in Hs.
    destruct (Hs (le_n _)) as [Hp Hb]. split; [done|]. intros i j Hij. destruct (Hr n es i j Hf Hij). by apply Hb.
  - intros H. pose proof (kahn_spec es n (seq 0 n) (NoDup_seq _ _)) as Hs. rewrite H, length_seq in Hs.
    destruct (Hs (le_n _)) as [Hx%elem_of_seq Ht]. split; [lia|done].
  - intros (i & Hi & Hx)%list_elem_of_omap. cbv zeta in Hx. case_bool_decide; [|done]. injection Hx as <-.
    unfold component. split; [apply NoDup_filter, NoDup_seq|].
    intros j [[_ Hj] Hs%elem_of_seq]%list_elem_of_filter. split; [lia|]. intros k [[Hk _] _]%list_elem_of_filter.
    trans i; by eapply reach_rtc.
Qed.
End Kahn.
