(* ===== verification/LoadProps.v ===== *)
(** * The files that are loaded and their order

    What [Load] does with a set of files that can be read and whose imports are found
    ([loadable]): loading ends with each file that the entries reach by imports once, a file
    comes behind those that it imports unless there is a cycle, and cyclic imports are
    reported exactly when the paths have a cycle.  The diagnostics of a search are lists to
    which it adds ([reports]); the state of the loop over the queue has the invariant [inv]. *)

From stdpp Require Import base tactics list relations strings numbers gmap.
From Stdlib Require Import ZArith Lia.
From S2P Require Import Prelude MachineInt IndexMap Str Eval Packages Load LoadGraph.
From S2P Require Ast Value StrMethods.
Local Open Scope nat_scope.
Local Set Warnings "-clear-no-such-hyp".

(** ** What a search reports *)

Definition is_cyclic (d : LoadDiagnostic) : bool := match d with CyclicImport _ => true | _ => false end.
(** The computation ends, and adds its diagnostics, none of a cycle, to those before, on
    which it does not depend. *)
Definition reports {A} (m : Reported A) : Prop :=
  ∃ r k, Forall (λ d, is_cyclic d = false) k ∧ ∀ l, m l = Ok (r, l ++ k).

Lemma reports_pure {A} (o : Outcome A) : reports (λ l, Ok (o, l)).
Proof. exists o, []. split; [constructor|]. intros l. by rewrite app_nil_r. Qed.
Lemma reports_ret {A} (a : A) : reports (mret a).
Proof. apply reports_pure. Qed.
Lemma reports_fail {A} msg : reports (A := A) (fail msg).
Proof. apply reports_pure. Qed.
Lemma reports_report d : is_cyclic d = false → reports (report d).
Proof. intros Hd. exists (Done tt), [d]. by repeat constructor. Qed.
Lemma reports_bind {A B} (m : Reported A) (f : A → Reported B) : reports m → (∀ a, reports (f a)) → reports (m ≫= f).
Proof.
  intros (o & k & Hk & Hm) Hf. unfold mbind, Ev_bind. destruct o as [a|msg].
  - destruct (Hf a) as (o & k' & Hk' & Ha). exists o, (k ++ k'). split; [by apply list.Forall_app|].
    intros l. rewrite Hm, Ha. by rewrite app_assoc.
  - exists (Err msg), k. split; [done|]. intros l. by rewrite Hm.
Qed.
Lemma reports_path {A B} (r : Res A) (f : A → Reported B) : (∃ a, r = Ok a) → (∀ a, reports (f a)) → reports (lift r ≫= f).
Proof. intros [a ->] Hf. destruct (Hf a) as (o & k & Hk & Ha). by exists o, k. Qed.
Lemma reports_or_none {A} (m : Reported (option A)) : reports m → reports (or_none m).
Proof.
  intros (o & k & Hk & Hm). exists match o with Err _ => Done None | r => r end, k. split; [done|].
  intros l. unfold or_none. rewrite Hm. by destruct o.
Qed.
Create HintDb reports.
#[export] Hint Resolve reports_ret reports_fail reports_or_none : reports.
#[export] Hint Extern 2 (reports (report _)) => apply reports_report; reflexivity : reports.
#[export] Hint Extern 3 (reports (mbind _ _)) => apply reports_bind; [|intros ?] : reports.
Ltac search_reports := repeat (auto with reports; case_goal); auto with reports.

Section Search.
Variable fs : FileSystem.
Variable diff_paths : string → string → option string.
Variable opts : LoadProgramOptions.

Lemma reports_get_dir_files dir : reports (get_dir_files fs dir).
Proof using. unfold get_dir_files. search_reports. Qed.
Hint Resolve reports_get_dir_files : reports.
Lemma reports_kfiles root p : reports (get_pkg_kfile_list fs root p).
Proof using. unfold get_pkg_kfile_list. search_reports. Qed.
Hint Resolve reports_kfiles : reports.
Lemma reports_internal name root p : reports (is_internal_pkg fs name root p).
Proof using. unfold is_internal_pkg. destruct (pkg_exists _ _ _); auto with reports. Qed.
Lemma reports_external p : reports (is_external_pkg fs opts p).
Proof using.
  unfold is_external_pkg. cbv zeta. destruct (match _ with Some _ => _ | None => _ end); search_reports.
Qed.
Hint Resolve reports_internal reports_external : reports.
Lemma reports_find name root p : reports (find_packages fs opts name root p).
Proof using.
  unfold find_packages. repeat (case_goal; auto with reports). apply reports_bind; [auto with reports|]. intros i.
  apply reports_bind; [auto with reports|]. intros e. destruct i, e; auto with reports.
Qed.
Hint Resolve reports_find : reports.
(** A path is only missing when the file has no directory. *)
Lemma fix_path_Ok root name p : is_Some (path_parent name) → ∃ q, fix_import_path diff_paths root name p = Ok q.
Proof using.
  intros [d Hd]. unfold fix_import_path. rewrite Hd. cbn [unwrap mbind Res_bind]. cbv zeta.
  repeat case_goal; by eexists.
Qed.
Lemma reports_imported pkg name stmts : is_Some (path_parent name) → ∀ acc,
  reports (imported_files fs diff_paths opts pkg name stmts acc).
Proof using.
  intros Hp. induction stmts as [|[]]; intros acc; cbn [imported_files]; [auto with reports| |done].
  apply reports_path; [by apply fix_path_Ok|]. auto 6 with reports.
Qed.
(** Statements that are not imports stay. *)
Definition others (stmts : list Stmt) : list Ast.Stmt := omap (λ s, match s with Other s => Some s | _ => None end) stmts.
Lemma fix_stmts_Ok pkg name stmts : is_Some (path_parent name) → ∀ l,
  ∃ stmts' k, fix_stmts fs diff_paths opts pkg name stmts l = Ok (Done stmts', l ++ k) ∧
    Forall (λ d, is_cyclic d = false) k ∧ others stmts' = others stmts.
Proof using.
  intros Hp. induction stmts as [|[p|s] stmts IH]; intros l; cbn [fix_stmts].
  - exists [], []. by rewrite app_nil_r.
  - destruct (fix_path_Ok (pkg_root pkg) name p Hp) as [q Hq]. rewrite Hq.
    destruct (reports_find (pkg_name pkg) (pkg_root pkg) q) as (o & k & Hk & Hm).
    destruct (IH (l ++ k)) as (ss & k' & E & Hk' & Ho).
    eexists (Import match o with Done (Some info) => info_path info | _ => q end :: ss), (k ++ k').
    split_and!; [|by apply list.Forall_app|done]. unfold or_none, mbind, Ev_bind, lift. rewrite Hm.
    destruct o as [[]|]; rewrite E, app_assoc; done.
  - destruct (IH l) as (ss & k' & E & Hk' & Ho). exists (Other s :: ss), k'. unfold mbind, Ev_bind. rewrite E.
    split_and!; [done..|]. cbn. by f_equal.
Qed.
End Search.

(** ** Sets of files that can be loaded *)

Lemma map_extend_get {K A} `{EqDecision K} (d m : IndexMap K A) k v :
  map_get k (map_extend m d) = Some v → (k, v) ∈ d ∨ map_get k m = Some v.
Proof.
  revert m. induction d as [|[k' v'] d IH]; intros m H; [by right|]. apply IH in H as [H|H]; [by left; right|].
  destruct (decide (k = k')) as [->|Hne].
  - rewrite map_get_insert_eq in H. injection H as ->. by left; left.
  - rewrite map_get_insert_ne in H by done. by right.
Qed.
Lemma map_extend_some {K A} `{EqDecision K} (d m : IndexMap K A) k :
  k ∈ d.*1 ∨ is_Some (map_get k m) → is_Some (map_get k (map_extend m d)).
Proof.
  revert m. induction d as [|[k' v'] d IH]; intros m H; cbn in *.
  { destruct H as [H%elem_of_nil|H]; done. }
  apply IH. rewrite elem_of_cons in H. destruct (decide (k = k')) as [->|Hne].
  - right. by rewrite map_get_insert_eq.
  - rewrite map_get_insert_ne by done. tauto.
Qed.
Lemma size_push (U P : gset PkgFile) d : d ∈ U → d ∉ P → size (U ∖ ({[d]} ∪ P)) < size (U ∖ P).
Proof. intros HU HP. apply subset_size. set_solver. Qed.
(** The files that have not been parsed. *)
Definition unparsed (U : gset PkgFile) (s : Loader) : nat := size (U ∖ parsed_file s).
Lemma push_new_spec U deps : ∀ queue s, (∀ g, g ∈ deps → g ∈ U) → ∃ new P,
  push_new deps queue s = Ok (Done (queue ++ new), set_parsed (λ _, P) s) ∧
  (∀ g, g ∈ new ↔ g ∈ deps ∧ g ∉ parsed_file s) ∧ (∀ g, g ∈ P ↔ g ∈ deps ∨ g ∈ parsed_file s) ∧
  length new + size (U ∖ P) ≤ unparsed U s.
Proof.
  induction deps as [|d deps IH]; intros queue s Hd; cbn [push_new].
  { exists [], (parsed_file s). rewrite app_nil_r. split_and!; [by destruct s|..]; [intros; rewrite elem_of_nil; tauto..|done]. }
  unfold gets, mbind, Ev_bind. case_bool_decide as Hin.
  - destruct (IH queue s) as (new & P & E & Hn & HP & Hl); [intros g Hg; apply Hd; by right|]. exists new, P.
    split_and!; [done|..|done]; intros g; rewrite ?Hn, ?HP, elem_of_cons; naive_solver.
  - unfold modify. destruct (IH (queue ++ [d]) (set_parsed (λ p, {[d]} ∪ p) s)) as (new & P & E & Hn & HP & Hl); [intros g Hg; apply Hd; by right|].
    exists (d :: new), P. cbn in Hn, HP. rewrite E. split_and!.
    + by rewrite <- app_assoc.
    + intros g. rewrite !elem_of_cons, Hn. destruct (decide (g = d)); set_solver.
    + intros g. rewrite HP, elem_of_cons. set_solver.
    + unfold unparsed in Hl |- *. cbn in Hl |- *. assert (d ∈ U) by (apply Hd; by left).
      cbn [length]. pose proof (size_push U (parsed_file s) d ltac:(done) Hin). lia.
Qed.

Section Loading.
Variable petgraph_toposort : nat → list (nat * nat) → nat + list nat.
Variable tarjan_scc : nat → list (nat * nat) → list (list nat).
Variable fs : FileSystem.
Variable diff_paths : string → string → option string.
Variable opts : LoadProgramOptions.
Variable parse_source : string → list Ast.Stmt.
(** The package that each file belongs to and the source at each path. *)
Variable pkg_of : PkgFile → Pkg.
Variable src_of : string → string.
Abbreviation imported f := (imported_files fs diff_paths opts (pkg_of f) (path f)
  (stmt_of <$> parse_source (src_of (path f))) ([], [])).

Definition source_of (p : string) : Module := MkModule p (stmt_of <$> parse_source (src_of p)).
(** The files that a file imports with their packages. *)
Definition deps_of (f : PkgFile) : PkgMap := match imported f [] with Ok (Done r, _) => r.1 | _ => [] end.
Definition imports (f g : PkgFile) : Prop := g ∈ (deps_of f).*1.
Definition found (f : PkgFile) : bool := match imported f [] with Ok (Done _, _) => true | _ => false end.
Definition readable (f : PkgFile) : Prop := read_to_string fs (path f) = Some (src_of (path f)).
Definition given (f : PkgFile) (src : option string) : Prop :=
  match src with Some src => src = src_of (path f) | None => readable f end.

(** The files hold those of the entries and all that they import, each with its package;
    all can be read and their imports searched for. *)
Record loadable (U : gset PkgFile) (entries : list Entry) : Prop := {
  l_parent f : f ∈ U → is_Some (path_parent (path f));
  l_found f : f ∈ U → found f = true;
  l_deps f g p : f ∈ U → (g, p) ∈ deps_of f → g ∈ U ∧ p = pkg_of g ∧ readable g;
  l_entries e f src : e ∈ entries → (f, src) ∈ entry_files fs e →
    f ∈ U ∧ pkg_of f = MkPkg (entry_name e) (entry_path e) ∧ given f src }.

Section Invariant.
Variable U : gset PkgFile.
Variable entries : list Entry.
Hypothesis HU : loadable U entries.
(** A set of files with all that they import. *)
Variable R : PkgFile → Prop.
Hypothesis R_closed : ∀ f g, R f → imports f g → R g.

Abbreviation nodes_of s := (files_of (file_graph s)).
(** The file is parsed and has its edges. *)
Definition settled (s : Loader) (f : PkgFile) : Prop :=
  is_Some (ast_cache s !! path f) ∧ ∀ g, linked (graph (file_graph s)) f g ↔ imports f g.
Definition no_cyclic : list LoadDiagnostic → Prop := Forall (λ d, is_cyclic d = false).
Definition empties (P : gmap string (list string)) : Prop := ∀ k l, P !! k = Some l → l = [].

Record inv (todo : list PkgFile) (s : Loader) : Prop := {
  i_cache p m : ast_cache s !! p = Some m → m = source_of p;
  i_dep f d : dep_cache s !! f = Some d → d = deps_of f;
  i_source : source_code s = ∅;
  i_graph : wf_graph (file_graph s);
  i_pkgmap f p : map_get f (pkgmap s) = Some p → p = pkg_of f;
  i_node f : f ∈ nodes_of s → R f ∧ f ∈ U ∧ is_Some (map_get f (pkgmap s));
  i_parsed f : f ∈ parsed_file s → f ∈ nodes_of s;
  i_todo f : f ∈ todo → f ∈ nodes_of s ∧ readable f;
  i_settled f : f ∈ nodes_of s → f ∈ todo ∨ settled s f;
  i_pkgs : empties (pkgs s);
  i_errors : no_cyclic (errors s) }.

(** What only grows. *)
Record grows (s s' : Loader) : Prop := {
  g_nodes f : f ∈ nodes_of s → f ∈ nodes_of s';
  g_pkgmap f : is_Some (map_get f (pkgmap s)) → is_Some (map_get f (pkgmap s')) }.
#[local] Instance grows_preorder : PreOrder grows.
Proof using. split; [done|]. intros s1 s2 s3 [H1 H2] [H3 H4]. split; eauto. Qed.

Lemma deps_in f g : f ∈ U → imports f g → g ∈ U ∧ readable g.
Proof using HU.
  intros Hf Hg. apply list_elem_of_fmap in Hg as ([x p] & -> & Hg). by destruct (l_deps _ _ HU f x p Hf Hg) as (? & _ & ?).
Qed.

(** A file gets its edges, and those that it imports are nodes; they are still to be
    parsed unless they have been nodes before. *)
Lemma inv_visit todo todo' s s' f : inv todo s → f ∈ U → R f → is_Some (map_get f (pkgmap s)) →
  ast_cache s' = <[path f := source_of (path f)]> (ast_cache s) →
  (∀ g d, dep_cache s' !! g = Some d → d = deps_of g) → source_code s' = ∅ →
  pkgmap s' = map_extend (pkgmap s) (deps_of f) →
  file_graph s' = update_file (file_graph s) f (deps_of f).*1 →
  parsed_file s' = parsed_file s → empties (pkgs s') → no_cyclic (errors s') →
  (∀ g, g ∈ todo → g ≠ f → g ∈ todo') → (∀ g, imports f g → g ∈ todo' ∨ g ∈ nodes_of s) →
  (∀ g, g ∈ todo' → g ∈ todo ∨ imports f g) →
  inv todo' s' ∧ grows s s' ∧ f ∈ nodes_of s' ∧ (∀ g, imports f g → g ∈ nodes_of s').
Proof using HU R_closed.
  intros I Hf Rf Hp Hc Hd Hs Hm Hg Hq Hpk He T1 T2 T3.
  destruct (update_file_spec f (deps_of f).*1 (file_graph s) (i_graph _ _ I)) as (Wg & Lg & Ng). rewrite <- Hg in Wg, Lg, Ng.
  split_and!; [split|split| |].
  - intros p m. rewrite Hc. intros [[<- <-]|[_ Hl]]%lookup_insert_Some; [done|]. by apply (i_cache _ _ I).
  - done.
  - done.
  - done.
  - intros x p Hx. rewrite Hm in Hx. apply map_extend_get in Hx as [Hx|Hx]; [|by apply (i_pkgmap _ _ I)].
    by apply (l_deps _ _ HU f).
  - intros x [->|[Hx|Hx]]%Ng.
    + split_and!; [done..|]. rewrite Hm. apply map_extend_some. by right.
    + split_and!; [by eapply R_closed|by apply (deps_in f)|]. rewrite Hm. apply map_extend_some. by left.
    + destruct (i_node _ _ I x Hx) as (? & ? & ?). split_and!; [done..|]. rewrite Hm. apply map_extend_some. by right.
  - intros x Hx. rewrite Hq in Hx. apply Ng. right; right. by apply (i_parsed _ _ I).
  - intros x [Hx|Hx]%T3; (split; [apply Ng|]).
    + right; right. by apply (i_todo _ _ I).
    + by apply (i_todo _ _ I).
    + right; by left.
    + by apply (deps_in f).
  - assert (settled s' f) as Hsf.
    { split; [rewrite Hc; by rewrite lookup_insert_eq|]. intros g. rewrite Lg. unfold imports. naive_solver. }
    assert (∀ x, x ∈ nodes_of s → x ∈ todo' ∨ settled s' x) as Hold.
    { intros x Hx. destruct (decide (x = f)) as [->|Hne]; [by right|].
      destruct (i_settled _ _ I x Hx) as [H|[Hcx Hlx]]; [left; by apply T1|right]. split.
      - rewrite Hc. apply lookup_insert_is_Some. destruct (decide (path f = path x)); [by left|by right].
      - intros g. rewrite Lg, <- Hlx. naive_solver. }
    intros x [->|[Hx|Hx]]%Ng; [by right| |by apply Hold]. destruct (T2 x Hx) as [H|H]; [by left|by apply Hold].
  - done.
  - done.
  - intros x Hx. apply Ng. by right; right.
  - intros x Hx. rewrite Hm. apply map_extend_some. by right.
  - apply Ng. by left.
  - intros g H. apply Ng. right; by left.
Qed.

(** Fields that the invariant does not speak of. *)
Lemma inv_file_pkg todo h s : inv todo s → inv todo (set_file_pkg h s).
Proof using. intros []. by split. Qed.
Lemma inv_parsed todo s (P : gset PkgFile) : inv todo s → (∀ f, f ∈ P → f ∈ nodes_of s) → inv todo (set_parsed (λ _, P) s).
Proof using. intros [] H. by split. Qed.
Lemma empties_insert P l : empties P → empties (foldl (λ l p, <[p := []]> l) P l).
Proof using.
  revert P. induction l as [|p l IH]; intros P HP; [done|]. apply IH. intros k x [[_ <-]|[_ H]]%lookup_insert_Some; [done|].
  by eapply HP.
Qed.

Abbreviation get_deps := (get_deps fs diff_paths opts).
Abbreviation parse_file := (parse_file fs diff_paths opts parse_source).
Abbreviation parse_queued := (parse_queued fs diff_paths opts parse_source).

(** The imports of a file with its package are those of [deps_of]. *)
Lemma get_deps_spec todo s f : inv todo s → f ∈ U → is_Some (map_get f (pkgmap s)) → ∃ P E,
  get_deps f (source_of (path f)) s = Ok (Done (deps_of f), set_pkgs (λ _, P) (set_errors (λ _, E) s)) ∧
  empties P ∧ no_cyclic E.
Proof using HU.
  intros I Hf Hp. pose proof (l_found _ _ HU f Hf) as Hfound.
  destruct (reports_imported fs diff_paths opts (pkg_of f) (path f) (stmt_of <$> parse_source (src_of (path f)))
    (l_parent _ _ HU f Hf) ([], [])) as (o & k & Hk & Hm).
  unfold found in Hfound. rewrite Hm in Hfound. destruct o as [r|]; [|done].
  assert (deps_of f = r.1) as Hr by (unfold deps_of; by rewrite Hm). rewrite Hr.
  pose proof (i_pkgs _ _ I) as HP. pose proof (i_errors _ _ I) as HE. clear Hr Hfound.
  unfold Load.get_deps, source_of. cbn [body filename]. destruct (stmt_of <$> _) as [|st sts] eqn:E.
  { pose proof (Hm []) as H0. cbn in H0. injection H0 as <- <-. exists (pkgs s), (errors s). by destruct s. }
  destruct Hp as [p Hp]. pose proof (i_pkgmap _ _ I f p Hp) as ->.
  exists (foldl (λ l p, <[p := []]> l) (pkgs s) r.2), (errors s ++ k).
  split_and!; [|by apply empties_insert|by apply list.Forall_app].
  unfold mbind, Ev_bind, gets, reporting, modify. rewrite Hp, Hm. by destruct s.
Qed.

Definition load_step (s s' : Loader) (f : PkgFile) : Prop := grows s s' ∧ f ∈ nodes_of s' ∧ (∀ g, imports f g → g ∈ nodes_of s').

(** The file has its edges, whatever is still to be parsed behind it. *)
Definition visited (todo : list PkgFile) (f : PkgFile) (s s' : Loader) : Prop :=
  parsed_file s' = parsed_file s ∧ load_step s s' f ∧
  ∀ todo', (∀ g, g ∈ todo → g ≠ f → g ∈ todo') → (∀ g, imports f g → g ∈ todo' ∨ g ∈ nodes_of s) →
    (∀ g, g ∈ todo' → g ∈ todo ∨ imports f g) → inv todo' s'.

Lemma visit todo s s' f : inv todo s → f ∈ U → R f → is_Some (map_get f (pkgmap s)) →
  ast_cache s' = <[path f := source_of (path f)]> (ast_cache s) →
  (∀ g d, dep_cache s' !! g = Some d → d = deps_of g) → source_code s' = ∅ →
  pkgmap s' = map_extend (pkgmap s) (deps_of f) →
  file_graph s' = update_file (file_graph s) f (deps_of f).*1 →
  parsed_file s' = parsed_file s → empties (pkgs s') → no_cyclic (errors s') → visited todo f s s'.
Proof using HU R_closed.
  intros. split_and!; [done| |intros todo' T1 T2 T3; by eapply (inv_visit todo todo')].
  eapply (inv_visit todo ((deps_of f).*1 ++ todo)); try eassumption; intros g Hg;
    rewrite ?elem_of_app in *; unfold imports in *; tauto.
Qed.

Lemma parse_file_spec todo s f src : inv todo s → f ∈ U → R f → is_Some (map_get f (pkgmap s)) → given f src →
  ∃ s', parse_file f src s = Ok (Done (deps_of f).*1, s') ∧ visited todo f s s'.
Proof using HU R_closed.
  intros I Hf Rf Hp Hs. destruct (get_deps_spec todo s f I Hf Hp) as (P & E & Hd & HP & HE).
  assert (parse_file_with_session fs parse_source (path f) match src with Some src => Some src | None => source_code s !! path f end s
    = Ok (Done (source_of (path f)), s)) as Hm.
  { rewrite (i_source _ _ I), lookup_empty. unfold parse_file_with_session. destruct src as [c|]; cbn in Hs; by rewrite Hs. }
  eexists. split.
  - unfold Load.parse_file, gets, modify, mbind, Ev_bind. rewrite Hm, Hd. reflexivity.
  - apply visit; try done; cbn; [|apply (i_source _ _ I)].
    intros g d [[<- <-]|[_ H]]%lookup_insert_Some; [done|]. by apply (i_dep _ _ I).
Qed.

(** The files that are imported go to the end of the queue, if they are new. *)
Lemma push_visited f queue s s' : inv (f :: queue) s → f ∈ U → visited (f :: queue) f s s' → ∃ q s'',
  push_new (deps_of f).*1 queue s' = Ok (Done q, s'') ∧ inv q s'' ∧ grows s s'' ∧
  length q + unparsed U s'' ≤ length queue + unparsed U s.
Proof using HU.
  intros I Hf (Hq & (G & _ & Hn) & HI).
  destruct (push_new_spec U (deps_of f).*1 queue s') as (new & P & E & HN & HP & Hl).
  { intros g Hg. by apply (deps_in f). }
  exists (queue ++ new), (set_parsed (λ _, P) s'). split_and!; [done|..].
  - apply inv_parsed.
    + apply HI; intros g Hg; rewrite ?elem_of_app, ?elem_of_cons in *.
      * intros Hne. destruct Hg; tauto.
      * destruct (decide (g ∈ parsed_file s)) as [Hp|Hp]; [right; by apply (i_parsed _ _ I)|].
        left. right. apply HN. by rewrite Hq.
      * rewrite HN in Hg. destruct Hg as [Hg|[Hg _]]; tauto.
    + intros g [Hg|Hg]%HP; [by apply Hn|]. rewrite Hq in Hg. by apply G, (i_parsed _ _ I).
  - destruct G as [G1 G2]. by split.
  - unfold unparsed in *. cbn. rewrite Hq in Hl. rewrite length_app. lia.
Qed.
Lemma parse_queued_spec f queue nf s : inv (f :: queue) s → ∃ q nf' s',
  parse_queued f queue nf s = Ok (Done (q, nf'), s') ∧ inv q s' ∧ grows s s' ∧
  length q + unparsed U s' ≤ length queue + unparsed U s.
Proof using HU R_closed.
  intros I. destruct (i_todo _ _ I f ltac:(left)) as [Hn Hr]. destruct (i_node _ _ I f Hn) as (Rf & Hf & Hp).
  pose proof (inv_file_pkg _ (add_file_pkg f) _ I) as I1. set (s1 := set_file_pkg (add_file_pkg f) s) in *.
  assert (∃ s', visited (f :: queue) f s1 s' ∧ ∀ q s'', push_new (deps_of f).*1 queue s' = Ok (Done q, s'') →
    ∃ nf', parse_queued f queue nf s = Ok (Done (q, nf'), s'')) as (s' & Hv & Hrun).
  { unfold Load.parse_queued, note_file, gets, modify, mbind, Ev_bind, mret, Ev_ret. fold s1.
    destruct (ast_cache s1 !! path f) as [m|] eqn:Ec.
    - pose proof (i_cache _ _ I1 _ _ Ec) as ->. destruct (dep_cache s1 !! f) as [d|] eqn:Ed.
      + pose proof (i_dep _ _ I1 _ _ Ed) as ->. eexists. split; [|intros q s'' Eq; cbv zeta; rewrite Eq; by eexists].
        apply visit; try done; cbn; [by rewrite insert_id|apply I..].
      + destruct (get_deps_spec _ s1 f I1 Hf Hp) as (P & E & Hd & HP & HE). rewrite Hd. eexists.
        split; [|intros q s'' Eq; cbv zeta; rewrite Eq; by eexists].
        apply visit; try done; cbn; [by rewrite insert_id|apply I..].
    - destruct (parse_file_spec _ s1 f None I1 Hf Rf Hp Hr) as (s' & E & Hv). exists s'. split; [done|].
      intros q s'' Eq. rewrite E, Eq. by eexists. }
  destruct (push_visited f queue s1 s' I1 Hf Hv) as (q & s'' & E & I2 & [G1 G2] & Hl).
  destruct (Hrun q s'' E) as [nf' E']. by exists q, nf', s''.
Qed.

Abbreviation parse_imports := (parse_imports fs diff_paths opts parse_source).
Lemma parse_imports_spec fuel : ∀ queue nf s, inv queue s → length queue + unparsed U s < fuel →
  ∃ nf' s', parse_imports fuel queue nf s = Ok (Done nf', s') ∧ inv [] s' ∧ grows s s'.
Proof using HU R_closed.
  induction fuel as [|fuel IH]; intros queue nf s I Hl; [lia|]. cbn [Load.parse_imports].
  destruct queue as [|f queue]; [by exists nf, s|].
  destruct (parse_queued_spec f queue nf s I) as (q & nf1 & s1 & E & I1 & G1 & Hl1). cbn in Hl.
  destruct (IH q nf1 s1 I1 ltac:(lia)) as (nf2 & s2 & E2 & I2 & G2). exists nf2, s2.
  unfold mbind, Ev_bind. rewrite E. cbn [fst snd]. rewrite E2. split_and!; [done..|]. by trans s1.
Qed.

(** The files of an entry. *)
Definition all_deps (files : list PkgFile) : list PkgFile := concat ((λ f, (deps_of f).*1) <$> files).
Abbreviation parse_pkg := (parse_pkg fs diff_paths opts parse_source).
Lemma parse_pkg_spec files : ∀ todo s, inv todo s →
  (∀ f src, (f, src) ∈ files → f ∈ U ∧ R f ∧ is_Some (map_get f (pkgmap s)) ∧ given f src) →
  ∃ s', parse_pkg files s = Ok (Done (all_deps files.*1), s') ∧ parsed_file s' = parsed_file s ∧
    inv (todo ++ (all_deps files.*1)) s' ∧ grows s s' ∧ ∀ f, f ∈ files.*1 → f ∈ nodes_of s'.
Proof using HU R_closed.
  induction files as [|[f src] files IH]; intros todo s I Hfs; cbn [Load.parse_pkg fmap list_fmap fst].
  { exists s. cbn. rewrite app_nil_r. split_and!; [done..|]. by intros f Hf%elem_of_nil. }
  destruct (Hfs f src ltac:(left)) as (Hf & Rf & Hp & Hs).
  destruct (parse_file_spec todo s f src I Hf Rf Hp Hs) as (s1 & E1 & Q1 & (G1 & Hn1 & _) & HI).
  destruct (IH (todo ++ (deps_of f).*1) s1) as (s2 & E2 & Q2 & I2 & G2 & N2).
  { apply HI; intros g Hg; rewrite ?elem_of_app in *; unfold imports in *; tauto. }
  { intros g c Hg. destruct (Hfs g c ltac:(by right)) as (? & ? & ? & ?). split_and!; try done. by apply G1. }
  exists s2. unfold mbind, Ev_bind. rewrite E1, E2. split_and!; [done|congruence| |by trans s1|].
  - cbn. by rewrite <- app_assoc in I2.
  - intros g [->|Hg]%elem_of_cons; [by apply G2|by apply N2].
Qed.

Abbreviation parse_entry := (parse_entry fs diff_paths opts parse_source).
Abbreviation parse_entries := (parse_entries fs diff_paths opts parse_source).
Definition files_of_entry (e : Entry) : list PkgFile := (entry_files fs e).*1.
Hypothesis R_entries : ∀ e f, e ∈ entries → f ∈ files_of_entry e → R f.

Lemma insert_all_extend (P : Pkg) files : ∀ m : PkgMap,
  foldl (λ l f, map_insert f P l) m files = map_extend m ((λ f, (f, P)) <$> files).
Proof using. induction files as [|f files IH]; intros m; [done|]. apply IH. Qed.
Lemma inv_pkgmap s P files : inv [] s → (∀ f, f ∈ files → pkg_of f = P) → let s' := set_pkgmap (λ l, foldl (λ l f, map_insert f P l) l files) s in
  inv [] s' ∧ grows s s' ∧ ∀ f, f ∈ files → is_Some (map_get f (pkgmap s')).
Proof using.
  intros I HP. cbv zeta. assert (∀ f, f ∈ files ∨ is_Some (map_get f (pkgmap s)) →
    is_Some (map_get f (pkgmap (set_pkgmap (λ l, foldl (λ l f, map_insert f P l) l files) s)))) as Hs.
  { intros f Hf. cbn. rewrite insert_all_extend. apply map_extend_some. destruct Hf as [Hf|Hf]; [left|by right].
    rewrite <- list_fmap_compose. apply list_elem_of_fmap. by exists f. }
  split_and!; [|split; [done|auto]|auto]. destruct I as [I1 I2 I3 I4 I5 I6 I7 I8 I9 I10 I11]. split; try assumption.
  - intros f p. cbn. rewrite insert_all_extend. intros [H|H]%map_extend_get; [|by apply I5].
    apply list_elem_of_fmap in H as (x & [= -> ->] & Hx). symmetry. by apply HP.
  - intros f Hf. destruct (I6 f Hf) as (? & ? & ?). split_and!; [done..|]. apply Hs. by right.
Qed.
Lemma parse_entry_spec fuel e s : inv [] s → e ∈ entries → length (all_deps (files_of_entry e)) + size U < fuel →
  ∃ nf s', parse_entry fuel e s = Ok (Done nf, s') ∧ inv [] s' ∧ grows s s' ∧ ∀ f, f ∈ files_of_entry e → f ∈ nodes_of s'.
Proof using HU R_closed R_entries.
  intros I He Hl.
  destruct (inv_pkgmap s (MkPkg (entry_name e) (entry_path e)) (files_of_entry e) I) as (I1 & G1 & M1).
  { intros f Hf. apply list_elem_of_fmap in Hf as ([x src] & -> & Hf). by apply (l_entries _ _ HU e x src). }
  destruct (parse_pkg_spec (entry_files fs e) [] _ I1) as (s2 & E2 & _ & I2 & G2 & N2).
  { intros f src Hf. destruct (l_entries _ _ HU e f src He Hf) as (? & _ & ?).
    assert (f ∈ files_of_entry e) as Hin by (apply list_elem_of_fmap; by exists (f, src)).
    split_and!; [done|by eapply R_entries|by apply M1|done]. }
  destruct (parse_imports_spec fuel _ (list_to_set (files_of_entry e)) s2 I2) as (nf & s3 & E3 & I3 & G3).
  { cbn [app]. unfold unparsed. assert (size (U ∖ parsed_file s2) ≤ size U) by (apply subseteq_size; set_solver). unfold files_of_entry in *. lia. }
  exists nf, s3. split_and!; [|done|by trans s2; [eapply transitivity|]|intros f Hf; by apply G3, N2].
  unfold Load.parse_entry, mbind, Ev_bind, modify. cbv zeta. unfold files_of_entry in *. rewrite E2. cbn [app] in E3. by rewrite E3.
Qed.
Lemma parse_entries_spec fuel es : ∀ s, inv [] s → (∀ e, e ∈ es → e ∈ entries) →
  (∀ e, e ∈ es → length (all_deps (files_of_entry e)) + size U < fuel) →
  ∃ nf s', parse_entries fuel es s = Ok (Done nf, s') ∧ inv [] s' ∧ grows s s' ∧
    ∀ e f, e ∈ es → f ∈ files_of_entry e → f ∈ nodes_of s'.
Proof using HU R_closed R_entries.
  induction es as [|e es IH]; intros s I Hes Hl; cbn [Load.parse_entries].
  { exists ∅, s. split_and!; [done..|]. by intros e f He%elem_of_nil. }
  destruct (parse_entry_spec fuel e s I) as (nf1 & s1 & E1 & I1 & G1 & N1); [apply Hes; by left|apply Hl; by left|].
  destruct (IH s1 I1) as (nf2 & s2 & E2 & I2 & G2 & N2); [intros; apply Hes; by right|intros; apply Hl; by right|].
  exists (nf1 ∪ nf2), s2. unfold mbind, Ev_bind. rewrite E1, E2. split_and!; [done..|by trans s1|].
  intros x f [->|Hx]%elem_of_cons Hf; [by apply G2, N1|by eapply N2].
Qed.
End Invariant.

(** ** The modules of the program *)

(** Modules whose imports may have been rewritten. *)
Definition modules_ok (c : gmap string Module) : Prop :=
  ∀ p m, c !! p = Some m → filename m = p ∧ others (body m) = others (body (source_of p)).
Lemma collect_files_spec nf files : ∀ s, modules_ok (ast_cache s) →
  (∀ f, f ∈ files → is_Some (ast_cache s !! path f) ∧ is_Some (map_get f (pkgmap s)) ∧ is_Some (path_parent (path f))) →
  ∃ s' k, collect_files fs diff_paths opts nf files s = Ok (Done tt, s') ∧ errors s' = errors s ++ k ∧ no_cyclic k ∧
    modules_ok (ast_cache s') ∧ (∀ p, is_Some (ast_cache s' !! p) ↔ is_Some (ast_cache s !! p)) ∧
    ∀ q, default [] (pkgs s' !! q) = default [] (pkgs s !! q) ++ (path <$> base.filter (λ f, pkg_path f = q) files).
Proof using pkg_of.
  induction files as [|f files IH]; intros s Hm Hf; cbn [collect_files].
  { exists s, []. split_and!; [done|by rewrite app_nil_r|constructor|done|done|]. intros q. by rewrite app_nil_r. }
  destruct (Hf f ltac:(left)) as ([m Hc] & [p Hp] & Hpar). destruct (Hm _ _ Hc) as [Hn Ho].
  assert (∃ s1 k, (if bool_decide (f ∈ nf) then fix_rel_import_path_with_file fs diff_paths opts f m else mret tt) s = Ok (Done tt, s1) ∧
    errors s1 = errors s ++ k ∧ no_cyclic k ∧ modules_ok (ast_cache s1) ∧ (∀ p, is_Some (ast_cache s1 !! p) ↔ is_Some (ast_cache s !! p)) ∧
    pkgs s1 = pkgs s ∧ pkgmap s1 = pkgmap s) as (s1 & k1 & E1 & Er1 & Hk1 & Hm1 & Hd1 & Hpk1 & Hpm1).
  { case_bool_decide; [|exists s, []; split_and!; [done|by rewrite app_nil_r|constructor|done..]].
    destruct (fix_stmts_Ok fs diff_paths opts p (filename m) (body m) ltac:(by rewrite Hn) (errors s)) as (stmts & k & E & Hk & Hos).
    eexists _, k. split; [unfold fix_rel_import_path_with_file, gets, reporting, modify, mbind, Ev_bind; rewrite Hp, E; reflexivity|].
    split_and!; [done|done| | |done|done]; cbn.
    - intros q x [[<- <-]|[_ Hx]]%lookup_insert_Some; [|by apply Hm]. split; [done|]. by etransitivity.
    - intros q. rewrite lookup_insert_is_Some. destruct (decide (path f = q)) as [<-|]; naive_solver. }
  destruct (IH (set_pkgs (push_module f) s1)) as (s2 & k2 & E2 & Er2 & Hk2 & Hm2 & Hd2 & Hp2).
  { done. }
  { intros g Hg. destruct (Hf g ltac:(by right)) as (? & ? & ?). cbn. rewrite Hd1, Hpm1. done. }
  exists s2, (k1 ++ k2). split_and!; [|cbn in Er2; by rewrite Er2, Er1, app_assoc|by apply list.Forall_app|done| |].
  - unfold gets, modify, mbind, Ev_bind in *. rewrite Hc, E1. by rewrite E2.
  - intros q. rewrite Hd2. apply Hd1.
  - intros q. rewrite Hp2. cbn [set_pkgs pkgs]. rewrite Hpk1. unfold push_module. rewrite list.filter_cons. destruct (decide (pkg_path f = q)) as [<-|Hq].
    + rewrite lookup_insert_eq. cbn [default id fmap list_fmap]. by rewrite <- app_assoc.
    + by rewrite lookup_insert_ne.
Qed.

(** ** Loading a program *)

Section Program.
Abbreviation parse_entries := (parse_entries fs diff_paths opts parse_source).
Abbreviation parse_program := (parse_program petgraph_toposort tarjan_scc fs diff_paths opts parse_source).
Hypothesis HL : PetgraphLaws petgraph_toposort tarjan_scc.
Variable U : gset PkgFile.
Variable entries : list Entry.
Hypothesis HU : loadable U entries.
Definition reached (es : list Entry) (f : PkgFile) : Prop :=
  ∃ e r, e ∈ es ∧ r ∈ files_of_entry e ∧ rtc imports r f.
Definition path_imports (es : list Entry) (p q : string) : Prop :=
  ∃ f g, reached es f ∧ imports f g ∧ path f = p ∧ path g = q.
Definition fuel_for (es : list Entry) : nat :=
  S (size U + max_list ((λ e, length (all_deps (files_of_entry e))) <$> es)).

(** The state in which all files are parsed. *)
Record parsed (s : Loader) : Prop := {
  p_graph : wf_graph (file_graph s);
  p_nodes f : f ∈ files_of (file_graph s) ↔ reached entries f;
  p_linked f g : linked (graph (file_graph s)) f g ↔ reached entries f ∧ imports f g;
  p_modules : modules_ok (ast_cache s);
  p_file f : reached entries f → is_Some (ast_cache s !! path f) ∧ is_Some (map_get f (pkgmap s)) ∧ is_Some (path_parent (path f));
  p_pkgs : empties (pkgs s);
  p_errors : no_cyclic (errors s) }.

Lemma parsed_all fuel : fuel_for entries ≤ fuel → ∃ nf s,
  parse_entries fuel entries (set_pkgs (λ _, ∅) Loader_new) = Ok (Done nf, s) ∧ parsed s.
Proof using HU.
  intros Hf. assert (∀ f g, reached entries f → imports f g → reached entries g) as Rc.
  { intros f g (e & r & He & Hr & Hrf) Hg. exists e, r. split_and!; [done..|]. by eapply rtc_r. }
  assert (∀ e f, e ∈ entries → f ∈ files_of_entry e → reached entries f) as Re by (intros e f He Hin; by exists e, f).
  destruct (parse_entries_spec U entries HU (reached entries) Rc Re fuel entries (set_pkgs (λ _, ∅) Loader_new))
    as (nf & s & E & I & _ & N); [|done| |].
  { split; cbn; try done; try (by intros f ?%elem_of_nil); try constructor; try constructor. }
  { intros e He. unfold fuel_for in Hf. eapply Nat.lt_le_trans; [|exact Hf].
    assert (length (all_deps (files_of_entry e)) ≤ max_list ((λ e, length (all_deps (files_of_entry e))) <$> entries)); [|lia].
    apply max_list_elem_of_le. apply list_elem_of_fmap. by exists e. }
  exists nf, s. split; [done|]. destruct I as [I1 I2 I3 I4 I5 I6 I7 I8 I9 I10 I11].
  assert (∀ f, f ∈ files_of (file_graph s) → settled s f) as Hset.
  { intros f Hin. destruct (I9 f Hin) as [?%elem_of_nil|]; done. }
  assert (∀ f, f ∈ files_of (file_graph s) ↔ reached entries f) as Hn.
  { intros f. split; [apply I6|]. intros (e & r & He & Hr & Hrf). specialize (N e r He Hr). clear Hr. revert N.
    induction Hrf as [|x y z Hxy _ IH]; [done|]. intros Hx. apply IH. apply (Hset x Hx) in Hxy as (i & j & _ & _ & Hj).
    by eapply list_elem_of_lookup_2. }
  split; try done.
  - intros f g. split.
    + intros Hl. destruct Hl as (i & j & Hij & Hi & Hj). pose proof Hi as Hin. apply list_elem_of_lookup_2 in Hin.
      split; [by apply Hn|]. apply (Hset f Hin). by exists i, j.
    + intros [Hr Hi]. by apply (Hset f (proj2 (Hn f) Hr)).
  - intros p m Hm. by rewrite (I1 p m Hm).
  - intros f Hr. pose proof (proj2 (Hn f) Hr) as Hin. destruct (I6 f Hin) as (_ & HfU & Hp).
    split_and!; [apply (Hset f Hin)|done|by apply (l_parent _ _ HU)].
Qed.

Lemma modules_lookup (c : gmap string Module) files p m :
  (list_to_map (omap (λ f, (path f,.) <$> c !! path f) files) : gmap string Module) !! p = Some m ↔
  p ∈ path <$> files ∧ c !! p = Some m.
Proof using.
  assert (∀ q x, (q, x) ∈ omap (λ f, (path f,.) <$> c !! path f) files ↔ q ∈ path <$> files ∧ c !! q = Some x) as Hin.
  { intros q x. rewrite list_elem_of_omap, list_elem_of_fmap. split.
    - intros (f & Hf & (y & Hy & [= -> ->])%fmap_Some). split; [by exists f|done].
    - intros [(f & -> & Hf) Hx]. exists f. by rewrite Hx. }
  split; [intros H%elem_of_list_to_map_2; by apply Hin|]. intros H. apply elem_of_list_to_map_1'; [|by apply Hin].
  intros y Hy. apply Hin in Hy as [_ Hy]. destruct H as [_ H]. congruence.
Qed.

(** The files of the program and the cycles of their paths. *)
Lemma program_spec fuel workdir : fuel_for entries ≤ fuel → ∃ r s files,
  parse_program fuel workdir entries Loader_new = Ok (Done r, s) ∧
  (paths r = path <$> files ∧ NoDup files ∧ (∀ f, f ∈ files ↔ reached entries f)) ∧
  (modules_ok (modules r) ∧ (∀ p, is_Some (modules r !! p) ↔ p ∈ paths r) ∧
   ∀ q, default [] (program_pkgs r !! q) = path <$> base.filter (λ f, pkg_path f = q) files) ∧
  ((∀ f, reached entries f → ¬ tc imports f f) → ∀ f g, reached entries f → imports f g → before files g f) ∧
  ((∀ p, ¬ tc (path_imports entries) p p) ∧ no_cyclic (result_errors r) ∨
   ∃ c, c ≠ [] ∧ (∀ p, p ∈ c → tc (path_imports entries) p p) ∧
     ∃ l1 l2, result_errors r = l1 ++ CyclicImport c :: l2 ∧ no_cyclic l1 ∧ no_cyclic l2).
Proof using HL HU.
  intros Hf. destruct (parsed_all fuel Hf) as (nf & s & E & [Wg Hn Hlk Hm Hfl Hpk He]).
  destruct (order_of _ _ HL _ Wg) as (ro & Eo & Hperm & Hord). cbv zeta in *.
  destruct (cycle_of _ _ HL _ Wg) as (rc & Ec & Hcyc).
  set (files := match ro with inr files => files | inl _ => graph_paths (file_graph s) end) in *.
  set (s1 := match rc with inl c => set_errors (λ l, l ++ [CyclicImport c]) s | inr _ => s end).
  assert (ast_cache s1 = ast_cache s ∧ pkgmap s1 = pkgmap s ∧ pkgs s1 = pkgs s) as (Hs1 & Hs2 & Hs3) by (by destruct rc).
  assert (∀ f, f ∈ files ↔ reached entries f) as Hfiles by (intros f; by rewrite Hperm, Hn).
  destruct (collect_files_spec nf files s1) as (s2 & k & E2 & Er & Hk & Hm2 & Hd2 & Hp2).
  { by rewrite Hs1. }
  { intros f Hin. rewrite Hs1, Hs2. by apply Hfl, Hfiles. }
  assert (∀ p q, path_linked (file_graph s) p q ↔ path_imports entries p q) as Hpl.
  { intros p q. unfold path_linked, path_imports. setoid_rewrite Hlk. naive_solver. }
  eexists _, s2, files. split; [|split; [|split; [|split]]].
  - unfold Load.parse_program, gets, modify, mbind, Ev_bind, mret, Ev_ret, lift in *. rewrite E, Eo, Ec. fold files.
    clear - E2. unfold s1 in E2. destruct rc; rewrite E2; reflexivity.
  - split_and!; [done| |done]. rewrite Hperm. by apply wf_nodup.
  - cbn [modules program_pkgs paths]. split_and!.
    + intros p m [_ Hl]%modules_lookup. by apply Hm2.
    + intros p. split; [intros [m [Hl _]%modules_lookup]; done|]. intros Hin. assert (is_Some (ast_cache s2 !! p)) as [m Hc].
      { apply Hd2. rewrite Hs1. apply list_elem_of_fmap in Hin as (f & -> & Hin). by apply Hfl, Hfiles. }
      exists m. by apply modules_lookup.
    + intros q. rewrite Hp2, Hs3. destruct (pkgs s !! q) as [l|] eqn:Eq; [|done]. by rewrite (Hpk _ _ Eq).
  - intros Hac f g Hr Hi. apply Hord; [|by apply Hlk]. intros x Hx.
    assert (reached entries x) as Hrx by (inversion Hx as [? y Hy|? y ? Hy]; subst; by apply Hlk in Hy as [? _]).
    apply (Hac x Hrx). eapply tc_congruence with (f := id); [|exact Hx]. intros a b Hab. by apply Hlk in Hab as [_ ?].
  - cbn [result_errors]. rewrite Er. destruct rc as [c|o]; cbn in Hcyc.
    + right. destruct Hcyc as [Hne Hc]. exists c. split_and!; [done| |].
      * intros p Hp. eapply tc_congruence with (f := id); [|by apply Hc]. intros a b. apply Hpl.
      * exists (errors s), k. split_and!; [|done..]. cbn. by rewrite <- app_assoc.
    + left. split; [|by apply list.Forall_app]. intros p Hp. apply (Hcyc p).
      eapply tc_congruence with (f := id); [|exact Hp]. intros a b. apply Hpl.
Qed.

(** C14: Loading ends.  With as many rounds as there are files and imports of the entries,
    it gives the files that the entries reach by imports, each once, with a module for each
    of their paths in which only the paths of imports differ from the source, and in each
    package its files in their order. *)
Theorem program_loaded fuel workdir : fuel_for entries ≤ fuel → ∃ r s files,
  parse_program fuel workdir entries Loader_new = Ok (Done r, s) ∧ paths r = path <$> files ∧
  NoDup files ∧ (∀ f, f ∈ files ↔ reached entries f) ∧
  modules_ok (modules r) ∧ (∀ p, is_Some (modules r !! p) ↔ p ∈ paths r) ∧
  ∀ q, default [] (program_pkgs r !! q) = path <$> base.filter (λ f, pkg_path f = q) files.
Proof using HL HU.
  intros Hf. destruct (program_spec fuel workdir Hf) as (r & s & files & E & (Hp & Hn & Hr) & (Hm & Hd & Hq) & _).
  by exists r, s, files.
Qed.

(** C15: Without cyclic imports the files come in an order in which each file is behind
    those that it imports. *)
Theorem import_order fuel workdir : fuel_for entries ≤ fuel → (∀ f, reached entries f → ¬ tc imports f f) →
  ∃ r s files, parse_program fuel workdir entries Loader_new = Ok (Done r, s) ∧ paths r = path <$> files ∧
    (∀ f, f ∈ files ↔ reached entries f) ∧ ∀ f g, reached entries f → imports f g → before files g f.
Proof using HL HU.
  intros Hf Hac. destruct (program_spec fuel workdir Hf) as (r & s & files & E & (Hp & Hn & Hr) & _ & Ho & _).
  exists r, s, files. split_and!; [done..|]. by apply Ho.
Qed.

(** C16: Cyclic imports are reported once if some path reaches itself by imports, and then
    every path of the report does; otherwise they are not reported. *)
Theorem cycles_reported fuel workdir : fuel_for entries ≤ fuel → ∃ r s,
  parse_program fuel workdir entries Loader_new = Ok (Done r, s) ∧
  ((∀ p, ¬ tc (path_imports entries) p p) ∧ no_cyclic (result_errors r) ∨
   ∃ c, c ≠ [] ∧ (∀ p, p ∈ c → tc (path_imports entries) p p) ∧
     ∃ l1 l2, result_errors r = l1 ++ CyclicImport c :: l2 ∧ no_cyclic l1 ∧ no_cyclic l2).
Proof using HL HU.
  intros Hf. destruct (program_spec fuel workdir Hf) as (r & s & files & E & _ & _ & _ & Hc). by exists r, s.
Qed.
End Program.
End Loading.

(** ** A sample

    The sources are the names of the imported packages: [main] imports the directory [a], a
    file of which imports the file [b], the imports of which are open. *)

Module Sample.
Section Sources.
Variable b : string.
Definition sources (p : string) : option string :=
  if bool_decide (p = "/p/main.k") then Some "a"
  else if bool_decide (p = "/p/a/x.k") then Some "b"
  else if bool_decide (p = "/p/a/y.k") then Some ""
  else if bool_decide (p = "/p/b.k") then Some b else None.
Definition fs : FileSystem := {|
  exists_ p := match sources p with Some _ => true | None => bool_decide (p ∈ ["/p"; "/p/a"]) end;
  is_dir p := bool_decide (p ∈ ["/p"; "/p/a"]);
  canonicalize p := Some p;
  read_to_string := sources;
  read_dir p := if bool_decide (p = "/p/a") then Some ["y.k"; "x.k"; "x_test.k"; "_z.k"] else None |}.
Definition src_of (p : string) : string := default "" (sources p).
End Sources.
Definition diff_paths (p base : string) : option string := None.
Definition opts : LoadProgramOptions := MkLoadOptions "/p" [] [] ∅ false false.
Definition codes (s : string) : list Z := (λ a, Z.of_N (Ascii.N_of_ascii a)) <$> String.list_ascii_of_string s.
Definition parse_source (s : string) : list Ast.Stmt :=
  if Value.str_is_empty s then [] else (λ n, Ast.SImport (codes n) (codes n) None) <$> StrMethods.split " " s.
Definition pkg_of (f : PkgFile) : Pkg := MkPkg MAIN_PKG "/p".
Definition all_files : list PkgFile :=
  [MkPkgFile "/p/main.k" MAIN_PKG; MkPkgFile "/p/a/x.k" "a"; MkPkgFile "/p/a/y.k" "a"; MkPkgFile "/p/b.k" "b"].
Definition files : gset PkgFile := list_to_set all_files.
Definition entries : list Entry := [MkEntry MAIN_PKG "/p" ["/p/main.k"] []].
Abbreviation run b := (parse_program Kahn.toposort Kahn.components (fs b) diff_paths opts parse_source 9 "/p" entries Loader_new).

Example sample_order :
  match run "" with Ok (Done r, _) => Some (paths r, result_errors r) | _ => None end =
  Some (["/p/b.k"; "/p/a/y.k"; "/p/a/x.k"; "/p/main.k"], []).
Proof. vm_compute. reflexivity. Qed.
Example sample_cycle :
  match run "a" with Ok (Done r, _) => Some (paths r, result_errors r) | _ => None end =
  Some (["/p/main.k"; "/p/a/x.k"; "/p/a/y.k"; "/p/b.k"], [CyclicImport ["/p/a/x.k"; "/p/b.k"]]).
Proof. vm_compute. reflexivity. Qed.

Abbreviation deps b := (deps_of (fs b) diff_paths opts parse_source pkg_of (src_of b)).
Definition dep_ok (b : string) (d : PkgFile * Pkg) : bool :=
  bool_decide (d.1 ∈ all_files) && bool_decide (d.2 = pkg_of d.1) &&
  bool_decide (read_to_string (fs b) (path d.1) = Some (src_of b (path d.1))).
Lemma all_loadable b :
  forallb (λ f, found (fs b) diff_paths opts parse_source pkg_of (src_of b) f && forallb (dep_ok b) (deps b f)) all_files = true →
  loadable (fs b) diff_paths opts parse_source pkg_of (src_of b) files entries.
Proof.
  intros H. assert (∀ f, f ∈ files → f ∈ all_files ∧ found (fs b) diff_paths opts parse_source pkg_of (src_of b) f = true ∧
    forallb (dep_ok b) (deps b f) = true) as Hf.
  { intros f Hf%elem_of_list_to_set. split; [done|]. apply forallb_forall with (x := f) in H; [|by apply list_elem_of_In].
    by apply andb_prop in H. }
  split.
  - intros f [Hin _]%Hf. by repeat (apply elem_of_cons in Hin as [->|Hin]; [eexists; vm_compute; reflexivity|]); apply elem_of_nil in Hin.
  - intros f Hin. by apply Hf.
  - intros f g p (_ & _ & Hd)%Hf Hin. apply forallb_forall with (x := (g, p)) in Hd; [|by apply list_elem_of_In].
    unfold dep_ok in Hd. cbn [fst snd] in Hd. apply andb_prop in Hd as [[Hg Hp]%andb_prop Hr].
    apply bool_decide_eq_true_1 in Hg, Hp, Hr. split_and!; [by apply elem_of_list_to_set|done..].
  - intros e f src ->%list_elem_of_singleton [= -> ->]%list_elem_of_singleton.
    split_and!; [apply elem_of_list_to_set; by left|done..].
Qed.
(** How far a file is from one without imports. *)
Definition depth (p : string) : nat := if bool_decide (p = "/p/main.k") then 2 else if bool_decide (p = "/p/a/x.k") then 1 else 0.
Lemma imports_deeper f g : imports (fs "") diff_paths opts parse_source pkg_of (src_of "") f g → depth (path g) < depth (path f).
Proof.
  destruct f as [p q]. unfold imports, deps_of, depth. cbn [path].
  intros H. destruct (decide (p = "/p/main.k")) as [->|H1]; [|destruct (decide (p = "/p/a/x.k")) as [->|H2]].
  - by repeat (apply elem_of_cons in H as [->|H]; [vm_compute; lia|]); apply elem_of_nil in H.
  - by repeat (apply elem_of_cons in H as [->|H]; [vm_compute; lia|]); apply elem_of_nil in H.
  - exfalso. assert (src_of "" p = "") as E.
    { unfold src_of, sources. rewrite (bool_decide_false _ H1), (bool_decide_false _ H2). by repeat case_bool_decide. }
    cbn [path] in H. rewrite E in H. by apply elem_of_nil in H.
Qed.
Lemma no_cycle f : ¬ tc (imports (fs "") diff_paths opts parse_source pkg_of (src_of "")) f f.
Proof.
  intros H. assert (∀ x y, tc (imports (fs "") diff_paths opts parse_source pkg_of (src_of "")) x y → depth (path y) < depth (path x)) as Hd.
  { induction 1 as [x y Hxy|x y z Hxy _ IH]; apply imports_deeper in Hxy; lia. }
  apply Hd in H. lia.
Qed.
Ltac import_found := unfold imports; refine (bool_decide_eq_true_1 _ _); vm_compute; reflexivity.
Lemma cycle_reached f : f ∈ [MkPkgFile "/p/a/x.k" "a"; MkPkgFile "/p/b.k" "b"] →
  reached (fs "a") diff_paths opts parse_source pkg_of (src_of "a") entries f.
Proof.
  intros Hf. exists (MkEntry MAIN_PKG "/p" ["/p/main.k"] []), (MkPkgFile "/p/main.k" MAIN_PKG). split_and!; [by left..|].
  eapply (rtc_l _ _ (MkPkgFile "/p/a/x.k" "a")); [import_found|].
  apply elem_of_cons in Hf as [-> | ->%list_elem_of_singleton]; [done|]. apply rtc_once. import_found.
Qed.
End Sample.

Section Witnesses.
Import Sample.
Lemma program_loaded_witness : ∃ r s fs', run "" = Ok (Done r, s) ∧ paths r = path <$> fs' ∧ NoDup fs' ∧
  ∀ f, f ∈ fs' ↔ reached (fs "") diff_paths opts parse_source pkg_of (src_of "") entries f.
Proof.
  destruct (program_loaded Kahn.toposort Kahn.components (fs "") diff_paths opts parse_source pkg_of (src_of "")
    Kahn.laws files entries (all_loadable "" eq_refl) 9 "/p") as (r & s & l & E & Hp & Hn & Hr & _); [vm_compute; lia|].
  exists r, s, l. exact (conj E (conj Hp (conj Hn Hr))).
Defined.
Lemma import_order_witness : ∃ r s fs', run "" = Ok (Done r, s) ∧ paths r = path <$> fs' ∧
  before fs' (MkPkgFile "/p/a/x.k" "a") (MkPkgFile "/p/main.k" MAIN_PKG).
Proof.
  destruct (import_order Kahn.toposort Kahn.components (fs "") diff_paths opts parse_source pkg_of (src_of "")
    Kahn.laws files entries (all_loadable "" eq_refl) 9 "/p") as (r & s & l & E & Hp & Hr & Ho); [vm_compute; lia|intros f _; apply no_cycle|].
  exists r, s, l. split; [exact E|]. split; [exact Hp|]. apply Ho.
  - exists (MkEntry MAIN_PKG "/p" ["/p/main.k"] []), (MkPkgFile "/p/main.k" MAIN_PKG). split_and!; [by left..|done].
  - import_found.
Defined.
Lemma cycles_reported_witness : ∃ r s c, run "a" = Ok (Done r, s) ∧ CyclicImport c ∈ result_errors r.
Proof.
  destruct (cycles_reported Kahn.toposort Kahn.components (fs "a") diff_paths opts parse_source pkg_of (src_of "a")
    Kahn.laws files entries (all_loadable "a" eq_refl) 9 "/p") as (r & s & E & [[Hn _]|(c & _ & _ & l1 & l2 & He & _)]); [vm_compute; lia| |].
  - exfalso. apply (Hn "/p/b.k"), (tc_l _ _ "/p/a/x.k"), tc_once;
      [exists (MkPkgFile "/p/b.k" "b"), (MkPkgFile "/p/a/x.k" "a")|exists (MkPkgFile "/p/a/x.k" "a"), (MkPkgFile "/p/b.k" "b")];
      (split_and!; [|import_found|reflexivity..]).
    + apply cycle_reached. by right; left.
    + apply cycle_reached. by left.
  - exists r, s, c. split; [exact E|]. rewrite He. apply elem_of_app. right; left.
Defined.
End Witnesses.
